(* ===== verification/_CoqProject ===== *)
-Q . S2P
Prelude.v
WireBytes.v
Bitcoin.v
BitcoinTx.v
Timelock.v
SparkTx.v
TreeModel.v
NodeWire.v
ExitChain.v
ExitPlan.v
ExitPlanSpec.v
ExitFundingSpec.v
ExitSample.v
ExitScan.v
ExitScanSpec.v
ExitScanExact.v
ExitCheck.v
ExitCheckSpec.v
ExitFundingScan.v
ExitBuild.v
ExitSweep.v
ExitFollow.v
ExitFollowSpec.v
ExitBuildSpec.v
ExitPlanBuild.v
ExitBuildOrder.v
LeafSelect.v
TreeStore.v
TreeStoreInv.v
TreeStoreSystem.v
TreeStoreSpec.v
TreeStoreHeld.v
ExitStore.v
Paging.v
TreeService.v
TreeServiceSpec.v
TreeServiceStore.v
FrostBatch.v
FrostSample.v
RefundJobs.v
RefundJobsSpec.v
TransferModel.v
ServiceCalls.v
FrostAggregate.v
TransferService.v
SwapService.v
TransferServiceSpec.v
TransferCompletes.v
SampleWorld.v
SwapServiceSpec.v
SwapAdaptor.v
ClaimLocks.v
TimelockManager.v
TimelockRenewal.v
TimelockManagerSpec.v
ExitChainResolver.v
ExitState.v
ExitStateSpec.v
ExitStateStore.v
ExitChainResolverSpec.v
ExitChainResolverStore.v
WalletPay.v
WalletPaySpec.v
WalletPayStore.v
CoopExit.v
CoopExitSpec.v
CoopExitSample.v
PreimageSwap.v
PreimageSwapSpec.v
LightningService.v
LightningSpec.v
LightningSample.v
LeafPlan.v
LeafPlanSpec.v
LeafOptimizer.v
TokenModel.v
TokenStore.v
TokenStoreSpec.v
SecretSharing.v
