(* ===== verification/Prelude.v ===== *)
(** * Verification of the Spark SDK's wallet core

    This library models the part of the Spark SDK that decides what happens to a
    wallet's money. A Spark wallet owns _leaves_, nodes of off-chain transaction
    trees that it shares with a set of operators, and _token outputs_. It keeps both
    in stores, reserves them for payments and swaps, refreshes them from the
    operators, renews their timelocks, and reshapes them in the background so that
    payments need fewer swaps. When the operators do not cooperate it takes its
    leaves on-chain by itself: a _unilateral exit_. Unless they say otherwise, the
    paths below are relative to [src/crates/spark/src].

    ** The program's parts and the files that model them

    Foundations:
    - [Prelude]: Rust's [Result], machine integers, iterators, sorting, hash maps
      with an unspecified iteration order, loops with very large bounds, calls
      that act on a world; and the lemmas and hints every file shares.
    - [Bitcoin], [BitcoinTx]: the operations of third-party crates the code relies
      on, as classes with the documented laws, and one concrete instance of each,
      for evaluating the model.

    Leaves and trees:
    - [Timelock] ([core/constants.rs]): sequence numbers, renewal arithmetic.
    - [SparkTx] ([utils/transactions.rs]): node, refund and connector transactions.
    - [TreeModel] ([tree/mod.rs], [tree/error.rs]): nodes, leaf sets, reservations,
      payment targets, and their methods.
    - [ExitChain] ([tree/chain.rs]): ancestor chains for unilateral exits.
    - [LeafSelect] ([tree/select_helper.rs]): choosing leaves that pay a target.

    Unilateral exits, from the quote to the check of a kept exit:
    - [ExitPlan], [ExitPlanSpec], [ExitFundingSpec] ([services/unilateral_exit.rs]):
      what an exit costs, which leaves it is worth for, how the caller's UTXOs fund
      its branches; quotes and plans. [ExitSample] is a small tree to evaluate on.
    - [ExitScan], [ExitScanSpec], [ExitScanExact] ([crates/spark-wallet/src/unilateral_exit.rs]):
      reading off the chain what it has already done to a tree.
    - [ExitBuild], [ExitBuildSpec], [ExitPlanBuild], [ExitBuildOrder] (the same file):
      building the transactions of a plan.
    - [ExitCheck], [ExitCheckSpec], [ExitFundingScan] (the same file): reading a kept
      exit back, and following funding that was spent.
    - [ExitFollow], [ExitFollowSpec] ([crates/breez-sdk/core/src/sdk/unilateral_exit.rs]):
      the chain service, the drivers of the scans, and [check_unilateral_exit].
    - [ExitSweep] ([crates/spark-wallet/src/wallet.rs]): the transaction that sweeps
      the refunds of a finished exit, with its reference definition.

    The leaf store and its service:
    - [TreeStore], [TreeStoreInv], [TreeStoreSystem], [TreeStoreSpec], [TreeStoreHeld]
      ([tree/store.rs]): the in-memory leaf store. [TreeStore] has one definition
      per [process_*] command handler; [TreeStoreInv] the well-formed states and the
      commands that keep them; [TreeStoreSystem] the callers, the command channel and
      the reservation semaphore around it, as a step relation; [TreeStoreSpec]
      what each command promises; [TreeStoreHeld] what holds of a leaf through any
      sequence of commands, whatever leaves they are given.
    - [Paging] ([utils/paging.rs]): the loop behind every operator query.
    - [TreeService], [TreeServiceSpec], [TreeServiceStore] ([tree/service.rs]): the
      service that drives the store, the swap service, the timelock manager, the
      signer and the operators. [TreeService] has its methods over two interface
      classes; [TreeServiceSpec] the laws of the interfaces and the theorems;
      [TreeServiceStore] the in-memory store as an instance, with the proof of
      its laws.
    - [ExitStore]: how each command of the store changes the stored chains.
    - [ExitChainResolver], [ExitChainResolverSpec], [ExitChainResolverStore]
      ([tree/exit_chain_resolver.rs]): the pass that fetches missing exit chains, its
      pacing, and its composition with the service and the in-memory store.
    - [ExitState], [ExitStateSpec], [ExitStateStore] ([crates/spark-wallet/src/wallet.rs]):
      the leaves and the tree of an exit, and the backup of the exit state, composed
      with the service and the store.
    - [NodeWire] ([services/models.rs]): nodes, commitments and signed transactions as
      messages.
    - [FrostBatch] ([utils/frost.rs]): the user's half of a batch of FROST signatures;
      [FrostSample] is a signer to evaluate on.
    - [TimelockManager], [TimelockRenewal], [TimelockManagerSpec]
      ([services/timelock_manager.rs], [utils/signing_job.rs]): the renewal of leaves;
      its definitions, what its transactions spend and pay and how the chain is
      rebuilt, and what a pass signs and returns.

    Leaves that change hands:
    - [WireBytes] ([utils/tagged_hasher.rs], [utils/byte_padding.rs]): the bytes of
      amounts and of the messages that are signed.
    - [RefundJobs], [RefundJobsSpec] ([utils/refund.rs], [utils/htlc_transactions.rs],
      [services/models.rs]): the refunds of leaves that are sent, hash-locked or not, and
      their signature in batches.
    - [TransferModel] ([services/models.rs], [utils/time.rs]): transfers as messages and
      as the wallet holds them.
    - [TransferService], [TransferServiceSpec], [TransferCompletes]
      ([services/transfer.rs]): sending with its recovery, the queries, and claiming with
      its retries; what they sign, ask for and return; and a claim that succeeds.
    - [ClaimLocks] (the same file): the locks that keep the claims of a transfer apart,
      as a step relation over tasks that may be cancelled.
    - [ServiceCalls] ([services/error.rs], [ssp/]): what the services that call the
      service provider share: its errors, its amounts, the clock. [FrostAggregate]
      ([utils/frost.rs], [services/models.rs]): the operators' half of a signature and its
      aggregation with the user's.
    - [SwapService], [SwapServiceSpec], [SwapAdaptor] ([services/swap.rs]): the swap of
      leaves for others of the service provider; in which order its parts run, and what is
      aggregated of what was signed.
    - [CoopExit], [CoopExitSpec], [CoopExitSample] ([services/coop_exit.rs]): the
      withdrawal with the service provider; what it signs, and in which order.
      [CoopExitSample] is a provider, an operator and a clock to evaluate on.
    - [PreimageSwap], [PreimageSwapSpec] ([utils/preimage_swap.rs], [services/htlc.rs]):
      payments that the receiver gets for the preimage of a hash, and HTLCs.
    - [LightningService], [LightningSpec], [LightningSample] ([services/lightning.rs]):
      asking for invoices and checking them, paying invoices, and resuming payments.
    - [SampleWorld] is a signer, a coordinator and a clock for the samples of these
      services.
    - [WalletPay], [WalletPaySpec], [WalletPayStore] ([crates/spark-wallet/src/wallet.rs],
      [services/coop_exit.rs]): how the wallet pays with leaves, the retries around the
      selection and around the operation, and the withdrawal; composed with the service,
      and evaluated over the in-memory store.
    - [LeafPlan], [LeafPlanSpec], [LeafOptimizer] ([tree/leaf_optimizer.rs]): the
      plans of the background optimizer, their correctness, and the driver that
      carries them out.

    Tokens and secrets:
    - [TokenModel], [TokenStore], [TokenStoreSpec] ([token/mod.rs], [token/error.rs],
      [token/store/mod.rs]): token outputs, their selection, and the in-memory
      token store.
    - [SecretSharing] ([signer/secret_sharing.rs]): dealing verifiable shares. It
      is written with MathComp, so it stands apart from the other files.

    ** How the code is modelled

    Integers are [Z] with the wrap-around of their width written out ([uadd],
    [usub], [sum_wrap], the saturating operations), as in a release build. A
    [Result] is a [result]; a panic is [None]. A [HashMap] is a [gmap]; code that
    iterates over one takes the order from a [HashIter] argument, so the theorems
    hold for every order. Clock readings, new UUIDs and random bytes are arguments.
    The stores run one command at a time (a processor task, a mutex), so a command
    is a function of the state; interleaving of callers is the step relation of
    [TreeStoreSystem] and [ClaimLocks] and the sequences of commands of [TreeStoreHeld]
    and [TokenStoreSpec]. The service and the optimizer call other services while they
    run: their methods act on a world [W] through the classes [TreeStoreApi],
    [ServiceEnv], [OptimizerEnv], [ResolverService], [SweepEnv], [FrostEnv], [RefundEnv],
    [TransferEnv], [RenewalEnv] and [Optimizer], and the exit's lookups through
    [BitcoinChainService]. The services that talk to the service provider do so through
    [SwapEnv], [CoopExitEnv], [PreimageEnv], [LightningEnv], [FrostAggregate] and
    [ClockEnv]. The chain itself appears only in theorems, as the record
    [Chain] of what is in its blocks.

    ** What the theorems show

    - Money arithmetic: renewal never wraps and always runs out ([Timelock],
      [TreeModel]); selections are sub-multisets of the pool worth exactly what
      they should be, and complete on power-of-two pools ([LeafSelect],
      [TokenModel]).
    - Unilateral exits: a quote is the exact sum of the fees it charges, an accepted
      plan builds when the chain state fits the tree, and a build can be broadcast in
      the order it is listed and names the outputs it leaves; scans,
      checks and the tracing of funding end and say exactly what is in the chain's
      blocks, as long as the answers they get do. The sweep that ends an exit is the
      reference sweep. Missing chains the operators know are fetched and stored, at a bounded pace; a
      backup of the exit state restores it and never costs an exit.
    - Timelock renewal: it signs only transactions that keep a leaf's coins or pay them
      to the leaf's own key, loses no leaf, and completes, with an exit that still
      reaches a root, when the coordinator goes along.
    - Transfers: a payment signs only refunds to its receiver that come due before the
      sender's own, and starts at most one transfer; a claim signs only refunds of leaves
      the sender vouched for, to the wallet's own keys, never panics, settles within its
      retries and, with willing operators, completes. Claims of one transfer exclude each
      other and agree. What is signed determines what it is for.
    - Swaps and withdrawals: the counter-transfer is claimed only once the user's leaves
      are signed away, and the message the service provider's signature is aggregated
      with is the message that was signed; every refund a withdrawal signs is bound to its
      exit transaction, and an exit that succeeds took its steps in order.
    - Lightning and HTLCs: a payment signs only refunds to its receiver, for the preimage
      or for the operators to hold, and the service provider is asked to pay only what the
      operators hold; a payment that is resumed is one they still hold; an invoice is given
      out only if it is the one that was asked for.
    - The leaf store: no leaf is held twice unless a command hands over one that is
      held, permits never leak, reservations are all or nothing and undone by
      cancelling, a refresh loses no fresh leaf and brings back no spent one unless it,
      or one before it, started after the leaf was spent; exit chains read back whole.
    - The service: a selection ends, pays exactly, and gives its reservation back
      when it fails, with two exceptions; a refresh gives the store exactly the leaves
      the operators agree on, and apart from them those they do not;
      paged queries end and miss nothing.
    - Payments: they end, give back what they reserved, with the exceptions of the
      selection, and a withdrawal spends leaves worth exactly its amount and its fee.
    - The optimizer: plans give what the wallet has for the same value, respect
      their limits and reach their target shape; runs end, stay under their cap
      and report what they did.
    - The token store: all or nothing, lossless, well filed.
    - Secret sharing: enough shares give the secret back, fewer are dealt alike for
      every other secret, every share verifies.

    Some theorems state behaviour that a reader of the source may not expect:
    [short_commitments_panic], [second_child_is_misread], [short_chunk_panics], [unconfirmed_leaf_counts_as_imported],
    [swapped_leaf_is_restored], [refresh_during_a_payment_swap],
    [unilateral_exit_convergence_gap],
    [readded_output_is_reserved_and_available], [labelled_node_is_underfunded],
    [unconfirmed_direct_is_reported_confirmed], [greedy_misses_a_partition], the
    exceptions in [auto_run_events], [manual_run_capped], [no_leaf_is_held_twice],
    [finalized_leaf_stays_spent], [select_leaves_gives_back] and [payment_gives_back].

    ** Bounds and fuel

    Loops whose bound is in the data recurse on it or carry it as fuel: chain
    walks take one or two more rounds than the map has nodes ([exit_walk],
    [walk]); the loops of the exit checks count the inputs and outputs that can
    come on their stacks ([mark_fuel], [funding_fuel]), and their drivers the
    lookups that can be asked ([lookups_max], [check_queries], [funding_queries]);
    the optimizer's inner loops take the sizes of their inputs and its planning
    loop the code's own limit of eight; power loops take 65 rounds for 64-bit
    values; [adopt_line] takes one round more than the map it copies from has nodes
    ([adopt_line_ends]); batches are cut with the length of the list as fuel
    ([chunks_concat]); [pager] takes [2 ^ 64] rounds. In each case a theorem
    says that no more is needed. The claim loop recurses on the attempts that are left.
    The waiting loop of [select_leaves] takes the number of rounds as an argument, and [select_leaves_ends] bounds the rounds by the clock; nine rounds are
    enough for the retries of a payment ([payment_ends]), and the code's own five attempts
    for a request to the service provider ([ssp_requests_end]).

    ** What is not modelled

    Key derivation and the signer's cryptography ([signer/]), and the deposit
    service ([services/deposit.rs]), which puts messages
    together for the operators and the service provider; the operator and SSP clients;
    preparing and signing an exit in the SDK, which call the wallet and an external
    signer; the SQL stores ([crates/spark-postgres],
    [spark-mysql], [spark-sqlite]); the SDK above the wallet and its bindings; the token
    service. *)

From Stdlib Require Export ZArith Lia Sorting.Sorted.
From stdpp Require Export numbers option gmap strings sorting list.

#[export] Set Default Goal Selector "!".
Open Scope Z_scope.

(** ** Results: Rust's [Result<A, E>] *)

Inductive result (E A : Type) : Type :=
| Ok (a : A)
| Err (e : E).
Arguments Ok {E A} a.
Arguments Err {E A} e.

#[export] Instance result_ret {E} : MRet (result E) := λ A a, Ok a.
#[export] Instance result_bind {E} : MBind (result E) := λ A B f m,
  match m with Ok a => f a | Err e => Err e end.
#[export] Instance result_fmap {E} : FMap (result E) := λ A B f m,
  match m with Ok a => Ok (f a) | Err e => Err e end.

(** [Option::ok_or]. *)
Definition ok_or {E A} (o : option A) (e : E) : result E A :=
  match o with Some a => Ok a | None => Err e end.

Definition is_Ok {E A} (r : result E A) : bool :=
  match r with Ok _ => true | Err _ => false end.

Lemma bind_Ok {E A B} (f : A → result E B) (m : result E A) b :
  m ≫= f = Ok b ↔ ∃ a, m = Ok a ∧ f a = Ok b.
Proof. destruct m; naive_solver. Qed.

Lemma ok_or_Ok {E A} (o : option A) (e : E) a : ok_or o e = Ok a ↔ o = Some a.
Proof. destruct o; naive_solver. Qed.

(** Fallible traversal with the [?] operator inside a loop. *)
Fixpoint mapR {E A B} (f : A → result E B) (l : list A) : result E (list B) :=
  match l with
  | [] => Ok []
  | x :: l => y ← f x; ys ← mapR f l; Ok (y :: ys)
  end.

Lemma mapR_Ok {E A B} (f : A → result E B) l k :
  mapR f l = Ok k ↔ Forall2 (λ x y, f x = Ok y) l k.
Proof.
  revert k; induction l as [|x l IH]; intros k; simpl.
  - split; [naive_solver|]. by inversion 1.
  - rewrite bind_Ok. setoid_rewrite bind_Ok. split.
    + intros (y & ? & ys & ?%IH & [= <-]). by constructor.
    + inversion 1; subst. naive_solver.
Qed.

Lemma mapR_Err {E A B} (f : A → result E B) l e :
  mapR f l = Err e → ∃ x, x ∈ l ∧ f x = Err e.
Proof.
  induction l as [|x l IH]; simpl; [done|]. destruct (f x) as [y|e'] eqn:Hx; simpl.
  - destruct (mapR f l); simpl; [done|]. intros [= ->].
    destruct IH as (z & ? & ?); [done|]. exists z. split; [by right|done].
  - intros [= ->]. exists x. split; [by left|done].
Qed.

(** A loop that threads a state and may return early with an error. *)
Fixpoint foldlR {E A B} (f : B → A → result E B) (b : B) (l : list A) : result E B :=
  match l with
  | [] => Ok b
  | x :: l => b ← f b x; foldlR f b l
  end.

Lemma foldlR_app {E A B} (f : B → A → result E B) b l k :
  foldlR f b (l ++ k) = (b ← foldlR f b l; foldlR f b k).
Proof. revert b. induction l as [|x l IH]; intros b; simpl; [done|]. destruct (f b x); simpl; auto. Qed.

(** What the steps preserve holds of the result of the loop. *)
Lemma foldlR_inv {E A B} (f : B → A → result E B) (Inv : list A → B → Prop) l b b' :
  (∀ done x b b', done ++ [x] `prefix_of` l → Inv done b → f b x = Ok b' → Inv (done ++ [x]) b') →
  Inv [] b → foldlR f b l = Ok b' → Inv l b'.
Proof.
  intros Hf. assert (∀ k d b, d ++ k = l → Inv d b → foldlR f b k = Ok b' → Inv l b') as Hgen.
  { induction k as [|x k IH]; intros d c Hl Hd; simpl.
    - intros [= <-]. rewrite app_nil_r in Hl. by subst.
    - rewrite bind_Ok. intros (c' & Hx & Hk). apply (IH (d ++ [x]) c'); [|eapply Hf; eauto|done].
      + by rewrite <- app_assoc.
      + exists k. by rewrite <- app_assoc. }
  intros Hb Hl. by eapply (Hgen l [] b).
Qed.

(** A loop whose steps succeed from the states it can be in succeeds. *)
Lemma foldlR_ok {E A B} (f : B → A → result E B) (Inv : list A → B → Prop) l b :
  (∀ pre x post b, l = pre ++ x :: post → Inv pre b →
     ∃ b', f b x = Ok b' ∧ Inv (pre ++ [x]) b') →
  Inv [] b → ∃ b', foldlR f b l = Ok b' ∧ Inv l b'.
Proof.
  intros Hf. assert (∀ k d b, d ++ k = l → Inv d b → ∃ b', foldlR f b k = Ok b' ∧ Inv l b') as Hgen.
  { induction k as [|x k IH]; intros d c Hl Hd; simpl.
    - rewrite app_nil_r in Hl. subst. eauto.
    - destruct (Hf d x k c (eq_sym Hl) Hd) as (c' & -> & Hd'). simpl.
      apply (IH (d ++ [x])); [by rewrite <- app_assoc|done]. }
  intros Hb. by apply (Hgen l []).
Qed.

(** Loops whose steps all succeed succeed. *)
Lemma is_Ok_inv {E A} (r : result E A) : is_Ok r = true → ∃ a, r = Ok a.
Proof. destruct r; [eauto|done]. Qed.

Lemma mapR_total {E A A'} (f : A → result E A') l :
  Forall (λ a, is_Ok (f a) = true) l → ∃ k, mapR f l = Ok k ∧ length k = length l.
Proof.
  induction 1 as [|a l (b & Hb)%is_Ok_inv _ (k & Hk & Hl)]; [by exists []|].
  exists (b :: k). simpl. rewrite Hb. simpl. rewrite Hk. simpl. split; [done|by f_equal].
Qed.

Lemma foldlR_total {E A A'} (f : A' → A → result E A') b l :
  (∀ b x, ∃ b', f b x = Ok b') → ∃ b', foldlR f b l = Ok b'.
Proof.
  intros Hf. revert b. induction l as [|x l IH]; intros b; [by exists b|]. simpl.
  destruct (Hf b x) as [b' ->]. apply IH.
Qed.

(** What the steps of a loop keep holds at its end. *)
Lemma foldl_inv {A B} (f : B → A → B) (Inv : list A → B → Prop) l b :
  (∀ pre x post b, l = pre ++ x :: post → Inv pre b → Inv (pre ++ [x]) (f b x)) →
  Inv [] b → Inv l (foldl f b l).
Proof.
  intros Hf. assert (∀ k d b, d ++ k = l → Inv d b → Inv l (foldl f b k)) as Hgen.
  { induction k as [|x k IH]; intros d c Hl Hd; simpl.
    - rewrite app_nil_r in Hl. by subst.
    - apply (IH (d ++ [x])); [by rewrite <- app_assoc|]. by apply (Hf d x k c (eq_sym Hl)). }
  by apply (Hgen l []).
Qed.

(** ** Machine integers

    An unsigned [w]-bit integer is a [Z]; [in_uint w z] says the value is one
    the Rust type can hold. The workspace's release profile leaves
    [overflow-checks] off, so [+] and [-] wrap. *)

Definition wrap (w z : Z) : Z := z mod 2 ^ w.
Definition in_uint (w z : Z) : Prop := 0 ≤ z < 2 ^ w.
Definition uadd (w a b : Z) : Z := wrap w (a + b).
Definition usub (w a b : Z) : Z := wrap w (a - b).
Definition checked_add (w a b : Z) : option Z :=
  if a + b <? 2 ^ w then Some (a + b) else None.
Definition checked_sub (a b : Z) : option Z :=
  if b <=? a then Some (a - b) else None.
Definition saturating_sub (a b : Z) : Z := Z.max 0 (a - b).
Definition saturating_add (w a b : Z) : Z := Z.min (a + b) (2 ^ w - 1).
Definition saturating_mul (w a b : Z) : Z := Z.min (a * b) (2 ^ w - 1).
(** [x as i64] of a [u64]. *)
Definition as_i64 (x : Z) : Z := if x <? 2 ^ 63 then x else x - 2 ^ 64.
(** [div_ceil], for a positive divisor *)
Definition div_ceil (a b : Z) : Z := - ((- a) / b).

#[export] Instance in_uint_dec w z : Decision (in_uint w z).
Proof. unfold in_uint. apply _. Defined.

Lemma wrap_small w z : in_uint w z → wrap w z = z.
Proof. intros. by apply Z.mod_small. Qed.

Lemma wrap_range w z : 0 ≤ w → in_uint w (wrap w z).
Proof. intros. apply Z.mod_pos_bound. by apply Z.pow_pos_nonneg. Qed.

Lemma uadd_small w a b : 0 ≤ a + b < 2 ^ w → uadd w a b = a + b.
Proof. apply wrap_small. Qed.

Lemma usub_small w a b : 0 ≤ b ≤ a → a < 2 ^ w → usub w a b = a - b.
Proof. intros. apply wrap_small. unfold in_uint. lia. Qed.

(** [iter().sum()], first on mathematical integers, then at width [w]. *)
Fixpoint sumZ (l : list Z) : Z :=
  match l with [] => 0 | x :: l => x + sumZ l end.
Definition sum_wrap (w : Z) (l : list Z) : Z := foldl (uadd w) 0 l.

Lemma sumZ_cons x l : sumZ (x :: l) = x + sumZ l.
Proof. done. Qed.

Lemma sumZ_app l k : sumZ (l ++ k) = sumZ l + sumZ k.
Proof. induction l; simpl; lia. Qed.

Lemma sumZ_perm l k : l ≡ₚ k → sumZ l = sumZ k.
Proof. induction 1; simpl in *; lia. Qed.

Lemma sumZ_nonneg l : Forall (λ x, 0 ≤ x) l → 0 ≤ sumZ l.
Proof. induction 1; simpl in *; lia. Qed.

Lemma sumZ_submseteq l k :
  Forall (λ x, 0 ≤ x) k → l ⊆+ k → sumZ l ≤ sumZ k.
Proof.
  intros Hk [r Hr]%submseteq_Permutation. rewrite Hr in Hk.
  rewrite (sumZ_perm _ _ Hr), sumZ_app.
  apply Forall_app in Hk as [_ ?%sumZ_nonneg]. lia.
Qed.

Lemma sumZ_concat ls : sumZ (concat ls) = sumZ (sumZ <$> ls).
Proof. induction ls; csimpl; [done|]. rewrite sumZ_app. lia. Qed.

Lemma sumZ_fmap_add {A} (f g : A → Z) l :
  sumZ ((λ x, f x + g x) <$> l) = sumZ (f <$> l) + sumZ (g <$> l).
Proof. induction l; csimpl; lia. Qed.

Lemma sumZ_replicate n x : sumZ (replicate n x) = Z.of_nat n * x.
Proof. induction n; simpl in *; lia. Qed.

Lemma sum_wrap_mod_aux w l a :
  0 ≤ w → foldl (uadd w) (wrap w a) l = wrap w (a + sumZ l).
Proof.
  intros Hw. revert a. induction l as [|x l IH]; intros a; simpl.
  - f_equal. lia.
  - replace (uadd w (wrap w a) x) with (wrap w (a + x)).
    2:{ unfold uadd, wrap. by rewrite Zplus_mod_idemp_l. }
    rewrite IH.
    f_equal. lia.
Qed.

Lemma sum_wrap_mod w l : 0 ≤ w → sum_wrap w l = wrap w (sumZ l).
Proof.
  intros Hw. unfold sum_wrap.
  replace 0 with (wrap w 0) at 1 by (unfold wrap; apply Zmod_0_l).
  by rewrite sum_wrap_mod_aux.
Qed.

Lemma sum_wrap_exact w l :
  0 ≤ w → Forall (λ x, 0 ≤ x) l → sumZ l < 2 ^ w → sum_wrap w l = sumZ l.
Proof.
  intros ? ?%sumZ_nonneg ?. rewrite sum_wrap_mod by done.
  by apply wrap_small.
Qed.

(** [fold(0, saturating_add)] *)
Definition sat_sum (w : Z) (l : list Z) : Z := foldl (saturating_add w) 0 l.

Lemma sat_sum_aux w l a :
  Forall (λ x, 0 ≤ x) l → 0 ≤ a →
  foldl (saturating_add w) (Z.min a (2 ^ w - 1)) l = Z.min (a + sumZ l) (2 ^ w - 1).
Proof.
  intros Hl. revert a. induction Hl as [|x l Hx Hl IH]; intros a Ha; simpl; [f_equal; lia|].
  replace (saturating_add w (Z.min a (2 ^ w - 1)) x) with (Z.min (a + x) (2 ^ w - 1))
    by (unfold saturating_add; lia).
  rewrite IH by lia. f_equal. lia.
Qed.

(** A saturating sum is the sum capped at the largest integer of the width. *)
Lemma sat_sum_min w l :
  0 ≤ w → Forall (λ x, 0 ≤ x) l → sat_sum w l = Z.min (sumZ l) (2 ^ w - 1).
Proof.
  intros Hw Hl. unfold sat_sum. pose proof (Z.pow_pos_nonneg 2 w ltac:(lia) Hw).
  replace 0 with (Z.min 0 (2 ^ w - 1)) at 1 by lia. by rewrite sat_sum_aux.
Qed.

Lemma sat_sum_exact w l :
  0 ≤ w → Forall (λ x, 0 ≤ x) l → sumZ l < 2 ^ w → sat_sum w l = sumZ l.
Proof. intros. rewrite sat_sum_min by done. lia. Qed.

Lemma sat_sum_le w l : 0 ≤ w → Forall (λ x, 0 ≤ x) l → sat_sum w l ≤ sumZ l.
Proof. intros. rewrite sat_sum_min by done. lia. Qed.

Lemma saturating_add_exact w a b : 0 ≤ a + b < 2 ^ w → saturating_add w a b = a + b.
Proof. unfold saturating_add. lia. Qed.

Lemma saturating_mul_exact w a b : 0 ≤ a * b < 2 ^ w → saturating_mul w a b = a * b.
Proof. unfold saturating_mul. lia. Qed.

Lemma div_ceil_spec a b : 0 < b → div_ceil a b * b - b < a ≤ div_ceil a b * b.
Proof.
  intros Hb. unfold div_ceil. pose proof (Z.div_mod (- a) b ltac:(lia)).
  pose proof (Z.mod_pos_bound (- a) b Hb). lia.
Qed.

(** ** Vectors *)

(** [Vec::swap_remove]: the element at [i] is taken out and the last one put in
    its place. *)
Definition swap_remove {A} (i : nat) (l : list A) : list A :=
  match last l with
  | Some x => take (length l - 1) (<[i := x]> l)
  | None => l
  end.

Lemma swap_remove_perm {A} i (l : list A) x :
  l !! i = Some x → l ≡ₚ x :: swap_remove i l.
Proof.
  intros Hi. unfold swap_remove.
  destruct (last l) as [y|] eqn:Hl.
  2:{ apply last_None in Hl as ->. done. }
  apply last_Some in Hl as [k ->].
  rewrite length_app. simpl. replace (length k + 1 - 1)%nat with (length k) by lia.
  destruct (decide (i = length k)) as [->|Hne].
  - rewrite lookup_app_r, Nat.sub_diag in Hi by lia. simplify_eq/=.
    rewrite insert_app_r_alt, Nat.sub_diag by lia. simpl.
    rewrite take_app_length. by rewrite Permutation_app_comm.
  - assert (i < length k)%nat as Hlt.
    { apply lookup_lt_Some in Hi. rewrite length_app in Hi. simpl in Hi. lia. }
    rewrite lookup_app_l in Hi by done.
    rewrite insert_app_l by done.
    rewrite take_app_le by (rewrite length_insert; lia).
    rewrite take_ge by (rewrite length_insert; lia).
    rewrite Permutation_app_comm. simpl.
    rewrite <- (take_drop_middle k i x) at 1 by done.
    rewrite insert_take_drop by done.
    rewrite <- !Permutation_middle. apply Permutation_swap.
Qed.

(** [slice::sort_by_key] and friends are stable sorts; [leb] is the test
    [key x <= key y]. *)
Section stable_sort.
Context {A : Type} (leb : A → A → bool).

Fixpoint insert_sorted (x : A) (l : list A) : list A :=
  match l with
  | [] => [x]
  | y :: l' => if leb x y then x :: l else y :: insert_sorted x l'
  end.

Definition stable_sort (l : list A) : list A := foldr insert_sorted [] l.

Lemma insert_sorted_perm x l : insert_sorted x l ≡ₚ x :: l.
Proof.
  induction l as [|y l IH]; simpl; [done|].
  destruct (leb x y); [done|]. rewrite IH. apply Permutation_swap.
Qed.

Lemma stable_sort_perm l : stable_sort l ≡ₚ l.
Proof. induction l as [|x l IH]; simpl; [done|]. by rewrite insert_sorted_perm, IH. Qed.

Context (Htotal : ∀ x y, leb x y = true ∨ leb y x = true).
Context (Htrans : ∀ x y z, leb x y = true → leb y z = true → leb x z = true).

Lemma insert_sorted_sorted x l :
  StronglySorted (λ x y, leb x y = true) l →
  StronglySorted (λ x y, leb x y = true) (insert_sorted x l).
Proof using Htotal Htrans.
  induction 1 as [|y l Hl IH Hy]; simpl; [by repeat constructor|].
  destruct (leb x y) eqn:E.
  - constructor; [by constructor|]. constructor; [done|].
    eapply Forall_impl; [done|]. intros z ?. by eapply Htrans.
  - constructor; [done|]. rewrite insert_sorted_perm. constructor; [|done].
    destruct (Htotal x y); congruence.
Qed.

Lemma stable_sort_sorted l :
  StronglySorted (λ x y, leb x y = true) (stable_sort l).
Proof using Htotal Htrans.
  induction l; simpl; [constructor|]. by apply insert_sorted_sorted.
Qed.

End stable_sort.

Lemma StronglySorted_impl {A} (R S : A → A → Prop) l :
  (∀ x y, R x y → S x y) → StronglySorted R l → StronglySorted S l.
Proof.
  intros HRS. induction 1; constructor; [done|]. eapply Forall_impl; [done|]. auto.
Qed.

Lemma StronglySorted_sublist {A} (R : A → A → Prop) l k :
  l `sublist_of` k → StronglySorted R k → StronglySorted R l.
Proof.
  induction 1 as [|x l k Hl IH|x l k Hl IH]; inversion 1; subst; [done| |by apply IH].
  constructor; [by apply IH|]. rewrite Forall_forall in *. intros y Hy.
  match goal with H : ∀ y, y ∈ k → _ |- _ => apply H end. by eapply elem_of_sublist.
Qed.

Lemma Forall_sublist {A} (P : A → Prop) l k : k `sublist_of` l → Forall P l → Forall P k.
Proof. rewrite !Forall_forall. intros Hs Hl x Hx. apply Hl. by eapply elem_of_sublist. Qed.

Lemma NoDup_fmap_sublist {A B} (f : A → B) l k : k `sublist_of` l → NoDup (f <$> l) → NoDup (f <$> k).
Proof. intros Hs Hn. eapply sublist_NoDup; [exact Hn|by apply fmap_sublist]. Qed.

Lemma StronglySorted_fmap_2 {A B} (f : A → B) (R : B → B → Prop) l :
  StronglySorted (λ x y, R (f x) (f y)) l → StronglySorted R (f <$> l).
Proof. induction 1; csimpl; constructor; [done|]. by rewrite Forall_fmap. Qed.

Lemma Forall_filter {A} (P Q : A → Prop) `{∀ x, Decision (P x)} l :
  Forall Q l → Forall Q (filter P l).
Proof. rewrite !Forall_forall. intros HQ x [_ ?]%list_elem_of_filter. auto. Qed.

Lemma filter_length_eq {A} (P : A → Prop) `{∀ x, Decision (P x)} l :
  length (filter P l) = length l → filter P l = l.
Proof.
  induction l as [|x l IH]; [done|]. rewrite filter_cons. case_decide; simpl.
  - intros [= ?]. f_equal. auto.
  - pose proof (length_filter P l). lia.
Qed.

Lemma filter_none {A} (P : A → Prop) `{∀ x, Decision (P x)} (l : list A) :
  (∀ x, x ∈ l → ¬ P x) → filter P l = [].
Proof.
  induction l as [|x l IH]; intros Hl; [done|].
  rewrite filter_cons_False by (apply Hl; by left). apply IH. intros y ?. apply Hl. by right.
Qed.

Lemma filter_all {A} (P : A → Prop) `{∀ x, Decision (P x)} (l : list A) :
  (∀ x, x ∈ l → P x) → filter P l = l.
Proof.
  induction l as [|x l IH]; intros Hl; [done|].
  rewrite filter_cons_True by (apply Hl; by left). f_equal. apply IH. intros y ?. apply Hl. by right.
Qed.

Lemma filter_ext_in {A} (P Q : A → Prop) `{∀ x, Decision (P x)} `{∀ x, Decision (Q x)} (l : list A) :
  (∀ x, x ∈ l → P x ↔ Q x) → filter P l = filter Q l.
Proof.
  induction l as [|x l IH]; intros Hl; [done|]. rewrite !filter_cons.
  rewrite IH by (intros y Hy; apply Hl; by right). pose proof (Hl x ltac:(by left)).
  repeat case_decide; tauto.
Qed.

Lemma filter_submseteq {A} (P : A → Prop) `{∀ x, Decision (P x)} s l :
  s ⊆+ l → Forall P s → s ⊆+ filter P l.
Proof.
  intros Hs HP. apply submseteq_Permutation in Hs as [k Hk]. rewrite Hk, filter_app.
  apply submseteq_inserts_r. clear Hk. induction HP; [done|].
  rewrite filter_cons_True by done. by apply submseteq_skip.
Qed.

Lemma NoDup_submseteq_l {A} (l k : list A) : l ⊆+ k → NoDup k → NoDup l.
Proof. intros [r ->]%submseteq_Permutation Hk. by apply NoDup_app in Hk as (? & _ & _). Qed.

Lemma submseteq_cons_inv {A} (x : A) l k : x :: l ⊆+ x :: k → l ⊆+ k.
Proof.
  intros [r Hr%Permutation_cons_inv]%submseteq_Permutation. rewrite Hr.
  by apply submseteq_inserts_r.
Qed.

(** Distinct keys identify the elements of a list. *)
Lemma NoDup_fmap_inj {A B} (f : A → B) (l : list A) x y :
  NoDup (f <$> l) → x ∈ l → y ∈ l → f x = f y → x = y.
Proof.
  induction l as [|z l IH]; [by intros _ ?%elem_of_nil|]. csimpl.
  intros [Hz Hl]%NoDup_cons [->|Hx]%elem_of_cons [->|Hy]%elem_of_cons Hf; [done| | |by apply IH].
  - destruct Hz. rewrite Hf. by apply list_elem_of_fmap_2.
  - destruct Hz. rewrite <- Hf. by apply list_elem_of_fmap_2.
Qed.

Lemma NoDup_of_size `{Countable K} (l : list K) :
  size (list_to_set l : gset K) = length l → NoDup l.
Proof.
  induction l as [|x l IH]; [by constructor|]. simpl. intros Hs.
  assert (size (list_to_set l : gset K) ≤ length l)%nat as Hle.
  { clear. induction l as [|y l IH]; simpl; [done|].
    rewrite size_union_alt, size_singleton.
    pose proof (subseteq_size ((list_to_set l : gset K) ∖ {[y]}) (list_to_set l) ltac:(set_solver)). lia. }
  destruct (decide (x ∈ (list_to_set l : gset K))) as [Hx|Hx].
  - rewrite subseteq_union_1_L in Hs by set_solver. lia.
  - rewrite size_union, size_singleton in Hs by set_solver. constructor; [|apply IH; lia].
    by rewrite elem_of_list_to_set in Hx.
Qed.

(** [Iterator::find_map] *)
Fixpoint find_map {A B} (f : A → option B) (l : list A) : option B :=
  match l with
  | [] => None
  | x :: l => match f x with Some y => Some y | None => find_map f l end
  end.

Lemma find_map_Some {A B} (f : A → option B) l y :
  find_map f l = Some y → ∃ x, x ∈ l ∧ f x = Some y.
Proof.
  induction l as [|x l IH]; simpl; [done|]. destruct (f x) eqn:E.
  - intros [= ->]. exists x. split; [by left|done].
  - intros (z & ? & ?)%IH. exists z. split; [by right|done].
Qed.

Lemma find_map_None {A B} (f : A → option B) l :
  find_map f l = None ↔ ∀ x, x ∈ l → f x = None.
Proof.
  induction l as [|x l IH]; simpl.
  - split; [|done]. intros _ x Hx. by apply elem_of_nil in Hx.
  - destruct (f x) eqn:E; split.
    + done.
    + intros Hx. rewrite Hx in E; [done|by left].
    + intros Hl z [->|Hz]%elem_of_cons; [done|]. by apply IH.
    + intros Hx. apply IH. intros z ?. apply Hx. by right.
Qed.

Lemma string_leb_trans a b c : String.leb a b = true → String.leb b c = true → String.leb a c = true.
Proof.
  intros Hx Hy. apply Is_true_true. apply Is_true_true in Hx, Hy.
  by eapply (transitivity (R := String.le)).
Qed.

(** ** Hash maps

    A Rust [HashMap] is a [gmap]. Its iteration order is unspecified, so the
    code that iterates takes the order as an argument: any listing of the
    entries. Theorems quantify over it. *)

Class HashIter (K : Type) `{Countable K} := {
  hm_iter : ∀ {V : Type}, gmap K V → list (K * V);
  hm_iter_perm : ∀ V (m : gmap K V), hm_iter m ≡ₚ map_to_list m;
}.

(** One admissible order, for evaluating the model. *)
Definition canonical_iter (K : Type) `{Countable K} : HashIter K :=
  {| hm_iter V m := map_to_list m; hm_iter_perm V m := Permutation_refl _ |}.

Definition hm_keys `{HashIter K} {V} (m : gmap K V) : list K := (hm_iter m).*1.
Definition hm_values `{HashIter K} {V} (m : gmap K V) : list V := (hm_iter m).*2.

(** Collecting an iterator of pairs into a map: the last binding of a key wins. *)
Definition hm_collect `{Countable K} {V} (l : list (K * V)) : gmap K V :=
  foldl (λ m kv, <[kv.1 := kv.2]> m) ∅ l.

Lemma hm_collect_snoc `{Countable K} {V} (l : list (K * V)) k v :
  hm_collect (l ++ [(k, v)]) = <[k := v]> (hm_collect l).
Proof. unfold hm_collect. by rewrite foldl_app. Qed.

Lemma hm_collect_Some `{Countable K} {V} (l : list (K * V)) k v :
  hm_collect l !! k = Some v → (k, v) ∈ l.
Proof.
  induction l as [|[j w] l IH] using rev_ind; [done|].
  rewrite hm_collect_snoc, elem_of_app, list_elem_of_singleton.
  destruct (decide (j = k)) as [->|]; simplify_map_eq; naive_solver.
Qed.

Lemma hm_collect_None `{Countable K} {V} (l : list (K * V)) k :
  hm_collect l !! k = None ↔ k ∉ l.*1.
Proof.
  induction l as [|[j w] l IH] using rev_ind; [split; [set_solver|done]|].
  rewrite hm_collect_snoc, fmap_app. simpl.
  destruct (decide (j = k)) as [->|].
  - rewrite lookup_insert_eq. split; [done|]. set_solver.
  - rewrite lookup_insert_ne by done. set_solver.
Qed.

Lemma hm_collect_NoDup `{Countable K} {V} (l : list (K * V)) k v :
  NoDup l.*1 → (k, v) ∈ l → hm_collect l !! k = Some v.
Proof.
  intros Hnd Hin. destruct (hm_collect l !! k) as [w|] eqn:Hw.
  - apply hm_collect_Some in Hw.
    by assert ((k, v) = (k, w)) as [= ->] by by eapply (NoDup_fmap_inj fst).
  - apply hm_collect_None in Hw. destruct Hw. by apply (list_elem_of_fmap_2 fst l (k, v)).
Qed.

Section hash_iter.
Context `{HashIter K} {V : Type}.
Implicit Types m : gmap K V.

Lemma elem_of_hm_iter m k v : (k, v) ∈ hm_iter m ↔ m !! k = Some v.
Proof. rewrite (hm_iter_perm V m). apply elem_of_map_to_list. Qed.

Lemma elem_of_hm_keys m k : k ∈ hm_keys m ↔ is_Some (m !! k).
Proof.
  unfold hm_keys. rewrite list_elem_of_fmap. split.
  - intros ([k' v] & -> & ?%elem_of_hm_iter). by exists v.
  - intros [v ?]. exists (k, v). split; [done|]. by apply elem_of_hm_iter.
Qed.

Lemma elem_of_hm_values m v : v ∈ hm_values m ↔ ∃ k, m !! k = Some v.
Proof.
  unfold hm_values. rewrite list_elem_of_fmap. split.
  - intros ([k v'] & -> & ?%elem_of_hm_iter). by exists k.
  - intros [k ?]. exists (k, v). split; [done|]. by apply elem_of_hm_iter.
Qed.

Lemma NoDup_hm_keys m : NoDup (hm_keys m).
Proof. unfold hm_keys. rewrite hm_iter_perm. apply NoDup_fst_map_to_list. Qed.

Lemma hm_values_perm m : hm_values m ≡ₚ (map_to_list m).*2.
Proof. unfold hm_values. by rewrite hm_iter_perm. Qed.
End hash_iter.

(** Sum of a measure over the values of a map. *)
Definition map_sum `{Countable K} {V} (f : V → Z) (m : gmap K V) : Z :=
  sumZ (f <$> (map_to_list m).*2).

Section map_sum.
Context `{Countable K} {V : Type} (f : V → Z).
Implicit Types m : gmap K V.

Lemma map_sum_hm_values `{!HashIter K} m : sumZ (f <$> hm_values m) = map_sum f m.
Proof. apply sumZ_perm. by rewrite hm_values_perm. Qed.

Lemma map_sum_empty : map_sum f (∅ : gmap K V) = 0.
Proof. unfold map_sum. by rewrite map_to_list_empty. Qed.

Lemma map_sum_insert m k v :
  m !! k = None → map_sum f (<[k := v]> m) = f v + map_sum f m.
Proof.
  intros Hk. unfold map_sum.
  rewrite (sumZ_perm _ (f <$> ((k, v) :: map_to_list m).*2)); [done|].
  by rewrite map_to_list_insert.
Qed.

Lemma map_sum_delete m k v :
  m !! k = Some v → map_sum f m = f v + map_sum f (delete k m).
Proof.
  intros Hk. rewrite <- (insert_delete_id m k v Hk) at 1.
  apply map_sum_insert, lookup_delete_eq.
Qed.

Lemma map_sum_nonneg m : (∀ k v, m !! k = Some v → 0 ≤ f v) → 0 ≤ map_sum f m.
Proof.
  intros Hf. apply sumZ_nonneg. rewrite Forall_fmap, Forall_fmap, Forall_forall.
  intros [k v] ?%elem_of_map_to_list. simpl. eauto.
Qed.
End map_sum.

(** Folding insertions keyed by [key] over a list, as the stores do in a loop. *)
Definition insert_all `{Countable K} {A V} (key : A → K) (val : A → V) (l : list A)
    (m : gmap K V) : gmap K V := foldl (λ m x, <[key x := val x]> m) m l.

Section insert_all.
Context `{Countable K} {A V : Type} (key : A → K) (val : A → V).
Implicit Types m : gmap K V.

Lemma insert_all_notin l m k :
  k ∉ key <$> l → insert_all key val l m !! k = m !! k.
Proof.
  revert m. induction l as [|x l IH]; intros m Hk; [done|].
  rewrite fmap_cons, not_elem_of_cons in Hk. destruct Hk.
  change (insert_all key val (x :: l) m)
    with (insert_all key val l (<[key x := val x]> m)).
  rewrite IH by done. by rewrite lookup_insert_ne.
Qed.

Lemma insert_all_Some l m k v :
  insert_all key val l m !! k = Some v →
  (∃ x, x ∈ l ∧ key x = k ∧ val x = v) ∨ m !! k = Some v.
Proof.
  revert m. induction l as [|x l IH]; intros m; [by right|].
  change (insert_all key val (x :: l) m)
    with (insert_all key val l (<[key x := val x]> m)).
  intros [(y & ? & ? & ?)|Hm]%IH.
  - left. exists y. set_solver.
  - rewrite lookup_insert in Hm. case_decide; [|by right].
    left. exists x. set_solver.
Qed.

Lemma insert_all_in l m k :
  k ∈ key <$> l → ∃ x, x ∈ l ∧ key x = k ∧ insert_all key val l m !! k = Some (val x).
Proof.
  intros Hk. assert (is_Some (insert_all key val l m !! k)) as [v Hv].
  { clear -Hk. revert m. induction l as [|x l IH]; intros m; [by apply elem_of_nil in Hk|].
    change (insert_all key val (x :: l) m)
      with (insert_all key val l (<[key x := val x]> m)).
    destruct (decide (k ∈ key <$> l)); [by apply IH|].
    rewrite insert_all_notin by done. rewrite fmap_cons, elem_of_cons in Hk.
    destruct Hk as [->|]; [|done]. rewrite lookup_insert_eq. by eexists. }
  assert (∀ m', insert_all key val l m' !! k = Some v).
  { intros m'. rewrite <- Hv. clear -Hk. revert m m'.
    induction l as [|x l IH]; intros m m'; [by apply elem_of_nil in Hk|].
    destruct (decide (k ∈ key <$> l)); [by apply IH|].
    change (insert_all key val (x :: l)) with
      (λ m, insert_all key val l (<[key x := val x]> m)). simpl.
    rewrite !insert_all_notin by done. rewrite fmap_cons, elem_of_cons in Hk.
    destruct Hk as [->|]; [|done]. by rewrite !lookup_insert_eq. }
  destruct (insert_all_Some l ∅ k v) as [(x & ? & ? & <-)|Hx]; [done| |done].
  by exists x.
Qed.

Lemma insert_all_None l m k :
  insert_all key val l m !! k = None ↔ m !! k = None ∧ k ∉ key <$> l.
Proof.
  destruct (decide (k ∈ key <$> l)) as [Hk|Hk].
  - destruct (insert_all_in l m k Hk) as (x & _ & _ & ->). naive_solver.
  - rewrite insert_all_notin by done. tauto.
Qed.

Lemma insert_all_dom l m : dom (insert_all key val l m) = dom m ∪ list_to_set (key <$> l).
Proof.
  revert m. induction l as [|x l IH]; intros m; [set_solver|].
  change (insert_all key val (x :: l) m)
    with (insert_all key val l (<[key x := val x]> m)).
  rewrite IH, dom_insert_L. set_solver.
Qed.
End insert_all.

(** ** Loops with a very large bound

    [loop {...}] with at most [p] rounds, counted in binary so that the bound can
    be as large as [2 ^ 64]: a round ends the loop with [inr]. *)

Fixpoint iter_until {S R} (p : positive) (round : S → S + R) (s : S) : S + R :=
  let twice p s :=
    match iter_until p round s with inl s => iter_until p round s | inr r => inr r end in
  match p with
  | xH => round s
  | xO p => twice p s
  | xI p => match round s with inl s => twice p s | inr r => inr r end
  end.

(** The same with a unary counter. *)
Fixpoint rounds {S R} (n : nat) (round : S → S + R) (s : S) : S + R :=
  match n with
  | O => inl s
  | S n => match round s with inl s => rounds n round s | inr r => inr r end
  end.

Section iter_until.
Context {S R : Type} (round : S → S + R).

Lemma rounds_add n m s :
  rounds (n + m) round s =
    match rounds n round s with inl s => rounds m round s | inr r => inr r end.
Proof. revert s. induction n as [|n IH]; intros s; simpl; [done|]. by destruct (round s). Qed.

Lemma iter_until_rounds p s : iter_until p round s = rounds (Pos.to_nat p) round s.
Proof.
  revert s. induction p as [p IH|p IH|]; intros s; cbn [iter_until].
  - rewrite Pos2Nat.inj_xI. simpl. destruct (round s) as [s1|]; [|done].
    rewrite Nat.add_0_r, rounds_add, IH. by destruct (rounds _ _ s1).
  - rewrite Pos2Nat.inj_xO. simpl. rewrite Nat.add_0_r, rounds_add, IH. by destruct (rounds _ _ s).
  - change (Pos.to_nat 1) with 1%nat. simpl. by destruct (round s).
Qed.

(** A measure that is positive and falls with every round ends the loop. *)
Lemma iter_until_ends p (measure : S → nat) (Inv : S → Prop) s :
  (∀ s, Inv s → 0 < measure s)%nat →
  (∀ s s', Inv s → round s = inl s' → Inv s' ∧ measure s' < measure s)%nat →
  Inv s → (measure s ≤ Pos.to_nat p)%nat → ∃ r, iter_until p round s = inr r.
Proof.
  intros Hpos Hstep. rewrite iter_until_rounds. generalize (Pos.to_nat p) as n. intros n.
  revert s. induction n as [|n IH]; intros s Hs Hm; simpl.
  - pose proof (Hpos s Hs). lia.
  - destruct (round s) as [s'|r] eqn:E; [|eauto]. destruct (Hstep s s' Hs E). apply IH; [done|lia].
Qed.

(** What holds of a stopping round holds of the loop's outcome. *)
Lemma iter_until_inv p (Inv : S → Prop) (Q : R → Prop) s :
  (∀ s s', Inv s → round s = inl s' → Inv s') → (∀ s r, Inv s → round s = inr r → Q r) →
  Inv s → match iter_until p round s with inl s' => Inv s' | inr r => Q r end.
Proof.
  intros Hl Hr. rewrite iter_until_rounds. generalize (Pos.to_nat p) as n. intros n.
  revert s. induction n as [|n IH]; intros s Hs; simpl; [done|].
  destruct (round s) as [s'|r] eqn:E; [apply IH; eauto|eauto].
Qed.

(** With a unary counter: the loop ends, in a round that its invariant describes. *)
Lemma rounds_ends n (measure : S → nat) (Inv : S → Prop) s :
  (∀ s s', Inv s → round s = inl s' → Inv s' ∧ measure s' < measure s)%nat →
  Inv s → (measure s < n)%nat → ∃ s' r, rounds n round s = inr r ∧ Inv s' ∧ round s' = inr r.
Proof.
  intros Hstep. revert s. induction n as [|n IH]; intros s Hs Hm; simpl; [lia|].
  destruct (round s) as [s'|r] eqn:E; [|by exists s, r].
  destruct (Hstep s s' Hs E). apply IH; [done|lia].
Qed.

(** More rounds do not change an outcome. *)
Lemma rounds_more n m s r : rounds n round s = inr r → (n ≤ m)%nat → rounds m round s = inr r.
Proof.
  intros Hr Hm. replace m with (n + (m - n))%nat by lia. by rewrite rounds_add, Hr.
Qed.
End iter_until.

(** ** Batches *)

(** [slice::chunks], with the length of the slice as fuel. *)
Fixpoint chunks_loop {A} (fuel n : nat) (l : list A) : list (list A) :=
  match fuel, l with
  | S fuel, _ :: _ => take n l :: chunks_loop fuel n (drop n l)
  | _, _ => []
  end.
Definition chunks {A} (n : nat) (l : list A) : list (list A) := chunks_loop (length l) n l.

Lemma chunks_loop_concat {A} fuel n (l : list A) :
  (0 < n)%nat → (length l ≤ fuel)%nat → concat (chunks_loop fuel n l) = l.
Proof.
  intros Hn. revert l. induction fuel as [|fuel IH]; intros [|x l] Hl; simpl in *; try done; [lia|].
  rewrite IH; [by rewrite take_drop|]. destruct n; [lia|]. simpl. rewrite length_drop. lia.
Qed.

Lemma chunks_concat {A} n (l : list A) : (0 < n)%nat → concat (chunks n l) = l.
Proof. intros. by apply chunks_loop_concat. Qed.

(** ** Effects: calls that act on a world

    An asynchronous function is a function of the world [W] its calls act on;
    [None] is a panic. [x ←? m; k] is [let x = m.await?; k]. *)

Definition proc (W A : Type) : Type := W → option (A * W).

#[export] Instance proc_ret {W} : MRet (proc W) := λ A a w, Some (a, w).
#[export] Instance proc_bind {W} : MBind (proc W) := λ A B f m w,
  match m w with Some (a, w) => f a w | None => None end.

Definition call {W A} (f : W → A * W) : proc W A := λ w, Some (f w).
Definition modify {W} (f : W → W) : proc W unit := λ w, Some ((), f w).
Definition panic_or {W A} (o : option A) : proc W A := λ w,
  match o with Some a => Some (a, w) | None => None end.

Definition try_bind {W E A B} (m : proc W (result E A)) (f : A → proc W (result E B))
    : proc W (result E B) :=
  r ← m; match r with Ok a => f a | Err e => mret (Err e) end.
Declare Scope proc_scope.
Delimit Scope proc_scope with proc.
Notation "x ←? m ; k" := (try_bind m (λ x, k))
  (at level 20, m at level 100, k at level 200, only parsing) : proc_scope.
Open Scope proc_scope.

(** [for x in l { body?; }] *)
Fixpoint each {W E A} (body : A → proc W (result E unit)) (l : list A) : proc W (result E unit) :=
  match l with
  | [] => mret (Ok ())
  | x :: l => _ ←? body x; each body l
  end.

(** [try_join_all] over calls that do not depend on each other. *)
Fixpoint try_all {W E A B} (f : A → proc W (result E B)) (l : list A) : proc W (result E (list B)) :=
  match l with
  | [] => mret (Ok [])
  | x :: l => y ←? f x; ys ←? try_all f l; mret (Ok (y :: ys))
  end.

(** [join_all] *)
Fixpoint join_all {W A B} (f : A → proc W B) (l : list A) : proc W (list B) :=
  match l with
  | [] => mret []
  | x :: l => y ← f x; ys ← join_all f l; mret (y :: ys)
  end.

(** What holds of every outcome of a call that does not panic. *)
Definition ends_in {W A} (m : proc W A) (w : W) (Q : A → W → Prop) : Prop :=
  match m w with Some (a, w') => Q a w' | None => True end.

Section ends_in.
Context {W : Type}.

Lemma ends_in_use {A} (m : proc W A) w Q a w' : ends_in m w Q → m w = Some (a, w') → Q a w'.
Proof. unfold ends_in. intros HQ Hm. by rewrite Hm in HQ. Qed.

Lemma ends_in_weaken {A} (m : proc W A) w (Q Q' : A → W → Prop) :
  ends_in m w Q → (∀ a w', Q a w' → Q' a w') → ends_in m w Q'.
Proof. unfold ends_in. destruct (m w) as [[? ?]|]; eauto. Qed.

Lemma ends_in_ret {A} (a : A) w (Q : A → W → Prop) : Q a w → ends_in (mret a) w Q.
Proof. done. Qed.

Lemma ends_in_bind {A B} (m : proc W A) (f : A → proc W B) w Q :
  ends_in m w (λ a w', ends_in (f a) w' Q) → ends_in (m ≫= f) w Q.
Proof. unfold ends_in, mbind, proc_bind. by destruct (m w) as [[? ?]|]. Qed.

Lemma ends_in_try {E A B} (m : proc W (result E A)) (f : A → proc W (result E B)) w Q :
  ends_in m w (λ r w',
    match r with Ok a => ends_in (f a) w' Q | Err e => Q (Err e) w' end) →
  ends_in (try_bind m f) w Q.
Proof.
  intros Hm. apply ends_in_bind. eapply ends_in_weaken; [exact Hm|].
  intros [a|e] w'; simpl; [done|apply ends_in_ret].
Qed.

Lemma ends_in_call {A} (f : W → A * W) w (Q : A → W → Prop) :
  Q (f w).1 (f w).2 → ends_in (call f) w Q.
Proof. unfold ends_in, call. by destruct (f w). Qed.

Lemma ends_in_modify (f : W → W) w (Q : unit → W → Prop) : Q () (f w) → ends_in (modify f) w Q.
Proof. done. Qed.

Lemma ends_in_panic {A} (o : option A) w (Q : A → W → Prop) :
  (∀ a, o = Some a → Q a w) → ends_in (panic_or o) w Q.
Proof. unfold ends_in, panic_or. destruct o; naive_solver. Qed.

(** What holds of the outcome of a call that does return. *)
Definition returns {A} (m : proc W A) (w : W) (Q : A → W → Prop) : Prop :=
  ∃ a w', m w = Some (a, w') ∧ Q a w'.

Lemma returns_weaken {A} (m : proc W A) w (Q Q' : A → W → Prop) :
  returns m w Q → (∀ a w', Q a w' → Q' a w') → returns m w Q'.
Proof. intros (a & w' & ? & ?) HQ. exists a, w'. auto. Qed.

Lemma returns_ret {A} (a : A) w (Q : A → W → Prop) : Q a w → returns (mret a) w Q.
Proof. by exists a, w. Qed.

Lemma returns_bind {A B} (m : proc W A) (f : A → proc W B) w Q :
  returns m w (λ a w', returns (f a) w' Q) → returns (m ≫= f) w Q.
Proof.
  intros (a & w1 & Hm & b & w2 & Hf & HQ). exists b, w2. split; [|done].
  unfold mbind, proc_bind. by rewrite Hm.
Qed.

Lemma returns_try {E A B} (m : proc W (result E A)) (f : A → proc W (result E B)) w Q :
  returns m w (λ r w',
    match r with Ok a => returns (f a) w' Q | Err e => Q (Err e) w' end) →
  returns (try_bind m f) w Q.
Proof.
  intros Hm. apply returns_bind. eapply returns_weaken; [exact Hm|].
  intros [a|e] w'; [done|apply returns_ret].
Qed.

Lemma returns_call {A} (f : W → A * W) w (Q : A → W → Prop) :
  Q (f w).1 (f w).2 → returns (call f) w Q.
Proof. intros HQ. exists (f w).1, (f w).2. unfold call. by destruct (f w). Qed.

Lemma returns_modify (f : W → W) w (Q : unit → W → Prop) : Q () (f w) → returns (modify f) w Q.
Proof. by exists (), (f w). Qed.

Lemma returns_panic {A} (o : option A) a w (Q : A → W → Prop) :
  o = Some a → Q a w → returns (panic_or o) w Q.
Proof. intros -> HQ. by exists a, w. Qed.

(** A ghost [g] of the world that a call leaves alone. *)
Definition leaves_alone {A G} (g : W → G) (m : proc W A) : Prop :=
  ∀ w, ends_in m w (λ _ w', g w' = g w).

Lemma alone_ret {A G} (g : W → G) (a : A) : leaves_alone g (mret a).
Proof. done. Qed.

Lemma alone_bind {A B G} (g : W → G) (m : proc W A) (f : A → proc W B) :
  leaves_alone g m → (∀ a, leaves_alone g (f a)) → leaves_alone g (m ≫= f).
Proof.
  intros Hm Hf w. apply ends_in_bind. eapply ends_in_weaken; [apply Hm|].
  intros a w' <-. apply Hf.
Qed.

Lemma alone_try {E A B G} (g : W → G) (m : proc W (result E A)) (f : A → proc W (result E B)) :
  leaves_alone g m → (∀ a, leaves_alone g (f a)) → leaves_alone g (try_bind m f).
Proof. intros Hm Hf. apply alone_bind; [done|]. intros [a|e]; [apply Hf|apply alone_ret]. Qed.

Lemma alone_call {A G} (g : W → G) (f : W → A * W) :
  (∀ w, g (f w).2 = g w) → leaves_alone g (call f).
Proof. intros Hf w. apply ends_in_call, Hf. Qed.

Lemma alone_panic {A G} (g : W → G) (o : option A) : leaves_alone g (panic_or o).
Proof. intros w. by apply ends_in_panic. Qed.

Lemma alone_modify {G} (g : W → G) (f : W → W) :
  (∀ w, g (f w) = g w) → leaves_alone g (modify f).
Proof. intros Hf w. apply Hf. Qed.

Lemma alone_join_all {A B G} (g : W → G) (f : A → proc W B) l :
  (∀ a, leaves_alone g (f a)) → leaves_alone g (join_all f l).
Proof.
  intros Hf. induction l as [|a l IH]; simpl; [apply alone_ret|].
  apply alone_bind; [done|]. intros b. apply alone_bind; [done|]. intros bs. apply alone_ret.
Qed.

Lemma alone_try_all {E A B G} (g : W → G) (f : A → proc W (result E B)) l :
  (∀ a, leaves_alone g (f a)) → leaves_alone g (try_all f l).
Proof.
  intros Hf. induction l as [|a l IH]; simpl; [apply alone_ret|].
  apply alone_try; [done|]. intros b. apply alone_try; [done|]. intros bs. apply alone_ret.
Qed.

(** [let x = r?;] *)
Lemma ends_in_let {E A B} (r : result E A) (f : A → proc W (result E B)) w (Q : _ → W → Prop) :
  (∀ a, r = Ok a → ends_in (f a) w Q) → (∀ e, Q (Err e) w) → ends_in (try_bind (mret r) f) w Q.
Proof. intros Hf He. apply ends_in_try, ends_in_ret. destruct r as [a|e]; [by apply Hf|apply He]. Qed.

Lemma ends_in_try_all {E A B G} (g : W → G) (f : A → proc W (result E B)) (Q : A → B → Prop) l w :
  (∀ a w, a ∈ l → ends_in (f a) w (λ r w', g w' = g w ∧
    match r with Ok b => Q a b | Err _ => True end)) →
  ends_in (try_all f l) w (λ r w', g w' = g w ∧
    match r with Ok bs => Forall2 Q l bs | Err _ => True end).
Proof.
  revert w. induction l as [|a l IH]; intros w Hf; simpl; [by apply ends_in_ret|].
  apply ends_in_try. eapply ends_in_weaken; [apply Hf; by left|].
  intros [b|e] w1 [Hw1 Hb]; [|done]. apply ends_in_try.
  eapply ends_in_weaken; [apply IH; intros; apply Hf; by right|].
  intros [bs|e] w2 [Hw2 Hbs]; [|split; congruence]. apply ends_in_ret. split; [congruence|by constructor].
Qed.

Lemma alone_ends {A G} (g : W → G) (m : proc W A) w (Q : A → W → Prop) :
  leaves_alone g m → (∀ a w', g w' = g w → Q a w') → ends_in m w Q.
Proof. intros Hm HQ. eapply ends_in_weaken; [apply Hm|apply HQ]. Qed.
End ends_in.

(** Step past a call that leaves the ghost alone. *)
Tactic Notation "after" constr(H) := apply ends_in_bind; eapply alone_ends; [apply H|].

Create HintDb alone.
#[export] Hint Resolve alone_ret alone_bind alone_try alone_call alone_panic alone_modify
  alone_join_all alone_try_all : alone.
