(* ===== verification/WireBytes.v ===== *)
(** * Hashed and unpadded bytes: [spark/src/utils/tagged_hasher.rs], [byte_padding.rs]

    The messages the wallet signs are sequences of length-prefixed values under a
    hierarchical tag; amounts of tokens travel as big-endian bytes without leading
    zeros. SHA-256 is a parameter: the theorems are about what is hashed. *)

From S2P Require Import Prelude.
Open Scope Z_scope.

(** ** Integers as bytes *)

Fixpoint to_le_bytes (n : nat) (z : Z) : list Z :=
  match n with O => [] | S n => z mod 256 :: to_le_bytes n (z / 256) end.
Definition to_be_bytes (n : nat) (z : Z) : list Z := reverse (to_le_bytes n z).

Definition from_le_bytes (l : list Z) : Z := foldr (λ b acc, b + 256 * acc) 0 l.
Definition from_be_bytes (l : list Z) : Z := from_le_bytes (reverse l).

Definition is_byte (b : Z) : Prop := in_uint 8 b.

(** [str::as_bytes] *)
Definition string_bytes (s : string) : list Z :=
  (λ a, Z.of_nat (Ascii.nat_of_ascii a)) <$> String.list_ascii_of_string s.

Lemma length_le_bytes n z : length (to_le_bytes n z) = n.
Proof. revert z. induction n; intros z; simpl; auto. Qed.

Lemma length_be_bytes n z : length (to_be_bytes n z) = n.
Proof. unfold to_be_bytes. by rewrite length_reverse, length_le_bytes. Qed.

Lemma le_bytes_range n z : Forall is_byte (to_le_bytes n z).
Proof.
  revert z. induction n; intros z; simpl; constructor; [|done]. apply Z.mod_pos_bound. lia.
Qed.

Lemma be_bytes_range n z : Forall is_byte (to_be_bytes n z).
Proof. unfold to_be_bytes. rewrite Forall_reverse. apply le_bytes_range. Qed.

Lemma from_to_le_bytes n z : 0 ≤ z < 256 ^ Z.of_nat n → from_le_bytes (to_le_bytes n z) = z.
Proof.
  revert z. induction n as [|n IH]; intros z; [simpl; lia|].
  rewrite Nat2Z.inj_succ, Z.pow_succ_r by lia. intros Hz. simpl. rewrite IH.
  - pose proof (Z.div_mod z 256). lia.
  - split; [apply Z.div_pos; lia|]. apply Z.div_lt_upper_bound; lia.
Qed.

Lemma from_to_be_bytes n z : 0 ≤ z < 256 ^ Z.of_nat n → from_be_bytes (to_be_bytes n z) = z.
Proof. unfold from_be_bytes, to_be_bytes. rewrite reverse_involutive. apply from_to_le_bytes. Qed.

Lemma from_le_range l : Forall is_byte l → 0 ≤ from_le_bytes l < 256 ^ Z.of_nat (length l).
Proof.
  induction 1 as [|b l Hb Hl IH]; [simpl; lia|]. unfold is_byte, in_uint in Hb. simpl length.
  rewrite Nat2Z.inj_succ, Z.pow_succ_r by lia. simpl. lia.
Qed.

Lemma to_from_le_bytes l : Forall is_byte l → to_le_bytes (length l) (from_le_bytes l) = l.
Proof.
  induction 1 as [|b l Hb Hl IH]; [done|]. unfold is_byte, in_uint in Hb. simpl. f_equal.
  - rewrite Z.mul_comm, Z_mod_plus_full. by apply Z.mod_small.
  - rewrite Z.mul_comm, Z.div_add by lia. by rewrite Z.div_small, Z.add_0_l.
Qed.

Lemma to_le_bytes_zeros n k l :
  Forall is_byte l → length l = n → to_le_bytes (n + k) (from_le_bytes l) = l ++ replicate k 0.
Proof.
  intros Hl <-. revert k. induction Hl as [|b l Hb Hl IH]; intros k; simpl.
  - induction k as [|k IHk]; simpl; [done|]. f_equal. exact IHk.
  - unfold is_byte, in_uint in Hb. f_equal.
    + rewrite Z.mul_comm, Z_mod_plus_full. by apply Z.mod_small.
    + rewrite Z.mul_comm, Z.div_add by lia. rewrite Z.div_small, Z.add_0_l by done. apply IH.
Qed.

Lemma string_bytes_range s : Forall is_byte (string_bytes s).
Proof.
  unfold string_bytes. apply Forall_fmap, Forall_true. intros a. unfold is_byte, in_uint. simpl.
  pose proof (Ascii.nat_ascii_bounded a). lia.
Qed.

#[export] Instance string_bytes_inj : Inj (=) (=) string_bytes.
Proof.
  assert (Inj (=) (=) (λ a, Z.of_nat (Ascii.nat_of_ascii a))) as Hinj.
  { intros a b Hab%(inj Z.of_nat). rewrite <- (Ascii.ascii_nat_embedding a), Hab.
    apply Ascii.ascii_nat_embedding. }
  intros s s' Heq%(inj (fmap _)).
  rewrite <- (String.string_of_list_ascii_of_string s), Heq. apply String.string_of_list_ascii_of_string.
Qed.

(** ** [BytePadding for u128] *)

Definition to_unpadded_be_bytes (self : Z) : list Z :=
  if self =? 0 then [0]
  else
    let bytes := to_be_bytes 16 self in
    let first_non_zero := default (length bytes) (fst <$> list_find (λ b, b ≠ 0) bytes) in
    drop first_non_zero bytes.

(** [rposition] is the position from the front of the last match. *)
Definition to_unpadded_le_bytes (self : Z) : list Z :=
  if self =? 0 then [0]
  else
    let bytes := to_le_bytes 16 self in
    let last_non_zero :=
      default 0%nat ((λ m, length bytes - 1 - m.1 + 1)%nat <$> list_find (λ b, b ≠ 0) (reverse bytes)) in
    take last_non_zero bytes.

Definition from_unpadded_be_bytes (bytes : list Z) : result string Z :=
  if (16 <? length bytes)%nat then Err "Input bytes exceed u128 size"
  else Ok (from_be_bytes (replicate (16 - length bytes) 0 ++ bytes)).

Definition from_unpadded_le_bytes (bytes : list Z) : result string Z :=
  if (16 <? length bytes)%nat then Err "Input bytes exceed u128 size"
  else Ok (from_le_bytes (bytes ++ replicate (16 - length bytes) 0)).

Lemma from_le_app l n : from_le_bytes (l ++ replicate n 0) = from_le_bytes l.
Proof.
  unfold from_le_bytes. rewrite foldr_app. f_equal. by induction n as [|n IH]; simpl; [|rewrite IH].
Qed.

Lemma from_be_padded n l : from_be_bytes (replicate n 0 ++ l) = from_be_bytes l.
Proof. unfold from_be_bytes. by rewrite reverse_app, reverse_replicate, from_le_app. Qed.

(** The leading zeros are what [first_non_zero] skips. *)
Lemma drop_zeros l :
  ∃ n, l = replicate n 0 ++ drop (default (length l) (fst <$> list_find (λ b, b ≠ 0) l)) l ∧
    head (drop (default (length l) (fst <$> list_find (λ b, b ≠ 0) l)) l) ≠ Some 0.
Proof.
  induction l as [|b l (n & Hl & Hhd)]; [by exists 0%nat|]. simpl. case_decide as Hb; simpl.
  - exists 0%nat. split; [done|]. by intros [= ->].
  - subst b. exists (S n). simpl. destruct (list_find _ l) as [[i x]|]; simpl in *.
    + split; [by f_equal|done].
    + split; [by f_equal|done].
Qed.

Lemma unpadded_be z :
  ∃ n, to_be_bytes 16 z = replicate n 0 ++ to_unpadded_be_bytes z ∧
    (z ≠ 0 → head (to_unpadded_be_bytes z) ≠ Some 0).
Proof.
  unfold to_unpadded_be_bytes. destruct (Z.eqb_spec z 0) as [->|Hz].
  - by exists 15%nat.
  - destruct (drop_zeros (to_be_bytes 16 z)) as (n & Hn & Hhd). by exists n.
Qed.

Lemma take_reverse_found (P : Z → Prop) `{∀ b, Decision (P b)} l :
  take (default 0%nat ((λ m, length l - 1 - m.1 + 1)%nat <$> list_find P l)) (reverse l) =
  reverse (drop (default (length l) (fst <$> list_find P l)) l).
Proof.
  destruct (list_find P l) as [[i x]|] eqn:E; simpl; [|by rewrite drop_all].
  apply list_find_Some in E as (Hi%lookup_lt_Some & _ & _).
  rewrite <- (take_drop i l) at 2. rewrite reverse_app. apply take_app_length'.
  rewrite length_reverse, length_drop. lia.
Qed.

Lemma unpadded_le z : to_unpadded_le_bytes z = reverse (to_unpadded_be_bytes z).
Proof.
  unfold to_unpadded_le_bytes, to_unpadded_be_bytes. destruct (z =? 0); [done|].
  rewrite <- take_reverse_found. unfold to_be_bytes. by rewrite reverse_involutive, length_reverse.
Qed.

Lemma zeros_unique n m u v :
  replicate n 0 ++ u = replicate m 0 ++ v → head u ≠ Some 0 → head v ≠ Some 0 → u = v.
Proof.
  revert m. induction n as [|n IH]; intros [|m]; simpl; [done|by intros -> ?|by intros <- ?|].
  intros [= Heq]. by apply (IH m).
Qed.

(** Token amounts survive the trip to bytes and back, big- or little-endian, and
    every amount has one encoding: the bytes read back without a zero in front are
    the bytes written; more than sixteen bytes are refused. *)
Theorem byte_padding_roundtrip :
  (∀ z, in_uint 128 z →
    from_unpadded_be_bytes (to_unpadded_be_bytes z) = Ok z ∧
    from_unpadded_le_bytes (to_unpadded_le_bytes z) = Ok z) ∧
  (∀ l, Forall is_byte l → (length l ≤ 16)%nat → l ≠ [] → head l ≠ Some 0 →
    ∃ z, in_uint 128 z ∧ from_unpadded_be_bytes l = Ok z ∧ to_unpadded_be_bytes z = l) ∧
  (∀ l, (16 < length l)%nat →
    is_Ok (from_unpadded_be_bytes l) = false ∧ is_Ok (from_unpadded_le_bytes l) = false).
Proof.
  split_and!.
  - intros z Hz. destruct (unpadded_be z) as (n & Hn & _).
    assert (length (to_unpadded_be_bytes z) ≤ 16)%nat as Hlen.
    { rewrite <- (length_be_bytes 16 z), Hn, length_app. lia. }
    unfold from_unpadded_be_bytes, from_unpadded_le_bytes. rewrite unpadded_le, length_reverse.
    rewrite (proj2 (Nat.ltb_ge _ _)) by lia.
    assert (from_be_bytes (to_unpadded_be_bytes z) = z) as Hback.
    { rewrite <- (from_be_padded n), <- Hn. by apply from_to_be_bytes. }
    split; [by rewrite from_be_padded, Hback|]. rewrite from_le_app. exact (f_equal Ok Hback).
  - intros l Hl Hlen Hne Hhd. exists (from_be_bytes l).
    unfold from_unpadded_be_bytes. rewrite (proj2 (Nat.ltb_ge _ _)) by lia. rewrite from_be_padded.
    split_and!; [|done|].
    + unfold from_be_bytes. pose proof (from_le_range (reverse l)) as Hr.
      rewrite Forall_reverse, length_reverse in Hr. specialize (Hr Hl). unfold in_uint.
      pose proof (Z.pow_le_mono_r 256 (Z.of_nat (length l)) 16). lia.
    + destruct l as [|b l]; [done|]. set (l' := b :: l) in *.
      assert (to_be_bytes 16 (from_be_bytes l') = replicate (16 - length l') 0 ++ l') as Hbytes.
      { unfold to_be_bytes, from_be_bytes.
        replace 16%nat with (length l' + (16 - length l'))%nat at 1 by lia.
        rewrite to_le_bytes_zeros; [|by rewrite Forall_reverse|by rewrite length_reverse].
        by rewrite reverse_app, reverse_involutive, reverse_replicate. }
      assert (from_be_bytes l' ≠ 0) as Hz.
      { intros Hz. rewrite Hz in Hbytes. apply (zeros_unique 16 _ []) in Hbytes; done. }
      destruct (unpadded_be (from_be_bytes l')) as (n & Hn & Hhd'). specialize (Hhd' Hz).
      rewrite Hbytes in Hn. by apply zeros_unique in Hn.
  - intros l Hl. unfold from_unpadded_be_bytes, from_unpadded_le_bytes.
    by rewrite (proj2 (Nat.ltb_lt _ _)).
Qed.

(** ** [TaggedHasher] *)

Record TaggedHasher := { tag_hash : list Z; values : list Z }.

Definition length_prefixed (bytes : list Z) : list Z :=
  to_be_bytes 8 (Z.of_nat (length bytes)) ++ bytes.

#[global] Arguments to_be_bytes : simpl never.
#[global] Arguments length_prefixed : simpl never.

Section tagged_hasher.
(** [sha256::Hash::hash] *)
Context (sha256 : list Z → list Z).

(** The engine hashes what it is given, in order. *)
Definition compute_tag_hash (tag : list string) : list Z :=
  sha256 (concat ((λ component, length_prefixed (string_bytes component)) <$> tag)).

Definition TaggedHasher_new (tag : list string) : TaggedHasher :=
  {| tag_hash := compute_tag_hash tag; values := [] |}.

Definition write_length_prefixed (self : TaggedHasher) (bytes : list Z) : TaggedHasher :=
  {| tag_hash := tag_hash self; values := values self ++ length_prefixed bytes |}.

Definition add_bytes (bytes : list Z) (self : TaggedHasher) : TaggedHasher :=
  write_length_prefixed self bytes.
Definition add_string (s : string) (self : TaggedHasher) : TaggedHasher :=
  write_length_prefixed self (string_bytes s).
Definition add_u64 (value : Z) (self : TaggedHasher) : TaggedHasher :=
  write_length_prefixed self (to_be_bytes 8 value).

(** The argument is a [BTreeMap]; the code sorts its entries by the bytes of the keys. *)
Definition add_map_string_to_bytes `{!HashIter string} (map : gmap string (list Z))
    (self : TaggedHasher) : TaggedHasher :=
  let pairs := stable_sort (λ a b, String.leb a.1 b.1) (hm_iter map) in
  foldl (λ self '(key, value), add_bytes value (add_string key self))
    (add_u64 (Z.of_nat (size map)) self) pairs.

Definition signable_message (self : TaggedHasher) : list Z :=
  tag_hash self ++ tag_hash self ++ values self.

Definition hash (self : TaggedHasher) : list Z := sha256 (signable_message self).

(** ** What is signed *)

(** [services/transfer.rs]: the user's signature of a claim package. *)
Definition claim_signing_payload `{!HashIter string} (transfer_id_bytes : list Z)
    (key_tweak_package : gmap string (list Z)) : list Z :=
  signable_message (add_map_string_to_bytes key_tweak_package
    (add_bytes transfer_id_bytes (TaggedHasher_new ["spark"; "claim"; "signing payload"]))).

(** [signer/spark_signer_adapter.rs]: the user's signature of a transfer package. *)
Definition transfer_signing_payload `{!HashIter string} (transfer_id_bytes : list Z)
    (key_tweak_package : gmap string (list Z)) : list Z :=
  signable_message (add_map_string_to_bytes key_tweak_package
    (add_bytes transfer_id_bytes (TaggedHasher_new ["spark"; "transfer"; "signing payload"]))).

(** [services/deposit.rs] *)
Definition CLAIM_INSTANT_STATIC_DEPOSIT_TAG : list string :=
  ["spark"; "claim_instant_static_deposit"].
Definition INSTANT_UTXO_SWAP_REQUEST_TYPE : Z := 3.

Definition serialize_instant_static_deposit_claim_payload (network : string)
    (credit_amount_sats deposit_amount_sats : Z) (static_deposit_address : string)
    (quote_signature : list Z) : list Z :=
  signable_message (add_bytes quote_signature (add_u64 deposit_amount_sats
    (add_string static_deposit_address (add_u64 0 (add_u64 credit_amount_sats
      (add_u64 INSTANT_UTXO_SWAP_REQUEST_TYPE (add_string network
        (TaggedHasher_new CLAIM_INSTANT_STATIC_DEPOSIT_TAG)))))))).

(** ** What a message says *)

(** A value is shorter than [2 ^ 64] bytes. *)
Definition sized (bytes : list Z) : Prop := Z.of_nat (length bytes) < 2 ^ 64.

Lemma length_prefixed_inj a b u v :
  sized a → sized b → length_prefixed a ++ u = length_prefixed b ++ v → a = b ∧ u = v.
Proof.
  unfold length_prefixed, sized. intros Ha Hb. rewrite <- !app_assoc. intros Heq.
  apply app_inj_1 in Heq as [Hlen Heq]; [|by rewrite !length_be_bytes].
  apply (f_equal from_be_bytes) in Hlen. rewrite !from_to_be_bytes in Hlen by lia.
  apply app_inj_1 in Heq; [done|lia].
Qed.

Lemma length_prefixed_nonempty b : length_prefixed b ≠ [].
Proof. intros [H _]%app_nil. apply (f_equal length) in H. by rewrite length_be_bytes in H. Qed.

Lemma concat_prefixed_inj l k :
  Forall sized l → Forall sized k →
  concat (length_prefixed <$> l) = concat (length_prefixed <$> k) → l = k.
Proof.
  intros Hl. revert k. induction Hl as [|a l Ha Hl IH]; intros k Hk; csimpl.
  - destruct Hk as [|b k]; csimpl; [done|]. intros Heq. symmetry in Heq.
    apply (app_nil (length_prefixed b)) in Heq as [Heq _]. by apply length_prefixed_nonempty in Heq.
  - destruct Hk as [|b k Hb Hk]; csimpl.
    + intros Heq. apply (app_nil (length_prefixed a)) in Heq as [Heq _]. by apply length_prefixed_nonempty in Heq.
    + intros [-> Heq]%length_prefixed_inj; [|done..]. f_equal. by apply IH.
Qed.

Definition map_values (pairs : list (string * list Z)) : list (list Z) :=
  concat ((λ kv, [string_bytes kv.1; kv.2]) <$> pairs).

Lemma add_pairs_values pairs self :
  values (foldl (λ self '(key, value), add_bytes value (add_string key self)) self pairs) =
  values self ++ concat (length_prefixed <$> map_values pairs).
Proof.
  revert self. induction pairs as [|[k v] pairs IH]; intros self; csimpl; [by rewrite app_nil_r|].
  rewrite IH. simpl. by rewrite <- !app_assoc.
Qed.

Lemma add_pairs_tag pairs self :
  tag_hash (foldl (λ self '(key, value), add_bytes value (add_string key self)) self pairs) =
  tag_hash self.
Proof. revert self. induction pairs as [|[k v] pairs IH]; intros self; simpl; [done|]. by rewrite IH. Qed.

Lemma map_values_inj pairs pairs' : map_values pairs = map_values pairs' → pairs = pairs'.
Proof.
  revert pairs'. induction pairs as [|[k v] pairs IH]; intros [|[k' v'] pairs']; csimpl; [done..|].
  unfold map_values. csimpl. intros [= ->%(inj string_bytes) -> Heq]. f_equal. by apply IH.
Qed.

(** The values of a package: the count, then the sorted entries. *)
Definition package_values (O : HashIter string) (map : gmap string (list Z)) : list (list Z) :=
  to_be_bytes 8 (Z.of_nat (size map)) ::
  map_values (stable_sort (λ a b, String.leb a.1 b.1) (hm_iter map)).

Lemma add_map_values (O : HashIter string) map self :
  add_map_string_to_bytes map self =
  {| tag_hash := tag_hash self;
     values := values self ++ concat (length_prefixed <$> package_values O map) |}.
Proof.
  unfold add_map_string_to_bytes, package_values.
  set (pairs := stable_sort _ _).
  transitivity {| tag_hash := tag_hash (add_u64 (Z.of_nat (size map)) self);
    values := values (add_u64 (Z.of_nat (size map)) self) ++ concat (length_prefixed <$> map_values pairs) |}.
  - rewrite <- add_pairs_values, <- (add_pairs_tag pairs). by destruct (foldl _ _ _).
  - simpl. csimpl. by rewrite <- app_assoc.
Qed.

Definition sized_package (map : gmap string (list Z)) : Prop :=
  map_Forall (λ k v, sized (string_bytes k) ∧ sized v) map.

Lemma package_values_sized (O : HashIter string) map : sized_package map → Forall sized (package_values O map).
Proof.
  intros Hm. constructor; [unfold sized; rewrite length_be_bytes; lia|].
  unfold map_values. apply Forall_concat, Forall_fmap, Forall_forall. intros [k v] Hkv.
  rewrite stable_sort_perm, hm_iter_perm in Hkv. apply elem_of_map_to_list in Hkv.
  destruct (Hm k v Hkv). by repeat constructor.
Qed.

Lemma package_values_inj (O O' : HashIter string) map map' :
  package_values O map = package_values O' map' → map = map'.
Proof.
  intros [_ Heq%map_values_inj]%cons_eq_inj. apply map_to_list_inj.
  rewrite <- (hm_iter_perm (HashIter := O)), <- (hm_iter_perm (HashIter := O')).
  rewrite <- (stable_sort_perm (λ a b, String.leb a.1 b.1) (hm_iter map)), Heq. apply stable_sort_perm.
Qed.

Lemma package_values_order (O O' : HashIter string) map : package_values O map = package_values O' map.
Proof.
  unfold package_values. do 2 f_equal.
  apply (StronglySorted_unique_strong (λ a b, String.leb a.1 b.1 = true)).
  - intros [k v] [k' v'] Hx Hy H1 H2. simpl in *.
    assert (k = k') as <- by by apply String.leb_antisym.
    rewrite stable_sort_perm, (hm_iter_perm (HashIter := O)) in Hx.
    rewrite stable_sort_perm, (hm_iter_perm (HashIter := O')) in Hy.
    apply elem_of_map_to_list in Hx, Hy. congruence.
  - apply stable_sort_sorted; intros; [apply String.leb_total|by eapply string_leb_trans].
  - apply stable_sort_sorted; intros; [apply String.leb_total|by eapply string_leb_trans].
  - by rewrite !stable_sort_perm, (hm_iter_perm (HashIter := O)), (hm_iter_perm (HashIter := O')).
Qed.

(** The values of a payload are read back from the bytes that are signed. *)
Lemma signable_values (self self' : TaggedHasher) l l' :
  tag_hash self = tag_hash self' →
  values self = concat (length_prefixed <$> l) → values self' = concat (length_prefixed <$> l') →
  Forall sized l → Forall sized l' →
  signable_message self = signable_message self' → l = l'.
Proof.
  intros Ht Hv Hv' Hl Hl'. unfold signable_message. rewrite Ht, Hv, Hv'.
  intros Heq%app_inv_head%app_inv_head. by apply concat_prefixed_inj.
Qed.

Lemma claim_values (O : HashIter string) i map :
  add_map_string_to_bytes map (add_bytes i (TaggedHasher_new ["spark"; "claim"; "signing payload"])) =
  {| tag_hash := compute_tag_hash ["spark"; "claim"; "signing payload"];
     values := concat (length_prefixed <$> i :: package_values O map) |}.
Proof. rewrite add_map_values. f_equal. Qed.

Lemma transfer_values (O : HashIter string) i map :
  add_map_string_to_bytes map (add_bytes i (TaggedHasher_new ["spark"; "transfer"; "signing payload"])) =
  {| tag_hash := compute_tag_hash ["spark"; "transfer"; "signing payload"];
     values := concat (length_prefixed <$> i :: package_values O map) |}.
Proof. rewrite add_map_values. f_equal. Qed.

(** C38: A signature covers exactly what it is for. The payload a user signs for a
    claim or a transfer does not depend on the order in which the operators'
    packages are stored, and two payloads are equal only for the same transfer and
    the same packages; the payload of an instant deposit claim fixes its network,
    amounts, address and quote. *)
Theorem signed_payloads_injective (O O' : HashIter string) i i' map map' :
  sized i → sized i' → sized_package map → sized_package map' →
  (claim_signing_payload (HashIter0 := O) i map = claim_signing_payload (HashIter0 := O') i' map' ↔
     i = i' ∧ map = map') ∧
  (transfer_signing_payload (HashIter0 := O) i map = transfer_signing_payload (HashIter0 := O') i' map' ↔
     i = i' ∧ map = map') ∧
  (∀ n c d a n' c' d' a', in_uint 64 c → in_uint 64 d → in_uint 64 c' → in_uint 64 d' →
     sized (string_bytes n) → sized (string_bytes n') →
     sized (string_bytes a) → sized (string_bytes a') →
     serialize_instant_static_deposit_claim_payload n c d a i =
       serialize_instant_static_deposit_claim_payload n' c' d' a' i' →
     (n, c, d, a, i) = (n', c', d', a', i')).
Proof.
  intros Hi Hi' Hm Hm'.
  pose proof (Forall_cons_2 _ _ _ Hi (package_values_sized O map Hm)) as Hl.
  pose proof (Forall_cons_2 _ _ _ Hi' (package_values_sized O' map' Hm')) as Hl'.
  split_and!.
  - unfold claim_signing_payload. rewrite !claim_values. split.
    + intros Heq. eapply signable_values in Heq; [|done..].
      apply cons_eq_inj in Heq as [-> Heq]. by apply package_values_inj in Heq.
    + intros [-> ->]. by rewrite (package_values_order O O').
  - unfold transfer_signing_payload. rewrite !transfer_values. split.
    + intros Heq. eapply signable_values in Heq; [|done..].
      apply cons_eq_inj in Heq as [-> Heq]. by apply package_values_inj in Heq.
    + intros [-> ->]. by rewrite (package_values_order O O').
  - intros n c d a n' c' d' a' Hc Hd Hc' Hd' Hn Hn' Ha Ha' Heq.
    assert (∀ z, sized (to_be_bytes 8 z)) as Hu by (intros z; unfold sized; rewrite length_be_bytes; lia).
    eapply (signable_values _ _
      [string_bytes n; to_be_bytes 8 INSTANT_UTXO_SWAP_REQUEST_TYPE; to_be_bytes 8 c; to_be_bytes 8 0;
       string_bytes a; to_be_bytes 8 d; i]
      [string_bytes n'; to_be_bytes 8 INSTANT_UTXO_SWAP_REQUEST_TYPE; to_be_bytes 8 c'; to_be_bytes 8 0;
       string_bytes a'; to_be_bytes 8 d'; i']) in Heq;
      [|done|simpl; by rewrite <- !app_assoc, app_nil_r..|by repeat constructor|by repeat constructor].
    apply cons_eq_inj in Heq as [Hn'' Heq]. apply cons_eq_inj in Heq as [_ Heq].
    apply cons_eq_inj in Heq as [Hc'' Heq]. apply cons_eq_inj in Heq as [_ Heq].
    apply cons_eq_inj in Heq as [Ha'' Heq]. apply cons_eq_inj in Heq as [Hd'' Heq].
    apply cons_eq_inj in Heq as [-> _].
    apply (inj string_bytes) in Hn'', Ha''. apply (f_equal from_be_bytes) in Hc'', Hd''.
    rewrite !from_to_be_bytes in Hc'', Hd'' by done. congruence.
Qed.
End tagged_hasher.

Example signed_payloads_injective_witness :
  let order := canonical_iter string in
  claim_signing_payload (HashIter0 := order) (λ l, l) [1] {["a"%string := [2]]} ≠
  claim_signing_payload (HashIter0 := order) (λ l, l) [1] {["a"%string := [3]]}.
Proof.
  intros order Heq.
  destruct (signed_payloads_injective (λ l, l) order order [1] [1] {["a"%string := [2]]}
    {["a"%string := [3]]}) as (Hclaim & _ & _); [done|done| | |].
  - apply map_Forall_singleton. done.
  - apply map_Forall_singleton. done.
  - apply Hclaim in Heq as [_ Heq]. apply (f_equal (lookup "a"%string)) in Heq.
    rewrite !lookup_singleton_eq in Heq. discriminate Heq.
Defined.
