(* ===== verification/Bitcoin.v ===== *)
(** * Types and functions of the third-party crates

    [bitcoin], [secp256k1] and [frost_secp256k1_tr] are not part of the
    repository. The development is parametric in what the code uses of them:
    the class below lists the operations, and the laws are the documented
    behaviour (BIP 68 for [Sequence]) the code relies on. *)

From S2P Require Import Prelude.

Class Bitcoin := {
  PublicKey : Type;
  PublicKey_eq_dec :: EqDecision PublicKey;
  (** [frost_secp256k1_tr::Identifier] *)
  Identifier : Type;
  Identifier_eq_dec :: EqDecision Identifier;
  Transaction : Type;
  Transaction_eq_dec :: EqDecision Transaction;
  (** [bitcoin::Sequence], a newtype over [u32] *)
  Sequence : Type;
  Sequence_eq_dec :: EqDecision Sequence;
  to_consensus_u32 : Sequence → Z;
  from_consensus : Z → Sequence;
  is_height_locked : Sequence → bool;
  (** [relative::LockTime::Blocks(Height::from_height(h)).to_consensus_u32()] *)
  blocks_to_consensus_u32 : Z → Z;
  (** the [sequence] of every input, in order: [tx.input[i].sequence] *)
  input_sequences : Transaction → list Sequence;

  to_consensus_u32_range s : in_uint 32 (to_consensus_u32 s);
  to_from_consensus z : in_uint 32 z → to_consensus_u32 (from_consensus z) = z;
  is_height_locked_spec s :
    is_height_locked s =
      negb (Z.testbit (to_consensus_u32 s) 31) && negb (Z.testbit (to_consensus_u32 s) 22);
  blocks_to_consensus_u32_spec h : in_uint 16 h → blocks_to_consensus_u32 h = h;
}.

(** A concrete instance, for evaluating the model: keys are names, and a
    transaction is the list of its input sequences. *)
Definition bip68 : Bitcoin.
Proof.
  refine {|
    PublicKey := string; Identifier := string; Transaction := list Z; Sequence := Z;
    to_consensus_u32 := wrap 32;
    from_consensus z := z;
    is_height_locked s :=
      negb (Z.testbit (wrap 32 s) 31) && negb (Z.testbit (wrap 32 s) 22);
    blocks_to_consensus_u32 h := h;
    input_sequences tx := tx;
  |}.
  - intros s. by apply wrap_range.
  - apply wrap_small.
  - done.
  - done.
Defined.
