(* ===== verification/BitcoinTx.v ===== *)
(** * Transactions of the [bitcoin] crate

    What the unilateral exit and the transaction builders use of the third-party
    crate [bitcoin] beyond [Bitcoin]: the fields of transactions, outpoints and
    PSBTs that the code reads and writes in struct literals, and the operations it
    calls. The laws say that a transaction built from a literal has the fields it
    was given, that a transaction without signatures makes a PSBT, and that amounts
    and weights are [u64]s. *)

From S2P Require Import Prelude Bitcoin.

Record OutPoint {Txid : Type} := mkOutPoint { txid : Txid; op_vout : Z }.
Arguments OutPoint : clear implicits.
Arguments mkOutPoint {_} _ _.

(** The two fields the code sets; [script_sig] and [witness] keep their defaults
    in every input it builds. *)
Record TxIn {Txid Sequence : Type} := mkTxIn {
  previous_output : OutPoint Txid;
  sequence : Sequence;
}.
Arguments TxIn : clear implicits.
Arguments mkTxIn {_ _} _ _.

Record TxOut {ScriptBuf : Type} := mkTxOut { txout_value : Z; script_pubkey : ScriptBuf }.
Arguments TxOut : clear implicits.
Arguments mkTxOut {_} _ _.

(** [relative::LockTime] *)
Inductive LockTime := Blocks (h : Z) | Time (t : Z).

(** [Psbt]: the unsigned transaction and each input's [witness_utxo]. *)
Record Psbt {Transaction ScriptBuf : Type} := mkPsbt {
  unsigned_tx : Transaction;
  psbt_inputs : list (option (TxOut ScriptBuf));
}.
Arguments Psbt : clear implicits.
Arguments mkPsbt {_ _} _ _.

#[export] Instance OutPoint_eq_dec `{EqDecision T} : EqDecision (OutPoint T).
Proof. solve_decision. Defined.
#[export] Instance OutPoint_countable `{Countable T} : Countable (OutPoint T).
Proof.
  refine (inj_countable' (λ o, (txid o, op_vout o)) (λ p, mkOutPoint p.1 p.2) _).
  by intros [].
Defined.
#[export] Instance TxIn_eq_dec `{EqDecision T, EqDecision Sq} : EqDecision (TxIn T Sq).
Proof. solve_decision. Defined.
#[export] Instance TxOut_eq_dec `{EqDecision Sc} : EqDecision (TxOut Sc).
Proof. solve_decision. Defined.
#[export] Instance Psbt_eq_dec `{EqDecision T, EqDecision Sc} : EqDecision (Psbt T Sc).
Proof. solve_decision. Defined.

Class BitcoinTx {B : Bitcoin} := {
  Txid : Type;
  Txid_eq_dec :: EqDecision Txid;
  Txid_countable :: Countable Txid;
  (** [Ord for Txid] *)
  txid_leb : Txid → Txid → bool;
  ScriptBuf : Type;
  ScriptBuf_eq_dec :: EqDecision ScriptBuf;
  Address : Type;
  Address_eq_dec :: EqDecision Address;
  Address_countable :: Countable Address;

  (** [Script::as_bytes], [ScriptBuf::from_bytes], [Script::minimal_non_dust] *)
  as_bytes : ScriptBuf → list Z;
  from_bytes : list Z → ScriptBuf;
  minimal_non_dust : ScriptBuf → Z;
  (** [Address::from_script(script, network).ok()], for the wallet's network *)
  address_from_script : ScriptBuf → option Address;
  (** [Address::p2tr(secp, key.x_only_public_key().0, None, network).script_pubkey()] *)
  p2tr_script : PublicKey → ScriptBuf;
  (** [Sequence::to_relative_lock_time] *)
  to_relative_lock_time : Sequence → option LockTime;

  tx_input : Transaction → list (TxIn Txid Sequence);
  tx_output : Transaction → list (TxOut ScriptBuf);
  compute_txid : Transaction → Txid;
  (** [Transaction::weight], [TxOut::weight] by script length, and
      [TxIn::segwit_weight] of a default input whose witness has elements of the
      given lengths, in weight units *)
  tx_weight : Transaction → Z;
  txout_weight : Z → Z;
  segwit_weight : list Z → Z;
  (** [Transaction { version, lock_time: LockTime::ZERO, input, output }] *)
  make_tx : Z → list (TxIn Txid Sequence) → list (TxOut ScriptBuf) → Transaction;
  from_unsigned_tx : Transaction → result string (Psbt Transaction ScriptBuf);

  txid_leb_total a b : txid_leb a b = true ∨ txid_leb b a = true;
  txid_leb_trans a b c : txid_leb a b = true → txid_leb b c = true → txid_leb a c = true;
  txid_leb_antisymm a b : txid_leb a b = true → txid_leb b a = true → a = b;
  as_bytes_from_bytes l : as_bytes (from_bytes l) = l;
  minimal_non_dust_range s : in_uint 64 (minimal_non_dust s);
  (** [Height] is a [u16]. *)
  lock_blocks_range s v : to_relative_lock_time s = Some (Blocks v) → in_uint 16 v;
  tx_input_sequences tx : input_sequences tx = sequence <$> tx_input tx;
  tx_output_range tx o : o ∈ tx_output tx → in_uint 64 (txout_value o);
  tx_weight_range tx : in_uint 64 (tx_weight tx);
  txout_weight_range l : in_uint 64 (txout_weight l);
  segwit_weight_range l : in_uint 64 (segwit_weight l);
  tx_input_make v i o : tx_input (make_tx v i o) = i;
  tx_output_make v i o : Forall (λ x, in_uint 64 (txout_value x)) o → tx_output (make_tx v i o) = o;
  from_unsigned_make v i o :
    from_unsigned_tx (make_tx v i o) =
      Ok (mkPsbt (make_tx v i o) (replicate (length i) None));
}.

(** ** A concrete instance, for evaluating the model

    Scripts and addresses are byte lists, a transaction its fields, its id a
    polynomial hash of them; weights are those of BIP 141 for transactions
    without witness. *)

Record tx68 := {
  tx68_version : Z;
  tx68_input : list (TxIn positive Z);
  tx68_output : list (Z * list Z);
}.

Definition tx68_fields (tx : tx68) : list Z :=
  tx68_version tx :: Z.of_nat (length (tx68_input tx)) ::
  ((i ← tx68_input tx; [Z.pos (txid (previous_output i)); op_vout (previous_output i); sequence i]) ++
   (o ← tx68_output tx; o.1 :: Z.of_nat (length o.2) :: o.2)).

Definition hash68 (l : list Z) : positive :=
  Z.to_pos (1 + foldl (λ h x, (h * 65599 + x + 1) mod 1000000007) 0 l).

#[export] Instance tx68_eq_dec : EqDecision tx68.
Proof. solve_decision. Defined.

Definition btc68 : Bitcoin.
Proof.
  refine {|
    PublicKey := string; Identifier := string; Transaction := tx68; Sequence := Z;
    to_consensus_u32 := wrap 32;
    from_consensus z := z;
    is_height_locked s :=
      negb (Z.testbit (wrap 32 s) 31) && negb (Z.testbit (wrap 32 s) 22);
    blocks_to_consensus_u32 h := h;
    input_sequences tx := sequence <$> tx68_input tx;
  |}.
  - intros s. by apply wrap_range.
  - apply wrap_small.
  - done.
  - done.
Defined.

Definition btctx68 : @BitcoinTx btc68.
Proof.
  refine {|
    Txid := positive; txid_leb := Pos.leb; ScriptBuf := list Z; Address := list Z;
    as_bytes s := s; from_bytes s := s;
    minimal_non_dust s := if (length s <=? 22)%nat then 294 else 330;
    address_from_script s := Some s;
    p2tr_script pk := [81; 32; Z.pos (encode pk)];
    to_relative_lock_time := (λ s : Z,
      if Z.testbit s 31 then None
      else if Z.testbit s 22 then Some (Time (wrap 16 s)) else Some (Blocks (wrap 16 s)))
      : @Sequence btc68 → option LockTime;
    tx_input := tx68_input : @Transaction btc68 → list (TxIn positive (@Sequence btc68));
    tx_output := (λ tx, (λ o, mkTxOut (wrap 64 o.1) o.2) <$> tx68_output tx)
      : @Transaction btc68 → list (TxOut (list Z));
    compute_txid := (λ tx, hash68 (tx68_fields tx)) : @Transaction btc68 → positive;
    tx_weight := (λ tx, wrap 64 (42 + sumZ ((λ _, 165) <$> tx68_input tx) +
      sumZ ((λ o, 36 + 4 * Z.of_nat (length o.2)) <$> tx68_output tx)))
      : @Transaction btc68 → Z;
    txout_weight l := wrap 64 (36 + 4 * l);
    segwit_weight ls := wrap 64 (165 + sumZ ((λ l, 1 + l) <$> ls));
    make_tx v i o := {| tx68_version := v; tx68_input := i;
                        tx68_output := (λ x, (txout_value x, script_pubkey x)) <$> o |};
    from_unsigned_tx tx := Ok (mkPsbt tx (replicate (length (tx68_input tx)) None));
  |}.
  - intros a b. rewrite !Pos.leb_le. lia.
  - intros a b c. rewrite !Pos.leb_le. lia.
  - intros a b. rewrite !Pos.leb_le. lia.
  - done.
  - intros s. by destruct (_ <=? _)%nat.
  - intros s v. repeat case_match; intros [= <-]. by apply wrap_range.
  - done.
  - intros tx o. rewrite list_elem_of_fmap. intros (? & -> & _). by apply wrap_range.
  - intros. by apply wrap_range.
  - intros. by apply wrap_range.
  - intros. by apply wrap_range.
  - done.
  - intros v i o Ho. simpl. rewrite <- list_fmap_compose. rewrite <- (list_fmap_id o) at 2.
    apply list_fmap_ext. intros k [x s] Hk. simpl. f_equal. apply wrap_small.
    by apply (Forall_lookup_1 _ _ _ _ Ho Hk).
  - done.
Defined.
