(* ===== verification/Timelock.v ===== *)
(** * Timelock arithmetic: [spark/src/core/constants.rs]

    Sequence numbers of node and refund transactions carry a block-height
    timelock in their low 16 bits and Spark's own flag in bit 30. Every renewal
    lowers the timelock by a fixed interval; the direct transaction's is offset
    from the CPFP one. *)

From S2P Require Import Prelude Bitcoin.

Definition SPARK_SEQUENCE_FLAG : Z := Z.shiftl 1 30.
Definition TIMELOCK_MASK : Z := 0x0000FFFF.
Definition INITIAL_TIME_LOCK : Z := 2000.
Definition TIME_LOCK_INTERVAL : Z := 100.
Definition DIRECT_TIME_LOCK_OFFSET : Z := 50.
Definition MAX_TIME_LOCK : Z := INITIAL_TIME_LOCK + DIRECT_TIME_LOCK_OFFSET.
Definition DIRECT_HTLC_TIME_LOCK_OFFSET : Z := 85.
Definition HTLC_TIME_LOCK_OFFSET : Z := 70.

Section timelock.
Context `{Bitcoin}.

(** [(sequence.to_consensus_u32() & TIMELOCK_MASK) as u16], written out at each
    use in the source. *)
Definition low_timelock (sequence : Sequence) : Z :=
  wrap 16 (Z.land (to_consensus_u32 sequence) TIMELOCK_MASK).

Definition spark_sequence_flag (current_sequence : Sequence) : Z :=
  Z.land (to_consensus_u32 current_sequence) SPARK_SEQUENCE_FLAG.

Definition to_sequence (blocks spark_sequence_flag : Z) : Sequence :=
  from_consensus (Z.lor (blocks_to_consensus_u32 blocks) spark_sequence_flag).

Definition initial_timelock_sequence : Sequence * Sequence :=
  (to_sequence INITIAL_TIME_LOCK 0,
   to_sequence (uadd 16 INITIAL_TIME_LOCK DIRECT_TIME_LOCK_OFFSET) 0).

Definition initial_root_timelock_sequence : Sequence * Sequence :=
  (to_sequence 0 0, to_sequence DIRECT_TIME_LOCK_OFFSET 0).

Definition initial_zero_timelock_sequence : Sequence * Sequence :=
  (to_sequence 0 0, to_sequence DIRECT_TIME_LOCK_OFFSET 0).

Definition checked_timelock (sequence : Sequence) : option Z :=
  if negb (is_height_locked sequence) then None
  else
    let timelock := low_timelock sequence in
    if timelock <=? MAX_TIME_LOCK then Some timelock else None.

Definition current_sequence (current_sequence : Sequence) : option (Sequence * Sequence) :=
  let timelock := low_timelock current_sequence in
  direct_timelock ← checked_add 16 timelock DIRECT_TIME_LOCK_OFFSET;
  let flag := spark_sequence_flag current_sequence in
  Some (current_sequence, to_sequence direct_timelock flag).

Definition enforce_timelock (sequence : Sequence) : Sequence :=
  let timelock := low_timelock sequence in
  let enforced_timelock := usub 16 timelock (timelock mod TIME_LOCK_INTERVAL) in
  to_sequence enforced_timelock (spark_sequence_flag sequence).

Definition check_next_timelock (current_sequence : Sequence) : option Z :=
  let timelock :=
    match checked_timelock current_sequence with
    | Some t => t
    | None => low_timelock current_sequence
    end in
  checked_sub timelock TIME_LOCK_INTERVAL.

Definition next_sequence (current_sequence : Sequence) : option (Sequence * Sequence) :=
  next_timelock ← check_next_timelock current_sequence;
  let flag := spark_sequence_flag current_sequence in
  Some (to_sequence next_timelock flag,
        to_sequence (uadd 16 next_timelock DIRECT_TIME_LOCK_OFFSET) flag).

Definition next_lightning_htlc_sequence (current_sequence : Sequence)
    : option (Sequence * Sequence) :=
  next_timelock ← check_next_timelock current_sequence;
  let flag := spark_sequence_flag current_sequence in
  Some (to_sequence (uadd 16 next_timelock HTLC_TIME_LOCK_OFFSET) flag,
        to_sequence (uadd 16 next_timelock DIRECT_HTLC_TIME_LOCK_OFFSET) flag).

(** ** Bit-level facts *)

Lemma low_timelock_mod s : low_timelock s = to_consensus_u32 s mod 2 ^ 16.
Proof.
  unfold low_timelock, wrap. change TIMELOCK_MASK with (Z.ones 16).
  rewrite Z.land_ones by lia. by rewrite Zmod_mod.
Qed.

Lemma low_timelock_range s : in_uint 16 (low_timelock s).
Proof. rewrite low_timelock_mod. by apply Z.mod_pos_bound. Qed.

Lemma spark_flag_cases s : spark_sequence_flag s = 0 ∨ spark_sequence_flag s = 2 ^ 30.
Proof.
  unfold spark_sequence_flag. change SPARK_SEQUENCE_FLAG with (2 ^ 30).
  destruct (Z.testbit (to_consensus_u32 s) 30) eqn:E; [right|left];
    apply Z.bits_inj'; intros n Hn; rewrite Z.land_spec, ?Z.bits_0, Z.pow2_bits_eqb by lia;
    destruct (Z.eqb_spec 30 n) as [<-|]; rewrite ?E, ?andb_false_r; done.
Qed.

Lemma u16_bit30 b : in_uint 16 b → Z.land b (2 ^ 30) = 0.
Proof.
  intros Hb. apply Z.bits_inj'; intros n Hn.
  rewrite Z.land_spec, Z.bits_0, Z.pow2_bits_eqb by lia.
  destruct (Z.eqb_spec 30 n) as [<-|]; rewrite ?andb_false_r; [|done].
  rewrite andb_true_r. rewrite <- (Z.mod_small b (2 ^ 16)) by done.
  by rewrite Z.mod_pow2_bits_high by lia.
Qed.

Lemma lor_flag b f :
  in_uint 16 b → f = 0 ∨ f = 2 ^ 30 → Z.lor b f = b + f.
Proof.
  intros Hb [->| ->]; [by rewrite Z.lor_0_r, Z.add_0_r|].
  rewrite <- Z.lxor_lor by (by apply u16_bit30).
  symmetry. by apply Z.add_nocarry_lxor, u16_bit30.
Qed.

Lemma to_sequence_consensus b f :
  in_uint 16 b → f = 0 ∨ f = 2 ^ 30 → to_consensus_u32 (to_sequence b f) = b + f.
Proof.
  intros Hb Hf. unfold to_sequence.
  rewrite blocks_to_consensus_u32_spec, lor_flag by done.
  apply to_from_consensus. unfold in_uint in *. destruct Hf as [->| ->]; lia.
Qed.

Lemma to_sequence_low b f :
  in_uint 16 b → f = 0 ∨ f = 2 ^ 30 → low_timelock (to_sequence b f) = b.
Proof.
  intros Hb Hf. rewrite low_timelock_mod, to_sequence_consensus by done.
  destruct Hf as [->| ->]; unfold in_uint in *.
  - rewrite Z.add_0_r. by apply Z.mod_small.
  - change (2 ^ 30) with (2 ^ 14 * 2 ^ 16). rewrite Z_mod_plus_full. by apply Z.mod_small.
Qed.

Lemma to_sequence_flag b f :
  in_uint 16 b → f = 0 ∨ f = 2 ^ 30 → spark_sequence_flag (to_sequence b f) = f.
Proof.
  intros Hb Hf. unfold spark_sequence_flag. rewrite to_sequence_consensus by done.
  rewrite <- lor_flag by done. change SPARK_SEQUENCE_FLAG with (2 ^ 30).
  rewrite Z.land_lor_distr_l.
  replace (Z.land b (2 ^ 30)) with 0.
  - rewrite Z.lor_0_l. by destruct Hf as [->| ->].
  - symmetry. by apply u16_bit30.
Qed.

Lemma check_next_timelock_eq s :
  check_next_timelock s = checked_sub (low_timelock s) TIME_LOCK_INTERVAL.
Proof.
  unfold check_next_timelock, checked_timelock.
  destruct (is_height_locked s); simpl; [|done]. by destruct (_ <=? _).
Qed.
End timelock.

(** ** Properties *)

Section properties.
Context `{Bitcoin}.

Lemma next_pair s off1 off2 t :
  0 ≤ off1 ≤ 100 → 0 ≤ off2 ≤ 100 →
  checked_sub (low_timelock s) TIME_LOCK_INTERVAL = Some t →
  let c := to_sequence (uadd 16 t off1) (spark_sequence_flag s) in
  let d := to_sequence (uadd 16 t off2) (spark_sequence_flag s) in
  TIME_LOCK_INTERVAL ≤ low_timelock s ∧ t = low_timelock s - TIME_LOCK_INTERVAL ∧
  low_timelock c = t + off1 ∧ low_timelock d = t + off2 ∧
  spark_sequence_flag c = spark_sequence_flag s ∧
  spark_sequence_flag d = spark_sequence_flag s.
Proof.
  intros H1 H2 Ht c d. pose proof (low_timelock_range s) as Hs.
  unfold checked_sub in Ht. destruct (Z.leb_spec TIME_LOCK_INTERVAL (low_timelock s)); [|done].
  simplify_eq. unfold in_uint, TIME_LOCK_INTERVAL in *.
  assert (∀ o, 0 ≤ o ≤ 100 → in_uint 16 (uadd 16 (low_timelock s - 100) o) ∧
    uadd 16 (low_timelock s - 100) o = low_timelock s - 100 + o) as Ho.
  { intros o Ho. rewrite uadd_small by lia. unfold in_uint. lia. }
  destruct (Ho off1 H1) as [? E1], (Ho off2 H2) as [? E2].
  subst c d. rewrite !to_sequence_low, !to_sequence_flag by auto using spark_flag_cases.
  lia.
Qed.

(** [next_sequence] fails exactly when fewer than 100 blocks are left.
    Otherwise the CPFP timelock drops by 100, the direct one sits 50 above it,
    the two HTLC ones 70 and 85 above it, Spark's flag is kept in every result,
    and none of the 16-bit additions wraps, whatever sequence comes in. *)
Theorem next_sequence_spec s :
  match next_sequence s, next_lightning_htlc_sequence s with
  | None, None => low_timelock s < TIME_LOCK_INTERVAL
  | Some (c, d), Some (hc, hd) =>
      low_timelock c = low_timelock s - TIME_LOCK_INTERVAL ∧ 0 ≤ low_timelock c ∧
      low_timelock d = low_timelock c + DIRECT_TIME_LOCK_OFFSET ∧
      low_timelock hc = low_timelock c + HTLC_TIME_LOCK_OFFSET ∧
      low_timelock hd = low_timelock c + DIRECT_HTLC_TIME_LOCK_OFFSET ∧
      Forall (λ r, spark_sequence_flag r = spark_sequence_flag s) [c; d; hc; hd]
  | _, _ => False
  end.
Proof.
  unfold next_sequence, next_lightning_htlc_sequence. rewrite check_next_timelock_eq.
  destruct (checked_sub _ _) as [t|] eqn:Ht; simpl.
  - pose proof (next_pair s 0 DIRECT_TIME_LOCK_OFFSET t ltac:(lia) ltac:(done) Ht) as P1.
    pose proof (next_pair s HTLC_TIME_LOCK_OFFSET DIRECT_HTLC_TIME_LOCK_OFFSET t
      ltac:(done) ltac:(done) Ht) as P2.
    pose proof (low_timelock_range s) as [? ?].
    simpl in P1, P2. destruct P1 as (? & -> & Hc & Hd & Fc & Fd), P2 as (_ & _ & Hhc & Hhd & Fhc & Fhd).
    rewrite (uadd_small 16 _ 0), Z.add_0_r in Hc, Fc
      by (unfold TIME_LOCK_INTERVAL in *; lia).
    rewrite Hc, Hd, Hhc, Hhd. repeat split; try lia. by repeat constructor.
  - unfold checked_sub in Ht. destruct (Z.leb_spec TIME_LOCK_INTERVAL (low_timelock s)); [done|lia].
Qed.

(** Renewing [n] times, following the CPFP sequence. *)
Fixpoint renewals (n : nat) (s : Sequence) : option Sequence :=
  match n with
  | O => Some s
  | S n => p ← next_sequence s; renewals n p.1
  end.

(** A sequence can be renewed [n] times exactly when its timelock is at
    least [100 * n]: renewal always runs out, after 20 steps from the initial
    timelock of 2000. *)
Theorem renewals_exhaust n s :
  is_Some (renewals n s) ↔ TIME_LOCK_INTERVAL * Z.of_nat n ≤ low_timelock s.
Proof.
  revert s. induction n as [|n IH]; intros s; simpl.
  - pose proof (low_timelock_range s) as [? ?]. split; [lia|by eexists].
  - pose proof (next_sequence_spec s) as Hs.
    destruct (next_sequence s) as [[c d]|] eqn:E; simpl.
    + destruct (next_lightning_htlc_sequence s) as [[hc hd]|]; [|done].
      rewrite IH. destruct Hs as (-> & _). unfold TIME_LOCK_INTERVAL. lia.
    + destruct (next_lightning_htlc_sequence s) as [[hc hd]|]; [done|].
      unfold TIME_LOCK_INTERVAL in *. rewrite is_Some_alt. lia.
Qed.

Lemma initial_timelock_renewals :
  is_Some (renewals 20 initial_timelock_sequence.1) ∧
  renewals 21 initial_timelock_sequence.1 = None.
Proof.
  assert (low_timelock initial_timelock_sequence.1 = 2000) as Hi.
  { apply to_sequence_low; [done|by left]. }
  split; [apply renewals_exhaust|apply eq_None_not_Some; rewrite renewals_exhaust];
    rewrite Hi; unfold TIME_LOCK_INTERVAL; lia.
Qed.

(** [enforce_timelock] rounds the timelock down to a multiple of 100, by
    less than 100 blocks, keeps Spark's flag, and changes nothing the second
    time. *)
Lemma enforce_timelock_spec s :
  let e := enforce_timelock s in
  low_timelock e mod TIME_LOCK_INTERVAL = 0 ∧
  low_timelock e ≤ low_timelock s < low_timelock e + TIME_LOCK_INTERVAL ∧
  spark_sequence_flag e = spark_sequence_flag s ∧
  enforce_timelock e = e.
Proof.
  intros e. pose proof (low_timelock_range s) as Hs. unfold in_uint in Hs.
  assert (∀ s', enforce_timelock s' = to_sequence
    (low_timelock s' - low_timelock s' mod 100) (spark_sequence_flag s')) as He.
  { intros s'. unfold enforce_timelock, TIME_LOCK_INTERVAL. f_equal.
    pose proof (low_timelock_range s') as [? ?].
    pose proof (Z.mod_le (low_timelock s') 100).
    pose proof (Z.mod_pos_bound (low_timelock s') 100).
    apply usub_small; lia. }
  pose proof (Z.mod_le (low_timelock s) 100). pose proof (Z.mod_pos_bound (low_timelock s) 100).
  assert (low_timelock e = low_timelock s - low_timelock s mod 100) as Hl.
  { subst e. rewrite He, to_sequence_low; [done| |apply spark_flag_cases]. unfold in_uint. lia. }
  assert (spark_sequence_flag e = spark_sequence_flag s) as Hf.
  { subst e. rewrite He, to_sequence_flag; [done| |apply spark_flag_cases]. unfold in_uint. lia. }
  assert (low_timelock e mod 100 = 0) as Hm.
  { rewrite Hl, Zminus_mod_idemp_r. by rewrite Z.sub_diag. }
  unfold TIME_LOCK_INTERVAL. split_and!; try lia.
  rewrite He, Hm, Hf, Hl. subst e. rewrite He. f_equal. lia.
Qed.

(** [current_sequence] keeps the sequence it is given and places the direct
    one 50 blocks above it with the same flag; it fails exactly when that does
    not fit in 16 bits. [checked_timelock] accepts exactly the height locks of
    at most 2050 blocks. *)
Lemma current_sequence_spec s :
  match current_sequence s with
  | None => 2 ^ 16 ≤ low_timelock s + DIRECT_TIME_LOCK_OFFSET
  | Some (c, d) =>
      c = s ∧ low_timelock d = low_timelock s + DIRECT_TIME_LOCK_OFFSET ∧
      spark_sequence_flag d = spark_sequence_flag s
  end ∧
  (∀ t, checked_timelock s = Some t ↔
    Z.testbit (to_consensus_u32 s) 31 = false ∧ Z.testbit (to_consensus_u32 s) 22 = false ∧
    t = low_timelock s ∧ t ≤ 2050).
Proof.
  pose proof (low_timelock_range s) as [? ?]. split.
  - unfold current_sequence, checked_add, DIRECT_TIME_LOCK_OFFSET.
    destruct (Z.ltb_spec (low_timelock s + 50) (2 ^ 16)); simpl; [|done].
    rewrite to_sequence_low, to_sequence_flag; try apply spark_flag_cases;
      try (unfold in_uint; lia). done.
  - intros t. unfold checked_timelock, MAX_TIME_LOCK, INITIAL_TIME_LOCK, DIRECT_TIME_LOCK_OFFSET.
    rewrite is_height_locked_spec.
    destruct (Z.testbit _ 31), (Z.testbit _ 22); simpl; try (split; [done|naive_solver]).
    destruct (Z.leb_spec (low_timelock s) (2000 + 50)); split; intros; simplify_eq;
      destruct_and?; subst; split_and?; first [done | lia | exfalso; lia].
Qed.
End properties.
