(* ===== verification/SparkTx.v ===== *)
(** * Building transactions: [spark/src/utils/transactions.rs]

    Node, refund and connector transactions, and the errors of the service layer
    ([spark/src/services/error.rs]) and of the operators' clients. [tx.output[0]] and [tx.input[0]] panic on a
    transaction without outputs or inputs; [None] is that panic. The [network]
    argument only selects how an address is printed and is left out. *)

From S2P Require Import Prelude Bitcoin BitcoinTx Timelock.

(** [tonic::Status]: the code, the [reason] of its [ErrorInfo] detail, and its text. *)
Inductive Code := PermissionDenied | ResourceExhausted | Internal | AlreadyExists | OtherCode (code : Z).
Record Status := { status_code : Code; error_info_reason : option string; status_text : string }.

(** [OperatorRpcError] ([spark/src/operator/rpc/error.rs]) *)
Module OperatorRpcError.
Inductive t :=
| Transport (msg : string) | InvalidUri (msg : string) | Authentication (msg : string)
| Connection (status : Status) | OperatorNotFound (msg : string) | Unexpected (msg : string)
| SignerError (display : string) | Generic (msg : string).

(** [impl Display] *)
Definition to_string (e : t) : string :=
  match e with
  | Transport m => "Transport error: " +:+ m
  | InvalidUri m => "Invalid URI: " +:+ m
  | Authentication m => "Authentication error: " +:+ m
  | Connection s => "Connection error: " +:+ status_text s
  | OperatorNotFound m => "Operator not found: " +:+ m
  | Unexpected m => "Unexpected error: " +:+ m
  | SignerError m => "Signer error: " +:+ m
  | Generic m => "Generic: " +:+ m
  end%string.
End OperatorRpcError.

(** [ServiceError]; an error of another crate or subsystem is kept as its message. *)
Module ServiceError.
Inductive t :=
| DepositAddressUsed | InvalidDepositAddress | InvalidDepositAddressNetwork
| InvalidIdentifier | MissingDepositAddress | MissingUtxo | MissingDepositAddressProof
| MissingTreeSignatures | MissingLeafId | InvalidDepositAddressProof
| DepositAddressKeyMismatch | DepositAddressUserKeyMismatch
| InvalidNodeId (id : string)
| InvalidOutputIndex | InvalidPublicKey | InvalidSignatureShare | InvalidTransaction
| InvalidNetwork (n : Z)
| InvalidVerifyingKey | NotADepositOutput
| StaticDepositQuoteMismatch (msg : string)
| InvoiceDecodingError (msg : string) | SSPswapError (msg : string)
| PreimageShareStoreFailed (msg : string)
| MaxRetriesExceeded | NoLeavesToClaim | SignatureVerificationFailed (msg : string)
| InvalidAmount | InsufficientFunds
| InvalidInput (msg : string)
| InvalidPaymentHash (msg : string) | InvalidPreimage (msg : string)
| NeededTooManyOutputs
| BitcoinError (display : string) | FrostError (display : string)
| BitcoinIOError (msg : string) | RequestError (display : string)
| ServiceProviderError (display : string)
| ValidationError (msg : string)
| InsufficientCpfpBudget (required_sat : Z)
| SignerError (display : string) | ServiceConnectionError (e : OperatorRpcError.t)
| TransferObserverError (display : string)
| Generic (msg : string).
End ServiceError.
Abbreviation ServiceResult := (result ServiceError.t).

Definition ESTIMATED_TX_SIZE : Z := 191.
Definition DEFAULT_FEE_RATE : Z := 5.
Definition DEFAULT_FEE_SATS : Z := ESTIMATED_TX_SIZE * DEFAULT_FEE_RATE.

Definition maybe_apply_fee (amount_sats : Z) : Z :=
  if DEFAULT_FEE_SATS <? amount_sats then saturating_sub amount_sats DEFAULT_FEE_SATS
  else amount_sats.

Section spark_tx.
Context {B : Bitcoin} {BT : BitcoinTx}.
Implicit Types tx : Transaction.

(** [Sequence::MAX], the default of [TxIn], and [Sequence::ENABLE_RBF_NO_LOCKTIME] *)
Definition SEQUENCE_MAX : Sequence := from_consensus 0xFFFFFFFF.
Definition ENABLE_RBF_NO_LOCKTIME : Sequence := from_consensus 0xFFFFFFFD.

Definition ANCHOR_BYTES : list Z := [0x51; 0x02; 0x4e; 0x73].

Definition ephemeral_anchor_output : TxOut ScriptBuf := mkTxOut 0 (from_bytes ANCHOR_BYTES).

Definition is_ephemeral_anchor_output (tx_out : TxOut ScriptBuf) : bool :=
  (txout_value tx_out =? 0) && bool_decide (as_bytes (script_pubkey tx_out) = ANCHOR_BYTES).

Definition create_spark_tx (previous_output : OutPoint Txid) (sequence : Sequence) (value : Z)
    (script_pubkey : ScriptBuf) (apply_fee include_anchor : bool) : Transaction :=
  let value := if apply_fee then maybe_apply_fee value else value in
  make_tx 3 [mkTxIn previous_output sequence]
    (mkTxOut value script_pubkey :: if include_anchor then [ephemeral_anchor_output] else []).

Record NodeTransactions := { node_cpfp_tx : Transaction; node_direct_tx : Transaction }.

Record RefundTransactions := {
  refund_cpfp_tx : Transaction;
  refund_direct_tx : option Transaction;
  refund_direct_from_cpfp_tx : option Transaction;
}.

Definition create_node_txs (parent_tx : Transaction) (cpfp_sequence direct_sequence : Sequence)
    (vout : Z) : ServiceResult NodeTransactions :=
  parent_tx_out ← ok_or (tx_output parent_tx !! Z.to_nat vout) ServiceError.InvalidOutputIndex;
  let parent_outpoint := mkOutPoint (compute_txid parent_tx) vout in
  Ok {|
    node_cpfp_tx := create_spark_tx parent_outpoint cpfp_sequence (txout_value parent_tx_out)
      (script_pubkey parent_tx_out) false true;
    node_direct_tx := create_spark_tx parent_outpoint direct_sequence (txout_value parent_tx_out)
      (script_pubkey parent_tx_out) true false;
  |}.

Definition create_root_node_txs (parent_tx : Transaction) (vout : Z) :=
  let '(cpfp_sequence, direct_sequence) := initial_root_timelock_sequence in
  create_node_txs parent_tx cpfp_sequence direct_sequence vout.

Definition create_initial_timelock_node_txs (parent_tx : Transaction) :=
  let '(cpfp_sequence, direct_sequence) := initial_timelock_sequence in
  create_node_txs parent_tx cpfp_sequence direct_sequence 0.

Definition create_decremented_timelock_node_txs (parent_tx node_tx : Transaction)
    : option (ServiceResult NodeTransactions) :=
  input ← tx_input node_tx !! 0%nat;
  Some ('(cpfp_sequence, direct_sequence) ←
          ok_or (next_sequence (sequence input))
            (ServiceError.Generic "Failed to get next sequence");
        create_node_txs parent_tx cpfp_sequence direct_sequence 0).

Definition create_zero_timelock_node_txs (parent_tx : Transaction) :=
  let '(cpfp_sequence, direct_sequence) := initial_zero_timelock_sequence in
  create_node_txs parent_tx cpfp_sequence direct_sequence 0.

Definition create_refund_txs (node_tx : Transaction) (direct_tx : option Transaction)
    (cpfp_sequence direct_sequence : Sequence) (receiving_pubkey : PublicKey)
    : option RefundTransactions :=
  node_out ← tx_output node_tx !! 0%nat;
  let cpfp_outpoint := mkOutPoint (compute_txid node_tx) 0 in
  let script := p2tr_script receiving_pubkey in
  direct ← match direct_tx with
    | None => Some None
    | Some tx =>
        direct_out ← tx_output tx !! 0%nat;
        Some (Some (create_spark_tx (mkOutPoint (compute_txid tx) 0) direct_sequence
          (txout_value direct_out) script true false))
    end;
  Some {|
    refund_cpfp_tx := create_spark_tx cpfp_outpoint cpfp_sequence (txout_value node_out)
      script false true;
    refund_direct_tx := direct;
    refund_direct_from_cpfp_tx := Some (create_spark_tx cpfp_outpoint direct_sequence
      (txout_value node_out) script true false);
  |}.

Definition create_initial_timelock_refund_txs (node_tx : Transaction)
    (direct_tx : option Transaction) (receiving_pubkey : PublicKey) :=
  let '(cpfp_sequence, direct_sequence) := initial_timelock_sequence in
  create_refund_txs node_tx direct_tx cpfp_sequence direct_sequence receiving_pubkey.

(** [tx.input.push(TxIn { previous_output: connector_outpoint, ..Default::default() })] on a
    transaction [create_spark_tx] just built *)
Definition create_spark_connector_tx (previous_output : OutPoint Txid) (sequence : Sequence)
    (value : Z) (script_pubkey : ScriptBuf) (apply_fee include_anchor : bool)
    (connector_outpoint : OutPoint Txid) : Transaction :=
  let tx := create_spark_tx previous_output sequence value script_pubkey apply_fee include_anchor in
  make_tx 3 (tx_input tx ++ [mkTxIn connector_outpoint SEQUENCE_MAX]) (tx_output tx).

Record ConnectorRefundTxsParams := {
  crp_cpfp_sequence : Sequence;
  crp_direct_sequence : Sequence;
  crp_node_tx : Transaction;
  crp_direct_tx : option Transaction;
  crp_connector_outpoint : OutPoint Txid;
  crp_receiving_pubkey : PublicKey;
}.

Definition create_connector_refund_txs (params : ConnectorRefundTxsParams)
    : option RefundTransactions :=
  node_out ← tx_output (crp_node_tx params) !! 0%nat;
  let cpfp_outpoint := mkOutPoint (compute_txid (crp_node_tx params)) 0 in
  let script := p2tr_script (crp_receiving_pubkey params) in
  let connector := crp_connector_outpoint params in
  direct ← match crp_direct_tx params with
    | None => Some None
    | Some tx =>
        direct_out ← tx_output tx !! 0%nat;
        Some (Some (create_spark_connector_tx (mkOutPoint (compute_txid tx) 0)
          (crp_direct_sequence params) (txout_value direct_out) script true false connector))
    end;
  Some {|
    refund_cpfp_tx := create_spark_connector_tx cpfp_outpoint (crp_cpfp_sequence params)
      (txout_value node_out) script false true connector;
    refund_direct_tx := direct;
    refund_direct_from_cpfp_tx := Some (create_spark_connector_tx cpfp_outpoint
      (crp_direct_sequence params) (txout_value node_out) script true false connector);
  |}.

Definition create_static_deposit_refund_tx (deposit_outpoint : OutPoint Txid) (amount_sat : Z)
    (refund_script : ScriptBuf) : Transaction :=
  make_tx 3 [mkTxIn deposit_outpoint SEQUENCE_MAX] [mkTxOut amount_sat refund_script].

(** ** Facts *)

Lemma anchor_is_anchor : is_ephemeral_anchor_output ephemeral_anchor_output = true.
Proof.
  unfold is_ephemeral_anchor_output, ephemeral_anchor_output. simpl.
  rewrite as_bytes_from_bytes. by apply bool_decide_eq_true_2.
Qed.

Lemma maybe_apply_fee_range v : in_uint 64 v → in_uint 64 (maybe_apply_fee v).
Proof.
  unfold maybe_apply_fee, in_uint, saturating_sub. change DEFAULT_FEE_SATS with 955.
  destruct (Z.ltb_spec 955 v); lia.
Qed.

Lemma spark_tx_input prev s v script fee anchor :
  tx_input (create_spark_tx prev s v script fee anchor) = [mkTxIn prev s].
Proof. apply tx_input_make. Qed.

Lemma spark_tx_output prev s v script fee anchor :
  in_uint 64 v →
  tx_output (create_spark_tx prev s v script fee anchor) =
    mkTxOut (if fee then maybe_apply_fee v else v) script ::
    if anchor then [ephemeral_anchor_output] else [].
Proof.
  intros Hv. apply tx_output_make. constructor; simpl.
  - destruct fee; [by apply maybe_apply_fee_range|done].
  - destruct anchor; repeat constructor. simpl. lia.
Qed.

(** The value of a transaction's outputs. *)
Definition output_total tx : Z := sumZ (txout_value <$> tx_output tx).

Lemma tx_output_lookup_range tx i o : tx_output tx !! i = Some o → in_uint 64 (txout_value o).
Proof. intros Hi. apply (tx_output_range tx). by eapply list_elem_of_lookup_2. Qed.

(** A node's CPFP transaction passes the output it spends on in full, to the same
    script, with an anchor for a child to pay through; the direct transaction
    spends the same output, pays the fixed fee from it when it can, and has no
    anchor. *)
Lemma create_node_txs_spec parent cs ds v txs :
  create_node_txs parent cs ds v = Ok txs →
  ∃ o, tx_output parent !! Z.to_nat v = Some o ∧
    let input s := [mkTxIn (mkOutPoint (compute_txid parent) v) s] in
    tx_input (node_cpfp_tx txs) = input cs ∧ tx_output (node_cpfp_tx txs) = [o; ephemeral_anchor_output] ∧
    tx_input (node_direct_tx txs) = input ds ∧
    tx_output (node_direct_tx txs) = [mkTxOut (maybe_apply_fee (txout_value o)) (script_pubkey o)].
Proof.
  unfold create_node_txs. rewrite bind_Ok. setoid_rewrite ok_or_Ok. intros (o & Ho & [= <-]).
  exists o. pose proof (tx_output_lookup_range _ _ _ Ho). simpl.
  rewrite !spark_tx_input, !spark_tx_output by done. destruct o; auto.
Qed.

Lemma create_refund_txs_spec node direct cs ds pk txs :
  create_refund_txs node direct cs ds pk = Some txs →
  ∃ o, tx_output node !! 0%nat = Some o ∧
    tx_input (refund_cpfp_tx txs) = [mkTxIn (mkOutPoint (compute_txid node) 0) cs] ∧
    tx_output (refund_cpfp_tx txs) =
      [mkTxOut (txout_value o) (p2tr_script pk); ephemeral_anchor_output] ∧
    (∃ d, refund_direct_from_cpfp_tx txs = Some d ∧
       tx_input d = [mkTxIn (mkOutPoint (compute_txid node) 0) ds] ∧
       tx_output d = [mkTxOut (maybe_apply_fee (txout_value o)) (p2tr_script pk)]) ∧
    match direct, refund_direct_tx txs with
    | None, None => True
    | Some tx, Some d =>
        ∃ o', tx_output tx !! 0%nat = Some o' ∧
          tx_input d = [mkTxIn (mkOutPoint (compute_txid tx) 0) ds] ∧
          tx_output d = [mkTxOut (maybe_apply_fee (txout_value o')) (p2tr_script pk)]
    | _, _ => False
    end.
Proof.
  unfold create_refund_txs. rewrite bind_Some. intros (o & Ho & Hd). exists o. split; [done|].
  pose proof (tx_output_lookup_range _ _ _ Ho).
  destruct direct as [tx|].
  - destruct (tx_output tx !! 0%nat) as [o'|] eqn:Ho'; simpl in *; [|done]. injection Hd as <-. simpl.
    pose proof (tx_output_lookup_range _ _ _ Ho').
    rewrite !spark_tx_input, !spark_tx_output by done. split_and!; [done..| |].
    + eexists. split_and!; [done|by rewrite spark_tx_input|by rewrite spark_tx_output].
    + exists o'. by rewrite ?spark_tx_input, ?spark_tx_output.
  - injection Hd as <-. simpl. rewrite !spark_tx_input, !spark_tx_output by done.
    split_and!; [done..| |done].
    eexists. split_and!; [done|by rewrite spark_tx_input|by rewrite spark_tx_output].
Qed.
(** [t] spends output 0 of [prev], which is [o], at most the fixed fee goes to miners,
    and the rest pays [script]. *)
Definition spends (prev : Transaction) (o : TxOut ScriptBuf) (t : Transaction) (script : ScriptBuf) : Prop :=
  tx_output prev !! 0%nat = Some o ∧
  (∃ s, tx_input t = [mkTxIn (mkOutPoint (compute_txid prev) 0) s]) ∧
  ∃ v, txout_value o - DEFAULT_FEE_SATS ≤ v ≤ txout_value o ∧
    (tx_output t = [mkTxOut v script] ∨
     tx_output t = [mkTxOut v script; ephemeral_anchor_output]).

Lemma maybe_apply_fee_bound v : 0 ≤ v → v - DEFAULT_FEE_SATS ≤ maybe_apply_fee v ≤ v.
Proof.
  unfold maybe_apply_fee, saturating_sub. change DEFAULT_FEE_SATS with 955.
  destruct (Z.ltb_spec 955 v); lia.
Qed.

(** [t] spends only that output, with the sequence [s]. *)
Definition moves (prev t : Transaction) (script : ScriptBuf) (s : Sequence) : Prop :=
  ∃ o, spends prev o t script ∧ input_sequences t = [s].

Lemma spark_tx_moves prev o s script fee anchor :
  tx_output prev !! 0%nat = Some o →
  moves prev (create_spark_tx (mkOutPoint (compute_txid prev) 0) s (txout_value o) script fee anchor) script s.
Proof.
  intros Ho. pose proof (tx_output_lookup_range _ _ _ Ho) as Hr. exists o.
  split; [|by rewrite tx_input_sequences, spark_tx_input].
  split; [done|]. split; [rewrite spark_tx_input; eauto|]. rewrite spark_tx_output by done.
  destruct Hr as [? ?].
  exists (if fee then maybe_apply_fee (txout_value o) else txout_value o). split.
  - destruct fee; [by apply maybe_apply_fee_bound|]. change DEFAULT_FEE_SATS with 955. lia.
  - destruct anchor; auto.
Qed.

Lemma create_refund_txs_moves node direct cs ds key txs :
  create_refund_txs node direct cs ds key = Some txs →
  moves node (refund_cpfp_tx txs) (p2tr_script key) cs ∧
  (∃ d, refund_direct_from_cpfp_tx txs = Some d ∧ moves node d (p2tr_script key) ds) ∧
  match direct, refund_direct_tx txs with
  | None, None => True
  | Some prev, Some d => moves prev d (p2tr_script key) ds
  | _, _ => False
  end.
Proof.
  intros (o & Ho & Htxs)%bind_Some. apply bind_Some in Htxs as (d & Hd & [= <-]).
  split; [by apply spark_tx_moves|]. split; [eexists; split; [done|by apply spark_tx_moves]|]. simpl.
  destruct direct as [prev|]; [|by injection Hd as <-].
  apply bind_Some in Hd as (o' & Ho' & [= <-]). by apply spark_tx_moves.
Qed.

End spark_tx.
