(* ===== verification/TreeModel.v ===== *)
(** * Data model of the leaf tree: [spark/src/tree/mod.rs], [spark/src/tree/error.rs]

    Nodes, leaf sets, reservations and payment targets, with the methods the
    store, the selection helpers and the optimizer call on them. *)

From S2P Require Import Prelude Bitcoin BitcoinTx Timelock SparkTx.

(** A newtype over [String]; [Ord] is the byte order of the string. *)
Abbreviation TreeNodeId := string (only parsing).
Abbreviation LeavesReservationId := string (only parsing).
(** Nanoseconds since the epoch, and durations in nanoseconds. *)
Abbreviation SystemTime := Z (only parsing).
Abbreviation Duration := Z (only parsing).

(** [TreeServiceError]; an error of the signer is kept as its message. *)
Module TreeServiceError.
Inductive t :=
| InsufficientFunds
| RpcError (e : OperatorRpcError.t)
| UnselectableAmount
| InvalidAmount
| SignerError (display : string)
| NonReservableLeaves
| ServiceError (e : ServiceError.t)
| ProcessorShutdown
| ResourceBusy (max_concurrent : Z) (timeout : Duration)
| Generic (msg : string).
End TreeServiceError.
Abbreviation TreeResult := (result TreeServiceError.t).

Module TreeNodeStatus.
Inductive t :=
| Creating | Available | FrozenByIssuer | TransferLocked | SplitLocked | Splitted
| Aggregated | OnChain | Exited | AggregateLock | Investigation | Lost | Reimbursed
| RenewLocked | ParentExited | Unknown.

#[global] Instance t_eq_dec : EqDecision t.
Proof. solve_decision. Defined.

(** [impl Display]. *)
Definition to_string (s : t) : string :=
  match s with
  | Creating => "Creating" | Available => "Available"
  | FrozenByIssuer => "FrozenByIssuer" | TransferLocked => "TransferLocked"
  | SplitLocked => "SplitLocked" | Splitted => "Splitted"
  | Aggregated => "Aggregated" | OnChain => "OnChain" | Exited => "Exited"
  | AggregateLock => "AggregateLock" | Investigation => "Investigation"
  | Lost => "Lost" | Reimbursed => "Reimbursed" | RenewLocked => "RenewLocked"
  | ParentExited => "ParentExited" | Unknown => "Unknown"
  end%string.

(** [impl From<&str>]. *)
Definition from_str (s : string) : t :=
  if bool_decide (s = "CREATING"%string) then Creating
  else if bool_decide (s = "AVAILABLE"%string) then Available
  else if bool_decide (s = "FROZEN_BY_ISSUER"%string) then FrozenByIssuer
  else if bool_decide (s = "TRANSFER_LOCKED"%string) then TransferLocked
  else if bool_decide (s = "SPLIT_LOCKED"%string) then SplitLocked
  else if bool_decide (s = "SPLITTED"%string) then Splitted
  else if bool_decide (s = "AGGREGATED"%string) then Aggregated
  else if bool_decide (s = "ON_CHAIN"%string) then OnChain
  else if bool_decide (s = "EXITED"%string) then Exited
  else if bool_decide (s = "AGGREGATE_LOCK"%string) then AggregateLock
  else if bool_decide (s = "INVESTIGATION"%string) then Investigation
  else if bool_decide (s = "LOST"%string) then Lost
  else if bool_decide (s = "REIMBURSED"%string) then Reimbursed
  else if bool_decide (s = "RENEW_LOCKED"%string) then RenewLocked
  else if bool_decide (s = "PARENT_EXITED"%string) then ParentExited
  else Unknown.
End TreeNodeStatus.

Module ReservationPurpose.
Inductive t := Payment | Swap.

#[global] Instance t_eq_dec : EqDecision t.
Proof. solve_decision. Defined.

(** [impl Display] *)
Definition to_string (p : t) : string :=
  match p with Payment => "Payment" | Swap => "Swap" end%string.

(** [impl FromStr] *)
Definition from_str (s : string) : result string t :=
  if bool_decide (s = "Payment"%string) then Ok Payment
  else if bool_decide (s = "Swap"%string) then Ok Swap
  else Err ("Unknown ReservationPurpose: " +:+ s)%string.

(** [#[default]] *)
Definition default : t := Payment.
End ReservationPurpose.

(** [impl FromStr for TreeNodeId]. *)
Definition TreeNodeId_from_str (s : string) : result string TreeNodeId :=
  if bool_decide (s = ""%string) then Err "TreeNodeId cannot be empty"%string else Ok s.

Section model.
Context `{Bitcoin}.

Record SigningKeyshare := {
  owner_identifiers : list Identifier;
  threshold : Z;
  ks_public_key : PublicKey;
}.

Record TreeNode := {
  id : TreeNodeId;
  tree_id : string;
  value : Z;
  parent_node_id : option TreeNodeId;
  node_tx : Transaction;
  refund_tx : option Transaction;
  direct_tx : option Transaction;
  direct_refund_tx : option Transaction;
  direct_from_cpfp_refund_tx : option Transaction;
  vout : Z;
  verifying_public_key : PublicKey;
  owner_identity_public_key : option PublicKey;
  signing_keyshare : SigningKeyshare;
  status : TreeNodeStatus.t;
}.

#[export] Instance SigningKeyshare_eq_dec : EqDecision SigningKeyshare.
Proof. solve_decision. Defined.
#[export] Instance TreeNode_eq_dec : EqDecision TreeNode.
Proof. solve_decision. Defined.

(** A node as the operators may report it: [value] is a [u64]. *)
Definition node_wf (n : TreeNode) : Prop := in_uint 64 (value n).

(** ** Methods of [TreeNode]

    [tx.input[0]] panics on a transaction without inputs; [None] is that panic. *)

Definition node_sequence (self : TreeNode) : option Sequence :=
  input_sequences (node_tx self) !! 0%nat.

Definition refund_sequence (self : TreeNode) : option (TreeResult Sequence) :=
  match refund_tx self with
  | None => Some (Err (TreeServiceError.Generic "No refund tx"))
  | Some tx => s ← input_sequences tx !! 0%nat; Some (Ok s)
  end.

Definition needs_node_tx_renewed (self : TreeNode) : option bool :=
  s ← node_sequence self;
  let sequence_num := wrap 16 (to_consensus_u32 s) in
  Some (sequence_num <=? 100).

Definition needs_refund_tx_renewed (self : TreeNode) : option (TreeResult bool) :=
  r ← refund_sequence self;
  Some (s ← r; let sequence_num := wrap 16 (to_consensus_u32 s) in
        Ok (sequence_num <=? 100)).

Definition is_zero_timelock (self : TreeNode) : option bool :=
  s ← node_sequence self;
  let sequence_num := wrap 16 (to_consensus_u32 s) in
  Some (sequence_num =? 0).

(** The method [TreeNode::direct_refund_tx], beside the field of that name. *)
Definition direct_refund_tx_method (self : TreeNode) : option (option Transaction) :=
  z ← is_zero_timelock self;
  Some (if z : bool then None else direct_tx self).

(** ** Leaf sets *)

Record Leaves := {
  available : list TreeNode;
  not_available : list TreeNode;
  available_missing_from_operators : list TreeNode;
  reserved_for_payment : list TreeNode;
  reserved_for_swap : list TreeNode;
}.

Definition available_balance (self : Leaves) : Z := sum_wrap 64 (value <$> available self).
Definition missing_operators_balance (self : Leaves) : Z :=
  sum_wrap 64 (value <$> available_missing_from_operators self).
Definition payment_reserved_balance (self : Leaves) : Z :=
  sum_wrap 64 (value <$> reserved_for_payment self).
Definition swap_reserved_balance (self : Leaves) : Z :=
  sum_wrap 64 (value <$> reserved_for_swap self).

Definition balance (self : Leaves) : Z :=
  uadd 64 (uadd 64 (available_balance self) (missing_operators_balance self))
    (swap_reserved_balance self).

(** [Vec::dedup]: of each run of equal consecutive elements, the first stays. *)
Fixpoint dedup {A} `{EqDecision A} (l : list A) : list A :=
  match l with
  | [] => []
  | x :: l' =>
      match l' with
      | y :: _ => if decide (x = y) then dedup l' else x :: dedup l'
      | [] => [x]
      end
  end.

(** All five buckets in the order the code chains them. *)
Definition all_leaves (self : Leaves) : list TreeNode :=
  available self ++ not_available self ++ available_missing_from_operators self ++
  reserved_for_payment self ++ reserved_for_swap self.

Definition leaf_ids (self : Leaves) : list TreeNodeId :=
  dedup (stable_sort String.leb (id <$> all_leaves self)).

Record VerifiedLeafKeys := {
  vk_verifying_public_key : PublicKey;
  vk_signing_keyshare_public_key : PublicKey;
}.

Definition verified_leaf_keys_from_leaves (leaves : Leaves) : gmap TreeNodeId VerifiedLeafKeys :=
  hm_collect ((λ leaf,
    (id leaf,
     {| vk_verifying_public_key := verifying_public_key leaf;
        vk_signing_keyshare_public_key := ks_public_key (signing_keyshare leaf) |}))
    <$> all_leaves leaves).

(** ** Reservations and targets *)

Record LeavesReservation := {
  reservation_id : LeavesReservationId;
  reservation_leaves : list TreeNode;
}.

(** [LeavesReservation::new(leaves, id)] *)
Definition LeavesReservation_new (leaves : list TreeNode) (id : LeavesReservationId) :=
  {| reservation_id := id; reservation_leaves := leaves |}.

Definition reservation_sum (self : LeavesReservation) : Z :=
  sum_wrap 64 (value <$> reservation_leaves self).

Inductive ReserveResult :=
| Success (r : LeavesReservation)
| InsufficientFunds
| WaitForPending (needed available pending : Z).

Definition into_result (self : ReserveResult) : TreeResult LeavesReservation :=
  match self with
  | Success r => Ok r
  | InsufficientFunds => Err TreeServiceError.InsufficientFunds
  | WaitForPending _ _ _ =>
      Err (TreeServiceError.Generic "Unexpected WaitForPending after swap")
  end.

Definition DEFAULT_MAX_WAIT_FOR_PENDING : Duration := 60 * 10 ^ 9.

Record SelectLeavesOptions := { max_wait_for_pending : Duration }.
Definition SelectLeavesOptions_default : SelectLeavesOptions :=
  {| max_wait_for_pending := DEFAULT_MAX_WAIT_FOR_PENDING |}.
Definition no_wait : SelectLeavesOptions := {| max_wait_for_pending := 0 |}.

Inductive TargetAmounts :=
| AmountAndFee (amount_sats : Z) (fee_sats : option Z)
| ExactDenominations (denominations : list Z).

Definition new_amount_and_fee := AmountAndFee.
Definition new_exact_denominations := ExactDenominations.

Definition total_sats (self : TargetAmounts) : Z :=
  match self with
  | AmountAndFee amount_sats fee_sats => uadd 64 amount_sats (default 0 fee_sats)
  | ExactDenominations denominations => sum_wrap 64 denominations
  end.

(** A leaf with its ancestors up to the root, nearest first. *)
Record LeafPedigree := {
  leaf : TreeNode;
  ancestors : list TreeNode;
}.

Inductive LeafSelection :=
| Exact (l : list TreeNode)
| SwapNeeded (l : list TreeNode).

(** ** Facts *)

(** The balances are the mathematical sums as long as the wallet's total stays
    below [2^64] satoshis (the whole bitcoin supply is below [2^51]). *)
Lemma balance_exact (self : Leaves) :
  Forall node_wf (all_leaves self) →
  sumZ (value <$> all_leaves self) < 2 ^ 64 →
  balance self = sumZ (value <$> available self) +
    sumZ (value <$> available_missing_from_operators self) +
    sumZ (value <$> reserved_for_swap self).
Proof.
  unfold all_leaves. rewrite !fmap_app, !sumZ_app, !Forall_app.
  intros (W1 & W2 & W3 & W4 & W5) Hsum.
  assert (∀ l, Forall node_wf l → Forall (λ x, 0 ≤ x) (value <$> l)) as Hnn.
  { intros l Hl. rewrite Forall_fmap. eapply Forall_impl; [done|]. by intros x [? ?]. }
  pose proof (sumZ_nonneg _ (Hnn _ W1)). pose proof (sumZ_nonneg _ (Hnn _ W2)).
  pose proof (sumZ_nonneg _ (Hnn _ W3)). pose proof (sumZ_nonneg _ (Hnn _ W4)).
  pose proof (sumZ_nonneg _ (Hnn _ W5)).
  unfold balance, available_balance, missing_operators_balance, swap_reserved_balance.
  rewrite !sum_wrap_exact by (try apply Hnn; try done; lia).
  rewrite (uadd_small 64 (sumZ (value <$> available self))) by lia.
  apply uadd_small. lia.
Qed.

Lemma dedup_elem_of {A} `{EqDecision A} (l : list A) x : x ∈ dedup l ↔ x ∈ l.
Proof.
  induction l as [|y [|z l] IH]; [done|done|].
  change (dedup (y :: z :: l)) with
    (if decide (y = z) then dedup (z :: l) else y :: dedup (z :: l)).
  case_decide; subst; rewrite ?elem_of_cons, ?IH, ?elem_of_cons; naive_solver.
Qed.

Lemma dedup_sorted {A} `{EqDecision A} (R : relation A) `{!AntiSymm (=) R} (l : list A) :
  StronglySorted R l → StronglySorted R (dedup l) ∧ NoDup (dedup l).
Proof.
  induction 1 as [|y l Hl [IH IHd] Hy]; [split; constructor|].
  destruct l as [|z l]; [split; repeat constructor; by intros ?%elem_of_nil|].
  change (dedup (y :: z :: l)) with
    (if decide (y = z) then dedup (z :: l) else y :: dedup (z :: l)).
  case_decide as Hyz; [done|]. split; constructor; try done.
  - rewrite Forall_forall in Hy |- *. intros x. rewrite dedup_elem_of. apply Hy.
  - rewrite dedup_elem_of. intros Hin. apply Hyz.
    assert (R y z) by (rewrite Forall_forall in Hy; apply Hy; by left).
    apply (anti_symm R); [done|].
    apply elem_of_cons in Hin as [->|Hin]; [done|].
    inversion Hl as [|? ? ? HF]. rewrite Forall_forall in HF. by apply HF.
Qed.

Lemma low16_mask s :
  wrap 16 (to_consensus_u32 s) = low_timelock s.
Proof. by rewrite low_timelock_mod. Qed.

(** ** Properties *)

(** [leaf_ids] lists the id of every leaf of the set, from whichever bucket,
    exactly once and in increasing byte order. *)
Theorem leaf_ids_spec (self : Leaves) :
  StronglySorted String.le (leaf_ids self) ∧ NoDup (leaf_ids self) ∧
  ∀ i, i ∈ leaf_ids self ↔ ∃ l, l ∈ all_leaves self ∧ id l = i.
Proof.
  unfold leaf_ids. set (ids := id <$> all_leaves self).
  assert (StronglySorted String.le (stable_sort String.leb ids)) as Hs.
  { eapply StronglySorted_impl; [|apply stable_sort_sorted].
    - intros x y Hxy. unfold String.le. by rewrite Hxy.
    - apply String.leb_total.
    - intros x y z Hx Hy. apply Is_true_true. apply Is_true_true in Hx, Hy.
      by eapply (transitivity (R := String.le)). }
  destruct (dedup_sorted String.le _ Hs) as [? ?]. split_and!; [done|done|].
  intros i. rewrite dedup_elem_of, stable_sort_perm. subst ids.
  rewrite list_elem_of_fmap. naive_solver.
Qed.

(** A node that does not ask for renewal still has a next timelock, above
    zero: renewing at 100 blocks or fewer leaves room for one more transfer. *)
Theorem renewal_threshold_leaves_room (n : TreeNode) s :
  node_sequence n = Some s →
  needs_node_tx_renewed n = Some (bool_decide (low_timelock s ≤ 100)) ∧
  is_zero_timelock n = Some (bool_decide (low_timelock s = 0)) ∧
  (needs_node_tx_renewed n = Some false →
   ∃ c d, next_sequence s = Some (c, d) ∧ 0 < low_timelock c).
Proof.
  intros Hs. unfold needs_node_tx_renewed, is_zero_timelock. rewrite Hs. simpl.
  rewrite low16_mask. split_and!.
  - f_equal. destruct (Z.leb_spec (low_timelock s) 100); case_bool_decide; lia || done.
  - f_equal. destruct (Z.eqb_spec (low_timelock s) 0); case_bool_decide; lia || done.
  - intros [= Hlt]. apply Z.leb_gt in Hlt. pose proof (next_sequence_spec s) as Hn.
    destruct (next_sequence s) as [[c d]|]; destruct (next_lightning_htlc_sequence s) as [[? ?]|];
      unfold TIME_LOCK_INTERVAL in *; try done; [|lia].
    exists c, d. split; [done|]. lia.
Qed.
End model.

(** ** Witnesses *)

Definition sample_node `{Bitcoin} (pk : PublicKey) (tx : Transaction) (i : TreeNodeId)
    (v : Z) (parent : option TreeNodeId) : TreeNode :=
  {| id := i; tree_id := "tree"; value := v; parent_node_id := parent; node_tx := tx;
     refund_tx := Some tx; direct_tx := None; direct_refund_tx := None;
     direct_from_cpfp_refund_tx := None; vout := 0; verifying_public_key := pk;
     owner_identity_public_key := Some pk;
     signing_keyshare := {| owner_identifiers := []; threshold := 1; ks_public_key := pk |};
     status := TreeNodeStatus.Available |}.

(** A node whose transactions have one input with sequence 2000. *)
Definition bip68_node (i : TreeNodeId) (v : Z) (parent : option TreeNodeId) : @TreeNode bip68 :=
  @sample_node bip68 "key"%string [2000] i v parent.

Example renewal_threshold_witness :
  @needs_node_tx_renewed bip68 (bip68_node "a" 1 None) = Some (bool_decide (2000 ≤ 100)).
Proof. apply (@renewal_threshold_leaves_room bip68 (bip68_node "a" 1 None) 2000). reflexivity. Defined.
