(* ===== verification/NodeWire.v ===== *)
(** * Nodes and commitments on the wire: [spark/src/services/models.rs]

    The conversions between the messages of the operators and the wallet's types:
    tree nodes and their keyshares, the operators' signing commitments, and the
    signed transactions sent back. The byte formats are those of the [bitcoin],
    [frost_secp256k1_tr] and [hex] crates, parameters in the class [Codec]. *)

From S2P Require Import Prelude WireBytes Bitcoin BitcoinTx Timelock SparkTx TreeModel.

Class Codec {B : Bitcoin} := {
  Identifier_countable :: Countable Identifier;
  NonceCommitment : Type;
  SignatureShare : Type;
  hex_decode : string → option (list Z);
  hex_encode : list Z → string;
  identifier_deserialize : list Z → option Identifier;
  identifier_serialize : Identifier → list Z;
  public_key_from_slice : list Z → option PublicKey;
  public_key_serialize : PublicKey → list Z;
  (** [consensus::deserialize], [consensus::serialize] *)
  deserialize : list Z → option Transaction;
  serialize : Transaction → list Z;
  nonce_deserialize : list Z → option NonceCommitment;
  (** an error is its text *)
  nonce_serialize : NonceCommitment → result string (list Z);
  share_serialize : SignatureShare → list Z;
}.

(** ** Messages *)

Module Proto.
Record SigningKeyshare := mkSigningKeyshare {
  owner_identifiers : list string;
  threshold : Z;
  public_key : list Z;
}.

(** The fields the code reads. *)
Record TreeNode := mkTreeNode {
  id : string;
  tree_id : string;
  value : Z;
  parent_node_id : option string;
  node_tx : list Z;
  refund_tx : list Z;
  vout : Z;
  verifying_public_key : list Z;
  owner_identity_public_key : list Z;
  signing_keyshare : option SigningKeyshare;
  status : string;
  direct_tx : list Z;
  direct_refund_tx : list Z;
  direct_from_cpfp_refund_tx : list Z;
}.

Record SigningCommitment := mkSigningCommitment { hiding : list Z; binding : list Z }.

Record UserSignedTxSigningJob := mkUserSignedTxSigningJob {
  leaf_id : string;
  signing_public_key : list Z;
  raw_tx : list Z;
  signing_nonce_commitment : option SigningCommitment;
  signing_commitments : option (gmap string SigningCommitment);
  user_signature : list Z;
}.
End Proto.

Section wire.
Context {B : Bitcoin} `{!Codec}.

(** [.map_err(|_| ServiceError::Generic(msg))] *)
Definition or_generic {A} (o : option A) (msg : string) : ServiceResult A :=
  ok_or o (ServiceError.Generic msg).

(** [if bytes.is_empty() { None } else { Some(convert(bytes)?) }] *)
Definition unless_empty {A} (convert : list Z → option A) (bytes : list Z) (msg : string)
    : ServiceResult (option A) :=
  match bytes with
  | [] => Ok None
  | _ => a ← or_generic (convert bytes) msg; Ok (Some a)
  end.

Definition identifier_try_from (id_hex : string) : ServiceResult Identifier :=
  id_bytes ← or_generic (hex_decode id_hex) "Invalid hex identifier";
  or_generic (identifier_deserialize id_bytes) "Invalid identifier".

(** [TryFrom<operator_rpc::spark::SigningKeyshare> for SigningKeyshare] *)
Definition keyshare_try_from (keyshare : Proto.SigningKeyshare) : ServiceResult SigningKeyshare :=
  owner_identifiers ← mapR identifier_try_from (Proto.owner_identifiers keyshare);
  public_key ← or_generic (public_key_from_slice (Proto.public_key keyshare)) "Invalid public key";
  Ok {| owner_identifiers := owner_identifiers; threshold := Proto.threshold keyshare;
        ks_public_key := public_key |}.

(** [TryFrom<operator_rpc::spark::TreeNode> for TreeNode] *)
Definition node_try_from (node : Proto.TreeNode) : ServiceResult TreeNode :=
  id ← match TreeNodeId_from_str (Proto.id node) with
    | Ok id => Ok id
    | Err _ => Err (ServiceError.Generic ("Invalid node id: " +:+ Proto.id node))
    end;
  parent_node_id ← match Proto.parent_node_id node with
    | Some parent_id =>
        match TreeNodeId_from_str parent_id with
        | Ok id => Ok (Some id)
        | Err _ => Err (ServiceError.Generic ("Invalid parent node id: " +:+ parent_id))
        end
    | None => Ok None
    end;
  node_tx ← or_generic (deserialize (Proto.node_tx node)) "Invalid node transaction";
  refund_tx ← unless_empty deserialize (Proto.refund_tx node) "Invalid refund transaction";
  direct_tx ← unless_empty deserialize (Proto.direct_tx node) "Invalid direct transaction";
  direct_refund_tx ← unless_empty deserialize (Proto.direct_refund_tx node)
    "Invalid direct refund transaction";
  direct_from_cpfp_refund_tx ← unless_empty deserialize (Proto.direct_from_cpfp_refund_tx node)
    "Invalid direct from CPFP refund transaction";
  verifying_public_key ← or_generic (public_key_from_slice (Proto.verifying_public_key node))
    "Invalid verifying public key";
  owner_identity_public_key ← unless_empty public_key_from_slice
    (Proto.owner_identity_public_key node) "Invalid owner identity public key";
  keyshare ← or_generic (Proto.signing_keyshare node) "Missing signing keyshare";
  signing_keyshare ← keyshare_try_from keyshare;
  Ok {|
    id := id; tree_id := Proto.tree_id node; value := Proto.value node;
    parent_node_id := parent_node_id; node_tx := node_tx; refund_tx := refund_tx;
    direct_tx := direct_tx; direct_refund_tx := direct_refund_tx;
    direct_from_cpfp_refund_tx := direct_from_cpfp_refund_tx; vout := Proto.vout node;
    verifying_public_key := verifying_public_key;
    owner_identity_public_key := owner_identity_public_key; signing_keyshare := signing_keyshare;
    status := TreeNodeStatus.from_str (Proto.status node);
  |}.

(** ** Commitments *)

(** [frost_secp256k1_tr::round1::SigningCommitments] *)
Record SigningCommitments := mkSigningCommitments {
  hiding : NonceCommitment;
  binding : NonceCommitment;
}.

(** [spark/src/signer/models.rs] *)
Record FrostSigningCommitmentsWithNonces := {
  commitments : SigningCommitments;
  nonces_ciphertext : list Z;
}.

Definition nonce_commitment (bytes : list Z) : ServiceResult NonceCommitment :=
  ok_or (nonce_deserialize bytes) ServiceError.InvalidSignatureShare.

Definition map_signing_nonce_commitments `{!HashIter string}
    (source : gmap string Proto.SigningCommitment)
    : ServiceResult (gmap Identifier SigningCommitments) :=
  foldlR (λ nonce_commitments '(identifier, commitment),
    bytes ← ok_or (hex_decode identifier) ServiceError.InvalidIdentifier;
    identifier ← ok_or (identifier_deserialize bytes) ServiceError.InvalidIdentifier;
    hiding ← nonce_commitment (Proto.hiding commitment);
    binding ← nonce_commitment (Proto.binding commitment);
    Ok (<[identifier := mkSigningCommitments hiding binding]> nonce_commitments))
    ∅ (hm_iter source).

Definition frost_bytes (nonce : NonceCommitment) : ServiceResult (list Z) :=
  match nonce_serialize nonce with Ok b => Ok b | Err e => Err (ServiceError.FrostError e) end.

(** [TryFrom<SigningCommitments> for operator_rpc::common::SigningCommitment] *)
Definition commitment_to_proto (signing_commitment : SigningCommitments)
    : ServiceResult Proto.SigningCommitment :=
  hiding ← frost_bytes (hiding signing_commitment);
  binding ← frost_bytes (binding signing_commitment);
  Ok (Proto.mkSigningCommitment hiding binding).

(** The argument is a [BTreeMap]; the order of its keys is that of [HashIter Identifier]. *)
Definition to_proto_signing_commitments `{!HashIter Identifier}
    (signing_commitments : gmap Identifier SigningCommitments)
    : ServiceResult (gmap string Proto.SigningCommitment) :=
  foldlR (λ proto_signing_commitments '(identifier, signing_commitment),
    c ← commitment_to_proto signing_commitment;
    Ok (<[hex_encode (identifier_serialize identifier) := c]> proto_signing_commitments))
    ∅ (hm_iter signing_commitments).

(** The wallet's network is left out. *)
Record SignedTx := {
  stx_node_id : TreeNodeId;
  stx_signing_public_key : PublicKey;
  stx_tx : Transaction;
  stx_user_signature : SignatureShare;
  stx_signing_commitments : gmap Identifier SigningCommitments;
  stx_self_nonce_commitment : FrostSigningCommitmentsWithNonces;
}.

(** [TryFrom<&SignedTx> for UserSignedTxSigningJob] *)
Definition signed_tx_try_into `{!HashIter Identifier} (signed_tx : SignedTx)
    : ServiceResult Proto.UserSignedTxSigningJob :=
  nonce ← commitment_to_proto (commitments (stx_self_nonce_commitment signed_tx));
  commitments ← to_proto_signing_commitments (stx_signing_commitments signed_tx);
  Ok {|
    Proto.leaf_id := stx_node_id signed_tx;
    Proto.signing_public_key := public_key_serialize (stx_signing_public_key signed_tx);
    Proto.raw_tx := serialize (stx_tx signed_tx);
    Proto.signing_nonce_commitment := Some nonce;
    Proto.signing_commitments := Some commitments;
    Proto.user_signature := share_serialize (stx_user_signature signed_tx);
  |}.

(** With nonces that serialize every signed transaction becomes a message. *)
Lemma commitment_to_proto_total c :
  (∀ n, is_Ok (nonce_serialize n) = true) → ∃ b, commitment_to_proto c = Ok b.
Proof.
  intros Hs. unfold commitment_to_proto, frost_bytes.
  destruct (is_Ok_inv _ (Hs (hiding c))) as [? ->].
  destruct (is_Ok_inv _ (Hs (binding c))) as [? ->]. by eexists.
Qed.

Lemma signed_tx_try_into_total `{!HashIter Identifier} tx :
  (∀ n, is_Ok (nonce_serialize n) = true) → ∃ j, signed_tx_try_into tx = Ok j.
Proof.
  intros Hs. unfold signed_tx_try_into.
  destruct (commitment_to_proto_total (commitments (stx_self_nonce_commitment tx)) Hs) as [? ->]. simpl.
  assert (∃ m, to_proto_signing_commitments (stx_signing_commitments tx) = Ok m) as [m ->]; [|by eexists].
  apply foldlR_total. intros m [i c]. destruct (commitment_to_proto_total c Hs) as [b ->]. by eexists.
Qed.
End wire.

(** ** Round trip of the commitments *)

(** What the formats promise. *)
Class CodecLaws {B : Bitcoin} `{!Codec} : Prop := {
  hex_decode_encode i :
    hex_decode (hex_encode (identifier_serialize i)) = Some (identifier_serialize i);
  identifier_decode_encode i : identifier_deserialize (identifier_serialize i) = Some i;
  nonce_decode_encode n b : nonce_serialize n = Ok b → nonce_deserialize b = Some n;
}.

Section roundtrip.
Context {B : Bitcoin} `{!Codec} `{!CodecLaws} `{!HashIter string} `{!HashIter Identifier}.
Implicit Types (c : SigningCommitments) (m : gmap Identifier SigningCommitments).

Definition wire_key (i : Identifier) : string := hex_encode (identifier_serialize i).

#[local] Instance wire_key_inj : Inj (=) (=) wire_key.
Proof.
  intros i j Hij. apply (f_equal hex_decode) in Hij. unfold wire_key in Hij.
  rewrite !hex_decode_encode in Hij. injection Hij as Hij.
  apply (f_equal identifier_deserialize) in Hij. rewrite !identifier_decode_encode in Hij.
  by injection Hij.
Qed.

Lemma commitment_decode_encode c p :
  commitment_to_proto c = Ok p →
  nonce_commitment (Proto.hiding p) = Ok (hiding c) ∧ nonce_commitment (Proto.binding p) = Ok (binding c).
Proof.
  unfold commitment_to_proto, frost_bytes, nonce_commitment.
  destruct (nonce_serialize (hiding c)) as [h|] eqn:Hh; [|done].
  destruct (nonce_serialize (binding c)) as [b|] eqn:Hb; [|done].
  intros [= <-]. simpl. by rewrite (nonce_decode_encode _ _ Hh), (nonce_decode_encode _ _ Hb).
Qed.

(** The entries on the wire are those of the map, encoded. *)
Lemma to_proto_entries m proto :
  to_proto_signing_commitments m = Ok proto →
  ∀ s p, proto !! s = Some p ↔ ∃ i c, m !! i = Some c ∧ s = wire_key i ∧ commitment_to_proto c = Ok p.
Proof.
  intros Hm. assert (∀ s p, proto !! s = Some p ↔
    ∃ i c, (i, c) ∈ hm_iter m ∧ s = wire_key i ∧ commitment_to_proto c = Ok p) as Hall.
  { pose proof (NoDup_hm_keys m) as Hnd.
    refine (foldlR_inv _ (λ l proto, ∀ s p, proto !! s = Some p ↔
      ∃ i c, (i, c) ∈ l ∧ s = wire_key i ∧ commitment_to_proto c = Ok p) _ ∅ proto _ _ Hm).
    2:{ intros s p. rewrite lookup_empty. set_solver. }
    intros l [i c] b b' [k Hk] Hinv (p & Hp & [= <-])%bind_Ok s q. fold (wire_key i).
    unfold hm_keys in Hnd. rewrite Hk, !fmap_app in Hnd. apply NoDup_app in Hnd as [Hnd _].
    apply NoDup_app in Hnd as (_ & Hnew & _).
    rewrite lookup_insert_Some, Hinv. setoid_rewrite elem_of_app. setoid_rewrite list_elem_of_singleton.
    split.
    - intros [[<- <-]|[? (j & d & ? & ? & ?)]]; [exists i, c; auto|exists j, d; auto].
    - intros (j & d & [Hin|[= -> ->]] & -> & Hd); [right|left; split; [done|congruence]].
      split; [|eauto]. intros <-%(inj wire_key). apply (Hnew i); [|csimpl; set_solver].
      apply list_elem_of_fmap. by exists (i, d). }
  intros s p. rewrite Hall. by setoid_rewrite elem_of_hm_iter.
Qed.

(** The operators' commitments survive the trip to the wire and back: whatever
    [to_proto_signing_commitments] produces, [map_signing_nonce_commitments] reads as the
    same commitments under the same identifiers, in whatever order it meets them. *)
Theorem commitments_roundtrip m proto :
  to_proto_signing_commitments m = Ok proto → map_signing_nonce_commitments proto = Ok m.
Proof.
  intros Hproto. pose proof (to_proto_entries m proto Hproto) as Hentries.
  unfold map_signing_nonce_commitments.
  pose proof (NoDup_hm_keys proto) as Hnd. unfold hm_keys in Hnd.
  match goal with |- foldlR ?f _ _ = _ => set (step := f) end.
  edestruct (foldlR_ok step (λ l (b : gmap Identifier SigningCommitments), ∀ i c,
    b !! i = Some c ↔ ∃ p, (wire_key i, p) ∈ l ∧ m !! i = Some c) (hm_iter proto) ∅) as (b & -> & Hb).
  3:{ f_equal. apply map_eq. intros i. apply option_eq. intros c. rewrite Hb. split.
      - by intros (p & _ & ?).
      - intros Hi. destruct (commitment_to_proto c) as [p|e] eqn:Hp.
        + exists p. split; [|done]. apply elem_of_hm_iter, Hentries. eauto.
        + exfalso. revert Hproto. unfold to_proto_signing_commitments.
          apply elem_of_hm_iter in Hi. apply list_elem_of_split in Hi as (l1 & l2 & ->).
          rewrite foldlR_app, bind_Ok. intros (? & _ & Hf). simpl in Hf. by rewrite Hp in Hf. }
  2:{ intros i c. rewrite lookup_empty. set_solver. }
  intros pre [s p] post b Hl Hinv.
  assert (proto !! s = Some p) as (i & c & Hi & -> & Hp)%Hentries
    by (apply elem_of_hm_iter; rewrite Hl; set_solver).
  destruct (commitment_decode_encode c p Hp) as [Hh Hbd]. unfold step.
  unfold wire_key at 1. rewrite hex_decode_encode. simpl. rewrite identifier_decode_encode. simpl.
  rewrite Hh. simpl. rewrite Hbd. simpl. eexists. split; [done|]. intros j d.
  rewrite Hl, fmap_app in Hnd. apply NoDup_app in Hnd as (_ & Hnew & _). csimpl in Hnew.
  rewrite lookup_insert_Some, Hinv. setoid_rewrite elem_of_app. setoid_rewrite list_elem_of_singleton.
  destruct c as [ch cb]. simpl. split.
  - intros [[<- <-]|[? (q & ? & ?)]]; [exists p; auto|exists q; auto].
  - intros (q & [Hin|Hj] & Hm).
    + right. split; [|eauto]. intros ->. apply (Hnew (wire_key j)); [|set_solver].
      apply list_elem_of_fmap. by exists (wire_key j, q).
    + injection Hj as ->%(inj wire_key) ->. left. split; [done|congruence].
Qed.
End roundtrip.

(** ** A concrete codec: strings as their bytes *)

Definition bytes_string (b : list Z) : string :=
  String.string_of_list_ascii ((λ z, Ascii.ascii_of_nat (Z.to_nat z)) <$> b).

Lemma bytes_string_bytes s : bytes_string (string_bytes s) = s.
Proof.
  unfold bytes_string, string_bytes. rewrite <- list_fmap_compose.
  rewrite <- (String.string_of_list_ascii_of_string s) at 2. f_equal.
  rewrite <- list_fmap_id. apply list_fmap_ext. intros ? a _. simpl.
  by rewrite Nat2Z.id, Ascii.ascii_nat_embedding.
Qed.

Definition byte_codec : @Codec btc68.
Proof.
  by refine {|
    Identifier_countable := _ : Countable (@Identifier btc68);
    NonceCommitment := Z; SignatureShare := unit;
    hex_decode s := Some (string_bytes s); hex_encode := bytes_string;
    identifier_deserialize b := Some (bytes_string b : @Identifier btc68);
    identifier_serialize := string_bytes : @Identifier btc68 → list Z;
    public_key_from_slice b := Some (bytes_string b : @PublicKey btc68);
    public_key_serialize := string_bytes : @PublicKey btc68 → list Z;
    deserialize _ := None; serialize _ := [];
    nonce_deserialize := head; nonce_serialize n := Ok [n]; share_serialize _ := []
  |}.
Defined.

#[local] Instance byte_codec_laws : @CodecLaws btc68 byte_codec.
Proof.
  split; simpl; intros; simplify_eq; try done; by rewrite ?bytes_string_bytes.
Qed.

Example commitments_roundtrip_witness :
  let c := @mkSigningCommitments btc68 byte_codec 1 2 in
  let m : gmap (@Identifier btc68) (@SigningCommitments btc68 byte_codec) := {["op"%string := c]} in
  ∃ proto, @to_proto_signing_commitments btc68 byte_codec (canonical_iter string) m = Ok proto ∧
    @map_signing_nonce_commitments btc68 byte_codec (canonical_iter string) proto = Ok m.
Proof.
  intros c m. eexists. split; [reflexivity|].
  apply (@commitments_roundtrip btc68 byte_codec byte_codec_laws (canonical_iter string)
    (canonical_iter string) m). reflexivity.
Defined.
