(* ===== verification/ExitChain.v ===== *)
(** * Exit chains: [spark/src/tree/chain.rs]

    The path of nodes from a leaf up to a root, which a unilateral exit
    broadcasts. Parent ids come from the operators and may have gaps or cycles;
    the loops stop at either. *)

From S2P Require Import Prelude Bitcoin TreeModel.

Section exit_chain.
Context `{Bitcoin}.

(** The [while let] loop of [walk_ancestors]; each round adds an id of [nodes] to
    [visited], so [S (size nodes)] rounds are enough ([walk_fuel_enough]). *)
Fixpoint walk (fuel : nat) (nodes : gmap TreeNodeId TreeNode) (visited : gset TreeNodeId)
    (current : option TreeNodeId) : list TreeNode :=
  match fuel, current with
  | S fuel, Some id =>
      if decide (id ∈ visited) then []
      else match nodes !! id with
           | None => []
           | Some node => node :: walk fuel nodes ({[id]} ∪ visited) (parent_node_id node)
           end
  | _, _ => []
  end.

Definition walk_ancestors (leaf : TreeNode) (nodes : gmap TreeNodeId TreeNode) : list TreeNode :=
  walk (S (size nodes)) nodes ∅ (parent_node_id leaf).

Definition chain_backs_exit (leaf : TreeNode) (ancestors : list TreeNode) : bool :=
  match parent_node_id leaf with
  | None => true
  | Some parent_id => existsb (λ node, bool_decide (id node = parent_id)) ancestors
  end.

(** [.map(|n| (n.id, n)).collect()] *)
Definition index_by_id (nodes : list TreeNode) : gmap TreeNodeId TreeNode :=
  hm_collect ((λ n, (id n, n)) <$> nodes).

Fixpoint reaches_root_loop (fuel : nat) (by_id : gmap TreeNodeId TreeNode)
    (visited : gset TreeNodeId) (current : option TreeNodeId) : bool :=
  match fuel, current with
  | _, None => true
  | O, Some _ => false
  | S fuel, Some id =>
      match by_id !! id with
      | None => false
      | Some node =>
          if decide (id ∈ visited) then false
          else reaches_root_loop fuel by_id ({[id]} ∪ visited) (parent_node_id node)
      end
  end.

Definition chain_reaches_root (leaf : TreeNode) (ancestors : list TreeNode) : bool :=
  match parent_node_id leaf with
  | None => true
  | Some parent_id =>
      let by_id := index_by_id ancestors in
      reaches_root_loop (S (size by_id)) by_id ∅ (Some parent_id)
  end.

Definition assemble_exit_chains (nodes : gmap TreeNodeId TreeNode) (leaf_ids : list TreeNodeId)
    : list LeafPedigree :=
  omap (λ id,
    leaf ← nodes !! id;
    Some {| leaf := leaf; ancestors := walk_ancestors leaf nodes |}) leaf_ids.

(** ** Paths to a root *)

(** [path nodes cur p]: following parents from [cur] through [nodes] visits the
    entries [p] and ends at a node without parent. *)
Inductive path (nodes : gmap TreeNodeId TreeNode) :
    option TreeNodeId → list (TreeNodeId * TreeNode) → Prop :=
| path_root : path nodes None []
| path_step i n p :
    nodes !! i = Some n → path nodes (parent_node_id n) p → path nodes (Some i) ((i, n) :: p).

Lemma path_det nodes cur p q : path nodes cur p → path nodes cur q → p = q.
Proof. intros Hp. revert q. induction Hp; inversion 1; simplify_eq; f_equal; auto. Qed.

(** From every id on a path, the rest of the path is the path. *)
Lemma path_suffix nodes cur p i :
  path nodes cur p → i ∈ p.*1 → ∃ q, path nodes (Some i) q ∧ (length q ≤ length p)%nat.
Proof.
  induction 1 as [|j n p Hj Hp IH]; csimpl; [by intros ?%elem_of_nil|].
  intros [->|Hi]%elem_of_cons.
  - exists ((j, n) :: p). split; [by constructor|done].
  - destruct (IH Hi) as (q & ? & ?). exists q. split; [done|lia].
Qed.

Lemma path_NoDup nodes cur p : path nodes cur p → NoDup (p.*1).
Proof.
  induction 1 as [|j n p Hj Hp IH]; csimpl; constructor; [|done].
  intros Hin. destruct (path_suffix _ _ _ _ Hp Hin) as (q & Hq & Hlen).
  assert (path nodes (Some j) ((j, n) :: p)) as Hq' by by constructor.
  rewrite (path_det _ _ _ _ Hq Hq') in Hlen. simpl in Hlen. lia.
Qed.

Lemma path_lookup nodes cur p i n : path nodes cur p → (i, n) ∈ p → nodes !! i = Some n.
Proof. induction 1; [by intros ?%elem_of_nil|]. intros [|]%elem_of_cons; naive_solver. Qed.

Lemma path_length nodes cur p : path nodes cur p → (length p ≤ size nodes)%nat.
Proof.
  intros Hp. rewrite <- size_dom, <- (length_fmap fst p).
  rewrite <- (size_list_to_set (C := gset TreeNodeId) (p.*1)) by by eapply path_NoDup.
  apply subseteq_size. intros i. rewrite elem_of_list_to_set, list_elem_of_fmap.
  intros ([j n] & -> & Hin). apply elem_of_dom. exists n. by eapply path_lookup.
Qed.

(** Both loops follow a path to its end. *)
Lemma reaches_root_loop_path fuel nodes visited cur p :
  path nodes cur p → (length p ≤ fuel)%nat → (∀ i, i ∈ p.*1 → i ∉ visited) →
  reaches_root_loop fuel nodes visited cur = true.
Proof.
  intros Hp. revert fuel visited.
  induction Hp as [|i n p Hi Hp IH]; intros fuel visited Hf Hv; [by destruct fuel|].
  destruct fuel as [|fuel]; simpl in *; [lia|]. rewrite Hi.
  rewrite decide_False by (apply Hv; csimpl; set_solver).
  apply IH; [lia|]. intros j Hj.
  assert (NoDup (((i, n) :: p).*1)) as Hnd by (eapply path_NoDup; by constructor).
  csimpl in Hnd. apply NoDup_cons in Hnd as [? ?].
  assert (j ∉ visited) by (apply Hv; csimpl; set_solver). set_solver.
Qed.

Lemma reaches_root_loop_true fuel nodes visited cur :
  reaches_root_loop fuel nodes visited cur = true → ∃ p, path nodes cur p.
Proof.
  revert visited cur. induction fuel as [|fuel IH]; intros visited [i|]; simpl; try done.
  1,3: intros _; exists []; constructor.
  destruct (nodes !! i) as [n|] eqn:Hi; [|done]. case_decide; [done|].
  intros [p Hp]%IH. exists ((i, n) :: p). by constructor.
Qed.

Lemma walk_path fuel nodes visited cur p :
  path nodes cur p → (length p < fuel)%nat → (∀ i, i ∈ p.*1 → i ∉ visited) →
  walk fuel nodes visited cur = p.*2.
Proof.
  intros Hp. revert fuel visited.
  induction Hp as [|i n p Hi Hp IH]; intros fuel visited Hf Hv; [by destruct fuel|].
  destruct fuel as [|fuel]; csimpl in *; [lia|]. rewrite Hi.
  rewrite decide_False by (apply Hv; set_solver).
  f_equal. apply IH; [lia|]. intros j Hj.
  assert (NoDup (((i, n) :: p).*1)) as Hnd by (eapply path_NoDup; by constructor).
  csimpl in Hnd. apply NoDup_cons in Hnd as [? ?].
  assert (j ∉ visited) by (apply Hv; set_solver). set_solver.
Qed.

(** Paths only depend on the nodes they go through. *)
Lemma path_mono nodes nodes' cur p :
  path nodes cur p → (∀ i n, (i, n) ∈ p → nodes' !! i = Some n) → path nodes' cur p.
Proof.
  induction 1 as [|i n p Hi Hp IH]; intros Hs; constructor.
  - apply Hs. by left.
  - apply IH. intros j m ?. apply Hs. by right.
Qed.

Lemma index_by_id_Some l i n : index_by_id l !! i = Some n → n ∈ l ∧ id n = i.
Proof.
  unfold index_by_id. induction l as [|m l IH] using rev_ind; [done|].
  rewrite fmap_app. simpl. rewrite hm_collect_snoc, lookup_insert.
  case_decide; [|set_solver]. intros [= ->]. set_solver.
Qed.

Lemma index_by_id_is_Some l i : is_Some (index_by_id l !! i) ↔ ∃ n, n ∈ l ∧ id n = i.
Proof.
  split; [intros [n ?%index_by_id_Some]; eauto|].
  intros (n & Hin & <-). unfold index_by_id.
  induction l as [|m l IH] using rev_ind; [by apply elem_of_nil in Hin|].
  rewrite fmap_app. simpl. rewrite hm_collect_snoc, lookup_insert.
  case_decide; [by eexists|]. set_solver.
Qed.

Lemma chain_reaches_root_path leaf ancs :
  chain_reaches_root leaf ancs = true ↔ ∃ p, path (index_by_id ancs) (parent_node_id leaf) p.
Proof.
  unfold chain_reaches_root. destruct (parent_node_id leaf) as [i|].
  2:{ split; [exists []; constructor|done]. }
  split; [apply reaches_root_loop_true|]. intros [p Hp].
  eapply reaches_root_loop_path; [done| |set_solver].
  pose proof (path_length _ _ _ Hp). lia.
Qed.

(** ** Fuel *)

Lemma walk_fuel_enough nodes visited cur n m :
  (size (dom nodes ∖ visited) < n)%nat → (n ≤ m)%nat →
  walk m nodes visited cur = walk n nodes visited cur.
Proof.
  revert m visited cur. induction n as [|n IH]; intros m visited cur Hs Hle; [lia|].
  destruct m as [|m]; [lia|]. destruct cur as [i|]; simpl; [|done].
  case_decide as Hv; [done|]. destruct (nodes !! i) as [x|] eqn:Hi; [|done].
  f_equal. apply IH; [|lia].
  assert (i ∈ dom nodes ∖ visited) by (apply elem_of_difference; split; [by apply elem_of_dom|done]).
  assert (dom nodes ∖ ({[i]} ∪ visited) ⊂ dom nodes ∖ visited) as ?%subset_size by set_solver.
  lia.
Qed.

(** ** What a walk returns *)

(** Each node is the parent of the one before it, starting from [cur]. *)
Fixpoint linked (cur : option TreeNodeId) (l : list TreeNode) : Prop :=
  match l with
  | [] => True
  | n :: l => cur = Some (id n) ∧ linked (parent_node_id n) l
  end.

(** The id a walk that returned [l] would look at next. *)
Fixpoint walk_end (cur : option TreeNodeId) (l : list TreeNode) : option TreeNodeId :=
  match l with [] => cur | n :: l => walk_end (parent_node_id n) l end.

Definition well_keyed (nodes : gmap TreeNodeId TreeNode) : Prop :=
  ∀ i n, nodes !! i = Some n → id n = i.

Lemma index_by_id_keyed l : well_keyed (index_by_id l).
Proof. intros i n. by intros [_ ?]%index_by_id_Some. Qed.

Lemma walk_spec fuel nodes visited cur :
  well_keyed nodes → (size (dom nodes ∖ visited) < fuel)%nat →
  let w := walk fuel nodes visited cur in
  linked cur w ∧ NoDup (id <$> w) ∧
  (∀ n, n ∈ w → nodes !! id n = Some n ∧ id n ∉ visited) ∧
  match walk_end cur w with
  | None => True
  | Some i => nodes !! i = None ∨ i ∈ visited ∨ i ∈ id <$> w
  end.
Proof.
  intros Hk. revert visited cur.
  induction fuel as [|fuel IH]; intros visited cur Hs; [lia|].
  destruct cur as [i|]; simpl.
  2:{ split_and!; [done|apply NoDup_nil_2|by intros ? ?%elem_of_nil|done]. }
  case_decide as Hv; simpl.
  { split_and!; [done|apply NoDup_nil_2|by intros ? ?%elem_of_nil|auto]. }
  destruct (nodes !! i) as [n|] eqn:Hi; simpl.
  2:{ split_and!; [done|apply NoDup_nil_2|by intros ? ?%elem_of_nil|auto]. }
  assert (i ∈ dom nodes ∖ visited) by (apply elem_of_difference; split; [by apply elem_of_dom|done]).
  assert (dom nodes ∖ ({[i]} ∪ visited) ⊂ dom nodes ∖ visited) as ?%subset_size by set_solver.
  destruct (IH ({[i]} ∪ visited) (parent_node_id n) ltac:(lia)) as (Hl & Hnd & Hin & Hend).
  pose proof (Hk _ _ Hi) as <-. csimpl. split_and!.
  - done.
  - done.
  - constructor; [|done]. intros (m & Hm & [_ Hv']%Hin)%list_elem_of_fmap.
    rewrite Hm in Hv'. set_solver.
  - intros m [->|[? ?]%Hin]%elem_of_cons; [done|]. set_solver.
  - destruct (walk_end _ _); [|done]. set_solver.
Qed.

(** [walk_ancestors] always stops, and what it returns is a parent-to-parent
    chain of nodes of the map, without repetition even when the operators'
    parent ids form a cycle. It stops only at a root, at a gap, or where the
    next id was already visited. *)
Theorem walk_ancestors_spec leaf nodes :
  well_keyed nodes →
  let w := walk_ancestors leaf nodes in
  linked (parent_node_id leaf) w ∧ NoDup (id <$> w) ∧
  (∀ n, n ∈ w → nodes !! id n = Some n) ∧
  match walk_end (parent_node_id leaf) w with
  | None => True
  | Some i => nodes !! i = None ∨ i ∈ id <$> w
  end.
Proof.
  intros Hk. unfold walk_ancestors.
  destruct (walk_spec (S (size nodes)) nodes ∅ (parent_node_id leaf) Hk) as (? & ? & Hin & Hend).
  { rewrite difference_empty_L, size_dom. lia. }
  split_and!; [done|done|naive_solver|]. destruct (walk_end _ _); [set_solver|done].
Qed.

Lemma walk_ancestors_elem leaf nodes n :
  well_keyed nodes → n ∈ walk_ancestors leaf nodes → nodes !! id n = Some n.
Proof.
  intros Hk Hn. unfold walk_ancestors in Hn.
  destruct (walk_spec (S (size nodes)) nodes ∅ (parent_node_id leaf) Hk) as (_ & _ & Hin & _).
  { rewrite difference_empty_L, size_dom. lia. }
  by apply Hin.
Qed.

Lemma chain_backs_exit_spec leaf ancs :
  chain_backs_exit leaf ancs = true ↔
  match parent_node_id leaf with None => True | Some i => ∃ n, n ∈ ancs ∧ id n = i end.
Proof.
  unfold chain_backs_exit. destruct (parent_node_id leaf) as [i|]; [|done].
  rewrite existsb_exists. split.
  - intros (n & ? & ?%bool_decide_eq_true_1). exists n. split; [by apply list_elem_of_In|done].
  - intros (n & ? & ?). exists n. split; [by apply list_elem_of_In|by apply bool_decide_eq_true_2].
Qed.

(** A path through the indexed chain is linked and made of its nodes. *)
Lemma path_nodes ancs cur p :
  path (index_by_id ancs) cur p → linked cur p.*2 ∧ walk_end cur p.*2 = None ∧ p.*2 ⊆ ancs.
Proof.
  induction 1 as [|i n p Hi Hp (IH1 & IH2 & IH3)]; csimpl; [set_solver|].
  apply index_by_id_Some in Hi as [? <-]. split_and!; [done|done|done|]. set_solver.
Qed.

(** A path also runs through the index of its own nodes. *)
Lemma path_self_contained nodes cur p :
  well_keyed nodes → path nodes cur p → path (index_by_id p.*2) cur p.
Proof.
  intros Hk Hp. eapply path_mono; [done|]. intros i n Hin.
  pose proof (path_lookup _ _ _ _ _ Hp Hin) as Hi.
  assert (n ∈ p.*2) as Hn by (apply list_elem_of_fmap; by exists (i, n)).
  destruct (proj2 (index_by_id_is_Some (p.*2) i)) as [m Hm]; [exists n; auto|].
  rewrite Hm. f_equal. apply index_by_id_Some in Hm as [([j m'] & -> & Hm)%list_elem_of_fmap Hmi].
  pose proof (path_lookup _ _ _ _ _ Hp Hm) as Hj. simpl in *.
  pose proof (Hk _ _ Hj). simplify_eq. congruence.
Qed.

Lemma path_ids nodes cur p : well_keyed nodes → path nodes cur p → id <$> p.*2 = p.*1.
Proof. intros Hk. induction 1 as [|i n p Hi Hp IH]; csimpl; [done|]. by rewrite IH, (Hk _ _ Hi). Qed.

(** Walking up a map that holds a path from the leaf to a root gives that path. *)
Lemma walk_ancestors_path leaf nodes p :
  path nodes (parent_node_id leaf) p → walk_ancestors leaf nodes = p.*2.
Proof.
  intros Hp. apply walk_path; [done| |set_solver]. pose proof (path_length _ _ _ Hp). lia.
Qed.

Lemma path_reaches_root nodes leaf p :
  well_keyed nodes → path nodes (parent_node_id leaf) p → chain_reaches_root leaf p.*2 = true.
Proof. intros. apply chain_reaches_root_path. exists p. by eapply path_self_contained. Qed.

(** A node's own id is not among those above it. *)
Lemma path_above nodes n p :
  well_keyed nodes → nodes !! id n = Some n → path nodes (parent_node_id n) p → id n ∉ id <$> p.*2.
Proof.
  intros Hk Hn Hp. rewrite (path_ids nodes (parent_node_id n)) by done.
  assert (NoDup (((id n, n) :: p).*1)) as [? _]%NoDup_cons; [|done].
  eapply path_NoDup. by constructor.
Qed.

Lemma assemble_one nodes leaf :
  nodes !! id leaf = Some leaf →
  assemble_exit_chains nodes [id leaf] =
    [{| leaf := leaf; ancestors := walk_ancestors leaf nodes |}].
Proof. intros Hl. unfold assemble_exit_chains. simpl. by rewrite Hl. Qed.

(** A chain that passes the gate [chain_reaches_root] reads back whole. With
    the stored chain and the leaf loaded into one map, as [get_exit_chains] does,
    [assemble_exit_chains] returns the leaf with a chain that runs link by link
    from the leaf's parent up to a root, again passes the gate, and backs the
    leaf's exit. *)
Lemma gated_chain_reads_back leaf ancs :
  id leaf ∉ id <$> ancs → chain_reaches_root leaf ancs = true →
  ∃ chain,
    assemble_exit_chains (<[id leaf := leaf]> (index_by_id ancs)) [id leaf] =
      [{| leaf := leaf; ancestors := chain |}] ∧
    linked (parent_node_id leaf) chain ∧ walk_end (parent_node_id leaf) chain = None ∧
    chain ⊆ ancs ∧
    chain_reaches_root leaf chain = true ∧ chain_backs_exit leaf chain = true.
Proof.
  intros Hnew [p Hp]%chain_reaches_root_path.
  destruct (path_nodes _ _ _ Hp) as (Hl & He & Hsub).
  assert (path (<[id leaf := leaf]> (index_by_id ancs)) (parent_node_id leaf) p) as Hp'.
  { eapply path_mono; [done|]. intros i n Hin.
    pose proof (path_lookup _ _ _ _ _ Hp Hin) as Hi.
    rewrite lookup_insert_ne; [done|]. intros <-. apply Hnew.
    apply index_by_id_Some in Hi as [? <-]. apply list_elem_of_fmap. eauto. }
  exists (p.*2). rewrite assemble_one by apply lookup_insert_eq.
  rewrite (walk_ancestors_path _ _ _ Hp').
  split_and!; try done.
  - apply (path_reaches_root (index_by_id ancs)); [apply index_by_id_keyed|done].
  - apply chain_backs_exit_spec. destruct (parent_node_id leaf) as [i|] eqn:E; [|done].
    inversion Hp; subst. csimpl. exists n. split; [by left|]. by eapply index_by_id_keyed.
Qed.

Lemma chain_reaches_root_backs leaf ancs :
  chain_reaches_root leaf ancs = true → chain_backs_exit leaf ancs = true.
Proof.
  intros [p Hp]%chain_reaches_root_path. apply chain_backs_exit_spec.
  destruct (parent_node_id leaf) as [i|]; [|done]. inversion Hp; subst.
  apply index_by_id_is_Some. by eexists.
Qed.

(** The gate is exact: [chain_reaches_root] accepts a chain precisely when
    following parents through it, the last node of each id counting, arrives at a
    node without parent; and everything it accepts satisfies the cheaper test
    [chain_backs_exit] the stores report with. *)
Theorem chain_reaches_root_exact leaf ancs :
  (chain_reaches_root leaf ancs = true ↔
   ∃ p, path (index_by_id ancs) (parent_node_id leaf) p) ∧
  (chain_reaches_root leaf ancs = true → chain_backs_exit leaf ancs = true).
Proof.
  split; [apply chain_reaches_root_path|apply chain_reaches_root_backs].
Qed.
End exit_chain.

(** ** Witnesses *)

Definition chain_leaf := bip68_node "leaf" 5 (Some "split"%string).
Definition chain_nodes :=
  [bip68_node "root" 8 None; bip68_node "split" 5 (Some "root"%string)].

Example walk_ancestors_witness :
  @linked bip68 (Some "split"%string)
    (@walk_ancestors bip68 chain_leaf (@index_by_id bip68 chain_nodes)).
Proof.
  apply (@walk_ancestors_spec bip68 chain_leaf). apply index_by_id_keyed.
Defined.

Example chain_reaches_root_witness :
  @chain_backs_exit bip68 chain_leaf chain_nodes = true.
Proof.
  apply (@chain_reaches_root_exact bip68 chain_leaf chain_nodes). vm_compute. reflexivity.
Defined.
