(* ===== verification/ExitPlan.v ===== *)
(** * Planning a unilateral exit: [spark/src/services/unilateral_exit.rs]

    Which leaves to take on-chain without the operators, what that costs, and how
    the funding UTXOs are shared among the branches. Weights are [u64] weight
    units, amounts satoshis. Nothing here reads the chain: what is already on it
    comes as an [ExitChainState]. *)

From S2P Require Import Prelude Bitcoin BitcoinTx TreeModel SparkTx.

Inductive ExitNodeConfirmation := Cpfp | Direct.
Inductive UnilateralExitLeafFilter := All | ProfitableOnly.

#[export] Instance ExitNodeConfirmation_eq_dec : EqDecision ExitNodeConfirmation.
Proof. solve_decision. Defined.

Section exit_plan.
Context {B : Bitcoin} {BT : BitcoinTx}.

(** The loop of [walk_unilateral_exit_chain], leaf first; [chain.reverse()] is in
    the caller. Each round adds an id to [visited], so two more rounds than the map
    has nodes are enough (lemma [exit_walk_follows] of [ExitPlanSpec]). *)
Fixpoint exit_walk (fuel : nat) (node_map : gmap TreeNodeId TreeNode) (visited : gset TreeNodeId)
    (current : TreeNode) : result TreeNodeId (list TreeNode) :=
  match fuel with
  | O => Err (id current)
  | S fuel =>
      if decide (id current ∈ visited) then Err (id current)
      else match parent_node_id current with
           | None => Ok [current]
           | Some parent_node_id =>
               match node_map !! parent_node_id with
               | None => Err parent_node_id
               | Some parent =>
                   chain ← exit_walk fuel node_map ({[id current]} ∪ visited) parent;
                   Ok (current :: chain)
               end
           end
  end.

Definition walk_unilateral_exit_chain (node_map : gmap TreeNodeId TreeNode) (leaf : TreeNode)
    : result TreeNodeId (list TreeNode) :=
  chain ← exit_walk (S (S (size node_map))) node_map ∅ leaf;
  Ok (reverse chain).

Record CpfpInput := mkCpfpInput {
  outpoint : OutPoint Txid;
  witness_utxo : TxOut ScriptBuf;
  signed_input_weight : Z;
}.

Record CpfpChild := {
  child_psbt : Psbt Transaction ScriptBuf;
  change_input : CpfpInput;
  fee_sat_paid : Z;
}.

Record ConfirmedExitNode := {
  cen_node_id : TreeNodeId;
  confirmed_by : ExitNodeConfirmation;
  cen_block_height : option Z;
}.

Inductive ExitRefundState :=
| OnChain (tx : Transaction) (vout value : Z) (block_height : option Z)
| Swept.

Record ExitRefund := { er_leaf_id : TreeNodeId; er_state : ExitRefundState }.

Record ExitChainState := {
  ecs_nodes : list ConfirmedExitNode;
  ecs_refunds : list ExitRefund;
  stopped_leaves : list TreeNodeId;
  unverified_nodes : list TreeNodeId;
  unverifiable_confirmed_nodes : list TreeNodeId;
}.

Definition ExitChainState_default : ExitChainState :=
  {| ecs_nodes := []; ecs_refunds := []; stopped_leaves := []; unverified_nodes := [];
     unverifiable_confirmed_nodes := [] |}.

Definition has_node (self : ExitChainState) (node_id : TreeNodeId) : bool :=
  existsb (λ node, bool_decide (cen_node_id node = node_id)) (ecs_nodes self).

Definition has_refund (self : ExitChainState) (leaf_id : TreeNodeId) : bool :=
  existsb (λ refund, bool_decide (er_leaf_id refund = leaf_id)) (ecs_refunds self).

Definition is_complete_on_chain (on_chain : ExitChainState)
    (tree_nodes : gmap TreeNodeId TreeNode) (leaf_id : TreeNodeId) : bool :=
  if negb (has_refund on_chain leaf_id) then false
  else match tree_nodes !! leaf_id with
       | None => false
       | Some leaf =>
           match walk_unilateral_exit_chain tree_nodes leaf with
           | Err _ => false
           | Ok chain => forallb (λ node, has_node on_chain (id node)) chain
           end
       end.

(** ** Weights and fees *)

Definition script_len (s : ScriptBuf) : Z := Z.of_nat (length (as_bytes s)).

(** [secp256k1::constants] *)
Definition SCHNORR_SIGNATURE_SIZE : Z := 64.
Definition MAX_SIGNATURE_SIZE : Z := 72.
Definition PUBLIC_KEY_SIZE : Z := 33.

Definition input_segwit_weight (witness_element_lens : list Z) : Z :=
  segwit_weight witness_element_lens.
Definition p2tr_key_path_input_weight : Z := input_segwit_weight [SCHNORR_SIGNATURE_SIZE].
Definition p2wpkh_input_weight : Z := input_segwit_weight [MAX_SIGNATURE_SIZE; PUBLIC_KEY_SIZE].
Definition anchor_input_weight : Z := input_segwit_weight [].
Definition tx_overhead_weight : Z := tx_weight (make_tx 2 [] []).
Definition output_weight (script_len : Z) : Z := txout_weight script_len.

Definition fee_sat (fee_rate_sat_per_kw weight : Z) : Z :=
  div_ceil (saturating_mul 64 fee_rate_sat_per_kw weight) 1000.

Definition compute_cpfp_package_fee (parent_weight cpfp_input_weight change_script_len
    fee_rate_sat_per_kw : Z) : Z :=
  let child_weight :=
    uadd 64 (uadd 64 (uadd 64 cpfp_input_weight anchor_input_weight)
      (output_weight change_script_len)) tx_overhead_weight in
  fee_sat fee_rate_sat_per_kw (uadd 64 parent_weight child_weight).

Definition compute_sweep_fee (total_input_weight destination_script_len fee_rate_sat_per_kw : Z)
    : Z :=
  let weight :=
    uadd 64 (uadd 64 total_input_weight (output_weight destination_script_len))
      tx_overhead_weight in
  fee_sat fee_rate_sat_per_kw weight.

Definition fan_out_weight (total_input_weight output_script_len output_count : Z) : Z :=
  let outputs := saturating_mul 64 (output_weight output_script_len) output_count in
  uadd 64 (uadd 64 total_input_weight outputs) tx_overhead_weight.

Definition fan_out_fee (total_input_weight output_script_len output_count
    fee_rate_sat_per_kw : Z) : Z :=
  fee_sat fee_rate_sat_per_kw (fan_out_weight total_input_weight output_script_len output_count).

(** A transaction's longest block-based relative timelock. *)
Definition csv_timelock (tx : Transaction) : option Z :=
  let blocks := omap (λ input,
    match to_relative_lock_time (sequence input) with
    | Some (Blocks v) => if 0 <? v then Some v else None
    | _ => None
    end) (tx_input tx) in
  match blocks with
  | [] => None
  | v :: vs => Some (foldl Z.max v vs)
  end.

(** ** Selecting leaves *)

Record UnilateralExitSelectedLeaf := mkSelectedLeaf {
  sl_id : TreeNodeId;
  sl_value : Z;
  estimated_cost : Z;
  cpfp_cost : Z;
}.

Record UnilateralExitLeafCostParams := {
  initial_cpfp_input_weight : Z;
  single_cpfp_input_weight : Z;
  change_script_len : Z;
  destination_script_len : Z;
  fee_rate_sat_per_kw : Z;
}.

Definition branch_required_funding (leaf : UnilateralExitSelectedLeaf) (change_dust_limit : Z) : Z :=
  saturating_add 64 (estimated_cost leaf) change_dust_limit.

Definition report_unexitable (filter : UnilateralExitLeafFilter) (leaf_id : TreeNodeId)
    (reason : string) : ServiceResult unit :=
  match filter with
  | All => Err (ServiceError.ValidationError
                  ("Leaf " +:+ leaf_id +:+ " cannot be exited: " +:+ reason))
  | ProfitableOnly => Ok ()
  end.

Definition lookup_leaf (tree_nodes : gmap TreeNodeId TreeNode) (filter : UnilateralExitLeafFilter)
    (leaves : list (TreeNodeId * TreeNode)) (i : TreeNodeId)
    : ServiceResult (list (TreeNodeId * TreeNode)) :=
  match tree_nodes !! i with
  | Some node => Ok (leaves ++ [(i, node)])
  | None => _ ← report_unexitable filter i "not found in the tree node map"; Ok leaves
  end.

(** Highest value first, then by id. *)
Definition leaf_order (a b : TreeNodeId * TreeNode) : bool :=
  (value b.2 <? value a.2) || (value a.2 =? value b.2) && String.leb a.1 b.1.

(** What a chain's node adds to the CPFP cost; the flag says whether a node below
    the funding has been counted. *)
Definition cost_ancestor (params : UnilateralExitLeafCostParams) (on_chain : ExitChainState)
    (covered_txids : gset Txid) (st : Z * bool) (ancestor : TreeNode) : Z * bool :=
  let '(cpfp_cost, already_funded_ancestor) := st in
  if decide (compute_txid (node_tx ancestor) ∈ covered_txids) then st
  else if has_node on_chain (id ancestor)
            || bool_decide (status ancestor = TreeNodeStatus.OnChain) then st
  else
    let input_weight := if already_funded_ancestor : bool then single_cpfp_input_weight params
                        else initial_cpfp_input_weight params in
    (saturating_add 64 cpfp_cost
       (compute_cpfp_package_fee (tx_weight (node_tx ancestor)) input_weight
          (change_script_len params) (fee_rate_sat_per_kw params)), true).

Definition leaf_cpfp_cost (params : UnilateralExitLeafCostParams) (on_chain : ExitChainState)
    (covered_txids : gset Txid) (leaf_id : TreeNodeId) (refund_tx : Transaction)
    (ancestors : list TreeNode) : Z :=
  let '(cpfp_cost, already_funded_ancestor) :=
    foldl (cost_ancestor params on_chain covered_txids) (0, false) ancestors in
  if has_refund on_chain leaf_id then cpfp_cost
  else
    let refund_input_weight := if already_funded_ancestor : bool
      then single_cpfp_input_weight params else initial_cpfp_input_weight params in
    saturating_add 64 cpfp_cost
      (compute_cpfp_package_fee (tx_weight refund_tx) refund_input_weight
         (change_script_len params) (fee_rate_sat_per_kw params)).

(** The sweep's share of one more leaf when [selected] already are. *)
Definition leaf_sweep_cost (params : UnilateralExitLeafCostParams) (selected : nat) : Z :=
  let per_leaf_input_weight := uadd 64 p2tr_key_path_input_weight (single_cpfp_input_weight params) in
  let sweep_input_weight count := saturating_mul 64 count per_leaf_input_weight in
  let fee w := compute_sweep_fee w (destination_script_len params) (fee_rate_sat_per_kw params) in
  match selected with
  | O => fee per_leaf_input_weight
  | _ => let selected_count := Z.of_nat selected in
         saturating_sub (fee (sweep_input_weight (saturating_add 64 selected_count 1)))
           (fee (sweep_input_weight selected_count))
  end.

Definition evaluate_leaf (tree_nodes : gmap TreeNodeId TreeNode)
    (params : UnilateralExitLeafCostParams) (filter : UnilateralExitLeafFilter)
    (on_chain : ExitChainState) (st : list UnilateralExitSelectedLeaf * gset Txid)
    (entry : TreeNodeId * TreeNode) : ServiceResult (list UnilateralExitSelectedLeaf * gset Txid) :=
  let '(selected, covered_txids) := st in
  let '(leaf_id, leaf) := entry in
  match refund_tx leaf with
  | None => _ ← report_unexitable filter leaf_id "no refund transaction"; Ok st
  | Some refund_tx =>
      match walk_unilateral_exit_chain tree_nodes leaf with
      | Err missing =>
          _ ← report_unexitable filter leaf_id
                ("incomplete ancestor chain (parent " +:+ missing +:+ " missing from the tree map)");
          Ok st
      | Ok ancestors =>
          let cpfp_cost := leaf_cpfp_cost params on_chain covered_txids leaf_id refund_tx ancestors in
          let sweep_cost := leaf_sweep_cost params (length selected) in
          let total_marginal_cost := saturating_add 64 cpfp_cost sweep_cost in
          if match filter with All => true | ProfitableOnly => total_marginal_cost <? value leaf end
          then Ok (selected ++ [mkSelectedLeaf leaf_id (value leaf) total_marginal_cost cpfp_cost],
                   list_to_set ((λ a, compute_txid (node_tx a)) <$> ancestors) ∪ covered_txids)
          else Ok st
      end
  end.

Definition evaluate_unilateral_exit_leaf_costs (tree_nodes : gmap TreeNodeId TreeNode)
    (leaf_ids : list TreeNodeId) (params : UnilateralExitLeafCostParams)
    (filter : UnilateralExitLeafFilter) (on_chain : ExitChainState)
    : ServiceResult (list UnilateralExitSelectedLeaf) :=
  leaves ← foldlR (lookup_leaf tree_nodes filter) [] leaf_ids;
  '(selected, _) ← foldlR (evaluate_leaf tree_nodes params filter on_chain) ([], ∅)
                     (stable_sort leaf_order leaves);
  Ok selected.

Definition inputs_value (inputs : list CpfpInput) : Z :=
  sat_sum 64 ((λ i, txout_value (witness_utxo i)) <$> inputs).
Definition inputs_weight (inputs : list CpfpInput) : Z :=
  sat_sum 64 (signed_input_weight <$> inputs).

Definition first_child_cpfp_floor (tree_nodes : gmap TreeNodeId TreeNode) (leaf_id : TreeNodeId)
    (branch_inputs : list CpfpInput) (destination_script_len fee_rate_sat_per_kw : Z)
    (on_chain : ExitChainState) : option Z :=
  first ← head branch_inputs;
  let params := {|
    initial_cpfp_input_weight := inputs_weight branch_inputs;
    single_cpfp_input_weight := signed_input_weight first;
    change_script_len := script_len (script_pubkey (witness_utxo first));
    destination_script_len := destination_script_len;
    fee_rate_sat_per_kw := fee_rate_sat_per_kw;
  |} in
  match evaluate_unilateral_exit_leaf_costs tree_nodes [leaf_id] params All on_chain with
  | Ok (leaf :: _) => Some (cpfp_cost leaf)
  | _ => None
  end.

(** ** Funding the branches *)

(** [remaining.sort_by(..)]: largest first, then by outpoint *)
Definition outpoint_leb (a b : OutPoint Txid) : bool :=
  if decide (txid a = txid b) then op_vout a <=? op_vout b else txid_leb (txid a) (txid b).
Definition input_order (a b : CpfpInput) : bool :=
  let va := txout_value (witness_utxo a) in
  let vb := txout_value (witness_utxo b) in
  (vb <? va) || (va =? vb) && outpoint_leb (outpoint a) (outpoint b).
Definition costliest_order (a b : UnilateralExitSelectedLeaf) : bool :=
  (estimated_cost b <? estimated_cost a)
  || (estimated_cost a =? estimated_cost b) && String.leb (sl_id a) (sl_id b).

(** [while sum < required { .. }]: takes inputs off the front of [remaining],
    keeping one for each branch after this one. *)
Fixpoint take_funding (required : Z) (branches_left_after : nat) (remaining : list CpfpInput)
    (sum : Z) (assigned : list CpfpInput) : option (list CpfpInput * list CpfpInput) :=
  if negb (sum <? required) then Some (assigned, remaining)
  else match remaining with
       | [] => None
       | input :: rest =>
           if (length remaining <=? branches_left_after)%nat then None
           else take_funding required branches_left_after rest
                  (saturating_add 64 sum (txout_value (witness_utxo input))) (assigned ++ [input])
       end.

Fixpoint assign_loop (change_dust_limit : Z) (leaves : list UnilateralExitSelectedLeaf)
    (remaining : list CpfpInput) (assigned_by_leaf : gmap TreeNodeId (list CpfpInput))
    : option (gmap TreeNodeId (list CpfpInput)) :=
  match leaves with
  | [] => Some assigned_by_leaf
  | leaf :: leaves =>
      '(assigned, remaining) ←
        take_funding (branch_required_funding leaf change_dust_limit) (length leaves) remaining 0 [];
      assign_loop change_dust_limit leaves remaining (<[sl_id leaf := assigned]> assigned_by_leaf)
  end.

(** [ids.map(|id| (id, assigned.remove(&id).unwrap_or_default()))] *)
Fixpoint remove_each (assigned : gmap TreeNodeId (list CpfpInput)) (ids : list TreeNodeId)
    : list (TreeNodeId * list CpfpInput) :=
  match ids with
  | [] => []
  | i :: ids => (i, default [] (assigned !! i)) :: remove_each (delete i assigned) ids
  end.

Definition assign_inputs_to_leaves (inputs : list CpfpInput)
    (selected_leaves : list UnilateralExitSelectedLeaf) (change_dust_limit : Z)
    : option (list (TreeNodeId * list CpfpInput)) :=
  if (length inputs <? length selected_leaves)%nat then None
  else
    assigned_by_leaf ← assign_loop change_dust_limit
      (stable_sort costliest_order selected_leaves) (stable_sort input_order inputs) ∅;
    Some (remove_each assigned_by_leaf (sl_id <$> selected_leaves)).

Definition branch_covers_first_child (tree_nodes : gmap TreeNodeId TreeNode)
    (destination_script_len fee_rate_sat_per_kw : Z) (on_chain : ExitChainState)
    (branch : TreeNodeId * list CpfpInput) : bool :=
  let '(leaf_id, branch_inputs) := branch in
  match head branch_inputs with
  | None => false
  | Some first =>
      let dust := minimal_non_dust (script_pubkey (witness_utxo first)) in
      let available := inputs_value branch_inputs in
      match first_child_cpfp_floor tree_nodes leaf_id branch_inputs destination_script_len
              fee_rate_sat_per_kw on_chain with
      | Some cpfp_cost => saturating_add 64 cpfp_cost dust <=? available
      | None => false
      end
  end.

Definition assignment_covers_first_child (assignment : list (TreeNodeId * list CpfpInput))
    (tree_nodes : gmap TreeNodeId TreeNode) (destination_script_len fee_rate_sat_per_kw : Z)
    (on_chain : ExitChainState) : bool :=
  forallb (branch_covers_first_child tree_nodes destination_script_len fee_rate_sat_per_kw on_chain)
    assignment.

(** [psbt.inputs[i] = Input { witness_utxo: Some(..), .. }] for [i] from [from] on *)
Fixpoint set_witness_utxos (from : nat) (utxos : list (TxOut ScriptBuf))
    (inputs : list (option (TxOut ScriptBuf))) : list (option (TxOut ScriptBuf)) :=
  match utxos with
  | [] => inputs
  | utxo :: utxos => set_witness_utxos (S from) utxos (<[from := Some utxo]> inputs)
  end.

Definition with_witness_utxos (utxos : list (TxOut ScriptBuf)) (psbt : Psbt Transaction ScriptBuf)
    : Psbt Transaction ScriptBuf :=
  mkPsbt (unsigned_tx psbt) (set_witness_utxos 0 utxos (psbt_inputs psbt)).

(** The share of [surplus] that goes to a branch, rounded down. *)
Definition surplus_share (surplus cost_total : Z) (leaf : UnilateralExitSelectedLeaf) : Z :=
  if cost_total =? 0 then 0
  else
    let s := saturating_mul 128 surplus (estimated_cost leaf) / cost_total in
    if s <? 2 ^ 64 then s else 0.

Definition fan_out_values (surplus : Z) (selected_leaves : list UnilateralExitSelectedLeaf)
    (per_leaf_value : list Z) : list Z :=
  if 0 <? surplus then
    let cost_total := sumZ (estimated_cost <$> selected_leaves) in
    let shares := surplus_share surplus cost_total <$> selected_leaves in
    match zip_with (saturating_add 64) per_leaf_value shares with
    | [] => []
    | first :: others =>
        saturating_add 64 first (saturating_sub surplus (sat_sum 64 shares)) :: others
    end
  else per_leaf_value.

Definition build_fan_out_psbt (inputs : list CpfpInput)
    (selected_leaves : list UnilateralExitSelectedLeaf) (fee_rate_sat_per_kw change_dust_limit : Z)
    : ServiceResult (Psbt Transaction ScriptBuf * list (TreeNodeId * CpfpInput)) :=
  match inputs, selected_leaves with
  | [], _ => Err (ServiceError.ValidationError "fan-out: at least one CPFP input is required")
  | _, [] => Err (ServiceError.ValidationError "fan-out: at least one selected leaf is required")
  | first :: _, _ =>
      let script := script_pubkey (witness_utxo first) in
      let total_input_value := inputs_value inputs in
      let total_input_weight := inputs_weight inputs in
      let per_leaf_value := (λ l, branch_required_funding l change_dust_limit) <$> selected_leaves in
      let leaves_total := sat_sum 64 per_leaf_value in
      let fee_no_change := fan_out_fee total_input_weight (script_len script)
                             (Z.of_nat (length selected_leaves)) fee_rate_sat_per_kw in
      if total_input_value <? saturating_add 64 leaves_total fee_no_change then
        Err (ServiceError.InsufficientCpfpBudget (saturating_add 64 leaves_total fee_no_change))
      else
        let surplus :=
          saturating_sub (saturating_sub total_input_value leaves_total) fee_no_change in
        let output_values := fan_out_values surplus selected_leaves per_leaf_value in
        let tx := make_tx 2
          ((λ i, mkTxIn (outpoint i) ENABLE_RBF_NO_LOCKTIME) <$> inputs)
          ((λ v, mkTxOut v script) <$> output_values) in
        let txid := compute_txid tx in
        match from_unsigned_tx tx with
        | Err e => Err (ServiceError.ValidationError ("Failed to create fan-out PSBT: " +:+ e))
        | Ok psbt =>
            Ok (with_witness_utxos (witness_utxo <$> inputs) psbt,
                imap (λ idx p,
                  (sl_id p.1,
                   mkCpfpInput (mkOutPoint txid (wrap 32 (Z.of_nat idx))) (mkTxOut p.2 script)
                     (signed_input_weight first)))
                  (zip selected_leaves output_values))
        end
  end.

(** [output.iter().enumerate().find(..)] *)
Fixpoint find_anchor (i : nat) (outputs : list (TxOut ScriptBuf)) : option (nat * TxOut ScriptBuf) :=
  match outputs with
  | [] => None
  | o :: outputs => if is_ephemeral_anchor_output o then Some (i, o) else find_anchor (S i) outputs
  end.

Definition build_cpfp_child (parent_tx : Transaction) (funding_inputs : list CpfpInput)
    (fee_rate_sat_per_kw : Z) : ServiceResult CpfpChild :=
  '(vout, anchor_tx_out) ← ok_or (find_anchor 0 (tx_output parent_tx))
     (ServiceError.ValidationError "Ephemeral anchor output not found");
  match funding_inputs with
  | [] => Err (ServiceError.ValidationError "At least one CPFP input is required for fee bumping")
  | first :: _ =>
      let total_input_value := inputs_value funding_inputs in
      let change_script_pubkey := script_pubkey (witness_utxo first) in
      let tx_inputs :=
        ((λ i, mkTxIn (outpoint i) ENABLE_RBF_NO_LOCKTIME) <$> funding_inputs) ++
        [mkTxIn (mkOutPoint (compute_txid parent_tx) (wrap 32 (Z.of_nat vout)))
           ENABLE_RBF_NO_LOCKTIME] in
      let fee_amount := compute_cpfp_package_fee (tx_weight parent_tx) (inputs_weight funding_inputs)
                          (script_len change_script_pubkey) fee_rate_sat_per_kw in
      let adjusted_output_value := saturating_sub total_input_value fee_amount in
      let dust_limit := minimal_non_dust change_script_pubkey in
      if adjusted_output_value <? dust_limit then
        Err (ServiceError.InsufficientCpfpBudget (saturating_add 64 fee_amount dust_limit))
      else
        let change := mkTxOut adjusted_output_value change_script_pubkey in
        let fee_bump_tx := make_tx 3 tx_inputs [change] in
        match from_unsigned_tx fee_bump_tx with
        | Err e => Err (ServiceError.ValidationError ("Failed to create PSBT: " +:+ e))
        | Ok psbt =>
            Ok {|
              child_psbt := with_witness_utxos
                ((witness_utxo <$> funding_inputs) ++ [anchor_tx_out]) psbt;
              change_input := mkCpfpInput (mkOutPoint (compute_txid fee_bump_tx) 0) change
                (signed_input_weight first);
              fee_sat_paid := fee_amount;
            |}
        end
  end.

(** ** Plan and quote *)

Record UnilateralExitPlan := mkPlan {
  plan_selected_leaves : list UnilateralExitSelectedLeaf;
  fan_out_psbt : option (Psbt Transaction ScriptBuf);
  per_branch_funding : list (TreeNodeId * list CpfpInput);
  plan_tree_nodes : gmap TreeNodeId TreeNode;
}.

(** The funding of the branches with something to build. *)
Definition fund_branches (tree_nodes : gmap TreeNodeId TreeNode)
    (to_build : list UnilateralExitSelectedLeaf) (inputs : list CpfpInput)
    (change_dust_limit fee_rate_sat_per_kw destination_script_len : Z) (on_chain : ExitChainState)
    : ServiceResult (list (TreeNodeId * list CpfpInput) * option (Psbt Transaction ScriptBuf)) :=
  match to_build with
  | [] => Ok ([], None)
  | [leaf] =>
      let cpfp_cost :=
        if (1 <? length inputs)%nat then
          default (cpfp_cost leaf)
            (first_child_cpfp_floor tree_nodes (sl_id leaf) inputs destination_script_len
               fee_rate_sat_per_kw on_chain)
        else cpfp_cost leaf in
      let required := saturating_add 64 cpfp_cost change_dust_limit in
      if inputs_value inputs <? required then Err (ServiceError.InsufficientCpfpBudget required)
      else Ok ([(sl_id leaf, inputs)], None)
  | _ =>
      let fan_out :=
        match build_fan_out_psbt inputs to_build fee_rate_sat_per_kw change_dust_limit with
        | Err e => Err e
        | Ok (psbt, per_leaf) =>
            Ok ((λ p : TreeNodeId * CpfpInput, (p.1, [p.2])) <$> per_leaf, Some psbt)
        end in
      match assign_inputs_to_leaves inputs to_build change_dust_limit with
      | Some assignment =>
          if assignment_covers_first_child assignment tree_nodes destination_script_len
               fee_rate_sat_per_kw on_chain
          then Ok (assignment, None) else fan_out
      | None => fan_out
      end
  end.

Definition plan_unilateral_exit (tree_nodes : gmap TreeNodeId TreeNode) (leaf_ids : list TreeNodeId)
    (filter : UnilateralExitLeafFilter) (inputs : list CpfpInput)
    (fee_rate_sat_per_kw destination_script_len : Z) (on_chain : ExitChainState)
    : ServiceResult UnilateralExitPlan :=
  match inputs with
  | [] => Err (ServiceError.ValidationError "At least one CPFP input is required")
  | first :: _ =>
      if (length leaf_ids =? 0)%nat then Ok (mkPlan [] None [] tree_nodes)
      else
        let change_script := script_pubkey (witness_utxo first) in
        let change_dust_limit := minimal_non_dust change_script in
        let params := {|
          initial_cpfp_input_weight := signed_input_weight first;
          single_cpfp_input_weight := signed_input_weight first;
          change_script_len := script_len change_script;
          destination_script_len := destination_script_len;
          fee_rate_sat_per_kw := fee_rate_sat_per_kw;
        |} in
        selected ← evaluate_unilateral_exit_leaf_costs tree_nodes leaf_ids params filter on_chain;
        if (length selected =? 0)%nat then Ok (mkPlan [] None [] tree_nodes)
        else
          let to_build := base.filter (λ leaf,
            is_complete_on_chain on_chain tree_nodes (sl_id leaf) = false) selected in
          '(assigned, fan_out_psbt) ← fund_branches tree_nodes to_build inputs change_dust_limit
             fee_rate_sat_per_kw destination_script_len on_chain;
          Ok (mkPlan selected fan_out_psbt
                (remove_each (hm_collect assigned) (sl_id <$> selected)) tree_nodes)
  end.

Record UnilateralExitQuote := {
  quote_selected_leaves : list UnilateralExitSelectedLeaf;
  quote_per_branch_funding : list (TreeNodeId * Z);
  single_utxo_funding_sat : Z;
  quote_cpfp_fee_sat : Z;
  quote_fanout_fee_sat : Z;
  quote_sweep_fee_sat : Z;
  total_fee_sat : Z;
}.

Definition quote_unilateral_exit (tree_nodes : gmap TreeNodeId TreeNode)
    (leaf_ids : list TreeNodeId) (filter : UnilateralExitLeafFilter)
    (funding_input_weight funding_output_script_len change_dust_limit fee_rate_sat_per_kw
     destination_script_len : Z) (on_chain : ExitChainState) : ServiceResult UnilateralExitQuote :=
  let params := {|
    initial_cpfp_input_weight := funding_input_weight;
    single_cpfp_input_weight := funding_input_weight;
    change_script_len := funding_output_script_len;
    destination_script_len := destination_script_len;
    fee_rate_sat_per_kw := fee_rate_sat_per_kw;
  |} in
  selected ← evaluate_unilateral_exit_leaf_costs tree_nodes leaf_ids params filter on_chain;
  match selected with
  | [] => Ok {| quote_selected_leaves := []; quote_per_branch_funding := [];
                single_utxo_funding_sat := 0; quote_cpfp_fee_sat := 0; quote_fanout_fee_sat := 0;
                quote_sweep_fee_sat := 0; total_fee_sat := 0 |}
  | _ =>
      let per_branch := (λ l, (sl_id l, branch_required_funding l change_dust_limit)) <$> selected in
      let leaves_total := sat_sum 64 (per_branch.*2) in
      let cpfp_fee_sat := sat_sum 64 (cpfp_cost <$> selected) in
      let sweep_fee_sat :=
        sat_sum 64 ((λ l, saturating_sub (estimated_cost l) (cpfp_cost l)) <$> selected) in
      let fanout_fee_sat :=
        if (length selected =? 1)%nat then 0
        else fan_out_fee funding_input_weight funding_output_script_len
               (Z.of_nat (length selected)) fee_rate_sat_per_kw in
      Ok {| quote_selected_leaves := selected;
            quote_per_branch_funding := per_branch;
            single_utxo_funding_sat := saturating_add 64 leaves_total fanout_fee_sat;
            quote_cpfp_fee_sat := cpfp_fee_sat;
            quote_fanout_fee_sat := fanout_fee_sat;
            quote_sweep_fee_sat := sweep_fee_sat;
            total_fee_sat :=
              saturating_add 64 (saturating_add 64 cpfp_fee_sat fanout_fee_sat) sweep_fee_sat |}
  end.
End exit_plan.
