(* ===== verification/ExitPlanSpec.v ===== *)
(** * Correctness of unilateral exit plans

    The chain walk agrees with the chains of [ExitChain]; the costs charge each
    node once and the sweep once; inputs are shared out without creating or losing
    money; quotes add up. *)

From S2P Require Import Prelude Bitcoin BitcoinTx TreeModel ExitChain SparkTx ExitPlan.

Section walk.
Context {B : Bitcoin} {BT : BitcoinTx}.
Implicit Types nodes : gmap TreeNodeId TreeNode.

(** ** The chain walk *)

(** A walk that succeeds has followed a path to a root. *)
Lemma exit_walk_path fuel nodes visited current chain :
  exit_walk fuel nodes visited current = Ok chain →
  ∃ p, path nodes (parent_node_id current) p ∧ chain = current :: p.*2.
Proof.
  revert visited current chain. induction fuel as [|fuel IH]; intros visited current chain; [done|].
  simpl. case_decide; [done|]. destruct (parent_node_id current) as [i|] eqn:Hi.
  - destruct (nodes !! i) as [parent|] eqn:Hp; [|done]. rewrite bind_Ok.
    intros (c & (p & Hpath & ->)%IH & [= <-]). exists ((i, parent) :: p). split; [|done].
    by constructor.
  - intros [= <-]. exists []. split; [constructor|done].
Qed.

Lemma exit_walk_follows fuel nodes visited current p :
  well_keyed nodes → path nodes (parent_node_id current) p → (length p < fuel)%nat →
  NoDup (id current :: p.*1) → id current ∉ visited → (∀ i, i ∈ p.*1 → i ∉ visited) →
  exit_walk fuel nodes visited current = Ok (current :: p.*2).
Proof.
  intros Hk. revert visited current p. induction fuel as [|fuel IH]; intros visited current p Hp Hf Hnd Hc Hv;
    [lia|]. simpl. rewrite decide_False by done.
  inversion Hp as [Hroot|i n q Hi Hq Hroot]; subst; [done|]. rewrite Hi.
  csimpl in *. pose proof (Hk _ _ Hi) as <-.
  apply NoDup_cons in Hnd as [Hnin Hnd].
  rewrite (IH _ n q); [done|done|lia|done| |].
  - set_solver.
  - intros j Hj. pose proof (Hv j ltac:(set_solver)). set_solver.
Qed.

(** What [walk_ancestors] returns when there is a path to a root. *)
Lemma walk_ancestors_chain leaf nodes :
  well_keyed nodes → nodes !! id leaf = Some leaf →
  ∀ p, path nodes (parent_node_id leaf) p →
  walk_ancestors leaf nodes = p.*2 ∧ NoDup (id <$> leaf :: p.*2) ∧
  linked (Some (id leaf)) (leaf :: p.*2) ∧ walk_end (Some (id leaf)) (leaf :: p.*2) = None ∧
  chain_reaches_root leaf (walk_ancestors leaf nodes) = true.
Proof.
  intros Hk Hl p Hp.
  assert (path nodes (Some (id leaf)) ((id leaf, leaf) :: p)) as Hp' by by constructor.
  assert (walk_ancestors leaf nodes = p.*2) as Ha.
  { unfold walk_ancestors. apply walk_path; [done| |set_solver].
    pose proof (path_length _ _ _ Hp). lia. }
  assert (id <$> p.*2 = p.*1) as Hids.
  { rewrite <- list_fmap_compose. apply list_fmap_ext. intros k [i n] Hkn. simpl.
    apply (Hk i n), (path_lookup nodes _ p i n Hp). by apply list_elem_of_lookup_2 in Hkn. }
  rewrite Ha. csimpl. rewrite Hids. split_and!; try done.
  - by apply path_NoDup in Hp'.
  - clear -Hk Hp. induction Hp as [|i n p Hi Hp IH]; csimpl; [done|].
    split; [by rewrite (Hk _ _ Hi)|done].
  - clear -Hp. induction Hp; csimpl; done.
  - apply chain_reaches_root_path. exists p. eapply path_mono; [done|]. intros i n Hin.
    assert (NoDup p.*1) as Hnd by by eapply path_NoDup.
    assert (n ∈ p.*2) as Hn by (apply list_elem_of_fmap; by exists (i, n)).
    pose proof (Hk _ _ (path_lookup _ _ _ _ _ Hp Hin)) as <-.
    destruct (proj2 (index_by_id_is_Some (p.*2) (id n))) as [m Hm]; [by exists n|].
    rewrite Hm. f_equal. apply index_by_id_Some in Hm as [Hm Hmi].
    eapply (NoDup_fmap_inj id (p.*2)); [by rewrite Hids|done..].
Qed.

(** Where a failing walk stops: it has gone along [l], and the id it reports is
    missing from the map or is one it has been at. *)
Lemma exit_walk_stops fuel nodes visited current e :
  well_keyed nodes → nodes !! id current = Some current →
  (size (dom nodes ∖ visited) < fuel)%nat →
  exit_walk fuel nodes visited current = Err e →
  ∃ l, linked (parent_node_id current) l ∧ (∀ n, n ∈ l → nodes !! id n = Some n) ∧
    walk_end (Some (id current)) (current :: l) = Some e ∧
      (nodes !! e = None ∨ e ∈ visited ∨ e ∈ id <$> current :: l)
    ∨ e = id current ∧ e ∈ visited.
Proof.
  intros Hk. revert visited current. induction fuel as [|fuel IH]; intros visited current Hc Hs; [lia|].
  simpl. case_decide as Hv; [intros [= <-]; exists []; by right|].
  destruct (parent_node_id current) as [i|] eqn:Hi; [|done].
  destruct (nodes !! i) as [parent|] eqn:Hp.
  2:{ intros [= <-]. exists []. left. set_solver. }
  pose proof (Hk _ _ Hp) as <-.
  destruct (exit_walk fuel nodes _ parent) as [c|e'] eqn:Hw; simpl; [done|]. intros [= ->].
  assert (id current ∈ dom nodes ∖ visited).
  { apply elem_of_difference. split; [by eapply elem_of_dom_2|done]. }
  assert (dom nodes ∖ ({[id current]} ∪ visited) ⊂ dom nodes ∖ visited) as ?%subset_size by set_solver.
  destruct (IH ({[id current]} ∪ visited) parent Hp ltac:(lia) Hw) as (l & [(Hl & Hin & He & Hcases)|[-> Hcases]]).
  - exists (parent :: l). left. csimpl. split_and!; [done|done| |done|].
    + intros n [->|?]%elem_of_cons; auto.
    + csimpl in Hcases. set_solver.
  - exists []. left. set_solver.
Qed.

Lemma walk_exit_chain_path nodes leaf chain :
  walk_unilateral_exit_chain nodes leaf = Ok chain →
  ∃ p, path nodes (parent_node_id leaf) p ∧ chain = reverse (leaf :: p.*2).
Proof.
  unfold walk_unilateral_exit_chain. rewrite bind_Ok.
  intros (c & (p & ? & ->)%exit_walk_path & [= <-]). by exists p.
Qed.

Lemma path_walk_exit_chain nodes leaf p :
  well_keyed nodes → nodes !! id leaf = Some leaf → path nodes (parent_node_id leaf) p →
  walk_unilateral_exit_chain nodes leaf = Ok (reverse (leaf :: p.*2)).
Proof.
  intros Hk Hl Hp. unfold walk_unilateral_exit_chain.
  assert (path nodes (Some (id leaf)) ((id leaf, leaf) :: p)) as Hp' by by constructor.
  rewrite (exit_walk_follows _ _ _ _ p); [done|done|done| | |set_solver|set_solver].
  - pose proof (path_length _ _ _ Hp). lia.
  - by apply path_NoDup in Hp'.
Qed.

(** [walk_unilateral_exit_chain] and the chains of [tree/chain.rs] agree. The
    walk returns exactly the path from the root down to the leaf, without
    repetition, and succeeds on a leaf precisely when the chain that
    [walk_ancestors] assembles passes the gate [chain_reaches_root]; when it fails
    it has followed parents as far as they go, and the id it reports is missing
    from the map, or was visited before, which the caller tells by the id being in
    the map. *)
Theorem walk_exit_chain_exact nodes leaf :
  well_keyed nodes → nodes !! id leaf = Some leaf →
  (is_Ok (walk_unilateral_exit_chain nodes leaf) = true ↔
     chain_reaches_root leaf (walk_ancestors leaf nodes) = true) ∧
  match walk_unilateral_exit_chain nodes leaf with
  | Ok chain =>
      chain = reverse (leaf :: walk_ancestors leaf nodes) ∧ NoDup (id <$> chain) ∧
      linked (Some (id leaf)) (reverse chain) ∧ walk_end (Some (id leaf)) (reverse chain) = None
  | Err e => ∃ l, linked (Some (id leaf)) (leaf :: l) ∧ (∀ n, n ∈ l → nodes !! id n = Some n) ∧
      walk_end (Some (id leaf)) (leaf :: l) = Some e ∧
      (nodes !! e = None ∨ e ∈ id <$> leaf :: l)
  end.
Proof.
  intros Hk Hl. pose proof (walk_ancestors_chain leaf nodes Hk Hl) as Hchain.
  destruct (walk_unilateral_exit_chain nodes leaf) as [chain|e] eqn:Hw; simpl.
  - apply walk_exit_chain_path in Hw as (p & Hp & ->).
    destruct (Hchain p Hp) as (Ha & Hnd & Hlk & He & Hroot). rewrite Ha, reverse_involutive.
    split; [by rewrite <- Ha|]. split_and!; [done| |done|done].
    by rewrite fmap_reverse, reverse_Permutation.
  - split.
    + split; [done|]. intros (p & Hp)%chain_reaches_root_path. exfalso.
      assert (∃ q, path nodes (parent_node_id leaf) q) as [q Hq].
      { exists p. eapply path_mono; [done|]. intros i n Hin.
        pose proof (path_lookup _ _ _ _ _ Hp Hin) as [Hn <-]%index_by_id_Some.
        by eapply walk_ancestors_elem. }
      by rewrite (path_walk_exit_chain _ _ _ Hk Hl Hq) in Hw.
    + unfold walk_unilateral_exit_chain in Hw.
      destruct (exit_walk _ _ _ _) as [c|e'] eqn:Hw'; [done|]. simplify_eq/=.
      destruct (exit_walk_stops (S (S (size nodes))) _ ∅ _ _ Hk Hl ltac:(rewrite difference_empty_L, size_dom; lia) Hw')
        as (l & [(? & ? & ? & ?)|[_ ?]]); [|set_solver].
      exists l. split_and!; [done|done|done|done|]. set_solver.
Qed.
End walk.

(** ** Fees *)

Section fees.
Context {B : Bitcoin} {BT : BitcoinTx}.

Lemma div_ceil_mono a b c : 0 < c → a ≤ b → div_ceil a c ≤ div_ceil b c.
Proof. intros. unfold div_ceil. pose proof (Z.div_le_mono (- b) (- a) c). lia. Qed.

Lemma div_ceil_nonneg a c : 0 < c → 0 ≤ a → 0 ≤ div_ceil a c.
Proof. intros Hc Ha. pose proof (div_ceil_spec a c Hc). nia. Qed.

Lemma div_ceil_subadd a b c : 0 < c → div_ceil (a + b) c ≤ div_ceil a c + div_ceil b c.
Proof.
  intros Hc. pose proof (div_ceil_spec a c Hc). pose proof (div_ceil_spec b c Hc).
  pose proof (div_ceil_spec (a + b) c Hc). nia.
Qed.

Lemma fee_sat_nonneg r w : 0 ≤ r → 0 ≤ w → 0 ≤ fee_sat r w.
Proof. intros. apply div_ceil_nonneg; [lia|]. unfold saturating_mul. nia. Qed.

Lemma fee_sat_mono r v w : 0 ≤ r → v ≤ w → fee_sat r v ≤ fee_sat r w.
Proof. intros. apply div_ceil_mono; [lia|]. unfold saturating_mul. nia. Qed.

Lemma fee_sat_subadd r v w : 0 ≤ r → 0 ≤ v → 0 ≤ w → fee_sat r (v + w) ≤ fee_sat r v + fee_sat r w.
Proof.
  intros. unfold fee_sat. etransitivity; [|apply div_ceil_subadd; lia].
  apply div_ceil_mono; [lia|]. unfold saturating_mul. nia.
Qed.

Lemma uadd_nonneg a b : 0 ≤ uadd 64 a b.
Proof. apply (wrap_range 64). lia. Qed.

Lemma package_fee_nonneg p w l r : 0 ≤ r → 0 ≤ compute_cpfp_package_fee p w l r.
Proof. intros. apply fee_sat_nonneg; [done|apply uadd_nonneg]. Qed.

Lemma sweep_fee_nonneg w l r : 0 ≤ r → 0 ≤ compute_sweep_fee w l r.
Proof. intros. apply fee_sat_nonneg; [done|apply uadd_nonneg]. Qed.

(** The weight of a CPFP child beside its funding inputs. *)
Definition child_overhead (change_len : Z) : Z :=
  anchor_input_weight + output_weight change_len + tx_overhead_weight.

Lemma child_overhead_nonneg l : 0 ≤ child_overhead l.
Proof.
  unfold child_overhead. pose proof (segwit_weight_range []). pose proof (txout_weight_range l).
  pose proof (tx_weight_range (make_tx 2 [] [])).
  unfold anchor_input_weight, input_segwit_weight, output_weight, tx_overhead_weight, in_uint in *. lia.
Qed.

Lemma package_fee_exact p w l r :
  0 ≤ p → 0 ≤ w → p + w + child_overhead l < 2 ^ 64 →
  compute_cpfp_package_fee p w l r = fee_sat r (p + w + child_overhead l).
Proof.
  intros Hp Hw Hs. unfold compute_cpfp_package_fee, child_overhead in *.
  pose proof (segwit_weight_range []). pose proof (txout_weight_range l).
  pose proof (tx_weight_range (make_tx 2 [] [])).
  unfold anchor_input_weight, input_segwit_weight, output_weight, tx_overhead_weight, in_uint in *.
  rewrite (uadd_small 64 w) by lia. rewrite (uadd_small 64 (w + _)) by lia.
  rewrite (uadd_small 64 (w + _ + _)) by lia. rewrite uadd_small by lia. f_equal. lia.
Qed.

(** ** The transactions an exit drives for a leaf, and what they cost *)

Definition counted_on_chain (oc : ExitChainState) (n : TreeNode) : bool :=
  has_node oc (id n) || bool_decide (status n = TreeNodeStatus.OnChain).

Definition to_charge (oc : ExitChainState) (covered : gset Txid) (ancestors : list TreeNode) :=
  filter (λ a, compute_txid (node_tx a) ∉ covered ∧ counted_on_chain oc a = false) ancestors.

Definition drive_txs (oc : ExitChainState) (covered : gset Txid) (leaf_id : TreeNodeId)
    (refund : Transaction) (ancestors : list TreeNode) : list Transaction :=
  (node_tx <$> to_charge oc covered ancestors) ++
  (if has_refund oc leaf_id then [] else [refund]).

Definition child_fee (l r w : Z) (tx : Transaction) : Z :=
  compute_cpfp_package_fee (tx_weight tx) w l r.

(** The first child spends the funding, of weight [w0]; every other one the change
    of the one before, of weight [w]. *)
Definition chain_fees (l r w0 w : Z) (txs : list Transaction) : list Z :=
  match txs with
  | [] => []
  | tx :: txs => child_fee l r w0 tx :: (child_fee l r w <$> txs)
  end.

Lemma chain_fees_app_1 l r w0 w txs tx :
  chain_fees l r w0 w (txs ++ [tx]) =
    chain_fees l r w0 w txs ++ [child_fee l r (match txs with [] => w0 | _ => w end) tx].
Proof. destruct txs as [|t txs]; [done|]. simpl. by rewrite fmap_app. Qed.

Lemma chain_fees_same l r w txs : chain_fees l r w w txs = child_fee l r w <$> txs.
Proof. by destruct txs. Qed.

Lemma chain_fees_nonneg l r w0 w txs : 0 ≤ r → Forall (λ x, 0 ≤ x) (chain_fees l r w0 w txs).
Proof.
  intros Hr. destruct txs as [|t txs]; [constructor|]. simpl.
  constructor; [by apply package_fee_nonneg|].
  rewrite Forall_fmap. apply Forall_true. intros. by apply package_fee_nonneg.
Qed.

Context (params : UnilateralExitLeafCostParams) (oc : ExitChainState).
Local Abbreviation fees := (chain_fees (change_script_len params) (fee_rate_sat_per_kw params)
  (initial_cpfp_input_weight params) (single_cpfp_input_weight params)).

Lemma cost_ancestors_fees covered anc :
  foldl (cost_ancestor params oc covered) (0, false) anc =
    (sat_sum 64 (fees (node_tx <$> to_charge oc covered anc)),
     negb (bool_decide (to_charge oc covered anc = []))).
Proof.
  induction anc as [|a anc IH] using rev_ind; [done|].
  rewrite foldl_snoc, IH. unfold to_charge. rewrite filter_app. fold (to_charge oc covered anc).
  unfold cost_ancestor. rewrite filter_cons, filter_nil.
  case_decide as Hc.
  { rewrite decide_False by tauto. by rewrite app_nil_r. }
  fold (counted_on_chain oc a). destruct (counted_on_chain oc a) eqn:Ha.
  { rewrite decide_False by naive_solver. by rewrite app_nil_r. }
  rewrite decide_True by done. rewrite fmap_app. simpl. rewrite chain_fees_app_1.
  unfold sat_sum. rewrite foldl_snoc. f_equal.
  - unfold child_fee. destruct (to_charge oc covered anc); simpl; done.
  - rewrite bool_decide_eq_false_2; [done|]. by intros [_ ?]%app_eq_nil.
Qed.

(** A leaf's CPFP cost is the saturating sum of the fees of what it drives. *)
Lemma leaf_cpfp_cost_fees covered i refund anc :
  leaf_cpfp_cost params oc covered i refund anc = sat_sum 64 (fees (drive_txs oc covered i refund anc)).
Proof.
  unfold leaf_cpfp_cost, drive_txs. rewrite cost_ancestors_fees.
  destruct (has_refund oc i); [by rewrite app_nil_r|].
  rewrite chain_fees_app_1. unfold sat_sum. rewrite foldl_snoc. f_equal.
  unfold child_fee. by destruct (to_charge oc covered anc).
Qed.
End fees.

(** ** Selection *)

Section selection.
Context {B : Bitcoin} {BT : BitcoinTx}.
Implicit Types nodes : gmap TreeNodeId TreeNode.

Lemma leaf_order_total a b : leaf_order a b = true ∨ leaf_order b a = true.
Proof.
  unfold leaf_order. destruct (Z.lt_total (value a.2) (value b.2)) as [?|[He|?]].
  - right. by rewrite (proj2 (Z.ltb_lt _ _)).
  - rewrite He, Z.ltb_irrefl, Z.eqb_refl. simpl. apply String.leb_total.
  - left. by rewrite (proj2 (Z.ltb_lt _ _)).
Qed.

Lemma leaf_order_value a b : leaf_order a b = true → value b.2 ≤ value a.2.
Proof. unfold leaf_order. intros [?%Z.ltb_lt|[?%Z.eqb_eq _]%andb_prop]%orb_prop; lia. Qed.

Lemma leaf_order_trans a b c : leaf_order a b = true → leaf_order b c = true → leaf_order a c = true.
Proof.
  unfold leaf_order. intros [Hab%Z.ltb_lt|[Hab%Z.eqb_eq Sab]%andb_prop]%orb_prop
    [Hbc%Z.ltb_lt|[Hbc%Z.eqb_eq Sbc]%andb_prop]%orb_prop.
  1-3: rewrite (proj2 (Z.ltb_lt _ _)) by lia; done.
  rewrite Hab, Hbc, Z.eqb_refl, (string_leb_trans _ _ _ Sab Sbc). by rewrite orb_true_r.
Qed.

(** A leaf can be exited: it is in the map with a refund transaction and a whole
    chain. *)
Definition exitable nodes (i : TreeNodeId) : Prop :=
  ∃ leaf refund chain, nodes !! i = Some leaf ∧ refund_tx leaf = Some refund ∧
    walk_unilateral_exit_chain nodes leaf = Ok chain.

Definition chain_txids (chain : list TreeNode) : gset Txid :=
  list_to_set ((λ a, compute_txid (node_tx a)) <$> chain).

(** The entry a leaf gets when [n] leaves were selected before it, whose chains
    hold the transactions [covered]. *)
Definition entry_of (params : UnilateralExitLeafCostParams) (oc : ExitChainState) (n : nat)
    (covered : gset Txid) (i : TreeNodeId) (leaf : TreeNode) (refund : Transaction)
    (chain : list TreeNode) : UnilateralExitSelectedLeaf :=
  let c := leaf_cpfp_cost params oc covered i refund chain in
  mkSelectedLeaf i (value leaf) (saturating_add 64 c (leaf_sweep_cost params n)) c.

(** The selections the evaluation can make, with the transactions they cover. *)
Inductive costed nodes params oc : list UnilateralExitSelectedLeaf → gset Txid → Prop :=
| costed_nil : costed nodes params oc [] ∅
| costed_snoc sel covered i leaf refund chain :
    costed nodes params oc sel covered →
    nodes !! i = Some leaf → refund_tx leaf = Some refund →
    walk_unilateral_exit_chain nodes leaf = Ok chain →
    costed nodes params oc
      (sel ++ [entry_of params oc (length sel) covered i leaf refund chain])
      (chain_txids chain ∪ covered).

Definition found nodes (ids : list TreeNodeId) : list (TreeNodeId * TreeNode) :=
  omap (λ i, n ← nodes !! i; Some (i, n)) ids.

Lemma found_elem nodes ids i n : (i, n) ∈ found nodes ids ↔ i ∈ ids ∧ nodes !! i = Some n.
Proof.
  unfold found. rewrite list_elem_of_omap. split.
  - intros (j & ? & Hj). destruct (nodes !! j) eqn:E; simplify_eq/=. done.
  - intros [? Hi]. exists i. by rewrite Hi.
Qed.

Lemma lookup_leaves_ok nodes flt ids acc leaves :
  foldlR (lookup_leaf nodes flt) acc ids = Ok leaves →
  leaves = acc ++ found nodes ids ∧ (flt = All → Forall (λ i, is_Some (nodes !! i)) ids).
Proof.
  revert acc. induction ids as [|i ids IH]; intros acc; simpl.
  - intros [= <-]. split; [by rewrite app_nil_r|constructor].
  - rewrite bind_Ok. intros (acc' & Hs & [-> Hf]%IH). unfold lookup_leaf in Hs.
    unfold found. simpl. destruct (nodes !! i) as [n|] eqn:Hi; simpl in *.
    + injection Hs as <-. rewrite <- app_assoc. split; [done|]. intros Hall.
      constructor; [by rewrite Hi|auto].
    + destruct flt; simplify_eq/=. done.
Qed.

Lemma lookup_leaves_err nodes flt ids acc e :
  foldlR (lookup_leaf nodes flt) acc ids = Err e → flt = All ∧ ∃ i, i ∈ ids ∧ nodes !! i = None.
Proof.
  revert acc. induction ids as [|i ids IH]; intros acc; simpl; [done|].
  destruct (lookup_leaf nodes flt acc i) as [acc'|e'] eqn:Hs; simpl.
  - intros (? & j & ? & ?)%IH. split; [done|]. exists j. split; [by right|done].
  - intros _. unfold lookup_leaf in Hs. destruct (nodes !! i) eqn:Hi; [done|].
    destruct flt; [|done]. split; [done|]. exists i. split; [left|done].
Qed.

(** What a run of the selection loop keeps of the leaves it was given. *)
Definition kept (flt : UnilateralExitLeafFilter) nodes (entries : list (TreeNodeId * TreeNode))
    (sel : list UnilateralExitSelectedLeaf) : Prop :=
  match flt with
  | All => (λ l, (sl_id l, sl_value l)) <$> sel = (λ e, (e.1, value e.2)) <$> entries ∧
           Forall (λ e, exitable nodes e.1) entries
  | ProfitableOnly =>
      ((λ l, (sl_id l, sl_value l)) <$> sel) `sublist_of` ((λ e, (e.1, value e.2)) <$> entries) ∧
      Forall (λ l, estimated_cost l < sl_value l) sel
  end.

Lemma evaluate_leaves_ok nodes params flt oc entries sel covered :
  Forall (λ e, nodes !! e.1 = Some e.2) entries →
  foldlR (evaluate_leaf nodes params flt oc) ([], ∅) entries = Ok (sel, covered) →
  costed nodes params oc sel covered ∧ kept flt nodes entries sel.
Proof.
  intros Hin. revert sel covered.
  induction entries as [|[i leaf] entries IH] using rev_ind; intros sel covered.
  { intros [= <- <-]. split; [constructor|]. destruct flt; split; constructor. }
  apply Forall_app in Hin as [Hin Hi]. rewrite Forall_singleton in Hi. cbn [fst snd] in Hi.
  rewrite foldlR_app, bind_Ok. intros ([sel0 cov0] & H0 & Hstep).
  destruct (IH Hin _ _ H0) as [Hc Hk]. clear IH H0. simpl in Hstep.
  apply bind_Ok in Hstep as ([sel1 cov1] & Hstep & [= <- <-]).
  assert (sel1 = sel0 ∧ cov1 = cov0 ∧ flt = ProfitableOnly ∨
    ∃ refund chain, refund_tx leaf = Some refund ∧ walk_unilateral_exit_chain nodes leaf = Ok chain ∧
      let e := entry_of params oc (length sel0) cov0 i leaf refund chain in
      sel1 = sel0 ++ [e] ∧ cov1 = chain_txids chain ∪ cov0 ∧
      (flt = ProfitableOnly → estimated_cost e < sl_value e)) as Hcases.
  { destruct (refund_tx leaf) as [refund|]; [|by destruct flt; simplify_eq/=; auto].
    destruct (walk_unilateral_exit_chain nodes leaf) as [chain|];
      [|by destruct flt; simplify_eq/=; auto].
    destruct flt; simpl in Hstep; [right|case_match eqn:Hv; [right|left]]; simplify_eq; auto.
    - exists refund, chain. by split_and!.
    - exists refund, chain. cbv zeta. split_and!; [done..|]. intros _. simpl. by apply Z.ltb_lt. }
  cbv zeta in Hcases. destruct Hcases as [(Hs & Hcov & Hflt)|(refund & chain & Hr & Hw & Hs & Hcov & Hprof)];
    rewrite Hs, ?Hcov.
  - split; [done|]. rewrite Hflt in *. destruct Hk as [Hsub Hp]. split; [|done].
    rewrite fmap_app. by apply sublist_inserts_r.
  - split; [by eapply costed_snoc|]. unfold kept in *. destruct flt; destruct Hk as [Hk1 Hk2].
    + rewrite !fmap_app, Hk1. split; [done|]. apply Forall_app. split; [done|].
      apply Forall_singleton. by exists leaf, refund, chain.
    + rewrite !fmap_app. split; [by apply sublist_app|].
      apply Forall_app. split; [done|]. apply Forall_singleton. auto.
Qed.

Lemma evaluate_leaves_err nodes params flt oc entries st e :
  foldlR (evaluate_leaf nodes params flt oc) st entries = Err e →
  flt = All ∧ ∃ i leaf, (i, leaf) ∈ entries ∧
    (refund_tx leaf = None ∨ ∃ m, walk_unilateral_exit_chain nodes leaf = Err m).
Proof.
  revert st. induction entries as [|[i leaf] entries IH]; intros [sel cov]; simpl; [done|].
  intros Hf. destruct (evaluate_leaf nodes params flt oc (sel, cov) (i, leaf)) as [st'|e'] eqn:He.
  - simpl in He. rewrite He in Hf. simpl in Hf.
    destruct (IH _ Hf) as (? & j & l & ? & ?). split; [done|]. exists j, l. split; [by right|done].
  - clear Hf IH. simpl in He. destruct (refund_tx leaf) as [r|] eqn:Hr.
    2:{ destruct flt; [|done]. split; [done|]. exists i, leaf. split; [left|by left]. }
    destruct (walk_unilateral_exit_chain nodes leaf) as [c|m] eqn:Hw.
    + by destruct flt; [|case_match].
    + destruct flt; [|done]. split; [done|]. exists i, leaf. split; [left|right; eauto].
Qed.

Lemma evaluate_ok nodes ids params flt oc sel :
  evaluate_unilateral_exit_leaf_costs nodes ids params flt oc = Ok sel →
  ∃ covered, costed nodes params oc sel covered ∧
    kept flt nodes (stable_sort leaf_order (found nodes ids)) sel ∧
    (flt = All → Forall (λ i, is_Some (nodes !! i)) ids).
Proof.
  unfold evaluate_unilateral_exit_leaf_costs. rewrite bind_Ok.
  intros (leaves & [-> Hall]%lookup_leaves_ok & Hsel). simpl in Hsel.
  apply bind_Ok in Hsel as ([sel' covered] & Hrun & [= ->]).
  exists covered. apply evaluate_leaves_ok in Hrun as [? ?]; [done|].
  rewrite stable_sort_perm, Forall_forall. intros [i n] [_ ?]%found_elem. done.
Qed.

Lemma costed_elem nodes params oc sel covered l :
  costed nodes params oc sel covered → l ∈ sel →
  exitable nodes (sl_id l) ∧ ∃ leaf, nodes !! sl_id l = Some leaf ∧ sl_value l = value leaf.
Proof.
  induction 1 as [|sel cov i leaf refund chain Hc IH Hi Hr Hw]; [by intros ?%elem_of_nil|].
  intros [?|Hl]%elem_of_app; [auto|]. apply list_elem_of_singleton in Hl as ->. simpl. split.
  - by exists leaf, refund, chain.
  - by exists leaf.
Qed.

Lemma found_all nodes ids :
  Forall (λ i, is_Some (nodes !! i)) ids → (found nodes ids).*1 = ids.
Proof.
  unfold found. induction 1 as [|i ids [n Hi] _ IH]; csimpl; [done|]. rewrite Hi. csimpl. by rewrite IH.
Qed.

Lemma found_sublist nodes ids : (found nodes ids).*1 `sublist_of` ids.
Proof.
  unfold found. induction ids as [|i ids IH]; csimpl; [done|].
  destruct (nodes !! i); csimpl; [by apply sublist_skip|by apply sublist_cons].
Qed.

(** [evaluate_unilateral_exit_leaf_costs] lists leaves highest value first,
    each one exitable and with its node's value. Asked for all, it lists exactly
    the requested leaves, and fails precisely when one of them cannot be exited;
    asked for the profitable ones, it never fails and keeps requested leaves worth
    strictly more than their cost. *)
Theorem evaluate_leaf_costs_spec nodes ids params flt oc :
  match evaluate_unilateral_exit_leaf_costs nodes ids params flt oc with
  | Ok sel =>
      StronglySorted (λ a b, sl_value b ≤ sl_value a) sel ∧
      (∀ l, l ∈ sel → exitable nodes (sl_id l) ∧
         ∃ leaf, nodes !! sl_id l = Some leaf ∧ sl_value l = value leaf) ∧
      match flt with
      | All => sl_id <$> sel ≡ₚ ids
      | ProfitableOnly => sl_id <$> sel ⊆+ ids ∧ Forall (λ l, estimated_cost l < sl_value l) sel
      end
  | Err _ => flt = All ∧ ∃ i, i ∈ ids ∧ ¬ exitable nodes i
  end.
Proof.
  destruct (evaluate_unilateral_exit_leaf_costs nodes ids params flt oc) as [sel|e] eqn:He.
  - destruct (evaluate_ok _ _ _ _ _ _ He) as (cov & Hc & Hk & Hall).
    assert (StronglySorted (λ a b, value b.2 ≤ value a.2)
              (stable_sort leaf_order (found nodes ids))) as Hs.
    { eapply StronglySorted_impl; [intros x y; apply leaf_order_value|].
      apply stable_sort_sorted; [apply leaf_order_total|apply leaf_order_trans]. }
    assert (∀ k, k `sublist_of` ((λ e, (e.1, value e.2)) <$> stable_sort leaf_order (found nodes ids)) →
      StronglySorted (λ a b : TreeNodeId * Z, b.2 ≤ a.2) k) as Hsub.
    { intros k Hk'. eapply StronglySorted_sublist; [done|]. by apply StronglySorted_fmap_2. }
    set (view := λ l : UnilateralExitSelectedLeaf, (sl_id l, sl_value l)).
    assert (∀ k, StronglySorted (λ a b : TreeNodeId * Z, b.2 ≤ a.2) (view <$> k) →
      StronglySorted (λ a b, sl_value b ≤ sl_value a) k) as Hview.
    { clear. induction k as [|x k IH]; [constructor|]. csimpl. inversion 1 as [|? ? ? HF]; subst.
      constructor; [auto|]. by rewrite Forall_fmap in HF. }
    split_and!.
    + apply Hview, Hsub. unfold kept in Hk. destruct flt.
      * destruct Hk as [Hk _]. unfold view. by rewrite Hk.
      * apply Hk.
    + intros l Hl. by eapply costed_elem.
    + assert (∀ k, (view <$> k).*1 = sl_id <$> k) as Hids by (intros; by rewrite <- list_fmap_compose).
      assert (((λ e, (e.1, value e.2)) <$> stable_sort leaf_order (found nodes ids)).*1
                ≡ₚ (found nodes ids).*1) as Hperm.
      { rewrite <- list_fmap_compose. simpl. apply fmap_Permutation, stable_sort_perm. }
      unfold kept in Hk. destruct flt; destruct Hk as [Hk Hk2].
      * rewrite <- (Hids sel). change (view <$> sel = (λ e, (e.1, value e.2)) <$>
          stable_sort leaf_order (found nodes ids)) in Hk. rewrite Hk, Hperm.
        by rewrite found_all by auto.
      * split; [|done]. rewrite <- (Hids sel). etransitivity.
        { apply sublist_submseteq. apply (fmap_sublist fst). exact Hk. }
        rewrite Hperm. by apply sublist_submseteq, found_sublist.
  - unfold evaluate_unilateral_exit_leaf_costs in He.
    destruct (foldlR _ [] ids) as [leaves|e'] eqn:Hf; simpl in He.
    2:{ simplify_eq. destruct (lookup_leaves_err _ _ _ _ _ Hf) as (-> & i & ? & Hi).
        split; [done|]. exists i. split; [done|]. by intros (? & ? & ? & Hi' & _); simplify_eq. }
    destruct (lookup_leaves_ok _ _ _ _ _ Hf) as [-> _].
    destruct (foldlR (evaluate_leaf _ _ _ _) _ _) as [[? ?]|e'] eqn:Hr; simplify_eq/=.
    destruct (evaluate_leaves_err _ _ _ _ _ _ _ Hr) as (-> & i & leaf & Hin & Hbad).
    rewrite stable_sort_perm in Hin. apply found_elem in Hin as [Hin Hi].
    split; [done|]. exists i. split; [done|]. intros (l' & r' & c' & Hi' & Hr' & Hw').
    rewrite Hi in Hi'. injection Hi' as <-. destruct Hbad as [?|[? ?]]; congruence.
Qed.
End selection.

(** ** What a selection costs *)

Section costs.
Context {B : Bitcoin} {BT : BitcoinTx}.
Context (nodes : gmap TreeNodeId TreeNode) (params : UnilateralExitLeafCostParams)
  (oc : ExitChainState).
Local Abbreviation rate := (fee_rate_sat_per_kw params).
Context (Hrate : 0 ≤ rate).

(** No cost reached the largest [u64]: every sum in it was exact. *)
Definition unsaturated (sel : list UnilateralExitSelectedLeaf) : Prop :=
  Forall (λ l, estimated_cost l < 2 ^ 64 - 1) sel.

(** The weight one more leaf adds to the sweep: its refund and its CPFP change. *)
Definition sweep_leaf_weight : Z := uadd 64 p2tr_key_path_input_weight (single_cpfp_input_weight params).

(** The fee of the one sweep that spends [n] leaves. *)
Definition sweep_total (n : nat) : Z :=
  match n with
  | O => 0
  | _ => compute_sweep_fee (Z.of_nat n * sweep_leaf_weight) (destination_script_len params) rate
  end.

Definition sweep_fits (n : nat) : Prop :=
  Z.of_nat n * sweep_leaf_weight + output_weight (destination_script_len params) +
  tx_overhead_weight < 2 ^ 64.

Lemma sweep_fits_le n m : (n ≤ m)%nat → sweep_fits m → sweep_fits n.
Proof. unfold sweep_fits. pose proof (uadd_nonneg p2tr_key_path_input_weight (single_cpfp_input_weight params)). unfold sweep_leaf_weight. nia. Qed.

Lemma sweep_weight_exact n :
  sweep_fits n →
  compute_sweep_fee (Z.of_nat n * sweep_leaf_weight) (destination_script_len params) rate =
  fee_sat rate (Z.of_nat n * sweep_leaf_weight + output_weight (destination_script_len params) +
                tx_overhead_weight).
Proof.
  unfold sweep_fits, compute_sweep_fee. intros Hs.
  pose proof (txout_weight_range (destination_script_len params)).
  pose proof (tx_weight_range (make_tx 2 [] [])).
  pose proof (uadd_nonneg p2tr_key_path_input_weight (single_cpfp_input_weight params)).
  fold sweep_leaf_weight in *. unfold output_weight, tx_overhead_weight, in_uint in *.
  rewrite (uadd_small 64 (_ * _)) by nia. by rewrite uadd_small by nia.
Qed.

Lemma sweep_weight_mul n :
  sweep_fits n → saturating_mul 64 (Z.of_nat n) sweep_leaf_weight = Z.of_nat n * sweep_leaf_weight.
Proof.
  unfold sweep_fits. pose proof (txout_weight_range (destination_script_len params)).
  pose proof (tx_weight_range (make_tx 2 [] [])).
  pose proof (uadd_nonneg p2tr_key_path_input_weight (single_cpfp_input_weight params)).
  fold sweep_leaf_weight in *. unfold output_weight, tx_overhead_weight, in_uint in *.
  intros. apply saturating_mul_exact. nia.
Qed.

Lemma sweep_weight_succ n :
  sweep_fits (S n) →
  saturating_mul 64 (saturating_add 64 (Z.of_nat n) 1) sweep_leaf_weight =
    Z.of_nat (S n) * sweep_leaf_weight.
Proof.
  intros Hs. rewrite <- sweep_weight_mul by done. unfold saturating_add, saturating_mul.
  pose proof (uadd_nonneg p2tr_key_path_input_weight (single_cpfp_input_weight params)).
  fold sweep_leaf_weight in *. destruct (Z.le_gt_cases (Z.of_nat n + 1) (2 ^ 64 - 1)).
  - do 2 f_equal. lia.
  - destruct (decide (sweep_leaf_weight = 0)) as [->|]; [by rewrite !Z.mul_0_r|].
    pose proof (txout_weight_range (destination_script_len params)).
    pose proof (tx_weight_range (make_tx 2 [] [])).
    unfold sweep_fits, output_weight, tx_overhead_weight, in_uint in *. nia.
Qed.

Lemma sweep_total_mono n m : (n ≤ m)%nat → sweep_fits m → sweep_total n ≤ sweep_total m.
Proof using Hrate.
  intros Hnm Hm. pose proof (sweep_fits_le n m Hnm Hm).
  pose proof (uadd_nonneg p2tr_key_path_input_weight (single_cpfp_input_weight params)) as Hnn.
  fold sweep_leaf_weight in Hnn.
  destruct n as [|n]; [destruct m; [done|by apply sweep_fee_nonneg]|]. destruct m as [|m]; [lia|].
  unfold sweep_total. rewrite !sweep_weight_exact by done. apply fee_sat_mono; [done|]. nia.
Qed.

(** The shares telescope: a leaf's is what the sweep grows by. *)
Lemma leaf_sweep_cost_exact n :
  sweep_fits (S n) → leaf_sweep_cost params n = sweep_total (S n) - sweep_total n.
Proof using Hrate.
  intros Hs. pose proof (sweep_total_mono n (S n) ltac:(lia) Hs).
  pose proof (sweep_fits_le n (S n) ltac:(lia) Hs) as Hs'.
  unfold leaf_sweep_cost. fold sweep_leaf_weight. destruct n as [|n]; cbn [sweep_total].
  { replace (Z.of_nat 1 * sweep_leaf_weight) with sweep_leaf_weight by lia. lia. }
  rewrite sweep_weight_succ, sweep_weight_mul by done. unfold saturating_sub.
  unfold sweep_total in *. lia.
Qed.

Lemma leaf_sweep_cost_nonneg n : 0 ≤ leaf_sweep_cost params n.
Proof using Hrate.
  unfold leaf_sweep_cost. destruct n; [by apply sweep_fee_nonneg|]. unfold saturating_sub. lia.
Qed.

Lemma leaf_cpfp_cost_nonneg covered i refund chain :
  0 ≤ leaf_cpfp_cost params oc covered i refund chain.
Proof using Hrate.
  rewrite leaf_cpfp_cost_fees. rewrite sat_sum_min by (try lia; by apply chain_fees_nonneg).
  pose proof (sumZ_nonneg _ (chain_fees_nonneg (change_script_len params) rate
    (initial_cpfp_input_weight params) (single_cpfp_input_weight params)
    (drive_txs oc covered i refund chain) Hrate)). lia.
Qed.

Lemma saturating_add_unsaturated a b :
  saturating_add 64 a b < 2 ^ 64 - 1 → saturating_add 64 a b = a + b.
Proof. unfold saturating_add. lia. Qed.

(** What the selected leaves drive, and the sum of their sweep shares. *)
Lemma costed_sweep sel covered :
  costed nodes params oc sel covered → unsaturated sel → sweep_fits (length sel) →
  sumZ ((λ l, saturating_sub (estimated_cost l) (cpfp_cost l)) <$> sel) = sweep_total (length sel) ∧
  Forall (λ l, 0 ≤ cpfp_cost l ≤ estimated_cost l) sel.
Proof using Hrate.
  induction 1 as [|sel cov i leaf refund chain Hc IH Hi Hr Hw]; [done|].
  intros [Hu Hl]%Forall_app Hs. rewrite length_app in Hs. simpl in Hs.
  replace (length sel + 1)%nat with (S (length sel)) in Hs by lia.
  destruct IH as [Hsum Hpos]; [done|eapply sweep_fits_le; [|done]; lia|].
  rewrite Forall_singleton in Hl. unfold entry_of in *. simpl in Hl.
  pose proof (leaf_cpfp_cost_nonneg cov i refund chain). pose proof (leaf_sweep_cost_nonneg (length sel)).
  pose proof (saturating_add_unsaturated _ _ Hl) as He.
  split.
  - rewrite fmap_app, sumZ_app, Hsum, length_app. simpl. rewrite He, Nat.add_1_r.
    rewrite (leaf_sweep_cost_exact (length sel)) by done.
    pose proof (sweep_total_mono (length sel) (S (length sel)) ltac:(lia) Hs).
    unfold saturating_sub. lia.
  - apply Forall_app. split; [done|]. apply Forall_singleton. simpl. lia.
Qed.

(** A node of the chain of a selected leaf. *)
Definition on_exit_path (sel : list UnilateralExitSelectedLeaf) (n : TreeNode) : Prop :=
  ∃ l leaf chain, l ∈ sel ∧ nodes !! sl_id l = Some leaf ∧
    walk_unilateral_exit_chain nodes leaf = Ok chain ∧ n ∈ chain.

(** The refund transactions the exit drives. *)
Definition refunds_of (sel : list UnilateralExitSelectedLeaf) : list Transaction :=
  omap (λ l, leaf ← nodes !! sl_id l; refund ← refund_tx leaf;
             if has_refund oc (sl_id l) then None else Some refund) sel.

Definition distinct_txids : Prop :=
  ∀ i j n m, nodes !! i = Some n → nodes !! j = Some m →
    compute_txid (node_tx n) = compute_txid (node_tx m) → n = m.

Lemma chain_in_map i leaf chain n :
  nodes !! i = Some leaf → walk_unilateral_exit_chain nodes leaf = Ok chain → n ∈ chain →
  ∃ j, nodes !! j = Some n.
Proof using.
  intros Hi (p & Hp & ->)%walk_exit_chain_path. rewrite reverse_Permutation.
  intros [->|([j m] & -> & Hj)%list_elem_of_fmap]%elem_of_cons; [by exists i|].
  exists j. by eapply path_lookup.
Qed.

Lemma chain_NoDup i leaf chain :
  well_keyed nodes → nodes !! i = Some leaf → walk_unilateral_exit_chain nodes leaf = Ok chain →
  NoDup chain.
Proof using.
  intros Hk Hi Hw. pose proof (Hk _ _ Hi) as Hid. subst i.
  destruct (walk_exit_chain_path _ _ _ Hw) as (p & Hp & ->).
  destruct (walk_ancestors_chain leaf nodes Hk Hi p Hp) as (_ & Hnd & _).
  rewrite reverse_Permutation. by eapply NoDup_fmap_1.
Qed.

Lemma sat_sum_unsaturated l : Forall (λ x, 0 ≤ x) l → sat_sum 64 l < 2 ^ 64 - 1 → sat_sum 64 l = sumZ l.
Proof. intros Hl. rewrite sat_sum_min by (try lia; done). lia. Qed.

Local Abbreviation node_fee :=
  (child_fee (change_script_len params) rate (single_cpfp_input_weight params)).

(** Each node that is still to be built is charged to exactly one leaf, however
    many of the selected leaves it is an ancestor of. *)
Lemma costed_cpfp sel covered :
  well_keyed nodes → distinct_txids →
  initial_cpfp_input_weight params = single_cpfp_input_weight params →
  costed nodes params oc sel covered → unsaturated sel →
  (∀ t, t ∈ covered ↔ ∃ n, on_exit_path sel n ∧ compute_txid (node_tx n) = t) ∧
  ∃ charged,
    NoDup charged ∧ (∀ n, n ∈ charged ↔ on_exit_path sel n ∧ counted_on_chain oc n = false) ∧
    sumZ (cpfp_cost <$> sel) = sumZ (node_fee <$> ((node_tx <$> charged) ++ refunds_of sel)).
Proof using Hrate.
  intros Hk Hdist Hw0. induction 1 as [|sel cov i leaf refund chain Hc IH Hi Hr Hw]; intros Hu.
  { split; [intros t; split; [set_solver|]; intros (n & (l & ? & ? & ?%elem_of_nil & _) & _); done|].
    exists []. split_and!; [constructor| |done]. intros n.
    split; [by intros ?%elem_of_nil|]. by intros [(l & ? & ? & ?%elem_of_nil & _) _]. }
  apply Forall_app in Hu as [Hu Hl]. rewrite Forall_singleton in Hl.
  destruct (IH Hu) as (Hcov & charged & Hnd & Hch & Hsum). clear IH.
  set (e := entry_of params oc (length sel) cov i leaf refund chain) in *.
  assert (∀ n, on_exit_path (sel ++ [e]) n ↔ on_exit_path sel n ∨ n ∈ chain) as Hpath.
  { intros n. split.
    - intros (l & lf & c & [Hin|Hin]%elem_of_app & Hlf & Hwc & Hn); [left; by exists l, lf, c|].
      apply list_elem_of_singleton in Hin as ->. simpl in Hlf. right. congruence.
    - intros [(l & lf & c & ? & ? & ? & ?)|Hn].
      + exists l, lf, c. split_and!; [set_solver|done..].
      + exists e, leaf, chain. split_and!; [set_solver|done..]. }
  assert (∀ n m, on_exit_path sel n → m ∈ chain →
    compute_txid (node_tx n) = compute_txid (node_tx m) → n = m) as Hinj.
  { intros n m (l & lf & c & _ & Hlf & Hwc & Hn) Hm.
    destruct (chain_in_map _ _ _ _ Hlf Hwc Hn), (chain_in_map _ _ _ _ Hi Hw Hm). by eapply Hdist. }
  split.
  { intros t. rewrite elem_of_union, Hcov. unfold chain_txids. rewrite elem_of_list_to_set, list_elem_of_fmap.
    setoid_rewrite Hpath. naive_solver. }
  exists (charged ++ to_charge oc cov chain). split_and!.
  - apply NoDup_app. split_and!; [done| |by apply NoDup_filter; eapply chain_NoDup].
    intros n [Hn _]%Hch [[Hnc _] _]%list_elem_of_filter. apply Hnc, Hcov. by exists n.
  - intros n. rewrite elem_of_app, Hch, Hpath. unfold to_charge. rewrite list_elem_of_filter.
    split; [naive_solver|]. intros [[?|Hn] ?]; [by left; split|].
    destruct (decide (compute_txid (node_tx n) ∈ cov)) as [(m & Hm & Heq)%Hcov|]; [left|by right].
    by rewrite <- (Hinj m n Hm Hn Heq) in *.
  - unfold refunds_of. rewrite omap_app, !fmap_app, !sumZ_app, Hsum. csimpl. rewrite Hi. simpl. rewrite Hr. simpl.
    rewrite !fmap_app, !sumZ_app. unfold refunds_of.
    subst e. unfold entry_of in *. simpl in Hl |- *.
    pose proof (leaf_cpfp_cost_nonneg cov i refund chain). pose proof (leaf_sweep_cost_nonneg (length sel)).
    pose proof (saturating_add_unsaturated _ _ Hl) as Hadd.
    assert (leaf_cpfp_cost params oc cov i refund chain < 2 ^ 64 - 1) as Hlt by lia.
    rewrite leaf_cpfp_cost_fees, Hw0 in Hlt |- *.
    rewrite sat_sum_unsaturated in Hlt |- * by (done || by apply chain_fees_nonneg).
    rewrite chain_fees_same. unfold drive_txs. rewrite fmap_app, sumZ_app.
    destruct (has_refund oc i); simpl; lia.
Qed.
End costs.

(** ** The quote *)

Section quote.
Context {B : Bitcoin} {BT : BitcoinTx}.

Lemma sumZ_elem_le l x : Forall (λ x, 0 ≤ x) l → x ∈ l → x ≤ sumZ l.
Proof.
  intros Hl Hx. pose proof (sumZ_submseteq [x] l Hl) as Hle. simpl in Hle.
  rewrite Z.add_0_r in Hle. apply Hle. by apply singleton_submseteq_l.
Qed.

Lemma costed_nonneg nodes params oc sel covered :
  0 ≤ fee_rate_sat_per_kw params → costed nodes params oc sel covered →
  Forall (λ l, 0 ≤ cpfp_cost l ∧ 0 ≤ estimated_cost l) sel.
Proof.
  intros Hr. induction 1; [constructor|]. apply Forall_app. split; [done|].
  apply Forall_singleton. simpl.
  pose proof (leaf_cpfp_cost_nonneg params oc Hr covered i refund chain).
  pose proof (leaf_sweep_cost_nonneg params Hr (length sel)). unfold saturating_add. lia.
Qed.

(** Branch funding that does not saturate is the cost plus the change. *)
Lemma branch_funding_exact sel dust :
  0 ≤ dust → Forall (λ l, 0 ≤ cpfp_cost l ∧ 0 ≤ estimated_cost l) sel →
  sat_sum 64 ((λ l, branch_required_funding l dust) <$> sel) < 2 ^ 64 - 1 →
  unsaturated sel ∧
  (λ l, branch_required_funding l dust) <$> sel = (λ l, estimated_cost l + dust) <$> sel ∧
  sat_sum 64 ((λ l, branch_required_funding l dust) <$> sel) =
    sumZ (estimated_cost <$> sel) + Z.of_nat (length sel) * dust.
Proof.
  intros Hd Hnn Hs.
  assert (Forall (λ x, 0 ≤ x) ((λ l, branch_required_funding l dust) <$> sel)) as Hpos.
  { rewrite Forall_fmap. eapply Forall_impl; [exact Hnn|]. intros l [_ ?]. simpl.
    unfold branch_required_funding, saturating_add. lia. }
  pose proof (sat_sum_unsaturated _ Hpos Hs) as Hsum. rewrite Hsum in Hs |- *.
  assert (Forall (λ l, branch_required_funding l dust < 2 ^ 64 - 1) sel) as Hlt.
  { apply Forall_forall. intros l Hl.
    pose proof (sumZ_elem_le _ _ Hpos (list_elem_of_fmap_2 (λ l, branch_required_funding l dust) _ _ Hl)). lia. }
  assert ((λ l, branch_required_funding l dust) <$> sel = (λ l, estimated_cost l + dust) <$> sel) as Heq.
  { apply list_fmap_ext. intros k l Hl. rewrite Forall_lookup in Hlt. specialize (Hlt _ _ Hl).
    unfold branch_required_funding in *. by apply saturating_add_unsaturated. }
  split_and!; [|done|].
  - eapply Forall_impl; [exact Hlt|]. intros l. unfold branch_required_funding, saturating_add. lia.
  - rewrite Heq, sumZ_fmap_add. f_equal. clear. induction sel; csimpl; lia.
Qed.

(** The figures of a quote that selects some leaf, as the code computes them. *)
Lemma quote_figures nodes ids flt weight out_len dust rate dest_len oc q :
  quote_unilateral_exit nodes ids flt weight out_len dust rate dest_len oc = Ok q →
  let params := {|
    initial_cpfp_input_weight := weight; single_cpfp_input_weight := weight;
    change_script_len := out_len; destination_script_len := dest_len;
    fee_rate_sat_per_kw := rate |} in
  let sel := quote_selected_leaves q in
  let n := length sel in
  (∃ cov, costed nodes params oc sel cov) ∧
  match sel with
  | [] => total_fee_sat q = 0 ∧ quote_cpfp_fee_sat q = 0 ∧ quote_fanout_fee_sat q = 0 ∧
      quote_sweep_fee_sat q = 0 ∧ single_utxo_funding_sat q = 0 ∧ quote_per_branch_funding q = []
  | _ =>
      quote_cpfp_fee_sat q = sat_sum 64 (cpfp_cost <$> sel) ∧
      quote_sweep_fee_sat q =
        sat_sum 64 ((λ l, saturating_sub (estimated_cost l) (cpfp_cost l)) <$> sel) ∧
      quote_fanout_fee_sat q =
        (if (n =? 1)%nat then 0 else fan_out_fee weight out_len (Z.of_nat n) rate) ∧
      quote_per_branch_funding q = (λ l, (sl_id l, branch_required_funding l dust)) <$> sel ∧
      single_utxo_funding_sat q =
        saturating_add 64 (sat_sum 64 ((λ l, branch_required_funding l dust) <$> sel))
          (quote_fanout_fee_sat q) ∧
      total_fee_sat q = saturating_add 64 (saturating_add 64 (quote_cpfp_fee_sat q)
          (quote_fanout_fee_sat q)) (quote_sweep_fee_sat q)
  end.
Proof.
  intros Hq. unfold quote_unilateral_exit in Hq.
  apply bind_Ok in Hq as (sel & He & Hq). destruct (evaluate_ok _ _ _ _ _ _ He) as (cov & Hc & _ & _).
  destruct sel as [|l0 ls]; injection Hq as <-; cbv zeta.
  - split; [by exists cov|]. by split_and!.
  - split; [by exists cov|]. cbn [quote_selected_leaves]. split_and!; try done.
    simpl. by rewrite <- list_fmap_compose.
Qed.

(** The sums a quote is made of, when the branches' funding does not saturate. *)
Lemma quote_sums nodes params oc sel cov dust :
  0 ≤ fee_rate_sat_per_kw params → 0 ≤ dust → costed nodes params oc sel cov →
  sweep_fits params (length sel) →
  sat_sum 64 ((λ l, branch_required_funding l dust) <$> sel) < 2 ^ 64 - 1 →
  unsaturated sel ∧
  sat_sum 64 (cpfp_cost <$> sel) = sumZ (cpfp_cost <$> sel) ∧ 0 ≤ sumZ (cpfp_cost <$> sel) ∧
  sat_sum 64 ((λ l, saturating_sub (estimated_cost l) (cpfp_cost l)) <$> sel) =
    sweep_total params (length sel) ∧ 0 ≤ sweep_total params (length sel) ∧
  (λ l, branch_required_funding l dust) <$> sel = (λ l, estimated_cost l + dust) <$> sel ∧
  sat_sum 64 ((λ l, branch_required_funding l dust) <$> sel) =
    sumZ (cpfp_cost <$> sel) + sweep_total params (length sel) + Z.of_nat (length sel) * dust.
Proof.
  intros Hr Hd Hc Hfit Hsat. pose proof (costed_nonneg nodes params oc sel cov Hr Hc) as Hnn.
  destruct (branch_funding_exact sel dust Hd Hnn Hsat) as (Hun & Hbf & Hbs).
  destruct (costed_sweep nodes params oc Hr _ _ Hc Hun Hfit) as [Hsweep Hle].
  assert (sumZ (estimated_cost <$> sel) = sumZ (cpfp_cost <$> sel) + sweep_total params (length sel)) as Hest.
  { rewrite <- Hsweep, <- sumZ_fmap_add. f_equal. apply list_fmap_ext. intros k l Hl.
    rewrite Forall_lookup in Hle. specialize (Hle _ _ Hl). unfold saturating_sub. lia. }
  assert (Forall (λ x, 0 ≤ x) (cpfp_cost <$> sel)) as Hcpos.
  { rewrite Forall_fmap. eapply Forall_impl; [exact Hnn|]. by intros l [? _]. }
  assert (0 ≤ sumZ (cpfp_cost <$> sel)) by by apply sumZ_nonneg.
  assert (0 ≤ sweep_total params (length sel)).
  { unfold sweep_total. destruct (length sel); [done|]. by apply sweep_fee_nonneg. }
  assert (0 ≤ Z.of_nat (length sel) * dust) by nia.
  split_and!; [done|apply sat_sum_exact; [lia|done|lia]|done| |done|done|lia].
  rewrite <- Hsweep. apply sat_sum_exact; [lia| |lia].
  rewrite Forall_fmap. apply Forall_true. intros l. simpl. unfold saturating_sub. lia.
Qed.

(** C30: A quote adds up. The CPFP fee is the exact package fee of the nodes on the
    selected leaves' chains that are neither confirmed in the chain state nor labelled
    [OnChain], each once however many of the leaves share it, and of the selected
    leaves' refunds that the chain state does not have; where every labelled node is
    in the chain state, the nodes charged are those the chain state does not have.
    A leaf whose exit has stopped is charged like any other, so this is what the
    quote charges, not what a build makes children for. The sweep shares telescope
    to the fee of the one sweep that spends all the leaves; the total is the CPFP and
    sweep fees with the fan-out fee; each branch asks for its cost and one change
    output; and one UTXO of the quoted size covers the total fee and a change output
    per branch. It takes nodes with distinct txids and figures below the [u64] limit. *)
Theorem quote_adds_up nodes ids flt weight out_len dust rate dest_len oc q :
  well_keyed nodes → distinct_txids nodes → 0 ≤ rate → 0 ≤ dust →
  quote_unilateral_exit nodes ids flt weight out_len dust rate dest_len oc = Ok q →
  let params := {|
    initial_cpfp_input_weight := weight; single_cpfp_input_weight := weight;
    change_script_len := out_len; destination_script_len := dest_len;
    fee_rate_sat_per_kw := rate |} in
  let sel := quote_selected_leaves q in
  let n := length sel in
  sweep_fits params n → single_utxo_funding_sat q < 2 ^ 64 - 1 →
  (∃ charged, NoDup charged ∧
     (∀ m, m ∈ charged ↔ on_exit_path nodes sel m ∧ counted_on_chain oc m = false) ∧
     ((∀ m, on_exit_path nodes sel m → status m = TreeNodeStatus.OnChain → has_node oc (id m) = true) →
      ∀ m, m ∈ charged ↔ on_exit_path nodes sel m ∧ has_node oc (id m) = false) ∧
     quote_cpfp_fee_sat q = sumZ (child_fee out_len rate weight <$>
                                    ((node_tx <$> charged) ++ refunds_of nodes oc sel))) ∧
  quote_sweep_fee_sat q = sweep_total params n ∧
  quote_fanout_fee_sat q =
    (if (n <=? 1)%nat then 0 else fan_out_fee weight out_len (Z.of_nat n) rate) ∧
  total_fee_sat q = quote_cpfp_fee_sat q + quote_fanout_fee_sat q + quote_sweep_fee_sat q ∧
  quote_per_branch_funding q = (λ l, (sl_id l, estimated_cost l + dust)) <$> sel ∧
  single_utxo_funding_sat q = total_fee_sat q + Z.of_nat n * dust.
Proof.
  intros Hk Hdist Hr Hd Hq params sel n Hfit Hsat.
  destruct (quote_figures _ _ _ _ _ _ _ _ _ _ Hq) as [[cov Hc] Hfig].
  fold params sel in Hc, Hfig. fold n in Hfig. clear Hq.
  destruct (decide (sel = [])) as [Hnil|Hne].
  { subst n. rewrite Hnil in *. destruct Hfig as (-> & -> & -> & -> & -> & ->). split_and!; try done. exists [].
    assert (∀ b m, m ∈ [] ↔ on_exit_path nodes [] m ∧ b = false) as Hno.
    { intros c m. split; [by intros ?%elem_of_nil|]. by intros [(? & ? & ? & ?%elem_of_nil & _) _]. }
    split_and!; [constructor|intros m; apply Hno|intros _ m; apply Hno|done]. }
  assert ((1 <= n)%nat) as Hlen by (subst n; destruct sel; [done|simpl; lia]).
  clearbody sel. destruct sel as [|l0 ls]; [done|]. set (sel := l0 :: ls) in *. clearbody sel.
  destruct Hfig as (Qc & Qs & Qf & Qb & Qu & Qt).
  assert (0 ≤ quote_fanout_fee_sat q) as Hfo.
  { rewrite Qf. destruct (n =? 1)%nat; [done|]. by apply fee_sat_nonneg, uadd_nonneg. }
  rewrite Qu in Hsat. pose proof (saturating_add_unsaturated _ _ Hsat) as Hu1. rewrite Hu1 in Hsat, Qu.
  destruct (quote_sums nodes params oc sel cov dust Hr Hd Hc Hfit ltac:(lia))
    as (Hun & Ec & Hc0 & Es & Hs0 & Hbf & Hbs).
  destruct (costed_cpfp nodes params oc Hr _ _ Hk Hdist eq_refl Hc Hun) as (_ & charged & Hnd & Hch & Hcp).
  rewrite <- Qc in Ec. rewrite <- Qs in Es. fold n in Es, Hs0, Hbs. rewrite Ec, Es in Qt.
  assert (0 ≤ Z.of_nat n * dust) by nia.
  rewrite (saturating_add_exact 64 (sumZ _)) in Qt by lia. rewrite saturating_add_exact in Qt by lia.
  split_and!.
  - exists charged. split_and!; [done|done| |by rewrite Ec, Hcp].
    intros Hlabel m. rewrite Hch. split; intros [Hm Hon]; (split; [done|]);
      unfold counted_on_chain in *; [by apply orb_false_iff in Hon as [? _]|].
    apply orb_false_iff. split; [done|]. apply bool_decide_eq_false. intros Hst.
    by rewrite (Hlabel m Hm Hst) in Hon.
  - done.
  - rewrite Qf. destruct n as [|[|?]]; [lia|done|done].
  - lia.
  - rewrite Qb. apply list_fmap_ext. intros k l Hl. f_equal.
    apply (f_equal (.!! k)) in Hbf. rewrite !list_lookup_fmap, Hl in Hbf. by injection Hbf.
  - lia.
Qed.
End quote.
