(* ===== verification/ExitFundingSpec.v ===== *)
(** * Correctness of unilateral exit funding

    CPFP children pay exact fees out of what they spend, along a whole chain; the
    greedy assignment splits the inputs without sharing one; the fan-out creates
    and loses nothing. *)

From S2P Require Import Prelude Bitcoin BitcoinTx TreeModel SparkTx ExitPlan ExitPlanSpec.

Section child.
Context {B : Bitcoin} {BT : BitcoinTx}.

Definition input_wf (i : CpfpInput) : Prop :=
  in_uint 64 (txout_value (witness_utxo i)) ∧ in_uint 64 (signed_input_weight i).

Definition values_of (inputs : list CpfpInput) : list Z :=
  (λ i, txout_value (witness_utxo i)) <$> inputs.

Lemma values_nonneg inputs : Forall input_wf inputs → Forall (λ x, 0 ≤ x) (values_of inputs).
Proof. unfold values_of. rewrite Forall_fmap. intros Hw. eapply Forall_impl; [exact Hw|]. by intros i [[? _] _]. Qed.

Lemma weights_nonneg inputs : Forall input_wf inputs → Forall (λ x, 0 ≤ x) (signed_input_weight <$> inputs).
Proof. rewrite Forall_fmap. intros Hw. eapply Forall_impl; [exact Hw|]. by intros i [_ [? _]]. Qed.

Lemma inputs_value_range inputs : Forall input_wf inputs → in_uint 64 (inputs_value inputs).
Proof.
  intros Hw. unfold inputs_value. fold (values_of inputs).
  pose proof (values_nonneg _ Hw) as Hnn. rewrite sat_sum_min by (try lia; done).
  pose proof (sumZ_nonneg _ Hnn). unfold in_uint. lia.
Qed.

Lemma inputs_value_one i : input_wf i → inputs_value [i] = txout_value (witness_utxo i).
Proof. intros [[? ?] _]. unfold inputs_value, sat_sum. simpl. apply saturating_add_exact. lia. Qed.

Lemma inputs_weight_one i : input_wf i → inputs_weight [i] = signed_input_weight i.
Proof. intros [_ [? ?]]. unfold inputs_weight, sat_sum. simpl. apply saturating_add_exact. lia. Qed.

(** ** PSBT inputs *)

Lemma set_witness_utxos_app from pre utxos rest :
  length pre = from → (length utxos ≤ length rest)%nat →
  set_witness_utxos from utxos (pre ++ rest) =
    pre ++ (Some <$> utxos) ++ drop (length utxos) rest.
Proof.
  revert from pre rest. induction utxos as [|u utxos IH]; intros from pre rest Hd Hl; [done|].
  destruct rest as [|r rest]; simpl in *; [lia|].
  rewrite insert_app_r_alt, Hd, Nat.sub_diag by lia. simpl.
  change (pre ++ Some u :: rest) with (pre ++ ([Some u] ++ rest)). rewrite app_assoc.
  rewrite IH; [by rewrite <- app_assoc|rewrite length_app; simpl; lia|lia].
Qed.

Lemma set_witness_utxos_all utxos n :
  length utxos = n → set_witness_utxos 0 utxos (replicate n None) = Some <$> utxos.
Proof.
  intros Hn. change (replicate n None) with ([] ++ replicate n (@None (TxOut ScriptBuf))).
  rewrite set_witness_utxos_app; [|done|rewrite length_replicate; lia].
  rewrite Hn, drop_ge by (rewrite length_replicate; lia). by rewrite app_nil_r.
Qed.

(** ** One CPFP child *)

Definition has_anchor (tx : Transaction) : bool := existsb is_ephemeral_anchor_output (tx_output tx).

Lemma find_anchor_some i outputs :
  existsb is_ephemeral_anchor_output outputs = true ↔ is_Some (find_anchor i outputs).
Proof.
  revert i. induction outputs as [|o outputs IH]; intros i; simpl; [split; [done|by intros [? ?]]|].
  destruct (is_ephemeral_anchor_output o); simpl; [split; [by eexists|done]|apply IH].
Qed.

Lemma find_anchor_lookup i outputs k o :
  find_anchor i outputs = Some (k, o) →
  (i ≤ k)%nat ∧ outputs !! (k - i)%nat = Some o ∧ is_ephemeral_anchor_output o = true.
Proof.
  revert i. induction outputs as [|x outputs IH]; intros i; simpl; [done|].
  destruct (is_ephemeral_anchor_output x) eqn:E.
  - intros [= <- <-]. by rewrite Nat.sub_diag.
  - intros (? & Hk & ?)%IH. split_and!; [lia| |done].
    replace (k - i)%nat with (S (k - S i)) by lia. done.
Qed.

(** The one change output: what the funding leaves after the fee. *)
Definition change_of (first : CpfpInput) (available fee : Z) : TxOut ScriptBuf :=
  mkTxOut (saturating_sub available fee) (script_pubkey (witness_utxo first)).

(** A CPFP child is built exactly when the funding covers the package fee and
    a change output that is not dust. It spends every funding input and the
    parent's anchor, knows what each of them is worth, pays exactly the fee for the
    requested rate, and returns the rest to the first input's script, ready to fund
    the next child; otherwise the error names what would have been enough. *)
Lemma build_cpfp_child_spec parent first rest rate :
  Forall input_wf (first :: rest) → 0 ≤ rate → has_anchor parent = true →
  let funding := first :: rest in
  let script := script_pubkey (witness_utxo first) in
  let dust := minimal_non_dust script in
  let fee := compute_cpfp_package_fee (tx_weight parent) (inputs_weight funding)
               (script_len script) rate in
  let available := inputs_value funding in
  0 < dust →
  match build_cpfp_child parent funding rate with
  | Ok child =>
      fee + dust ≤ available ∧ fee_sat_paid child = fee ∧
      ∃ k anchor,
        tx_output parent !! k = Some anchor ∧ is_ephemeral_anchor_output anchor = true ∧
        let tx := unsigned_tx (child_psbt child) in
        (previous_output <$> tx_input tx) =
          (outpoint <$> funding) ++ [mkOutPoint (compute_txid parent) (wrap 32 (Z.of_nat k))] ∧
        tx_output tx = [mkTxOut (available - fee) script] ∧
        psbt_inputs (child_psbt child) = Some <$> ((witness_utxo <$> funding) ++ [anchor]) ∧
        change_input child =
          mkCpfpInput (mkOutPoint (compute_txid tx) 0) (mkTxOut (available - fee) script)
            (signed_input_weight first)
  | Err e => available < fee + dust ∧
      e = ServiceError.InsufficientCpfpBudget (saturating_add 64 fee dust)
  end.
Proof.
  intros Hwf Hr Ha funding script dust fee available Hd. unfold build_cpfp_child.
  apply (find_anchor_some 0) in Ha as [[k anchor] Hk]. rewrite Hk. cbv beta iota zeta delta [ok_or mbind result_bind funding].
  pose proof (find_anchor_lookup _ _ _ _ Hk) as (_ & Hlk & Hanchor). rewrite Nat.sub_0_r in Hlk.
  pose proof (inputs_value_range _ Hwf) as Hrange. fold funding available in Hrange |- *.
  pose proof (package_fee_nonneg (tx_weight parent) (inputs_weight funding) (script_len script) rate Hr) as Hfee.
  fold script dust fee in Hfee |- *. unfold in_uint in Hrange.
  change (compute_cpfp_package_fee (tx_weight parent) (inputs_weight (first :: rest))
    (script_len (script_pubkey (witness_utxo first))) rate) with fee.
  change (minimal_non_dust (script_pubkey (witness_utxo first))) with dust.
  destruct (Z.ltb_spec (saturating_sub available fee) dust) as [Hlt|Hge].
  { split; [|done]. unfold saturating_sub in Hlt. lia. }
  unfold saturating_sub in Hge.
  assert (saturating_sub available fee = available - fee) as Hadj by (unfold saturating_sub; lia).
  rewrite Hadj, from_unsigned_make. unfold with_witness_utxos.
  cbn [fee_sat_paid child_psbt change_input unsigned_tx psbt_inputs].
  split_and!; [lia|done|].
  exists k, anchor. split_and!; [done|done| | | |done].
  - rewrite tx_input_make, fmap_app, <- list_fmap_compose. done.
  - apply tx_output_make. constructor; [|constructor]. simpl. unfold in_uint. lia.
  - apply set_witness_utxos_all. rewrite !length_app, !length_fmap. done.
Qed.
End child.

(** ** A chain of children *)

Section chain.
Context {B : Bitcoin} {BT : BitcoinTx}.

(** The weights of the packages stay clear of [u64]'s limit. *)
Definition packages_fit (l w0 w : Z) (txs : list Transaction) : Prop :=
  Forall (λ tx, tx_weight tx + Z.max w0 w + child_overhead l < 2 ^ 64) txs.

Lemma sumZ_sublist (f : Transaction → Z) txs' txs :
  (∀ tx, 0 ≤ f tx) → txs' `sublist_of` txs → sumZ (f <$> txs') ≤ sumZ (f <$> txs).
Proof.
  intros Hf. induction 1 as [|x l k _ IH|x l k _ IH]; csimpl; [done|lia|]. specialize (Hf x). lia.
Qed.

(** Driving fewer transactions never costs more, although the first of them then
    carries the weight of all the funding inputs. *)
Lemma chain_fees_sublist l r w0 w txs' txs :
  0 ≤ r → 0 ≤ w0 → 0 ≤ w → packages_fit l w0 w txs → txs' `sublist_of` txs →
  sumZ (chain_fees l r w0 w txs') ≤ sumZ (chain_fees l r w0 w txs).
Proof.
  intros Hr Hw0 Hw Hfit Hsub.
  assert (∀ v tx, 0 ≤ child_fee l r v tx) as Hnn by (intros; by apply package_fee_nonneg).
  destruct Hsub as [|x k' k Hk|x k' k Hk]; simpl; [done| |].
  - pose proof (sumZ_sublist (child_fee l r w) _ _ (Hnn w) Hk). lia.
  - destruct k' as [|t k'].
    + apply (sumZ_nonneg (_ :: _)). by apply (chain_fees_nonneg l r w0 w (x :: k)).
    + pose proof (sumZ_sublist (child_fee l r w) _ _ (Hnn w) Hk) as Hs. csimpl in Hs. simpl.
      apply Forall_cons in Hfit as [Hx Hfit].
      assert (tx_weight t + Z.max w0 w + child_overhead l < 2 ^ 64) as Ht.
      { rewrite Forall_forall in Hfit. apply Hfit. eapply elem_of_sublist; [left|done]. }
      pose proof (tx_weight_range x) as [? _]. pose proof (tx_weight_range t) as [? _].
      pose proof (child_overhead_nonneg l).
      assert (child_fee l r w0 t ≤ child_fee l r w0 x + child_fee l r w t); [|lia].
      unfold child_fee. rewrite !package_fee_exact by lia.
      etransitivity; [|apply fee_sat_subadd; lia]. apply fee_sat_mono; lia.
Qed.

(** The funding pays for children of all of [txs], one after the other, with a
    change output left. *)
Definition covers (rate : Z) (funding : list CpfpInput) (txs : list Transaction) : Prop :=
  ∃ first rest, funding = first :: rest ∧ Forall input_wf funding ∧
    let script := script_pubkey (witness_utxo first) in
    let dust := minimal_non_dust script in
    0 < dust ∧
    sumZ (chain_fees (script_len script) rate (inputs_weight funding) (signed_input_weight first) txs)
      + dust ≤ inputs_value funding.

Lemma covers_step rate funding tx txs :
  0 ≤ rate → has_anchor tx = true → covers rate funding (tx :: txs) →
  ∃ child, build_cpfp_child tx funding rate = Ok child ∧
    0 ≤ fee_sat_paid child ∧ covers rate [change_input child] txs ∧
    inputs_value [change_input child] = inputs_value funding - fee_sat_paid child.
Proof.
  intros Hr Ha (first & rest & -> & Hwf & Hd & Hsum). simpl in Hsum.
  pose proof (build_cpfp_child_spec tx first rest rate Hwf Hr Ha Hd) as Hspec. cbv zeta in Hspec.
  pose proof (Forall_inv Hwf) as [_ Hw].
  set (script := script_pubkey (witness_utxo first)) in *.
  assert (0 ≤ sumZ (child_fee (script_len script) rate (signed_input_weight first) <$> txs)) as Hnn.
  { apply sumZ_nonneg. rewrite Forall_fmap. apply Forall_true. intros. by apply package_fee_nonneg. }
  pose proof (package_fee_nonneg (tx_weight tx) (inputs_weight (first :: rest)) (script_len script) rate Hr) as Hfee.
  change (child_fee (script_len script) rate (inputs_weight (first :: rest)) tx) with
    (compute_cpfp_package_fee (tx_weight tx) (inputs_weight (first :: rest)) (script_len script) rate) in Hsum.
  set (fee := compute_cpfp_package_fee _ _ _ _) in *.
  pose proof (inputs_value_range _ Hwf) as Hrange. unfold in_uint in Hrange.
  destruct (build_cpfp_child tx (first :: rest) rate) as [child|e].
  2:{ exfalso. destruct Hspec as [? _]. simpl in *. lia. }
  destruct Hspec as (Hle & Hpaid & k & anchor & _ & _ & _ & _ & _ & Hchange).
  exists child. rewrite Hpaid.
  assert (input_wf (change_input child)) as Hcwf.
  { rewrite Hchange. split; [|done]. simpl. unfold in_uint. lia. }
  assert (inputs_value [change_input child] = inputs_value (first :: rest) - fee) as Hval.
  { rewrite inputs_value_one by done. by rewrite Hchange. }
  split_and!; [done|done| |done].
  exists (change_input child), []. split_and!; [done|by constructor|].
  cbv zeta. rewrite Hval, inputs_weight_one by done.
  replace (witness_utxo (change_input child)) with
    (mkTxOut (inputs_value (first :: rest) - fee) script) by (by rewrite Hchange).
  replace (signed_input_weight (change_input child)) with (signed_input_weight first)
    by (by rewrite Hchange).
  cbn [script_pubkey]. rewrite chain_fees_same. split; [done|]. lia.
Qed.

Lemma covers_sublist rate funding txs' txs :
  0 ≤ rate → txs' `sublist_of` txs →
  (∀ first rest, funding = first :: rest →
     packages_fit (script_len (script_pubkey (witness_utxo first))) (inputs_weight funding)
       (signed_input_weight first) txs) →
  covers rate funding txs → covers rate funding txs'.
Proof.
  intros Hr Hsub Hfit (first & rest & Hf & Hwf & Hd & Hsum).
  exists first, rest. split_and!; [done..|]. specialize (Hfit first rest Hf).
  pose proof (Forall_inv (eq_ind _ (Forall input_wf) Hwf _ Hf)) as [_ [? _]].
  assert (0 ≤ inputs_weight funding).
  { unfold inputs_weight. pose proof (weights_nonneg _ Hwf) as Hnn.
    rewrite sat_sum_min by (try lia; done). pose proof (sumZ_nonneg _ Hnn). lia. }
  pose proof (chain_fees_sublist (script_len (script_pubkey (witness_utxo first))) rate
    (inputs_weight funding) (signed_input_weight first) _ _ Hr ltac:(done) ltac:(done) Hfit Hsub).
  cbv zeta in Hsum |- *. split; [done|]. lia.
Qed.
End chain.

(** ** Sharing the inputs out *)

Section assign.
Context {B : Bitcoin} {BT : BitcoinTx}.
Implicit Types parts : list (list CpfpInput).

Lemma take_funding_some required left remaining sum assigned got rest :
  take_funding required left remaining sum assigned = Some (got, rest) →
  ∃ taken, got = assigned ++ taken ∧ remaining = taken ++ rest ∧
    required ≤ foldl (saturating_add 64) sum (values_of taken).
Proof.
  revert sum assigned. induction remaining as [|input remaining IH]; intros sum assigned; simpl.
  - destruct (Z.ltb_spec sum required); simpl; [done|]. intros [= <- <-].
    exists []. by rewrite app_nil_r.
  - destruct (Z.ltb_spec sum required); simpl.
    2:{ intros [= <- <-]. exists []. by rewrite app_nil_r. }
    case_match; [done|]. intros (taken & -> & -> & Hle)%IH.
    exists (input :: taken). by rewrite <- app_assoc.
Qed.

(** A branch's part covers what the branch asks for. *)
Definition funds (dust : Z) (leaf : UnilateralExitSelectedLeaf) (part : list CpfpInput) : Prop :=
  branch_required_funding leaf dust ≤ inputs_value part.

Lemma assign_loop_some dust leaves remaining m0 m :
  assign_loop dust leaves remaining m0 = Some m →
  ∃ parts rest, Forall2 (funds dust) leaves parts ∧ remaining = concat parts ++ rest ∧
    m = foldl (λ m p, <[p.1 := p.2]> m) m0 (zip (sl_id <$> leaves) parts).
Proof.
  revert remaining m0. induction leaves as [|leaf leaves IH]; intros remaining m0; simpl.
  - intros [= <-]. exists [], remaining. by split_and!.
  - rewrite bind_Some. intros ([part rest] & Htake & Hrec).
    apply take_funding_some in Htake as (taken & -> & -> & Hle). simpl in *.
    apply IH in Hrec as (parts & rest' & HF & -> & ->).
    exists (taken :: parts), rest'. split_and!; [by constructor| |done].
    simpl. by rewrite <- app_assoc.
Qed.

Lemma input_order_irrelevant_perm inputs : stable_sort input_order inputs ≡ₚ inputs.
Proof. apply stable_sort_perm. Qed.

(** Looking the parts up again, in another order. *)
Lemma remove_each_lookup ids : ∀ m, NoDup ids →
  remove_each m ids = (λ i, (i, default [] (m !! i))) <$> ids.
Proof.
  induction ids as [|i ids IH]; intros m; [done|]. intros [Hi Hnd]%NoDup_cons. csimpl. f_equal.
  rewrite IH by done. apply list_fmap_ext. intros k j Hj. f_equal.
  rewrite lookup_delete_ne; [done|]. intros ->. apply Hi. by eapply list_elem_of_lookup_2.
Qed.

Lemma insert_zip_lookup `{Countable K} {V} (ks : list K) (vs : list V) (m0 : gmap K V) k v :
  NoDup ks → length ks = length vs → (k, v) ∈ zip ks vs →
  foldl (λ m p, <[p.1 := p.2]> m) m0 (zip ks vs) !! k = Some v.
Proof.
  revert vs m0. induction ks as [|x ks IH]; intros [|y vs] m0 Hnd Hl; simpl in *; try done;
    [by intros ?%elem_of_nil|]. apply NoDup_cons in Hnd as [Hx Hnd].
  assert (∀ (l : list (K * V)) (m : gmap K V), k ∉ l.*1 → foldl (λ m p, <[p.1 := p.2]> m) m l !! k = m !! k) as Hskip.
  { induction l as [|[a b] l IHl]; intros m Hk; csimpl in *; [done|].
    rewrite IHl by set_solver. apply lookup_insert_ne. set_solver. }
  intros [[= -> ->]|Hin]%elem_of_cons.
  - rewrite Hskip; [apply lookup_insert_eq|]. rewrite fst_zip by lia. done.
  - apply IH; [done|lia|done].
Qed.

(** The parts, listed under the leaves in any order, are the same inputs. *)
Lemma reassemble (leaves sorted : list UnilateralExitSelectedLeaf) parts :
  NoDup (sl_id <$> leaves) → sorted ≡ₚ leaves → length parts = length sorted →
  let m : gmap TreeNodeId (list CpfpInput) :=
    foldl (λ m p, <[p.1 := p.2]> m) ∅ (zip (sl_id <$> sorted) parts) in
  (λ i, (i, default [] (m !! i))) <$> (sl_id <$> leaves) ≡ₚ zip (sl_id <$> sorted) parts.
Proof.
  intros Hnd Hp Hl m. assert (NoDup (sl_id <$> sorted)) as Hnds by (by rewrite Hp).
  rewrite <- Hp. assert (length (sl_id <$> sorted) = length parts) as Hlen by (rewrite length_fmap; lia).
  transitivity ((λ p : TreeNodeId * list CpfpInput, (p.1, default [] (m !! p.1))) <$> zip (sl_id <$> sorted) parts).
  - rewrite <- (fst_zip (sl_id <$> sorted) parts) at 1 by lia. by rewrite <- list_fmap_compose.
  - rewrite <- (list_fmap_id (zip _ parts)) at 2. apply Permutation_refl'. apply list_fmap_ext.
    intros k [i part] Hk. simpl. f_equal. unfold m.
    rewrite (insert_zip_lookup _ _ _ i part); [done|done|done|]. by eapply list_elem_of_lookup_2.
Qed.

(** The greedy assignment never spends an input twice and never underfunds a
    branch: it lists every selected leaf in order, the inputs of all branches
    together are part of the given ones, and each branch gets at least its cost and
    a change output. *)
Lemma assign_inputs_sound inputs selected dust assignment :
  NoDup (sl_id <$> selected) →
  assign_inputs_to_leaves inputs selected dust = Some assignment →
  assignment.*1 = sl_id <$> selected ∧ concat (assignment.*2) ⊆+ inputs ∧
  Forall2 (λ leaf branch, sl_id leaf = branch.1 ∧ funds dust leaf branch.2) selected assignment.
Proof.
  intros Hnd. unfold assign_inputs_to_leaves. case_match; [done|]. rewrite bind_Some.
  intros (m & Hloop & [= <-]).
  apply assign_loop_some in Hloop as (parts & rest & HF & Hrem & ->).
  set (sorted := stable_sort costliest_order selected) in *.
  assert (sorted ≡ₚ selected) as Hp by apply stable_sort_perm.
  pose proof (Forall2_length _ _ _ HF) as Hlen.
  rewrite remove_each_lookup by done.
  pose proof (reassemble selected sorted parts Hnd Hp ltac:(lia)) as Hre. cbv zeta in Hre.
  set (m := foldl _ ∅ _) in *. split_and!.
  - rewrite <- list_fmap_compose. apply list_fmap_id.
  - assert (concat ((λ i, (i, default [] (m !! i))) <$> (sl_id <$> selected)).*2 ≡ₚ concat parts) as Hc.
    { rewrite <- (snd_zip (sl_id <$> sorted) parts) by (rewrite length_fmap; lia).
      by rewrite Hre. }
    rewrite Hc, <- (input_order_irrelevant_perm inputs), Hrem. by apply submseteq_inserts_r.
  - rewrite <- list_fmap_compose. apply Forall2_fmap_r, Forall_Forall2_diag, Forall_forall.
    intros leaf Hin. simpl. split; [done|]. rewrite <- Hp in Hin.
    apply list_elem_of_lookup in Hin as [k Hk].
    destruct (Forall2_lookup_l _ _ _ _ _ HF Hk) as (part & Hpk & Hf).
    unfold m. rewrite (insert_zip_lookup _ _ _ (sl_id leaf) part); [done| | |].
    + by rewrite Hp.
    + rewrite length_fmap. lia.
    + eapply list_elem_of_lookup_2. rewrite lookup_zip_with, list_lookup_fmap, Hk. simpl. by rewrite Hpk.
Qed.
End assign.

(** ** The fan-out *)

Section fan_out.
Context {B : Bitcoin} {BT : BitcoinTx}.

Definition costs_nonneg (sel : list UnilateralExitSelectedLeaf) : Prop :=
  Forall (λ l, 0 ≤ estimated_cost l < 2 ^ 64) sel.

Lemma surplus_share_spec surplus total leaf :
  0 ≤ surplus < 2 ^ 64 → 0 ≤ estimated_cost leaf < 2 ^ 64 → estimated_cost leaf ≤ total →
  0 ≤ surplus_share surplus total leaf ∧
  surplus_share surplus total leaf * total ≤ surplus * estimated_cost leaf ∧
  surplus_share surplus total leaf ≤ surplus.
Proof.
  intros Hs He Ht. unfold surplus_share. destruct (Z.eqb_spec total 0) as [->|Hne]; [lia|].
  rewrite saturating_mul_exact by nia.
  set (s := surplus * estimated_cost leaf / total).
  assert (0 ≤ s) by (apply Z.div_pos; nia).
  assert (s * total ≤ surplus * estimated_cost leaf)
    by (rewrite Z.mul_comm; apply Z.mul_div_le; lia).
  assert (s ≤ surplus) by (apply Z.div_le_upper_bound; nia).
  destruct (Z.ltb_spec s (2 ^ 64)); [done|lia].
Qed.

Lemma surplus_shares_sum surplus sel :
  0 ≤ surplus < 2 ^ 64 → costs_nonneg sel →
  let total := sumZ (estimated_cost <$> sel) in
  let shares := surplus_share surplus total <$> sel in
  Forall (λ x, 0 ≤ x) shares ∧ sumZ shares ≤ surplus.
Proof.
  intros Hs Hc total shares.
  assert (Forall (λ x, 0 ≤ x) (estimated_cost <$> sel)) as Hnn.
  { rewrite Forall_fmap. eapply Forall_impl; [exact Hc|]. by intros l [? _]. }
  assert (∀ l, l ∈ sel → 0 ≤ surplus_share surplus total l ∧
    surplus_share surplus total l * total ≤ surplus * estimated_cost l ∧
    surplus_share surplus total l ≤ surplus) as Hsh.
  { intros l Hl. unfold costs_nonneg in Hc. rewrite Forall_forall in Hc.
    apply surplus_share_spec; [done|by apply Hc|]. apply sumZ_elem_le; [done|]. by apply list_elem_of_fmap_2. }
  assert (0 ≤ total) as Htot by by apply sumZ_nonneg.
  split; [subst shares; rewrite Forall_fmap, Forall_forall; intros l Hl; by apply Hsh|].
  destruct (decide (total = 0)) as [Hz|Hnz].
  - assert (sumZ shares = 0) as ->; [|lia]. subst shares. unfold surplus_share. rewrite Hz. simpl.
    clear. induction sel; csimpl; lia.
  - assert (sumZ shares * total ≤ surplus * total) as Hle; [|nia].
    assert (∀ k, k ⊆ sel → sumZ (surplus_share surplus total <$> k) * total ≤
      surplus * sumZ (estimated_cost <$> k)) as Hgen; [|by apply Hgen].
    induction k as [|l k IH]; intros Hk; csimpl; [lia|].
    destruct (Hsh l) as (_ & ? & _); [set_solver|]. specialize (IH ltac:(set_solver)). lia.
Qed.

(** The values of the fan-out's outputs add up to what there is to share, and each
    is at least what its branch asks for. *)
Lemma fan_out_values_spec surplus sel required :
  0 ≤ surplus → costs_nonneg sel → length required = length sel → sel ≠ [] →
  Forall (λ x, 0 ≤ x) required → sumZ required + surplus < 2 ^ 64 - 1 →
  sumZ (fan_out_values surplus sel required) = sumZ required + surplus ∧
  Forall2 (λ r v, r ≤ v < 2 ^ 64) required (fan_out_values surplus sel required).
Proof.
  intros Hs Hc Hl Hne Hr Hsum. pose proof (sumZ_nonneg _ Hr) as Hrs. unfold fan_out_values.
  destruct (Z.ltb_spec 0 surplus) as [Hpos|Hz].
  2:{ split; [lia|]. apply Forall_Forall2_diag, Forall_forall. intros x Hx.
      pose proof (sumZ_elem_le _ _ Hr Hx). lia. }
  destruct (surplus_shares_sum surplus sel ltac:(lia) Hc) as [Hsn Hss]. cbv zeta in Hsn, Hss.
  set (shares := surplus_share surplus _ <$> sel) in *.
  assert (length shares = length required) as Hls by (subst shares; rewrite length_fmap; lia).
  assert (sat_sum 64 shares = sumZ shares) as Hsat.
  { apply sat_sum_exact; [lia|done|]. lia. }
  rewrite Hsat. clearbody shares. pose proof (sumZ_nonneg _ Hsn).
  destruct required as [|r required]; [destruct sel; [done|discriminate Hl]|].
  destruct shares as [|s shares]; [done|]. simpl.
  apply Forall_cons in Hr as [Hr0 Hr], Hsn as [Hs0 Hsn]. simpl in *.
  pose proof (sumZ_nonneg _ Hr). pose proof (sumZ_nonneg _ Hsn).
  assert (sumZ (zip_with (saturating_add 64) required shares) = sumZ required + sumZ shares ∧
    Forall2 (λ r v, r ≤ v < 2 ^ 64) required (zip_with (saturating_add 64) required shares)) as [Hz HF].
  { assert (length shares = length required) as Hls' by lia.
    assert (sumZ required + sumZ shares < 2 ^ 64 - 1) as Hb by lia.
    clear -Hls' Hb Hr Hsn. revert shares Hls' Hb Hsn.
    induction Hr as [|r required Hr0 Hr IH]; intros [|s shares] Hl Hb Hsn; simpl in *; try done.
    apply Forall_cons in Hsn as [Hs0 Hsn]. pose proof (sumZ_nonneg _ Hr). pose proof (sumZ_nonneg _ Hsn).
    destruct (IH shares) as [-> HF]; [lia|lia|done|].
    rewrite saturating_add_exact by lia. split; [lia|]. constructor; [lia|done]. }
  unfold saturating_sub. rewrite Z.max_r by lia.
  rewrite (saturating_add_exact 64 r s) by lia. rewrite saturating_add_exact by lia.
  split; [lia|]. constructor; [lia|done].
Qed.

Lemma imap_lookup_entry {A C} (f : nat → A → C) l k y :
  imap f l !! k = Some y ↔ ∃ x, l !! k = Some x ∧ y = f k x.
Proof. rewrite list_lookup_imap. destruct (l !! k); naive_solver. Qed.

Lemma fmap_imap_forget {A C D} (f : nat → A → C) (g : C → D) (h : A → D) l :
  (∀ k x, g (f k x) = h x) → g <$> imap f l = h <$> l.
Proof.
  intros Hgh. apply list_eq. intros k. rewrite !list_lookup_fmap, list_lookup_imap.
  destruct (l !! k); simpl; [by rewrite Hgh|done].
Qed.

(** The fan-out is built exactly when the inputs cover every branch's cost and
    change together with the fan-out's own fee. It spends every input, has one
    output per branch, in order, each worth at least what its branch asks for, and
    nothing is lost: the outputs and the fee add up to the inputs, the surplus
    being shared out among the branches. *)
Lemma build_fan_out_spec first rest sel rate dust :
  let inputs := first :: rest in
  let script := script_pubkey (witness_utxo first) in
  let fee := fan_out_fee (inputs_weight inputs) (script_len script) (Z.of_nat (length sel)) rate in
  let required := (λ l, branch_required_funding l dust) <$> sel in
  Forall input_wf inputs → inputs_value inputs < 2 ^ 64 - 1 → 0 ≤ rate → 0 ≤ dust →
  costs_nonneg sel → sel ≠ [] →
  match build_fan_out_psbt inputs sel rate dust with
  | Err e =>
      let needed := saturating_add 64 (sat_sum 64 required) fee in
      inputs_value inputs < needed ∧ e = ServiceError.InsufficientCpfpBudget needed
  | Ok (psbt, per_leaf) =>
      let tx := unsigned_tx psbt in
      (previous_output <$> tx_input tx) = (outpoint <$> inputs) ∧
      psbt_inputs psbt = Some <$> (witness_utxo <$> inputs) ∧
      per_leaf.*1 = sl_id <$> sel ∧
      tx_output tx = (λ p, witness_utxo p.2) <$> per_leaf ∧
      sumZ (txout_value <$> tx_output tx) + fee = inputs_value inputs ∧
      (∀ k p, per_leaf !! k = Some p →
         outpoint p.2 = mkOutPoint (compute_txid tx) (wrap 32 (Z.of_nat k))) ∧
      Forall2 (λ leaf p, input_wf p.2 ∧ funds dust leaf [p.2] ∧
                 signed_input_weight p.2 = signed_input_weight first ∧
                 script_pubkey (witness_utxo p.2) = script) sel per_leaf
  end.
Proof.
  intros inputs script fee required Hwf Hval Hr Hd Hc Hne.
  unfold build_fan_out_psbt. subst inputs. destruct sel as [|l0 sel0]; [done|].
  set (sel := l0 :: sel0) in *.
  fold script required. change (fan_out_fee _ _ _ rate) with fee.
  set (inputs := first :: rest) in *.
  assert (0 ≤ fee) as Hfee by (by apply fee_sat_nonneg, uadd_nonneg).
  assert (Forall (λ x, 0 ≤ x) required) as Hreq.
  { subst required. rewrite Forall_fmap. eapply Forall_impl; [exact Hc|]. intros l [? _]. simpl.
    unfold branch_required_funding, saturating_add. lia. }
  pose proof (inputs_value_range _ Hwf) as [Hv0 _].
  destruct (Z.ltb_spec (inputs_value inputs) (saturating_add 64 (sat_sum 64 required) fee))
    as [Hlt|Hge]; [done|].
  pose proof (saturating_add_unsaturated (sat_sum 64 required) fee ltac:(lia)) as Hneed.
  assert (sat_sum 64 required = sumZ required) as Hsum.
  { apply sat_sum_unsaturated; [done|]. lia. }
  rewrite Hneed, Hsum in Hge. rewrite Hsum. pose proof (sumZ_nonneg _ Hreq).
  replace (saturating_sub (saturating_sub (inputs_value inputs) (sumZ required)) fee)
    with (inputs_value inputs - sumZ required - fee) by (unfold saturating_sub; lia).
  set (surplus := inputs_value inputs - sumZ required - fee).
  destruct (fan_out_values_spec surplus sel required) as [Hvsum HF];
    [lia|done|by subst required; rewrite length_fmap|done|done|lia|].
  set (values := fan_out_values surplus sel required) in *.
  assert (length values = length sel) as Hlen.
  { apply Forall2_length in HF. subst required. rewrite length_fmap in HF. lia. }
  rewrite from_unsigned_make. unfold with_witness_utxos. cbn [unsigned_tx psbt_inputs].
  assert (tx_output (make_tx 2 ((λ i, mkTxIn (outpoint i) ENABLE_RBF_NO_LOCKTIME) <$> inputs)
    ((λ v, mkTxOut v script) <$> values)) = (λ v, mkTxOut v script) <$> values) as Hout.
  { apply tx_output_make. rewrite Forall_fmap. apply Forall_lookup. intros k v Hv. simpl.
    destruct (Forall2_lookup_r _ _ _ _ _ HF Hv) as (r & Hrk & Hrv).
    rewrite Forall_lookup in Hreq. specialize (Hreq _ _ Hrk). unfold in_uint. lia. }
  rewrite Hout. set (txid := compute_txid _). split_and!.
  - by rewrite tx_input_make, <- list_fmap_compose.
  - apply set_witness_utxos_all. by rewrite !length_fmap.
  - rewrite (fmap_imap_forget _ _ (λ p, sl_id p.1)) by done.
    rewrite <- (fst_zip sel values) at 2 by lia. by rewrite <- list_fmap_compose.
  - rewrite (fmap_imap_forget _ _ (λ p, mkTxOut p.2 script)) by done.
    rewrite <- (snd_zip sel values) at 1 by lia. by rewrite <- list_fmap_compose.
  - rewrite <- list_fmap_compose. simpl. change (txout_value ∘ _) with (λ v : Z, v).
    rewrite list_fmap_id, Hvsum. unfold surplus. lia.
  - intros k p (x & _ & ->)%imap_lookup_entry. done.
  - apply Forall2_same_length_lookup. split; [rewrite length_imap, length_zip; lia|].
    intros k leaf p Hk (x & Hx & ->)%imap_lookup_entry. simpl.
    rewrite lookup_zip_with, Hk in Hx. destruct (values !! k) as [v|] eqn:Hv; simplify_eq/=.
    destruct (Forall2_lookup_r _ _ _ _ _ HF Hv) as (r & Hrk & Hrv).
    assert (required !! k = Some (branch_required_funding leaf dust)) as Hrl.
    { change (((λ l, branch_required_funding l dust) <$> sel) !! k =
        Some (branch_required_funding leaf dust)). by rewrite list_lookup_fmap, Hk. }
    rewrite Hrk in Hrl. injection Hrl as ->.
    assert (0 ≤ branch_required_funding leaf dust).
    { rewrite Forall_lookup in Hreq. by apply (Hreq k). }
    assert (∀ o, input_wf (mkCpfpInput o (mkTxOut v script) (signed_input_weight first))) as Hiw.
    { intros o. split; [simpl; unfold in_uint; lia|]. apply Forall_inv in Hwf. apply Hwf. }
    split_and!; [done| |done|done]. unfold funds. rewrite inputs_value_one by done. simpl. lia.
Qed.
End fan_out.
