(* ===== verification/ExitSample.v ===== *)
(** * A small tree, for evaluating the exit

    A deposit split between two leaves, on the concrete transactions of [btctx68]. *)

From S2P Require Import Prelude Bitcoin BitcoinTx TreeModel ExitChain SparkTx ExitPlan.
From S2P Require Import ExitPlanSpec ExitFundingSpec.

#[local] Existing Instances btc68 btctx68.

Definition sample_script : list Z := 0 :: 20 :: repeat 7 20.

Definition sample_tx (prev : positive) (vout : Z) (values : list Z) : tx68 :=
  make_tx 3 [mkTxIn (mkOutPoint prev vout) 2000]
    (((λ v, mkTxOut v sample_script) <$> values) ++ [ephemeral_anchor_output]).

Definition exit_node (i : TreeNodeId) (parent : option TreeNodeId) (vout value : Z) (tx : tx68)
    (refund : option tx68) (st : TreeNodeStatus.t) : TreeNode := {|
  id := i; tree_id := "tree"; value := value; parent_node_id := parent; node_tx := tx;
  refund_tx := refund; direct_tx := None; direct_refund_tx := None;
  direct_from_cpfp_refund_tx := None; TreeModel.vout := vout;
  verifying_public_key := ("vk" : @PublicKey btc68); owner_identity_public_key := None;
  signing_keyshare := {| owner_identifiers := []; threshold := 2;
    ks_public_key := ("ks" : @PublicKey btc68) |};
  status := st |}.

Definition root_tx : tx68 := sample_tx 1 0 [10000; 20000].
Definition a_tx : tx68 := sample_tx (compute_txid (root_tx : Transaction)) 0 [10000].
Definition b_tx : tx68 := sample_tx (compute_txid (root_tx : Transaction)) 1 [20000].
Definition a_refund : tx68 := sample_tx (compute_txid (a_tx : Transaction)) 0 [10000].
Definition b_refund : tx68 := sample_tx (compute_txid (b_tx : Transaction)) 0 [20000].

(** The tree, with the status the operators report for the root. *)
Definition sample_nodes (root : TreeNodeStatus.t) : list TreeNode := [
  exit_node "root" None 0 30000 root_tx None root;
  exit_node "a" (Some "root"%string) 0 10000 a_tx (Some a_refund) TreeNodeStatus.Available;
  exit_node "b" (Some "root"%string) 1 20000 b_tx (Some b_refund) TreeNodeStatus.Available].
Definition sample_tree (root : TreeNodeStatus.t) : gmap TreeNodeId TreeNode :=
  index_by_id (sample_nodes root).

Definition funding_of (value : Z) : CpfpInput :=
  mkCpfpInput (mkOutPoint 2%positive 0) (mkTxOut value sample_script) 272.

(** ** Checking the hypotheses of the theorems by evaluation *)

Lemma sample_keyed root : well_keyed (sample_tree root).
Proof. apply index_by_id_keyed. Qed.

Lemma sample_distinct root : distinct_txids (sample_tree root).
Proof.
  intros i j n m [Hn _]%index_by_id_Some [Hm _]%index_by_id_Some.
  apply (NoDup_fmap_inj (λ n, compute_txid (node_tx n)) (sample_nodes root)); [|done..].
  apply (bool_decide_unpack _). vm_compute. exact I.
Qed.

(** A test of every node of the tree is run on its list. *)
Lemma sample_forallb (p : TreeNode → bool) root i n :
  forallb p (sample_nodes root) = true → sample_tree root !! i = Some n → p n = true.
Proof. rewrite forallb_forall. intros Hp [Hn _]%index_by_id_Some. by apply Hp, list_elem_of_In. Qed.

(** ** The sample exit *)

Definition sample_rate : Z := 1000.
Definition sample_funding : list CpfpInput := [funding_of 100000].

Definition sample_plan_of (root : TreeNodeStatus.t) (funding : list CpfpInput)
    (ids : list TreeNodeId) : ServiceResult UnilateralExitPlan :=
  plan_unilateral_exit (sample_tree root) ids All funding sample_rate 34 ExitChainState_default.

(** Results are compared by their parts, which evaluate fast. *)
Definition ok_else {E A} (d : A) (r : result E A) : A := match r with Ok a => a | Err _ => d end.
Definition err_of {E A} (r : result E A) : option E := match r with Ok _ => None | Err e => Some e end.

Lemma ok_else_Ok {E A} (d : A) (r : result E A) : err_of r = None → r = Ok (ok_else d r).
Proof. by destruct r. Qed.
Lemma err_of_Err {E A} (r : result E A) e : err_of r = Some e → r = Err e.
Proof. destruct r; naive_solver. Qed.

Definition no_plan : UnilateralExitPlan := mkPlan [] None [] ∅.
Definition sample_plan : UnilateralExitPlan :=
  ok_else no_plan (sample_plan_of TreeNodeStatus.Available sample_funding ["a"; "b"]%string).

Lemma sample_input_wf v : in_uint 64 v → input_wf (funding_of v).
Proof. intros Hv. split; [exact Hv|]. unfold in_uint. simpl. lia. Qed.

(** ** Witnesses of [ExitPlanSpec] *)

Definition sample_leaf : TreeNode :=
  exit_node "a" (Some "root"%string) 0 10000 a_tx (Some a_refund) TreeNodeStatus.Available.

Example walk_exit_chain_exact_witness :
  ∃ chain, walk_unilateral_exit_chain (sample_tree TreeNodeStatus.Available) sample_leaf = Ok chain ∧
    chain = reverse (sample_leaf :: walk_ancestors sample_leaf (sample_tree TreeNodeStatus.Available)).
Proof.
  destruct (walk_exit_chain_exact (sample_tree TreeNodeStatus.Available) sample_leaf) as [Hok Hw];
    [apply sample_keyed|reflexivity|].
  destruct (walk_unilateral_exit_chain _ _) as [chain|e].
  - exists chain. split; [done|]. by destruct Hw.
  - exfalso. destruct Hok as [_ Hok]. discriminate Hok. vm_compute. reflexivity.
Defined.

Definition no_quote : UnilateralExitQuote := {|
  quote_selected_leaves := []; total_fee_sat := 0; quote_cpfp_fee_sat := 0; quote_fanout_fee_sat := 0;
  quote_sweep_fee_sat := 0; single_utxo_funding_sat := 0; quote_per_branch_funding := [] |}.
Definition sample_quote_of := quote_unilateral_exit (sample_tree TreeNodeStatus.Available)
  ["a"; "b"]%string All 272 22 294 sample_rate 34 ExitChainState_default.
Definition sample_quote : UnilateralExitQuote := ok_else no_quote sample_quote_of.

Example quote_adds_up_witness :
  total_fee_sat sample_quote =
    quote_cpfp_fee_sat sample_quote + quote_fanout_fee_sat sample_quote + quote_sweep_fee_sat sample_quote.
Proof.
  destruct (quote_adds_up (sample_tree TreeNodeStatus.Available) ["a"; "b"]%string All 272 22 294 sample_rate 34
    ExitChainState_default sample_quote) as (_ & _ & _ & Htotal & _).
  - apply sample_keyed.
  - apply sample_distinct.
  - done.
  - done.
  - apply ok_else_Ok. vm_compute. reflexivity.
  - apply Z.ltb_lt. vm_compute. reflexivity.
  - vm_compute. reflexivity.
  - exact Htotal.
Defined.
