(* ===== verification/ExitScan.v ===== *)
(** * Reading an exit off the chain: [spark-wallet/src/unilateral_exit.rs]

    What the chain has already done to each leaf's branch. The wallet owns no chain
    client: a scan takes the lookups observed so far and returns what they show with
    the lookups still missing, and the caller repeats it until none is
    ([breez-sdk/core/src/sdk/unilateral_exit.rs]). *)

From S2P Require Import Prelude Bitcoin BitcoinTx TreeModel SparkTx ExitPlan.

(** ** Lookups *)

Module ChainQuery.
Section query.
Context {B : Bitcoin} {BT : BitcoinTx}.

Inductive t :=
| Outspend (o : OutPoint Txid)
| TxConfirmed (i : Txid)
| Transaction (i : Txid)
| RefundAddress (leaf_id : TreeNodeId) (address : Address).

#[export] Instance t_eq_dec : EqDecision t.
Proof. solve_decision. Defined.

#[export] Instance t_countable : Countable t.
Proof.
  refine (inj_countable'
    (λ q, match q with
          | Outspend o => inl (inl o) | TxConfirmed i => inl (inr i)
          | Transaction i => inr (inl i) | RefundAddress l a => inr (inr (l, a)) end)
    (λ s : (OutPoint Txid + Txid) + (Txid + TreeNodeId * Address),
       match s with
       | inl (inl o) => Outspend o | inl (inr i) => TxConfirmed i
       | inr (inl i) => Transaction i | inr (inr p) => RefundAddress p.1 p.2 end) _).
  by intros [].
Defined.
End query.
End ChainQuery.
Export (hints) ChainQuery.

Section data.
Context {B : Bitcoin} {BT : BitcoinTx}.

Record SpendInfo := {
  spender_txid : Txid;
  spend_confirmed : bool;
  spend_block_height : option Z;
}.

Record AddressUtxo := {
  au_txid : Txid;
  au_vout : Z;
  au_value : Z;
  au_confirmed : bool;
  au_block_height : option Z;
}.
End data.

Module ChainResult.
Section query_result.
Context {B : Bitcoin} {BT : BitcoinTx}.

Inductive t :=
| Spend (s : option SpendInfo)
| Confirmed (confirmed : bool) (block_height : option Z)
| Transaction (tx : Bitcoin.Transaction)
| AddressUtxos (txos : list AddressUtxo)
| Unavailable.
End query_result.
End ChainResult.

Abbreviation ObservedIndex := (gmap ChainQuery.t ChainResult.t).

Section scan.
Context {B : Bitcoin} {BT : BitcoinTx}.

Record Observation := mkObservation {
  obs_query : ChainQuery.t;
  obs_result : ChainResult.t;
}.

(** [ObservedIndex::new]: the first observation of a query wins. *)
Definition ObservedIndex_new (observed : list Observation) : ObservedIndex :=
  foldl (λ by_query obs,
    match by_query !! obs_query obs with
    | Some _ => by_query
    | None => <[obs_query obs := obs_result obs]> by_query
    end) ∅ observed.
Definition get (self : ObservedIndex) (query : ChainQuery.t) : option ChainResult.t := self !! query.

Inductive NodeState :=
| ConfirmedCpfp (block_height : option Z)
| ConfirmedDirect (block_height : option Z).

Record ConfirmedRefund := mkConfirmedRefund {
  cr_tx : Transaction;
  cr_outpoint : OutPoint Txid;
  cr_value : Z;
  cr_block_height : option Z;
}.

Inductive RefundState :=
| Adopted (r : ConfirmedRefund)
| DriveDirect
| RefundSwept.

Record ExitChainWalk := mkWalk {
  walk_nodes : gmap TreeNodeId NodeState;
  walk_refunds : gmap TreeNodeId RefundState;
  walk_stopped : gset TreeNodeId;
  walk_unverified : gset TreeNodeId;
  walk_unverifiable_confirmed : gset TreeNodeId;
  walk_pending : list ChainQuery.t;
}.

Definition ExitChainWalk_default : ExitChainWalk := mkWalk ∅ ∅ ∅ ∅ ∅ [].

(** ** Mutations of the walk *)

Definition insert_node (i : TreeNodeId) (s : NodeState) (w : ExitChainWalk) : ExitChainWalk :=
  mkWalk (<[i := s]> (walk_nodes w)) (walk_refunds w) (walk_stopped w) (walk_unverified w)
    (walk_unverifiable_confirmed w) (walk_pending w).
Definition insert_refund (i : TreeNodeId) (s : RefundState) (w : ExitChainWalk) : ExitChainWalk :=
  mkWalk (walk_nodes w) (<[i := s]> (walk_refunds w)) (walk_stopped w) (walk_unverified w)
    (walk_unverifiable_confirmed w) (walk_pending w).
Definition insert_stopped (i : TreeNodeId) (w : ExitChainWalk) : ExitChainWalk :=
  mkWalk (walk_nodes w) (walk_refunds w) ({[i]} ∪ walk_stopped w) (walk_unverified w)
    (walk_unverifiable_confirmed w) (walk_pending w).
Definition insert_unverified (i : TreeNodeId) (w : ExitChainWalk) : ExitChainWalk :=
  mkWalk (walk_nodes w) (walk_refunds w) (walk_stopped w) ({[i]} ∪ walk_unverified w)
    (walk_unverifiable_confirmed w) (walk_pending w).
Definition insert_unverifiable (i : TreeNodeId) (w : ExitChainWalk) : ExitChainWalk :=
  mkWalk (walk_nodes w) (walk_refunds w) (walk_stopped w) (walk_unverified w)
    ({[i]} ∪ walk_unverifiable_confirmed w) (walk_pending w).
Definition push_pending (q : ChainQuery.t) (w : ExitChainWalk) : ExitChainWalk :=
  mkWalk (walk_nodes w) (walk_refunds w) (walk_stopped w) (walk_unverified w)
    (walk_unverifiable_confirmed w) (walk_pending w ++ [q]).

(** ** Where a branch walk starts *)

Inductive ResumePoint :=
| Below (index : nat) (block_height : option Z)
| Deposit
| Awaiting.

(** The [for] loop over the candidates, deepest first; the query is the one it
    pushes before [Awaiting]. *)
Fixpoint resume_loop (observed : ObservedIndex) (candidates : list (nat * TreeNode))
    : ResumePoint * option ChainQuery.t :=
  match candidates with
  | [] => (Deposit, None)
  | (index, node) :: candidates =>
      let query := ChainQuery.TxConfirmed (compute_txid (node_tx node)) in
      match get observed query with
      | Some (ChainResult.Confirmed true block_height) => (Below index block_height, None)
      | Some (ChainResult.Confirmed false _) => resume_loop observed candidates
      | Some _ => (Deposit, None)
      | None => (Awaiting, Some query)
      end
  end.

Definition resume_point (chain_nodes : list TreeNode) (observed : ObservedIndex)
    : ResumePoint * option ChainQuery.t :=
  resume_loop observed
    (filter (λ c, status c.2 = TreeNodeStatus.OnChain) (reverse (imap pair chain_nodes))).

(** ** One branch *)

(** The [for node in &chain_nodes[start..]] loop of [walk_branch]. *)
Fixpoint branch_loop (leaf_id : TreeNodeId) (deposit_outpoint : OutPoint Txid)
    (observed : ObservedIndex) (nodes : list TreeNode) (prev_confirmed_txid : option Txid)
    (w : ExitChainWalk) : ExitChainWalk :=
  match nodes with
  | [] => w
  | node :: nodes =>
      let is_leaf := bool_decide (id node = leaf_id) in
      let live_outpoint := match prev_confirmed_txid with
        | Some txid => mkOutPoint txid (vout node)
        | None => deposit_outpoint
        end in
      let query := ChainQuery.Outspend live_outpoint in
      match get observed query with
      | None => push_pending query w
      | Some (ChainResult.Spend (Some info)) =>
          let node_txid := compute_txid (node_tx node) in
          let direct_txid := compute_txid <$> direct_tx node in
          if decide (spender_txid info = node_txid) then
            if spend_confirmed info then
              let w := insert_node (id node) (ConfirmedCpfp (spend_block_height info)) w in
              if is_leaf then w
              else branch_loop leaf_id deposit_outpoint observed nodes (Some node_txid) w
            else w
          else if is_leaf && bool_decide (direct_txid = Some (spender_txid info)) then
            match direct_refund_tx node with
            | Some _ =>
                insert_refund leaf_id DriveDirect
                  (insert_node (id node) (ConfirmedDirect (spend_block_height info)) w)
            | None => insert_stopped leaf_id w
            end
          else insert_stopped leaf_id w
      | Some (ChainResult.Spend None) => w
      | Some ChainResult.Unavailable =>
          if decide (status node = TreeNodeStatus.OnChain) then
            let w := insert_unverifiable (id node) (insert_node (id node) (ConfirmedCpfp None) w) in
            if is_leaf then w
            else branch_loop leaf_id deposit_outpoint observed nodes
                   (Some (compute_txid (node_tx node))) w
          else insert_unverified (id node) w
      | Some _ => w
      end
  end.

(** [for (i, node) in chain_nodes[..=index].iter().enumerate()] *)
Definition insert_resumed (chain_nodes : list TreeNode) (index : nat) (block_height : option Z)
    (w : ExitChainWalk) : ExitChainWalk :=
  foldl (λ w p,
    insert_node (id p.2) (ConfirmedCpfp (if (p.1 =? index)%nat then block_height else None)) w)
    w (imap pair (take (S index) chain_nodes)).

Definition walk_branch (node_map : gmap TreeNodeId TreeNode) (leaf_id : TreeNodeId)
    (observed : ObservedIndex) (w : ExitChainWalk) : ExitChainWalk :=
  match node_map !! leaf_id with
  | None => w
  | Some leaf =>
      match walk_unilateral_exit_chain node_map leaf with
      | Err _ => w
      | Ok chain_nodes =>
          match root ← head chain_nodes; i ← head (tx_input (node_tx root)); Some (previous_output i) with
          | None => w
          | Some deposit_outpoint =>
              let '(resume, query) := resume_point chain_nodes observed in
              let w := match query with Some q => push_pending q w | None => w end in
              match resume with
              | Awaiting => w
              | Deposit => branch_loop leaf_id deposit_outpoint observed chain_nodes None w
              | Below index block_height =>
                  let w := insert_resumed chain_nodes index block_height w in
                  if (length chain_nodes <=? index + 1)%nat then w
                  else
                    let start := (index + 1)%nat in
                    branch_loop leaf_id deposit_outpoint observed (drop start chain_nodes)
                      (n ← chain_nodes !! (start - 1)%nat; Some (compute_txid (node_tx n))) w
              end
          end
      end
  end.

(** ** A leaf's refund *)

Definition interpret_refund (leaf_id : TreeNodeId) (address : Address) (observed : ObservedIndex)
    (w : ExitChainWalk) : ExitChainWalk :=
  let scan_query := ChainQuery.RefundAddress leaf_id address in
  match get observed scan_query with
  | None => push_pending scan_query w
  | Some (ChainResult.AddressUtxos txos) =>
      match head (filter (λ t, au_confirmed t = true) txos) with
      | None => w
      | Some txo =>
          let refund_outpoint := mkOutPoint (au_txid txo) (au_vout txo) in
          let outspend_query := ChainQuery.Outspend refund_outpoint in
          match get observed outspend_query with
          | None => push_pending outspend_query w
          | Some spend =>
              let adopt :=
                let tx_query := ChainQuery.Transaction (au_txid txo) in
                match get observed tx_query with
                | None => push_pending tx_query w
                | Some (ChainResult.Transaction tx) =>
                    insert_refund leaf_id
                      (Adopted (mkConfirmedRefund tx refund_outpoint (au_value txo)
                         (au_block_height txo))) w
                | Some ChainResult.Unavailable => insert_unverified leaf_id w
                | Some _ => w
                end in
              match spend with
              | ChainResult.Spend (Some info) =>
                  if spend_confirmed info then insert_refund leaf_id RefundSwept w else adopt
              | ChainResult.Unavailable => insert_unverified leaf_id w
              | _ => adopt
              end
          end
      end
  | Some ChainResult.Unavailable => insert_unverified leaf_id w
  | Some _ => w
  end.

(** ** The whole tree *)

Definition leaf_refund_addresses (tree_nodes : gmap TreeNodeId TreeNode)
    (leaf_ids : list TreeNodeId) : gmap TreeNodeId Address :=
  foldl (λ addresses leaf_id,
    match
      node ← tree_nodes !! leaf_id; tx ← refund_tx node; out ← head (tx_output tx);
      address_from_script (script_pubkey out)
    with
    | Some address => <[leaf_id := address]> addresses
    | None => addresses
    end) ∅ leaf_ids.

(** [pending.retain(|query| seen.insert(query.clone()))] *)
Fixpoint retain_unseen (seen : gset ChainQuery.t) (l : list ChainQuery.t) : list ChainQuery.t :=
  match l with
  | [] => []
  | q :: l => if decide (q ∈ seen) then retain_unseen seen l else q :: retain_unseen ({[q]} ∪ seen) l
  end.

(** [ids.sort()] *)
Definition sorted (ids : gset TreeNodeId) : list TreeNodeId := stable_sort String.leb (elements ids).

Context `{!HashIter TreeNodeId}.

Definition walk_exit_chain (node_map : gmap TreeNodeId TreeNode) (leaf_ids : list TreeNodeId)
    (refund_addresses : gmap TreeNodeId Address) (observed : ObservedIndex) : ExitChainWalk :=
  let w := foldl (λ w leaf_id, walk_branch node_map leaf_id observed w)
             ExitChainWalk_default leaf_ids in
  foldl (λ w p, interpret_refund p.1 p.2 observed w) w (hm_iter refund_addresses).

Record ExitChainScan := { scan_state : ExitChainState; scan_pending : list ChainQuery.t }.

Definition confirmed_exit_node (p : TreeNodeId * NodeState) : ConfirmedExitNode :=
  match p.2 with
  | ConfirmedCpfp h => {| cen_node_id := p.1; confirmed_by := Cpfp; cen_block_height := h |}
  | ConfirmedDirect h => {| cen_node_id := p.1; confirmed_by := Direct; cen_block_height := h |}
  end.

Definition exit_refund (p : TreeNodeId * RefundState) : option ExitRefund :=
  match p.2 with
  | Adopted r =>
      Some {| er_leaf_id := p.1;
              er_state := OnChain (cr_tx r) (op_vout (cr_outpoint r)) (cr_value r) (cr_block_height r) |}
  | RefundSwept => Some {| er_leaf_id := p.1; er_state := Swept |}
  | DriveDirect => None
  end.

Definition state_of_walk (w : ExitChainWalk) : ExitChainState := {|
  ecs_nodes := stable_sort (λ a b, String.leb (cen_node_id a) (cen_node_id b))
                 (confirmed_exit_node <$> hm_iter (walk_nodes w));
  ecs_refunds := stable_sort (λ a b, String.leb (er_leaf_id a) (er_leaf_id b))
                   (omap exit_refund (hm_iter (walk_refunds w)));
  stopped_leaves := sorted (walk_stopped w);
  unverified_nodes := sorted (walk_unverified w);
  unverifiable_confirmed_nodes := sorted (walk_unverifiable_confirmed w);
|}.

Definition scan_exit_chain (tree_nodes : gmap TreeNodeId TreeNode) (leaf_ids : list TreeNodeId)
    (refund_addresses : gmap TreeNodeId Address) (observed : list Observation) : ExitChainScan :=
  let index := ObservedIndex_new observed in
  let w := walk_exit_chain tree_nodes leaf_ids refund_addresses index in
  {| scan_state := state_of_walk w; scan_pending := retain_unseen ∅ (walk_pending w) |}.

(** The walk read back from a state resolved earlier. *)
Definition restore_exit_chain_walk (state : ExitChainState) (leaf_ids : list TreeNodeId)
    : ExitChainWalk :=
  let confirmed : gmap TreeNodeId ExitNodeConfirmation :=
    hm_collect ((λ node, (cen_node_id node, confirmed_by node)) <$> ecs_nodes state) in
  let nodes := hm_collect ((λ node,
    (cen_node_id node, match confirmed_by node with
       | Cpfp => ConfirmedCpfp (cen_block_height node)
       | Direct => ConfirmedDirect (cen_block_height node) end)) <$> ecs_nodes state) in
  let stopped : gset TreeNodeId := list_to_set (stopped_leaves state) in
  let refunds := foldl (λ refunds leaf_id,
    if decide (leaf_id ∉ stopped ∧ confirmed !! leaf_id = Some Direct)
    then <[leaf_id := DriveDirect]> refunds else refunds)
    (∅ : gmap TreeNodeId RefundState) leaf_ids in
  let refunds := foldl (λ refunds refund,
    let restored := match er_state refund with
      | OnChain tx vout value block_height =>
          Adopted (mkConfirmedRefund tx (mkOutPoint (compute_txid tx) vout) value block_height)
      | Swept => RefundSwept
      end in
    <[er_leaf_id refund := restored]> refunds) refunds (ecs_refunds state) in
  mkWalk nodes refunds stopped (list_to_set (unverified_nodes state))
    (list_to_set (unverifiable_confirmed_nodes state)) [].

(** ** Driving a scan: [resolve_exit_chain_state] and its siblings

    The caller performs the pending lookups on a chain service with state [W] and
    tries again. *)
Section driver.
Context {W : Type} (execute_chain_query : ChainQuery.t → W → ChainResult.t * W).

Fixpoint perform (queries : list ChainQuery.t) (observed : list Observation) (world : W)
    : list Observation * W :=
  match queries with
  | [] => (observed, world)
  | query :: queries =>
      let '(result, world) := execute_chain_query query world in
      perform queries (observed ++ [mkObservation query result]) world
  end.

(** One round of the [loop]. *)
Definition resolve_round {State : Type} (scan : list Observation → State * list ChainQuery.t)
    (st : list Observation * W) : (list Observation * W) + (State * list Observation * W) :=
  let '(observed, world) := st in
  let '(state, pending) := scan observed in
  match pending with
  | [] => inr (state, observed, world)
  | _ => inl (perform pending observed world)
  end.

Definition resolve_exit_chain_state (fuel : nat) (tree_nodes : gmap TreeNodeId TreeNode)
    (leaf_ids : list TreeNodeId) (refund_addresses : gmap TreeNodeId Address) (world : W) :=
  rounds fuel (resolve_round (λ observed,
    let scan := scan_exit_chain tree_nodes leaf_ids refund_addresses observed in
    (scan_state scan, scan_pending scan))) ([], world).
End driver.
End scan.
