(* ===== verification/ExitScanSpec.v ===== *)
(** * Correctness of the exit chain scan *)

From S2P Require Import Prelude Bitcoin BitcoinTx TreeModel ExitChain SparkTx ExitPlan ExitPlanSpec ExitScan.

Section index.
Context {B : Bitcoin} {BT : BitcoinTx}.
Implicit Types idx : ObservedIndex.

Definition index_step (by_query : ObservedIndex) (obs : Observation) : ObservedIndex :=
  match by_query !! obs_query obs with
  | Some _ => by_query
  | None => <[obs_query obs := obs_result obs]> by_query
  end.

Lemma index_fold_lookup idx obs q :
  foldl index_step idx obs !! q =
    match idx !! q with
    | Some r => Some r
    | None => obs_result <$> head (filter (λ o, obs_query o = q) obs)
    end.
Proof.
  revert idx. induction obs as [|o obs IH]; intros idx; simpl; [by destruct (idx !! q)|].
  rewrite IH. unfold index_step. rewrite filter_cons.
  destruct (idx !! obs_query o) eqn:Ho.
  - case_decide as Hq; [|done]. by rewrite <- Hq, Ho.
  - rewrite lookup_insert. destruct (decide (obs_query o = q)) as [<-|]; [by rewrite Ho|done].
Qed.

Lemma get_index obs q :
  get (ObservedIndex_new obs) q = obs_result <$> head (filter (λ o, obs_query o = q) obs).
Proof. unfold get, ObservedIndex_new. change (foldl _ ∅ obs) with (foldl index_step ∅ obs). by rewrite index_fold_lookup, lookup_empty. Qed.

(** Later observations never change what the index says of a query. *)
Lemma index_extends obs obs' : ObservedIndex_new obs ⊆ ObservedIndex_new (obs ++ obs').
Proof.
  apply map_subseteq_spec. intros q r Hq. change (get (ObservedIndex_new obs) q = Some r) in Hq.
  change (get (ObservedIndex_new (obs ++ obs')) q = Some r). rewrite get_index in Hq |- *.
  rewrite filter_app. by destruct (filter _ obs).
Qed.

Lemma index_answers obs obs' q :
  q ∈ obs_query <$> obs' → is_Some (get (ObservedIndex_new (obs ++ obs')) q).
Proof.
  intros Hq. rewrite get_index, filter_app. apply fmap_is_Some.
  destruct (filter _ obs) as [|o l]; [|by eexists]. simpl.
  destruct (filter (λ o, obs_query o = q) obs') as [|o l] eqn:E; [|by eexists]. exfalso.
  apply list_elem_of_fmap in Hq as (o & -> & Ho).
  assert (o ∈ filter (λ o', obs_query o' = obs_query o) obs') as Hin
    by by apply list_elem_of_filter.
  rewrite E in Hin. by apply elem_of_nil in Hin.
Qed.

Lemma get_mono idx idx' q r : idx ⊆ idx' → get idx q = Some r → get idx' q = Some r.
Proof. unfold get. intros Hs. by apply (proj1 (map_subseteq_spec _ _) Hs). Qed.

Lemma perform_spec {W} (answer : ChainQuery.t → W → ChainResult.t * W) qs obs w obs' w' :
  perform answer qs obs w = (obs', w') → ∃ new, obs' = obs ++ new ∧ obs_query <$> new = qs.
Proof.
  revert obs w. induction qs as [|q qs IH]; intros obs w; simpl.
  - intros [= <- <-]. exists []. by rewrite app_nil_r.
  - destruct (answer q w) as [r w1]. intros (new & -> & <-)%IH.
    exists (mkObservation q r :: new). by rewrite <- app_assoc.
Qed.

Lemma elem_of_retain_unseen seen l q : q ∈ retain_unseen seen l ↔ q ∈ l ∧ q ∉ seen.
Proof.
  revert seen. induction l as [|x l IH]; intros seen; simpl; [set_solver|].
  case_decide; rewrite ?elem_of_cons, IH, ?not_elem_of_union, ?not_elem_of_singleton.
  - naive_solver.
  - destruct (decide (q = x)); naive_solver.
Qed.

Lemma retain_unseen_NoDup seen l : NoDup (retain_unseen seen l).
Proof.
  revert seen. induction l as [|x l IH]; intros seen; simpl; [constructor|].
  case_decide; [done|]. constructor; [|done]. rewrite elem_of_retain_unseen.
  rewrite elem_of_union, elem_of_singleton. naive_solver.
Qed.
End index.

(** ** What a scan can ask *)

Section pending.
Context {B : Bitcoin} {BT : BitcoinTx} `{!HashIter TreeNodeId}.
Implicit Types (idx : ObservedIndex) (nodes : gmap TreeNodeId TreeNode) (w : ExitChainWalk).

(** The outpoints a branch walk looks at, from the node after [prev] on. *)
Fixpoint live_queries (deposit : OutPoint Txid) (prev : option Txid) (chain : list TreeNode)
    : list ChainQuery.t :=
  match chain with
  | [] => []
  | n :: chain =>
      ChainQuery.Outspend (match prev with Some t => mkOutPoint t (vout n) | None => deposit end)
      :: live_queries deposit (Some (compute_txid (node_tx n))) chain
  end.

Definition branch_queries nodes (leaf_id : TreeNodeId) : list ChainQuery.t :=
  match
    leaf ← nodes !! leaf_id;
    chain ← match walk_unilateral_exit_chain nodes leaf with Ok c => Some c | Err _ => None end;
    root ← head chain; i ← head (tx_input (node_tx root)); Some (chain, previous_output i)
  with
  | Some (chain, deposit) =>
      ((λ n, ChainQuery.TxConfirmed (compute_txid (node_tx n))) <$> chain) ++
      live_queries deposit None chain
  | None => []
  end.

(** The lookup a refund still needs. *)
Definition refund_pending idx (p : TreeNodeId * Address) : option ChainQuery.t :=
  let unanswered q := match get idx q with None => Some q | Some _ => None end in
  match get idx (ChainQuery.RefundAddress p.1 p.2) with
  | None => Some (ChainQuery.RefundAddress p.1 p.2)
  | Some (ChainResult.AddressUtxos txos) =>
      txo ← head (filter (λ t, au_confirmed t = true) txos);
      match unanswered (ChainQuery.Outspend (mkOutPoint (au_txid txo) (au_vout txo))) with
      | Some q => Some q
      | None => unanswered (ChainQuery.Transaction (au_txid txo))
      end
  | Some _ => None
  end.

(** A step of the walk adds at most one lookup, and one that is not answered yet. *)
Definition asks (Q : ChainQuery.t → Prop) idx w w' : Prop :=
  walk_pending w' = walk_pending w ∨
  ∃ q, walk_pending w' = walk_pending w ++ [q] ∧ get idx q = None ∧ Q q.

Lemma branch_loop_asks leaf_id deposit idx chain prev w :
  asks (λ q, q ∈ live_queries deposit prev chain) idx w
    (branch_loop leaf_id deposit idx chain prev w).
Proof.
  revert prev w. induction chain as [|n chain IH]; intros prev w; simpl; [by left|].
  assert (∀ w1, walk_pending w1 = walk_pending w →
    asks (λ q, q ∈ live_queries deposit prev (n :: chain)) idx w
      (branch_loop leaf_id deposit idx chain (Some (compute_txid (node_tx n))) w1)) as Hrec.
  { intros w1 Hw1. destruct (IH (Some (compute_txid (node_tx n))) w1) as [Hp|(q & Hp & ? & ?)].
    - left. by rewrite Hp.
    - right. exists q. rewrite Hp, Hw1. split_and!; [done|done|]. simpl. by right. }
  repeat case_match; simplify_eq; try (by left); try (by apply Hrec).
  all: right; eexists; split_and!; [done|done|by left].
Qed.

Lemma live_queries_drop deposit chain k n :
  chain !! k = Some n →
  ∀ q, q ∈ live_queries deposit (Some (compute_txid (node_tx n))) (drop (S k) chain) →
  ∀ prev, q ∈ live_queries deposit prev chain.
Proof.
  revert k. induction chain as [|m chain IH]; intros k Hk q Hq prev; [done|].
  destruct k as [|k]; simpl in *; simplify_eq; right; [by rewrite drop_0 in Hq|]. by eapply IH.
Qed.

Lemma resume_loop_asks idx candidates r q :
  resume_loop idx candidates = (r, q) →
  match q with
  | None => r ≠ Awaiting
  | Some q => r = Awaiting ∧ get idx q = None ∧
      ∃ p, p ∈ candidates ∧ q = ChainQuery.TxConfirmed (compute_txid (node_tx p.2))
  end ∧ match r with Below i _ => ∃ n, (i, n) ∈ candidates | _ => True end.
Proof.
  induction candidates as [|[i n] cs IH]; simpl; [by intros [= <- <-]|].
  destruct (get idx _) as [[|[] ?| | |]|] eqn:E; try (intros [= <- <-]).
  - done.
  - split; [done|]. exists n. by left.
  - intros [Hq Hr]%IH. split.
    + destruct q; [|done]. destruct Hq as (? & ? & p & ? & ?). split_and!; [done..|]. exists p. by split; [right|].
    + destruct r; [|done..]. destruct Hr as [m ?]. exists m. by right.
  - done.
  - done.
  - done.
  - split; [|done]. split_and!; [done..|]. exists (i, n). by split; [left|].
Qed.

Lemma insert_resumed_pending chain i h w : walk_pending (insert_resumed chain i h w) = walk_pending w.
Proof.
  unfold insert_resumed. generalize (imap pair (take (S i) chain)). intros l. revert w.
  induction l as [|p l IH]; intros w; simpl; [done|]. by rewrite IH.
Qed.

Lemma candidates_elem chain i n :
  (i, n) ∈ filter (λ c, status c.2 = TreeNodeStatus.OnChain) (reverse (imap pair chain)) →
  chain !! i = Some n ∧ status n = TreeNodeStatus.OnChain.
Proof.
  rewrite list_elem_of_filter, elem_of_reverse. simpl. intros [? Hin]. split; [|done].
  apply list_elem_of_lookup in Hin as [k Hk]. rewrite list_lookup_imap in Hk.
  destruct (chain !! k) eqn:E; simplify_eq/=. done.
Qed.

Lemma walk_branch_asks nodes leaf_id idx w :
  asks (λ q, q ∈ branch_queries nodes leaf_id) idx w (walk_branch nodes leaf_id idx w).
Proof.
  unfold walk_branch, branch_queries. destruct (nodes !! leaf_id) as [leaf|]; [|by left]. simpl.
  destruct (walk_unilateral_exit_chain nodes leaf) as [chain|]; [|by left]. simpl.
  destruct (head chain) as [root|]; [|by left]. simpl.
  destruct (head (tx_input (node_tx root))) as [i|]; [|by left]. simpl.
  set (deposit := previous_output i).
  destruct (resume_point chain idx) as [r q] eqn:Hr. unfold resume_point in Hr.
  apply resume_loop_asks in Hr as [Hq Hb].
  assert (∀ w1 prev ns, walk_pending w1 = walk_pending w →
    (∀ q, q ∈ live_queries deposit prev ns → q ∈ live_queries deposit None chain) →
    asks (λ q, q ∈ ((λ n, ChainQuery.TxConfirmed (compute_txid (node_tx n))) <$> chain) ++
      live_queries deposit None chain) idx w (branch_loop leaf_id deposit idx ns prev w1)) as Hrun.
  { intros w1 prev ns Hw1 Hsub.
    destruct (branch_loop_asks leaf_id deposit idx ns prev w1) as [Hp|(q' & Hp & ? & ?)].
    - left. by rewrite Hp.
    - right. exists q'. rewrite Hp, Hw1. split_and!; [done|done|]. set_solver. }
  destruct q as [q|].
  - destruct Hq as (-> & Hn & [k n] & [Hk _]%candidates_elem & ->). right. eexists.
    split_and!; [done|done|]. apply elem_of_app. left. apply list_elem_of_fmap.
    exists n. split; [done|]. by eapply list_elem_of_lookup_2.
  - destruct r as [k h| |]; [|by apply Hrun|done].
    case_match; [left; apply insert_resumed_pending|].
    apply Hrun; [apply insert_resumed_pending|].
    destruct Hb as [n [Hk _]%candidates_elem].
    replace (k + 1 - 1)%nat with k by lia. rewrite Hk. simpl.
    intros q Hin. eapply live_queries_drop; [exact Hk|]. by replace (S k) with (k + 1)%nat by lia.
Qed.

Lemma interpret_refund_asks i a idx w :
  asks (λ q, refund_pending idx (i, a) = Some q) idx w (interpret_refund i a idx w).
Proof.
  unfold interpret_refund, asks, refund_pending. simpl.
  destruct (get idx (ChainQuery.RefundAddress i a)) as [[| | |txos|]|] eqn:Ha; try (by left).
  2:{ right. eexists. by split_and!. }
  destruct (head _) as [txo|]; simpl; [|by left].
  destruct (get idx (ChainQuery.Outspend _)) as [[[s|]|s h|tx|l|]|] eqn:Ho; simpl; try (by left).
  all: repeat case_match; simplify_eq/=; try (by left); right; eexists; by split_and!.
Qed.

Lemma fold_asks {A} (step : ExitChainWalk → A → ExitChainWalk) (Q : A → ChainQuery.t → Prop) idx l w :
  (∀ w x, asks (Q x) idx w (step w x)) →
  ∀ q, q ∈ walk_pending (foldl step w l) →
    q ∈ walk_pending w ∨ get idx q = None ∧ ∃ x, x ∈ l ∧ Q x q.
Proof.
  intros Hstep. revert w. induction l as [|x l IH]; intros w q; simpl; [by left|].
  intros [Hq|(? & y & ? & ?)]%IH.
  - destruct (Hstep w x) as [Hp|(q' & Hp & Hn & HQ)]; rewrite Hp in Hq; [by left|].
    apply elem_of_app in Hq as [?|Hq]; [by left|right]. apply list_elem_of_singleton in Hq as ->.
    split; [done|]. exists x. by split; [left|].
  - right. split; [done|]. exists y. by split; [right|].
Qed.

Lemma walk_exit_chain_pending nodes leaf_ids addrs idx q :
  q ∈ walk_pending (walk_exit_chain nodes leaf_ids addrs idx) →
  get idx q = None ∧
  ((∃ i, i ∈ leaf_ids ∧ q ∈ branch_queries nodes i) ∨
   ∃ i a, addrs !! i = Some a ∧ refund_pending idx (i, a) = Some q).
Proof.
  unfold walk_exit_chain.
  intros [Hq|(? & [i a] & ?%elem_of_hm_iter & ?)]%(fold_asks _ (λ p q, refund_pending idx p = Some q) idx).
  2:{ split; [done|]. right. by exists i, a. }
  2:{ intros w' [i a]. apply interpret_refund_asks. }
  apply (fold_asks _ (λ i q, q ∈ branch_queries nodes i) idx) in Hq as [Hq|(? & i & ? & ?)].
  - by apply elem_of_nil in Hq.
  - split; [done|]. left. by exists i.
  - intros w' i. apply walk_branch_asks.
Qed.
End pending.

(** ** The scan loop ends *)

Section resolve.
Context {B : Bitcoin} {BT : BitcoinTx} `{!HashIter TreeNodeId}.
Implicit Types (idx : ObservedIndex) (nodes : gmap TreeNodeId TreeNode).

Definition unanswered idx (q : ChainQuery.t) : nat :=
  match get idx q with None => 1 | Some _ => 0 end.

(** The lookups a refund can still ask for. *)
Definition refund_budget idx (p : TreeNodeId * Address) : nat :=
  match get idx (ChainQuery.RefundAddress p.1 p.2) with
  | None => 3
  | Some (ChainResult.AddressUtxos txos) =>
      match head (filter (λ t, au_confirmed t = true) txos) with
      | Some txo =>
          unanswered idx (ChainQuery.Outspend (mkOutPoint (au_txid txo) (au_vout txo))) +
          unanswered idx (ChainQuery.Transaction (au_txid txo))
      | None => 0
      end
  | Some _ => 0
  end.

Lemma unanswered_mono idx idx' q : idx ⊆ idx' → (unanswered idx' q ≤ unanswered idx q)%nat.
Proof.
  intros Hs. unfold unanswered. destruct (get idx q) as [r|] eqn:E.
  - by rewrite (get_mono _ _ _ _ Hs E).
  - destruct (get idx' q); lia.
Qed.

Lemma refund_budget_mono idx idx' p : idx ⊆ idx' → (refund_budget idx' p ≤ refund_budget idx p)%nat.
Proof.
  intros Hs. unfold refund_budget.
  destruct (get idx (ChainQuery.RefundAddress p.1 p.2)) as [r|] eqn:E.
  - rewrite (get_mono _ _ _ _ Hs E). destruct r; try lia. destruct (head _); [|lia].
    apply Nat.add_le_mono; by apply unanswered_mono.
  - destruct (get idx' _) as [[]|]; try lia. destruct (head _); [|lia].
    unfold unanswered. repeat case_match; lia.
Qed.

Lemma refund_budget_answered idx idx' p q :
  idx ⊆ idx' → refund_pending idx p = Some q → is_Some (get idx' q) →
  (refund_budget idx' p < refund_budget idx p)%nat.
Proof.
  intros Hs Hp [r Hr]. unfold refund_pending in Hp. unfold refund_budget.
  destruct (get idx (ChainQuery.RefundAddress p.1 p.2)) as [a|] eqn:E.
  - rewrite (get_mono _ _ _ _ Hs E). destruct a; try done.
    destruct (head _) as [txo|]; [|done]. simpl in Hp.
    set (o := ChainQuery.Outspend _) in *. set (t := ChainQuery.Transaction _) in *.
    pose proof (unanswered_mono idx idx' o Hs). pose proof (unanswered_mono idx idx' t Hs).
    destruct (get idx o) eqn:Eo.
    + destruct (get idx t) eqn:Et; [done|]. injection Hp as <-.
      unfold unanswered in *. rewrite Eo, Et, Hr in *. lia.
    + injection Hp as <-. unfold unanswered in *. rewrite Eo, Hr in *. lia.
  - injection Hp as <-. rewrite Hr. destruct r; try lia. destruct (head _); [|lia].
    unfold unanswered. repeat case_match; lia.
Qed.

Lemma sum_list_le {A} (f g : A → nat) l :
  (∀ x, f x ≤ g x)%nat → (sum_list (f <$> l) ≤ sum_list (g <$> l))%nat.
Proof. intros Hfg. induction l as [|x l IH]; csimpl; [done|]. specialize (Hfg x). lia. Qed.

Lemma sum_list_lt {A} (f g : A → nat) l y :
  (∀ x, f x ≤ g x)%nat → y ∈ l → (f y < g y)%nat → (sum_list (f <$> l) < sum_list (g <$> l))%nat.
Proof.
  intros Hfg. induction l as [|x l IH]; csimpl; [by intros ?%elem_of_nil|].
  pose proof (sum_list_le f g l Hfg). specialize (Hfg x).
  intros [->|Hy]%elem_of_cons ?; [lia|]. specialize (IH Hy). lia.
Qed.

Context (nodes : gmap TreeNodeId TreeNode) (leaf_ids : list TreeNodeId)
  (addrs : gmap TreeNodeId Address).

Definition tree_queries : list ChainQuery.t := leaf_ids ≫= branch_queries nodes.

Definition lookups_left idx : nat :=
  sum_list (unanswered idx <$> tree_queries) + sum_list (refund_budget idx <$> map_to_list addrs).

(** The most lookups a scan can need: the queries along each branch, and three
    for each refund. *)
Definition lookups_max : nat := length tree_queries + 3 * size addrs.

Lemma lookups_left_max idx : (lookups_left idx ≤ lookups_max)%nat.
Proof.
  unfold lookups_left, lookups_max. apply Nat.add_le_mono.
  - rewrite <- (Nat.mul_1_l (length tree_queries)). generalize tree_queries as l. induction l; csimpl; [lia|].
    unfold unanswered at 1. case_match; lia.
  - rewrite <- length_map_to_list. generalize (map_to_list addrs) as l. induction l; csimpl; [lia|].
    assert (refund_budget idx a ≤ 3)%nat; [|lia]. unfold refund_budget, unanswered. repeat case_match; lia.
Qed.

Local Abbreviation scan obs := (scan_exit_chain nodes leaf_ids addrs obs).

(** A lookup the scan may ask for next. *)
Definition askable (obs : list Observation) (q : ChainQuery.t) : Prop :=
  get (ObservedIndex_new obs) q = None ∧
  (q ∈ tree_queries ∨
   ∃ i a, addrs !! i = Some a ∧ refund_pending (ObservedIndex_new obs) (i, a) = Some q).

Lemma scan_askable obs q : q ∈ scan_pending (scan obs) → askable obs q.
Proof.
  simpl. rewrite elem_of_retain_unseen. intros [(? & Hq)%walk_exit_chain_pending _]. split; [done|].
  destruct Hq as [(i & ? & ?)|?]; [left|by right]. unfold tree_queries. apply list_elem_of_bind. eauto.
Qed.

Lemma refund_pending_persists idx idx' p q :
  idx ⊆ idx' → get idx' q = None → refund_pending idx p = Some q → refund_pending idx' p = Some q.
Proof.
  intros Hs Hq. unfold refund_pending.
  destruct (get idx (ChainQuery.RefundAddress p.1 p.2)) as [a|] eqn:E.
  - rewrite (get_mono _ _ _ _ Hs E). destruct a; try done. destruct (head _) as [txo|]; [|done]. simpl.
    set (o := ChainQuery.Outspend _). set (t := ChainQuery.Transaction _).
    destruct (get idx o) eqn:Eo.
    + rewrite (get_mono _ _ _ _ Hs Eo). destruct (get idx t); [done|]. intros [= <-]. by rewrite Hq.
    + intros [= <-]. by rewrite Hq.
  - intros [= <-]. by rewrite Hq.
Qed.

Lemma askable_persists obs o q : askable obs q → q ≠ obs_query o → askable (obs ++ [o]) q.
Proof.
  intros [Hn Hq] Hne.
  assert (get (ObservedIndex_new (obs ++ [o])) q = None) as Hn'.
  { rewrite get_index in Hn |- *. rewrite filter_app, filter_cons_False, filter_nil, app_nil_r by done. done. }
  split; [done|]. destruct Hq as [?|(i & a & ? & ?)]; [by left|right]. exists i, a. split; [done|].
  by eapply refund_pending_persists; [apply index_extends|..].
Qed.

Lemma answer_lookups_left obs o :
  askable obs (obs_query o) →
  (lookups_left (ObservedIndex_new (obs ++ [o])) < lookups_left (ObservedIndex_new obs))%nat.
Proof.
  intros [Hn Hq]. pose proof (index_extends obs [o]) as Hs.
  pose proof (index_answers obs [o] (obs_query o) ltac:(by left)) as Ha. unfold lookups_left.
  pose proof (sum_list_le _ _ tree_queries (λ q, unanswered_mono _ _ q Hs)).
  pose proof (sum_list_le _ _ (map_to_list addrs) (λ p, refund_budget_mono _ _ p Hs)).
  destruct Hq as [Hq|(i & a & Hi & Hp)].
  - assert (unanswered (ObservedIndex_new (obs ++ [o])) (obs_query o) <
      unanswered (ObservedIndex_new obs) (obs_query o))%nat as Hone.
    { unfold unanswered. rewrite Hn. destruct Ha as [r ->]. lia. }
    pose proof (sum_list_lt _ _ tree_queries _ (λ q, unanswered_mono _ _ q Hs) Hq Hone). lia.
  - apply elem_of_map_to_list in Hi.
    pose proof (sum_list_lt _ _ _ (i, a) (λ p, refund_budget_mono _ _ p Hs) Hi
      (refund_budget_answered _ _ _ _ Hs Hp Ha)). lia.
Qed.

Lemma answers_lookups_left obs new :
  NoDup (obs_query <$> new) → (∀ q, q ∈ obs_query <$> new → askable obs q) →
  (lookups_left (ObservedIndex_new (obs ++ new)) + length new ≤ lookups_left (ObservedIndex_new obs))%nat.
Proof.
  revert obs. induction new as [|o new IH]; intros obs; csimpl.
  - rewrite app_nil_r. lia.
  - intros [Hnin Hnd]%NoDup_cons Hask.
    assert (lookups_left (ObservedIndex_new (obs ++ [o])) < lookups_left (ObservedIndex_new obs))%nat
      by (apply answer_lookups_left, Hask; by left).
    specialize (IH (obs ++ [o]) Hnd). rewrite <- app_assoc in IH.
    assert (∀ q, q ∈ obs_query <$> new → askable (obs ++ [o]) q) as Hask'.
    { intros q Hq. apply askable_persists; [apply Hask; by right|]. intros ->. done. }
    specialize (IH Hask'). simpl in IH. lia.
Qed.

(** Reading the chain always ends, whatever the chain service answers and
    however its answers change while it is read: after at most one lookup per node
    label and per outpoint of the branches and three per refund, the scan has
    nothing left to ask, no lookup was made twice, and the state returned is the
    one the answers show. *)
Theorem resolve_exit_chain_state_ends {W} (answer : ChainQuery.t → W → ChainResult.t * W) world :
  ∃ state observed world',
    resolve_exit_chain_state answer (S lookups_max) nodes leaf_ids addrs world =
      inr (state, observed, world') ∧
    scan_pending (scan observed) = [] ∧ scan_state (scan observed) = state ∧
    NoDup (obs_query <$> observed) ∧ (length observed ≤ lookups_max)%nat.
Proof.
  unfold resolve_exit_chain_state. set (round := resolve_round answer _).
  set (Inv := λ st : list Observation * W, NoDup (obs_query <$> st.1) ∧
    (length st.1 + lookups_left (ObservedIndex_new st.1) ≤ lookups_max)%nat).
  destruct (rounds_ends round (S lookups_max) (λ st, lookups_left (ObservedIndex_new st.1)) Inv ([], world))
    as ([obs w] & [[state obs'] w'] & Hr & [Hnd Hlen] & Hlast).
  - intros [obs w] [obs1 w1] [Hnd Hlen]. unfold round, resolve_round. simpl in *.
    destruct (retain_unseen ∅ _) as [|q qs] eqn:Hp; [done|]. intros [= Hperf].
    destruct (answer q w) as [r w'] eqn:Hq.
    destruct (perform_spec answer (q :: qs) obs w obs1 w1) as (new & -> & Hnew); [simpl; by rewrite Hq|].
    assert (scan_pending (scan obs) = q :: qs) as Hpend by done.
    assert (∀ q', q' ∈ obs_query <$> new → askable obs q') as Hask.
    { intros q' Hq'. apply scan_askable. by rewrite Hpend, <- Hnew. }
    assert (NoDup (obs_query <$> new)) as Hndn.
    { rewrite Hnew, <- Hp. apply retain_unseen_NoDup. }
    pose proof (answers_lookups_left obs new Hndn Hask).
    assert (length new = length (q :: qs)) as Hln by (rewrite <- Hnew; by rewrite length_fmap).
    simpl in Hln. split; [split|].
    + simpl. rewrite fmap_app. apply NoDup_app. split_and!; [done| |done].
      intros q' Ho [Hn _]%Hask. rewrite get_index in Hn.
      apply list_elem_of_fmap in Ho as (o & -> & Ho).
      destruct (filter (λ o', obs_query o' = obs_query o) obs) as [|o' l] eqn:E; [|done].
      assert (o ∈ filter (λ o', obs_query o' = obs_query o) obs) as Hin by by apply list_elem_of_filter.
      rewrite E in Hin. by apply elem_of_nil in Hin.
    + simpl. rewrite length_app. lia.
    + simpl. lia.
  - split; [constructor|]. simpl. apply lookups_left_max.
  - simpl. pose proof (lookups_left_max (ObservedIndex_new [])). lia.
  - exists state, obs', w'. unfold round, resolve_round in Hlast. simpl in Hlast.
    destruct (retain_unseen ∅ _) as [|q qs] eqn:Hp in Hlast; [|done]. injection Hlast as <- <- <-.
    split_and!; [done|done|done|done|]. simpl in Hlen. lia.
Qed.
End resolve.
