(* ===== verification/ExitScanExact.v ===== *)
(** * The scan reports the chain

    On answers that describe one chain, of the branches that are not stopped the nodes
    reported as confirmed by CPFP are those whose transaction was mined, no more and no
    fewer; and the leaves reported as confirmed by their direct transaction are spent
    by it, in a block or not yet. *)

From S2P Require Import Prelude Bitcoin BitcoinTx TreeModel ExitChain SparkTx ExitPlan.
From S2P Require Import ExitPlanSpec ExitSample ExitScan ExitScanSpec.

(** The abstract chain: the height of the block a transaction is in, which
    transaction in a block spends an output, and the transactions. *)
Record Chain `{BitcoinTx} := {
  mined_at : Txid → option Z;
  spent_by : OutPoint Txid → option Txid;
  tx_of : Txid → option Transaction;
}.
Definition mined `{BitcoinTx} (c : Chain) (t : Txid) : bool := bool_decide (is_Some (mined_at c t)).

Section exact.
Context {B : Bitcoin} {BT : BitcoinTx} `{!HashIter TreeNodeId} (chain_state : Chain).
Context (nodes : gmap TreeNodeId TreeNode).
Implicit Types (idx : ObservedIndex) (w : ExitChainWalk).

Definition node_txid (n : TreeNode) : Txid := compute_txid (node_tx n).
Definition inputs_of (n : TreeNode) : list (OutPoint Txid) := previous_output <$> tx_input (node_tx n).
Definition in_block (n : TreeNode) : Prop := mined chain_state (node_txid n) = true.

(** The answers describe the chain: they are right about blocks, and an unconfirmed
    spender is reported only of an output no mined transaction spends. *)
Definition honest idx : Prop :=
  (∀ i r, get idx (ChainQuery.TxConfirmed i) = Some r →
     ∃ h, r = ChainResult.Confirmed (mined chain_state i) h) ∧
  (∀ o r, get idx (ChainQuery.Outspend o) = Some r →
     match spent_by chain_state o with
     | Some t => ∃ h, r = ChainResult.Spend (Some {| spender_txid := t; spend_confirmed := true; spend_block_height := h |})
     | None => r = ChainResult.Spend None ∨
         ∃ info, r = ChainResult.Spend (Some info) ∧ spend_confirmed info = false
     end).

(** A mined node transaction spends its inputs, which are mined too, and a node's
    transaction spends its parent's output. *)
Record chain_of_tree : Prop := {
  ct_mined o t : spent_by chain_state o = Some t → mined chain_state t = true;
  ct_spends i n o : nodes !! i = Some n → in_block n → o ∈ inputs_of n →
    spent_by chain_state o = Some (node_txid n) ∧ mined chain_state (txid o) = true;
  ct_inputs i n : nodes !! i = Some n → tx_input (node_tx n) ≠ [];
  ct_parent i j n p : nodes !! i = Some n → nodes !! j = Some p → parent_node_id n = Some j →
    mkOutPoint (node_txid p) (vout n) ∈ inputs_of n;
}.
Context (Hkeyed : well_keyed nodes) (Htree : chain_of_tree).

(** ** Along a branch *)

Definition live (deposit : OutPoint Txid) (prev : option Txid) (n : TreeNode) : OutPoint Txid :=
  match prev with Some t => mkOutPoint t (vout n) | None => deposit end.

Fixpoint spends_down (deposit : OutPoint Txid) (prev : option Txid) (ns : list TreeNode) : Prop :=
  match ns with
  | [] => True
  | n :: ns => (∃ i, nodes !! i = Some n) ∧ live deposit prev n ∈ inputs_of n ∧
      spends_down deposit (Some (node_txid n)) ns
  end.

Lemma spends_down_drop deposit prev ns k n :
  spends_down deposit prev ns → ns !! k = Some n →
  spends_down deposit (Some (node_txid n)) (drop (S k) ns).
Proof.
  revert prev ns. induction k as [|k IH]; intros prev [|m ns] Hs Hk; simplify_eq/=.
  - rewrite drop_0. tauto.
  - by eapply IH; [apply Hs|].
Qed.

(** Below a transaction that is not in a block none is. *)
Lemma unmined_below deposit t ns :
  spends_down deposit (Some t) ns → mined chain_state t = false →
  ∀ n, n ∈ ns → ¬ in_block n.
Proof using Htree.
  revert t. induction ns as [|m ns IH]; intros t; [by intros _ _ ? ?%elem_of_nil|].
  simpl. intros ((i & Hi) & Hl & Hs) Ht.
  assert (¬ in_block m) as Hm.
  { intros Hb. destruct (ct_spends Htree i m _ Hi Hb Hl) as [_ Hp]. simpl in Hp. congruence. }
  intros n [->|Hn]%elem_of_cons; [done|].
  apply (IH _ Hs); [|done]. by apply not_true_is_false.
Qed.

Lemma mined_above deposit prev ns k n j m :
  spends_down deposit prev ns → ns !! k = Some n → in_block n → ns !! j = Some m → (j ≤ k)%nat →
  in_block m.
Proof using Htree.
  intros Hs Hk Hn Hj Hle. destruct (decide (j = k)) as [->|]; [congruence|].
  destruct (mined chain_state (node_txid m)) eqn:Hm; [done|exfalso].
  eapply unmined_below; [by eapply spends_down_drop|exact Hm| |exact Hn].
  apply list_elem_of_lookup. exists (k - S j)%nat. rewrite lookup_drop. rewrite <- Hk. f_equal. lia.
Qed.

Lemma path_spends deposit q : ∀ n tl,
  (∃ j, nodes !! j = Some n) → path nodes (parent_node_id n) q →
  (∀ root, last (n :: q.*2) = Some root → deposit ∈ inputs_of root) →
  spends_down deposit (Some (node_txid n)) tl →
  spends_down deposit None (reverse (n :: q.*2) ++ tl).
Proof using Htree.
  induction q as [|[i m] q IH]; intros n tl Hn Hp Hd Htl.
  - simpl. split_and!; [done|by apply Hd|done].
  - inversion Hp as [|i' m' q' Hi Hq Hpar]; subst.
    rewrite reverse_cons, <- app_assoc. apply IH; [by eexists|done|by apply Hd|].
    simpl. split_and!; [done| |done]. destruct Hn as [j Hj]. by eapply ct_parent.
Qed.

(** The chain of a leaf spends downwards, from its root's first input. *)
Lemma exit_chain_spends i leaf chain root o :
  nodes !! i = Some leaf → walk_unilateral_exit_chain nodes leaf = Ok chain →
  head chain = Some root → head (tx_input (node_tx root)) = Some o →
  spends_down (previous_output o) None chain.
Proof using Htree.
  intros Hi (p & Hp & ->)%walk_exit_chain_path Hroot Ho.
  rewrite <- (app_nil_r (reverse _)). apply path_spends; [by eexists|done| |done].
  intros root' Hr. rewrite head_reverse in Hroot. assert (root' = root) as -> by congruence.
  apply list_elem_of_fmap_2. by apply head_Some_elem_of.
Qed.

(** ** The walk *)

(** A spend of the leaf's output by its own direct transaction: mined, or only
    answered as unconfirmed. *)
Definition direct_spend (idx : ObservedIndex) n : Prop :=
  is_Some (direct_refund_tx n) ∧ ∃ d o, direct_tx n = Some d ∧ o ∈ inputs_of n ∧
    (spent_by chain_state o = Some (compute_txid d) ∨
     spent_by chain_state o = None ∧ ∃ h, get idx (ChainQuery.Outspend o) = Some (ChainResult.Spend
       (Some {| spender_txid := compute_txid d; spend_confirmed := false; spend_block_height := h |}))).

Section walked.
Context (ids : list TreeNodeId) (idx : ObservedIndex).

(** What is recorded is so: by CPFP the node's own transaction was mined; otherwise it
    was not, and the node is a requested leaf that its direct transaction spends. *)
Definition sound w : Prop :=
  ∀ i s, walk_nodes w !! i = Some s → ∃ n, nodes !! i = Some n ∧
    match s with
    | ConfirmedCpfp _ => in_block n
    | ConfirmedDirect _ => ¬ in_block n ∧ i ∈ ids ∧ direct_spend idx n
    end.

(** A step only adds. *)
Definition extends w w' : Prop :=
  dom (walk_nodes w) ⊆ dom (walk_nodes w') ∧ walk_stopped w ⊆ walk_stopped w' ∧
  (walk_pending w' = [] → walk_pending w = []).

#[export] Instance extends_preorder : PreOrder extends.
Proof. split; [done|]. intros w1 w2 w3 (? & ? & ?) (? & ? & ?). split_and!; [set_solver..|auto]. Qed.

(** A branch has been read: it is stopped, or its mined nodes are recorded. *)
Definition read (leaf_id : TreeNodeId) (ns : list TreeNode) w : Prop :=
  walk_pending w = [] → leaf_id ∈ walk_stopped w ∨
  ∀ n, n ∈ ns → in_block n → is_Some (walk_nodes w !! id n).

Lemma read_extends leaf_id ns w w' : extends w w' → read leaf_id ns w → read leaf_id ns w'.
Proof.
  intros (Hd & Hs & Hp) Hr Hp'. destruct (Hr (Hp Hp')) as [?|Hn]; [left; set_solver|right].
  intros n Hin Hb. apply elem_of_dom. apply Hd, elem_of_dom. auto.
Qed.

Lemma sound_insert w i n h :
  sound w → nodes !! i = Some n → in_block n → sound (insert_node i (ConfirmedCpfp h) w).
Proof.
  intros Hs Hi Hb j s. unfold insert_node. simpl. intros [[<- <-]|[_ ?]]%lookup_insert_Some; [by exists n|auto].
Qed.

Lemma extends_insert w i s : extends w (insert_node i s w).
Proof. split_and!; [simpl; set_solver|done|done]. Qed.

(** The leaf closes its branch. *)
Fixpoint leaf_last (leaf_id : TreeNodeId) (ns : list TreeNode) : Prop :=
  match ns with
  | [] => True
  | n :: ns => (id n = leaf_id → ns = []) ∧ leaf_last leaf_id ns
  end.

Definition step_exact (leaf_id : TreeNodeId) ns w w' : Prop :=
  sound w' ∧ extends w w' ∧ read leaf_id ns w'.

Lemma stop_exact leaf_id ns w : sound w → step_exact leaf_id ns w (insert_stopped leaf_id w).
Proof.
  intros Hw. split_and!; [done| |].
  - split_and!; [done|simpl; set_solver|done].
  - intros _. left. simpl. set_solver.
Qed.

Lemma push_exact leaf_id ns q w : sound w → step_exact leaf_id ns w (push_pending q w).
Proof.
  intros Hw. split_and!; [done| |].
  - split_and!; [done|done|]. simpl. by intros [? _]%app_nil.
  - intros Hp. simpl in Hp. by apply app_nil in Hp as [_ ?].
Qed.

Lemma direct_exact leaf_id n ns h w :
  nodes !! id n = Some n → ¬ in_block n → id n ∈ ids → direct_spend idx n →
  read leaf_id ns w → sound w →
  step_exact leaf_id ns w
    (insert_refund leaf_id DriveDirect (insert_node (id n) (ConfirmedDirect h) w)).
Proof.
  intros Hi Hn Hid Hsp Hr Hw. assert (extends w (insert_refund leaf_id DriveDirect
    (insert_node (id n) (ConfirmedDirect h) w))) as He.
  { split_and!; [simpl; set_solver|done|done]. }
  split_and!; [|done|by eapply read_extends].
  intros j s. simpl. intros [[<- <-]|[_ ?]]%lookup_insert_Some; [by exists n|auto].
Qed.

Lemma branch_loop_exact leaf_id deposit ns prev w :
  honest idx → leaf_id ∈ ids → spends_down deposit prev ns → leaf_last leaf_id ns → sound w →
  step_exact leaf_id ns w (branch_loop leaf_id deposit idx ns prev w).
Proof using Hkeyed Htree.
  intros [_ Hh] Hids. revert prev w. induction ns as [|n ns IH]; intros prev w Hsp Hll Hw; simpl.
  { split_and!; [done|done|]. intros _. right. by intros ? ?%elem_of_nil. }
  destruct Hsp as ((i & Hi) & Hlive & Hsp). pose proof (Hkeyed _ _ Hi) as Hid. subst i.
  destruct Hll as [Hlast Hll].
  assert (¬ in_block n → read leaf_id (n :: ns) w) as Hfront.
  { intros Hn _. right. intros m [->|Hm]%elem_of_cons Hb; [done|].
    exfalso. eapply unmined_below; [exact Hsp|by apply not_true_is_false|exact Hm|exact Hb]. }
  change (match prev with Some txid => mkOutPoint txid (vout n) | None => deposit end) with (live deposit prev n).
  destruct (get idx (ChainQuery.Outspend (live deposit prev n))) as [r|] eqn:Hr; [|by apply push_exact].
  specialize (Hh _ _ Hr).
  assert (in_block n → spent_by chain_state (live deposit prev n) = Some (node_txid n)) as Hsb
    by (intros Hb; by eapply ct_spends).
  set (o := live deposit prev n) in *.
  assert (∀ info, ¬ in_block n → (spent_by chain_state o = Some (spender_txid info) ∨
      spent_by chain_state o = None ∧ r = ChainResult.Spend (Some info) ∧ spend_confirmed info = false) →
    step_exact leaf_id (n :: ns) w
      (if bool_decide (id n = leaf_id) && bool_decide (compute_txid <$> direct_tx n = Some (spender_txid info))
       then match direct_refund_tx n with
            | Some _ => insert_refund leaf_id DriveDirect
                (insert_node (id n) (ConfirmedDirect (spend_block_height info)) w)
            | None => insert_stopped leaf_id w end
       else insert_stopped leaf_id w)) as Hother.
  { intros [t conf h] Hn Hwho. simpl in Hwho. destruct (_ && _) eqn:Hd; [|by apply stop_exact].
    apply andb_true_iff in Hd as [Hleaf%bool_decide_eq_true Hd%bool_decide_eq_true].
    simpl in Hd. apply fmap_Some in Hd as (d & Hd & ->).
    destruct (direct_refund_tx n) as [dr|] eqn:Hdr; [|by apply stop_exact].
    apply direct_exact; auto; [congruence|]. split; [by rewrite Hdr|].
    exists d, o. split_and!; [done..|]. destruct Hwho as [?|(? & -> & ->)]; [by left|right].
    split; [done|]. by exists h. }
  destruct (spent_by chain_state o) as [t|] eqn:Ht.
  - destruct Hh as [h ->]. cbn [spender_txid spend_confirmed spend_block_height].
    destruct (decide (t = compute_txid (node_tx n))) as [Hspend|Hspend].
    + assert (in_block n) as Hb.
      { unfold in_block, node_txid. rewrite <- Hspend. by eapply ct_mined. }
      set (w1 := insert_node (id n) (ConfirmedCpfp h) w).
      assert (sound w1) as Hw1 by by eapply sound_insert.
      assert (is_Some (walk_nodes w1 !! id n)) as Hin by (simpl; rewrite lookup_insert_eq; by eexists).
      case_bool_decide as Hleaf.
      * split_and!; [done|apply extends_insert|]. intros _. right. rewrite (Hlast Hleaf).
        by intros m ->%list_elem_of_singleton.
      * destruct (IH (Some (node_txid n)) w1 Hsp Hll Hw1) as (Hs' & He' & Hr').
        split_and!; [done|etransitivity; [apply extends_insert|done]|].
        intros Hp. destruct (Hr' Hp) as [?|Hn']; [by left|right].
        intros m [->|Hm]%elem_of_cons Hbm; [|auto]. destruct He' as (Hd & _).
        apply elem_of_dom, Hd, elem_of_dom. exact Hin.
    + apply (Hother {| spender_txid := t; spend_confirmed := true; spend_block_height := h |}); [|by left].
      intros Hb. specialize (Hsb Hb). by simplify_eq.
  - assert (¬ in_block n) as Hn by (intros Hb; specialize (Hsb Hb); done).
    destruct Hh as [->|(info & -> & Hconf)]; [split_and!; [done|done|auto]|].
    rewrite Hconf. destruct (decide (spender_txid info = _)); [split_and!; [done|done|auto]|].
    apply Hother; auto.
Qed.

Lemma resume_loop_below cands i h q :
  honest idx → resume_loop idx cands = (Below i h, q) → ∃ n, (i, n) ∈ cands ∧ in_block n.
Proof.
  intros [Hh _]. induction cands as [|[j n] cands IH]; simpl; [done|].
  destruct (get idx _) as [r|] eqn:Hr; [|done]. destruct (Hh _ _ Hr) as [h' ->].
  destruct (mined chain_state (compute_txid (node_tx n))) eqn:Hm.
  - intros [= -> _ _]. exists n. split; [left|done].
  - intros (m & ? & ?)%IH. exists m. split; [by right|done].
Qed.

Lemma insert_resumed_exact chain k h w :
  sound w → (∀ n, n ∈ take (S k) chain → (∃ i, nodes !! i = Some n) ∧ in_block n) →
  let w' := insert_resumed chain k h w in
  sound w' ∧ extends w w' ∧ ∀ n, n ∈ take (S k) chain → is_Some (walk_nodes w' !! id n).
Proof using Hkeyed Htree.
  intros Hw Hin. unfold insert_resumed. generalize (take (S k) chain), Hin. clear Hin.
  intros ns. cbv zeta.
  assert (∀ j w, sound w → (∀ n, n ∈ ns → (∃ i, nodes !! i = Some n) ∧ in_block n) →
    let w' := foldl (λ w p, insert_node (id p.2) (ConfirmedCpfp (if (p.1 =? k)%nat then h else None)) w)
      w (imap (λ i n, ((j + i)%nat, n)) ns) in
    sound w' ∧ extends w w' ∧ ∀ n, n ∈ ns → is_Some (walk_nodes w' !! id n)) as Hgen.
  { clear w Hw. induction ns as [|n ns IH]; intros j w Hw Hin; simpl.
    { split_and!; [done|done|]. by intros ? ?%elem_of_nil. }
    destruct (Hin n ltac:(left)) as [[i Hi] Hb]. pose proof (Hkeyed _ _ Hi) as Hid. subst i.
    set (w1 := insert_node (id n) _ w).
    assert (sound w1) as Hw1 by by eapply sound_insert.
    destruct (IH (S j) w1 Hw1 ltac:(intros; apply Hin; by right)) as (Hs & He & Hr).
    replace (imap ((λ i n0, ((j + i)%nat, n0)) ∘ S) ns) with (imap (λ i n, ((S j + i)%nat, n)) ns)
      by (apply imap_ext; intros; simpl; f_equal; lia).
    split_and!; [done|etransitivity; [apply extends_insert|done]|].
    intros m [->|Hm]%elem_of_cons; [|auto]. destruct He as (Hd & _). apply elem_of_dom, Hd, elem_of_dom.
    simpl. rewrite lookup_insert_eq. by eexists. }
  intros Hin. apply (Hgen 0%nat w Hw Hin).
Qed.

Lemma exit_chain_last i leaf chain :
  nodes !! i = Some leaf → walk_unilateral_exit_chain nodes leaf = Ok chain →
  leaf_last i chain.
Proof using Hkeyed Htree.
  intros Hi Hw. pose proof (Hkeyed _ _ Hi) as <-.
  destruct (walk_exit_chain_path _ _ _ Hw) as (p & Hp & ->).
  destruct (walk_ancestors_chain leaf nodes Hkeyed Hi p Hp) as (_ & Hnd & _). clear Hw Hi Hp.
  csimpl in Hnd. apply NoDup_cons in Hnd as [Hnd _]. rewrite reverse_cons.
  assert (id leaf ∉ id <$> reverse p.*2) as Hnin by (by rewrite fmap_reverse, elem_of_reverse).
  induction (reverse p.*2) as [|m l IH]; simpl; [done|]. csimpl in Hnin.
  apply not_elem_of_cons in Hnin as [? ?]. split; [congruence|auto].
Qed.

Lemma in_map_of_chain i leaf chain n :
  nodes !! i = Some leaf → walk_unilateral_exit_chain nodes leaf = Ok chain → n ∈ chain →
  ∃ j, nodes !! j = Some n.
Proof. apply chain_in_map. Qed.

Lemma leaf_last_drop i ns k : leaf_last i ns → leaf_last i (drop k ns).
Proof. revert ns. induction k as [|k IH]; intros [|n ns] Hl; simpl in *; try done. apply IH, Hl. Qed.

Lemma walk_branch_exact leaf_id leaf chain w :
  honest idx → leaf_id ∈ ids → nodes !! leaf_id = Some leaf → walk_unilateral_exit_chain nodes leaf = Ok chain →
  sound w → step_exact leaf_id chain w (walk_branch nodes leaf_id idx w).
Proof using Hkeyed Htree.
  intros Hh Hids Hi Hw Hs. unfold walk_branch. rewrite Hi, Hw.
  pose proof (exit_chain_last _ _ _ Hi Hw) as Hll.
  destruct (head chain) as [root|] eqn:Hroot.
  2:{ destruct (walk_exit_chain_path _ _ _ Hw) as (p & _ & ->). rewrite head_reverse in Hroot.
      by apply last_None in Hroot. }
  destruct (in_map_of_chain _ _ _ root Hi Hw ltac:(by apply head_Some_elem_of)) as [j Hj].
  cbn [mbind option_bind]. destruct (head (tx_input (node_tx root))) as [o|] eqn:Ho.
  2:{ apply (ct_inputs Htree) in Hj. by destruct (tx_input (node_tx root)). }
  pose proof (exit_chain_spends _ _ _ _ _ Hi Hw Hroot Ho) as Hsp. cbn [mbind option_bind].
  destruct (resume_point chain idx) as [r q] eqn:Hr. unfold resume_point in Hr.
  pose proof (resume_loop_asks _ _ _ _ Hr) as [Hq _]. destruct q as [q|].
  { destruct Hq as [-> _]. by apply push_exact. }
  destruct r as [k h| |]; [|by apply branch_loop_exact|done].
  apply (resume_loop_below _ _ _ _ Hh) in Hr as (n & [Hk _]%candidates_elem & Hb).
  assert (∀ m, m ∈ take (S k) chain → (∃ i, nodes !! i = Some m) ∧ in_block m) as Habove.
  { intros m [x Hx]%list_elem_of_lookup. apply lookup_take_Some in Hx as [Hx Hlt]. split.
    - eapply (in_map_of_chain leaf_id leaf chain); [done..|]. by eapply list_elem_of_lookup_2.
    - eapply mined_above; [done|exact Hk|done|exact Hx|lia]. }
  destruct (insert_resumed_exact chain k h w Hs Habove) as (Hs1 & He1 & Hin1).
  set (w1 := insert_resumed chain k h w) in *. case_match eqn:Hlen.
  - apply Nat.leb_le in Hlen. split_and!; [done|done|]. intros _. right. intros m Hm _. apply Hin1.
    by rewrite take_ge by lia.
  - replace (k + 1 - 1)%nat with k by lia. rewrite Hk. cbn [option_bind mbind].
    replace (k + 1)%nat with (S k) by lia.
    destruct (branch_loop_exact leaf_id (previous_output o) (drop (S k) chain) (Some (node_txid n)) w1)
      as (Hs' & He' & Hr'); [done|done|by eapply spends_down_drop|by apply leaf_last_drop|done|].
    split_and!; [done|by etransitivity|]. intros Hp. destruct (Hr' Hp) as [?|Hn]; [by left|right].
    intros m Hm Hbm. rewrite <- (take_drop (S k) chain) in Hm. apply elem_of_app in Hm as [Hm|Hm]; [|auto].
    destruct He' as (Hd & _). apply elem_of_dom, Hd, elem_of_dom. auto.
Qed.

Lemma interpret_refund_keeps i a w :
  walk_nodes (interpret_refund i a idx w) = walk_nodes w ∧ extends w (interpret_refund i a idx w).
Proof.
  assert (∀ q, walk_nodes (push_pending q w) = walk_nodes w ∧ extends w (push_pending q w)) as Hpush.
  { intros q. split; [done|]. split_and!; [done|done|]. simpl. by intros [? _]%app_nil. }
  unfold interpret_refund. repeat case_match; simplify_eq; try apply Hpush; by split_and!.
Qed.

Definition whole_branches (leaf_ids : list TreeNodeId) : Prop :=
  ∀ i, i ∈ leaf_ids → ∃ leaf chain, nodes !! i = Some leaf ∧
    walk_unilateral_exit_chain nodes leaf = Ok chain.

Lemma walk_exact leaf_ids addrs :
  honest idx → leaf_ids ⊆ ids → whole_branches leaf_ids →
  let w := walk_exit_chain nodes leaf_ids addrs idx in
  sound w ∧ ∀ i leaf chain, i ∈ leaf_ids → nodes !! i = Some leaf →
    walk_unilateral_exit_chain nodes leaf = Ok chain → read i chain w.
Proof using Hkeyed Htree.
  intros Hh Hids Hwhole. unfold walk_exit_chain.
  set (w1 := foldl _ ExitChainWalk_default leaf_ids).
  assert (sound w1 ∧ ∀ i leaf chain, i ∈ leaf_ids → nodes !! i = Some leaf →
    walk_unilateral_exit_chain nodes leaf = Ok chain → read i chain w1) as [Hs Hr].
  { subst w1. induction leaf_ids as [|j js IH] using rev_ind.
    { split; [by intros ? ?|]. by intros ? ? ? ?%elem_of_nil. }
    rewrite foldl_snoc. set (w0 := foldl _ _ js) in *.
    destruct IH as [Hs Hr]; [set_solver|intros i Hi; apply Hwhole; set_solver|].
    destruct (Hwhole j ltac:(set_solver)) as (leaf & chain & Hj & Hw).
    destruct (walk_branch_exact j leaf chain w0 Hh ltac:(set_solver) Hj Hw Hs) as (Hs' & He' & Hr').
    split; [done|]. intros i leaf' chain' [Hi|Hi]%elem_of_app Hi' Hw'.
    - eapply read_extends; [exact He'|]. by eapply Hr.
    - apply list_elem_of_singleton in Hi as ->. assert (leaf' = leaf) as -> by congruence.
      by assert (chain' = chain) as -> by congruence. }
  cbv zeta. clearbody w1. revert w1 Hs Hr. induction (hm_iter addrs) as [|p ps IH]; intros w1 Hs Hr; [done|].
  simpl. destruct (interpret_refund_keeps p.1 p.2 w1) as [Hn He]. apply IH.
  - intros i s Hi. rewrite Hn in Hi. by apply Hs.
  - intros. eapply read_extends; [exact He|]. by eapply Hr.
Qed.

End walked.

Lemma state_nodes_elem w c :
  c ∈ ecs_nodes (state_of_walk w) ↔ ∃ i s, walk_nodes w !! i = Some s ∧ c = confirmed_exit_node (i, s).
Proof.
  unfold state_of_walk. cbn [ecs_nodes]. rewrite stable_sort_perm, list_elem_of_fmap. split.
  - intros ([i s] & -> & ?%elem_of_hm_iter). eauto.
  - intros (i & s & ? & ->). exists (i, s). split; [done|]. by apply elem_of_hm_iter.
Qed.

Lemma sorted_elem ids i : i ∈ sorted ids ↔ i ∈ ids.
Proof. unfold sorted. rewrite stable_sort_perm. apply elem_of_elements. Qed.

(** C15: What a finished scan reports, when the answers describe one chain and nothing is
    left to ask. Every node in the result is one of the tree. It is recorded as confirmed
    by CPFP exactly if its own transaction is in a block; and along every requested branch
    that is not stopped, every node whose transaction is in a block is in the result,
    whether the walk came to it from the deposit or started below it at a node the
    operators labelled. It is recorded as confirmed by its direct transaction only if it
    is a requested leaf with a direct refund, and the spender of the output its own
    transaction would spend is its direct transaction: the mined spender if there is
    one, otherwise the one the answers report as unconfirmed (the scan does not wait for
    a block there, [unconfirmed_direct_is_reported_confirmed]). *)
Theorem scan_reports_the_chain leaf_ids addrs observed :
  honest (ObservedIndex_new observed) → whole_branches leaf_ids →
  let scan := scan_exit_chain nodes leaf_ids addrs observed in
  scan_pending scan = [] →
  (∀ c, c ∈ ecs_nodes (scan_state scan) →
     ∃ n, nodes !! cen_node_id c = Some n ∧ (confirmed_by c = Cpfp ↔ in_block n) ∧
       (confirmed_by c = Direct → cen_node_id c ∈ leaf_ids ∧ is_Some (direct_refund_tx n) ∧
          ∃ d o, direct_tx n = Some d ∧ o ∈ inputs_of n ∧
            (spent_by chain_state o = Some (compute_txid d) ∨
             spent_by chain_state o = None ∧ ∃ h,
               get (ObservedIndex_new observed) (ChainQuery.Outspend o) = Some (ChainResult.Spend
                 (Some {| spender_txid := compute_txid d; spend_confirmed := false;
                          spend_block_height := h |}))))) ∧
  (∀ i leaf chain n, i ∈ leaf_ids → nodes !! i = Some leaf →
     walk_unilateral_exit_chain nodes leaf = Ok chain →
     i ∉ stopped_leaves (scan_state scan) → n ∈ chain → in_block n →
     ∃ c, c ∈ ecs_nodes (scan_state scan) ∧ cen_node_id c = id n ∧ confirmed_by c = Cpfp).
Proof using Hkeyed Htree.
  intros Hh Hwhole scan Hp. unfold scan, scan_exit_chain in *. cbn [scan_state scan_pending] in *.
  destruct (walk_exact leaf_ids _ leaf_ids addrs Hh (reflexivity _) Hwhole) as [Hs Hr]. cbv zeta in Hs, Hr.
  set (w := walk_exit_chain nodes leaf_ids addrs _) in *.
  assert (walk_pending w = []) as Hpend.
  { destruct (walk_pending w) as [|q qs]; [done|]. simpl in Hp. by rewrite decide_False in Hp by set_solver. }
  split.
  - intros c (i & s & Hi & ->)%state_nodes_elem. destruct (Hs i s Hi) as (n & Hn & Hb).
    exists n. destruct s; simpl; (split; [done|]); [by split|].
    destruct Hb as (Hb & Hi' & Hd & Hsp). split; [by split; intros|]. by intros _.
  - intros i leaf chain n Hi Hl Hw Hst Hn Hb. cbn [state_of_walk stopped_leaves] in Hst.
    rewrite sorted_elem in Hst. destruct (Hr i leaf chain Hi Hl Hw Hpend) as [?|Hrec]; [done|].
    destruct (Hrec n Hn Hb) as [s Hsn]. destruct (Hs _ _ Hsn) as (m & Hm & Hbm).
    destruct (in_map_of_chain _ _ _ n Hl Hw Hn) as [j Hj]. pose proof (Hkeyed _ _ Hj) as <-.
    assert (m = n) as -> by congruence.
    exists (confirmed_exit_node (id n, s)). split; [apply state_nodes_elem; eauto|].
    destruct s; [done|]. by destruct Hbm as [[] _].
Qed.
End exact.

(** ** Witness: the root of the sample tree is in a block *)

#[local] Existing Instances btc68 btctx68.

Definition root_txid : positive := compute_txid (root_tx : Transaction).
Definition deposit_outpoint : OutPoint positive := mkOutPoint 1%positive 0.

(** Only [r] and the deposit are in blocks, and [r] spends the deposit. *)
Definition chain_of (r : positive) : @Chain btc68 btctx68 := {|
  mined_at i := if decide ((i : positive) = r ∨ (i : positive) = 1%positive) then Some 100 else None;
  spent_by o := if decide (o = deposit_outpoint) then Some r else None;
  tx_of _ := None;
|}.
Definition observed_of (r : positive) : list Observation := [
  mkObservation (ChainQuery.TxConfirmed (r : Txid)) (ChainResult.Confirmed true (Some 100));
  mkObservation (ChainQuery.Outspend (mkOutPoint r 0 : OutPoint Txid)) (ChainResult.Spend None)].

Definition sample_chain : @Chain btc68 btctx68 := chain_of root_txid.
Definition sample_observed : list Observation := observed_of root_txid.

Lemma get_observed `{BitcoinTx} obs q r :
  get (ObservedIndex_new obs) q = Some r → ∃ o, o ∈ obs ∧ obs_query o = q ∧ obs_result o = r.
Proof.
  rewrite get_index. intros (o & Ho & ->)%fmap_Some.
  apply head_Some_elem_of, list_elem_of_filter in Ho as [Hq Ho]. by exists o.
Qed.

Lemma chain_of_honest r : r ≠ 1%positive → honest (chain_of r) (ObservedIndex_new (observed_of r)).
Proof.
  intros Hr. split.
  - intros i res (o & Ho & Hq & <-)%get_observed.
    apply elem_of_cons in Ho as [->|Ho]; [|apply list_elem_of_singleton in Ho as ->; done].
    injection Hq as <-. exists (Some 100). unfold mined. simpl. by rewrite decide_True by by left.
  - intros p res (o & Ho & Hq & <-)%get_observed.
    apply elem_of_cons in Ho as [->|Ho]; [done|]. apply list_elem_of_singleton in Ho as ->.
    injection Hq as <-. simpl. rewrite decide_False by (unfold deposit_outpoint; congruence). by left.
Qed.

Lemma chain_of_mined r o t : spent_by (chain_of r) o = Some t → mined (chain_of r) t = true.
Proof.
  simpl. case_decide; [|done]. intros [= <-]. unfold mined. simpl. by rewrite decide_True by by left.
Qed.

Lemma sample_links : chain_of_tree sample_chain (sample_tree TreeNodeStatus.OnChain).
Proof.
  assert (∀ n, n ∈ sample_nodes TreeNodeStatus.OnChain → n = exit_node "root" None 0 30000 root_tx None TreeNodeStatus.OnChain ∨
    mined sample_chain (node_txid n) = false) as Hcases.
  { intros n Hn. apply elem_of_cons in Hn as [->|Hn]; [by left|right].
    revert n Hn. apply Forall_forall. repeat constructor; vm_compute; reflexivity. }
  split.
  - apply chain_of_mined.
  - intros i n o [Hn _]%index_by_id_Some Hb Ho. destruct (Hcases n Hn) as [->|Hm].
    + apply list_elem_of_singleton in Ho as ->. split; vm_compute; reflexivity.
    + unfold in_block in Hb. congruence.
  - intros i n [Hn _]%index_by_id_Some. revert n Hn. apply Forall_forall. by repeat constructor.
  - intros i j n p [Hn _]%index_by_id_Some [Hp <-]%index_by_id_Some Hpar.
    assert (Forall (λ n, Forall (λ p, parent_node_id n = Some (id p) →
      mkOutPoint (node_txid p) (vout n) ∈ inputs_of n) (sample_nodes TreeNodeStatus.OnChain))
      (sample_nodes TreeNodeStatus.OnChain)) as Hall.
    { apply (bool_decide_unpack _). vm_compute. exact I. }
    rewrite Forall_forall in Hall. specialize (Hall n Hn). rewrite Forall_forall in Hall. by apply Hall.
Qed.

Example scan_reports_the_chain_witness :
  ∃ c, c ∈ ecs_nodes (scan_state (@scan_exit_chain _ _ (canonical_iter TreeNodeId)
      (sample_tree TreeNodeStatus.OnChain) ["a"%string] ∅ sample_observed)) ∧
    cen_node_id c = "root"%string ∧ confirmed_by c = Cpfp.
Proof.
  destruct (@scan_reports_the_chain _ _ (canonical_iter TreeNodeId) sample_chain
    (sample_tree TreeNodeStatus.OnChain) (sample_keyed _) sample_links ["a"%string] ∅ sample_observed)
    as [_ Hcomplete].
  - apply chain_of_honest. by vm_compute.
  - intros i ->%list_elem_of_singleton.
    eexists _, [exit_node "root" None 0 30000 root_tx None TreeNodeStatus.OnChain; _].
    split; reflexivity.
  - apply nil_length_inv. vm_compute. reflexivity.
  - eapply (Hcomplete "a"%string _ _ (exit_node "root" None 0 30000 root_tx None TreeNodeStatus.OnChain)).
    + left.
    + reflexivity.
    + reflexivity.
    + apply (bool_decide_unpack _). vm_compute. exact I.
    + left.
    + vm_compute. reflexivity.
Defined.

(** ** An unconfirmed direct spend

    A leaf with a direct transaction of its own, at the top of its tree. *)

Definition leaf_direct_tx : tx68 := sample_tx 1 0 [9000].
Definition direct_leaf : TreeNode := {|
  id := "a"; tree_id := "tree"; value := 10000; parent_node_id := None;
  node_tx := (root_tx : Transaction); refund_tx := Some (a_refund : Transaction);
  direct_tx := Some (leaf_direct_tx : Transaction); direct_refund_tx := Some (a_refund : Transaction);
  direct_from_cpfp_refund_tx := None; vout := 0; verifying_public_key := ("vk" : @PublicKey btc68);
  owner_identity_public_key := None;
  signing_keyshare := {| owner_identifiers := []; threshold := 2; ks_public_key := ("ks" : @PublicKey btc68) |};
  status := TreeNodeStatus.Available |}.

Definition direct_in_mempool : list Observation := [
  mkObservation (ChainQuery.Outspend (deposit_outpoint : OutPoint Txid))
    (ChainResult.Spend (Some {| spender_txid := (compute_txid (leaf_direct_tx : Transaction));
                                spend_confirmed := false; spend_block_height := None |}))].

(** A leaf whose output is spent by its direct transaction in the mempool is
    reported as confirmed: for the direct transaction, unlike for the node's own,
    the scan does not look at whether the spender is in a block. *)
Theorem unconfirmed_direct_is_reported_confirmed :
  let scan := @scan_exit_chain _ _ (canonical_iter TreeNodeId) {["a"%string := direct_leaf]}
    ["a"%string] ∅ direct_in_mempool in
  length (scan_pending scan) = 0%nat ∧
  ecs_nodes (scan_state scan) =
    [{| cen_node_id := "a"; confirmed_by := Direct; cen_block_height := None |}].
Proof. vm_compute. split; reflexivity. Qed.
