(* ===== verification/ExitCheck.v ===== *)
(** * Following an exit: [spark-wallet/src/unilateral_exit.rs]

    Two more scans of the kind of [ExitScan]. [scan_funding] follows the UTXOs a
    caller offered to what they are worth now; [check_exit_chain] reads an exit the
    caller kept back against the chain. Both take the lookups made so far and say
    which are still missing. *)

From S2P Require Import Prelude Bitcoin BitcoinTx TreeModel SparkTx ExitPlan ExitScan.

Section funding.
Context {B : Bitcoin} {BT : BitcoinTx} `{!HashIter (OutPoint Txid)}.
Implicit Types (index : ObservedIndex) (input : CpfpInput).

Record FundingScan := { fs_inputs : list CpfpInput; fs_pending : list ChainQuery.t }.

(** The variables of the loop. [frontier] is the [Vec] with its end, where [pop]
    takes from, first. *)
Record FundingState := mkFunding {
  fu_inputs : gmap (OutPoint Txid) CpfpInput;
  fu_pending : list ChainQuery.t;
  fu_visited : gset (OutPoint Txid);
  frontier : list CpfpInput;
}.

(** [for (vout, out) in tx.output.iter().enumerate()] *)
Definition followed (input : CpfpInput) (spender : Txid) (outputs : list (TxOut ScriptBuf))
    : list CpfpInput :=
  omap (λ p,
    if decide (script_pubkey p.2 = script_pubkey (witness_utxo input)) then
      if decide (in_uint 32 (Z.of_nat p.1)) then
        Some (mkCpfpInput (mkOutPoint spender (Z.of_nat p.1)) p.2 (signed_input_weight input))
      else None
    else None) (imap pair outputs).

(** One round of [while let Some(input) = frontier.pop()]. *)
Definition funding_round index (st : FundingState) : FundingState + FundingState :=
  match frontier st with
  | [] => inr st
  | input :: rest =>
      let '(mkFunding inputs pending visited _) := st in
      if decide (outpoint input ∈ visited) then inl (mkFunding inputs pending visited rest) else
      let visited := {[outpoint input]} ∪ visited in
      let query := ChainQuery.Outspend (outpoint input) in
      let keep := <[outpoint input := input]> inputs in
      inl match get index query with
      | None => mkFunding keep (pending ++ [query]) visited rest
      | Some (ChainResult.Spend (Some info)) =>
          if spend_confirmed info then
            let spender := spender_txid info in
            let tx_query := ChainQuery.Transaction spender in
            match get index tx_query with
            | Some (ChainResult.Transaction tx) =>
                mkFunding inputs pending visited
                  (reverse (followed input spender (tx_output tx)) ++ rest)
            | Some _ => mkFunding inputs pending visited rest
            | None => mkFunding inputs (pending ++ [tx_query]) visited rest
            end
          else mkFunding keep pending visited rest
      | Some _ => mkFunding keep pending visited rest
      end
  end.

(** The outputs an observed spend can put on the frontier. *)
Definition spend_outputs index (q : ChainQuery.t) : nat :=
  match q, get index q with
  | ChainQuery.Outspend _, Some (ChainResult.Spend (Some info)) =>
      match get index (ChainQuery.Transaction (spender_txid info)) with
      | Some (ChainResult.Transaction tx) => length (tx_output tx)
      | _ => 0
      end
  | _, _ => 0
  end.

(** Every round takes one element off the frontier, and an outpoint adds its
    followed outputs once. *)
Definition funding_fuel index (supplied : list CpfpInput) : nat :=
  S (length supplied + sum_list (spend_outputs index <$> elements (dom index))).

(** [(outpoint.txid, outpoint.vout)] *)
Definition input_key_le (a b : CpfpInput) : bool := outpoint_leb (outpoint a) (outpoint b).

Definition scan_funding (supplied : list CpfpInput) (observed : list Observation) : FundingScan :=
  let index := ObservedIndex_new observed in
  let st := match rounds (funding_fuel index supplied) (funding_round index)
                    (mkFunding ∅ [] ∅ (reverse supplied)) with inl st | inr st => st end in
  {| fs_inputs := stable_sort input_key_le (hm_values (fu_inputs st));
     fs_pending := retain_unseen ∅ (fu_pending st) |}.
End funding.

(** ** Reading an exit back *)

Section check.
Context {B : Bitcoin} {BT : BitcoinTx}.

Record ExitCheckInput := mkCheckInput {
  eci_tx : Transaction;
  eci_cpfp : option Transaction;
  eci_confirmed : bool;
}.

Record ExitCheck := mkCheck {
  chk_confirmed : gmap Txid (option Z);
  chk_diverged : bool;
  chk_not_confirmed : gset Txid;
  chk_pending : list ChainQuery.t;
}.

Implicit Types (index : ObservedIndex) (input : ExitCheckInput) (by_txid : gmap Txid ExitCheckInput).

Definition input_txid input : Txid := compute_txid (eci_tx input).

Definition spend_parents input by_txid : list Txid :=
  filter (λ t, is_Some (by_txid !! t))
    ((λ i, txid (previous_output i)) <$> tx_input (eci_tx input)).

Definition ours input (spender : Txid) : bool :=
  bool_decide (spender = input_txid input) ||
  match eci_cpfp input with
  | Some cpfp => bool_decide (compute_txid cpfp = spender)
  | None => false
  end.

(** [while let Some(txid) = stack.pop()], the end of the stack first. *)
Fixpoint mark_loop (fuel : nat) by_txid (stack : list Txid) (confirmed : gmap Txid (option Z))
    (settled : gset Txid) : gmap Txid (option Z) * gset Txid :=
  match fuel, stack with
  | S fuel, t :: stack =>
      if decide (t ∈ settled) then mark_loop fuel by_txid stack confirmed settled else
      let settled := {[t]} ∪ settled in
      let confirmed := match confirmed !! t with
        | Some _ => confirmed
        | None => <[t := None]> confirmed
        end in
      let stack := match by_txid !! t with
        | Some input => reverse (spend_parents input by_txid) ++ stack
        | None => stack
        end in
      mark_loop fuel by_txid stack confirmed settled
  | _, _ => (confirmed, settled)
  end.

(** Each transaction's inputs go on the stack at most once. *)
Definition mark_fuel by_txid : nat :=
  S (sum_list ((λ p, length (tx_input (eci_tx p.2))) <$> map_to_list by_txid)).

Definition mark_settled by_txid (t : Txid) (confirmed : gmap Txid (option Z)) (settled : gset Txid)
    : gmap Txid (option Z) * gset Txid :=
  mark_loop (mark_fuel by_txid) by_txid [t] confirmed settled.

(** The variables of the first loop. *)
Record CheckState := mkCheckState {
  cs_confirmed : gmap Txid (option Z);
  cs_settled : gset Txid;
  cs_not_confirmed : gset Txid;
  cs_pending : list ChainQuery.t;
}.

(** [for input in txs.iter().rev()] *)
Definition backward_step index by_txid (st : CheckState) input : CheckState :=
  let '(mkCheckState confirmed settled not_confirmed pending) := st in
  let t := input_txid input in
  if decide (t ∈ settled) then st
  else if negb (eci_confirmed input) then st
  else
    let query := ChainQuery.TxConfirmed t in
    match get index query with
    | Some (ChainResult.Confirmed true block_height) =>
        let '(confirmed, settled) := mark_settled by_txid t (<[t := block_height]> confirmed) settled in
        mkCheckState confirmed settled not_confirmed pending
    | Some (ChainResult.Confirmed false _) =>
        mkCheckState confirmed ({[t]} ∪ settled) ({[t]} ∪ not_confirmed) pending
    | Some _ => mkCheckState confirmed ({[t]} ∪ settled) not_confirmed pending
    | None => mkCheckState confirmed settled not_confirmed (pending ++ [query])
    end.

(** [(confirmed, diverged, pending)], the variables of the second loop *)
Definition ForwardState : Type := gmap Txid (option Z) * bool * list ChainQuery.t.

(** [for outpoint in outpoints] *)
Definition outpoint_step index input (st : ForwardState) (o : OutPoint Txid) : ForwardState :=
  let '(confirmed, diverged, pending) := st in
  let t := input_txid input in
  let query := ChainQuery.Outspend o in
  match get index query with
  | Some (ChainResult.Spend (Some info)) =>
      if spend_confirmed info then
        if decide (spender_txid info = t) then (<[t := spend_block_height info]> confirmed, diverged, pending)
        else if ours input (spender_txid info) then st
        else (confirmed, true, pending)
      else st
  | None => (confirmed, diverged, pending ++ [query])
  | Some _ => st
  end.

(** The anchor outputs the transaction's own child spends. *)
Definition anchor_outpoints input : list (OutPoint Txid) :=
  match eci_cpfp input with
  | Some cpfp => filter (λ o, txid o = input_txid input) (previous_output <$> tx_input cpfp)
  | None => []
  end.

(** [for input in txs] *)
Definition forward_step index by_txid (st : ForwardState) input : ForwardState :=
  let '(confirmed, _, _) := st in
  if decide (is_Some (confirmed !! input_txid input)) then st
  else if decide (Forall (λ parent, is_Some (confirmed !! parent)) (spend_parents input by_txid)) then
    match head (tx_input (eci_tx input)) with
    | None => st
    | Some i =>
        foldl (outpoint_step index input) st (previous_output i :: anchor_outpoints input)
    end
  else st.

Definition by_txid_of (txs : list ExitCheckInput) : gmap Txid ExitCheckInput :=
  hm_collect ((λ t, (input_txid t, t)) <$> txs).

Definition check_exit_chain (txs : list ExitCheckInput) (observed : list Observation) : ExitCheck :=
  let index := ObservedIndex_new observed in
  let by_txid := by_txid_of txs in
  let st := foldl (backward_step index by_txid) (mkCheckState ∅ ∅ ∅ []) (reverse txs) in
  let '(confirmed, diverged, pending) :=
    match cs_pending st with
    | [] => foldl (forward_step index by_txid) (cs_confirmed st, false, []) txs
    | pending => (cs_confirmed st, false, pending)
    end in
  {| chk_confirmed := confirmed;
     chk_diverged := diverged;
     chk_not_confirmed := filter (λ t, confirmed !! t = None) (cs_not_confirmed st);
     chk_pending := retain_unseen ∅ pending |}.
End check.

(** ** Driving the two scans *)

Section drive.
Context {B : Bitcoin} {BT : BitcoinTx} {W : Type} (execute_chain_query : ChainQuery.t → W → ChainResult.t * W).

Definition resolve_exit_check (fuel : nat) (inputs : list ExitCheckInput) (world : W) :=
  rounds fuel (resolve_round execute_chain_query (λ observed,
    let check := check_exit_chain inputs observed in (check, chk_pending check))) ([], world).

Definition resolve_funding `{!HashIter (OutPoint Txid)} (fuel : nat) (supplied : list CpfpInput) (world : W) :=
  rounds fuel (resolve_round execute_chain_query (λ observed,
    let scan := scan_funding supplied observed in (fs_inputs scan, fs_pending scan))) ([], world).
End drive.
