(* ===== verification/ExitCheckSpec.v ===== *)
(** * Correctness of following an exit *)

From S2P Require Import Prelude Bitcoin BitcoinTx TreeModel ExitChain SparkTx ExitPlan.
From S2P Require Import ExitPlanSpec ExitSample ExitScan ExitScanSpec ExitScanExact ExitCheck.

(** ** Driving a scan

    A scan whose lookups come from a finite set is over after at most one lookup
    of each. [P] is what every answer satisfies. *)

Section drive.
Context {B : Bitcoin} {BT : BitcoinTx} {W State : Type}.
Context (answer : ChainQuery.t → W → ChainResult.t * W).
Context (scan : list Observation → State * list ChainQuery.t).
Context (P : Observation → Prop) (Q : list ChainQuery.t).
Context (Hanswer : ∀ q w, P (mkObservation q (answer q w).1)).
Context (Hscan : ∀ obs, Forall P obs →
  NoDup (scan obs).2 ∧ ∀ q, q ∈ (scan obs).2 → q ∈ Q ∧ get (ObservedIndex_new obs) q = None).

Lemma perform_answers qs obs w obs' w' :
  Forall P obs → perform answer qs obs w = (obs', w') → Forall P obs'.
Proof using Hanswer.
  revert obs w. induction qs as [|q qs IH]; intros obs w Hobs; simpl; [by intros [= <- <-]|].
  pose proof (Hanswer q w). destruct (answer q w) as [r w1]. apply IH, Forall_app_2; [done|by constructor].
Qed.

Lemma get_unasked obs q : get (ObservedIndex_new obs) q = None → q ∉ obs_query <$> obs.
Proof.
  rewrite get_index. intros Hn (o & -> & Ho)%list_elem_of_fmap.
  destruct (filter (λ o', obs_query o' = obs_query o) obs) as [|o' l] eqn:E; [|done].
  assert (o ∈ filter (λ o', obs_query o' = obs_query o) obs) as Hin by by apply list_elem_of_filter.
  rewrite E in Hin. by apply elem_of_nil in Hin.
Qed.

Definition left_over obs : nat := sum_list (unanswered (ObservedIndex_new obs) <$> Q).

Lemma resolve_ends world :
  ∃ state observed world',
    rounds (S (length Q)) (resolve_round answer scan) ([], world) = inr (state, observed, world') ∧
    scan observed = (state, []) ∧ Forall P observed ∧
    NoDup (obs_query <$> observed) ∧ (length observed ≤ length Q)%nat.
Proof using Hanswer Hscan.
  set (Inv := λ st : list Observation * W, Forall P st.1 ∧ NoDup (obs_query <$> st.1) ∧
    ∀ q, q ∈ obs_query <$> st.1 → q ∈ Q).
  destruct (rounds_ends (resolve_round answer scan) (S (length Q)) (λ st, left_over st.1) Inv ([], world))
    as ([obs w] & [[state obs'] w'] & Hr & (HP & Hnd & Hin) & Hlast).
  - intros [obs w] [obs1 w1] (HP & Hnd & Hin). unfold resolve_round. simpl in HP, Hnd, Hin.
    destruct (Hscan obs HP) as [Hndq Hask]. destruct (scan obs) as [state pending]. simpl in *.
    destruct pending as [|q qs]; [done|]. intros Hperf.
    injection Hperf as Hperf.
    pose proof (perform_answers (q :: qs) obs w obs1 w1 HP Hperf) as HP1.
    destruct (perform_spec answer (q :: qs) obs w obs1 w1 Hperf) as (new & -> & Hnew).
    split; [split_and!; simpl; [done| |]|].
    + rewrite fmap_app, Hnew. apply NoDup_app. split_and!; [done| |done].
      intros x Hx [_ Hn]%Hask. by eapply get_unasked.
    + intros x. rewrite fmap_app, Hnew. intros [?|Hx]%elem_of_app; [auto|by apply Hask].
    + unfold left_over. pose proof (index_extends obs new) as Hs.
      eapply (sum_list_lt _ _ Q q); [intros; by apply unanswered_mono|apply Hask; by left|].
      destruct (Hask q) as [_ Hn]; [by left|].
      destruct (index_answers obs new q) as [r Hq]; [rewrite Hnew; by left|].
      unfold unanswered. rewrite Hn, Hq. lia.
  - split_and!; [constructor|constructor|by intros ? ?%elem_of_nil].
  - simpl. unfold left_over. clear. induction Q as [|q qs IH]; csimpl; [lia|].
    unfold unanswered at 1. case_match; lia.
  - exists state, obs', w'. unfold resolve_round in Hlast. simpl in *. destruct (scan obs) as [s qs] eqn:Hs.
    destruct qs; [|done]. injection Hlast as <- <- <-. split_and!; [done..|].
    rewrite <- (length_fmap obs_query). apply submseteq_length. by apply NoDup_submseteq.
Qed.
End drive.

(** ** Settling what a transaction depends on *)

Section mark.
Context {B : Bitcoin} {BT : BitcoinTx} (by_txid : gmap Txid ExitCheckInput).
Implicit Types (stack : list Txid) (confirmed : gmap Txid (option Z)) (settled : gset Txid).

(** [depends t p]: the transaction [t] of the exit spends from its transaction [p]. *)
Definition depends (t p : Txid) : Prop :=
  ∃ input, by_txid !! t = Some input ∧ p ∈ spend_parents input by_txid.

Definition inputs_left settled : nat :=
  sum_list ((λ p : Txid * ExitCheckInput,
    if decide (p.1 ∈ settled) then 0%nat else length (tx_input (eci_tx p.2))) <$> map_to_list by_txid).

Lemma parents_length input : (length (spend_parents input by_txid) ≤ length (tx_input (eci_tx input)))%nat.
Proof. unfold spend_parents. etransitivity; [apply length_filter|]. by rewrite length_fmap. Qed.

Lemma inputs_left_mono settled t : (inputs_left ({[t]} ∪ settled) ≤ inputs_left settled)%nat.
Proof. apply sum_list_le. intros p. repeat case_decide; set_solver || lia. Qed.

Lemma inputs_left_step settled t input :
  by_txid !! t = Some input → t ∉ settled →
  (inputs_left ({[t]} ∪ settled) + length (spend_parents input by_txid) ≤ inputs_left settled)%nat.
Proof.
  intros Ht Hs. pose proof (parents_length input). apply elem_of_map_to_list in Ht.
  unfold inputs_left. revert Ht. generalize (map_to_list by_txid) as l.
  intros l. induction l as [|p l IH]; [by intros ?%elem_of_nil|]. csimpl.
  assert (sum_list ((λ p : Txid * ExitCheckInput, if decide (p.1 ∈ ({[t]} ∪ settled : gset Txid))
      then 0%nat else length (tx_input (eci_tx p.2))) <$> l) ≤
    sum_list ((λ p : Txid * ExitCheckInput, if decide (p.1 ∈ settled) then 0%nat
      else length (tx_input (eci_tx p.2))) <$> l))%nat.
  { apply sum_list_le. intros q. repeat case_decide; set_solver || lia. }
  intros [<-|Hp]%elem_of_cons.
  - simpl. rewrite decide_True, decide_False by set_solver. lia.
  - specialize (IH Hp). repeat case_decide; set_solver || lia.
Qed.

(** The loop settles its stack and everything that depends on, without going through
    what was settled already, and confirms what it settles. *)
Lemma mark_loop_spec fuel stack confirmed settled c' s' :
  (length stack + inputs_left settled ≤ fuel)%nat →
  mark_loop fuel by_txid stack confirmed settled = (c', s') →
  settled ⊆ s' ∧ (∀ t, t ∈ stack → t ∈ s') ∧
  (∀ t p, t ∈ s' → t ∉ settled → depends t p → p ∈ s') ∧
  (∀ t, t ∈ s' → t ∈ settled ∨ ∃ r, r ∈ stack ∧ rtc depends r t) ∧
  (∀ t h, c' !! t = Some h ↔ confirmed !! t = Some h ∨ confirmed !! t = None ∧ h = None ∧ t ∈ s' ∧ t ∉ settled).
Proof.
  revert stack confirmed settled. induction fuel as [|fuel IH]; intros stack confirmed settled Hf;
    (destruct stack as [|t stack]; simpl in *; [|try lia]).
  1,2: solve [intros [= <- <-]; split_and!; [done|by intros ? ?%elem_of_nil|set_solver|naive_solver|naive_solver]].
  case_decide as Ht.
  { intros (H1 & H2 & H3 & H4 & H5)%IH; [|lia]. split_and!; [done| |done| |done].
    - intros x [->|?]%elem_of_cons; auto.
    - intros x [?|(r & ? & ?)]%H4; [by left|right]. exists r. split; [by right|done]. }
  set (stack' := match by_txid !! t with Some _ => _ | None => stack end).
  set (confirmed' := match confirmed !! t with Some _ => _ | None => _ end).
  intros Hm. apply IH in Hm as (H1 & H2 & H3 & H4 & H5).
  2:{ subst stack'. destruct (by_txid !! t) as [input|] eqn:Hi.
      - rewrite length_app, length_reverse. pose proof (inputs_left_step settled t input Hi Ht). lia.
      - pose proof (inputs_left_mono settled t). lia. }
  assert (∀ x, x ∈ stack' ↔ x ∈ stack ∨ depends t x) as Hst.
  { intros x. subst stack'. unfold depends. destruct (by_txid !! t) as [input|].
    - rewrite elem_of_app, elem_of_reverse. naive_solver.
    - naive_solver. }
  assert (t ∈ s') as Hts by set_solver.
  split_and!.
  - set_solver.
  - intros x [->|Hx]%elem_of_cons; [done|]. apply H2, Hst. by left.
  - intros x p Hx Hns Hd. destruct (decide (x = t)) as [->|]; [apply H2, Hst; by right|].
    apply (H3 x p); [done|set_solver|done].
  - intros x [Hx|(r & Hr & Hx)]%H4.
    + apply elem_of_union in Hx as [Hx|?]; [right|by left].
      apply elem_of_singleton in Hx as ->. exists t. split; [by left|done].
    + right. apply Hst in Hr as [Hr|Hr]; [by exists r; split; [right|]|].
      exists t. split; [by left|]. by eapply rtc_l.
  - intros x h. rewrite H5. subst confirmed'. destruct (decide (x = t)) as [->|Hne].
    + destruct (confirmed !! t) eqn:E; rewrite ?E, ?lookup_insert_eq; set_solver.
    + assert (match confirmed !! t with Some _ => confirmed | None => <[t:=None]> confirmed end !! x
        = confirmed !! x) as -> by (destruct (confirmed !! t); [done|by rewrite lookup_insert_ne]).
      set_solver.
Qed.

(** [mark_settled] on a transaction just confirmed. *)
Lemma mark_settled_spec t h confirmed settled c' s' :
  mark_settled by_txid t (<[t := h]> confirmed) settled = (c', s') →
  t ∉ settled →
  settled ⊆ s' ∧ t ∈ s' ∧
  (∀ x p, x ∈ s' → x ∉ settled → depends x p → p ∈ s') ∧
  (∀ x, x ∈ s' → x ∈ settled ∨ rtc depends t x) ∧
  (∀ x, is_Some (c' !! x) ↔ is_Some (confirmed !! x) ∨ x ∈ s' ∧ x ∉ settled) ∧
  (∀ x h', c' !! x = Some h' → <[t := h]> confirmed !! x = Some h' ∨ h' = None ∧ x ∈ s' ∧ x ∉ settled).
Proof.
  intros Hm Ht. apply mark_loop_spec in Hm as (H1 & H2 & H3 & H4 & H5).
  2:{ unfold mark_fuel. simpl. apply le_n_S. unfold inputs_left. apply sum_list_le.
      intros p. case_decide; lia. }
  split_and!; [done|apply H2; by left|done| | |naive_solver].
  - intros x [?|(r & Hr & ?)]%H4; [auto|]. apply list_elem_of_singleton in Hr as ->. auto.
  - intros x. split.
    + intros [h' Hx%H5]. destruct (decide (x = t)) as [->|Hne].
      * right. split; [apply H2; by left|done].
      * rewrite lookup_insert_ne in Hx by done. destruct Hx as [?|(? & ? & ? & ?)]; [left; by eexists|by right].
    + intros Hx. destruct (<[t := h]> confirmed !! x) as [h'|] eqn:E.
      * exists h'. apply H5. by left.
      * exists None. apply H5. right. apply lookup_insert_None in E as [E ?]. rewrite E in Hx.
        destruct Hx as [[? [=]]|[? ?]]. by rewrite lookup_insert_ne.
Qed.
End mark.

(** ** What the check asks *)

Section asks.
Context {B : Bitcoin} {BT : BitcoinTx}.
Implicit Types (idx : ObservedIndex) (txs : list ExitCheckInput) (by_txid : gmap Txid ExitCheckInput).

Definition own_outpoints input : list (OutPoint Txid) :=
  (previous_output <$> take 1 (tx_input (eci_tx input))) ++ anchor_outpoints input.

Definition check_queries txs : list ChainQuery.t :=
  ((λ t, ChainQuery.TxConfirmed (input_txid t)) <$> txs) ++
  (ChainQuery.Outspend <$> (txs ≫= own_outpoints)).

Lemma by_txid_lookup txs t i :
  NoDup (input_txid <$> txs) → by_txid_of txs !! t = Some i ↔ i ∈ txs ∧ input_txid i = t.
Proof.
  intros Hnd. unfold by_txid_of. split.
  - intros Hi%hm_collect_Some. apply list_elem_of_fmap in Hi as (j & [= -> ->] & ?). done.
  - intros [Hi <-]. apply hm_collect_NoDup; [by rewrite <- list_fmap_compose|].
    by apply (list_elem_of_fmap_2 (λ t, (input_txid t, t))).
Qed.

Definition asked idx (Q : ChainQuery.t → Prop) (qs : list ChainQuery.t) : Prop :=
  ∀ q, q ∈ qs → Q q ∧ get idx q = None.

Lemma asked_snoc idx (Q : ChainQuery.t → Prop) qs q :
  asked idx Q qs → Q q → get idx q = None → asked idx Q (qs ++ [q]).
Proof. intros Hqs ? ? x [?|Hx]%elem_of_app; [auto|]. by apply list_elem_of_singleton in Hx as ->. Qed.

Lemma backward_asks idx by_txid txs (Q : ChainQuery.t → Prop) :
  (∀ t, t ∈ txs → Q (ChainQuery.TxConfirmed (input_txid t))) →
  asked idx Q (cs_pending (foldl (backward_step idx by_txid) (mkCheckState ∅ ∅ ∅ []) (reverse txs))).
Proof.
  intros HQ. apply (foldl_inv _ (λ _ st, asked idx Q (cs_pending st))); [|by intros ? ?%elem_of_nil].
  intros pre t post [c s n p] Hl Hp. simpl in Hp.
  assert (t ∈ txs) as Ht by (apply elem_of_reverse; rewrite Hl; set_solver).
  unfold backward_step. repeat case_match; try done. simpl. apply asked_snoc; auto.
Qed.

Lemma outpoints_ask idx input (Q : ChainQuery.t → Prop) os st :
  (∀ o, o ∈ os → Q (ChainQuery.Outspend o)) → asked idx Q st.2 →
  asked idx Q (foldl (outpoint_step idx input) st os).2.
Proof.
  intros HQ Hst. apply (foldl_inv _ (λ _ st, asked idx Q st.2)); [|done].
  intros pre o post [[c d] p] -> Hp. simpl in Hp. unfold outpoint_step.
  repeat case_match; simplify_eq; try done. simpl. apply asked_snoc; [done| |done]. apply HQ. set_solver.
Qed.

Lemma forward_asks idx by_txid txs (Q : ChainQuery.t → Prop) st :
  (∀ t o, t ∈ txs → o ∈ own_outpoints t → Q (ChainQuery.Outspend o)) → asked idx Q st.2 →
  asked idx Q (foldl (forward_step idx by_txid) st txs).2.
Proof.
  intros HQ Hst. apply (foldl_inv _ (λ _ st, asked idx Q st.2)); [|done].
  intros pre t post [[c d] p] -> Hp. unfold forward_step.
  repeat case_match; try done. apply outpoints_ask; [|done].
  intros o Ho. apply (HQ t); [set_solver|]. unfold own_outpoints.
  destruct (tx_input (eci_tx t)); simplify_eq/=. done.
Qed.

Lemma check_asks txs obs :
  NoDup (chk_pending (check_exit_chain txs obs)) ∧
  ∀ q, q ∈ chk_pending (check_exit_chain txs obs) →
    q ∈ check_queries txs ∧ get (ObservedIndex_new obs) q = None.
Proof.
  unfold check_exit_chain. set (idx := ObservedIndex_new obs).
  set (st := foldl (backward_step idx _) _ _).
  set (fwd := match cs_pending st with [] => _ | _ => _ end).
  assert (asked idx (λ q, q ∈ check_queries txs) fwd.2) as Ha.
  { assert (asked idx (λ q, q ∈ check_queries txs) (cs_pending st)) as Hb.
    { apply backward_asks. intros t Ht. apply elem_of_app. left. by apply (list_elem_of_fmap_2 (λ t, ChainQuery.TxConfirmed (input_txid t))). }
    subst fwd. destruct (cs_pending st) as [|q qs]; [|done].
    apply forward_asks; [|by intros ? ?%elem_of_nil].
    intros t o Ht Ho. apply elem_of_app. right. apply list_elem_of_fmap_2.
    apply list_elem_of_bind. eauto. }
  destruct fwd as [[c d] p]. simpl. split; [apply retain_unseen_NoDup|].
  intros q [Hq _]%elem_of_retain_unseen. by apply Ha.
Qed.
End asks.

(** ** On answers that describe one chain *)

Section exact.
Context {B : Bitcoin} {BT : BitcoinTx} (C : Chain).
Implicit Types (idx : ObservedIndex) (input : ExitCheckInput).

(** The answer is what the chain says; an unconfirmed spender is reported only of an
    output no mined transaction spends. *)
Definition faithful (o : Observation) : Prop :=
  match obs_query o with
  | ChainQuery.TxConfirmed t => obs_result o = ChainResult.Confirmed (mined C t) (mined_at C t)
  | ChainQuery.Outspend p =>
      match spent_by C p with
      | Some t => obs_result o = ChainResult.Spend (Some {| spender_txid := t;
          spend_confirmed := true; spend_block_height := mined_at C t |})
      | None => obs_result o = ChainResult.Spend None ∨
          ∃ info, obs_result o = ChainResult.Spend (Some info) ∧ spend_confirmed info = false
      end
  | ChainQuery.Transaction t =>
      obs_result o = match tx_of C t with
        | Some tx => ChainResult.Transaction tx | None => ChainResult.Unavailable end
  | _ => True
  end.

Lemma faithful_get obs q r :
  Forall faithful obs → get (ObservedIndex_new obs) q = Some r → faithful (mkObservation q r).
Proof.
  intros Hf (o & Ho & <- & <-)%get_observed. rewrite Forall_forall in Hf. specialize (Hf o Ho).
  by destruct o.
Qed.

(** A chain service that answers from the chain. *)
Definition answer_of (q : ChainQuery.t) : ChainResult.t :=
  match q with
  | ChainQuery.TxConfirmed t => ChainResult.Confirmed (mined C t) (mined_at C t)
  | ChainQuery.Outspend o =>
      ChainResult.Spend ((λ t, {| spender_txid := t; spend_confirmed := true;
                                  spend_block_height := mined_at C t |}) <$> spent_by C o)
  | ChainQuery.Transaction t =>
      match tx_of C t with Some tx => ChainResult.Transaction tx | None => ChainResult.Unavailable end
  | ChainQuery.RefundAddress _ _ => ChainResult.AddressUtxos []
  end.

Lemma answer_of_faithful q : faithful (mkObservation q (answer_of q)).
Proof. destruct q; unfold faithful; simpl; try done. destruct (spent_by C o); simpl; auto. Qed.

(** A transaction of the exit that is in a block spends its inputs, which are in
    blocks too. *)
Record exit_on_chain (txs : list ExitCheckInput) : Prop := {
  oc_mined o t : spent_by C o = Some t → mined C t = true;
  oc_spends x i : x ∈ txs → mined C (input_txid x) = true → i ∈ tx_input (eci_tx x) →
    spent_by C (previous_output i) = Some (input_txid x) ∧
    mined C (txid (previous_output i)) = true;
  oc_inputs x : x ∈ txs → tx_input (eci_tx x) ≠ [];
  oc_distinct : NoDup (input_txid <$> txs);
}.

(** The exit is in the order it was built: parents come first. *)
Definition in_build_order (txs : list ExitCheckInput) : Prop :=
  ∀ pre x post, txs = pre ++ x :: post →
    ∀ p, p ∈ spend_parents x (by_txid_of txs) → p ∈ input_txid <$> pre.

(** What is recorded is in a block, at the height recorded if there is one. *)
Definition recorded_right (confirmed : gmap Txid (option Z)) : Prop :=
  ∀ t h, confirmed !! t = Some h → mined C t = true ∧ (h = None ∨ h = mined_at C t).

Lemma recorded_insert confirmed t h :
  recorded_right confirmed → mined C t = true → h = None ∨ h = mined_at C t →
  recorded_right (<[t := h]> confirmed).
Proof. intros Hc ? ? x h' [[<- <-]|[_ Hx]]%lookup_insert_Some; [done|by apply Hc]. Qed.

Context (txs : list ExitCheckInput) (Hchain : exit_on_chain txs).
Local Abbreviation by_txid := (by_txid_of txs).

Lemma parent_mined x p :
  x ∈ txs → mined C (input_txid x) = true → p ∈ spend_parents x by_txid → mined C p = true.
Proof using Hchain.
  intros Hx Hm [_ (i & -> & Hi)%list_elem_of_fmap]%list_elem_of_filter. by eapply oc_spends.
Qed.

Lemma depends_mined t p : rtc (depends by_txid) t p → mined C t = true → mined C p = true.
Proof using Hchain.
  induction 1 as [|t q p (x & [Hx <-]%by_txid_lookup & Hq) _ IH]; [done| |by apply oc_distinct].
  intros Hm. apply IH. by eapply parent_mined.
Qed.

(** *** The first loop *)

Record backward_right (seen : list ExitCheckInput) (st : CheckState) : Prop := {
  br_confirmed : recorded_right (cs_confirmed st);
  br_not_confirmed t : t ∈ cs_not_confirmed st → mined C t = false;
  br_settled t : t ∈ cs_settled st → mined C t = true ∨ t ∈ cs_not_confirmed st;
  br_seen x : cs_pending st = [] → x ∈ seen → eci_confirmed x = true →
    mined C (input_txid x) = false → input_txid x ∈ cs_not_confirmed st;
}.

Lemma backward_exact obs :
  Forall faithful obs →
  backward_right (reverse txs) (foldl (backward_step (ObservedIndex_new obs) by_txid)
    (mkCheckState ∅ ∅ ∅ []) (reverse txs)).
Proof using Hchain.
  intros Hf. apply (foldl_inv _ backward_right).
  2:{ split; simpl; [by intros ? ? ?%lookup_empty_Some|set_solver|set_solver|by intros ? _ ?%elem_of_nil]. }
  intros pre x post [c s n p] Hl [H1 H2 H3 H4]. simpl in *. unfold backward_step.
  assert (∀ st, recorded_right (cs_confirmed st) → n ⊆ cs_not_confirmed st →
    (∀ t, t ∈ cs_not_confirmed st → mined C t = false) →
    (∀ t, t ∈ cs_settled st → mined C t = true ∨ t ∈ cs_not_confirmed st) →
    (cs_pending st = [] → p = []) →
    (cs_pending st = [] → eci_confirmed x = true → mined C (input_txid x) = false →
      input_txid x ∈ cs_not_confirmed st) → backward_right (pre ++ [x]) st) as Hmk.
  { intros st ? ? ? ? ? ?. split; [done..|]. intros y Hp [Hy|Hy]%elem_of_app; [set_solver|].
    apply list_elem_of_singleton in Hy as ->. auto. }
  case_decide as Hs; [apply Hmk; simpl; [done..|intros _ _ ?; destruct (H3 _ Hs); congruence]|].
  destruct (eci_confirmed x) eqn:Hc; simpl; [|apply Hmk; simpl; [done..|congruence]].
  destruct (get _ (ChainQuery.TxConfirmed (input_txid x))) as [r|] eqn:Hg.
  2:{ apply Hmk; simpl; [done..| |]; by intros [_ ?]%app_nil. }
  apply (faithful_get _ _ _ Hf) in Hg. unfold faithful in Hg. simpl in Hg. subst r.
  destruct (mined C (input_txid x)) eqn:Hm.
  - destruct (mark_settled _ _ _ _) as [c' s'] eqn:Hmark.
    apply mark_settled_spec in Hmark as (Hs1 & Hs2 & Hs3 & Hs4 & Hs5 & Hs6); [|done].
    assert (∀ t, t ∈ s' → t ∉ s → mined C t = true) as Hnew.
    { intros t Ht Hn. destruct (Hs4 t Ht) as [|Hd]; [done|]. by eapply depends_mined. }
    apply Hmk; simpl; [|done|done| |done|congruence].
    + intros t h [[[<- <-]|[_ Ht]]%lookup_insert_Some|(-> & ? & ?)]%Hs6; [by split; [|right]|by apply H1|].
      split; [by apply Hnew|by left].
    + intros t Ht. destruct (decide (t ∈ s)); [auto|left; auto].
  - apply Hmk; simpl; [done|set_solver| | |done|set_solver].
    + intros t [Ht|Ht]%elem_of_union; [by apply elem_of_singleton in Ht as ->|auto].
    + intros t [Ht|[?|?]%H3]%elem_of_union; [right; set_solver|by left|right; set_solver].
Qed.
(** *** The second loop *)

(** Something other than the exit's own transactions took [o]. *)
Definition taken input (o : OutPoint Txid) : Prop :=
  ∃ t, spent_by C o = Some t ∧ ours input t = false.

Record outpoints_right input (os : list (OutPoint Txid)) (st st' : ForwardState) : Prop := {
  or_pending : st'.2 = [] → st.2 = [];
  or_kept t : is_Some (st.1.1 !! t) → is_Some (st'.1.1 !! t);
  or_confirmed : recorded_right st.1.1 → recorded_right st'.1.1;
  or_own o : st'.2 = [] → o ∈ os → spent_by C o = Some (input_txid input) →
    is_Some (st'.1.1 !! input_txid input);
  or_diverged : st'.1.2 = true → st.1.2 = true ∨ ∃ o, o ∈ os ∧ taken input o;
  or_taken : st'.2 = [] → st.1.2 = true ∨ (∃ o, o ∈ os ∧ taken input o) → st'.1.2 = true;
}.

Lemma outpoint_exact obs input o (st : ForwardState) :
  Forall faithful obs →
  outpoints_right input [o] st (outpoint_step (ObservedIndex_new obs) input st o).
Proof using Hchain.
  intros Hf. pose proof (oc_mined _ Hchain) as Hmined. destruct st as [[c d] p]. unfold outpoint_step.
  assert (∀ P : OutPoint Txid → Prop, (∃ o', o' ∈ [o] ∧ P o') ↔ P o) as Hone.
  { intros P. setoid_rewrite list_elem_of_singleton. naive_solver. }
  destruct (get _ (ChainQuery.Outspend o)) as [r|] eqn:Hg.
  2:{ split; simpl; try done; try (by intros [_ ?]%app_nil); auto.
      intros o' [_ ?]%app_nil. done. }
  apply (faithful_get _ _ _ Hf) in Hg. unfold faithful in Hg. simpl in Hg.
  destruct (spent_by C o) as [t|] eqn:Ho.
  2:{ assert (outpoints_right input [o] (c, d, p) (c, d, p)) as Hsame.
      { split; simpl; try done; [|auto|].
        - intros o' _ ->%list_elem_of_singleton. congruence.
        - intros _ [?|(t & Hx & _)%(Hone (taken input))]; [done|congruence]. }
      destruct Hg as [->|(info & -> & ->)]; done. }
  subst r. simpl. assert (taken input o ↔ ours input t = false) as Htaken.
  { unfold taken. rewrite Ho. naive_solver. }
  case_decide as Ht.
  - subst t. split; simpl; try done.
    + intros t [h Hh]. apply lookup_insert_is_Some'. right. by eexists.
    + intros Hc. apply recorded_insert; [done|by eapply Hmined|by right].
    + intros _ _ _ _. apply lookup_insert_is_Some'. by left.
    + auto.
    + intros _ [?|Hx%(Hone (taken input))%Htaken]; [done|]. unfold ours in Hx. by rewrite bool_decide_eq_true_2 in Hx.
  - destruct (ours input t) eqn:Hours; split; simpl; try done; auto.
    + intros o' _ ->%list_elem_of_singleton. congruence.
    + intros _ [?|Hx%(Hone (taken input))%Htaken]; done.
    + intros o' _ ->%list_elem_of_singleton. congruence.
    + intros _. right. by apply (Hone (taken input)), Htaken.
Qed.
Lemma outpoints_exact obs input os st :
  Forall faithful obs →
  outpoints_right input os st (foldl (outpoint_step (ObservedIndex_new obs) input) st os).
Proof using Hchain.
  intros Hf. apply (foldl_inv _ (λ os st', outpoints_right input os st st')).
  2:{ split; try done; auto.
      - by intros o _ ?%elem_of_nil.
      - intros _ [?|(o & ?%elem_of_nil & _)]; done. }
  intros pre o post st1 _ [P1 K1 C1 O1 D1 T1].
  pose proof (outpoint_exact obs input o st1 Hf) as [P2 K2 C2 O2 D2 T2]. split; auto.
  - intros x Hp [Hx|Hx]%elem_of_app Hs; [|by eapply O2]. apply K2. by apply (O1 x); [apply P2|..].
  - intros [Hd|(x & Hx & ?)]%D2.
    + destruct (D1 Hd) as [?|(x & ? & ?)]; [by left|right]. exists x. split; [set_solver|done].
    + right. exists x. split; [set_solver|done].
  - intros Hp Hd. apply T2; [done|]. destruct Hd as [Hd|(x & [Hx|Hx]%elem_of_app & Ht)].
    + left. apply T1; [by apply P2|by left].
    + left. apply T1; [by apply P2|]. right. by exists x.
    + right. by exists x.
Qed.

Record forward_right (seen : list ExitCheckInput) (st : ForwardState) : Prop := {
  fr_confirmed : recorded_right st.1.1;
  fr_all x : st.2 = [] → x ∈ seen → mined C (input_txid x) = true → is_Some (st.1.1 !! input_txid x);
  fr_diverged : st.1.2 = true → ∃ x o, x ∈ seen ∧ o ∈ own_outpoints x ∧ taken x o;
  fr_taken x i : st.2 = [] → x ∈ seen → mined C (input_txid x) = false →
    (∀ p, p ∈ spend_parents x by_txid → mined C p = true) →
    head (tx_input (eci_tx x)) = Some i → taken x (previous_output i) → st.1.2 = true;
}.

Lemma parents_confirmed x pre post (c : gmap Txid (option Z)) :
  in_build_order txs → txs = pre ++ x :: post →
  (∀ y, y ∈ pre → mined C (input_txid y) = true → is_Some (c !! input_txid y)) →
  (∀ p, p ∈ spend_parents x by_txid → mined C p = true) →
  Forall (λ p, is_Some (c !! p)) (spend_parents x by_txid).
Proof using Type.
  intros Hord Hl Hc Hm. apply Forall_forall. intros p Hp.
  pose proof (Hord _ _ _ Hl p Hp) as Hin. apply list_elem_of_fmap in Hin as (y & -> & Hy).
  apply Hc; [done|]. by apply Hm.
Qed.

Lemma forward_exact obs c :
  Forall faithful obs → in_build_order txs → recorded_right c →
  forward_right txs (foldl (forward_step (ObservedIndex_new obs) by_txid) (c, false, []) txs).
Proof using Hchain.
  intros Hf Hord Hc. apply (foldl_inv _ forward_right).
  2:{ split; try done; by intros ? *; intros _ ?%elem_of_nil. }
  intros pre x post st Hl [R A D T]. assert (x ∈ txs) as Hx by (rewrite Hl; set_solver).
  assert (∀ st', (st'.2 = [] → st.2 = []) → (∀ t, is_Some (st.1.1 !! t) → is_Some (st'.1.1 !! t)) →
    recorded_right st'.1.1 → (st.1.2 = true → st'.2 = [] → st'.1.2 = true) →
    (st'.2 = [] → mined C (input_txid x) = true → is_Some (st'.1.1 !! input_txid x)) →
    (st'.1.2 = true → st.1.2 = true ∨ ∃ o, o ∈ own_outpoints x ∧ taken x o) →
    (∀ i, st'.2 = [] → mined C (input_txid x) = false →
      (∀ p, p ∈ spend_parents x by_txid → mined C p = true) →
      head (tx_input (eci_tx x)) = Some i → taken x (previous_output i) → st'.1.2 = true) →
    forward_right (pre ++ [x]) st') as Hmk.
  { intros st' Hp Hk Hr Hd Hall Hdiv Htk. split; [done| | |].
    - intros y He [Hy|Hy]%elem_of_app Hm; [apply Hk; by apply A; [apply Hp|..]|].
      apply list_elem_of_singleton in Hy as ->. auto.
    - intros [Hd'|(o & ? & ?)]%Hdiv.
      + destruct (D Hd') as (y & o & ? & ? & ?). exists y, o. split_and!; [set_solver|done..].
      + exists x, o. split_and!; [set_solver|done..].
    - intros y i He [Hy|Hy]%elem_of_app Hm Hpar Hi Ht.
      + apply Hd; [|done]. by apply (T y i); [apply Hp|..].
      + apply list_elem_of_singleton in Hy as ->. by eapply Htk. }
  destruct st as [[c1 d1] p1]. cbn [fst snd] in *. unfold forward_step.
  case_decide as Hin.
  { apply Hmk; simpl; try done; auto. intros i _ Hm. destruct Hin as [h Hh].
    apply R in Hh as [? _]. congruence. }
  case_decide as Hpar.
  2:{ apply Hmk; simpl; try done; auto.
      - intros Hp Hm. destruct Hpar. eapply parents_confirmed; [done|done| |].
        + intros y Hy. by apply A.
        + intros p. by apply parent_mined.
      - intros i Hp _ Hm. destruct Hpar. eapply parents_confirmed; [done|done| |done].
        intros y Hy. by apply A. }
  destruct (head (tx_input (eci_tx x))) as [i|] eqn:Hi.
  2:{ apply oc_inputs in Hx; [|done]. by destruct (tx_input (eci_tx x)). }
  assert (own_outpoints x = previous_output i :: anchor_outpoints x) as Hown.
  { unfold own_outpoints. destruct (tx_input (eci_tx x)); simplify_eq/=. done. }
  rewrite <- Hown. pose proof (outpoints_exact obs x (own_outpoints x) (c1, d1, p1) Hf)
    as [P' K' R' O' D' T']. simpl in *.
  apply Hmk; simpl; auto.
  - intros Hp Hm. apply (O' (previous_output i)); [done|rewrite Hown; by left|].
    eapply oc_spends; [done..|]. by apply head_Some_elem_of.
  - intros j Hp _ _ [= <-] Ht. apply T'; [done|]. right. exists (previous_output i).
    split; [rewrite Hown; by left|done].
Qed.
(** What a finished check says. *)
Record check_right (check : ExitCheck) : Prop := {
  cr_recorded : recorded_right (chk_confirmed check);
  cr_confirmed x : x ∈ txs → is_Some (chk_confirmed check !! input_txid x) ↔ mined C (input_txid x) = true;
  cr_not_confirmed t : t ∈ chk_not_confirmed check → mined C t = false;
  cr_undone x : x ∈ txs → eci_confirmed x = true → mined C (input_txid x) = false →
    input_txid x ∈ chk_not_confirmed check;
  cr_diverged : chk_diverged check = true → ∃ x o, x ∈ txs ∧ o ∈ own_outpoints x ∧ taken x o;
  cr_taken x i : x ∈ txs → mined C (input_txid x) = false →
    (∀ p, p ∈ spend_parents x by_txid → mined C p = true) →
    head (tx_input (eci_tx x)) = Some i → taken x (previous_output i) → chk_diverged check = true;
}.

Lemma check_exact obs :
  Forall faithful obs → in_build_order txs → chk_pending (check_exit_chain txs obs) = [] →
  check_right (check_exit_chain txs obs).
Proof using Hchain.
  intros Hf Hord. pose proof (backward_exact obs Hf) as [R N _ S]. unfold check_exit_chain.
  set (st := foldl (backward_step _ _) _ _) in *.
  destruct (cs_pending st) as [|q qs] eqn:Hp.
  2:{ intros Hq. simpl in Hq. rewrite decide_False in Hq by set_solver. done. }
  pose proof (forward_exact obs _ Hf Hord R) as [R' A D T].
  destruct (foldl (forward_step _ _) _ _) as [[c d] p]. cbn [fst snd chk_pending] in *.
  intros Hnil. assert (p = []) as ->.
  { destruct p as [|q p]; [done|]. simpl in Hnil. by rewrite decide_False in Hnil by set_solver. }
  split; cbn [chk_confirmed chk_diverged chk_not_confirmed]; auto.
  - intros x Hx. split; [|by apply A]. intros [h [? _]%R']. done.
  - intros t [_ Ht]%elem_of_filter. by apply N.
  - intros x Hx Hc Hm. apply elem_of_filter. split.
    + destruct (c !! input_txid x) eqn:E; [|done]. apply R' in E as [? _]. congruence.
    + apply S; [done|by apply elem_of_reverse|done..].
  - intros x i ? ? ? ? ?. by apply (T x i).
Qed.
End exact.

(** ** What a check costs *)

Section cost.
Context {B : Bitcoin} {BT : BitcoinTx}.
Implicit Types (txs : list ExitCheckInput).

(** Checking an exit always ends, whatever the chain service answers and however
    its answers change meanwhile: after at most one lookup per transaction and per
    outpoint the exit holds, none of them made twice, and with what the answers show. *)
Theorem resolve_exit_check_ends {W} (answer : ChainQuery.t → W → ChainResult.t * W) txs world :
  ∃ check observed world',
    resolve_exit_check answer (S (length (check_queries txs))) txs world = inr (check, observed, world') ∧
    check = check_exit_chain txs observed ∧ chk_pending check = [] ∧
    NoDup (obs_query <$> observed) ∧ (length observed ≤ length (check_queries txs))%nat.
Proof.
  destruct (resolve_ends answer (λ obs, let check := check_exit_chain txs obs in (check, chk_pending check))
    (λ _, True) (check_queries txs)) with (world := world)
    as (check & obs & world' & Hr & Hlast & _ & Hnd & Hlen); [done|intros; apply check_asks|].
  injection Hlast as <- Hp. by exists (check_exit_chain txs obs), obs, world'.
Qed.

Lemma depends_intro txs x y :
  NoDup (input_txid <$> txs) → x ∈ txs → y ∈ txs →
  input_txid y ∈ (λ i, txid (previous_output i)) <$> tx_input (eci_tx x) →
  depends (by_txid_of txs) (input_txid x) (input_txid y).
Proof.
  intros Hnd Hx Hy Hin. exists x. split; [by apply by_txid_lookup|]. unfold spend_parents.
  apply list_elem_of_filter. split; [|done]. exists y. by apply by_txid_lookup.
Qed.

Lemma foldl_fixed {A S} (f : S → A → S) s l : (∀ x, x ∈ l → f s x = s) → foldl f s l = s.
Proof.
  induction l as [|x l IH]; intros Hf; simpl; [done|]. rewrite (Hf x) by by left.
  apply IH. intros. apply Hf. by right.
Qed.

(** A finished exit is checked with one lookup: if its last transaction, which
    depends on all the others, is reported in a block, that answer alone settles
    every transaction and nothing is left to ask. *)
Theorem finished_exit_costs_one_lookup txs last height :
  eci_confirmed last = true →
  (∀ x, x ∈ txs → rtc (depends (by_txid_of (txs ++ [last]))) (input_txid last) (input_txid x)) →
  let check := check_exit_chain (txs ++ [last])
    [mkObservation (ChainQuery.TxConfirmed (input_txid last)) (ChainResult.Confirmed true height)] in
  chk_pending check = [] ∧ chk_diverged check = false ∧
  ∀ x, x ∈ txs ++ [last] → is_Some (chk_confirmed check !! input_txid x).
Proof.
  intros Hc Hdep. unfold check_exit_chain. set (idx := ObservedIndex_new _).
  set (by_txid := by_txid_of (txs ++ [last])) in *.
  assert (get idx (ChainQuery.TxConfirmed (input_txid last)) = Some (ChainResult.Confirmed true height)) as Hg.
  { subst idx. rewrite get_index, filter_cons_True by done. done. }
  rewrite reverse_app. cbn [reverse rev_append app foldl].
  assert (∃ c s, backward_step idx by_txid (mkCheckState ∅ ∅ ∅ []) last = mkCheckState c s ∅ [] ∧
    ∀ x, x ∈ txs ++ [last] → input_txid x ∈ s ∧ is_Some (c !! input_txid x)) as (c & s & Hb & Hall).
  { unfold backward_step. rewrite decide_False, Hc, Hg by set_solver. simpl.
    destruct (mark_settled _ _ _ _) as [c s] eqn:Hm. exists c, s. split; [done|].
    apply mark_settled_spec in Hm as (_ & Ht & Hclosed & _ & Hdom & _); [|set_solver].
    assert (∀ x, rtc (depends by_txid) (input_txid last) x → x ∈ s) as Hs.
    { intros x Hx. apply (rtc_ind_r (R := depends by_txid) (λ x, x ∈ s) (input_txid last)); [done| |exact Hx].
      intros y z _ Hyz Hy. eapply Hclosed; [exact Hy|set_solver|exact Hyz]. }
    assert (∀ x, x ∈ txs ++ [last] → input_txid x ∈ s) as Hin.
    { intros x [Hx|Hx]%elem_of_app; [apply Hs; auto|]. by apply list_elem_of_singleton in Hx as ->. }
    intros x Hx. split; [auto|]. apply Hdom. right. split; [auto|set_solver]. }
  change (reverse [last]) with [last]. cbn [app foldl]. rewrite Hb.
  rewrite foldl_fixed.
  2:{ intros x Hx%elem_of_reverse. unfold backward_step. rewrite decide_True; [done|].
      apply Hall. set_solver. }
  cbn [cs_pending cs_confirmed cs_not_confirmed]. rewrite foldl_fixed.
  2:{ intros x Hx. unfold forward_step. rewrite decide_True; [done|]. by apply Hall. }
  cbn [chk_pending chk_diverged chk_confirmed]. split_and!; [done|done|]. intros x Hx. by apply Hall.
Qed.
End cost.

(** The root, a node below it, and its refund. *)

#[local] Existing Instances btc68 btctx68.

Definition finished_root : ExitCheckInput := mkCheckInput (root_tx : Transaction) None true.
Definition finished_node : ExitCheckInput := mkCheckInput (a_tx : Transaction) None true.
Definition finished_refund : ExitCheckInput := mkCheckInput (a_refund : Transaction) None true.
Definition finished_txs : list ExitCheckInput := [finished_root; finished_node] ++ [finished_refund].

Lemma finished_depends x y :
  x ∈ finished_txs → y ∈ finished_txs →
  bool_decide (input_txid y ∈ (λ i, txid (previous_output i)) <$> tx_input (eci_tx x)) = true →
  depends (by_txid_of finished_txs) (input_txid x) (input_txid y).
Proof.
  intros Hx Hy Hin%bool_decide_eq_true. apply depends_intro; [|done..].
  apply (bool_decide_unpack _). vm_compute. exact I.
Qed.

Example finished_exit_costs_one_lookup_witness :
  chk_pending (check_exit_chain ([finished_root; finished_node] ++ [finished_refund])
    [mkObservation (ChainQuery.TxConfirmed (input_txid finished_refund)) (ChainResult.Confirmed true (Some 7))]) = [].
Proof.
  apply (finished_exit_costs_one_lookup [finished_root; finished_node] finished_refund (Some 7)); [reflexivity|].
  assert (depends (by_txid_of finished_txs) (input_txid finished_refund) (input_txid finished_node)) as H1.
  { apply finished_depends; [do 2 right; by left|right; by left|vm_compute; reflexivity]. }
  assert (depends (by_txid_of finished_txs) (input_txid finished_node) (input_txid finished_root)) as H2.
  { apply finished_depends; [right; by left|by left|vm_compute; reflexivity]. }
  intros x Hx. apply elem_of_cons in Hx as [->|Hx].
  - exact (rtc_l _ _ _ _ H1 (rtc_once _ _ H2)).
  - apply list_elem_of_singleton in Hx as ->. exact (rtc_once _ _ H1).
Defined.
