(* ===== verification/ExitFundingScan.v ===== *)
(** * What supplied funding is worth now

    [scan_funding] follows the UTXOs a caller offered along the chain. Its loop ends,
    and what it keeps are exactly the unspent outputs that descend from the supplied
    ones while paying the same script. *)

From S2P Require Import Prelude Bitcoin BitcoinTx TreeModel ExitChain SparkTx ExitPlan.
From S2P Require Import ExitPlanSpec ExitSample ExitScan ExitScanSpec ExitScanExact ExitCheck.
From S2P Require Import ExitCheckSpec.

(** ** The loop *)

Section loop.
Context {B : Bitcoin} {BT : BitcoinTx} `{!HashIter (OutPoint Txid)}.
Context (idx : ObservedIndex) (supplied : list CpfpInput).
Implicit Types (st : FundingState) (i : CpfpInput) (o : OutPoint Txid).

Lemma followed_elem i t outs j :
  j ∈ followed i t outs ↔ ∃ v out, outs !! v = Some out ∧ script_pubkey out = script_pubkey (witness_utxo i) ∧
    in_uint 32 (Z.of_nat v) ∧ j = mkCpfpInput (mkOutPoint t (Z.of_nat v)) out (signed_input_weight i).
Proof.
  unfold followed. rewrite list_elem_of_omap. split.
  - intros ([v out] & Hin & Hj). apply elem_of_lookup_imap in Hin as (v' & out' & [= -> ->] & Hv).
    repeat case_decide; simplify_eq/=. exists v', out'. done.
  - intros (v & out & Hv & Hs & Hr & ->). exists (v, out). split.
    + apply elem_of_lookup_imap. by exists v, out.
    + simpl. by rewrite !decide_True.
Qed.

Lemma followed_length i t outs : (length (followed i t outs) ≤ length outs)%nat.
Proof.
  unfold followed. rewrite <- (length_imap pair outs). generalize (imap pair outs) as l.
  intros l. induction l as [|p l IH]; [done|]. csimpl. case_match; simpl; lia.
Qed.

(** A block spends the outpoint, according to the answers. *)
Definition spend_of o : option Txid :=
  match get idx (ChainQuery.Outspend o) with
  | Some (ChainResult.Spend (Some info)) => if spend_confirmed info then Some (spender_txid info) else None
  | _ => None
  end.

Definition outputs_of (t : Txid) : option (list (TxOut ScriptBuf)) :=
  match get idx (ChainQuery.Transaction t) with
  | Some (ChainResult.Transaction tx) => Some (tx_output tx)
  | _ => None
  end.

(** What descends from the supplied funding, according to the answers. *)
Inductive traced : CpfpInput → Prop :=
| traced_supplied i : i ∈ supplied → traced i
| traced_spend i t outs j : traced i → spend_of (outpoint i) = Some t → outputs_of t = Some outs →
    j ∈ followed i t outs → traced j.

#[local] Arguments spend_outputs : simpl never.

Definition budget_of (visited : gset (OutPoint Txid)) (q : ChainQuery.t) : nat :=
  match q with
  | ChainQuery.Outspend o => if decide (o ∈ visited) then 0 else spend_outputs idx q
  | _ => 0
  end.
Definition budget (visited : gset (OutPoint Txid)) : nat :=
  sum_list (budget_of visited <$> elements (dom idx)).

Lemma budget_of_mono o visited q : (budget_of ({[o]} ∪ visited) q ≤ budget_of visited q)%nat.
Proof. destruct q; simpl; try lia. repeat case_decide; set_solver || lia. Qed.

Lemma budget_mono o visited : (budget ({[o]} ∪ visited) ≤ budget visited)%nat.
Proof. apply sum_list_le. intros. apply budget_of_mono. Qed.

Lemma budget_step o visited :
  o ∉ visited →
  (budget ({[o]} ∪ visited) + spend_outputs idx (ChainQuery.Outspend o) ≤ budget visited)%nat.
Proof.
  intros Ho. destruct (decide (ChainQuery.Outspend o ∈ dom idx)) as [Hd|Hd].
  2:{ apply not_elem_of_dom in Hd.
      assert (spend_outputs idx (ChainQuery.Outspend o) = 0%nat) as ->
        by (unfold spend_outputs, get; by rewrite Hd).
      pose proof (budget_mono o visited). lia. }
  apply elem_of_elements in Hd. unfold budget. revert Hd. generalize (elements (dom idx)) as l.
  intros l. induction l as [|q l IH]; [by intros ?%elem_of_nil|]. csimpl.
  pose proof (sum_list_le _ _ l (budget_of_mono o visited)). intros [<-|Hq]%elem_of_cons.
  - unfold budget_of at 1 3. rewrite decide_True, decide_False by set_solver. lia.
  - specialize (IH Hq). pose proof (budget_of_mono o visited q). lia.
Qed.

Lemma spend_outputs_eq o t outs :
  spend_of o = Some t → outputs_of t = Some outs →
  spend_outputs idx (ChainQuery.Outspend o) = length outs.
Proof.
  unfold spend_of, outputs_of, spend_outputs.
  destruct (get idx (ChainQuery.Outspend o)) as [[[info|]| | | |]|]; try done.
  destruct (spend_confirmed info); [|done]. intros [= <-].
  destruct (get idx (ChainQuery.Transaction _)) as [[]|]; try done. by intros [= <-].
Qed.

(** What one round does, by the answers. *)
Lemma funding_round_cases inputs pending visited i rest st' :
  funding_round idx (mkFunding inputs pending visited (i :: rest)) = inl st' →
  (outpoint i ∈ visited ∧ st' = mkFunding inputs pending visited rest) ∨
  (outpoint i ∉ visited ∧ ∃ inputs' pending' new,
    st' = mkFunding inputs' pending' ({[outpoint i]} ∪ visited) (reverse new ++ rest) ∧
    inputs' = (match spend_of (outpoint i) with None => <[outpoint i := i]> inputs | Some _ => inputs end) ∧
    new = (match (t ← spend_of (outpoint i); pair t <$> outputs_of t) with
           | Some (t, outs) => followed i t outs | None => [] end) ∧
    (∃ qs, pending' = pending ++ qs ∧ ∀ q, q ∈ qs ↔ get idx q = None ∧
       (q = ChainQuery.Outspend (outpoint i) ∨
        ∃ t, spend_of (outpoint i) = Some t ∧ q = ChainQuery.Transaction t))).
Proof.
  unfold funding_round. cbn [frontier]. case_decide as Hv; [intros [= <-]; by left|].
  intros [= <-]. right. split; [done|]. unfold spend_of, outputs_of.
  destruct (get idx (ChainQuery.Outspend (outpoint i))) as [r|] eqn:Ho.
  2:{ eexists _, _, []. split_and!; [done..|]. exists [ChainQuery.Outspend (outpoint i)].
      split; [done|]. intros q. rewrite list_elem_of_singleton. naive_solver. }
  assert (∀ qs : list ChainQuery.t, (∀ q, q ∈ qs ↔ get idx q = None ∧ ∃ t, spend_of (outpoint i) = Some t ∧
    q = ChainQuery.Transaction t) → ∀ q, q ∈ qs ↔ get idx q = None ∧
      (q = ChainQuery.Outspend (outpoint i) ∨
       ∃ t, spend_of (outpoint i) = Some t ∧ q = ChainQuery.Transaction t)) as Hqs.
  { intros qs Hqs q. rewrite Hqs. naive_solver. }
  unfold spend_of in Hqs. rewrite Ho in Hqs.
  destruct r as [[info|]| | | |]; simpl.
  1: destruct (spend_confirmed info) eqn:Hc; simpl.
  1: destruct (get idx (ChainQuery.Transaction (spender_txid info))) as [r|] eqn:Ht.
  1: { assert (∀ q, q ∈ ([] : list ChainQuery.t) ↔ get idx q = None ∧
         (q = ChainQuery.Outspend (outpoint i) ∨
          ∃ t, spend_of (outpoint i) = Some t ∧ q = ChainQuery.Transaction t)) as Hnil.
       { unfold spend_of. rewrite Ho, Hc. intros q. rewrite elem_of_nil. naive_solver. }
       unfold spend_of in Hnil. rewrite Ho, Hc in Hnil.
       destruct r as [| |tx| |]; simpl.
       3: eexists _, _, (followed i (spender_txid info) (tx_output tx)).
       1,2,4,5: eexists _, _, [].
       all: split_and!; [done..|]; exists []; by rewrite app_nil_r. }
  { eexists _, _, []. split_and!; [done..|]. exists [ChainQuery.Transaction (spender_txid info)].
    split; [done|]. apply Hqs. intros q. rewrite list_elem_of_singleton. naive_solver. }
  all: eexists _, _, []; (split_and!; [done..|]); exists []; (split; [by rewrite app_nil_r|]).
  all: apply Hqs; intros q; rewrite elem_of_nil; naive_solver.
Qed.
(** The funding is described as the chain has it. *)
Context (utxo : OutPoint Txid → TxOut ScriptBuf).
Context (Hsupplied : ∀ i, i ∈ supplied → witness_utxo i = utxo (outpoint i)).
Context (Houtputs : ∀ t outs v out, outputs_of t = Some outs → outs !! v = Some out →
  utxo (mkOutPoint t (Z.of_nat v)) = out).

Lemma traced_utxo i : traced i → witness_utxo i = utxo (outpoint i).
Proof using Hsupplied Houtputs.
  induction 1 as [i Hi|i t outs j _ _ _ Ho (v & out & Hv & _ & _ & ->)%followed_elem]; [auto|].
  simpl. symmetry. by eapply Houtputs.
Qed.

(** Visited, or about to be. *)
Definition seen st o : Prop := o ∈ fu_visited st ∨ ∃ j, j ∈ frontier st ∧ outpoint j = o.

Record funding_inv st : Prop := {
  fi_inputs o i : fu_inputs st !! o = Some i → outpoint i = o ∧ traced i ∧ spend_of o = None;
  fi_traced o : o ∈ fu_visited st → ∃ i, traced i ∧ outpoint i = o;
  fi_kept o : o ∈ fu_visited st → spend_of o = None → is_Some (fu_inputs st !! o);
  fi_followed o t outs v out : o ∈ fu_visited st → spend_of o = Some t → outputs_of t = Some outs →
    outs !! v = Some out → script_pubkey out = script_pubkey (utxo o) → in_uint 32 (Z.of_nat v) →
    seen st (mkOutPoint t (Z.of_nat v));
  fi_frontier i : i ∈ frontier st → traced i;
  fi_supplied i : i ∈ supplied → seen st (outpoint i);
  fi_pending q : q ∈ fu_pending st ↔ get idx q = None ∧ ∃ o, o ∈ fu_visited st ∧
    (q = ChainQuery.Outspend o ∨ ∃ t, spend_of o = Some t ∧ q = ChainQuery.Transaction t);
}.

Lemma funding_start : funding_inv (mkFunding ∅ [] ∅ (reverse supplied)).
Proof using Hsupplied Houtputs.
  split; cbn; try (intros o; intros; set_solver).
  - intros i Hi. apply traced_supplied. by apply elem_of_reverse.
  - intros i Hi. right. exists i. split; [by apply elem_of_reverse|done].
Qed.

Lemma funding_step st st' :
  funding_inv st → funding_round idx st = inl st' →
  funding_inv st' ∧
  (length (frontier st') + budget (fu_visited st') < length (frontier st) + budget (fu_visited st))%nat.
Proof using Hsupplied Houtputs.
  intros [I T K F Fr S P]. destruct st as [inputs pending visited [|i rest]]; [done|].
  cbn [fu_inputs fu_pending fu_visited frontier] in *.
  intros [[Hv ->]|(Hv & inputs' & pending' & new & -> & Hin & Hnew & qs & -> & Hqs)]%funding_round_cases.
  - assert (∀ o, seen (mkFunding inputs pending visited (i :: rest)) o →
      seen (mkFunding inputs pending visited rest) o) as Hseen.
    { intros o [?|(j & [->|?]%elem_of_cons & <-)]; [by left|by left|right; by exists j]. }
    split; [|cbn; lia]. split; cbn [fu_inputs fu_pending fu_visited frontier]; auto.
    + intros. eapply Hseen, F; done.
    + intros j ?. apply Fr. by right.
  - pose proof (Fr i ltac:(by left)) as Htr.
    set (st' := mkFunding _ _ _ _).
    assert (∀ o, seen (mkFunding inputs pending visited (i :: rest)) o → seen st' o) as Hseen.
    { intros o [?|(j & [->|?]%elem_of_cons & <-)]; unfold seen; cbn; [left; set_solver..|].
      right. exists j. set_solver. }
    assert (∀ j, j ∈ new → traced j ∧ seen st' (outpoint j)) as Hn.
    { intros j Hj. split.
      - subst new. destruct (spend_of (outpoint i)) as [t|] eqn:Hs; simpl in Hj; [|by apply elem_of_nil in Hj].
        destruct (outputs_of t) as [outs|] eqn:Ho; simpl in Hj; [|by apply elem_of_nil in Hj].
        by eapply traced_spend.
      - right. exists j. cbn. set_solver. }
    split; [split; cbn [fu_inputs fu_pending fu_visited frontier st']|].
    + intros o j. subst inputs'. destruct (spend_of (outpoint i)) eqn:Hs; [apply I|].
      intros [[<- <-]|[_ Hj]]%lookup_insert_Some; [done|by apply I].
    + intros o [Ho|Ho]%elem_of_union; [apply elem_of_singleton in Ho as ->; by exists i|by apply T].
    + intros o [Ho|Ho]%elem_of_union Hs.
      * apply elem_of_singleton in Ho as ->. subst inputs'. rewrite Hs, lookup_insert_eq. by eexists.
      * destruct (K o Ho Hs) as [j Hj]. subst inputs'. destruct (spend_of (outpoint i)); [by eexists|].
        apply lookup_insert_is_Some'. right. by eexists.
    + intros o t outs v out [Ho|Ho]%elem_of_union Hs Hout Hl Hscr Hr; [|eapply Hseen, F; done].
      apply elem_of_singleton in Ho as ->. rewrite Hs in Hnew. simpl in Hnew. rewrite Hout in Hnew. simpl in Hnew.
      assert (mkCpfpInput (mkOutPoint t (Z.of_nat v)) out (signed_input_weight i) ∈ new) as Hj.
      { subst new. apply followed_elem. exists v, out. rewrite (traced_utxo i Htr). done. }
      by apply Hn in Hj as [_ ?].
    + intros j [Hj|Hj]%elem_of_app; [|apply Fr; by right].
      rewrite elem_of_reverse in Hj. by destruct (Hn j Hj).
    + intros j Hj. by apply Hseen, S.
    + intros q. rewrite elem_of_app, P, Hqs. setoid_rewrite elem_of_union.
      setoid_rewrite elem_of_singleton. split; [naive_solver|].
      intros (Hq & o & [->|Ho] & Hc); [by right|]. left. split; [done|]. by exists o.
    + cbn. rewrite length_app, length_reverse. pose proof (budget_step (outpoint i) visited Hv).
      destruct (spend_of (outpoint i)) as [t|] eqn:Hs; simpl in Hnew; [|subst new; simpl; lia].
      destruct (outputs_of t) as [outs|] eqn:Ho; simpl in Hnew; [|subst new; simpl; lia].
      rewrite (spend_outputs_eq _ _ _ Hs Ho) in *. pose proof (followed_length i t outs). subst new. lia.
Qed.

(** The fuel is enough, and the loop stops with an empty frontier. *)
Lemma funding_loop_ends :
  ∃ st, rounds (funding_fuel idx supplied) (funding_round idx) (mkFunding ∅ [] ∅ (reverse supplied)) = inr st ∧
    funding_inv st ∧ frontier st = [].
Proof using Hsupplied Houtputs.
  destruct (rounds_ends (funding_round idx) (funding_fuel idx supplied)
    (λ st, length (frontier st) + budget (fu_visited st))%nat funding_inv
    (mkFunding ∅ [] ∅ (reverse supplied))) as (st & r & Hr & Hinv & Hlast).
  - intros st st' Hi Hs. by apply funding_step.
  - apply funding_start.
  - cbn. rewrite length_reverse. unfold funding_fuel, budget. apply le_n_S, Nat.add_le_mono_l.
    apply sum_list_le. intros []; simpl; try lia. by rewrite decide_False by set_solver.
  - exists r. split; [done|]. unfold funding_round in Hlast. destruct (frontier st) eqn:Hf.
    + by injection Hlast as <-.
    + destruct st. by case_decide.
Qed.

Lemma funding_traced_visited st i :
  funding_inv st → frontier st = [] → traced i → outpoint i ∈ fu_visited st.
Proof using Hsupplied Houtputs.
  intros [I T K F Fr S P] Hf. assert (∀ o, seen st o → o ∈ fu_visited st) as Hseen.
  { intros o [?|(j & Hj & _)]; [done|]. rewrite Hf in Hj. by apply elem_of_nil in Hj. }
  induction 1 as [i Hi|i t outs j Ht IH Hs Ho (v & out & Hv & Hscr & Hr & ->)%followed_elem].
  - by apply Hseen, S.
  - apply Hseen. simpl. eapply F; [done..| |done]. by rewrite <- (traced_utxo i Ht).
Qed.
End loop.

(** ** The scan, on answers that describe one chain *)

Section scan.
Context {B : Bitcoin} {BT : BitcoinTx} `{!HashIter (OutPoint Txid)} (C : Chain).
Context (supplied : list CpfpInput) (utxo : OutPoint Txid → TxOut ScriptBuf).
Context (Hsupplied : ∀ i, i ∈ supplied → witness_utxo i = utxo (outpoint i)).
Context (Hbody : ∀ t tx v out, tx_of C t = Some tx → tx_output tx !! v = Some out →
  utxo (mkOutPoint t (Z.of_nat v)) = out).

(** What the supplied funding has turned into: from a spend in a block, the outputs
    that pay the script the spent one paid. *)
Inductive descends : CpfpInput → Prop :=
| descends_supplied i : i ∈ supplied → descends i
| descends_spend i t tx v out : descends i → spent_by C (outpoint i) = Some t → tx_of C t = Some tx →
    tx_output tx !! v = Some out → script_pubkey out = script_pubkey (witness_utxo i) →
    in_uint 32 (Z.of_nat v) →
    descends (mkCpfpInput (mkOutPoint t (Z.of_nat v)) out (signed_input_weight i)).

Section answers.
Context (obs : list Observation) (Hf : Forall (faithful C) obs).
Local Abbreviation idx := (ObservedIndex_new obs).

Lemma spend_of_chain o t : spend_of idx o = Some t → spent_by C o = Some t.
Proof using Hf.
  unfold spend_of. destruct (get idx (ChainQuery.Outspend o)) as [r|] eqn:Hg; [|done].
  apply (faithful_get _ _ _ _ Hf) in Hg. unfold faithful in Hg. simpl in Hg.
  destruct (spent_by C o); [subst r; by intros [= <-]|].
  destruct Hg as [->|(info & -> & Hc)]; [done|]. by rewrite Hc.
Qed.

Lemma outputs_of_chain t outs :
  outputs_of idx t = Some outs → ∃ tx, tx_of C t = Some tx ∧ outs = tx_output tx.
Proof using Hf.
  unfold outputs_of. destruct (get idx (ChainQuery.Transaction t)) as [r|] eqn:Hg; [|done].
  apply (faithful_get _ _ _ _ Hf) in Hg. unfold faithful in Hg. simpl in Hg. subst r.
  destruct (tx_of C t) as [tx|]; [|done]. intros [= <-]. by exists tx.
Qed.

Lemma chain_spend_of o t :
  is_Some (get idx (ChainQuery.Outspend o)) → spent_by C o = Some t → spend_of idx o = Some t.
Proof using Hf.
  unfold spend_of. intros [r Hg] Ho. rewrite Hg. apply (faithful_get _ _ _ _ Hf) in Hg.
  unfold faithful in Hg. simpl in Hg. rewrite Ho in Hg. by subst r.
Qed.

Lemma chain_outputs_of t tx :
  is_Some (get idx (ChainQuery.Transaction t)) → tx_of C t = Some tx →
  outputs_of idx t = Some (tx_output tx).
Proof using Hf.
  unfold outputs_of. intros [r Hg] Ho. rewrite Hg. apply (faithful_get _ _ _ _ Hf) in Hg.
  unfold faithful in Hg. simpl in Hg. rewrite Ho in Hg. by subst r.
Qed.

Lemma traced_descends i : traced idx supplied i → descends i.
Proof using Hf.
  induction 1 as [i Hi|i t outs j _ IH Hs Ho (v & out & Hv & Hscr & Hr & ->)%followed_elem].
  - by apply descends_supplied.
  - apply outputs_of_chain in Ho as (tx & Htx & ->). apply spend_of_chain in Hs.
    by eapply descends_spend.
Qed.

Lemma scan_outputs t outs v out :
  outputs_of idx t = Some outs → outs !! v = Some out → utxo (mkOutPoint t (Z.of_nat v)) = out.
Proof using Hf Hbody. intros (tx & Htx & ->)%outputs_of_chain ?. by eapply Hbody. Qed.

(** The state in which the scan's loop stops. *)
Lemma scan_funding_final :
  ∃ st, scan_funding supplied obs =
      {| fs_inputs := stable_sort input_key_le (hm_values (fu_inputs st));
         fs_pending := retain_unseen ∅ (fu_pending st) |} ∧
    funding_inv idx supplied utxo st ∧ ∀ i, traced idx supplied i → outpoint i ∈ fu_visited st.
Proof using Hsupplied Hbody Hf.
  destruct (funding_loop_ends idx supplied utxo Hsupplied scan_outputs) as (st & Hr & Hi & Hfr).
  exists st. unfold scan_funding. rewrite Hr. split_and!; [done|done|].
  intros i. by eapply funding_traced_visited; [|exact scan_outputs|..].
Qed.
End answers.

(** What a scan keeps. *)
Record worth_now (inputs : list CpfpInput) : Prop := {
  wn_sound i : i ∈ inputs → descends i ∧ spent_by C (outpoint i) = None;
  wn_complete i : descends i → spent_by C (outpoint i) = None →
    ∃ j, j ∈ inputs ∧ outpoint j = outpoint i ∧ witness_utxo j = witness_utxo i;
  wn_once : NoDup (outpoint <$> inputs);
  wn_sorted : StronglySorted (λ a b, outpoint_leb (outpoint a) (outpoint b) = true) inputs;
}.

Lemma descends_utxo i : descends i → witness_utxo i = utxo (outpoint i).
Proof using Hsupplied Hbody. destruct 1; [auto|]. simpl. symmetry. by eapply Hbody. Qed.

Lemma outpoint_leb_total (a b : OutPoint Txid) : outpoint_leb a b = true ∨ outpoint_leb b a = true.
Proof. clear. unfold outpoint_leb. repeat case_decide; try congruence; [lia|]. apply txid_leb_total. Qed.

Lemma outpoint_leb_trans (a b c : OutPoint Txid) :
  outpoint_leb a b = true → outpoint_leb b c = true → outpoint_leb a c = true.
Proof.
  clear. unfold outpoint_leb.
  destruct (decide (txid a = txid b)), (decide (txid b = txid c)), (decide (txid a = txid c));
    try congruence; try lia; intros Hab Hbc.
  - destruct n. apply txid_leb_antisymm; congruence.
  - by eapply txid_leb_trans.
Qed.

Lemma scan_funding_exact obs :
  Forall (faithful C) obs → fs_pending (scan_funding supplied obs) = [] →
  worth_now (fs_inputs (scan_funding supplied obs)).
Proof using Hsupplied Hbody.
  intros Hf. destruct (scan_funding_final obs Hf) as (st & -> & [I T K F _ _ P] & Hall). cbn [fs_inputs fs_pending].
  intros Hp. assert (fu_pending st = []) as Hnil.
  { destruct (fu_pending st) as [|q qs]; [done|]. simpl in Hp. by rewrite decide_False in Hp by set_solver. }
  assert (∀ q, get (ObservedIndex_new obs) q = None → (∃ o, o ∈ fu_visited st ∧
    (q = ChainQuery.Outspend o ∨ ∃ t, spend_of (ObservedIndex_new obs) o = Some t ∧ q = ChainQuery.Transaction t)) → False) as Hanswered.
  { intros q Hq Ho. apply (elem_of_nil q). rewrite <- Hnil. by apply P. }
  assert (∀ o, o ∈ fu_visited st → is_Some (get (ObservedIndex_new obs) (ChainQuery.Outspend o))) as Ho.
  { intros o Hv. destruct (get _ _) eqn:E; [by eexists|]. destruct (Hanswered _ E). exists o. split; [done|by left]. }
  assert (∀ i, descends i → traced (ObservedIndex_new obs) supplied i) as Htr.
  { induction 1 as [i Hi|i t tx v out _ IH Hs Ht Hv Hscr Hr]; [by apply traced_supplied|].
    pose proof (Hall i IH) as Hvis. apply (chain_spend_of obs Hf) in Hs; [|by apply Ho].
    eapply traced_spend; [exact IH|exact Hs| |apply followed_elem; by exists v, out].
    apply (chain_outputs_of obs Hf); [|done].
    destruct (get _ (ChainQuery.Transaction t)) eqn:E; [by eexists|]. destruct (Hanswered _ E).
    exists (outpoint i). split; [done|]. right. by exists t. }
  assert (∀ i, i ∈ stable_sort input_key_le (hm_values (fu_inputs st)) ↔ ∃ o, fu_inputs st !! o = Some i) as Hin.
  { intros i. rewrite stable_sort_perm. apply elem_of_hm_values. }
  split.
  - intros i [o Hi]%Hin. destruct (I o i Hi) as (<- & Ht & Hs). split; [by apply (traced_descends obs Hf)|].
    destruct (spent_by C (outpoint i)) eqn:E; [|done].
    apply (chain_spend_of obs Hf) in E; [congruence|apply Ho; by apply Hall].
  - intros i Hd Hs. destruct (K (outpoint i)) as [j Hj].
    + by apply Hall, Htr.
    + destruct (spend_of _ _) eqn:E; [|done]. apply (spend_of_chain obs Hf) in E. congruence.
    + destruct (I _ _ Hj) as (Hoj & Htj & _). exists j. split_and!; [apply Hin; by eexists|done|].
      rewrite (descends_utxo i Hd), (descends_utxo j); [by rewrite Hoj|]. by apply (traced_descends obs Hf).
  - rewrite stable_sort_perm. rewrite hm_values_perm.
    rewrite <- list_fmap_compose.
    rewrite (list_fmap_ext _ fst); [apply NoDup_fst_map_to_list|].
    intros k [o i] Hk%list_elem_of_lookup_2%elem_of_map_to_list. simpl. by destruct (I o i Hk).
  - apply stable_sort_sorted; intros; [apply outpoint_leb_total|by eapply outpoint_leb_trans].
Qed.
(** The lookups that a finite set of outpoints can need. *)
Definition funding_queries (U : list (OutPoint Txid)) : list ChainQuery.t :=
  (ChainQuery.Outspend <$> U) ++ (ChainQuery.Transaction <$> omap (spent_by C) U).

Lemma scan_funding_asks U obs :
  (∀ i, descends i → outpoint i ∈ U) → Forall (faithful C) obs →
  NoDup (fs_pending (scan_funding supplied obs)) ∧ ∀ q, q ∈ fs_pending (scan_funding supplied obs) →
    q ∈ funding_queries U ∧ get (ObservedIndex_new obs) q = None.
Proof using Hsupplied Hbody.
  intros HU Hf. destruct (scan_funding_final obs Hf) as (st & -> & [_ T _ _ _ _ P] & _). cbn [fs_pending].
  split; [apply retain_unseen_NoDup|]. intros q [Hq _]%elem_of_retain_unseen.
  apply P in Hq as (Hq & o & (i & Hi & <-)%T & Hc). split; [|done].
  apply (traced_descends obs Hf), HU in Hi. apply elem_of_app. destruct Hc as [->|(t & Ht & ->)]; [left|right].
  - by apply list_elem_of_fmap_2.
  - apply (spend_of_chain obs Hf) in Ht. apply list_elem_of_fmap_2, list_elem_of_omap. by exists (outpoint i).
Qed.

(** C25: A caller can hand back funding that was spent: resolving it ends, and gives
    exactly what it has become. On a chain whose answers are right, where the funding
    has finitely many descendants, the lookups end after at most two per outpoint;
    the inputs returned are the unspent outputs that descend from the supplied ones
    through spends in blocks while paying the same script, every one of them, each
    once, in the order of their outpoints. *)
Theorem resolve_funding_exact {W} (answer : ChainQuery.t → W → ChainResult.t * W) U world :
  (∀ q w, faithful C (mkObservation q (answer q w).1)) →
  (∀ i, descends i → outpoint i ∈ U) →
  ∃ inputs observed world',
    resolve_funding answer (S (length (funding_queries U))) supplied world = inr (inputs, observed, world') ∧
    worth_now inputs ∧ (length observed ≤ 2 * length U)%nat.
Proof using Hsupplied Hbody.
  intros Hans HU. destruct (resolve_ends answer
    (λ obs, let scan := scan_funding supplied obs in (fs_inputs scan, fs_pending scan))
    (faithful C) (funding_queries U) Hans) with (world := world) as (inputs & obs & world' & Hr & Hlast & Hf & _ & Hlen).
  - intros obs Hf. by apply scan_funding_asks.
  - injection Hlast as <- Hp. exists (fs_inputs (scan_funding supplied obs)), obs, world'.
    split_and!; [exact Hr|by apply scan_funding_exact|].
    etransitivity; [exact Hlen|]. unfold funding_queries. rewrite length_app, !length_fmap.
    assert (length (omap (spent_by C) U) ≤ length U)%nat; [|lia].
    clear. induction U as [|o U IH]; [done|]. csimpl. case_match; simpl; lia.
Qed.
End scan.

(** ** Witness: a fan-out spent the funding

    One of its outputs pays the funding's script, the other one does not. *)

#[local] Existing Instances btc68 btctx68.

Definition fan_out_tx : tx68 :=
  make_tx 3 [mkTxIn (mkOutPoint 2%positive 0) 0] [mkTxOut 60000 sample_script; mkTxOut 30000 [1; 2; 3]].
Definition fan_out_txid : positive := compute_txid (fan_out_tx : Transaction).

Definition fan_out_chain : @Chain btc68 btctx68 := {|
  mined_at t := if decide ((t : positive) = fan_out_txid) then Some 200 else None;
  spent_by o := if decide (o = outpoint (funding_of 100000)) then Some fan_out_txid else None;
  tx_of t := if decide ((t : positive) = fan_out_txid) then Some (fan_out_tx : Transaction) else None;
|}.

Definition fan_out_utxo (o : OutPoint positive) : TxOut (list Z) :=
  if decide (txid o = fan_out_txid)
  then nth (Z.to_nat (op_vout o)) (tx_output (fan_out_tx : Transaction)) (mkTxOut 0 [])
  else mkTxOut 100000 sample_script.

Definition fan_out_outpoints : list (OutPoint positive) :=
  [outpoint (funding_of 100000); mkOutPoint fan_out_txid 0].

(** The output that is followed *)
Definition fan_out_child : CpfpInput :=
  mkCpfpInput (mkOutPoint fan_out_txid 0) (mkTxOut 60000 sample_script) 272.

Lemma fan_out_supplied i :
  i ∈ [funding_of 100000] → witness_utxo i = fan_out_utxo (outpoint i).
Proof. intros ->%list_elem_of_singleton. reflexivity. Qed.

Lemma fan_out_body t tx v out :
  tx_of fan_out_chain t = Some tx → tx_output tx !! v = Some out →
  fan_out_utxo (mkOutPoint (t : positive) (Z.of_nat v)) = out.
Proof.
  simpl. case_decide as Ht; [|done]. intros [= <-] Hv. unfold fan_out_utxo. cbn [txid op_vout].
  rewrite decide_True by done. rewrite Nat2Z.id, nth_lookup. exact (f_equal (default (mkTxOut 0 [])) Hv).
Qed.

Lemma fan_out_descends i : descends fan_out_chain [funding_of 100000] i → outpoint i ∈ fan_out_outpoints.
Proof.
  intros Hd. pose proof (descends_utxo _ _ _ fan_out_supplied fan_out_body i Hd) as Hu.
  induction Hd as [i ->%list_elem_of_singleton|i t tx v out Hi IH Hs Ht Hv Hscr _]; [by left|].
  simpl in Hs. case_decide as Ho; [|done]. injection Hs as <-.
  assert (tx = (fan_out_tx : Transaction)) as ->
    by (vm_compute in Ht; injection Ht as <-; vm_compute; reflexivity).
  rewrite (descends_utxo _ _ _ fan_out_supplied fan_out_body i Hi), Ho in Hscr.
  destruct v as [|[|v]]; simpl in Hv; [right; by left| |by destruct v].
  injection Hv as <-. by vm_compute in Hscr.
Qed.

Example resolve_funding_exact_witness :
  ∃ inputs observed,
    @resolve_funding _ _ _ (λ q (w : unit), (answer_of fan_out_chain q, w)) (canonical_iter _) 4
      [funding_of 100000] () = inr (inputs, observed, ()) ∧
    (∃ j, j ∈ inputs ∧ outpoint j = mkOutPoint fan_out_txid 0) ∧ (length observed ≤ 4)%nat.
Proof.
  destruct (resolve_funding_exact (HashIter0 := canonical_iter _) fan_out_chain [funding_of 100000] fan_out_utxo
    fan_out_supplied fan_out_body (λ q (w : unit), (answer_of fan_out_chain q, w)) fan_out_outpoints ())
    as (inputs & observed & [] & Hr & Hw & Hlen).
  - intros q w. apply answer_of_faithful.
  - apply fan_out_descends.
  - exists inputs, observed. split_and!; [exact Hr| |exact Hlen].
    destruct (wn_complete _ _ _ Hw fan_out_child)
      as (j & Hj & Ho & _).
    + apply (descends_spend _ _ (funding_of 100000) fan_out_txid fan_out_tx 0 (mkTxOut 60000 sample_script)).
      * apply descends_supplied. by left.
      * reflexivity.
      * vm_compute. reflexivity.
      * vm_compute. reflexivity.
      * vm_compute. reflexivity.
      * apply (bool_decide_unpack _). vm_compute. exact I.
    + vm_compute. reflexivity.
    + exact (ex_intro _ j (conj Hj Ho)).
Defined.
