(* ===== verification/ExitBuild.v ===== *)
(** * Building a unilateral exit: [spark-wallet/src/unilateral_exit.rs]

    The transactions of an exit, put together from a plan and from what the chain
    has already confirmed of it. Each [Definition] is a part of [build_exit]: its
    loop over the branches, the loop over a branch's nodes, the [match] on the
    leaf's refund; [BranchState] holds the variables they update. *)

From S2P Require Import Prelude Bitcoin BitcoinTx TreeModel SparkTx ExitPlan ExitScan.

(** [SparkWalletError]; an error of another subsystem is kept as its message. *)
Module SparkWalletError.
Inductive t :=
| ValidationError (msg : string)
| InsufficientFunds
| InvalidNetwork
| InvalidAddress (msg : string)
| InvalidOutputIndex
| SelfPaymentNotAllowed
| LeavesNotFound
| NotADepositOutput
| SignerServiceError (display : string)
| DepositAddressUsed
| OperatorRpcError (e : OperatorRpcError.t)
| OperatorPoolError (msg : string)
| AddressError (display : string)
| TreeServiceError (e : TreeModel.TreeServiceError.t)
| TokenOutputServiceError (display : string)
| ServiceError (e : SparkTx.ServiceError.t)
| SspError (display : string)
| Generic (msg : string).
End SparkWalletError.
Abbreviation WalletResult := (result SparkWalletError.t).

(** [?] on a [Result<_, ServiceError>] *)
Definition from_service {A} (r : ServiceResult A) : WalletResult A :=
  match r with Ok a => Ok a | Err e => Err (SparkWalletError.ServiceError e) end.

Module ExitTxKind.
Inductive t := FanOut | Node | Refund.
End ExitTxKind.

Module ExitTxStatus.
Inductive t := Confirmed (block_height : option Z) | Unconfirmed | Unverified.
#[export] Instance t_eq_dec : EqDecision t.
Proof. solve_decision. Defined.
End ExitTxStatus.
Export (hints) ExitTxStatus.

Section build.
Context {B : Bitcoin} {BT : BitcoinTx}.

Record ResolvedExitState := mkResolved {
  res_nodes : gmap TreeNodeId NodeState;
  res_refunds : gmap TreeNodeId RefundState;
  res_stopped : gset TreeNodeId;
}.

Record ExitTx := {
  kind : ExitTxKind.t;
  node_id : option TreeNodeId;
  etx_txid : Txid;
  base_tx : Transaction;
  to_sign : option (Psbt Transaction ScriptBuf);
  csv_timelock_blocks : option Z;
  depends_on : list Txid;
  etx_status : ExitTxStatus.t;
}.

Record ExitBranch := mkBranch { eb_leaf_id : TreeNodeId; eb_txs : list ExitTx }.

Record RefundOutput := mkRefundOutput {
  ro_outpoint : OutPoint Txid;
  ro_leaf_id : TreeNodeId;
  ro_value : Z;
}.

Record CpfpChangeInput := {
  cci_outpoint : OutPoint Txid;
  cci_witness_utxo : TxOut ScriptBuf;
  cci_signed_input_weight : Z;
}.

Record UnilateralExitBuild := {
  fan_out : option ExitTx;
  branches : list ExitBranch;
  refund_outputs : list RefundOutput;
  cpfp_change_inputs : list CpfpChangeInput;
  recoverable_value_sat : Z;
  cpfp_fee_sat : Z;
  fanout_fee_sat : Z;
}.

(** ** One branch *)

(** The variables a branch's loop updates, with [emitted] and [cpfp_fee_sat] of the
    loop around it. *)
Record BranchState := mkBranchState {
  bs_funding : list CpfpInput;
  bs_txs : list ExitTx;
  bs_fan_out_dep : option Txid;
  bs_prev_txid : option Txid;
  bs_leaf_node_txid : option Txid;
  bs_emitted : gset Txid;
  bs_cpfp_fee_sat : Z;
}.

Definition build_node (resolved : ResolvedExitState) (leaf_id : TreeNodeId)
    (fee_rate_sat_per_kw : Z) (st : BranchState) (node : TreeNode) : WalletResult BranchState :=
  let node_state := res_nodes resolved !! id node in
  tx ← match node_state with
    | Some (ConfirmedDirect _) =>
        ok_or (direct_tx node) (SparkWalletError.Generic
          ("Node " +:+ id node +:+ " resolved as direct but has no direct_tx"))
    | _ => Ok (node_tx node)
    end;
  let node_txid := compute_txid tx in
  let parent_txid := bs_prev_txid st in
  let leaf_node_txid := if decide (id node = leaf_id) then Some node_txid
                        else bs_leaf_node_txid st in
  if decide (node_txid ∈ bs_emitted st) then
    Ok (mkBranchState (bs_funding st) (bs_txs st) (bs_fan_out_dep st) (Some node_txid)
          leaf_node_txid (bs_emitted st) (bs_cpfp_fee_sat st))
  else
    '(to_sign, funding, cpfp_fee_sat) ← match node_state with
      | Some _ => Ok (None, bs_funding st, bs_cpfp_fee_sat st)
      | None =>
          child ← from_service (build_cpfp_child (node_tx node) (bs_funding st) fee_rate_sat_per_kw);
          Ok (Some (child_psbt child), [change_input child],
              saturating_add 64 (bs_cpfp_fee_sat st) (fee_sat_paid child))
      end;
    let taken := match to_sign with Some _ => bs_fan_out_dep st | None => None end in
    let exit_tx := {|
      kind := ExitTxKind.Node;
      node_id := Some (id node);
      etx_txid := node_txid;
      base_tx := tx;
      to_sign := to_sign;
      csv_timelock_blocks := csv_timelock tx;
      depends_on := option_list parent_txid ++ option_list taken;
      etx_status := match node_state with
        | Some (ConfirmedCpfp h) | Some (ConfirmedDirect h) => ExitTxStatus.Confirmed h
        | None => ExitTxStatus.Unconfirmed
        end;
    |} in
    Ok (mkBranchState funding (bs_txs st ++ [exit_tx])
          (match to_sign with Some _ => None | None => bs_fan_out_dep st end)
          (Some node_txid) leaf_node_txid ({[node_txid]} ∪ bs_emitted st) cpfp_fee_sat).

Definition refund_output_value (refund_tx : Transaction) (leaf_id : TreeNodeId) : WalletResult Z :=
  out ← ok_or (head (tx_output refund_tx))
    (SparkWalletError.Generic ("refund tx for leaf " +:+ leaf_id +:+ " has no outputs"));
  Ok (txout_value out).

(** What the [match] on the leaf's refund adds: transactions, refund outputs,
    change inputs, and the fee paid so far. *)
Record RefundStep := mkRefundStep {
  rs_txs : list ExitTx;
  rs_refund_outputs : list RefundOutput;
  rs_change_inputs : list CpfpChangeInput;
  rs_cpfp_fee_sat : Z;
}.

Definition build_refund (resolved : ResolvedExitState) (leaf_id : TreeNodeId) (leaf : TreeNode)
    (fee_rate_sat_per_kw : Z) (st : BranchState) : WalletResult RefundStep :=
  let fee := bs_cpfp_fee_sat st in
  match res_refunds resolved !! leaf_id with
  | Some (Adopted adopted) =>
      Ok (mkRefundStep
        [{| kind := ExitTxKind.Refund; node_id := Some leaf_id;
            etx_txid := txid (cr_outpoint adopted); base_tx := cr_tx adopted; to_sign := None;
            csv_timelock_blocks := csv_timelock (cr_tx adopted); depends_on := [];
            etx_status := ExitTxStatus.Confirmed (cr_block_height adopted) |}]
        [mkRefundOutput (cr_outpoint adopted) leaf_id (cr_value adopted)] [] fee)
  | Some DriveDirect =>
      direct_refund ← ok_or (direct_refund_tx leaf) (SparkWalletError.Generic
        ("Leaf " +:+ leaf_id +:+ " went direct but has no direct_refund_tx"));
      let refund_txid := compute_txid direct_refund in
      refund_value ← refund_output_value direct_refund leaf_id;
      Ok (mkRefundStep
        [{| kind := ExitTxKind.Refund; node_id := Some leaf_id; etx_txid := refund_txid;
            base_tx := direct_refund; to_sign := None;
            csv_timelock_blocks := csv_timelock direct_refund;
            depends_on := option_list (bs_leaf_node_txid st);
            etx_status := ExitTxStatus.Unconfirmed |}]
        [mkRefundOutput (mkOutPoint refund_txid 0) leaf_id refund_value] [] fee)
  | Some RefundSwept => Ok (mkRefundStep [] [] [] fee)
  | None =>
      if decide (leaf_id ∈ res_stopped resolved) then Ok (mkRefundStep [] [] [] fee)
      else
        refund_tx ← ok_or (refund_tx leaf) (SparkWalletError.Generic
          ("Leaf " +:+ leaf_id +:+ " cannot be exited: no refund transaction"));
        let refund_txid := compute_txid refund_tx in
        refund_value ← refund_output_value refund_tx leaf_id;
        child ← from_service (build_cpfp_child refund_tx (bs_funding st) fee_rate_sat_per_kw);
        Ok (mkRefundStep
          [{| kind := ExitTxKind.Refund; node_id := Some leaf_id; etx_txid := refund_txid;
              base_tx := refund_tx; to_sign := Some (child_psbt child);
              csv_timelock_blocks := csv_timelock refund_tx;
              depends_on := option_list (bs_leaf_node_txid st) ++ option_list (bs_fan_out_dep st);
              etx_status := ExitTxStatus.Unconfirmed |}]
          [mkRefundOutput (mkOutPoint refund_txid 0) leaf_id refund_value]
          [{| cci_outpoint := outpoint (change_input child);
              cci_witness_utxo := witness_utxo (change_input child);
              cci_signed_input_weight := signed_input_weight (change_input child) |}]
          (saturating_add 64 fee (fee_sat_paid child)))
  end.

(** ** All branches *)

(** The variables of the outer loop. *)
Record BuildState := mkBuildState {
  bu_emitted : gset Txid;
  bu_branches : list ExitBranch;
  bu_refund_outputs : list RefundOutput;
  bu_change_inputs : list CpfpChangeInput;
  bu_cpfp_fee_sat : Z;
}.

Definition build_branch (node_map : gmap TreeNodeId TreeNode) (resolved : ResolvedExitState)
    (fan_out_txid : option Txid) (fee_rate_sat_per_kw : Z) (bu : BuildState)
    (branch : TreeNodeId * list CpfpInput) : WalletResult BuildState :=
  let '(leaf_id, branch_funding) := branch in
  leaf ← ok_or (node_map !! leaf_id)
    (SparkWalletError.Generic ("Leaf " +:+ leaf_id +:+ " missing from exit plan"));
  chain ← match walk_unilateral_exit_chain node_map leaf with
    | Ok chain => Ok chain
    | Err missing => Err (SparkWalletError.Generic
        ("Incomplete ancestor chain for leaf " +:+ leaf_id +:+ ": parent " +:+ missing +:+ " missing"))
    end;
  let st := mkBranchState branch_funding [] fan_out_txid None None (bu_emitted bu)
              (bu_cpfp_fee_sat bu) in
  st ← if decide (leaf_id ∈ res_stopped resolved) then Ok st
       else foldlR (build_node resolved leaf_id fee_rate_sat_per_kw) st chain;
  rs ← build_refund resolved leaf_id leaf fee_rate_sat_per_kw st;
  Ok (mkBuildState (bs_emitted st) (bu_branches bu ++ [mkBranch leaf_id (bs_txs st ++ rs_txs rs)])
        (bu_refund_outputs bu ++ rs_refund_outputs rs) (bu_change_inputs bu ++ rs_change_inputs rs)
        (rs_cpfp_fee_sat rs)).

Definition fan_out_exit_tx (psbt : Psbt Transaction ScriptBuf) : ExitTx := {|
  kind := ExitTxKind.FanOut;
  node_id := None;
  etx_txid := compute_txid (unsigned_tx psbt);
  base_tx := unsigned_tx psbt;
  to_sign := Some psbt;
  csv_timelock_blocks := None;
  depends_on := [];
  etx_status := ExitTxStatus.Unconfirmed;
|}.

Definition fresh_fan_out_fee (plan : UnilateralExitPlan) (fan_out : option ExitTx) : Z :=
  match fan_out_psbt plan, fan_out with
  | Some psbt, Some fan_out =>
      match to_sign fan_out with
      | None => 0
      | Some _ =>
          let in_value := sat_sum 64 (txout_value <$> omap (λ i, i) (psbt_inputs psbt)) in
          let out_value := sat_sum 64 (txout_value <$> tx_output (base_tx fan_out)) in
          saturating_sub in_value out_value
      end
  | _, _ => 0
  end.

Definition build_exit (plan : UnilateralExitPlan) (resolved : ResolvedExitState)
    (fee_rate_sat_per_kw : Z) : WalletResult UnilateralExitBuild :=
  let fan_out := fan_out_exit_tx <$> fan_out_psbt plan in
  bu ← foldlR (build_branch (plan_tree_nodes plan) resolved (etx_txid <$> fan_out) fee_rate_sat_per_kw)
         (mkBuildState ∅ [] [] [] 0) (per_branch_funding plan);
  Ok {|
    fan_out := fan_out;
    branches := bu_branches bu;
    refund_outputs := bu_refund_outputs bu;
    cpfp_change_inputs := bu_change_inputs bu;
    recoverable_value_sat := sat_sum 64 (sl_value <$> plan_selected_leaves plan);
    cpfp_fee_sat := bu_cpfp_fee_sat bu;
    fanout_fee_sat := fresh_fan_out_fee plan fan_out;
  |}.

(** ** What the chain shows, in the build's terms *)

Record ChainInterpretation := {
  ci_resolved : ResolvedExitState;
  ci_unverified : gset TreeNodeId;
}.

Definition flag_unverifiable_confirmation_branches (node_map : gmap TreeNodeId TreeNode)
    (plan : UnilateralExitPlan) (unverifiable_confirmed unverified : gset TreeNodeId)
    : gset TreeNodeId :=
  foldl (λ unverified branch,
    match node_map !! (branch : TreeNodeId * list CpfpInput).1 with
    | None => unverified
    | Some leaf =>
        match walk_unilateral_exit_chain node_map leaf with
        | Err _ => unverified
        | Ok chain =>
            if existsb (λ n, bool_decide (id n ∈ unverifiable_confirmed)) chain
            then list_to_set (id <$> chain) ∪ unverified
            else unverified
        end
    end) unverified (per_branch_funding plan).

Definition interpret_chain (plan : UnilateralExitPlan) (state : ExitChainState)
    : ChainInterpretation :=
  let walk := restore_exit_chain_walk state ((per_branch_funding plan).*1) in
  {| ci_resolved := mkResolved (walk_nodes walk) (walk_refunds walk) (walk_stopped walk);
     ci_unverified := flag_unverifiable_confirmation_branches (plan_tree_nodes plan) plan
       (walk_unverifiable_confirmed walk) (walk_unverified walk) |}.

Definition set_status (s : ExitTxStatus.t) (tx : ExitTx) : ExitTx := {|
  kind := kind tx; node_id := node_id tx; etx_txid := etx_txid tx; base_tx := base_tx tx;
  to_sign := to_sign tx; csv_timelock_blocks := csv_timelock_blocks tx;
  depends_on := depends_on tx; etx_status := s |}.

Definition flag_unverified_tx (unverified : gset TreeNodeId) (tx : ExitTx) : ExitTx :=
  match etx_status tx, node_id tx with
  | ExitTxStatus.Unconfirmed, Some i =>
      if decide (i ∈ unverified) then set_status ExitTxStatus.Unverified tx else tx
  | _, _ => tx
  end.

Definition flag_unverified_txs (build : UnilateralExitBuild) (interpretation : ChainInterpretation)
    : UnilateralExitBuild := {|
  fan_out := fan_out build;
  branches := (λ b, mkBranch (eb_leaf_id b)
    (flag_unverified_tx (ci_unverified interpretation) <$> eb_txs b)) <$> branches build;
  refund_outputs := refund_outputs build;
  cpfp_change_inputs := cpfp_change_inputs build;
  recoverable_value_sat := recoverable_value_sat build;
  cpfp_fee_sat := cpfp_fee_sat build;
  fanout_fee_sat := fanout_fee_sat build;
|}.

Definition build_unilateral_exit (plan : UnilateralExitPlan) (state : ExitChainState)
    (fee_rate_sat_per_kw : Z) : WalletResult UnilateralExitBuild :=
  let interpretation := interpret_chain plan state in
  build ← build_exit plan (ci_resolved interpretation) fee_rate_sat_per_kw;
  Ok (flag_unverified_txs build interpretation).
End build.
