(* ===== verification/ExitSweep.v ===== *)
(** * The sweep that ends a unilateral exit: [create_refund_sweep_transaction]

    [spark-wallet/src/wallet.rs]: one transaction that spends every refund output and
    every CPFP change output to one destination. Its refund inputs are signed here,
    its change inputs by the caller's signer. *)

From S2P Require Import Prelude Bitcoin BitcoinTx TreeModel SparkTx ExitPlan ExitPlanSpec ExitBuild.
From S2P Require Import ExitSample.
From stdpp Require Import pretty.
Open Scope Z_scope.

(** The wallet's signer, the sighash of the [bitcoin] crate; an error is its text. *)
Class SweepEnv {B : Bitcoin} {BT : BitcoinTx} (W : Type) := {
  Signature : Type;
  Sighash : Type;
  leaf_public_key : TreeNodeId → W → result string PublicKey * W;
  sign_leaf_refund_spend : TreeNodeId → Sighash → W → result string Signature * W;
  taproot_key_spend_signature_hash :
    Transaction → nat → list (TxOut ScriptBuf) → result string Sighash;
}.

Section sweep.
Context {B : Bitcoin} {BT : BitcoinTx} {W : Type} `{!SweepEnv W}.

(** [psbt::Input], the fields the code sets. *)
Record SweepInput := mkSweepInput {
  si_witness_utxo : option (TxOut ScriptBuf);
  si_final_script_witness : option Signature;
}.

Record SweepPsbt := mkSweepPsbt {
  sp_unsigned_tx : Transaction;
  sp_inputs : list SweepInput;
}.

(** [bitcoin/service.rs] *)
Definition sighash_from_multi_input_tx (tx : Transaction) (input_index : nat)
    (prev_outputs : list (TxOut ScriptBuf)) : result string Sighash :=
  if negb (length prev_outputs =? length (tx_input tx))%nat then
    Err ("prev_outputs length " +:+ pretty (Z.of_nat (length prev_outputs)) +:+
         " != inputs length " +:+ pretty (Z.of_nat (length (tx_input tx))))
  else taproot_key_spend_signature_hash tx input_index prev_outputs.

(** The variables the first two loops update. *)
Record SweepState := mkSweepState {
  ss_inputs : list (TxIn Txid Sequence);
  ss_prev_outputs : list (TxOut ScriptBuf);
  ss_total_value : Z;
  ss_weight : Z;
}.

Definition sweep_input (outpoint : OutPoint Txid) : TxIn Txid Sequence :=
  mkTxIn outpoint ENABLE_RBF_NO_LOCKTIME.

Definition add_input (st : SweepState) (outpoint : OutPoint Txid) (prev_output : TxOut ScriptBuf)
    (value weight : Z) : WalletResult SweepState :=
  total ← ok_or (checked_add 64 (ss_total_value st) value)
    (SparkWalletError.ValidationError "Total value overflow");
  Ok (mkSweepState (ss_inputs st ++ [sweep_input outpoint]) (ss_prev_outputs st ++ [prev_output])
        total (saturating_add 64 (ss_weight st) weight)).

Definition from_signer {A} (r : result string A) : WalletResult A :=
  match r with Ok a => Ok a | Err e => Err (SparkWalletError.SignerServiceError e) end.

Fixpoint add_refunds (refunds : list RefundOutput) (st : SweepState)
    : proc W (WalletResult SweepState) :=
  match refunds with
  | [] => mret (Ok st)
  | refund :: refunds =>
      key ← call (leaf_public_key (ro_leaf_id refund));
      pubkey ←? mret (from_signer key);
      st ←? mret (add_input st (ro_outpoint refund) (mkTxOut (ro_value refund) (p2tr_script pubkey))
                    (ro_value refund) p2tr_key_path_input_weight);
      add_refunds refunds st
  end.

Definition add_change (st : SweepState) (change : CpfpChangeInput) : WalletResult SweepState :=
  add_input st (cci_outpoint change) (cci_witness_utxo change)
    (txout_value (cci_witness_utxo change)) (cci_signed_input_weight change).

(** [psbt.inputs[i] = ...] *)
Definition set_input (i : nat) (x : SweepInput) (l : list SweepInput) : option (list SweepInput) :=
  if (i <? length l)%nat then Some (<[i := x]> l) else None.

(** The loop that signs, from input [i] on. *)
Fixpoint sign_refunds (unsigned_tx : Transaction) (prev_outputs : list (TxOut ScriptBuf)) (i : nat)
    (refunds : list RefundOutput) (inputs : list SweepInput)
    : proc W (WalletResult (list SweepInput)) :=
  match refunds with
  | [] => mret (Ok inputs)
  | refund :: refunds =>
      sighash ←? mret (match sighash_from_multi_input_tx unsigned_tx i prev_outputs with
                       | Ok s => Ok s
                       | Err e => Err (SparkWalletError.Generic ("Failed to compute sighash: " +:+ e))
                       end);
      signed ← call (sign_leaf_refund_spend (ro_leaf_id refund) sighash);
      sig ←? mret (from_signer signed);
      prev_output ← panic_or (prev_outputs !! i);
      inputs ← panic_or (set_input i (mkSweepInput (Some prev_output) (Some sig)) inputs);
      sign_refunds unsigned_tx prev_outputs (S i) refunds inputs
  end.

Fixpoint attach_changes (i : nat) (changes : list CpfpChangeInput) (inputs : list SweepInput)
    : option (list SweepInput) :=
  match changes with
  | [] => Some inputs
  | change :: changes =>
      inputs ← set_input i (mkSweepInput (Some (cci_witness_utxo change)) None) inputs;
      attach_changes (S i) changes inputs
  end.

Definition not_enough (total_value fee : Z) : SparkWalletError.t :=
  SparkWalletError.ValidationError ("Total value " +:+ pretty total_value +:+
    " sats is not enough to cover fee " +:+ pretty fee +:+ " sats").

Definition below_dust (output_value dust_limit : Z) : SparkWalletError.t :=
  SparkWalletError.ValidationError ("Sweep output (" +:+ pretty output_value +:+
    " sats) is below the dust limit (" +:+ pretty dust_limit +:+ " sats) for the destination address").

(** [dest_script] is [destination.script_pubkey()]. *)
Definition create_refund_sweep_transaction (refunds : list RefundOutput)
    (changes : list CpfpChangeInput) (dest_script : ScriptBuf) (fee_rate_sat_per_kw : Z)
    : proc W (WalletResult SweepPsbt) :=
  if bool_decide (length refunds = 0%nat) then
    mret (Err (SparkWalletError.ValidationError "At least one refund output is required"))
  else
    st ←? add_refunds refunds (mkSweepState [] [] 0 0);
    st ←? mret (foldlR add_change st changes);
    let total_value := ss_total_value st in
    let fee := compute_sweep_fee (ss_weight st) (script_len dest_script) fee_rate_sat_per_kw in
    if total_value <=? fee then mret (Err (not_enough total_value fee))
    else
      let output_value := saturating_sub total_value fee in
      let dust_limit := minimal_non_dust dest_script in
      if output_value <? dust_limit then mret (Err (below_dust output_value dust_limit))
      else
        let unsigned := make_tx 2 (ss_inputs st) [mkTxOut output_value dest_script] in
        psbt ←? mret (match from_unsigned_tx unsigned with
                      | Ok psbt => Ok psbt
                      | Err e => Err (SparkWalletError.Generic ("Failed to build sweep PSBT: " +:+ e))
                      end);
        inputs ←? sign_refunds unsigned (ss_prev_outputs st) 0 refunds
                    ((λ _, mkSweepInput None None) <$> psbt_inputs psbt);
        inputs ← panic_or (attach_changes (length refunds) changes inputs);
        mret (Ok (mkSweepPsbt (unsigned_tx psbt) inputs)).

(** ** What the sweep is *)

Implicit Types (refunds : list RefundOutput) (changes : list CpfpChangeInput).

Definition sweep_value refunds changes : Z :=
  sumZ (ro_value <$> refunds) + sumZ ((λ c, txout_value (cci_witness_utxo c)) <$> changes).

Definition sweep_weight refunds changes : Z :=
  sat_sum 64 (((λ _, p2tr_key_path_input_weight) <$> refunds) ++ (cci_signed_input_weight <$> changes)).

Definition sweep_inputs refunds changes : list (TxIn Txid Sequence) :=
  (sweep_input ∘ ro_outpoint <$> refunds) ++ (sweep_input ∘ cci_outpoint <$> changes).

Section answering.
Context (key_of : TreeNodeId → PublicKey) (sig_of : TreeNodeId → Sighash → Signature)
  (hash : Transaction → nat → list (TxOut ScriptBuf) → Sighash).

(** The signer and the sighash always answer. *)
Record SignerAnswers : Prop := {
  signer_key i w : (leaf_public_key i w).1 = Ok (key_of i);
  signer_sig i h w : (sign_leaf_refund_spend i h w).1 = Ok (sig_of i h);
  sighash_ok tx i o : taproot_key_spend_signature_hash tx i o = Ok (hash tx i o);
}.

Definition refund_prev_output (r : RefundOutput) : TxOut ScriptBuf :=
  mkTxOut (ro_value r) (p2tr_script (key_of (ro_leaf_id r))).

Definition sweep_prev_outputs refunds changes : list (TxOut ScriptBuf) :=
  (refund_prev_output <$> refunds) ++ (cci_witness_utxo <$> changes).

Definition sweep_tx refunds changes (value : Z) (dest_script : ScriptBuf) : Transaction :=
  make_tx 2 (sweep_inputs refunds changes) [mkTxOut value dest_script].

(** Refund inputs carry the leaf's signature over the sighash of that input. *)
Definition signed_refunds (tx : Transaction) (prev_outputs : list (TxOut ScriptBuf)) (k : nat) refunds
    : list SweepInput :=
  imap (λ i r, mkSweepInput (Some (refund_prev_output r))
    (Some (sig_of (ro_leaf_id r) (hash tx (k + i)%nat prev_outputs)))) refunds.

Definition unsigned_changes changes : list SweepInput :=
  (λ c, mkSweepInput (Some (cci_witness_utxo c)) None) <$> changes.

Definition sweep_outcome refunds changes (dest_script : ScriptBuf) (rate : Z)
    : WalletResult SweepPsbt :=
  let value := sweep_value refunds changes in
  let fee := compute_sweep_fee (sweep_weight refunds changes) (script_len dest_script) rate in
  let output := value - fee in
  let dust := minimal_non_dust dest_script in
  if bool_decide (refunds = []) then
    Err (SparkWalletError.ValidationError "At least one refund output is required")
  else if 2 ^ 64 <=? value then Err (SparkWalletError.ValidationError "Total value overflow")
  else if value <=? fee then Err (not_enough value fee)
  else if output <? dust then Err (below_dust output dust)
  else
    let tx := sweep_tx refunds changes output dest_script in
    Ok (mkSweepPsbt tx (signed_refunds tx (sweep_prev_outputs refunds changes) 0 refunds ++
                        unsigned_changes changes)).

Context (answers : SignerAnswers).

(** *** The loops that add inputs *)

Lemma add_input_outcome st o p v k :
  0 ≤ ss_total_value st → 0 ≤ v →
  add_input st o p v k =
    if 2 ^ 64 <=? ss_total_value st + v then Err (SparkWalletError.ValidationError "Total value overflow")
    else Ok (mkSweepState (ss_inputs st ++ [sweep_input o]) (ss_prev_outputs st ++ [p])
      (ss_total_value st + v) (saturating_add 64 (ss_weight st) k)).
Proof.
  intros. unfold add_input, checked_add.
  destruct (Z.leb_spec (2 ^ 64) (ss_total_value st + v)); destruct (_ <? _) eqn:E; try done;
    [apply Z.ltb_lt in E; lia|apply Z.ltb_ge in E; lia].
Qed.

(** Inputs after [st]: their values, weights, inputs and outputs. *)
Definition extend (st : SweepState) (rows : list (OutPoint Txid * TxOut ScriptBuf * Z * Z)) : SweepState :=
  mkSweepState (ss_inputs st ++ ((λ r, sweep_input r.1.1.1) <$> rows))
    (ss_prev_outputs st ++ ((λ r, r.1.1.2) <$> rows))
    (ss_total_value st + sumZ ((λ r, r.1.2) <$> rows))
    (foldl (saturating_add 64) (ss_weight st) ((λ r, r.2) <$> rows)).

Definition extended (st : SweepState) rows : WalletResult SweepState :=
  if 2 ^ 64 <=? ss_total_value st + sumZ ((λ r, r.1.2) <$> rows)
  then Err (SparkWalletError.ValidationError "Total value overflow")
  else Ok (extend st rows).

Lemma extend_nil st : extend st [] = st.
Proof. unfold extend. csimpl. destruct st. simpl. by rewrite !app_nil_r, Z.add_0_r. Qed.

Lemma extend_cons st o p v k rows :
  extend (mkSweepState (ss_inputs st ++ [sweep_input o]) (ss_prev_outputs st ++ [p])
    (ss_total_value st + v) (saturating_add 64 (ss_weight st) k)) rows =
  extend st ((o, p, v, k) :: rows).
Proof. unfold extend. csimpl. rewrite <- !app_assoc. simpl. f_equal. lia. Qed.

Definition refund_row (r : RefundOutput) : OutPoint Txid * TxOut ScriptBuf * Z * Z :=
  (ro_outpoint r, refund_prev_output r, ro_value r, p2tr_key_path_input_weight).
Definition change_row (c : CpfpChangeInput) : OutPoint Txid * TxOut ScriptBuf * Z * Z :=
  (cci_outpoint c, cci_witness_utxo c, txout_value (cci_witness_utxo c), cci_signed_input_weight c).

Definition nonneg_rows (rows : list (OutPoint Txid * TxOut ScriptBuf * Z * Z)) : Prop :=
  Forall (λ r, 0 ≤ r.1.2) rows.

Lemma nonneg_rows_sum rows : nonneg_rows rows → 0 ≤ sumZ ((λ r, r.1.2) <$> rows).
Proof. intros Hr. apply sumZ_nonneg. by apply Forall_fmap. Qed.

Lemma extended_cons st o p v k rows :
  0 ≤ ss_total_value st → 0 ≤ v → nonneg_rows rows →
  extended st ((o, p, v, k) :: rows) =
    match add_input st o p v k with Ok st' => extended st' rows | Err e => Err e end.
Proof.
  intros Ht Hv Hr%nonneg_rows_sum. rewrite add_input_outcome by done. unfold extended. csimpl.
  destruct (Z.leb_spec (2 ^ 64) (ss_total_value st + v)).
  { by rewrite (proj2 (Z.leb_le _ _)) by lia. }
  simpl. rewrite Z.add_assoc. destruct (_ <=? _); [done|]. by rewrite extend_cons.
Qed.

Lemma add_refunds_returns refunds st w :
  0 ≤ ss_total_value st → ss_total_value st < 2 ^ 64 → Forall (λ r, 0 ≤ ro_value r) refunds →
  returns (add_refunds refunds st) w (λ r _, r = extended st (refund_row <$> refunds)).
Proof using answers.
  intros Hst Hlt Hr. revert st w Hst Hlt. induction Hr as [|r refunds Hv Hr IH]; intros st w Hst Hlt; simpl.
  { apply returns_ret. unfold extended. simpl. rewrite Z.add_0_r, extend_nil.
    by rewrite (proj2 (Z.leb_gt _ _)). }
  apply returns_bind, returns_call. rewrite (signer_key answers). simpl.
  apply returns_try, returns_ret. simpl. fold (refund_prev_output r).
  assert (nonneg_rows (refund_row <$> refunds)) as Hn by (by apply Forall_fmap).
  pose proof (extended_cons st (ro_outpoint r) (refund_prev_output r) (ro_value r)
    p2tr_key_path_input_weight _ Hst Hv Hn) as Hext.
  rewrite add_input_outcome in Hext by done.
  eapply returns_weaken; [|intros res w' Hres; etransitivity; [exact Hres|symmetry; exact Hext]].
  apply returns_try, returns_ret. rewrite add_input_outcome by done.
  destruct (Z.leb_spec (2 ^ 64) (ss_total_value st + ro_value r)); [done|].
  apply IH; simpl; lia.
Qed.

Lemma add_changes_outcome changes st :
  0 ≤ ss_total_value st → ss_total_value st < 2 ^ 64 →
  Forall (λ c, 0 ≤ txout_value (cci_witness_utxo c)) changes →
  foldlR add_change st changes = extended st (change_row <$> changes).
Proof.
  intros Hst Hlt Hc. revert st Hst Hlt. induction Hc as [|c changes Hv Hc IH]; intros st Hst Hlt; simpl.
  { unfold extended. simpl. rewrite Z.add_0_r, extend_nil. by rewrite (proj2 (Z.leb_gt _ _)). }
  assert (nonneg_rows (change_row <$> changes)) as Hn by (by apply Forall_fmap).
  pose proof (extended_cons st (cci_outpoint c) (cci_witness_utxo c)
    (txout_value (cci_witness_utxo c)) (cci_signed_input_weight c) _ Hst Hv Hn) as Hext.
  rewrite add_input_outcome in Hext by done. etransitivity; [|symmetry; exact Hext].
  assert (add_change st c = add_input st (cci_outpoint c) (cci_witness_utxo c)
    (txout_value (cci_witness_utxo c)) (cci_signed_input_weight c)) as -> by done.
  rewrite add_input_outcome by done.
  destruct (Z.leb_spec (2 ^ 64) (ss_total_value st + txout_value (cci_witness_utxo c))); [done|].
  apply IH; simpl; lia.
Qed.

Lemma extend_app st rows rows' : extend (extend st rows) rows' = extend st (rows ++ rows').
Proof.
  unfold extend. simpl. rewrite !fmap_app, !app_assoc, sumZ_app, foldl_app. f_equal. lia.
Qed.

(** *** The loops that fill the inputs in *)

Lemma set_input_app l k x y (rest : list SweepInput) :
  k = length l → set_input k x (l ++ y :: rest) = Some (l ++ x :: rest).
Proof.
  intros ->. unfold set_input. rewrite length_app. simpl.
  rewrite (proj2 (Nat.ltb_lt _ _)) by lia. by rewrite insert_app_r_alt, Nat.sub_diag by lia.
Qed.

Lemma attach_changes_outcome changes l rest :
  length rest = length changes →
  attach_changes (length l) changes (l ++ rest) = Some (l ++ unsigned_changes changes).
Proof.
  revert l rest. induction changes as [|c changes IH]; intros l [|y rest] Hl; simpl in *; try done.
  rewrite set_input_app by done. simpl.
  set (x := mkSweepInput _ None).
  replace (S (length l)) with (length (l ++ [x])) by (rewrite length_app; simpl; lia).
  replace (l ++ x :: rest) with ((l ++ [x]) ++ rest) by by rewrite <- app_assoc.
  rewrite IH by lia. by rewrite <- app_assoc.
Qed.

Lemma sign_refunds_returns tx prev refunds l rest w :
  length prev = length (tx_input tx) →
  (∀ i r, refunds !! i = Some r → prev !! (length l + i)%nat = Some (refund_prev_output r)) →
  (length refunds <= length rest)%nat →
  returns (sign_refunds tx prev (length l) refunds (l ++ rest)) w (λ r _,
    r = Ok (l ++ signed_refunds tx prev (length l) refunds ++ drop (length refunds) rest)).
Proof using answers.
  intros Hlen. revert l rest w. induction refunds as [|r refunds IH]; intros l rest w Hprev Hrest; simpl.
  { by apply returns_ret. }
  unfold sighash_from_multi_input_tx. rewrite Hlen, Nat.eqb_refl, (sighash_ok answers). simpl.
  apply returns_try, returns_ret, returns_bind, returns_call.
  rewrite (signer_sig answers). simpl. apply returns_try, returns_ret.
  apply returns_bind. pose proof (Hprev 0%nat r eq_refl) as Hp. rewrite Nat.add_0_r in Hp.
  eapply returns_panic; [exact Hp|].
  destruct rest as [|y rest]; simpl in Hrest; [lia|].
  apply returns_bind. eapply returns_panic; [by apply set_input_app|].
  set (x := mkSweepInput _ _).
  replace (S (length l)) with (length (l ++ [x])) by (rewrite length_app; simpl; lia).
  replace (l ++ x :: rest) with ((l ++ [x]) ++ rest) by by rewrite <- app_assoc.
  eapply returns_weaken; [apply IH; [|lia]|].
  - intros i r' Hi. rewrite length_app. simpl. rewrite <- (Hprev (S i) r' Hi). f_equal. lia.
  - intros ? w' ->. rewrite <- app_assoc. do 2 f_equal. simpl. unfold x, signed_refunds. simpl.
    rewrite Nat.add_0_r. do 2 f_equal. apply imap_ext. intros i r' Hi. rewrite length_app. simpl.
    do 4 f_equal. lia.
Qed.

Definition values_u64 refunds changes : Prop :=
  Forall (λ r, in_uint 64 (ro_value r)) refunds ∧
  Forall (λ c, in_uint 64 (txout_value (cci_witness_utxo c))) changes.

Definition all_rows refunds changes := (refund_row <$> refunds) ++ (change_row <$> changes).

Lemma extend_all refunds changes :
  extend (mkSweepState [] [] 0 0) (all_rows refunds changes) =
    mkSweepState (sweep_inputs refunds changes) (sweep_prev_outputs refunds changes)
      (sweep_value refunds changes) (sweep_weight refunds changes).
Proof.
  unfold extend, all_rows, sweep_inputs, sweep_prev_outputs, sweep_value, sweep_weight. simpl.
  rewrite !fmap_app, <- !list_fmap_compose, sumZ_app. done.
Qed.

Lemma value_of_refunds refunds :
  sumZ ((λ r, r.1.2) <$> (refund_row <$> refunds)) = sumZ (ro_value <$> refunds).
Proof. by rewrite <- list_fmap_compose. Qed.

(** Building the PSBT and filling its inputs in. *)
Lemma finish_returns refunds changes (tx : Transaction) w :
  let prev := sweep_prev_outputs refunds changes in
  tx_input tx = sweep_inputs refunds changes →
  returns (inputs ←? sign_refunds tx prev 0 refunds
             (replicate (length (sweep_inputs refunds changes)) (mkSweepInput None None));
           inputs ← panic_or (attach_changes (length refunds) changes inputs);
           mret (Ok (mkSweepPsbt tx inputs))) w
    (λ r _, r = Ok (mkSweepPsbt tx (signed_refunds tx prev 0 refunds ++ unsigned_changes changes))).
Proof using answers.
  cbn zeta. intros Htx.
  assert (length (sweep_inputs refunds changes) = (length refunds + length changes)%nat) as Hlen
    by (unfold sweep_inputs; by rewrite length_app, !length_fmap).
  apply returns_try. eapply returns_weaken.
  - apply (sign_refunds_returns tx (sweep_prev_outputs refunds changes) refunds []).
    + rewrite Htx, Hlen. unfold sweep_prev_outputs. by rewrite length_app, !length_fmap.
    + intros i r Hr. simpl. unfold sweep_prev_outputs. rewrite lookup_app_l.
      * by rewrite list_lookup_fmap, Hr.
      * rewrite length_fmap. by eapply lookup_lt_Some.
    + rewrite length_replicate. lia.
  - intros ? w' ->. simpl. rewrite drop_replicate, Hlen. apply returns_bind.
    eapply returns_panic; [|by apply returns_ret].
    pose proof (attach_changes_outcome changes
      (signed_refunds tx (sweep_prev_outputs refunds changes) 0 refunds)
      (replicate (length refunds + length changes - length refunds) (mkSweepInput None None))) as Ha.
    unfold signed_refunds at 1 in Ha. rewrite length_imap in Ha. apply Ha.
    rewrite length_replicate. lia.
Qed.

(** When every refund comes with a change input of the quoted weight, the weight of the
    sweep is the one the quote reckons with. *)
Lemma sweep_weight_quoted params refunds changes :
  length changes = length refunds →
  Forall (λ c, cci_signed_input_weight c = single_cpfp_input_weight params) changes →
  0 ≤ single_cpfp_input_weight params →
  p2tr_key_path_input_weight + single_cpfp_input_weight params < 2 ^ 64 →
  sweep_fits params (length refunds) →
  sweep_weight refunds changes = Z.of_nat (length refunds) * sweep_leaf_weight params.
Proof.
  intros Hn Hw Hs Hfit0 Hfit.
  pose proof (segwit_weight_range [SCHNORR_SIGNATURE_SIZE]) as Hp.
  fold (input_segwit_weight [SCHNORR_SIGNATURE_SIZE]) in Hp. fold p2tr_key_path_input_weight in Hp.
  assert (sweep_leaf_weight params = p2tr_key_path_input_weight + single_cpfp_input_weight params) as Heq
    by (unfold sweep_leaf_weight, in_uint in *; apply uadd_small; lia).
  assert (∀ (l : list RefundOutput) (k : Z), (λ _, k) <$> l = replicate (length l) k) as Hrep
    by (intros l k; induction l; csimpl; [done|by f_equal]).
  assert (cci_signed_input_weight <$> changes = replicate (length changes) (single_cpfp_input_weight params)) as Hc
    by (clear Hn; induction Hw; csimpl; [done|by f_equal]).
  unfold sweep_weight. rewrite Hrep, Hc, Hn.
  unfold sweep_fits in Hfit. rewrite Heq in Hfit.
  pose proof (txout_weight_range (destination_script_len params)) as Ho.
  pose proof (tx_weight_range (make_tx 2 [] [])) as Ht.
  unfold output_weight, tx_overhead_weight, in_uint in *.
  rewrite sat_sum_exact.
  - rewrite sumZ_app, !sumZ_replicate, Heq. lia.
  - lia.
  - rewrite Forall_app. split; apply Forall_replicate; lia.
  - rewrite sumZ_app, !sumZ_replicate. lia.
Qed.

(** C26: The sweep is exact. With a signer that answers, it comes out as [sweep_outcome]:
    it is refused when there is nothing to sweep, when the values do not fit 64 bits,
    when the fee takes everything, and when what is left is dust; otherwise it spends
    every refund and every change output once, in order and replaceable, to one output
    worth all of them less the fee, with each refund input signed over its own sighash
    and each change input left to the caller. The fee is the one the quote reckoned
    with when every refund comes with a change input of the quoted weight. *)
Theorem sweep_exact refunds changes dest_script rate w :
  values_u64 refunds changes →
  returns (create_refund_sweep_transaction refunds changes dest_script rate) w
    (λ r _, r = sweep_outcome refunds changes dest_script rate) ∧
  ∀ params,
    destination_script_len params = script_len dest_script → fee_rate_sat_per_kw params = rate →
    length changes = length refunds →
    Forall (λ c, cci_signed_input_weight c = single_cpfp_input_weight params) changes →
    0 ≤ single_cpfp_input_weight params →
    p2tr_key_path_input_weight + single_cpfp_input_weight params < 2 ^ 64 →
    sweep_fits params (length refunds) → refunds ≠ [] →
    compute_sweep_fee (sweep_weight refunds changes) (script_len dest_script) rate =
      sweep_total params (length refunds).
Proof using answers.
  intros [Hr Hc]. split.
  2:{ intros params Hd Hrate Hn Hw Hs Hfit0 Hfit Hne.
      rewrite (sweep_weight_quoted params) by done. unfold sweep_total. rewrite Hrate, Hd.
      by destruct refunds. }
  assert (Forall (λ r, 0 ≤ ro_value r) refunds) as Hr0 by (eapply Forall_impl; [exact Hr|]; by intros ? []).
  assert (Forall (λ c, 0 ≤ txout_value (cci_witness_utxo c)) changes) as Hc0
    by (eapply Forall_impl; [exact Hc|]; by intros ? []).
  assert (0 ≤ sumZ (ro_value <$> refunds)) as Hrs by (apply sumZ_nonneg; by apply Forall_fmap).
  assert (0 ≤ sumZ ((λ c, txout_value (cci_witness_utxo c)) <$> changes)) as Hcs
    by (apply sumZ_nonneg; by apply Forall_fmap).
  unfold create_refund_sweep_transaction, sweep_outcome.
  destruct refunds as [|r0 refunds0]; [by apply returns_ret|].
  set (refunds := r0 :: refunds0) in *.
  rewrite bool_decide_false by (subst refunds; done). rewrite (bool_decide_false (refunds = [])) by done.
  clearbody refunds. clear r0 refunds0.
  apply returns_try. eapply returns_weaken; [by apply add_refunds_returns|]. intros ? w1 ->.
  unfold extended at 1. rewrite value_of_refunds. cbn [ss_total_value]. rewrite Z.add_0_l.
  destruct (Z.leb_spec (2 ^ 64) (sumZ (ro_value <$> refunds))).
  { unfold sweep_value. by rewrite (proj2 (Z.leb_le (2 ^ 64) (_ + _))) by lia. }
  assert (foldlR add_change (extend (mkSweepState [] [] 0 0) (refund_row <$> refunds)) changes =
    if 2 ^ 64 <=? sweep_value refunds changes
    then Err (SparkWalletError.ValidationError "Total value overflow")
    else Ok (mkSweepState (sweep_inputs refunds changes) (sweep_prev_outputs refunds changes)
      (sweep_value refunds changes) (sweep_weight refunds changes))) as ->.
  { rewrite add_changes_outcome; [|simpl; rewrite value_of_refunds; lia..|done].
    unfold extended. rewrite extend_app. fold (all_rows refunds changes). rewrite extend_all.
    simpl. rewrite value_of_refunds, <- list_fmap_compose. done. }
  apply returns_try, returns_ret. destruct (2 ^ 64 <=? _); [done|]. simpl.
  set (fee := compute_sweep_fee _ _ _).
  destruct (Z.leb_spec (sweep_value refunds changes) fee); [by apply returns_ret|].
  unfold saturating_sub. rewrite Z.max_r by lia.
  destruct (_ <? minimal_non_dust _); [by apply returns_ret|].
  apply returns_try, returns_ret. rewrite from_unsigned_make. simpl.
  rewrite fmap_replicate. apply finish_returns. apply tx_input_make.
Qed.
End answering.
End sweep.
Arguments SweepInput {_ _} W {_}.
Arguments SweepPsbt {_ _} W {_}.

(** ** One refund and its change *)

#[local] Existing Instances btc68 btctx68.

#[local] Instance sample_sweep_env : SweepEnv unit :=
  {| Signature := string; Sighash := nat;
     leaf_public_key _ w := (Ok ("key"%string : @PublicKey btc68), w);
     sign_leaf_refund_spend i _ w := (Ok i, w);
     taproot_key_spend_signature_hash _ i _ := Ok i |}.

Lemma sample_answers :
  SignerAnswers (λ _, "key"%string : @PublicKey btc68) (λ i _, i : @Signature _ _ unit _)
    (λ _ i _, i : @Sighash _ _ unit _).
Proof. by split. Qed.

Definition sample_refund : RefundOutput :=
  mkRefundOutput (mkOutPoint (compute_txid (a_refund : Transaction)) 0) "a" 10000.
Definition sample_change : CpfpChangeInput :=
  {| cci_outpoint := mkOutPoint 9%positive 0; cci_witness_utxo := mkTxOut 5000 sample_script;
     cci_signed_input_weight := 272 |}.

Definition outcome_value {W} `{SweepEnv W} (r : WalletResult (SweepPsbt W)) : option (list Z) :=
  match r with Ok p => Some (txout_value <$> tx_output (sp_unsigned_tx p)) | Err _ => None end.

(** 15000 sats come in, 668 go to fees. *)
Example sweep_exact_witness :
  returns (create_refund_sweep_transaction (W := unit) [sample_refund] [sample_change] sample_script 1000)
    () (λ r _, outcome_value r = Some [15000 - compute_sweep_fee
      (sweep_weight [sample_refund] [sample_change]) (script_len sample_script) 1000]).
Proof.
  destruct (sweep_exact _ _ _ sample_answers [sample_refund] [sample_change] sample_script 1000 ())
    as [Hs _].
  { split; (constructor; [unfold in_uint; simpl; lia|constructor]). }
  eapply returns_weaken; [exact Hs|]. intros r w ->. vm_compute. reflexivity.
Defined.
