(* ===== verification/ExitFollow.v ===== *)
(** * Following an exit in the SDK: [breez-sdk/core/src/sdk/unilateral_exit.rs]

    The SDK performs the lookups of [ExitScan] and [ExitCheck] on a chain service
    ([breez-sdk/core/src/chain/mod.rs]), reads an exit the caller kept back against the
    chain, and says of each transaction whether it can be sent. *)

From S2P Require Import Prelude Bitcoin BitcoinTx TreeModel SparkTx ExitPlan ExitScan ExitCheck ExitBuild.

(** ** Errors *)

Inductive Fee := Fixed (amount : Z) | Rate (sat_per_vbyte : Z).

Module SdkError.
Inductive t :=
| SparkError (msg : string)
| InsufficientFunds (token_identifier : option string)
| InvalidUuid (msg : string) | InvalidInput (msg : string) | NetworkError (msg : string)
| StorageError (msg : string) | ChainServiceError (msg : string)
| MaxDepositClaimFeeExceeded (tx : string) (vout : Z) (max_fee : option Fee)
    (required_fee_sats required_fee_rate_sat_per_vbyte : Z)
| MissingUtxo (tx : string) (vout : Z)
| DepositClaimInProgress (tx : string) (vout : Z)
| RefundReplacementFeeTooLow (pending_fee_sats required_fee_sats : Z)
| LnurlError (msg : string) | Signer (msg : string)
| OptimizationAlreadyRunning | OptimizationCancelled
| InsufficientCpfpFunds (required_sat : Z)
| Generic (msg : string).
End SdkError.

Module ChainServiceError.
Inductive t := InvalidAddress (msg : string) | ServiceConnectivity (msg : string) | Generic (msg : string).
End ChainServiceError.

(** ** The text form of the [bitcoin] crate's types *)

Class BitcoinText `{BitcoinTx} := {
  txid_from_str : string → result string Txid;
  txid_to_string : Txid → string;
  address_to_string : Address → string;
  (** [consensus::encode::deserialize_hex::<Transaction>] *)
  deserialize_hex : string → result string Transaction;
  txid_from_to_string t : txid_from_str (txid_to_string t) = Ok t;
}.

(** ** The chain service *)

Record TxStatus := {
  ts_confirmed : bool;
  ts_block_height : option Z;
  ts_block_time : option Z;
}.

Record Utxo := {
  utxo_txid : string;
  utxo_vout : Z;
  utxo_value : Z;
  utxo_status : TxStatus;
}.

Inductive Outspend :=
| Unspent
| Spent (txid : string) (vin : Z) (status : TxStatus).

(** The part of the trait that the exit calls. *)
Class BitcoinChainService (W : Type) := {
  get_address_txos : string → W → result ChainServiceError.t (list Utxo) * W;
  get_transaction_status : string → W → result ChainServiceError.t TxStatus * W;
  tip_height : W → result ChainServiceError.t Z * W;
  get_transaction_hex : string → W → result ChainServiceError.t string * W;
  get_outspend : string → Z → W → result ChainServiceError.t Outspend * W;
}.

Section lookup.
Context `{BitcoinText} {W : Type} `{!BitcoinChainService W}.

Definition execute_chain_query (query : ChainQuery.t) (world : W) : ChainResult.t * W :=
  match query with
  | ChainQuery.TxConfirmed t =>
      let '(r, world) := get_transaction_status (txid_to_string t) world in
      (match r with
       | Ok status => ChainResult.Confirmed (ts_confirmed status) (ts_block_height status)
       | Err _ => ChainResult.Unavailable
       end, world)
  | ChainQuery.Outspend o =>
      let '(r, world) := get_outspend (txid_to_string (txid o)) (op_vout o) world in
      (match r with
       | Ok (Spent t _ status) =>
           match txid_from_str t with
           | Ok spender => ChainResult.Spend (Some {| spender_txid := spender;
               spend_confirmed := ts_confirmed status; spend_block_height := ts_block_height status |})
           | Err _ => ChainResult.Unavailable
           end
       | Ok Unspent => ChainResult.Spend None
       | Err _ => ChainResult.Unavailable
       end, world)
  | ChainQuery.Transaction t =>
      let '(r, world) := get_transaction_hex (txid_to_string t) world in
      (match r with
       | Ok hex =>
           match deserialize_hex hex with
           | Ok tx => ChainResult.Transaction tx
           | Err _ => ChainResult.Unavailable
           end
       | Err _ => ChainResult.Unavailable
       end, world)
  | ChainQuery.RefundAddress _ address =>
      let '(r, world) := get_address_txos (address_to_string address) world in
      (match r with
       | Ok txos => ChainResult.AddressUtxos (omap (λ u,
           match txid_from_str (utxo_txid u) with
           | Ok t => Some {| au_txid := t; au_vout := utxo_vout u; au_value := utxo_value u;
               au_confirmed := ts_confirmed (utxo_status u);
               au_block_height := ts_block_height (utxo_status u) |}
           | Err _ => None
           end) txos)
       | Err _ => ChainResult.Unavailable
       end, world)
  end.
End lookup.

(** ** The exit a caller keeps *)

Module UnilateralExitTxKind.
Inductive t := FanOut | Node | Refund | Sweep.
End UnilateralExitTxKind.

Module ExitTransactionStatus.
Inductive t :=
| Confirmed (block_height : option Z)
| Ready
| WaitingForDependencies
| WaitingForTimelock (spendable_at_height : option Z)
| Unverified.

Definition is_confirmed (s : t) : bool := match s with Confirmed _ => true | _ => false end.
End ExitTransactionStatus.

Record UnilateralExitTransaction := {
  ut_kind : UnilateralExitTxKind.t;
  ut_node_id : option string;
  ut_txid : string;
  ut_tx_hex : string;
  ut_cpfp_tx_hex : option string;
  ut_csv_timelock_blocks : option Z;
  ut_depends_on : list string;
  ut_status : ExitTransactionStatus.t;
}.

Record UnilateralExitLeaf := { ul_leaf_id : string; ul_value : Z }.

(** [models::CpfpInput] *)
Module ModelCpfpInput.
Inductive t :=
| P2wpkh (txid : string) (vout value : Z) (pubkey : string)
| P2tr (txid : string) (vout value : Z) (pubkey : string)
| Custom (txid : string) (vout value : Z) (script_pubkey_hex : string) (signed_input_weight : Z).
End ModelCpfpInput.

Record UnilateralExitResponse := {
  ur_recoverable_value_sat : Z;
  ur_total_fee_sat : Z;
  ur_cpfp_fee_sat : Z;
  ur_fanout_fee_sat : Z;
  ur_sweep_fee_sat : Z;
  ur_leaves : list UnilateralExitLeaf;
  ur_transactions : list UnilateralExitTransaction;
  ur_funding_inputs : list ModelCpfpInput.t;
}.

Inductive UnilateralExitRedoReason := OnChainStateDiverged.
Inductive UnilateralExitVerdict := Valid | Done | Redo (reason : UnilateralExitRedoReason).

Record CheckUnilateralExitResponse := {
  cu_exit : UnilateralExitResponse;
  cu_verdict : UnilateralExitVerdict;
}.

Definition set_tx_status (tx : UnilateralExitTransaction) (s : ExitTransactionStatus.t)
    : UnilateralExitTransaction := {|
  ut_kind := ut_kind tx; ut_node_id := ut_node_id tx; ut_txid := ut_txid tx;
  ut_tx_hex := ut_tx_hex tx; ut_cpfp_tx_hex := ut_cpfp_tx_hex tx;
  ut_csv_timelock_blocks := ut_csv_timelock_blocks tx; ut_depends_on := ut_depends_on tx;
  ut_status := s |}.

Definition set_transactions (exit : UnilateralExitResponse) (txs : list UnilateralExitTransaction)
    : UnilateralExitResponse := {|
  ur_recoverable_value_sat := ur_recoverable_value_sat exit;
  ur_total_fee_sat := ur_total_fee_sat exit; ur_cpfp_fee_sat := ur_cpfp_fee_sat exit;
  ur_fanout_fee_sat := ur_fanout_fee_sat exit; ur_sweep_fee_sat := ur_sweep_fee_sat exit;
  ur_leaves := ur_leaves exit; ur_transactions := txs;
  ur_funding_inputs := ur_funding_inputs exit |}.

(** ** Statuses *)

Section statuses.
Context `{BitcoinText} {W : Type} `{!BitcoinChainService W}.
Implicit Types (txs : list UnilateralExitTransaction) (heights : gmap Txid (option Z)).

Definition status_after_check (current : ExitTransactionStatus.t) (check : ExitCheck) (t : Txid)
    : ExitTransactionStatus.t :=
  let held_height := match current with
    | ExitTransactionStatus.Confirmed block_height => block_height
    | _ => None
    end in
  match chk_confirmed check !! t, current with
  | Some block_height, _ =>
      ExitTransactionStatus.Confirmed
        (match block_height with Some h => Some h | None => held_height end)
  | None, ExitTransactionStatus.Confirmed _ =>
      if decide (t ∈ chk_not_confirmed check) then ExitTransactionStatus.WaitingForDependencies
      else current
  | None, _ => current
  end.

(** The [for input in &tx.input] loop of [spendable_at_height]. *)
Fixpoint spendable_loop (inputs : list (TxIn Txid Sequence)) (spendable_at : option Z)
    heights (world : W) : option Z * gmap Txid (option Z) * W :=
  match inputs with
  | [] => (spendable_at, heights, world)
  | input :: inputs =>
      match to_relative_lock_time (sequence input) with
      | Some (Blocks blocks) =>
          if blocks =? 0 then spendable_loop inputs spendable_at heights world else
          let funded_by := txid (previous_output input) in
          let '(heights, world) := match heights !! funded_by with
            | Some _ => (heights, world)
            | None =>
                let '(r, world) := get_transaction_status (txid_to_string funded_by) world in
                (<[funded_by := match r with
                   | Ok status => if ts_confirmed status then ts_block_height status else None
                   | Err _ => None
                   end]> heights, world)
            end in
          match mjoin (heights !! funded_by) with
          | None => (None, heights, world)
          | Some height =>
              spendable_loop inputs
                (Some (Z.max (default 0 spendable_at) (saturating_add 32 height blocks)))
                heights world
          end
      | _ => spendable_loop inputs spendable_at heights world
      end
  end.

Definition spendable_at_height (tx : Transaction) heights (world : W) :=
  spendable_loop (tx_input tx) None heights world.

(** The variables of the second half of [resolve_statuses]. *)
Record Resolving := mkResolving {
  rs_heights : gmap Txid (option Z);
  rs_tip : option Z;
  rs_world : W;
  rs_resolved : list ExitTransactionStatus.t;
}.

Definition push_status (s : ExitTransactionStatus.t) (st : Resolving) : Resolving :=
  mkResolving (rs_heights st) (rs_tip st) (rs_world st) (rs_resolved st ++ [s]).

(** [for (tx, met) in transactions.iter().zip(&met)] *)
Definition resolve_step (st : Resolving) (p : UnilateralExitTransaction * bool)
    : result (SdkError.t * W) Resolving :=
  let '(tx, met) := p in
  match ut_status tx with
  | ExitTransactionStatus.Confirmed _ | ExitTransactionStatus.Unverified => Ok (push_status (ut_status tx) st)
  | _ =>
      if negb met then Ok (push_status ExitTransactionStatus.WaitingForDependencies st)
      else match ut_csv_timelock_blocks tx with
      | None => Ok (push_status ExitTransactionStatus.Ready st)
      | Some _ =>
          match deserialize_hex (ut_tx_hex tx) with
          | Err e => Err (SdkError.InvalidInput ("Invalid transaction: " ++ e), rs_world st)
          | Ok decoded =>
              let '(spendable_at, heights, world) :=
                spendable_at_height decoded (rs_heights st) (rs_world st) in
              match spendable_at with
              | None =>
                  Ok (mkResolving heights (rs_tip st) world
                    (rs_resolved st ++ [ExitTransactionStatus.WaitingForTimelock None]))
              | Some spendable_at =>
                  let '(tip, world) := match rs_tip st with
                    | Some tip => (Some tip, world)
                    | None =>
                        let '(r, world) := tip_height world in
                        (match r with Ok tip => Some tip | Err _ => None end, world)
                    end in
                  let matured := match tip with
                    | Some tip => spendable_at <=? saturating_add 32 tip 1
                    | None => false
                    end in
                  Ok (mkResolving heights tip world (rs_resolved st ++
                    [if matured then ExitTransactionStatus.Ready
                     else ExitTransactionStatus.WaitingForTimelock (Some spendable_at)]))
              end
          end
      end
  end.

Definition confirmed_txids txs : list string :=
  ut_txid <$> filter (λ tx, ExitTransactionStatus.is_confirmed (ut_status tx) = true) txs.

Definition dependencies_met txs (tx : UnilateralExitTransaction) : bool :=
  forallb (λ dep, bool_decide (dep ∈ confirmed_txids txs)) (ut_depends_on tx).

Definition seeded_heights txs : gmap Txid (option Z) :=
  hm_collect (omap (λ tx,
    match ut_status tx with
    | ExitTransactionStatus.Confirmed (Some height) =>
        match txid_from_str (ut_txid tx) with Ok t => Some (t, Some height) | Err _ => None end
    | _ => None
    end) txs).

Definition resolve_statuses txs (world : W)
    : result SdkError.t (list UnilateralExitTransaction) * W :=
  let met := dependencies_met txs <$> txs in
  match foldlR resolve_step (mkResolving (seeded_heights txs) None world []) (zip txs met) with
  | Err (e, world) => (Err e, world)
  | Ok st => (Ok (zip_with set_tx_status txs (rs_resolved st)), rs_world st)
  end.

Definition decode (hex : string) : result SdkError.t Transaction :=
  match deserialize_hex hex with
  | Ok tx => Ok tx
  | Err e => Err (SdkError.InvalidInput ("Invalid transaction: " ++ e))
  end.

Definition exit_check_input (tx : UnilateralExitTransaction) : result SdkError.t ExitCheckInput :=
  base ← decode (ut_tx_hex tx);
  cpfp ← match ut_cpfp_tx_hex tx with None => Ok None | Some hex => Some <$> decode hex end;
  Ok (mkCheckInput base cpfp (ExitTransactionStatus.is_confirmed (ut_status tx))).

(** [for tx in &mut exit.transactions] of [check_unilateral_exit] *)
Definition apply_check (check : ExitCheck) (tx : UnilateralExitTransaction)
    : result SdkError.t UnilateralExitTransaction :=
  match txid_from_str (ut_txid tx) with
  | Err e => Err (SdkError.InvalidInput ("Invalid txid " ++ ut_txid tx ++ ": " ++ e))
  | Ok t => Ok (set_tx_status tx (status_after_check (ut_status tx) check t))
  end.

Definition verdict_of (check : ExitCheck) txs : UnilateralExitVerdict :=
  let all_confirmed := forallb (λ tx, ExitTransactionStatus.is_confirmed (ut_status tx)) txs in
  if chk_diverged check then Redo OnChainStateDiverged
  else if all_confirmed && negb (length txs =? 0)%nat then Done
  else Valid.

(** [None] when [fuel] rounds do not answer every lookup. *)
Definition check_unilateral_exit (fuel : nat) (exit : UnilateralExitResponse) (world : W)
    : option (result SdkError.t CheckUnilateralExitResponse * W) :=
  match mapR exit_check_input (ur_transactions exit) with
  | Err e => Some (Err e, world)
  | Ok inputs =>
      match resolve_exit_check execute_chain_query fuel inputs world with
      | inl _ => None
      | inr (check, _, world) => Some (
          match mapR (apply_check check) (ur_transactions exit) with
          | Err e => (Err e, world)
          | Ok txs =>
              let '(r, world) := resolve_statuses txs world in
              (txs ← r;
               Ok {| cu_exit := set_transactions exit txs; cu_verdict := verdict_of check txs |}, world)
          end)
      end
  end.
End statuses.

(** ** Statuses of a fresh build *)

Definition initial_status (status : ExitTxStatus.t) : ExitTransactionStatus.t :=
  match status with
  | ExitTxStatus.Confirmed block_height => ExitTransactionStatus.Confirmed block_height
  | ExitTxStatus.Unconfirmed => ExitTransactionStatus.WaitingForDependencies
  | ExitTxStatus.Unverified => ExitTransactionStatus.Unverified
  end.

(** [sat_per_kw_from_vbyte] *)
Definition sat_per_kw_from_vbyte (sat_per_vbyte : Z) : Z := saturating_mul 64 sat_per_vbyte 250.
