(* ===== verification/ExitFollowSpec.v ===== *)
(** * Correctness of following an exit in the SDK

    On a chain service that reports one chain, [check_unilateral_exit] ends and tells
    the caller exactly what the chain has done to the exit, what can be sent next,
    and whether the exit still holds. *)

From Stdlib Require Import Ascii.
From S2P Require Import Prelude Bitcoin BitcoinTx TreeModel ExitChain SparkTx ExitPlan.
From S2P Require Import ExitPlanSpec ExitSample ExitScan ExitScanSpec ExitScanExact ExitCheck.
From S2P Require Import ExitCheckSpec ExitBuild ExitFollow.

Section follow.
Context `{BitcoinText} {W : Type} `{!BitcoinChainService W} (C : Chain) (tip : Z).
Implicit Types (tx : UnilateralExitTransaction) (input : ExitCheckInput)
  (heights : gmap Txid (option Z)) (s : ExitTransactionStatus.t).

(** The service reports the chain [C] with tip [tip]. *)
Record service_reports : Prop := {
  sr_status t w : ∃ time, (get_transaction_status (txid_to_string t) w).1 =
    Ok {| ts_confirmed := mined C t; ts_block_height := mined_at C t; ts_block_time := time |};
  sr_outspend o w :
    match spent_by C o with
    | Some t => ∃ vin time, (get_outspend (txid_to_string (txid o)) (op_vout o) w).1 =
        Ok (Spent (txid_to_string t) vin
          {| ts_confirmed := true; ts_block_height := mined_at C t; ts_block_time := time |})
    | None => (get_outspend (txid_to_string (txid o)) (op_vout o) w).1 = Ok Unspent ∨
        ∃ t vin status, (get_outspend (txid_to_string (txid o)) (op_vout o) w).1 =
          Ok (Spent (txid_to_string t) vin status) ∧ ts_confirmed status = false
    end;
  sr_hex t w :
    match tx_of C t with
    | Some tx => ∃ hex, (get_transaction_hex (txid_to_string t) w).1 = Ok hex ∧ deserialize_hex hex = Ok tx
    | None => ∃ e, (get_transaction_hex (txid_to_string t) w).1 = Err e
    end;
  sr_tip w : (tip_height w).1 = Ok tip;
}.
Context (Hservice : service_reports).

Lemma execute_faithful q w : faithful C (mkObservation q (execute_chain_query q w).1).
Proof using Hservice.
  destruct q as [o|t|t|l a]; unfold faithful; simpl; [| | |done].
  - pose proof (sr_outspend Hservice o w) as Ho. destruct (get_outspend _ _ w) as [r w']. simpl in *.
    destruct (spent_by C o) as [t|].
    + destruct Ho as (vin & time & ->). simpl. by rewrite txid_from_to_string.
    + destruct Ho as [->|(t & vin & status & -> & Hc)]; simpl; [by left|right].
      rewrite txid_from_to_string. eexists. split; [done|exact Hc].
  - destruct (sr_status Hservice t w) as [time Ht]. destruct (get_transaction_status _ w) as [r w'].
    simpl in *. by subst r.
  - pose proof (sr_hex Hservice t w) as Ht. destruct (get_transaction_hex _ w) as [r w']. simpl in *.
    destruct (tx_of C t); [destruct Ht as (hex & -> & ->)|destruct Ht as [e ->]]; done.
Qed.

(** ** Timelocks *)

(** Every relative timelock, in blocks, on the transaction's inputs would be met by the
    next block. *)
Definition timelocks_matured (t : Transaction) : Prop :=
  ∀ i b, i ∈ tx_input t → to_relative_lock_time (sequence i) = Some (Blocks b) → b ≠ 0 →
    ∃ h, mined_at C (txid (previous_output i)) = Some h ∧ h + b ≤ tip + 1.

Definition heights_right heights : Prop := ∀ t h, heights !! t = Some h → h = mined_at C t.

Definition lock_of (i : TxIn Txid Sequence) : option Z :=
  match to_relative_lock_time (sequence i) with
  | Some (Blocks b) => if b =? 0 then None else Some b
  | _ => None
  end.

(** The height at which the last lock opens, if every one is known. *)
Fixpoint opens_at (inputs : list (TxIn Txid Sequence)) (acc : option Z) : option Z :=
  match inputs with
  | [] => acc
  | i :: inputs =>
      match lock_of i with
      | None => opens_at inputs acc
      | Some b => h ← mined_at C (txid (previous_output i));
          opens_at inputs (Some (Z.max (default 0 acc) (saturating_add 32 h b)))
      end
  end.

Lemma spendable_loop_spec inputs acc heights w :
  heights_right heights →
  ∃ heights' w', spendable_loop inputs acc heights w = (opens_at inputs acc, heights', w') ∧
    heights_right heights'.
Proof using Hservice.
  revert acc heights w. induction inputs as [|i inputs IH]; intros acc heights w Hh; [by eexists _, _|].
  cbn [spendable_loop opens_at]. unfold lock_of.
  destruct (to_relative_lock_time (sequence i)) as [[b|b]|]; [|by apply IH..].
  destruct (b =? 0); [by apply IH|].
  set (t := txid (previous_output i)).
  assert (∃ heights1 w1, (match heights !! t with
    | Some _ => (heights, w)
    | None =>
        let '(r, world) := get_transaction_status (txid_to_string t) w in
        (<[t := match r with
           | Ok status => if ts_confirmed status then ts_block_height status else None
           | Err _ => None end]> heights, world)
    end) = (heights1, w1) ∧ heights_right heights1 ∧ mjoin (heights1 !! t) = mined_at C t)
    as (heights1 & w1 & -> & Hh1 & ->).
  { destruct (heights !! t) as [h|] eqn:Ht; [eexists _, _; split_and!; [done..|]; rewrite Ht; by apply Hh in Ht as <-|].
    destruct (sr_status Hservice t w) as [time Hs]. destruct (get_transaction_status _ w) as [r w'].
    simpl in Hs. subst r. eexists _, _. split; [done|]. cbn [ts_confirmed ts_block_height].
    assert ((if mined C t then mined_at C t else None) = mined_at C t) as ->.
    { unfold mined. destruct (mined_at C t); [by rewrite bool_decide_eq_true_2 by by eexists|].
      by case_bool_decide. }
    split; [|by rewrite lookup_insert_eq].
    intros x h [[<- <-]|[_ Hx]]%lookup_insert_Some; [done|by apply Hh]. }
  destruct (mined_at C t); simpl; [by apply IH|by eexists _, _].
Qed.

Lemma opens_at_spec inputs acc :
  match opens_at inputs acc with
  | Some n =>
      (acc ≠ None ∨ ∃ i b, i ∈ inputs ∧ lock_of i = Some b) ∧
      (∀ a, acc = Some a → a ≤ n) ∧
      (∀ i b, i ∈ inputs → lock_of i = Some b →
        ∃ h, mined_at C (txid (previous_output i)) = Some h ∧ saturating_add 32 h b ≤ n) ∧
      (∀ m, 0 ≤ m → default 0 acc ≤ m →
        (∀ i b h, i ∈ inputs → lock_of i = Some b → mined_at C (txid (previous_output i)) = Some h →
           saturating_add 32 h b ≤ m) → n ≤ m)
  | None => (acc = None ∧ ∀ i, i ∈ inputs → lock_of i = None) ∨
      ∃ i b, i ∈ inputs ∧ lock_of i = Some b ∧ mined_at C (txid (previous_output i)) = None
  end.
Proof using Hservice.
  revert acc. induction inputs as [|i inputs IH]; intros acc; simpl.
  - destruct acc as [a|]; [|left; by split; [|intros ? ?%elem_of_nil]].
    split_and!; [by left|intros ? [= <-]; done|by intros ? ? ?%elem_of_nil|done].
  - destruct (lock_of i) as [b|] eqn:Hb.
    2:{ specialize (IH acc). destruct (opens_at inputs acc) as [n|].
        - destruct IH as (I1 & I2 & I3 & I4). split_and!; [set_solver|done| |].
          + intros j b [->|Hj]%elem_of_cons; [congruence|]. by apply I3.
          + intros m ? ? Hm. apply I4; [done..|]. intros. eapply Hm; [by right|done..].
        - destruct IH as [[? ?]|(j & b & ? & ? & ?)]; [left; set_solver|right].
          exists j, b. split_and!; [by right|done..]. }
    destruct (mined_at C (txid (previous_output i))) as [h|] eqn:Hh; simpl.
    2:{ right. exists i, b. split_and!; [by left|done..]. }
    specialize (IH (Some (Z.max (default 0 acc) (saturating_add 32 h b)))).
    destruct (opens_at inputs _) as [n|].
    + destruct IH as (_ & I2 & I3 & I4). specialize (I2 _ eq_refl). split_and!.
      * right. exists i, b. split; [by left|done].
      * intros a ->. simpl in I2. lia.
      * intros j c [->|Hj]%elem_of_cons Hc; [|by apply I3]. simplify_eq. exists h. split; [done|lia].
      * intros m ? ? Hm. apply I4; [done| |].
        -- simpl. pose proof (Hm i b h ltac:(by left) Hb Hh). lia.
        -- intros. eapply Hm; [by right|done..].
    + destruct IH as [[? _]|(j & c & ? & ? & ?)]; [done|right]. exists j, c. split_and!; [by right|done..].
Qed.

Context (Htip : 0 ≤ tip < 2 ^ 32 - 2) (Hheights : ∀ t h, mined_at C t = Some h → 0 ≤ h).

(** A transaction with a timelock is mature exactly if its opening height is known
    and the next block reaches it. *)
Lemma matured_opens t :
  csv_timelock t ≠ None →
  timelocks_matured t ↔ ∃ n, opens_at (tx_input t) None = Some n ∧ n ≤ saturating_add 32 tip 1.
Proof using Hservice Htip Hheights.
  intros Hcsv. assert (∀ i b, lock_of i = Some b ↔
    to_relative_lock_time (sequence i) = Some (Blocks b) ∧ b ≠ 0) as Hlock.
  { intros i b. unfold lock_of. destruct (to_relative_lock_time _) as [[v|]|]; [|naive_solver..].
    destruct (Z.eqb_spec v 0); naive_solver. }
  pose proof (opens_at_spec (tx_input t) None) as Hopen.
  rewrite saturating_add_exact by lia. split.
  - intros Hm. destruct (opens_at (tx_input t) None) as [n|].
    + destruct Hopen as (_ & _ & _ & Hmin). exists n. split; [done|]. apply Hmin; [lia|simpl; lia|].
      intros i b h Hi [Hb ?]%Hlock Hh. destruct (Hm i b Hi Hb) as (h' & Hh' & Hle); [done|].
      simplify_eq. unfold saturating_add. lia.
    + exfalso. destruct Hopen as [[_ Hnone]|(i & b & Hi & [Hb ?]%Hlock & Hn)].
      * apply Hcsv. unfold csv_timelock.
        assert (omap _ (tx_input t) = []) as ->; [|done].
        apply elem_of_nil_inv. intros v (i & Hi & Hv)%list_elem_of_omap. specialize (Hnone i Hi).
        unfold lock_of in Hnone. destruct (to_relative_lock_time _) as [[b|]|]; [|done..].
        destruct (Z.ltb_spec 0 b); [|done]. by destruct (Z.eqb_spec b 0); [lia|].
      * destruct (Hm i b Hi Hb) as (h & Hh & _); [done|]. congruence.
  - intros (n & Hn & Hle) i b Hi Hb Hne. rewrite Hn in Hopen. destruct Hopen as (_ & _ & Hall & _).
    destruct (Hall i b Hi) as (h & Hh & Hsat); [by apply Hlock|]. exists h. split; [done|].
    pose proof (Hheights _ _ Hh). pose proof (lock_blocks_range _ _ Hb) as [? ?].
    unfold saturating_add in Hsat. lia.
Qed.
(** ** Statuses *)

(** What [resolve_statuses] makes of one transaction, [t] once decoded. *)
Definition resolved (met : bool) (old : ExitTransactionStatus.t) (t : Transaction) s : Prop :=
  match old with
  | ExitTransactionStatus.Confirmed _ | ExitTransactionStatus.Unverified => s = old
  | _ => ExitTransactionStatus.is_confirmed s = false ∧ s ≠ ExitTransactionStatus.Unverified ∧
      (s = ExitTransactionStatus.Ready ↔ met = true ∧ timelocks_matured t)
  end.

Definition decodes tx (t : Transaction) : Prop :=
  deserialize_hex (ut_tx_hex tx) = Ok t ∧ ut_csv_timelock_blocks tx = csv_timelock t.

Lemma no_csv_matured t : csv_timelock t = None → timelocks_matured t.
Proof using Type.
  unfold csv_timelock. destruct (omap _ (tx_input t)) as [|v vs] eqn:Ho; [|done]. intros _ i b Hi Hb Hne.
  pose proof (lock_blocks_range _ _ Hb) as [? _]. exfalso.
  eapply (elem_of_nil b). rewrite <- Ho. apply list_elem_of_omap. exists i. split; [done|].
  rewrite Hb. by destruct (Z.ltb_spec 0 b); [|lia].
Qed.

Record resolving_right (st : Resolving (W := W)) : Prop := {
  rr_heights : heights_right (rs_heights st);
  rr_tip : ∀ n, rs_tip st = Some n → n = tip;
}.

Lemma resolve_step_spec st tx met t :
  decodes tx t → resolving_right st →
  ∃ st' s, resolve_step st (tx, met) = Ok st' ∧ resolving_right st' ∧
    rs_resolved st' = rs_resolved st ++ [s] ∧ resolved met (ut_status tx) t s.
Proof using Hservice Htip Hheights.
  intros [Hdec Hcsv] [Hh Ht]. unfold resolve_step, resolved.
  assert (∀ s, (match ut_status tx with
    | ExitTransactionStatus.Confirmed _ | ExitTransactionStatus.Unverified => s = ut_status tx
    | _ => ExitTransactionStatus.is_confirmed s = false ∧ s ≠ ExitTransactionStatus.Unverified ∧
        (s = ExitTransactionStatus.Ready ↔ met = true ∧ timelocks_matured t) end) →
    ∃ st' s', Ok (push_status s st) = (Ok st' : result (SdkError.t * W) _) ∧ resolving_right st' ∧
      rs_resolved st' = rs_resolved st ++ [s'] ∧ match ut_status tx with
    | ExitTransactionStatus.Confirmed _ | ExitTransactionStatus.Unverified => s' = ut_status tx
    | _ => ExitTransactionStatus.is_confirmed s' = false ∧ s' ≠ ExitTransactionStatus.Unverified ∧
        (s' = ExitTransactionStatus.Ready ↔ met = true ∧ timelocks_matured t) end) as Hpush.
  { intros s Hs. exists (push_status s st), s. split_and!; [done|by split|done|done]. }
  set (go := if negb met then _ else _).
  assert (∃ st' s, go = Ok st' ∧ resolving_right st' ∧ rs_resolved st' = rs_resolved st ++ [s] ∧
    ExitTransactionStatus.is_confirmed s = false ∧ s ≠ ExitTransactionStatus.Unverified ∧
    (s = ExitTransactionStatus.Ready ↔ met = true ∧ timelocks_matured t)) as Hgo.
  { subst go. destruct met; simpl.
    2:{ eexists _, _. split_and!; [done|by split|done|done|done|naive_solver]. }
    destruct (ut_csv_timelock_blocks tx) eqn:Hc.
    2:{ eexists _, _. split_and!; [done|by split|done|done|done|].
        pose proof (no_csv_matured t (eq_sym Hcsv)). naive_solver. }
    pose proof (matured_opens t ltac:(congruence)) as Hmat.
    rewrite Hdec. unfold spendable_at_height.
    destruct (spendable_loop_spec (tx_input t) None (rs_heights st) (rs_world st) Hh) as (h' & w' & -> & Hh').
    destruct (opens_at (tx_input t) None) as [n|].
    2:{ eexists _, _. split_and!; [done|by split|done|done|done|]. rewrite Hmat. naive_solver. }
    assert (∃ w2, (match rs_tip st with
      | Some tip => (Some tip, w')
      | None => let '(r, world) := tip_height w' in (match r with Ok tip => Some tip | Err _ => None end, world)
      end) = (Some tip, w2)) as [w2 ->].
    { destruct (rs_tip st) as [m|] eqn:Hm; [rewrite (Ht m eq_refl); eauto|].
      pose proof (sr_tip Hservice w') as Htw. destruct (tip_height w'). simpl in Htw. subst. eauto. }
    eexists _, _. split_and!; [done|split; [done|by intros ? [= <-]]|done|by destruct (_ <=? _)|by destruct (_ <=? _)|].
    rewrite Hmat. destruct (Z.leb_spec n (saturating_add 32 tip 1)); [naive_solver|].
    split; [done|]. intros (_ & m & [= <-] & ?). lia. }
  destruct (ut_status tx); [by apply Hpush| | | |by apply Hpush];
    destruct Hgo as (st' & s & ? & ? & ? & ?); by exists st', s.
Qed.

Lemma resolve_fold ps st :
  (∀ p, p ∈ ps → ∃ t, decodes p.1 t) → resolving_right st →
  ∃ st' ss, foldlR resolve_step st ps = Ok st' ∧ rs_resolved st' = rs_resolved st ++ ss ∧
    Forall2 (λ p s, ∀ t, decodes p.1 t → resolved p.2 (ut_status p.1) t s) ps ss.
Proof using Hservice Htip Hheights.
  revert st. induction ps as [|[tx met] ps IH]; intros st Hps Hst; cbn [foldlR].
  { exists st, []. by rewrite app_nil_r. }
  destruct (Hps (tx, met)) as [t Ht]; [by left|]. simpl in Ht.
  destruct (resolve_step_spec st tx met t Ht Hst) as (st1 & s & -> & Hst1 & Hr1 & Hs).
  cbn [mbind result_bind].
  destruct (IH st1) as (st' & ss & -> & Hr & Hall); [intros; apply Hps; by right|done|].
  exists st', (s :: ss). split_and!; [done|by rewrite Hr, Hr1, <- app_assoc|].
  constructor; [|done]. simpl. intros t' Ht'. destruct Ht as [Ht _], Ht' as [Ht' _].
  by assert (t' = t) as -> by congruence.
Qed.

(** [resolve_statuses] succeeds on transactions that decode, and resolves each. *)
Lemma resolve_statuses_spec txs w :
  (∀ tx, tx ∈ txs → ∃ t, decodes tx t) →
  (∀ tx t h, tx ∈ txs → ut_status tx = ExitTransactionStatus.Confirmed (Some h) →
     txid_from_str (ut_txid tx) = Ok t → mined_at C t = Some h) →
  ∃ ss w', resolve_statuses txs w = (Ok (zip_with set_tx_status txs ss), w') ∧
    Forall2 (λ tx s, ∀ t, decodes tx t → resolved (dependencies_met txs tx) (ut_status tx) t s) txs ss.
Proof using Hservice Htip Hheights.
  intros Hdec Hseed. unfold resolve_statuses.
  destruct (resolve_fold (zip txs (dependencies_met txs <$> txs)) (mkResolving (seeded_heights txs) None w []))
    as (st & ss & -> & Hr & Hall).
  - intros [tx met] Hp%elem_of_zip_l. by apply Hdec.
  - split; [|done]. simpl. intros t h Ht. unfold seeded_heights in Ht. apply hm_collect_Some in Ht.
    apply list_elem_of_omap in Ht as (tx & Htx & Hm).
    destruct (ut_status tx) as [[n|]| | | |] eqn:Hs; try done.
    destruct (txid_from_str _) eqn:He; [|done]. injection Hm as <- <-. symmetry. by eapply Hseed.
  - simpl in Hr. rewrite Hr. exists ss, (rs_world st). split; [done|].
    assert (zip txs (dependencies_met txs <$> txs) = (λ tx, (tx, dependencies_met txs tx)) <$> txs) as Hz.
    { clear. generalize (dependencies_met txs) as f. intros f. induction txs; csimpl; [done|by f_equal]. }
    rewrite Hz in Hall. by apply Forall2_fmap_l in Hall.
Qed.
(** ** The whole check *)

(** A transaction of a kept exit, as [unilateral_exit] writes it: it decodes, its id
    and timelock are its own, and a height it carries is right if it is in a block. *)
Record tx_wf tx input : Prop := {
  tw_input : exit_check_input tx = Ok input;
  tw_txid : ut_txid tx = txid_to_string (input_txid input);
  tw_csv : ut_csv_timelock_blocks tx = csv_timelock (eci_tx input);
  tw_height h : ut_status tx = ExitTransactionStatus.Confirmed (Some h) →
    mined C (input_txid input) = true → mined_at C (input_txid input) = Some h;
}.

(** The status after the chain read says what the chain says. *)
Record checked_status input (old s : ExitTransactionStatus.t) : Prop := {
  ck_confirmed : ExitTransactionStatus.is_confirmed s = mined C (input_txid input);
  ck_height h : s = ExitTransactionStatus.Confirmed (Some h) → mined_at C (input_txid input) = Some h;
  ck_unverified : s = ExitTransactionStatus.Unverified ↔
    old = ExitTransactionStatus.Unverified ∧ mined C (input_txid input) = false;
}.

Lemma exit_input_eq tx input :
  exit_check_input tx = Ok input →
  deserialize_hex (ut_tx_hex tx) = Ok (eci_tx input) ∧
  eci_confirmed input = ExitTransactionStatus.is_confirmed (ut_status tx).
Proof using Type.
  unfold exit_check_input, decode. destruct (deserialize_hex (ut_tx_hex tx)) as [t|]; simpl; [|done].
  destruct (ut_cpfp_tx_hex tx) as [hex|]; simpl; [|by intros [= <-]].
  destruct (deserialize_hex hex); simpl; [|done]. by intros [= <-].
Qed.

Context (inputs : list ExitCheckInput) (Hchain : exit_on_chain C inputs).

Lemma status_after_check_spec tx input check :
  tx_wf tx input → input ∈ inputs → check_right C inputs check →
  checked_status input (ut_status tx) (status_after_check (ut_status tx) check (input_txid input)).
Proof using Htip.
  intros [Hin _ _ Hheld] Hi [Hrec Hconf Hnot Hundone _ _].
  apply exit_input_eq in Hin as [_ Hc]. specialize (Hconf input Hi). unfold status_after_check.
  destruct (chk_confirmed check !! input_txid input) as [h|] eqn:Hl.
  - assert (mined C (input_txid input) = true) as Hm by (apply Hconf; by eexists).
    destruct (Hrec _ _ Hl) as [_ Hh]. split; [by rewrite Hm| |by rewrite Hm; split; [|intros [_ ?]]].
    intros n [= Hn]. destruct h as [h|]; [destruct Hh; congruence|].
    destruct (ut_status tx) as [n'| | | |] eqn:Hst; try done. subst n'. by apply Hheld.
  - assert (mined C (input_txid input) = false) as Hm.
    { apply not_true_is_false. intros Hm%Hconf. by destruct Hm. }
    destruct (ut_status tx) as [n| | | |] eqn:Hst; simpl in Hc.
    + rewrite decide_True by by apply Hundone. split; [by rewrite Hm|done|naive_solver].
    + split; [by rewrite Hm|done|naive_solver].
    + split; [by rewrite Hm|done|naive_solver].
    + split; [by rewrite Hm|done|naive_solver].
    + split; [by rewrite Hm|done|naive_solver].
Qed.

(** Everything [tx] waits for is a transaction of the exit that is in a block. *)
Definition dependencies_mined tx : Prop :=
  ∀ dep, dep ∈ ut_depends_on tx →
    ∃ input, input ∈ inputs ∧ dep = txid_to_string (input_txid input) ∧ mined C (input_txid input) = true.

(** What the caller is told of one transaction. *)
Record status_right tx input (tx' : UnilateralExitTransaction) : Prop := {
  st_same : tx' = set_tx_status tx (ut_status tx');
  st_confirmed : ExitTransactionStatus.is_confirmed (ut_status tx') = true ↔ mined C (input_txid input) = true;
  st_ready : ut_status tx' = ExitTransactionStatus.Ready ↔
    mined C (input_txid input) = false ∧ ut_status tx ≠ ExitTransactionStatus.Unverified ∧
    dependencies_mined tx ∧ timelocks_matured (eci_tx input);
}.

Lemma apply_check_spec check tx input :
  tx_wf tx input →
  apply_check check tx =
    Ok (set_tx_status tx (status_after_check (ut_status tx) check (input_txid input))).
Proof using Type. intros [_ Ht _ _]. unfold apply_check. by rewrite Ht, txid_from_to_string. Qed.

Lemma dependencies_met_spec (txs1 : list UnilateralExitTransaction) tx :
  Forall2 (λ tx input, ut_txid tx = txid_to_string (input_txid input) ∧
    ExitTransactionStatus.is_confirmed (ut_status tx) = mined C (input_txid input)) txs1 inputs →
  dependencies_met txs1 tx = true ↔ dependencies_mined tx.
Proof using Type.
  intros Hall. unfold dependencies_met. rewrite forallb_forall. setoid_rewrite <- list_elem_of_In.
  unfold dependencies_mined. apply forall_proper. intros dep. apply forall_proper. intros _.
  rewrite bool_decide_eq_true. unfold confirmed_txids. rewrite list_elem_of_fmap.
  setoid_rewrite list_elem_of_filter. split.
  - intros (t & -> & Hc & Ht). apply list_elem_of_lookup in Ht as [k Hk].
    destruct (Forall2_lookup_l _ _ _ _ _ Hall Hk) as (i & Hi & Htx & Hm). exists i.
    split_and!; [by eapply list_elem_of_lookup_2|done|congruence].
  - intros (i & Hi & -> & Hm). apply list_elem_of_lookup in Hi as [k Hk].
    destruct (Forall2_lookup_r _ _ _ _ _ Hall Hk) as (t & Ht & Htx & Hc). exists t.
    split_and!; [done|congruence|by eapply list_elem_of_lookup_2].
Qed.
(** What the whole exit is said to be. *)
Definition verdict_right (v : UnilateralExitVerdict) : Prop :=
  match v with
  | Done => inputs ≠ [] ∧ ∀ x, x ∈ inputs → mined C (input_txid x) = true
  | Redo _ => ∃ x o, x ∈ inputs ∧ o ∈ own_outpoints x ∧ taken C x o
  | Valid => (inputs = [] ∨ ∃ x, x ∈ inputs ∧ mined C (input_txid x) = false) ∧
      ∀ x i, x ∈ inputs → mined C (input_txid x) = false →
        (∀ p, p ∈ spend_parents x (by_txid_of inputs) → mined C p = true) →
        head (tx_input (eci_tx x)) = Some i → ¬ taken C x (previous_output i)
  end.

Lemma verdict_spec check (txs : list UnilateralExitTransaction) :
  check_right C inputs check →
  Forall2 (λ tx input, ExitTransactionStatus.is_confirmed (ut_status tx) = mined C (input_txid input)) txs inputs →
  verdict_right (verdict_of check txs).
Proof using Type.
  intros Hck Hall. unfold verdict_of.
  assert (forallb (λ tx, ExitTransactionStatus.is_confirmed (ut_status tx)) txs =
    forallb (λ x, mined C (input_txid x)) inputs) as ->.
  { revert Hall. clear. generalize inputs as xs. intros xs.
    induction 1 as [|tx x txs xs Hx _ IH]; [done|]. simpl. by rewrite Hx, IH. }
  apply Forall2_length in Hall as ->.
  destruct (chk_diverged check) eqn:Hd; [by apply (cr_diverged _ _ _ Hck)|].
  destruct (forallb _ inputs) eqn:Hf; simpl.
  - rewrite forallb_forall in Hf. setoid_rewrite <- list_elem_of_In in Hf.
    destruct (Nat.eqb_spec (length inputs) 0) as [Hl|Hl]; simpl.
    + apply nil_length_inv in Hl. split; [by left|]. intros x i Hx. rewrite Hl in Hx. by apply elem_of_nil in Hx.
    + split; [|done]. intros Hx. by rewrite Hx in Hl.
  - split.
    + right. apply not_true_iff_false in Hf. rewrite forallb_forall in Hf.
      setoid_rewrite <- list_elem_of_In in Hf.
      destruct (decide (Exists (λ x, mined C (input_txid x) = false) inputs)) as [He|He].
      * apply Exists_exists in He. exact He.
      * destruct Hf. intros x Hx. apply not_false_iff_true. intros Hm. apply He, Exists_exists. by exists x.
    + intros x i Hx Hm Hp Hi Ht. pose proof (cr_taken _ _ _ Hck x i Hx Hm Hp Hi Ht). congruence.
Qed.

(** One transaction, from the read to its final status. *)
Lemma final_status tx input met s1 s :
  tx_wf tx input → checked_status input (ut_status tx) s1 →
  (met = true ↔ dependencies_mined tx) → resolved met s1 (eci_tx input) s →
  status_right tx input (set_tx_status tx s) ∧ ExitTransactionStatus.is_confirmed s = mined C (input_txid input).
Proof using Type.
  intros Hwf [Hc _ Hu] Hmet Hs. unfold resolved in Hs.
  assert (∀ s', ExitTransactionStatus.is_confirmed s' = mined C (input_txid input) →
    (s' = ExitTransactionStatus.Ready ↔ mined C (input_txid input) = false ∧
      ut_status tx ≠ ExitTransactionStatus.Unverified ∧ dependencies_mined tx ∧ timelocks_matured (eci_tx input)) →
    status_right tx input (set_tx_status tx s') ∧
    ExitTransactionStatus.is_confirmed s' = mined C (input_txid input)) as Hmk.
  { intros s' Hs' Hr. split; [split; [done|simpl; by rewrite Hs'|exact Hr]|done]. }
  destruct s1 as [n| | |n|].
  1: { subst s. apply Hmk; [done|]. split; [done|]. intros (Hm & _). simpl in Hc. congruence. }
  4: { subst s. apply Hmk; [done|]. split; [done|]. intros (_ & Hn & _). destruct Hn. by apply Hu. }
  all: simpl in Hc; destruct Hs as (Hf & _ & Hr); apply Hmk; [congruence|]; rewrite Hr, Hmet.
  all: assert (ut_status tx ≠ ExitTransactionStatus.Unverified)
    by (intros Hx; pose proof (proj2 Hu (conj Hx (eq_sym Hc))); discriminate).
  all: split; [intros [? ?]; by split_and!|intros (_ & _ & ? & ?); by split].
Qed.

Definition mark_checked (check : ExitCheck) tx input : UnilateralExitTransaction :=
  set_tx_status tx (status_after_check (ut_status tx) check (input_txid input)).

Lemma final_statuses check exit xs met ss :
  check_right C inputs check → (∀ x, x ∈ xs → x ∈ inputs) → Forall2 tx_wf exit xs →
  (∀ tx s, met (set_tx_status tx s) = true ↔ dependencies_mined tx) →
  Forall2 (λ tx s, ∀ t, decodes tx t → resolved (met tx) (ut_status tx) t s)
    (zip_with (mark_checked check) exit xs) ss →
  let txs := zip_with set_tx_status (zip_with (mark_checked check) exit xs) ss in
  Forall3 status_right exit xs txs ∧
  Forall2 (λ tx input, ExitTransactionStatus.is_confirmed (ut_status tx) = mined C (input_txid input)) txs xs.
Proof using Htip.
  intros Hck Hin Hwf Hmet. revert ss. induction Hwf as [|tx x exit xs Hx Hwf IH]; intros ss Hall; simpl in *.
  { inversion Hall. by repeat constructor. }
  apply Forall2_cons_inv_l in Hall as (s & ss' & Hs & Hss & ->).
  destruct (IH ltac:(intros; apply Hin; by right) ss' Hss) as [IH3 IH2].
  pose proof (status_after_check_spec tx x check Hx ltac:(apply Hin; by left) Hck) as Hst.
  assert (decodes (mark_checked check tx x) (eci_tx x)) as Hdec.
  { destruct Hx as [Hi _ Hcsv _]. apply exit_input_eq in Hi as [? _]. by split. }
  destruct (final_status tx x (met (mark_checked check tx x)) _ s Hx Hst) as [H1 H2];
    [apply Hmet|by apply Hs|].
  simpl. split; by constructor.
Qed.

Lemma checked_statuses check exit xs :
  check_right C inputs check → (∀ x, x ∈ xs → x ∈ inputs) → Forall2 tx_wf exit xs →
  Forall2 (λ tx1 input, ut_txid tx1 = txid_to_string (input_txid input) ∧
      ExitTransactionStatus.is_confirmed (ut_status tx1) = mined C (input_txid input))
    (zip_with (mark_checked check) exit xs) xs ∧
  ∀ tx1, tx1 ∈ zip_with (mark_checked check) exit xs →
    (∃ t, decodes tx1 t) ∧
    ∀ t n, ut_status tx1 = ExitTransactionStatus.Confirmed (Some n) →
      txid_from_str (ut_txid tx1) = Ok t → mined_at C t = Some n.
Proof using Htip.
  intros Hck Hin Hwf. induction Hwf as [|tx x exit xs Hx Hwf IH]; simpl.
  { split; [constructor|by intros ? ?%elem_of_nil]. }
  destruct IH as [IH1 IH2]; [intros; apply Hin; by right|].
  pose proof (status_after_check_spec tx x check Hx ltac:(apply Hin; by left) Hck) as [Hc Hh _].
  destruct Hx as [Hi Ht Hcsv _]. split; [constructor; [by split|done]|].
  intros tx1 [->|?]%elem_of_cons; [|by apply IH2]. split.
  - exists (eci_tx x). apply exit_input_eq in Hi as [? _]. by split.
  - intros t n Hs. simpl. rewrite Ht, txid_from_to_string. intros [= <-]. by apply Hh.
Qed.

(** C6: Checking a kept exit tells the caller what the chain has done. If the chain
    service reports one chain, the check of an exit in the order it was built ends
    after at most one lookup per transaction and per outpoint, succeeds, and changes
    nothing but statuses. A transaction is [Confirmed] exactly if it is in a block,
    [Ready] exactly if it is not, was not flagged unverified, everything it depends on
    is in a block, and its timelocks let the next block include it. The verdict [Done]
    means that every transaction is in a block, [Redo] that another transaction took
    an outpoint of the exit, and [Valid] that something is left to do and that no
    transaction whose parents are in blocks has lost its input. *)
Theorem check_unilateral_exit_exact exit world :
  Forall2 tx_wf (ur_transactions exit) inputs → in_build_order inputs →
  ∃ txs v world',
    check_unilateral_exit (S (length (check_queries inputs))) exit world =
      Some (Ok {| cu_exit := set_transactions exit txs; cu_verdict := v |}, world') ∧
    Forall3 status_right (ur_transactions exit) inputs txs ∧ verdict_right v.
Proof using Hservice Htip Hheights Hchain.
  intros Hwf Hord. unfold check_unilateral_exit.
  assert (mapR exit_check_input (ur_transactions exit) = Ok inputs) as ->.
  { apply mapR_Ok. eapply Forall2_impl; [exact Hwf|]. by intros tx input []. }
  destruct (resolve_ends execute_chain_query
    (λ obs, let check := check_exit_chain inputs obs in (check, chk_pending check))
    (faithful C) (check_queries inputs) execute_faithful) with (world := world)
    as (check & obs & w & Hr & Hlast & Hf & _ & _).
  { intros obs _. apply check_asks. }
  change (rounds _ _ _) with (resolve_exit_check execute_chain_query (S (length (check_queries inputs))) inputs world) in Hr.
  rewrite Hr. injection Hlast as <- Hpend. pose proof (check_exact C inputs Hchain obs Hf Hord Hpend) as Hck.
  set (check := check_exit_chain inputs obs) in *. clearbody check. clear Hr.
  assert (mapR (apply_check check) (ur_transactions exit) =
    Ok (zip_with (mark_checked check) (ur_transactions exit) inputs)) as ->.
  { apply mapR_Ok. clear -Hwf. induction Hwf as [|tx input txs xs Hx _ IH]; constructor; [|done].
    by apply apply_check_spec. }
  destruct (checked_statuses check _ _ Hck (λ x Hx, Hx) Hwf) as [Hall Hdec].
  destruct (resolve_statuses_spec (zip_with (mark_checked check) (ur_transactions exit) inputs) w)
    as (ss & w' & -> & Hss); [by intros; apply Hdec|by intros; eapply Hdec|].
  destruct (final_statuses check _ _ _ ss Hck (λ x Hx, Hx) Hwf (λ tx s, dependencies_met_spec _ (set_tx_status tx s) Hall) Hss)
    as [H3 H2].
  eexists _, _, _. split; [reflexivity|]. split; [exact H3|by apply verdict_spec].
Qed.
End follow.

(** ** Witness: the root is in a block, and its child's timelock is over *)

#[local] Existing Instances btc68 btctx68.

(** Txids in binary, and the hex of the sample transactions by name. *)
Fixpoint positive_to_string (p : positive) : string :=
  match p with
  | xH => ""
  | xO p => "0" +:+ positive_to_string p
  | xI p => "1" +:+ positive_to_string p
  end.
Fixpoint positive_from_string (s : string) : result string positive :=
  match s with
  | "" => Ok xH
  | String "0"%char s => xO <$> positive_from_string s
  | String "1"%char s => xI <$> positive_from_string s
  | _ => Err "not a txid"
  end%string.

Lemma positive_from_to_string p : positive_from_string (positive_to_string p) = Ok p.
Proof.
  induction p as [p IH|p IH|]; [| |done]; simpl;
    change ("" +:+ positive_to_string p) with (positive_to_string p); by rewrite IH.
Qed.

#[local] Instance text68 : BitcoinText := {|
  txid_from_str := positive_from_string : string → result string (@Txid btc68 btctx68);
  txid_to_string := positive_to_string : @Txid btc68 btctx68 → string;
  address_to_string _ := "";
  deserialize_hex s :=
    if decide (s = "root"%string) then Ok (root_tx : Transaction)
    else if decide (s = "a"%string) then Ok (a_tx : Transaction) else Err "not a transaction"%string;
  txid_from_to_string := positive_from_to_string;
|}.

#[local] Instance service68 : BitcoinChainService unit := {|
  get_address_txos _ w := (Ok [], w);
  get_transaction_status s w :=
    (t ← match positive_from_string s with Ok t => Ok (t : Txid) | Err e => Err (ChainServiceError.Generic e) end;
     Ok {| ts_confirmed := mined sample_chain t; ts_block_height := mined_at sample_chain t;
           ts_block_time := None |}, w);
  tip_height w := (Ok 2099, w);
  get_transaction_hex _ w := (Err (ChainServiceError.Generic "not found"), w);
  get_outspend s v w :=
    (t ← match positive_from_string s with Ok t => Ok (t : Txid) | Err e => Err (ChainServiceError.Generic e) end;
     Ok match spent_by sample_chain (mkOutPoint t v) with
        | Some t => Spent (positive_to_string t) 0 {| ts_confirmed := true;
            ts_block_height := mined_at sample_chain t; ts_block_time := None |}
        | None => Unspent
        end, w);
|}.

Lemma service68_reports : service_reports sample_chain 2099.
Proof.
  split.
  - intros t w. exists None. simpl. by rewrite positive_from_to_string.
  - intros [t v] w. simpl. rewrite positive_from_to_string. simpl.
    destruct (decide _); [by eexists _, _|by left].
  - intros t w. by eexists.
  - done.
Qed.

Definition kept_tx (name : string) (tx : tx68) (depends_on : list string) : UnilateralExitTransaction := {|
  ut_kind := UnilateralExitTxKind.Node; ut_node_id := Some name;
  ut_txid := positive_to_string (compute_txid (tx : Transaction)); ut_tx_hex := name;
  ut_cpfp_tx_hex := None; ut_csv_timelock_blocks := Some 2000; ut_depends_on := depends_on;
  ut_status := ExitTransactionStatus.WaitingForDependencies |}.

Definition kept_exit : UnilateralExitResponse := {|
  ur_recoverable_value_sat := 10000; ur_total_fee_sat := 0; ur_cpfp_fee_sat := 0; ur_fanout_fee_sat := 0;
  ur_sweep_fee_sat := 0; ur_leaves := [];
  ur_transactions := [kept_tx "root" root_tx []; kept_tx "a" a_tx [positive_to_string root_txid]];
  ur_funding_inputs := [] |}.

Definition kept_root : ExitCheckInput := mkCheckInput (root_tx : Transaction) None false.
Definition kept_a : ExitCheckInput := mkCheckInput (a_tx : Transaction) None false.
Definition kept_inputs : list ExitCheckInput := [kept_root; kept_a].

Lemma kept_on_chain : exit_on_chain sample_chain kept_inputs.
Proof.
  assert (mined sample_chain (compute_txid (a_tx : Transaction)) = false) as Ha by (vm_compute; reflexivity).
  split.
  - apply chain_of_mined.
  - intros x i [->|Hx]%elem_of_cons Hm Hi.
    + apply list_elem_of_singleton in Hi as ->. split; vm_compute; reflexivity.
    + apply list_elem_of_singleton in Hx as ->. change (mined sample_chain (compute_txid (a_tx : Transaction)) = true) in Hm. congruence.
  - intros x [->|Hx]%elem_of_cons; [done|]. by apply list_elem_of_singleton in Hx as ->.
  - apply (bool_decide_unpack _). vm_compute. exact I.
Qed.

Lemma kept_order : in_build_order kept_inputs.
Proof.
  intros [|x [|y pre]] z post Hl p Hp.
  - injection Hl as <- _. vm_compute in Hp. by apply elem_of_nil in Hp.
  - injection Hl as <- <- _.
    assert (Forall (λ p, p ∈ [root_txid : Txid])
      (spend_parents kept_a (by_txid_of kept_inputs))) as Hall
      by (apply (bool_decide_unpack _); vm_compute; exact I).
    rewrite Forall_forall in Hall. by apply Hall.
  - exfalso. apply (f_equal length) in Hl. simpl in Hl. rewrite length_app in Hl. simpl in Hl. lia.
Qed.

Lemma kept_dependencies :
  dependencies_mined sample_chain kept_inputs (kept_tx "a" a_tx [positive_to_string root_txid]).
Proof.
  intros dep Hdep. apply list_elem_of_singleton in Hdep as ->.
  exists kept_root.
  split_and!; [by left|reflexivity|vm_compute; reflexivity].
Qed.

Lemma kept_matured : timelocks_matured sample_chain 2099 (a_tx : Transaction).
Proof.
  intros i b Hi. apply list_elem_of_singleton in Hi as ->. intros [= <-] _. exists 100.
  split; [vm_compute; reflexivity|]. change (100 + 2000 ≤ 2099 + 1). lia.
Qed.

Example check_unilateral_exit_exact_witness :
  ∃ txs v tx,
    check_unilateral_exit 5 kept_exit () =
      Some (Ok {| cu_exit := set_transactions kept_exit txs; cu_verdict := v |}, ()) ∧
    txs !! 1%nat = Some tx ∧ ut_status tx = ExitTransactionStatus.Ready.
Proof.
  destruct (check_unilateral_exit_exact sample_chain 2099 service68_reports) with (inputs := kept_inputs)
    (exit := kept_exit) (world := ()) as (txs & v & [] & Hr & Hall & _).
  - lia.
  - intros t h. simpl. case_decide; [by intros [= <-]|done].
  - apply kept_on_chain.
  - apply Forall2_cons_2; [|apply Forall2_cons_2; [|apply Forall2_nil_2]].
    all: split; [reflexivity|reflexivity|vm_compute; reflexivity|intros h Hs; discriminate Hs].
  - apply kept_order.
  - destruct (Forall3_lookup_l _ _ _ _ 1%nat (kept_tx "a" a_tx [positive_to_string root_txid]) Hall eq_refl)
      as (x & tx & Hx & Htx & [_ _ Hready]). injection Hx as <-.
    exists txs, v, tx. split; [exact Hr|]. split; [exact Htx|]. apply Hready. split_and!.
    + vm_compute. reflexivity.
    + intros [=].
    + apply kept_dependencies.
    + apply kept_matured.
Defined.
