(* ===== verification/ExitBuildSpec.v ===== *)
(** * Correctness of building a unilateral exit

    An accepted plan builds, within the money it was given; what is built can be
    broadcast in the order it is listed. *)

From S2P Require Import Prelude Bitcoin BitcoinTx TreeModel ExitChain SparkTx ExitPlan.
From S2P Require Import ExitPlanSpec ExitFundingSpec ExitScan ExitBuild.

Section to_drive.
Context {B : Bitcoin} {BT : BitcoinTx}.

(** The nodes [build_node] makes a child for. *)
Definition to_drive (resolved : ResolvedExitState) (emitted : gset Txid) (ns : list TreeNode) :=
  filter (λ n, res_nodes resolved !! id n = None ∧ compute_txid (node_tx n) ∉ emitted) ns.

Lemma to_drive_anti resolved e e' ns :
  e ⊆ e' → to_drive resolved e' ns `sublist_of` to_drive resolved e ns.
Proof.
  intros He. unfold to_drive. induction ns as [|n ns IH]; [done|]. rewrite !filter_cons.
  case_decide as H1; case_decide as H2; [by apply sublist_skip| |by apply sublist_cons|done].
  exfalso. apply H2. set_solver.
Qed.

End to_drive.

Section pays.
Context {B : Bitcoin} {BT : BitcoinTx} (rate : Z) (Hrate : 0 ≤ rate).
Implicit Types txs : list Transaction.

Definition packages_fit_for (funding : list CpfpInput) txs : Prop :=
  ∀ first rest, funding = first :: rest →
    packages_fit (script_len (script_pubkey (witness_utxo first))) (inputs_weight funding)
      (signed_input_weight first) txs.

(** The funding is enough for children of all of [txs]. *)
Definition pays (funding : list CpfpInput) txs : Prop :=
  txs = [] ∨ covers rate funding txs ∧ packages_fit_for funding txs.

Lemma pays_nil funding : pays funding [].
Proof using. by left. Qed.

Lemma pays_sublist funding txs' txs : txs' `sublist_of` txs → pays funding txs → pays funding txs'.
Proof using Hrate.
  intros Hs [->|[Hc Hf]]; [left; by apply sublist_nil_r|]. right. split.
  - eapply covers_sublist; [done|exact Hs|exact Hf|done].
  - intros first rest E. apply Forall_forall. intros tx Htx. specialize (Hf first rest E).
    unfold packages_fit in Hf. rewrite Forall_forall in Hf. apply Hf. by eapply elem_of_sublist.
Qed.

Lemma pays_step funding tx txs :
  has_anchor tx = true → pays funding (tx :: txs) →
  ∃ child, build_cpfp_child tx funding rate = Ok child ∧ 0 ≤ fee_sat_paid child ∧
    pays [change_input child] txs ∧
    inputs_value [change_input child] = inputs_value funding - fee_sat_paid child ∧
    input_wf (change_input child).
Proof using Hrate.
  intros Ha [?|[Hc Hf]]; [done|].
  pose proof Hc as (first & rest & Hfu & Hwf & Hd & _).
  destruct (covers_step rate funding tx txs Hrate Ha Hc) as (child & Hb & Hfee & Hcov & Hval).
  exists child. split_and!; [done|done| |done|].
  2:{ destruct Hcov as (f & r & [= <- <-] & Hwfc & _). by apply Forall_inv in Hwfc. }
  right. split; [done|].
  subst funding. specialize (Hf first rest eq_refl). apply Forall_cons in Hf as [_ Hf].
  pose proof (build_cpfp_child_spec tx first rest rate Hwf Hrate Ha Hd) as Hspec. cbv zeta in Hspec.
  rewrite Hb in Hspec. destruct Hspec as (_ & _ & k & anchor & _ & _ & _ & _ & _ & Hch).
  intros f r [= <- <-].
  destruct Hcov as (f & r & [= <- <-] & Hwfc & _).
  rewrite inputs_weight_one by (by apply Forall_inv in Hwfc). rewrite Hch. simpl.
  eapply Forall_impl; [exact Hf|]. simpl. intros t. lia.
Qed.

(** ** A branch's nodes *)

Definition node_buildable (resolved : ResolvedExitState) (n : TreeNode) : Prop :=
  has_anchor (node_tx n) = true ∧
  ∀ h, res_nodes resolved !! id n = Some (ConfirmedDirect h) → is_Some (direct_tx n).

Lemma build_node_runs resolved leaf_id n ns tail st :
  node_buildable resolved n →
  pays (bs_funding st) ((node_tx <$> to_drive resolved (bs_emitted st) (n :: ns)) ++ tail) →
  0 ≤ bs_cpfp_fee_sat st → bs_cpfp_fee_sat st + inputs_value (bs_funding st) < 2 ^ 64 →
  ∃ st', build_node resolved leaf_id rate st n = Ok st' ∧
    pays (bs_funding st') ((node_tx <$> to_drive resolved (bs_emitted st') ns) ++ tail) ∧
    0 ≤ bs_cpfp_fee_sat st' ∧
    bs_cpfp_fee_sat st' + inputs_value (bs_funding st') =
      bs_cpfp_fee_sat st + inputs_value (bs_funding st) ∧
    bs_emitted st ⊆ bs_emitted st' ∧
    (Forall input_wf (bs_funding st) → Forall input_wf (bs_funding st')) ∧
    (res_nodes resolved !! id n = None → compute_txid (node_tx n) ∈ bs_emitted st').
Proof using Hrate.
  intros [Ha Hdir] Hp Hf0 Hfee. unfold build_node.
  assert (∀ e, bs_emitted st ⊆ e →
    (node_tx <$> to_drive resolved e ns) ++ tail `sublist_of`
    (node_tx <$> to_drive resolved (bs_emitted st) (n :: ns)) ++ tail) as Hsub.
  { intros e He. apply sublist_app; [|done]. apply fmap_sublist.
    etransitivity; [by apply to_drive_anti|]. unfold to_drive. rewrite filter_cons.
    case_decide; [by apply sublist_cons|done]. }
  set (tx := match res_nodes resolved !! id n with
    | Some (ConfirmedDirect _) => ok_or (direct_tx n) _ | _ => Ok (node_tx n) end).
  assert (∃ t, tx = Ok t ∧ (res_nodes resolved !! id n = None → t = node_tx n)) as (t & -> & Ht).
  { subst tx. destruct (res_nodes resolved !! id n) as [[h|h]|] eqn:Hn; [by eexists| |by eexists].
    destruct (Hdir h eq_refl) as [d Hd]. exists d. by rewrite Hd. }
  simpl. case_decide as Hem.
  { eexists. split; [done|]. simpl. split_and!; try done; [by eapply pays_sublist, Hp; auto|].
    intros Hn. by rewrite <- Ht. }
  destruct (res_nodes resolved !! id n) as [s|] eqn:Hn; simpl.
  { eexists. split; [done|]. simpl. split_and!; try done; [|set_solver].
    eapply pays_sublist, Hp. apply Hsub. set_solver. }
  rewrite Ht in Hem |- * by done. clear Ht.
  unfold to_drive in Hp. rewrite filter_cons, decide_True in Hp by done. simpl in Hp.
  destruct (pays_step _ _ _ Ha Hp) as (child & -> & Hc0 & Hcp & Hcv & Hwf). simpl.
  pose proof (inputs_value_range [change_input child] ltac:(by constructor)) as [? _].
  eexists. split; [done|]. simpl. rewrite saturating_add_exact by lia.
  split_and!; [|lia|lia|set_solver|by constructor|set_solver].
  eapply pays_sublist, Hcp. apply sublist_app; [|done]. apply fmap_sublist, to_drive_anti. set_solver.
Qed.

Lemma build_nodes_run resolved leaf_id ns tail st :
  Forall (node_buildable resolved) ns →
  pays (bs_funding st) ((node_tx <$> to_drive resolved (bs_emitted st) ns) ++ tail) →
  0 ≤ bs_cpfp_fee_sat st → bs_cpfp_fee_sat st + inputs_value (bs_funding st) < 2 ^ 64 →
  ∃ st', foldlR (build_node resolved leaf_id rate) st ns = Ok st' ∧
    pays (bs_funding st') tail ∧ 0 ≤ bs_cpfp_fee_sat st' ∧
    bs_cpfp_fee_sat st' + inputs_value (bs_funding st') =
      bs_cpfp_fee_sat st + inputs_value (bs_funding st) ∧
    bs_emitted st ⊆ bs_emitted st' ∧
    (Forall input_wf (bs_funding st) → Forall input_wf (bs_funding st')) ∧
    (∀ n, n ∈ ns → res_nodes resolved !! id n = None → compute_txid (node_tx n) ∈ bs_emitted st').
Proof using Hrate.
  revert st. induction ns as [|n ns IH]; intros st Hb Hp Hf0 Hfee.
  { exists st. split_and!; try done. by intros ? ?%elem_of_nil. }
  apply Forall_cons in Hb as [Hn Hb].
  destruct (build_node_runs resolved leaf_id n ns tail st Hn Hp Hf0 Hfee)
    as (st1 & Hst1 & Hp1 & Hf1 & Hv1 & He1 & Hw1 & Hem1).
  destruct (IH st1 Hb Hp1 Hf1 ltac:(lia)) as (st' & Hst' & Hp' & Hf' & Hv' & He' & Hw' & Hem').
  exists st'. simpl. rewrite Hst1. simpl. split_and!; [done|done|done|lia|set_solver|auto|].
  intros m [->|Hm]%elem_of_cons Hnone; auto.
Qed.
End pays.

(** ** What the resolved state says *)

Section restored.
Context {B : Bitcoin} {BT : BitcoinTx}.
Implicit Types state : ExitChainState.

Definition confirmed_directly state (i : TreeNodeId) : Prop :=
  ∃ n, n ∈ ecs_nodes state ∧ cen_node_id n = i ∧ confirmed_by n = Direct.

Lemma has_node_spec state i : has_node state i = true ↔ i ∈ cen_node_id <$> ecs_nodes state.
Proof.
  unfold has_node. rewrite existsb_exists, list_elem_of_fmap. setoid_rewrite bool_decide_eq_true.
  setoid_rewrite <- list_elem_of_In. naive_solver.
Qed.

Lemma has_refund_spec state i : has_refund state i = true ↔ i ∈ er_leaf_id <$> ecs_refunds state.
Proof.
  unfold has_refund. rewrite existsb_exists, list_elem_of_fmap. setoid_rewrite bool_decide_eq_true.
  setoid_rewrite <- list_elem_of_In. naive_solver.
Qed.

Lemma restored_node state ids i :
  match walk_nodes (restore_exit_chain_walk state ids) !! i with
  | None => has_node state i = false
  | Some (ConfirmedCpfp _) => has_node state i = true
  | Some (ConfirmedDirect _) => has_node state i = true ∧ confirmed_directly state i
  end.
Proof.
  unfold restore_exit_chain_walk. cbn [walk_nodes]. destruct (hm_collect _ !! i) as [s|] eqn:Hs.
  - apply hm_collect_Some, list_elem_of_fmap in Hs as (n & [= -> ->] & Hn).
    assert (has_node state (cen_node_id n) = true).
    { apply has_node_spec. by apply list_elem_of_fmap_2. }
    destruct (confirmed_by n) eqn:Hc; [done|]. split; [done|]. by exists n.
  - apply hm_collect_None in Hs. apply not_true_is_false. rewrite has_node_spec. intros Hi. apply Hs.
    rewrite <- list_fmap_compose. exact Hi.
Qed.

(** The loop over the leaves in [restore_exit_chain_walk]. *)
Lemma direct_refunds_lookup (P : TreeNodeId → Prop) `{!∀ i, Decision (P i)} ids (m : gmap TreeNodeId RefundState) i s :
  foldl (λ refunds leaf_id, if decide (P leaf_id) then <[leaf_id := DriveDirect]> refunds else refunds)
    m ids !! i = Some s → m !! i = Some s ∨ s = DriveDirect ∧ P i ∧ i ∈ ids.
Proof.
  revert m. induction ids as [|j ids IH]; intros m; simpl; [by left|].
  intros [Hm|(? & ? & ?)]%IH; [|right; set_solver].
  case_decide; [|by left]. destruct (decide (j = i)) as [->|]; simplify_map_eq; [right; set_solver|by left].
Qed.

Lemma restored_refund state ids i :
  match walk_refunds (restore_exit_chain_walk state ids) !! i with
  | None => has_refund state i = false
  | Some DriveDirect => has_refund state i = false ∧ confirmed_directly state i ∧
      i ∉ stopped_leaves state
  | Some _ => has_refund state i = true
  end.
Proof.
  unfold restore_exit_chain_walk. cbn [walk_refunds].
  set (val := λ refund, match er_state refund with
    | OnChain tx vout value h => Adopted (mkConfirmedRefund tx (mkOutPoint (compute_txid tx) vout) value h)
    | Swept => RefundSwept end).
  set (base := foldl (λ refunds leaf_id, if decide _ then _ else refunds) ∅ ids).
  change (foldl _ base (ecs_refunds state)) with (insert_all er_leaf_id val (ecs_refunds state) base).
  destruct (has_refund state i) eqn:Hr.
  - apply has_refund_spec in Hr.
    destruct (insert_all_in er_leaf_id val (ecs_refunds state) base i Hr) as (x & _ & _ & ->).
    unfold val. by destruct (er_state x).
  - rewrite insert_all_notin by (rewrite <- has_refund_spec; by rewrite Hr).
    destruct (base !! i) as [s|] eqn:Hb; [|done].
    apply direct_refunds_lookup in Hb as [?|(-> & [Hst Hd] & _)]; [done|]. split_and!; [done| |].
    + apply hm_collect_Some, list_elem_of_fmap in Hd as (n & [= -> Hdir] & Hn). by exists n.
    + intros Hin. apply Hst. by apply elem_of_list_to_set.
Qed.

(** An adopted or swept refund is one of the state's. *)
Lemma restored_refund_from state ids i :
  match walk_refunds (restore_exit_chain_walk state ids) !! i with
  | Some (Adopted r) => ∃ er vout, er ∈ ecs_refunds state ∧ er_leaf_id er = i ∧
      er_state er = OnChain (cr_tx r) vout (cr_value r) (cr_block_height r) ∧
      cr_outpoint r = mkOutPoint (compute_txid (cr_tx r)) vout
  | Some RefundSwept => ∃ er, er ∈ ecs_refunds state ∧ er_leaf_id er = i ∧ er_state er = Swept
  | _ => True
  end.
Proof.
  unfold restore_exit_chain_walk. cbn [walk_refunds].
  set (val := λ refund, match er_state refund with
    | OnChain tx vout value h => Adopted (mkConfirmedRefund tx (mkOutPoint (compute_txid tx) vout) value h)
    | Swept => RefundSwept end).
  set (base := foldl (λ refunds leaf_id, if decide _ then _ else refunds) ∅ ids).
  change (foldl _ base (ecs_refunds state)) with (insert_all er_leaf_id val (ecs_refunds state) base).
  destruct (insert_all _ _ _ _ !! i) as [s|] eqn:Hs; [|done].
  apply insert_all_Some in Hs as [(x & Hx & Hid & Hval)|Hb].
  - unfold val in Hval. destruct (er_state x) as [tx vout value h|] eqn:E; subst s; [exists x, vout|exists x];
      by split_and!.
  - by apply direct_refunds_lookup in Hb as [?|(-> & _)].
Qed.

Lemma restored_adopted state ids i r :
  walk_refunds (restore_exit_chain_walk state ids) !! i = Some (Adopted r) →
  txid (cr_outpoint r) = compute_txid (cr_tx r).
Proof.
  intros Hr. pose proof (restored_refund_from state ids i) as Hf. rewrite Hr in Hf.
  by destruct Hf as (er & vout & _ & _ & _ & ->).
Qed.

(** The resolved state [build_unilateral_exit] works from. *)
Definition resolved_of (oc : ExitChainState) (ids : list TreeNodeId) : ResolvedExitState :=
  let walk := restore_exit_chain_walk oc ids in
  mkResolved (walk_nodes walk) (walk_refunds walk) (walk_stopped walk).

End restored.

(** ** A branch's refund, and a whole branch *)

Section branch.
Context {B : Bitcoin} {BT : BitcoinTx} (rate : Z) (Hrate : 0 ≤ rate).
Context (nodes : gmap TreeNodeId TreeNode) (resolved : ResolvedExitState).

Lemma has_anchor_output tx : has_anchor tx = true → ∃ o, head (tx_output tx) = Some o.
Proof. unfold has_anchor. destruct (tx_output tx) as [|o ?]; [done|by exists o]. Qed.

(** The refund transaction [build_refund] makes a child for. *)
Definition refund_to_drive (i : TreeNodeId) (refund : Transaction) : list Transaction :=
  if decide (i ∈ res_stopped resolved ∨ is_Some (res_refunds resolved !! i)) then [] else [refund].

Definition refund_buildable (i : TreeNodeId) (leaf : TreeNode) (refund : Transaction) : Prop :=
  refund_tx leaf = Some refund ∧ has_anchor refund = true ∧
  (res_refunds resolved !! i = Some DriveDirect →
     ∃ d o, direct_refund_tx leaf = Some d ∧ head (tx_output d) = Some o).

Definition change_value (changes : list CpfpChangeInput) : Z :=
  sumZ ((λ c, txout_value (cci_witness_utxo c)) <$> changes).

Lemma build_refund_runs i leaf refund st :
  refund_buildable i leaf refund → pays rate (bs_funding st) (refund_to_drive i refund) →
  0 ≤ bs_cpfp_fee_sat st → 0 ≤ inputs_value (bs_funding st) →
  bs_cpfp_fee_sat st + inputs_value (bs_funding st) < 2 ^ 64 →
  ∃ rs, build_refund resolved i leaf rate st = Ok rs ∧ 0 ≤ rs_cpfp_fee_sat rs ∧
    0 ≤ change_value (rs_change_inputs rs) ∧
    rs_cpfp_fee_sat rs + change_value (rs_change_inputs rs) ≤
      bs_cpfp_fee_sat st + inputs_value (bs_funding st) ∧
    (refund_to_drive i refund ≠ [] →
       rs_cpfp_fee_sat rs + change_value (rs_change_inputs rs) =
       bs_cpfp_fee_sat st + inputs_value (bs_funding st)).
Proof using Hrate.
  intros (Hr & Ha & Hdir) Hp Hf0 Hv0 Hb. unfold build_refund. unfold refund_to_drive in *.
  assert (∀ txs ros, ∃ rs, Ok (mkRefundStep txs ros [] (bs_cpfp_fee_sat st)) = (Ok rs : WalletResult _) ∧
    0 ≤ rs_cpfp_fee_sat rs ∧ 0 ≤ change_value (rs_change_inputs rs) ∧
    rs_cpfp_fee_sat rs + change_value (rs_change_inputs rs) ≤
      bs_cpfp_fee_sat st + inputs_value (bs_funding st)) as Hnone.
  { intros txs ros. eexists. split; [done|]. unfold change_value. simpl. lia. }
  destruct (res_refunds resolved !! i) as [[r| |]|] eqn:Hres.
  - rewrite decide_True by eauto.
    edestruct Hnone as (rs & Hrs & ? & ? & ?). exists rs. by split_and!.
  - rewrite decide_True by eauto. destruct (Hdir eq_refl) as (d & o & -> & Ho). simpl.
    unfold refund_output_value. rewrite Ho. simpl.
    edestruct Hnone as (rs & Hrs & ? & ? & ?). exists rs. by split_and!.
  - rewrite decide_True by eauto.
    edestruct Hnone as (rs & Hrs & ? & ? & ?). exists rs. by split_and!.
  - destruct (decide (i ∈ res_stopped resolved)) as [Hs|Hs].
    + rewrite decide_True by by left.
      edestruct Hnone as (rs & Hrs & ? & ? & ?). exists rs. by split_and!.
    + assert (¬ (i ∈ res_stopped resolved ∨ is_Some (@None RefundState))) as Hno
        by (intros [?|[? ?]]; done).
      rewrite decide_False in Hp |- * by exact Hno.
      destruct (has_anchor_output _ Ha) as [o Ho].
      destruct (pays_step rate Hrate _ _ _ Ha Hp) as (child & Hc & Hc0 & _ & Hcv & Hwf).
      rewrite Hr. simpl. unfold refund_output_value. rewrite Ho. simpl. rewrite Hc. simpl.
      eexists. split; [done|]. unfold change_value. simpl.
      pose proof (inputs_value_range [change_input child] ltac:(by constructor)) as [? _].
      rewrite saturating_add_exact by lia.
      assert (txout_value (witness_utxo (change_input child)) =
        inputs_value [change_input child]) as -> by (by rewrite inputs_value_one).
      split_and!; lia.
Qed.

(** What a branch needs to build when the transactions [emitted] are there. *)
Definition branch_ready (emitted : gset Txid) (branch : TreeNodeId * list CpfpInput) : Prop :=
  ∃ leaf refund chain, nodes !! branch.1 = Some leaf ∧
    walk_unilateral_exit_chain nodes leaf = Ok chain ∧
    Forall (node_buildable resolved) chain ∧ refund_buildable branch.1 leaf refund ∧
    Forall input_wf branch.2 ∧
    (branch.1 ∉ res_stopped resolved →
       pays rate branch.2
         ((node_tx <$> to_drive resolved emitted chain) ++ refund_to_drive branch.1 refund)).

(** The nodes of a branch that are still to be driven. *)
Definition undriven (branch : TreeNodeId * list CpfpInput) (n : TreeNode) : Prop :=
  branch.1 ∉ res_stopped resolved ∧ res_nodes resolved !! id n = None ∧
  ∃ leaf chain, nodes !! branch.1 = Some leaf ∧
    walk_unilateral_exit_chain nodes leaf = Ok chain ∧ n ∈ chain.

Definition drives_refund (branch : TreeNodeId * list CpfpInput) : Prop :=
  branch.1 ∉ res_stopped resolved ∧ res_refunds resolved !! branch.1 = None.

Lemma build_branch_runs fan_out_txid branch bu :
  branch_ready (bu_emitted bu) branch →
  0 ≤ bu_cpfp_fee_sat bu → bu_cpfp_fee_sat bu + inputs_value branch.2 < 2 ^ 64 →
  ∃ bu' changes, build_branch nodes resolved fan_out_txid rate bu branch = Ok bu' ∧
    eb_leaf_id <$> bu_branches bu' = (eb_leaf_id <$> bu_branches bu) ++ [branch.1] ∧
    bu_change_inputs bu' = bu_change_inputs bu ++ changes ∧
    0 ≤ bu_cpfp_fee_sat bu' ∧ 0 ≤ change_value changes ∧
    bu_cpfp_fee_sat bu' + change_value changes ≤ bu_cpfp_fee_sat bu + inputs_value branch.2 ∧
    (drives_refund branch → bu_cpfp_fee_sat bu' + change_value changes =
       bu_cpfp_fee_sat bu + inputs_value branch.2) ∧
    bu_emitted bu ⊆ bu_emitted bu' ∧
    (∀ n, undriven branch n → compute_txid (node_tx n) ∈ bu_emitted bu').
Proof using Hrate.
  destruct branch as [i funding]. intros (leaf & refund & chain & Hi & Hw & Hns & Hrb & Hwf & Hp) Hf0 Hb.
  cbn [fst snd] in *. unfold build_branch. rewrite Hi. cbn [ok_or mbind result_bind]. rewrite Hw.
  cbn [mbind result_bind]. pose proof (inputs_value_range _ Hwf) as [Hv0 _].
  set (st := mkBranchState funding [] fan_out_txid None None (bu_emitted bu) (bu_cpfp_fee_sat bu)).
  assert (∃ st', (if decide (i ∈ res_stopped resolved) then Ok st
      else foldlR (build_node resolved i rate) st chain) = Ok st' ∧
    pays rate (bs_funding st') (refund_to_drive i refund) ∧ 0 ≤ bs_cpfp_fee_sat st' ∧
    bs_cpfp_fee_sat st' + inputs_value (bs_funding st') = bs_cpfp_fee_sat st + inputs_value (bs_funding st) ∧
    bs_emitted st ⊆ bs_emitted st' ∧ 0 ≤ inputs_value (bs_funding st') ∧
    (∀ n, undriven (i, funding) n → compute_txid (node_tx n) ∈ bs_emitted st'))
    as (st' & -> & Hp' & Hf' & Hv' & He' & Hn' & Hem').
  { case_decide as Hst.
    - exists st. split_and!; try done.
      + unfold refund_to_drive. rewrite decide_True by by left. apply pays_nil.
      + by intros n [? _].
    - destruct (build_nodes_run rate Hrate resolved i chain _ st Hns (Hp Hst) Hf0 Hb)
        as (st' & Hrun & Hp' & Hf' & Hv' & He' & Hwf' & Hem').
      pose proof (inputs_value_range _ (Hwf' Hwf)) as [? _].
      exists st'. split_and!; try done. intros n (_ & Hnone & leaf' & chain' & Hi' & Hw' & Hin).
      simpl in Hi'. simplify_eq. assert (chain' = chain) as -> by congruence. auto. }
  cbn [mbind result_bind].
  destruct (build_refund_runs i leaf refund st' Hrb Hp' Hf' Hn' ltac:(simpl in *; lia))
    as (rs & -> & Hr0 & Hc0 & Hle & Heq). cbn [mbind result_bind].
  eexists _, (rs_change_inputs rs). split; [done|]. simpl in *.
  split_and!; [by rewrite fmap_app|done|done|done|lia| |done|done].
  intros [Hns' Hnr]. rewrite Heq; [lia|]. unfold refund_to_drive. simpl in *.
  rewrite decide_False; [done|]. rewrite Hnr. by intros [?|[? ?]].
Qed.

Lemma build_branches_run fan_out_txid bs :
  (∀ pre branch post emitted, bs = pre ++ branch :: post →
     (∀ b n, b ∈ pre → undriven b n → compute_txid (node_tx n) ∈ emitted) →
     branch_ready emitted branch) →
  (∀ b, b ∈ bs → 0 ≤ inputs_value b.2) →
  sumZ ((λ b, inputs_value b.2) <$> bs) < 2 ^ 64 →
  ∃ bu, foldlR (build_branch nodes resolved fan_out_txid rate) (mkBuildState ∅ [] [] [] 0) bs = Ok bu ∧
    eb_leaf_id <$> bu_branches bu = bs.*1 ∧
    bu_cpfp_fee_sat bu + change_value (bu_change_inputs bu) ≤ sumZ ((λ b, inputs_value b.2) <$> bs) ∧
    ((∀ b, b ∈ bs → drives_refund b) →
       bu_cpfp_fee_sat bu + change_value (bu_change_inputs bu) = sumZ ((λ b, inputs_value b.2) <$> bs)).
Proof using Hrate.
  intros Hready Hnn Hsum.
  set (total (l : list (TreeNodeId * list CpfpInput)) := sumZ ((λ b, inputs_value b.2) <$> l)).
  destruct (foldlR_ok (build_branch nodes resolved fan_out_txid rate)
    (λ pre bu, eb_leaf_id <$> bu_branches bu = pre.*1 ∧ 0 ≤ bu_cpfp_fee_sat bu ∧
       0 ≤ change_value (bu_change_inputs bu) ∧
       bu_cpfp_fee_sat bu + change_value (bu_change_inputs bu) ≤ total pre ∧
       ((∀ b, b ∈ pre → drives_refund b) →
          bu_cpfp_fee_sat bu + change_value (bu_change_inputs bu) = total pre) ∧
       (∀ b n, b ∈ pre → undriven b n → compute_txid (node_tx n) ∈ bu_emitted bu))
    bs (mkBuildState ∅ [] [] [] 0)) as (bu & Hrun & Hids & _ & _ & Hle & Heq & _).
  - intros pre x post bu Hbs (Hids & Hf0 & Hc0 & Hle & Heq & Hem).
    assert (total pre + inputs_value x.2 ≤ total bs) as Htot.
    { unfold total. rewrite Hbs, fmap_app, sumZ_app. csimpl.
      assert (0 ≤ sumZ ((λ b, inputs_value b.2) <$> post)); [|lia].
      apply sumZ_nonneg. rewrite Forall_fmap, Forall_forall. intros b Hb. apply Hnn. set_solver. }
    destruct (build_branch_runs fan_out_txid x bu (Hready _ _ _ _ Hbs Hem) Hf0 ltac:(fold (total bs) in Hsum; lia))
      as (bu' & ch & Hbu & Hids' & Hch & Hf' & Hc' & Hle' & Heq' & He' & Hem').
    assert (total (pre ++ [x]) = total pre + inputs_value x.2) as Hsnoc.
    { unfold total. rewrite fmap_app, sumZ_app. csimpl. lia. }
    assert (change_value (bu_change_inputs bu') = change_value (bu_change_inputs bu) + change_value ch) as Hcv.
    { unfold change_value. by rewrite Hch, fmap_app, sumZ_app. }
    exists bu'. split; [done|]. rewrite Hsnoc, Hcv. split_and!; [by rewrite Hids', Hids, fmap_app|done|lia|lia| |].
    + intros Hall. rewrite <- Heq by set_solver. rewrite Z.add_comm.
      pose proof (Heq' ltac:(apply Hall; set_solver)). lia.
    + intros b n [Hb|Hb]%elem_of_app Hun; [apply He'; by eapply Hem|].
      apply list_elem_of_singleton in Hb as ->. auto.
  - split_and!; try done. by intros ? ? ?%elem_of_nil.
  - exists bu. by split_and!.
Qed.
End branch.
