(* ===== verification/ExitPlanBuild.v ===== *)
(** * An accepted plan builds

    [plan_unilateral_exit] hands every branch enough for what [build_exit] will
    drive, so that the build cannot run out of money. *)

From S2P Require Import Prelude Bitcoin BitcoinTx TreeModel ExitChain SparkTx ExitPlan.
From S2P Require Import ExitPlanSpec ExitFundingSpec ExitSample ExitScan ExitBuild.
From S2P Require Import ExitBuildSpec.

Section funding.
Context {B : Bitcoin} {BT : BitcoinTx}.
Context (nodes : gmap TreeNodeId TreeNode) (oc : ExitChainState).
Implicit Types part inputs : list CpfpInput.

(** The transactions an exit of this tree may have to drive. *)
Definition exit_tx (tx : Transaction) : Prop :=
  ∃ i n, nodes !! i = Some n ∧ (tx = node_tx n ∨ refund_tx n = Some tx).

(** Every such package, with all of the inputs, stays clear of [u64]'s limit. *)
Definition weights_fit inputs : Prop :=
  ∀ tx i, exit_tx tx → i ∈ inputs →
    tx_weight tx + sumZ (signed_input_weight <$> inputs) +
      child_overhead (script_len (script_pubkey (witness_utxo i))) < 2 ^ 64.

Definition funding_wf inputs : Prop :=
  Forall (λ i, input_wf i ∧ 0 < minimal_non_dust (script_pubkey (witness_utxo i))) inputs.

Lemma funding_wf_wf inputs : funding_wf inputs → Forall input_wf inputs.
Proof. intros H. eapply Forall_impl; [exact H|]. by intros ? [? _]. Qed.

Lemma funding_wf_part part inputs : part ⊆+ inputs → funding_wf inputs → funding_wf part.
Proof.
  unfold funding_wf. rewrite !Forall_forall. intros Hs Hwf i Hi. apply Hwf. by eapply elem_of_submseteq.
Qed.

Lemma drive_txs_exit covered i leaf refund chain :
  nodes !! i = Some leaf → refund_tx leaf = Some refund →
  walk_unilateral_exit_chain nodes leaf = Ok chain →
  Forall exit_tx (drive_txs oc covered i refund chain).
Proof.
  intros Hi Hr Hw. unfold drive_txs. apply Forall_app. split.
  - rewrite Forall_fmap, Forall_forall. intros n [_ Hn]%list_elem_of_filter.
    destruct (chain_in_map nodes i leaf chain n Hi Hw Hn) as [j Hj]. exists j, n. auto.
  - destruct (has_refund oc i); [constructor|]. apply Forall_singleton. exists i, leaf. auto.
Qed.

Lemma drive_txs_sublist covered i refund chain :
  drive_txs oc covered i refund chain `sublist_of` drive_txs oc ∅ i refund chain.
Proof.
  unfold drive_txs. apply sublist_app; [|done]. apply fmap_sublist. unfold to_charge.
  induction chain as [|n chain IH]; [done|]. rewrite !filter_cons.
  case_decide as H1; case_decide as H2; [by apply sublist_skip| |by apply sublist_cons|done].
  exfalso. apply H2. set_solver.
Qed.

(** A part worth the fees of [txs] and a change output pays for them. *)
Lemma part_pays rate bound f r txs :
  funding_wf (f :: r) → Forall exit_tx txs →
  (∀ tx, exit_tx tx → tx_weight tx + bound + child_overhead (script_len (script_pubkey (witness_utxo f))) < 2 ^ 64) →
  sumZ (signed_input_weight <$> f :: r) ≤ bound →
  sumZ (chain_fees (script_len (script_pubkey (witness_utxo f))) rate (inputs_weight (f :: r))
          (signed_input_weight f) txs) + minimal_non_dust (script_pubkey (witness_utxo f))
    ≤ inputs_value (f :: r) →
  pays rate (f :: r) txs.
Proof.
  intros Hwf Htx Hb Hw Hle. right. split.
  - exists f, r. cbv zeta. split_and!; [done|by apply funding_wf_wf|by apply Forall_inv in Hwf as [_ ?]|done].
  - intros f' r' [= <- <-]. eapply Forall_impl; [exact Htx|]. intros tx Hx. simpl.
    specialize (Hb tx Hx). pose proof (weights_nonneg _ (funding_wf_wf _ Hwf)) as Hnn.
    assert (inputs_weight (f :: r) ≤ bound).
    { unfold inputs_weight. rewrite sat_sum_min by (try lia; done). lia. }
    assert (signed_input_weight f ≤ bound); [|lia].
    csimpl in *. apply Forall_cons in Hnn as [_ Hnn]. pose proof (sumZ_nonneg _ Hnn). lia.
Qed.

(** ** What [fund_branches] gives each branch *)

Context (dest_len : Z).

(** A branch's part covers what its leaf drives, [covered] being paid for by the
    leaves before it. *)
Definition funded rate (covered : gset Txid) (l : UnilateralExitSelectedLeaf) part : Prop :=
  ∀ leaf refund chain, nodes !! sl_id l = Some leaf → refund_tx leaf = Some refund →
    walk_unilateral_exit_chain nodes leaf = Ok chain →
    pays rate part (drive_txs oc covered (sl_id l) refund chain).

Lemma floor_fees rate i leaf refund chain f r :
  nodes !! i = Some leaf → refund_tx leaf = Some refund →
  walk_unilateral_exit_chain nodes leaf = Ok chain →
  first_child_cpfp_floor nodes i (f :: r) dest_len rate oc =
    Some (sat_sum 64 (chain_fees (script_len (script_pubkey (witness_utxo f))) rate
      (inputs_weight (f :: r)) (signed_input_weight f) (drive_txs oc ∅ i refund chain))).
Proof.
  intros Hi Hr Hw. unfold first_child_cpfp_floor. cbn [head mbind option_bind].
  match goal with |- context [evaluate_unilateral_exit_leaf_costs _ _ ?p _ _] => set (params := p) end.
  unfold evaluate_unilateral_exit_leaf_costs. simpl. unfold lookup_leaf.
  rewrite Hi. simpl. rewrite Hr, Hw. simpl. by rewrite leaf_cpfp_cost_fees.
Qed.

Lemma floor_funds rate inputs covered l part f r c :
  0 ≤ rate → weights_fit inputs → funding_wf inputs → f ∈ inputs → part = f :: r → part ⊆+ inputs →
  inputs_value inputs < 2 ^ 64 - 1 →
  first_child_cpfp_floor nodes (sl_id l) part dest_len rate oc = Some c →
  saturating_add 64 c (minimal_non_dust (script_pubkey (witness_utxo f))) ≤ inputs_value part →
  funded rate covered l part.
Proof.
  intros Hr Hfit Hwf Hf Hpart Hsub Hval Hc Hle leaf refund chain Hi Href Hw.
  assert (Forall (λ x, 0 ≤ x) (signed_input_weight <$> inputs)) as Hnw by (by apply weights_nonneg, funding_wf_wf).
  assert (inputs_value part ≤ inputs_value inputs) as Hpv.
  { unfold inputs_value. pose proof (values_nonneg _ (funding_wf_wf _ Hwf)) as Hnv.
    assert (Forall (λ x, 0 ≤ x) (values_of part)) as Hnp.
    { by eapply values_nonneg, funding_wf_wf, funding_wf_part. }
    fold (values_of part) (values_of inputs). rewrite !sat_sum_min by (try lia; done).
    pose proof (sumZ_submseteq (values_of part) (values_of inputs) Hnv (fmap_submseteq _ _ _ Hsub)). lia. }
  rewrite (saturating_add_unsaturated c) in Hle by lia.
  rewrite Hpart, (floor_fees rate _ _ _ _ f r Hi Href Hw) in Hc. injection Hc as <-. rewrite <- Hpart in Hle.
  assert (0 < minimal_non_dust (script_pubkey (witness_utxo f))) as Hd.
  { unfold funding_wf in Hwf. rewrite Forall_forall in Hwf. by apply Hwf. }
  rewrite sat_sum_unsaturated in Hle; [|by apply chain_fees_nonneg|lia].
  eapply pays_sublist; [done|apply drive_txs_sublist|]. subst part.
  eapply (part_pays _ (sumZ (signed_input_weight <$> inputs))).
  - by eapply funding_wf_part.
  - by eapply drive_txs_exit.
  - intros tx Htx. by apply Hfit.
  - apply sumZ_submseteq; [done|]. by apply fmap_submseteq.
  - lia.
Qed.

(** An entry of the selection, made when [covered] was covered. *)
Definition is_entry params covered (l : UnilateralExitSelectedLeaf) leaf refund chain : Prop :=
  nodes !! sl_id l = Some leaf ∧ refund_tx leaf = Some refund ∧
  walk_unilateral_exit_chain nodes leaf = Ok chain ∧
  ∃ n, l = entry_of params oc n covered (sl_id l) leaf refund chain.

Lemma costed_at params sel cov sel1 l sel2 :
  costed nodes params oc sel cov → sel = sel1 ++ l :: sel2 →
  ∃ cov1 leaf refund chain, costed nodes params oc sel1 cov1 ∧ is_entry params cov1 l leaf refund chain.
Proof.
  intros Hc. revert sel1 l sel2. induction Hc as [|sel cov i leaf refund chain Hc IH Hi Hr Hw];
    intros sel1 l sel2; [by destruct sel1|].
  destruct sel2 as [|x sel2 _] using rev_ind.
  - intros [-> [= <-]]%app_inj_2; [|done]. exists cov, leaf, refund, chain. split; [done|].
    by split_and!; [..|exists (length sel1)].
  - rewrite app_comm_cons, app_assoc. intros [-> _]%app_inj_2; [|done]. by eapply IH.
Qed.

(** A single input of the weight and script the costs were estimated with. *)
Lemma estimate_funds params inputs l covered leaf refund chain f :
  0 ≤ fee_rate_sat_per_kw params → weights_fit inputs →
  input_wf f → (∃ g, g ∈ inputs ∧ signed_input_weight f = signed_input_weight g ∧
    script_pubkey (witness_utxo f) = script_pubkey (witness_utxo g) ∧
    initial_cpfp_input_weight params = signed_input_weight g ∧
    single_cpfp_input_weight params = signed_input_weight g ∧
    change_script_len params = script_len (script_pubkey (witness_utxo g))) →
  funding_wf inputs →
  is_entry params covered l leaf refund chain → cpfp_cost l < 2 ^ 64 - 1 →
  cpfp_cost l + minimal_non_dust (script_pubkey (witness_utxo f)) ≤ inputs_value [f] →
  funded (fee_rate_sat_per_kw params) covered l [f].
Proof.
  intros Hr Hfit Hfw (g & Hg & Hwg & Hsg & Hw0 & Hw1 & Hlen) Hwf (Hi & Href & Hw & sel0 & Hl) Hun Hle
    leaf' refund' chain' Hi' Href' Hw'.
  assert (leaf' = leaf) as -> by congruence. assert (refund' = refund) as -> by congruence.
  assert (chain' = chain) as -> by congruence.
  assert (cpfp_cost l = leaf_cpfp_cost params oc covered (sl_id l) refund chain) as Hc by (by rewrite Hl).
  rewrite Hc, leaf_cpfp_cost_fees in Hun, Hle.
  rewrite sat_sum_unsaturated in Hle by (done || by apply chain_fees_nonneg).
  unfold funding_wf in Hwf. pose proof Hwf as Hwf'. rewrite Forall_forall in Hwf'.
  destruct (Hwf' g Hg) as [[_ Hgw] Hd].
  apply (part_pays _ (signed_input_weight g)).
  - constructor; [|constructor]. split; [done|]. by rewrite Hsg.
  - by eapply drive_txs_exit.
  - intros tx Htx. rewrite Hsg. specialize (Hfit tx g Htx Hg).
    pose proof (sumZ_elem_le _ _ (weights_nonneg _ (funding_wf_wf _ Hwf))
      (list_elem_of_fmap_2 signed_input_weight _ _ Hg)). lia.
  - csimpl. lia.
  - rewrite inputs_weight_one, Hwg by done. by rewrite Hlen, Hw0, Hw1, <- Hsg in Hle.
Qed.

(** ** [fund_branches] *)

Context (rate : Z) (Hrate : 0 ≤ rate) (first : CpfpInput) (rest : list CpfpInput).
Local Abbreviation inputs := (first :: rest).
Local Abbreviation script := (script_pubkey (witness_utxo first)).
Local Abbreviation dust := (minimal_non_dust script).
Local Abbreviation params := {|
  initial_cpfp_input_weight := signed_input_weight first;
  single_cpfp_input_weight := signed_input_weight first;
  change_script_len := script_len script;
  destination_script_len := dest_len;
  fee_rate_sat_per_kw := rate |}.
Context (Hwf : funding_wf inputs) (Hfit : weights_fit inputs)
  (Hval : inputs_value inputs < 2 ^ 64 - 1).

(** What the branches get: one part each, that funds it, out of the inputs and
    after the fan-out's own fee. *)
Definition branches_funded (to_build : list UnilateralExitSelectedLeaf)
    (assigned : list (TreeNodeId * list CpfpInput))
    (psbt : option (Psbt Transaction ScriptBuf)) : Prop :=
  assigned.*1 = sl_id <$> to_build ∧
  Forall (λ b, Forall input_wf b.2) assigned ∧
  (∀ l, l ∈ to_build → ∃ part, (sl_id l, part) ∈ assigned ∧
     ∀ covered leaf refund chain, is_entry params covered l leaf refund chain →
       funded rate covered l part) ∧
  sumZ ((λ b, inputs_value b.2) <$> assigned) +
    fresh_fan_out_fee (mkPlan [] psbt [] nodes) (fan_out_exit_tx <$> psbt) ≤ inputs_value inputs.

Lemma first_funds l covered leaf refund chain f :
  is_entry params covered l leaf refund chain → input_wf f →
  signed_input_weight f = signed_input_weight first → script_pubkey (witness_utxo f) = script →
  saturating_add 64 (cpfp_cost l) dust ≤ inputs_value [f] → inputs_value [f] < 2 ^ 64 - 1 →
  funded rate covered l [f].
Proof using Hrate Hwf Hfit.
  intros He Hf Hw Hs Hle Hlt.
  pose proof (saturating_add_unsaturated (cpfp_cost l) dust ltac:(lia)) as Hadd.
  pose proof (Forall_inv Hwf) as [_ Hd].
  apply (estimate_funds params inputs l covered leaf refund chain f); try done.
  - exists first. split_and!; try done. by left.
  - lia.
  - rewrite Hs. lia.
Qed.

Lemma exact_sum : sumZ (values_of inputs) = inputs_value inputs.
Proof using Hwf Hval.
  unfold inputs_value in *. fold (values_of inputs) in *. symmetry.
  apply sat_sum_unsaturated; [|done]. by apply values_nonneg, funding_wf_wf.
Qed.

Lemma parts_value (parts : list (list CpfpInput)) :
  concat parts ⊆+ inputs → sumZ (inputs_value <$> parts) ≤ inputs_value inputs.
Proof using Hwf Hval.
  intros Hs. rewrite <- exact_sum.
  pose proof (sumZ_submseteq _ _ (values_nonneg _ (funding_wf_wf _ Hwf))
    (fmap_submseteq (λ i, txout_value (witness_utxo i)) _ _ Hs)) as Hle.
  assert (Forall input_wf (concat parts)) as Hc by (by eapply funding_wf_wf, funding_wf_part).
  assert (sumZ (inputs_value <$> parts) ≤ sumZ (values_of (concat parts))); [|unfold values_of in *; lia].
  clear -Hc. induction parts as [|p parts IH]; csimpl; [done|]. apply Forall_app in Hc as [Hp Hc].
  unfold values_of in *. rewrite fmap_app, sumZ_app. specialize (IH Hc).
  pose proof (sat_sum_le 64 _ ltac:(lia) (values_nonneg _ Hp)). unfold values_of, inputs_value in *. lia.
Qed.

Lemma single_branch_funded l :
  (∃ covered leaf refund chain, is_entry params covered l leaf refund chain) →
  ∀ assigned psbt,
  fund_branches nodes [l] inputs dust rate dest_len oc = Ok (assigned, psbt) →
  branches_funded [l] assigned psbt.
Proof using Hrate Hwf Hfit Hval.
  intros (cov0 & leaf0 & refund0 & chain0 & Hi0 & Hr0 & Hw0 & _) assigned psbt. unfold fund_branches.
  case_match eqn:Hlt; [done|]. intros [= <- <-]. apply Z.ltb_ge in Hlt.
  split_and!; [done|by constructor; [apply funding_wf_wf|]| |csimpl; unfold fresh_fan_out_fee; simpl; lia].
  intros l' ->%list_elem_of_singleton. exists inputs. split; [by left|].
  intros covered leaf refund chain He. destruct (Nat.ltb_spec 1 (length inputs)) as [Hlen|Hlen].
  - rewrite (floor_fees rate _ _ _ _ first rest Hi0 Hr0 Hw0) in Hlt. simpl in Hlt.
    eapply (floor_funds rate inputs covered l); [done|done|done|by left|done|done|done| |done].
    by apply (floor_fees rate _ leaf0 refund0 chain0).
  - assert (inputs = [first]) as Hone by (by destruct rest; simpl in Hlen; [|lia]).
    rewrite Hone in Hlt, Hval |- *. eapply first_funds; try done.
    by apply funding_wf_wf, Forall_inv in Hwf.
Qed.

Lemma part_submseteq (part : list CpfpInput) (parts : list (list CpfpInput)) :
  part ∈ parts → part ⊆+ concat parts.
Proof using.
  induction parts as [|p parts IH]; [by intros ?%elem_of_nil|]. simpl. intros [->|Hp]%elem_of_cons.
  - by apply submseteq_inserts_r.
  - by apply submseteq_inserts_l, IH.
Qed.

Lemma assignment_funded to_build assignment :
  NoDup (sl_id <$> to_build) →
  assign_inputs_to_leaves inputs to_build dust = Some assignment →
  assignment_covers_first_child assignment nodes dest_len rate oc = true →
  branches_funded to_build assignment None.
Proof using Hrate Hwf Hfit Hval.
  intros Hnd Ha Hcov. destruct (assign_inputs_sound _ _ _ _ Hnd Ha) as (Hids & Hsub & _).
  assert (∀ i part, (i, part) ∈ assignment → part ⊆+ inputs) as Hpart.
  { intros i part Hin. etransitivity; [|exact Hsub]. apply part_submseteq.
    by apply (list_elem_of_fmap_2 snd _ (i, part)). }
  split_and!; [done| | |].
  - apply Forall_forall. intros [i part] Hin.
    by apply funding_wf_wf, (funding_wf_part part inputs (Hpart i part Hin)).
  - intros l Hl. assert (sl_id l ∈ assignment.*1) as ([i part] & Hi & Hin)%list_elem_of_fmap
      by (rewrite Hids; by apply list_elem_of_fmap_2). simpl in Hi. subst i.
    exists part. split; [done|]. intros covered leaf refund chain _.
    unfold assignment_covers_first_child in Hcov. rewrite forallb_forall in Hcov.
    apply list_elem_of_In in Hin as Hin'. specialize (Hcov _ Hin'). simpl in Hcov.
    destruct part as [|f r]; [done|]. simpl in Hcov.
    destruct (first_child_cpfp_floor _ _ _ _ _ _) as [c|] eqn:Hc; [|done].
    eapply (floor_funds rate inputs covered l (f :: r) f r c); try done; [|by eapply Hpart|by apply Z.leb_le].
    eapply elem_of_submseteq; [by left|]. by eapply Hpart.
  - unfold fresh_fan_out_fee. simpl. rewrite Z.add_0_r.
    pose proof (parts_value _ Hsub) as Hle. by rewrite <- list_fmap_compose in Hle.
Qed.

Lemma fan_out_funded to_build psbt per_leaf :
  to_build ≠ [] → Forall (λ l, 0 ≤ cpfp_cost l ≤ estimated_cost l) to_build → costs_nonneg to_build →
  build_fan_out_psbt inputs to_build rate dust = Ok (psbt, per_leaf) →
  branches_funded to_build ((λ p : TreeNodeId * CpfpInput, (p.1, [p.2])) <$> per_leaf) (Some psbt).
Proof using Hrate Hwf Hfit Hval.
  intros Hne Hle Hc Hb.
  pose proof (build_fan_out_spec first rest to_build rate dust (funding_wf_wf _ Hwf) Hval Hrate
    (proj1 (minimal_non_dust_range _)) Hc Hne) as Hspec. cbv zeta in Hspec. rewrite Hb in Hspec.
  destruct Hspec as (_ & Hpi & Hids & Hout & Hsum & _ & HF).
  set (fee := fan_out_fee _ _ _ _) in *.
  assert (∀ p, p ∈ per_leaf → input_wf p.2) as Hpwf.
  { intros p [k Hk]%list_elem_of_lookup. by destruct (Forall2_lookup_r _ _ _ _ _ HF Hk) as (? & _ & ? & _). }
  assert (0 ≤ fee) as Hfee by (by apply fee_sat_nonneg, uadd_nonneg).
  assert (Forall (λ x, 0 ≤ x) (txout_value <$> tx_output (unsigned_tx psbt))) as Hnn.
  { rewrite Hout, <- list_fmap_compose, Forall_fmap, Forall_forall. intros p Hp. simpl. by apply Hpwf in Hp as [[? _] _]. }
  assert (sumZ ((λ b, inputs_value b.2) <$> ((λ p : TreeNodeId * CpfpInput, (p.1, [p.2])) <$> per_leaf)) =
    sumZ (txout_value <$> tx_output (unsigned_tx psbt))) as Hparts.
  { rewrite Hout, <- !list_fmap_compose. f_equal. apply list_fmap_ext. intros k p Hk. simpl.
    apply inputs_value_one, Hpwf. by eapply list_elem_of_lookup_2. }
  split_and!.
  - rewrite <- list_fmap_compose. exact Hids.
  - rewrite Forall_fmap, Forall_forall. intros p Hp. simpl. constructor; [by apply Hpwf|constructor].
  - intros l [k Hk]%list_elem_of_lookup.
    destruct (Forall2_lookup_l _ _ _ _ _ HF Hk) as ([i f] & Hkp & Hfw & Hfunds & Hw & Hs). simpl in *.
    assert (i = sl_id l) as ->.
    { apply (f_equal (.!! k)) in Hids. rewrite !list_lookup_fmap, Hkp, Hk in Hids. by injection Hids. }
    exists [f]. split.
    { apply (list_elem_of_fmap_2 (λ p : TreeNodeId * CpfpInput, (p.1, [p.2])) _ (sl_id l, f)).
      by eapply list_elem_of_lookup_2. }
    intros covered leaf refund chain He.
    assert (inputs_value [f] ≤ sumZ (txout_value <$> tx_output (unsigned_tx psbt))) as Hlef.
    { rewrite inputs_value_one by done. apply sumZ_elem_le; [done|]. rewrite Hout, <- list_fmap_compose.
      apply (list_elem_of_fmap_2 (txout_value ∘ (λ p : TreeNodeId * CpfpInput, witness_utxo p.2)) _ (sl_id l, f)).
      by eapply list_elem_of_lookup_2. }
    rewrite Forall_lookup in Hle. specialize (Hle k l Hk).
    eapply first_funds; try done; [|lia].
    unfold funds, branch_required_funding, saturating_add in *. lia.
  - rewrite Hparts. unfold fresh_fan_out_fee. cbn [fan_out_psbt option_fmap option_map fmap to_sign fan_out_exit_tx base_tx].
    rewrite Hpi. rewrite (sat_sum_exact 64 (txout_value <$> tx_output _)) by (done || lia).
    assert (txout_value <$> omap (λ i, i) (Some <$> (witness_utxo <$> inputs)) = values_of inputs) as ->.
    { unfold values_of. clear. generalize inputs. intros l.
      induction l as [|x l IH]; [done|]. csimpl. by rewrite IH. }
    change (sat_sum 64 (values_of inputs)) with (inputs_value inputs). unfold saturating_sub. lia.
Qed.

Lemma fund_branches_ok to_build assigned psbt :
  NoDup (sl_id <$> to_build) →
  Forall (λ l, 0 ≤ cpfp_cost l ≤ estimated_cost l) to_build → costs_nonneg to_build →
  (∀ l, l ∈ to_build → ∃ covered leaf refund chain, is_entry params covered l leaf refund chain) →
  fund_branches nodes to_build inputs dust rate dest_len oc = Ok (assigned, psbt) →
  branches_funded to_build assigned psbt.
Proof using Hrate Hwf Hfit Hval.
  intros Hnd Hle Hc He Hf. destruct to_build as [|l [|l2 ls]].
  - injection Hf as <- <-. split_and!; [done|constructor|by intros ? ?%elem_of_nil|].
    csimpl. unfold fresh_fan_out_fee. simpl. apply (inputs_value_range _ (funding_wf_wf _ Hwf)).
  - apply single_branch_funded; [|done]. apply He. by left.
  - unfold fund_branches in Hf. set (tb := l :: l2 :: ls) in *.
    assert (∀ r, (match build_fan_out_psbt inputs tb rate dust with
      | Ok (psbt, per_leaf) => Ok ((λ p : TreeNodeId * CpfpInput, (p.1, [p.2])) <$> per_leaf, Some psbt)
      | Err e => Err e end : ServiceResult _) = Ok r → branches_funded tb r.1 r.2) as Hfan.
    { intros r. destruct (build_fan_out_psbt _ _ _ _) as [[p per_leaf]|] eqn:Hb; [|done].
      intros [= <-]. by apply fan_out_funded. }
    destruct (assign_inputs_to_leaves inputs tb dust) as [assignment|] eqn:Ha.
    + destruct (assignment_covers_first_child _ _ _ _ _) eqn:Hcov.
      * injection Hf as <- <-. by apply assignment_funded.
      * by apply (Hfan (assigned, psbt)).
    + by apply (Hfan (assigned, psbt)).
Qed.
End funding.

(** ** Plan, then build *)

Section accepted.
Context {B : Bitcoin} {BT : BitcoinTx}.
Implicit Types nodes : gmap TreeNodeId TreeNode.

Lemma kept_ids flt nodes entries sel :
  kept flt nodes entries sel → (sl_id <$> sel) `sublist_of` entries.*1.
Proof.
  assert (∀ k, ((λ l, (sl_id l, sl_value l)) <$> k).*1 = sl_id <$> k) as Hsel
    by (intros; by rewrite <- list_fmap_compose).
  assert (((λ e : TreeNodeId * TreeNode, (e.1, value e.2)) <$> entries).*1 = entries.*1) as He
    by (by rewrite <- list_fmap_compose).
  unfold kept. rewrite <- Hsel, <- He. destruct flt; intros [Hk _]; [by rewrite Hk|by apply fmap_sublist].
Qed.

Lemma evaluated_NoDup nodes ids params flt oc sel :
  NoDup ids → evaluate_unilateral_exit_leaf_costs nodes ids params flt oc = Ok sel →
  NoDup (sl_id <$> sel).
Proof.
  intros Hnd (_ & _ & Hk & _)%evaluate_ok. apply kept_ids in Hk.
  eapply NoDup_submseteq_l; [by apply sublist_submseteq|].
  rewrite stable_sort_perm. eapply NoDup_submseteq_l; [|exact Hnd].
  apply sublist_submseteq, found_sublist.
Qed.

Lemma costed_covered nodes params oc sel cov t :
  costed nodes params oc sel cov → t ∈ cov →
  ∃ n, on_exit_path nodes sel n ∧ compute_txid (node_tx n) = t.
Proof.
  induction 1 as [|sel cov i leaf refund chain Hc IH Hi Hr Hw]; [set_solver|].
  rewrite elem_of_union. unfold chain_txids. rewrite elem_of_list_to_set, list_elem_of_fmap.
  intros [(n & -> & Hn)|Ht].
  - exists n. split; [|done]. exists (entry_of params oc (length sel) cov i leaf refund chain), leaf, chain.
    split_and!; [set_solver|done..].
  - destruct (IH Ht) as (n & (l & lf & c & ? & ? & ? & ?) & ?). exists n. split; [|done].
    exists l, lf, c. split_and!; [set_solver|done..].
Qed.

Lemma costed_cpfp_le nodes params oc sel cov :
  0 ≤ fee_rate_sat_per_kw params → costed nodes params oc sel cov →
  Forall (λ l, 0 ≤ cpfp_cost l ≤ estimated_cost l) sel ∧ costs_nonneg sel.
Proof.
  intros Hr. unfold costs_nonneg. induction 1 as [|sel cov i leaf refund chain Hc [IH1 IH2] Hi Href Hw]; [done|].
  rewrite !Forall_app, !Forall_singleton. simpl.
  pose proof (leaf_cpfp_cost_nonneg params oc Hr cov i refund chain).
  pose proof (leaf_sweep_cost_nonneg params Hr (length sel)).
  assert (leaf_cpfp_cost params oc cov i refund chain ≤ 2 ^ 64 - 1).
  { rewrite leaf_cpfp_cost_fees, sat_sum_min by (try lia; by apply chain_fees_nonneg). lia. }
  unfold saturating_add. split_and!; try done; lia.
Qed.

(** The tree's transactions carry anchors, and the chain's reading fits the tree: a
    node labelled on-chain was found there, a node taken by its direct transaction
    has it, and a refund for it, and a branch that was stopped shares only
    confirmed nodes with the others. *)
Record exit_consistent nodes (oc : ExitChainState) : Prop := {
  ex_anchored i n : nodes !! i = Some n →
    has_anchor (node_tx n) = true ∧ ∀ r, refund_tx n = Some r → has_anchor r = true;
  ex_labels i n : nodes !! i = Some n → status n = TreeNodeStatus.OnChain → has_node oc i = true;
  ex_direct i n : nodes !! i = Some n → confirmed_directly oc i →
    is_Some (direct_tx n) ∧ ∃ d o, direct_refund_tx n = Some d ∧ head (tx_output d) = Some o;
  ex_stopped i j leaf leaf' chain chain' n :
    i ∈ stopped_leaves oc → j ∉ stopped_leaves oc →
    nodes !! i = Some leaf → nodes !! j = Some leaf' →
    walk_unilateral_exit_chain nodes leaf = Ok chain →
    walk_unilateral_exit_chain nodes leaf' = Ok chain' →
    n ∈ chain → n ∈ chain' → has_node oc (id n) = true;
}.

Lemma resolved_stopped oc ids i : i ∈ res_stopped (resolved_of oc ids) ↔ i ∈ stopped_leaves oc.
Proof. apply elem_of_list_to_set. Qed.

Lemma resolved_node_none oc ids i :
  res_nodes (resolved_of oc ids) !! i = None ↔ has_node oc i = false.
Proof.
  pose proof (restored_node oc ids i) as Hr. unfold resolved_of. cbn [res_nodes].
  destruct (walk_nodes _ !! i) as [[h|h]|]; [|destruct Hr as [Hr _]|]; rewrite Hr; done.
Qed.

Lemma resolved_buildable nodes oc ids n :
  well_keyed nodes → exit_consistent nodes oc → (∃ i, nodes !! i = Some n) →
  node_buildable (resolved_of oc ids) n.
Proof.
  intros Hk Hc [i Hi]. pose proof (Hk _ _ Hi) as <-. destruct (ex_anchored _ _ Hc _ _ Hi) as [Ha _].
  split; [done|]. intros h Hn. pose proof (restored_node oc ids (id n)) as Hr.
  unfold resolved_of in Hn. cbn [res_nodes] in Hn. rewrite Hn in Hr. destruct Hr as [_ Hd].
  by apply (ex_direct _ _ Hc _ _ Hi).
Qed.

Lemma resolved_refund_buildable nodes oc ids i leaf refund :
  exit_consistent nodes oc → nodes !! i = Some leaf → refund_tx leaf = Some refund →
  refund_buildable (resolved_of oc ids) i leaf refund.
Proof.
  intros Hc Hi Hr. destruct (ex_anchored _ _ Hc _ _ Hi) as [_ Ha]. split_and!; [done|auto|].
  intros Hd. pose proof (restored_refund oc ids i) as Hres. unfold resolved_of in Hd. cbn [res_refunds] in Hd.
  rewrite Hd in Hres. destruct Hres as (_ & Hdir & _). by apply (ex_direct _ _ Hc _ _ Hi).
Qed.

Lemma refund_to_drive_sublist oc ids i refund :
  refund_to_drive (resolved_of oc ids) i refund `sublist_of` (if has_refund oc i then [] else [refund]).
Proof.
  unfold refund_to_drive. case_decide as Hd; [apply sublist_nil_l|].
  pose proof (restored_refund oc ids i) as Hres. unfold resolved_of in Hd. cbn [res_refunds] in Hd.
  destruct (walk_refunds _ !! i); [naive_solver|]. by rewrite Hres.
Qed.

Lemma hm_collect_listing {V} (d : V) (l : list (TreeNodeId * V)) :
  NoDup l.*1 → (λ k, (k, default d (hm_collect l !! k))) <$> l.*1 = l.
Proof.
  intros Hnd. rewrite <- list_fmap_compose. etransitivity; [|apply (list_fmap_id l)].
  apply list_fmap_ext. intros k [i v] Hk. simpl. f_equal.
  rewrite (hm_collect_NoDup l i v); [done|done|]. by eapply list_elem_of_lookup_2.
Qed.

Lemma sumZ_filter_zero {A} (P : A → Prop) `{!∀ x, Decision (P x)} (f : A → Z) l :
  (∀ x, x ∈ l → ¬ P x → f x = 0) → sumZ (f <$> l) = sumZ (f <$> filter P l).
Proof.
  induction l as [|x l IH]; intros Hz; [done|]. rewrite filter_cons. csimpl.
  rewrite IH by set_solver. case_decide; csimpl; [done|]. rewrite (Hz x) by set_solver. lia.
Qed.

Lemma filter_sublist_impl {A} (P Q : A → Prop) `{!∀ x, Decision (P x), !∀ x, Decision (Q x)} l :
  (∀ x, x ∈ l → P x → Q x) → filter P l `sublist_of` filter Q l.
Proof.
  induction l as [|x l IH]; intros Hpq; [done|].
  assert (filter P l `sublist_of` filter Q l) by (apply IH; set_solver).
  destruct (decide (P x)) as [Hp|Hp].
  - rewrite !filter_cons_True by (auto using list_elem_of_here). by apply sublist_skip.
  - rewrite filter_cons_False by done. etransitivity; [done|].
    rewrite filter_cons. case_decide; [by apply sublist_cons|done].
Qed.

Lemma complete_spec oc nodes i leaf chain :
  nodes !! i = Some leaf → walk_unilateral_exit_chain nodes leaf = Ok chain →
  is_complete_on_chain oc nodes i = true →
  has_refund oc i = true ∧ ∀ n, n ∈ chain → has_node oc (id n) = true.
Proof.
  intros Hi Hw. unfold is_complete_on_chain. destruct (has_refund oc i); [|done]. simpl.
  rewrite Hi, Hw, forallb_forall. intros Hall. split; [done|]. intros n Hn. apply Hall.
  by apply list_elem_of_In.
Qed.

(** What [plan_unilateral_exit] returns, other than the plan of no leaves. *)
Lemma plan_ok nodes ids flt inputs rate dest_len oc plan :
  NoDup ids → plan_unilateral_exit nodes ids flt inputs rate dest_len oc = Ok plan →
  plan = mkPlan [] None [] nodes ∨
  ∃ first rest, inputs = first :: rest ∧
    let script := script_pubkey (witness_utxo first) in
    let params := {|
      initial_cpfp_input_weight := signed_input_weight first;
      single_cpfp_input_weight := signed_input_weight first;
      change_script_len := script_len script;
      destination_script_len := dest_len; fee_rate_sat_per_kw := rate |} in
    ∃ sel cov assigned psbt, costed nodes params oc sel cov ∧ NoDup (sl_id <$> sel) ∧
      fund_branches nodes (filter (λ l, is_complete_on_chain oc nodes (sl_id l) = false) sel)
        inputs (minimal_non_dust script) rate dest_len oc = Ok (assigned, psbt) ∧
      plan = mkPlan sel psbt
        ((λ i, (i, default [] (hm_collect assigned !! i))) <$> (sl_id <$> sel)) nodes.
Proof.
  intros Hnd. unfold plan_unilateral_exit. destruct inputs as [|first rest]; [done|].
  destruct (length ids =? 0)%nat; [intros [= <-]; by left|]. rewrite bind_Ok.
  intros (sel & He & Hrest). cbv zeta in Hrest.
  destruct (length sel =? 0)%nat; [injection Hrest as <-; by left|].
  apply bind_Ok in Hrest as ([assigned psbt] & Hf & [= <-]). right. exists first, rest. split; [done|].
  cbv zeta. pose proof (evaluated_NoDup _ _ _ _ _ _ Hnd He) as Hnds.
  apply evaluate_ok in He as (cov & Hc & _). exists sel, cov, assigned, psbt.
  split_and!; [done|done|done|]. by rewrite remove_each_lookup.
Qed.

Section run.
Context nodes oc (Hkeyed : well_keyed nodes) (Hdist : distinct_txids nodes)
  (Hcons : exit_consistent nodes oc).

(** Of what the costs charged a leaf for, the build drives no more. *)
Lemma drives_within params sel1 cov l leaf refund chain ids emitted :
  costed nodes params oc sel1 cov → is_entry nodes oc params cov l leaf refund chain →
  sl_id l ∉ stopped_leaves oc →
  (∀ l1 f n, l1 ∈ sel1 → undriven nodes (resolved_of oc ids) (sl_id l1, f) n →
     compute_txid (node_tx n) ∈ emitted) →
  (node_tx <$> to_drive (resolved_of oc ids) emitted chain) ++
    refund_to_drive (resolved_of oc ids) (sl_id l) refund
  `sublist_of` drive_txs oc cov (sl_id l) refund chain.
Proof using Hkeyed Hdist Hcons.
  intros Hc (Hi & Hr & Hw & _) Hst Hem. apply sublist_app; [|apply refund_to_drive_sublist].
  apply fmap_sublist, filter_sublist_impl. intros n Hn [Hnone Hnem].
  destruct (chain_in_map nodes _ _ _ n Hi Hw Hn) as [j Hj].
  pose proof (Hkeyed _ _ Hj) as <-. rewrite resolved_node_none in Hnone. split.
  - intros Ht. destruct (costed_covered _ _ _ _ _ _ Hc Ht) as (m & (l1 & leaf1 & chain1 & Hl1 & Hi1 & Hw1 & Hm) & Hmt).
    destruct (chain_in_map nodes _ _ _ m Hi1 Hw1 Hm) as [k Hk].
    assert (m = n) as -> by (by eapply Hdist).
    destruct (decide (sl_id l1 ∈ stopped_leaves oc)) as [Hs|Hs].
    + by rewrite (ex_stopped _ _ Hcons _ _ _ _ _ _ n Hs Hst Hi1 Hi Hw1 Hw Hm Hn) in Hnone.
    + apply Hnem, (Hem l1 [] n Hl1). split_and!; [by rewrite resolved_stopped|by rewrite resolved_node_none|].
      by exists leaf1, chain1.
  - unfold counted_on_chain. rewrite Hnone. simpl. apply bool_decide_eq_false_2. intros Hs.
    by rewrite (ex_labels _ _ Hcons _ _ Hj Hs) in Hnone.
Qed.

Lemma planned_branch_ready rate params sel cov assigned psbt first rest dest_len
    ids sel1 l sel2 emitted :
  0 ≤ rate → costed nodes params oc sel cov → NoDup (sl_id <$> sel) → sel = sel1 ++ l :: sel2 →
  branches_funded nodes oc dest_len rate first rest
    (filter (λ l, is_complete_on_chain oc nodes (sl_id l) = false) sel) assigned psbt →
  params = {| initial_cpfp_input_weight := signed_input_weight first;
      single_cpfp_input_weight := signed_input_weight first;
      change_script_len := script_len (script_pubkey (witness_utxo first));
      destination_script_len := dest_len; fee_rate_sat_per_kw := rate |} →
  (∀ l1 f n, l1 ∈ sel1 → undriven nodes (resolved_of oc ids) (sl_id l1, f) n →
     compute_txid (node_tx n) ∈ emitted) →
  branch_ready rate nodes (resolved_of oc ids) emitted
    (sl_id l, default [] (hm_collect assigned !! sl_id l)).
Proof using Hkeyed Hdist Hcons.
  intros Hr Hc Hnd Hsel (Hids & Hwf & Hfunds & _) Hpar Hem.
  destruct (costed_at nodes oc params sel cov sel1 l sel2 Hc Hsel) as (cov1 & leaf & refund & chain & Hc1 & He).
  pose proof He as (Hi & Href & Hw & _).
  assert (NoDup assigned.*1) as Hnda.
  { rewrite Hids. eapply NoDup_submseteq_l; [|exact Hnd]. by apply fmap_submseteq, sublist_submseteq, sublist_filter. }
  assert (Forall input_wf (default [] (hm_collect assigned !! sl_id l))) as Hpwf.
  { destruct (hm_collect assigned !! sl_id l) as [part|] eqn:Hp; [|constructor].
    apply hm_collect_Some in Hp. rewrite Forall_forall in Hwf. by apply (Hwf _ Hp). }
  exists leaf, refund, chain. cbn [fst snd]. split_and!; [done|done| |by apply resolved_refund_buildable with nodes|done|].
  { apply Forall_forall. intros n Hn. eapply resolved_buildable; [done|done|]. by eapply chain_in_map. }
  rewrite resolved_stopped. intros Hst.
  pose proof (drives_within params sel1 cov1 l leaf refund chain ids emitted Hc1 He Hst Hem) as Hsub.
  destruct (is_complete_on_chain oc nodes (sl_id l)) eqn:Hcomp.
  - destruct (complete_spec _ _ _ _ _ Hi Hw Hcomp) as [Hhr Hall].
    left. apply sublist_nil_r. etransitivity; [exact Hsub|]. unfold drive_txs. rewrite Hhr, app_nil_r.
    unfold to_charge. rewrite filter_none; [done|]. intros n Hn [_ Hcnt]. unfold counted_on_chain in Hcnt.
    by rewrite Hall in Hcnt.
  - destruct (Hfunds l) as (part & Hpart & Hpf).
    { apply list_elem_of_filter. split; [done|]. rewrite Hsel. set_solver. }
    rewrite (hm_collect_NoDup assigned _ _ Hnda Hpart). simpl.
    eapply pays_sublist; [done|exact Hsub|]. subst params. by eapply Hpf.
Qed.
End run.
End accepted.

Section theorem.
Context {B : Bitcoin} {BT : BitcoinTx}.

(** Nothing of the exit is on the chain, other than what pays by anchors. *)
Definition fresh_exit (oc : ExitChainState) : Prop :=
  stopped_leaves oc = [] ∧ ecs_refunds oc = [] ∧ ∀ i, ¬ confirmed_directly oc i.

Lemma build_from_branches nodes oc plan rate bound :
  0 ≤ rate → plan_tree_nodes plan = nodes →
  (∀ pre branch post emitted, per_branch_funding plan = pre ++ branch :: post →
     (∀ b n, b ∈ pre → undriven nodes (resolved_of oc (per_branch_funding plan).*1) b n →
        compute_txid (node_tx n) ∈ emitted) →
     branch_ready rate nodes (resolved_of oc (per_branch_funding plan).*1) emitted branch) →
  (∀ b, b ∈ per_branch_funding plan → 0 ≤ inputs_value b.2) →
  sumZ ((λ b, inputs_value b.2) <$> per_branch_funding plan) +
    fresh_fan_out_fee plan (fan_out_exit_tx <$> fan_out_psbt plan) ≤ bound →
  0 ≤ fresh_fan_out_fee plan (fan_out_exit_tx <$> fan_out_psbt plan) → bound < 2 ^ 64 →
  ∃ b, build_unilateral_exit plan oc rate = Ok b ∧
    eb_leaf_id <$> branches b = (per_branch_funding plan).*1 ∧
    cpfp_fee_sat b + change_value (cpfp_change_inputs b) + fanout_fee_sat b ≤ bound ∧
    (fresh_exit oc → cpfp_fee_sat b + change_value (cpfp_change_inputs b) =
       sumZ ((λ b, inputs_value b.2) <$> per_branch_funding plan)).
Proof.
  intros Hr Hn Hready Hnn Hsum Hfo Hb.
  destruct (build_branches_run rate Hr nodes (resolved_of oc (per_branch_funding plan).*1)
    (etx_txid <$> (fan_out_exit_tx <$> fan_out_psbt plan)) (per_branch_funding plan) Hready Hnn ltac:(lia))
    as (bu & Hrun & Hids & Hle & Heq).
  unfold build_unilateral_exit, build_exit. rewrite Hn.
  change (ci_resolved (interpret_chain plan oc)) with (resolved_of oc (per_branch_funding plan).*1).
  rewrite Hrun. cbn [mbind result_bind]. eexists. split; [done|].
  cbn [flag_unverified_txs branches cpfp_fee_sat cpfp_change_inputs fanout_fee_sat]. split_and!.
  - rewrite <- list_fmap_compose. exact Hids.
  - lia.
  - intros (Hst & Href & Hdir). apply Heq. intros b _. split; [rewrite resolved_stopped, Hst; set_solver|].
    pose proof (restored_refund oc (per_branch_funding plan).*1 b.1) as Hres.
    unfold resolved_of. cbn [res_refunds].
    destruct (walk_refunds _ !! b.1) as [[| |]|]; [..|done].
    + apply has_refund_spec in Hres. rewrite Href in Hres. by apply elem_of_nil in Hres.
    + destruct Hres as (_ & Hd & _). by destruct (Hdir b.1).
    + apply has_refund_spec in Hres. rewrite Href in Hres. by apply elem_of_nil in Hres.
Qed.

Lemma fan_out_fee_nonneg plan f : 0 ≤ fresh_fan_out_fee plan f.
Proof.
  unfold fresh_fan_out_fee. destruct (fan_out_psbt plan), f as [f|]; try done.
  destruct (to_sign f); [|done]. unfold saturating_sub. lia.
Qed.

Section plan.
Context nodes oc (Hkeyed : well_keyed nodes) (Hdist : distinct_txids nodes)
  (Hcons : exit_consistent nodes oc).
Context (rate : Z) (Hrate : 0 ≤ rate) (dest_len : Z) (first : CpfpInput) (rest : list CpfpInput).
Local Abbreviation inputs := (first :: rest).
Local Abbreviation script := (script_pubkey (witness_utxo first)).
Local Abbreviation params := {|
  initial_cpfp_input_weight := signed_input_weight first;
  single_cpfp_input_weight := signed_input_weight first;
  change_script_len := script_len script;
  destination_script_len := dest_len;
  fee_rate_sat_per_kw := rate |}.
Context (Hwf : funding_wf inputs) (Hfit : weights_fit nodes inputs)
  (Hval : inputs_value inputs < 2 ^ 64 - 1).
Context sel cov (Hcost : costed nodes params oc sel cov) (Hnd : NoDup (sl_id <$> sel)).
Local Abbreviation to_build :=
  (filter (λ l, is_complete_on_chain oc nodes (sl_id l) = false) sel).
Context assigned psbt
  (Hfund : fund_branches nodes to_build inputs (minimal_non_dust script) rate dest_len oc =
             Ok (assigned, psbt)).

Lemma planned_funded : branches_funded nodes oc dest_len rate first rest to_build assigned psbt.
Proof using Hrate Hwf Hfit Hval Hcost Hnd Hfund.
  pose proof (costed_cpfp_le nodes params oc sel cov Hrate Hcost) as [Hle Hnn].
  assert (to_build `sublist_of` sel) as Hsub by apply sublist_filter.
  eapply fund_branches_ok; try done.
  - by eapply NoDup_fmap_sublist.
  - by eapply Forall_sublist.
  - by eapply Forall_sublist.
  - intros l Hl. eapply elem_of_sublist in Hl; [|exact Hsub].
    apply list_elem_of_split in Hl as (sel1 & sel2 & Hsel).
    destruct (costed_at _ _ _ _ _ _ _ _ Hcost Hsel) as (? & ? & ? & ? & _ & ?). eauto.
Qed.

Lemma assigned_NoDup : NoDup assigned.*1.
Proof using Hrate Hwf Hfit Hval Hcost Hnd Hfund.
  destruct planned_funded as (-> & _). eapply NoDup_fmap_sublist; [|exact Hnd]. apply sublist_filter.
Qed.

Definition planned_part (l : UnilateralExitSelectedLeaf) : TreeNodeId * list CpfpInput :=
  (sl_id l, default [] (hm_collect assigned !! sl_id l)).

Lemma planned_part_nonneg l : 0 ≤ inputs_value (planned_part l).2.
Proof using Hrate Hwf Hfit Hval Hcost Hnd Hfund.
  apply inputs_value_range. unfold planned_part. simpl.
  destruct (hm_collect assigned !! sl_id l) as [p|] eqn:Hp; [|constructor].
  apply hm_collect_Some in Hp. destruct planned_funded as (_ & Hpw & _).
  rewrite Forall_forall in Hpw. by apply (Hpw _ Hp).
Qed.

(** The branches with nothing to build have no part. *)
Lemma planned_total :
  sumZ ((λ b, inputs_value b.2) <$> (planned_part <$> sel)) = sumZ ((λ b, inputs_value b.2) <$> assigned).
Proof using Hrate Hwf Hfit Hval Hcost Hnd Hfund.
  rewrite <- list_fmap_compose.
  rewrite (sumZ_filter_zero (λ l, is_complete_on_chain oc nodes (sl_id l) = false)).
  - pose proof (hm_collect_listing [] assigned assigned_NoDup) as Hl.
    destruct planned_funded as (Hids & _). rewrite Hids in Hl.
    apply (f_equal (λ l, sumZ ((λ b, inputs_value b.2) <$> l))) in Hl. rewrite <- Hl.
    by rewrite <- !list_fmap_compose.
  - intros l Hl Hcomp. unfold planned_part. simpl.
    assert (hm_collect assigned !! sl_id l = None) as ->; [|done].
    apply hm_collect_None. destruct planned_funded as (-> & _).
    intros (l' & Heq & [Hl'c Hl']%list_elem_of_filter)%list_elem_of_fmap.
    by rewrite (NoDup_fmap_inj sl_id sel l l') in Hcomp.
Qed.

Lemma planned_ready ids pre branch post emitted :
  planned_part <$> sel = pre ++ branch :: post →
  (∀ b n, b ∈ pre → undriven nodes (resolved_of oc ids) b n → compute_txid (node_tx n) ∈ emitted) →
  branch_ready rate nodes (resolved_of oc ids) emitted branch.
Proof using Hkeyed Hdist Hcons Hrate Hwf Hfit Hval Hcost Hnd Hfund.
  intros Hsel Hem. apply fmap_app_inv in Hsel as (sel1 & selr & -> & Hr & Hsel).
  destruct selr as [|l sel2]; [done|]. injection Hr as -> ->.
  eapply (planned_branch_ready nodes oc Hkeyed Hdist Hcons rate params sel cov assigned psbt first rest
    dest_len ids sel1 l sel2); try done; [apply planned_funded|].
  intros l1 f n Hl1 (Hst & Hnone & Hin). apply (Hem (planned_part l1)); [by apply list_elem_of_fmap_2|].
  by split_and!.
Qed.
End plan.

(** C2: An exit that was accepted for planning can be built, when the chain's
    reading fits the tree: every node the operators label on-chain was found on the
    chain ([labelled_node_is_underfunded] is an accepted plan that fails to build
    without it), a node or refund confirmed by its direct transaction has that
    transaction in the tree, stopped branches share only confirmed nodes with the
    others, and the node and refund transactions have their anchors
    ([exit_consistent]). Then, for a tree whose nodes have distinct transactions,
    distinct leaf ids, and funding inputs of 64-bit values that stay clear of the
    [u64] limits: whenever [plan_unilateral_exit] returns a plan,
    [build_unilateral_exit] returns an exit, at the same fee rate and from the same
    chain state, with one branch per selected leaf. It does so within the money it
    was given: the CPFP fees, the change left for the sweep and the fan-out's fee
    come out of the inputs, and for a leaf set of which nothing went out by a
    self-fee transaction no satoshi of a branch's funding is lost. *)
Theorem accepted_plan_builds nodes ids flt inputs rate dest_len oc plan :
  well_keyed nodes → distinct_txids nodes → exit_consistent nodes oc →
  NoDup ids → funding_wf inputs → weights_fit nodes inputs → inputs_value inputs < 2 ^ 64 - 1 →
  0 ≤ rate →
  plan_unilateral_exit nodes ids flt inputs rate dest_len oc = Ok plan →
  ∃ b, build_unilateral_exit plan oc rate = Ok b ∧
    eb_leaf_id <$> branches b = sl_id <$> plan_selected_leaves plan ∧
    cpfp_fee_sat b + change_value (cpfp_change_inputs b) + fanout_fee_sat b ≤ inputs_value inputs ∧
    (fresh_exit oc → cpfp_fee_sat b + change_value (cpfp_change_inputs b) =
       sumZ ((λ b, inputs_value b.2) <$> per_branch_funding plan)).
Proof.
  intros Hk Hd Hc Hnd Hwf Hfit Hval Hr Hplan.
  apply plan_ok in Hplan as [->|(first & rest & -> & sel & cov & assigned & psbt & Hcost & Hnds & Hfund & ->)];
    [| |done].
  { pose proof (inputs_value_range _ (funding_wf_wf _ Hwf)) as [? _].
    apply (build_from_branches nodes oc (mkPlan [] None [] nodes) rate _ Hr eq_refl); try done.
    - by intros [].
    - by intros ? ?%elem_of_nil.
    - lia. }
  set (plan := mkPlan _ _ _ _).
  assert (per_branch_funding plan = planned_part assigned <$> sel) as Hpb
    by (simpl; by rewrite <- list_fmap_compose).
  assert ((per_branch_funding plan).*1 = sl_id <$> sel) as Hids
    by (rewrite Hpb, <- list_fmap_compose; done).
  cbn [plan_selected_leaves plan]. rewrite <- Hids.
  apply (build_from_branches nodes oc plan rate _ Hr eq_refl); [| | |apply fan_out_fee_nonneg|lia].
  - intros pre branch post emitted. rewrite Hpb at 1. by eapply planned_ready.
  - intros b. rewrite Hpb. intros (l & -> & _)%list_elem_of_fmap. by eapply planned_part_nonneg.
  - rewrite Hpb. erewrite planned_total by done.
    by destruct (planned_funded nodes oc rate Hr dest_len first rest Hwf Hfit Hval sel cov Hcost Hnds
      assigned psbt Hfund) as (_ & _ & _ & ?).
Qed.
End theorem.

(** ** Witnesses *)

#[local] Existing Instances btc68 btctx68.

Definition node_txs (n : TreeNode) : list Transaction := node_tx n :: option_list (refund_tx n).

Lemma node_txs_elem n tx : tx = node_tx n ∨ refund_tx n = Some tx → tx ∈ node_txs n.
Proof. unfold node_txs. intros [->|Hr]; [left|]. rewrite Hr. right. by left. Qed.

Lemma sample_consistent : exit_consistent (sample_tree TreeNodeStatus.Available) ExitChainState_default.
Proof.
  split.
  - intros i n Hn. assert (forallb has_anchor (node_txs n) = true) as Ha.
    { apply (sample_forallb (λ n, forallb has_anchor (node_txs n))) in Hn; [done|].
      vm_compute. reflexivity. }
    rewrite forallb_forall in Ha. split; [apply Ha; by left|]. intros r Hr.
    apply Ha, list_elem_of_In, node_txs_elem. auto.
  - intros i n Hn Hs. exfalso.
    apply (sample_forallb (λ n, bool_decide (status n ≠ TreeNodeStatus.OnChain))) in Hn;
      [by apply bool_decide_eq_true in Hn|vm_compute; reflexivity].
  - intros i n _ (x & ?%elem_of_nil & _). done.
  - intros i j leaf leaf' chain chain' n ?%elem_of_nil. done.
Qed.

Lemma sample_weights_fit : weights_fit (sample_tree TreeNodeStatus.Available) sample_funding.
Proof.
  intros tx i (j & n & Hn & Htx) ->%list_elem_of_singleton.
  apply (sample_forallb (λ n, forallb (λ tx, tx_weight tx + 272 + child_overhead 22 <? 2 ^ 64)
    (node_txs n))) in Hn; [|vm_compute; reflexivity].
  rewrite forallb_forall in Hn. apply Z.ltb_lt, Hn, list_elem_of_In. by apply node_txs_elem.
Qed.

Example accepted_plan_builds_witness :
  ∃ b, build_unilateral_exit sample_plan ExitChainState_default sample_rate = Ok b ∧
    eb_leaf_id <$> branches b = ["b"; "a"]%string.
Proof.
  destruct (accepted_plan_builds (sample_tree TreeNodeStatus.Available) ["a"; "b"]%string All
    sample_funding sample_rate 34 ExitChainState_default sample_plan) as (b & Hb & Hids & _).
  - apply sample_keyed.
  - apply sample_distinct.
  - apply sample_consistent.
  - apply (bool_decide_unpack _). vm_compute. exact I.
  - repeat constructor; vm_compute; congruence.
  - apply sample_weights_fit.
  - vm_compute. reflexivity.
  - vm_compute. congruence.
  - apply ok_else_Ok. vm_compute. reflexivity.
  - exists b. split; [exact Hb|]. rewrite Hids. vm_compute. reflexivity.
Defined.

(** A node the operators label on-chain while the chain does not have it (its
    block was reorganised out, or the operators are wrong) is left out of what an
    exit is charged, but is driven when the exit is built: funding that the plan
    accepts for it, and refuses without the label, is not enough to build. *)
Theorem labelled_node_is_underfunded :
  ∃ plan,
    sample_plan_of TreeNodeStatus.OnChain [funding_of 2700] ["a"%string] = Ok plan ∧
    sample_plan_of TreeNodeStatus.Available [funding_of 2700] ["a"%string] =
      Err (ServiceError.InsufficientCpfpBudget 3376) ∧
    build_unilateral_exit plan ExitChainState_default sample_rate =
      Err (SparkWalletError.ServiceError (ServiceError.InsufficientCpfpBudget 1280)).
Proof.
  exists (ok_else no_plan (sample_plan_of TreeNodeStatus.OnChain [funding_of 2700] ["a"%string])).
  split_and!; [apply ok_else_Ok|apply err_of_Err|apply err_of_Err]; vm_compute; reflexivity.
Qed.

(** ** The greedy assignment is not complete *)

Definition sample_inputs : list CpfpInput :=
  imap (λ k v, mkCpfpInput (mkOutPoint (Pos.of_succ_nat k) 0) (mkTxOut v sample_script) 272)
    [900; 600; 500].
Definition sample_leaves : list UnilateralExitSelectedLeaf :=
  [mkSelectedLeaf "a" 5000 700 400; mkSelectedLeaf "b" 4000 600 300].

(** [assign_inputs_to_leaves] can return [None], which sends the exit through a
    fan-out with a fee of its own, although the inputs can be split: for branches
    that need 1,000 and 900 sats, inputs of 900, 600 and 500 sats are not assigned,
    while 600 and 500 together and 900 alone would do. *)
Theorem greedy_misses_a_partition :
  assign_inputs_to_leaves sample_inputs sample_leaves 300 = None ∧
  ∃ parts, concat parts ≡ₚ sample_inputs ∧ Forall2 (funds 300) sample_leaves parts.
Proof.
  split; [reflexivity|].
  exists [drop 1 sample_inputs; take 1 sample_inputs]. split.
  - simpl. apply (Permutation_app_comm [_; _] [_]).
  - repeat constructor; vm_compute; congruence.
Qed.
