(* ===== verification/ExitBuildOrder.v ===== *)
(** * What a built unilateral exit looks like

    The transactions of an exit can be broadcast in the order they are listed: each
    depends on the fan-out or on transactions before it, a shared ancestor is there
    once, and each child spends the anchor of the transaction it pays for. The refund
    outputs and change inputs a build reports are those of the refunds it lists. *)

From S2P Require Import Prelude Bitcoin BitcoinTx TreeModel SparkTx ExitPlan ExitPlanSpec.
From S2P Require Import ExitFundingSpec ExitSample ExitScan ExitBuild ExitBuildSpec.

Section order.
Context {B : Bitcoin} {BT : BitcoinTx}.
Implicit Types txs : list ExitTx.

(** The PSBT spends an anchor output of [tx]. *)
Definition spends_anchor (psbt : Psbt Transaction ScriptBuf) (tx : Transaction) : Prop :=
  ∃ k o, tx_output tx !! k = Some o ∧ is_ephemeral_anchor_output o = true ∧
    mkOutPoint (compute_txid tx) (wrap 32 (Z.of_nat k)) ∈
      previous_output <$> tx_input (unsigned_tx psbt).

Definition is_confirmed (s : ExitTxStatus.t) : bool :=
  match s with ExitTxStatus.Confirmed _ => true | _ => false end.

(** One transaction of a branch. *)
Definition exit_tx_wf (t : ExitTx) : Prop :=
  kind t ≠ ExitTxKind.FanOut ∧ is_Some (node_id t) ∧
  etx_txid t = compute_txid (base_tx t) ∧ csv_timelock_blocks t = csv_timelock (base_tx t) ∧
  ∀ psbt, to_sign t = Some psbt → is_confirmed (etx_status t) = false ∧ spends_anchor psbt (base_tx t).

(** Every dependency is known, or is listed before. *)
Fixpoint ordered (known : list Txid) txs : Prop :=
  match txs with
  | [] => True
  | t :: txs => depends_on t ⊆ known ∧ ordered (etx_txid t :: known) txs
  end.

Definition is_node (t : ExitTx) : bool := match kind t with ExitTxKind.Node => true | _ => false end.
Definition node_txids txs : list Txid := etx_txid <$> filter (λ t, is_node t = true) txs.

(** The first transaction of a branch with a child to sign. *)
Definition first_child txs : option ExitTx := head (filter (λ t, is_Some (to_sign t)) txs).

(** ** Lemmas *)

Lemma ordered_app known txs txs' :
  ordered known (txs ++ txs') ↔ ordered known txs ∧ ordered (reverse (etx_txid <$> txs) ++ known) txs'.
Proof.
  revert known. induction txs as [|t txs IH]; intros known; csimpl; [naive_solver|].
  rewrite IH, reverse_cons, <- app_assoc. simpl. tauto.
Qed.

Lemma ordered_snoc known txs t :
  ordered known txs → (∀ d, d ∈ depends_on t → d ∈ known ∨ d ∈ etx_txid <$> txs) →
  ordered known (txs ++ [t]).
Proof.
  intros Ho Hd. rewrite ordered_app. split; [done|]. split; [|done]. intros d Hin.
  rewrite elem_of_app, elem_of_reverse. specialize (Hd d Hin). tauto.
Qed.

Lemma first_child_app txs txs' :
  first_child (txs ++ txs') = match first_child txs with Some t => Some t | None => first_child txs' end.
Proof. unfold first_child. rewrite filter_app. by destruct (filter _ txs). Qed.

Lemma node_txids_snoc txs t :
  node_txids (txs ++ [t]) = node_txids txs ++ (if is_node t then [etx_txid t] else []).
Proof.
  unfold node_txids. rewrite filter_app, fmap_app, filter_cons. f_equal.
  destruct (is_node t); [by rewrite decide_True|by rewrite decide_False].
Qed.

Lemma node_txids_elem txs d : d ∈ node_txids txs → d ∈ etx_txid <$> txs.
Proof.
  unfold node_txids. intros (t & -> & [_ Ht]%list_elem_of_filter)%list_elem_of_fmap.
  by apply list_elem_of_fmap_2.
Qed.

Lemma build_cpfp_child_anchor tx funding rate child :
  build_cpfp_child tx funding rate = Ok child → spends_anchor (child_psbt child) tx.
Proof.
  unfold build_cpfp_child. destruct (find_anchor 0 (tx_output tx)) as [[k o]|] eqn:Hk; [|done].
  apply find_anchor_lookup in Hk as (_ & Hk & Ho). rewrite Nat.sub_0_r in Hk. simpl.
  destruct funding as [|first rest]; [done|]. case_match; [done|]. rewrite from_unsigned_make.
  intros [= <-]. exists k, o. split_and!; [done|done|]. cbn [child_psbt with_witness_utxos unsigned_tx].
  rewrite tx_input_make. rewrite app_comm_cons, fmap_app. apply elem_of_app. right. csimpl. left.
Qed.

(** ** The loops keep it so

    [before] holds the transactions of the branches already built, [fo] the
    fan-out's txid. *)

Section invariant.
Context (fo : option Txid) (rate : Z) (resolved : ResolvedExitState).

Definition listed (before : list ExitTx) (st : BranchState) : list ExitTx := before ++ bs_txs st.

Record branch_inv (before : list ExitTx) (st : BranchState) : Prop := {
  bi_emitted d : d ∈ bs_emitted st ↔ d ∈ node_txids (listed before st);
  bi_once : NoDup (node_txids (listed before st));
  bi_ordered : ordered (option_list fo) (listed before st);
  bi_prev d : bs_prev_txid st = Some d → d ∈ bs_emitted st;
  bi_leaf d : bs_leaf_node_txid st = Some d → d ∈ bs_emitted st;
  bi_wf : Forall exit_tx_wf (listed before st);
  bi_child : match first_child (bs_txs st) with
             | None => bs_fan_out_dep st = fo
             | Some t => option_list fo ⊆ depends_on t
             end;
  bi_dep d : bs_fan_out_dep st = Some d → fo = Some d;
}.

(** Listing one more transaction. *)
Lemma branch_inv_snoc before st t st' :
  branch_inv before st → bs_txs st' = bs_txs st ++ [t] → exit_tx_wf t → is_node t = true →
  etx_txid t ∉ bs_emitted st → bs_emitted st' = {[etx_txid t]} ∪ bs_emitted st →
  (∀ d, d ∈ depends_on t → d ∈ bs_emitted st ∨ fo = Some d) →
  (∀ d, bs_prev_txid st' = Some d → d ∈ bs_emitted st') →
  (∀ d, bs_leaf_node_txid st' = Some d → d ∈ bs_emitted st') →
  match to_sign t with
  | None => bs_fan_out_dep st' = bs_fan_out_dep st
  | Some _ => bs_fan_out_dep st' = None ∧ option_list (bs_fan_out_dep st) ⊆ depends_on t
  end →
  branch_inv before st'.
Proof.
  intros [Hem Hon Hor Hpr Hle Hwf Hch Hdp] Htxs Ht Hn Hnew Hemit Hdep Hpr' Hle' Hsign.
  unfold listed in *.
  split; unfold listed; rewrite ?Htxs, ?app_assoc, ?node_txids_snoc, ?Hn.
  - intros d. rewrite Hemit, elem_of_union, Hem, elem_of_app, list_elem_of_singleton, elem_of_singleton. tauto.
  - apply NoDup_app. split_and!; [done| |apply NoDup_singleton]. intros d Hd ->%list_elem_of_singleton.
    by apply Hnew, Hem.
  - apply ordered_snoc; [done|]. intros d Hd. destruct (Hdep d Hd) as [Hd'|Hd'].
    + right. by apply node_txids_elem, Hem.
    + left. rewrite Hd'. left.
  - done.
  - done.
  - apply Forall_app. split; [done|]. by apply Forall_singleton.
  - rewrite first_child_app. destruct (first_child (bs_txs st)) as [c|] eqn:Hc; [done|].
    unfold first_child. rewrite filter_cons. destruct (to_sign t) as [psbt|] eqn:Hs.
    + rewrite decide_True by by eexists. simpl. destruct Hsign as [_ Hsub]. by rewrite Hch in Hsub.
    + rewrite decide_False by by intros [? ?]. simpl. congruence.
  - intros d. destruct (to_sign t); [destruct Hsign as [-> _]; done|rewrite Hsign; auto].
Qed.

(** A node that is there already. *)
Lemma branch_inv_skip before st prev leaf :
  branch_inv before st → (∀ d, prev = Some d → d ∈ bs_emitted st) →
  (∀ d, leaf = Some d → d ∈ bs_emitted st) →
  branch_inv before (mkBranchState (bs_funding st) (bs_txs st) (bs_fan_out_dep st) prev leaf
    (bs_emitted st) (bs_cpfp_fee_sat st)).
Proof. intros [] ? ?. by split. Qed.

Lemma build_node_inv leaf_id before st n st' :
  branch_inv before st → build_node resolved leaf_id rate st n = Ok st' → branch_inv before st'.
Proof.
  intros Hinv. unfold build_node. rewrite bind_Ok. intros (tx & Htx & Hrest).
  set (leaf := if decide (id n = leaf_id) then _ else _) in Hrest.
  assert (∀ e, bs_emitted st ⊆ e → compute_txid tx ∈ e → ∀ d, leaf = Some d → d ∈ e) as Hleaf.
  { intros e He Hin d. unfold leaf. destruct (decide (id n = leaf_id)); [by intros [= <-]|]. intros Hd. by apply He, (bi_leaf _ _ Hinv). }
  case_decide as Hem.
  { injection Hrest as <-. apply branch_inv_skip; [done|by intros d [= <-]|by apply Hleaf]. }
  apply bind_Ok in Hrest as ([[sign funding] fee] & Hchild & [= <-]).
  assert (match res_nodes resolved !! id n with
    | Some _ => sign = None
    | None => ∃ child, sign = Some (child_psbt child) ∧ spends_anchor (child_psbt child) tx end) as Hsign.
  { destruct (res_nodes resolved !! id n) as [s|]; [by injection Hchild as <- _ _|].
    injection Htx as <-. apply bind_Ok in Hchild as (child & Hc & [= <- _ _]). exists child. split; [done|].
    destruct (build_cpfp_child _ _ _) as [c|] eqn:Hb; [|done]. injection Hc as ->.
    by eapply build_cpfp_child_anchor. }
  clear Hchild. eapply branch_inv_snoc; [done|done| |done|exact Hem|done| | | |].
  - split_and!; [done|by eexists|done|done|]. cbn [to_sign etx_status base_tx]. intros psbt ->.
    destruct (res_nodes resolved !! id n) as [s|]; [done|]. destruct Hsign as (c & [= ->] & ?). done.
  - cbn [depends_on]. intros d [Hd|Hd]%elem_of_app.
    + left. destruct (bs_prev_txid st) as [x|] eqn:Hx; [|by apply elem_of_nil in Hd].
      apply list_elem_of_singleton in Hd as ->. by apply (bi_prev _ _ Hinv).
    + right. apply (bi_dep _ _ Hinv). destruct sign; [|by apply elem_of_nil in Hd].
      destruct (bs_fan_out_dep st); [|by apply elem_of_nil in Hd]. by apply list_elem_of_singleton in Hd as ->.
  - cbn [bs_prev_txid bs_emitted etx_txid]. intros d [= <-]. set_solver.
  - cbn [bs_leaf_node_txid bs_emitted etx_txid]. apply Hleaf; set_solver.
  - cbn [to_sign bs_fan_out_dep depends_on]. destruct sign; [|done]. split; [done|]. set_solver.
Qed.

Lemma build_nodes_inv leaf_id before ns st st' :
  branch_inv before st → foldlR (build_node resolved leaf_id rate) st ns = Ok st' → branch_inv before st'.
Proof.
  revert st. induction ns as [|n ns IH]; intros st Hinv; simpl; [by intros [= <-]|].
  rewrite bind_Ok. intros (st1 & H1 & H2). eapply IH; [|exact H2]. by eapply build_node_inv.
Qed.

(** An adopted refund is recorded with its own txid. *)
Definition adopted_own : Prop :=
  ∀ i r, res_refunds resolved !! i = Some (Adopted r) → txid (cr_outpoint r) = compute_txid (cr_tx r).

Context (Hadopted : adopted_own).

Lemma build_refund_txs leaf_id leaf st rs :
  build_refund resolved leaf_id leaf rate st = Ok rs →
  Forall (λ t, exit_tx_wf t ∧ is_node t = false ∧
    (∀ d, d ∈ depends_on t → bs_leaf_node_txid st = Some d ∨ bs_fan_out_dep st = Some d) ∧
    (is_Some (to_sign t) → option_list (bs_fan_out_dep st) ⊆ depends_on t)) (rs_txs rs) ∧
  (length (rs_txs rs) ≤ 1)%nat.
Proof using Hadopted.
  intros Hb. unfold build_refund in Hb.
  assert (∀ (o : option Txid) d, d ∈ option_list o → o = Some d) as Hol.
  { intros [x|] d; [intros ->%list_elem_of_singleton; done|by intros ?%elem_of_nil]. }
  destruct (res_refunds resolved !! leaf_id) as [[r| |]|] eqn:Hr.
  - injection Hb as <-. split; [|done]. apply Forall_singleton. split_and!; [|done|by intros ? ?%elem_of_nil|by intros [? ?]].
    split_and!; [done|by eexists|by eapply Hadopted|done|done].
  - apply bind_Ok in Hb as (d & Hd & Hb). apply bind_Ok in Hb as (v & _ & [= <-]). split; [|done].
    apply Forall_singleton. split_and!; [|done|intros x ?%Hol; auto|by intros [? ?]].
    split_and!; [done|by eexists|done|done|done].
  - injection Hb as <-. cbn [rs_txs]. split; [constructor|simpl; lia].
  - case_decide; [injection Hb as <-; cbn [rs_txs]; split; [constructor|simpl; lia]|].
    apply bind_Ok in Hb as (tx & _ & Hb). apply bind_Ok in Hb as (v & _ & Hb).
    apply bind_Ok in Hb as (child & Hc & [= <-]). split; [|done].
    destruct (build_cpfp_child tx (bs_funding st) rate) as [c|] eqn:Hchild; [|done]. injection Hc as ->.
    apply Forall_singleton. split_and!; [|done| |cbn [depends_on]; set_solver].
    + split_and!; [done|by eexists|done|done|]. cbn [to_sign base_tx etx_status]. intros psbt [= <-].
      split; [done|]. by eapply build_cpfp_child_anchor.
    + cbn [depends_on]. intros d [Hd|Hd]%elem_of_app; auto.
Qed.

Definition all_txs (bs : list ExitBranch) : list ExitTx := concat (eb_txs <$> bs).

Record build_inv (bu : BuildState) : Prop := {
  bv_emitted d : d ∈ bu_emitted bu ↔ d ∈ node_txids (all_txs (bu_branches bu));
  bv_once : NoDup (node_txids (all_txs (bu_branches bu)));
  bv_ordered : ordered (option_list fo) (all_txs (bu_branches bu));
  bv_wf : Forall exit_tx_wf (all_txs (bu_branches bu));
  bv_child : Forall (λ b, ∀ t, first_child (eb_txs b) = Some t → option_list fo ⊆ depends_on t)
               (bu_branches bu);
}.

Lemma build_branch_inv nodes bu branch bu' :
  build_inv bu → build_branch nodes resolved fo rate bu branch = Ok bu' → build_inv bu'.
Proof using Hadopted.
  intros [Hem Hon Hor Hwf Hch]. destruct branch as [i funding]. unfold build_branch.
  rewrite bind_Ok. intros (leaf & _ & Hb). apply bind_Ok in Hb as (chain & _ & Hb).
  apply bind_Ok in Hb as (st & Hst & Hb). apply bind_Ok in Hb as (rs & Hrs & [= <-]).
  assert (branch_inv (all_txs (bu_branches bu)) st) as [Hem' Hon' Hor' _ Hle' Hwf' Hch' Hdp'].
  { assert (branch_inv (all_txs (bu_branches bu)) (mkBranchState funding [] fo None None (bu_emitted bu)
      (bu_cpfp_fee_sat bu))) as Hinit.
    { split; unfold listed; cbn [bs_txs]; rewrite ?app_nil_r; done. }
    case_decide; [by injection Hst as <-|]. by eapply build_nodes_inv. }
  apply build_refund_txs in Hrs as [Hrs Hlen].
  assert (all_txs (bu_branches bu ++ [mkBranch i (bs_txs st ++ rs_txs rs)]) =
    listed (all_txs (bu_branches bu)) st ++ rs_txs rs) as Hall.
  { unfold all_txs, listed. rewrite fmap_app, concat_app. csimpl. by rewrite app_nil_r, app_assoc. }
  assert (node_txids (listed (all_txs (bu_branches bu)) st ++ rs_txs rs) =
    node_txids (listed (all_txs (bu_branches bu)) st)) as Hnode.
  { destruct (rs_txs rs) as [|t [|? ?]]; [by rewrite app_nil_r| |simpl in Hlen; lia].
    apply Forall_singleton in Hrs as (_ & Hn & _). by rewrite node_txids_snoc, Hn, app_nil_r. }
  split; cbn [bu_branches bu_emitted]; rewrite ?Hall, ?Hnode; [done|done| | |].
  - destruct (rs_txs rs) as [|t [|? ?]]; [by rewrite app_nil_r| |simpl in Hlen; lia].
    apply ordered_snoc; [done|]. apply Forall_singleton in Hrs as (_ & _ & Hd & _). intros d Hin.
    destruct (Hd d Hin) as [Hd'|Hd'].
    + right. apply node_txids_elem, Hem'. auto.
    + left. rewrite (Hdp' _ Hd'). by apply list_elem_of_singleton.
  - apply Forall_app. split; [done|]. eapply Forall_impl; [exact Hrs|]. by intros t [? _].
  - apply Forall_app. split; [done|]. apply Forall_singleton. cbn [eb_txs]. intros t.
    rewrite first_child_app. destruct (first_child (bs_txs st)) as [c|]; [by intros [= <-]|].
    rewrite <- Hch'. unfold first_child. intros Ht%head_Some_elem_of%list_elem_of_filter.
    destruct Ht as [Hs Ht]. rewrite Forall_forall in Hrs. by apply (Hrs t Ht).
Qed.

Lemma build_branches_inv nodes branches bu bu' :
  build_inv bu → foldlR (build_branch nodes resolved fo rate) bu branches = Ok bu' → build_inv bu'.
Proof using Hadopted.
  revert bu. induction branches as [|b branches IH]; intros bu Hinv; simpl; [by intros [= <-]|].
  rewrite bind_Ok. intros (bu1 & H1 & H2). eapply IH; [|exact H2]. by eapply build_branch_inv.
Qed.
End invariant.

Lemma resolved_adopted oc ids : adopted_own (resolved_of oc ids).
Proof.
  intros i r Hr. by apply (restored_adopted oc ids i).
Qed.

(** ** Refund outputs and change inputs *)

Definition is_refund (t : ExitTx) : bool :=
  match kind t with ExitTxKind.Refund => true | _ => false end.

(** The outpoint and value [o] are where the refund [t] pays: what the chain state
    records when it is confirmed, the first output of the leaf's own refund otherwise. *)
Definition pays_out (nodes : gmap TreeNodeId TreeNode) (oc : ExitChainState) (t : ExitTx)
    (o : RefundOutput) : Prop :=
  node_id t = Some (ro_leaf_id o) ∧ txid (ro_outpoint o) = etx_txid t ∧
  if is_confirmed (etx_status t) then
    ∃ er h, er ∈ ecs_refunds oc ∧ er_leaf_id er = ro_leaf_id o ∧
      er_state er = OnChain (base_tx t) (op_vout (ro_outpoint o)) (ro_value o) h
  else
    op_vout (ro_outpoint o) = 0 ∧ txout_value <$> head (tx_output (base_tx t)) = Some (ro_value o) ∧
    ∃ leaf, nodes !! ro_leaf_id o = Some leaf ∧
      match to_sign t with Some _ => refund_tx leaf | None => direct_refund_tx leaf end = Some (base_tx t).

(** [t] has a child, made with one output, and the change input [c] is that output. *)
Definition returns_change (t : ExitTx) (c : CpfpChangeInput) : Prop :=
  ∃ psbt ins, to_sign t = Some psbt ∧ unsigned_tx psbt = make_tx 3 ins [cci_witness_utxo c] ∧
    cci_outpoint c = mkOutPoint (compute_txid (unsigned_tx psbt)) 0.

(** A branch has one refund, the last of its transactions, unless its exit has
    stopped or its refund is swept. *)
Definition one_refund (oc : ExitChainState) (br : ExitBranch) : Prop :=
  ∃ before refunds, eb_txs br = before ++ refunds ∧ Forall (λ t, is_refund t = false) before ∧
    match refunds with
    | [] => eb_leaf_id br ∈ stopped_leaves oc ∨
        ∃ er, er ∈ ecs_refunds oc ∧ er_leaf_id er = eb_leaf_id br ∧ er_state er = Swept
    | [t] => is_refund t = true ∧ node_id t = Some (eb_leaf_id br)
    | _ => False
    end.

Definition refunds_of txs : list ExitTx := filter (λ t, is_refund t = true) txs.
Definition with_child txs : list ExitTx := filter (λ t, is_Some (to_sign t)) txs.

Lemma build_cpfp_child_change tx funding rate child :
  build_cpfp_child tx funding rate = Ok child →
  (∃ ins, unsigned_tx (child_psbt child) = make_tx 3 ins [witness_utxo (change_input child)]) ∧
  outpoint (change_input child) = mkOutPoint (compute_txid (unsigned_tx (child_psbt child))) 0.
Proof.
  unfold build_cpfp_child. destruct (find_anchor 0 (tx_output tx)) as [[k o]|]; [|done]. simpl.
  destruct funding as [|first rest]; [done|]. case_match; [done|]. rewrite from_unsigned_make.
  intros [= <-]. cbn [child_psbt with_witness_utxos unsigned_tx change_input witness_utxo outpoint].
  by split; [eexists|].
Qed.

Section refunds.
Context (nodes : gmap TreeNodeId TreeNode) (oc : ExitChainState) (ids : list TreeNodeId)
  (fo : option Txid) (rate : Z).
Let resolved := resolved_of oc ids.

Lemma build_node_kinds leaf_id st n st' :
  build_node resolved leaf_id rate st n = Ok st' →
  Forall (λ t, is_refund t = false) (bs_txs st) → Forall (λ t, is_refund t = false) (bs_txs st').
Proof using.
  unfold build_node. rewrite bind_Ok. intros (tx & _ & Hb) Hst. case_decide; [by injection Hb as <-|].
  apply bind_Ok in Hb as ([[sign funding] fee] & _ & [= <-]). cbn [bs_txs].
  apply Forall_app. split; [done|]. by apply Forall_singleton.
Qed.

Lemma build_nodes_kinds leaf_id ns st st' :
  foldlR (build_node resolved leaf_id rate) st ns = Ok st' →
  Forall (λ t, is_refund t = false) (bs_txs st) → Forall (λ t, is_refund t = false) (bs_txs st').
Proof using.
  revert st. induction ns as [|n ns IH]; intros st; simpl; [by intros [= <-]|].
  rewrite bind_Ok. intros (st1 & H1 & H2) Hst. eapply IH; [exact H2|]. by eapply build_node_kinds.
Qed.

Lemma build_refund_pays i leaf st rs :
  nodes !! i = Some leaf → build_refund resolved i leaf rate st = Ok rs →
  Forall2 (pays_out nodes oc) (rs_txs rs) (rs_refund_outputs rs) ∧
  Forall2 returns_change (with_child (rs_txs rs)) (rs_change_inputs rs) ∧
  Forall (λ t, is_refund t = true) (rs_txs rs) ∧
  ∀ before, Forall (λ t, is_refund t = false) before → one_refund oc (mkBranch i (before ++ rs_txs rs)).
Proof using.
  intros Hi Hb. unfold build_refund in Hb.
  pose proof (restored_refund_from oc ids i) as Hfrom. fold resolved in Hfrom.
  change (walk_refunds (restore_exit_chain_walk oc ids)) with (res_refunds resolved) in Hfrom.
  destruct (res_refunds resolved !! i) as [[r| |]|] eqn:Hr.
  - injection Hb as <-. destruct Hfrom as (er & vo & Her & Hid & Hst & Hop).
    split_and!; [| |by apply Forall_singleton|].
    + constructor; [|constructor]. split_and!; [done|done|]. cbn [is_confirmed etx_status].
      exists er, (cr_block_height r). cbn [ro_leaf_id ro_outpoint ro_value base_tx].
      by rewrite Hop.
    + cbn [rs_txs rs_change_inputs]. unfold with_child. rewrite filter_cons, decide_False by by intros [? ?]. constructor.
    + intros before Hbef. exists before. eexists. split_and!; [done|done|]. by split.
  - apply bind_Ok in Hb as (d & Hd & Hb). apply bind_Ok in Hb as (v & Hv & [= <-]).
    apply bind_Ok in Hv as (out & Hout & [= <-]).
    split_and!; [| |by apply Forall_singleton|].
    + constructor; [|constructor]. split_and!; [done|done|]. cbn [is_confirmed etx_status].
      split_and!; [done| |exists leaf; split; [done|]].
      * cbn [base_tx ro_value]. destruct (head _); [|done]. by injection Hout as ->.
      * cbn [to_sign base_tx]. destruct (direct_refund_tx leaf); [|done]. by injection Hd as ->.
    + cbn [rs_txs rs_change_inputs]. unfold with_child. rewrite filter_cons, decide_False by by intros [? ?]. constructor.
    + intros before Hbef. exists before. eexists. split_and!; [done|done|]. by split.
  - injection Hb as <-. cbn [rs_txs rs_refund_outputs rs_change_inputs].
    split_and!; [constructor|constructor|constructor|].
    intros before Hbef. exists before, []. split_and!; [done|done|]. by right.
  - case_decide as Hs.
    { injection Hb as <-. cbn [rs_txs rs_refund_outputs rs_change_inputs].
      split_and!; [constructor|constructor|constructor|].
      intros before Hbef. exists before, []. split_and!; [done|done|]. left. by apply elem_of_list_to_set in Hs. }
    apply bind_Ok in Hb as (tx & Htx & Hb). apply bind_Ok in Hb as (v & Hv & Hb).
    apply bind_Ok in Hv as (out & Hout & [= <-]).
    apply bind_Ok in Hb as (child & Hc & [= <-]).
    destruct (build_cpfp_child tx (bs_funding st) rate) as [c|] eqn:Hchild; [|done]. injection Hc as ->.
    apply build_cpfp_child_change in Hchild as [[ins Hins] Hop].
    split_and!; [| |by apply Forall_singleton|].
    + constructor; [|constructor]. split_and!; [done|done|]. cbn [is_confirmed etx_status].
      split_and!; [done| |exists leaf; split; [done|]].
      * cbn [base_tx ro_value]. destruct (head _); [|done]. by injection Hout as ->.
      * cbn [to_sign base_tx]. destruct (refund_tx leaf); [|done]. by injection Htx as ->.
    + cbn [rs_txs rs_change_inputs]. unfold with_child. rewrite filter_cons, decide_True by by eexists.
      constructor; [|constructor]. eexists _, ins. by split_and!.
    + intros before Hbef. exists before. eexists. split_and!; [done|done|]. by split.
Qed.

(** What the outer loop has gathered. *)
Record refunds_inv (bu : BuildState) : Prop := {
  ri_outputs : Forall2 (pays_out nodes oc) (refunds_of (all_txs (bu_branches bu))) (bu_refund_outputs bu);
  ri_change : Forall2 returns_change (with_child (refunds_of (all_txs (bu_branches bu))))
                (bu_change_inputs bu);
  ri_branch : Forall (one_refund oc) (bu_branches bu);
}.

Lemma refunds_of_snoc brs i before refunds :
  Forall (λ t, is_refund t = false) before → Forall (λ t, is_refund t = true) refunds →
  refunds_of (all_txs (brs ++ [mkBranch i (before ++ refunds)])) = refunds_of (all_txs brs) ++ refunds.
Proof using.
  intros Hb Hr. unfold all_txs, refunds_of. rewrite fmap_app, concat_app. csimpl.
  rewrite app_nil_r, !filter_app. f_equal.
  assert (filter (λ t, is_refund t = true) before = []) as ->.
  { clear Hr. induction Hb as [|t before Ht _ IH]; [done|].
    rewrite filter_cons, decide_False; [done|]. by rewrite Ht. }
  simpl. clear Hb. induction Hr as [|t refunds Ht _ IH]; [done|].
  by rewrite filter_cons, decide_True, IH.
Qed.

Lemma build_branch_refunds bu branch bu' :
  refunds_inv bu → build_branch nodes resolved fo rate bu branch = Ok bu' →
  refunds_inv bu' ∧ eb_leaf_id <$> bu_branches bu' = (eb_leaf_id <$> bu_branches bu) ++ [branch.1].
Proof using.
  intros [Ho Hc Hb]. destruct branch as [i funding]. unfold build_branch.
  rewrite bind_Ok. intros (leaf & Hi & Hbb). apply bind_Ok in Hbb as (chain & _ & Hbb).
  apply bind_Ok in Hbb as (st & Hst & Hbb). apply bind_Ok in Hbb as (rs & Hrs & [= <-]).
  assert (nodes !! i = Some leaf) as Hleaf by (destruct (nodes !! i); [by injection Hi as ->|done]).
  assert (Forall (λ t, is_refund t = false) (bs_txs st)) as Hnone.
  { case_decide; [by injection Hst as <-|]. eapply build_nodes_kinds; [exact Hst|constructor]. }
  destruct (build_refund_pays i leaf st rs Hleaf Hrs) as (Hpay & Hch & Hkind & Hone).
  split; [|cbn [bu_branches]; by rewrite fmap_app]. split; cbn [bu_branches bu_refund_outputs bu_change_inputs].
  - rewrite refunds_of_snoc by done. by apply Forall2_app.
  - rewrite refunds_of_snoc by done. unfold with_child. rewrite filter_app. by apply Forall2_app.
  - apply Forall_app. split; [done|]. apply Forall_singleton. by apply Hone.
Qed.

Lemma build_branches_refunds brs bu bu' :
  refunds_inv bu → foldlR (build_branch nodes resolved fo rate) bu brs = Ok bu' →
  refunds_inv bu' ∧ eb_leaf_id <$> bu_branches bu' = (eb_leaf_id <$> bu_branches bu) ++ brs.*1.
Proof using.
  revert bu. induction brs as [|br brs IH]; intros bu Hinv; simpl.
  { intros [= <-]. by rewrite app_nil_r. }
  rewrite bind_Ok. intros (bu1 & H1 & H2). destruct (build_branch_refunds bu br bu1 Hinv H1) as [Hinv1 Hids].
  destruct (IH bu1 Hinv1 H2) as [? ->]. split; [done|]. by rewrite Hids, <- app_assoc.
Qed.
End refunds.

(** ** Flagging changes only statuses *)

Section flag.
Context (unverified : gset TreeNodeId).
Local Abbreviation flag := (flag_unverified_tx unverified).

Lemma flag_cases t : flag t = t ∨
  etx_status t = ExitTxStatus.Unconfirmed ∧ flag t = set_status ExitTxStatus.Unverified t.
Proof.
  unfold flag_unverified_tx. destruct (etx_status t) eqn:Hs; auto. destruct (node_id t); auto.
  case_decide; auto.
Qed.

Lemma flag_wf t : exit_tx_wf t → exit_tx_wf (flag t).
Proof.
  intros (Hk & Hn & Ht & Hc & Hs). destruct (flag_cases t) as [->|[_ ->]]; [done|].
  split_and!; [done|done|done|done|]. intros psbt Hp. split; [done|]. by apply Hs.
Qed.

Lemma flag_ordered known txs : ordered known txs → ordered known (flag <$> txs).
Proof.
  revert known. induction txs as [|t txs IH]; intros known; [done|]. csimpl. intros [Hd Ho].
  assert (depends_on (flag t) = depends_on t ∧ etx_txid (flag t) = etx_txid t) as [-> ->]
    by (by destruct (flag_cases t) as [->|[_ ->]]).
  auto.
Qed.

Lemma flag_node_txids txs : node_txids (flag <$> txs) = node_txids txs.
Proof.
  unfold node_txids. induction txs as [|t txs IH]; [done|]. csimpl. rewrite !filter_cons.
  assert (is_node (flag t) = is_node t ∧ etx_txid (flag t) = etx_txid t) as [-> Ht]
    by (by destruct (flag_cases t) as [->|[_ ->]]).
  case_decide; csimpl; [by rewrite Ht, IH|done].
Qed.

Lemma flag_same t :
  kind (flag t) = kind t ∧ node_id (flag t) = node_id t ∧ etx_txid (flag t) = etx_txid t ∧
  base_tx (flag t) = base_tx t ∧ to_sign (flag t) = to_sign t ∧
  is_confirmed (etx_status (flag t)) = is_confirmed (etx_status t).
Proof. destruct (flag_cases t) as [->|[Hs ->]]; [done|]. by rewrite Hs. Qed.

Lemma flag_pays_out nodes oc t o : pays_out nodes oc t o → pays_out nodes oc (flag t) o.
Proof. unfold pays_out. by destruct (flag_same t) as (_ & -> & -> & -> & -> & ->). Qed.

Lemma flag_returns_change t c : returns_change t c → returns_change (flag t) c.
Proof. unfold returns_change. by destruct (flag_same t) as (_ & _ & _ & _ & -> & _). Qed.

Lemma flag_is_refund t : is_refund (flag t) = is_refund t.
Proof. unfold is_refund. by destruct (flag_same t) as (-> & _). Qed.

Lemma flag_refunds_of txs : refunds_of (flag <$> txs) = flag <$> refunds_of txs.
Proof.
  unfold refunds_of. induction txs as [|t txs IH]; [done|]. csimpl. rewrite !filter_cons, flag_is_refund.
  case_decide; csimpl; by rewrite IH.
Qed.

Lemma flag_with_child txs : with_child (flag <$> txs) = flag <$> with_child txs.
Proof.
  unfold with_child. induction txs as [|t txs IH]; [done|]. csimpl. rewrite !filter_cons.
  destruct (flag_same t) as (_ & _ & _ & _ & -> & _). case_decide; csimpl; by rewrite IH.
Qed.

Lemma flag_one_refund oc br :
  one_refund oc br → one_refund oc (mkBranch (eb_leaf_id br) (flag <$> eb_txs br)).
Proof.
  intros (before & refunds & Htxs & Hb & Hr). exists (flag <$> before), (flag <$> refunds).
  cbn [eb_txs eb_leaf_id]. rewrite Htxs, fmap_app. split_and!; [done| |].
  - rewrite Forall_fmap. eapply Forall_impl; [exact Hb|]. intros t. simpl. by rewrite flag_is_refund.
  - destruct refunds as [|t [|? ?]]; [done| |done]. csimpl.
    destruct (flag_same t) as (_ & -> & _). by rewrite flag_is_refund.
Qed.

Lemma flag_all_txs brs :
  all_txs ((λ b, mkBranch (eb_leaf_id b) (flag <$> eb_txs b)) <$> brs) = flag <$> all_txs brs.
Proof.
  unfold all_txs. induction brs as [|br brs IH]; [done|]. rewrite !fmap_cons. cbn [concat eb_txs].
  by rewrite fmap_app, IH.
Qed.

Lemma flag_first_child txs : first_child (flag <$> txs) = flag <$> first_child txs.
Proof.
  unfold first_child. induction txs as [|t txs IH]; [done|]. csimpl. rewrite !filter_cons.
  assert (to_sign (flag t) = to_sign t) as Hs by (by destruct (flag_cases t) as [->|[_ ->]]).
  destruct (to_sign t) eqn:Ht; rewrite Hs.
  - by rewrite !decide_True by by eexists.
  - by rewrite !decide_False by by intros [? ?].
Qed.
End flag.

End order.

(** ** Witness *)

#[local] Existing Instances btc68 btctx68.

