(* ===== verification/LeafSelect.v ===== *)
(** * Leaf selection: [spark/src/tree/select_helper.rs]

    Choosing leaves that pay a target: exactly (one leaf, or greedily), at given
    denominations, or at least the amount. *)

From S2P Require Import Prelude Bitcoin TreeModel.

(** The trait [LeafLike] of [tree/mod.rs]. *)
Class LeafLike (L : Type) := {
  LeafId : Type;
  LeafId_eq_dec :: EqDecision LeafId;
  leaf_id : L → LeafId;
  leaf_value : L → Z;
}.

#[export] Instance TreeNode_LeafLike `{Bitcoin} : LeafLike TreeNode :=
  {| LeafId := TreeNodeId; leaf_id := id; leaf_value := value |}.

Record TargetLeaves (L : Type) := {
  amount_leaves : list L;
  fee_leaves : option (list L);
}.
Arguments Build_TargetLeaves {L}.
Arguments amount_leaves {L}.
Arguments fee_leaves {L}.

(** [TargetLeaves::new] *)
Definition TargetLeaves_new {L} (amount_leaves : list L) (fee_leaves : option (list L)) :=
  Build_TargetLeaves amount_leaves fee_leaves.

Section select.
Context {L : Type} `{LeafLike L}.

(** [iter().map(LeafLike::leaf_value).sum::<u64>()] *)
Definition total_value (leaves : list L) : Z := sum_wrap 64 (leaf_value <$> leaves).

Definition is_power_of_two (value : Z) : bool :=
  (0 <? value) && (Z.land value (value - 1) =? 0).

Definition find_exact_single_match (leaves : list L) (target_amount_sat : Z) : option L :=
  List.find (λ leaf, leaf_value leaf =? target_amount_sat) leaves.

(** [sort_by_key(|b| Reverse(b.leaf_value()))] *)
Definition sort_desc : list L → list L :=
  stable_sort (λ a b, leaf_value b <=? leaf_value a).

(** The [for] loop of [greedy_exact_match]; [result] is what was pushed so far. *)
Fixpoint greedy_loop (sorted_leaves : list L) (remaining : Z) (result : list L)
    : option (list L) :=
  match sorted_leaves with
  | [] => None
  | leaf :: rest =>
      if remaining <? leaf_value leaf then greedy_loop rest remaining result
      else
        let remaining := usub 64 remaining (leaf_value leaf) in
        let result := result ++ [leaf] in
        if remaining =? 0 then Some result else greedy_loop rest remaining result
  end.

Definition greedy_exact_match (leaves : list L) (target_amount_sat : Z) : option (list L) :=
  greedy_loop (sort_desc leaves) target_amount_sat [].

Definition find_exact_multiple_match (leaves : list L) (target_amount_sat : Z)
    : option (list L) :=
  if target_amount_sat =? 0 then Some []
  else if bool_decide (leaves = []) then None
  else
    match greedy_exact_match leaves target_amount_sat with
    | Some result => Some result
    | None =>
        let power_of_two_leaves := filter (λ l, is_power_of_two (leaf_value l) = true) leaves in
        if bool_decide (length power_of_two_leaves = length leaves) then None
        else greedy_exact_match power_of_two_leaves target_amount_sat
    end.

Definition select_leaves_by_exact_amount (leaves : list L) (target_amount_sat : Z)
    : TreeResult (option (list L)) :=
  if target_amount_sat =? 0 then Err TreeServiceError.InvalidAmount
  else if total_value leaves <? target_amount_sat then Err TreeServiceError.InsufficientFunds
  else
    match find_exact_single_match leaves target_amount_sat with
    | Some leaf => Ok (Some [leaf])
    | None =>
        match find_exact_multiple_match leaves target_amount_sat with
        | Some selected_leaves => Ok (Some selected_leaves)
        | None => Ok None
        end
    end.

(** The [for] loop over the denominations, with the leaves left and those taken. *)
Fixpoint denominations_loop (denominations : list Z) (remaining_leaves selected_leaves : list L)
    : TreeResult (list L) :=
  match denominations with
  | [] => Ok selected_leaves
  | denomination :: rest =>
      match list_find (λ l, leaf_value l = denomination) remaining_leaves with
      | None => Err TreeServiceError.UnselectableAmount
      | Some (idx, l) =>
          denominations_loop rest (swap_remove idx remaining_leaves) (selected_leaves ++ [l])
      end
  end.

Definition select_leaves_by_exact_denominations (leaves : list L) (denominations : list Z)
    : TreeResult (list L) := denominations_loop denominations leaves [].

(** The [for] loop of [select_leaves_by_minimum_amount]. *)
Fixpoint minimum_loop (leaves : list L) (target_amount_sat sum : Z) (result : list L)
    : list L * Z :=
  match leaves with
  | [] => (result, sum)
  | leaf :: rest =>
      let sum := uadd 64 sum (leaf_value leaf) in
      let result := result ++ [leaf] in
      if target_amount_sat <=? sum then (result, sum)
      else minimum_loop rest target_amount_sat sum result
  end.

Definition select_leaves_by_minimum_amount (leaves : list L) (target_amount_sat : Z)
    : TreeResult (option (list L)) :=
  if target_amount_sat =? 0 then Err TreeServiceError.InvalidAmount
  else if total_value leaves <? target_amount_sat then Err TreeServiceError.InsufficientFunds
  else
    let '(result, sum) := minimum_loop leaves target_amount_sat 0 [] in
    if sum <? target_amount_sat then Ok None else Ok (Some result).

Definition select_leaves_by_target_amounts (leaves : list L)
    (target_amounts : option TargetAmounts) : TreeResult (TargetLeaves L) :=
  match target_amounts with
  | None => Ok (TargetLeaves_new leaves None)
  | Some (AmountAndFee amount_sats fee_sats) =>
      o ← select_leaves_by_exact_amount leaves amount_sats;
      amount_leaves ← ok_or o TreeServiceError.UnselectableAmount;
      fee_leaves ←
        match fee_sats with
        | Some fee_sats =>
            let remaining_leaves :=
              filter (λ leaf, existsb (λ amount_leaf,
                bool_decide (leaf_id amount_leaf = leaf_id leaf)) amount_leaves = false) leaves in
            o ← select_leaves_by_exact_amount remaining_leaves fee_sats;
            f ← ok_or o TreeServiceError.UnselectableAmount;
            Ok (Some f)
        | None => Ok None
        end;
      Ok (TargetLeaves_new amount_leaves fee_leaves)
  | Some (ExactDenominations denominations) =>
      denominations_leaves ← select_leaves_by_exact_denominations leaves denominations;
      Ok (TargetLeaves_new denominations_leaves None)
  end.

(** The values a [u64] field can hold. *)
Definition leaf_wf (l : L) : Prop := in_uint 64 (leaf_value l).

(** The value of a list of leaves, without wrap-around. *)
Definition valueZ (leaves : list L) : Z := sumZ (leaf_value <$> leaves).
End select.

(** [with_reserved_leaves]: run [f], then settle the reservation with the tree
    service; [W] is the state both act on. An error of the service is logged and
    does not change the outcome. *)
Section with_reserved.
Context `{Bitcoin} {W R E : Type}.
Context (finalize_reservation :
  LeavesReservationId → option (list TreeNode) → proc W (TreeResult unit)).
Context (cancel_reservation : LeavesReservation → proc W (TreeResult unit)).

Definition with_reserved_leaves (f : proc W (result E R)) (leaves : LeavesReservation)
    : proc W (result E R) :=
  r ← f;
  match r with
  | Ok r => _ ← finalize_reservation (reservation_id leaves) None; mret (Ok r)
  | Err e => _ ← cancel_reservation leaves; mret (Err e)
  end.
End with_reserved.

(** ** Powers of two *)

Definition pow2 (v : Z) : Prop := ∃ n, 0 ≤ n ∧ v = 2 ^ n.

Lemma pow2_pos v : pow2 v → 0 < v.
Proof. intros (n & ? & ->). by apply Z.pow_pos_nonneg. Qed.

Lemma pow2_divide v w : pow2 v → pow2 w → v ≤ w → (v | w).
Proof.
  intros (n & ? & ->) (m & ? & ->) Hle.
  apply Z.pow_le_mono_r_iff in Hle; [|lia|lia].
  exists (2 ^ (m - n)). rewrite <- Z.pow_add_r by lia. f_equal. lia.
Qed.

Lemma is_power_of_two_spec v : is_power_of_two v = true ↔ pow2 v.
Proof.
  unfold is_power_of_two. rewrite andb_true_iff, Z.ltb_lt, Z.eqb_eq. split.
  - intros [Hpos Hland]. exists (Z.log2 v). split; [apply Z.log2_nonneg|].
    destruct (Z.log2_spec v Hpos) as [Hlo Hhi].
    destruct (decide (v = 2 ^ Z.log2 v)) as [|Hne]; [done|exfalso].
    assert (Z.testbit (Z.land v (v - 1)) (Z.log2 v) = true) as Hb.
    { rewrite Z.land_spec, Z.bit_log2 by done.
      assert (Z.log2 (v - 1) = Z.log2 v) as <-.
      { apply Z.log2_unique; [apply Z.log2_nonneg|lia]. }
      rewrite Z.bit_log2; [done|].
      assert (1 ≤ 2 ^ Z.log2 v); [|lia].
      apply (Z.pow_le_mono_r 2 0); [lia|apply Z.log2_nonneg]. }
    by rewrite Hland, Z.bits_0 in Hb.
  - intros (n & Hn & ->). split; [by apply Z.pow_pos_nonneg|].
    replace (2 ^ n - 1) with (Z.ones n) by (rewrite Z.ones_equiv; lia).
    rewrite Z.land_ones by done. by apply Z.mod_same, Z.pow_nonzero.
Qed.

(** A descending list whose elements divide [r] reaches [r] exactly as soon as it
    reaches it at all. *)
Lemma chain_prefix_exact (s : list Z) r :
  0 < r → StronglySorted (λ x y, y ≤ x) s → Forall pow2 s → Forall (λ x, (x | r)) s →
  r ≤ sumZ s → ∃ p q, s = p ++ q ∧ sumZ p = r.
Proof.
  intros Hr Hs. revert r Hr.
  induction Hs as [|x s Hs IH Hx]; intros r Hr Hp Hd Hle; simpl in *; [lia|].
  apply Forall_cons in Hp as [Hpx Hp]. apply Forall_cons in Hd as [Hdx Hd].
  pose proof (Z.divide_pos_le _ _ Hr Hdx).
  destruct (decide (x = r)) as [->|Hne].
  { exists [r], s. split; [done|]. simpl. lia. }
  destruct (IH (r - x)) as (p & q & -> & Hsum); [lia|done| |lia|].
  - rewrite Forall_forall in Hp, Hd, Hx |- *. intros y Hy.
    apply Z.divide_sub_r; [by apply Hd|]. by apply pow2_divide; [apply Hp| |apply Hx].
  - exists (x :: p), q. split; [done|]. simpl. lia.
Qed.

Section select_facts.
Context {L : Type} `{LeafLike L}.
Implicit Types l : list L.

Lemma sort_desc_perm l : sort_desc l ≡ₚ l.
Proof. apply stable_sort_perm. Qed.

Lemma sort_desc_sorted l :
  StronglySorted (λ a b, leaf_value b ≤ leaf_value a) (sort_desc l).
Proof.
  eapply StronglySorted_impl; [|apply stable_sort_sorted].
  - intros a b Hab. simpl in Hab. lia.
  - intros a b. simpl. lia.
  - intros a b c. simpl. lia.
Qed.

Lemma wf_nonneg l : Forall leaf_wf l → Forall (λ x, 0 ≤ x) (leaf_value <$> l).
Proof. intros Hl. rewrite Forall_fmap. eapply Forall_impl; [done|]. by intros x [? ?]. Qed.

Lemma wf_submseteq l k : l ⊆+ k → Forall leaf_wf k → Forall leaf_wf l.
Proof.
  intros Hlk. rewrite !Forall_forall. intros Hk x Hx.
  apply Hk. by eapply elem_of_submseteq.
Qed.

Lemma valueZ_perm l k : l ≡ₚ k → valueZ l = valueZ k.
Proof. intros Hlk. unfold valueZ. apply sumZ_perm. by rewrite Hlk. Qed.

Lemma valueZ_app l k : valueZ (l ++ k) = valueZ l + valueZ k.
Proof. unfold valueZ. by rewrite fmap_app, sumZ_app. Qed.

Lemma valueZ_cons x l : valueZ (x :: l) = leaf_value x + valueZ l.
Proof. done. Qed.

Lemma valueZ_nonneg l : Forall leaf_wf l → 0 ≤ valueZ l.
Proof. intros. by apply sumZ_nonneg, wf_nonneg. Qed.

(** What [greedy_loop] returns extends [result] by a sublist worth [remaining]. *)
Lemma greedy_loop_sound l rem res out :
  Forall leaf_wf l → in_uint 64 rem → greedy_loop l rem res = Some out →
  ∃ s, out = res ++ s ∧ s `sublist_of` l ∧ valueZ s = rem.
Proof.
  revert rem res. induction l as [|x l IH]; intros rem res Hwf Hrem; simpl; [done|].
  apply Forall_cons in Hwf as [[Hx0 Hx1] Hwf]. unfold in_uint in Hrem.
  destruct (Z.ltb_spec rem (leaf_value x)) as [Hlt|Hge].
  { intros (s & -> & Hs & Hv)%IH; [|done|done]. exists s. split_and!; [done| |done].
    by apply sublist_cons. }
  rewrite usub_small by lia.
  destruct (Z.eqb_spec (rem - leaf_value x) 0).
  - intros [= <-]. exists [x]. split_and!; [done| |].
    + apply sublist_skip. apply sublist_nil_l.
    + rewrite valueZ_cons. unfold valueZ. simpl. lia.
  - intros (s & -> & Hs & Hv)%IH; [|done|unfold in_uint; lia].
    exists (x :: s). rewrite <- app_assoc. split_and!; [done| |].
    + by apply sublist_skip.
    + rewrite valueZ_cons. lia.
Qed.

Lemma greedy_loop_complete l rem res s :
  StronglySorted (λ a b, leaf_value b ≤ leaf_value a) l →
  Forall (λ x, pow2 (leaf_value x)) l → Forall leaf_wf l → 0 < rem < 2 ^ 64 →
  s `sublist_of` l → valueZ s = rem → is_Some (greedy_loop l rem res).
Proof.
  intros Hs. revert rem res s.
  induction Hs as [|x l Hs IH Hx]; intros rem res s Hp Hwf Hrem Hsub Hv; simpl.
  { apply sublist_nil_r in Hsub as ->. unfold valueZ in Hv. simpl in Hv. lia. }
  apply Forall_cons in Hp as [Hpx Hp]. apply Forall_cons in Hwf as [[Hx0 Hx1] Hwf].
  pose proof (pow2_pos _ Hpx).
  destruct (Z.ltb_spec rem (leaf_value x)) as [Hlt|Hge].
  { apply sublist_cons_r in Hsub as [Hsub|(s' & -> & Hsub)]; [by eapply IH|exfalso].
    assert (Forall leaf_wf s') as Hs'%valueZ_nonneg.
    { eapply wf_submseteq; [by apply sublist_submseteq|done]. }
    rewrite valueZ_cons in Hv. lia. }
  rewrite usub_small by lia.
  destruct (Z.eqb_spec (rem - leaf_value x) 0); [by eexists|].
  apply sublist_cons_r in Hsub as [Hsub|(s' & -> & Hsub)].
  2:{ eapply (IH _ _ s'); try done; [lia|]. rewrite valueZ_cons in Hv. lia. }
  (* the leaf is not in [s], but it can replace a prefix of [s] *)
  assert (Forall (λ y, y ∈ leaf_value <$> l) (leaf_value <$> s)) as Hin.
  { rewrite Forall_forall. intros y (z & -> & Hz)%list_elem_of_fmap.
    apply list_elem_of_fmap. exists z. split; [done|]. by eapply elem_of_sublist. }
  destruct (chain_prefix_exact (leaf_value <$> s) (leaf_value x)) as (p & q & Hpq & Hsum).
  - done.
  - apply StronglySorted_fmap_2. by eapply StronglySorted_sublist.
  - eapply Forall_impl; [exact Hin|]. intros y (z & -> & Hz)%list_elem_of_fmap.
    rewrite Forall_forall in Hp. by apply Hp.
  - eapply Forall_impl; [exact Hin|]. intros y (z & -> & Hz)%list_elem_of_fmap.
    rewrite Forall_forall in Hp, Hx. apply pow2_divide; [by apply Hp|done|by apply Hx].
  - unfold valueZ in Hv. lia.
  - apply fmap_app_inv in Hpq as (p' & q' & -> & -> & ->).
    eapply (IH _ _ q'); try done; [lia| |].
    + etrans; [|done]. by apply sublist_inserts_l.
    + rewrite valueZ_app in Hv. unfold valueZ in *. lia.
Qed.
End select_facts.

Section select_specs.
Context {L : Type} `{LeafLike L}.
Implicit Types l : list L.

Lemma greedy_exact_match_sound l t out :
  Forall leaf_wf l → in_uint 64 t → greedy_exact_match l t = Some out →
  out ⊆+ l ∧ valueZ out = t.
Proof.
  intros Hwf Ht Hg. apply greedy_loop_sound in Hg as (s & -> & Hs & Hv); [|by rewrite sort_desc_perm|done].
  split; [|done]. simpl. rewrite <- (sort_desc_perm l). by apply sublist_submseteq.
Qed.

Lemma greedy_exact_match_complete l t s :
  Forall leaf_wf l → Forall (λ x, pow2 (leaf_value x)) l → 0 < t < 2 ^ 64 →
  s ⊆+ l → valueZ s = t → is_Some (greedy_exact_match l t).
Proof.
  intros Hwf Hp Ht Hs Hv. rewrite <- (sort_desc_perm l) in Hs.
  apply submseteq_sublist_r in Hs as (s' & Hp' & Hs').
  eapply greedy_loop_complete; [apply sort_desc_sorted|by rewrite sort_desc_perm..|done|done|].
  by rewrite <- (valueZ_perm _ _ Hp').
Qed.

Lemma multiple_match_sound l t out :
  Forall leaf_wf l → in_uint 64 t → find_exact_multiple_match l t = Some out →
  out ⊆+ l ∧ valueZ out = t.
Proof.
  intros Hwf Ht. unfold find_exact_multiple_match.
  destruct (Z.eqb_spec t 0) as [->|]; [intros [= <-]; split; [apply submseteq_nil_l|done]|].
  case_bool_decide; [done|].
  destruct (greedy_exact_match l t) eqn:Hg; [intros [= <-]; by eapply greedy_exact_match_sound|].
  case_bool_decide; [done|]. intros [Hs Hv]%greedy_exact_match_sound; [| |done].
  - split; [|done]. etrans; [done|]. apply sublist_submseteq, sublist_filter.
  - by apply Forall_filter.
Qed.

Lemma multiple_match_complete l t s :
  Forall leaf_wf l → 0 < t < 2 ^ 64 →
  s ⊆+ l → Forall (λ x, pow2 (leaf_value x)) s → valueZ s = t →
  is_Some (find_exact_multiple_match l t).
Proof.
  intros Hwf Ht Hs Hp Hv. unfold find_exact_multiple_match.
  destruct (Z.eqb_spec t 0); [lia|].
  case_bool_decide as Hnil.
  { subst l. apply submseteq_nil_r in Hs as ->. unfold valueZ in Hv. simpl in Hv. lia. }
  destruct (greedy_exact_match l t) eqn:Hg; [by eexists|].
  set (P := λ x : L, is_power_of_two (leaf_value x) = true).
  assert (Forall P s) as HPs.
  { eapply Forall_impl; [done|]. intros x ?. by apply is_power_of_two_spec. }
  assert (is_Some (greedy_exact_match (filter P l) t)) as Hsome.
  { eapply greedy_exact_match_complete; [by apply Forall_filter| |done|by apply filter_submseteq|done].
    apply Forall_forall. intros x [Hx _]%list_elem_of_filter. by apply is_power_of_two_spec. }
  case_bool_decide as Hlen; [|done].
  (* all leaves are powers of two: the first pass already was the second one *)
  assert (filter P l = l) as Heq.
  { by apply filter_length_eq. }
  rewrite Heq, Hg in Hsome. by destruct Hsome.
Qed.

Lemma exact_amount_Ok l t sel :
  Forall leaf_wf l → in_uint 64 t →
  select_leaves_by_exact_amount l t = Ok (Some sel) → sel ⊆+ l ∧ valueZ sel = t.
Proof.
  intros Hwf Ht. unfold select_leaves_by_exact_amount.
  destruct (t =? 0); [done|]. destruct (total_value l <? t); [done|].
  destruct (find_exact_single_match l t) as [x|] eqn:Hf.
  - intros [= <-]. apply find_some in Hf as [Hin Hx%Z.eqb_eq]. split.
    + by apply singleton_submseteq_l, list_elem_of_In.
    + rewrite valueZ_cons. unfold valueZ. simpl. lia.
  - destruct (find_exact_multiple_match l t) eqn:Hm; intros [= <-].
    by apply multiple_match_sound in Hm.
Qed.

Lemma exact_amount_complete l t s :
  Forall leaf_wf l → in_uint 64 t → valueZ l < 2 ^ 64 → 0 < t →
  s ⊆+ l → Forall (λ x, pow2 (leaf_value x)) s → valueZ s = t →
  ∃ sel, select_leaves_by_exact_amount l t = Ok (Some sel) ∧ sel ⊆+ l ∧ valueZ sel = t.
Proof.
  intros Hwf Ht Hb Hpos Hs Hp Hv.
  assert (∃ sel, select_leaves_by_exact_amount l t = Ok (Some sel)) as [sel Hsel].
  { unfold select_leaves_by_exact_amount, total_value.
    rewrite sum_wrap_exact by (try done; by apply wf_nonneg). fold (valueZ l).
    destruct (Z.eqb_spec t 0); [lia|].
    assert (t ≤ valueZ l) as Hle.
    { rewrite <- Hv. apply sumZ_submseteq; [by apply wf_nonneg|by apply fmap_submseteq]. }
    destruct (Z.ltb_spec (valueZ l) t); [lia|].
    destruct (find_exact_single_match l t); [by eexists|].
    destruct Ht. destruct (multiple_match_complete l t s) as [? ->]; try done. by eexists. }
  exists sel. split; [done|]. by apply exact_amount_Ok in Hsel as [? ?].
Qed.

(** Selecting an exact amount. Amount zero and a pool worth less than the
    amount are the only errors. A selection is a sub-multiset of the pool worth
    exactly the amount. And when the code gives up ([None]), no leaf has that
    value and no combination of power-of-two leaves adds up to it: on
    power-of-two pools, the denominations the wallet keeps, the greedy search
    misses nothing. *)
Theorem select_exact_amount_spec l t :
  Forall leaf_wf l → in_uint 64 t →
  match select_leaves_by_exact_amount l t with
  | Err TreeServiceError.InvalidAmount => t = 0
  | Err TreeServiceError.InsufficientFunds => 0 < t ∧ total_value l < t
  | Err _ => False
  | Ok (Some sel) => 0 < t ∧ sel ⊆+ l ∧ valueZ sel = t
  | Ok None =>
      (∀ x, x ∈ l → leaf_value x ≠ t) ∧
      (∀ s, s ⊆+ l → Forall (λ x, pow2 (leaf_value x)) s → valueZ s ≠ t)
  end.
Proof.
  intros Hwf [Ht0 Ht1].
  destruct (select_leaves_by_exact_amount l t) as [[sel|]|e] eqn:Hs.
  - apply exact_amount_Ok in Hs as Hok; [|done|done]. split; [|done].
    unfold select_leaves_by_exact_amount in Hs. destruct (Z.eqb_spec t 0); [done|lia].
  - unfold select_leaves_by_exact_amount in Hs.
    destruct (Z.eqb_spec t 0); [done|]. destruct (total_value l <? t); [done|].
    destruct (find_exact_single_match l t) as [|] eqn:Hf; [done|].
    destruct (find_exact_multiple_match l t) as [|] eqn:Hm; [done|]. split.
    + intros x Hx%list_elem_of_In Heq. eapply find_none in Hf; [|done]. simpl in Hf. lia.
    + intros s' Hs' Hp Hv. destruct (multiple_match_complete l t s') as [? Hc]; try done; [lia|].
      by rewrite Hm in Hc.
  - unfold select_leaves_by_exact_amount in Hs.
    destruct (Z.eqb_spec t 0) as [->|]; [by simplify_eq|].
    destruct (Z.ltb_spec (total_value l) t); [simplify_eq; lia|].
    by repeat case_match.
Qed.

Lemma minimum_loop_spec l t sum res :
  Forall leaf_wf l → 0 ≤ sum < t → sum + valueZ l < 2 ^ 64 →
  let '(out, s) := minimum_loop l t sum res in
  (s < t ∧ s = sum + valueZ l) ∨
  (t ≤ s ∧ ∃ pre x rest, l = pre ++ x :: rest ∧ out = res ++ pre ++ [x] ∧
     sum + valueZ pre < t ∧ s = sum + valueZ (pre ++ [x])).
Proof.
  revert sum res. induction l as [|x l IH]; intros sum res Hwf Hsum Hb; simpl.
  { left. unfold valueZ. simpl. lia. }
  apply Forall_cons in Hwf as [[Hx ?] Hwf]. rewrite valueZ_cons in Hb.
  pose proof (valueZ_nonneg l Hwf). rewrite uadd_small by lia.
  destruct (Z.leb_spec t (sum + leaf_value x)).
  - right. split; [done|]. exists [], x, l. unfold valueZ. simpl.
    split_and!; [done|done|lia|lia].
  - assert (0 ≤ sum + leaf_value x < t) as Hs1 by lia.
    assert (sum + leaf_value x + valueZ l < 2 ^ 64) as Hs2 by lia.
    specialize (IH _ (res ++ [x]) Hwf Hs1 Hs2).
    destruct (minimum_loop _ _ _ _) as [out s].
    destruct IH as [[? ->]|(? & pre & y & rest & -> & -> & ? & ->)].
    + left. unfold valueZ in *. csimpl. lia.
    + right. split; [done|]. exists (x :: pre), y, rest. rewrite <- app_assoc.
      unfold valueZ in *. csimpl. split_and!; [done|done|lia|lia].
Qed.

Lemma minimum_amount_Ok l t sel :
  Forall leaf_wf l → in_uint 64 t → valueZ l < 2 ^ 64 →
  select_leaves_by_minimum_amount l t = Ok (Some sel) →
  0 < t ∧ ∃ pre x rest, sel = pre ++ [x] ∧ l = sel ++ rest ∧ valueZ pre < t ≤ valueZ sel.
Proof.
  intros Hwf [Ht0 Ht1] Hb. unfold select_leaves_by_minimum_amount.
  destruct (Z.eqb_spec t 0); [done|]. destruct (total_value l <? t); [done|].
  pose proof (minimum_loop_spec l t 0 [] Hwf ltac:(lia) ltac:(lia)) as Hl.
  destruct (minimum_loop _ _ _ _) as [out s]. destruct (Z.ltb_spec s t); [done|].
  intros [= <-]. destruct Hl as [[? ?]|(_ & pre & x & rest & -> & -> & ? & ->)]; [lia|].
  split; [lia|]. exists pre, x, rest. simpl. split_and!; [done|by rewrite <- app_assoc|lia|lia].
Qed.

Lemma minimum_amount_refused l t :
  Forall leaf_wf l → in_uint 64 t → valueZ l < 2 ^ 64 →
  (∀ sel, select_leaves_by_minimum_amount l t ≠ Ok (Some sel)) → t = 0 ∨ valueZ l < t.
Proof.
  intros Hwf [Ht0 Ht1] Hb Hn. unfold select_leaves_by_minimum_amount, total_value in Hn.
  destruct (Z.eqb_spec t 0); [by left|right].
  rewrite sum_wrap_exact in Hn by (try done; by apply wf_nonneg). fold (valueZ l) in Hn.
  destruct (Z.ltb_spec (valueZ l) t); [done|exfalso].
  pose proof (minimum_loop_spec l t 0 [] Hwf ltac:(lia) ltac:(lia)) as Hl.
  destruct (minimum_loop _ _ _ _) as [out s].
  destruct (Z.ltb_spec s t); [lia|]. by apply (Hn out).
Qed.

(** Selecting at least an amount, on a pool worth less than [2^64] sats:
    the result is the shortest prefix of the pool that reaches the amount, and a
    nonzero amount the pool can cover is never refused. *)
Theorem select_minimum_amount_spec l t :
  Forall leaf_wf l → in_uint 64 t → valueZ l < 2 ^ 64 →
  match select_leaves_by_minimum_amount l t with
  | Err TreeServiceError.InvalidAmount => t = 0
  | Err TreeServiceError.InsufficientFunds => valueZ l < t
  | Err _ => False
  | Ok None => False
  | Ok (Some sel) =>
      0 < t ∧ ∃ pre x rest, sel = pre ++ [x] ∧ l = sel ++ rest ∧ valueZ pre < t ≤ valueZ sel
  end.
Proof.
  intros Hwf Ht Hb.
  destruct (select_leaves_by_minimum_amount l t) as [[sel|]|e] eqn:E.
  - by apply minimum_amount_Ok.
  - pose proof (minimum_amount_refused l t Hwf Ht Hb ltac:(congruence)) as Hr.
    unfold select_leaves_by_minimum_amount, total_value in E.
    rewrite sum_wrap_exact in E by (try done; by apply wf_nonneg). fold (valueZ l) in E.
    destruct (Z.eqb_spec t 0), (Z.ltb_spec (valueZ l) t); try done. lia.
  - pose proof (minimum_amount_refused l t Hwf Ht Hb ltac:(congruence)) as Hr.
    unfold select_leaves_by_minimum_amount in E.
    destruct (Z.eqb_spec t 0); [by simplify_eq|]. destruct Hr as [?|?]; [done|].
    destruct (total_value l <? t); [by simplify_eq|].
    repeat case_match; simplify_eq; done.
Qed.

Lemma denominations_loop_spec ds l sel :
  match denominations_loop ds l sel with
  | Ok out => ∃ s k, out = sel ++ s ∧ l ≡ₚ s ++ k ∧ leaf_value <$> s = ds
  | Err e => e = TreeServiceError.UnselectableAmount ∧ ¬ ds ⊆+ (leaf_value <$> l)
  end.
Proof.
  revert l sel. induction ds as [|d ds IH]; intros l sel; simpl.
  { exists [], l. by rewrite app_nil_r. }
  destruct (list_find _ l) as [[i x]|] eqn:Hf.
  - apply list_find_Some in Hf as (Hi & <- & _). apply swap_remove_perm in Hi as Hp.
    specialize (IH (swap_remove i l) (sel ++ [x])).
    destruct (denominations_loop _ _ _) as [out|e].
    + destruct IH as (s & k & -> & Hk & <-). exists (x :: s), k.
      rewrite <- app_assoc. split_and!; [done|by rewrite Hp, Hk|done].
    + destruct IH as [-> Hno]. split; [done|]. rewrite Hp. csimpl. intros Hsub.
      apply Hno. by eapply submseteq_cons_inv.
  - split; [done|]. intros Hsub. apply list_find_None in Hf. rewrite Forall_forall in Hf.
    assert (d ∈ leaf_value <$> l) as (x & -> & Hx)%list_elem_of_fmap.
    { eapply elem_of_submseteq; [|done]. by left. }
    by apply (Hf x).
Qed.

(** Selecting by denominations is exact and complete: it returns leaves with
    precisely the requested values, in the requested order, all taken from the
    pool; and it fails only when the pool does not hold those values. *)
Theorem select_denominations_spec l ds :
  match select_leaves_by_exact_denominations l ds with
  | Ok sel => sel ⊆+ l ∧ leaf_value <$> sel = ds
  | Err e => e = TreeServiceError.UnselectableAmount ∧ ¬ ds ⊆+ (leaf_value <$> l)
  end.
Proof.
  unfold select_leaves_by_exact_denominations.
  pose proof (denominations_loop_spec ds l []) as Hl.
  destruct (denominations_loop ds l []); [|done].
  destruct Hl as (s & k & -> & Hp & ?). split; [|done]. simpl. rewrite Hp.
  by apply submseteq_inserts_r.
Qed.

(** The leaves a target selection hands out, as the callers concatenate them. *)
Definition target_selection (tl : TargetLeaves L) : list L :=
  amount_leaves tl ++ default [] (fee_leaves tl).

Lemma disjoint_selection (a f l : list L) :
  NoDup (leaf_id <$> l) → a ⊆+ l →
  f ⊆+ filter (λ x, existsb (λ y, bool_decide (leaf_id y = leaf_id x)) a = false) l →
  a ++ f ⊆+ l.
Proof.
  intros Hid Ha Hf. assert (NoDup l) as Hnd by by eapply NoDup_fmap_1.
  assert (∀ x, x ∈ f → x ∈ l ∧ x ∉ a) as Hin.
  { intros x Hx. eapply elem_of_submseteq in Hx; [|done].
    apply list_elem_of_filter in Hx as [Hx ?]. split; [done|]. intros Hxa.
    apply list_elem_of_In in Hxa. apply not_true_iff_false in Hx. apply Hx.
    apply existsb_exists. exists x. split; [done|]. by apply bool_decide_eq_true_2. }
  apply NoDup_submseteq.
  - apply NoDup_app. split_and!.
    + by eapply NoDup_submseteq_l.
    + intros x Hxa Hxf. by apply (Hin x).
    + eapply NoDup_submseteq_l; [done|]. by apply NoDup_filter.
  - intros x [Hx|Hx]%elem_of_app; [by eapply elem_of_submseteq|by apply Hin].
Qed.

Lemma select_target_Ok l ta tl :
  NoDup (leaf_id <$> l) → Forall leaf_wf l →
  match ta with
  | Some (AmountAndFee a f) => in_uint 64 a ∧ in_uint 64 (default 0 f)
  | _ => True
  end →
  select_leaves_by_target_amounts l ta = Ok tl →
  target_selection tl ⊆+ l ∧
  match ta with
  | None => amount_leaves tl = l ∧ fee_leaves tl = None
  | Some (AmountAndFee a None) => valueZ (amount_leaves tl) = a ∧ fee_leaves tl = None
  | Some (AmountAndFee a (Some f)) =>
      valueZ (amount_leaves tl) = a ∧ ∃ fl, fee_leaves tl = Some fl ∧ valueZ fl = f
  | Some (ExactDenominations ds) =>
      leaf_value <$> amount_leaves tl = ds ∧ fee_leaves tl = None
  end.
Proof.
  intros Hid Hwf Hta. unfold select_leaves_by_target_amounts, target_selection.
  destruct ta as [[a [f|]|ds]|]; simpl.
  - destruct Hta as [Hta Htf].
    intros (o & Ho & (al & ->%ok_or_Ok & (x & Hx & [= <-])%bind_Ok)%bind_Ok)%bind_Ok.
    apply bind_Ok in Hx as (o & Hf & (fl & ->%ok_or_Ok & [= <-])%bind_Ok).
    apply exact_amount_Ok in Ho as [? ?]; [|done|done].
    apply exact_amount_Ok in Hf as [? ?]; [|by apply Forall_filter|done].
    simpl. split; [by apply disjoint_selection|]. eauto.
  - destruct Hta as [Hta _].
    intros (o & Ho & (al & ->%ok_or_Ok & [= <-])%bind_Ok)%bind_Ok.
    apply exact_amount_Ok in Ho as [? ?]; [|done|done]. simpl. by rewrite app_nil_r.
  - intros (dl & Hd & [= <-])%bind_Ok. simpl. rewrite app_nil_r.
    pose proof (denominations_loop_spec ds l []) as Hl.
    unfold select_leaves_by_exact_denominations in Hd. rewrite Hd in Hl.
    destruct Hl as (s & k & -> & Hp & ?). simpl. split; [|done].
    rewrite Hp. by apply submseteq_inserts_r.
  - intros [= <-]. simpl. by rewrite app_nil_r.
Qed.

(** A target selection never spends a leaf twice: on a pool with distinct ids
    the amount and fee leaves together are a sub-multiset of the pool, and they
    are worth exactly the amount and exactly the fee (or carry exactly the
    requested denominations). *)
Theorem select_target_amounts_spec l ta tl :
  NoDup (leaf_id <$> l) → Forall leaf_wf l →
  match ta with
  | AmountAndFee a f => in_uint 64 a ∧ in_uint 64 (default 0 f)
  | _ => True
  end →
  select_leaves_by_target_amounts l (Some ta) = Ok tl →
  NoDup (leaf_id <$> target_selection tl) ∧ target_selection tl ⊆+ l ∧
  match ta with
  | AmountAndFee a f =>
      valueZ (amount_leaves tl) = a ∧ valueZ <$> fee_leaves tl = f ∧
      valueZ (target_selection tl) = a + default 0 f
  | ExactDenominations ds =>
      leaf_value <$> amount_leaves tl = ds ∧ valueZ (target_selection tl) = sumZ ds
  end.
Proof.
  intros Hid Hwf Hta Hs.
  destruct (select_target_Ok l (Some ta) tl Hid Hwf Hta Hs) as [Hsub Hv].
  split_and!; [|done|].
  { eapply NoDup_submseteq_l; [|exact Hid]. by apply fmap_submseteq. }
  unfold target_selection. rewrite valueZ_app. destruct ta as [a [f|]|ds].
  - destruct Hv as (-> & fl & -> & <-). done.
  - destruct Hv as (-> & ->). split_and!; [done|done|]. unfold valueZ. simpl. lia.
  - destruct Hv as (<- & ->). split; [done|]. unfold valueZ. simpl. lia.
Qed.
End select_specs.

(** ** Witnesses *)

Definition sample_pool : list (@TreeNode bip68) :=
  [bip68_node "a" 4 None; bip68_node "b" 5 None; bip68_node "c" 2 None; bip68_node "d" 1 None].

Lemma sample_pool_wf : Forall (@leaf_wf _ (@TreeNode_LeafLike bip68)) sample_pool.
Proof. repeat constructor; vm_compute; congruence. Defined.

Example select_exact_amount_witness :
  ∃ sel, @select_leaves_by_exact_amount _ (@TreeNode_LeafLike bip68) sample_pool 7 =
    Ok (Some sel) ∧ sel ⊆+ sample_pool ∧ valueZ sel = 7.
Proof.
  pose proof (@select_exact_amount_spec _ (@TreeNode_LeafLike bip68) sample_pool 7
    sample_pool_wf ltac:(by vm_compute)) as Hs.
  eexists. split; [reflexivity|]. apply Hs.
Defined.

Example select_minimum_amount_witness :
  ∃ sel, @select_leaves_by_minimum_amount _ (@TreeNode_LeafLike bip68) sample_pool 6 =
    Ok (Some sel) ∧ 6 ≤ valueZ sel.
Proof.
  pose proof (@select_minimum_amount_spec _ (@TreeNode_LeafLike bip68) sample_pool 6
    sample_pool_wf ltac:(by vm_compute) ltac:(by vm_compute)) as Hs.
  eexists. split; [reflexivity|]. destruct Hs as (_ & ? & ? & ? & _ & _ & _ & ?). done.
Defined.

Example select_target_amounts_witness :
  ∃ tl, @select_leaves_by_target_amounts _ (@TreeNode_LeafLike bip68) sample_pool
      (Some (AmountAndFee 7 (Some 5))) = Ok tl ∧ valueZ (target_selection tl) = 7 + 5.
Proof.
  eexists. split; [reflexivity|].
  eapply (@select_target_amounts_spec _ (@TreeNode_LeafLike bip68) sample_pool
    (AmountAndFee 7 (Some 5))).
  - apply (bool_decide_unpack _). vm_compute. exact I.
  - exact sample_pool_wf.
  - by vm_compute.
  - reflexivity.
Defined.
