(* ===== verification/TreeStore.v ===== *)
(** * The in-memory tree store: [spark/src/tree/store.rs]

    One processor task owns the state and handles commands one at a time;
    callers acquire a semaphore permit before they send a reservation command.
    Every [process_*] function of [InMemoryTreeStore] is translated, with the
    clock readings and the new reservation id (a fresh UUID) as arguments. Maps
    are iterated in the order of the [HashIter] argument. *)

From S2P Require Import Prelude Bitcoin TreeModel ExitChain LeafSelect.

Definition DEFAULT_MAX_CONCURRENT_RESERVATIONS : Z := 30.
Definition DEFAULT_RESERVATION_TIMEOUT : Duration := 60 * 10 ^ 9.

(** [tokio::sync::OwnedSemaphorePermit]: a token, given back when dropped. *)
Abbreviation OwnedSemaphorePermit := unit (only parsing).

Section tree_store.
Context `{Bitcoin} `{!HashIter string}.

Record StoredLeaf := {
  node : TreeNode;
  added_at : SystemTime;
  missing_from_operators : bool;
}.

Definition from_node (node : TreeNode) (added_at : SystemTime) : StoredLeaf :=
  {| node := node; added_at := added_at; missing_from_operators := false |}.

Definition from_node_missing (node : TreeNode) (added_at : SystemTime) : StoredLeaf :=
  {| node := node; added_at := added_at; missing_from_operators := true |}.

Definition set_node (n : TreeNode) (s : StoredLeaf) : StoredLeaf :=
  {| node := n; added_at := added_at s; missing_from_operators := missing_from_operators s |}.

Record ReservationEntry := {
  entry_leaves : list StoredLeaf;
  purpose : ReservationPurpose.t;
  _permit : OwnedSemaphorePermit;
  pending_change_amount : Z;
}.

Definition set_entry_leaves (l : list StoredLeaf) (e : ReservationEntry) : ReservationEntry :=
  {| entry_leaves := l; purpose := purpose e; _permit := _permit e;
     pending_change_amount := pending_change_amount e |}.

Record LeavesState := {
  leaves : gmap TreeNodeId StoredLeaf;
  chains : gmap TreeNodeId (list TreeNode);   (* the field [ancestors] *)
  leaves_reservations : gmap LeavesReservationId ReservationEntry;
  spent_leaf_ids : gmap TreeNodeId SystemTime;
  last_swap_completed_at : option SystemTime;
}.

(** [LeavesState::default()] *)
Definition LeavesState_default : LeavesState :=
  {| leaves := ∅; chains := ∅; leaves_reservations := ∅; spent_leaf_ids := ∅;
     last_swap_completed_at := None |}.

Definition set_leaves_map l (st : LeavesState) : LeavesState :=
  {| leaves := l; chains := chains st; leaves_reservations := leaves_reservations st;
     spent_leaf_ids := spent_leaf_ids st; last_swap_completed_at := last_swap_completed_at st |}.
Definition set_chains c (st : LeavesState) : LeavesState :=
  {| leaves := leaves st; chains := c; leaves_reservations := leaves_reservations st;
     spent_leaf_ids := spent_leaf_ids st; last_swap_completed_at := last_swap_completed_at st |}.
Definition set_reservations r (st : LeavesState) : LeavesState :=
  {| leaves := leaves st; chains := chains st; leaves_reservations := r;
     spent_leaf_ids := spent_leaf_ids st; last_swap_completed_at := last_swap_completed_at st |}.
Definition set_spent s (st : LeavesState) : LeavesState :=
  {| leaves := leaves st; chains := chains st; leaves_reservations := leaves_reservations st;
     spent_leaf_ids := s; last_swap_completed_at := last_swap_completed_at st |}.
Definition set_last_swap t (st : LeavesState) : LeavesState :=
  {| leaves := leaves st; chains := chains st; leaves_reservations := leaves_reservations st;
     spent_leaf_ids := spent_leaf_ids st; last_swap_completed_at := t |}.

(** ** Reads *)

Definition selectable (stored : StoredLeaf) : bool :=
  bool_decide (status (node stored) = TreeNodeStatus.Available)
  && negb (missing_from_operators stored).

Definition selectable_leaves (st : LeavesState) : list StoredLeaf :=
  filter (λ stored, selectable stored = true) (hm_values (leaves st)).

Definition state_available_balance (st : LeavesState) : Z :=
  sum_wrap 64 ((λ stored, value (node stored)) <$> selectable_leaves st).

Definition pending_balance (st : LeavesState) : Z :=
  sum_wrap 64 (pending_change_amount <$> hm_values (leaves_reservations st)).

Definition find_stored_leaf (st : LeavesState) (i : TreeNodeId) : option TreeNode :=
  match leaves st !! i with
  | Some stored => Some (node stored)
  | None =>
      find_map (λ entry,
        node <$> List.find (λ s, bool_decide (id (node s) = i)) (entry_leaves entry))
        (hm_values (leaves_reservations st))
  end.

(** [entry.leaves] of every reservation with the given purpose, in map order. *)
Definition reserved_nodes (p : ReservationPurpose.t) (st : LeavesState) : list TreeNode :=
  entry ← hm_values (leaves_reservations st);
  if decide (purpose entry = p) then node <$> entry_leaves entry else [].

Definition process_get_leaves (st : LeavesState) : Leaves :=
  let pool := hm_values (leaves st) in
  {| available := node <$> filter (λ s, selectable s = true) pool;
     not_available :=
       node <$> filter (λ s, status (node s) ≠ TreeNodeStatus.Available) pool;
     available_missing_from_operators :=
       node <$> filter (λ s, status (node s) = TreeNodeStatus.Available ∧
                             missing_from_operators s = true) pool;
     reserved_for_payment := reserved_nodes ReservationPurpose.Payment st;
     reserved_for_swap := reserved_nodes ReservationPurpose.Swap st |}.

(** The trait's default [get_available_balance]. *)
Definition get_available_balance (st : LeavesState) : Z := balance (process_get_leaves st).

(** The trait's default [get_verified_leaf_keys]. *)
Definition get_verified_leaf_keys (st : LeavesState) : gmap TreeNodeId VerifiedLeafKeys :=
  verified_leaf_keys_from_leaves (process_get_leaves st).

Definition process_leaves_missing_exit_chains (st : LeavesState) : list TreeNodeId :=
  let stored :=
    (node <$> hm_values (leaves st)) ++
    (node <$> (hm_values (leaves_reservations st) ≫= entry_leaves)) in
  id <$> filter (λ leaf,
    chain_backs_exit leaf (default [] (chains st !! id leaf)) = false) stored.

Definition process_get_exit_chains (st : LeavesState) (leaf_ids : list TreeNodeId)
    : list LeafPedigree :=
  leaf_id ← leaf_ids;
  match find_stored_leaf st leaf_id with
  | None => []
  | Some leaf =>
      let nodes := index_by_id (default [] (chains st !! leaf_id)) in
      let nodes := <[id leaf := leaf]> nodes in
      assemble_exit_chains nodes [leaf_id]
  end.

(** ** Adding leaves and chains *)

(** [entry.leaves.iter_mut().find(|s| s.node.id == leaf.id)] with the write. *)
Fixpoint update_node (leaf : TreeNode) (l : list StoredLeaf) : option (list StoredLeaf) :=
  match l with
  | [] => None
  | s :: l =>
      if decide (id (node s) = id leaf) then Some (set_node leaf s :: l)
      else l ← update_node leaf l; Some (s :: l)
  end.

Definition add_leaf (now : SystemTime) (st : LeavesState) (leaf : TreeNode) : LeavesState :=
  match find_map (λ '(res_id, entry),
          l ← update_node leaf (entry_leaves entry); Some (res_id, set_entry_leaves l entry))
          (hm_iter (leaves_reservations st)) with
  | Some (res_id, entry) => set_reservations (<[res_id := entry]> (leaves_reservations st)) st
  | None =>
      set_leaves_map (<[id leaf := from_node leaf now]> (leaves st))
        (set_spent (delete (id leaf) (spent_leaf_ids st)) st)
  end.

Definition process_add_leaves (now : SystemTime) (st : LeavesState) (leaves : list TreeNode)
    : TreeResult unit * LeavesState := (Ok (), foldl (add_leaf now) st leaves).

Definition upsert_ancestors (st : LeavesState) (leaf_id : TreeNodeId) (nodes : list TreeNode)
    : LeavesState :=
  if bool_decide (nodes = []) then st
  else set_chains (<[leaf_id := nodes]> (chains st)) st.

Definition process_store_ancestors (st : LeavesState) (pedigrees : list LeafPedigree)
    : TreeResult unit * LeavesState :=
  (Ok (), foldl (λ st pedigree,
     match find_stored_leaf st (id (leaf pedigree)) with
     | None => st
     | Some _ => upsert_ancestors st (id (leaf pedigree)) (ancestors pedigree)
     end) st pedigrees).

(** [state.leaves.insert(leaf.id, StoredLeaf::from_node(leaf, now))] in a loop. *)
Definition insert_leaves (now : SystemTime) (new : list TreeNode) (pool : gmap TreeNodeId StoredLeaf)
    : gmap TreeNodeId StoredLeaf :=
  insert_all id (λ leaf, from_node leaf now) new pool.

(** [state.ancestors.remove(id)] in a loop. *)
Definition remove_chains (ids : list TreeNodeId) (c : gmap TreeNodeId (list TreeNode))
    : gmap TreeNodeId (list TreeNode) := foldl (λ c i, delete i c) c ids.

(** ** Refresh *)

Definition has_active_swap (st : LeavesState) : bool :=
  existsb (λ entry, bool_decide (purpose entry = ReservationPurpose.Swap))
    (hm_values (leaves_reservations st)).

Definition swap_completed_during_refresh (st : LeavesState) (refresh_started_at : SystemTime)
    : bool :=
  match last_swap_completed_at st with
  | Some completed_at => refresh_started_at <=? completed_at
  | None => false
  end.

(** The insertion loops: a leaf marked spent is skipped. *)
Definition insert_unspent (spent : gmap TreeNodeId SystemTime) (mk : TreeNode → StoredLeaf)
    (new : list TreeNode) (pool : gmap TreeNodeId StoredLeaf) : gmap TreeNodeId StoredLeaf :=
  foldl (λ pool leaf,
    if decide (is_Some (spent !! id leaf)) then pool else <[id leaf := mk leaf]> pool) pool new.

(** The loop over [old_leaves]. *)
Definition preserve_old (refresh_started_at : SystemTime) (old : gmap TreeNodeId StoredLeaf)
    (pool : gmap TreeNodeId StoredLeaf) : gmap TreeNodeId StoredLeaf :=
  foldl (λ pool '(i, stored),
    if (refresh_started_at <=? added_at stored) && negb (bool_decide (is_Some (pool !! i)))
    then <[i := stored]> pool else pool) pool (hm_iter old).

(** The inner loop over one reservation's leaves. *)
Fixpoint refresh_entry (pool : gmap TreeNodeId StoredLeaf) (l : list StoredLeaf)
    : gmap TreeNodeId StoredLeaf * list StoredLeaf :=
  match l with
  | [] => (pool, [])
  | stored :: l =>
      match pool !! id (node stored) with
      | Some fresh =>
          let '(pool, l) := refresh_entry (delete (id (node stored)) pool) l in (pool, fresh :: l)
      | None => let '(pool, l) := refresh_entry pool l in (pool, stored :: l)
      end
  end.

Definition refresh_reservations (pool : gmap TreeNodeId StoredLeaf)
    (reservations : gmap LeavesReservationId ReservationEntry)
    : gmap TreeNodeId StoredLeaf * gmap LeavesReservationId ReservationEntry :=
  foldl (λ '(pool, res) '(rid, entry),
    let '(pool, l) := refresh_entry pool (entry_leaves entry) in
    (pool, <[rid := set_entry_leaves l entry]> res)) (pool, reservations) (hm_iter reservations).

Definition process_set_leaves (now : SystemTime) (st : LeavesState)
    (new missing_operators_leaves : list TreeNode) (refresh_started_at : SystemTime)
    : TreeResult unit * LeavesState :=
  if has_active_swap st || swap_completed_during_refresh st refresh_started_at then (Ok (), st)
  else
    let spent := filter (λ '(_, spent_at), refresh_started_at ≤ spent_at) (spent_leaf_ids st) in
    let old_leaves := leaves st in
    let old_leaf_ids := hm_keys old_leaves in
    let pool := insert_unspent spent (λ leaf, from_node leaf now) new ∅ in
    let pool := insert_unspent spent (λ leaf, from_node_missing leaf now)
                  missing_operators_leaves pool in
    let pool := preserve_old refresh_started_at old_leaves pool in
    let '(pool, reservations) := refresh_reservations pool (leaves_reservations st) in
    let dropped := filter (λ i, ¬ is_Some (pool !! i)) old_leaf_ids in
    (Ok (),
     {| leaves := pool; chains := remove_chains dropped (chains st);
        leaves_reservations := reservations; spent_leaf_ids := spent;
        last_swap_completed_at := last_swap_completed_at st |}).

(** ** Reserving *)

(** [leaves.iter().filter_map(|leaf| state.leaves.remove(&leaf.id))] *)
Fixpoint take_leaves (l : list TreeNode) (pool : gmap TreeNodeId StoredLeaf)
    : list StoredLeaf * gmap TreeNodeId StoredLeaf :=
  match l with
  | [] => ([], pool)
  | leaf :: l =>
      match pool !! id leaf with
      | Some stored =>
          let '(taken, pool) := take_leaves l (delete (id leaf) pool) in (stored :: taken, pool)
      | None => take_leaves l pool
      end
  end.

Definition reserve_internal (uuid : LeavesReservationId) (st : LeavesState) (l : list TreeNode)
    (purpose : ReservationPurpose.t) (permit : OwnedSemaphorePermit) (pending_change_amount : Z)
    : TreeResult LeavesReservationId * LeavesState :=
  if bool_decide (l = []) then (Err TreeServiceError.NonReservableLeaves, st)
  else if existsb (λ leaf, negb (bool_decide (is_Some (leaves st !! id leaf)))) l
  then (Err TreeServiceError.NonReservableLeaves, st)
  else
    let '(stored_leaves, pool) := take_leaves l (leaves st) in
    let entry :=
      {| entry_leaves := stored_leaves; purpose := purpose; _permit := permit;
         pending_change_amount := pending_change_amount |} in
    (Ok uuid,
     set_reservations (<[uuid := entry]> (leaves_reservations st)) (set_leaves_map pool st)).

Definition process_try_reserve_leaves (uuid : LeavesReservationId) (st : LeavesState)
    (target_amounts : option TargetAmounts) (exact_only : bool)
    (purpose : ReservationPurpose.t) (permit : OwnedSemaphorePermit)
    : TreeResult ReserveResult * LeavesState :=
  let target_amount := match target_amounts with Some ta => total_sats ta | None => 0 end in
  let available := state_available_balance st in
  let pending := pending_balance st in
  let pool := node <$> selectable_leaves st in
  let wait :=
    if target_amount <=? uadd 64 available pending
    then (Ok (WaitForPending target_amount available pending), st)
    else (Ok InsufficientFunds, st) in
  match select_leaves_by_target_amounts pool target_amounts with
  | Ok target_leaves =>
      let selected := amount_leaves target_leaves ++ default [] (fee_leaves target_leaves) in
      match reserve_internal uuid st selected purpose permit 0 with
      | (Ok i, st) => (Ok (Success (LeavesReservation_new selected i)), st)
      | (Err e, st) => (Err e, st)
      end
  | Err _ =>
      if negb exact_only then
        match select_leaves_by_minimum_amount pool target_amount with
        | Ok (Some selected) =>
            let reserved_amount := sum_wrap 64 (value <$> selected) in
            let pending_change_amount :=
              if (target_amount <? reserved_amount) && (0 <? target_amount)
              then usub 64 reserved_amount target_amount else 0 in
            match reserve_internal uuid st selected purpose permit pending_change_amount with
            | (Ok i, st) => (Ok (Success (LeavesReservation_new selected i)), st)
            | (Err e, st) => (Err e, st)
            end
        | _ => wait
        end
      else wait
  end.

(** The checks of [process_reserve_leaves_by_ids], leaf by leaf. *)
Definition reservable (st : LeavesState) (i : TreeNodeId) : TreeResult TreeNode :=
  stored ← ok_or (leaves st !! i) TreeServiceError.NonReservableLeaves;
  if bool_decide (status (node stored) ≠ TreeNodeStatus.Available)
     || missing_from_operators stored
  then Err TreeServiceError.NonReservableLeaves
  else Ok (node stored).

Definition process_reserve_leaves_by_ids (uuid : LeavesReservationId) (st : LeavesState)
    (leaf_ids : list TreeNodeId) (purpose : ReservationPurpose.t) (permit : OwnedSemaphorePermit)
    : TreeResult LeavesReservation * LeavesState :=
  let unique_ids : gset TreeNodeId := list_to_set leaf_ids in
  if bool_decide (leaf_ids = []) || negb (bool_decide (size unique_ids = length leaf_ids))
  then (Err TreeServiceError.NonReservableLeaves, st)
  else
    match mapR (reservable st) leaf_ids with
    | Err e => (Err e, st)
    | Ok selected =>
        match reserve_internal uuid st selected purpose permit 0 with
        | (Ok i, st) => (Ok (LeavesReservation_new selected i), st)
        | (Err e, st) => (Err e, st)
        end
    end.

Definition process_try_select_leaves (st : LeavesState) (target_amounts : option TargetAmounts)
    : TreeResult LeafSelection :=
  let pool := node <$> selectable_leaves st in
  match select_leaves_by_target_amounts pool target_amounts with
  | Ok target_leaves =>
      Ok (Exact (amount_leaves target_leaves ++ default [] (fee_leaves target_leaves)))
  | Err _ =>
      let target_amount := match target_amounts with Some ta => total_sats ta | None => 0 end in
      match select_leaves_by_minimum_amount pool target_amount with
      | Ok (Some selected) => Ok (SwapNeeded selected)
      | _ => Err TreeServiceError.InsufficientFunds
      end
  end.

(** ** Settling a reservation *)

Definition entry_ids (e : ReservationEntry) : list TreeNodeId :=
  (λ s, id (node s)) <$> entry_leaves e.

Definition process_cancel_reservation (now : SystemTime) (st : LeavesState)
    (i : LeavesReservationId) (leaves_to_keep : list TreeNode) : TreeResult unit * LeavesState :=
  let removed := leaves_reservations st !! i in
  let st := set_reservations (delete i (leaves_reservations st)) st in
  let prior_ids := match removed with Some e => entry_ids e | None => [] end in
  let keep_ids := id <$> leaves_to_keep in
  let dropped_ids := filter (λ pid, pid ∉ keep_ids) prior_ids in
  let st := set_chains (remove_chains dropped_ids (chains st)) st in
  (Ok (), set_leaves_map (insert_leaves now leaves_to_keep (leaves st)) st).

(** [now] is the clock when the leaves are marked spent, [now'] when the new
    leaves are added. *)
Definition process_finalize_reservation (now now' : SystemTime) (st : LeavesState)
    (i : LeavesReservationId) (new_leaves : option (list TreeNode))
    : TreeResult unit * LeavesState :=
  let removed := leaves_reservations st !! i in
  let st := set_reservations (delete i (leaves_reservations st)) st in
  let st :=
    match removed with
    | Some entry =>
        let st := set_spent (insert_all id (λ _, now) (node <$> entry_leaves entry)
                    (spent_leaf_ids st)) st in
        let st := set_chains (remove_chains (entry_ids entry) (chains st)) st in
        if bool_decide (purpose entry = ReservationPurpose.Swap) && bool_decide (is_Some new_leaves)
        then set_last_swap (Some now) st else st
    | None => st
    end in
  match new_leaves with
  | Some resulting_leaves =>
      (Ok (), set_leaves_map (insert_leaves now' resulting_leaves (leaves st)) st)
  | None => (Ok (), st)
  end.

Definition process_update_reservation (now : SystemTime) (st : LeavesState)
    (reservation_id : LeavesReservationId) (reserved_leaves change_leaves : list TreeNode)
    : TreeResult LeavesReservation * LeavesState :=
  match leaves_reservations st !! reservation_id with
  | None =>
      (Err (TreeServiceError.Generic ("Reservation " +:+ reservation_id +:+ " not found")), st)
  | Some old_entry =>
      let st := set_reservations (delete reservation_id (leaves_reservations st)) st in
      let st := set_chains (remove_chains (entry_ids old_entry) (chains st)) st in
      let st := set_leaves_map (insert_leaves now change_leaves (leaves st)) st in
      let reserved := (λ leaf, from_node leaf now) <$> reserved_leaves in
      let entry :=
        {| entry_leaves := reserved; purpose := purpose old_entry; _permit := _permit old_entry;
           pending_change_amount := 0 |} in
      let st := set_reservations (<[reservation_id := entry]> (leaves_reservations st)) st in
      (Ok (LeavesReservation_new (node <$> reserved) reservation_id), st)
  end.

(** ** The processor *)

(** [StoreCommand], without the response channels. *)
Inductive StoreCommand :=
| AddLeaves (leaves : list TreeNode)
| StoreAncestors (pedigrees : list LeafPedigree)
| GetLeaves
| GetExitChains (leaf_ids : list TreeNodeId)
| LeavesMissingExitChains
| SetLeaves (leaves missing_operators_leaves : list TreeNode) (refresh_started_at : SystemTime)
| TryReserveLeaves (target_amounts : option TargetAmounts) (exact_only : bool)
    (purpose : ReservationPurpose.t) (permit : OwnedSemaphorePermit)
| CancelReservation (id : LeavesReservationId) (leaves_to_keep : list TreeNode)
| FinalizeReservation (id : LeavesReservationId) (new_leaves : option (list TreeNode))
| UpdateReservation (reservation_id : LeavesReservationId)
    (reserved_leaves change_leaves : list TreeNode)
| ReserveLeavesByIds (leaf_ids : list TreeNodeId) (purpose : ReservationPurpose.t)
    (permit : OwnedSemaphorePermit)
| TrySelectLeaves (target_amounts : option TargetAmounts).

(** What goes back through the command's [oneshot] channel. *)
Inductive StoreResponse :=
| RUnit (r : TreeResult unit)
| RLeaves (r : TreeResult Leaves)
| RChains (r : TreeResult (list LeafPedigree))
| RIds (r : TreeResult (list TreeNodeId))
| RReserve (r : TreeResult ReserveResult)
| RReservation (r : TreeResult LeavesReservation)
| RSelection (r : TreeResult LeafSelection).

(** What a command reads from outside: the clock (twice) and a new UUID. *)
Record Env := { env_now : SystemTime; env_now' : SystemTime; env_uuid : LeavesReservationId }.

(** The [match command] of [run_processor]. *)
Definition process_command (env : Env) (st : LeavesState) (command : StoreCommand)
    : StoreResponse * LeavesState :=
  match command with
  | AddLeaves l => let '(r, st) := process_add_leaves (env_now env) st l in (RUnit r, st)
  | StoreAncestors p => let '(r, st) := process_store_ancestors st p in (RUnit r, st)
  | GetLeaves => (RLeaves (Ok (process_get_leaves st)), st)
  | GetExitChains ids => (RChains (Ok (process_get_exit_chains st ids)), st)
  | LeavesMissingExitChains => (RIds (Ok (process_leaves_missing_exit_chains st)), st)
  | SetLeaves l m t => let '(r, st) := process_set_leaves (env_now env) st l m t in (RUnit r, st)
  | TryReserveLeaves ta exact_only p permit =>
      let '(r, st) := process_try_reserve_leaves (env_uuid env) st ta exact_only p permit in
      (RReserve r, st)
  | CancelReservation i keep =>
      let '(r, st) := process_cancel_reservation (env_now env) st i keep in (RUnit r, st)
  | FinalizeReservation i new =>
      let '(r, st) := process_finalize_reservation (env_now env) (env_now' env) st i new in
      (RUnit r, st)
  | UpdateReservation i reserved change =>
      let '(r, st) := process_update_reservation (env_now env) st i reserved change in
      (RReservation r, st)
  | ReserveLeavesByIds ids p permit =>
      let '(r, st) := process_reserve_leaves_by_ids (env_uuid env) st ids p permit in
      (RReservation r, st)
  | TrySelectLeaves ta => (RSelection (process_try_select_leaves st ta), st)
  end.

Definition force_notify (command : StoreCommand) (response : StoreResponse) : bool :=
  match command, response with
  | UpdateReservation _ _ _, RReservation r => is_Ok r
  | _, _ => false
  end.

(** One round of the loop of [run_processor]: the response, the new state, and
    whether the balance watchers are notified. *)
Definition run_processor_step (env : Env) (st : LeavesState) (command : StoreCommand)
    : StoreResponse * LeavesState * bool :=
  let balance_before := state_available_balance st in
  let pending_before := pending_balance st in
  let '(response, st) := process_command env st command in
  let should_notify :=
    negb (state_available_balance st =? balance_before)
    || negb (pending_balance st =? pending_before)
    || force_notify command response in
  (response, st, should_notify).
End tree_store.
