(* ===== verification/TreeStoreInv.v ===== *)
(** * The tree store's invariant

    Well-formedness of [LeavesState]: the pool and the reservations share no
    leaf, nor do two reservations, every map is keyed by its leaves' ids, and
    every stored ancestor chain belongs to a leaf that is still stored. Adding,
    refreshing and reserving preserve it for any input; settling does when the
    leaves it is given are not held elsewhere ([TreeStoreHeld] says what happens
    to the others). *)

From S2P Require Import Prelude Bitcoin TreeModel ExitChain LeafSelect TreeStore.

Section invariant.
Context `{Bitcoin} `{!HashIter string}.
Implicit Types st : LeavesState.
Implicit Types pool : gmap string StoredLeaf.

Definition stored_ids (l : list StoredLeaf) : list TreeNodeId := (λ s, id (node s)) <$> l.

Definition reserved_id st i : Prop :=
  ∃ rid e, leaves_reservations st !! rid = Some e ∧ i ∈ entry_ids e.

Definition stored_id st i : Prop := is_Some (leaves st !! i) ∨ reserved_id st i.

Definition keyed pool : Prop := ∀ i s, pool !! i = Some s → id (node s) = i.
Definition pool_wf pool : Prop := ∀ i s, pool !! i = Some s → node_wf (node s).

Record wf st : Prop := {
  wf_keyed : keyed (leaves st);
  wf_values : pool_wf (leaves st);
  wf_nodup rid e : leaves_reservations st !! rid = Some e → NoDup (entry_ids e);
  wf_entry_values rid e :
    leaves_reservations st !! rid = Some e →
    Forall (λ s, node_wf (node s)) (entry_leaves e) ∧ in_uint 64 (pending_change_amount e);
  wf_disjoint i : reserved_id st i → leaves st !! i = None;
  wf_exclusive rid1 rid2 e1 e2 i :
    leaves_reservations st !! rid1 = Some e1 → leaves_reservations st !! rid2 = Some e2 →
    i ∈ entry_ids e1 → i ∈ entry_ids e2 → rid1 = rid2;
  wf_chains i : is_Some (chains st !! i) → stored_id st i;
}.

Lemma wf_default : wf LeavesState_default.
Proof.
  split; simpl.
  - intros i s Hi. by rewrite lookup_empty in Hi.
  - intros i s Hi. by rewrite lookup_empty in Hi.
  - intros rid e Hi. by rewrite lookup_empty in Hi.
  - intros rid e Hi. by rewrite lookup_empty in Hi.
  - done.
  - intros ? ? ? ? ? Hi. by rewrite lookup_empty in Hi.
  - intros i [? Hi]. by rewrite lookup_empty in Hi.
Qed.

(** ** The building blocks *)

Lemma remove_chains_lookup ids c i :
  remove_chains ids c !! i = if decide (i ∈ ids) then None else c !! i.
Proof.
  unfold remove_chains. revert c. induction ids as [|j ids IH]; intros c; simpl; [done|].
  rewrite IH, lookup_delete. repeat case_decide; set_solver.
Qed.

Lemma insert_unspent_insert_all spent mk new pool :
  insert_unspent spent mk new pool =
    insert_all id mk (filter (λ l, ¬ is_Some (spent !! id l)) new) pool.
Proof.
  unfold insert_unspent, insert_all. revert pool.
  induction new as [|l new IH]; intros pool; simpl; [done|].
  rewrite IH. case_decide; rewrite filter_cons; case_decide; done.
Qed.

Lemma insert_all_keyed now l pool : keyed pool → keyed (insert_leaves now l pool).
Proof.
  intros Hk i s [(x & _ & <- & <-)|?]%insert_all_Some; [done|by apply Hk].
Qed.

Lemma insert_leaves_dom now l pool i :
  is_Some (insert_leaves now l pool !! i) ↔ is_Some (pool !! i) ∨ i ∈ id <$> l.
Proof.
  rewrite <- !elem_of_dom. unfold insert_leaves. rewrite insert_all_dom. set_solver.
Qed.

Lemma insert_leaves_wf now l pool :
  Forall node_wf l → pool_wf pool → pool_wf (insert_leaves now l pool).
Proof.
  intros Hl Hp i s [(x & Hx & _ & <-)|?]%insert_all_Some; [|by eapply Hp].
  rewrite Forall_forall in Hl. by apply Hl.
Qed.

(** A fold that may fill vacant keys from a list of distinct keys. *)
Lemma preserve_old_lookup r old pool i :
  preserve_old r old pool !! i =
    match pool !! i with
    | Some s => Some s
    | None => s ← old !! i; if r <=? added_at s then Some s else None
    end.
Proof.
  unfold preserve_old.
  assert (∀ kvs pool, NoDup kvs.*1 →
    foldl (λ pool '(i, stored),
      if (r <=? added_at stored) && negb (bool_decide (is_Some (pool !! i)))
      then <[i := stored]> pool else pool) pool kvs !! i =
    match pool !! i with
    | Some s => Some s
    | None => s ← (list_to_map kvs : gmap string StoredLeaf) !! i;
              if r <=? added_at s then Some s else None
    end) as Hgen.
  { induction kvs as [|[k s] kvs IH]; intros p Hnd; simpl.
    { by destruct (p !! i). }
    csimpl in Hnd. apply NoDup_cons in Hnd as [Hk Hnd]. rewrite IH by done.
    rewrite lookup_insert. case_decide as Hki; [subst k|].
    - rewrite not_elem_of_list_to_map_1 by done. simpl.
      destruct (p !! i) eqn:Ep.
      + rewrite bool_decide_true by (by eexists). simpl. rewrite andb_false_r. by rewrite Ep.
      + rewrite bool_decide_false by (intros [? ?]; congruence). rewrite andb_true_r.
        destruct (r <=? added_at s); simpl; [by rewrite lookup_insert_eq|by rewrite Ep].
    - destruct (_ && _); [by rewrite lookup_insert_ne|done]. }
  rewrite Hgen by apply NoDup_hm_keys.
  replace (list_to_map (hm_iter old)) with old; [done|].
  apply map_eq. intros j. destruct (old !! j) as [s|] eqn:E.
  - symmetry. apply elem_of_list_to_map; [apply NoDup_hm_keys|]. by apply elem_of_hm_iter.
  - symmetry. apply not_elem_of_list_to_map_1. intros Hj.
    apply elem_of_hm_keys in Hj as [? ?]. congruence.
Qed.

Lemma refresh_entry_spec pool l :
  let '(pool', l') := refresh_entry pool l in
  (∀ i, pool' !! i = if decide (i ∈ stored_ids l) then None else pool !! i) ∧
  (keyed pool → stored_ids l' = stored_ids l) ∧
  (∀ s, s ∈ l' → s ∈ l ∨ ∃ i, pool !! i = Some s).
Proof.
  revert pool. induction l as [|s l IH]; intros pool; simpl.
  { split_and!; [done|done|by auto]. }
  destruct (pool !! id (node s)) as [fresh|] eqn:E.
  - specialize (IH (delete (id (node s)) pool)). destruct (refresh_entry _ l) as [pool' l'].
    destruct IH as (Hl & Hids & Hin). split_and!.
    + intros i. rewrite Hl, lookup_delete. csimpl.
      repeat case_decide; set_solver.
    + intros Hk. csimpl. rewrite Hids; [by rewrite (Hk _ _ E)|].
      intros i x [_ Hx]%lookup_delete_Some. by apply Hk.
    + intros x [->|Hx]%elem_of_cons; [by eauto|]. apply Hin in Hx as [?|[i Hx]]; [set_solver|].
      apply lookup_delete_Some in Hx as [_ Hx]. eauto.
  - specialize (IH pool). destruct (refresh_entry _ l) as [pool' l'].
    destruct IH as (Hl & Hids & Hin). split_and!.
    + intros i. rewrite Hl. csimpl. repeat case_decide; set_solver.
    + intros Hk. csimpl. by rewrite Hids.
    + intros x [->|Hx]%elem_of_cons; [set_solver|]. apply Hin in Hx as [?|?]; [set_solver|auto].
Qed.

Lemma take_leaves_spec l pool :
  let '(taken, pool') := take_leaves l pool in
  (∀ i, pool' !! i = if decide (i ∈ id <$> l) then None else pool !! i) ∧
  (∀ s, s ∈ taken → ∃ i, i ∈ id <$> l ∧ pool !! i = Some s) ∧
  (keyed pool → NoDup (stored_ids taken)).
Proof.
  revert pool. induction l as [|n l IH]; intros pool; simpl.
  { split_and!; [done|by intros s ?%elem_of_nil|intros; apply NoDup_nil_2]. }
  destruct (pool !! id n) as [s|] eqn:E.
  - specialize (IH (delete (id n) pool)). destruct (take_leaves l _) as [taken pool'].
    destruct IH as (Hl & Hin & Hnd). split_and!.
    + intros i. rewrite Hl, lookup_delete. csimpl. repeat case_decide; set_solver.
    + intros x [->|Hx]%elem_of_cons; [exists (id n); csimpl; set_solver|].
      apply Hin in Hx as (i & ? & [_ ?]%lookup_delete_Some). exists i. csimpl. set_solver.
    + intros Hk. csimpl. constructor.
      * intros (x & Hx & (i & _ & [Hne Hi]%lookup_delete_Some)%Hin)%list_elem_of_fmap.
        apply Hk in Hi. apply Hk in E. congruence.
      * apply Hnd. intros i x [_ ?]%lookup_delete_Some. by apply Hk.
  - specialize (IH pool). destruct (take_leaves l _) as [taken pool'].
    destruct IH as (Hl & Hin & Hnd). split_and!; [|naive_solver set_solver|done].
    intros i. rewrite Hl. csimpl. repeat case_decide; set_solver.
Qed.

Lemma refresh_entry_exact pool l :
  NoDup (stored_ids l) →
  (refresh_entry pool l).2 = (λ s, default s (pool !! id (node s))) <$> l.
Proof.
  revert pool. induction l as [|s l IH]; intros pool Hnd; [done|].
  csimpl in Hnd. apply NoDup_cons in Hnd as [Hs Hnd]. simpl.
  destruct (pool !! id (node s)) as [fresh|] eqn:E.
  - specialize (IH (delete (id (node s)) pool) Hnd).
    destruct (refresh_entry _ l) as [pool' l']. csimpl in *. subst l'. f_equal.
    apply list_fmap_ext. intros i x Hx. rewrite lookup_delete_ne; [done|].
    intros Heq. apply Hs. apply list_elem_of_fmap. exists x. split; [done|].
    by eapply list_elem_of_lookup_2.
  - specialize (IH pool Hnd). destruct (refresh_entry _ l) as [pool' l'].
    csimpl in *. by rewrite IH.
Qed.

(** The ids a list of reservations holds. *)
Definition kvs_ids (kvs : list (string * ReservationEntry)) : list TreeNodeId :=
  kvs.*2 ≫= entry_ids.

Definition refresh_fold (pool : gmap string StoredLeaf) (res : gmap string ReservationEntry)
    (kvs : list (string * ReservationEntry)) :=
  foldl (λ '(pool, res) '(rid, entry),
    let '(pool, l) := refresh_entry pool (entry_leaves entry) in
    (pool, <[rid := set_entry_leaves l entry]> res)) (pool, res) kvs.

Lemma refresh_fold_cons pool res rid e kvs :
  refresh_fold pool res ((rid, e) :: kvs) =
    refresh_fold (refresh_entry pool (entry_leaves e)).1
      (<[rid := set_entry_leaves (refresh_entry pool (entry_leaves e)).2 e]> res) kvs.
Proof. unfold refresh_fold. simpl. by destruct (refresh_entry _ _). Qed.

Lemma refresh_fold_pool pool res kvs i :
  (refresh_fold pool res kvs).1 !! i = if decide (i ∈ kvs_ids kvs) then None else pool !! i.
Proof.
  revert pool res. induction kvs as [|[rid e] kvs IH]; intros pool res; [done|].
  rewrite refresh_fold_cons, IH.
  pose proof (refresh_entry_spec pool (entry_leaves e)) as Hs.
  destruct (refresh_entry pool (entry_leaves e)) as [pool' l]. destruct Hs as (Hl & _). simpl.
  rewrite Hl. unfold kvs_ids. csimpl.
  repeat case_decide; rewrite ?elem_of_app in *; unfold entry_ids, stored_ids in *; naive_solver.
Qed.

Lemma refresh_fold_other pool res kvs rid :
  rid ∉ kvs.*1 → (refresh_fold pool res kvs).2 !! rid = res !! rid.
Proof.
  revert pool res. induction kvs as [|[rid' e] kvs IH]; intros pool res Hn; [done|].
  csimpl in Hn. apply not_elem_of_cons in Hn as [? ?].
  rewrite refresh_fold_cons, IH by done. by rewrite lookup_insert_ne.
Qed.

(** Every entry keeps its purpose and its pending change; each of its leaves is
    replaced by the fresh copy of the pool, if there is one. *)
Lemma refresh_fold_entry pool res kvs rid e :
  NoDup kvs.*1 → NoDup (kvs_ids kvs) → (rid, e) ∈ kvs →
  (refresh_fold pool res kvs).2 !! rid =
    Some (set_entry_leaves ((λ s, default s (pool !! id (node s))) <$> entry_leaves e) e).
Proof.
  revert pool res. induction kvs as [|[rid' e'] kvs IH]; intros pool res Hnd Hids Hin;
    [by apply elem_of_nil in Hin|].
  csimpl in Hnd. apply NoDup_cons in Hnd as [Hn Hnd].
  unfold kvs_ids in Hids. csimpl in Hids. apply NoDup_app in Hids as (Hid1 & Hid12 & Hid2).
  rewrite refresh_fold_cons. apply elem_of_cons in Hin as [Hin|Hin].
  - simplify_eq. rewrite refresh_fold_other, lookup_insert_eq by done.
    by rewrite refresh_entry_exact.
  - rewrite (IH _ _ Hnd Hid2 Hin). do 2 f_equal. apply list_fmap_ext. intros i s Hs.
    pose proof (refresh_entry_spec pool (entry_leaves e')) as Hsp.
    destruct (refresh_entry pool (entry_leaves e')) as [pool' l]. destruct Hsp as (Hl & _). simpl.
    rewrite Hl, decide_False; [done|]. intros Hbad. apply (Hid12 _ Hbad).
    apply list_elem_of_bind. exists e. split.
    + apply list_elem_of_fmap. exists s. split; [done|]. by eapply list_elem_of_lookup_2.
    + apply list_elem_of_fmap. by exists (rid, e).
Qed.

Lemma kvs_ids_elem st i : i ∈ kvs_ids (hm_iter (leaves_reservations st)) ↔ reserved_id st i.
Proof.
  unfold kvs_ids. rewrite list_elem_of_bind. split.
  - intros (e & He & ([rid e'] & -> & ?%elem_of_hm_iter)%list_elem_of_fmap). by exists rid, e'.
  - intros (rid & e & ? & ?). exists e. split; [done|]. apply list_elem_of_fmap.
    exists (rid, e). split; [done|]. by apply elem_of_hm_iter.
Qed.

Lemma kvs_ids_NoDup st : wf st → NoDup (kvs_ids (hm_iter (leaves_reservations st))).
Proof.
  intros Hwf.
  assert (∀ kvs, NoDup kvs.*1 → (∀ k, k ∈ kvs → leaves_reservations st !! k.1 = Some k.2) →
    NoDup (kvs_ids kvs)) as Hgen.
  { induction kvs as [|[rid e] kvs IH]; intros Hnd Hk; [apply NoDup_nil_2|].
    csimpl in Hnd. apply NoDup_cons in Hnd as [Hn Hnd]. unfold kvs_ids. csimpl.
    apply NoDup_app. split_and!.
    - eapply (wf_nodup st Hwf rid). apply (Hk (rid, e)). by left.
    - intros i Hi (e' & Hi' & ([rid' e''] & -> & Hin)%list_elem_of_fmap)%list_elem_of_bind.
      apply Hn. apply list_elem_of_fmap. exists (rid', e''). split; [|done]. simpl in *.
      eapply (wf_exclusive st Hwf rid rid'); [apply (Hk (rid, e)); by left| |done|done].
      apply (Hk (rid', e'')). by right.
    - apply IH; [done|]. intros k ?. apply Hk. by right. }
  apply Hgen; [apply NoDup_hm_keys|]. intros [rid e] Hin. by apply elem_of_hm_iter.
Qed.

(** The reservations after a refresh, entry by entry. *)
Lemma refresh_reservations_lookup st pool rid :
  wf st →
  (refresh_reservations pool (leaves_reservations st)).2 !! rid =
    (λ e, set_entry_leaves ((λ s, default s (pool !! id (node s))) <$> entry_leaves e) e)
      <$> leaves_reservations st !! rid.
Proof.
  intros Hwf. change (refresh_reservations pool (leaves_reservations st)) with
    (refresh_fold pool (leaves_reservations st) (hm_iter (leaves_reservations st))).
  destruct (leaves_reservations st !! rid) as [e|] eqn:E; simpl.
  - apply refresh_fold_entry; [apply NoDup_hm_keys|by apply kvs_ids_NoDup|].
    by apply elem_of_hm_iter.
  - rewrite refresh_fold_other; [done|]. change (rid ∉ hm_keys (leaves_reservations st)).
    rewrite elem_of_hm_keys, E. by intros [? ?].
Qed.

Lemma refresh_reservations_pool st pool i :
  (refresh_reservations pool (leaves_reservations st)).1 !! i =
    if decide (i ∈ kvs_ids (hm_iter (leaves_reservations st))) then None else pool !! i.
Proof. apply refresh_fold_pool. Qed.

(** ** Preservation, one shape of state change at a time *)

Definition same_ids (r r' : gmap string ReservationEntry) : Prop :=
  ∀ rid, entry_ids <$> r' !! rid = entry_ids <$> r !! rid.

Lemma same_ids_entry r r' rid e' :
  same_ids r r' → r' !! rid = Some e' → ∃ e, r !! rid = Some e ∧ entry_ids e' = entry_ids e.
Proof.
  intros Hs He. specialize (Hs rid). rewrite He in Hs. simpl in Hs.
  destruct (r !! rid) as [e|]; simplify_eq/=. by exists e.
Qed.

Lemma same_ids_sym r r' : same_ids r r' → same_ids r' r.
Proof. intros Hs rid. by rewrite Hs. Qed.

Lemma same_ids_reserved st st' i :
  same_ids (leaves_reservations st) (leaves_reservations st') → reserved_id st' i → reserved_id st i.
Proof.
  intros Hs (rid & e' & He' & Hi). destruct (same_ids_entry _ _ _ _ Hs He') as (e & ? & Heq).
  exists rid, e. by rewrite <- Heq.
Qed.

Lemma refresh_fold_same_ids pool res kvs :
  keyed pool → NoDup kvs.*1 → (∀ rid e, (rid, e) ∈ kvs → res !! rid = Some e) →
  same_ids res (refresh_fold pool res kvs).2.
Proof.
  revert pool res. induction kvs as [|[rid e] kvs IH]; intros pool res Hk Hnd Hres; [done|].
  csimpl in Hnd. apply NoDup_cons in Hnd as [Hn Hnd]. rewrite refresh_fold_cons.
  pose proof (refresh_entry_spec pool (entry_leaves e)) as Hs.
  destruct (refresh_entry pool (entry_leaves e)) as [pool' l]. destruct Hs as (Hl & Hids & _).
  specialize (Hids Hk). cbn [fst snd].
  assert (keyed pool') as Hk'.
  { intros i s Hi. rewrite Hl in Hi. case_decide; [done|]. by apply Hk. }
  intros k. rewrite (IH pool' (<[rid := set_entry_leaves l e]> res) Hk' Hnd).
  2:{ intros k' e' Hin. rewrite lookup_insert_ne; [apply Hres; by right|].
      intros <-. apply Hn. apply list_elem_of_fmap. by exists (rid, e'). }
  rewrite lookup_insert. case_decide as Hkk; [subst k|done].
  rewrite (Hres rid e ltac:(by left)). simpl. f_equal. exact Hids.
Qed.

(** The reservations keep their ids; the pool and the chains change. *)
Lemma wf_same_ids st st' :
  wf st → same_ids (leaves_reservations st) (leaves_reservations st') →
  (∀ rid e, leaves_reservations st' !! rid = Some e →
    Forall (λ s, node_wf (node s)) (entry_leaves e) ∧ in_uint 64 (pending_change_amount e)) →
  keyed (leaves st') → pool_wf (leaves st') →
  (∀ i, reserved_id st i → leaves st' !! i = None) →
  (∀ i, is_Some (chains st' !! i) → stored_id st' i) →
  wf st'.
Proof.
  intros Hwf Hs Hv Hk Hp Hd Hc. split; try done.
  - intros rid e' He'. destruct (same_ids_entry _ _ _ _ Hs He') as (e & ? & ->).
    by eapply wf_nodup.
  - intros i Hi. apply Hd. by eapply same_ids_reserved.
  - intros rid1 rid2 e1 e2 i He1 He2.
    destruct (same_ids_entry _ _ _ _ Hs He1) as (? & ? & ->).
    destruct (same_ids_entry _ _ _ _ Hs He2) as (? & ? & ->). by eapply wf_exclusive.
Qed.

(** A new reservation takes leaves out of the pool. *)
Lemma wf_add_entry st rid e pool :
  wf st → leaves_reservations st !! rid = None →
  NoDup (entry_ids e) → Forall (λ s, node_wf (node s)) (entry_leaves e) →
  in_uint 64 (pending_change_amount e) →
  pool ⊆ leaves st → (∀ i, i ∈ entry_ids e → pool !! i = None ∧ ¬ reserved_id st i) →
  (∀ i, is_Some (leaves st !! i) → is_Some (pool !! i) ∨ i ∈ entry_ids e) →
  wf (set_reservations (<[rid := e]> (leaves_reservations st)) (set_leaves_map pool st)).
Proof.
  intros Hwf Hrid Hnd Hv Hpend Hsub Hdis Hcov.
  assert (∀ i, reserved_id (set_reservations (<[rid := e]> (leaves_reservations st))
    (set_leaves_map pool st)) i ↔ i ∈ entry_ids e ∨ reserved_id st i) as Hres.
  { intros i. split.
    - intros (rid' & e' & He' & Hi). simpl in He'.
      apply lookup_insert_Some in He' as [[<- <-]|[? ?]]; [by left|]. right. by exists rid', e'.
    - intros [Hi|(rid' & e' & He' & Hi)]; [exists rid, e; simpl; by rewrite lookup_insert_eq|].
      exists rid', e'. simpl. rewrite lookup_insert_ne; [done|]. by intros <-; congruence. }
  split; simpl.
  - intros i s Hi. eapply wf_keyed; [done|]. by eapply lookup_weaken.
  - intros i s Hi. eapply wf_values; [done|]. by eapply lookup_weaken.
  - intros rid' e' [[<- <-]|[? ?]]%lookup_insert_Some; [done|]. by eapply wf_nodup.
  - intros rid' e' [[<- <-]|[? ?]]%lookup_insert_Some; [done|]. by eapply wf_entry_values.
  - intros i [Hi|Hi]%Hres; [by apply Hdis|].
    destruct (pool !! i) as [s|] eqn:Hs; [|done].
    rewrite <- (wf_disjoint st Hwf i Hi). symmetry. by eapply lookup_weaken.
  - intros rid1 rid2 e1 e2 i [[<- <-]|[? He1]]%lookup_insert_Some
      [[<- <-]|[? He2]]%lookup_insert_Some Hi1 Hi2; [done|exfalso..|by eapply wf_exclusive].
    + apply (Hdis _ Hi1). by exists rid2, e2.
    + apply (Hdis _ Hi2). by exists rid1, e1.
  - intros i [Hi|Hi]%(wf_chains st Hwf).
    + destruct (Hcov i Hi) as [?|?]; [by left|right; apply Hres; by left].
    + right. apply Hres. by right.
Qed.

(** A reservation is settled and leaves are put into the pool. *)
Lemma wf_settle now st rid l spent c t :
  wf st → Forall node_wf l →
  (∀ i rid' e, rid' ≠ rid → leaves_reservations st !! rid' = Some e →
    i ∈ entry_ids e → i ∉ id <$> l) →
  (∀ i, is_Some (c !! i) → is_Some (chains st !! i) ∧
    ∀ e, leaves_reservations st !! rid = Some e → i ∈ entry_ids e → i ∈ id <$> l) →
  wf {| leaves := insert_leaves now l (leaves st); chains := c;
        leaves_reservations := delete rid (leaves_reservations st);
        spent_leaf_ids := spent; last_swap_completed_at := t |}.
Proof.
  intros Hwf Hl Hex Hc. split; simpl.
  - apply insert_all_keyed, (wf_keyed st Hwf).
  - apply insert_leaves_wf; [done|]. apply (wf_values st Hwf).
  - intros rid' e [_ ?]%lookup_delete_Some. by eapply wf_nodup.
  - intros rid' e [_ ?]%lookup_delete_Some. by eapply wf_entry_values.
  - intros i (rid' & e & He & Hi). simpl in He. apply lookup_delete_Some in He as [? He].
    apply eq_None_not_Some. rewrite insert_leaves_dom. intros [Hp|Hp].
    + rewrite (wf_disjoint st Hwf) in Hp; [by destruct Hp|]. by exists rid', e.
    + by eapply Hex.
  - intros rid1 rid2 e1 e2 i [_ ?]%lookup_delete_Some [_ ?]%lookup_delete_Some.
    by eapply wf_exclusive.
  - intros i [Hi Hin]%Hc. apply (wf_chains st Hwf) in Hi as [Hi|(rid' & e & He & Hi)].
    + left. simpl. apply insert_leaves_dom. by left.
    + destruct (decide (rid' = rid)) as [->|Hne].
      * left. simpl. apply insert_leaves_dom. right. by eapply Hin.
      * right. exists rid', e. simpl. by rewrite lookup_delete_ne.
Qed.

(** ** Preservation by each command *)

Lemma update_node_Some leaf l l' :
  update_node leaf l = Some l' →
  stored_ids l' = stored_ids l ∧ id leaf ∈ stored_ids l ∧
  (∀ s, s ∈ l' → s ∈ l ∨ node s = leaf).
Proof.
  revert l'. induction l as [|s l IH]; intros l'; simpl; [done|]. case_decide as Hs.
  - intros [= <-]. csimpl. rewrite Hs. split_and!; [done|by left|].
    intros x [->|?]%elem_of_cons; [by right|left; by right].
  - intros (l1 & Hl1 & [= <-])%bind_Some. destruct (IH _ Hl1) as (E & ? & Hin). csimpl.
    rewrite E. split_and!; [done|by right|]. intros x [->|[?|?]%Hin]%elem_of_cons.
    + left. by left.
    + left. by right.
    + by right.
Qed.

Lemma update_node_None leaf l : update_node leaf l = None ↔ id leaf ∉ stored_ids l.
Proof.
  induction l as [|s l IH]; simpl.
  - split; [|done]. intros _ ?%elem_of_nil. done.
  - csimpl. rewrite not_elem_of_cons. case_decide as Hs.
    + split; [done|]. intros [[] _]. done.
    + rewrite bind_None, <- IH. naive_solver.
Qed.

Lemma wf_add_leaf now st leaf : wf st → node_wf leaf → wf (add_leaf now st leaf).
Proof.
  intros Hwf Hleaf. unfold add_leaf. destruct (find_map _ _) as [[rid e']|] eqn:Hf.
  - apply find_map_Some in Hf as ([rid0 e] & He%elem_of_hm_iter & (l & Hl & [= -> <-])%bind_Some).
    apply update_node_Some in Hl as (Hids & _ & Hin).
    assert (same_ids (leaves_reservations st)
      (<[rid := set_entry_leaves l e]> (leaves_reservations st))) as Hsame.
    { intros rid'. rewrite lookup_insert. case_decide; subst; [|done].
      rewrite He. simpl. f_equal. exact Hids. }
    eapply wf_same_ids; [done|exact Hsame|..]; simpl.
    + intros rid' e' [[<- <-]|[? ?]]%lookup_insert_Some; [|by eapply wf_entry_values].
      simpl. destruct (wf_entry_values st Hwf _ _ He) as [Hv ?]. split; [|done].
      rewrite Forall_forall in Hv |- *. intros s [?|<-]%Hin; [auto|done].
    + apply (wf_keyed st Hwf).
    + apply (wf_values st Hwf).
    + apply (wf_disjoint st Hwf).
    + intros i [?|?]%(wf_chains st Hwf); [by left|right].
      eapply (same_ids_reserved _ st); [apply same_ids_sym, Hsame|done].
  - rewrite find_map_None in Hf.
    assert (¬ reserved_id st (id leaf)) as Hnr.
    { intros (rid & e & He & Hi). specialize (Hf (rid, e) (proj2 (elem_of_hm_iter _ _ _) He)).
      simpl in Hf. apply bind_None in Hf as [Hf|(? & ? & ?)]; [|done].
      by apply update_node_None in Hf. }
    eapply wf_same_ids; [done|by intros rid|..]; simpl.
    + apply (wf_entry_values st Hwf).
    + apply (insert_all_keyed now [leaf]), (wf_keyed st Hwf).
    + apply (insert_leaves_wf now [leaf]); [by constructor|]. apply (wf_values st Hwf).
    + intros i Hi. rewrite lookup_insert_ne; [by apply (wf_disjoint st Hwf)|]. by intros <-.
    + intros i [Hi|?]%(wf_chains st Hwf); [left|by right]. simpl.
      destruct (decide (id leaf = i)) as [<-|]; [rewrite lookup_insert_eq; by eexists|].
      by rewrite lookup_insert_ne.
Qed.

Lemma wf_process_add_leaves now st l :
  wf st → Forall node_wf l → wf (process_add_leaves now st l).2.
Proof.
  simpl. intros Hwf Hl. revert st Hwf. induction Hl; intros st Hwf; simpl; [done|].
  by apply IHHl, wf_add_leaf.
Qed.

Lemma find_stored_leaf_is_Some st i :
  is_Some (find_stored_leaf st i) ↔ stored_id st i.
Proof.
  unfold find_stored_leaf, stored_id. destruct (leaves st !! i) as [s|] eqn:E.
  { split; [left|]; by eexists. }
  split.
  - intros [n (e & [rid He]%elem_of_hm_values & Hn)%find_map_Some]. right. exists rid, e.
    split; [done|]. apply fmap_Some in Hn as (s & [Hs <-%bool_decide_eq_true_1]%find_some & _).
    apply list_elem_of_fmap. exists s. split; [done|]. by apply list_elem_of_In.
  - intros [[? ?]|(rid & e & He & Hi)]; [done|].
    apply list_elem_of_fmap in Hi as (s & -> & Hs).
    destruct (find_map _ _) eqn:Hf; [by eexists|exfalso].
    rewrite find_map_None in Hf.
    specialize (Hf e (proj2 (elem_of_hm_values _ _) (ex_intro _ rid He))).
    apply fmap_None in Hf. apply list_elem_of_In in Hs.
    eapply find_none in Hf; [|done]. by apply bool_decide_eq_false_1 in Hf.
Qed.

Lemma wf_store_ancestors st ps : wf st → wf (process_store_ancestors st ps).2.
Proof.
  simpl. revert st. induction ps as [|p ps IH]; intros st Hwf; simpl; [done|]. apply IH.
  destruct (find_stored_leaf st (id (leaf p))) eqn:Hf; [|done].
  unfold upsert_ancestors. case_bool_decide; [done|].
  assert (stored_id st (id (leaf p))) as Hst by (apply find_stored_leaf_is_Some; by eexists).
  destruct Hwf. split; try done. simpl. intros i Hi.
  destruct (decide (id (leaf p) = i)) as [<-|]; [done|]. rewrite lookup_insert_ne in Hi by done.
  by apply wf_chains0.
Qed.

(** The pool a refresh computes before reserved leaves are taken out of it. *)
Definition refreshed_pool (now : SystemTime) st new missing (refresh : SystemTime) :=
  let spent := filter (λ '(_, spent_at), refresh ≤ spent_at) (spent_leaf_ids st) in
  preserve_old refresh (leaves st)
    (insert_unspent spent (λ leaf, from_node_missing leaf now) missing
      (insert_unspent spent (λ leaf, from_node leaf now) new ∅)).

Lemma refreshed_pool_keyed now st new missing refresh :
  keyed (leaves st) → keyed (refreshed_pool now st new missing refresh).
Proof.
  intros Hwf i s. unfold refreshed_pool. rewrite preserve_old_lookup, !insert_unspent_insert_all.
  case_match eqn:E.
  - intros [= <-]. by apply insert_all_Some in E as
      [(x & _ & <- & <-)|[(x & _ & <- & <-)|?%lookup_empty_Some]%insert_all_Some].
  - intros (s' & Hs' & Hx)%bind_Some. destruct (refresh <=? _); simplify_eq. by apply Hwf.
Qed.

Lemma refreshed_pool_facts now st new missing refresh :
  wf st → Forall node_wf new → Forall node_wf missing →
  keyed (refreshed_pool now st new missing refresh) ∧
  pool_wf (refreshed_pool now st new missing refresh).
Proof.
  intros Hwf Hn Hm. split; [by apply refreshed_pool_keyed, (wf_keyed st Hwf)|].
  intros i s. unfold refreshed_pool. rewrite preserve_old_lookup, !insert_unspent_insert_all.
  rewrite Forall_forall in Hn, Hm. case_match eqn:E.
  - intros [= <-]. apply insert_all_Some in E as
      [(x & [_ Hx]%list_elem_of_filter & _ & <-)
      |[(x & [_ Hx]%list_elem_of_filter & _ & <-)|?%lookup_empty_Some]%insert_all_Some];
      [by apply Hm|by apply Hn|done].
  - intros (s' & Hs' & Hx)%bind_Some. destruct (refresh <=? _); simplify_eq.
    by eapply (wf_values st Hwf).
Qed.

Lemma set_leaves_eq now st new missing refresh :
  has_active_swap st || swap_completed_during_refresh st refresh = false →
  let pool := refreshed_pool now st new missing refresh in
  let pool' := (refresh_reservations pool (leaves_reservations st)).1 in
  (process_set_leaves now st new missing refresh).2 =
    {| leaves := pool';
       chains := remove_chains (filter (λ i, ¬ is_Some (pool' !! i)) (hm_keys (leaves st))) (chains st);
       leaves_reservations := (refresh_reservations pool (leaves_reservations st)).2;
       spent_leaf_ids := filter (λ '(_, spent_at), refresh ≤ spent_at) (spent_leaf_ids st);
       last_swap_completed_at := last_swap_completed_at st |}.
Proof.
  intros Hg. unfold process_set_leaves. rewrite Hg. unfold refreshed_pool.
  by destruct (refresh_reservations _ _).
Qed.

Lemma refresh_same_ids st pool :
  keyed pool →
  same_ids (leaves_reservations st) (refresh_reservations pool (leaves_reservations st)).2.
Proof.
  intros Hk. change (refresh_reservations pool (leaves_reservations st)) with
    (refresh_fold pool (leaves_reservations st) (hm_iter (leaves_reservations st))).
  apply refresh_fold_same_ids; [done|apply NoDup_hm_keys|].
  intros k e. by rewrite elem_of_hm_iter.
Qed.

Lemma wf_set_leaves now st new missing refresh :
  wf st → Forall node_wf new → Forall node_wf missing →
  wf (process_set_leaves now st new missing refresh).2.
Proof.
  intros Hwf Hn Hm.
  destruct (has_active_swap st || swap_completed_during_refresh st refresh) eqn:Hg.
  { unfold process_set_leaves. by rewrite Hg. }
  rewrite set_leaves_eq by done. set (pool := refreshed_pool now st new missing refresh).
  destruct (refreshed_pool_facts now st new missing refresh Hwf Hn Hm) as [Hk Hp].
  fold pool in Hk, Hp. simpl.
  pose proof (refresh_same_ids st pool Hk) as Hsame.
  eapply wf_same_ids; [done|exact Hsame|..]; simpl.
  - intros rid e'. rewrite refresh_reservations_lookup by done.
    intros (e & He & ->)%fmap_Some. simpl. destruct (wf_entry_values st Hwf _ _ He) as [Hv ?].
    split; [|done]. apply Forall_fmap. eapply Forall_impl; [done|]. intros s Hs. simpl.
    destruct (pool !! id (node s)) eqn:E; simpl; [|done]. by eapply Hp.
  - intros i s. rewrite refresh_reservations_pool. case_decide; [done|]. apply Hk.
  - intros i s. rewrite refresh_reservations_pool. case_decide; [done|]. apply Hp.
  - intros i Hi. rewrite refresh_reservations_pool, decide_True; [done|]. by apply kvs_ids_elem.
  - intros i. rewrite remove_chains_lookup. case_decide as Hd; [by intros [? ?]|].
    intros [Hi|Hi]%(wf_chains st Hwf).
    + left. simpl. destruct (decide (is_Some ((refresh_reservations pool
        (leaves_reservations st)).1 !! i))) as [|Hns]; [done|].
      exfalso. apply Hd. apply list_elem_of_filter. split; [done|]. by apply elem_of_hm_keys.
    + right. eapply (same_ids_reserved _ st); [|done]. by apply same_ids_sym.
Qed.

(** What a successful [reserve_internal] does. *)
Lemma reserve_internal_Ok uuid st l p permit pending i st' :
  reserve_internal uuid st l p permit pending = (Ok i, st') →
  i = uuid ∧ l ≠ [] ∧ (∀ x, x ∈ l → is_Some (leaves st !! id x)) ∧
  st' = set_reservations
    (<[uuid := {| entry_leaves := (take_leaves l (leaves st)).1; purpose := p;
                  _permit := permit; pending_change_amount := pending |}]>
      (leaves_reservations st)) (set_leaves_map (take_leaves l (leaves st)).2 st).
Proof.
  unfold reserve_internal. case_bool_decide as Hl; [done|].
  destruct (existsb _ l) eqn:E; [done|].
  destruct (take_leaves l (leaves st)) as [taken pool]. intros [= <- <-].
  split_and!; [done|done| |done]. intros x Hx%list_elem_of_In.
  destruct (decide (is_Some (leaves st !! id x))) as [|Hn]; [done|exfalso].
  apply not_true_iff_false in E. apply E. apply existsb_exists. exists x. split; [done|].
  by rewrite bool_decide_false.
Qed.

Lemma reserve_internal_Err uuid st l p permit pending e st' :
  reserve_internal uuid st l p permit pending = (Err e, st') →
  st' = st ∧ e = TreeServiceError.NonReservableLeaves.
Proof.
  unfold reserve_internal. case_bool_decide; [naive_solver|].
  destruct (existsb _ l); [naive_solver|]. by destruct (take_leaves _ _).
Qed.

Lemma take_leaves_ids l pool :
  keyed pool → NoDup (id <$> l) → (∀ x, x ∈ l → is_Some (pool !! id x)) →
  stored_ids (take_leaves l pool).1 = id <$> l.
Proof.
  revert pool. induction l as [|n l IH]; intros pool Hk Hnd Hall; [done|].
  csimpl in Hnd. apply NoDup_cons in Hnd as [Hn Hnd]. simpl.
  destruct (Hall n ltac:(by left)) as [s Hs]. rewrite Hs.
  specialize (IH (delete (id n) pool)). destruct (take_leaves l _) as [taken pool']. csimpl in *.
  rewrite IH; [by rewrite (Hk _ _ Hs)| |done|].
  - intros i x [_ ?]%lookup_delete_Some. by apply Hk.
  - intros x Hx. rewrite lookup_delete_ne; [apply Hall; by right|].
    intros Heq. apply Hn. rewrite Heq. by apply list_elem_of_fmap_2.
Qed.

Lemma take_leaves_covers l pool i :
  keyed pool → i ∈ id <$> l → is_Some (pool !! i) → i ∈ stored_ids (take_leaves l pool).1.
Proof.
  revert pool. induction l as [|n l IH]; intros pool Hk Hin [s Hs]; [by apply elem_of_nil in Hin|].
  csimpl in Hin. simpl. destruct (decide (id n = i)) as [<-|Hne].
  - rewrite Hs. destruct (take_leaves l _). csimpl. rewrite (Hk _ _ Hs). by left.
  - apply elem_of_cons in Hin as [?|Hin]; [congruence|].
    destruct (pool !! id n) eqn:E.
    + specialize (IH (delete (id n) pool)). destruct (take_leaves l _). csimpl in *. right.
      apply IH; [|done|by rewrite lookup_delete_ne].
      intros j x [_ ?]%lookup_delete_Some. by apply Hk.
    + by apply IH.
Qed.

Lemma wf_reserve_internal uuid st l p permit pending :
  wf st → leaves_reservations st !! uuid = None → in_uint 64 pending →
  wf (reserve_internal uuid st l p permit pending).2.
Proof.
  intros Hwf Hu Hp. destruct (reserve_internal _ _ _ _ _ _) as [[rid|e] st'] eqn:E; simpl.
  2:{ by apply reserve_internal_Err in E as [-> _]. }
  apply reserve_internal_Ok in E as (_ & _ & Hall & ->).
  pose proof (take_leaves_spec l (leaves st)) as Hs.
  pose proof (λ i, take_leaves_covers l (leaves st) i) as Hcov.
  destruct (take_leaves l (leaves st)) as [taken pool]. destruct Hs as (Hl & Hin & Hnd).
  simpl in *. assert (∀ i, i ∈ stored_ids taken → i ∈ id <$> l) as Hsub.
  { intros i (s & -> & (j & ? & Hj)%Hin)%list_elem_of_fmap. by rewrite (wf_keyed st Hwf _ _ Hj). }
  apply wf_add_entry; simpl; try done.
  - apply Hnd, (wf_keyed st Hwf).
  - apply Forall_forall. intros s (j & _ & Hj)%Hin. by eapply (wf_values st Hwf).
  - apply map_subseteq_spec. intros i s. rewrite Hl. by case_decide.
  - intros i Hi. split; [rewrite Hl, decide_True; [done|by apply Hsub]|].
    intros Hr%(wf_disjoint st Hwf). apply list_elem_of_fmap in Hi as (s & -> & (j & _ & Hj)%Hin).
    apply (wf_keyed st Hwf) in Hj as Hkj. simpl in *. congruence.
  - intros i Hi. rewrite Hl. case_decide as Hd; [|by left]. right.
    apply (Hcov i); [apply (wf_keyed st Hwf)|done|done].
Qed.

Lemma sum_wrap_range l : in_uint 64 (sum_wrap 64 l).
Proof. rewrite sum_wrap_mod by done. by apply wrap_range. Qed.

Lemma wf_try_reserve uuid st ta exact_only p permit :
  wf st → leaves_reservations st !! uuid = None →
  wf (process_try_reserve_leaves uuid st ta exact_only p permit).2.
Proof.
  intros Hwf Hu. unfold process_try_reserve_leaves.
  assert (∀ l pending, in_uint 64 pending →
    wf (match reserve_internal uuid st l p permit pending with
        | (Ok i, st) => (Ok (Success (LeavesReservation_new l i)), st)
        | (Err e, st) => (Err e, st)
        end).2) as Hres.
  { intros l pending Hp. pose proof (wf_reserve_internal uuid st l p permit pending Hwf Hu Hp).
    by destruct (reserve_internal _ _ _ _ _ _) as [[?|?] ?]. }
  destruct (select_leaves_by_target_amounts _ _); [by apply Hres|].
  destruct (negb exact_only); [|by case_match].
  destruct (select_leaves_by_minimum_amount _ _) as [[sel|]|]; [|by case_match..].
  apply Hres. case_match; [by apply wrap_range|done].
Qed.

Lemma wf_reserve_by_ids uuid st ids p permit :
  wf st → leaves_reservations st !! uuid = None →
  wf (process_reserve_leaves_by_ids uuid st ids p permit).2.
Proof.
  intros Hwf Hu. unfold process_reserve_leaves_by_ids. case_match; [done|].
  destruct (mapR _ _) as [l|]; [|done].
  pose proof (wf_reserve_internal uuid st l p permit 0 Hwf Hu ltac:(done)).
  by destruct (reserve_internal _ _ _ _ _ _) as [[?|?] ?].
Qed.

Lemma wf_cancel now st rid keep :
  wf st → Forall node_wf keep →
  (∀ i rid' e, rid' ≠ rid → leaves_reservations st !! rid' = Some e →
    i ∈ entry_ids e → i ∉ id <$> keep) →
  wf (process_cancel_reservation now st rid keep).2.
Proof.
  intros Hwf Hk Hex.
  refine (wf_settle now st rid keep _ _ _ Hwf Hk Hex _).
  intros i. simpl. rewrite remove_chains_lookup. case_decide as Hd; [by intros [? ?]|].
  intros Hi. split; [done|]. intros e He Hin. rewrite He in Hd.
  destruct (decide (i ∈ id <$> keep)); [done|exfalso]. apply Hd.
  by apply list_elem_of_filter.
Qed.

Lemma wf_finalize now now' st rid new :
  wf st → Forall node_wf (default [] new) →
  (∀ i rid' e, rid' ≠ rid → leaves_reservations st !! rid' = Some e →
    i ∈ entry_ids e → i ∉ id <$> default [] new) →
  wf (process_finalize_reservation now now' st rid new).2.
Proof.
  intros Hwf Hk Hex. unfold process_finalize_reservation.
  assert (∀ spent c t, (∀ i, is_Some (c !! i) → is_Some (chains st !! i) ∧
    ∀ e, leaves_reservations st !! rid = Some e → i ∉ entry_ids e) →
    wf {| leaves := insert_leaves now' (default [] new) (leaves st); chains := c;
          leaves_reservations := delete rid (leaves_reservations st);
          spent_leaf_ids := spent; last_swap_completed_at := t |}) as Hs.
  { intros spent c t Hc. apply wf_settle; [done|done|done|]. intros i [? Hn]%Hc.
    split; [done|]. intros e He Hi. by destruct (Hn e He). }
  assert (∀ c, c = match leaves_reservations st !! rid with
      | Some e => remove_chains (entry_ids e) (chains st) | None => chains st end →
    ∀ i, is_Some (c !! i) → is_Some (chains st !! i) ∧
      ∀ e, leaves_reservations st !! rid = Some e → i ∉ entry_ids e) as Hc.
  { intros c -> i. destruct (leaves_reservations st !! rid) as [e|]; [|naive_solver].
    rewrite remove_chains_lookup. case_decide; [by intros [? ?]|]. naive_solver. }
  destruct (leaves_reservations st !! rid) as [e|], new as [l|]; simpl in *;
    repeat case_match; simpl; apply Hs, Hc; done.
Qed.

Lemma wf_update now st rid reserved change :
  wf st → Forall node_wf reserved → Forall node_wf change → NoDup (id <$> reserved) →
  (∀ i, i ∈ (id <$> reserved) → leaves st !! i = None ∧ i ∉ (id <$> change)) →
  (∀ i rid' e, rid' ≠ rid → leaves_reservations st !! rid' = Some e →
    i ∈ entry_ids e → i ∉ (id <$> reserved) ∧ i ∉ (id <$> change)) →
  wf (process_update_reservation now st rid reserved change).2.
Proof.
  intros Hwf Hr Hc Hnd Hfresh Hex. unfold process_update_reservation.
  destruct (leaves_reservations st !! rid) as [old|] eqn:Hold; [|done]. simpl.
  set (c := remove_chains (entry_ids old) (chains st)).
  set (st1 := {| leaves := insert_leaves now change (leaves st); chains := c;
    leaves_reservations := delete rid (leaves_reservations st);
    spent_leaf_ids := spent_leaf_ids st; last_swap_completed_at := last_swap_completed_at st |}).
  assert (wf st1) as Hwf1.
  { apply wf_settle; [done|done|naive_solver|]. intros i. unfold c.
    rewrite remove_chains_lookup. case_decide; [by intros [? ?]|]. naive_solver. }
  set (e := {| entry_leaves := (λ leaf, from_node leaf now) <$> reserved; purpose := purpose old;
    _permit := _permit old; pending_change_amount := 0 |}).
  assert (entry_ids e = id <$> reserved) as He.
  { unfold entry_ids. simpl. by rewrite <- list_fmap_compose. }
  assert (wf (set_reservations (<[rid := e]> (leaves_reservations st1))
    (set_leaves_map (leaves st1) st1))) as Hres; [|by destruct Hres; split].
  apply wf_add_entry; rewrite ?He; try done.
  - simpl. by rewrite lookup_delete_eq.
  - simpl. by apply Forall_fmap.
  - intros i Hi. destruct (Hfresh i Hi) as [Hp Hch]. split.
    + simpl. apply eq_None_not_Some. rewrite insert_leaves_dom, Hp. intros [[? ?]|?]; done.
    + intros (rid' & e' & He' & Hin). simpl in He'. apply lookup_delete_Some in He' as [? He'].
      by destruct (Hex i rid' e' ltac:(done) He' Hin).
  - simpl. by left.
Qed.

End invariant.

(** ** A concrete run *)

#[local] Existing Instance bip68.
#[local] Instance string_order : HashIter string := canonical_iter string.

Definition sample_env (now : SystemTime) (uuid : string) : Env :=
  {| env_now := now; env_now' := now + 1; env_uuid := uuid |}.

(** Leaves of 1 and 4 sats are added, then 4 sats are reserved. *)
Definition sample_store : LeavesState :=
  (process_command (sample_env 10 "r0") LeavesState_default
    (AddLeaves [bip68_node "a" 1 None; bip68_node "b" 4 (Some "p"%string)])).2.
Definition sample_reserved : LeavesState :=
  (process_command (sample_env 20 "r1") sample_store
    (TryReserveLeaves (Some (AmountAndFee 4 None)) false ReservationPurpose.Payment ())).2.

Lemma sample_store_wf : wf sample_store.
Proof.
  apply wf_process_add_leaves; [apply wf_default|]. unfold node_wf. repeat constructor; done.
Qed.

Lemma sample_reserved_wf : wf sample_reserved.
Proof.
  unfold sample_reserved. simpl.
  pose proof (wf_try_reserve "r1" sample_store (Some (AmountAndFee 4 None)) false
    ReservationPurpose.Payment () sample_store_wf eq_refl) as Hw.
  by destruct (process_try_reserve_leaves _ _ _ _ _ _).
Qed.
