(* ===== verification/TreeStoreSystem.v ===== *)
(** * The store as a running system: [InMemoryTreeStore] of [spark/src/tree/store.rs]

    Callers, the bounded command channel, the reservation semaphore and the
    processor task, as a step relation: any number of callers interleave. A
    permit is acquired before a reservation command is sent, travels in the
    command, and is kept by the reservation the command creates or given back
    when it is dropped. *)

From S2P Require Import Prelude Bitcoin TreeModel ExitChain LeafSelect TreeStore TreeStoreInv.

(** [mpsc::channel(1024)] *)
Definition CHANNEL_CAPACITY : nat := Z.to_nat 1024.

Section system.
Context `{Bitcoin} `{!HashIter string}.

(** [InMemoryTreeStore] with its processor's state. [holding] counts the callers
    that acquired a permit and have not sent their command yet. *)
Record InMemoryTreeStore := {
  state : LeavesState;
  command_queue : list StoreCommand;
  available_permits : nat;
  holding : nat;
  max_concurrent_reservations : nat;
  reservation_timeout : Duration;
}.

Definition with_config (max : nat) (timeout : Duration) : InMemoryTreeStore :=
  {| state := LeavesState_default; command_queue := []; available_permits := max;
     holding := 0; max_concurrent_reservations := max; reservation_timeout := timeout |}.

(** [InMemoryTreeStore::new()] *)
Definition new : InMemoryTreeStore :=
  with_config (Z.to_nat DEFAULT_MAX_CONCURRENT_RESERVATIONS) DEFAULT_RESERVATION_TIMEOUT.

Definition set_permits (s : InMemoryTreeStore) (permits held : nat) : InMemoryTreeStore :=
  {| state := state s; command_queue := command_queue s; available_permits := permits;
     holding := held; max_concurrent_reservations := max_concurrent_reservations s;
     reservation_timeout := reservation_timeout s |}.
Definition set_queue (s : InMemoryTreeStore) (q : list StoreCommand) : InMemoryTreeStore :=
  {| state := state s; command_queue := q; available_permits := available_permits s;
     holding := holding s; max_concurrent_reservations := max_concurrent_reservations s;
     reservation_timeout := reservation_timeout s |}.
Definition set_state (s : InMemoryTreeStore) (st : LeavesState) : InMemoryTreeStore :=
  {| state := st; command_queue := command_queue s; available_permits := available_permits s;
     holding := holding s; max_concurrent_reservations := max_concurrent_reservations s;
     reservation_timeout := reservation_timeout s |}.

(** What waiting for the semaphore under the timeout comes back with. *)
Inductive Acquire := Acquired | TimedOut | Closed.

Definition acquire (s : InMemoryTreeStore) (outcome : Acquire) : TreeResult OwnedSemaphorePermit :=
  match outcome with
  | Acquired => Ok ()
  | TimedOut => Err (TreeServiceError.ResourceBusy
      (Z.of_nat (max_concurrent_reservations s)) (reservation_timeout s))
  | Closed => Err TreeServiceError.ProcessorShutdown
  end.

(** The command [try_reserve_leaves] sends, or the error it returns before. *)
Definition try_reserve_leaves (s : InMemoryTreeStore) (outcome : Acquire)
    (target_amounts : option TargetAmounts) (exact_only : bool) (purpose : ReservationPurpose.t)
    : TreeResult StoreCommand :=
  permit ← acquire s outcome;
  Ok (TryReserveLeaves target_amounts exact_only purpose permit).

Definition try_reserve_leaves_by_ids (s : InMemoryTreeStore) (outcome : Acquire)
    (leaf_ids : list TreeNodeId) (purpose : ReservationPurpose.t) : TreeResult StoreCommand :=
  permit ← acquire s outcome;
  Ok (ReserveLeavesByIds leaf_ids purpose permit).

(** Does the command carry a permit? *)
Definition takes_permit (command : StoreCommand) : bool :=
  match command with
  | TryReserveLeaves _ _ _ _ | ReserveLeavesByIds _ _ _ => true
  | _ => false
  end.

Definition permits_in (q : list StoreCommand) : nat :=
  length (filter (λ c, takes_permit c = true) q).

(** The permits dropped while a command is processed: the command's own one when
    no reservation is created, the removed reservation's one when it is settled.
    An update moves the permit into the new entry. *)
Definition released (st : LeavesState) (command : StoreCommand) (response : StoreResponse) : nat :=
  match command, response with
  | TryReserveLeaves _ _ _ _, RReserve (Ok (Success _)) => 0
  | TryReserveLeaves _ _ _ _, _ => 1
  | ReserveLeavesByIds _ _ _, RReservation (Ok _) => 0
  | ReserveLeavesByIds _ _ _, _ => 1
  | CancelReservation i _, _ | FinalizeReservation i _, _ =>
      if decide (is_Some (leaves_reservations st !! i)) then 1 else 0
  | _, _ => 0
  end.

Inductive step (s : InMemoryTreeStore) : InMemoryTreeStore → Prop :=
| StepAcquire n :
    available_permits s = S n → step s (set_permits s n (S (holding s)))
| StepGiveUp n :
    holding s = S n → step s (set_permits s (S (available_permits s)) n)
| StepSendReserve command n :
    takes_permit command = true → holding s = S n →
    (length (command_queue s) < CHANNEL_CAPACITY)%nat →
    step s (set_queue (set_permits s (available_permits s) n) (command_queue s ++ [command]))
| StepSend command :
    takes_permit command = false → (length (command_queue s) < CHANNEL_CAPACITY)%nat →
    step s (set_queue s (command_queue s ++ [command]))
| StepProcess env command q response st' notify :
    command_queue s = command :: q →
    leaves_reservations (state s) !! env_uuid env = None →
    run_processor_step env (state s) command = (response, st', notify) →
    step s (set_state (set_permits (set_queue s q)
      (available_permits s + released (state s) command response) (holding s)) st').

(** ** How each command changes the number of reservations *)

Lemma refresh_fold_dom pool res kvs :
  dom (refresh_fold pool res kvs).2 = dom res ∪ list_to_set kvs.*1.
Proof.
  revert pool res. induction kvs as [|[rid e] kvs IH]; intros pool res; [set_solver|].
  rewrite refresh_fold_cons, IH, dom_insert_L. set_solver.
Qed.

Lemma set_leaves_size now st l m t :
  size (leaves_reservations (process_set_leaves now st l m t).2) = size (leaves_reservations st).
Proof.
  unfold process_set_leaves. case_match; [done|].
  match goal with |- context [refresh_reservations ?p ?r] =>
    pose proof (refresh_fold_dom p r (hm_iter r)) as Hd;
    change (refresh_fold p r (hm_iter r)) with (refresh_reservations p r) in Hd;
    destruct (refresh_reservations p r) as [pool res] end.
  simpl in *. rewrite <- !size_dom. f_equal. rewrite Hd.
  apply leibniz_equiv, set_equiv. intros i.
  rewrite elem_of_union, elem_of_list_to_set, elem_of_dom, <- elem_of_hm_keys.
  unfold hm_keys. tauto.
Qed.

Lemma add_leaf_size now st l :
  size (leaves_reservations (add_leaf now st l)) = size (leaves_reservations st).
Proof.
  unfold add_leaf. destruct (find_map _ _) as [[rid e]|] eqn:E; [|done].
  apply find_map_Some in E as ([rid' e'] & Hin%elem_of_hm_iter & Hu). simpl in *.
  destruct (update_node l (entry_leaves e')); simplify_eq/=.
  apply map_size_insert_Some. by eexists.
Qed.

Lemma foldl_same {A B C} (f : A → B → A) (m : A → C) l a :
  (∀ a b, m (f a b) = m a) → m (foldl f a l) = m a.
Proof. intros Hf. revert a. induction l; intros a'; simpl; [done|]. by rewrite IHl, Hf. Qed.

Lemma reserve_internal_size uuid st l p permit pending :
  leaves_reservations st !! uuid = None →
  let '(r, st') := reserve_internal uuid st l p permit pending in
  size (leaves_reservations st') =
    (size (leaves_reservations st) + if is_Ok r then 1 else 0)%nat.
Proof.
  intros Hu. destruct (reserve_internal _ _ _ _ _ _) as [[i|e] st'] eqn:E.
  - apply reserve_internal_Ok in E as (_ & _ & _ & ->). simpl.
    rewrite map_size_insert_None by done. lia.
  - apply reserve_internal_Err in E as [-> _]. simpl. lia.
Qed.

Lemma delete_size st i :
  size (leaves_reservations st) =
    (size (delete i (leaves_reservations st)) +
     if decide (is_Some (leaves_reservations st !! i)) then 1 else 0)%nat.
Proof.
  destruct (leaves_reservations st !! i) eqn:E.
  - rewrite decide_True, map_size_delete_Some by done.
    assert (size (leaves_reservations st) ≠ 0%nat); [|lia].
    intros Hz%map_size_empty_inv. by rewrite Hz, lookup_empty in E.
  - rewrite decide_False by (intros [? ?]; done). rewrite map_size_delete_None by done. lia.
Qed.

Lemma process_permits env st command :
  leaves_reservations st !! env_uuid env = None →
  let '(response, st') := process_command env st command in
  ((if takes_permit command then 1 else 0) + size (leaves_reservations st) =
    released st command response + size (leaves_reservations st'))%nat.
Proof.
  intros Hu.
  destruct command as [l|ps| | | |l m t|ta ex p permit|rid keep|rid new|rid r c|ids p permit|ta];
    simpl; try done.
  - symmetry. apply (foldl_same _ (λ st, size (leaves_reservations st))), add_leaf_size.
  - symmetry. apply (foldl_same _ (λ st, size (leaves_reservations st))).
    intros st' ped. unfold upsert_ancestors. by repeat case_match.
  - pose proof (set_leaves_size (env_now env) st l m t).
    by destruct (process_set_leaves _ _ _ _ _).
  - unfold process_try_reserve_leaves.
    pose proof (λ sel pending, reserve_internal_size (env_uuid env) st sel p permit pending Hu) as Hr.
    destruct (select_leaves_by_target_amounts _ _) as [tl|?].
    { specialize (Hr (amount_leaves tl ++ default [] (fee_leaves tl)) 0).
      destruct (reserve_internal _ _ _ _ _ _) as [[?|?] ?]; simpl in *; lia. }
    destruct (negb ex); [|destruct (_ <=? _); simpl; lia].
    destruct (select_leaves_by_minimum_amount _ _) as [[sel|]|]; [|destruct (_ <=? _); simpl; lia..].
    match goal with |- context [reserve_internal _ _ _ _ _ ?pc] => specialize (Hr sel pc) end.
    destruct (reserve_internal _ _ _ _ _ _) as [[?|?] ?]; simpl in *; lia.
  - pose proof (delete_size st rid). lia.
  - pose proof (delete_size st rid). unfold process_finalize_reservation.
    destruct (leaves_reservations st !! rid), new; simpl in *; repeat case_match; simpl; lia.
  - unfold process_update_reservation. destruct (leaves_reservations st !! rid) eqn:E; [|done].
    simpl. rewrite insert_delete_eq. symmetry. apply map_size_insert_Some. by eexists.
  - unfold process_reserve_leaves_by_ids. destruct (_ || _); [done|].
    destruct (mapR _ _) as [sel|]; [|done].
    pose proof (reserve_internal_size (env_uuid env) st sel p permit 0 Hu).
    destruct (reserve_internal _ _ _ _ _ _) as [[?|?] ?]; simpl in *; lia.
Qed.

(** ** No permit is lost or made up *)

Definition permits_accounted (s : InMemoryTreeStore) : Prop :=
  (available_permits s + holding s + permits_in (command_queue s) +
    size (leaves_reservations (state s)) = max_concurrent_reservations s)%nat ∧
  (length (command_queue s) ≤ CHANNEL_CAPACITY)%nat.

Lemma permits_in_snoc q c :
  permits_in (q ++ [c]) = (permits_in q + if takes_permit c then 1 else 0)%nat.
Proof.
  unfold permits_in. rewrite filter_app, length_app. f_equal.
  rewrite filter_cons. by destruct (takes_permit c).
Qed.

Lemma permits_in_cons q c :
  permits_in (c :: q) = ((if takes_permit c then 1 else 0) + permits_in q)%nat.
Proof. unfold permits_in. rewrite filter_cons. by destruct (takes_permit c). Qed.

Lemma step_permits s s' : permits_accounted s → step s s' → permits_accounted s'.
Proof.
  unfold permits_accounted. intros [Hp Hq].
  destruct 1 as [n Ha|n Hh|c n Hc Hh Hl|c Hc Hl|env c q r st' nt Hc Hu Hr]; simpl in *.
  - split; [lia|done].
  - split; [lia|done].
  - rewrite permits_in_snoc, Hc, length_app. simpl. split; lia.
  - rewrite permits_in_snoc, Hc, length_app. simpl. split; lia.
  - pose proof (process_permits env (state s) c Hu) as He. unfold run_processor_step in Hr.
    rewrite Hc, permits_in_cons in Hp. rewrite Hc in Hq. simpl in Hq.
    destruct (process_command env (state s) c). simplify_eq. split; lia.
Qed.

Lemma max_constant s s' :
  step s s' → max_concurrent_reservations s' = max_concurrent_reservations s.
Proof. by destruct 1. Qed.

Lemma steps_max s s' :
  rtc step s s' → max_concurrent_reservations s' = max_concurrent_reservations s.
Proof. induction 1 as [|s1 s2 s3 Hs _ IH]; [done|]. by rewrite IH, (max_constant _ _ Hs). Qed.

(** C32: whatever the interleaving of callers and processor, every permit is free,
    held by a caller, in the command channel or owned by a reservation: there are
    never more than [max] reservations, the channel never exceeds its capacity,
    and once callers and channel are idle every permit not owned by a live
    reservation is free again. *)
Theorem permits_never_leak max timeout s :
  rtc step (with_config max timeout) s →
  (size (leaves_reservations (state s)) ≤ max)%nat ∧
  (length (command_queue s) ≤ CHANNEL_CAPACITY)%nat ∧
  (holding s = 0%nat → command_queue s = [] →
    available_permits s = (max - size (leaves_reservations (state s)))%nat) ∧
  (available_permits s + holding s + permits_in (command_queue s) +
    size (leaves_reservations (state s)) = max)%nat.
Proof.
  intros Hs. pose proof (steps_max _ _ Hs) as Hm. simpl in Hm.
  assert (permits_accounted s) as [Hp Hq].
  { revert Hs. apply (rtc_ind_r permits_accounted).
    - split; simpl; [|unfold CHANNEL_CAPACITY; lia].
      change (permits_in []) with 0%nat. rewrite map_size_empty. lia.
    - intros ? ? _ ? ?. by eapply step_permits. }
  rewrite Hm in Hp. split_and!; [lia|done| |done].
  intros Hh Hc. rewrite Hc in Hp. change (permits_in []) with 0%nat in Hp. lia.
Qed.
End system.

(** With one permit: a reservation takes it; a second caller then finds none. *)
Example permits_witness :
  let _ := canonical_iter string in
  let s0 := @with_config bip68 1 5 in
  let s1 := set_permits s0 0 1 in
  let s2 := set_queue (set_permits s1 0 0) [ReserveLeavesByIds ["x"%string] ReservationPurpose.Swap ()] in
  rtc step s0 s2 ∧ available_permits s2 = 0%nat ∧
  (size (leaves_reservations (state s2)) ≤ 1)%nat.
Proof.
  intros iter s0 s1 s2. assert (rtc step s0 s2) as Hs.
  { apply (rtc_l _ _ s1); [by apply (StepAcquire s0 0)|].
    apply rtc_once. apply (StepSendReserve s1 (ReserveLeavesByIds _ _ _) 0); [done|done|].
    simpl. unfold CHANNEL_CAPACITY. lia. }
  split_and!; [done|done|]. by apply (permits_never_leak 1 5 s2 Hs).
Defined.
