(* ===== verification/TreeStoreSpec.v ===== *)
(** * What the tree store promises its callers

    The functional behaviour of the commands of [TreeStore], on every branch:
    reserving, refreshing, settling, reading balances and exit chains. *)

From S2P Require Import Prelude Bitcoin TreeModel ExitChain LeafSelect TreeStore TreeStoreInv.

Section spec.
Context `{Bitcoin} `{!HashIter string}.
Implicit Types st : LeavesState.

(** ** The selectable pool *)

Definition pool_nodes st : list TreeNode := node <$> selectable_leaves st.

Lemma elem_of_pool_nodes st n :
  wf st → n ∈ pool_nodes st ↔
    ∃ s, leaves st !! id n = Some s ∧ node s = n ∧ selectable s = true.
Proof.
  intros Hwf. unfold pool_nodes, selectable_leaves. rewrite list_elem_of_fmap. split.
  - intros (s & -> & [Hs [i Hi]%elem_of_hm_values]%list_elem_of_filter).
    exists s. split_and!; [|done|done]. by rewrite (wf_keyed st Hwf _ _ Hi).
  - intros (s & Hi & <- & Hs). exists s. split; [done|]. apply list_elem_of_filter.
    split; [done|]. apply elem_of_hm_values. eauto.
Qed.

Lemma hm_values_ids_NoDup pool : keyed pool → NoDup ((λ s, id (node s)) <$> hm_values pool).
Proof.
  intros Hk. unfold hm_values. rewrite <- list_fmap_compose.
  replace ((_ ∘ snd) <$> hm_iter pool) with (hm_keys pool); [apply NoDup_hm_keys|].
  unfold hm_keys. apply list_fmap_ext. intros j [i s] Hj%list_elem_of_lookup_2.
  apply elem_of_hm_iter in Hj. simpl. by rewrite (Hk _ _ Hj).
Qed.

Lemma pool_nodes_NoDup st : wf st → NoDup (id <$> pool_nodes st).
Proof.
  intros Hwf. unfold pool_nodes, selectable_leaves. rewrite <- list_fmap_compose.
  eapply NoDup_submseteq_l; [|apply (hm_values_ids_NoDup (leaves st)), Hwf].
  apply sublist_submseteq. apply fmap_sublist, sublist_filter.
Qed.

Lemma pool_nodes_wf st : wf st → Forall leaf_wf (pool_nodes st).
Proof.
  intros Hwf. apply Forall_forall. intros n (s & Hs & <- & _)%elem_of_pool_nodes; [|done].
  by eapply (wf_values st Hwf).
Qed.

Lemma sum_value_exact (l : list TreeNode) :
  Forall leaf_wf l → valueZ l < 2 ^ 64 → sum_wrap 64 (value <$> l) = valueZ l.
Proof. intros Hl Hb. apply sum_wrap_exact; [done| |done]. exact (wf_nonneg l Hl). Qed.

(** Moving distinct stored leaves out of the pool keeps their nodes. *)
Lemma take_leaves_nodes l pool :
  (∀ n, n ∈ l → ∃ s, pool !! id n = Some s ∧ node s = n) → NoDup (id <$> l) →
  node <$> (take_leaves l pool).1 = l.
Proof.
  revert pool. induction l as [|n l IH]; intros pool Hl Hnd; [done|].
  csimpl in Hnd. apply NoDup_cons in Hnd as [Hn Hnd]. simpl.
  destruct (Hl n ltac:(by left)) as (s & -> & Hs). specialize (IH (delete (id n) pool)).
  destruct (take_leaves l _). csimpl in *. rewrite IH; [by rewrite Hs| |done].
  intros x Hx. rewrite lookup_delete_ne; [apply Hl; by right|].
  intros Heq. apply Hn. rewrite Heq. by apply list_elem_of_fmap_2.
Qed.

(** ** Reserving *)

(** Amounts the callers can name without overflowing 64 bits. *)
Definition target_ok (ta : option TargetAmounts) : Prop :=
  match ta with
  | None => True
  | Some (AmountAndFee a f) =>
      in_uint 64 a ∧ in_uint 64 (default 0 f) ∧ a + default 0 f < 2 ^ 64
  | Some (ExactDenominations ds) => Forall (in_uint 64) ds ∧ sumZ ds < 2 ^ 64
  end.

Definition target_total (ta : TargetAmounts) : Z :=
  match ta with AmountAndFee a f => a + default 0 f | ExactDenominations ds => sumZ ds end.

Lemma total_sats_exact ta : target_ok (Some ta) → total_sats ta = target_total ta.
Proof.
  destruct ta as [a f|ds]; simpl.
  - intros ([? ?] & [? ?] & ?). apply uadd_small. lia.
  - intros [Hds ?]. apply sum_wrap_exact; [done| |done].
    eapply Forall_impl; [done|]. by intros ? [? ?].
Qed.

Lemma target_total_range ta : target_ok (Some ta) → in_uint 64 (target_total ta).
Proof.
  destruct ta as [a f|ds]; simpl.
  - intros ([? ?] & [? ?] & ?). split; lia.
  - intros [Hds ?]. split; [|done]. apply sumZ_nonneg. eapply Forall_impl; [done|]. by intros ? [? ?].
Qed.

(** The state after [sel] has been moved into the reservation [uuid]. *)
Record reserved_as st uuid (p : ReservationPurpose.t) (sel : list TreeNode) (pending : Z) st' : Prop := {
  ra_nonempty : sel ≠ [];
  ra_distinct : NoDup (id <$> sel);
  ra_selectable n : n ∈ sel → ∃ s, leaves st !! id n = Some s ∧ node s = n ∧ selectable s = true;
  ra_pool i : leaves st' !! i = if decide (i ∈ id <$> sel) then None else leaves st !! i;
  ra_entry : ∃ e, leaves_reservations st' = <[uuid := e]> (leaves_reservations st) ∧
    node <$> entry_leaves e = sel ∧ purpose e = p ∧ pending_change_amount e = pending;
  ra_chains : chains st' = chains st;
  ra_spent : spent_leaf_ids st' = spent_leaf_ids st;
}.

Lemma reserve_internal_selected uuid st sel p permit pending i st' :
  wf st → NoDup (id <$> sel) → (∀ n, n ∈ sel → n ∈ pool_nodes st) →
  reserve_internal uuid st sel p permit pending = (Ok i, st') →
  i = uuid ∧ reserved_as st uuid p sel pending st'.
Proof.
  intros Hwf Hnd Hsel (-> & Hne & _ & ->)%reserve_internal_Ok. split; [done|].
  assert (∀ n, n ∈ sel → ∃ s, leaves st !! id n = Some s ∧ node s = n ∧ selectable s = true) as Hs.
  { intros n Hn%Hsel. by apply elem_of_pool_nodes. }
  pose proof (take_leaves_spec sel (leaves st)) as Ht.
  pose proof (take_leaves_nodes sel (leaves st)) as Hn.
  destruct (take_leaves sel (leaves st)) as [taken pool]. destruct Ht as (Hl & _ & _).
  split; simpl; try done. eexists. split; [done|]. simpl. split_and!; [|done|done].
  apply Hn; [|done]. intros n (s & ? & ? & ?)%Hs. eauto.
Qed.

Lemma selectable_reservable uuid st sel p permit pending :
  wf st → sel ≠ [] → (∀ n, n ∈ sel → n ∈ pool_nodes st) →
  ∃ i st', reserve_internal uuid st sel p permit pending = (Ok i, st').
Proof.
  intros Hwf Hne Hsel. unfold reserve_internal. rewrite bool_decide_false by done.
  destruct (existsb _ sel) eqn:E.
  - apply existsb_exists in E as (n & Hn%list_elem_of_In & Hb).
    apply Hsel, elem_of_pool_nodes in Hn as (s & Hs & _ & _); [|done].
    by rewrite Hs, bool_decide_true in Hb.
  - destruct (take_leaves sel (leaves st)). eauto.
Qed.

Lemma pool_sublist st sel :
  wf st → sel ⊆+ pool_nodes st → NoDup (id <$> sel) ∧ (∀ n, n ∈ sel → n ∈ pool_nodes st).
Proof.
  intros Hwf Hs. split.
  - eapply NoDup_submseteq_l; [|by apply pool_nodes_NoDup]. by apply fmap_submseteq.
  - intros n Hn. by eapply elem_of_submseteq.
Qed.

(** The amounts a target selection from the pool adds up to. *)
Lemma target_selection_pool st ta tl :
  wf st → target_ok ta →
  select_leaves_by_target_amounts (pool_nodes st) ta = Ok tl →
  target_selection tl ⊆+ pool_nodes st ∧
  match ta with
  | None => target_selection tl = pool_nodes st
  | Some ta => valueZ (target_selection tl) = target_total ta
  end.
Proof.
  intros Hwf Hta Hs. apply select_target_Ok in Hs as [Hsub Hv];
    [|by apply pool_nodes_NoDup|by apply pool_nodes_wf|by destruct ta as [[]|]; naive_solver].
  split; [done|]. unfold target_selection in *. destruct ta as [[a [f|]|ds]|].
  - destruct Hv as (Ha & fl & -> & Hf). rewrite valueZ_app. simpl. lia.
  - destruct Hv as [Ha ->]. rewrite valueZ_app. simpl. unfold valueZ at 2. simpl. lia.
  - destruct Hv as [Hd ->]. rewrite valueZ_app. unfold valueZ. rewrite Hd. simpl. lia.
  - destruct Hv as [-> ->]. simpl. by rewrite app_nil_r.
Qed.

Lemma try_reserve_selected uuid st ta exact_only p permit r st' :
  wf st → target_ok ta → valueZ (pool_nodes st) < 2 ^ 64 →
  process_try_reserve_leaves uuid st ta exact_only p permit = (Ok (Success r), st') →
  reservation_id r = uuid ∧
  ∃ pending, reserved_as st uuid p (reservation_leaves r) pending st' ∧
  match ta with
  | None => reservation_leaves r = pool_nodes st ∧ pending = 0
  | Some ta =>
      valueZ (reservation_leaves r) = target_total ta + pending ∧ 0 ≤ pending ∧
      (exact_only = true → pending = 0)
  end.
Proof.
  intros Hwf Hta Hb. unfold process_try_reserve_leaves. fold (pool_nodes st).
  destruct (select_leaves_by_target_amounts (pool_nodes st) ta) as [tl|] eqn:Hs.
  - fold (target_selection tl). apply target_selection_pool in Hs as [Hsub Hv]; [|done..].
    apply pool_sublist in Hsub as [Hnd Hsel]; [|done].
    destruct (reserve_internal _ _ _ _ _ _) as [[i|?] st1] eqn:Hr; [|done].
    intros [= <- <-]. eapply reserve_internal_selected in Hr as [-> Hra]; [|done..].
    simpl. split; [done|]. exists 0. split; [done|]. destruct ta; [|done]. lia.
  - destruct exact_only; simpl; [by destruct (_ <=? _)|].
    destruct (select_leaves_by_minimum_amount _ _) as [[sel|]|] eqn:Hm; [|by destruct (_ <=? _)..].
    destruct ta as [ta|]; [|done]. pose proof (target_total_range ta Hta) as Hr64.
    rewrite (total_sats_exact ta Hta) in *.
    apply minimum_amount_Ok in Hm as (Hpos & pre & x & rest & -> & Hl & Hpre);
      [|by apply pool_nodes_wf|done|done].
    assert (pre ++ [x] ⊆+ pool_nodes st) as Hsub.
    { rewrite Hl. by apply submseteq_inserts_r. }
    assert (Forall leaf_wf (pre ++ [x])) as Hw.
    { eapply wf_submseteq; [done|]. by apply pool_nodes_wf. }
    assert (valueZ (pre ++ [x]) < 2 ^ 64).
    { eapply Z.le_lt_trans; [|exact Hb]. apply sumZ_submseteq; [|by apply fmap_submseteq].
      by apply wf_nonneg, pool_nodes_wf. }
    apply pool_sublist in Hsub as [Hnd Hsel]; [|done].
    rewrite sum_value_exact by done.
    destruct (reserve_internal _ _ _ _ _ _) as [[i|?] st1] eqn:Hr; [|done].
    intros [= <- <-]. eapply reserve_internal_selected in Hr as [-> Hra]; [|done..].
    simpl. split; [done|]. eexists. split; [exact Hra|].
    destruct (Z.ltb_spec (target_total ta) (valueZ (pre ++ [x]))).
    + rewrite (proj2 (Z.ltb_lt 0 _)) by done. simpl.
      rewrite usub_small by (destruct Hr64; lia). split_and!; [lia|lia|done].
    + simpl. split_and!; [lia|lia|done].
Qed.

(** The balances the store compares the target with. *)
Definition pending_total st : Z := map_sum pending_change_amount (leaves_reservations st).

Lemma available_exact st :
  wf st → valueZ (pool_nodes st) < 2 ^ 64 → state_available_balance st = valueZ (pool_nodes st).
Proof.
  intros Hwf Hb. unfold state_available_balance.
  change (sum_wrap 64 ((value ∘ node) <$> selectable_leaves st) = valueZ (pool_nodes st)).
  rewrite list_fmap_compose.
  by apply sum_value_exact; [apply pool_nodes_wf|].
Qed.

Lemma pending_exact st :
  wf st → pending_total st < 2 ^ 64 → pending_balance st = pending_total st.
Proof.
  intros Hwf Hb. unfold pending_balance, pending_total in *.
  rewrite <- (map_sum_hm_values pending_change_amount) in Hb |- *.
  apply sum_wrap_exact; [done| |done].
  apply Forall_fmap, Forall_forall. intros e [rid He]%elem_of_hm_values. simpl.
  by destruct (wf_entry_values st Hwf _ _ He) as [_ [? _]].
Qed.

Lemma pending_total_nonneg st : wf st → 0 ≤ pending_total st.
Proof.
  intros Hwf. apply map_sum_nonneg. intros rid e He.
  by destruct (wf_entry_values st Hwf _ _ He) as [_ [? _]].
Qed.

(** A reservation that does not succeed changes nothing. The caller is told
    to wait exactly when the leaves in the pool and the pending change together
    cover the target, and that its funds are insufficient when they do not;
    unless only an exact match was asked for, either answer to a nonzero target
    means the pool alone cannot cover it. An error means the selection was
    empty. *)
Theorem try_reserve_refused uuid st ta exact_only p permit r st' :
  wf st → target_ok ta → valueZ (pool_nodes st) + pending_total st < 2 ^ 64 →
  process_try_reserve_leaves uuid st ta exact_only p permit = (r, st') →
  let target := match ta with Some ta => target_total ta | None => 0 end in
  let uncovered := exact_only = true ∨ target = 0 ∨ valueZ (pool_nodes st) < target in
  match r with
  | Ok (Success _) => True
  | Ok (WaitForPending needed available pending) =>
      st' = st ∧ uncovered ∧ needed = target ∧ available = valueZ (pool_nodes st) ∧
      pending = pending_total st ∧ target ≤ valueZ (pool_nodes st) + pending_total st
  | Ok InsufficientFunds =>
      st' = st ∧ uncovered ∧ valueZ (pool_nodes st) + pending_total st < target
  | Err e =>
      st' = st ∧ e = TreeServiceError.NonReservableLeaves ∧
      ∃ tl, select_leaves_by_target_amounts (pool_nodes st) ta = Ok tl ∧ target_selection tl = []
  end.
Proof.
  intros Hwf Hta Hb. pose proof (pending_total_nonneg st Hwf) as Hp.
  unfold process_try_reserve_leaves. fold (pool_nodes st).
  pose proof (valueZ_nonneg _ (pool_nodes_wf st Hwf)) as Hv.
  rewrite available_exact, pending_exact by (try done; lia).
  rewrite (uadd_small 64 (valueZ (pool_nodes st))) by lia.
  replace (match ta with Some ta => total_sats ta | None => 0 end)
    with (match ta with Some ta => target_total ta | None => 0 end).
  2:{ destruct ta; [by rewrite total_sats_exact|done]. }
  set (target := match ta with Some ta => target_total ta | None => 0 end).
  destruct (select_leaves_by_target_amounts (pool_nodes st) ta) as [tl|] eqn:Hs.
  - fold (target_selection tl).
    destruct (reserve_internal _ _ _ _ _ _) as [[i|?] st1] eqn:Hr; intros [= <- <-]; [done|].
    simpl. apply reserve_internal_Err in Hr as Hst. destruct Hst as [-> ->].
    split_and!; [done|done|]. exists tl. split; [done|].
    destruct (decide (target_selection tl = [])) as [|Hne]; [done|exfalso].
    apply target_selection_pool in Hs as [Hsub _]; [|done..].
    apply pool_sublist in Hsub as [_ Hsel]; [|done].
    destruct (selectable_reservable uuid st _ p permit 0 Hwf Hne Hsel) as (? & ? & ?). congruence.
  - intros Hres. simpl. assert (exact_only = false →
      (∀ sel, select_leaves_by_minimum_amount (pool_nodes st) target ≠ Ok (Some sel)) →
      target = 0 ∨ valueZ (pool_nodes st) < target) as Hunc.
    { intros _. apply minimum_amount_refused; [by apply pool_nodes_wf| |lia].
      unfold target. destruct ta; [by apply target_total_range|done]. }
    destruct exact_only; simpl in Hres.
    { destruct (Z.leb_spec target (valueZ (pool_nodes st) + pending_total st)); simplify_eq; auto 7. }
    destruct (select_leaves_by_minimum_amount (pool_nodes st) target) as [[sel|]|] eqn:Hm;
      [|destruct (Z.leb_spec target (valueZ (pool_nodes st) + pending_total st)); simplify_eq;
        specialize (Hunc eq_refl ltac:(congruence)); auto 7..].
    destruct (reserve_internal _ _ _ _ _ _) as [[i|?] st1] eqn:Hr; simplify_eq; [done|exfalso].
    apply minimum_amount_Ok in Hm as (_ & pre & x & rest & -> & Hl & _);
      [|by apply pool_nodes_wf| |lia].
    + destruct (selectable_reservable uuid st (pre ++ [x]) p permit
        (if (target <? sum_wrap 64 (value <$> pre ++ [x])) && (0 <? target)
         then usub 64 (sum_wrap 64 (value <$> pre ++ [x])) target else 0) Hwf) as (? & ? & ?);
        [by destruct pre| |congruence].
      intros n Hn. rewrite Hl. apply elem_of_app. by left.
    + unfold target. destruct ta; [by apply target_total_range|done].
Qed.

(** ** Refreshing *)

Definition marked_spent st (since : SystemTime) i : Prop :=
  ∃ t, spent_leaf_ids st !! i = Some t ∧ since ≤ t.

#[local] Instance marked_spent_dec st since i : Decision (marked_spent st since i).
Proof.
  unfold marked_spent. destruct (spent_leaf_ids st !! i) as [t|].
  - destruct (decide (since ≤ t)); [left; eauto|right; naive_solver].
  - right. naive_solver.
Defined.

Definition kept_spent st (since : SystemTime) : gmap string SystemTime :=
  filter (λ '(_, spent_at), since ≤ spent_at) (spent_leaf_ids st).

Lemma kept_spent_is_Some st since i : is_Some (kept_spent st since !! i) ↔ marked_spent st since i.
Proof.
  unfold kept_spent, marked_spent. split.
  - intros [t Ht%map_lookup_filter_Some]. eauto.
  - intros (t & ? & ?). exists t. by apply map_lookup_filter_Some.
Qed.

(** What the refreshed pool holds for an id, before reservations take their
    leaves back out. *)
Definition refreshed st (now refresh : SystemTime) (new missing : list TreeNode) i
    (o : option StoredLeaf) : Prop :=
  (¬ marked_spent st refresh i ∧ ∃ n, n ∈ missing ∧ id n = i ∧ o = Some (from_node_missing n now)) ∨
  (¬ marked_spent st refresh i ∧ i ∉ id <$> missing ∧
    ∃ n, n ∈ new ∧ id n = i ∧ o = Some (from_node n now)) ∨
  ((marked_spent st refresh i ∨ (i ∉ id <$> missing ∧ i ∉ id <$> new)) ∧
    o = (s ← leaves st !! i; if refresh <=? added_at s then Some s else None)).

Lemma refreshed_pool_spec now st new missing refresh i :
  refreshed st now refresh new missing i (refreshed_pool now st new missing refresh !! i).
Proof.
  unfold refreshed_pool. fold (kept_spent st refresh). rewrite preserve_old_lookup.
  rewrite !insert_unspent_insert_all. unfold refreshed.
  set (f := filter (λ l, ¬ is_Some (kept_spent st refresh !! id l))).
  assert (∀ l, i ∈ id <$> f l ↔ ¬ marked_spent st refresh i ∧ i ∈ id <$> l) as Hf.
  { intros l. unfold f. rewrite !list_elem_of_fmap. setoid_rewrite list_elem_of_filter.
    setoid_rewrite kept_spent_is_Some. split.
    - intros (n & -> & ? & ?). eauto.
    - intros [? (n & -> & ?)]. eauto. }
  destruct (decide (i ∈ id <$> f missing)) as [Hm|Hm].
  { destruct (insert_all_in id (λ l, from_node_missing l now) _ (insert_all id
      (λ l, from_node l now) (f new) ∅) i Hm) as (n & [_ ?]%list_elem_of_filter & ? & ->).
    apply Hf in Hm as [? _]. left. eauto 6. }
  rewrite insert_all_notin by done.
  destruct (decide (i ∈ id <$> f new)) as [Hn|Hn].
  { destruct (insert_all_in id (λ l, from_node l now) _ ∅ i Hn)
      as (n & [_ ?]%list_elem_of_filter & ? & ->).
    apply Hf in Hn as [Hs _]. right. left. split_and!; [done| |eauto].
    intros ?. by apply Hm, Hf. }
  rewrite insert_all_notin, lookup_empty by done. right. right. split; [|done].
  destruct (decide (marked_spent st refresh i)); [by left|right].
  split; intros ?; [apply Hm|apply Hn]; by apply Hf.
Qed.

(** C34: A refresh that applies replaces the pool by what it fetched: leaves
    marked spent since it started are not brought back, leaves fetched only from
    other operators are kept as missing, and a leaf it did not list survives only
    when it was added after the refresh started. A fetched leaf that is reserved
    updates the reservation in place and stays out of the pool; the reservations
    keep their ids, purposes and pending change; chains go with the pool leaves
    that go, and only with them. The spent markers it keeps are exactly those of
    leaves spent at or after its start, whether or not it lists the leaf. *)
Theorem set_leaves_spec now st new missing refresh :
  wf st → Forall node_wf new → Forall node_wf missing →
  has_active_swap st || swap_completed_during_refresh st refresh = false →
  let '(r, st') := process_set_leaves now st new missing refresh in
  r = Ok () ∧
  (∀ i, ∃ o, refreshed st now refresh new missing i o ∧
    (reserved_id st i → leaves st' !! i = None) ∧
    (¬ reserved_id st i → leaves st' !! i = o) ∧
    (∀ rid e k s, leaves_reservations st !! rid = Some e → entry_leaves e !! k = Some s →
      id (node s) = i → ∃ e', leaves_reservations st' !! rid = Some e' ∧
        purpose e' = purpose e ∧ pending_change_amount e' = pending_change_amount e ∧
        length (entry_leaves e') = length (entry_leaves e) ∧
        entry_leaves e' !! k = Some (default s o))) ∧
  (∀ i, chains st' !! i =
    if decide (is_Some (leaves st !! i) ∧ leaves st' !! i = None) then None else chains st !! i) ∧
  (∀ i, is_Some (spent_leaf_ids st' !! i) ↔ marked_spent st refresh i).
Proof.
  intros Hwf Hn Hm Hg. pose proof (set_leaves_eq now st new missing refresh Hg) as Heq.
  assert ((process_set_leaves now st new missing refresh).1 = Ok ()) as Hr.
  { unfold process_set_leaves. rewrite Hg. by destruct (refresh_reservations _ _). }
  destruct (process_set_leaves now st new missing refresh) as [r st'].
  cbn [fst snd] in *. split; [done|]. cbn zeta in Heq.
  destruct (refreshed_pool_facts now st new missing refresh Hwf Hn Hm) as [Hk Hp].
  pose proof (refreshed_pool_spec now st new missing refresh) as Hspec.
  set (pool := refreshed_pool now st new missing refresh) in *.
  assert (∀ i, (refresh_reservations pool (leaves_reservations st)).1 !! i =
    if decide (i ∈ kvs_ids (hm_iter (leaves_reservations st))) then None else pool !! i) as Hpool.
  { intros i. apply refresh_reservations_pool. }
  rewrite Heq. cbn [leaves chains leaves_reservations spent_leaf_ids]. split_and!.
  - intros i. exists (pool !! i). split; [apply Hspec|]. rewrite Hpool. split_and!.
    + intros Hi. by rewrite decide_True by by apply kvs_ids_elem.
    + intros Hi. rewrite decide_False; [done|]. by rewrite kvs_ids_elem.
    + intros rid e k s He Hs <-. rewrite refresh_reservations_lookup, He by done.
      eexists. split; [done|]. simpl. rewrite length_fmap, list_lookup_fmap, Hs. done.
  - intros i. rewrite remove_chains_lookup. apply decide_ext.
    rewrite list_elem_of_filter, elem_of_hm_keys, <- eq_None_not_Some. tauto.
  - intros i. apply kept_spent_is_Some.
Qed.

(** ** Spent leaves *)

(** A finalization marks the leaves it spends; a swap settled through
    [update_reservation] does not: the leaves it consumed are not marked spent, so
    a refresh that started before the swap and still lists one of them puts it back
    into the pool as selectable. *)
Theorem swapped_leaf_is_restored now now' st rid e reserved change new n refresh :
  wf st → leaves_reservations st !! rid = Some e → purpose e = ReservationPurpose.Payment →
  has_active_swap st || swap_completed_during_refresh st refresh = false →
  NoDup (id <$> new) → n ∈ new → status n = TreeNodeStatus.Available → id n ∈ entry_ids e →
  id n ∉ id <$> reserved → spent_leaf_ids st !! id n = None →
  let st1 := (process_update_reservation now st rid reserved change).2 in
  let st2 := (process_set_leaves now' st1 new [] refresh).2 in
  ∃ s, leaves st2 !! id n = Some s ∧ node s = n ∧ selectable s = true.
Proof.
  intros Hwf He Hpay Hg Hnd Hn Hav Hi Hres Hsp. cbn zeta.
  unfold process_update_reservation. rewrite He. simpl.
  match goal with |- context [process_set_leaves _ ?st _ _ _] => set (st1 := st) end.
  assert (has_active_swap st1 || swap_completed_during_refresh st1 refresh = false) as Hg1.
  { apply orb_false_iff in Hg as [Hg1 Hg2]. apply orb_false_iff. split; [|done].
    apply not_true_iff_false. unfold has_active_swap. rewrite existsb_exists.
    intros (x & [k Hk]%list_elem_of_In%elem_of_hm_values & Hx%bool_decide_eq_true).
    simpl in Hk. rewrite insert_delete_eq, lookup_insert in Hk.
    case_decide; simplify_eq/=; [congruence|].
    apply not_true_iff_false in Hg1. apply Hg1. unfold has_active_swap.
    apply existsb_exists. exists x. split; [|by apply bool_decide_eq_true].
    apply list_elem_of_In, elem_of_hm_values. eauto. }
  rewrite set_leaves_eq by done. cbn [leaves]. rewrite refresh_reservations_pool.
  assert (¬ reserved_id st1 (id n)) as Hnr.
  { intros (rid' & e' & He' & Hi'). simpl in He'.
    rewrite insert_delete_eq, lookup_insert in He'. case_decide; simplify_eq/=.
    - apply Hres. unfold entry_ids in Hi'. simpl in Hi'. by rewrite <- list_fmap_compose in Hi'.
    - by destruct (wf_exclusive st Hwf rid rid' e e' (id n)). }
  rewrite decide_False by by rewrite kvs_ids_elem.
  assert (¬ marked_spent st1 refresh (id n)) as Hns.
  { intros (t & Ht & _). simpl in Ht. congruence. }
  destruct (refreshed_pool_spec now' st1 new [] refresh (id n))
    as [(_ & m & Hm & _)|[(_ & _ & m & Hm & Hid & ->)|([?|[_ Hnot]] & _)]].
  - by apply elem_of_nil in Hm.
  - eexists. split; [done|]. assert (m = n) as ->;
      [|split; [done|]; unfold selectable; simpl; by rewrite bool_decide_true].
    apply list_elem_of_lookup in Hm as [j Hj], Hn as [k Hk].
    assert (j = k) as ->; [|congruence].
    eapply NoDup_lookup; [exact Hnd|by rewrite list_lookup_fmap, Hj; simpl; f_equal|].
    by rewrite list_lookup_fmap, Hk, Hid.
  - done.
  - destruct Hnot. by apply list_elem_of_fmap_2.
Qed.

(** ** Exit chains *)

Definition stored_nodes st : list TreeNode :=
  (node <$> hm_values (leaves st)) ++
  (node <$> (hm_values (leaves_reservations st) ≫= entry_leaves)).

Lemma elem_of_stored_nodes st n :
  n ∈ stored_nodes st ↔ (∃ i s, leaves st !! i = Some s ∧ node s = n) ∨
    (∃ rid e s, leaves_reservations st !! rid = Some e ∧ s ∈ entry_leaves e ∧ node s = n).
Proof.
  unfold stored_nodes. rewrite elem_of_app, !list_elem_of_fmap.
  setoid_rewrite list_elem_of_bind. setoid_rewrite elem_of_hm_values.
  naive_solver.
Qed.

Lemma entry_id_unique st rid e s s' :
  wf st → leaves_reservations st !! rid = Some e → s ∈ entry_leaves e → s' ∈ entry_leaves e →
  id (node s) = id (node s') → s = s'.
Proof.
  intros Hwf He Hs Hs' Hid. pose proof (wf_nodup st Hwf _ _ He) as Hnd.
  apply list_elem_of_lookup in Hs as [j Hj], Hs' as [k Hk].
  assert (j = k) as ->; [|congruence]. unfold entry_ids in Hnd.
  eapply NoDup_lookup; [exact Hnd|by rewrite list_lookup_fmap, Hj|].
  by rewrite list_lookup_fmap, Hk; simpl; rewrite Hid.
Qed.

(** The store holds at most one node per id, and lookup finds it. *)
Lemma find_stored_leaf_elem st n :
  wf st → n ∈ stored_nodes st ↔ find_stored_leaf st (id n) = Some n.
Proof.
  intros Hwf. rewrite elem_of_stored_nodes. split.
  - intros [(i & s & Hs & <-)|(rid & e & s & He & Hs & <-)].
    { unfold find_stored_leaf. by rewrite (wf_keyed st Hwf _ _ Hs), Hs. }
    assert (id (node s) ∈ entry_ids e) as Hi by (apply list_elem_of_fmap; eauto).
    destruct (proj2 (find_stored_leaf_is_Some st (id (node s)))) as [n Hn].
    { right. by exists rid, e. }
    rewrite Hn. f_equal. revert Hn. unfold find_stored_leaf.
    rewrite (wf_disjoint st Hwf) by by exists rid, e.
    intros (e' & [rid' He']%elem_of_hm_values & Hf)%find_map_Some.
    apply fmap_Some in Hf as (s' & [Hs' Hid%bool_decide_eq_true_1]%find_some & ->).
    apply list_elem_of_In in Hs'.
    assert (rid' = rid) as ->.
    { eapply (wf_exclusive st Hwf rid' rid e' e (id (node s))); [done|done| |done].
      apply list_elem_of_fmap. eauto. }
    simplify_eq. f_equal. by apply (entry_id_unique st rid e).
  - unfold find_stored_leaf. destruct (leaves st !! id n) as [s|] eqn:E.
    { intros [= <-]. eauto. }
    intros (e & [rid He]%elem_of_hm_values & Hf)%find_map_Some. right.
    apply fmap_Some in Hf as (s & [Hs _]%find_some & ->).
    apply list_elem_of_In in Hs. eauto 6.
Qed.

Lemma missing_chain_spec st n :
  wf st → n ∈ stored_nodes st →
  id n ∈ process_leaves_missing_exit_chains st ↔
    chain_backs_exit n (default [] (chains st !! id n)) = false.
Proof.
  intros Hwf Hn. unfold process_leaves_missing_exit_chains. fold (stored_nodes st).
  rewrite list_elem_of_fmap. setoid_rewrite list_elem_of_filter. split; [|by eauto].
  intros (m & Hid & Hb & Hm). assert (m = n) as ->; [|done].
  apply find_stored_leaf_elem in Hm, Hn; [|done..]. rewrite Hid in Hn. congruence.
Qed.

Lemma store_one_chain st ped n :
  find_stored_leaf st (id (leaf ped)) = Some n → ancestors ped ≠ [] →
  (process_store_ancestors st [ped]).2 =
    set_chains (<[id (leaf ped) := ancestors ped]> (chains st)) st.
Proof.
  intros Hf Hne. simpl. rewrite Hf. unfold upsert_ancestors. by rewrite bool_decide_false.
Qed.

Lemma get_exit_chain_one st i n :
  find_stored_leaf st i = Some n →
  process_get_exit_chains st [i] =
    assemble_exit_chains (<[id n := n]> (index_by_id (default [] (chains st !! i)))) [i].
Proof. intros Hf. unfold process_get_exit_chains. csimpl. by rewrite Hf, app_nil_r. Qed.

(** A stored leaf is reported as missing its exit chain exactly when the chain
    kept for it does not contain its parent. Storing a nonempty chain that passes
    [chain_reaches_root] for the leaf as stored makes [get_exit_chains] return
    that leaf with a chain linked parent by parent up to a root, and the leaf is
    no longer reported; leaves the store does not hold are skipped. *)
Theorem stored_chain_reads_back st n :
  wf st →
  (n ∈ stored_nodes st →
    (id n ∈ process_leaves_missing_exit_chains st ↔
      chain_backs_exit n (default [] (chains st !! id n)) = false)) ∧
  (∀ ped, id (leaf ped) = id n →
    let st' := (process_store_ancestors st [ped]).2 in
    (n ∈ stored_nodes st → ancestors ped ≠ [] → id n ∉ id <$> ancestors ped →
      chain_reaches_root n (ancestors ped) = true →
      id n ∉ process_leaves_missing_exit_chains st' ∧
      ∃ chain, process_get_exit_chains st' [id n] = [{| leaf := n; ancestors := chain |}] ∧
        linked (parent_node_id n) chain ∧ walk_end (parent_node_id n) chain = None ∧
        chain ⊆ ancestors ped) ∧
    (¬ stored_id st (id n) → st' = st ∧ process_get_exit_chains st' [id n] = [])).
Proof.
  intros Hwf. split; [by apply missing_chain_spec|]. intros ped Hid. cbn zeta. split.
  - intros Hn Hne Hself Hgate. pose proof (proj1 (find_stored_leaf_elem st n Hwf) Hn) as Hf.
    pose proof (wf_store_ancestors st [ped] Hwf) as Hwf'.
    pose proof (store_one_chain st ped n ltac:(by rewrite Hid) Hne) as Heq.
    rewrite Heq, Hid in *. set (st' := set_chains _ st) in *.
    assert (chains st' !! id n = Some (ancestors ped)) as Hc by apply lookup_insert_eq.
    split.
    + rewrite missing_chain_spec by done. setoid_rewrite Hc. simpl.
      by rewrite (chain_reaches_root_backs n (ancestors ped) Hgate).
    + destruct (gated_chain_reads_back n (ancestors ped) Hself Hgate)
        as (chain & Hchain & ? & ? & ? & _).
      exists chain. split_and!; [|done..]. rewrite (get_exit_chain_one st' _ n) by exact Hf.
      by rewrite Hc.
  - intros Hns. assert (find_stored_leaf st (id n) = None) as Hf.
    { apply eq_None_not_Some. by rewrite find_stored_leaf_is_Some. }
    simpl. rewrite Hid, Hf. split; [done|]. unfold process_get_exit_chains. csimpl. by rewrite Hf.
Qed.

(** ** Balances *)

(** A pool leaf counts when it is available, known to the operators or not; a
    reserved one when it is being swapped. *)
Definition leaf_counts (s : StoredLeaf) : Z :=
  if decide (status (node s) = TreeNodeStatus.Available) then value (node s) else 0.
Definition entry_value (e : ReservationEntry) : Z := valueZ (node <$> entry_leaves e).
Definition entry_counts (e : ReservationEntry) : Z :=
  if decide (purpose e = ReservationPurpose.Swap) then entry_value e else 0.

Definition spendable st : Z :=
  map_sum leaf_counts (leaves st) + map_sum entry_counts (leaves_reservations st).

Lemma filter3_perm {A} (P Q R : A → Prop) `{!∀ x, Decision (P x), !∀ x, Decision (Q x), !∀ x, Decision (R x)} l :
  (∀ x, x ∈ l → (P x ∧ ¬ Q x ∧ ¬ R x) ∨ (¬ P x ∧ Q x ∧ ¬ R x) ∨ (¬ P x ∧ ¬ Q x ∧ R x)) →
  filter P l ++ filter Q l ++ filter R l ≡ₚ l.
Proof.
  induction l as [|x l IH]; intros Hl; [done|]. rewrite !filter_cons.
  assert (filter P l ++ filter Q l ++ filter R l ≡ₚ l) as HI.
  { apply IH. intros y ?. apply Hl. by right. }
  destruct (Hl x ltac:(by left)) as [(?&?&?)|[(?&?&?)|(?&?&?)]]; repeat case_decide; try done; simpl.
  - by rewrite HI.
  - by rewrite <- Permutation_middle, HI.
  - by rewrite <- !Permutation_middle, HI.
Qed.

Lemma pool_split (l : list StoredLeaf) :
  filter (λ s, selectable s = true) l ++
  filter (λ s, status (node s) ≠ TreeNodeStatus.Available) l ++
  filter (λ s, status (node s) = TreeNodeStatus.Available ∧ missing_from_operators s = true) l ≡ₚ l.
Proof.
  apply filter3_perm. intros s _. unfold selectable.
  destruct (decide (status (node s) = TreeNodeStatus.Available)) as [Hs|Hs].
  - rewrite bool_decide_true by done. destruct (missing_from_operators s); naive_solver.
  - rewrite bool_decide_false by done. simpl. naive_solver.
Qed.

Lemma reserved_split (l : list ReservationEntry) :
  (l ≫= λ e, if decide (purpose e = ReservationPurpose.Payment) then node <$> entry_leaves e else [])
  ++ (l ≫= λ e, if decide (purpose e = ReservationPurpose.Swap) then node <$> entry_leaves e else [])
  ≡ₚ node <$> (l ≫= entry_leaves).
Proof.
  induction l as [|e l IH]; [done|]. csimpl. rewrite fmap_app, <- IH.
  destruct (purpose e); repeat (rewrite decide_True by done || rewrite decide_False by done); simpl;
    by rewrite ?app_assoc, ?(Permutation_app_comm _ (node <$> entry_leaves e)), ?app_assoc.
Qed.

Lemma all_leaves_perm st : all_leaves (process_get_leaves st) ≡ₚ stored_nodes st.
Proof.
  unfold all_leaves, process_get_leaves, stored_nodes, reserved_nodes. simpl.
  rewrite <- (pool_split (hm_values (leaves st))) at 4.
  rewrite <- reserved_split, !fmap_app, <- !app_assoc. done.
Qed.

(** [get_leaves] is a complete snapshot: its five lists together are exactly
    the stored nodes, each of them once. *)
Theorem get_leaves_complete st : all_leaves (process_get_leaves st) ≡ₚ stored_nodes st.
Proof.
  unfold all_leaves, process_get_leaves, stored_nodes, reserved_nodes. simpl.
  rewrite <- (pool_split (hm_values (leaves st))) at 4.
  rewrite <- reserved_split, !fmap_app, <- !app_assoc. done.
Qed.

Lemma stored_nodes_wf st : wf st → Forall node_wf (stored_nodes st).
Proof.
  intros Hwf. apply Forall_forall. intros n Hn%elem_of_stored_nodes.
  destruct Hn as [(i & s & Hs & <-)|(rid & e & s & He & Hs & <-)]; [by eapply (wf_values st Hwf)|].
  destruct (wf_entry_values st Hwf _ _ He) as [Hv _]. rewrite Forall_forall in Hv. by apply Hv.
Qed.

(** Everything the store holds, reserved or not. *)
Definition stored_total st : Z := valueZ (stored_nodes st).

Lemma pool_total st : wf st → stored_total st < 2 ^ 64 → valueZ (pool_nodes st) < 2 ^ 64.
Proof.
  intros Hwf Hb. eapply Z.le_lt_trans; [|exact Hb]. unfold stored_total, valueZ.
  apply sumZ_submseteq; [apply (wf_nonneg (stored_nodes st)), stored_nodes_wf, Hwf|].
  apply fmap_submseteq. unfold stored_nodes, pool_nodes, selectable_leaves.
  apply submseteq_inserts_r, fmap_submseteq, sublist_submseteq, sublist_filter.
Qed.

Lemma pool_counts (l : list StoredLeaf) :
  valueZ (node <$> filter (λ s, selectable s = true) l) +
  valueZ (node <$> filter (λ s, status (node s) = TreeNodeStatus.Available ∧
                                missing_from_operators s = true) l) =
  sumZ (leaf_counts <$> l).
Proof.
  induction l as [|s l IH]; [done|]. rewrite !filter_cons. unfold selectable, leaf_counts in *.
  unfold valueZ in *. csimpl.
  destruct (decide (status (node s) = TreeNodeStatus.Available)) as [Hs|Hs].
  - rewrite (bool_decide_true (status (node s) = _)) by done.
    destruct (missing_from_operators s); repeat case_decide; csimpl; naive_solver lia.
  - rewrite (bool_decide_false (status (node s) = _)) by done.
    repeat case_decide; naive_solver lia.
Qed.

Lemma swap_counts (l : list ReservationEntry) :
  valueZ (l ≫= λ e, if decide (purpose e = ReservationPurpose.Swap)
                    then node <$> entry_leaves e else []) = sumZ (entry_counts <$> l).
Proof.
  induction l as [|e l IH]; [done|]. csimpl. rewrite valueZ_app, IH. f_equal.
  unfold entry_counts, entry_value. by case_decide.
Qed.

Lemma available_balance_spendable st :
  wf st → stored_total st < 2 ^ 64 → get_available_balance st = spendable st.
Proof.
  intros Hwf Hb. unfold get_available_balance. rewrite balance_exact.
  - unfold spendable. rewrite <- (map_sum_hm_values leaf_counts), <- (map_sum_hm_values entry_counts).
    rewrite <- pool_counts, <- swap_counts. done.
  - rewrite all_leaves_perm. by apply stored_nodes_wf.
  - rewrite (sumZ_perm _ (value <$> stored_nodes st)); [done|]. by rewrite all_leaves_perm.
Qed.

Lemma take_leaves_sum (f : StoredLeaf → Z) l pool :
  NoDup (id <$> l) → (∀ x, x ∈ l → is_Some (pool !! id x)) →
  map_sum f pool = sumZ (f <$> (take_leaves l pool).1) + map_sum f (take_leaves l pool).2.
Proof.
  revert pool. induction l as [|n l IH]; intros pool Hnd Hall; [done|].
  csimpl in Hnd. apply NoDup_cons in Hnd as [Hn Hnd]. simpl.
  destruct (Hall n ltac:(by left)) as [s Hs]. rewrite Hs.
  specialize (IH (delete (id n) pool) Hnd). destruct (take_leaves l _). csimpl in *.
  rewrite (map_sum_delete f pool (id n) s Hs), IH; [lia|].
  intros x Hx. rewrite lookup_delete_ne; [apply Hall; by right|].
  intros Heq. apply Hn. rewrite Heq. by apply list_elem_of_fmap_2.
Qed.

(** Moving leaves into a reservation takes exactly their value off the pool. *)
Lemma reserved_as_spendable st uuid p sel pending st' :
  leaves_reservations st !! uuid = None → reserved_as st uuid p sel pending st' →
  spendable st' = spendable st - if decide (p = ReservationPurpose.Swap) then 0 else valueZ sel.
Proof.
  intros Hu [_ Hnd Hsel Hpool (e & Hres & He & Hp & _) _ _]. unfold spendable.
  pose proof (take_leaves_spec sel (leaves st)) as Ht.
  pose proof (take_leaves_nodes sel (leaves st)) as Hn.
  rewrite (take_leaves_sum leaf_counts sel (leaves st)); [|done|].
  2:{ intros x (s & ? & _)%Hsel. by exists s. }
  destruct (take_leaves sel (leaves st)) as [taken pool]. destruct Ht as (Hl & Hin & _). csimpl in *.
  assert (leaves st' = pool) as -> by (apply map_eq; intros i; by rewrite Hpool, Hl).
  rewrite Hres, map_sum_insert by done. unfold entry_counts at 1, entry_value. rewrite He, Hp.
  assert (sumZ (leaf_counts <$> taken) = valueZ sel) as ->.
  { rewrite <- Hn; [|intros n (s & ? & ? & _)%Hsel; eauto|done].
    unfold valueZ. rewrite <- list_fmap_compose. f_equal. apply list_fmap_ext.
    intros _ s Hs%list_elem_of_lookup_2. simpl. unfold leaf_counts.
    apply Hin in Hs as (i & (x & -> & Hx)%list_elem_of_fmap & Hi).
    apply Hsel in Hx as (s' & Hs' & _ & Hsl). simplify_eq. unfold selectable in Hsl.
    apply andb_prop in Hsl as [Hst%bool_decide_eq_true_1 _]. by rewrite decide_True. }
  case_decide; lia.
Qed.

Definition leaf_total (s : StoredLeaf) : Z := value (node s).

Lemma stored_total_sums st :
  stored_total st =
    map_sum leaf_total (leaves st) + map_sum entry_value (leaves_reservations st).
Proof.
  unfold stored_total, stored_nodes. rewrite valueZ_app.
  rewrite <- (map_sum_hm_values leaf_total), <- (map_sum_hm_values entry_value). f_equal.
  - unfold valueZ. by rewrite <- list_fmap_compose.
  - induction (hm_values (leaves_reservations st)) as [|e l IH]; [done|]. csimpl.
    by rewrite fmap_app, valueZ_app, IH.
Qed.

Lemma reserved_as_total st uuid p sel pending st' :
  leaves_reservations st !! uuid = None → reserved_as st uuid p sel pending st' →
  stored_total st' = stored_total st.
Proof.
  intros Hu [_ Hnd Hsel Hpool (e & Hres & He & _) _ _]. rewrite !stored_total_sums.
  pose proof (take_leaves_spec sel (leaves st)) as Ht.
  pose proof (take_leaves_nodes sel (leaves st)) as Hn.
  rewrite (take_leaves_sum leaf_total sel (leaves st)); [|done|].
  2:{ intros x (s & ? & _)%Hsel. by exists s. }
  destruct (take_leaves sel (leaves st)) as [taken pool]. destruct Ht as (Hl & _ & _). csimpl in *.
  assert (leaves st' = pool) as -> by (apply map_eq; intros i; by rewrite Hpool, Hl).
  rewrite Hres, map_sum_insert by done. unfold entry_value at 1. rewrite He.
  replace (valueZ sel) with (sumZ (leaf_total <$> taken)); [lia|].
  rewrite <- Hn; [|intros n (s & ? & ? & _)%Hsel; eauto|done].
  unfold valueZ. by rewrite <- list_fmap_compose.
Qed.

(** C27: A reservation that succeeds takes distinct leaves, all of them available
    and known to the operators, out of the pool and into one new entry with the
    requested purpose, leaving every other leaf, reservation, chain and spent
    marker alone. The leaves are worth exactly the target, or, unless
    [exact_only], more than it with the excess recorded as pending change; with
    no target they are the whole pool. The wallet's balance drops by their worth
    when they pay, and stays when they are swapped. *)
Theorem try_reserve_success uuid st ta exact_only p permit r st' :
  wf st → target_ok ta → stored_total st < 2 ^ 64 → leaves_reservations st !! uuid = None →
  process_try_reserve_leaves uuid st ta exact_only p permit = (Ok (Success r), st') →
  reservation_id r = uuid ∧
  (∃ pending, reserved_as st uuid p (reservation_leaves r) pending st' ∧
   match ta with
   | None => reservation_leaves r = pool_nodes st ∧ pending = 0
   | Some ta =>
       valueZ (reservation_leaves r) = target_total ta + pending ∧ 0 ≤ pending ∧
       (exact_only = true → pending = 0)
   end) ∧
  get_available_balance st' = get_available_balance st -
    if decide (p = ReservationPurpose.Swap) then 0 else valueZ (reservation_leaves r).
Proof.
  intros Hwf Hta Hb Hu Hres.
  pose proof (wf_try_reserve uuid st ta exact_only p permit Hwf Hu) as Hwf'. rewrite Hres in Hwf'.
  apply try_reserve_selected in Hres as [Hid (pending & Hra & Hv)];
    [|done|done|by apply pool_total]. split; [done|]. split; [by exists pending|].
  rewrite !available_balance_spendable by (try done; by erewrite reserved_as_total).
  by eapply reserved_as_spendable.
Qed.

(** Cancelling a reservation with the leaves it returned undoes it: the
    reservations, chains and spent markers are those of before, and so is the
    pool, leaf by leaf, up to the time its entries were stored. *)
Theorem reserve_then_cancel uuid st ta exact_only p permit r st' now :
  wf st → target_ok ta → stored_total st < 2 ^ 64 → leaves_reservations st !! uuid = None →
  process_try_reserve_leaves uuid st ta exact_only p permit = (Ok (Success r), st') →
  let '(res, st'') := process_cancel_reservation now st' (reservation_id r) (reservation_leaves r) in
  res = Ok () ∧ leaves_reservations st'' = leaves_reservations st ∧
  chains st'' = chains st ∧ spent_leaf_ids st'' = spent_leaf_ids st ∧
  (∀ i, (λ s, (node s, missing_from_operators s)) <$> leaves st'' !! i =
        (λ s, (node s, missing_from_operators s)) <$> leaves st !! i).
Proof.
  intros Hwf Hta Hb Hu Hres.
  apply try_reserve_selected in Hres as [-> (pending & Hra & _)]; [|done|done|by apply pool_total].
  destruct Hra as [_ Hnd Hsel Hpool (e & Hr & He & _) Hc Hs].
  unfold process_cancel_reservation. simpl. rewrite Hr, lookup_insert_eq, Hc, Hs.
  split_and!; try done.
  - by rewrite delete_insert_id.
  - apply map_eq. intros i. rewrite remove_chains_lookup. case_decide as Hi; [|done].
    apply list_elem_of_filter in Hi as [Hi Hin]. destruct Hi. rewrite <- He.
    unfold entry_ids in Hin. by rewrite <- list_fmap_compose.
  - intros i. unfold insert_leaves. destruct (decide (i ∈ id <$> reservation_leaves r)) as [Hi|Hi].
    + destruct (insert_all_in id (λ l, from_node l now) (reservation_leaves r) (leaves st') i Hi)
        as (n & Hn & <- & ->). simpl. apply Hsel in Hn as (s & -> & Hsn & Hsl). simpl.
      unfold selectable in Hsl. rewrite Hsn. by destruct (missing_from_operators s), (bool_decide _).
    + rewrite insert_all_notin by done. by rewrite Hpool, decide_False.
Qed.

(** ** Reserving by id *)

Lemma reservable_Ok st i n :
  reservable st i = Ok n ↔
    ∃ s, leaves st !! i = Some s ∧ node s = n ∧ selectable s = true.
Proof.
  unfold reservable. destruct (leaves st !! i) as [s|] eqn:E; simpl; [|naive_solver].
  assert (bool_decide (status (node s) ≠ TreeNodeStatus.Available) || missing_from_operators s =
    negb (selectable s)) as ->.
  { unfold selectable. rewrite bool_decide_not.
    destruct (bool_decide (status (node s) = TreeNodeStatus.Available)); simpl; [|done].
    by destruct (missing_from_operators s). }
  destruct (selectable s) eqn:Hs; simpl.
  - split; [intros [= <-]; by exists s|]. by intros (s' & [= <-] & <- & _).
  - split; [done|]. intros (s' & [= <-] & _ & ?). congruence.
Qed.

Lemma reservable_Err st i e : reservable st i = Err e → e = TreeServiceError.NonReservableLeaves.
Proof. unfold reservable. destruct (leaves st !! i); simpl; [case_match|]; naive_solver. Qed.

(** Reserving by id succeeds exactly on a nonempty list of distinct ids of
    pool leaves that are available and known to the operators; the reservation
    lists the leaves in the order of the ids. Otherwise the store is unchanged
    and the error is [NonReservableLeaves]. *)
Theorem reserve_by_ids_spec uuid st ids p permit r st' :
  wf st → process_reserve_leaves_by_ids uuid st ids p permit = (r, st') →
  let ok := ids ≠ [] ∧ NoDup ids ∧
    ∀ i, i ∈ ids → ∃ s, leaves st !! i = Some s ∧ selectable s = true in
  match r with
  | Ok res => ok ∧ reservation_id res = uuid ∧ id <$> reservation_leaves res = ids ∧
      reserved_as st uuid p (reservation_leaves res) 0 st'
  | Err e => ¬ ok ∧ e = TreeServiceError.NonReservableLeaves ∧ st' = st
  end.
Proof.
  intros Hwf. unfold process_reserve_leaves_by_ids. cbn zeta.
  destruct (decide (ids = [])) as [Hnil|Hne].
  { rewrite bool_decide_true by done. intros [= <- <-]. naive_solver. }
  rewrite bool_decide_false by done. simpl.
  destruct (decide (NoDup ids)) as [Hnd|Hnd].
  2:{ rewrite bool_decide_false; [intros [= <- <-]; naive_solver|].
      intros Hsz. apply Hnd. by apply NoDup_of_size. }
  rewrite bool_decide_true by by apply size_list_to_set. simpl.
  destruct (mapR (reservable st) ids) as [sel|e] eqn:Hm.
  - apply mapR_Ok in Hm.
    eapply Forall2_impl in Hm; [|intros i n; apply (proj1 (reservable_Ok st i n))].
    assert (id <$> sel = ids) as Hids.
    { clear -Hm Hwf. induction Hm as [|i n ids sel (s & Hs & <- & _) _ IH]; csimpl; [done|].
      by rewrite IH, (wf_keyed st Hwf _ _ Hs). }
    assert (∀ i, i ∈ ids → ∃ s, leaves st !! i = Some s ∧ selectable s = true) as Hok.
    { clear -Hm. induction Hm as [|i n ids sel (s & Hs & _ & Hsl) _ IH]; intros j;
        [by intros ?%elem_of_nil|]. intros [->|?]%elem_of_cons; eauto. }
    assert (∀ n, n ∈ sel → n ∈ pool_nodes st) as Hsel.
    { clear -Hm Hwf. induction Hm as [|i n ids sel (s & Hs & <- & Hsl) _ IH]; intros m;
        [by intros ?%elem_of_nil|]. intros [->|?]%elem_of_cons; [|by apply IH].
      apply elem_of_pool_nodes; [done|]. exists s.
      by rewrite (wf_keyed st Hwf _ _ Hs). }
    destruct (selectable_reservable uuid st sel p permit 0) as (i & st1 & Hr); [done| |done|].
    { intros ->. by csimpl in Hids. }
    rewrite Hr. intros [= <- <-].
    apply reserve_internal_selected in Hr as [-> Hra]; [|done|by rewrite Hids|done].
    by split_and!.
  - intros [= <- <-]. apply mapR_Err in Hm as (i & Hi & He). split_and!; [|by eapply reservable_Err|done].
    intros (_ & _ & Hok). destruct (Hok i Hi) as (s & Hs & Hsl).
    by rewrite (proj2 (reservable_Ok st i (node s))) in He by eauto.
Qed.

(** ** Unknown reservations *)

(** On an id that names no reservation, updating is an error and changes
    nothing; finalizing and cancelling report success, mark nothing spent, drop no
    chain, and add the leaves they were given to the pool. *)
Lemma settle_unknown_reservation now now' st rid :
  leaves_reservations st !! rid = None →
  (∀ reserved change, process_update_reservation now st rid reserved change =
    (Err (TreeServiceError.Generic ("Reservation " +:+ rid +:+ " not found")), st)) ∧
  process_finalize_reservation now now' st rid None = (Ok (), st) ∧
  (∀ l, process_finalize_reservation now now' st rid (Some l) =
    (Ok (), set_leaves_map (insert_leaves now' l (leaves st)) st)) ∧
  (∀ l, process_cancel_reservation now st rid l =
    (Ok (), set_leaves_map (insert_leaves now l (leaves st)) st)).
Proof.
  intros Hn. assert (set_reservations (delete rid (leaves_reservations st)) st = st) as Hd.
  { rewrite delete_id by done. by destruct st. }
  unfold process_update_reservation, process_finalize_reservation, process_cancel_reservation.
  rewrite Hn. split_and!; [done|by rewrite Hd|intros l; by rewrite Hd|intros l].
  cbn -[set_leaves_map set_reservations]. rewrite Hd. by destruct st.
Qed.
End spec.

(** ** Witnesses *)

#[local] Existing Instance bip68.
#[local] Instance string_order : HashIter string := canonical_iter string.

Definition reserved_ids (r : TreeResult ReserveResult) : option (list TreeNodeId) :=
  match r with Ok (Success r) => Some (id <$> reservation_leaves r) | _ => None end.

Definition sample_target : option TargetAmounts := Some (AmountAndFee 3 None).

(** Three sats cannot be matched exactly: both leaves are taken, two sats too many. *)
Example try_reserve_success_witness :
  ∃ r st', process_try_reserve_leaves "r1" sample_store sample_target false
      ReservationPurpose.Payment () = (Ok (Success r), st') ∧
    reserved_ids (Ok (Success r)) = Some ["a"%string; "b"%string] ∧
    get_available_balance st' = get_available_balance sample_store - valueZ (reservation_leaves r).
Proof.
  assert (reserved_ids (process_try_reserve_leaves "r1" sample_store sample_target false
    ReservationPurpose.Payment ()).1 = Some ["a"%string; "b"%string]) as Hids by (vm_compute; reflexivity).
  destruct (process_try_reserve_leaves _ _ _ _ _ _) as [[[r| |]|e] st'] eqn:E; try discriminate Hids.
  exists r, st'. split; [done|]. split; [exact Hids|].
  eapply try_reserve_success in E as (_ & _ & Hb).
  - exact Hb.
  - apply sample_store_wf.
  - vm_compute. repeat split; congruence.
  - by vm_compute.
  - reflexivity.
Defined.

Example reserve_then_cancel_witness :
  ∃ r st', process_try_reserve_leaves "r1" sample_store sample_target false
      ReservationPurpose.Payment () = (Ok (Success r), st') ∧
    let st'' := (process_cancel_reservation 50 st' (reservation_id r) (reservation_leaves r)).2 in
    leaves_reservations st'' = leaves_reservations sample_store ∧
    (λ s, (node s, missing_from_operators s)) <$> leaves st'' !! "b"%string =
      (λ s, (node s, missing_from_operators s)) <$> leaves sample_store !! "b"%string.
Proof.
  assert (reserved_ids (process_try_reserve_leaves "r1" sample_store sample_target false
    ReservationPurpose.Payment ()).1 = Some ["a"%string; "b"%string]) as Hids
    by (vm_compute; reflexivity).
  destruct (process_try_reserve_leaves _ _ _ _ _ _) as [[[r| |]|e] st'] eqn:E; try discriminate Hids.
  exists r, st'. split; [done|].
  eapply (reserve_then_cancel _ _ _ _ _ _ _ _ 50) in E.
  - cbn zeta. destruct (process_cancel_reservation _ _ _ _) as [res st'']. simpl.
    destruct E as (_ & Hr & _ & _ & Hp). split; [exact Hr|apply Hp].
  - apply sample_store_wf.
  - vm_compute. repeat split; congruence.
  - by vm_compute.
  - reflexivity.
Defined.

(** Nine sats are more than the wallet has. *)
Example try_reserve_refused_witness :
  let '(r, st') := process_try_reserve_leaves "r1" sample_store (Some (AmountAndFee 9 None)) false
      ReservationPurpose.Payment () in
  r = Ok InsufficientFunds ∧ st' = sample_store.
Proof.
  pose proof (try_reserve_refused "r1" sample_store (Some (AmountAndFee 9 None)) false
    ReservationPurpose.Payment ()) as Hr.
  assert ((match (process_try_reserve_leaves "r1" sample_store (Some (AmountAndFee 9 None)) false
    ReservationPurpose.Payment ()).1 with Ok InsufficientFunds => 1 | _ => 0 end) = 1) as Hf
    by (vm_compute; reflexivity).
  destruct (process_try_reserve_leaves _ _ _ _ _ _) as [[[r| |]|e] st']; try discriminate Hf.
  split; [done|]. destruct (Hr (Ok InsufficientFunds) st') as [-> _]; try reflexivity.
  - apply sample_store_wf.
  - vm_compute. repeat split; congruence.
Defined.

Lemma sample_store_unreserved : leaves_reservations sample_store = ∅.
Proof. reflexivity. Qed.

Example set_leaves_witness :
  let st' := (process_set_leaves 30 sample_store [bip68_node "c" 2 None] [] 20).2 in
  (process_set_leaves 30 sample_store [bip68_node "c" 2 None] [] 20).1 = Ok () ∧
  leaves st' !! "b"%string = None.
Proof.
  pose proof (set_leaves_spec 30 sample_store [bip68_node "c" 2 None] [] 20) as Hs.
  cbn zeta. destruct (process_set_leaves _ _ _ _ _) as [r st'].
  destruct Hs as (-> & Hp & _ & _).
  - apply sample_store_wf.
  - unfold node_wf. repeat constructor; done.
  - constructor.
  - reflexivity.
  - split; [done|]. destruct (Hp "b"%string) as (o & Ho & Hres & Hnr & _). simpl.
    rewrite Hnr.
    + destruct Ho as [[_ (n & Hn & _)]|[(_ & _ & n & Hn & Hid & _)|[_ ->]]].
      * by apply elem_of_nil in Hn.
      * by apply list_elem_of_singleton in Hn as ->.
      * reflexivity.
    + intros (rid & e & He & _). by rewrite sample_store_unreserved, lookup_empty in He.
Defined.

Definition sample_entry : ReservationEntry :=
  {| entry_leaves := [from_node (bip68_node "b" 4 (Some "p"%string)) 10];
     purpose := ReservationPurpose.Payment; _permit := (); pending_change_amount := 0 |}.

Lemma sample_reserved_entries :
  leaves_reservations sample_reserved = {["r1"%string := sample_entry]}.
Proof. reflexivity. Qed.

(** The payment's leaf [b] is swapped for [c] and [d]; a refresh started before
    the swap puts [b] back. *)
Example swapped_leaf_witness :
  let st1 := (process_update_reservation 40 sample_reserved "r1"
    [bip68_node "c" 3 None] [bip68_node "d" 1 None]).2 in
  ∃ s, leaves (process_set_leaves 50 st1 [bip68_node "b" 4 None] [] 35).2 !! "b"%string = Some s ∧
    selectable s = true.
Proof.
  destruct (swapped_leaf_is_restored 40 50 sample_reserved "r1" sample_entry
    [bip68_node "c" 3 None] [bip68_node "d" 1 None] [bip68_node "b" 4 None]
    (bip68_node "b" 4 None) 35) as (s & ? & _ & ?).
  - apply sample_reserved_wf.
  - by rewrite sample_reserved_entries.
  - reflexivity.
  - reflexivity.
  - apply NoDup_singleton.
  - by left.
  - reflexivity.
  - by left.
  - by intros ?%list_elem_of_singleton.
  - reflexivity.
  - by exists s.
Defined.

Example stored_chain_witness :
  ∃ chain, process_get_exit_chains
    (process_store_ancestors sample_store
      [{| leaf := bip68_node "b" 4 (Some "p"%string); ancestors := [bip68_node "p" 8 None] |}]).2
    ["b"%string] = [{| leaf := bip68_node "b" 4 (Some "p"%string); ancestors := chain |}].
Proof.
  destruct (stored_chain_reads_back sample_store (bip68_node "b" 4 (Some "p"%string))) as [_ Hs].
  { apply sample_store_wf. }
  destruct (Hs {| leaf := bip68_node "b" 4 (Some "p"%string);
                  ancestors := [bip68_node "p" 8 None] |} eq_refl) as [Hst _].
  destruct Hst as (_ & chain & Hc & _).
  - apply find_stored_leaf_elem; [apply sample_store_wf|reflexivity].
  - discriminate.
  - by intros ?%list_elem_of_singleton.
  - reflexivity.
  - exists chain. exact Hc.
Defined.

Example reserve_by_ids_witness :
  ∃ r st', process_reserve_leaves_by_ids "r1" sample_store ["b"%string] ReservationPurpose.Swap ()
      = (Ok r, st') ∧ id <$> reservation_leaves r = ["b"%string].
Proof.
  assert (is_Ok (process_reserve_leaves_by_ids "r1" sample_store ["b"%string]
    ReservationPurpose.Swap ()).1 = true) as Hok by (vm_compute; reflexivity).
  destruct (process_reserve_leaves_by_ids _ _ _ _ _) as [[r|e] st'] eqn:E; [|discriminate Hok].
  exists r, st'. split; [done|]. eapply (reserve_by_ids_spec _ _ _ _ _ (Ok r)) in E as (_ & _ & ? & _);
    [done|]. apply sample_store_wf.
Defined.

Example settle_unknown_witness :
  process_finalize_reservation 1 2 sample_store "nope" None = (Ok (), sample_store).
Proof.
  apply (settle_unknown_reservation 1 2 sample_store "nope"). reflexivity.
Defined.
