(* ===== verification/TreeStoreHeld.v ===== *)
(** * What the tree store holds, whatever its callers send

    No assumption on the commands: [runs] is any sequence of them. The store checks
    none of the leaves it is told to keep, to add or to reserve against those it
    holds, so a leaf may come to be held twice; [collides] is when, exactly. Then,
    for how long a finalized leaf stays away. *)

From S2P Require Import Prelude Bitcoin TreeModel ExitChain LeafSelect TreeStore.
From S2P Require Import TreeStoreInv TreeStoreSpec.

Section held.
Context `{Bitcoin} `{!HashIter string}.
Implicit Types st : LeavesState.

(** ** The statements *)

(** How often [i] occurs. *)
Definition times (i : TreeNodeId) (l : list TreeNodeId) : nat := length (filter (λ j, j = i) l).

Definition elsewhere st rid i : Prop :=
  ∃ rid' e, rid' ≠ rid ∧ leaves_reservations st !! rid' = Some e ∧ i ∈ entry_ids e.

(** [i] is in the pool or in one reservation, once, or nowhere. *)
Record held_once st i : Prop := {
  ho_pool : reserved_id st i → leaves st !! i = None;
  ho_entry rid e : leaves_reservations st !! rid = Some e → (times i (entry_ids e) ≤ 1)%nat;
  ho_entries rid1 rid2 e1 e2 :
    leaves_reservations st !! rid1 = Some e1 → leaves_reservations st !! rid2 = Some e2 →
    i ∈ entry_ids e1 → i ∈ entry_ids e2 → rid1 = rid2;
}.

(** The command hands [i] to the pool while another reservation has it, or to an
    open reservation twice or while something else has it. *)
Definition collides st (cmd : StoreCommand) i : Prop :=
  match cmd with
  | CancelReservation rid keep => elsewhere st rid i ∧ i ∈ id <$> keep
  | FinalizeReservation rid new => elsewhere st rid i ∧ i ∈ id <$> default [] new
  | UpdateReservation rid reserved change =>
      is_Some (leaves_reservations st !! rid) ∧
      ((elsewhere st rid i ∧ i ∈ id <$> change) ∨
       (1 < times i (id <$> reserved))%nat ∨
       (i ∈ id <$> reserved ∧ (is_Some (leaves st !! i) ∨ i ∈ id <$> change ∨ elsewhere st rid i)))
  | _ => False
  end.

Record store_base st : Prop := {
  sb_keyed : keyed (leaves st);
  sb_chains i : is_Some (chains st !! i) → stored_id st i;
}.

(** Commands run from [st], any of them, with any clock and a fresh id; the log
    has the state each one met. *)
Inductive runs st : list (LeavesState * StoreCommand) → LeavesState → Prop :=
| runs_nil : runs st [] st
| runs_snoc log st1 env cmd :
    runs st log st1 → leaves_reservations st1 !! env_uuid env = None →
    runs st (log ++ [(st1, cmd)]) (process_command env st1 cmd).2.

(** ** Three shapes of change *)

Lemma times_NoDup i l : NoDup l → (times i l ≤ 1)%nat.
Proof.
  intros Hnd. unfold times. assert (NoDup (filter (λ j, j = i) l)) as Hf by by apply NoDup_filter.
  assert (∀ j, j ∈ filter (λ j, j = i) l → j = i) as Hi by by intros j [-> _]%list_elem_of_filter.
  destruct (filter _ l) as [|a [|b f]]; simpl; [lia|lia|exfalso].
  apply NoDup_cons in Hf as [Ha _]. apply Ha.
  rewrite (Hi a), (Hi b) by set_solver. by left.
Qed.

Lemma times_pos i l : i ∈ l ↔ (0 < times i l)%nat.
Proof.
  unfold times. split.
  - intros Hi. assert (i ∈ filter (λ j, j = i) l) as Hf by by apply list_elem_of_filter.
    destruct (filter _ l); [by apply elem_of_nil in Hf|simpl; lia].
  - destruct (filter (λ j, j = i) l) as [|j f] eqn:E; simpl; [lia|]. intros _.
    assert (j ∈ filter (λ j, j = i) l) as [-> ?]%list_elem_of_filter by (rewrite E; by left). done.
Qed.

Lemma reserved_elsewhere st rid i :
  leaves_reservations st !! rid = None → reserved_id st i → elsewhere st rid i.
Proof. intros Hn (rid' & e & He & Hi). exists rid', e. split_and!; [congruence|done..]. Qed.

Lemma held_same_ids st st' i :
  same_ids (leaves_reservations st) (leaves_reservations st') →
  (reserved_id st i → leaves st' !! i = None) → held_once st i → held_once st' i.
Proof.
  intros Hs Hp Hh. split.
  - intros Hr. by eapply Hp, same_ids_reserved.
  - intros rid e He. destruct (same_ids_entry _ _ _ _ Hs He) as (e0 & He0 & ->).
    by eapply ho_entry.
  - intros rid1 rid2 e1 e2 He1 He2.
    destruct (same_ids_entry _ _ _ _ Hs He1) as (? & ? & ->).
    destruct (same_ids_entry _ _ _ _ Hs He2) as (? & ? & ->). by eapply ho_entries.
Qed.

Lemma base_same_ids st st' :
  same_ids (leaves_reservations st) (leaves_reservations st') → keyed (leaves st') →
  (∀ i, is_Some (chains st' !! i) → stored_id st i) →
  (∀ i, is_Some (chains st' !! i) → is_Some (leaves st !! i) → is_Some (leaves st' !! i)) →
  store_base st'.
Proof.
  intros Hs Hk Hc Hp. split; [done|]. intros i Hi. destruct (Hc i Hi) as [?|Hr].
  - left. by apply Hp.
  - right. eapply (same_ids_reserved _ st); [by apply same_ids_sym|done].
Qed.

(** A new entry. *)
Lemma reserved_add st rid e i :
  leaves_reservations st !! rid = None →
  reserved_id (set_reservations (<[rid := e]> (leaves_reservations st)) st) i ↔
    i ∈ entry_ids e ∨ reserved_id st i.
Proof.
  intros Hn. split.
  - intros (rid' & e' & He' & Hi). simpl in He'.
    apply lookup_insert_Some in He' as [[<- <-]|[? ?]]; [by left|]. right. by exists rid', e'.
  - intros [Hi|(rid' & e' & He' & Hi)]; [exists rid, e; simpl; by rewrite lookup_insert_eq|].
    exists rid', e'. simpl. rewrite lookup_insert_ne; [done|]. intros <-. congruence.
Qed.

Lemma held_add st rid e i :
  leaves_reservations st !! rid = None →
  held_once (set_reservations (<[rid := e]> (leaves_reservations st)) st) i ↔
    held_once st i ∧ (times i (entry_ids e) ≤ 1)%nat ∧
    (i ∈ entry_ids e → leaves st !! i = None ∧ ¬ reserved_id st i).
Proof.
  intros Hn. split.
  - intros [Hp He Hx]. simpl in *. split_and!; [split| |].
    + intros Hr. apply Hp, reserved_add; auto.
    + intros rid' e' He'. apply (He rid'). rewrite lookup_insert_ne; [done|]. congruence.
    + intros rid1 rid2 e1 e2 H1 H2. apply Hx; (rewrite lookup_insert_ne; [done|congruence]).
    + apply (He rid). apply lookup_insert_eq.
    + intros Hi. split; [apply Hp, reserved_add; auto|]. intros (rid' & e' & He' & Hi').
      assert (rid = rid') as <-; [|congruence]. apply (Hx rid rid' e e'); [apply lookup_insert_eq| |done..].
      rewrite lookup_insert_ne; [done|congruence].
  - intros ([Hp He Hx] & Ht & Hi). split; simpl.
    + intros [?|?]%reserved_add; [by apply Hi|by apply Hp|done].
    + intros rid' e' [[<- <-]|[_ ?]]%lookup_insert_Some; [done|by eapply He].
    + intros rid1 rid2 e1 e2 [[<- <-]|[_ H1]]%lookup_insert_Some
        [[<- <-]|[_ H2]]%lookup_insert_Some Hi1 Hi2; [done|exfalso..|by eapply Hx].
      * apply Hi in Hi1 as [_ []]. by exists rid2, e2.
      * apply Hi in Hi2 as [_ []]. by exists rid1, e1.
Qed.

Lemma base_add st rid e pool :
  leaves_reservations st !! rid = None → store_base st → pool ⊆ leaves st →
  (∀ i, is_Some (leaves st !! i) → is_Some (pool !! i) ∨ i ∈ entry_ids e) →
  store_base (set_reservations (<[rid := e]> (leaves_reservations st)) (set_leaves_map pool st)).
Proof.
  intros Hn [Hk Hc] Hsub Hcov. split; simpl.
  - intros i s Hi. apply Hk. by eapply lookup_weaken.
  - intros i [Hi|Hi]%Hc.
    + destruct (Hcov i Hi) as [?|?]; [by left|right].
      apply (reserved_add (set_leaves_map pool st)); auto.
    + right. apply (reserved_add (set_leaves_map pool st)); [done|]. by right.
Qed.

(** A settled entry. *)
Definition settled (now : SystemTime) st rid l c spent t : LeavesState :=
  {| leaves := insert_leaves now l (leaves st); chains := c;
     leaves_reservations := delete rid (leaves_reservations st);
     spent_leaf_ids := spent; last_swap_completed_at := t |}.

Lemma reserved_settled now st rid l c spent t i :
  reserved_id (settled now st rid l c spent t) i ↔ elsewhere st rid i.
Proof.
  unfold reserved_id, elsewhere. simpl. setoid_rewrite lookup_delete_Some. naive_solver.
Qed.

Lemma held_settled now st rid l c spent t i :
  held_once st i →
  held_once (settled now st rid l c spent t) i ↔ ¬ (elsewhere st rid i ∧ i ∈ id <$> l).
Proof.
  intros [Hp He Hx]. assert (elsewhere st rid i → leaves st !! i = None) as Hpe.
  { intros (rid' & e & _ & ? & ?). apply Hp. by exists rid', e. }
  split.
  - intros [Hp' _ _] [Hels Hi]. rewrite reserved_settled in Hp'. specialize (Hp' Hels). simpl in Hp'.
    apply eq_None_not_Some in Hp'. apply Hp'. apply insert_leaves_dom. by right.
  - intros Hn. split; simpl.
    + intros Hr. rewrite reserved_settled in Hr. apply eq_None_not_Some.
      rewrite insert_leaves_dom, (Hpe Hr). intros [[? ?]|?]; [done|]. by apply Hn.
    + intros rid' e [_ ?]%lookup_delete_Some. by eapply He.
    + intros rid1 rid2 e1 e2 [_ ?]%lookup_delete_Some [_ ?]%lookup_delete_Some. by eapply Hx.
Qed.

Lemma base_settled now st rid l c spent t :
  store_base st →
  (∀ i, is_Some (c !! i) → is_Some (chains st !! i) ∧
    ∀ e, leaves_reservations st !! rid = Some e → i ∈ entry_ids e → i ∈ id <$> l) →
  store_base (settled now st rid l c spent t).
Proof.
  intros [Hk Hch] Hc. split; simpl; [by apply insert_all_keyed|].
  intros i [Hi Hin]%Hc. apply Hch in Hi as [Hi|(rid' & e & He & Hi)].
  - left. simpl. apply insert_leaves_dom. by left.
  - destruct (decide (rid' = rid)) as [->|Hne].
    + left. simpl. apply insert_leaves_dom. right. by eapply Hin.
    + right. apply reserved_settled. by exists rid', e.
Qed.

(** ** Every command *)

Lemma add_leaf_shape now st leaf :
  same_ids (leaves_reservations st) (leaves_reservations (add_leaf now st leaf)) ∧
  chains (add_leaf now st leaf) = chains st ∧
  (leaves (add_leaf now st leaf) = leaves st ∨
   ¬ reserved_id st (id leaf) ∧
     leaves (add_leaf now st leaf) = <[id leaf := from_node leaf now]> (leaves st)).
Proof.
  unfold add_leaf. destruct (find_map _ _) as [[rid e']|] eqn:Hf; simpl.
  - apply find_map_Some in Hf as ([rid0 e] & He%elem_of_hm_iter & (l & Hl & [= -> <-])%bind_Some).
    apply update_node_Some in Hl as (Hids & _ & _). split_and!; [|done|by left].
    intros rid'. rewrite lookup_insert. case_decide; subst; [|done].
    rewrite He. simpl. f_equal. exact Hids.
  - split_and!; [by intros rid|done|right]. split; [|done].
    intros (rid & e & He & Hi). rewrite find_map_None in Hf.
    specialize (Hf (rid, e) (proj2 (elem_of_hm_iter _ _ _) He)).
    simpl in Hf. apply bind_None in Hf as [Hf|(? & ? & ?)]; [|done].
    by apply update_node_None in Hf.
Qed.

Lemma add_leaf_base now st leaf : store_base st → store_base (add_leaf now st leaf).
Proof.
  intros [Hk Hc]. destruct (add_leaf_shape now st leaf) as (Hs & Hch & Hp).
  apply (base_same_ids st); [done| |intros i; rewrite Hch; apply Hc|].
  - destruct Hp as [->|[_ ->]]; [done|]. by apply (insert_all_keyed now [leaf]).
  - intros i _ Hi. destruct Hp as [->|[_ ->]]; [done|].
    rewrite lookup_insert. by case_decide.
Qed.

Lemma add_leaf_held now st leaf i : held_once st i → held_once (add_leaf now st leaf) i.
Proof.
  intros Hh. destruct (add_leaf_shape now st leaf) as (Hs & _ & Hp).
  apply (held_same_ids st); [done| |done]. intros Hr.
  destruct Hp as [->|[Hn ->]]; [by apply ho_pool|].
  rewrite lookup_insert_ne; [by apply ho_pool|]. by intros <-.
Qed.

Lemma store_ancestors_shape st ps :
  leaves (process_store_ancestors st ps).2 = leaves st ∧
  leaves_reservations (process_store_ancestors st ps).2 = leaves_reservations st ∧
  spent_leaf_ids (process_store_ancestors st ps).2 = spent_leaf_ids st ∧
  (∀ i, is_Some (chains (process_store_ancestors st ps).2 !! i) →
    is_Some (chains st !! i) ∨ stored_id st i).
Proof.
  simpl. revert st. induction ps as [|p ps IH]; intros st; simpl; [by auto 6|].
  destruct (find_stored_leaf st (id (leaf p))) eqn:Hf; [|by apply IH].
  assert (stored_id st (id (leaf p))) as Hst by (apply find_stored_leaf_is_Some; by eexists).
  destruct (IH (upsert_ancestors st (id (leaf p)) (ancestors p))) as (-> & -> & -> & Hc).
  unfold upsert_ancestors in *. case_bool_decide; [by auto 6|]. split_and!; [done..|].
  intros i [Hi|Hi]%Hc; [|by right]. simpl in Hi.
  destruct (decide (id (leaf p) = i)) as [<-|]; [by right|]. left. by rewrite lookup_insert_ne in Hi.
Qed.

Lemma set_leaves_skipped now st new missing refresh :
  has_active_swap st || swap_completed_during_refresh st refresh = true →
  (process_set_leaves now st new missing refresh).2 = st.
Proof. intros Hg. unfold process_set_leaves. by rewrite Hg. Qed.

Lemma set_leaves_shape now st new missing refresh :
  keyed (leaves st) →
  let st' := (process_set_leaves now st new missing refresh).2 in
  same_ids (leaves_reservations st) (leaves_reservations st') ∧ keyed (leaves st') ∧
  (has_active_swap st || swap_completed_during_refresh st refresh = false →
    ∀ i, reserved_id st i → leaves st' !! i = None) ∧
  (∀ i, is_Some (chains st' !! i) → is_Some (chains st !! i)) ∧
  (∀ i, is_Some (chains st' !! i) → is_Some (leaves st !! i) → is_Some (leaves st' !! i)).
Proof.
  intros Hk. cbn zeta.
  destruct (has_active_swap st || swap_completed_during_refresh st refresh) eqn:Hg.
  { rewrite set_leaves_skipped by done. by split_and!. }
  rewrite set_leaves_eq by done. cbn zeta.
  pose proof (refreshed_pool_keyed now st new missing refresh Hk) as Hk'.
  set (pool := refreshed_pool now st new missing refresh) in *. cbn [leaves chains leaves_reservations].
  pose proof (refresh_reservations_pool st pool) as Hpool. split_and!.
  - by apply refresh_same_ids.
  - intros i s. rewrite Hpool. case_decide; [done|]. apply Hk'.
  - intros _ i Hi. rewrite Hpool, decide_True; [done|]. by apply kvs_ids_elem.
  - intros i. rewrite remove_chains_lookup. case_decide; [by intros [? ?]|done].
  - intros i. rewrite remove_chains_lookup. case_decide as Hd; [by intros [? ?]|]. intros _ Hi.
    destruct (decide (is_Some ((refresh_reservations pool (leaves_reservations st)).1 !! i)))
      as [|Hns]; [done|]. exfalso. apply Hd. apply list_elem_of_filter. split; [done|].
    by apply elem_of_hm_keys.
Qed.

Lemma reserve_internal_shape uuid st l p permit pending :
  store_base st → leaves_reservations st !! uuid = None →
  let st' := (reserve_internal uuid st l p permit pending).2 in
  store_base st' ∧ (∀ i, held_once st i → held_once st' i) ∧
  (∀ i, leaves st !! i = None → ¬ reserved_id st i → leaves st' !! i = None ∧ ¬ reserved_id st' i) ∧
  chains st' = chains st ∧ spent_leaf_ids st' = spent_leaf_ids st.
Proof.
  intros Hb Hu. cbn zeta. destruct (reserve_internal _ _ _ _ _ _) as [[rid|e] st'] eqn:E; simpl.
  2:{ apply reserve_internal_Err in E as [-> _]. by auto. }
  apply reserve_internal_Ok in E as (_ & _ & _ & ->).
  pose proof (take_leaves_spec l (leaves st)) as Hs.
  pose proof (λ i, take_leaves_covers l (leaves st) i) as Hcov.
  destruct (take_leaves l (leaves st)) as [taken pool]. destruct Hs as (Hl & Hin & Hnd). simpl in *.
  pose proof (sb_keyed st Hb) as Hk.
  set (e := {| entry_leaves := taken; purpose := p; _permit := permit;
    pending_change_amount := pending |}).
  assert (∀ i, i ∈ entry_ids e → is_Some (leaves st !! i) ∧ pool !! i = None) as Hsub.
  { intros i (s & -> & (j & Hj & Hjs)%Hin)%list_elem_of_fmap. rewrite (Hk _ _ Hjs).
    split; [by eexists|]. by rewrite Hl, decide_True. }
  assert (pool ⊆ leaves st) as Hps.
  { apply map_subseteq_spec. intros i s. rewrite Hl. by case_decide. }
  split_and!; [| | |done|done].
  - apply base_add; [done|done|done|]. intros i Hi. rewrite Hl.
    case_decide; [right|by left]. by apply Hcov.
  - intros i [Hp He Hx]. apply (held_add (set_leaves_map pool st)); [done|]. split_and!.
    + split; [|done|done]. intros Hr. specialize (Hp Hr). simpl. rewrite Hl. by case_decide.
    + by apply times_NoDup, Hnd.
    + intros Hi. apply Hsub in Hi as [[s Hs] Hi]. split; [done|]. intros Hr.
      change (reserved_id st i) in Hr. apply Hp in Hr. congruence.
  - intros i Hi Hr. split; [simpl; rewrite Hl; by case_decide|].
    intros [Hie|?]%(reserved_add (set_leaves_map pool st)); [|done|done].
    apply Hsub in Hie as [[? ?] _]. congruence.
Qed.

Lemma try_reserve_state uuid st ta exact_only p permit :
  (process_try_reserve_leaves uuid st ta exact_only p permit).2 = st ∨
  ∃ l pending, (process_try_reserve_leaves uuid st ta exact_only p permit).2 =
    (reserve_internal uuid st l p permit pending).2.
Proof.
  unfold process_try_reserve_leaves.
  repeat case_match; simpl in *; subst; auto; right; eexists _, _;
    match goal with H : _ = (_, ?s) |- ?s = _ => by rewrite H end.
Qed.

Lemma reserve_by_ids_state uuid st ids p permit :
  (process_reserve_leaves_by_ids uuid st ids p permit).2 = st ∨
  ∃ l, (process_reserve_leaves_by_ids uuid st ids p permit).2 =
    (reserve_internal uuid st l p permit 0).2.
Proof.
  unfold process_reserve_leaves_by_ids. case_match; [by left|].
  destruct (mapR _ _) as [l|]; [|by left]. right. exists l.
  by destruct (reserve_internal _ _ _ _ _ _) as [[?|?] ?].
Qed.

Lemma cancel_state now st rid keep :
  (process_cancel_reservation now st rid keep).2 =
    settled now st rid keep
      (remove_chains (filter (λ i, i ∉ id <$> keep)
        match leaves_reservations st !! rid with Some e => entry_ids e | None => [] end) (chains st))
      (spent_leaf_ids st) (last_swap_completed_at st).
Proof. done. Qed.

Lemma finalize_state now now' st rid new :
  ∃ t, (process_finalize_reservation now now' st rid new).2 =
    settled now' st rid (default [] new)
      (remove_chains match leaves_reservations st !! rid with
                     | Some e => entry_ids e | None => [] end (chains st))
      match leaves_reservations st !! rid with
      | Some e => insert_all id (λ _, now) (node <$> entry_leaves e) (spent_leaf_ids st)
      | None => spent_leaf_ids st
      end t.
Proof.
  unfold process_finalize_reservation, settled.
  destruct (leaves_reservations st !! rid) as [e|], new as [l|]; simpl;
    repeat case_match; simpl; by eexists.
Qed.

(** The state between the two halves of an update: the old entry is gone and the
    change is in the pool. *)
Definition update_middle now st rid old change : LeavesState :=
  settled now st rid change (remove_chains (entry_ids old) (chains st)) (spent_leaf_ids st)
    (last_swap_completed_at st).

Lemma update_state now st rid reserved change old :
  leaves_reservations st !! rid = Some old →
  ∃ e, entry_ids e = id <$> reserved ∧
    (process_update_reservation now st rid reserved change).2 =
      set_reservations (<[rid := e]> (leaves_reservations (update_middle now st rid old change)))
        (update_middle now st rid old change).
Proof.
  intros Hold. unfold process_update_reservation. rewrite Hold. eexists. split; [|done].
  unfold entry_ids. simpl. by rewrite <- list_fmap_compose.
Qed.

Lemma update_middle_fresh now st rid old change :
  leaves_reservations (update_middle now st rid old change) !! rid = None.
Proof. apply lookup_delete_eq. Qed.

Lemma update_unknown now st rid reserved change :
  leaves_reservations st !! rid = None →
  (process_update_reservation now st rid reserved change).2 = st.
Proof. intros Hn. unfold process_update_reservation. by rewrite Hn. Qed.

Lemma update_middle_base now st rid old change :
  store_base st → leaves_reservations st !! rid = Some old →
  store_base (update_middle now st rid old change).
Proof.
  intros Hb Hold. apply base_settled; [done|]. intros i. rewrite remove_chains_lookup.
  case_decide; [by intros [? ?]|]. intros ?. split; [done|]. naive_solver.
Qed.

Lemma add_leaves_inv (P : LeavesState → Prop) now st l :
  (∀ st leaf, leaf ∈ l → P st → P (add_leaf now st leaf)) → P st →
  P (process_add_leaves now st l).2.
Proof.
  simpl. revert st. induction l as [|leaf l IH]; intros st Hstep HP; simpl; [done|].
  apply IH; [intros; apply Hstep; [by right|done]|]. apply Hstep; [by left|done].
Qed.

Lemma process_base env st cmd :
  store_base st → leaves_reservations st !! env_uuid env = None →
  store_base (process_command env st cmd).2.
Proof.
  intros Hb Hu.
  assert (∀ l p permit pending,
    store_base (reserve_internal (env_uuid env) st l p permit pending).2) as Hr.
  { intros. by apply reserve_internal_shape. }
  destruct cmd as [l|ps| | | |l m t|ta ex p permit|rid keep|rid new|rid r c|ids p permit|ta]; try done.
  - apply (add_leaves_inv store_base); [|done]. intros st0 leaf _. apply add_leaf_base.
  - destruct (store_ancestors_shape st ps) as (Hl & Hrs & _ & Hc). simpl in *.
    apply (base_same_ids st); [intros k; by rewrite Hrs|rewrite Hl; apply Hb| |by rewrite Hl].
    intros i [?|?]%Hc; [by apply sb_chains|done].
  - destruct (set_leaves_shape (env_now env) st l m t (sb_keyed st Hb)) as (Hs & Hk & _ & Hc & Hp).
    simpl. destruct (process_set_leaves _ _ _ _ _). simpl in *.
    apply (base_same_ids st); [done|done| |done]. intros i Hi%Hc. by apply sb_chains.
  - simpl. pose proof (try_reserve_state (env_uuid env) st ta ex p permit) as Hs.
    destruct (process_try_reserve_leaves _ _ _ _ _ _).
    destruct Hs as [Hs|(? & ? & Hs)]; simpl in *; rewrite Hs; done.
  - change (store_base (process_cancel_reservation (env_now env) st rid keep).2).
    rewrite cancel_state. apply base_settled; [done|]. intros i. rewrite remove_chains_lookup.
    case_decide as Hd; [by intros [? ?]|]. intros ?. split; [done|]. intros e He Hi.
    rewrite He in Hd. destruct (decide (i ∈ id <$> keep)); [done|exfalso].
    apply Hd. by apply list_elem_of_filter.
  - simpl. destruct (finalize_state (env_now env) (env_now' env) st rid new) as [t Hs].
    destruct (process_finalize_reservation _ _ _ _ _). simpl in *. rewrite Hs.
    apply base_settled; [done|]. intros i. rewrite remove_chains_lookup.
    case_decide as Hd; [by intros [? ?]|]. intros ?. split; [done|]. intros e He. by rewrite He in Hd.
  - simpl. destruct (leaves_reservations st !! rid) as [old|] eqn:Hold.
    + destruct (update_state (env_now env) st rid r c old Hold) as (e & _ & Hs).
      destruct (process_update_reservation _ _ _ _ _). simpl in *. rewrite Hs.
      apply (base_add (update_middle (env_now env) st rid old c) rid e
        (leaves (update_middle (env_now env) st rid old c)));
        [apply update_middle_fresh|by apply update_middle_base|done|by left].
    + pose proof (update_unknown (env_now env) st rid r c Hold).
      destruct (process_update_reservation _ _ _ _ _). by simpl in *; subst.
  - simpl. pose proof (reserve_by_ids_state (env_uuid env) st ids p permit) as Hs.
    destruct (process_reserve_leaves_by_ids _ _ _ _ _).
    destruct Hs as [Hs|(? & Hs)]; simpl in *; rewrite Hs; done.
Qed.

Lemma update_held now st rid old reserved change i :
  leaves_reservations st !! rid = Some old → held_once st i →
  held_once (process_update_reservation now st rid reserved change).2 i ↔
    ¬ collides st (UpdateReservation rid reserved change) i.
Proof.
  intros Hold Hh. destruct (update_state now st rid reserved change old Hold) as (e & He & ->).
  rewrite held_add, He by apply update_middle_fresh.
  unfold update_middle at 1. rewrite (held_settled _ _ _ _ _ _ _ _ Hh).
  unfold update_middle. rewrite reserved_settled. cbn [settled leaves collides].
  rewrite eq_None_not_Some, insert_leaves_dom. split.
  - intros (Hc & Ht & Hi) [_ [?|[?|[Hin Hor]]]]; [by apply Hc|lia|].
    apply Hi in Hin as [Hn Hne]. naive_solver.
  - intros Hn. assert (is_Some (leaves_reservations st !! rid)) as Hs by (rewrite Hold; by eexists).
    split_and!; [tauto| |tauto]. destruct (decide (1 < times i (id <$> reserved))%nat); [tauto|lia].
Qed.

Lemma process_held env st cmd i :
  store_base st → leaves_reservations st !! env_uuid env = None → held_once st i →
  held_once (process_command env st cmd).2 i ↔ ¬ collides st cmd i.
Proof.
  intros Hb Hu Hh.
  assert (∀ l p permit pending,
    held_once (reserve_internal (env_uuid env) st l p permit pending).2 i) as Hr.
  { intros. by apply reserve_internal_shape. }
  destruct cmd as [l|ps| | | |l m t|ta ex p permit|rid keep|rid new|rid r c|ids p permit|ta];
    try (split; [by auto|by intros _]).
  - split; [by auto|]. intros _. apply (add_leaves_inv (λ st, held_once st i)); [|done].
    intros st0 leaf _. apply add_leaf_held.
  - destruct (store_ancestors_shape st ps) as (Hl & Hrs & _). split; [by auto|]. intros _.
    apply (held_same_ids st); [intros k; simpl in *; by rewrite Hrs| |done].
    simpl in *. rewrite Hl. by apply ho_pool.
  - split; [by auto|]. intros _.
    destruct (set_leaves_shape (env_now env) st l m t (sb_keyed st Hb)) as (Hs & _ & Hp & _).
    pose proof (set_leaves_skipped (env_now env) st l m t) as Hsk.
    simpl. destruct (process_set_leaves _ _ _ _ _) as [res st']. simpl in *.
    destruct (has_active_swap st || swap_completed_during_refresh st t); [by rewrite Hsk|].
    apply (held_same_ids st); [done|by apply Hp|done].
  - split; [by auto|]. intros _. simpl.
    pose proof (try_reserve_state (env_uuid env) st ta ex p permit) as Hs.
    destruct (process_try_reserve_leaves _ _ _ _ _ _).
    destruct Hs as [Hs|(? & ? & Hs)]; simpl in *; rewrite Hs; done.
  - change (held_once (process_cancel_reservation (env_now env) st rid keep).2 i ↔
      ¬ collides st (CancelReservation rid keep) i).
    rewrite cancel_state. by apply held_settled.
  - simpl. destruct (finalize_state (env_now env) (env_now' env) st rid new) as [t Hs].
    destruct (process_finalize_reservation _ _ _ _ _). simpl in *. rewrite Hs.
    by apply held_settled.
  - simpl. destruct (leaves_reservations st !! rid) as [old|] eqn:Hold.
    + pose proof (update_held (env_now env) st rid old r c i Hold Hh) as Hs. simpl in Hs.
      rewrite Hold in Hs. by destruct (process_update_reservation _ _ _ _ _).
    + pose proof (update_unknown (env_now env) st rid r c Hold) as Hs.
      destruct (process_update_reservation _ _ _ _ _). simpl in *; subst.
      split; [|done]. by intros _ [[? ?] _].
  - split; [by auto|]. intros _. simpl.
    pose proof (reserve_by_ids_state (env_uuid env) st ids p permit) as Hs.
    destruct (process_reserve_leaves_by_ids _ _ _ _ _).
    destruct Hs as [Hs|(? & Hs)]; simpl in *; rewrite Hs; done.
Qed.

Lemma base_default : store_base LeavesState_default.
Proof. split; [apply (wf_keyed _ wf_default)|apply (wf_chains _ wf_default)]. Qed.

Lemma held_default i : held_once LeavesState_default i.
Proof.
  split; simpl.
  - done.
  - intros rid e He. by rewrite lookup_empty in He.
  - intros ? ? ? ? He. by rewrite lookup_empty in He.
Qed.

Lemma runs_base st log st' : store_base st → runs st log st' → store_base st'.
Proof. intros Hb Hr. induction Hr as [|log st1 env cmd Hr IH Hu]; [done|]. by apply process_base. Qed.

(** C1: Whatever commands arrive, in whatever order, starting from an empty store:
    pool entries are keyed by their leaf's id, an ancestor chain is stored only for
    a leaf that is, and a refresh that applies leaves no reserved leaf in the pool.
    A leaf is never both in the pool and in a reservation, nor in two reservations,
    nor twice in one, unless some command handed it over while something else held
    it (the store checks none of the leaves it is given): while a leaf is held
    once, it stays so through a command exactly when the command does not collide
    on it, and only settling commands can. *)
Theorem no_leaf_is_held_twice log st :
  runs LeavesState_default log st →
  (∀ i s, leaves st !! i = Some s → id (node s) = i) ∧
  (∀ i, is_Some (chains st !! i) → stored_id st i) ∧
  (∀ i, (∀ st0 cmd, (st0, cmd) ∈ log → ¬ collides st0 cmd i) →
    (reserved_id st i → leaves st !! i = None) ∧
    (∀ rid e, leaves_reservations st !! rid = Some e → (times i (entry_ids e) ≤ 1)%nat) ∧
    (∀ rid1 rid2 e1 e2,
      leaves_reservations st !! rid1 = Some e1 → leaves_reservations st !! rid2 = Some e2 →
      i ∈ entry_ids e1 → i ∈ entry_ids e2 → rid1 = rid2)) ∧
  (∀ env cmd i, leaves_reservations st !! env_uuid env = None → held_once st i →
    held_once (process_command env st cmd).2 i ↔ ¬ collides st cmd i) ∧
  (∀ now new missing refresh i,
    has_active_swap st || swap_completed_during_refresh st refresh = false → reserved_id st i →
    leaves (process_set_leaves now st new missing refresh).2 !! i = None).
Proof.
  intros Hr. pose proof (runs_base _ _ _ base_default Hr) as Hb. split_and!.
  - apply (sb_keyed st Hb).
  - apply (sb_chains st Hb).
  - intros i Hc. assert (held_once st i) as [? ? ?]; [|done]. revert Hc.
    induction Hr as [|log st1 env cmd Hr IH Hu]; intros Hc; [apply held_default|].
    pose proof (runs_base _ _ _ base_default Hr) as Hb1.
    apply process_held; [done|done| |].
    + apply IH; [done|]. intros st0 cmd0 Hin. apply Hc. apply elem_of_app. by left.
    + apply Hc. apply elem_of_app. right. by left.
  - intros env cmd i Hu Hh. by apply process_held.
  - intros now new missing refresh i Hg Hi.
    by apply (set_leaves_shape now st new missing refresh (sb_keyed st Hb)).
Qed.

(** ** Spent leaves *)

(** The store has no trace of the leaf but, perhaps, its spent marker. *)
Definition absent st i : Prop :=
  leaves st !! i = None ∧ ¬ reserved_id st i ∧ chains st !! i = None.

(** The command itself hands the leaf over. *)
Definition names (cmd : StoreCommand) i : Prop :=
  match cmd with
  | AddLeaves l => i ∈ id <$> l
  | CancelReservation _ keep => i ∈ id <$> keep
  | FinalizeReservation _ new => i ∈ id <$> default [] new
  | UpdateReservation _ reserved change => i ∈ id <$> reserved ∨ i ∈ id <$> change
  | _ => False
  end.

Definition refresh_after (t : SystemTime) (cmd : StoreCommand) : Prop :=
  match cmd with SetLeaves _ _ started => t < started | _ => False end.

Lemma settled_absent now st rid l c spent t i :
  (elsewhere st rid i → False) → leaves st !! i = None → i ∉ id <$> l → c !! i = None →
  absent (settled now st rid l c spent t) i.
Proof.
  intros Hr Hp Hl Hc. split_and!; simpl.
  - unfold insert_leaves. by rewrite insert_all_notin.
  - by rewrite reserved_settled.
  - done.
Qed.

Lemma elsewhere_reserved st rid i : elsewhere st rid i → reserved_id st i.
Proof. intros (rid' & e & _ & ? & ?). by exists rid', e. Qed.

Lemma remove_chains_None ids c i : c !! i = None → remove_chains ids c !! i = None.
Proof. intros Hc. rewrite remove_chains_lookup. by case_decide. Qed.

(** What an applied refresh does with a leaf the store does not hold. *)
Lemma set_leaves_absent now st new missing refresh i :
  keyed (leaves st) → absent st i →
  has_active_swap st || swap_completed_during_refresh st refresh = false →
  let st' := (process_set_leaves now st new missing refresh).2 in
  (is_Some (leaves st' !! i) ↔
    ¬ marked_spent st refresh i ∧ (i ∈ id <$> new ∨ i ∈ id <$> missing)) ∧
  ¬ reserved_id st' i ∧ chains st' !! i = None ∧
  spent_leaf_ids st' !! i = (t ← spent_leaf_ids st !! i; if decide (refresh ≤ t) then Some t else None).
Proof.
  intros Hk (Hp & Hr & Hc) Hg. cbn zeta.
  destruct (set_leaves_shape now st new missing refresh Hk) as (Hs & _).
  rewrite set_leaves_eq in * by done. cbn [leaves chains spent_leaf_ids leaves_reservations] in *.
  split_and!.
  - rewrite refresh_reservations_pool, decide_False by by rewrite kvs_ids_elem.
    destruct (refreshed_pool_spec now st new missing refresh i)
      as [(? & n & Hn & <- & ->)|[(? & _ & n & Hn & <- & ->)|[Hno ->]]].
    + split; [|by eexists]. intros _. split; [done|]. right. by apply list_elem_of_fmap_2.
    + split; [|by eexists]. intros _. split; [done|]. left. by apply list_elem_of_fmap_2.
    + rewrite Hp. simpl. split; [by intros [? ?]|]. tauto.
  - intros Hi. apply Hr. eapply (same_ids_reserved st); [|exact Hi]. exact Hs.
  - by apply remove_chains_None.
  - apply option_eq. intros t. rewrite map_lookup_filter_Some.
    destruct (spent_leaf_ids st !! i) as [t'|]; simpl; [|naive_solver]. case_decide; naive_solver.
Qed.

(** Absent, with the spent marker of time [t]. *)
Definition spent_at st i (t : SystemTime) : Prop := absent st i ∧ spent_leaf_ids st !! i = Some t.

Lemma reserve_internal_spent uuid st l p permit pending i t :
  store_base st → leaves_reservations st !! uuid = None → spent_at st i t →
  spent_at (reserve_internal uuid st l p permit pending).2 i t.
Proof.
  intros Hb Hu [(Hp & Hr & Hc) Ht].
  destruct (reserve_internal_shape uuid st l p permit pending Hb Hu) as (_ & _ & Ha & Hch & Hs).
  destruct (Ha i Hp Hr) as [Hp' Hr'].
  split; [split_and!; [exact Hp'|exact Hr'|by rewrite Hch]|by rewrite Hs].
Qed.

Lemma add_leaf_spent now st leaf i t :
  id leaf ≠ i → spent_at st i t → spent_at (add_leaf now st leaf) i t.
Proof.
  intros Hne [(Hp & Hr & Hc) Ht]. destruct (add_leaf_shape now st leaf) as (Hs & Hch & Hl).
  split; [split_and!|].
  - destruct Hl as [->|[_ ->]]; [done|]. by rewrite lookup_insert_ne.
  - intros Hi. apply Hr. by eapply same_ids_reserved.
  - by rewrite Hch.
  - unfold add_leaf. destruct (find_map _ _) as [[rid e]|]; [done|]. simpl.
    by rewrite lookup_delete_ne.
Qed.

Lemma finalize_spent_at now now' st rid new i t :
  spent_at st i t → i ∉ id <$> default [] new →
  spent_at (process_finalize_reservation now now' st rid new).2 i t.
Proof.
  intros [(Hp & Hr & Hc) Ht] Hnew. destruct (finalize_state now now' st rid new) as [u ->].
  split.
  - apply settled_absent; [by intros ?%elsewhere_reserved|done|done|]. by apply remove_chains_None.
  - simpl. destruct (leaves_reservations st !! rid) as [e|] eqn:He; [|done].
    rewrite insert_all_notin; [done|]. intros Hi. apply Hr. exists rid, e. split; [done|].
    unfold entry_ids. by rewrite <- list_fmap_compose in Hi.
Qed.

Lemma update_spent_at now st rid reserved change i t :
  spent_at st i t → i ∉ id <$> reserved → i ∉ id <$> change →
  spent_at (process_update_reservation now st rid reserved change).2 i t.
Proof.
  intros [(Hp & Hr & Hc) Ht] Hres Hch. destruct (leaves_reservations st !! rid) as [old|] eqn:Hold.
  - destruct (update_state now st rid reserved change old Hold) as (e & He & ->).
    destruct (settled_absent now st rid change (remove_chains (entry_ids old) (chains st))
      (spent_leaf_ids st) (last_swap_completed_at st) i) as (Hp' & Hr' & Hc');
      [by intros ?%elsewhere_reserved|done|done|by apply remove_chains_None|].
    split; [split_and!; [exact Hp'| |exact Hc']|exact Ht].
    rewrite reserved_add by apply update_middle_fresh. rewrite He. tauto.
  - by rewrite update_unknown.
Qed.

Lemma process_spent_at env st cmd i t :
  store_base st → leaves_reservations st !! env_uuid env = None →
  ¬ names cmd i → ¬ refresh_after t cmd → spent_at st i t →
  spent_at (process_command env st cmd).2 i t.
Proof.
  intros Hb Hu Hn Ha Hs.
  pose proof (λ l p permit pending, reserve_internal_spent (env_uuid env) st l p permit pending i t
    Hb Hu Hs) as Hr.
  destruct cmd as [l|ps| | | |l m r|ta ex p permit|rid keep|rid new|rid r c|ids p permit|ta];
    simpl in Hn, Ha; try done.
  - apply (add_leaves_inv (λ st, spent_at st i t)); [|done]. intros st0 leaf Hin. apply add_leaf_spent.
    intros <-. apply Hn. by apply list_elem_of_fmap_2.
  - destruct (store_ancestors_shape st ps) as (Hl & Hrs & Hsp & Hc). destruct Hs as [(Hp & Hri & Hci) Ht].
    simpl in *. split; [split_and!|]; simpl; rewrite ?Hl, ?Hsp; try done.
    + unfold reserved_id. simpl. by rewrite Hrs.
    + apply eq_None_not_Some. intros [[? ?]|[[? ?]|?]]%Hc; congruence.
  - destruct Hs as [Habs Ht]. simpl.
    pose proof (set_leaves_skipped (env_now env) st l m r) as Hsk.
    pose proof (set_leaves_absent (env_now env) st l m r i (sb_keyed st Hb) Habs) as Hsl.
    destruct (process_set_leaves _ _ _ _ _) as [res st']. simpl in *.
    destruct (has_active_swap st || _); [by rewrite Hsk|].
    destruct Hsl as (Hp & Hri & Hci & Hsp); [done|]. rewrite Ht in Hsp. simpl in Hsp.
    rewrite decide_True in Hsp by lia. split; [split_and!|done]; [|done|done].
    apply eq_None_not_Some. rewrite Hp. intros [[] _]. exists t. split; [done|lia].
  - simpl. pose proof (try_reserve_state (env_uuid env) st ta ex p permit) as Hst.
    destruct (process_try_reserve_leaves _ _ _ _ _ _).
    destruct Hst as [Hst|(? & ? & Hst)]; simpl in *; rewrite Hst; done.
  - change (spent_at (process_cancel_reservation (env_now env) st rid keep).2 i t).
    destruct Hs as [(Hp & Hri & Hci) Ht]. rewrite cancel_state. split; [|done].
    apply settled_absent; [by intros ?%elsewhere_reserved|done|done|]. by apply remove_chains_None.
  - pose proof (finalize_spent_at (env_now env) (env_now' env) st rid new i t Hs Hn) as Hf.
    simpl. by destruct (process_finalize_reservation _ _ _ _ _).
  - pose proof (update_spent_at (env_now env) st rid r c i t Hs) as Hf.
    simpl. destruct (process_update_reservation _ _ _ _ _). apply Hf; tauto.
  - simpl. pose proof (reserve_by_ids_state (env_uuid env) st ids p permit) as Hst.
    destruct (process_reserve_leaves_by_ids _ _ _ _ _).
    destruct Hst as [Hst|(? & Hst)]; simpl in *; rewrite Hst; done.
Qed.

(** The finalization itself: a leaf held only by the reservation is gone. *)
Lemma finalize_marks now now' st rid e new i :
  held_once st i → leaves_reservations st !! rid = Some e → i ∈ entry_ids e →
  i ∉ id <$> default [] new →
  spent_at (process_finalize_reservation now now' st rid new).2 i now.
Proof.
  intros Hh He Hi Hnew. destruct (finalize_state now now' st rid new) as [u ->]. rewrite He.
  split.
  - apply settled_absent; [|apply (ho_pool st i Hh); by exists rid, e|done|].
    + intros (rid' & e' & Hne & He' & Hi'). by destruct Hne, (ho_entries st i Hh rid' rid e' e).
    + rewrite remove_chains_lookup. by rewrite decide_True.
  - simpl. destruct (insert_all_in id (λ _, now) (node <$> entry_leaves e) (spent_leaf_ids st) i)
      as (? & _ & _ & ->); [|done].
    unfold entry_ids in Hi. by rewrite <- list_fmap_compose.
Qed.

Lemma runs_spent_at st log st' i t :
  store_base st → spent_at st i t → runs st log st' →
  Forall (λ '(_, cmd), ¬ names cmd i ∧ ¬ refresh_after t cmd) log → spent_at st' i t.
Proof.
  intros Hb Hs Hr. induction Hr as [|log st1 env cmd Hr IH Hu]; intros Hl; [done|].
  apply Forall_app in Hl as [Hl [[Hn Ha] _]%Forall_cons].
  apply process_spent_at; [by eapply runs_base|done|done|done|by apply IH].
Qed.

(** C29: Once a reservation is finalized, its leaves stay out of the pool and of
    every reservation, and their chains removed, through any later commands, as
    long as none of them hands the leaf over itself and every refresh among them
    started no later than the finalization, whatever the operators reported to
    it. Then the first refresh to apply that started later puts the leaf back
    exactly when it lists it, and drops the marker in either case; without the
    marker any refresh that lists the leaf puts it back, one that started before
    the finalization included. *)
Theorem finalized_leaf_stays_spent now now' log0 st rid e new i log st' :
  runs LeavesState_default log0 st → held_once st i →
  leaves_reservations st !! rid = Some e → i ∈ entry_ids e → i ∉ id <$> default [] new →
  runs (process_finalize_reservation now now' st rid new).2 log st' →
  Forall (λ '(_, cmd), ¬ names cmd i ∧ ¬ refresh_after now cmd) log →
  (leaves st' !! i = None ∧ ¬ reserved_id st' i ∧ chains st' !! i = None) ∧
  (∀ clock fresh missing started,
    has_active_swap st' || swap_completed_during_refresh st' started = false →
    let st2 := (process_set_leaves clock st' fresh missing started).2 in
    let listed fresh missing := i ∈ id <$> fresh ∨ i ∈ id <$> missing in
    (is_Some (leaves st2 !! i) ↔ now < started ∧ listed fresh missing) ∧
    spent_leaf_ids st2 !! i = (if decide (started ≤ now) then Some now else None) ∧
    (∀ clock2 fresh2 missing2 started2, now < started → ¬ listed fresh missing →
      has_active_swap st2 || swap_completed_during_refresh st2 started2 = false →
      is_Some (leaves (process_set_leaves clock2 st2 fresh2 missing2 started2).2 !! i) ↔
        listed fresh2 missing2)).
Proof.
  intros Hr0 Hh He Hi Hnew Hr Hl. pose proof (runs_base _ _ _ base_default Hr0) as Hb.
  assert (store_base (process_finalize_reservation now now' st rid new).2) as Hbf.
  { destruct (finalize_state now now' st rid new) as [u ->]. apply base_settled; [done|]. intros j.
    rewrite remove_chains_lookup, He. case_decide; [by intros [? ?]|]. naive_solver. }
  destruct (runs_spent_at _ _ _ i now Hbf (finalize_marks now now' st rid e new i Hh He Hi Hnew)
    Hr Hl) as [Ha Ht]. pose proof (sb_keyed _ (runs_base _ _ _ Hbf Hr)) as Hk.
  split; [exact Ha|]. intros clock fresh missing started Hg. cbn zeta.
  pose proof (set_leaves_absent clock st' fresh missing started i Hk Ha Hg) as Hsl.
  destruct (set_leaves_shape clock st' fresh missing started Hk) as (_ & Hk2 & _).
  set (st2 := (process_set_leaves clock st' fresh missing started).2) in *.
  destruct Hsl as (Hp & Hr2 & Hc2 & Hs2). rewrite Ht in Hs2. simpl in Hs2.
  assert (marked_spent st' started i ↔ started ≤ now) as Hm.
  { unfold marked_spent. rewrite Ht. naive_solver. }
  split_and!; [rewrite Hp, Hm, Z.nle_gt; done|exact Hs2|].
  intros clock2 fresh2 missing2 started2 Hlt Hnl Hg2.
  assert (absent st2 i) as Ha2.
  { split_and!; [|done|done]. apply eq_None_not_Some. rewrite Hp. tauto. }
  destruct (set_leaves_absent clock2 st2 fresh2 missing2 started2 i Hk2 Ha2 Hg2) as (-> & _).
  rewrite decide_False in Hs2 by lia. unfold marked_spent. rewrite Hs2. naive_solver.
Qed.
End held.

(** ** Witnesses *)

#[local] Existing Instance bip68.
#[local] Instance string_order : HashIter string := canonical_iter string.

Lemma sample_store_runs : runs LeavesState_default
  [(LeavesState_default, AddLeaves [bip68_node "a" 1 None; bip68_node "b" 4 (Some "p"%string)])]
  sample_store.
Proof. apply (runs_snoc _ [] _ (sample_env 10 "r0")); [constructor|reflexivity]. Qed.

Lemma sample_reserved_runs : runs LeavesState_default
  [(LeavesState_default, AddLeaves [bip68_node "a" 1 None; bip68_node "b" 4 (Some "p"%string)]);
   (sample_store, TryReserveLeaves (Some (AmountAndFee 4 None)) false ReservationPurpose.Payment ())]
  sample_reserved.
Proof.
  apply (runs_snoc _ [(_, _)] _ (sample_env 20 "r1")); [exact sample_store_runs|reflexivity].
Qed.

Example no_leaf_is_held_twice_witness :
  entry_ids <$> leaves_reservations sample_reserved !! "r1"%string = Some ["b"%string] ∧
  leaves sample_reserved !! "b"%string = None.
Proof.
  assert (entry_ids <$> leaves_reservations sample_reserved !! "r1"%string = Some ["b"%string])
    as Hr by (vm_compute; reflexivity).
  split; [done|]. apply fmap_Some in Hr as (e & He & Hids).
  destruct (no_leaf_is_held_twice _ _ sample_reserved_runs) as (_ & _ & Hheld & _).
  destruct (Hheld "b"%string) as [Hp _].
  - intros st0 cmd [[= -> ->]|[[= -> ->]|[]%elem_of_nil]%elem_of_cons]%elem_of_cons; by intros [].
  - apply Hp. exists "r1"%string, e. rewrite <- Hids. split; [done|by left].
Defined.

(** A payment's leaf [b] has been swapped for [c]; while its reservation is open a
    refresh lists [c], and then the swap's outcome is recorded in the reservation.
    A refresh waits only for reservations made to swap. *)
Example refresh_during_a_payment_swap :
  let st1 := (process_set_leaves 30 sample_reserved [bip68_node "c" 3 None] [] 25).2 in
  let st2 := (process_update_reservation 40 st1 "r1" [bip68_node "c" 3 None] []).2 in
  is_Some (leaves st2 !! "c"%string) ∧ reserved_id st2 "c"%string ∧
  id <$> pool_nodes st2 = ["c"%string].
Proof.
  cbn zeta.
  set (st2 := (process_update_reservation _ _ _ _ _).2).
  assert (entry_ids <$> leaves_reservations st2 !! "r1"%string = Some ["c"%string]) as Hr
    by (vm_compute; reflexivity).
  assert (id <$> pool_nodes st2 = ["c"%string]) as Hp by (vm_compute; reflexivity).
  assert ((λ s, id (node s)) <$> leaves st2 !! "c"%string = Some "c"%string) as Hl
    by (vm_compute; reflexivity).
  split_and!; [|apply fmap_Some in Hr as (e & ? & Hids)|exact Hp].
  - apply fmap_Some in Hl as (s & ? & _). by exists s.
  - exists "r1"%string, e. split; [done|]. rewrite <- Hids. by left.
Qed.

Lemma sample_reserved_held i : held_once sample_reserved i.
Proof.
  pose proof sample_reserved_wf as Hwf. split.
  - by apply wf_disjoint.
  - intros rid e He. by eapply times_NoDup, wf_nodup.
  - intros. by eapply wf_exclusive.
Qed.

Definition sample_finalized : LeavesState :=
  (process_finalize_reservation 40 41 sample_reserved "r1" None).2.

(** The reserved leaf [b] is finalized at 40. Refreshes started at 35 and 40 still
    list it; the leaf [a] is reserved in between. *)
Definition later1 : LeavesState :=
  (process_command (sample_env 50 "r3") sample_finalized
    (SetLeaves [bip68_node "a" 1 None; bip68_node "b" 4 None] [] 35)).2.
Definition later2 : LeavesState :=
  (process_command (sample_env 55 "r2") later1
    (TryReserveLeaves None true ReservationPurpose.Payment ())).2.
Definition sample_later : LeavesState :=
  (process_command (sample_env 60 "r4") later2 (SetLeaves [bip68_node "b" 4 None] [] 40)).2.

Lemma sample_later_runs : ∃ log, runs sample_finalized log sample_later ∧
  Forall (λ '(_, cmd), ¬ names cmd "b"%string ∧ ¬ refresh_after 40 cmd) log.
Proof.
  eexists. split.
  - apply runs_snoc; [|reflexivity]. apply runs_snoc; [|reflexivity].
    apply runs_snoc; [constructor|reflexivity].
  - repeat constructor; simpl; lia || by intros [].
Qed.

Example finalized_leaf_witness :
  leaves sample_later !! "b"%string = None ∧
  is_Some (leaves (process_set_leaves 90
    (process_set_leaves 80 sample_later [] [] 70).2 [bip68_node "b" 4 None] [] 35).2
    !! "b"%string).
Proof.
  assert (entry_ids <$> leaves_reservations sample_reserved !! "r1"%string = Some ["b"%string])
    as Hr by (vm_compute; reflexivity). apply fmap_Some in Hr as (e & He & Hids).
  destruct sample_later_runs as (log & Hlog & Hok).
  destruct (finalized_leaf_stays_spent 40 41 _ sample_reserved "r1" e None "b"%string log
    sample_later sample_reserved_runs (sample_reserved_held "b"%string) He) as [(Hp & _) Hs].
  - rewrite <- Hids. by left.
  - apply not_elem_of_nil.
  - exact Hlog.
  - exact Hok.
  - split; [exact Hp|].
    apply (Hs 80 [] [] 70 eq_refl); [lia|by intros [?%elem_of_nil|?%elem_of_nil]|reflexivity|].
    left. by left.
Defined.
