(* ===== verification/ExitStore.v ===== *)
(** * The exit state of the in-memory leaf store

    What adding leaves and storing chains means for the two things a unilateral exit
    reads from the store: the leaf itself, and the chain kept with it. *)

From S2P Require Import Prelude Bitcoin TreeModel ExitChain.
From S2P Require Import TreeStore TreeStoreInv TreeStoreSpec.

Section exit_store.
Context `{Bitcoin} `{!HashIter string}.
Implicit Types (st : LeavesState) (i : TreeNodeId) (n : TreeNode) (p : LeafPedigree).

Definition stored_chain st i : list TreeNode := default [] (chains st !! i).

(** The pedigree [get_exit_chains] returns for one id. *)
Definition stored_pedigree st i : option LeafPedigree :=
  (λ leaf, {| leaf := leaf;
     ancestors := walk_ancestors leaf (<[id leaf := leaf]> (index_by_id (stored_chain st i))) |})
  <$> find_stored_leaf st i.

(** ** Looking leaves up *)

Lemma find_stored_leaf_id st i n : wf st → find_stored_leaf st i = Some n → id n = i.
Proof.
  intros Hwf. unfold find_stored_leaf. destruct (leaves st !! i) as [s|] eqn:E.
  { intros [= <-]. by apply (wf_keyed st Hwf). }
  intros (e & _ & Hf)%find_map_Some. apply fmap_Some in Hf as (s & [_ Hid]%find_some & ->).
  by apply bool_decide_eq_true_1 in Hid.
Qed.

Lemma elem_of_stored st n : wf st → n ∈ stored_nodes st ↔ find_stored_leaf st (id n) = Some n.
Proof. apply find_stored_leaf_elem. Qed.

Lemma get_exit_chains_eq st ids :
  wf st → process_get_exit_chains st ids = omap (stored_pedigree st) ids.
Proof.
  intros Hwf. induction ids as [|i ids IH]; [done|].
  change (process_get_exit_chains st (i :: ids)) with
    ((match find_stored_leaf st i with
      | None => []
      | Some leaf =>
          assemble_exit_chains (<[id leaf := leaf]> (index_by_id (stored_chain st i))) [i]
      end) ++ process_get_exit_chains st ids).
  rewrite IH. cbn [omap list_omap]. unfold stored_pedigree at 2.
  destruct (find_stored_leaf st i) as [n|] eqn:E; [|done].
  pose proof (find_stored_leaf_id _ _ _ Hwf E) as <-.
  rewrite assemble_one by apply lookup_insert_eq. done.
Qed.

(** ** Storing chains *)

Definition store_pedigree st p : LeavesState :=
  match find_stored_leaf st (id (leaf p)) with
  | None => st
  | Some _ => upsert_ancestors st (id (leaf p)) (ancestors p)
  end.

Lemma store_ancestors_fold st ps : (process_store_ancestors st ps).2 = foldl store_pedigree st ps.
Proof. done. Qed.

Lemma store_pedigree_leaves st p :
  leaves (store_pedigree st p) = leaves st ∧
  leaves_reservations (store_pedigree st p) = leaves_reservations st.
Proof. unfold store_pedigree, upsert_ancestors. by repeat case_match. Qed.

Lemma same_leaves_find st st' i :
  leaves st' = leaves st → leaves_reservations st' = leaves_reservations st →
  find_stored_leaf st' i = find_stored_leaf st i.
Proof. intros Hl Hr. unfold find_stored_leaf. by rewrite Hl, Hr. Qed.

Lemma store_pedigree_find st p i :
  find_stored_leaf (store_pedigree st p) i = find_stored_leaf st i.
Proof. destruct (store_pedigree_leaves st p). by apply same_leaves_find. Qed.

Lemma store_ancestors_leaves st ps :
  leaves (process_store_ancestors st ps).2 = leaves st ∧
  leaves_reservations (process_store_ancestors st ps).2 = leaves_reservations st.
Proof.
  rewrite store_ancestors_fold. revert st. induction ps as [|p ps IH]; intros st; simpl; [done|].
  destruct (IH (store_pedigree st p)) as [-> ->]. apply store_pedigree_leaves.
Qed.

Lemma store_ancestors_find st ps i :
  find_stored_leaf (process_store_ancestors st ps).2 i = find_stored_leaf st i.
Proof. destruct (store_ancestors_leaves st ps). by apply same_leaves_find. Qed.

Lemma store_pedigree_chain st p i :
  chains (store_pedigree st p) !! i =
    if decide (id (leaf p) = i ∧ is_Some (find_stored_leaf st i) ∧ ancestors p ≠ [])
    then Some (ancestors p) else chains st !! i.
Proof.
  unfold store_pedigree, upsert_ancestors.
  destruct (find_stored_leaf st (id (leaf p))) eqn:Hf; [case_bool_decide as Ha; simpl|].
  - rewrite decide_False by tauto. done.
  - rewrite lookup_insert. repeat case_decide; try done; naive_solver.
  - rewrite decide_False; [done|]. intros (<- & [? ?] & _). congruence.
Qed.

(** The chain of a leaf no pedigree names stays; one that is named gets a chain that
    was given for it, and all of them are the same when it is named once. *)
Lemma store_ancestors_other st ps i :
  (∀ p, p ∈ ps → id (leaf p) = i → ancestors p = []) →
  chains (process_store_ancestors st ps).2 !! i = chains st !! i.
Proof.
  rewrite store_ancestors_fold. revert st. induction ps as [|p ps IH]; intros st Hp; simpl; [done|].
  rewrite IH by (intros q Hq; apply Hp; by right). rewrite store_pedigree_chain, decide_False; [done|].
  intros (Hi & _ & Hne). apply Hne, Hp; [by left|done].
Qed.

Lemma store_ancestors_chain st ps i :
  is_Some (find_stored_leaf st i) → (∃ p, p ∈ ps ∧ id (leaf p) = i ∧ ancestors p ≠ []) →
  ∃ p, p ∈ ps ∧ id (leaf p) = i ∧ ancestors p ≠ [] ∧
    chains (process_store_ancestors st ps).2 !! i = Some (ancestors p).
Proof.
  rewrite store_ancestors_fold. intros Hf. revert st Hf.
  induction ps as [|q ps IH] using rev_ind; intros st Hf (p & Hp & Hi & Hne); [by apply elem_of_nil in Hp|].
  rewrite foldl_app. simpl. rewrite store_pedigree_chain.
  rewrite <- store_ancestors_fold, store_ancestors_find.
  case_decide as Hd.
  { exists q. destruct Hd as (? & _ & ?). split_and!; [set_solver|done..]. }
  apply elem_of_app in Hp as [Hp|Hp]; [|apply list_elem_of_singleton in Hp as ->; tauto].
  destruct (IH st Hf) as (p' & ? & ? & ? & Hc); [by exists p|].
  exists p'. split_and!; [set_solver|done..].
Qed.

(** A chain is what it was or what was given. *)
Lemma store_ancestors_either st ps i :
  chains (process_store_ancestors st ps).2 !! i = chains st !! i ∨
  ∃ p, p ∈ ps ∧ chains (process_store_ancestors st ps).2 !! i = Some (ancestors p).
Proof.
  rewrite store_ancestors_fold. revert st. induction ps as [|p ps IH]; intros st; simpl; [by left|].
  destruct (IH (store_pedigree st p)) as [->|(q & Hq & ->)].
  - rewrite store_pedigree_chain. case_decide; [right|by left]. exists p. by split; [left|].
  - right. exists q. by split; [right|].
Qed.

Lemma store_ancestors_named st ps p :
  NoDup ((λ p, id (leaf p)) <$> ps) → p ∈ ps → is_Some (find_stored_leaf st (id (leaf p))) →
  ancestors p ≠ [] →
  chains (process_store_ancestors st ps).2 !! id (leaf p) = Some (ancestors p).
Proof.
  intros Hnd Hp Hf Hne.
  destruct (store_ancestors_chain st ps (id (leaf p)) Hf) as (q & Hq & Hid & _ & ->); [by exists p|].
  do 2 f_equal. by apply (NoDup_fmap_inj (λ p, id (leaf p)) ps).
Qed.

(** ** Adding leaves *)

Lemma update_node_elem leaf l l' :
  update_node leaf l = Some l' → NoDup (stored_ids l) →
  ∀ n, n ∈ node <$> l' ↔ n = leaf ∨ (id n ≠ id leaf ∧ n ∈ node <$> l).
Proof.
  revert l'. induction l as [|s l IH]; intros l'; simpl; [done|]. case_decide as Hs.
  - intros [= <-] [Hnd _]%NoDup_cons n. csimpl. rewrite !elem_of_cons. split; [|naive_solver].
    intros [->|Hn]; [by left|]. right. split; [|by right]. intros Heq. apply Hnd.
    rewrite Hs, <- Heq. apply list_elem_of_fmap in Hn as (x & -> & Hx).
    apply list_elem_of_fmap. eauto.
  - intros (l1 & Hl1 & [= <-])%bind_Some [_ Hnd]%NoDup_cons n. csimpl.
    rewrite !elem_of_cons, (IH _ Hl1 Hnd n). naive_solver.
Qed.

Lemma add_leaf_chains now st l : chains (add_leaf now st l) = chains st.
Proof. unfold add_leaf. by repeat case_match. Qed.

Lemma stored_nodes_ids st n n' :
  wf st → n ∈ stored_nodes st → n' ∈ stored_nodes st → id n = id n' → n = n'.
Proof.
  intros Hwf Hn Hn' Hid. apply elem_of_stored in Hn, Hn'; [|done..]. rewrite Hid in Hn. congruence.
Qed.

Lemma add_leaf_nodes now st l n :
  wf st → n ∈ stored_nodes (add_leaf now st l) ↔ n = l ∨ (id n ≠ id l ∧ n ∈ stored_nodes st).
Proof.
  intros Hwf. unfold add_leaf. destruct (find_map _ _) as [[rid e']|] eqn:Hf.
  - apply find_map_Some in Hf as ([rid0 e] & He%elem_of_hm_iter & (k & Hk & [= -> <-])%bind_Some).
    pose proof (update_node_elem _ _ _ Hk (wf_nodup st Hwf _ _ He)) as Hup.
    pose proof (update_node_Some _ _ _ Hk) as (_ & Hin & _).
    setoid_rewrite list_elem_of_fmap in Hup.
    assert (reserved_id st (id l)) as Hres by by exists rid, e.
    rewrite !elem_of_stored_nodes. simpl. split.
    + intros [(i & s & Hs & <-)|(rid' & e'' & s & [[<- <-]|[Hne He'']]%lookup_insert_Some & Hs & <-)].
      * right. split; [|eauto]. rewrite (wf_keyed st Hwf _ _ Hs). intros ->.
        by rewrite (wf_disjoint st Hwf) in Hs.
      * destruct (proj1 (Hup (node s)) ltac:(eauto)) as [?|[? (s' & ? & ?)]]; [by left|].
        right. split; [done|]. right. eauto 6.
      * right. split; [|eauto 8]. intros Hid. apply Hne.
        eapply (wf_exclusive st Hwf rid rid'); [done|done|exact Hin|].
        rewrite <- Hid. apply list_elem_of_fmap. eauto.
    + intros [->|[Hne [?|(rid' & e'' & s & He'' & Hs & <-)]]].
      * right. destruct (proj2 (Hup l) ltac:(by left)) as (s & Hs & Hs').
        exists rid, (set_entry_leaves k e), s. rewrite lookup_insert_eq. by split_and!.
      * by left.
      * right. destruct (decide (rid = rid')) as [<-|?].
        -- rewrite He in He''. injection He'' as <-.
           destruct (proj2 (Hup (node s)) ltac:(right; eauto)) as (s' & ? & ?).
           exists rid, (set_entry_leaves k e), s'. rewrite lookup_insert_eq. by split_and!.
        -- exists rid', e'', s. by rewrite lookup_insert_ne.
  - rewrite find_map_None in Hf.
    assert (¬ reserved_id st (id l)) as Hnr.
    { intros (rid & e & He & Hi). specialize (Hf (rid, e) (proj2 (elem_of_hm_iter _ _ _) He)).
      simpl in Hf. apply bind_None in Hf as [Hf|(? & ? & ?)]; [|done].
      by apply update_node_None in Hf. }
    rewrite !elem_of_stored_nodes. simpl. split.
    + intros [(i & s & [[<- <-]|[Hne Hs]]%lookup_insert_Some & <-)|(rid & e & s & He & Hs & <-)].
      * by left.
      * right. split; [|eauto]. by rewrite (wf_keyed st Hwf _ _ Hs).
      * right. split; [|eauto 8]. intros Hid. apply Hnr. exists rid, e. split; [done|].
        rewrite <- Hid. apply list_elem_of_fmap. eauto.
    + intros [->|[Hne [(i & s & Hs & <-)|?]]]; [| |by right]; left.
      * exists (id l), (from_node l now). by rewrite lookup_insert_eq.
      * exists i, s. rewrite lookup_insert_ne; [done|]. intros <-.
        by rewrite (wf_keyed st Hwf _ _ Hs) in Hne.
Qed.

Lemma add_leaf_find now st l i :
  wf st → node_wf l →
  find_stored_leaf (add_leaf now st l) i = if decide (id l = i) then Some l else find_stored_leaf st i.
Proof.
  intros Hwf Hl. pose proof (wf_add_leaf now st l Hwf Hl) as Hwf'.
  assert (∀ n, find_stored_leaf (add_leaf now st l) i = Some n ↔
    (if decide (id l = i) then Some l else find_stored_leaf st i) = Some n) as Heq.
  2:{ destruct (find_stored_leaf (add_leaf now st l) i) as [n|]; [symmetry; by apply Heq|].
      destruct (if decide _ then _ else _) as [n|]; [|done]. by apply Heq. }
  intros n. split.
  - intros Hn. pose proof (find_stored_leaf_id _ _ _ Hwf' Hn) as <-.
    apply elem_of_stored in Hn; [|done]. apply add_leaf_nodes in Hn as [->|[Hne Hn]]; [| |done].
    + by rewrite decide_True.
    + rewrite decide_False by done. by apply elem_of_stored.
  - case_decide as Hid.
    + intros [= <-]. subst i. apply elem_of_stored; [done|]. apply add_leaf_nodes; [done|by left].
    + intros Hn. pose proof (find_stored_leaf_id _ _ _ Hwf Hn) as <-.
      apply elem_of_stored; [done|]. apply add_leaf_nodes; [done|]. right.
      split; [done|]. by apply elem_of_stored.
Qed.

Lemma add_leaves_chains now st ls : chains (process_add_leaves now st ls).2 = chains st.
Proof.
  simpl. revert st. induction ls as [|l ls IH]; intros st; simpl; [done|].
  by rewrite IH, add_leaf_chains.
Qed.

Lemma add_leaves_find_other now st ls i :
  wf st → Forall node_wf ls → i ∉ id <$> ls →
  find_stored_leaf (process_add_leaves now st ls).2 i = find_stored_leaf st i.
Proof.
  simpl. intros Hwf Hls. revert st Hwf. induction Hls as [|l ls Hl Hls IH]; intros st Hwf Hi; simpl; [done|].
  csimpl in Hi. apply not_elem_of_cons in Hi as [? ?]. rewrite IH by (try done; by apply wf_add_leaf).
  rewrite add_leaf_find by done. by rewrite decide_False.
Qed.

Lemma add_leaves_find now st ls l :
  wf st → Forall node_wf ls → NoDup (id <$> ls) → l ∈ ls →
  find_stored_leaf (process_add_leaves now st ls).2 (id l) = Some l.
Proof.
  simpl. intros Hwf Hls. revert st Hwf. induction Hls as [|l' ls Hl' Hls IH]; intros st Hwf Hnd Hin; simpl.
  { by apply elem_of_nil in Hin. }
  csimpl in Hnd. apply NoDup_cons in Hnd as [Hni Hnd].
  pose proof (wf_add_leaf now st l' Hwf Hl') as Hwf'.
  apply elem_of_cons in Hin as [->|Hin]; [|by apply IH].
  pose proof (add_leaves_find_other now (add_leaf now st l') ls (id l') Hwf' Hls Hni) as Ho.
  simpl in Ho. rewrite Ho, add_leaf_find by done. by rewrite decide_True.
Qed.
End exit_store.
