(* ===== verification/Paging.v ===== *)
(** * Paged queries: [spark/src/utils/paging.rs]

    Filters, result pages, and the [pager] loop that collects every page of a
    query. The query acts on a world [W]. The loop has no bound in the source;
    here it gets [2 ^ 64] rounds, and [pager_stops] shows that it never needs
    more, whatever the server answers. *)

From S2P Require Import Prelude.

Inductive Order := Ascending | Descending.

(** [offset] and [limit] are [u64]s. *)
Record PagingFilter := { offset : Z; limit : Z; order : Order }.

Definition DEFAULT_PAGING_LIMIT : Z := 100.
Definition DEFAULT_PAGING_OFFSET : Z := 0.

(** [PagingFilter::new] *)
Definition PagingFilter_new (offset limit : option Z) (order : option Order) : PagingFilter :=
  {| offset := default DEFAULT_PAGING_OFFSET offset; limit := default DEFAULT_PAGING_LIMIT limit;
     order := default Descending order |}.

Definition PagingFilter_default : PagingFilter :=
  {| offset := DEFAULT_PAGING_OFFSET; limit := DEFAULT_PAGING_LIMIT; order := Descending |}.

(** [offset + limit] of [u64]s, which wraps in a release build. *)
Definition next (self : PagingFilter) : PagingFilter :=
  {| offset := uadd 64 (offset self) (limit self); limit := limit self; order := order self |}.

(** The argument is the [i64] offset an operator reports, not positive on its last page. *)
Definition next_from_offset (self : PagingFilter) (reported : Z) : option PagingFilter :=
  if reported <=? 0 then None else Some (next self).

Record PagingResult (T : Type) := { items : list T; next_page : option PagingFilter }.
#[global] Arguments Build_PagingResult {_} _ _.
#[global] Arguments items {_} _.
#[global] Arguments next_page {_} _.

Definition complete {T} (items : list T) : PagingResult T :=
  {| items := items; next_page := None |}.

Section pager.
Context {W T E : Type} (query_fn : PagingFilter → W → result E (PagingResult T) * W).

(** One round of the loop: stop with an outcome, or go on with the next filter. *)
Definition pager_round (s : PagingFilter * list T * W)
    : (PagingFilter * list T * W) + (result E (PagingResult T) * W) :=
  let '(paging_filter, res, w) := s in
  let '(resp, w) := query_fn paging_filter w in
  match resp with
  | Err e => inr (Err e, w)
  | Ok resp =>
      match items resp with
      | [] => inr (Ok (complete res), w)
      | _ =>
          let res := res ++ items resp in
          match next_page resp with
          | None => inr (Ok (complete res), w)
          | Some next =>
              if offset next <=? offset paging_filter then inr (Ok (complete res), w)
              else inl (next, res, w)
          end
      end
  end.

(** [None]: still going after [2 ^ 64] rounds. *)
Definition pager (paging_filter : PagingFilter) (w : W) : option (result E (PagingResult T) * W) :=
  match iter_until (2 ^ 64)%positive pager_round (paging_filter, [], w) with
  | inl _ => None
  | inr outcome => Some outcome
  end.

(** ** Termination *)

(** Offsets are [u64]s, in the pages the server returns too. *)
Definition u64_offsets : Prop :=
  ∀ f w r w' n, query_fn f w = (Ok r, w') → next_page r = Some n → in_uint 64 (offset n).

Lemma pager_stops f w : u64_offsets → in_uint 64 (offset f) → is_Some (pager f w).
Proof.
  intros Hq Hf. unfold pager.
  destruct (iter_until_ends pager_round (2 ^ 64)%positive
    (λ '(f, _, _), Z.to_nat (2 ^ 64 - offset f)) (λ '(f, _, _), in_uint 64 (offset f))
    (f, [], w)) as [r ->]; [| |done| |eauto].
  - intros [[f1 res] w1] [? ?]. lia.
  - intros [[f1 res] w1] [[f2 res2] w2] [Hlo Hhi]. unfold pager_round.
    destruct (query_fn f1 w1) as [[r|e] w'] eqn:Hr; [|done].
    destruct (items r); [done|]. destruct (next_page r) as [n|] eqn:Hn; [|done].
    destruct (Z.leb_spec (offset n) (offset f1)); [done|]. intros [= <- <- <-].
    pose proof (Hq _ _ _ _ _ Hr Hn) as [? ?]. split; [by split|]. lia.
  - destruct Hf. rewrite <- Z2Nat.inj_pos. lia.
Qed.

(** ** Completeness *)

(** The query lists [xs]: a page is the stretch at the filter, and a page without
    successor is the last one. *)
Record serves (xs : list T) : Prop := {
  serves_page f w : ∃ r w', query_fn f w = (Ok r, w') ∧
    items r = take (Z.to_nat (limit f)) (drop (Z.to_nat (offset f)) xs) ∧
    (next_page r = Some (next f) ∨
     next_page r = None ∧ Z.of_nat (length xs) ≤ offset f + limit f);
}.

(** The filters of a run: what is collected, and what is still to come. *)
Record collecting (xs : list T) (start : PagingFilter) (s : PagingFilter * list T * W) : Prop := {
  collecting_split :
    s.1.2 ++ drop (Z.to_nat (offset s.1.1)) xs = drop (Z.to_nat (offset start)) xs;
  collecting_limit : limit s.1.1 = limit start;
  collecting_offset : in_uint 64 (offset s.1.1);
}.

Lemma drop_take_drop (xs : list T) a b :
  0 ≤ a → 0 ≤ b →
  take (Z.to_nat b) (drop (Z.to_nat a) xs) ++ drop (Z.to_nat (a + b)) xs = drop (Z.to_nat a) xs.
Proof.
  intros Ha Hb. rewrite Z2Nat.inj_add by done. rewrite <- drop_drop. apply take_drop.
Qed.

Lemma short_page (xs : list T) a b :
  0 ≤ a → 0 ≤ b → Z.of_nat (length xs) ≤ a + b →
  take (Z.to_nat b) (drop (Z.to_nat a) xs) = drop (Z.to_nat a) xs.
Proof. intros. apply take_ge. rewrite length_drop. lia. Qed.

Lemma pager_round_serves xs start s :
  serves xs → 0 < limit start → Z.of_nat (length xs) + limit start < 2 ^ 64 →
  collecting xs start s →
  match pager_round s with
  | inl s' => collecting xs start s'
  | inr (r, _) => r = Ok (complete (drop (Z.to_nat (offset start)) xs))
  end.
Proof.
  intros Hq Hl Hlen [Hs Hlim [Hlo Hhi]]. destruct s as [[f res] w]. simpl in *.
  destruct (serves_page xs Hq f w) as (r & w' & -> & Hi & Hn). rewrite Hlim in *.
  destruct (items r) as [|y ys] eqn:Ei.
  { rewrite <- Hs. f_equal. f_equal.
    assert (length (take (Z.to_nat (limit start)) (drop (Z.to_nat (offset f)) xs)) = 0%nat) as H0
      by by rewrite <- Hi.
    rewrite length_take, length_drop in H0. rewrite drop_ge by lia. by rewrite app_nil_r. }
  rewrite Hi. destruct Hn as [->|[-> Hend]].
  2: { by rewrite short_page, Hs by lia. }
  assert (offset f < Z.of_nat (length xs)) as Hin.
  { destruct (Z.lt_ge_cases (offset f) (Z.of_nat (length xs))) as [|Hge]; [done|].
    rewrite (drop_ge xs) in Hi by lia. by rewrite take_nil in Hi. }
  unfold next. simpl. rewrite uadd_small by lia.
  destruct (Z.leb_spec (offset f + limit f) (offset f)); [lia|]. rewrite Hlim.
  split; simpl; [|done|split; lia]. by rewrite <- app_assoc, drop_take_drop by lia.
Qed.

(** Paging. Whatever the server answers, the loop comes to an end (offsets are
    [u64]s and must grow). And a server that serves the pages of a list gets all
    of it collected from the starting offset on, in order, nothing twice and
    nothing lost, for any page size. *)
Theorem pager_collects_everything f w :
  in_uint 64 (offset f) →
  (u64_offsets → is_Some (pager f w)) ∧
  (∀ xs, serves xs → 0 < limit f → Z.of_nat (length xs) + limit f < 2 ^ 64 →
   ∃ w', pager f w = Some (Ok (complete (drop (Z.to_nat (offset f)) xs)), w')).
Proof.
  intros Hf. split; [intros; by apply pager_stops|]. intros xs Hq Hl Hlen.
  assert (∀ s, collecting xs f s → match pager_round s with
    | inl s' => collecting xs f s'
    | inr (r, _) => r = Ok (complete (drop (Z.to_nat (offset f)) xs)) end) as Hround
    by (intros; by apply pager_round_serves).
  destruct (iter_until_ends pager_round (2 ^ 64)%positive
    (λ '(g, _, _), Z.to_nat (2 ^ 64 - offset g)) (collecting xs f) (f, [], w))
    as [[r w'] Hr].
  - intros [[g ?] ?] [_ _ [? ?]]. simpl in *. lia.
  - intros [[g ?] ?] [[g' ?] ?] Hs Hr. pose proof (Hround _ Hs) as Hc. rewrite Hr in Hc.
    split; [done|]. revert Hr. destruct Hc as [_ _ [? ?]], Hs as [_ _ [? ?]]. simpl in *.
    destruct (query_fn g _) as [[x|] ?]; [|done]. destruct (items x); [done|].
    destruct (next_page x) as [n|]; [|done]. case_match eqn:Hle; [done|].
    intros [= -> _ _]. apply Z.leb_gt in Hle. lia.
  - split; [done|done|done].
  - rewrite <- Z2Nat.inj_pos. destruct Hf. lia.
  - exists w'. unfold pager. rewrite Hr. f_equal. f_equal.
    pose proof (iter_until_inv pager_round (2 ^ 64)%positive (collecting xs f)
      (λ '(r, _), r = Ok (complete (drop (Z.to_nat (offset f)) xs))) (f, [], w)) as Hi.
    rewrite Hr in Hi. apply Hi; [..|split; done].
    + intros s s' Hs Hst. pose proof (Hround s Hs) as Hc. by rewrite Hst in Hc.
    + intros s [r' w''] Hs Hst. pose proof (Hround s Hs) as Hc. by rewrite Hst in Hc.
Qed.
End pager.

(** ** A server that lists seven numbers, three at a time *)

Definition seven : list Z := [1; 2; 3; 4; 5; 6; 7].
Definition list_server (f : PagingFilter) (requests : nat) : result unit (PagingResult Z) * nat :=
  (Ok {| items := take (Z.to_nat (limit f)) (drop (Z.to_nat (offset f)) seven);
         next_page := Some (next f) |}, S requests).

Example pager_witness :
  pager list_server {| offset := 1; limit := 3; order := Ascending |} 0%nat =
    Some (Ok (complete [2; 3; 4; 5; 6; 7]), 3%nat).
Proof.
  destruct (pager_collects_everything list_server
    {| offset := 1; limit := 3; order := Ascending |} 0%nat) as [_ Hp]; [split; simpl; lia|].
  destruct (Hp seven) as [w' Hw]; simpl; [|lia|lia|].
  - split. intros f w. eexists _, _. split; [reflexivity|]. split; [done|by left].
  - transitivity (Some (Ok (E := unit) (complete (drop 1 seven)), w')); [exact Hw|].
    assert (snd <$> pager list_server {| offset := 1; limit := 3; order := Ascending |} 0%nat
      = Some 3%nat) as Hn by (vm_compute; reflexivity).
    rewrite Hw in Hn. injection Hn as ->. reflexivity.
Defined.
