(* ===== verification/TreeService.v ===== *)
(** * The tree service: [spark/src/tree/service.rs]

    [SynchronousTreeService] drives the store, the swap service, the timelock
    manager, the signer and the operators. What it calls is an interface: the
    class [TreeStoreApi] is the trait [TreeStore] of [tree/mod.rs], and
    [ServiceEnv] lists the calls to the other services. Both act on a world [W],
    so a method is a [proc W]. Log messages are left out. *)

From S2P Require Import Prelude Bitcoin TreeModel ExitChain LeafSelect Paging.

(** The trait [TreeStore]. *)
Class TreeStoreApi `{Bitcoin} (W : Type) := {
  store_now : W → TreeResult SystemTime * W;
  store_add_leaves : list TreeNode → W → TreeResult unit * W;
  store_store_ancestors : list LeafPedigree → W → TreeResult unit * W;
  store_leaves_missing_exit_chains : W → TreeResult (list TreeNodeId) * W;
  store_get_exit_chains : list TreeNodeId → W → TreeResult (list LeafPedigree) * W;
  store_get_leaves : W → TreeResult Leaves * W;
  store_get_available_balance : W → TreeResult Z * W;
  store_get_verified_leaf_keys : W → TreeResult (gmap TreeNodeId VerifiedLeafKeys) * W;
  store_set_leaves : list TreeNode → list TreeNode → SystemTime → W → TreeResult unit * W;
  store_cancel_reservation : LeavesReservationId → list TreeNode → W → TreeResult unit * W;
  store_finalize_reservation :
    LeavesReservationId → option (list TreeNode) → W → TreeResult unit * W;
  store_try_reserve_leaves :
    option TargetAmounts → bool → ReservationPurpose.t → W → TreeResult ReserveResult * W;
  store_try_reserve_leaves_by_ids :
    list TreeNodeId → ReservationPurpose.t → W → TreeResult LeavesReservation * W;
  store_try_select_leaves : option TargetAmounts → W → TreeResult LeafSelection * W;
  store_update_reservation :
    LeavesReservationId → list TreeNode → list TreeNode → W → TreeResult LeavesReservation * W;
}.

(** ** Requests to the operators *)

Inductive Source `{Bitcoin} :=
| NodeIds (node_ids : list TreeNodeId)
| OwnerIdentityPubkey (identity : PublicKey).

(** The message [QueryNodesRequest], with this wallet's network left out. *)
Record QueryNodesRequest `{Bitcoin} := {
  include_parents : bool;
  request_limit : Z;
  request_offset : Z;
  source : Source;
  statuses : list TreeNodeStatus.t;
}.

(** How a wait for a balance change ends: a notification, a closed channel, or
    the five-second timeout. *)
Inductive Wait := Changed | Closed | Elapsed.

(** The calls to the other services. *)
Class ServiceEnv `{Bitcoin} (W : Type) := {
  identity_pubkey : PublicKey;
  Client : Type;
  coordinator : Client;
  non_coordinator_operators : list Client;
  (** the nodes of the response, converted, and the offset it reports *)
  client_query_nodes : Client → QueryNodesRequest → W → TreeResult (list TreeNode * Z) * W;
  (** an error is its [{:?}] text *)
  timelock_manager_check_renew_nodes :
    list LeafPedigree → W → result string (list LeafPedigree) * W;
  swap_service_swap_leaves :
    list TreeNode → option (list Z) → W → TreeResult (list TreeNode) * W;
  is_remote : bool;
  get_public_key_for_leaf : TreeNodeId → W → TreeResult PublicKey * W;
  combine : PublicKey → PublicKey → option PublicKey;
  (** [wait_start.elapsed()], and its [{:?}] text *)
  wait_elapsed : W → Duration * W;
  show_duration : Duration → string;
  balance_changed : W → Wait * W;
  sleep_ms : Z → W → W;
  (** [None] when nobody can listen *)
  exit_state_changed : option (W → W);
  leaves_added : W → W;
}.

(** [tree::service::partition_renewable] *)
Definition partition_renewable `{Bitcoin} (l : list TreeNode) : list TreeNode * list TreeNode :=
  (filter (λ leaf, status leaf = TreeNodeStatus.Available) l,
   filter (λ leaf, status leaf ≠ TreeNodeStatus.Available) l).

(** [refund_sequence().ok()], [None] when reading it panics. *)
Definition refund_sequence_ok `{Bitcoin} (leaf : TreeNode) : option (option Sequence) :=
  r ← refund_sequence leaf; Some (match r with Ok s => Some s | Err _ => None end).

Definition refund_sequences `{Bitcoin} (pedigrees : list LeafPedigree)
    : option (gmap TreeNodeId (option Sequence)) :=
  l ← mapM (λ p, s ← refund_sequence_ok (leaf p); Some (id (leaf p), s)) pedigrees;
  Some (hm_collect l).

Fixpoint any_renewal_landed `{Bitcoin}
    (before : gmap TreeNodeId (option Sequence)) (after : list LeafPedigree) : option bool :=
  match after with
  | [] => Some false
  | p :: after =>
      match before !! id (leaf p) with
      | None => Some true
      | Some seq =>
          now ← refund_sequence_ok (leaf p);
          if bool_decide (seq ≠ now) then Some true else any_renewal_landed before after
      end
  end.

Fixpoint any_needs_renewal `{Bitcoin} (l : list TreeNode) : option (TreeResult bool) :=
  match l with
  | [] => Some (Ok false)
  | leaf :: l =>
      r ← needs_refund_tx_renewed leaf;
      match r with
      | Err e => Some (Err e)
      | Ok true => Some (Ok true)
      | Ok false => any_needs_renewal l
      end
  end.

Definition bare_pedigrees `{Bitcoin} (l : list TreeNode) : list LeafPedigree :=
  (λ leaf, {| leaf := leaf; ancestors := [] |}) <$> l.

Definition held_leaf_statuses : list TreeNodeStatus.t :=
  [TreeNodeStatus.Available; TreeNodeStatus.OnChain; TreeNodeStatus.Exited].

(** The [filter] of [store_renewed_chains] and [restore_leaves]. *)
Definition complete_chains `{Bitcoin} (pedigrees : list LeafPedigree) : list LeafPedigree :=
  filter (λ p, negb (bool_decide (ancestors p = [])) && chain_reaches_root (leaf p) (ancestors p) = true)
    pedigrees.

Record RenewalOutcome `{Bitcoin} := { pedigrees : list LeafPedigree; renewal_landed : bool }.

(** ** The methods *)

Section service.
Context `{Bitcoin} {W : Type} `{!TreeStoreApi W} `{!ServiceEnv W}.
Implicit Types (ta : option TargetAmounts).

Definition query_nodes_request (identity : PublicKey) (source : option Source)
    (include_parents : bool) (paging : PagingFilter) (statuses : list TreeNodeStatus.t)
    : QueryNodesRequest :=
  {| include_parents := include_parents; request_limit := as_i64 (limit paging);
     request_offset := as_i64 (offset paging);
     source := default (OwnerIdentityPubkey identity) source; statuses := statuses |}.

Definition query_nodes_inner (client : Client) (include_parents : bool) (source : option Source)
    (statuses : list TreeNodeStatus.t) (paging : PagingFilter) (w : W)
    : TreeResult (PagingResult TreeNode) * W :=
  let '(r, w) := client_query_nodes client
    (query_nodes_request identity_pubkey source include_parents paging statuses) w in
  (match r with
   | Ok (nodes, reported) =>
       Ok {| items := nodes; next_page := next_from_offset paging reported |}
   | Err e => Err e
   end, w).

Definition query_nodes (client : Client) (include_parents : bool) (source : option Source)
    (statuses : list TreeNodeStatus.t) : proc W (TreeResult (list TreeNode)) :=
  nodes ←? pager (query_nodes_inner client include_parents source statuses) PagingFilter_default;
  mret (Ok (items nodes)).

Definition fetch_nodes (node_ids : list TreeNodeId) (include_parents : bool)
    : proc W (TreeResult (list TreeNode)) :=
  match node_ids with
  | [] => mret (Ok [])
  | _ => query_nodes coordinator include_parents (Some (NodeIds node_ids)) []
  end.

Definition signal_exit_state_changed : proc W unit :=
  match exit_state_changed with Some send => modify send | None => mret () end.

Definition notify_leaves_added (l : list TreeNode) : proc W unit :=
  match l with [] => mret () | _ => modify leaves_added end.

Definition list_leaves : proc W (TreeResult Leaves) := call store_get_leaves.
Definition load_exit_chains (leaf_ids : list TreeNodeId) : proc W (TreeResult (list LeafPedigree)) :=
  call (store_get_exit_chains leaf_ids).
Definition leaves_missing_exit_chains : proc W (TreeResult (list TreeNodeId)) :=
  call store_leaves_missing_exit_chains.
Definition get_available_balance : proc W (TreeResult Z) := call store_get_available_balance.

Definition store_exit_chains (pedigrees : list LeafPedigree) : proc W (TreeResult unit) :=
  match pedigrees with
  | [] => mret (Ok ())
  | _ =>
      _ ←? call (store_store_ancestors pedigrees);
      _ ← signal_exit_state_changed;
      mret (Ok ())
  end.

Definition restore_exit_chains (pedigrees : list LeafPedigree) : proc W (TreeResult unit) :=
  match pedigrees with
  | [] => mret (Ok ())
  | _ => call (store_store_ancestors pedigrees)
  end.

(** ** Giving a reservation up *)

Definition MAX_ATTEMPTS : Z := 3.
Definition BASE_DELAY_MS : Z := 100.
Definition MAX_DELAY_MS : Z := 1000.

(** The leaves the coordinator still reports as ours and spendable, as it reports them. *)
Definition keep_leaves (reserved nodes : list TreeNode) : list TreeNode :=
  let by_id := index_by_id nodes in
  omap (λ original,
    fresh ← by_id !! id original;
    let owned :=
      match owner_identity_public_key fresh with
      | Some owner => bool_decide (owner = identity_pubkey)
      | None => false
      end in
    if negb owned then None
    else if bool_decide (status fresh ≠ TreeNodeStatus.Available) then None
    else Some fresh) reserved.

(** The loop over [1..=MAX_ATTEMPTS]. *)
Fixpoint verify_attempts (attempts : list Z) (reserved : list TreeNode) : proc W (list TreeNode) :=
  match attempts with
  | [] => mret []
  | attempt :: attempts =>
      r ← query_nodes coordinator false (Some (NodeIds (id <$> reserved))) [];
      match r with
      | Ok nodes => mret (keep_leaves reserved nodes)
      | Err _ =>
          _ ← (if attempt <? MAX_ATTEMPTS
               then modify (sleep_ms (Z.min (BASE_DELAY_MS * 2 ^ (attempt - 1)) MAX_DELAY_MS))
               else mret ());
          verify_attempts attempts reserved
      end
  end.

Definition verify_leaves_against_coordinator (reservation : LeavesReservation)
    : proc W (list TreeNode) :=
  match reservation_leaves reservation with
  | [] => mret []
  | reserved => verify_attempts (seqZ 1 MAX_ATTEMPTS) reserved
  end.

Definition cancel_reservation (reservation : LeavesReservation) : proc W (TreeResult unit) :=
  leaves_to_keep ← verify_leaves_against_coordinator reservation;
  call (store_cancel_reservation (reservation_id reservation) leaves_to_keep).

Definition finalize_reservation (i : LeavesReservationId) (new_leaves : option (list TreeNode))
    : proc W (TreeResult unit) :=
  _ ←? call (store_finalize_reservation i new_leaves);
  _ ← notify_leaves_added (default [] new_leaves);
  mret (Ok ()).

(** ** Renewing timelocks *)

Definition check_renew_nodes (p : list LeafPedigree) : proc W (TreeResult RenewalOutcome) :=
  before ← panic_or (refund_sequences p);
  r ← call (timelock_manager_check_renew_nodes p);
  match r with
  | Err e => mret (Err (TreeServiceError.Generic ("Failed to check time lock: " +:+ e)))
  | Ok p =>
      landed ← panic_or (any_renewal_landed before p);
      mret (Ok {| pedigrees := p; renewal_landed := landed |})
  end.

Definition store_renewed_chains (p : list LeafPedigree) (any_renewal_landed : bool)
    : proc W unit :=
  if negb any_renewal_landed then mret ()
  else
    match complete_chains p with
    | [] => signal_exit_state_changed
    | renewed =>
        _ ← call (store_store_ancestors renewed);
        signal_exit_state_changed
    end.

Definition insert_leaves (l : list TreeNode) : proc W (TreeResult (list TreeNode)) :=
  outcome ←? check_renew_nodes (bare_pedigrees l);
  let l := leaf <$> pedigrees outcome in
  _ ←? call (store_add_leaves l);
  _ ← store_renewed_chains (pedigrees outcome) (renewal_landed outcome);
  _ ← notify_leaves_added l;
  mret (Ok l).

Definition renew_reservation_timelocks (reservation : LeavesReservation)
    : proc W (TreeResult LeavesReservation) :=
  needed ←? panic_or (any_needs_renewal (reservation_leaves reservation));
  if negb needed then mret (Ok reservation)
  else
    chains ←? call (store_get_exit_chains (id <$> reservation_leaves reservation));
    checked ← check_renew_nodes chains;
    match checked with
    | Err e => _ ← cancel_reservation reservation; mret (Err e)
    | Ok outcome =>
        let new_leaves := leaf <$> pedigrees outcome in
        _ ←? call (store_add_leaves new_leaves);
        _ ← store_renewed_chains (pedigrees outcome) (renewal_landed outcome);
        _ ← notify_leaves_added new_leaves;
        mret (Ok (LeavesReservation_new new_leaves (reservation_id reservation)))
    end.

Definition renew_leaves_timelocks (l : list TreeNode) : proc W (TreeResult (list TreeNode)) :=
  needed ←? panic_or (any_needs_renewal l);
  if negb needed then mret (Ok l)
  else
    reservation ←? call (store_try_reserve_leaves_by_ids (id <$> l) ReservationPurpose.Payment);
    reservation ←? renew_reservation_timelocks reservation;
    _ ←? cancel_reservation reservation;
    mret (Ok (reservation_leaves reservation)).

(** ** Selecting leaves *)

Definition reservation_matches_target (reservation : LeavesReservation) ta : bool :=
  let total_amount_sats := match ta with Some ta => total_sats ta | None => 0 end in
  ((total_amount_sats =? 0) || (reservation_sum reservation =? total_amount_sats))
  && is_Ok (select_leaves_by_target_amounts (reservation_leaves reservation) ta).

Definition wait_for_pending_balance (max_wait : Duration) : proc W (TreeResult unit) :=
  elapsed ← call wait_elapsed;
  if max_wait <? elapsed then
    mret (Err (TreeServiceError.Generic
      ("Timeout waiting for pending balance after " +:+ show_duration elapsed)))
  else
    how ← call balance_changed;
    mret (match how with
          | Closed => Err (TreeServiceError.Generic "Store closed")
          | Changed | Elapsed => Ok ()
          end).

Definition swap_leaves_internal (l : list TreeNode) ta : proc W (TreeResult RenewalOutcome) :=
  match l with
  | [] => mret (Err (TreeServiceError.Generic "no leaves to swap"))
  | _ =>
      let target_amounts :=
        (λ t, match t with
               | AmountAndFee amount_sats fee_sats =>
                   amount_sats :: match fee_sats with Some f => [f] | None => [] end
               | ExactDenominations denominations => denominations
               end) <$> ta in
      claimed_nodes ←? call (swap_service_swap_leaves l target_amounts);
      check_renew_nodes (bare_pedigrees claimed_nodes)
  end.

Definition perform_swap_and_update_reservation (reservation : LeavesReservation) ta
    : proc W (TreeResult LeavesReservation) :=
  swap_result ← swap_leaves_internal (reservation_leaves reservation) ta;
  match swap_result with
  | Err e => _ ← cancel_reservation reservation; mret (Err e)
  | Ok outcome =>
      let new_leaf_nodes := leaf <$> pedigrees outcome in
      target_leaves ←? mret (select_leaves_by_target_amounts new_leaf_nodes ta);
      let reserved_leaves := amount_leaves target_leaves ++ default [] (fee_leaves target_leaves) in
      let reserved_ids : gset TreeNodeId := list_to_set (id <$> reserved_leaves) in
      let reserved_pedigrees := filter (λ p, id (leaf p) ∈ reserved_ids) (pedigrees outcome) in
      let change_pedigrees := filter (λ p, id (leaf p) ∉ reserved_ids) (pedigrees outcome) in
      let reserved_nodes := leaf <$> reserved_pedigrees in
      let change_nodes := leaf <$> change_pedigrees in
      let renewed := reserved_pedigrees ++ change_pedigrees in
      update_result ←
        call (store_update_reservation (reservation_id reservation) reserved_nodes change_nodes);
      match update_result with
      | Ok final_reservation =>
          _ ← store_renewed_chains renewed (renewal_landed outcome);
          _ ← notify_leaves_added change_nodes;
          mret (Ok final_reservation)
      | Err e =>
          finalized ← call (store_finalize_reservation (reservation_id reservation)
            (Some (reserved_nodes ++ change_nodes)));
          _ ← match finalized with
              | Err _ => mret ()
              | Ok _ => store_renewed_chains renewed (renewal_landed outcome)
              end;
          mret (Err e)
      end
  end.

(** [fuel] rounds of the [loop]; [None] when it is still waiting after them. *)
Fixpoint select_leaves (fuel : nat) ta (purpose : ReservationPurpose.t)
    (options : SelectLeavesOptions) : proc W (option (TreeResult LeavesReservation)) :=
  match fuel with
  | O => mret None
  | S fuel =>
      let max_wait := max_wait_for_pending options in
      reserve_result ← call (store_try_reserve_leaves ta false purpose);
      match reserve_result with
      | Err e => mret (Some (Err e))
      | Ok InsufficientFunds => mret (Some (Err TreeServiceError.InsufficientFunds))
      | Ok (WaitForPending _ _ _) =>
          if max_wait =? 0 then mret (Some (Err TreeServiceError.InsufficientFunds))
          else
            waited ← wait_for_pending_balance max_wait;
            match waited with
            | Err e => mret (Some (Err e))
            | Ok _ => select_leaves fuel ta purpose options
            end
      | Ok (Success r) =>
          r ← (reservation ←? renew_reservation_timelocks r;
               if reservation_matches_target reservation ta then mret (Ok reservation)
               else perform_swap_and_update_reservation reservation ta);
          mret (Some r)
      end
  end.

Definition reserve_leaves_by_ids (leaf_ids : list TreeNodeId) (purpose : ReservationPurpose.t)
    : proc W (TreeResult LeavesReservation) :=
  call (store_try_reserve_leaves_by_ids leaf_ids purpose).

Definition select_leaves_for_package ta : proc W (TreeResult LeafSelection) :=
  selection ←? call (store_try_select_leaves ta);
  match selection with
  | Exact l => l ←? renew_leaves_timelocks l; mret (Ok (Exact l))
  | SwapNeeded l => l ←? renew_leaves_timelocks l; mret (Ok (SwapNeeded l))
  end.

(** ** Refreshing and restoring *)

(** The ids of the leaves this wallet can prove it owns. *)
Fixpoint owned_ids (l : list (TreeNode * PublicKey)) : TreeResult (gset TreeNodeId) :=
  match l with
  | [] => Ok ∅
  | (leaf, our_node_pubkey) :: l =>
      combined ← ok_or (combine our_node_pubkey (ks_public_key (signing_keyshare leaf)))
        (TreeServiceError.Generic "Failed to combine public keys");
      owned ← owned_ids l;
      Ok (if bool_decide (combined = verifying_public_key leaf) then {[id leaf]} ∪ owned else owned)
  end.

Definition retain_owned (l : list TreeNode) : proc W (TreeResult (gset TreeNodeId)) :=
  our_pubkeys ←? try_all (λ leaf, call (get_public_key_for_leaf (id leaf))) l;
  mret (owned_ids (zip l our_pubkeys)).

(** What another node of the same response calls its parent is no leaf. *)
Definition leaves_by_shape (nodes : list TreeNode) : list TreeNode :=
  let parent_ids : gset TreeNodeId := list_to_set (omap parent_node_id nodes) in
  filter (λ n, id n ∉ parent_ids) nodes.

(** A leaf reported twice: the first report counts. *)
Definition first_by_id (nodes : list TreeNode) : gmap TreeNodeId TreeNode :=
  foldl (λ m n, match m !! id n with Some _ => m | None => <[id n := n]> m end) ∅ nodes.

Definition same_report (operator_leaf leaf : TreeNode) : bool :=
  bool_decide (status operator_leaf = status leaf)
  && bool_decide (ks_public_key (signing_keyshare operator_leaf) =
                  ks_public_key (signing_keyshare leaf))
  && bool_decide (node_tx operator_leaf = node_tx leaf)
  && bool_decide (refund_tx operator_leaf = refund_tx leaf).

(** One round of the loop over the operators. *)
Definition compare_operator (coordinator_leaves : list TreeNode)
    (missing : gmap TreeNodeId TreeNode) (operator_leaves : list TreeNode)
    : gmap TreeNodeId TreeNode :=
  let operator_leaves_by_id := first_by_id operator_leaves in
  foldl (λ missing leaf,
    match operator_leaves_by_id !! id leaf with
    | Some operator_leaf =>
        if same_report operator_leaf leaf then missing else <[id leaf := leaf]> missing
    | None => <[id leaf := leaf]> missing
    end) missing coordinator_leaves.

Definition missing_operator_leaves_map (coordinator_leaves : list TreeNode)
    (operator_leaves_vec : list (list TreeNode)) : gmap TreeNodeId TreeNode :=
  foldl (compare_operator coordinator_leaves) ∅ operator_leaves_vec.

Definition unverified (already_verified : gmap TreeNodeId VerifiedLeafKeys)
    (reported : list TreeNode) : list TreeNode :=
  filter (λ leaf,
    match already_verified !! id leaf with
    | Some keys =>
        bool_decide (vk_verifying_public_key keys = verifying_public_key leaf) &&
        bool_decide (vk_signing_keyshare_public_key keys = ks_public_key (signing_keyshare leaf))
    | None => false
    end = false) reported.

Definition ignored_leaves_map (unverified_leaves : list TreeNode) (owned : gset TreeNodeId)
    : gmap TreeNodeId TreeNode :=
  insert_all id (λ leaf, leaf) (filter (λ leaf, id leaf ∉ owned) unverified_leaves) ∅.

Definition reported_new (coordinator_leaves : list TreeNode)
    (missing ignored : gmap TreeNodeId TreeNode) : list TreeNode :=
  filter (λ leaf, missing !! id leaf = None ∧ ignored !! id leaf = None) coordinator_leaves.

Definition reported_missing `{!HashIter string} (missing ignored : gmap TreeNodeId TreeNode)
    : list TreeNode :=
  filter (λ leaf, ignored !! id leaf = None) (hm_values missing).

Definition refresh_leaves `{!HashIter string} : proc W (TreeResult unit) :=
  refresh_started_at ←? call store_now;
  coordinator_leaves_res ← query_nodes coordinator false None held_leaf_statuses;
  operator_results ←
    join_all (λ client, query_nodes client false None held_leaf_statuses) non_coordinator_operators;
  coordinator_nodes ←? mret coordinator_leaves_res;
  let coordinator_leaves := leaves_by_shape coordinator_nodes in
  operator_leaves_vec ←? mret (mapR (λ r, r) operator_results);
  let missing := missing_operator_leaves_map coordinator_leaves operator_leaves_vec in
  already_verified ←?
    (if is_remote then call store_get_verified_leaf_keys else mret (Ok ∅));
  let unverified_leaves := unverified already_verified coordinator_leaves in
  owned ←? retain_owned unverified_leaves;
  let ignored := ignored_leaves_map unverified_leaves owned in
  let new_leaves := reported_new coordinator_leaves missing ignored in
  let missing_operator_leaves := reported_missing missing ignored in
  let '(renewable, exiting) := partition_renewable new_leaves in
  outcome ←? check_renew_nodes (bare_pedigrees renewable);
  let renewed_leaves := (leaf <$> pedigrees outcome) ++ exiting in
  _ ←? call (store_set_leaves renewed_leaves missing_operator_leaves refresh_started_at);
  _ ← store_renewed_chains (pedigrees outcome) (renewal_landed outcome);
  _ ← notify_leaves_added renewed_leaves;
  mret (Ok ()).

Definition restore_leaves (l : list LeafPedigree) : proc W (TreeResult unit) :=
  owned ←? retain_owned (leaf <$> l);
  let l := filter (λ p, id (leaf p) ∈ owned) l in
  _ ←? call (store_add_leaves (leaf <$> l));
  restore_exit_chains (complete_chains l).

Definition fetch_pedigrees_from_operators (leaf_ids : list TreeNodeId)
    : proc W (list LeafPedigree) :=
  match leaf_ids with
  | [] => mret []
  | _ =>
      fetched ← fetch_nodes leaf_ids true;
      mret (match fetched with
            | Ok nodes => assemble_exit_chains (index_by_id nodes) leaf_ids
            | Err _ => []
            end)
  end.
End service.
