(* ===== verification/TreeServiceSpec.v ===== *)
(** * What the tree service does: reservations, exact payments, refreshes

    The interface laws: [held] is the set of reservations this caller holds, and
    every call of the store or of another service changes it as it says.
    [TreeServiceStore] shows that the in-memory store obeys [TreeStoreLaws]. *)

From S2P Require Import Prelude Bitcoin TreeModel ExitChain LeafSelect Paging.
From S2P Require Import TreeStore TreeStoreInv TreeStoreSpec TreeService.

Class TreeStoreLaws `{TreeStoreApi W} := {
  held : W → gset LeavesReservationId;
  held_now w : held (store_now w).2 = held w;
  held_add_leaves l w : held (store_add_leaves l w).2 = held w;
  held_store_ancestors l w : held (store_store_ancestors l w).2 = held w;
  held_get_exit_chains l w : held (store_get_exit_chains l w).2 = held w;
  held_verified_leaf_keys w : held (store_get_verified_leaf_keys w).2 = held w;
  held_set_leaves l m t w : held (store_set_leaves l m t w).2 = held w;
  held_select ta w : held (store_try_select_leaves ta w).2 = held w;
  held_balance w : held (store_get_available_balance w).2 = held w;
  held_try_reserve ta x p w :
    match store_try_reserve_leaves ta x p w with
    | (Ok (Success r), w') => reservation_id r ∉ held w ∧ held w' = {[reservation_id r]} ∪ held w
    | (_, w') => held w' = held w
    end;
  held_by_ids l p w :
    match store_try_reserve_leaves_by_ids l p w with
    | (Ok r, w') => reservation_id r ∉ held w ∧ held w' = {[reservation_id r]} ∪ held w
    | (Err _, w') => held w' = held w
    end;
  held_cancel i l w :
    match store_cancel_reservation i l w with
    | (Ok _, w') => held w' = held w ∖ {[i]}
    | (Err _, w') => held w' = held w
    end;
  held_finalize i l w :
    match store_finalize_reservation i l w with
    | (Ok _, w') => held w' = held w ∖ {[i]}
    | (Err _, w') => held w' = held w
    end;
  held_update i reserved change w :
    match store_update_reservation i reserved change w with
    | (Ok r, w') => reservation_id r = i ∧ reservation_leaves r = reserved ∧ held w' = held w
    | (Err _, w') => held w' = held w
    end;
}.

(** The other services do not touch the reservations; new leaves and renewed
    ones have distinct ids. *)
Class ServiceLaws `{TreeStoreLaws W, !ServiceEnv W} := {
  held_query c r w : held (client_query_nodes c r w).2 = held w;
  held_renew p w : held (timelock_manager_check_renew_nodes p w).2 = held w;
  held_swap l a w : held (swap_service_swap_leaves l a w).2 = held w;
  held_public_key i w : held (get_public_key_for_leaf i w).2 = held w;
  held_elapsed w : held (wait_elapsed w).2 = held w;
  held_balance_changed w : held (balance_changed w).2 = held w;
  held_sleep ms w : held (sleep_ms ms w) = held w;
  held_exit_state send w : exit_state_changed = Some send → held (send w) = held w;
  held_leaves_added w : held (leaves_added w) = held w;
  swapped_leaves_distinct l a w new w' :
    swap_service_swap_leaves l a w = (Ok new, w') → NoDup (id <$> new) ∧ Forall node_wf new;
  renewed_leaves_distinct p w p' w' :
    timelock_manager_check_renew_nodes p w = (Ok p', w') →
    NoDup (id <$> (leaf <$> p)) → Forall node_wf (leaf <$> p) →
    NoDup (id <$> (leaf <$> p')) ∧ Forall node_wf (leaf <$> p');
}.

#[export] Hint Resolve held_now held_add_leaves held_store_ancestors held_get_exit_chains
  held_verified_leaf_keys held_set_leaves held_select held_balance held_query held_renew held_swap
  held_public_key held_elapsed held_balance_changed held_sleep held_leaves_added : alone.

Section service_spec.
Context `{ServiceLaws W}.
Implicit Types (w : W) (r : LeavesReservation).


(** ** Calls that leave the reservations alone *)

Lemma pager_alone {T E A} (g : W → A) (q : PagingFilter → W → result E (PagingResult T) * W) f :
  (∀ f w, g (q f w).2 = g w) → leaves_alone g (pager q f).
Proof.
  intros Hq w. unfold ends_in, pager.
  pose proof (iter_until_inv (pager_round q) (2 ^ 64)%positive (λ s, g s.2 = g w)
    (λ o, g o.2 = g w) (f, [], w)) as Hi.
  destruct (iter_until _ _ _) as [|[o w']]; [done|]. apply Hi; [| |done].
  - intros [[f1 l] w1] s'. simpl. intros Hw. pose proof (Hq f1 w1) as Hq1.
    destruct (q f1 w1) as [[r|e] w2]; [|done]. destruct (items r); [done|].
    destruct (next_page r) as [n|]; [|done]. case_match; [done|].
    intros [= <-]. simpl in *. congruence.
  - intros [[f1 l] w1] [o' w'']. simpl. intros Hw. pose proof (Hq f1 w1) as Hq1.
    destruct (q f1 w1) as [[r|e] w2]; simpl in *.
    + destruct (items r); [|destruct (next_page r) as [n|]; [case_match; [|done]|]];
        intros [= <- <-]; simpl; congruence.
    + intros [= <- <-]. congruence.
Qed.

Lemma query_nodes_alone c p s l : leaves_alone held (query_nodes c p s l).
Proof.
  apply alone_try; [|auto with alone]. apply pager_alone. intros f v. unfold query_nodes_inner.
  pose proof (held_query c (query_nodes_request identity_pubkey s p f l) v).
  by destruct (client_query_nodes _ _ _) as [[[]|] ?].
Qed.

Lemma verify_attempts_alone l reserved : leaves_alone held (verify_attempts l reserved).
Proof.
  induction l as [|a l IH]; simpl; [auto with alone|].
  apply alone_bind; [apply query_nodes_alone|]. intros [nodes|e]; [auto with alone|].
  apply alone_bind; [|done]. case_match; auto with alone.
Qed.

Lemma verify_alone r : leaves_alone held (verify_leaves_against_coordinator r).
Proof.
  unfold verify_leaves_against_coordinator.
  destruct (reservation_leaves r); [auto with alone|apply verify_attempts_alone].
Qed.

Lemma signal_alone : leaves_alone held signal_exit_state_changed.
Proof.
  unfold signal_exit_state_changed. destruct exit_state_changed as [send|] eqn:E; [|auto with alone].
  apply alone_modify. intros w. by apply held_exit_state.
Qed.

Lemma notify_alone l : leaves_alone held (notify_leaves_added l).
Proof. destruct l; simpl; auto with alone. Qed.

Lemma check_renew_alone p : leaves_alone held (check_renew_nodes p).
Proof.
  apply alone_bind; [auto with alone|]. intros before.
  apply alone_bind; [auto with alone|]. intros [x|e]; auto with alone.
Qed.

Lemma store_renewed_alone p b : leaves_alone held (store_renewed_chains p b).
Proof.
  unfold store_renewed_chains. case_match; [auto with alone|].
  destruct (complete_chains p); [apply signal_alone|].
  apply alone_bind; [auto with alone|]. intros _. apply signal_alone.
Qed.

Lemma swap_alone l ta : leaves_alone held (swap_leaves_internal l ta).
Proof.
  destruct l; simpl; [auto with alone|]. apply alone_try; [auto with alone|].
  intros. apply check_renew_alone.
Qed.

Lemma refresh_alone `{!HashIter string} : leaves_alone held refresh_leaves.
Proof.
  pose proof query_nodes_alone. pose proof check_renew_alone. pose proof store_renewed_alone.
  pose proof notify_alone. unfold refresh_leaves, retain_owned.
  repeat first
    [ solve [eauto with alone] | apply alone_try | apply alone_bind | case_match
    | match goal with |- ∀ _, _ => intros ? end ].
Qed.

(** ** What may go wrong for good

    The calls that give a reservation back may fail in a store on disk, and so
    may the two writes of a renewal. Over a store where they do not, two failures
    end a selection with its reservation still held: a leaf without a refund
    transaction, and a swap that pays out leaves the target cannot be made from. *)

Record Dependable : Prop := {
  cancels i l w : is_Ok (store_cancel_reservation i l w).1 = true;
  finalizes i l w : is_Ok (store_finalize_reservation i l w).1 = true;
  reads_chains l w : is_Ok (store_get_exit_chains l w).1 = true;
  adds_leaves l w : is_Ok (store_add_leaves l w).1 = true;
}.

Definition no_refund_tx : TreeServiceError.t := TreeServiceError.Generic "No refund tx".

(** The selection ended right after a swap whose leaves could not be split. *)
Definition uncovered ta e w' : Prop :=
  ∃ l w outcome, swap_leaves_internal l ta w = Some (Ok outcome, w') ∧
    select_leaves_by_target_amounts (leaf <$> pedigrees outcome) ta = Err e.

Definition left_open ta e w' : Prop := e = no_refund_tx ∨ uncovered ta e w'.

Lemma renewal_check_error (l : list TreeNode) e :
  any_needs_renewal l = Some (Err e) → e = no_refund_tx.
Proof.
  induction l as [|n l IH]; simpl; [done|].
  unfold needs_refund_tx_renewed, refund_sequence. destruct (refund_tx n) as [tx|]; simpl.
  - destruct (_ !! 0%nat) as [s|]; simpl; [|done]. case_match; [done|apply IH].
  - by intros [= <-].
Qed.

(** A step with the reservation [i] in hand: on success it is still held, on
    failure it has been given back or is still held; over a dependable store the
    latter only where the code leaves it open. *)
Definition with_reservation {A} w (i : LeavesReservationId) ta (res : TreeResult A) w' : Prop :=
  match res with
  | Ok _ => held w' = held w
  | Err e => held w' = held w ∖ {[i]} ∨ held w' = held w ∧ (Dependable → left_open ta e w')
  end.

Lemma cancel_ends r w (Q : TreeResult unit → W → Prop) :
  (∀ res w', held w' = held w ∖ {[reservation_id r]} ∨ held w' = held w ∧ (Dependable → False) →
     Q res w') →
  ends_in (cancel_reservation r) w Q.
Proof.
  intros HQ. after verify_alone. intros keep w1 Hw1.
  apply ends_in_call. pose proof (held_cancel (reservation_id r) keep w1) as Hc.
  pose proof (λ Hd, cancels Hd (reservation_id r) keep w1) as Hok.
  destruct (store_cancel_reservation _ _ _) as [[] w2]; simpl in *; apply HQ.
  - left. congruence.
  - right. split; [congruence|]. intros Hd. by specialize (Hok Hd).
Qed.

Lemma cancel_gives_back r w (Q : TreeResult unit → W → Prop) :
  Dependable → (∀ res w', held w' = held w ∖ {[reservation_id r]} → Q res w') →
  ends_in (cancel_reservation r) w Q.
Proof. intros Hd HQ. apply cancel_ends. intros res w' [?|[_ []]]; auto. Qed.

(** An error after the cancellation of the reservation. *)
Lemma cancel_with {A} r ta (e : TreeServiceError.t) w w0 (Q : TreeResult A → Prop) :
  held w = held w0 → Q (Err e) →
  ends_in (_ ← cancel_reservation r; mret (Err e : TreeResult A)) w (λ res w',
    with_reservation w0 (reservation_id r) ta res w' ∧ Q res).
Proof.
  intros Hw HQ. apply ends_in_bind, cancel_ends. intros _ w' Hw'. apply ends_in_ret. split; [|done].
  rewrite Hw in Hw'. simpl. destruct Hw' as [?|[? Hd]]; [by left|right]. split; [done|].
  intros Hdep. by destruct (Hd Hdep).
Qed.

Definition same_reservation (i : LeavesReservationId) (res : TreeResult LeavesReservation) : Prop :=
  match res with Ok r' => reservation_id r' = i | Err _ => True end.

Lemma renew_ends ta r w :
  ends_in (renew_reservation_timelocks r) w (λ res w',
    with_reservation w (reservation_id r) ta res w' ∧ same_reservation (reservation_id r) res).
Proof.
  apply ends_in_try, ends_in_panic. intros needed Hn.
  destruct needed as [needed|e].
  2:{ apply renewal_check_error in Hn. split; [|done]. right. split; [done|]. by left. }
  destruct needed; simpl; [|by apply ends_in_ret].
  apply ends_in_try, ends_in_call.
  pose proof (held_get_exit_chains (id <$> reservation_leaves r) w) as Hw1.
  pose proof (λ Hd, reads_chains Hd (id <$> reservation_leaves r) w) as Hok.
  destruct (store_get_exit_chains _ w) as [[chains|e] w1]; simpl in *.
  2:{ split; [|done]. right. split; [done|]. intros Hd. by specialize (Hok Hd). }
  after check_renew_alone. intros [outcome|e] w2 Hw2; [|apply cancel_with; [congruence|done]].
  apply ends_in_try, ends_in_call.
  pose proof (held_add_leaves (leaf <$> pedigrees outcome) w2) as Hw3.
  pose proof (λ Hd, adds_leaves Hd (leaf <$> pedigrees outcome) w2) as Hok'.
  destruct (store_add_leaves _ w2) as [[[]|e] w3]; simpl in *.
  2:{ split; [|done]. right. split; [congruence|]. intros Hd. by specialize (Hok' Hd). }
  after store_renewed_alone. intros [] w4 Hw4.
  after notify_alone. intros [] w5 Hw5.
  apply ends_in_ret. split; [|done]. unfold with_reservation. congruence.
Qed.

Lemma swap_ends r ta w :
  ends_in (perform_swap_and_update_reservation r ta) w (λ res w',
    with_reservation w (reservation_id r) ta res w' ∧ same_reservation (reservation_id r) res).
Proof.
  apply ends_in_bind. unfold ends_in at 1.
  pose proof (swap_alone (reservation_leaves r) ta w) as Hw1. unfold ends_in in Hw1.
  destruct (swap_leaves_internal _ _ w) as [[[outcome|e] w1]|] eqn:Hswap; [| |done].
  2:{ by apply cancel_with. }
  apply ends_in_try, ends_in_ret.
  destruct (select_leaves_by_target_amounts _ ta) as [tl|e] eqn:Hsel.
  2:{ split; [|done]. right. split; [done|]. intros _. right. by exists (reservation_leaves r), w, outcome. }
  apply ends_in_bind, ends_in_call.
  match goal with |- context [store_update_reservation ?i ?a ?b w1] =>
    pose proof (held_update i a b w1) as Hu;
    destruct (store_update_reservation i a b w1) as [[final|e] w2] end; simpl in *.
  - destruct Hu as (Hid & _ & Hu).
    after store_renewed_alone. intros [] w3 Hw3.
    after notify_alone. intros [] w4 Hw4.
    apply ends_in_ret. split; [|done]. unfold with_reservation. congruence.
  - apply ends_in_bind, ends_in_call.
    match goal with |- context [store_finalize_reservation ?i ?a w2] =>
      pose proof (held_finalize i a w2) as Hf; pose proof (λ Hd, finalizes Hd i a w2) as Hok;
      destruct (store_finalize_reservation i a w2) as [[[]|e'] w3] end; simpl in *.
    + after store_renewed_alone. intros [] w4 Hw4.
      apply ends_in_ret. split; [|done]. left. congruence.
    + apply ends_in_ret, ends_in_ret. split; [|done]. right. split; [congruence|].
      intros Hd. by specialize (Hok Hd).
Qed.

(** The reservation a selection returns is the one it took; a failed one gave it
    back, or still holds it. *)
Definition one_more ta w (res : option (TreeResult LeavesReservation)) w' : Prop :=
  match res with
  | Some (Ok r) => reservation_id r ∉ held w ∧ held w' = {[reservation_id r]} ∪ held w
  | Some (Err e) =>
      held w' = held w ∨
      (∃ i, i ∉ held w ∧ held w' = {[i]} ∪ held w) ∧ (Dependable → left_open ta e w')
  | None => held w' = held w
  end.

Lemma failed_one_more r ta w w0 (e : TreeServiceError.t) w' :
  reservation_id r ∉ held w0 → held w = {[reservation_id r]} ∪ held w0 →
  with_reservation (A := LeavesReservation) w (reservation_id r) ta (Err e) w' →
  one_more ta w0 (Some (Err e)) w'.
Proof.
  intros Hnew Hw [Hw'|[Hw' Ho]]; [left; rewrite Hw', Hw; set_solver|right].
  split; [|done]. exists (reservation_id r). by rewrite Hw'.
Qed.

Lemma select_leaves_held fuel ta p options w :
  ends_in (select_leaves fuel ta p options) w (one_more ta w).
Proof.
  revert w. induction fuel as [|fuel IH]; intros w; [done|].
  apply ends_in_bind, ends_in_call.
  pose proof (held_try_reserve ta false p w) as Hw.
  destruct (store_try_reserve_leaves ta false p w) as [[[r| |]|e] w1] eqn:Hres; simpl in *; try by (done || left).
  - destruct Hw as [Hnew Hw].
    apply ends_in_bind, ends_in_try. eapply ends_in_weaken; [apply (renew_ends ta)|].
    intros [r1|e] w2 [Hw2 Hid]; simpl in Hid;
      [|apply ends_in_ret; by apply (failed_one_more r ta w1)].
    simpl in Hw2. case_match.
    + apply ends_in_ret, ends_in_ret. simpl. by rewrite Hid, Hw2, Hw.
    + eapply ends_in_weaken; [by apply swap_ends|].
      intros [r2|e] w3 [Hw3 Hid2]; apply ends_in_ret.
      * simpl in *. by rewrite Hid2, Hid, Hw3, Hw2, Hw.
      * apply (failed_one_more r1 ta w2); [by rewrite Hid|by rewrite Hid, Hw2|done].
  - case_match; [by left|]. apply ends_in_bind.
    unfold wait_for_pending_balance. apply ends_in_bind, ends_in_call.
    pose proof (held_elapsed w1) as Hw2. destruct (wait_elapsed w1) as [elapsed w2]. simpl in *.
    case_match; [apply ends_in_ret; left; congruence|].
    apply ends_in_bind, ends_in_call. pose proof (held_balance_changed w2) as Hw3.
    destruct (balance_changed w2) as [how w3]. simpl in *.
    assert (held w3 = held w) as Hback by congruence.
    assert (ends_in (select_leaves fuel ta p options) w3 (one_more ta w)) as Hnext.
    { eapply ends_in_weaken; [apply IH|]. intros res w4. unfold one_more. by rewrite Hback. }
    destruct how; apply ends_in_ret; [exact Hnext|by left|exact Hnext].
Qed.

(** C4: What a selection leaves reserved, over any store and services that obey the
    interface laws: a successful one leaves the caller with exactly one more
    reservation, the one it returns (after a renewal, a swap, or neither); one that
    is still waiting has none; a failed one has none, or still holds the one it had
    taken. If the store's cancel, finalize and renewal writes do not fail (those of
    the in-memory store do not, [in_memory_dependable]), it still holds it in two
    cases only: a reserved leaf carries no refund transaction, or the selection
    failed right after a swap whose leaves do not split into the target. In both
    the code returns without cancelling. *)
Theorem select_leaves_gives_back fuel ta p options w res w' :
  select_leaves fuel ta p options w = Some (res, w') →
  match res with
  | Some (Ok r) => reservation_id r ∉ held w ∧ held w' = {[reservation_id r]} ∪ held w
  | Some (Err e) =>
      held w' = held w ∨
      (∃ i, i ∉ held w ∧ held w' = {[i]} ∪ held w) ∧
      (Dependable →
        e = TreeServiceError.Generic "No refund tx" ∨
        ∃ l w0 outcome, swap_leaves_internal l ta w0 = Some (Ok outcome, w') ∧
          select_leaves_by_target_amounts (leaf <$> pedigrees outcome) ta = Err e)
  | None => held w' = held w
  end.
Proof. exact (ends_in_use _ _ _ _ _ (select_leaves_held fuel ta p options w)). Qed.

(** ** Termination *)

(** A clock that runs: the waits take time. *)
Record clock_runs (clock : W → Z) : Prop := {
  clock_read w : (wait_elapsed w).1 = clock w ∧ clock w ≤ clock (wait_elapsed w).2;
  clock_reserve ta x p w : clock w ≤ clock (store_try_reserve_leaves ta x p w).2;
  clock_wait w : clock w < clock (balance_changed w).2;
}.

Lemma select_leaves_stops fuel ta p options w :
  max_wait_for_pending options = 0 ∧ (1 ≤ fuel)%nat ∨
  (∃ clock, clock_runs clock ∧
    max_wait_for_pending options - clock w + 2 ≤ Z.of_nat fuel ∧ (1 ≤ fuel)%nat) →
  ends_in (select_leaves fuel ta p options) w (λ res _, res ≠ None).
Proof.
  revert w. induction fuel as [|fuel IH]; intros w Hfuel.
  { destruct Hfuel as [[_ ?]|(? & _ & _ & ?)]; lia. }
  apply ends_in_bind, ends_in_call.
  pose proof (λ clock (Hc : clock_runs clock), clock_reserve clock Hc ta false p w) as Hc1.
  destruct (store_try_reserve_leaves ta false p w) as [[[r| |]|e] w1]; simpl in *; try done.
  - apply ends_in_bind. unfold ends_in. by destruct (try_bind _ _ w1) as [[]|].
  - destruct (Z.eqb_spec (max_wait_for_pending options) 0) as [|Hwait]; [done|].
    destruct Hfuel as [[? _]|(clock & Hclock & Hfuel & _)]; [done|]. specialize (Hc1 clock Hclock).
    destruct (clock_read clock Hclock w1) as [Hnow Hc2].
    apply ends_in_bind. unfold wait_for_pending_balance. apply ends_in_bind, ends_in_call.
    destruct (wait_elapsed w1) as [elapsed w2]. simpl in *. subst elapsed.
    destruct (Z.ltb_spec (max_wait_for_pending options) (clock w1)); [done|].
    apply ends_in_bind, ends_in_call. pose proof (clock_wait clock Hclock w2) as Hc3.
    destruct (balance_changed w2) as [how w3]. simpl in *.
    assert (ends_in (select_leaves fuel ta p options) w3 (λ res _, res ≠ None)) as Hnext.
    { apply IH. right. exists clock. split; [done|]. lia. }
    destruct how; apply ends_in_ret; [exact Hnext|done|exact Hnext].
Qed.

(** A selection comes to an end: at once when the caller does not wait, and
    otherwise as soon as the clock has passed the longest wait, whatever the
    store answers and however often it notifies. *)
Theorem select_leaves_ends fuel ta p options w w' :
  max_wait_for_pending options = 0 ∧ (1 ≤ fuel)%nat ∨
  (∃ clock, clock_runs clock ∧
    max_wait_for_pending options - clock w + 2 ≤ Z.of_nat fuel ∧ (1 ≤ fuel)%nat) →
  select_leaves fuel ta p options w ≠ Some (None, w').
Proof.
  intros Hfuel Hrun. by apply (ends_in_use _ _ _ _ _ (select_leaves_stops fuel ta p options w Hfuel)) in Hrun.
Qed.

(** ** What a selection pays *)

(** The leaves split into the ones that make up each part of the target, and
    leaves without value. *)
Definition pays_target (t : TargetAmounts) (l : list TreeNode) : Prop :=
  match t with
  | AmountAndFee amount fee =>
      ∃ al fl rest, l ≡ₚ al ++ fl ++ rest ∧
        valueZ al = amount ∧ valueZ fl = default 0 fee ∧ valueZ rest = 0
  | ExactDenominations ds =>
      ∃ sel rest, l ≡ₚ sel ++ rest ∧ value <$> sel = ds ∧ valueZ rest = 0
  end.

Lemma selection_pays t l tl :
  NoDup (id <$> l) → Forall node_wf l → target_ok (Some t) →
  select_leaves_by_target_amounts l (Some t) = Ok tl → valueZ l = target_total t →
  pays_target t l.
Proof.
  intros Hnd Hwf Ht Hsel Hv. destruct (select_target_Ok l (Some t) tl) as [Hsub Hp]; [done|done| |done|].
  { destruct t; naive_solver. }
  apply submseteq_Permutation in Hsub as [rest Hrest]. unfold target_selection in Hrest.
  assert (valueZ l = valueZ (amount_leaves tl) + valueZ (default [] (fee_leaves tl)) + valueZ rest) as Hsum.
  { rewrite (valueZ_perm _ _ Hrest), !valueZ_app. lia. }
  destruct t as [a [f|]|ds]; simpl in *.
  - destruct Hp as (Ha & fl & Hfl & Hf). rewrite Hfl in *. simpl in *.
    exists (amount_leaves tl), fl, rest. rewrite app_assoc. split_and!; [done|done|done|lia].
  - destruct Hp as (Ha & Hfl). rewrite Hfl in *. simpl in *. rewrite app_nil_r in Hrest.
    exists (amount_leaves tl), [], rest. split_and!; [done|done|done|]. unfold valueZ in *. simpl in *. lia.
  - destruct Hp as (Hds & Hfl). rewrite Hfl in *. simpl in *. rewrite app_nil_r in Hrest.
    exists (amount_leaves tl), rest. split_and!; [done|done|].
    assert (valueZ (amount_leaves tl) = sumZ ds) by by rewrite <- Hds.
    unfold valueZ at 3 in Hsum. simpl in Hsum. lia.
Qed.

Lemma matches_pays t r :
  target_ok (Some t) → 0 < target_total t →
  NoDup (id <$> reservation_leaves r) → Forall node_wf (reservation_leaves r) →
  valueZ (reservation_leaves r) < 2 ^ 64 →
  reservation_matches_target r (Some t) = true → pays_target t (reservation_leaves r).
Proof.
  intros Ht Hpos Hnd Hwf Hb. unfold reservation_matches_target, reservation_sum.
  rewrite total_sats_exact, sum_value_exact by done.
  rewrite andb_true_iff, orb_true_iff, !Z.eqb_eq. intros [Hv Hok].
  destruct (select_leaves_by_target_amounts _ _) as [tl|] eqn:Hs; [|done].
  apply (selection_pays t _ tl); [done..|lia].
Qed.

(** The pedigrees of the leaves with the ids of a selection are that selection. *)
Lemma reserved_pedigrees_leaves (ps : list LeafPedigree) (sel : list TreeNode) :
  NoDup (id <$> (leaf <$> ps)) → sel ⊆+ leaf <$> ps →
  leaf <$> filter (λ p, id (leaf p) ∈ (list_to_set (id <$> sel) : gset TreeNodeId)) ps ≡ₚ sel.
Proof.
  intros Hnd Hsub. pose proof (NoDup_fmap_1 id _ Hnd) as Hndl.
  apply NoDup_Permutation.
  - eapply sublist_NoDup; [exact Hndl|]. by apply fmap_sublist, sublist_filter.
  - eapply NoDup_submseteq_l; [exact Hsub|done].
  - intros n. rewrite list_elem_of_fmap. split.
    + intros (p & -> & [Hp Hin]%list_elem_of_filter).
      rewrite elem_of_list_to_set, list_elem_of_fmap in Hp. destruct Hp as (n & Hid & Hn).
      assert (n ∈ leaf <$> ps) as Hn' by by eapply elem_of_submseteq.
      assert (leaf p ∈ leaf <$> ps) as Hp' by by apply list_elem_of_fmap_2.
      by rewrite (NoDup_fmap_inj id (leaf <$> ps) (leaf p) n).
    + intros Hn. assert (n ∈ leaf <$> ps) as (p & -> & Hp)%list_elem_of_fmap
        by by eapply elem_of_submseteq.
      exists p. split; [done|]. apply list_elem_of_filter. split; [|done].
      rewrite elem_of_list_to_set. by apply list_elem_of_fmap_2.
Qed.

Lemma swap_outcome_distinct l ta w outcome w' :
  swap_leaves_internal l ta w = Some (Ok outcome, w') →
  NoDup (id <$> (leaf <$> pedigrees outcome)) ∧ Forall node_wf (leaf <$> pedigrees outcome).
Proof.
  intros Hrun.
  refine (ends_in_use (swap_leaves_internal l ta) w (λ res _, match res with
    | Ok outcome => NoDup (id <$> (leaf <$> pedigrees outcome)) ∧
        Forall node_wf (leaf <$> pedigrees outcome)
    | Err _ => True end) _ _ _ Hrun).
  clear Hrun. destruct l as [|n l]; simpl; [done|]. apply ends_in_try, ends_in_call.
  destruct (swap_service_swap_leaves _ _ w) as [[new|e] w1] eqn:Hswap; simpl; [|done].
  apply swapped_leaves_distinct in Hswap as [Hnd Hwf].
  apply ends_in_bind, ends_in_panic. intros before _. apply ends_in_bind, ends_in_call.
  destruct (timelock_manager_check_renew_nodes _ w1) as [[ps|e] w2] eqn:Hrenew; simpl; [|done].
  assert (leaf <$> bare_pedigrees new = new) as Hbare.
  { unfold bare_pedigrees. rewrite <- list_fmap_compose. by apply list_fmap_id. }
  apply renewed_leaves_distinct in Hrenew; rewrite ?Hbare in *; [|done|done].
  apply ends_in_bind, ends_in_panic. intros landed _. by apply ends_in_ret.
Qed.

(** What the operators report of the reserved leaves is sound: distinct ids,
    [u64] values, and a total that fits. *)
Definition paid_if_sound t r : Prop :=
  NoDup (id <$> reservation_leaves r) → Forall node_wf (reservation_leaves r) →
  valueZ (reservation_leaves r) < 2 ^ 64 → pays_target t (reservation_leaves r).

Lemma swap_pays t r w :
  target_ok (Some t) →
  ends_in (perform_swap_and_update_reservation r (Some t)) w
    (λ res _, match res with Ok r => pays_target t (reservation_leaves r) | Err _ => True end).
Proof.
  intros Ht. apply ends_in_bind. unfold ends_in at 1.
  destruct (swap_leaves_internal _ _ w) as [[[outcome|e] w1]|] eqn:Hswap; [| |done].
  2: { apply ends_in_bind. unfold ends_in at 1. by destruct (cancel_reservation r w1) as [[]|]. }
  apply swap_outcome_distinct in Hswap as [Hnd Hwf].
  apply ends_in_try, ends_in_ret.
  destruct (select_leaves_by_target_amounts _ _) as [tl|] eqn:Hsel; [|done].
  destruct (select_target_Ok (leaf <$> pedigrees outcome) (Some t) tl) as [Hsub Hp];
    [exact Hnd|exact Hwf|destruct t; naive_solver|exact Hsel|].
  pose proof (reserved_pedigrees_leaves _ _ Hnd Hsub) as Hperm.
  apply ends_in_bind, ends_in_call. unfold target_selection in *.
  match goal with |- context [store_update_reservation ?i ?a ?b w1] =>
    pose proof (held_update i a b w1) as Hu;
    destruct (store_update_reservation i a b w1) as [[final|e] w2] end; simpl in *.
  - destruct Hu as (_ & Hl & _). rewrite <- Hl in Hperm.
    apply ends_in_bind. unfold ends_in at 1. destruct (store_renewed_chains _ _ w2) as [[[] w3]|]; [|done].
    apply ends_in_bind. unfold ends_in at 1. destruct (notify_leaves_added _ w3) as [[[] w4]|]; [|done].
    apply ends_in_ret. destruct t as [a [f|]|ds]; simpl in *.
    + destruct Hp as (Ha & fl & Hfl & Hf). rewrite Hfl in Hperm. simpl in Hperm.
      exists (amount_leaves tl), fl, []. by rewrite app_nil_r.
    + destruct Hp as (Ha & Hfl). rewrite Hfl in Hperm. by exists (amount_leaves tl), [], [].
    + destruct Hp as (Hds & Hfl). rewrite Hfl in Hperm. by exists (amount_leaves tl), [].
  - apply ends_in_bind. unfold ends_in at 1. destruct (call _ w2) as [[fin w3]|]; [|done].
    apply ends_in_bind. destruct fin as [[]|]; [|done].
    unfold ends_in at 1. by destruct (store_renewed_chains _ _ w3) as [[[] w4]|].
Qed.

(** C21: A selected reservation pays its target exactly: its leaves split into
    leaves worth the amount and leaves worth the fee (or carrying exactly the
    denominations asked for), up to leaves of no value. It makes no difference
    whether the pool held an exact combination or the leaves come out of a swap. *)
Theorem select_leaves_exact fuel t p options w r w' :
  target_ok (Some t) → 0 < target_total t →
  select_leaves fuel (Some t) p options w = Some (Some (Ok r), w') →
  NoDup (id <$> reservation_leaves r) → Forall node_wf (reservation_leaves r) →
  valueZ (reservation_leaves r) < 2 ^ 64 →
  pays_target t (reservation_leaves r).
Proof.
  intros Ht Hpos. revert w r w'. induction fuel as [|fuel IH]; intros w r w' Hrun; [done|].
  refine (ends_in_use (select_leaves (S fuel) (Some t) p options) w
    (λ res _, match res with Some (Ok r) => paid_if_sound t r | _ => True end) _ _ _ Hrun).
  clear Hrun. apply ends_in_bind, ends_in_call.
  destruct (store_try_reserve_leaves _ _ _ w) as [[[r1| |]|e] w1]; simpl; try done.
  - apply ends_in_bind, ends_in_try. unfold ends_in at 1.
    destruct (renew_reservation_timelocks r1 w1) as [[[r2|e] w2]|]; [|done|done].
    case_match eqn:Hm; [intros ???; by apply matches_pays|].
    eapply ends_in_weaken; [by apply swap_pays|]. intros [r3|e] w3 Hr; apply ends_in_ret; [|done].
    intros ???. exact Hr.
  - case_match; [done|]. apply ends_in_bind. unfold ends_in at 1.
    destruct (wait_for_pending_balance _ w1) as [[[[]|e] w2]|]; [|done|done].
    assert (ends_in (select_leaves fuel (Some t) p options) w2
      (λ res _, match res with Some (Ok r) => paid_if_sound t r | _ => True end)) as Hnext.
    { unfold ends_in.
      destruct (select_leaves fuel (Some t) p options w2) as [[[[r3|e]|] w3]|] eqn:E; try done.
      exact (IH _ _ _ E). }
    exact Hnext.
Qed.

End service_spec.

(** ** Calls that went through *)

Section refresh_spec.
Context `{Bitcoin} {W : Type} `{!TreeStoreApi W, !ServiceEnv W}.
Implicit Types (w : W).

Lemma bind_some {A B} (m : proc W A) (f : A → proc W B) w b w' :
  (m ≫= f) w = Some (b, w') → ∃ a w1, m w = Some (a, w1) ∧ f a w1 = Some (b, w').
Proof. unfold mbind, proc_bind. destruct (m w) as [[a w1]|]; [eauto|done]. Qed.

Lemma try_ok {E A B} (m : proc W (result E A)) (f : A → proc W (result E B)) w b w' :
  try_bind m f w = Some (Ok b, w') → ∃ a w1, m w = Some (Ok a, w1) ∧ f a w1 = Some (Ok b, w').
Proof. intros ([a|e] & w1 & Hm & Hf)%bind_some; [by exists a, w1|done]. Qed.

Lemma oks {E A} (l : list (result E A)) k : Forall2 (λ x y, x = Ok y) l k → l = Ok <$> k.
Proof. induction 1; by simplify_eq/=. Qed.

(** ** What a refresh makes of the operators' reports *)

Implicit Types (leaf n : TreeNode).

(** The first report of a leaf by an operator agrees with the coordinator's. *)
Definition agrees (operator_leaves : list TreeNode) leaf : bool :=
  match List.find (λ n, bool_decide (id n = id leaf)) operator_leaves with
  | Some operator_leaf => same_report operator_leaf leaf
  | None => false
  end.

Lemma first_by_id_lookup (nodes : list TreeNode) i :
  first_by_id nodes !! i = List.find (λ n, bool_decide (id n = i)) nodes.
Proof.
  unfold first_by_id.
  assert (∀ m : gmap TreeNodeId TreeNode,
    foldl (λ m n, match m !! id n with Some _ => m | None => <[id n := n]> m end) m nodes !! i =
    match m !! i with
    | Some n => Some n
    | None => List.find (λ n, bool_decide (id n = i)) nodes
    end) as ->; [|done].
  induction nodes as [|n nodes IH]; intros m; simpl; [by destruct (m !! i)|]. rewrite IH.
  destruct (decide (id n = i)) as [<-|Hne].
  - rewrite bool_decide_true by done. destruct (m !! id n) eqn:E; [by rewrite E|].
    by rewrite lookup_insert_eq.
  - rewrite bool_decide_false by done. destruct (m !! id n); [done|]. by rewrite lookup_insert_ne.
Qed.

(** The values of a map keyed by their ids have distinct ids. *)
Lemma hm_values_keyed `{!HashIter string} (m : gmap TreeNodeId TreeNode) :
  (∀ i n, m !! i = Some n → id n = i) → NoDup (id <$> hm_values m).
Proof.
  intros Hk. rewrite hm_values_perm. rewrite <- list_fmap_compose.
  assert ((id ∘ snd) <$> map_to_list m = (map_to_list m).*1) as ->; [|apply NoDup_fst_map_to_list].
  apply list_fmap_ext. intros j [i n] Hj%list_elem_of_lookup_2%elem_of_map_to_list. by apply Hk.
Qed.

(** A round inserts the leaves the operator disagrees about. *)
Lemma compare_operator_insert (cl : list TreeNode) missing ol :
  compare_operator cl missing ol =
    insert_all id (λ n, n) (filter (λ n, agrees ol n = false) cl) missing.
Proof.
  unfold compare_operator. revert missing. induction cl as [|n cl IH]; intros missing; [done|].
  cbn [foldl]. rewrite IH, filter_cons, first_by_id_lookup.
  destruct (agrees ol n) eqn:Ha; unfold agrees in Ha;
    (destruct (List.find _ ol) as [op|]; [rewrite Ha|]); done.
Qed.

Lemma missing_map_None (cl : list TreeNode) vec i :
  missing_operator_leaves_map cl vec !! i = None ↔
    ∀ n, n ∈ cl → id n = i → ∀ ol, ol ∈ vec → agrees ol n = true.
Proof.
  unfold missing_operator_leaves_map.
  induction vec as [|ol vec IH] using rev_ind.
  { cbn [foldl]. rewrite lookup_empty. split; [|done]. by intros _ n _ _ ol []%elem_of_nil. }
  rewrite foldl_app. cbn [foldl]. rewrite compare_operator_insert, insert_all_None, IH.
  rewrite list_elem_of_fmap. setoid_rewrite list_elem_of_filter. setoid_rewrite elem_of_app.
  setoid_rewrite list_elem_of_singleton. split.
  - intros [Hv Hol] n Hn Hid o [Ho| ->]; [by eapply Hv|]. apply not_false_iff_true. intros Hf.
    apply Hol. by exists n.
  - intros Hag. split; [intros n Hn Hid o Ho; eapply Hag; eauto|].
    intros (n & -> & Hf & Hn). by rewrite (Hag n Hn eq_refl ol) in Hf by by right.
Qed.

Lemma missing_map_Some (cl : list TreeNode) vec i n :
  missing_operator_leaves_map cl vec !! i = Some n →
  n ∈ cl ∧ id n = i ∧ ∃ ol, ol ∈ vec ∧ agrees ol n = false.
Proof.
  unfold missing_operator_leaves_map.
  induction vec as [|ol vec IH] using rev_ind; [done|].
  rewrite foldl_app. cbn [foldl]. rewrite compare_operator_insert.
  intros [(x & [Hf Hx]%list_elem_of_filter & Hid & ->)|(? & ? & o & ? & ?)%IH]%insert_all_Some;
    split_and!; try done; [exists ol|exists o]; split; set_solver.
Qed.

(** This wallet's leaves: proved ours in this refresh, or stored with the keys
    that are reported now. *)
Definition ours (already : gmap TreeNodeId VerifiedLeafKeys) (owned : gset TreeNodeId) n : Prop :=
  id n ∈ owned ∨
  ∃ keys, already !! id n = Some keys ∧ vk_verifying_public_key keys = verifying_public_key n ∧
    vk_signing_keyshare_public_key keys = ks_public_key (signing_keyshare n).

Lemma not_ignored already owned (cl : list TreeNode) i :
  ignored_leaves_map (unverified already cl) owned !! i = None ↔
    ∀ n, n ∈ cl → id n = i → ours already owned n.
Proof.
  unfold ignored_leaves_map. rewrite insert_all_None, lookup_empty, list_elem_of_fmap.
  setoid_rewrite list_elem_of_filter. unfold unverified. setoid_rewrite list_elem_of_filter.
  unfold ours. split.
  - intros [_ Hin] n Hn <-. destruct (decide (id n ∈ owned)) as [|Ho]; [by left|]. right.
    destruct (already !! id n) as [keys|] eqn:E.
    + exists keys. split; [done|].
      destruct (decide (vk_verifying_public_key keys = verifying_public_key n ∧
        vk_signing_keyshare_public_key keys = ks_public_key (signing_keyshare n))) as [|Hk]; [done|].
      destruct Hin. exists n. split_and!; [done..| |done]. rewrite E.
      apply andb_false_iff. rewrite !bool_decide_eq_false. apply not_and_l in Hk. done.
    + destruct Hin. exists n. split_and!; [done..| |done]. by rewrite E.
  - intros Hours. split; [done|]. intros (n & -> & Ho & Hk & Hn).
    destruct (Hours n Hn eq_refl) as [|(keys & Hkeys & Hv & Hs)]; [done|]. rewrite Hkeys in Hk.
    by rewrite !bool_decide_true in Hk.
Qed.

(** The signer's key for the leaf and the operators' key share make the leaf's key. *)
Definition proved n : Prop :=
  ∃ key w w', get_public_key_for_leaf (id n) w = (Ok key, w') ∧
    combine key (ks_public_key (signing_keyshare n)) = Some (verifying_public_key n).

Lemma retain_owned_proved (l : list TreeNode) w owned w' :
  retain_owned l w = Some (Ok owned, w') → ∀ i, i ∈ owned → ∃ n, n ∈ l ∧ id n = i ∧ proved n.
Proof.
  intros (keys & w1 & Hk & [= Ho <-])%try_ok.
  revert w keys w1 owned Hk Ho. induction l as [|n l IH]; intros w keys w1 owned.
  { intros [= <- <-] [= <-]. set_solver. }
  cbn [try_all]. intros (key & w2 & Hkey & (ks & w3 & Hks & [= <- <-])%try_ok)%try_ok.
  cbn [zip zip_with owned_ids].
  destruct (combine _ _) as [combined|] eqn:Hc; [|done]. simpl.
  destruct (owned_ids _) as [o|] eqn:Ho; [|done]. intros [= <-] i.
  pose proof (IH _ _ _ _ Hks Ho) as Hrest.
  case_bool_decide as Hv; [|intros Hi; destruct (Hrest i Hi) as (m & ? & ? & ?); exists m; set_solver].
  intros [->%elem_of_singleton|Hi]%elem_of_union.
  - exists n. split_and!; [by left|done|]. exists key, w, w2.
    unfold call in Hkey. injection Hkey as Hkey. by rewrite Hkey, Hc, Hv.
  - destruct (Hrest i Hi) as (m & ? & ? & ?). exists m. set_solver.
Qed.

(** What the coordinator reports, none of which is another's parent: this wallet's,
    whichever of its reports is looked at. *)
Definition own_leaf (nodes : list TreeNode) already owned n : Prop :=
  n ∈ nodes ∧ (∀ m, m ∈ nodes → parent_node_id m ≠ Some (id n)) ∧
  ∀ m, m ∈ nodes → id m = id n → ours already owned m.

Lemma elem_of_leaves_by_shape (nodes : list TreeNode) n :
  n ∈ leaves_by_shape nodes ↔ n ∈ nodes ∧ ∀ m, m ∈ nodes → parent_node_id m ≠ Some (id n).
Proof.
  unfold leaves_by_shape. rewrite list_elem_of_filter, elem_of_list_to_set, list_elem_of_omap.
  naive_solver.
Qed.

Lemma own_leaf_shape (nodes : list TreeNode) already owned n :
  own_leaf nodes already owned n ↔
    n ∈ leaves_by_shape nodes ∧
    ignored_leaves_map (unverified already (leaves_by_shape nodes)) owned !! id n = None.
Proof.
  unfold own_leaf. rewrite elem_of_leaves_by_shape, not_ignored. setoid_rewrite elem_of_leaves_by_shape.
  split; [naive_solver|]. intros [[Hn Hp] Ho]. split_and!; [done..|]. intros m Hm Hid.
  apply Ho; [|done]. split; [done|]. by rewrite Hid.
Qed.

Lemma reported_new_spec (nodes : list TreeNode) vec already owned n :
  n ∈ reported_new (leaves_by_shape nodes) (missing_operator_leaves_map (leaves_by_shape nodes) vec)
        (ignored_leaves_map (unverified already (leaves_by_shape nodes)) owned) ↔
  own_leaf nodes already owned n ∧
  ∀ m ol, m ∈ nodes → id m = id n → ol ∈ vec → agrees ol m = true.
Proof.
  unfold reported_new. rewrite list_elem_of_filter, missing_map_None, own_leaf_shape.
  setoid_rewrite elem_of_leaves_by_shape. split; [|naive_solver].
  intros [[Hag Hi] [Hn Hp]]. split; [done|]. intros m ol Hm Hid Hol.
  eapply Hag; [split; [done|]|done..]. by rewrite Hid.
Qed.

Lemma reported_missing_spec `{!HashIter string} (nodes : list TreeNode) vec already owned :
  let l := reported_missing (missing_operator_leaves_map (leaves_by_shape nodes) vec)
             (ignored_leaves_map (unverified already (leaves_by_shape nodes)) owned) in
  let disputed n := own_leaf nodes already owned n ∧ ∃ ol, ol ∈ vec ∧ agrees ol n = false in
  NoDup (id <$> l) ∧ (∀ n, n ∈ l → disputed n) ∧
  (∀ n, disputed n → ∃ m, m ∈ l ∧ id m = id n).
Proof.
  cbn zeta. unfold reported_missing. split_and!.
  - eapply sublist_NoDup; [|apply fmap_sublist, sublist_filter].
    apply hm_values_keyed. intros i n. apply missing_map_Some.
  - intros n [Hi [i (Hn & <- & Hol)%missing_map_Some]%elem_of_hm_values]%list_elem_of_filter.
    by rewrite own_leaf_shape.
  - intros n [[Hn Hi]%own_leaf_shape (ol & Hol & Hag)].
    destruct (missing_operator_leaves_map (leaves_by_shape nodes) vec !! id n) as [m|] eqn:E.
    + pose proof (missing_map_Some _ _ _ _ E) as (_ & Hid & _). exists m. split; [|done].
      rewrite list_elem_of_filter, elem_of_hm_values, Hid. eauto.
    + rewrite missing_map_None in E. by rewrite (E n Hn eq_refl ol Hol) in Hag.
Qed.

End refresh_spec.
