(* ===== verification/TreeServiceStore.v ===== *)
(** * The tree service over the in-memory store

    [InMemoryTreeStore] of [spark/src/tree/store.rs] as an instance of the
    trait [TreeStore]: each method acquires its permit if it needs one, has the
    processor run its command, and returns the response. The laws the service's
    theorems rely on hold of it, for any clock and any supply of new UUIDs. *)

From S2P Require Import Prelude Bitcoin TreeModel ExitChain LeafSelect.
From S2P Require Import TreeStore TreeStoreInv TreeStoreSystem TreeService TreeServiceSpec.

Section in_memory.
Context `{Bitcoin} `{!HashIter string} {X : Type}.

(** What the store reads from outside: the clock, new UUIDs and the semaphore. *)
Context (store : InMemoryTreeStore) (now : X → SystemTime)
  (uuid : LeavesState → X → LeavesReservationId) (permit : X → Acquire).

(** A command that answers with a result and may change the state. *)
Definition run_command {A} (f : LeavesState → X → A * LeavesState) (w : LeavesState * X)
    : A * (LeavesState * X) :=
  let '(a, st) := f w.1 w.2 in (a, (st, w.2)).

#[export] Instance in_memory_store : TreeStoreApi (LeavesState * X) :=
  {| store_now := run_command (λ st x, (Ok (now x), st));
     store_add_leaves l := run_command (λ st x, process_add_leaves (now x) st l);
     store_store_ancestors p := run_command (λ st x, process_store_ancestors st p);
     store_leaves_missing_exit_chains :=
       run_command (λ st x, (Ok (process_leaves_missing_exit_chains st), st));
     store_get_exit_chains ids :=
       run_command (λ st x, (Ok (process_get_exit_chains st ids), st));
     store_get_leaves := run_command (λ st x, (Ok (process_get_leaves st), st));
     store_get_available_balance := run_command (λ st x, (Ok (TreeStore.get_available_balance st), st));
     store_get_verified_leaf_keys := run_command (λ st x, (Ok (get_verified_leaf_keys st), st));
     store_set_leaves l m t := run_command (λ st x, process_set_leaves (now x) st l m t);
     store_cancel_reservation i keep :=
       run_command (λ st x, process_cancel_reservation (now x) st i keep);
     store_finalize_reservation i new :=
       run_command (λ st x, process_finalize_reservation (now x) (now x) st i new);
     store_try_reserve_leaves ta exact_only p :=
       run_command (λ st x,
         match acquire store (permit x) with
         | Ok permit => process_try_reserve_leaves (uuid st x) st ta exact_only p permit
         | Err e => (Err e, st)
         end);
     store_try_reserve_leaves_by_ids ids p :=
       run_command (λ st x,
         match acquire store (permit x) with
         | Ok permit => process_reserve_leaves_by_ids (uuid st x) st ids p permit
         | Err e => (Err e, st)
         end);
     store_try_select_leaves ta := run_command (λ st x, (process_try_select_leaves st ta, st));
     store_update_reservation i reserved change :=
       run_command (λ st x, process_update_reservation (now x) st i reserved change) |}.

(** ** Which reservations each command leaves behind *)

Definition reserved (st : LeavesState) : gset LeavesReservationId := dom (leaves_reservations st).

Lemma add_leaf_reserved t st l : reserved (add_leaf t st l) = reserved st.
Proof.
  unfold add_leaf. destruct (find_map _ _) as [[rid e]|] eqn:E; [|done].
  apply find_map_Some in E as ([rid' e'] & Hin%elem_of_hm_iter & Hu). simpl in *.
  destruct (update_node l (entry_leaves e')); simplify_eq/=.
  unfold reserved. simpl. rewrite dom_insert_L. apply elem_of_dom_2 in Hin. set_solver.
Qed.

Lemma add_leaves_reserved t st l : reserved (process_add_leaves t st l).2 = reserved st.
Proof. apply (foldl_same _ reserved), add_leaf_reserved. Qed.

Lemma store_ancestors_reserved st p : reserved (process_store_ancestors st p).2 = reserved st.
Proof.
  apply (foldl_same _ reserved). intros st' ped. unfold upsert_ancestors. by repeat case_match.
Qed.

Lemma set_leaves_reserved t st l m r : reserved (process_set_leaves t st l m r).2 = reserved st.
Proof.
  unfold process_set_leaves. case_match; [done|].
  match goal with |- context [refresh_reservations ?p ?r] =>
    pose proof (refresh_fold_dom p r (hm_iter r)) as Hd;
    change (refresh_fold p r (hm_iter r)) with (refresh_reservations p r) in Hd;
    destruct (refresh_reservations p r) as [pool res] end.
  unfold reserved. simpl in *. rewrite Hd. apply leibniz_equiv, set_equiv. intros i.
  rewrite elem_of_union, elem_of_list_to_set, elem_of_dom, <- elem_of_hm_keys.
  unfold hm_keys. tauto.
Qed.

Lemma reserve_internal_reserved u st l p pm pending :
  match reserve_internal u st l p pm pending with
  | (Ok i, st') => i = u ∧ reserved st' = {[u]} ∪ reserved st
  | (Err _, st') => reserved st' = reserved st
  end.
Proof.
  destruct (reserve_internal _ _ _ _ _ _) as [[i|e] st'] eqn:E.
  - apply reserve_internal_Ok in E as (-> & _ & _ & ->). split; [done|].
    unfold reserved. simpl. by rewrite dom_insert_L.
  - by apply reserve_internal_Err in E as [-> _].
Qed.

Lemma try_reserve_reserved u st ta x p pm :
  match process_try_reserve_leaves u st ta x p pm with
  | (Ok (Success r), st') => reservation_id r = u ∧ reserved st' = {[u]} ∪ reserved st
  | (_, st') => reserved st' = reserved st
  end.
Proof.
  unfold process_try_reserve_leaves.
  pose proof (reserve_internal_reserved u st) as Hr.
  destruct (select_leaves_by_target_amounts _ _) as [tl|?].
  { specialize (Hr (amount_leaves tl ++ default [] (fee_leaves tl)) p pm 0).
    by destruct (reserve_internal _ _ _ _ _ _) as [[?|?] ?]. }
  destruct (negb x); [|by destruct (_ <=? _)].
  destruct (select_leaves_by_minimum_amount _ _) as [[sel|]|]; [|by destruct (_ <=? _)..].
  match goal with |- context [reserve_internal _ _ _ _ _ ?pc] => specialize (Hr sel p pm pc) end.
  by destruct (reserve_internal _ _ _ _ _ _) as [[?|?] ?].
Qed.

Lemma by_ids_reserved u st ids p pm :
  match process_reserve_leaves_by_ids u st ids p pm with
  | (Ok r, st') => reservation_id r = u ∧ reserved st' = {[u]} ∪ reserved st
  | (Err _, st') => reserved st' = reserved st
  end.
Proof.
  unfold process_reserve_leaves_by_ids. destruct (_ || _); [done|].
  destruct (mapR _ _) as [sel|]; [|done].
  pose proof (reserve_internal_reserved u st sel p pm 0) as Hr.
  by destruct (reserve_internal _ _ _ _ _ _) as [[?|?] ?].
Qed.

Lemma finalize_reserved t t' st i new :
  reserved (process_finalize_reservation t t' st i new).2 = reserved st ∖ {[i]} ∧
  is_Ok (process_finalize_reservation t t' st i new).1 = true.
Proof.
  unfold process_finalize_reservation, reserved. rewrite <- dom_delete_L.
  destruct (leaves_reservations st !! i) as [e|], new; simpl; repeat case_match; done.
Qed.

Lemma update_reserved t st i l c :
  match process_update_reservation t st i l c with
  | (Ok r, st') => reservation_id r = i ∧ reservation_leaves r = l ∧ reserved st' = reserved st
  | (Err _, st') => reserved st' = reserved st
  end.
Proof.
  unfold process_update_reservation. destruct (leaves_reservations st !! i) eqn:E; [|done].
  simpl. split_and!; [done| |].
  - rewrite <- list_fmap_compose. by apply list_fmap_id.
  - unfold reserved. simpl. rewrite insert_delete_eq, dom_insert_L.
    apply elem_of_dom_2 in E. set_solver.
Qed.

(** ** The laws *)

Context (uuid_new : ∀ st x, leaves_reservations st !! uuid st x = None).

#[export] Instance in_memory_laws : TreeStoreLaws (W := LeavesState * X).
Proof.
  refine {| held w := reserved w.1 |}; simpl; unfold run_command; intros; simpl; try done.
  - apply (add_leaves_reserved (now w.2) w.1 l).
  - apply (store_ancestors_reserved w.1 l).
  - pose proof (set_leaves_reserved (now w.2) w.1 l m t). by destruct (process_set_leaves _ _ _ _ _).
  - destruct (acquire _ _) as [pm|]; [|done].
    pose proof (try_reserve_reserved (uuid w.1 w.2) w.1 ta x p pm) as Hr.
    assert (uuid w.1 w.2 ∉ reserved w.1) by by apply not_elem_of_dom.
    destruct (process_try_reserve_leaves _ _ _ _ _ _) as [[[r| |]|] st']; simpl in *; try done.
    by destruct Hr as [-> ?].
  - destruct (acquire _ _) as [pm|]; [|done].
    pose proof (by_ids_reserved (uuid w.1 w.2) w.1 l p pm) as Hr.
    assert (uuid w.1 w.2 ∉ reserved w.1) by by apply not_elem_of_dom.
    destruct (process_reserve_leaves_by_ids _ _ _ _ _) as [[r|] st']; simpl in *; [|done].
    by destruct Hr as [-> ?].
  - unfold reserved. simpl. by rewrite dom_delete_L.
  - pose proof (finalize_reserved (now w.2) (now w.2) w.1 i l) as [Hf ?].
    by destruct (process_finalize_reservation _ _ _ _ _) as [[]].
  - pose proof (update_reserved (now w.2) w.1 i reserved0 change).
    by destruct (process_update_reservation _ _ _ _ _) as [[]].
Defined.

Lemma in_memory_dependable : Dependable (W := LeavesState * X).
Proof.
  split; intros; simpl; unfold run_command; simpl; try done.
  - pose proof (finalize_reserved (now w.2) (now w.2) w.1 i l) as [_ Hf].
    by destruct (process_finalize_reservation _ _ _ _ _).
Qed.
End in_memory.

(** ** A wallet with one leaf *)

#[local] Existing Instance bip68.
#[local] Instance string_order : HashIter string := canonical_iter string.

(** A supply of new ids: longer than every id in use. *)
Fixpoint long_id (n : nat) : string :=
  match n with O => "r" | S n => "r" +:+ long_id n end.

Definition new_id (st : LeavesState) (_ : nat) : string :=
  long_id (foldr max 0%nat ((λ kv, String.length kv.1) <$> map_to_list (leaves_reservations st))).

Lemma long_id_length n : String.length (long_id n) = S n.
Proof. induction n as [|n IH]; [done|]. exact (f_equal S IH). Qed.

Lemma max_in (l : list nat) n : n ∈ l → (n ≤ foldr max 0 l)%nat.
Proof. induction 1; simpl; lia. Qed.

Lemma new_id_new st x : leaves_reservations st !! new_id st x = None.
Proof.
  destruct (leaves_reservations st !! new_id st x) as [e|] eqn:E; [|done].
  apply elem_of_map_to_list in E.
  apply (list_elem_of_fmap_2 (λ kv, String.length kv.1)), max_in in E.
  unfold new_id in E at 1. simpl in E. rewrite long_id_length in E. lia.
Qed.

(** The world is the store and a clock that ticks. *)
Definition World : Type := LeavesState * nat.

#[local] Instance sample_tree_store : TreeStoreApi World :=
  in_memory_store new Z.of_nat new_id (λ _, Acquired).
#[local] Instance sample_store_laws : TreeStoreLaws :=
  in_memory_laws new Z.of_nat new_id (λ _, Acquired) new_id_new.

Definition tick (w : World) : World := (w.1, S w.2).

(** A swap service that pays out 3 and 2, and operators that renew nothing. *)
Definition swapped_leaves : list TreeNode := [bip68_node "s1" 3 None; bip68_node "s2" 2 None].

#[local] Instance sample_env : ServiceEnv World :=
  {| identity_pubkey := "key"%string : PublicKey; Client := unit; coordinator := ();
     non_coordinator_operators := [()];
     client_query_nodes _ _ w := (Ok (swapped_leaves, 0), w);
     timelock_manager_check_renew_nodes p w := (Ok p, w);
     swap_service_swap_leaves _ _ w := (Ok swapped_leaves, w);
     is_remote := false; get_public_key_for_leaf _ w := (Ok ("key"%string : PublicKey), w);
     combine a _ := Some a; wait_elapsed w := (Z.of_nat w.2, tick w);
     show_duration _ := "some time"; balance_changed w := (Changed, tick w);
     sleep_ms _ w := w; exit_state_changed := None; leaves_added w := w |}.

#[local] Instance sample_env_laws : ServiceLaws (W := World).
Proof.
  split; simpl; try done.
  - intros l a w new w' [= <- _]. split; [|repeat constructor; done].
    by apply (bool_decide_unpack _).
  - by intros p w p' w' [= <- _].
Defined.

(** One leaf worth 5; the caller wants 3. *)
Definition wallet : World := ((process_add_leaves 0 LeavesState_default [bip68_node "a" 5 None]).2, 0%nat).
Definition three : TargetAmounts := AmountAndFee 3 None.

Definition selected := select_leaves 1 (Some three) ReservationPurpose.Payment no_wait wallet.

(** What came back: the leaves' values, and the ids of the reservations held. *)
Definition summary : option (list Z * list string) :=
  match selected with
  | Some (Some (Ok r), w) => Some (value <$> reservation_leaves r, elements (held w))
  | _ => None
  end.

Lemma selected_summary : summary = Some ([3], [new_id wallet.1 0]).
Proof. vm_compute. reflexivity. Qed.

Example select_leaves_gives_back_witness :
  ∃ r w', selected = Some (Some (Ok r), w') ∧ held wallet = ∅ ∧
    held w' = {[reservation_id r]} ∪ held wallet.
Proof.
  pose proof selected_summary as Hs. unfold summary in Hs.
  destruct selected as [[[[r|e]|] w']|] eqn:E; try discriminate Hs. clear Hs.
  exists r, w'. split; [reflexivity|]. split; [reflexivity|].
  apply (select_leaves_gives_back 1 (Some three) ReservationPurpose.Payment no_wait wallet
    (Some (Ok r)) w' E).
Defined.

Example select_leaves_exact_witness :
  ∃ r w', selected = Some (Some (Ok r), w') ∧ pays_target three (reservation_leaves r).
Proof.
  pose proof selected_summary as Hs. unfold summary in Hs.
  destruct selected as [[[[r|e]|] w']|] eqn:E; try discriminate Hs.
  injection Hs as Hv _. exists r, w'. split; [reflexivity|].
  destruct (reservation_leaves r) as [|n [|]] eqn:Hr; try discriminate Hv. injection Hv as Hv.
  rewrite <- Hr.
  apply (select_leaves_exact 1 three ReservationPurpose.Payment no_wait wallet r w'); rewrite ?Hr.
  - repeat split; simpl; lia.
  - simpl. lia.
  - exact E.
  - apply NoDup_singleton.
  - constructor; [|constructor]. unfold node_wf. rewrite Hv. split; lia.
  - unfold valueZ. simpl. lia.
Defined.

(** A reader of the clock gives up waiting in the end. *)
Lemma clock_ticks : clock_runs (W := World) (λ w, Z.of_nat w.2).
Proof.
  split; simpl; [by intros w; split; [|lia]| |by intros w; lia].
  intros ta x p w. unfold run_command. by destruct (process_try_reserve_leaves _ _ _ _ _ _).
Qed.

Example select_leaves_ends_witness :
  select_leaves 12 (Some three) ReservationPurpose.Payment
    {| max_wait_for_pending := 10 |} wallet ≠ Some (None, wallet).
Proof.
  apply select_leaves_ends. right. exists (λ w : World, Z.of_nat w.2).
  split; [exact clock_ticks|]. simpl. lia.
Defined.

(** ** A refresh of two leaves, one of which an operator does not know *)

Definition n1 : @TreeNode bip68 := bip68_node "a" 5 None.
Definition n2 : @TreeNode bip68 := bip68_node "b" 2 None.

Definition two_operators : ServiceEnv World :=
  {| identity_pubkey := "key"%string : PublicKey; Client := bool; coordinator := true;
     non_coordinator_operators := [false];
     client_query_nodes c _ w := (Ok (if c : bool then [n1; n2] else [n1], 0), w);
     timelock_manager_check_renew_nodes p w := (Ok p, w);
     swap_service_swap_leaves l _ w := (Ok l, w);
     is_remote := false; get_public_key_for_leaf _ w := (Ok ("key"%string : PublicKey), w);
     combine a _ := Some a; wait_elapsed w := (0, w);
     show_duration _ := "some time"; balance_changed w := (Changed, w);
     sleep_ms _ w := w; exit_state_changed := None; leaves_added w := w |}.

Definition refreshed := refresh_leaves (ServiceEnv0 := two_operators) wallet.

Lemma refreshed_ok : match refreshed with Some (Ok (), _) => True | _ => False end.
Proof. vm_compute. exact I. Qed.

