(* ===== verification/FrostBatch.v ===== *)
(** * Batched signatures: [spark/src/utils/frost.rs]

    The user's half of a FROST signature: a job carries what is to be signed, with
    which key, and the operators' commitments; the signer answers a batch of jobs with
    one share each. The calls to the signer and the operators are the class
    [FrostEnv]; an error of the signer is its text. *)

From S2P Require Import Prelude Bitcoin BitcoinTx SparkTx TreeModel NodeWire.
From stdpp Require Import pretty.
Open Scope Z_scope.

(** [FrostDerivation], [FrostJob], [FrostShareResult] ([spark/src/signer/spark_signer.rs]) *)
Inductive FrostDerivation :=
| SigningLeaf (leaf_id : TreeNodeId)
| StaticDeposit (index : Z)
| HtlcPreimage
| Identity.

Section jobs.
Context {B : Bitcoin} `{!Codec}.

Record FrostJob {Sighash : Type} := mkFrostJob {
  fj_derivation : FrostDerivation;
  fj_sighash : Sighash;
  fj_verifying_key : PublicKey;
  fj_operator_commitments : gmap Identifier SigningCommitments;
  fj_adaptor_public_key : option PublicKey;
}.

Record FrostShareResult := mkFrostShareResult {
  share_commitment : FrostSigningCommitmentsWithNonces;
  share_signature_share : SignatureShare;
}.
End jobs.
#[global] Arguments FrostJob {_ _} _.
#[global] Arguments mkFrostJob {_ _ _} _ _ _ _ _.

Class FrostEnv {B : Bitcoin} {BT : BitcoinTx} `{!Codec} (W : Type) := {
  Sighash : Type;
  taproot_key_spend_signature_hash :
    Transaction → nat → list (TxOut ScriptBuf) → result string Sighash;
  signer_public_key_for_leaf : TreeNodeId → W → result string PublicKey * W;
  sign_frost : list (FrostJob Sighash) → W → result string (list FrostShareResult) * W;
  (** node ids, [count] and [node_id_count]; the [signing_nonce_commitments] of each entry *)
  client_get_signing_commitments : list string → Z → Z → W →
    result OperatorRpcError.t (list (gmap string Proto.SigningCommitment)) * W;
}.

(** [zip_checked]; a [SignerError] is its text. *)
Definition zip_checked {S T} (shares : list S) (pending : list T) : result string (list (T * S)) :=
  if negb (length shares =? length pending)%nat then
    Err ("generic error: sign_frost returned " +:+ pretty (Z.of_nat (length shares)) +:+
         " shares, expected " +:+ pretty (Z.of_nat (length pending)))
  else Ok (zip pending shares).

(** [x?] where [x] is a [Result] of another error type. *)
Definition map_err {E F A} (f : E → F) (r : result E A) : result F A :=
  match r with Ok a => Ok a | Err e => Err (f e) end.

Section batch.
Context {B : Bitcoin} {BT : BitcoinTx} `{!Codec} {W : Type} `{!FrostEnv W}.

(** [spark/src/bitcoin/service.rs] *)
Definition sighash_from_tx (tx : Transaction) (input_index : nat) (prev_output : TxOut ScriptBuf)
    : result string Sighash :=
  taproot_key_spend_signature_hash tx input_index (replicate (length (tx_input tx)) prev_output).

Definition sign_frost_batch {T} (jobs : list (FrostJob Sighash)) (pending : list T)
    : proc W (result string (list (T * FrostShareResult))) :=
  shares ←? call (sign_frost jobs); mret (zip_checked shares pending).

Definition rpc {A} (f : W → result OperatorRpcError.t A * W) : proc W (ServiceResult A) :=
  r ← call f; mret (map_err ServiceError.ServiceConnectionError r).

Definition signer {A} (m : proc W (result string A)) : proc W (ServiceResult A) :=
  r ← m; mret (map_err ServiceError.SignerError r).

End batch.

(** ** What is signed *)

(** The key of each leaf, and the jobs given to the signer so far. *)
Class FrostLaws `{FrostEnv W} := {
  key_of : TreeNodeId → PublicKey;
  frost_log : W → list (FrostJob Sighash);
  key_of_leaf i w k w' : signer_public_key_for_leaf i w = (Ok k, w') → k = key_of i;
  log_key i w : frost_log (signer_public_key_for_leaf i w).2 = frost_log w;
  log_sign jobs w : frost_log (sign_frost jobs w).2 = frost_log w ++ jobs;
  log_commitments ids n m w :
    frost_log (client_get_signing_commitments ids n m w).2 = frost_log w;
}.

Section signs.
Context `{FrostLaws W}.
Implicit Types (P : FrostJob Sighash → Prop).

(** A call whose signing jobs all satisfy [P]. *)
Definition signs_only {A} P (m : proc W A) : Prop :=
  ∀ w, ends_in m w (λ _ w', ∃ js, frost_log w' = frost_log w ++ js ∧ Forall P js).

Lemma signs_alone {A} P (m : proc W A) : leaves_alone frost_log m → signs_only P m.
Proof.
  intros Hm w. eapply ends_in_weaken; [apply Hm|]. intros a w' ->. exists [].
  by rewrite app_nil_r.
Qed.

Lemma signs_bind {A A'} P (m : proc W A) (f : A → proc W A') :
  signs_only P m → (∀ a, signs_only P (f a)) → signs_only P (m ≫= f).
Proof.
  intros Hm Hf w. apply ends_in_bind. eapply ends_in_weaken; [apply Hm|].
  intros a w1 (js & Hw1 & Hjs). eapply ends_in_weaken; [apply Hf|].
  intros a' w2 (js' & -> & Hjs'). exists (js ++ js').
  rewrite Hw1, app_assoc. split; [done|]. by apply Forall_app.
Qed.

Lemma signs_try {E A A'} P (m : proc W (result E A)) (f : A → proc W (result E A')) :
  signs_only P m → (∀ a, signs_only P (f a)) → signs_only P (try_bind m f).
Proof. intros Hm Hf. apply signs_bind; [done|]. intros [a|e]; [apply Hf|by apply signs_alone]. Qed.

Lemma signs_ret {A} P (a : A) : signs_only P (mret a).
Proof. apply signs_alone, alone_ret. Qed.

Lemma signs_panic_or {A} P (o : option A) : signs_only P (panic_or o).
Proof. apply signs_alone, alone_panic. Qed.

Lemma signs_weaken {A} P Q (m : proc W A) :
  signs_only P m → (∀ j, P j → Q j) → signs_only Q m.
Proof.
  intros Hm HPQ w. eapply ends_in_weaken; [apply Hm|].
  intros a w' (js & ? & Hjs). exists js. split; [done|]. by eapply Forall_impl.
Qed.

Lemma signs_ok {E A A'} P (a : A) (f : A → proc W (result E A')) :
  signs_only P (f a) → signs_only P (try_bind (mret (Ok a)) f).
Proof. done. Qed.

(** Step past a call that returns [a], for the rest only when it did. *)
Lemma signs_panic {E A A'} P (o : option (result E A)) (f : A → proc W (result E A')) :
  (∀ a, o = Some (Ok a) → signs_only P (f a)) → signs_only P (try_bind (panic_or o) f).
Proof.
  intros Hf. destruct o as [[a|e]|] eqn:Ho; intros w; unfold try_bind, panic_or, ends_in; simpl.
  - unfold mbind, proc_bind. by apply Hf.
  - exists []. by rewrite app_nil_r.
  - done.
Qed.

Lemma signs_join {A A'} P (f : A → proc W A') l :
  Forall (λ a, signs_only P (f a)) l → signs_only P (join_all f l).
Proof.
  induction 1 as [|a l Ha _ IH]; simpl; [apply signs_ret|].
  apply signs_bind; [done|]. intros b. apply signs_bind; [done|]. intros ?. apply signs_ret.
Qed.

Lemma rpc_alone {A} (f : W → result OperatorRpcError.t A * W) :
  (∀ w, frost_log (f w).2 = frost_log w) → leaves_alone frost_log (rpc f).
Proof. intros Hf. unfold rpc. eauto with alone. Qed.
End signs.
