(* ===== verification/FrostSample.v ===== *)
(** * A signer to evaluate on

    A world that records what was signed, over the instances of [BitcoinTx] and the
    small tree of [ExitSample]: keys are named after their leaves, every batch of jobs
    is answered with as many shares. *)

From S2P Require Import Prelude Bitcoin BitcoinTx SparkTx TreeModel NodeWire ExitSample FrostBatch.
Open Scope Z_scope.

Definition sample_codec : @Codec btc68.
Proof.
  by refine {|
    Identifier_countable := _ : Countable (@Identifier btc68);
    NonceCommitment := unit; SignatureShare := unit;
    hex_decode _ := Some []; hex_encode _ := ""%string;
    identifier_deserialize _ := Some ("operator"%string : @Identifier btc68);
    identifier_serialize _ := [];
    public_key_from_slice _ := Some ("vk"%string : @PublicKey btc68); public_key_serialize _ := [];
    deserialize bytes := Some a_tx; serialize _ := [];
    nonce_deserialize _ := Some (); nonce_serialize _ := Ok []; share_serialize _ := []
  |}.
Defined.

#[local] Existing Instances btc68 btctx68 sample_codec.

(** [count ids n m] commitments are returned for a request. *)
Definition sample_frost (count : list string → Z → Z → Z)
    : @FrostEnv btc68 btctx68 sample_codec (list (FrostJob tx68)).
Proof.
  by refine {|
    Sighash := tx68;
    FrostBatch.taproot_key_spend_signature_hash := (λ t _ _, Ok t)
      : @Transaction btc68 → nat → list (TxOut (list Z)) → result string tx68;
    signer_public_key_for_leaf i w := (Ok (("leaf key " +:+ i)%string : @PublicKey btc68), w);
    sign_frost jobs w := (Ok (replicate (length jobs)
      (mkFrostShareResult {| commitments := mkSigningCommitments () (); nonces_ciphertext := [] |} ())),
      w ++ jobs);
    client_get_signing_commitments ids n m w := (Ok (replicate (Z.to_nat (count ids n m)) ∅), w) |}.
Defined.

Definition sample_frost_laws count : FrostLaws (H0 := sample_frost count).
Proof.
  unshelve refine (Build_FrostLaws _ _ _ _ (sample_frost count)
    (λ i, (("leaf key " +:+ i)%string : @PublicKey btc68)) (λ w, w) _ _ _ _); try done.
  by intros i w k w' [= <- _].
Defined.

(** ** A world with another part beside it *)

Definition beside {W E A} (f : W → A * W) (w : W * E) : A * (W * E) :=
  ((f w.1).1, ((f w.1).2, w.2)).

Definition frost_beside `{F : FrostEnv W} (E : Type) : FrostEnv (W * E) := {|
  Sighash := Sighash;
  FrostBatch.taproot_key_spend_signature_hash := taproot_key_spend_signature_hash;
  signer_public_key_for_leaf i := beside (signer_public_key_for_leaf i);
  sign_frost jobs := beside (sign_frost jobs);
  client_get_signing_commitments ids n m := beside (client_get_signing_commitments ids n m);
|}.

Definition frost_beside_laws `{L : FrostLaws W} (E : Type) : FrostLaws (H0 := frost_beside E).
Proof.
  unshelve refine (Build_FrostLaws _ _ _ _ (frost_beside E) key_of (λ w, frost_log w.1) _ _ _ _).
  - intros i w k w' Hk. simpl in Hk. unfold beside in Hk.
    destruct (signer_public_key_for_leaf i w.1) as [r w1] eqn:Hr. simpl in Hk. injection Hk as -> _.
    by eapply key_of_leaf.
  - intros i w. exact (@log_key _ _ _ _ _ L i w.1).
  - intros jobs w. exact (@log_sign _ _ _ _ _ L jobs w.1).
  - intros ids n m w. exact (@log_commitments _ _ _ _ _ L ids n m w.1).
Defined.
