(* ===== verification/RefundJobs.v ===== *)
(** * Refunds of leaves that change hands: [spark/src/utils/refund.rs]

    When a leaf is sent, its refund transactions are rebuilt in favour of the receiver
    and signed by the sender; when it is claimed, in favour of the new owner. The jobs
    of all leaves are signed in one batch ([services/models.rs]); the refunds of a leaf
    that pays for a preimage go to a hash-locked script ([utils/htlc_transactions.rs]). *)

From S2P Require Import Prelude Bitcoin BitcoinTx Timelock SparkTx TreeModel NodeWire FrostBatch.
From stdpp Require Import pretty.
Open Scope Z_scope.

(** ** Hash-locked refunds: [utils/htlc_transactions.rs] *)

Definition LIGHTNING_HTLC_TIME_LOCK : Z := 2160.
Definition UNSPENDABLE_PUBKEY : string :=
  "0250929b74c1a04954b78b4b6035e97a5e078a5a0f28ec96d547bfee9ace803ac0".

Definition OP_DROP : Z := 0x75.
Definition OP_EQUALVERIFY : Z := 0x88.
Definition OP_SHA256 : Z := 0xa8.
Definition OP_CHECKSIG : Z := 0xac.
Definition OP_CSV : Z := 0xb2.

(** The calls on a [script::Builder]. *)
Inductive Instruction `{Bitcoin} :=
| push_opcode (opcode : Z)
| push_slice (bytes : list Z)
| push_x_only_key (key : PublicKey)
| push_int (n : Z).

(** Keys, scripts and the identity key of the signer. *)
Class RefundEnv {B : Bitcoin} {BT : BitcoinTx} `{!Codec} (W : Type) := {
  refund_frost :: FrostEnv W;
  get_identity_public_key : W → result string PublicKey * W;
  (** [PublicKey::from_str(..).ok()], [negate], [combine]; an error is its text *)
  public_key_from_str : string → option PublicKey;
  negate : PublicKey → PublicKey;
  combine_keys : PublicKey → PublicKey → result string PublicKey;
  into_script : list Instruction → ScriptBuf;
  (** a [TaprootBuilder] with these leaves in order, finalized for the internal key, and
      [Address::p2tr] of the result; the text of the [SignerError] *)
  p2tr_of_leaves : PublicKey → list (Z * ScriptBuf) → result string ScriptBuf;
}.

Section htlc.
Context {B : Bitcoin} {BT : BitcoinTx} `{!Codec} {W : Type} `{!RefundEnv W}.

Definition create_hash_lock_script (hash : list Z) (hash_lock_pubkey : PublicKey) : ScriptBuf :=
  into_script [push_opcode OP_SHA256; push_slice hash; push_opcode OP_EQUALVERIFY;
               push_x_only_key hash_lock_pubkey; push_opcode OP_CHECKSIG].

Definition create_sequence_lock_script (sequence : Sequence) (sequence_lock_pubkey : PublicKey)
    : ScriptBuf :=
  into_script [push_int (to_consensus_u32 sequence); push_opcode OP_CSV; push_opcode OP_DROP;
               push_x_only_key sequence_lock_pubkey; push_opcode OP_CHECKSIG].

Definition create_htlc_taproot_address (hash : list Z) (hash_lock_pubkey : PublicKey)
    (sequence : Sequence) (sequence_lock_pubkey : PublicKey) : result string ScriptBuf :=
  unspendable_pubkey ← ok_or (public_key_from_str UNSPENDABLE_PUBKEY) "unknown key";
  let hash_lock_script := create_hash_lock_script hash hash_lock_pubkey in
  let sequence_lock_script := create_sequence_lock_script sequence sequence_lock_pubkey in
  p2tr_of_leaves unspendable_pubkey [(1, hash_lock_script); (1, sequence_lock_script)].

Record CreateLightningHtlcTxsParams := {
  htlc_previous_output : OutPoint Txid;
  htlc_sequence : Sequence;
  htlc_value : Z;
  htlc_hash : list Z;
  htlc_hash_lock_pubkey : PublicKey;
  htlc_sequence_lock_pubkey : PublicKey;
  htlc_apply_fee : bool;
  htlc_include_anchor : bool;
}.

(** [Sequence::from_height] of a height is the height. *)
Definition create_lightning_htlc_tx (params : CreateLightningHtlcTxsParams)
    : result string Transaction :=
  script_pubkey ← create_htlc_taproot_address (htlc_hash params) (htlc_hash_lock_pubkey params)
    (from_consensus LIGHTNING_HTLC_TIME_LOCK) (htlc_sequence_lock_pubkey params);
  Ok (create_spark_tx (htlc_previous_output params) (htlc_sequence params) (htlc_value params)
        script_pubkey (htlc_apply_fee params) (htlc_include_anchor params)).

Record CreateLightningHtlcRefundTxsParams := {
  clr_node_tx : Transaction;
  clr_direct_tx : option Transaction;
  clr_cpfp_sequence : Sequence;
  clr_direct_sequence : Sequence;
  clr_hash : list Z;
  clr_hash_lock_pubkey : PublicKey;
  clr_sequence_lock_pubkey : PublicKey;
}.

(** [None] when a transaction has no output 0. *)
Definition create_lightning_htlc_refund_txs (params : CreateLightningHtlcRefundTxsParams)
    : option (result string RefundTransactions) :=
  node_out ← tx_output (clr_node_tx params) !! 0%nat;
  let cpfp_outpoint := mkOutPoint (compute_txid (clr_node_tx params)) 0 in
  let htlc_tx previous_output sequence value apply_fee include_anchor := create_lightning_htlc_tx {|
    htlc_previous_output := previous_output; htlc_sequence := sequence; htlc_value := value;
    htlc_hash := clr_hash params; htlc_hash_lock_pubkey := clr_hash_lock_pubkey params;
    htlc_sequence_lock_pubkey := clr_sequence_lock_pubkey params;
    htlc_apply_fee := apply_fee; htlc_include_anchor := include_anchor |} in
  match htlc_tx cpfp_outpoint (clr_cpfp_sequence params) (txout_value node_out) false true with
  | Err e => Some (Err e)
  | Ok cpfp_tx =>
      direct_tx ← match clr_direct_tx params with
        | None => Some (Ok None)
        | Some tx =>
            direct_out ← tx_output tx !! 0%nat;
            Some (tx ← htlc_tx (mkOutPoint (compute_txid tx) 0) (clr_direct_sequence params)
                         (txout_value direct_out) true false; Ok (Some tx))
        end;
      Some (direct_tx ← direct_tx;
            direct_from_cpfp_tx ← htlc_tx cpfp_outpoint (clr_direct_sequence params)
              (txout_value node_out) true false;
            Ok {| refund_cpfp_tx := cpfp_tx; refund_direct_tx := direct_tx;
                  refund_direct_from_cpfp_tx := Some direct_from_cpfp_tx |})
  end.
End htlc.

(** ** Batches of refunds: [services/models.rs] *)

Section jobs.
Context {B : Bitcoin} {BT : BitcoinTx} `{!Codec} {W : Type} `{!FrostEnv W}.

Record PendingRefundSignature := {
  prs_node_id : TreeNodeId;
  prs_signing_public_key : PublicKey;
  prs_refund_tx : Transaction;
  prs_operator_commitments : gmap Identifier SigningCommitments;
}.

Record RefundJob := mkRefundJob { job : FrostJob Sighash; pending : PendingRefundSignature }.

Record LeafRefundJobs := mkLeafRefundJobs {
  lrj_cpfp : RefundJob;
  lrj_direct : option RefundJob;
  lrj_direct_from_cpfp : option RefundJob;
}.

Record SignedLeafRefunds := mkSignedLeafRefunds {
  slr_cpfp : SignedTx;
  slr_direct : option SignedTx;
  slr_direct_from_cpfp : option SignedTx;
}.

Record LeafRefundShape := { has_direct : bool; has_direct_from_cpfp : bool }.

Definition into_signed_tx (self : PendingRefundSignature) (share : FrostShareResult) : SignedTx :=
  {| stx_node_id := prs_node_id self; stx_signing_public_key := prs_signing_public_key self;
     stx_tx := prs_refund_tx self; stx_user_signature := share_signature_share share;
     stx_signing_commitments := prs_operator_commitments self;
     stx_self_nonce_commitment := share_commitment share |}.

(** The order of [flatten_into] and [rebuild]. *)
Definition leaf_jobs (self : LeafRefundJobs) : list RefundJob :=
  lrj_cpfp self :: option_list (lrj_direct self) ++ option_list (lrj_direct_from_cpfp self).

Definition flatten_into (self : LeafRefundJobs)
    (buffers : list (FrostJob Sighash) * list PendingRefundSignature)
    : LeafRefundShape * (list (FrostJob Sighash) * list PendingRefundSignature) :=
  let shape := {| has_direct := bool_decide (is_Some (lrj_direct self));
                  has_direct_from_cpfp := bool_decide (is_Some (lrj_direct_from_cpfp self)) |} in
  (shape, foldl (λ '(jobs, pendings) refund, (jobs ++ [job refund], pendings ++ [pending refund]))
            buffers (leaf_jobs self)).

(** The iterator over the signed transactions is the list of those left. *)
Definition next_signed (signed : list SignedTx) : result string SignedTx * list SignedTx :=
  match signed with
  | s :: signed => (Ok s, signed)
  | [] => (Err "generic error: sign_frost returned too few shares", [])
  end.

Definition next_signed_if (present : bool) (signed : list SignedTx)
    : result string (option SignedTx) * list SignedTx :=
  if present then let '(r, signed) := next_signed signed in (s ← r; Ok (Some s), signed)
  else (Ok None, signed).

Definition rebuild (self : LeafRefundShape) : proc (list SignedTx) (result string SignedLeafRefunds) :=
  cpfp ←? call next_signed;
  direct ←? call (next_signed_if (has_direct self));
  direct_from_cpfp ←? call (next_signed_if (has_direct_from_cpfp self));
  mret (Ok (mkSignedLeafRefunds cpfp direct direct_from_cpfp)).

(** [leaves.into_iter().map(|leaf| leaf.flatten_into(..)).collect()] *)
Definition flatten_all (leaves : list LeafRefundJobs)
    : list LeafRefundShape * (list (FrostJob Sighash) * list PendingRefundSignature) :=
  foldl (λ '(shapes, buffers) leaf,
    let '(shape, buffers) := flatten_into leaf buffers in (shapes ++ [shape], buffers))
    ([], ([], [])) leaves.

Definition sign_leaf_refunds (leaves : list LeafRefundJobs)
    : proc W (result string (list SignedLeafRefunds)) :=
  let '(shapes, (jobs, pendings)) := flatten_all leaves in
  signed ←? sign_frost_batch jobs pendings;
  let signed := (λ '(p, share), into_signed_tx p share) <$> signed in
  refunds ← panic_or (fst <$> try_all rebuild shapes signed);
  mret refunds.

Definition into_signed_tx_groups (signed : list SignedLeafRefunds)
    : list SignedTx * list SignedTx * list SignedTx :=
  foldl (λ '(cpfp, direct, direct_from_cpfp) s,
    (cpfp ++ [slr_cpfp s], direct ++ option_list (slr_direct s),
     direct_from_cpfp ++ option_list (slr_direct_from_cpfp s))) ([], [], []) signed.

Definition to_jobs `{!HashIter Identifier} (txs : list SignedTx)
    : ServiceResult (list Proto.UserSignedTxSigningJob) :=
  mapR signed_tx_try_into txs.

Definition into_user_signed_job_groups `{!HashIter Identifier} (signed : list SignedLeafRefunds)
    : ServiceResult (list Proto.UserSignedTxSigningJob * list Proto.UserSignedTxSigningJob *
                     list Proto.UserSignedTxSigningJob) :=
  let '(cpfp, direct, direct_from_cpfp) := into_signed_tx_groups signed in
  cpfp ← to_jobs cpfp; direct ← to_jobs direct; direct_from_cpfp ← to_jobs direct_from_cpfp;
  Ok (cpfp, direct, direct_from_cpfp).

Definition build_refund_signing_job (node_id : TreeNodeId) (verifying_key signing_public_key : PublicKey)
    (refund_tx : Transaction) (sighash : Sighash)
    (operator_commitments : gmap Identifier SigningCommitments)
    (adaptor_public_key : option PublicKey) : RefundJob :=
  mkRefundJob
    (mkFrostJob (SigningLeaf node_id) sighash verifying_key operator_commitments adaptor_public_key)
    {| prs_node_id := node_id; prs_signing_public_key := signing_public_key;
       prs_refund_tx := refund_tx; prs_operator_commitments := operator_commitments |}.

(** [usize] has 64 bits. *)
Definition split_signing_commitments_by_variant {T} (commitments : list T) (node_id_count : nat)
    : ServiceResult (list T * list T * list T) :=
  if (node_id_count =? 0)%nat then
    Err (ServiceError.InvalidInput "cannot request signing commitments for zero nodes")
  else if negb (3 * Z.of_nat node_id_count <? 2 ^ 64) then
    Err (ServiceError.InvalidInput "node count overflow computing commitment total")
  else
    let expected := (3 * node_id_count)%nat in
    if negb (length commitments =? expected)%nat then
      Err (ServiceError.Generic ("expected " +:+ pretty (Z.of_nat expected) +:+
        " signing commitments, got " +:+ pretty (Z.of_nat (length commitments))))
    else
      let cpfp := take node_id_count commitments in
      let rest := drop node_id_count commitments in
      Ok (cpfp, take node_id_count rest, drop node_id_count rest).

(** [incoming_key] is the ciphertext of the key. *)
Record LeafKeyTweak := { lkt_node : TreeNode; incoming_key : option (list Z) }.

(** [utils/leaf_key_tweak.rs] *)
Definition prepare_leaf_key_tweaks_to_send (leaves : list TreeNode) : list LeafKeyTweak :=
  (λ leaf, {| lkt_node := leaf; incoming_key := None |}) <$> leaves.
End jobs.

(** ** The refunds a sender signs: [utils/refund.rs] *)

Section refund.
Context {B : Bitcoin} {BT : BitcoinTx} `{!Codec} {W : Type} `{!RefundEnv W}.

Record SignRefundsParams := {
  srp_leaves : list LeafKeyTweak;
  srp_cpfp_signing_commitments : list (gmap Identifier SigningCommitments);
  srp_direct_signing_commitments : list (gmap Identifier SigningCommitments);
  srp_direct_from_cpfp_signing_commitments : list (gmap Identifier SigningCommitments);
  srp_receiver_pubkey : PublicKey;
  srp_payment_hash : option (list Z);
  srp_cpfp_adaptor_public_key : option PublicKey;
}.

Record SignedRefundTransactions := {
  cpfp_signed_tx : list SignedTx;
  direct_signed_tx : list SignedTx;
  direct_from_cpfp_signed_tx : list SignedTx;
}.

Definition generic_error {A} (msg : string) : result string A := Err ("generic error: " +:+ msg).

(** [utils/frost.rs] *)
Definition derive_leaf_signing_public_key (node : TreeNode) : result string PublicKey :=
  let se_share := negate (ks_public_key (signing_keyshare node)) in
  match combine_keys (verifying_public_key node) se_share with
  | Ok key => Ok key
  | Err e => generic_error ("failed to derive leaf signing key: " +:+ e)
  end.

Definition build_refund_job (leaf : LeafKeyTweak) (tx refund_tx : Transaction)
    (signing_public_key : PublicKey) (spark_commitments : gmap Identifier SigningCommitments)
    (adaptor_public_key : option PublicKey) : proc W (result string RefundJob) :=
  out ← panic_or (tx_output tx !! 0%nat);
  sighash ←? mret (map_err (λ e, "generic error: " +:+ e) (sighash_from_tx refund_tx 0 out));
  mret (Ok (build_refund_signing_job (id (lkt_node leaf)) (verifying_public_key (lkt_node leaf))
              signing_public_key refund_tx sighash spark_commitments adaptor_public_key)).

(** The refund transactions of one leaf. *)
Definition leaf_refund_txs (identity_pubkey : PublicKey) (params : SignRefundsParams)
    (node_tx : Transaction) (direct_tx : option Transaction) (old_sequence : Sequence)
    : proc W (result string RefundTransactions) :=
  match srp_payment_hash params with
  | Some payment_hash =>
      match next_lightning_htlc_sequence old_sequence with
      | None => mret (generic_error "Failed to get next lightning HTLC sequences")
      | Some (cpfp_sequence, direct_sequence) =>
          panic_or (create_lightning_htlc_refund_txs {|
            clr_node_tx := node_tx; clr_direct_tx := direct_tx;
            clr_cpfp_sequence := cpfp_sequence; clr_direct_sequence := direct_sequence;
            clr_hash := payment_hash; clr_hash_lock_pubkey := srp_receiver_pubkey params;
            clr_sequence_lock_pubkey := identity_pubkey |})
      end
  | None =>
      match next_sequence old_sequence with
      | None => mret (generic_error "Failed to get next sequence")
      | Some (cpfp_sequence, direct_sequence) =>
          txs ← panic_or (create_refund_txs node_tx direct_tx cpfp_sequence direct_sequence
                            (srp_receiver_pubkey params));
          mret (Ok txs)
      end
  end.

(** One round of the loop over the leaves; an index past the commitments panics. *)
Definition leaf_refund_jobs (identity_pubkey : PublicKey) (params : SignRefundsParams)
    (i : nat) (leaf : LeafKeyTweak) : proc W (result string LeafRefundJobs) :=
  let node_tx := node_tx (lkt_node leaf) in
  direct_tx ← panic_or (direct_refund_tx_method (lkt_node leaf));
  refund_tx ←? mret (match refund_tx (lkt_node leaf) with
    | Some tx => Ok tx | None => generic_error "No refund transaction" end);
  old_sequence ← panic_or (input_sequences refund_tx !! 0%nat);
  txs ←? leaf_refund_txs identity_pubkey params node_tx direct_tx old_sequence;
  _ ← panic_or (tx_input (refund_cpfp_tx txs) !! 0%nat);
  signing_public_key ←? mret (derive_leaf_signing_public_key (lkt_node leaf));
  commitments ← panic_or (srp_cpfp_signing_commitments params !! i);
  cpfp ←? build_refund_job leaf node_tx (refund_cpfp_tx txs) signing_public_key commitments
            (srp_cpfp_adaptor_public_key params);
  direct ←? match direct_tx with
    | None => mret (Ok None)
    | Some direct_tx =>
        match refund_direct_tx txs with
        | None => mret (generic_error "Direct refund transaction is missing")
        | Some direct_refund_tx =>
            commitments ← panic_or (srp_direct_signing_commitments params !! i);
            job ←? build_refund_job leaf direct_tx direct_refund_tx signing_public_key commitments None;
            mret (Ok (Some job))
        end
    end;
  direct_from_cpfp ←? match refund_direct_from_cpfp_tx txs with
    | None => mret (Ok None)
    | Some direct_from_cpfp_refund_tx =>
        commitments ← panic_or (srp_direct_from_cpfp_signing_commitments params !! i);
        job ←? build_refund_job leaf node_tx direct_from_cpfp_refund_tx signing_public_key
                 commitments None;
        mret (Ok (Some job))
    end;
  mret (Ok (mkLeafRefundJobs cpfp direct direct_from_cpfp)).

Definition sign_refunds (params : SignRefundsParams)
    : proc W (result string SignedRefundTransactions) :=
  identity_pubkey ←? call get_identity_public_key;
  leaf_jobs ←? try_all (λ '(i, leaf), leaf_refund_jobs identity_pubkey params i leaf)
                 (imap pair (srp_leaves params));
  signed ←? sign_leaf_refunds leaf_jobs;
  let '(cpfp_signed_tx, direct_signed_tx, direct_from_cpfp_signed_tx) := into_signed_tx_groups signed in
  mret (Ok {| cpfp_signed_tx := cpfp_signed_tx; direct_signed_tx := direct_signed_tx;
              direct_from_cpfp_signed_tx := direct_from_cpfp_signed_tx |}).
End refund.
