(* ===== verification/RefundJobsSpec.v ===== *)
(** * What the refunds of sent leaves carry and pay

    Every refund gets the share that was made for it, in the place it belongs; and
    every share a sender signs is over a refund to the receiver that becomes valid
    before the sender's own. *)

From S2P Require Import Prelude Bitcoin BitcoinTx Timelock SparkTx TreeModel NodeWire FrostBatch RefundJobs.
From S2P Require Import ExitSample FrostSample.
Open Scope Z_scope.

(** ** Shares and refunds *)

Section batch.
Context {B : Bitcoin} {BT : BitcoinTx} `{!Codec} {W : Type} `{!FrostEnv W}.
Implicit Types (leaf : LeafRefundJobs) (s : SignedLeafRefunds).

Definition all_jobs (leaves : list LeafRefundJobs) : list RefundJob := concat (leaf_jobs <$> leaves).

Definition shape_of leaf : LeafRefundShape :=
  {| has_direct := bool_decide (is_Some (lrj_direct leaf));
     has_direct_from_cpfp := bool_decide (is_Some (lrj_direct_from_cpfp leaf)) |}.

Lemma push_all (l : list RefundJob) jobs pendings :
  foldl (λ '(jobs, pendings) refund, (jobs ++ [job refund], pendings ++ [pending refund]))
    (jobs, pendings) l = (jobs ++ (job <$> l), pendings ++ (pending <$> l)).
Proof.
  revert jobs pendings. induction l as [|j l IH]; intros jobs pendings; csimpl; [by rewrite !app_nil_r|].
  by rewrite IH, <- !app_assoc.
Qed.

Lemma flatten_all_eq leaves :
  flatten_all leaves =
    (shape_of <$> leaves, (job <$> all_jobs leaves, pending <$> all_jobs leaves)).
Proof.
  unfold flatten_all.
  assert (∀ shapes jobs pendings,
    foldl (λ '(shapes, buffers) leaf,
      let '(shape, buffers) := flatten_into leaf buffers in (shapes ++ [shape], buffers))
      (shapes, (jobs, pendings)) leaves =
    (shapes ++ (shape_of <$> leaves),
      (jobs ++ (job <$> all_jobs leaves), pendings ++ (pending <$> all_jobs leaves)))) as ->; [|done].
  unfold all_jobs. induction leaves as [|leaf leaves IH]; intros shapes jobs pendings; csimpl.
  { by rewrite !app_nil_r. }
  unfold flatten_into. rewrite push_all. rewrite IH, !fmap_app, <- !app_assoc. done.
Qed.

(** A leaf's signed refunds, in the order of its jobs. *)
Definition signed_list s : list SignedTx :=
  slr_cpfp s :: option_list (slr_direct s) ++ option_list (slr_direct_from_cpfp s).

Definition same_shape leaf s : Prop :=
  (is_Some (lrj_direct leaf) ↔ is_Some (slr_direct s)) ∧
  (is_Some (lrj_direct_from_cpfp leaf) ↔ is_Some (slr_direct_from_cpfp s)).

Lemma rebuild_eq leaf (txs rest : list SignedTx) :
  length txs = length (leaf_jobs leaf) →
  ∃ s, rebuild (shape_of leaf) (txs ++ rest) = Some (Ok s, rest) ∧
    same_shape leaf s ∧ signed_list s = txs.
Proof.
  destruct leaf as [c d f]. unfold leaf_jobs, same_shape. simpl. intros Hlen.
  destruct txs as [|t txs]; [done|]. injection Hlen as Hlen.
  assert (∀ (A C : Type) (a : A) (c : C), is_Some (Some a) ↔ is_Some (Some c)) as Hsome by (split; eauto).
  assert (∀ A C : Type, is_Some (@None A) ↔ is_Some (@None C)) as Hnone by (split; intros [? [=]]).
  destruct d as [d|], f as [f|]; simpl in Hlen.
  - destruct txs as [|t1 [|t2 [|]]]; try done. exists (mkSignedLeafRefunds t (Some t1) (Some t2)).
    by split_and!; simpl.
  - destruct txs as [|t1 [|]]; try done. exists (mkSignedLeafRefunds t (Some t1) None).
    by split_and!; simpl.
  - destruct txs as [|t1 [|]]; try done. exists (mkSignedLeafRefunds t None (Some t1)).
    by split_and!; simpl.
  - destruct txs as [|]; [|done]. exists (mkSignedLeafRefunds t None None).
    by split_and!; simpl.
Qed.

Lemma rebuild_all_eq leaves (txs : list SignedTx) :
  length txs = length (all_jobs leaves) →
  ∃ signed, try_all rebuild (shape_of <$> leaves) txs = Some (Ok signed, []) ∧
    Forall2 same_shape leaves signed ∧ concat (signed_list <$> signed) = txs.
Proof.
  revert txs. induction leaves as [|leaf leaves IH]; intros txs Hlen.
  { apply nil_length_inv in Hlen as ->. exists []. by split_and!. }
  change (all_jobs (leaf :: leaves)) with (leaf_jobs leaf ++ all_jobs leaves) in Hlen.
  rewrite length_app in Hlen. csimpl. rewrite <- (take_drop (length (leaf_jobs leaf)) txs).
  destruct (rebuild_eq leaf (take (length (leaf_jobs leaf)) txs) (drop (length (leaf_jobs leaf)) txs))
    as (s & Hs & Hshape & Hl); [rewrite length_take; lia|].
  destruct (IH (drop (length (leaf_jobs leaf)) txs)) as (signed & Hsigned & Hshapes & Hcat);
    [rewrite length_drop; lia|].
  exists (s :: signed). unfold try_bind, mbind, proc_bind at 1. rewrite Hs.
  unfold mbind, proc_bind in *. rewrite Hsigned. split_and!; [done|by constructor|].
  change (signed_list s ++ concat (signed_list <$> signed) =
    take (length (leaf_jobs leaf)) txs ++ drop (length (leaf_jobs leaf)) txs). congruence.
Qed.

(** A batch comes back as it went out. *)
Lemma sign_leaf_refunds_spec leaves w :
  let jobs := all_jobs leaves in
  ∃ r, sign_leaf_refunds leaves w = Some (r, (sign_frost (job <$> jobs) w).2) ∧
  match (sign_frost (job <$> jobs) w).1 with
  | Err e => r = Err e
  | Ok shares =>
      if (length shares =? length jobs)%nat then
        ∃ signed, r = Ok signed ∧ Forall2 same_shape leaves signed ∧
          concat (signed_list <$> signed) =
            zip_with (λ j share, into_signed_tx (pending j) share) jobs shares
      else is_Ok r = false
  end.
Proof.
  intros jobs. unfold sign_leaf_refunds, sign_frost_batch, try_bind, mbind, proc_bind, call.
  rewrite flatten_all_eq. fold jobs.
  destruct (sign_frost (job <$> jobs) w) as [[shares|e] w']; simpl; [|by eexists].
  unfold zip_checked. rewrite length_fmap.
  destruct (length shares =? length jobs)%nat eqn:Hlen; simpl; [|by eexists].
  apply Nat.eqb_eq in Hlen.
  assert ((λ '(p, share), into_signed_tx p share) <$> zip (pending <$> jobs) shares =
    zip_with (λ j share, into_signed_tx (pending j) share) jobs shares) as Htxs.
  { clear -Hlen. revert shares Hlen.
    induction jobs as [|j jobs IH]; intros [|sh shares] Hlen; try done.
    csimpl. f_equal. apply IH. by injection Hlen. }
  rewrite Htxs.
  destruct (rebuild_all_eq leaves (zip_with (λ j share, into_signed_tx (pending j) share) jobs shares))
    as (signed & -> & Hshape & Hcat); [rewrite length_zip_with; fold jobs; lia|].
  simpl. eexists. split; [done|]. by exists signed.
Qed.

(** The buckets keep the order of the leaves. *)
Lemma signed_tx_groups (signed : list SignedLeafRefunds) :
  into_signed_tx_groups signed =
    (slr_cpfp <$> signed, omap slr_direct signed, omap slr_direct_from_cpfp signed).
Proof.
  unfold into_signed_tx_groups.
  assert (∀ c d f, foldl (λ '(cpfp, direct, direct_from_cpfp) s,
    (cpfp ++ [slr_cpfp s], direct ++ option_list (slr_direct s),
     direct_from_cpfp ++ option_list (slr_direct_from_cpfp s))) (c, d, f) signed =
    (c ++ (slr_cpfp <$> signed), d ++ omap slr_direct signed, f ++ omap slr_direct_from_cpfp signed))
    as ->; [|done].
  induction signed as [|[sc sd sf] signed IH]; intros c d f; csimpl; [by rewrite !app_nil_r|].
  rewrite IH, <- !app_assoc. by destruct sd, sf.
Qed.

(** Signing a batch of refunds returns each of them with the share that was made
    for it. When the signer answers with one share per job, every leaf gets back the
    variants it came with, in its place, each with its own transaction, commitments
    and the share of its own job, and the three groups handed to the operators list
    the leaves' variants in the order of the leaves; with any other number of shares
    the whole batch is refused, and an error of the signer is passed on. *)
Theorem shares_reach_their_refunds leaves w :
  let jobs := all_jobs leaves in
  ∃ r, sign_leaf_refunds leaves w = Some (r, (sign_frost (job <$> jobs) w).2) ∧
  match (sign_frost (job <$> jobs) w).1 with
  | Err e => r = Err e
  | Ok shares =>
      if (length shares =? length jobs)%nat then
        ∃ signed, r = Ok signed ∧ Forall2 same_shape leaves signed ∧
          concat (signed_list <$> signed) =
            zip_with (λ j share, into_signed_tx (pending j) share) jobs shares ∧
          into_signed_tx_groups signed =
            (slr_cpfp <$> signed, omap slr_direct signed, omap slr_direct_from_cpfp signed)
      else is_Ok r = false
  end.
Proof.
  intros jobs. destruct (sign_leaf_refunds_spec leaves w) as (r & Hr & Hshares).
  exists r. split; [exact Hr|]. fold jobs in Hshares.
  destruct (sign_frost (job <$> jobs) w).1 as [shares|]; [|done]. case_match; [|done].
  destruct Hshares as (signed & ? & ? & ?). exists signed. by rewrite signed_tx_groups.
Qed.
End batch.

(** ** What a sender signs *)

Class RefundLaws `{RefundEnv W} := {
  refund_frost_laws :: FrostLaws (W := W);
  own_identity : PublicKey;
  identity_is_own w k w' : get_identity_public_key w = (Ok k, w') → k = own_identity;
  log_identity w : frost_log (get_identity_public_key w).2 = frost_log w;
}.

Section sent.
Context `{RefundLaws W}.
Implicit Types (leaf : LeafKeyTweak) (params : SignRefundsParams) (t prev : Transaction).

(** [t] moves output 0 of [prev] to [script], under a timelock that runs out before [old]. *)
Definition supersedes prev t (script : ScriptBuf) (old : Sequence) : Prop :=
  ∃ o s, spends prev o t script ∧ input_sequences t = [s] ∧ low_timelock s < low_timelock old.

(** The receiver's key, or a script for the preimage with a way back to this wallet. *)
Definition to_receiver params (script : ScriptBuf) : Prop :=
  match srp_payment_hash params with
  | None => script = p2tr_script (srp_receiver_pubkey params)
  | Some hash => create_htlc_taproot_address hash (srp_receiver_pubkey params)
      (from_consensus LIGHTNING_HTLC_TIME_LOCK) own_identity = Ok script
  end.

(** A share a sender may sign for [leaf]. *)
Definition sound_refund params leaf (j : FrostJob Sighash) : Prop :=
  fj_derivation j = SigningLeaf (id (lkt_node leaf)) ∧
  fj_verifying_key j = verifying_public_key (lkt_node leaf) ∧
  ∃ prev t script old_refund old,
    (prev = node_tx (lkt_node leaf) ∨ direct_tx (lkt_node leaf) = Some prev) ∧
    refund_tx (lkt_node leaf) = Some old_refund ∧ input_sequences old_refund !! 0%nat = Some old ∧
    to_receiver params script ∧ supersedes prev t script old ∧
    ∃ o, spends prev o t script ∧ taproot_key_spend_signature_hash t 0 [o] = Ok (fj_sighash j).

Lemma spark_tx_supersedes prev o s script fee anchor old :
  tx_output prev !! 0%nat = Some o → low_timelock s < low_timelock old →
  supersedes prev (create_spark_tx (mkOutPoint (compute_txid prev) 0) s (txout_value o) script fee anchor)
    script old.
Proof.
  intros Ho Hs. destruct (spark_tx_moves prev o s script fee anchor Ho) as (o' & ? & ?). by exists o', s.
Qed.

(** The refunds of a leaf, by the transaction each one spends. *)
Definition refunds_supersede node_tx (direct_tx : option Transaction) script old
    (txs : RefundTransactions) : Prop :=
  supersedes node_tx (refund_cpfp_tx txs) script old ∧
  (∀ d, refund_direct_tx txs = Some d → ∃ prev, direct_tx = Some prev ∧ supersedes prev d script old) ∧
  (∀ d, refund_direct_from_cpfp_tx txs = Some d → supersedes node_tx d script old).

Lemma create_refund_txs_supersede node_tx direct_tx cs ds key old txs :
  low_timelock cs < low_timelock old → low_timelock ds < low_timelock old →
  create_refund_txs node_tx direct_tx cs ds key = Some txs →
  refunds_supersede node_tx direct_tx (p2tr_script key) old txs.
Proof.
  intros Hc Hd ((o & ? & ?) & (f & Hf & (o' & ? & ?)) & Hdirect)%create_refund_txs_moves.
  split_and!; [by exists o, cs| |].
  - intros d Hd'. rewrite Hd' in Hdirect. destruct direct_tx as [prev|]; [|done].
    destruct Hdirect as (o'' & ? & ?). exists prev. split; [done|]. by exists o'', ds.
  - intros d Hd'. simplify_eq. by exists o', ds.
Qed.

Lemma create_htlc_txs_supersede node_tx direct_tx cs ds hash rk ik old txs :
  low_timelock cs < low_timelock old → low_timelock ds < low_timelock old →
  create_lightning_htlc_refund_txs {| clr_node_tx := node_tx; clr_direct_tx := direct_tx;
    clr_cpfp_sequence := cs; clr_direct_sequence := ds; clr_hash := hash;
    clr_hash_lock_pubkey := rk; clr_sequence_lock_pubkey := ik |} = Some (Ok txs) →
  ∃ script, create_htlc_taproot_address hash rk (from_consensus LIGHTNING_HTLC_TIME_LOCK) ik = Ok script ∧
    refunds_supersede node_tx direct_tx script old txs.
Proof.
  intros Hc Hd (o & Ho & Htxs)%bind_Some. unfold create_lightning_htlc_tx in Htxs. simpl in Htxs.
  destruct (create_htlc_taproot_address _ _ _ _) as [script|e]; simpl in Htxs; [|done].
  apply bind_Some in Htxs as (direct & Hdirect & Htxs). destruct direct as [direct|e]; [|done].
  injection Htxs as <-. exists script. split; [done|].
  split_and!; simpl; [by apply spark_tx_supersedes| |].
  - intros d ->. destruct direct_tx as [prev|]; [|done].
    apply bind_Some in Hdirect as (o' & Ho' & [= <-]). exists prev. split; [done|].
    by apply spark_tx_supersedes.
  - intros d [= <-]. by apply spark_tx_supersedes.
Qed.

Lemma leaf_refund_txs_sound params node_tx direct_tx old w :
  ends_in (leaf_refund_txs own_identity params node_tx direct_tx old) w (λ r w', w' = w ∧
    ∀ txs, r = Ok txs → ∃ script, to_receiver params script ∧
      refunds_supersede node_tx direct_tx script old txs).
Proof.
  unfold leaf_refund_txs, to_receiver. pose proof (next_sequence_spec old) as Hn.
  destruct (srp_payment_hash params) as [hash|].
  - destruct (next_lightning_htlc_sequence old) as [[cs ds]|]; [|by apply ends_in_ret].
    destruct (next_sequence old) as [[c d]|]; [|done].
    destruct Hn as (Hl & ? & _ & Hcs & Hds & _). unfold TIME_LOCK_INTERVAL, HTLC_TIME_LOCK_OFFSET,
      DIRECT_HTLC_TIME_LOCK_OFFSET in *.
    apply ends_in_panic. intros r Hr. split; [done|]. intros txs ->.
    eapply create_htlc_txs_supersede; [| |exact Hr]; lia.
  - destruct (next_sequence old) as [[cs ds]|]; [|by apply ends_in_ret].
    destruct (next_lightning_htlc_sequence old) as [[hc hd]|]; [|done].
    destruct Hn as (Hl & ? & Hds & _). unfold TIME_LOCK_INTERVAL, DIRECT_TIME_LOCK_OFFSET in *.
    apply ends_in_bind, ends_in_panic. intros txs Htxs. apply ends_in_ret. split; [done|].
    intros txs' [= <-]. eexists. split; [done|].
    eapply create_refund_txs_supersede; [| |exact Htxs]; lia.
Qed.

Lemma build_refund_job_sound params leaf prev t key comms adaptor script old_refund old w :
  prev = node_tx (lkt_node leaf) ∨ direct_tx (lkt_node leaf) = Some prev →
  refund_tx (lkt_node leaf) = Some old_refund → input_sequences old_refund !! 0%nat = Some old →
  to_receiver params script → supersedes prev t script old →
  ends_in (build_refund_job leaf prev t key comms adaptor) w (λ r w', w' = w ∧
    match r with Ok j => sound_refund params leaf (job j) | Err _ => True end).
Proof.
  intros Hprev Hold Hseq Hrec Hsup. apply ends_in_bind, ends_in_panic. intros o Ho.
  apply ends_in_try, ends_in_ret. unfold sighash_from_tx.
  pose proof Hsup as (o' & s & Hspends & Hs & Hlow).
  pose proof Hspends as (Ho' & (s' & Hi) & _). rewrite Ho in Ho'. injection Ho' as <-.
  rewrite Hi. simpl. destruct (taproot_key_spend_signature_hash t 0 [o]) as [sig|] eqn:Hsig; simpl; [|done].
  split; [done|]. split_and!; [done..|]. by exists prev, t, script, old_refund, old; eauto 10.
Qed.

(** Every job of the leaf's refunds is sound. *)
Definition sound_leaf params leaf (jobs : LeafRefundJobs) : Prop :=
  Forall (sound_refund params leaf) (job <$> leaf_jobs jobs).

Lemma optional_job_sound params leaf (m : proc W (result string RefundJob)) w :
  ends_in m w (λ r w', w' = w ∧
    match r with Ok j => sound_refund params leaf (job j) | Err _ => True end) →
  ends_in (j ←? m; mret (Ok (Some j))) w (λ r w', w' = w ∧
    match r with Ok o => Forall (sound_refund params leaf) (job <$> option_list o) | Err _ => True end).
Proof.
  intros Hm. apply ends_in_try. eapply ends_in_weaken; [exact Hm|].
  intros [j|e] w' [-> Hj]; [|done]. apply ends_in_ret. split; [done|]. by constructor.
Qed.

Lemma direct_tx_method node d : direct_refund_tx_method node = Some (Some d) → direct_tx node = Some d.
Proof. intros (z & _ & Hz)%bind_Some. by destruct z; simplify_eq/=. Qed.

Lemma leaf_refund_jobs_sound params i leaf w :
  ends_in (leaf_refund_jobs own_identity params i leaf) w (λ r w', w' = w ∧
    match r with Ok jobs => sound_leaf params leaf jobs | Err _ => True end).
Proof.
  apply ends_in_bind, ends_in_panic. intros direct Hdirect. apply ends_in_try, ends_in_ret.
  destruct (refund_tx (lkt_node leaf)) as [old_refund|] eqn:Hold; [|done].
  apply ends_in_bind, ends_in_panic. intros old Hseq. apply ends_in_try.
  eapply ends_in_weaken; [apply leaf_refund_txs_sound|]. intros [txs|e] w1 [-> Htxs]; [|done].
  destruct (Htxs txs eq_refl) as (script & Hrec & Hc & Hd & Hf).
  apply ends_in_bind, ends_in_panic. intros _ _. apply ends_in_try, ends_in_ret.
  destruct (derive_leaf_signing_public_key _) as [key|e]; [|done].
  apply ends_in_bind, ends_in_panic. intros comms _. apply ends_in_try.
  eapply ends_in_weaken; [eapply (build_refund_job_sound params leaf); [by left|done..]|].
  intros [cpfp|e] w1 [-> Hcpfp]; [|done]. apply ends_in_try.
  eapply (ends_in_weaken _ _ (λ r w', w' = w ∧
    match r with Ok o => Forall (sound_refund params leaf) (job <$> option_list o) | Err _ => True end)).
  { destruct direct as [direct|]; [|by apply ends_in_ret].
    destruct (refund_direct_tx txs) as [d|]; [|by apply ends_in_ret].
    apply direct_tx_method in Hdirect. apply ends_in_bind, ends_in_panic. intros dcomms _.
    destruct (Hd d eq_refl) as (prev & [= <-] & Hsup).
    eapply optional_job_sound, (build_refund_job_sound params leaf direct); [by right|done..]. }
  intros [jd|e] w1 [-> Hjd]; [|done]. apply ends_in_try.
  eapply (ends_in_weaken _ _ (λ r w', w' = w ∧
    match r with Ok o => Forall (sound_refund params leaf) (job <$> option_list o) | Err _ => True end)).
  { destruct (refund_direct_from_cpfp_tx txs) as [d|]; [|by apply ends_in_ret].
    apply ends_in_bind, ends_in_panic. intros dcomms _.
    eapply optional_job_sound, (build_refund_job_sound params leaf); [by left|done..|by apply Hf]. }
  intros [jf|e] w1 [-> Hjf]; [|done]. apply ends_in_ret. split; [done|].
  unfold sound_leaf, leaf_jobs. rewrite fmap_cons, fmap_app. constructor; [done|]. by apply Forall_app.
Qed.

Lemma all_jobs_sound {A} (Q : A → FrostJob Sighash → Prop) (leaves : list A) (jobs : list LeafRefundJobs) :
  Forall2 (λ a lj, Forall (Q a) (job <$> leaf_jobs lj)) leaves jobs →
  Forall (λ j, ∃ a, a ∈ leaves ∧ Q a j) (job <$> all_jobs jobs).
Proof.
  unfold all_jobs. induction 1 as [|a lj leaves jobs Hl _ IH]; [constructor|].
  rewrite fmap_cons, concat_cons, fmap_app. apply Forall_app. split.
  - eapply Forall_impl; [exact Hl|]. intros j Hj. exists a. split; [by left|done].
  - eapply Forall_impl; [exact IH|]. intros j (a' & ? & ?). exists a'. split; [by right|done].
Qed.

(** The leaves of the numbered list are the leaves. *)
Lemma imap_pair_snd {A} (l : list A) : (imap pair l).*2 = l.
Proof. rewrite fmap_imap. etransitivity; [exact (imap_const (λ l, l) l)|]. apply list_fmap_id. Qed.

(** What [sign_refunds] adds to the log; another ghost [g] stays as it is. *)
Lemma sign_refunds_sound {G} (g : W → G) params w :
  (∀ w, g (get_identity_public_key w).2 = g w) → (∀ jobs w, g (sign_frost jobs w).2 = g w) →
  ends_in (sign_refunds params) w (λ _ w', g w' = g w ∧ ∃ js, frost_log w' = frost_log w ++ js ∧
    Forall (λ j, ∃ leaf, leaf ∈ srp_leaves params ∧ sound_refund params leaf j) js).
Proof.
  intros Hid Hsign. apply ends_in_try, ends_in_call.
  pose proof (log_identity w) as Hlog. pose proof (Hid w) as Hg.
  destruct (get_identity_public_key w) as [[k|e] w1] eqn:Hk; simpl in *.
  2: { split; [done|]. exists []. by rewrite app_nil_r. }
  apply identity_is_own in Hk as ->. rewrite <- Hlog, <- Hg. apply ends_in_try.
  eapply ends_in_weaken.
  { apply (ends_in_try_all (λ w, w) _ (λ '(i, leaf) jobs, sound_leaf params leaf jobs)).
    intros [i leaf] w' _. apply leaf_refund_jobs_sound. }
  intros [jobs|e] w2 [-> Hjobs]; [|split; [done|]; exists []; by rewrite app_nil_r].
  apply ends_in_try. destruct (sign_leaf_refunds_spec jobs w1) as (r & Hr & _).
  unfold ends_in at 1. rewrite Hr.
  assert (g (sign_frost (job <$> all_jobs jobs) w1).2 = g w1 ∧
    ∃ js, frost_log (sign_frost (job <$> all_jobs jobs) w1).2 = frost_log w1 ++ js ∧
    Forall (λ j, ∃ leaf, leaf ∈ srp_leaves params ∧ sound_refund params leaf j) js) as Hout.
  { split; [apply Hsign|]. eexists. split; [apply log_sign|]. apply all_jobs_sound.
    rewrite <- (imap_pair_snd (srp_leaves params)) at 1.
    apply Forall2_fmap_l. eapply Forall2_impl; [exact Hjobs|]. by intros [i leaf] lj. }
  destruct r as [signed|e]; [|exact Hout]. rewrite signed_tx_groups. exact Hout.
Qed.

(** Whatever the operators commit to and whatever happens on the way, every share
    a sender signs while sending leaves is made with the key of one of the leaves, under
    its verifying key, and is over a refund that spends output 0 of that leaf's own
    transactions and pays all but at most the fixed fee to the receiver (or, for a
    payment hash, to the script that gives it to the receiver for the preimage and
    back to the sender after the timeout). The refund becomes valid before the one the
    sender keeps. *)
Theorem sent_refunds_supersede params w :
  ends_in (sign_refunds params) w (λ _ w', ∃ js, frost_log w' = frost_log w ++ js ∧
    Forall (λ j, ∃ leaf, leaf ∈ srp_leaves params ∧ sound_refund params leaf j) js).
Proof.
  eapply ends_in_weaken; [by apply (sign_refunds_sound (λ _, ()))|]. by intros r w' [_ Hjs].
Qed.
End sent.

(** ** Witness *)

#[local] Existing Instances btc68 btctx68 sample_codec.

#[local] Instance sample_refund_env : RefundEnv (list (FrostJob tx68)).
Proof.
  by refine {|
    refund_frost := sample_frost (λ _ n _, n);
    get_identity_public_key w := (Ok ("me"%string : @PublicKey btc68), w);
    public_key_from_str s := Some (s : @PublicKey btc68);
    negate := (λ k, ("-" +:+ k)%string) : @PublicKey btc68 → @PublicKey btc68;
    combine_keys := (λ a b, Ok (a +:+ b)%string) : @PublicKey btc68 → @PublicKey btc68 → _;
    into_script instructions := [Z.of_nat (length instructions)];
    p2tr_of_leaves _ leaves := Ok ((λ l, l.1) <$> leaves);
  |}.
Defined.

#[local] Instance sample_refund_laws : RefundLaws (H0 := sample_refund_env).
Proof.
  unshelve refine (Build_RefundLaws _ _ _ _ sample_refund_env (sample_frost_laws (λ _ n _, n))
    ("me"%string : @PublicKey btc68) _ _); [|done].
  by intros w k w' [= <- _].
Defined.

(** Two leaves, sent to [bob], or against the preimage of [payment_hash]. *)
Definition sample_params (payment_hash : option (list Z)) : SignRefundsParams := {|
  srp_leaves := prepare_leaf_key_tweaks_to_send [
    exit_node "a" (Some "root"%string) 0 10000 a_tx (Some a_refund) TreeNodeStatus.Available;
    exit_node "b" (Some "root"%string) 1 20000 b_tx (Some b_refund) TreeNodeStatus.Available];
  srp_cpfp_signing_commitments := [∅; ∅];
  srp_direct_signing_commitments := [∅; ∅];
  srp_direct_from_cpfp_signing_commitments := [∅; ∅];
  srp_receiver_pubkey := ("bob"%string : @PublicKey btc68);
  srp_payment_hash := payment_hash;
  srp_cpfp_adaptor_public_key := None
|}.

(** How many refunds of each kind were signed, and how many shares. *)
Definition sent_of (r : option (result string SignedRefundTransactions * list (FrostJob tx68)))
    : option (nat * nat * nat * nat) :=
  match r with
  | Some (Ok out, js) => Some (length (cpfp_signed_tx out), length (direct_signed_tx out),
      length (direct_from_cpfp_signed_tx out), length js)
  | _ => None
  end.

Lemma sample_sent payment_hash :
  payment_hash = None ∨ payment_hash = Some [1; 2; 3] →
  sent_of (sign_refunds (sample_params payment_hash) []) = Some (2, 0, 2, 4)%nat.
Proof. intros [-> | ->]; vm_compute; reflexivity. Qed.

Example sent_refunds_supersede_witness :
  ∃ out (js : list (FrostJob tx68)),
    sign_refunds (sample_params (Some [1; 2; 3])) [] = Some (Ok out, js) ∧ length js = 4%nat ∧
    Forall (λ j, ∃ leaf, leaf ∈ srp_leaves (sample_params (Some [1; 2; 3])) ∧
      sound_refund (H0 := sample_refund_env) (sample_params (Some [1; 2; 3])) leaf j) js.
Proof.
  pose proof (sent_refunds_supersede (sample_params (Some [1; 2; 3])) ([] : list (FrostJob tx68))) as Hsign.
  pose proof (sample_sent (Some [1; 2; 3]) (or_intror eq_refl)) as Hrun. unfold ends_in in Hsign.
  destruct (sign_refunds _ _) as [[[out|e] w']|]; [|discriminate..].
  exists out, w'. split; [reflexivity|]. destruct Hsign as (js & Hjs & Hsound).
  change (w' = js) in Hjs. subst w'. split; [by injection Hrun|exact Hsound].
Defined.
