(* ===== verification/TransferModel.v ===== *)
(** * Transfers: [spark/src/services/models.rs]

    A transfer as the operators report it and as the wallet holds it. The ids are
    UUIDs, kept as the text of their canonical form; statuses and types arrive as the
    numbers of the protocol. *)

From S2P Require Import Prelude Bitcoin BitcoinTx SparkTx TreeModel NodeWire.
From stdpp Require Import pretty.
Open Scope Z_scope.

Definition TransferId : Type := string.

(** Parsing of UUIDs and ECDSA signatures, and their use, by [uuid] and [secp256k1]. *)
Class SignatureCodec `{Bitcoin} := {
  Signature : Type;
  uuid_from_str : string → option TransferId;
  from_compact : list Z → option Signature;
  from_der : list Z → option Signature;
  serialize_compact : Signature → list Z;
  serialize_der : Signature → list Z;
  sha256 : list Z → list Z;
  (** [verify_ecdsa] of a digest; an error is its text *)
  verify_ecdsa : list Z → Signature → PublicKey → result string unit;
}.

(** ** Timestamps: [utils/time.rs] *)

Record Timestamp := { seconds : Z; nanos : Z }.

Definition MAX_TIMESTAMP_SECS : Z := 253402300799.

Definition prost_timestamp_to_secs (timestamp : Timestamp) : option Z :=
  if seconds timestamp <? 0 then None
  else if seconds timestamp <=? MAX_TIMESTAMP_SECS then Some (seconds timestamp) else None.

Definition NANOS_PER_SEC : Z := 1000000000.

(** A [SystemTime] is the number of nanoseconds since the epoch; every time that a
    [Timestamp] can say is in its range. *)
Definition SystemTime : Type := Z.

Definition web_time_to_prost_timestamp (system_time : SystemTime) : option Timestamp :=
  if system_time <? 0 then None
  else Some {| seconds := as_i64 (system_time / NANOS_PER_SEC); nanos := system_time mod NANOS_PER_SEC |}.

Definition prost_timestamp_to_web_time (timestamp : Timestamp) : option SystemTime :=
  seconds ← prost_timestamp_to_secs timestamp;
  if (nanos timestamp <? 0) || negb (nanos timestamp <? NANOS_PER_SEC) then None
  else Some (seconds * NANOS_PER_SEC + nanos timestamp).

(** ** Statuses and types *)

Module TransferStatus.
Inductive t :=
| SenderInitiated | SenderKeyTweakPending | SenderKeyTweaked | ReceiverKeyTweaked
| ReceiverRefundSigned | Completed | Expired | Returned | SenderInitiatedCoordinator
| ReceiverKeyTweakLocked | ReceiverKeyTweakApplied | ApplyingSenderKeyTweak.
#[global] Instance t_eq_dec : EqDecision t.
Proof. solve_decision. Defined.

Definition to_string (self : t) : string :=
  match self with
  | SenderInitiated => "SenderInitiated"
  | SenderKeyTweakPending => "SenderKeyTweakPending"
  | SenderKeyTweaked => "SenderKeyTweaked"
  | ReceiverKeyTweaked => "ReceiverKeyTweaked"
  | ReceiverRefundSigned => "ReceiverRefundSigned"
  | Completed => "Completed"
  | Expired => "Expired"
  | Returned => "Returned"
  | SenderInitiatedCoordinator => "SenderInitiatedCoordinator"
  | ReceiverKeyTweakLocked => "ReceiverKeyTweakLocked"
  | ReceiverKeyTweakApplied => "ReceiverKeyTweakApplied"
  | ApplyingSenderKeyTweak => "ApplyingSenderKeyTweak"
  end.
End TransferStatus.

Module TransferType.
Inductive t :=
| PreimageSwap | CooperativeExit | Transfer | UtxoSwap | Swap | CounterSwap
| PrimarySwapV3 | CounterSwapV3.
End TransferType.

(** ** Messages *)

Module ProtoTransfer.
(** The fields the code reads. *)
Record TransferLeaf := mkTransferLeaf {
  leaf : option Proto.TreeNode;
  secret_cipher : list Z;
  signature : list Z;
  intermediate_refund_tx : list Z;
  intermediate_direct_refund_tx : list Z;
  intermediate_direct_from_cpfp_refund_tx : list Z;
}.

(** The status and the type are the values of the generated accessors, which fall back
    to the default on an unknown number. *)
Record Transfer := mkTransfer {
  id : string;
  sender_identity_public_key : list Z;
  receiver_identity_public_key : list Z;
  status : TransferStatus.t;
  total_value : Z;
  expiry_time : option Timestamp;
  leaves : list TransferLeaf;
  created_time : option Timestamp;
  updated_time : option Timestamp;
  type : TransferType.t;
  spark_invoice : string;
}.
End ProtoTransfer.

Section transfer.
Context {B : Bitcoin} `{!Codec} `{!SignatureCodec}.

Definition TransferId_from_str (s : string) : result string TransferId :=
  if bool_decide (s = "") then Err "TransferId cannot be empty"
  else ok_or (uuid_from_str s) "Invalid TransferId format".

Record TransferLeaf := {
  tl_leaf : TreeNode;
  secret_cipher : list Z;
  signature : option Signature;
  intermediate_refund_tx : Transaction;
  intermediate_direct_refund_tx : option Transaction;
  intermediate_direct_from_cpfp_refund_tx : option Transaction;
}.

Record Transfer := {
  transfer_id : TransferId;
  sender_identity_public_key : PublicKey;
  receiver_identity_public_key : PublicKey;
  transfer_status : TransferStatus.t;
  total_value : Z;
  expiry_time : option Z;
  transfer_leaves : list TransferLeaf;
  created_time : option Z;
  updated_time : option Z;
  transfer_type : TransferType.t;
  spark_invoice : option string;
}.

(** [TreeNode { refund_tx, .., ..self.leaf.clone() }] *)
Definition leaf_with_intermediate_txs (self : TransferLeaf) : TreeNode :=
  let n := tl_leaf self in
  {| id := id n; tree_id := tree_id n; value := value n; parent_node_id := parent_node_id n;
     node_tx := node_tx n; refund_tx := Some (intermediate_refund_tx self);
     direct_tx := direct_tx n; direct_refund_tx := intermediate_direct_refund_tx self;
     direct_from_cpfp_refund_tx := intermediate_direct_from_cpfp_refund_tx self;
     vout := vout n; verifying_public_key := verifying_public_key n;
     owner_identity_public_key := owner_identity_public_key n;
     signing_keyshare := signing_keyshare n; status := status n |}.

Definition signature_try_from (bytes : list Z) : ServiceResult (option Signature) :=
  match length bytes with
  | 0%nat => Ok None
  | 64%nat => s ← or_generic (from_compact bytes) "Invalid signature format"; Ok (Some s)
  | _ => s ← or_generic (from_der bytes) "Invalid signature format"; Ok (Some s)
  end.

(** [TryFrom<operator_rpc::spark::TransferLeaf> for TransferLeaf] *)
Definition transfer_leaf_try_from (leaf : ProtoTransfer.TransferLeaf) : ServiceResult TransferLeaf :=
  node ← or_generic (ProtoTransfer.leaf leaf) "Missing leaf node";
  tree_node ← node_try_from node;
  refund ← or_generic (deserialize (ProtoTransfer.intermediate_refund_tx leaf))
    "Invalid intermediate refund transaction";
  direct ← unless_empty deserialize (ProtoTransfer.intermediate_direct_refund_tx leaf)
    "Invalid intermediate direct refund transaction";
  direct_from_cpfp ← unless_empty deserialize
    (ProtoTransfer.intermediate_direct_from_cpfp_refund_tx leaf)
    "Invalid intermediate direct from CPFP refund transaction";
  signature ← signature_try_from (ProtoTransfer.signature leaf);
  Ok {| tl_leaf := tree_node; secret_cipher := ProtoTransfer.secret_cipher leaf;
        signature := signature; intermediate_refund_tx := refund;
        intermediate_direct_refund_tx := direct;
        intermediate_direct_from_cpfp_refund_tx := direct_from_cpfp |}.

(** An out-of-range timestamp is an error; [None] means that the field is not set. *)
Definition transfer_timestamp_secs (timestamp : option Timestamp) (field : string)
    : ServiceResult (option Z) :=
  match timestamp with
  | None => Ok None
  | Some ts =>
      secs ← ok_or (prost_timestamp_to_secs ts)
        (ServiceError.ValidationError ("invalid transfer " +:+ field));
      Ok (Some secs)
  end.

(** [TryFrom<operator_rpc::spark::Transfer> for Transfer] *)
Definition transfer_try_from (transfer : ProtoTransfer.Transfer) : ServiceResult Transfer :=
  i ← match TransferId_from_str (ProtoTransfer.id transfer) with
    | Ok i => Ok i
    | Err _ => Err (ServiceError.Generic "Invalid transfer id")
    end;
  sender ← or_generic (public_key_from_slice (ProtoTransfer.sender_identity_public_key transfer))
    "Invalid sender identity public key";
  receiver ← or_generic (public_key_from_slice (ProtoTransfer.receiver_identity_public_key transfer))
    "Invalid receiver identity public key";
  leaves ← mapR transfer_leaf_try_from (ProtoTransfer.leaves transfer);
  expiry ← transfer_timestamp_secs (ProtoTransfer.expiry_time transfer) "expiry_time";
  created ← transfer_timestamp_secs (ProtoTransfer.created_time transfer) "created_time";
  updated ← transfer_timestamp_secs (ProtoTransfer.updated_time transfer) "updated_time";
  Ok {| transfer_id := i; sender_identity_public_key := sender;
        receiver_identity_public_key := receiver; transfer_status := ProtoTransfer.status transfer;
        total_value := ProtoTransfer.total_value transfer; expiry_time := expiry;
        transfer_leaves := leaves; created_time := created; updated_time := updated;
        transfer_type := ProtoTransfer.type transfer;
        spark_invoice :=
          if bool_decide (ProtoTransfer.spark_invoice transfer = "") then None
          else Some (ProtoTransfer.spark_invoice transfer) |}.

(** [convert_page]: the records that do not convert are dropped. *)
Definition convert_page {T U} (convert : T → ServiceResult U) (records : list T) (kind : string)
    : ServiceResult (list U) :=
  let total := length records in
  let converted := omap (λ r, match convert r with Ok u => Some u | Err _ => None end) records in
  match converted with
  | [] => if (0 <? total)%nat
      then Err (ServiceError.ValidationError ("no valid " +:+ kind +:+ " in a page of " +:+
             pretty (Z.of_nat total)))
      else Ok []
  | _ => Ok converted
  end.
End transfer.
