(* ===== verification/ServiceCalls.v ===== *)
(** * Calls that several services share

    The errors and amounts of the service provider (SSP, [ssp/error.rs], [ssp/mod.rs]),
    and the clock. *)

From S2P Require Import Prelude SparkTx FrostBatch TransferModel.
From stdpp Require Import pretty.
Open Scope Z_scope.

(** ** The SSP *)

Module ServiceProviderError.
Inductive t :=
| Authentication (reason : string)
| GraphQL (reason : string)
| Network (reason : string) (code : option Z)
| Signer (reason : string)
| Serialization (reason : string)
| ParseError (reason : string)
| Generic (reason : string).

Definition to_string (self : t) : string :=
  match self with
  | Authentication reason => "authentication error: " +:+ reason
  | GraphQL reason => "graphql error: " +:+ reason
  | Network reason code => "network error: " +:+ reason +:+ " (code: " +:+
      match code with Some c => "Some(" +:+ pretty c +:+ ")" | None => "None" end +:+ ")"
  | Signer reason => "signer error: " +:+ reason
  | Serialization reason => "serialization error: " +:+ reason
  | ParseError reason => "parse error: " +:+ reason
  | Generic reason => "error: " +:+ reason
  end.
End ServiceProviderError.

(** [x?] of an SSP error *)
Definition from_ssp {A} (r : result ServiceProviderError.t A) : ServiceResult A :=
  map_err (λ e, ServiceError.ServiceProviderError (ServiceProviderError.to_string e)) r.

Definition ssp {W A} (f : W → result ServiceProviderError.t A * W) : proc W (ServiceResult A) :=
  r ← call f; mret (from_ssp r).

(** [CurrencyUnit]: the units that are not converted are [Other]. *)
Inductive CurrencyUnit := Satoshi | Millisatoshi | Other.

Record CurrencyAmount := { original_value : Z; original_unit : CurrencyUnit }.

(** [div_ceil] rounds up. *)
Definition as_sats (self : CurrencyAmount) : result ServiceProviderError.t Z :=
  match original_unit self with
  | Millisatoshi => Ok ((original_value self + 999) / 1000)
  | Satoshi => Ok (original_value self)
  | Other => Err (ServiceProviderError.ParseError "Unsupported currency unit")
  end.

(** ** The clock *)

Class ClockEnv (W : Type) := {
  now : W → SystemTime * W;
  (** nanoseconds later; [None] past the last time of the platform *)
  checked_add : SystemTime → Z → option SystemTime;
}.
