(* ===== verification/FrostAggregate.v ===== *)
(** * Aggregated FROST signatures: [utils/frost.rs], [services/models.rs]

    The operators answer a signing request with their commitments, shares and keys; with
    the user's share they become one signature. The mathematics is that of
    [frost_secp256k1_tr], in the class [FrostAggregate]. *)

From S2P Require Import Prelude WireBytes Bitcoin BitcoinTx SparkTx TreeModel NodeWire FrostBatch.
Open Scope Z_scope.

(** An error of the crate: its text and the [{:?}] of its culprit. *)
Record FrostError := { frost_display : string; frost_culprit : string }.

Class FrostAggregate {B : Bitcoin} `{!Codec} := {
  VerifyingKey : Type;
  VerifyingShare : Type;
  SigningPackage : Type;
  PublicKeyPackage : Type;
  FrostSignature : Type;
  signature_share_deserialize : list Z → option SignatureShare;
  identifier_derive : list Z → option Identifier;
  (** [{:?}] of an identifier *)
  show_identifier : Identifier → string;
  verifying_key_deserialize : list Z → result FrostError VerifyingKey;
  verifying_share_deserialize : list Z → result FrostError VerifyingShare;
  new_with_adaptor : gmap Identifier SigningCommitments → option (list (gset Identifier)) →
    list Z → option VerifyingKey → SigningPackage;
  public_key_package : gmap Identifier VerifyingShare → VerifyingKey → PublicKeyPackage;
  aggregate_with_tweak : SigningPackage → gmap Identifier SignatureShare → PublicKeyPackage →
    option (list Z) → result FrostError FrostSignature;
  frost_signature_serialize : FrostSignature → result FrostError (list Z);
}.

(** ** Signing results on the wire *)

Module ProtoSigning.
(** The fields the code reads. *)
Record SigningResult := mkSigningResult {
  public_keys : gmap string (list Z);
  signing_nonce_commitments : gmap string Proto.SigningCommitment;
  signature_shares : gmap string (list Z);
}.

Record LeafRefundTxSigningResult := mkLeafRefundTxSigningResult {
  leaf_id : string;
  refund_tx_signing_result : option SigningResult;
  verifying_key : list Z;
}.
End ProtoSigning.

Section aggregate.
Context {B : Bitcoin} `{!Codec} `{!FrostAggregate}.
Context `{!HashIter string} `{!HashIter Identifier}.

Record SigningResult := {
  sr_signing_commitments : gmap Identifier SigningCommitments;
  sr_signature_shares : gmap Identifier SignatureShare;
  sr_public_keys : gmap Identifier PublicKey;
}.

(** The loop of [map_public_keys] and [map_signature_shares]: the keys of the message are
    identifiers in hexadecimal. *)
Definition map_identified {A} (convert : list Z → ServiceResult A) (source : gmap string (list Z))
    : ServiceResult (gmap Identifier A) :=
  foldlR (λ converted '(identifier, bytes),
    id_bytes ← ok_or (hex_decode identifier) ServiceError.InvalidIdentifier;
    identifier ← ok_or (identifier_deserialize id_bytes) ServiceError.InvalidIdentifier;
    a ← convert bytes;
    Ok (<[identifier := a]> converted)) ∅ (hm_iter source).

Definition map_public_keys : gmap string (list Z) → ServiceResult (gmap Identifier PublicKey) :=
  map_identified (λ bytes, ok_or (public_key_from_slice bytes) ServiceError.InvalidPublicKey).

Definition map_signature_shares : gmap string (list Z) → ServiceResult (gmap Identifier SignatureShare) :=
  map_identified (λ bytes, ok_or (signature_share_deserialize bytes) ServiceError.InvalidSignatureShare).

(** [TryFrom<&operator_rpc::spark::SigningResult> for SigningResult] *)
Definition signing_result_try_from (signing_result : ProtoSigning.SigningResult)
    : ServiceResult SigningResult :=
  signing_commitments ← map_signing_nonce_commitments
    (ProtoSigning.signing_nonce_commitments signing_result);
  signature_shares ← map_signature_shares (ProtoSigning.signature_shares signing_result);
  public_keys ← map_public_keys (ProtoSigning.public_keys signing_result);
  Ok {| sr_signing_commitments := signing_commitments; sr_signature_shares := signature_shares;
        sr_public_keys := public_keys |}.

(** ** Aggregation; a [SignerError] is its text *)

(** [signer/models.rs] *)
Record AggregateFrostRequest := {
  afr_message : list Z;
  afr_statechain_signatures : gmap Identifier SignatureShare;
  afr_statechain_public_keys : gmap Identifier PublicKey;
  afr_verifying_key : PublicKey;
  afr_statechain_commitments : gmap Identifier SigningCommitments;
  afr_self_commitment : SigningCommitments;
  afr_public_key : PublicKey;
  afr_self_signature : SignatureShare;
  afr_adaptor_public_key : option PublicKey;
}.

(** [SignerError::SerializationError(format!("{what}: {e}"))], with the culprit or without *)
Definition serialization_error (what : string) (e : FrostError) : string :=
  "serialization error: " +:+ what +:+ ": " +:+ frost_display e.
Definition with_culprit (text : string) (e : FrostError) : string :=
  text +:+ " (culprit: " +:+ frost_culprit e +:+ ")".

Definition frost_signing_package (user_identifier : Identifier) (message : list Z)
    (statechain_commitments : gmap Identifier SigningCommitments)
    (self_commitment : SigningCommitments) (adaptor_public_key : option PublicKey)
    : result string SigningPackage :=
  let signing_participants_groups := [dom statechain_commitments; {[user_identifier]}] in
  let signing_commitments := <[user_identifier := self_commitment]> statechain_commitments in
  adaptor ← match adaptor_public_key with
    | Some pk => adaptor ← map_err (serialization_error "Failed to deserialize adaptor public key")
                   (verifying_key_deserialize (public_key_serialize pk)); Ok (Some adaptor)
    | None => Ok None
    end;
  Ok (new_with_adaptor signing_commitments (Some signing_participants_groups) message adaptor).

(** [VerifyingShare::deserialize(pk.serialize())], with the error's text *)
Definition verifying_share_of (what : string) (pk : PublicKey) : result string VerifyingShare :=
  map_err (λ e, with_culprit (serialization_error what e) e)
    (verifying_share_deserialize (public_key_serialize pk)).

Definition aggregate_frost (request : AggregateFrostRequest) : result string FrostSignature :=
  user_identifier ← ok_or (identifier_derive (string_bytes "user")) "failed to derive identifier";
  signing_package ← frost_signing_package user_identifier (afr_message request)
    (afr_statechain_commitments request) (afr_self_commitment request) (afr_adaptor_public_key request);
  let signature_shares :=
    <[user_identifier := afr_self_signature request]> (afr_statechain_signatures request) in
  verifying_shares ← foldlR (λ verifying_shares '(id, pk),
      share ← verifying_share_of
        ("Failed to deserialize public key for participant " +:+ show_identifier id) pk;
      Ok (<[id := share]> verifying_shares))
    (∅ : gmap Identifier VerifyingShare) (hm_iter (afr_statechain_public_keys request));
  user_share ← verifying_share_of "Failed to deserialize user public key" (afr_public_key request);
  let verifying_shares := <[user_identifier := user_share]> verifying_shares in
  verifying_key ← map_err
    (λ e, with_culprit (serialization_error "Failed to deserialize group verifying key" e) e)
    (verifying_key_deserialize (public_key_serialize (afr_verifying_key request)));
  map_err (λ e, with_culprit ("frost error: Failed to aggregate signatures: " +:+ frost_display e) e)
    (aggregate_with_tweak signing_package signature_shares
       (public_key_package verifying_shares verifying_key) (Some [])).
End aggregate.
