(* ===== verification/TransferService.v ===== *)
(** * Transfers: [spark/src/services/transfer.rs]

    Sending leaves to another identity and claiming the leaves that were sent to this
    one. The signer, the coordinator, the observer and the clock are the class
    [TransferEnv]; the lock that keeps the claims of one transfer apart is in
    [ClaimLocks]. The wallet's network is left out. *)

From S2P Require Import Prelude WireBytes Bitcoin BitcoinTx Timelock SparkTx TreeModel NodeWire Paging.
From S2P Require Import FrostBatch RefundJobs TransferModel.
From stdpp Require Import pretty.
Open Scope Z_scope.

(** ** Messages *)

Inductive HashVariant := HashUnspecified | V2.

Inductive Participant :=
| ReceiverIdentityPublicKey (key : list Z)
| SenderIdentityPublicKey (key : list Z)
| SenderOrReceiverIdentityPublicKey (key : list Z).

(** The fields the code sets; [limit] and [offset] are [i64]s. *)
Record TransferFilter := mkTransferFilter {
  participant : option Participant;
  filter_transfer_ids : list string;
  filter_limit : Z;
  filter_offset : Z;
  types : list TransferType.t;
  filter_order : Order;
}.

(** [TransferFilter::default()] *)
Definition TransferFilter_default : TransferFilter :=
  mkTransferFilter None [] 0 0 [] Descending.

Record QueryTransfersResponse := mkQueryTransfersResponse {
  transfers : list ProtoTransfer.Transfer;
  response_offset : Z;
}.

Record TransferPackage := {
  leaves_to_send : list Proto.UserSignedTxSigningJob;
  direct_leaves_to_send : list Proto.UserSignedTxSigningJob;
  direct_from_cpfp_leaves_to_send : list Proto.UserSignedTxSigningJob;
  tp_key_tweak_package : gmap string (list Z);
  tp_user_signature : list Z;
  tp_hash_variant : HashVariant;
}.

Record StartTransferRequest := {
  st_transfer_id : string;
  st_owner_identity_public_key : list Z;
  st_receiver_identity_public_key : list Z;
  st_expiry_time : option Timestamp;
  st_transfer_package : option TransferPackage;
  st_spark_invoice : string;
}.

Record ClaimPackage := {
  leaves_to_claim : list Proto.UserSignedTxSigningJob;
  direct_leaves_to_claim : list Proto.UserSignedTxSigningJob;
  direct_from_cpfp_leaves_to_claim : list Proto.UserSignedTxSigningJob;
  cp_key_tweak_package : gmap string (list Z);
  cp_user_signature : list Z;
  cp_hash_variant : HashVariant;
}.

Record ClaimTransferRequest := {
  ct_transfer_id : string;
  ct_owner_identity_public_key : list Z;
  claim_package : option ClaimPackage;
}.

(** ** What the signer prepares: [signer/spark_signer.rs] *)

Section signer.
Context {B : Bitcoin} `{!Codec} `{!SignatureCodec}.

Record OperatorRecipient := {
  recipient_id : Z;
  recipient_identifier : Identifier;
  recipient_public_key : PublicKey;
}.

Record OperatorPackage := { operator_identifier : Identifier; encrypted_package : list Z }.

Record TransferLeafInput := { tli_node : TreeNode; new_leaf_id : TreeNodeId }.

Record PrepareTransferRequest := {
  ptr_transfer_id : TransferId;
  ptr_receiver_public_key : PublicKey;
  ptr_leaves : list TransferLeafInput;
  ptr_operator_recipients : list OperatorRecipient;
  ptr_threshold : Z;
}.

Record NewLeafKey := { nlk_node_id : TreeNodeId; new_signing_public_key : PublicKey }.

Record PreparedTransfer := {
  pt_operator_packages : list OperatorPackage;
  new_leaf_keys : list NewLeafKey;
  transfer_user_signature : Signature;
}.

Record ClaimLeafInput := {
  cli_node : TreeNode;
  sender_signature : list Z;
  leaf_key_ciphertext : list Z;
}.

Record PrepareClaimRequest := {
  pcr_transfer_id : TransferId;
  pcr_sender_identity_public_key : PublicKey;
  pcr_leaves : list ClaimLeafInput;
  pcr_operator_recipients : list OperatorRecipient;
  pcr_threshold : Z;
}.

Record PreparedClaim := { pc_operator_packages : list OperatorPackage }.

(** The fields of an [Operator] ([operator/pool.rs]) that are used. *)
Record Operator := {
  operator_id : Z;
  identifier : Identifier;
  identity_public_key : PublicKey;
}.
End signer.

(** The calls of the service; an error of the signer or of the observer is its text.
    [sleep] takes milliseconds. *)
Class TransferEnv {B : Bitcoin} {BT : BitcoinTx} `{!Codec} `{!SignatureCodec} (W : Type) := {
  transfer_refunds :: RefundEnv W;
  (** [Uuid::now_v7().to_string()] *)
  uuid_now_v7 : W → string * W;
  prepare_transfer : PrepareTransferRequest → W → result string PreparedTransfer * W;
  prepare_claim : PrepareClaimRequest → W → result string PreparedClaim * W;
  sign_message : list Z → W → result string Signature * W;
  (** [SparkAddress::new(key, network, None).to_address_string().ok()] *)
  spark_address_string : PublicKey → option string;
  sleep : Z → W → W;
  client_query_all_transfers :
    TransferFilter → W → result OperatorRpcError.t QueryTransfersResponse * W;
  client_query_pending_transfers :
    TransferFilter → W → result OperatorRpcError.t QueryTransfersResponse * W;
  client_start_transfer_v2 :
    StartTransferRequest → W → result OperatorRpcError.t (option ProtoTransfer.Transfer) * W;
  client_claim_transfer :
    ClaimTransferRequest → W → result OperatorRpcError.t (option ProtoTransfer.Transfer) * W;
}.

(** ** Checks of a transaction *)

Section checks.
Context {B : Bitcoin} {BT : BitcoinTx}.

Definition first_output (tx : Transaction) (node_id : TreeNodeId) (what : string)
    : ServiceResult (TxOut ScriptBuf) :=
  ok_or (tx_output tx !! 0%nat)
    (ServiceError.ValidationError ("leaf " +:+ node_id +:+ " " +:+ what +:+ " has no outputs")).

Definition node_timelock (node_tx : Transaction) (node_id : TreeNodeId) : ServiceResult Sequence :=
  ok_or (input_sequences node_tx !! 0%nat)
    (ServiceError.ValidationError ("leaf " +:+ node_id +:+ " node tx has no inputs")).
End checks.

(** [{:#x}] of a [u32] *)
Definition hex_digit (d : Z) : string :=
  default "" (["0"; "1"; "2"; "3"; "4"; "5"; "6"; "7"; "8"; "9"; "a"; "b"; "c"; "d"; "e"; "f"]%string
    !! Z.to_nat d).
Fixpoint hex_digits (fuel : nat) (z : Z) : string :=
  match fuel with
  | O => ""
  | S fuel => (if z <? 16 then "" else hex_digits fuel (z / 16)) +:+ hex_digit (z mod 16)
  end.
Definition show_hex (z : Z) : string := "0x" +:+ hex_digits 8 z.

(** [transfer.id.to_string().replace('-', "")] *)
Definition without_dashes (s : string) : string :=
  String.string_of_list_ascii
    (filter (λ a, a ≠ Ascii.ascii_of_nat 45) (String.list_ascii_of_string s)).

Record ClaimTransferConfig := {
  max_retries : Z;
  base_delay_ms : Z;
  max_delay_ms : Z;
}.

Definition ClaimTransferConfig_default : ClaimTransferConfig :=
  {| max_retries := 5; base_delay_ms := 1000; max_delay_ms := 10000 |}.

(** [base_delay_ms * 2u64.pow(retry_count - 1)], capped *)
Definition retry_delay_ms (config : ClaimTransferConfig) (retry_count : Z) : Z :=
  Z.min (wrap 64 (base_delay_ms config * wrap 64 (2 ^ (retry_count - 1)))) (max_delay_ms config).

Section service.
Context {B : Bitcoin} {BT : BitcoinTx} `{!Codec} `{!SignatureCodec} {W : Type} `{!TransferEnv W}.
Context `{!HashIter string} `{!HashIter Identifier}.

(** The fields besides the clients, the network and the claim locks; the observer is its
    [before_send_transfer]. *)
Record TransferService := {
  split_secret_threshold : Z;
  all_operators : list Operator;
  transfer_observer : option (TransferId → string → Z → W → result string unit * W);
}.

Implicit Types self : TransferService.

Definition identity_key : proc W (ServiceResult PublicKey) := signer (call get_identity_public_key).

Definition operator_recipients self : list OperatorRecipient :=
  (λ op, {| recipient_id := operator_id op; recipient_identifier := identifier op;
            recipient_public_key := identity_public_key op |}) <$> all_operators self.

(** [.map(|p| (hex::encode(p.operator_identifier.serialize()), p.encrypted_package)).collect()] *)
Definition collect_packages (packages : list OperatorPackage) : gmap string (list Z) :=
  hm_collect ((λ p, (hex_encode (identifier_serialize (operator_identifier p)), encrypted_package p))
    <$> packages).

(** [get_signing_commitments(..)] and the conversion of the answer *)
Definition fetch_commitments (node_ids : list string) (node_id_count : Z)
    : proc W (ServiceResult (list (gmap Identifier SigningCommitments))) :=
  signing_commitments ←? rpc (client_get_signing_commitments node_ids 3 node_id_count);
  mret (mapR map_signing_nonce_commitments signing_commitments).

(** ** Sending *)

Record PreparedTransferPackage := {
  ptp_transfer_package : TransferPackage;
  ptp_cpfp_signed_txs : list SignedTx;
}.

Record PreparedTransferRequest := {
  transfer_request : StartTransferRequest;
  ptrq_cpfp_signed_txs : list SignedTx;
}.

Definition build_prepare_transfer_request self (transfer_id : TransferId)
    (leaf_key_tweaks : list LeafKeyTweak) (receiver_public_key : PublicKey)
    : proc W PrepareTransferRequest :=
  leaves ← join_all (λ l, new_leaf_id ← call uuid_now_v7;
      mret {| tli_node := lkt_node l; new_leaf_id := new_leaf_id |}) leaf_key_tweaks;
  mret {| ptr_transfer_id := transfer_id; ptr_receiver_public_key := receiver_public_key;
          ptr_leaves := leaves; ptr_operator_recipients := operator_recipients self;
          ptr_threshold := split_secret_threshold self |}.

Definition build_transfer_approval_request self (transfer_id : TransferId) (leaves : list TreeNode)
    (receiver_public_key : PublicKey) : proc W PrepareTransferRequest :=
  build_prepare_transfer_request self transfer_id (prepare_leaf_key_tweaks_to_send leaves)
    receiver_public_key.

Definition assemble_transfer_package (leaf_key_tweaks : list LeafKeyTweak)
    (receiver_public_key : PublicKey) (payment_hash : option (list Z))
    (cpfp_adaptor_public_key : option PublicKey) (prepared : PreparedTransfer)
    : proc W (ServiceResult PreparedTransferPackage) :=
  match leaf_key_tweaks with
  | [] => mret (Err (ServiceError.InvalidInput "assemble_transfer_package requires at least one leaf"))
  | _ =>
      signing_commitments ←? fetch_commitments ((λ l, id (lkt_node l)) <$> leaf_key_tweaks) 0;
      chunks ←? mret (split_signing_commitments_by_variant signing_commitments (length leaf_key_tweaks));
      let '(cpfp_chunk, direct_chunk, direct_from_cpfp_chunk) := chunks in
      signed ←? signer (sign_refunds {|
        srp_leaves := leaf_key_tweaks;
        srp_cpfp_signing_commitments := cpfp_chunk;
        srp_direct_signing_commitments := direct_chunk;
        srp_direct_from_cpfp_signing_commitments := direct_from_cpfp_chunk;
        srp_receiver_pubkey := receiver_public_key;
        srp_payment_hash := payment_hash;
        srp_cpfp_adaptor_public_key := cpfp_adaptor_public_key |});
      transfer_package ←? mret (
        leaves_to_send ← to_jobs (cpfp_signed_tx signed);
        direct_leaves_to_send ← to_jobs (direct_signed_tx signed);
        direct_from_cpfp_leaves_to_send ← to_jobs (direct_from_cpfp_signed_tx signed);
        Ok {| leaves_to_send := leaves_to_send;
              direct_leaves_to_send := direct_leaves_to_send;
              direct_from_cpfp_leaves_to_send := direct_from_cpfp_leaves_to_send;
              tp_key_tweak_package := collect_packages (pt_operator_packages prepared);
              tp_user_signature := serialize_der (transfer_user_signature prepared);
              tp_hash_variant := V2 |});
      mret (Ok {| ptp_transfer_package := transfer_package;
                  ptp_cpfp_signed_txs := cpfp_signed_tx signed |})
  end.

Definition start_transfer_from_package (transfer_id : TransferId) (receiver_id : PublicKey)
    (transfer_package : TransferPackage) (spark_invoice : option string)
    : proc W (ServiceResult Transfer) :=
  identity ←? identity_key;
  transfer ←? rpc (client_start_transfer_v2 {|
    st_transfer_id := transfer_id;
    st_owner_identity_public_key := public_key_serialize identity;
    st_receiver_identity_public_key := public_key_serialize receiver_id;
    st_expiry_time := None;
    st_transfer_package := Some transfer_package;
    st_spark_invoice := default "" spark_invoice |});
  mret (transfer ← or_generic transfer "No transfer from operator"; transfer_try_from transfer).

Definition notify_before_send_transfer self (transfer_id : TransferId) (receiver_id : PublicKey)
    (leaves : list TreeNode) (spark_invoice : option string) : proc W (ServiceResult unit) :=
  match transfer_observer self with
  | None => mret (Ok ())
  | Some before_send_transfer =>
      identity ←? identity_key;
      if decide (identity = receiver_id) then mret (Ok ())
      else
        let amount_sats := sum_wrap 64 (value <$> leaves) in
        pay_request ←? mret (or_generic
          (match spark_invoice with Some i => Some i | None => spark_address_string receiver_id end)
          "No pay request available");
        r ← call (before_send_transfer transfer_id pay_request amount_sats);
        mret (map_err ServiceError.TransferObserverError r)
  end.

Definition recover_transfer_on_rpc_connection_error (transfer_id : TransferId) (error : ServiceError.t)
    : proc W (ServiceResult Transfer) :=
  match error with
  | ServiceError.ServiceConnectionError (OperatorRpcError.Connection
      {| status_code := (Internal | AlreadyExists) |}) =>
      identity ←? identity_key;
      operator_transfers ←? rpc (client_query_all_transfers
        {| participant := Some (SenderIdentityPublicKey (public_key_serialize identity));
           filter_transfer_ids := [transfer_id]; filter_limit := 0; filter_offset := 0;
           types := []; filter_order := Descending |});
      match head (transfers operator_transfers) with
      | Some transfer => mret (transfer_try_from transfer)
      | None => mret (Err error)
      end
  | _ => mret (Err error)
  end.

Definition send_transfer_inner self (transfer_id : TransferId) (leaves : list TreeNode)
    (receiver_id : PublicKey) (spark_invoice : option string) (prepared : option PreparedTransfer)
    (recover_on_error : bool) : proc W (ServiceResult Transfer) :=
  _ ←? notify_before_send_transfer self transfer_id receiver_id leaves spark_invoice;
  let leaf_key_tweaks := prepare_leaf_key_tweaks_to_send leaves in
  prepared ←? match prepared with
    | Some prepared => mret (Ok prepared)
    | None =>
        request ← build_prepare_transfer_request self transfer_id leaf_key_tweaks receiver_id;
        signer (call (prepare_transfer request))
    end;
  prepared_package ←? assemble_transfer_package leaf_key_tweaks receiver_id None None prepared;
  r ← start_transfer_from_package transfer_id receiver_id (ptp_transfer_package prepared_package)
        spark_invoice;
  match r with
  | Ok transfer => mret (Ok transfer)
  | Err e =>
      if recover_on_error then recover_transfer_on_rpc_connection_error transfer_id e
      else mret (Err e)
  end.

Definition transfer_leaves_to self (leaves : list TreeNode) (receiver_id : PublicKey)
    (transfer_id : option TransferId) (spark_invoice : option string) : proc W (ServiceResult Transfer) :=
  let recover_on_error := bool_decide (is_Some transfer_id) in
  unwrapped_transfer_id ← match transfer_id with
    | Some transfer_id => mret transfer_id
    | None => call uuid_now_v7
    end;
  send_transfer_inner self unwrapped_transfer_id leaves receiver_id spark_invoice None recover_on_error.

Definition submit_transfer_with_prepared self (transfer_id : TransferId) (leaves : list TreeNode)
    (receiver_public_key : PublicKey) (prepared : PreparedTransfer) (spark_invoice : option string)
    : proc W (ServiceResult Transfer) :=
  send_transfer_inner self transfer_id leaves receiver_public_key spark_invoice (Some prepared) true.

Definition assemble_transfer_request_with_prepared (transfer_id : TransferId)
    (leaves : list LeafKeyTweak) (receiver_public_key : PublicKey) (payment_hash : option (list Z))
    (expiry_time : option SystemTime) (cpfp_adaptor_public_key : option PublicKey)
    (prepared : PreparedTransfer) : proc W (ServiceResult PreparedTransferRequest) :=
  prepared_package ←? assemble_transfer_package leaves receiver_public_key payment_hash
                        cpfp_adaptor_public_key prepared;
  identity ←? identity_key;
  expiry_time ←? mret match expiry_time with
    | None => Ok None
    | Some t => t ← or_generic (web_time_to_prost_timestamp t) "Invalid expiry time"; Ok (Some t)
    end;
  mret (Ok {|
    transfer_request := {|
      st_transfer_id := transfer_id;
      st_owner_identity_public_key := public_key_serialize identity;
      st_receiver_identity_public_key := public_key_serialize receiver_public_key;
      st_expiry_time := expiry_time;
      st_transfer_package := Some (ptp_transfer_package prepared_package);
      st_spark_invoice := "" |};
    ptrq_cpfp_signed_txs := ptp_cpfp_signed_txs prepared_package |}).

Definition prepare_transfer_request self (transfer_id : TransferId) (leaves : list LeafKeyTweak)
    (receiver_public_key : PublicKey) (payment_hash : option (list Z))
    (expiry_time : option SystemTime) (cpfp_adaptor_public_key : option PublicKey)
    : proc W (ServiceResult PreparedTransferRequest) :=
  request ← build_prepare_transfer_request self transfer_id leaves receiver_public_key;
  prepared ←? signer (call (prepare_transfer request));
  assemble_transfer_request_with_prepared transfer_id leaves receiver_public_key payment_hash
    expiry_time cpfp_adaptor_public_key prepared.

(** ** Queries *)

(** One page of a query: the filter, and the page that follows. *)
Definition transfers_page (query : TransferFilter → W → result OperatorRpcError.t QueryTransfersResponse * W)
    (filter_of : list Z → TransferFilter) (paging : PagingFilter) (w : W)
    : ServiceResult (PagingResult Transfer) * W :=
  match get_identity_public_key w with
  | (Err e, w) => (Err (ServiceError.SignerError e), w)
  | (Ok identity, w) =>
      match query (filter_of (public_key_serialize identity)) w with
      | (Err e, w) => (Err (ServiceError.ServiceConnectionError e), w)
      | (Ok resp, w) =>
          (items ← convert_page transfer_try_from (transfers resp) "transfer";
           Ok {| items := items; next_page := next_from_offset paging (response_offset resp) |}, w)
      end
  end.

Definition query_transfers_inner (transfer_ids : list TransferId) (paging : PagingFilter)
    : W → ServiceResult (PagingResult Transfer) * W :=
  transfers_page client_query_all_transfers (λ key,
    {| participant := Some (SenderOrReceiverIdentityPublicKey key);
       filter_transfer_ids := transfer_ids;
       filter_limit := as_i64 (limit paging); filter_offset := as_i64 (offset paging);
       types := [TransferType.Transfer; TransferType.PreimageSwap; TransferType.CooperativeExit;
                 TransferType.UtxoSwap];
       filter_order := Paging.order paging |}) paging.

Definition query_pending_transfers_inner (paging : PagingFilter)
    : W → ServiceResult (PagingResult Transfer) * W :=
  transfers_page client_query_pending_transfers (λ key,
    {| participant := Some (SenderOrReceiverIdentityPublicKey key); filter_transfer_ids := [];
       filter_limit := as_i64 (limit paging); filter_offset := as_i64 (offset paging);
       types := []; filter_order := Descending |}) paging.

Definition query_claimable_receiver_transfers_inner (paging : PagingFilter)
    : W → ServiceResult (PagingResult Transfer) * W :=
  transfers_page client_query_pending_transfers (λ key,
    {| participant := Some (ReceiverIdentityPublicKey key); filter_transfer_ids := [];
       filter_limit := as_i64 (limit paging); filter_offset := as_i64 (offset paging);
       types := []; filter_order := Descending |}) paging.

(** One page, or all of them. *)
Definition one_page_or_all (query : PagingFilter → W → ServiceResult (PagingResult Transfer) * W)
    (paging : option PagingFilter) : proc W (ServiceResult (PagingResult Transfer)) :=
  match paging with
  | Some paging => call (query paging)
  | None => pager query PagingFilter_default
  end.

Definition query_transfers (transfer_ids : list TransferId) :=
  one_page_or_all (query_transfers_inner transfer_ids).
Definition query_pending_transfers := one_page_or_all query_pending_transfers_inner.
Definition query_claimable_receiver_transfers :=
  one_page_or_all query_claimable_receiver_transfers_inner.

Definition query_transfer (transfer_id : TransferId) : proc W (ServiceResult (option Transfer)) :=
  identity ←? identity_key;
  response ←? rpc (client_query_all_transfers
    {| participant := Some (SenderOrReceiverIdentityPublicKey (public_key_serialize identity));
       filter_transfer_ids := [transfer_id]; filter_limit := 0; filter_offset := 0;
       types := []; filter_order := Descending |});
  mret match head (transfers response) with
    | Some transfer => t ← transfer_try_from transfer; Ok (Some t)
    | None => Ok None
    end.

(** ** Claiming *)

(** The payload the sender signed for a leaf. *)
Definition leaf_payload (transfer_id : TransferId) (transfer_leaf : TransferLeaf) : list Z :=
  string_bytes (id (tl_leaf transfer_leaf)) ++ string_bytes transfer_id ++ secret_cipher transfer_leaf.

(** One round of the loop; a new key replaces the one of an earlier leaf of the same id. *)
Definition verify_leaf (transfer : Transfer) (leaf_key_map : gmap TreeNodeId (list Z))
    (transfer_leaf : TransferLeaf) : ServiceResult (gmap TreeNodeId (list Z)) :=
  let digest := sha256 (leaf_payload (transfer_id transfer) transfer_leaf) in
  signature ← or_generic (signature transfer_leaf) "Transfer leaf signature is missing";
  _ ← map_err ServiceError.SignatureVerificationFailed
        (verify_ecdsa digest signature (sender_identity_public_key transfer));
  Ok (<[id (tl_leaf transfer_leaf) := secret_cipher transfer_leaf]> leaf_key_map).

Definition verify_pending_transfer (transfer : Transfer) : ServiceResult (gmap TreeNodeId (list Z)) :=
  foldlR (verify_leaf transfer) ∅ (transfer_leaves transfer).

(** A leaf without a key is left out. *)
Definition leaf_to_claim (leaf_key_map : gmap TreeNodeId (list Z)) (leaf : TransferLeaf)
    : option LeafKeyTweak :=
  leaf_key ← leaf_key_map !! id (tl_leaf leaf);
  Some {| lkt_node := leaf_with_intermediate_txs leaf; incoming_key := Some leaf_key |}.

Definition prepare_leaves_for_claiming (transfer : Transfer) (leaf_key_map : gmap TreeNodeId (list Z))
    : ServiceResult (list LeafKeyTweak) :=
  match omap (leaf_to_claim leaf_key_map) (transfer_leaves transfer) with
  | [] => Err ServiceError.NoLeavesToClaim
  | leaves_to_claim => Ok leaves_to_claim
  end.

(** [sighash_from_tx(..)?] *)
Definition claim_sighash (tx : Transaction) (prev_output : TxOut ScriptBuf) : ServiceResult Sighash :=
  map_err ServiceError.BitcoinError (sighash_from_tx tx 0 prev_output).

Definition claim_refund_job (leaf : LeafKeyTweak) (signing_public_key : PublicKey)
    (refund_tx : Transaction) (prev_output : TxOut ScriptBuf)
    (commitments : list (gmap Identifier SigningCommitments)) (i : nat)
    : proc W (ServiceResult RefundJob) :=
  sighash ←? mret (claim_sighash refund_tx prev_output);
  commitments ← panic_or (commitments !! i);
  mret (Ok (build_refund_signing_job (id (lkt_node leaf)) (verifying_public_key (lkt_node leaf))
              signing_public_key refund_tx sighash commitments None)).

(** One round of the loop over the leaves; an index past the commitments panics. *)
Definition claim_leaf_jobs
    (cpfp_commitments direct_commitments direct_from_cpfp_commitments :
       list (gmap Identifier SigningCommitments))
    (i : nat) (leaf : LeafKeyTweak) : proc W (ServiceResult LeafRefundJobs) :=
  let node := lkt_node leaf in
  signing_public_key ←? signer (call (signer_public_key_for_leaf (id node)));
  _ ←? mret (node_timelock (node_tx node) (id node));
  node_tx_out ←? mret (first_output (node_tx node) (id node) "node tx");
  refund_tx ←? mret (or_generic (refund_tx node) "No refund tx");
  old_sequence ←? mret (ok_or (input_sequences refund_tx !! 0%nat)
    (ServiceError.ValidationError ("leaf " +:+ id node +:+ " refund tx has no inputs")));
  sequences ←? mret (ok_or (current_sequence (enforce_timelock old_sequence))
    (ServiceError.ValidationError ("leaf " +:+ id node +:+ " refund tx timelock " +:+
       show_hex (to_consensus_u32 old_sequence) +:+ " leaves no room for the direct offset")));
  let '(cpfp_sequence, direct_sequence) := sequences in
  refund_direct ← panic_or (direct_refund_tx_method node);
  _ ←? mret match refund_direct with
    | Some direct_tx => _ ← first_output direct_tx (id node) "direct tx"; Ok ()
    | None => Ok ()
    end;
  txs ← panic_or (create_refund_txs (node_tx node) refund_direct cpfp_sequence direct_sequence
                    signing_public_key);
  cpfp ←? claim_refund_job leaf signing_public_key (refund_cpfp_tx txs) node_tx_out cpfp_commitments i;
  direct ←? match direct_tx node, refund_direct_tx txs with
    | Some direct_tx, Some direct_refund_tx =>
        direct_tx_out ←? mret (first_output direct_tx (id node) "direct tx");
        job ←? claim_refund_job leaf signing_public_key direct_refund_tx direct_tx_out
                 direct_commitments i;
        mret (Ok (Some job))
    | _, _ => mret (Ok None)
    end;
  direct_from_cpfp ←? match refund_direct_from_cpfp_tx txs with
    | Some dfc_refund_tx =>
        job ←? claim_refund_job leaf signing_public_key dfc_refund_tx node_tx_out
                 direct_from_cpfp_commitments i;
        mret (Ok (Some job))
    | None => mret (Ok None)
    end;
  mret (Ok (mkLeafRefundJobs cpfp direct direct_from_cpfp)).

Definition sign_claim_refunds (leaves : list LeafKeyTweak)
    (cpfp_commitments direct_commitments direct_from_cpfp_commitments :
       list (gmap Identifier SigningCommitments))
    : proc W (ServiceResult (list Proto.UserSignedTxSigningJob * list Proto.UserSignedTxSigningJob *
                             list Proto.UserSignedTxSigningJob)) :=
  leaf_jobs ←? try_all (λ '(i, leaf), claim_leaf_jobs cpfp_commitments direct_commitments
                          direct_from_cpfp_commitments i leaf) (imap pair leaves);
  signed ←? signer (sign_leaf_refunds leaf_jobs);
  mret (into_user_signed_job_groups signed).

(** What the signer is told about a leaf to claim. *)
Definition claim_leaf_input (transfer : Transfer) (leaf : LeafKeyTweak) : ServiceResult ClaimLeafInput :=
  match incoming_key leaf with
  | None => Err (ServiceError.InvalidInput "claim leaf must carry the encrypted incoming key")
  | Some cipher =>
      let sender_signature := default [] (
        tl ← find_map (λ tl, if decide (id (tl_leaf tl) = id (lkt_node leaf)) then Some tl else None)
               (transfer_leaves transfer);
        serialize_compact <$> signature tl) in
      Ok {| cli_node := lkt_node leaf; sender_signature := sender_signature;
            leaf_key_ciphertext := cipher |}
  end.

Definition prepare_claim_package self (transfer : Transfer) (leaves : list LeafKeyTweak)
    : proc W (ServiceResult ClaimPackage) :=
  match leaves with
  | [] => mret (Err ServiceError.NoLeavesToClaim)
  | _ =>
      node_id_count ←? mret (if Z.of_nat (length leaves) <? 2 ^ 32 then Ok (Z.of_nat (length leaves))
        else Err (ServiceError.InvalidInput "too many leaves to claim"));
      signing_commitments ←? fetch_commitments [] node_id_count;
      chunks ←? mret (split_signing_commitments_by_variant signing_commitments (length leaves));
      let '(cpfp_chunk, direct_chunk, direct_from_cpfp_chunk) := chunks in
      claim_leaves ←? mret (mapR (claim_leaf_input transfer) leaves);
      prepared ←? signer (call (prepare_claim {|
        pcr_transfer_id := transfer_id transfer;
        pcr_sender_identity_public_key := sender_identity_public_key transfer;
        pcr_leaves := claim_leaves; pcr_operator_recipients := operator_recipients self;
        pcr_threshold := split_secret_threshold self |}));
      let key_tweak_package := collect_packages (pc_operator_packages prepared) in
      jobs ←? sign_claim_refunds leaves cpfp_chunk direct_chunk direct_from_cpfp_chunk;
      let '(cpfp_jobs, direct_jobs, direct_from_cpfp_jobs) := jobs in
      (* the message ends with the text of the decoding error, which is left out *)
      transfer_id_bytes ←? mret (or_generic (hex_decode (without_dashes (transfer_id transfer)))
        "invalid transfer id");
      let signing_payload := claim_signing_payload sha256 transfer_id_bytes key_tweak_package in
      user_signature ←? signer (call (sign_message signing_payload));
      mret (Ok {| leaves_to_claim := cpfp_jobs; direct_leaves_to_claim := direct_jobs;
                  direct_from_cpfp_leaves_to_claim := direct_from_cpfp_jobs;
                  cp_key_tweak_package := key_tweak_package;
                  cp_user_signature := serialize_der user_signature; cp_hash_variant := V2 |})
  end.

Definition claim_transfer_with_leaves self (transfer : Transfer) (leaves_to_claim : list LeafKeyTweak)
    : proc W (ServiceResult (list TreeNode)) :=
  claim_package ←? prepare_claim_package self transfer leaves_to_claim;
  identity ←? identity_key;
  response ←? rpc (client_claim_transfer {|
    ct_transfer_id := transfer_id transfer;
    ct_owner_identity_public_key := public_key_serialize identity;
    claim_package := Some claim_package |});
  mret (t ← or_generic response "claim_transfer returned no transfer";
        claimed_transfer ← transfer_try_from t;
        Ok (tl_leaf <$> transfer_leaves claimed_transfer)).

Definition try_claim_transfer self (transfer : Transfer) : proc W (ServiceResult (list TreeNode)) :=
  leaf_key_map ←? mret (verify_pending_transfer transfer);
  leaves_to_claim ←? mret (prepare_leaves_for_claiming transfer leaf_key_map);
  claim_transfer_with_leaves self transfer leaves_to_claim.

(** [None] when the transfer is not completed, or when that cannot be found out. *)
Definition finalized_leaves_if_already_claimed (transfer_id : TransferId)
    : proc W (option (list TreeNode)) :=
  r ← query_transfer transfer_id;
  match r with
  | Ok (Some t) =>
      if decide (transfer_status t = TransferStatus.Completed) then
        our_pubkey ← call get_identity_public_key;
        match our_pubkey with
        | Ok our_pubkey => mret (Some (filter (λ leaf, owner_identity_public_key leaf = Some our_pubkey)
                                         (tl_leaf <$> transfer_leaves t)))
        | Err _ => mret None
        end
      else mret None
  | _ => mret None
  end.

(** The loop, with the number of attempts left. *)
Fixpoint claim_loop self (transfer : Transfer) (config : ClaimTransferConfig) (attempts : nat)
    (retry_count : Z) : proc W (ServiceResult (list TreeNode)) :=
  match attempts with
  | O => mret (Err ServiceError.MaxRetriesExceeded)
  | S attempts =>
      _ ← (if 0 <? retry_count then modify (sleep (retry_delay_ms config retry_count)) else mret ());
      r ← try_claim_transfer self transfer;
      match r with
      | Ok nodes => mret (Ok nodes)
      | Err ServiceError.NoLeavesToClaim => mret (Ok [])
      | Err _ =>
          leaves ← finalized_leaves_if_already_claimed (transfer_id transfer);
          match leaves with
          | Some leaves => mret (Ok leaves)
          | None => claim_loop self transfer config attempts (uadd 32 retry_count 1)
          end
      end
  end.

(** [retry_count] goes from 0 up to [max_retries], a [u32]. *)
Definition claim_transfer_with_retries self (transfer : Transfer) (config : option ClaimTransferConfig)
    : proc W (ServiceResult (list TreeNode)) :=
  let config := default ClaimTransferConfig_default config in
  claim_loop self transfer config (Z.to_nat (max_retries config)) 0.

(** Inside the claim lock; [permit] is its slot. *)
Definition claim_transfer_locked self (waited : bool) (permit : option (list TreeNode))
    (transfer : Transfer) (config : option ClaimTransferConfig)
    : proc W (ServiceResult (list TreeNode) * option (list TreeNode)) :=
  match permit with
  | Some leaves => mret (Ok leaves, Some leaves)
  | None =>
      finalized ← (if waited : bool then finalized_leaves_if_already_claimed (transfer_id transfer)
                   else mret None);
      match finalized with
      | Some leaves => mret (Ok leaves, Some leaves)
      | None =>
          r ← claim_transfer_with_retries self transfer config;
          match r with
          | Ok leaves => mret (Ok leaves, Some leaves)
          | Err e => mret (Err e, None)
          end
      end
  end.
End service.
