(* ===== verification/SwapService.v ===== *)
(** * Swaps of leaves: [spark/src/services/swap.rs]

    The wallet gives leaves to the service provider (SSP) and gets leaves of other
    amounts back: it starts a transfer of its leaves whose refunds are bound to an
    adaptor key, has the SSP answer it with a transfer of its own, and claims that. The
    SSP, the clock, the random key and the claim lock are the class [SwapEnv]. *)

From S2P Require Import Prelude WireBytes Bitcoin BitcoinTx Timelock SparkTx TreeModel NodeWire Paging.
From S2P Require Import FrostBatch FrostAggregate RefundJobs TransferModel.
From S2P Require Import ServiceCalls TransferService.
Open Scope Z_scope.

Definition SWAP_EXPIRY_DURATION : Z := 2 * 60 * NANOS_PER_SEC.
Definition SSP_REQUEST_SWAP_MAX_ATTEMPTS : Z := 5.
Definition SSP_REQUEST_SWAP_BASE_DELAY_MS : Z := 100.
Definition SSP_REQUEST_SWAP_MAX_DELAY_MS : Z := 3000.

Definition is_retryable_ssp_error (error : ServiceProviderError.t) : bool :=
  match error with ServiceProviderError.Network _ _ => true | _ => false end.

(** [(base * 2u64.pow(attempt - 1)).min(max)] *)
Definition ssp_delay_ms (attempt : Z) : Z :=
  Z.min (wrap 64 (SSP_REQUEST_SWAP_BASE_DELAY_MS * wrap 64 (2 ^ (attempt - 1))))
    SSP_REQUEST_SWAP_MAX_DELAY_MS.

(** ** Messages *)

Record AdaptorPublicKeyPackage := {
  adaptor_public_key : list Z;
  direct_adaptor_public_key : list Z;
  direct_from_cpfp_adaptor_public_key : list Z;
}.

Record InitiateSwapPrimaryTransferRequest := {
  ispt_transfer : option StartTransferRequest;
  adaptor_public_keys : option AdaptorPublicKeyPackage;
}.

Record InitiateSwapPrimaryTransferResponse := {
  ispt_response_transfer : option ProtoTransfer.Transfer;
  signing_results : list ProtoSigning.LeafRefundTxSigningResult;
}.

(** The direct transactions and signatures, which the code leaves out, are left out. *)
Record UserLeafInput := {
  uli_leaf_id : string;
  raw_unsigned_refund_transaction : string;
  adaptor_added_signature : string;
}.

Record RequestSwapInput := {
  adaptor_pubkey : string;
  total_amount_sats : Z;
  target_amount_sats : list Z;
  fee_sats : Z;
  user_leaves : list UserLeafInput;
  user_outbound_transfer_external_id : string;
}.

(** The fields the code reads of the SSP's answer. *)
Record SspTransfer := { spark_id : option string }.
Record LeavesSwapRequest := { inbound_transfer : option SspTransfer }.

Class SwapEnv {B : Bitcoin} {BT : BitcoinTx} `{!Codec} `{!SignatureCodec} (W : Type) := {
  swap_transfers :: TransferEnv W;
  swap_aggregate :: FrostAggregate;
  as_byte_array : Sighash → list Z;
  swap_clock :: ClockEnv W;
  (** [SecretKey::new(&mut OsRng)], of which only the public key is used *)
  new_adaptor_key : W → PublicKey * W;
  (** [claim_locks.acquire], the permit's [try_lock] or [lock], and their release:
      whether the claim had to wait, and the slot (see [ClaimLocks]) *)
  acquire_claim : TransferId → W → (bool * option (list TreeNode)) * W;
  release_claim : TransferId → option (list TreeNode) → W → W;
  client_initiate_swap_primary_transfer : InitiateSwapPrimaryTransferRequest → W →
    result OperatorRpcError.t InitiateSwapPrimaryTransferResponse * W;
  ssp_request_swap : RequestSwapInput → W →
    result ServiceProviderError.t LeavesSwapRequest * W;
}.

Section service.
Context {B : Bitcoin} {BT : BitcoinTx} `{!Codec} `{!SignatureCodec} {W : Type} `{!SwapEnv W}.
Context `{!HashIter string} `{!HashIter Identifier}.

(** The fields besides the clients and the network. *)
Record Swap := {
  ssp_identity_public_key : PublicKey;
  transfer_service : TransferService (W := W);
}.

Implicit Types self : Swap.

(** [TransferService::claim_transfer] *)
Definition claim_transfer (service : TransferService (W := W)) (transfer : Transfer)
    (config : option ClaimTransferConfig) : proc W (ServiceResult (list TreeNode)) :=
  acquired ← call (acquire_claim (transfer_id transfer));
  let '(waited, permit) := acquired in
  claimed ← claim_transfer_locked service waited permit transfer config;
  let '(r, permit) := claimed in
  _ ← modify (release_claim (transfer_id transfer) permit);
  mret r.

Definition prepare_swap self (leaves : list TreeNode) (maybe_target_amounts : option (list Z))
    : proc W (ServiceResult PrepareTransferRequest) :=
  match leaves with
  | [] => mret (Err (ServiceError.Generic "no leaves to swap"))
  | _ =>
      _ ←? mret match maybe_target_amounts with
        | Some target_amounts =>
            if bool_decide (target_amounts = []) then Err ServiceError.InvalidAmount
            else if bool_decide (0 ∈ target_amounts) then Err ServiceError.InvalidAmount
            else Ok ()
        | None => Ok ()
        end;
      let leaf_sum := sum_wrap 64 (value <$> leaves) in
      let target_sum := from_option (sum_wrap 64) leaf_sum maybe_target_amounts in
      if leaf_sum <? target_sum then mret (Err ServiceError.InsufficientFunds)
      else
        transfer_id ← call uuid_now_v7;
        request ← build_transfer_approval_request (transfer_service self) transfer_id leaves
                    (ssp_identity_public_key self);
        mret (Ok request)
  end.

(** For swap v3 the direct transactions are not provided. *)
Definition without_direct (request : StartTransferRequest) : StartTransferRequest :=
  {| st_transfer_id := st_transfer_id request;
     st_owner_identity_public_key := st_owner_identity_public_key request;
     st_receiver_identity_public_key := st_receiver_identity_public_key request;
     st_expiry_time := st_expiry_time request;
     st_transfer_package := (λ package,
       {| leaves_to_send := leaves_to_send package;
          direct_leaves_to_send := [];
          direct_from_cpfp_leaves_to_send := [];
          tp_key_tweak_package := tp_key_tweak_package package;
          tp_user_signature := tp_user_signature package;
          tp_hash_variant := tp_hash_variant package |}) <$> st_transfer_package request;
     st_spark_invoice := st_spark_invoice request |}.

(** The first half of a round of the loop over the signing results: the signed
    transaction of the leaf and what is aggregated for it. An output past the end
    panics. *)
Definition adaptor_request (cpfp_signed_txs : list SignedTx) (leaf_key_tweaks : list LeafKeyTweak)
    (cpfp_adaptor_public_key : PublicKey) (signing_result : ProtoSigning.LeafRefundTxSigningResult)
    : proc W (ServiceResult (SignedTx * AggregateFrostRequest)) :=
  leaf_id ←? mret match TreeNodeId_from_str (ProtoSigning.leaf_id signing_result) with
    | Ok leaf_id => Ok leaf_id
    | Err _ => Err (ServiceError.Generic "invalid leaf_id in signing result")
    end;
  signed_tx ←? mret (or_generic (List.find (λ tx, bool_decide (stx_node_id tx = leaf_id)) cpfp_signed_txs)
    ("No signed tx found for leaf_id: " +:+ ProtoSigning.leaf_id signing_result));
  leaf_key_tweak ←? mret (or_generic
    (List.find (λ l, bool_decide (id (lkt_node l) = leaf_id)) leaf_key_tweaks)
    ("No leaf key tweak found for leaf_id: " +:+ ProtoSigning.leaf_id signing_result));
  verifying_key ←? mret (ok_or (public_key_from_slice (ProtoSigning.verifying_key signing_result))
    ServiceError.InvalidPublicKey);
  refund_signing_result ←? mret (or_generic (ProtoSigning.refund_tx_signing_result signing_result)
    "missing refund_tx_signing_result");
  signing_result_data ←? mret (signing_result_try_from refund_signing_result);
  let node := lkt_node leaf_key_tweak in
  output ← panic_or (tx_output (node_tx node) !! Z.to_nat (vout node));
  sighash ←? mret (map_err ServiceError.BitcoinError (sighash_from_tx (stx_tx signed_tx) 0 output));
  mret (Ok (signed_tx, {|
    afr_message := as_byte_array sighash;
    afr_statechain_signatures := sr_signature_shares signing_result_data;
    afr_statechain_public_keys := sr_public_keys signing_result_data;
    afr_verifying_key := verifying_key;
    afr_statechain_commitments := sr_signing_commitments signing_result_data;
    afr_self_commitment := commitments (stx_self_nonce_commitment signed_tx);
    afr_public_key := stx_signing_public_key signed_tx;
    afr_self_signature := stx_user_signature signed_tx;
    afr_adaptor_public_key := Some cpfp_adaptor_public_key |})).

(** The second half: the signature, and what the SSP is told. *)
Definition user_leaf (cpfp_signed_txs : list SignedTx) (leaf_key_tweaks : list LeafKeyTweak)
    (cpfp_adaptor_public_key : PublicKey) (signing_result : ProtoSigning.LeafRefundTxSigningResult)
    : proc W (ServiceResult UserLeafInput) :=
  r ←? adaptor_request cpfp_signed_txs leaf_key_tweaks cpfp_adaptor_public_key signing_result;
  let '(signed_tx, request) := r in
  adaptor_signature ←? mret (map_err (λ e, ServiceError.Generic ("FROST aggregation failed: " +:+ e))
    (aggregate_frost request));
  bytes ←? mret (map_err
    (λ e, ServiceError.Generic ("Failed to serialize signature: " +:+ frost_display e))
    (frost_signature_serialize adaptor_signature));
  mret (Ok {| uli_leaf_id := ProtoSigning.leaf_id signing_result;
              raw_unsigned_refund_transaction := hex_encode (serialize (stx_tx signed_tx));
              adaptor_added_signature := hex_encode bytes |}).

(** The loop, with the rounds left; [attempts] is enough, as [ssp_requests_end] shows. *)
Fixpoint request_swap_loop (request : RequestSwapInput) (attempts : nat) (attempt : Z)
    : proc W (ServiceResult LeavesSwapRequest) :=
  match attempts with
  | O => panic_or None
  | S attempts =>
      r ← call (ssp_request_swap request);
      match r with
      | Ok r => mret (Ok r)
      | Err e =>
          if (attempt <? SSP_REQUEST_SWAP_MAX_ATTEMPTS) && is_retryable_ssp_error e then
            _ ← modify (sleep (ssp_delay_ms attempt));
            request_swap_loop request attempts (uadd 32 attempt 1)
          else mret (from_ssp (Err e))
      end
  end.

Definition request_swap (request : RequestSwapInput) : proc W (ServiceResult LeavesSwapRequest) :=
  request_swap_loop request (Z.to_nat SSP_REQUEST_SWAP_MAX_ATTEMPTS) 1.

(** From the SSP's answer to its transfer. *)
Definition find_inbound_transfer (swap_response : LeavesSwapRequest) : proc W (ServiceResult Transfer) :=
  inbound_transfer_id ←? mret (or_generic (t ← inbound_transfer swap_response; spark_id t)
    "inbound transfer spark_id missing");
  identity ←? identity_key;
  response ←? rpc (client_query_all_transfers
    {| participant := Some (ReceiverIdentityPublicKey (public_key_serialize identity));
       filter_transfer_ids := [inbound_transfer_id]; filter_limit := 0; filter_offset := 0;
       types := []; filter_order := Descending |});
  mret (t ← or_generic (head (transfers response)) "transfer not found"; transfer_try_from t).

Definition submit_swap self (transfer_id : TransferId) (leaves : list TreeNode)
    (maybe_target_amounts : option (list Z)) (prepared : PreparedTransfer)
    : proc W (ServiceResult (list TreeNode)) :=
  let leaf_sum := sum_wrap 64 (value <$> leaves) in
  let leaf_key_tweaks := prepare_leaf_key_tweaks_to_send leaves in
  now ← call now;
  expiry_time ←? mret (or_generic (checked_add now SWAP_EXPIRY_DURATION)
    "failed to compute swap expiry time");
  cpfp_adaptor_public_key ← call new_adaptor_key;
  prepared_transfer_request ←? assemble_transfer_request_with_prepared transfer_id leaf_key_tweaks
    (ssp_identity_public_key self) None (Some expiry_time) (Some cpfp_adaptor_public_key) prepared;
  response ←? rpc (client_initiate_swap_primary_transfer {|
    ispt_transfer := Some (without_direct (transfer_request prepared_transfer_request));
    adaptor_public_keys := Some {|
      adaptor_public_key := public_key_serialize cpfp_adaptor_public_key;
      direct_adaptor_public_key := []; direct_from_cpfp_adaptor_public_key := [] |} |});
  _ ←? mret (or_generic (ispt_response_transfer response) "response missing transfer");
  user_leaves ←? try_all (user_leaf (ptrq_cpfp_signed_txs prepared_transfer_request) leaf_key_tweaks
                            cpfp_adaptor_public_key) (signing_results response);
  swap_response ←? request_swap {|
    adaptor_pubkey := hex_encode (public_key_serialize cpfp_adaptor_public_key);
    total_amount_sats := leaf_sum;
    target_amount_sats := default [leaf_sum] maybe_target_amounts;
    fee_sats := 0;
    user_leaves := user_leaves;
    user_outbound_transfer_external_id := transfer_id |};
  inbound_transfer ←? find_inbound_transfer swap_response;
  claimed ← claim_transfer (transfer_service self) inbound_transfer None;
  mret (Ok match claimed with Ok nodes => nodes | Err _ => [] end).

Definition swap_leaves self (leaves : list TreeNode) (maybe_target_amounts : option (list Z))
    : proc W (ServiceResult (list TreeNode)) :=
  prepare_transfer_request ←? prepare_swap self leaves maybe_target_amounts;
  prepared ←? signer (call (prepare_transfer prepare_transfer_request));
  submit_swap self (ptr_transfer_id prepare_transfer_request) leaves maybe_target_amounts prepared.
End service.
