(* ===== verification/TransferServiceSpec.v ===== *)
(** * What claiming and sending sign, ask for and return

    [claims_settle]: a claim always returns, after a bounded number of attempts, with
    leaves or with [MaxRetriesExceeded]. [claims_pay_own_key]: it signs only refunds of
    leaves whose sender vouched for them, to this wallet's own keys.
    [claim_completes]: with operators that go along it succeeds. [sends_start_once]: a
    payment starts at most one transfer, and reports success only for it. *)

From S2P Require Import Prelude WireBytes Bitcoin BitcoinTx Timelock SparkTx TreeModel NodeWire Paging.
From S2P Require Import FrostBatch RefundJobs RefundJobsSpec TransferModel ServiceCalls TransferService.
Open Scope Z_scope.

(** ** The calls and what they leave behind *)

(** [X] has the requests of the services that use this one. *)
Inductive Event {X : Type} :=
| Slept (ms : Z)
| Started (request : StartTransferRequest)
| Claimed (request : ClaimTransferRequest)
| Requested (request : X).
#[global] Arguments Event : clear implicits.

(** The jobs given to the signer are in [frost_log]; [events] has the sleeps and the
    requests that change a transfer, in order. *)
Class TransferLaws `{TransferEnv W} := {
  transfer_refund_laws :: RefundLaws (W := W);
  other_request : Type;
  events : W → list (Event other_request);
  log_uuid w : frost_log (uuid_now_v7 w).2 = frost_log w;
  log_prepare_transfer r w : frost_log (prepare_transfer r w).2 = frost_log w;
  log_prepare_claim r w : frost_log (prepare_claim r w).2 = frost_log w;
  log_message m w : frost_log (sign_message m w).2 = frost_log w;
  log_sleep d w : frost_log (sleep d w) = frost_log w;
  log_query_all r w : frost_log (client_query_all_transfers r w).2 = frost_log w;
  log_start r w : frost_log (client_start_transfer_v2 r w).2 = frost_log w;
  log_claim r w : frost_log (client_claim_transfer r w).2 = frost_log w;
  events_identity w : events (get_identity_public_key w).2 = events w;
  events_key i w : events (signer_public_key_for_leaf i w).2 = events w;
  events_sign jobs w : events (sign_frost jobs w).2 = events w;
  events_commitments ids n m w : events (client_get_signing_commitments ids n m w).2 = events w;
  events_uuid w : events (uuid_now_v7 w).2 = events w;
  events_prepare_transfer r w : events (prepare_transfer r w).2 = events w;
  events_prepare_claim r w : events (prepare_claim r w).2 = events w;
  events_message m w : events (sign_message m w).2 = events w;
  events_query_all r w : events (client_query_all_transfers r w).2 = events w;
  events_sleep d w : events (sleep d w) = events w ++ [Slept d];
  events_start r w : events (client_start_transfer_v2 r w).2 = events w ++ [Started r];
  events_claim r w : events (client_claim_transfer r w).2 = events w ++ [Claimed r];
}.

(** Reading the clock does nothing else. *)
Class ClockLaws `{TransferLaws W, !ClockEnv W} : Prop := {
  log_now w : frost_log (now w).2 = frost_log w;
  events_now w : events (now w).2 = events w;
}.

Create HintDb calls.
#[export] Hint Resolve @log_key @log_commitments @log_identity @log_uuid @log_prepare_transfer
  @log_prepare_claim @log_message @log_sleep @log_query_all @log_start @log_claim @events_identity
  @events_key @events_commitments @events_uuid @events_prepare_transfer @events_prepare_claim
  @events_message @events_query_all : calls.
#[export] Hint Extern 1 (_ = _) => apply log_now : calls.
#[export] Hint Extern 1 (_ = _) => apply events_now : calls.

Section emits.
Context `{TransferLaws W}.
Implicit Types (js : list (FrostJob Sighash)) (evs : list (Event other_request)).

(** [m] returns, and [Q] holds of what it returns, signs and does. *)
Definition emits {A} (m : proc W A) (w : W)
    (Q : A → list (FrostJob Sighash) → list (Event other_request) → Prop) : Prop :=
  returns m w (λ a w', ∃ js evs,
    frost_log w' = frost_log w ++ js ∧ events w' = events w ++ evs ∧ Q a js evs).

Lemma emits_weaken {A} (m : proc W A) w (Q Q' : A → _ → _ → Prop) :
  emits m w Q → (∀ a js evs, Q a js evs → Q' a js evs) → emits m w Q'.
Proof.
  intros Hm HQ. eapply returns_weaken; [exact Hm|]. intros a w' (js & evs & ? & ? & ?). eauto 10.
Qed.

Lemma emits_ret {A} (a : A) w (Q : A → _ → _ → Prop) : Q a [] [] → emits (mret a) w Q.
Proof. intros HQ. apply returns_ret. exists [], []. by rewrite !app_nil_r. Qed.

Lemma emits_bind {A A'} (m : proc W A) (f : A → proc W A') w (Q : A' → _ → _ → Prop) :
  emits m w (λ a js evs, ∀ w', emits (f a) w' (λ b js' evs', Q b (js ++ js') (evs ++ evs'))) →
  emits (m ≫= f) w Q.
Proof.
  intros Hm. apply returns_bind. eapply returns_weaken; [exact Hm|].
  intros a w1 (js & evs & Hj & He & Hf). eapply returns_weaken; [apply Hf|].
  intros b w2 (js' & evs' & -> & -> & HQ). exists (js ++ js'), (evs ++ evs').
  by rewrite Hj, He, !app_assoc.
Qed.

Lemma emits_try {E A A'} (m : proc W (result E A)) (f : A → proc W (result E A')) w
    (Q : result E A' → _ → _ → Prop) :
  emits m w (λ r js evs, match r with
    | Ok a => ∀ w', emits (f a) w' (λ b js' evs', Q b (js ++ js') (evs ++ evs'))
    | Err e => Q (Err e) js evs end) →
  emits (try_bind m f) w Q.
Proof.
  intros Hm. apply emits_bind. eapply emits_weaken; [exact Hm|].
  intros [a|e] js evs HQ w'; [apply HQ|]. apply emits_ret. by rewrite !app_nil_r.
Qed.

(** [m] returns without signing or doing anything. *)
Definition quietly {A} (m : proc W A) (w : W) (Q : A → Prop) : Prop :=
  emits m w (λ a js evs, js = [] ∧ evs = [] ∧ Q a).

Lemma quietly_weaken {A} (m : proc W A) w (Q Q' : A → Prop) :
  quietly m w Q → (∀ a, Q a → Q' a) → quietly m w Q'.
Proof. intros Hm HQ. eapply emits_weaken; [exact Hm|]. naive_solver. Qed.

Lemma quietly_ret {A} (a : A) w (Q : A → Prop) : Q a → quietly (mret a) w Q.
Proof. intros HQ. by apply emits_ret. Qed.

Lemma emits_quiet {A A'} (m : proc W A) (f : A → proc W A') w Q (Q' : A' → _ → _ → Prop) :
  quietly m w Q → (∀ a w', Q a → emits (f a) w' Q') → emits (m ≫= f) w Q'.
Proof.
  intros Hm Hf. apply emits_bind. eapply emits_weaken; [exact Hm|].
  intros a js evs (-> & -> & HQ) w'. by apply Hf.
Qed.

Lemma emits_quiet_try {E A A'} (m : proc W (result E A)) (f : A → proc W (result E A')) w Q
    (Q' : result E A' → _ → _ → Prop) :
  quietly m w Q → (∀ a w', Q (Ok a) → emits (f a) w' Q') → (∀ e, Q (Err e) → Q' (Err e) [] []) →
  emits (try_bind m f) w Q'.
Proof.
  intros Hm Hf He. eapply emits_quiet; [exact Hm|]. intros [a|e] w' HQ; [by apply Hf|].
  apply emits_ret. by apply He.
Qed.

(** The same for a call that may panic. *)
Definition may_emit {A} (m : proc W A) (w : W)
    (Q : A → list (FrostJob Sighash) → list (Event other_request) → Prop) : Prop :=
  ends_in m w (λ a w', ∃ js evs,
    frost_log w' = frost_log w ++ js ∧ events w' = events w ++ evs ∧ Q a js evs).

Lemma emits_may {A} (m : proc W A) w (Q : A → _ → _ → Prop) : emits m w Q → may_emit m w Q.
Proof. intros (a & w' & Hm & HQ). unfold may_emit, ends_in. by rewrite Hm. Qed.

Lemma may_weaken {A} (m : proc W A) w (Q Q' : A → _ → _ → Prop) :
  may_emit m w Q → (∀ a js evs, Q a js evs → Q' a js evs) → may_emit m w Q'.
Proof.
  intros Hm HQ. eapply ends_in_weaken; [exact Hm|]. intros a w' (js & evs & ? & ? & ?). eauto 10.
Qed.

Lemma may_bind {A A'} (m : proc W A) (f : A → proc W A') w (Q : A' → _ → _ → Prop) :
  may_emit m w (λ a js evs, ∀ w', may_emit (f a) w' (λ b js' evs', Q b (js ++ js') (evs ++ evs'))) →
  may_emit (m ≫= f) w Q.
Proof.
  intros Hm. apply ends_in_bind. eapply ends_in_weaken; [exact Hm|].
  intros a w1 (js & evs & Hj & He & Hf). eapply ends_in_weaken; [apply Hf|].
  intros b w2 (js' & evs' & -> & -> & HQ). exists (js ++ js'), (evs ++ evs').
  by rewrite Hj, He, !app_assoc.
Qed.

Lemma may_try {E A A'} (m : proc W (result E A)) (f : A → proc W (result E A')) w
    (Q : result E A' → _ → _ → Prop) :
  may_emit m w (λ r js evs, match r with
    | Ok a => ∀ w', may_emit (f a) w' (λ b js' evs', Q b (js ++ js') (evs ++ evs'))
    | Err e => Q (Err e) js evs end) →
  may_emit (try_bind m f) w Q.
Proof.
  intros Hm. apply may_bind. eapply may_weaken; [exact Hm|].
  intros [a|e] js evs HQ w'; [apply HQ|]. apply emits_may, emits_ret. by rewrite !app_nil_r.
Qed.

(** Go on after a call that neither signs nor does anything. *)
Lemma may_skip {E A A'} (m : proc W (result E A)) (f : A → proc W (result E A')) w
    (Q : A → Prop) (Q' : result E A' → _ → _ → Prop) :
  quietly m w (λ r, match r with Ok a => Q a | Err _ => True end) →
  (∀ a w', Q a → may_emit (f a) w' Q') → (∀ e, Q' (Err e) [] []) → may_emit (try_bind m f) w Q'.
Proof.
  intros Hm Hf He. apply may_try, emits_may. eapply emits_weaken; [exact Hm|].
  intros [a|e] js evs (-> & -> & HQ); [|apply He]. intros w'. by apply Hf.
Qed.

Lemma quietly_call {A} (f : W → A * W) w (Q : A → Prop) :
  frost_log (f w).2 = frost_log w → events (f w).2 = events w → Q (f w).1 → quietly (call f) w Q.
Proof.
  intros Hl He HQ. apply returns_call. exists [], []. by rewrite !app_nil_r.
Qed.

Lemma quietly_panic {A} (o : option A) a w (Q : A → Prop) : o = Some a → Q a → quietly (panic_or o) w Q.
Proof. intros -> HQ. by apply quietly_ret. Qed.

(** [signer (call f)], [rpc f] *)
Lemma quietly_signer {A} (f : W → result string A * W) w (Q : A → Prop) :
  frost_log (f w).2 = frost_log w → events (f w).2 = events w →
  (∀ a w', f w = (Ok a, w') → Q a) →
  quietly (signer (call f)) w (λ r, match r with Ok a => Q a | Err _ => True end).
Proof.
  intros Hl He HQ. unfold signer. eapply emits_quiet; [by apply (quietly_call f w (λ r, r = (f w).1))|].
  intros r w' ->. apply quietly_ret. destruct (f w) as [[a|e] w1] eqn:Hf; simpl; [by eapply HQ|done].
Qed.

Lemma quietly_rpc {A} (f : W → result OperatorRpcError.t A * W) w (Q : A → Prop) :
  frost_log (f w).2 = frost_log w → events (f w).2 = events w →
  (∀ a w', f w = (Ok a, w') → Q a) →
  quietly (rpc f) w (λ r, match r with Ok a => Q a | Err _ => True end).
Proof.
  intros Hl He HQ. unfold rpc. eapply emits_quiet; [by apply (quietly_call f w (λ r, r = (f w).1))|].
  intros r w' ->. apply quietly_ret. destruct (f w) as [[a|e] w1] eqn:Hf; simpl; [by eapply HQ|done].
Qed.

Lemma quietly_try_all {E A A'} (f : A → proc W (result E A')) (Q : A → A' → Prop) l w :
  (∀ a w, a ∈ l → quietly (f a) w (λ r, match r with Ok b => Q a b | Err _ => True end)) →
  quietly (try_all f l) w (λ r, match r with Ok bs => Forall2 Q l bs | Err _ => True end).
Proof.
  revert w. induction l as [|a l IH]; intros w Hf; simpl; [by apply quietly_ret|].
  eapply emits_quiet_try; [apply Hf; by left| |done]. intros b w1 Hb.
  eapply emits_quiet_try; [apply IH; intros; apply Hf; by right| |done]. intros bs w2 Hbs.
  apply quietly_ret. by constructor.
Qed.
End emits.

(** ** What a claim signs *)

Section claim.
Context `{TransferLaws W} `{!HashIter string} `{!HashIter Identifier}.
Implicit Types (leaf : LeafKeyTweak) (t prev : Transaction) (transfer : Transfer) (self : TransferService (W := W)).
Implicit Types (evs : list (Event other_request)).

(** A share the wallet may sign to claim [node]: output 0 of the node's transactions goes to
    the key the wallet has for the node, under the timelock of the node's refund rounded
    down, or 50 blocks above that. *)
Definition sound_claim (node : TreeNode) (j : FrostJob Sighash) : Prop :=
  fj_derivation j = SigningLeaf (id node) ∧ fj_verifying_key j = verifying_public_key node ∧
  fj_adaptor_public_key j = None ∧
  ∃ prev t old_refund old s o,
    (prev = node_tx node ∨ direct_tx node = Some prev) ∧
    refund_tx node = Some old_refund ∧ input_sequences old_refund !! 0%nat = Some old ∧
    spends prev o t (p2tr_script (key_of (id node))) ∧ input_sequences t = [s] ∧
    taproot_key_spend_signature_hash t 0 [o] = Ok (fj_sighash j) ∧
    (low_timelock s = low_timelock (enforce_timelock old) ∨
     low_timelock s = low_timelock (enforce_timelock old) + DIRECT_TIME_LOCK_OFFSET).

Lemma claim_refund_job_sound leaf prev t prev_output old_refund old s comms i w :
  (i < length comms)%nat →
  prev = node_tx (lkt_node leaf) ∨ direct_tx (lkt_node leaf) = Some prev →
  tx_output prev !! 0%nat = Some prev_output →
  refund_tx (lkt_node leaf) = Some old_refund → input_sequences old_refund !! 0%nat = Some old →
  low_timelock s = low_timelock (enforce_timelock old) ∨
    low_timelock s = low_timelock (enforce_timelock old) + DIRECT_TIME_LOCK_OFFSET →
  moves prev t (p2tr_script (key_of (id (lkt_node leaf)))) s →
  quietly (claim_refund_job leaf (key_of (id (lkt_node leaf))) t prev_output comms i) w
    (λ r, match r with Ok j => sound_claim (lkt_node leaf) (job j) | Err _ => True end).
Proof.
  intros [c Hc]%lookup_lt_is_Some Hprev Ho Hold Hseq Hs (o & Hspends & Hin).
  pose proof Hspends as (Ho' & (s' & Hi) & _). rewrite Ho in Ho'. injection Ho' as <-.
  eapply emits_quiet_try; [by apply (quietly_ret _ w (λ r, r = claim_sighash t prev_output))| |].
  - intros sighash w1 Hsig. eapply emits_quiet; [by apply (quietly_panic _ c w1 (λ _, True))|].
    intros comm w2 _. apply quietly_ret. split_and!; [done..|].
    exists prev, t, old_refund, old, s, prev_output. split_and!; try done.
    unfold claim_sighash, sighash_from_tx in Hsig. rewrite Hi in Hsig. simpl in Hsig.
    by destruct (taproot_key_spend_signature_hash t 0 [prev_output]); simplify_eq/=.
  - done.
Qed.

(** [let x = r?;] *)
Lemma quietly_let {E A A'} (r : result E A) (f : A → proc W (result E A')) w (Q : result E A' → Prop) :
  (∀ a w', r = Ok a → quietly (f a) w' Q) → (∀ e, Q (Err e)) → quietly (try_bind (mret r) f) w Q.
Proof.
  intros Hf He. eapply emits_quiet_try; [by apply (quietly_ret r w (λ r', r' = r))| |done].
  intros a w' Hr. by apply Hf.
Qed.

Lemma quietly_get {E A A'} (o : option A) a (f : A → proc W (result E A')) w (Q : result E A' → Prop) :
  o = Some a → (∀ w', quietly (f a) w' Q) → quietly (panic_or o ≫= f) w Q.
Proof.
  intros Ho Hf. eapply emits_quiet; [by apply (quietly_panic o a w (λ b, b = a))|]. intros b w' ->. apply Hf.
Qed.

Definition sound_option node (r : ServiceResult (option RefundJob)) : Prop :=
  match r with Ok o => Forall (sound_claim node) (job <$> option_list o) | Err _ => True end.

Lemma optional_claim_job node (m : proc W (ServiceResult RefundJob)) w :
  quietly m w (λ r, match r with Ok j => sound_claim node (job j) | Err _ => True end) →
  quietly (j ←? m; mret (Ok (Some j))) w (sound_option node).
Proof.
  intros Hm. eapply emits_quiet_try; [exact Hm| |done]. intros j w' Hj. apply quietly_ret.
  by constructor.
Qed.

Lemma node_timelock_Ok tx i s : node_timelock tx i = Ok s → input_sequences tx !! 0%nat = Some s.
Proof. apply ok_or_Ok. Qed.

(** A node with an input has a timelock, so the method does not panic. *)
Lemma direct_method_total node s :
  input_sequences (node_tx node) !! 0%nat = Some s → ∃ d, direct_refund_tx_method node = Some d.
Proof.
  intros Hs. unfold direct_refund_tx_method, is_zero_timelock, node_sequence. rewrite Hs. by eexists.
Qed.

Lemma create_refund_txs_total node_tx direct cs ds key o :
  tx_output node_tx !! 0%nat = Some o → (∀ d, direct = Some d → is_Some (tx_output d !! 0%nat)) →
  ∃ txs, create_refund_txs node_tx direct cs ds key = Some txs.
Proof.
  intros Ho Hd. unfold create_refund_txs. rewrite Ho. simpl. destruct direct as [d|]; [|by eexists].
  destruct (Hd d eq_refl) as [o' ->]. by eexists.
Qed.

Lemma claim_leaf_jobs_sound cpfp direct dfc i leaf w :
  (i < length cpfp)%nat → (i < length direct)%nat → (i < length dfc)%nat →
  quietly (claim_leaf_jobs cpfp direct dfc i leaf) w (λ r, match r with
    | Ok jobs => Forall (sound_claim (lkt_node leaf)) (job <$> leaf_jobs jobs) | Err _ => True end).
Proof.
  intros Hc Hd Hf. eapply emits_quiet_try; [|simpl|done].
  { apply (quietly_signer _ w (λ k, k = key_of (id (lkt_node leaf)))); eauto with calls.
    intros k w'. apply key_of_leaf. }
  intros key w1 ->. apply quietly_let; [|done]. intros s w2 Hs%node_timelock_Ok.
  apply quietly_let; [|done]. intros out w3 Hout%ok_or_Ok.
  apply quietly_let; [|done]. intros old_refund w4 Hold%ok_or_Ok.
  apply quietly_let; [|done]. intros old w5 Hseq%ok_or_Ok.
  apply quietly_let; [|done]. intros [cs ds] w6 Hcur%ok_or_Ok.
  pose proof (current_sequence_spec (enforce_timelock old)) as [Hspec _]. rewrite Hcur in Hspec.
  destruct Hspec as (-> & Hds & _). destruct (direct_method_total _ _ Hs) as [refund_direct Hmethod].
  eapply quietly_get; [exact Hmethod|]. intros w7. apply quietly_let; [|done]. intros [] w8 Hfirst.
  destruct (create_refund_txs_total (node_tx (lkt_node leaf)) refund_direct (enforce_timelock old) ds
    (key_of (id (lkt_node leaf))) out Hout) as [txs Htxs].
  { intros d ->. unfold first_output in Hfirst. destruct (tx_output d !! 0%nat); [by eexists|done]. }
  eapply quietly_get; [exact Htxs|]. intros w9.
  pose proof (create_refund_txs_moves _ _ _ _ _ _ Htxs) as (Hcpfp & (f & Hff & Hfm) & Hdirect).
  eapply emits_quiet_try; [by apply (claim_refund_job_sound leaf (node_tx (lkt_node leaf)) _ _ old_refund old (enforce_timelock old)); auto| |done].
  intros cj w10 Hcj.
  apply (emits_quiet_try _ _ _ (sound_option (lkt_node leaf))); [| |done].
  { destruct (direct_tx (lkt_node leaf)) as [d|] eqn:Hdt; [|apply quietly_ret; constructor].
    destruct (refund_direct_tx txs) as [dr|] eqn:Hdr; [|apply quietly_ret; constructor].
    destruct refund_direct as [d'|]; [|done].
    assert (d' = d) as -> by (apply direct_tx_method in Hmethod; congruence).
    apply quietly_let; [|done]. intros dout w11 Hdout%ok_or_Ok.
    apply optional_claim_job. by apply (claim_refund_job_sound leaf d _ _ old_refund old ds); auto. }
  intros jd w11 Hjd. rewrite Hff.
  apply (emits_quiet_try _ _ _ (sound_option (lkt_node leaf))); [| |done].
  { apply (optional_claim_job (lkt_node leaf)). by apply (claim_refund_job_sound leaf (node_tx (lkt_node leaf)) _ _ old_refund old ds); auto. }
  intros jf w12 Hjf. apply quietly_ret. constructor; [done|]. simpl. rewrite fmap_app. by apply Forall_app.
Qed.

(** A batch signs its jobs and nothing else. *)
Lemma sign_leaf_refunds_emits P (leaves : list LeafRefundJobs) w :
  Forall P (job <$> all_jobs leaves) →
  emits (signer (sign_leaf_refunds leaves)) w (λ _ js evs, evs = [] ∧ Forall P js).
Proof.
  intros HP. unfold signer. apply emits_bind.
  destruct (sign_leaf_refunds_spec leaves w) as (r & Hr & _). exists r, (sign_frost (job <$> all_jobs leaves) w).2.
  split; [exact Hr|]. exists (job <$> all_jobs leaves), []. rewrite log_sign, events_sign, app_nil_r.
  split_and!; [done..|]. intros w'. apply emits_ret. by rewrite !app_nil_r.
Qed.

Lemma sign_claim_refunds_emits leaves cpfp direct dfc w :
  length cpfp = length leaves → length direct = length leaves → length dfc = length leaves →
  emits (sign_claim_refunds leaves cpfp direct dfc) w (λ _ js evs, evs = [] ∧
    Forall (λ j, ∃ leaf, leaf ∈ leaves ∧ sound_claim (lkt_node leaf) j) js).
Proof.
  intros Hc Hd Hf. eapply emits_quiet_try; [|simpl|done].
  { apply (quietly_try_all _ (λ '(i, leaf) jobs,
      Forall (sound_claim (lkt_node leaf)) (job <$> leaf_jobs jobs))).
    intros [i leaf] w' Hin. apply list_elem_of_lookup in Hin as [k Hk].
    rewrite list_lookup_imap in Hk. destruct (leaves !! k) as [leaf'|] eqn:Hl; [|done]. injection Hk as <- <-.
    apply lookup_lt_Some in Hl. apply claim_leaf_jobs_sound; lia. }
  intros jobs w1 Hjobs. apply emits_try. eapply emits_weaken.
  { apply (sign_leaf_refunds_emits (λ j, ∃ leaf, leaf ∈ leaves ∧ sound_claim (lkt_node leaf) j)).
    apply (all_jobs_sound (λ leaf, sound_claim (lkt_node leaf))).
    rewrite <- (imap_pair_snd leaves) at 1.
    apply Forall2_fmap_l. eapply Forall2_impl; [exact Hjobs|]. by intros [i leaf] lj. }
  intros [signed|e] js evs [-> Hjs]; [|done]. intros w2. apply emits_ret. by rewrite !app_nil_r.
Qed.

Lemma fetch_commitments_quiet ids n w :
  quietly (fetch_commitments ids n) w (λ _ : ServiceResult (list (gmap Identifier SigningCommitments)), True).
Proof.
  eapply emits_quiet_try; [apply (quietly_rpc _ w (λ _, True)); eauto with calls| |done].
  intros c w' _. by apply quietly_ret.
Qed.

Lemma split_lengths {T} (cs a b c : list T) n :
  split_signing_commitments_by_variant cs n = Ok (a, b, c) → length a = n ∧ length b = n ∧ length c = n.
Proof.
  unfold split_signing_commitments_by_variant. destruct (n =? 0)%nat; [done|].
  destruct (negb _) eqn:?; [done|]. destruct (Nat.eqb_spec (length cs) (3 * n)) as [Hl|]; simpl; [|done].
  intros [= <- <- <-]. rewrite !length_take, !length_drop. lia.
Qed.

(** Go on after a call that neither signs nor does anything, and whose result does not
    matter. *)
Lemma emits_skip {E A A'} (m : proc W (result E A)) (f : A → proc W (result E A')) w
    (Q : A → Prop) (Q' : result E A' → _ → _ → Prop) :
  quietly m w (λ r, match r with Ok a => Q a | Err _ => True end) →
  (∀ a w', Q a → emits (f a) w' Q') → (∀ e, Q' (Err e) [] []) → emits (try_bind m f) w Q'.
Proof. intros Hm Hf He. eapply emits_quiet_try; [exact Hm|exact Hf|by intros e _]. Qed.

Lemma emits_let {E A A'} (r : result E A) (f : A → proc W (result E A')) w
    (Q : result E A' → _ → _ → Prop) :
  (∀ a w', r = Ok a → emits (f a) w' Q) → (∀ e, r = Err e → Q (Err e) [] []) →
  emits (try_bind (mret r) f) w Q.
Proof.
  intros Hf He. eapply emits_quiet_try; [by apply (quietly_ret r w (λ r', r' = r))|..]; simpl; eauto.
Qed.

Lemma quietly_identity w :
  quietly (identity_key (W := W)) w (λ r, match r with Ok k => k = own_identity | Err _ => True end).
Proof.
  apply (quietly_signer _ w (λ k, k = own_identity)); eauto with calls. intros k w'. apply identity_is_own.
Qed.

(** Nothing is signed and nothing is done. *)
Ltac nothing := intros; repeat split; constructor.

Lemma prepare_claim_package_emits self transfer leaves w :
  emits (prepare_claim_package self transfer leaves) w (λ _ js evs, evs = [] ∧
    Forall (λ j, ∃ leaf, leaf ∈ leaves ∧ sound_claim (lkt_node leaf) j) js).
Proof.
  unfold prepare_claim_package. destruct leaves as [|leaf leaves]; [apply emits_ret; nothing|].
  set (l := leaf :: leaves). apply emits_let; [|nothing]. intros n w1 _.
  apply (emits_skip _ _ _ (λ _, True)); [|intros cs w2 _|nothing].
  { eapply quietly_weaken; [apply fetch_commitments_quiet|]. by intros []. }
  apply emits_let; [|nothing]. intros [[cpfp direct] dfc] w3 (Hc & Hd & Hf)%split_lengths.
  apply emits_let; [|nothing]. intros inputs w4 _.
  apply (emits_skip _ _ _ (λ _, True)); [by apply quietly_signer; eauto with calls|intros prepared w5 _|nothing].
  apply emits_try. eapply emits_weaken; [by apply (sign_claim_refunds_emits l)|].
  intros [[[cj dj] fj]|e] js evs [-> Hjs]; [|done]. intros w6.
  apply emits_let; [|intros e _; by rewrite !app_nil_r]. intros bytes w7 _.
  apply (emits_skip _ _ _ (λ _, True)); [by apply quietly_signer; eauto with calls|intros sig w8 _|].
  - apply emits_ret. by rewrite !app_nil_r.
  - intros e. by rewrite !app_nil_r.
Qed.

(** ** Attempts and retries *)

(** The sender signed the leaf, for this transfer, with this secret. *)
Definition vouched transfer (tl : TransferLeaf) : Prop :=
  ∃ s, signature tl = Some s ∧
    verify_ecdsa (sha256 (leaf_payload (transfer_id transfer) tl)) s (sender_identity_public_key transfer) = Ok ().

Lemma verify_leaf_Ok transfer keys tl keys' :
  verify_leaf transfer keys tl = Ok keys' ↔
  vouched transfer tl ∧ keys' = <[id (tl_leaf tl) := secret_cipher tl]> keys.
Proof.
  unfold verify_leaf, vouched. destruct (signature tl) as [s|]; simpl; [|naive_solver].
  destruct (verify_ecdsa _ s _) as [[]|e] eqn:Hv; simpl; naive_solver congruence.
Qed.

Lemma verify_pending_transfer_sound transfer m :
  verify_pending_transfer transfer = Ok m → Forall (vouched transfer) (transfer_leaves transfer).
Proof.
  unfold verify_pending_transfer. generalize (∅ : gmap TreeNodeId (list Z)).
  induction (transfer_leaves transfer) as [|tl l IH]; intros keys; [constructor|]. simpl.
  intros (keys' & [Htl _]%verify_leaf_Ok & Hl)%bind_Ok. constructor; [done|by eapply IH].
Qed.

(** A share of a claim of [transfer]. *)
Definition claimed_share transfer (j : FrostJob Sighash) : Prop :=
  ∃ tl, tl ∈ transfer_leaves transfer ∧ vouched transfer tl ∧ sound_claim (leaf_with_intermediate_txs tl) j.

Lemma prepared_leaves transfer m leaves leaf :
  prepare_leaves_for_claiming transfer m = Ok leaves → leaf ∈ leaves →
  ∃ tl, tl ∈ transfer_leaves transfer ∧ lkt_node leaf = leaf_with_intermediate_txs tl.
Proof.
  unfold prepare_leaves_for_claiming. destruct (omap _ _) as [|leaf' leaves'] eqn:Ho; [done|].
  intros [= <-] Hin. rewrite <- Ho in Hin. apply list_elem_of_omap in Hin as (tl & Htl & Hl).
  apply bind_Some in Hl as (key & _ & [= <-]). by exists tl.
Qed.

Definition claims {X} (evs : list (Event X)) : list ClaimTransferRequest :=
  omap (λ e, match e with Claimed r => Some r | _ => None end) evs.
(** The events of a claim. *)
Definition claim_event {X} (e : Event X) : Prop :=
  match e with Slept _ | Claimed _ => True | _ => False end.
Definition sleeps {X} (evs : list (Event X)) : list Z :=
  omap (λ e, match e with Slept d => Some d | _ => None end) evs.

(** At most one request, for this transfer. *)
Definition one_request transfer evs : Prop :=
  evs = [] ∨ ∃ req, evs = [Claimed req] ∧ ct_transfer_id req = transfer_id transfer.

Lemma rpc_claim_emits req w :
  emits (rpc (client_claim_transfer req)) w (λ _ js evs, js = [] ∧ evs = [Claimed req]).
Proof.
  unfold rpc. apply emits_bind. apply returns_call. exists [], [Claimed req].
  rewrite log_claim, events_claim, app_nil_r. split_and!; [done..|]. intros w'. by apply emits_ret.
Qed.

Lemma claim_transfer_with_leaves_emits self transfer leaves w :
  emits (claim_transfer_with_leaves self transfer leaves) w (λ _ js evs, one_request transfer evs ∧
    Forall (λ j, ∃ leaf, leaf ∈ leaves ∧ sound_claim (lkt_node leaf) j) js).
Proof.
  apply emits_try. eapply emits_weaken; [apply prepare_claim_package_emits|].
  intros [package|e] js evs [-> Hjs]; [|by split; [left|]]. intros w1.
  eapply emits_skip; [apply quietly_identity|intros k w2 _|intros e; rewrite !app_nil_r; by split; [left|]].
  apply emits_try. eapply emits_weaken; [apply rpc_claim_emits|].
  assert (∀ req, ct_transfer_id req = transfer_id transfer →
    one_request transfer [Claimed req] ∧
    Forall (λ j, ∃ leaf, leaf ∈ leaves ∧ sound_claim (lkt_node leaf) j) js) as Hout.
  { intros req Hreq. split; [|done]. right. by exists req. }
  intros [t|e] js' evs' [-> ->]; [intros w3; apply emits_ret|]; rewrite !app_nil_r; by apply Hout.
Qed.

Lemma try_claim_emits self transfer w :
  emits (try_claim_transfer self transfer) w (λ _ js evs, one_request transfer evs ∧
    Forall (claimed_share transfer) js).
Proof.
  apply emits_let; [|by intros e _; split; [left|]]. intros keys w1 Hkeys%verify_pending_transfer_sound.
  apply emits_let; [|by intros e _; split; [left|]]. intros leaves w2 Hleaves.
  eapply emits_weaken; [apply claim_transfer_with_leaves_emits|]. intros r js evs [Hone Hjs].
  split; [done|]. eapply Forall_impl; [exact Hjs|]. intros j (leaf & Hin & Hj).
  destruct (prepared_leaves _ _ _ _ Hleaves Hin) as (tl & Htl & Hnode). rewrite Hnode in Hj.
  exists tl. split_and!; [done| |done]. rewrite Forall_forall in Hkeys. by apply Hkeys.
Qed.

Lemma finalized_leaves_quiet i w :
  quietly (finalized_leaves_if_already_claimed i) w (λ _ : option (list TreeNode), True).
Proof.
  apply (emits_quiet _ _ _ (λ _, True)); [|intros r w1 _].
  { apply (emits_skip _ _ _ (λ _, True)); [|intros k w1 _|by intros e].
    - eapply quietly_weaken; [apply quietly_identity|]. by intros [].
    - apply (emits_skip _ _ _ (λ _, True)); [by apply quietly_rpc; eauto with calls|intros resp w2 _|by intros e].
      by apply (quietly_ret _ w2 (λ _, True)). }
  destruct r as [[t|]|e]; [|by apply quietly_ret..]. destruct (decide _); [|by apply quietly_ret].
  eapply emits_quiet; [by apply (quietly_call get_identity_public_key w1 (λ _, True)); eauto with calls|].
  intros k w2 _. by destruct k; apply quietly_ret.
Qed.

(** The delays before the attempts from [retry_count] on. *)
Fixpoint schedule (config : ClaimTransferConfig) (attempts : nat) (retry_count : Z) : list Z :=
  match attempts with
  | O => []
  | S attempts =>
      (if 0 <? retry_count then [retry_delay_ms config retry_count] else []) ++
      schedule config attempts (retry_count + 1)
  end.

(** What the loop does, with this many attempts left. *)
Definition settled transfer config (attempts : nat) (retry_count : Z)
    (r : ServiceResult (list TreeNode)) js evs : Prop :=
  Forall (claimed_share transfer) js ∧
  (r = Err ServiceError.MaxRetriesExceeded ∧ sleeps evs = schedule config attempts retry_count ∨
   is_Ok r = true ∧ sleeps evs `prefix_of` schedule config attempts retry_count) ∧
  (length (claims evs) ≤ attempts)%nat ∧
  Forall (λ req, ct_transfer_id req = transfer_id transfer) (claims evs) ∧ Forall claim_event evs.

Lemma one_request_bound transfer evs :
  one_request transfer evs → sleeps evs = [] ∧ (length (claims evs) ≤ 1)%nat ∧
    Forall (λ req, ct_transfer_id req = transfer_id transfer) (claims evs) ∧ Forall claim_event evs.
Proof.
  intros [->|(req & -> & Hreq)]; (split; [done|]); (split; [simpl; lia|]); by repeat constructor.
Qed.

(** The backoff before an attempt. *)
Definition backoff config (retry_count : Z) : list (Event other_request) :=
  if 0 <? retry_count then [Slept (retry_delay_ms config retry_count)] else [].

Lemma backoff_emits config retry_count w :
  emits (if 0 <? retry_count then modify (sleep (retry_delay_ms config retry_count)) else mret ()) w
    (λ _ js evs, js = [] ∧ evs = backoff config retry_count).
Proof.
  unfold backoff. destruct (0 <? retry_count); [|by apply emits_ret]. apply returns_modify.
  exists [], [Slept (retry_delay_ms config retry_count)]. by rewrite log_sleep, events_sleep, app_nil_r.
Qed.

Lemma backoff_bound config k :
  claims (backoff config k) = [] ∧ Forall claim_event (backoff config k) ∧
  sleeps (backoff config k) = if 0 <? k then [retry_delay_ms config k] else [].
Proof. unfold backoff. destruct (0 <? k); by repeat constructor. Qed.

(** An attempt that ends the loop. *)
Lemma settled_now transfer config attempts k leaves js evs :
  Forall (claimed_share transfer) js → one_request transfer evs →
  settled transfer config (S attempts) k (Ok leaves) js (backoff config k ++ evs).
Proof.
  intros Hjs (Hsl & Hcl & Hid & Hev)%one_request_bound. destruct (backoff_bound config k) as (Hdc & Hde & Hds).
  unfold settled, claims, sleeps in *. rewrite !omap_app, Hdc, Hds, Hsl, app_nil_r. simpl.
  split_and!; [done| |lia|done|by apply Forall_app].
  right. split; [done|]. apply prefix_app_r. done.
Qed.

(** An attempt after which the loop goes on. *)
Lemma settled_next transfer config attempts k r js js' evs evs' :
  Forall (claimed_share transfer) js → one_request transfer evs →
  settled transfer config attempts (k + 1) r js' evs' →
  settled transfer config (S attempts) k r (js ++ js') (backoff config k ++ evs ++ evs').
Proof.
  intros Hjs (Hsl & Hcl & Hid & Hev)%one_request_bound (Hjs' & Hr & Hlen & Hid' & Hev').
  destruct (backoff_bound config k) as (Hdc & Hde & Hds).
  unfold settled, claims, sleeps in *. rewrite !omap_app, Hdc, Hds, Hsl. simpl. rewrite length_app.
  split_and!; [by apply Forall_app| |lia|by apply Forall_app|by repeat apply Forall_app_2].
  destruct Hr as [[-> ->]|[Hok Hpre]]; [by left|]. right. split; [done|]. by apply prefix_app.
Qed.

Lemma claim_loop_emits self transfer config attempts k w :
  0 ≤ k → k + Z.of_nat attempts < 2 ^ 32 →
  emits (claim_loop self transfer config attempts k) w (settled transfer config attempts k).
Proof.
  revert k w. induction attempts as [|attempts IH]; intros k w Hk Hmax.
  { apply emits_ret. split_and!; [constructor|by left|done|constructor..]. }
  simpl. apply emits_bind. eapply emits_weaken; [apply backoff_emits|].
  intros [] js0 delay [-> ->] w1. apply emits_bind. eapply emits_weaken; [apply try_claim_emits|].
  intros r js evs [Hone Hjs] w2. simpl.
  assert (∀ leaves, settled transfer config (S attempts) k (Ok leaves) (js ++ []) (backoff config k ++ evs ++ [])) as Hnow.
  { intros leaves. rewrite !app_nil_r. by apply settled_now. }
  destruct r as [nodes|e]; [apply emits_ret, Hnow|].
  assert (emits (leaves ← finalized_leaves_if_already_claimed (transfer_id transfer);
    match leaves with
    | Some leaves => mret (Ok leaves)
    | None => claim_loop self transfer config attempts (uadd 32 k 1)
    end) w2 (λ b js' evs', settled transfer config (S attempts) k b (js ++ js') (backoff config k ++ evs ++ evs'))) as Hgo.
  { eapply emits_quiet; [apply finalized_leaves_quiet|]. intros [leaves|] w3 _; [apply emits_ret, Hnow|].
    rewrite uadd_small by lia. eapply emits_weaken; [apply IH; lia|]. intros b js' evs' Hb.
    by apply settled_next. }
  destruct e; try exact Hgo. apply emits_ret, Hnow.
Qed.

Lemma schedule_later config attempts k :
  0 < k → schedule config attempts k = retry_delay_ms config <$> seqZ k (Z.of_nat attempts).
Proof.
  revert k. induction attempts as [|attempts IH]; intros k Hk; [done|].
  rewrite seqZ_cons by lia. simpl. rewrite IH by lia. destruct (Z.ltb_spec 0 k); [|lia]. simpl.
  do 3 f_equal; lia.
Qed.

Lemma claims_emit self transfer config w :
  in_uint 32 (max_retries (default ClaimTransferConfig_default config)) →
  emits (claim_transfer_with_retries self transfer config) w
    (settled transfer (default ClaimTransferConfig_default config)
       (Z.to_nat (max_retries (default ClaimTransferConfig_default config))) 0).
Proof. intros [? ?]. apply claim_loop_emits; lia. Qed.

(** What a claim leaves in the slot of its lock: its leaves if it has any; and a claim that
    finds leaves there returns them at once. *)
Lemma locked_outcome self waited permit transfer config w r permit' w' :
  claim_transfer_locked self waited permit transfer config w = Some ((r, permit'), w') →
  permit' = match r with Ok leaves => Some leaves | Err _ => permit end ∧
  (∀ leaves, permit = Some leaves → r = Ok leaves ∧ w' = w).
Proof.
  unfold claim_transfer_locked, mbind, proc_bind. destruct permit as [leaves|]; [intros [= <- <- <-]; naive_solver|].
  destruct ((if waited then finalized_leaves_if_already_claimed (transfer_id transfer) else mret None) w)
    as [[[leaves|] w1]|]; [intros [= <- <- <-]; naive_solver| |done].
  destruct (claim_transfer_with_retries _ _ _ w1) as [[[leaves|e] w2]|]; [intros [= <- <- <-]; naive_solver..|done].
Qed.

(** C22: A claim settles, whatever the operators answer and however the signer fails. It
    never panics; it ends with leaves or with [MaxRetriesExceeded] and no other error,
    after at most [max_retries] requests, all for this transfer, and after the waits of
    the exponential schedule, all of them when it gives up. *)
Theorem claims_settle self transfer config w :
  let c := default ClaimTransferConfig_default config in
  in_uint 32 (max_retries c) →
  returns (claim_transfer_with_retries self transfer config) w (λ r w', ∃ evs,
    events w' = events w ++ evs ∧
    let waits := retry_delay_ms c <$> seqZ 1 (max_retries c - 1) in
    (is_Ok r = true ∧ sleeps evs `prefix_of` waits ∨
     r = Err ServiceError.MaxRetriesExceeded ∧ sleeps evs = waits) ∧
    Z.of_nat (length (claims evs)) ≤ max_retries c ∧
    Forall (λ req, ct_transfer_id req = transfer_id transfer) (claims evs)).
Proof.
  intros c Hc. pose proof (claims_emit self transfer config w Hc) as Hemits. fold c in Hemits.
  eapply returns_weaken; [exact Hemits|]. intros r w' (js & evs & _ & Hev & _ & Hr & Hlen & Hid & _).
  exists evs. split; [done|]. destruct Hc as [? ?].
  assert (schedule c (Z.to_nat (max_retries c)) 0 = retry_delay_ms c <$> seqZ 1 (max_retries c - 1)) as Hsch.
  { destruct (Z.to_nat (max_retries c)) as [|n] eqn:Hn; simpl.
    - by rewrite seqZ_nil by lia.
    - rewrite schedule_later by lia. do 2 f_equal. lia. }
  rewrite Hsch in Hr. split_and!; [naive_solver|lia|done].
Qed.

(** C7: Whatever the operators answer, a claim signs only refunds of leaves of the transfer
    whose sender vouched for them, for this transfer and with this secret: each share is
    made with the wallet's own key for the leaf, under the leaf's verifying key, over a
    transaction that spends output 0 of one of the leaf's transactions and pays all but
    at most the fixed fee to that key, with the timelock of the refund it replaces
    rounded down, or 50 blocks above that for a direct refund. *)
Theorem claims_pay_own_key self transfer config w :
  in_uint 32 (max_retries (default ClaimTransferConfig_default config)) →
  returns (claim_transfer_with_retries self transfer config) w (λ _ w', ∃ js,
    frost_log w' = frost_log w ++ js ∧ Forall (claimed_share transfer) js).
Proof.
  intros Hc. eapply returns_weaken; [by apply (claims_emit self transfer config w)|].
  intros r w' (js & evs & Hjs & _ & Hshares & _). by exists js.
Qed.
End claim.

(** ** What a payment signs and asks for *)

Section send.
Context `{TransferLaws W} `{!HashIter string} `{!HashIter Identifier}.
Implicit Types (self : TransferService (W := W)) (receiver : PublicKey).

(** The application's observer neither signs nor talks to the operators. *)
Definition observes self : Prop :=
  ∀ before_send_transfer, transfer_observer self = Some before_send_transfer →
  ∀ i pay_request amount w, frost_log (before_send_transfer i pay_request amount w).2 = frost_log w ∧
    events (before_send_transfer i pay_request amount w).2 = events w.

(** A share that sends one of [leaves] to [receiver], for the preimage of [hash] if there
    is one. *)
Definition sent_for (hash : option (list Z)) (leaves : list TreeNode) receiver (j : FrostJob Sighash) : Prop :=
  ∃ params leaf, srp_receiver_pubkey params = receiver ∧ srp_payment_hash params = hash ∧
    lkt_node leaf ∈ leaves ∧ sound_refund params leaf j.
Definition sent_share := sent_for None.

(** The request that starts the transfer [i] to [receiver]. *)
Definition starts (i : TransferId) receiver (evs : list (Event other_request)) : Prop :=
  ∃ req, evs = [Started req] ∧ st_transfer_id req = i ∧
    st_owner_identity_public_key req = public_key_serialize own_identity ∧
    st_receiver_identity_public_key req = public_key_serialize receiver.

Lemma notify_quiet self i receiver leaves invoice w :
  observes self →
  quietly (notify_before_send_transfer self i receiver leaves invoice) w (λ _ : ServiceResult unit, True).
Proof.
  intros Hobs. unfold notify_before_send_transfer. destruct (transfer_observer self) as [observer|] eqn:Ho;
    [|by apply quietly_ret].
  apply (emits_skip _ _ _ (λ _, True)); [|intros k w1 _|by intros e].
  { eapply quietly_weaken; [apply quietly_identity|]. by intros []. }
  destruct (decide (k = receiver)); [by apply quietly_ret|].
  apply emits_let; [intros request w2 _|by intros e _].
  destruct (Hobs observer Ho i request (sum_wrap 64 (value <$> leaves)) w2).
  eapply emits_quiet; [by apply (quietly_call _ w2 (λ _, True))|]. intros r w3 _. by apply quietly_ret.
Qed.

Lemma prepare_request_quiet self i tweaks receiver w :
  quietly (build_prepare_transfer_request self i tweaks receiver) w (λ _, True).
Proof.
  apply (emits_quiet _ _ _ (λ _, True)); [|intros leaves w1 _; by apply quietly_ret].
  revert w. induction tweaks as [|l tweaks IH]; intros w; [by apply quietly_ret|]. simpl.
  apply (emits_quiet _ _ _ (λ _, True)); [|intros input w1 _].
  - eapply emits_quiet; [by apply (quietly_call _ w (λ _, True)); eauto with calls|].
    intros new_id w1 _. by apply quietly_ret.
  - eapply emits_quiet; [apply IH|]. intros inputs w2 _. by apply quietly_ret.
Qed.

Lemma sign_refunds_emits params w :
  may_emit (sign_refunds params) w (λ _ js evs, evs = [] ∧
    Forall (λ j, ∃ leaf, leaf ∈ srp_leaves params ∧ sound_refund params leaf j) js).
Proof.
  eapply ends_in_weaken; [apply (sign_refunds_sound events); eauto using events_identity, events_sign|].
  intros r w' (Hev & js & Hlog & Hjs). exists js, []. by rewrite app_nil_r.
Qed.

(** Signing the refunds of leaves that are sent. *)
Lemma sign_sent_emits params leaves w :
  srp_leaves params = prepare_leaf_key_tweaks_to_send leaves →
  may_emit (signer (sign_refunds params)) w (λ _ js evs, evs = [] ∧
    Forall (sent_for (srp_payment_hash params) leaves (srp_receiver_pubkey params)) js).
Proof.
  intros Hleaves. unfold signer. apply may_bind. eapply may_weaken; [apply sign_refunds_emits|].
  intros r js evs [-> Hjs] w'. apply emits_may, emits_ret. rewrite !app_nil_r. split; [done|].
  eapply Forall_impl; [exact Hjs|]. intros j (leaf & Hin & Hj). exists params, leaf.
  split_and!; [done..| |exact Hj]. rewrite Hleaves in Hin.
  apply list_elem_of_fmap in Hin as (node & -> & Hnode). exact Hnode.
Qed.

Lemma assemble_emits hash leaves receiver adaptor prepared w :
  may_emit (assemble_transfer_package (prepare_leaf_key_tweaks_to_send leaves) receiver hash adaptor prepared) w
    (λ _ js evs, evs = [] ∧ Forall (sent_for hash leaves receiver) js).
Proof.
  unfold assemble_transfer_package.
  destruct (prepare_leaf_key_tweaks_to_send leaves) as [|tweak tweaks] eqn:Htweaks;
    [by apply emits_may, emits_ret; split; [|constructor]|].
  apply (may_skip _ _ _ (λ _, True)); [|intros cs w1 _|by intros e; split; [|constructor]].
  { eapply quietly_weaken; [apply fetch_commitments_quiet|]. by intros []. }
  apply (may_skip _ _ _ (λ _, True)); [by apply quietly_ret; destruct (split_signing_commitments_by_variant _ _)
    |intros [[cpfp direct] dfc] w2 _|by intros e; split; [|constructor]].
  rewrite <- Htweaks. apply may_try. eapply may_weaken; [by apply sign_sent_emits|].
  intros [signed|e] js evs [-> Hjs]; [|done]. intros w4. apply emits_may.
  apply emits_let; [intros package w5 _; apply emits_ret|intros e _]; by rewrite !app_nil_r.
Qed.

(** The request of a transfer [i] of this wallet to [receiver], with a package. *)
Definition requests (i : TransferId) receiver (req : StartTransferRequest) : Prop :=
  (∃ package, st_transfer_package req = Some package) ∧ st_transfer_id req = i ∧
  st_owner_identity_public_key req = public_key_serialize own_identity ∧
  st_receiver_identity_public_key req = public_key_serialize receiver.

Lemma assemble_request_emits i leaves receiver hash expiry adaptor prepared w :
  may_emit (assemble_transfer_request_with_prepared i (prepare_leaf_key_tweaks_to_send leaves)
      receiver hash expiry adaptor prepared) w
    (λ r js evs, evs = [] ∧ Forall (sent_for hash leaves receiver) js ∧
      match r with Ok request => requests i receiver (transfer_request request) | Err _ => True end).
Proof.
  apply may_try. eapply may_weaken; [apply assemble_emits|]. intros [package|e] js evs [-> Hjs]; [|done].
  intros w1. apply emits_may. eapply emits_skip; [apply quietly_identity| |intros e; by rewrite !app_nil_r].
  intros k w2 ->. apply emits_let; [|intros e _; by rewrite !app_nil_r]. intros t w3 _.
  apply emits_ret. rewrite !app_nil_r. split_and!; [done..|]. split_and!; [by eexists|done..].
Qed.

(** The signer is the first thing that can fail when a transfer is started. *)
Lemma identity_or_signer_error w :
  quietly (identity_key (W := W)) w (λ r, match r with
    | Ok k => k = own_identity | Err e => ∃ t, e = ServiceError.SignerError t end).
Proof.
  unfold identity_key, signer.
  eapply emits_quiet; [by apply (quietly_call _ w (λ r, r = (get_identity_public_key w).1)); eauto with calls|].
  intros r w' ->. apply quietly_ret. destruct (get_identity_public_key w) as [[k|e] w1] eqn:Hk; simpl; [|eauto].
  by eapply identity_is_own.
Qed.

(** The coordinator reports [transfer] as one of this wallet's, under the id [i]. *)
Definition found (i : TransferId) (transfer : Transfer) : Prop :=
  ∃ w1 resp w2 t, client_query_all_transfers
      {| participant := Some (SenderIdentityPublicKey (public_key_serialize own_identity));
         filter_transfer_ids := [i]; filter_limit := 0; filter_offset := 0;
         types := []; filter_order := Descending |} w1 = (Ok resp, w2) ∧
    head (transfers resp) = Some t ∧ transfer_try_from t = Ok transfer.

(** What a coordinator answers to the request is [transfer]. *)
Definition answered (req : StartTransferRequest) (transfer : Transfer) : Prop :=
  ∃ w1 w2 t, client_start_transfer_v2 req w1 = (Ok (Some t), w2) ∧ transfer_try_from t = Ok transfer.

(** Where a transfer that is reported comes from: the answer to the one request, or,
    if it may be recovered, the coordinator's report under the same id. *)
Definition reported (i : TransferId) (recover : bool) (evs : list (Event other_request))
    (r : ServiceResult Transfer) : Prop :=
  ∀ transfer, r = Ok transfer →
    (∃ req, evs = [Started req] ∧ answered req transfer) ∨ (recover = true ∧ found i transfer).

Lemma start_transfer_emits i receiver package invoice w :
  emits (start_transfer_from_package i receiver package invoice) w (λ r js evs, js = [] ∧
    ((∃ t, r = Err (ServiceError.SignerError t)) ∧ evs = [] ∨ starts i receiver evs) ∧
    reported i false evs r).
Proof.
  eapply emits_quiet_try; [apply identity_or_signer_error|intros k w1 ->|intros e [t ->]; split_and!; [done|eauto|done]].
  apply emits_try. unfold rpc. apply emits_bind. apply returns_call. eexists [], [Started _].
  rewrite log_start, events_start, app_nil_r. split_and!; [done..|]. intros w2. apply emits_ret.
  destruct (client_start_transfer_v2 _ w1) as [[t|e] w3] eqn:Hans; simpl.
  - intros w4. apply emits_ret. split_and!; [done|right; by eexists|]. intros transfer Ht.
    destruct t as [t|]; [|done]. left. eexists. split; [done|]. by exists w1, w3, t.
  - split_and!; [done|right; by eexists|done].
Qed.

Lemma recover_quiet i error w :
  quietly (recover_transfer_on_rpc_connection_error i error) w (λ r : ServiceResult Transfer,
    match r with Ok transfer => found i transfer | Err _ => True end).
Proof.
  assert (∀ w, quietly (mret (Err error) : proc W (ServiceResult Transfer)) w (λ r, match r with
    Ok transfer => found i transfer | Err _ => True end)) as Hret by (intros; by apply quietly_ret).
  destruct error; try apply Hret. destruct e as [| | |[c reason text]| | | |]; try apply Hret.
  destruct c; try apply Hret.
  all: eapply emits_skip; [apply quietly_identity|intros k w1 ->|by intros e].
  all: eapply emits_skip; [|intros ts w2 Hts|by intros e];
    [eapply (quietly_rpc _ w1 (λ ts, ∃ w2, _ = (Ok ts, w2))); eauto with calls; by eexists|].
  all: destruct (head (transfers ts)) as [t|] eqn:Ht; [|by apply quietly_ret].
  all: apply quietly_ret; destruct (transfer_try_from t) as [transfer|] eqn:Hof; [|done];
    destruct Hts as [w3 Hts]; by exists w1, ts, w3, t.
Qed.

Lemma send_emits self i leaves receiver invoice prepared recover w :
  observes self →
  may_emit (send_transfer_inner self i leaves receiver invoice prepared recover) w (λ r js evs,
    Forall (sent_share leaves receiver) js ∧ (is_Ok r = false ∧ evs = [] ∨ starts i receiver evs) ∧
    reported i recover evs r).
Proof.
  intros Hobs.
  assert (∀ e, reported i recover [] (Err e)) as Hno by by intros e t.
  apply (may_skip _ _ _ (λ _, True));
    [|intros [] w1 _|by intros e; split_and!; [constructor|left|apply Hno]].
  { eapply quietly_weaken; [by apply notify_quiet|]. by intros []. }
  apply (may_skip _ _ _ (λ _, True));
    [|intros p w2 _|by intros e; split_and!; [constructor|left|apply Hno]].
  { destruct prepared as [p|]; [by apply quietly_ret|].
    eapply emits_quiet; [apply prepare_request_quiet|]. intros request w2 _.
    apply quietly_signer; eauto with calls. }
  apply may_try. eapply may_weaken; [apply assemble_emits|].
  intros [package|e] js evs [-> Hjs]; [|by split_and!; [|left|apply Hno]]. intros w3.
  apply emits_may, emits_bind. eapply emits_weaken; [apply start_transfer_emits|].
  intros r js' evs' (-> & Hstart & Hrep) w4. simpl.
  assert (reported i recover evs' r) as Hrep'.
  { intros t Ht. destruct (Hrep t Ht) as [?|[? _]]; [by left|done]. }
  destruct Hstart as [[[t ->] ->]|Hstart].
  - destruct recover; apply emits_ret; rewrite !app_nil_r; (split_and!; [done|by left|done]).
  - destruct r as [t|e]; [apply emits_ret; rewrite !app_nil_r; by split_and!; [|right|]|].
    destruct recover; [|apply emits_ret; rewrite !app_nil_r; by split_and!; [|right|]].
    eapply emits_weaken; [apply recover_quiet|]. intros r js' evs'' (-> & -> & Hr). rewrite !app_nil_r.
    split_and!; [done|by right|]. intros transfer ->. by right.
Qed.

(** C8: Whatever the operators answer, sending leaves signs only refunds of these leaves to
    the receiver, each valid before the sender's own, and starts at most one transfer, to
    the receiver and under one id, the one it was given. Success is reported only after
    that request was sent, and the transfer reported is the coordinator's answer to it
    or, only for an id that was given, the one the coordinator lists under that id when
    asked for this wallet's transfer with it. *)
Theorem sends_start_once self leaves receiver i invoice w :
  observes self →
  ends_in (transfer_leaves_to self leaves receiver i invoice) w (λ r w', ∃ j js evs,
    frost_log w' = frost_log w ++ js ∧ events w' = events w ++ evs ∧
    Forall (sent_share leaves receiver) js ∧ default j i = j ∧
    (is_Ok r = false ∧ evs = [] ∨ starts j receiver evs) ∧
    ∀ transfer, r = Ok transfer →
      (∃ req, evs = [Started req] ∧ answered req transfer) ∨ (is_Some i ∧ found j transfer)).
Proof.
  intros Hobs. apply ends_in_bind. destruct i as [i|].
  - apply ends_in_ret. eapply ends_in_weaken; [by apply send_emits|].
    intros r w' (js & evs & ? & ? & ? & ? & Hr). exists i, js, evs. split_and!; [done..|].
    intros t [?|[_ ?]]%Hr; [by left|right; eauto].
  - apply ends_in_call. pose proof (log_uuid w) as Hlog. pose proof (events_uuid w) as Hev.
    destruct (uuid_now_v7 w) as [i w1]. simpl in *. rewrite <- Hlog, <- Hev.
    eapply ends_in_weaken; [by apply send_emits|].
    intros r w' (js & evs & ? & ? & ? & ? & Hr). exists i, js, evs. split_and!; [done..|].
    intros t [?|[Hb _]]%Hr; [by left|done].
Qed.
End send.
