(* ===== verification/TransferCompletes.v ===== *)
(** * A claim with operators that go along succeeds *)

From S2P Require Import Prelude WireBytes Bitcoin BitcoinTx Timelock SparkTx TreeModel NodeWire Paging.
From S2P Require Import ExitSample FrostBatch FrostSample RefundJobs RefundJobsSpec TransferModel.
From S2P Require Import TransferService TransferServiceSpec.
Open Scope Z_scope.

(** ** Calls that succeed *)

Section succeeds.
Context {W : Type}.

Definition succeeds {E A} (m : proc W (result E A)) (w : W) (Q : A → Prop) : Prop :=
  returns m w (λ r _, match r with Ok a => Q a | Err _ => False end).

Lemma succeeds_ret {E A} (a : A) w (Q : A → Prop) : Q a → succeeds (mret (Ok a) : proc W (result E A)) w Q.
Proof. intros HQ. by apply returns_ret. Qed.

Lemma succeeds_try {E A A'} (m : proc W (result E A)) (f : A → proc W (result E A')) w P Q :
  succeeds m w P → (∀ a w', P a → succeeds (f a) w' Q) → succeeds (try_bind m f) w Q.
Proof.
  intros Hm Hf. apply returns_try. eapply returns_weaken; [exact Hm|]. intros [a|e] w'; [apply Hf|done].
Qed.

Lemma succeeds_let {E A A'} (r : result E A) a (f : A → proc W (result E A')) w Q :
  r = Ok a → succeeds (f a) w Q → succeeds (try_bind (mret r) f) w Q.
Proof. by intros ->. Qed.

Lemma succeeds_get {E A A'} (o : option A) a (f : A → proc W (result E A')) w Q :
  o = Some a → succeeds (f a) w Q → succeeds (panic_or o ≫= f) w Q.
Proof. by intros ->. Qed.

Lemma succeeds_weaken {E A} (m : proc W (result E A)) w (P Q : A → Prop) :
  succeeds m w P → (∀ a, P a → Q a) → succeeds m w Q.
Proof. intros Hm HPQ. eapply returns_weaken; [exact Hm|]. intros [a|e] w'; [apply HPQ|done]. Qed.

Lemma succeeds_signer {A} (f : W → result string A * W) w (Q : A → Prop) :
  (∃ a w', f w = (Ok a, w') ∧ Q a) → succeeds (signer (call f)) w Q.
Proof.
  intros (a & w' & Hf & HQ). exists (Ok a), w'. split; [|done]. unfold signer, mbind, proc_bind, call.
  by rewrite Hf.
Qed.

Lemma succeeds_rpc {A} (f : W → result OperatorRpcError.t A * W) w (Q : A → Prop) :
  (∃ a w', f w = (Ok a, w') ∧ Q a) → succeeds (rpc f) w Q.
Proof.
  intros (a & w' & Hf & HQ). exists (Ok a), w'. split; [|done]. unfold rpc, mbind, proc_bind, call.
  by rewrite Hf.
Qed.

Lemma succeeds_try_all {E A A'} (f : A → proc W (result E A')) l w :
  (∀ a w, a ∈ l → succeeds (f a) w (λ _, True)) → succeeds (try_all f l) w (λ _, True).
Proof.
  revert w. induction l as [|a l IH]; intros w Hf; simpl; [by apply succeeds_ret|].
  eapply succeeds_try; [apply Hf; by left|]. intros b w1 _.
  eapply succeeds_try; [apply IH; intros; apply Hf; by right|]. intros bs w2 _. by apply succeeds_ret.
Qed.
End succeeds.

Section completes.
Context {B : Bitcoin} {BT : BitcoinTx} `{!Codec} `{!SignatureCodec} {W : Type} `{!TransferEnv W}.
Context `{!HashIter string} `{!HashIter Identifier}.
Implicit Types (self : TransferService (W := W)) (transfer : Transfer) (leaf : LeafKeyTweak).

(** Every call succeeds, the answers fit the requests, and the transfer is reported with
    the leaves [claimed]. *)
Class WillingClaim transfer (claimed : list TreeNode) : Prop := {
  claim_gives_key i w : ∃ k w', signer_public_key_for_leaf i w = (Ok k, w');
  claim_gives_identity w : ∃ k w', get_identity_public_key w = (Ok k, w');
  claim_gives_commitments n w : 0 ≤ n → ∃ cs w', client_get_signing_commitments [] 3 n w = (Ok cs, w') ∧
    Z.of_nat (length cs) = 3 * n ∧ Forall (λ c, is_Ok (map_signing_nonce_commitments c) = true) cs;
  claim_gives_sighash t o : length (tx_input t) = 1%nat → ∃ s,
    taproot_key_spend_signature_hash t 0 [o] = Ok s;
  claim_gives_shares js w : ∃ shares w', sign_frost js w = (Ok shares, w') ∧ length shares = length js;
  claim_serializes n : is_Ok (nonce_serialize n) = true;
  claim_prepares r w : ∃ p w', prepare_claim r w = (Ok p, w');
  claim_signs m w : ∃ s w', sign_message m w = (Ok s, w');
  claim_id_decodes : is_Some (hex_decode (without_dashes (transfer_id transfer)));
  claim_accepted req w : ct_transfer_id req = transfer_id transfer → ∃ t t' w',
    client_claim_transfer req w = (Ok (Some t), w') ∧ transfer_try_from t = Ok t' ∧
    tl_leaf <$> transfer_leaves t' = claimed;
}.

(** A leaf as an honest sender hands it over. *)
Definition claimable transfer (tl : TransferLeaf) : Prop :=
  vouched transfer tl ∧
  is_Some (input_sequences (node_tx (tl_leaf tl)) !! 0%nat) ∧
  is_Some (tx_output (node_tx (tl_leaf tl)) !! 0%nat) ∧
  (∃ old, input_sequences (intermediate_refund_tx tl) !! 0%nat = Some old ∧
     low_timelock old + DIRECT_TIME_LOCK_OFFSET < 2 ^ 16) ∧
  (∀ d, direct_tx (tl_leaf tl) = Some d → is_Some (tx_output d !! 0%nat)).

Context {transfer claimed} `{!WillingClaim transfer claimed}.

Lemma claim_job_succeeds leaf key t prev_output comms i w :
  (i < length comms)%nat → length (tx_input t) = 1%nat →
  succeeds (claim_refund_job leaf key t prev_output comms i) w (λ _, True).
Proof.
  intros [c Hc]%lookup_lt_is_Some Ht. destruct (claim_gives_sighash t prev_output Ht) as [s Hs].
  apply (succeeds_let _ s).
  { unfold claim_sighash, sighash_from_tx. rewrite Ht. simpl. by rewrite Hs. }
  apply (succeeds_get _ c); [done|]. by apply succeeds_ret.
Qed.

Lemma moves_one_input prev t script s : moves prev t script s → length (tx_input t) = 1%nat.
Proof. intros (o & (_ & (s' & ->) & _) & _). done. Qed.

Lemma claim_leaf_succeeds tl key cpfp direct dfc i w :
  claimable transfer tl → (i < length cpfp)%nat → (i < length direct)%nat → (i < length dfc)%nat →
  succeeds (claim_leaf_jobs cpfp direct dfc i
    {| lkt_node := leaf_with_intermediate_txs tl; incoming_key := key |}) w (λ _, True).
Proof.
  intros (_ & [s Hs] & [out Hout] & (old & Hold & Hroom) & Hdirect) Hc Hd Hf.
  unfold claim_leaf_jobs. cbn [lkt_node leaf_with_intermediate_txs id node_tx refund_tx direct_tx].
  destruct (claim_gives_key (id (tl_leaf tl)) w) as (k & w1 & Hk).
  eapply (succeeds_try _ _ _ (λ _, True)); [apply succeeds_signer; eauto|]. intros k' w2 _.
  apply (succeeds_let _ s); [unfold node_timelock; by rewrite Hs|].
  apply (succeeds_let _ out); [unfold first_output; by rewrite Hout|].
  apply (succeeds_let _ (intermediate_refund_tx tl)); [done|].
  apply (succeeds_let _ old); [by rewrite Hold|].
  pose proof (enforce_timelock_spec old) as (_ & [Hle _] & _).
  pose proof (current_sequence_spec (enforce_timelock old)) as [Hcur _].
  destruct (current_sequence (enforce_timelock old)) as [[cs ds]|] eqn:Hcs; [|lia].
  apply (succeeds_let _ (cs, ds)); [done|].
  destruct (direct_method_total (leaf_with_intermediate_txs tl) s Hs) as [rd Hrd].
  apply (succeeds_get _ rd); [exact Hrd|].
  assert (∀ d, rd = Some d → direct_tx (tl_leaf tl) = Some d) as Hrd'.
  { intros d ->. by apply direct_tx_method in Hrd. }
  apply (succeeds_let _ ()).
  { destruct rd as [d|]; [|done]. destruct (Hdirect d (Hrd' d eq_refl)) as [o Ho].
    unfold first_output. by rewrite Ho. }
  destruct (create_refund_txs_total (node_tx (tl_leaf tl)) rd cs ds k' out Hout) as [txs Htxs].
  { intros d Hd'. by apply Hdirect, Hrd'. }
  apply (succeeds_get _ txs); [exact Htxs|].
  apply create_refund_txs_moves in Htxs as (Hm & (f & Hff & Hfm) & Hdm).
  eapply succeeds_try; [apply claim_job_succeeds; [done|by eapply moves_one_input]|]. intros cj w3 _.
  apply (succeeds_try _ _ _ (λ _, True)).
  { destruct (direct_tx (tl_leaf tl)) as [d|] eqn:Hdt; [|by apply succeeds_ret].
    destruct (refund_direct_tx txs) as [dr|]; [|by apply succeeds_ret].
    destruct rd as [d'|]; [|done]. destruct (Hdirect d eq_refl) as [o Ho].
    apply (succeeds_let _ o); [unfold first_output; by rewrite Ho|].
    eapply succeeds_try; [apply claim_job_succeeds; [done|by eapply moves_one_input]|].
    intros j w4 _. by apply succeeds_ret. }
  intros jd w4 _. rewrite Hff. apply (succeeds_try _ _ _ (λ _, True)).
  { eapply succeeds_try; [apply claim_job_succeeds; [done|by eapply moves_one_input]|].
    intros j w5 _. by apply succeeds_ret. }
  intros jf w5 _. by apply succeeds_ret.
Qed.

(** What the attempt hands to the signer: leaves of the transfer, with their secrets. *)
Definition from_transfer leaf : Prop :=
  ∃ tl key, tl ∈ transfer_leaves transfer ∧
    leaf = {| lkt_node := leaf_with_intermediate_txs tl; incoming_key := Some key |}.

Lemma groups_total (signed : list SignedLeafRefunds) : ∃ r, into_user_signed_job_groups signed = Ok r.
Proof.
  unfold into_user_signed_job_groups. rewrite signed_tx_groups.
  assert (∀ l, ∃ jobs, to_jobs l = Ok jobs) as Hjobs.
  { intros l. destruct (mapR_total signed_tx_try_into l) as (k & Hk & _); [|by exists k].
    apply Forall_true. intros tx.
    destruct (signed_tx_try_into_total tx (claim_serializes (transfer := transfer))) as [j ->]. done. }
  destruct (Hjobs (slr_cpfp <$> signed)) as [a ->]. destruct (Hjobs (omap slr_direct signed)) as [b ->].
  destruct (Hjobs (omap slr_direct_from_cpfp signed)) as [c ->]. by eexists.
Qed.

Lemma sign_leaf_refunds_succeeds (leaves : list LeafRefundJobs) w :
  succeeds (signer (sign_leaf_refunds leaves)) w (λ _, True).
Proof.
  destruct (sign_leaf_refunds_spec leaves w) as (r & Hr & Hshares).
  destruct (claim_gives_shares (transfer := transfer) (job <$> all_jobs leaves) w) as (shares & w' & Hs & Hlen).
  rewrite Hs in Hshares. simpl in Hshares. rewrite length_fmap in Hlen.
  rewrite (proj2 (Nat.eqb_eq _ _) Hlen) in Hshares. destruct Hshares as (signed & -> & _).
  eexists (Ok signed), _. split; [|done]. unfold signer, mbind, proc_bind. by rewrite Hr.
Qed.

Lemma sign_claim_refunds_succeeds leaves cpfp direct dfc w :
  Forall (claimable transfer) (transfer_leaves transfer) → Forall from_transfer leaves →
  length cpfp = length leaves → length direct = length leaves → length dfc = length leaves →
  succeeds (sign_claim_refunds leaves cpfp direct dfc) w (λ _, True).
Proof.
  intros Hall Hleaves Hc Hd Hf. apply (succeeds_try _ _ _ (λ _, True)).
  { apply succeeds_try_all. intros [i leaf] w' Hin. apply list_elem_of_lookup in Hin as [k Hk].
    rewrite list_lookup_imap in Hk. destruct (leaves !! k) as [leaf'|] eqn:Hl; [|done]. injection Hk as <- <-.
    pose proof (lookup_lt_Some _ _ _ Hl). destruct (Forall_lookup_1 _ _ _ _ Hleaves Hl) as (tl & key & Htl & ->).
    rewrite Forall_forall in Hall. apply claim_leaf_succeeds; [by apply Hall|lia..]. }
  intros jobs w1 _. apply (succeeds_try _ _ _ (λ _, True)); [apply sign_leaf_refunds_succeeds|].
  intros signed w2 _. destruct (groups_total signed) as [r Hr]. exists (Ok r), w2. by rewrite Hr.
Qed.

Lemma prepare_claim_package_succeeds self leaves w :
  Forall (claimable transfer) (transfer_leaves transfer) → Forall from_transfer leaves →
  (0 < length leaves)%nat → Z.of_nat (length leaves) < 2 ^ 32 →
  succeeds (prepare_claim_package self transfer leaves) w (λ _, True).
Proof.
  intros Hall Hleaves Hpos Hmax. unfold prepare_claim_package.
  destruct leaves as [|leaf leaves']; [simpl in Hpos; lia|]. set (l := leaf :: leaves') in *.
  apply (succeeds_let _ (Z.of_nat (length l))); [by rewrite (proj2 (Z.ltb_lt _ _) Hmax)|].
  destruct (claim_gives_commitments (transfer := transfer) (Z.of_nat (length l)) w) as (cs & w1 & Hcs & Hlen & Hconv);
    [lia|].
  destruct (mapR_total map_signing_nonce_commitments cs) as (mapped & Hmapped & Hml); [exact Hconv|].
  apply (succeeds_try _ _ _ (λ c, c = mapped)).
  { eapply succeeds_try; [apply (succeeds_rpc _ w (λ c, c = cs)); eauto|]. intros c w2 ->.
    exists (Ok mapped), w2. by rewrite Hmapped. }
  intros c w2 ->.
  assert (∃ a b d, split_signing_commitments_by_variant mapped (length l) = Ok (a, b, d)) as (a & b & d & Hsplit).
  { unfold split_signing_commitments_by_variant.
    rewrite (proj2 (Nat.eqb_neq (length l) 0)), (proj2 (Z.ltb_lt (3 * Z.of_nat (length l)) (2 ^ 64))) by lia.
    cbn [negb]. rewrite (proj2 (Nat.eqb_eq (length mapped) (3 * length l))) by lia. cbn [negb]. eauto. }
  apply (succeeds_let _ (a, b, d)); [exact Hsplit|]. destruct (split_lengths _ _ _ _ _ Hsplit) as (Ha & Hb & Hd).
  destruct (mapR_total (claim_leaf_input transfer) l) as (inputs & Hinputs & _).
  { eapply Forall_impl; [exact Hleaves|]. by intros ? (tl & key & _ & ->). }
  apply (succeeds_let _ inputs); [exact Hinputs|].
  eapply (succeeds_try _ _ _ (λ _, True)).
  { apply succeeds_signer. edestruct (claim_prepares (transfer := transfer)) as (p & w3 & Hp). eauto. }
  intros p w3 _. eapply succeeds_try; [by apply sign_claim_refunds_succeeds|].
  intros [[cj dj] fj] w4 _. destruct (claim_id_decodes (transfer := transfer)) as [bytes Hbytes].
  apply (succeeds_let _ bytes); [by rewrite Hbytes|].
  eapply (succeeds_try _ _ _ (λ _, True)).
  { apply succeeds_signer. edestruct (claim_signs (transfer := transfer)) as (sig & w5 & Hs). eauto. }
  intros sig w5 _. by apply succeeds_ret.
Qed.

Lemma verify_total (keys : gmap TreeNodeId (list Z)) (l : list TransferLeaf) :
  Forall (vouched transfer) l →
  ∃ m, foldlR (verify_leaf transfer) keys l = Ok m ∧
    dom m = dom keys ∪ list_to_set ((λ tl, id (tl_leaf tl)) <$> l).
Proof.
  intros Hl. revert keys. induction Hl as [|tl l Htl _ IH]; intros keys; simpl.
  { exists keys. split; [done|set_solver]. }
  rewrite (proj2 (verify_leaf_Ok transfer keys tl _) (conj Htl eq_refl)). simpl.
  destruct (IH (<[id (tl_leaf tl):=secret_cipher tl]> keys)) as (m & Hm & Hdom).
  exists m. split; [exact Hm|]. rewrite Hdom, dom_insert_L. set_solver.
Qed.

Lemma leaves_to_claim_total keys l :
  (∀ tl, tl ∈ l → is_Some (keys !! id (tl_leaf tl)) ∧ tl ∈ transfer_leaves transfer) →
  Forall from_transfer (omap (leaf_to_claim keys) l) ∧ length (omap (leaf_to_claim keys) l) = length l.
Proof.
  induction l as [|tl l IH]; intros Hl; [done|].
  destruct (Hl tl) as [[key Hkey] Htl]; [by left|]. destruct IH as [IHf IHl]; [intros; apply Hl; by right|].
  assert (leaf_to_claim keys tl = Some {| lkt_node := leaf_with_intermediate_txs tl; incoming_key := Some key |})
    as Htweak by (unfold leaf_to_claim; by rewrite Hkey).
  simpl. rewrite Htweak. split; [|simpl; f_equal; exact IHl]. constructor; [|exact IHf]. by exists tl, key.
Qed.

Lemma try_claim_succeeds self w :
  Forall (claimable transfer) (transfer_leaves transfer) → transfer_leaves transfer ≠ [] →
  Z.of_nat (length (transfer_leaves transfer)) < 2 ^ 32 →
  succeeds (try_claim_transfer self transfer) w (λ nodes, nodes = claimed).
Proof.
  intros Hall Hne Hmax.
  destruct (verify_total ∅ (transfer_leaves transfer)) as (keys & Hkeys & Hdom).
  { eapply Forall_impl; [exact Hall|]. by intros tl [Hv _]. }
  apply (succeeds_let _ keys); [exact Hkeys|].
  assert (∃ leaves, prepare_leaves_for_claiming transfer keys = Ok leaves ∧ Forall from_transfer leaves ∧
    length leaves = length (transfer_leaves transfer)) as (leaves & Hprep & Hfrom & Hlen).
  { destruct (leaves_to_claim_total keys (transfer_leaves transfer)) as [Hf Hl].
    { intros tl Htl. split; [|done]. apply elem_of_dom. rewrite Hdom. set_solver. }
    unfold prepare_leaves_for_claiming. destruct (omap _ _) as [|tweak tweaks]; [|eauto].
    by destruct (transfer_leaves transfer). }
  apply (succeeds_let _ leaves); [exact Hprep|].
  assert (0 < length leaves)%nat by (rewrite Hlen; destruct (transfer_leaves transfer); simpl; [done|lia]).
  eapply succeeds_try; [apply prepare_claim_package_succeeds; [done..|by rewrite Hlen]|]. intros package w1 _.
  apply (succeeds_try _ _ _ (λ _, True)).
  { apply succeeds_signer. destruct (claim_gives_identity (transfer := transfer) w1) as (k & w2 & Hk). eauto. }
  intros k w2 _.
  match goal with |- succeeds (try_bind (rpc (client_claim_transfer ?r)) _) _ _ =>
    destruct (claim_accepted (transfer := transfer) r w2) as (t & t' & w3 & Ht & Ht' & Hclaimed); [done|] end.
  eapply succeeds_try; [apply (succeeds_rpc _ w2 (λ a, a = Some t)); eauto|]. intros a w4 ->.
  exists (Ok claimed), w4. simpl. rewrite Ht'. simpl. by rewrite Hclaimed.
Qed.

(** C19: A claim whose transfer is as an honest sender leaves it, with a signer that signs
    and operators that go along, completes at the first attempt and returns the leaves
    the operators report. *)
Theorem claim_completes self config w :
  Forall (claimable transfer) (transfer_leaves transfer) → transfer_leaves transfer ≠ [] →
  Z.of_nat (length (transfer_leaves transfer)) < 2 ^ 32 →
  0 < max_retries (default ClaimTransferConfig_default config) →
  returns (claim_transfer_with_retries self transfer config) w (λ r _, r = Ok claimed).
Proof.
  intros Hall Hne Hmax Hretries. unfold claim_transfer_with_retries.
  destruct (Z.to_nat (max_retries (default ClaimTransferConfig_default config))) as [|n] eqn:Hn; [lia|].
  simpl. apply returns_bind, returns_ret, returns_bind.
  eapply returns_weaken; [by apply (try_claim_succeeds self w Hall Hne Hmax)|].
  intros [nodes|e] w1; [|done]. intros ->. by apply returns_ret.
Qed.
End completes.

(** ** Witnesses

    Leaf [a] of the sample tree was sent to this wallet. The coordinator answers every
    request for a transfer with [answer]. *)

#[local] Existing Instances btc68 btctx68 sample_codec.
#[local] Instance sample_strings : HashIter string := canonical_iter string.
#[local] Instance sample_identifiers : HashIter (@Identifier btc68) := canonical_iter string.

(** A signature is the digest, which is the message. *)
#[local] Instance sample_signatures : @SignatureCodec btc68 := {|
  Signature := list Z;
  uuid_from_str s := Some s;
  from_compact b := Some b; from_der b := Some b;
  serialize_compact s := s; serialize_der s := s;
  sha256 l := l;
  verify_ecdsa digest s key := if bool_decide (s = digest) then Ok () else Err "signature failed verification";
|}.

Definition World : Type := list (FrostJob tx68) * list (Event Empty_set).

Definition commitment_count (ids : list string) (n m : Z) : Z :=
  n * match ids with [] => m | _ => Z.of_nat (length ids) end.

#[local] Instance sample_refunds : RefundEnv World := {|
  refund_frost := frost_beside (F := sample_frost commitment_count) (list (Event Empty_set));
  get_identity_public_key w := (Ok ("me"%string : @PublicKey btc68), w);
  public_key_from_str := @public_key_from_str _ _ _ _ sample_refund_env;
  negate := @negate _ _ _ _ sample_refund_env;
  combine_keys := @combine_keys _ _ _ _ sample_refund_env;
  into_script := @into_script _ _ _ _ sample_refund_env;
  p2tr_of_leaves := @p2tr_of_leaves _ _ _ _ sample_refund_env;
|}.

Section sample.
Context (answer : result OperatorRpcError.t (option ProtoTransfer.Transfer)).

Definition sample_transfer_env : TransferEnv World := {|
  transfer_refunds := sample_refunds;
  uuid_now_v7 w := ("new"%string, w);
  prepare_transfer r w :=
    (Ok {| pt_operator_packages := []; new_leaf_keys := []; transfer_user_signature := ([] : Signature) |}, w);
  prepare_claim r w := (Ok {| pc_operator_packages := [] |}, w);
  sign_message m w := (Ok (m : Signature), w);
  spark_address_string k := Some k;
  sleep d w := (w.1, w.2 ++ [Slept d]);
  client_query_all_transfers _ w := (Ok (mkQueryTransfersResponse [] 0), w);
  client_query_pending_transfers _ w := (Ok (mkQueryTransfersResponse [] 0), w);
  client_start_transfer_v2 r w := (answer, (w.1, w.2 ++ [Started r]));
  client_claim_transfer r w := (answer, (w.1, w.2 ++ [Claimed r]));
|}.

Definition sample_refund_laws' : RefundLaws (H0 := sample_refunds).
Proof.
  unshelve refine (Build_RefundLaws _ _ _ _ sample_refunds
    (frost_beside_laws (L := sample_frost_laws commitment_count) (list (Event Empty_set)))
    ("me"%string : @PublicKey btc68) _ _); [|done].
  by intros w k w' [= <- _].
Defined.

Definition sample_transfer_laws : TransferLaws (H1 := sample_transfer_env).
Proof.
  by refine (Build_TransferLaws _ _ _ _ _ sample_transfer_env sample_refund_laws' Empty_set (λ w : World, w.2)
    _ _ _ _ _ _ _ _ _ _ _ _ _ _ _ _ _ _ _ _).
Defined.
End sample.

Definition sample_service : TransferService (W := World) :=
  {| split_secret_threshold := 2; all_operators := []; transfer_observer := None |}.

Definition sent_leaf : TransferLeaf := {|
  tl_leaf := exit_node "a" (Some "root"%string) 0 10000 a_tx (Some a_refund) TreeNodeStatus.Available;
  secret_cipher := [9]; signature := Some (string_bytes "a" ++ string_bytes "id" ++ [9]);
  intermediate_refund_tx := (a_refund : @Transaction btc68);
  intermediate_direct_refund_tx := None; intermediate_direct_from_cpfp_refund_tx := None |}.

Definition sample_transfer : Transfer := {|
  transfer_id := "id"; TransferModel.sender_identity_public_key := ("alice"%string : @PublicKey btc68);
  TransferModel.receiver_identity_public_key := ("me"%string : @PublicKey btc68);
  transfer_status := TransferStatus.SenderKeyTweaked; TransferModel.total_value := 10000;
  TransferModel.expiry_time := None; transfer_leaves := [sent_leaf]; TransferModel.created_time := None;
  TransferModel.updated_time := None; transfer_type := TransferType.Transfer;
  TransferModel.spark_invoice := None |}.

(** The transfer as it is reported after the claim. *)
Definition reported : ProtoTransfer.Transfer :=
  ProtoTransfer.mkTransfer "id" [1] [1] TransferStatus.Completed 10000 None
    [ProtoTransfer.mkTransferLeaf
       (Some (Proto.mkTreeNode "a" "tree" 10000 (Some "root"%string) [1] [1] 0 [2] []
          (Some (Proto.mkSigningKeyshare [] 2 [2])) "AVAILABLE" [] [] [])) [9] [] [1] [] []]
    None None TransferType.Transfer "".

Definition reported_leaves : list TreeNode :=
  match transfer_try_from reported with Ok t => tl_leaf <$> transfer_leaves t | Err _ => [] end.

Lemma reported_converts : is_Ok (transfer_try_from reported) = true.
Proof. vm_compute. reflexivity. Qed.

#[local] Instance sample_willing :
  WillingClaim (TransferEnv0 := sample_transfer_env (Ok (Some reported))) sample_transfer reported_leaves.
Proof.
  split; simpl; try (by eauto).
  - intros n w Hn. eexists _, _. split; [done|]. rewrite length_replicate. split; [change (Z.of_nat (Z.to_nat (3 * n)) = 3 * n); lia|].
    by apply Forall_replicate.
  - intros js w. eexists _, _. split; [done|]. by rewrite length_replicate.
  - intros req w _. destruct (is_Ok_inv _ reported_converts) as [t Ht].
    exists reported, t, (w.1, w.2 ++ [Claimed req]). split; [reflexivity|]. split; [exact Ht|].
    unfold reported_leaves. rewrite Ht. reflexivity.
Qed.

(** How a claim ended: whether with leaves, the shares signed, the waits and the requests. *)
Definition claim_summary (r : option (ServiceResult (list TreeNode) * World))
    : option (bool * nat * list Z * nat) :=
  match r with
  | Some (r, w) => Some (is_Ok r, length w.1, sleeps w.2, length (claims w.2))
  | None => None
  end.

Definition refused : result OperatorRpcError.t (option ProtoTransfer.Transfer) :=
  Err (OperatorRpcError.Connection {| status_code := PermissionDenied; error_info_reason := None; status_text := "" |}).

Lemma claim_accepted_run :
  claim_summary (claim_transfer_with_retries (TransferEnv0 := sample_transfer_env (Ok (Some reported)))
    sample_service sample_transfer None ([], [])) = Some (true, 2%nat, [], 1%nat).
Proof. vm_compute. reflexivity. Qed.

Lemma claim_refused_run :
  claim_summary (claim_transfer_with_retries (TransferEnv0 := sample_transfer_env refused)
    sample_service sample_transfer None ([], [])) = Some (false, 10%nat, [1000; 2000; 4000; 8000], 5%nat).
Proof. vm_compute. reflexivity. Qed.

Example claims_settle_witness :
  ∃ w', claim_transfer_with_retries (TransferEnv0 := sample_transfer_env refused)
      sample_service sample_transfer None ([], []) = Some (Err ServiceError.MaxRetriesExceeded, w') ∧
    sleeps w'.2 = [1000; 2000; 4000; 8000].
Proof.
  destruct (claims_settle (H2 := sample_transfer_laws refused) sample_service sample_transfer None ([], []))
    as (r & w' & Hrun & evs & Hev & Hr & _); [done|].
  pose proof claim_refused_run as Hsum. rewrite Hrun in Hsum. unfold claim_summary in Hsum.
  change (w'.2 = evs) in Hev. rewrite Hev in Hsum. destruct Hr as [[Hok _]|[-> Hsl]].
  - rewrite Hok in Hsum. discriminate Hsum.
  - exists w'. split; [exact Hrun|]. rewrite Hev. exact Hsl.
Defined.

Example claims_pay_own_key_witness :
  ∃ r (w' : World), claim_transfer_with_retries (TransferEnv0 := sample_transfer_env (Ok (Some reported)))
      sample_service sample_transfer None ([], []) = Some (r, w') ∧ length w'.1 = 2%nat ∧
    Forall (claimed_share (H2 := sample_transfer_laws (Ok (Some reported))) sample_transfer) w'.1.
Proof.
  destruct (claims_pay_own_key (H2 := sample_transfer_laws (Ok (Some reported))) sample_service sample_transfer
    None ([], [])) as (r & w' & Hrun & js & Hjs & Hshares); [done|].
  pose proof claim_accepted_run as Hsum. rewrite Hrun in Hsum. unfold claim_summary in Hsum.
  exists r, w'. split; [exact Hrun|]. change (w'.1 = js) in Hjs. rewrite Hjs. split; [|exact Hshares].
  rewrite Hjs in Hsum. injection Hsum as _ Hlen _ _. exact Hlen.
Defined.

Lemma sent_leaf_claimable :
  claimable sample_transfer sent_leaf.
Proof.
  split; [by eexists|]. split; [by eexists|]. split; [by eexists|]. split; [|done].
  eexists. split; [reflexivity|]. vm_compute. reflexivity.
Qed.

Example claim_completes_witness :
  returns (claim_transfer_with_retries (TransferEnv0 := sample_transfer_env (Ok (Some reported)))
    sample_service sample_transfer None) ([], []) (λ r _, r = Ok reported_leaves) ∧
  length reported_leaves = 1%nat.
Proof.
  split; [|vm_compute; reflexivity].
  apply (claim_completes (WillingClaim0 := sample_willing) sample_service None ([], [])).
  - apply Forall_cons. split; [exact sent_leaf_claimable|by apply Forall_nil].
  - discriminate.
  - reflexivity.
  - reflexivity.
Defined.

(** A payment of both leaves, whose answer is lost. *)
Definition lost : result OperatorRpcError.t (option ProtoTransfer.Transfer) :=
  Err (OperatorRpcError.Connection {| status_code := Internal; error_info_reason := None; status_text := "" |}).

Definition both_leaves : list TreeNode := [
  exit_node "a" (Some "root"%string) 0 10000 a_tx (Some a_refund) TreeNodeStatus.Available;
  exit_node "b" (Some "root"%string) 1 20000 b_tx (Some b_refund) TreeNodeStatus.Available].

Definition send_summary (r : option (ServiceResult Transfer * World)) : option (bool * nat * nat) :=
  match r with Some (r, w) => Some (is_Ok r, length w.1, length w.2) | None => None end.

Lemma send_run :
  send_summary (transfer_leaves_to (TransferEnv0 := sample_transfer_env lost) sample_service both_leaves
    ("bob"%string : @PublicKey btc68) (Some "id"%string) None ([], [])) = Some (false, 4%nat, 1%nat).
Proof. vm_compute. reflexivity. Qed.

Example sends_start_once_witness :
  ∃ r (w' : World), transfer_leaves_to (TransferEnv0 := sample_transfer_env lost) sample_service both_leaves
      ("bob"%string : @PublicKey btc68) (Some "id"%string) None ([], []) = Some (r, w') ∧
    length w'.1 = 4%nat ∧
    Forall (sent_share (H2 := sample_transfer_laws lost) both_leaves ("bob"%string : @PublicKey btc68)) w'.1 ∧
    ∃ req, w'.2 = [Started req] ∧ st_transfer_id req = "id".
Proof.
  pose proof (sends_start_once (H2 := sample_transfer_laws lost) sample_service both_leaves
    ("bob"%string : @PublicKey btc68) (Some "id"%string) None ([], [])) as Hsend.
  pose proof send_run as Hsum. unfold ends_in in Hsend.
  destruct (transfer_leaves_to _ _ _ _ _ _) as [[r w']|]; [|discriminate Hsum].
  destruct Hsend as (j & js & evs & Hjs & Hev & Hshares & Hj & Hstart & _); [intros f Hf; discriminate Hf|].
  change (w'.1 = js) in Hjs. change (w'.2 = evs) in Hev. simpl in Hj. subst j.
  unfold send_summary in Hsum. rewrite Hjs, Hev in Hsum. exists r, w'. rewrite Hjs, Hev.
  split; [reflexivity|]. injection Hsum as _ Hlen1 Hlen2. split; [exact Hlen1|]. split; [exact Hshares|].
  destruct Hstart as [[_ ->]|(req & -> & Hid & _)]; [discriminate Hlen2|]. by exists req.
Defined.
