(* ===== verification/SampleWorld.v ===== *)
(** * A world to evaluate the services on

    A signer, a coordinator and a clock that keep a log of the shares they were asked for
    and of the requests they were sent. Keys and identifiers are strings, and what is
    signed is the transaction and the amounts it spends. The requests [X] of a service,
    the transactions that bytes stand for, the number of commitments in an answer, and the
    transfers that are listed are left open. *)

From S2P Require Import Prelude WireBytes Bitcoin BitcoinTx SparkTx TreeModel NodeWire Paging.
From S2P Require Import ExitSample FrostBatch FrostSample RefundJobs RefundJobsSpec TransferModel ServiceCalls.
From S2P Require Import TransferService TransferServiceSpec TransferCompletes.
Open Scope Z_scope.

#[local] Existing Instances btc68 btctx68 sample_strings sample_signatures.

Section world.
Context (X : Type) (raw_tx : list Z → option tx68).
Context (count : list string → Z → Z → Z) (listed : list ProtoTransfer.Transfer).

#[local] Instance world_codec : Codec := {|
  Identifier_countable := _ : Countable (@Identifier btc68);
  NonceCommitment := unit; SignatureShare := unit;
  hex_decode s := Some (string_bytes s); hex_encode _ := ""%string;
  identifier_deserialize _ := Some ("operator"%string : @Identifier btc68);
  identifier_serialize _ := [];
  public_key_from_slice _ := Some ("vk"%string : @PublicKey btc68); public_key_serialize _ := [];
  deserialize := raw_tx : list Z → option (@Transaction btc68);
  serialize _ := [];
  nonce_deserialize _ := Some (); nonce_serialize _ := Ok []; share_serialize _ := []
|}.

Definition SampleWorld : Type := list (FrostJob (list Z)) * list (Event X).

#[local] Instance world_frost : FrostEnv SampleWorld := {|
  Sighash := list Z;
  FrostBatch.taproot_key_spend_signature_hash t _ outs := Ok (tx68_fields t ++ (txout_value <$> outs));
  signer_public_key_for_leaf i w := (Ok (("leaf key " +:+ i)%string : @PublicKey btc68), w);
  sign_frost jobs w := (Ok (replicate (length jobs)
    (mkFrostShareResult {| commitments := mkSigningCommitments () (); nonces_ciphertext := [] |} ())),
    (w.1 ++ jobs, w.2));
  client_get_signing_commitments ids n m w := (Ok (replicate (Z.to_nat (count ids n m)) ∅), w) |}.

#[local] Instance world_refunds : RefundEnv SampleWorld := {|
  refund_frost := world_frost;
  get_identity_public_key w := (Ok ("me"%string : @PublicKey btc68), w);
  public_key_from_str s := Some (s : @PublicKey btc68);
  negate := (λ k, ("-" +:+ k)%string) : @PublicKey btc68 → @PublicKey btc68;
  combine_keys := (λ a b, Ok (a +:+ b)%string) : @PublicKey btc68 → @PublicKey btc68 → _;
  into_script instructions := [Z.of_nat (length instructions)];
  p2tr_of_leaves _ leaves := Ok ((λ l, l.1) <$> leaves);
|}.

Definition world_transfers : TransferEnv SampleWorld := {|
  transfer_refunds := world_refunds;
  uuid_now_v7 w := ("new"%string, w);
  prepare_transfer r w :=
    (Ok {| pt_operator_packages := []; new_leaf_keys := []; transfer_user_signature := ([] : Signature) |}, w);
  prepare_claim r w := (Ok {| pc_operator_packages := [] |}, w);
  sign_message m w := (Ok (m : Signature), w);
  spark_address_string k := Some k;
  sleep d w := (w.1, w.2 ++ [Slept d]);
  client_query_all_transfers _ w := (Ok (mkQueryTransfersResponse listed 0), w);
  client_query_pending_transfers _ w := (Ok (mkQueryTransfersResponse [] 0), w);
  client_start_transfer_v2 r w := (Ok None, (w.1, w.2 ++ [Started r]));
  client_claim_transfer r w := (Ok (head listed), (w.1, w.2 ++ [Claimed r]));
|}.

Definition world_clock : ClockEnv SampleWorld := {| now w := (1000, w); checked_add t d := Some (t + d) |}.

Definition world_frost_laws : FrostLaws (H0 := world_frost).
Proof using Type.
  unshelve refine (Build_FrostLaws _ _ _ _ world_frost
    (λ i, (("leaf key " +:+ i)%string : @PublicKey btc68)) (λ w, w.1) _ _ _ _); try done.
  by intros i w k w' [= <- _].
Defined.

Definition world_refund_laws : RefundLaws (H0 := world_refunds).
Proof using Type.
  unshelve refine (Build_RefundLaws _ _ _ _ world_refunds world_frost_laws
    ("me"%string : @PublicKey btc68) _ _); [|done].
  by intros w k w' [= <- _].
Defined.

Definition world_transfer_laws : TransferLaws (H1 := world_transfers).
Proof using Type.
  by refine (Build_TransferLaws _ _ _ _ _ world_transfers world_refund_laws X (λ w : SampleWorld, w.2)
    _ _ _ _ _ _ _ _ _ _ _ _ _ _ _ _ _ _ _ _).
Defined.

Definition world_clock_laws : @ClockLaws _ _ _ _ _ _ world_transfer_laws world_clock.
Proof using Type. by refine (Build_ClockLaws _ _ _ _ _ _ world_transfer_laws world_clock _ _). Defined.
End world.

(** Whether a call succeeded, how many shares it signed, and how many requests it left. *)
Definition world_summary {X raw_tx A} (r : option (ServiceResult A * SampleWorld X raw_tx)) : option (bool * nat * nat) :=
  match r with Some (r, w) => Some (is_Ok r, length w.1, length w.2) | None => None end.
