(* ===== verification/SwapServiceSpec.v ===== *)
(** * What a swap signs and asks for

    [swaps_run_in_order]: whatever the operators and the SSP answer, a swap signs refunds
    to the SSP, starts one transfer, asks the SSP a bounded number of times, and only
    then claims. [adaptor_message_is_signed]: what is aggregated for the SSP is what the
    wallet's share was made for. *)

From S2P Require Import Prelude WireBytes Bitcoin BitcoinTx Timelock SparkTx TreeModel NodeWire Paging.
From S2P Require Import FrostBatch FrostAggregate RefundJobs RefundJobsSpec TransferModel.
From S2P Require Import ServiceCalls TransferService TransferServiceSpec SwapService.
Open Scope Z_scope.

Inductive SwapRequest :=
| Initiated (request : InitiateSwapPrimaryTransferRequest)
| Asked (request : RequestSwapInput).

Class SwapLaws `{SwapEnv W} := {
  swap_transfer_laws :: TransferLaws (W := W);
  swap_event : SwapRequest → other_request;
  swap_clock_laws :: ClockLaws (W := W);
  log_adaptor w : frost_log (new_adaptor_key w).2 = frost_log w;
  log_acquire i w : frost_log (acquire_claim i w).2 = frost_log w;
  log_release i leaves w : frost_log (release_claim i leaves w) = frost_log w;
  log_initiate r w : frost_log (client_initiate_swap_primary_transfer r w).2 = frost_log w;
  log_ssp r w : frost_log (ssp_request_swap r w).2 = frost_log w;
  events_adaptor w : events (new_adaptor_key w).2 = events w;
  events_acquire i w : events (acquire_claim i w).2 = events w;
  events_release i leaves w : events (release_claim i leaves w) = events w;
  events_initiate r w : events (client_initiate_swap_primary_transfer r w).2 =
    events w ++ [Requested (swap_event (Initiated r))];
  events_ssp r w : events (ssp_request_swap r w).2 = events w ++ [Requested (swap_event (Asked r))];
}.

#[export] Hint Resolve @log_adaptor @log_acquire @events_adaptor
  @events_acquire : calls.

Section swap.
Context `{SwapLaws W} `{!HashIter string} `{!HashIter Identifier}.
Implicit Types (self : Swap (W := W)) (leaves : list TreeNode) (js : list (FrostJob Sighash)).
Implicit Types (evs : list (Event other_request)) (transfer : Transfer).

Definition initiated request : Event other_request := Requested (swap_event (Initiated request)).
Definition asked input : Event other_request := Requested (swap_event (Asked input)).

(** The requests to the SSP, with the waits between them. *)
Definition asks (input : RequestSwapInput) (delays : list Z) : list (Event other_request) :=
  asked input :: mjoin ((λ d, [Slept d; asked input]) <$> delays).

Lemma request_swap_loop_emits input attempts attempt w :
  1 ≤ attempt → attempt + Z.of_nat attempts = 6 → (0 < attempts)%nat →
  emits (request_swap_loop input attempts attempt) w (λ _ js evs, js = [] ∧
    ∃ delays, evs = asks input delays ∧
      delays `prefix_of` (ssp_delay_ms <$> seqZ attempt (5 - attempt))).
Proof.
  revert attempt w. induction attempts as [|attempts IH]; intros attempt w Ha Hsum Hpos; [lia|].
  simpl. apply emits_bind, returns_call. exists [], [asked input].
  rewrite log_ssp, events_ssp, app_nil_r. split_and!; [done..|]. intros w1.
  assert (∀ r : ServiceResult LeavesSwapRequest, emits (mret r) w1 (λ _ js evs, [] ++ js = [] ∧
    ∃ delays, [asked input] ++ evs = asks input delays ∧
      delays `prefix_of` (ssp_delay_ms <$> seqZ attempt (5 - attempt)))) as Hstop.
  { intros r. apply emits_ret. split; [done|]. exists []. split; [done|apply prefix_nil]. }
  destruct (ssp_request_swap input w).1 as [r|e]; [apply Hstop|].
  destruct (Z.ltb_spec attempt SSP_REQUEST_SWAP_MAX_ATTEMPTS) as [Hlt|]; simpl; [|apply Hstop].
  destruct (is_retryable_ssp_error e); [|apply Hstop]. unfold SSP_REQUEST_SWAP_MAX_ATTEMPTS in Hlt.
  apply emits_bind, returns_modify. exists [], [Slept (ssp_delay_ms attempt)].
  rewrite log_sleep, events_sleep, app_nil_r. split_and!; [done..|]. intros w2.
  rewrite uadd_small by lia. eapply emits_weaken; [apply IH; lia|].
  intros r js evs [-> (delays & -> & Hpre)]. split; [done|].
  exists (ssp_delay_ms attempt :: delays). split; [done|].
  rewrite seqZ_cons by lia. csimpl. apply prefix_cons.
  by replace (Z.pred (5 - attempt)) with (5 - (Z.succ attempt)) by lia.
Qed.

(** The loop of the requests ends: at most five of them, further and further apart. *)
Lemma ssp_requests_end input w :
  emits (request_swap input) w (λ _ js evs, js = [] ∧
    ∃ delays, evs = asks input delays ∧ delays `prefix_of` [100; 200; 400; 800]).
Proof.
  eapply emits_weaken; [apply request_swap_loop_emits; vm_compute; congruence || lia|]. done.
Qed.

(** ** The claim at the end *)

(** What claiming [transfer] signs and does. *)
Definition claiming transfer js evs : Prop :=
  Forall (claimed_share transfer) js ∧ Forall claim_event evs ∧ (length (claims evs) ≤ 5)%nat ∧
  Forall (λ req, ct_transfer_id req = transfer_id transfer) (claims evs).

Lemma claiming_nothing transfer : claiming transfer [] [].
Proof. split_and!; [constructor|constructor|simpl; lia|constructor]. Qed.

Lemma claim_transfer_emits service transfer w :
  emits (claim_transfer service transfer None) w (λ _, claiming transfer).
Proof.
  eapply emits_quiet; [by apply (quietly_call _ w (λ _, True)); eauto with calls|].
  intros [waited permit] w1 _. apply emits_bind.
  apply (emits_weaken _ _ (λ _, claiming transfer)).
  { unfold claim_transfer_locked. destruct permit as [leaves|]; [apply emits_ret, claiming_nothing|].
    apply (emits_quiet _ _ _ (λ _, True)).
    { destruct waited; [apply finalized_leaves_quiet|by apply quietly_ret]. }
    intros [leaves|] w2 _; [apply emits_ret, claiming_nothing|].
    apply emits_bind. eapply emits_weaken; [by apply claims_emit|].
    intros r js evs (Hjs & _ & Hlen & Hid & Hev) w3.
    destruct r; apply emits_ret; rewrite !app_nil_r; by split_and!. }
  intros [r permit'] js evs Hc w2. apply emits_bind, returns_modify. exists [], [].
  rewrite log_release, events_release, !app_nil_r. split_and!; [done..|]. intros w3.
  apply emits_ret. by rewrite !app_nil_r.
Qed.

Lemma find_inbound_quiet response w :
  quietly (find_inbound_transfer response) w (λ _ : ServiceResult Transfer, True).
Proof.
  unfold find_inbound_transfer. apply emits_let; [intros i w1 _|by intros e _].
  apply (emits_skip _ _ _ (λ _, True)); [|intros k w2 _|by intros e].
  { eapply quietly_weaken; [apply quietly_identity|]. by intros []. }
  apply (emits_skip _ _ _ (λ _, True)); [by apply quietly_rpc; eauto with calls|intros ts w3 _|by intros e].
  by apply quietly_ret.
Qed.
(** ** The swap *)

(** The request that starts the swap's transfer [i] to the SSP, bound to [adaptor]. *)
Definition primary self (i : TransferId) (adaptor : PublicKey) request : Prop :=
  adaptor_public_keys request = Some {| adaptor_public_key := public_key_serialize adaptor;
    direct_adaptor_public_key := []; direct_from_cpfp_adaptor_public_key := [] |} ∧
  ∃ st package, ispt_transfer request = Some st ∧ st_transfer_package st = Some package ∧
    st_transfer_id st = i ∧ st_owner_identity_public_key st = public_key_serialize own_identity ∧
    st_receiver_identity_public_key st = public_key_serialize (ssp_identity_public_key self) ∧
    direct_leaves_to_send package = [] ∧ direct_from_cpfp_leaves_to_send package = [].

(** What the SSP is asked to swap. *)
Definition asks_for (i : TransferId) leaves (targets : option (list Z)) (adaptor : PublicKey)
    (input : RequestSwapInput) : Prop :=
  user_outbound_transfer_external_id input = i ∧
  adaptor_pubkey input = hex_encode (public_key_serialize adaptor) ∧
  total_amount_sats input = sum_wrap 64 (value <$> leaves) ∧
  target_amount_sats input = default [total_amount_sats input] targets ∧ fee_sats input = 0.

(** How a swap may go. *)
Definition swapped self i leaves targets (r : ServiceResult (list TreeNode)) js evs : Prop :=
  is_Ok r = false ∧ evs = [] ∧ Forall (sent_share leaves (ssp_identity_public_key self)) js ∨
  ∃ adaptor request js1 js2 evs2, js = js1 ++ js2 ∧ evs = initiated request :: evs2 ∧
    Forall (sent_share leaves (ssp_identity_public_key self)) js1 ∧ primary self i adaptor request ∧
    (is_Ok r = false ∧ js2 = [] ∧ evs2 = [] ∨
     ∃ input delays evs3, evs2 = asks input delays ++ evs3 ∧ asks_for i leaves targets adaptor input ∧
       delays `prefix_of` [100; 200; 400; 800] ∧
       (is_Ok r = false ∧ js2 = [] ∧ evs3 = [] ∨
        is_Ok r = true ∧ ∃ inbound, claiming inbound js2 evs3)).

Lemma user_leaf_alone txs tweaks adaptor result w :
  ends_in (user_leaf txs tweaks adaptor result) w (λ _ w', w' = w).
Proof.
  apply ends_in_try. eapply (ends_in_weaken _ _ (λ _ w', w' = w)).
  - unfold adaptor_request. do 6 (apply ends_in_let; [intros ? _|done]).
    apply ends_in_bind, ends_in_panic. intros output _. apply ends_in_let; [intros ? _|done].
    by apply ends_in_ret.
  - intros [[tx request]|e] w' ->; [|done]. do 2 (apply ends_in_let; [intros ? _|done]).
    by apply ends_in_ret.
Qed.

Lemma user_leaves_emit txs tweaks adaptor results w :
  may_emit (try_all (user_leaf txs tweaks adaptor) results) w (λ _ js evs, js = [] ∧ evs = []).
Proof.
  eapply ends_in_weaken.
  - apply (ends_in_try_all (λ w, w) _ (λ _ _, True)). intros result w' _.
    eapply ends_in_weaken; [apply user_leaf_alone|]. intros [leaf|e] w1 ->; done.
  - intros r w' [-> _]. exists [], []. by rewrite !app_nil_r.
Qed.

Lemma rpc_initiate_emits request w :
  emits (rpc (client_initiate_swap_primary_transfer request)) w
    (λ _ js evs, js = [] ∧ evs = [initiated request]).
Proof.
  unfold rpc. apply emits_bind, returns_call. exists [], [initiated request].
  rewrite log_initiate, events_initiate, app_nil_r. split_and!; [done..|]. intros w'. by apply emits_ret.
Qed.

(** After the transfer has started, with [js1] signed for it. *)
Lemma swap_rest_emits self i leaves targets adaptor request txs response js1 w :
  Forall (sent_share leaves (ssp_identity_public_key self)) js1 → primary self i adaptor request →
  may_emit (
    _ ←? mret (or_generic (ispt_response_transfer response) "response missing transfer");
    user_leaves ←? try_all (user_leaf txs (prepare_leaf_key_tweaks_to_send leaves) adaptor)
                     (signing_results response);
    swap_response ←? request_swap {|
      adaptor_pubkey := hex_encode (public_key_serialize adaptor);
      total_amount_sats := sum_wrap 64 (value <$> leaves);
      target_amount_sats := default [sum_wrap 64 (value <$> leaves)] targets;
      fee_sats := 0; user_leaves := user_leaves; user_outbound_transfer_external_id := i |};
    inbound_transfer ←? find_inbound_transfer swap_response;
    claimed ← claim_transfer (transfer_service self) inbound_transfer None;
    mret (Ok match claimed with Ok nodes => nodes | Err _ => [] end)) w
    (λ r js evs, swapped self i leaves targets r (js1 ++ js) (initiated request :: evs)).
Proof.
  intros Hjs1 Hprim.
  assert (∀ e, swapped self i leaves targets (Err e) (js1 ++ []) [initiated request]) as Hstop.
  { intros e. right. exists adaptor, request, js1, [], []. split_and!; [done..|by left]. }
  apply (may_skip _ _ _ (λ _, True)); [by apply quietly_ret; case_match|intros _ w1 _|apply Hstop].
  apply may_try. eapply may_weaken; [apply user_leaves_emit|].
  intros [user_leaves|e] js evs [-> ->]; [|apply Hstop]. intros w2. simpl.
  match goal with |- context [request_swap ?x] => set (input := x) end.
  apply emits_may, emits_try. eapply emits_weaken; [apply ssp_requests_end|].
  intros response' js evs [-> (delays & -> & Hpre)].
  assert (∀ e : ServiceError.t, swapped self i leaves targets (Err e) (js1 ++ [])
    (initiated request :: asks input delays ++ [])) as Hgive_up.
  { intros e. right. eexists adaptor, request, js1, [], _. split_and!; [done..|]. right.
    eexists _, delays, []. split_and!; [done| |done|by left]. by split_and!. }
  destruct response' as [response'|e]; [|rewrite <- (app_nil_r (asks input delays)); apply Hgive_up].
  intros w3. apply (emits_skip _ _ _ (λ _, True)); [eapply quietly_weaken; [apply find_inbound_quiet|]; by intros []| |apply Hgive_up].
  intros inbound w4 _. apply emits_bind. eapply emits_weaken; [apply claim_transfer_emits|].
  intros r js evs Hclaim w5. apply emits_ret. rewrite !app_nil_r. right.
  eexists adaptor, request, js1, js, _. split_and!; [done..|]. right.
  eexists _, delays, evs. split_and!; [done| |done|]; [by split_and!|]. right. split; [done|]. by exists inbound.
Qed.

Lemma submit_swap_emits self i leaves targets prepared w :
  may_emit (submit_swap self i leaves targets prepared) w (swapped self i leaves targets).
Proof.
  assert (∀ e, swapped self i leaves targets (Err e) [] []) as Hstop by (intros e; by left).
  unfold submit_swap. apply may_bind, emits_may. eapply emits_weaken.
  { by apply (quietly_call now w (λ _, True)); eauto with calls. }
  intros t js evs (-> & -> & _) w1. simpl.
  apply (may_skip _ _ _ (λ _, True)); [by apply quietly_ret; case_match|intros expiry w2 _|apply Hstop].
  apply may_bind, emits_may. eapply emits_weaken.
  { by apply (quietly_call new_adaptor_key w2 (λ _, True)); eauto with calls. }
  intros adaptor js evs (-> & -> & _) w3. simpl.
  apply may_try. eapply may_weaken; [apply assemble_request_emits|].
  intros [request|e] js evs (-> & Hjs & Hrequest); [|left; by rewrite ?app_nil_r]. intros w4. simpl.
  apply may_try, emits_may. eapply emits_weaken; [apply rpc_initiate_emits|].
  destruct Hrequest as ([package Hpackage] & Hi & Howner & Hreceiver).
  intros response js' evs [-> ->]. rewrite app_nil_r.
  match goal with |- context [initiated ?r] => assert (primary self i adaptor r) as Hprim end.
  { split; [done|]. eexists _, _. split; [done|]. simpl. rewrite Hpackage. by split_and!. }
  destruct response as [response|e].
  - intros w5. by apply swap_rest_emits.
  - right. eexists adaptor, _, js, [], []. rewrite app_nil_r. split_and!; [done..|by left].
Qed.

(** The swaps that are attempted. *)
Definition fair leaves (targets : option (list Z)) : Prop :=
  leaves ≠ [] ∧ ∀ amounts, targets = Some amounts →
    amounts ≠ [] ∧ 0 ∉ amounts ∧ sum_wrap 64 amounts ≤ sum_wrap 64 (value <$> leaves).

Lemma prepare_swap_quiet self leaves targets w :
  quietly (prepare_swap self leaves targets) w (λ r, match r with Ok _ => fair leaves targets | Err _ => True end).
Proof.
  unfold prepare_swap. destruct leaves as [|leaf leaves']; [by apply quietly_ret|].
  set (leaves := leaf :: leaves'). apply emits_let; [intros [] w1 Hvalid|by intros e _].
  destruct (Z.ltb_spec (sum_wrap 64 (value <$> leaves)) (from_option (sum_wrap 64)
    (sum_wrap 64 (value <$> leaves)) targets)); [by apply quietly_ret|].
  eapply emits_quiet; [by apply (quietly_call uuid_now_v7 w1 (λ _, True)); eauto with calls|].
  intros i w2 _. eapply emits_quiet; [apply prepare_request_quiet|]. intros request w3 _.
  apply quietly_ret. split; [done|]. intros amounts ->.
  repeat case_bool_decide; [done..|]. by split_and!.
Qed.

(** C12: A swap goes in order, whatever the operators and the SSP answer. Nothing is asked
    for unless the leaves are worth the amounts that are wanted. It signs only refunds of
    the given leaves to the SSP and starts one transfer, of its own id, without direct
    refunds; only then does it ask the SSP to answer that transfer, with the same words
    each time, at most five times and after 100, 200, 400 and 800 ms; only then does it
    claim, and what it signs then are refunds of leaves the sender vouched for to its own
    keys. An error is reported only if nothing was claimed. *)
Theorem swaps_run_in_order self leaves targets w :
  ends_in (swap_leaves self leaves targets) w (λ r w', ∃ i js evs,
    frost_log w' = frost_log w ++ js ∧ events w' = events w ++ evs ∧
    swapped self i leaves targets r js evs ∧ (evs ≠ [] → fair leaves targets)).
Proof.
  assert (may_emit (swap_leaves self leaves targets) w (λ r js evs, ∃ i,
    swapped self i leaves targets r js evs ∧ (evs ≠ [] → fair leaves targets))) as Hemits.
  { assert (∀ e, ∃ i, swapped self i leaves targets (Err e) [] [] ∧ ([] ≠ @nil (Event other_request) → fair leaves targets))
      as Hstop by (intros e; exists ""; split; [by left|done]).
    eapply may_skip; [apply prepare_swap_quiet|intros request w1 Hfair|apply Hstop].
    apply (may_skip _ _ _ (λ _, True)); [by apply quietly_signer; eauto with calls|intros prepared w2 _|apply Hstop].
    eapply may_weaken; [apply submit_swap_emits|]. intros r js evs Hs. by eexists. }
  eapply ends_in_weaken; [exact Hemits|]. intros r w' (js & evs & ? & ? & i & ? & ?). by exists i, js, evs.
Qed.
End swap.
