(* ===== verification/SwapAdaptor.v ===== *)
(** * What is aggregated for the service provider

    [adaptor_message_is_signed] joins the two ends of a swap: the share the wallet made
    before the transfer started, and the signature that is put together for the SSP
    after the operators answered. *)

From S2P Require Import Prelude WireBytes Bitcoin BitcoinTx Timelock SparkTx TreeModel NodeWire Paging.
From S2P Require Import ExitSample FrostBatch FrostSample FrostAggregate RefundJobs RefundJobsSpec TransferModel.
From S2P Require Import ServiceCalls TransferService TransferServiceSpec TransferCompletes SampleWorld SwapService SwapServiceSpec.
Open Scope Z_scope.

(** ** The shares of the CPFP refunds *)

Section shares.
Context {B : Bitcoin} {BT : BitcoinTx} `{!Codec} {W : Type} `{!RefundEnv W}.
Implicit Types (leaf : LeafKeyTweak) (params : SignRefundsParams) (jobs : list LeafRefundJobs).

(** The job of a leaf's CPFP refund. *)
Definition cpfp_job params leaf (refund : RefundJob) : Prop :=
  prs_node_id (pending refund) = id (lkt_node leaf) ∧
  fj_derivation (job refund) = SigningLeaf (id (lkt_node leaf)) ∧
  fj_adaptor_public_key (job refund) = srp_cpfp_adaptor_public_key params ∧
  ∃ o, tx_output (node_tx (lkt_node leaf)) !! 0%nat = Some o ∧
    sighash_from_tx (prs_refund_tx (pending refund)) 0 o = Ok (fj_sighash (job refund)).

Lemma build_refund_job_unsigned leaf tx refund_tx key comms adaptor w :
  ends_in (build_refund_job leaf tx refund_tx key comms adaptor) w (λ r w', w' = w ∧
    match r with
    | Ok j => prs_node_id (pending j) = id (lkt_node leaf) ∧
        fj_derivation (job j) = SigningLeaf (id (lkt_node leaf)) ∧
        fj_adaptor_public_key (job j) = adaptor ∧
        ∃ o, tx_output tx !! 0%nat = Some o ∧
          sighash_from_tx (prs_refund_tx (pending j)) 0 o = Ok (fj_sighash (job j))
    | Err _ => True
    end).
Proof.
  apply ends_in_bind, ends_in_panic. intros o Ho. apply ends_in_let; [|done]. intros sighash Hs.
  apply ends_in_ret. split_and!; [done..|]. exists o. split; [done|]. simpl.
  by destruct (sighash_from_tx refund_tx 0 o); simplify_eq/=.
Qed.

Lemma leaf_refund_txs_unsigned identity params node_tx direct_tx old w :
  ends_in (leaf_refund_txs identity params node_tx direct_tx old) w (λ _ w', w' = w).
Proof.
  unfold leaf_refund_txs. destruct (srp_payment_hash params).
  - destruct (next_lightning_htlc_sequence old) as [[cs ds]|]; [|done].
    by apply ends_in_panic.
  - destruct (next_sequence old) as [[cs ds]|]; [|done].
    apply ends_in_bind, ends_in_panic. intros txs _. by apply ends_in_ret.
Qed.

Lemma leaf_cpfp_job identity params i leaf w :
  ends_in (leaf_refund_jobs identity params i leaf) w (λ r w', w' = w ∧
    match r with Ok lj => cpfp_job params leaf (lrj_cpfp lj) | Err _ => True end).
Proof.
  apply ends_in_bind, ends_in_panic. intros direct _. apply ends_in_let; [intros old_refund _|done].
  apply ends_in_bind, ends_in_panic. intros old _. apply ends_in_try.
  eapply ends_in_weaken; [apply leaf_refund_txs_unsigned|]. intros [txs|e] w1 ->; [|done].
  apply ends_in_bind, ends_in_panic. intros _ _. apply ends_in_let; [intros key _|done].
  apply ends_in_bind, ends_in_panic. intros comms _. apply ends_in_try.
  eapply ends_in_weaken; [apply build_refund_job_unsigned|]. intros [cpfp|e] w1 [-> Hcpfp]; [|done].
  assert (∀ (m : proc W (result string RefundJob)), ends_in m w (λ _ w', w' = w) →
    ends_in (j ←? m; mret (Ok (Some j))) w (λ _ w', w' = w)) as Hopt.
  { intros m Hm. apply ends_in_try. eapply ends_in_weaken; [exact Hm|].
    intros [j|e] w' ->; [by apply ends_in_ret|done]. }
  assert (∀ tx t c, ends_in (build_refund_job leaf tx t key c None) w (λ _ w', w' = w)) as Hbuild.
  { intros tx t c. eapply ends_in_weaken; [apply build_refund_job_unsigned|]. by intros r w' [-> _]. }
  apply ends_in_try. eapply (ends_in_weaken _ _ (λ _ w', w' = w)).
  { destruct direct; [|by apply ends_in_ret]. destruct (refund_direct_tx txs); [|by apply ends_in_ret].
    apply ends_in_bind, ends_in_panic. intros c _. apply Hopt, Hbuild. }
  intros [jd|e] w1 ->; [|done]. apply ends_in_try. eapply (ends_in_weaken _ _ (λ _ w', w' = w)).
  { destruct (refund_direct_from_cpfp_tx txs); [|by apply ends_in_ret].
    apply ends_in_bind, ends_in_panic. intros c _. apply Hopt, Hbuild. }
  intros [jf|e] w1 ->; [|done]. by apply ends_in_ret.
Qed.

(** The first transaction of each leaf has the share of the leaf's first job. *)
Definition first_share (all : list RefundJob) (shares : list FrostShareResult) (lj : LeafRefundJobs)
    (s : SignedLeafRefunds) : Prop :=
  ∃ k share, all !! k = Some (lrj_cpfp lj) ∧ shares !! k = Some share ∧
    slr_cpfp s = into_signed_tx (pending (lrj_cpfp lj)) share.

Lemma same_shape_length lj s : same_shape lj s → length (signed_list s) = length (leaf_jobs lj).
Proof.
  destruct lj as [c d f], s as [sc sd sf]. intros [Hd Hf]. simpl in *.
  unfold signed_list, leaf_jobs. simpl. rewrite !length_app.
  assert (∀ {A C} (a : option A) (b : option C), (is_Some a ↔ is_Some b) →
    length (option_list b) = length (option_list a)) as Hlen.
  { intros A C [a|] [b|] [H1 H2]; try done; [by destruct H1|by destruct H2]. }
  by rewrite (Hlen _ _ _ _ Hd), (Hlen _ _ _ _ Hf).
Qed.

Lemma first_shares jobs signed shares :
  Forall2 same_shape jobs signed → length shares = length (all_jobs jobs) →
  concat (signed_list <$> signed) =
    zip_with (λ j share, into_signed_tx (pending j) share) (all_jobs jobs) shares →
  Forall2 (first_share (all_jobs jobs) shares) jobs signed.
Proof.
  intros Hshape. revert shares. induction Hshape as [|lj s jobs signed Hs _ IH]; intros shares Hlen Hcat;
    [constructor|].
  change (all_jobs (lj :: jobs)) with (leaf_jobs lj ++ all_jobs jobs) in *. rewrite length_app in Hlen.
  rewrite <- (take_drop (length (leaf_jobs lj)) shares) in Hcat |- *.
  set (head := take (length (leaf_jobs lj)) shares) in *. set (tail := drop (length (leaf_jobs lj)) shares) in *.
  assert (length head = length (leaf_jobs lj)) as Hhead by (subst head; rewrite length_take; lia).
  assert (length tail = length (all_jobs jobs)) as Htail by (subst tail; rewrite length_drop; lia).
  rewrite zip_with_app in Hcat by done.
  change (concat (signed_list <$> s :: signed)) with (signed_list s ++ concat (signed_list <$> signed)) in Hcat.
  apply app_inj_1 in Hcat as [Hl Hcat]; [|rewrite (same_shape_length _ _ Hs), length_zip_with; lia].
  constructor.
  - destruct head as [|share head']; [done|]. exists 0%nat, share. split_and!; [done..|].
    by injection Hl.
  - eapply Forall2_impl; [by apply IH|]. intros lj' s' (k & share & Hk & Hsh & Hs').
    exists (length (leaf_jobs lj) + k)%nat, share. split_and!; [| |done].
    + rewrite lookup_app_r by lia. by replace (length (leaf_jobs lj) + k - length (leaf_jobs lj))%nat with k by lia.
    + rewrite lookup_app_r by lia. by replace (length (leaf_jobs lj) + k - length head)%nat with k by lia.
Qed.

(** [tx] carries the share the signer made for the CPFP refund of [leaf]. *)
Definition carries_share params (js : list (FrostJob Sighash)) (shares : list FrostShareResult) leaf
    (tx : SignedTx) : Prop :=
  ∃ k refund share, js !! k = Some (job refund) ∧ shares !! k = Some share ∧
    cpfp_job params leaf refund ∧ tx = into_signed_tx (pending refund) share.

Lemma sign_refunds_shares params signed w w' :
  sign_refunds params w = Some (Ok signed, w') →
  ∃ js shares w0, sign_frost js w0 = (Ok shares, w') ∧
    Forall2 (carries_share params js shares) (srp_leaves params) (cpfp_signed_tx signed).
Proof.
  intros Hrun. unfold sign_refunds, try_bind at 1, mbind, proc_bind, call in Hrun.
  destruct (get_identity_public_key w) as [[identity|e] w0]; [|done].
  unfold try_bind at 1, mbind, proc_bind in Hrun.
  pose proof (ends_in_try_all (λ w, w) (λ '(i, leaf), leaf_refund_jobs identity params i leaf)
    (λ '(i, leaf) lj, cpfp_job params leaf (lrj_cpfp lj)) (imap pair (srp_leaves params)) w0) as Hjobs.
  unfold ends_in at 2 in Hjobs.
  destruct (try_all _ _ w0) as [[[jobs|e] w1]|]; [|done..].
  destruct Hjobs as [-> Hjobs]; [intros [i leaf] w'' _; apply leaf_cpfp_job|].
  unfold try_bind at 1, mbind, proc_bind in Hrun.
  destruct (sign_leaf_refunds_spec jobs w0) as (r & Hr & Hshares). rewrite Hr in Hrun.
  destruct r as [sr|e]; [|done]. rewrite signed_tx_groups in Hrun. injection Hrun as <- <-.
  destruct (sign_frost (job <$> all_jobs jobs) w0) as [[shares|e] w2] eqn:Hfrost; simpl in *; [|done].
  destruct (length shares =? length (all_jobs jobs))%nat eqn:Hlen; [|done]. apply Nat.eqb_eq in Hlen.
  destruct Hshares as (sr' & [= <-] & Hshape & Hcat).
  exists (job <$> all_jobs jobs), shares, w0. split; [done|].
  rewrite <- (imap_pair_snd (srp_leaves params)). apply Forall2_fmap_l, Forall2_fmap_r.
  pose proof (first_shares jobs sr shares Hshape Hlen Hcat) as Hfirst.
  eapply Forall2_trans; [|exact Hjobs|exact Hfirst].
  intros [i leaf] lj s Hcpfp (k & share & Hk & Hsh & Hs). exists k, (lrj_cpfp lj), share.
  rewrite list_lookup_fmap, Hk. by split_and!.
Qed.
End shares.

(** ** The message that is aggregated *)

(** Two lists that go together are searched together. *)
Lemma find_together {A C K} `{!EqDecision K} (R : A → C → Prop) (key : A → K) (key' : C → K) x l k :
  Forall2 R l k → (∀ a c, R a c → key' c = key a) → ∀ a c,
  List.find (λ a, bool_decide (key a = x)) l = Some a →
  List.find (λ c, bool_decide (key' c = x)) k = Some c → a ∈ l ∧ R a c.
Proof.
  intros Hall Hkey a c. induction Hall as [|a' c' l k Hac Hall IH]; [done|]. simpl.
  rewrite (Hkey _ _ Hac). case_bool_decide.
  - intros [= <-] [= <-]. split; [by left|done].
  - intros Ha Hc. destruct (IH Ha Hc). split; [by right|done].
Qed.

Section adaptor.
Context {B : Bitcoin} {BT : BitcoinTx} `{!Codec} `{!SignatureCodec} {W : Type} `{!SwapEnv W}.
Context `{!HashIter string} `{!HashIter Identifier}.

Lemma assemble_shares leaves receiver adaptor prepared package w w' :
  assemble_transfer_package leaves receiver None (Some adaptor) prepared w = Some (Ok package, w') →
  ∃ params js shares w0, sign_frost js w0 = (Ok shares, w') ∧
    srp_cpfp_adaptor_public_key params = Some adaptor ∧
    Forall2 (carries_share params js shares) leaves (ptp_cpfp_signed_txs package).
Proof.
  unfold assemble_transfer_package. destruct leaves as [|leaf leaves]; [done|].
  unfold try_bind at 1, mbind, proc_bind.
  destruct (fetch_commitments _ _ w) as [[[cs|e] w1]|]; [|done..].
  unfold try_bind at 1, mbind, proc_bind.
  destruct (split_signing_commitments_by_variant _ _) as [[[cpfp direct] dfc]|e]; [|done].
  simpl. unfold try_bind at 1, signer at 1, mbind, proc_bind.
  match goal with |- context [sign_refunds ?p _] => set (params := p) end.
  destruct (sign_refunds params w1) as [[[signed|e] w2]|] eqn:Hsign; [|done..]. simpl.
  destruct (sign_refunds_shares _ _ _ _ Hsign) as (js & shares & w0 & Hfrost & Hall).
  unfold try_bind, mbind, proc_bind, mret, proc_ret.
  destruct (to_jobs (cpfp_signed_tx signed)); simpl; [|done].
  destruct (to_jobs (direct_signed_tx signed)); simpl; [|done].
  destruct (to_jobs (direct_from_cpfp_signed_tx signed)); simpl; [|done].
  intros [= <- <-]. by exists params, js, shares, w0.
Qed.

(** What the request is made of. *)
Lemma adaptor_request_parts txs tweaks adaptor result tx request w w' :
  adaptor_request txs tweaks adaptor result w = Some (Ok (tx, request), w') →
  ∃ i leaf o sighash,
    List.find (λ tx, bool_decide (stx_node_id tx = i)) txs = Some tx ∧
    List.find (λ l, bool_decide (id (lkt_node l) = i)) tweaks = Some leaf ∧
    tx_output (node_tx (lkt_node leaf)) !! Z.to_nat (vout (lkt_node leaf)) = Some o ∧
    sighash_from_tx (stx_tx tx) 0 o = Ok sighash ∧ afr_message request = as_byte_array sighash ∧
    afr_self_signature request = stx_user_signature tx ∧
    afr_self_commitment request = commitments (stx_self_nonce_commitment tx) ∧
    afr_adaptor_public_key request = Some adaptor.
Proof.
  assert (ends_in (adaptor_request txs tweaks adaptor result) w (λ r _, match r with
    | Ok (tx, request) => ∃ i leaf o sighash,
        List.find (λ tx, bool_decide (stx_node_id tx = i)) txs = Some tx ∧
        List.find (λ l, bool_decide (id (lkt_node l) = i)) tweaks = Some leaf ∧
        tx_output (node_tx (lkt_node leaf)) !! Z.to_nat (vout (lkt_node leaf)) = Some o ∧
        sighash_from_tx (stx_tx tx) 0 o = Ok sighash ∧ afr_message request = as_byte_array sighash ∧
        afr_self_signature request = stx_user_signature tx ∧
        afr_self_commitment request = commitments (stx_self_nonce_commitment tx) ∧
        afr_adaptor_public_key request = Some adaptor
    | Err _ => True end)) as Hends.
  { apply ends_in_let; [intros i _|done]. apply ends_in_let; [intros tx' Htx%ok_or_Ok|done].
    apply ends_in_let; [intros leaf Hleaf%ok_or_Ok|done]. do 3 (apply ends_in_let; [intros ? _|done]).
    apply ends_in_bind, ends_in_panic. intros o Ho. apply ends_in_let; [intros sighash Hs|done].
    apply ends_in_ret. exists i, leaf, o, sighash. split_and!; try done.
    by destruct (sighash_from_tx (stx_tx tx') 0 o); simplify_eq/=. }
  intros Hrun. unfold ends_in in Hends. by rewrite Hrun in Hends.
Qed.

(** C16: The signature a swap puts together for the SSP is over what the wallet signed. For
    every answer of the operators that it accepts, the wallet's part is the share and the
    commitment its signer gave, in this swap, for the CPFP refund of one of the swapped
    leaves, under the same adaptor key; and, for a leaf that is the first output of its
    parent, the message is the one the share was made for. (For another output it is
    not: the code takes the leaf's output number for one of the leaf's own transaction.) *)
Theorem adaptor_message_is_signed leaves receiver adaptor prepared package w w' result tx request w1 w2 :
  assemble_transfer_package (prepare_leaf_key_tweaks_to_send leaves) receiver None (Some adaptor) prepared w =
    Some (Ok package, w') →
  adaptor_request (ptp_cpfp_signed_txs package) (prepare_leaf_key_tweaks_to_send leaves) adaptor result w1 =
    Some (Ok (tx, request), w2) →
  ∃ leaf js shares w0 k j share, leaf ∈ leaves ∧
    sign_frost js w0 = (Ok shares, w') ∧ js !! k = Some j ∧ shares !! k = Some share ∧
    fj_derivation j = SigningLeaf (id leaf) ∧
    afr_self_signature request = share_signature_share share ∧
    afr_self_commitment request = commitments (share_commitment share) ∧
    fj_adaptor_public_key j = Some adaptor ∧ afr_adaptor_public_key request = Some adaptor ∧
    (vout leaf = 0 → afr_message request = as_byte_array (fj_sighash j)).
Proof.
  intros (params & js & shares & w0 & Hfrost & Hparams & Hall)%assemble_shares
    (i & leaf & o & sighash & Htx & Hleaf & Ho & Hs & Hmsg & Hsig & Hcomm & Hadaptor)%adaptor_request_parts.
  destruct (find_together _ (λ l, id (lkt_node l)) stx_node_id i _ _ Hall) with leaf tx
    as [Hin (k & refund & share & Hk & Hsh & (Hid & Hder & Had & o' & Ho' & Hs') & ->)]; [|done..|].
  { intros a c (k & refund & share & _ & _ & (Hid & _) & ->). exact Hid. }
  apply list_elem_of_fmap in Hin as (node & -> & Hin). simpl in *.
  exists node, js, shares, w0, k, (job refund), share. split_and!; try done; [congruence|].
  intros Hv. rewrite Hv in Ho. change (Z.to_nat 0) with 0%nat in Ho. rewrite Hmsg. congruence.
Qed.
End adaptor.

(** ** Witnesses

    Leaf [a] is swapped for two leaves of half its value; the provider answers the first
    request with a network error and the second with a transfer of the sample. *)

#[local] Existing Instances btc68 btctx68.
#[local] Existing Instances sample_strings sample_identifiers sample_signatures.

#[local] Instance swap_codec : Codec := world_codec (λ _, Some a_tx).
Definition SwapWorld : Type := SampleWorld SwapRequest (λ _, Some a_tx).

#[local] Instance answered_swaps : TransferEnv SwapWorld :=
  world_transfers SwapRequest (λ _, Some a_tx) commitment_count [reported].
#[local] Instance answered_swap_laws : TransferLaws (H1 := answered_swaps) :=
  world_transfer_laws SwapRequest (λ _, Some a_tx) commitment_count [reported].

#[local] Instance sample_aggregate : FrostAggregate := {|
  VerifyingKey := unit; VerifyingShare := unit; SigningPackage := list Z; PublicKeyPackage := unit;
  FrostSignature := list Z;
  signature_share_deserialize _ := Some ();
  identifier_derive _ := Some ("user"%string : @Identifier btc68);
  show_identifier i := i;
  verifying_key_deserialize _ := Ok ();
  verifying_share_deserialize _ := Ok ();
  new_with_adaptor _ _ message _ := message;
  public_key_package _ _ := ();
  aggregate_with_tweak message _ _ _ := Ok message;
  frost_signature_serialize s := Ok s;
|}.

(** The operators' part of the signature of a leaf. *)
Definition sample_result (leaf_id : string) : ProtoSigning.LeafRefundTxSigningResult :=
  ProtoSigning.mkLeafRefundTxSigningResult leaf_id (Some (ProtoSigning.mkSigningResult ∅ ∅ ∅)) [2].

Section sample.
Context (signed : list string).

Definition sample_swap_env : SwapEnv SwapWorld.
Proof using signed.
  by refine {|
    swap_transfers := answered_swaps;
    swap_aggregate := sample_aggregate;
    as_byte_array := (λ l, l) : list Z → list Z;
    swap_clock := world_clock SwapRequest (λ _, Some a_tx);
    new_adaptor_key w := ("adaptor"%string : @PublicKey btc68, w);
    acquire_claim i w := ((false, None), w);
    release_claim i leaves w := w;
    client_initiate_swap_primary_transfer r w :=
      (Ok {| ispt_response_transfer := Some reported; signing_results := sample_result <$> signed |},
       (w.1, w.2 ++ [Requested (Initiated r)]));
    ssp_request_swap r w :=
      (match w.2 with
       | [_] => Err (ServiceProviderError.Network "timed out" None)
       | _ => Ok {| inbound_transfer := Some {| spark_id := Some "id"%string |} |}
       end, (w.1, w.2 ++ [Requested (Asked r)])) |}.
Defined.
End sample.

Definition sample_swap_laws signed : SwapLaws (H1 := sample_swap_env signed).
Proof.
  by refine (Build_SwapLaws _ _ _ _ _ (sample_swap_env signed) answered_swap_laws (λ r, r)
    (world_clock_laws SwapRequest (λ _, Some a_tx) commitment_count [reported]) _ _ _ _ _ _ _ _ _ _).
Defined.

Definition sample_swap : Swap (W := SwapWorld) := {|
  ssp_identity_public_key := ("ssp"%string : @PublicKey btc68);
  transfer_service :=
    {| split_secret_threshold := 2; all_operators := []; transfer_observer := None |} |}.

Definition swap_a (signed : list string) leaves : option (ServiceResult (list TreeNode) * SwapWorld) :=
  swap_leaves (SwapEnv0 := sample_swap_env signed) sample_swap leaves (Some [4000; 6000]) ([], []).

(** Both ends of a swap of [leaves], for the operators' result for [leaf_id]: the messages
    of the shares, and the one that is aggregated. *)
Definition both_ends leaves (leaf_id : string) : option (list (list Z) * list Z) :=
  let tweaks := prepare_leaf_key_tweaks_to_send leaves in
  let adaptor := ("adaptor"%string : @PublicKey btc68) in
  match assemble_transfer_package tweaks ("ssp"%string : @PublicKey btc68) None (Some adaptor)
    {| pt_operator_packages := []; new_leaf_keys := []; transfer_user_signature := ([] : Signature) |} ([], [])
  with
  | Some (Ok package, w) =>
      match adaptor_request (SwapEnv0 := sample_swap_env []) (ptp_cpfp_signed_txs package) tweaks adaptor
              (sample_result leaf_id) w with
      | Some (Ok (_, request), w) => Some (fj_sighash <$> w.1, afr_message request)
      | _ => None
      end
  | _ => None
  end.

(** Whether the aggregated message is the message of a share. *)
Definition message_is_signed leaves (leaf_id : string) : option bool :=
  (λ '(messages, message), bool_decide (message ∈ messages)) <$> both_ends leaves leaf_id.

(** The second output of the leaf's own transaction is its anchor: a share of leaf [b],
    the second child of the root, is aggregated over another message. *)
Example second_child_is_misread :
  message_is_signed both_leaves "a" = Some true ∧ message_is_signed both_leaves "b" = Some false.
Proof. split; vm_compute; reflexivity. Qed.

Lemma swap_run :
  world_summary (swap_a ["a"] (take 1 both_leaves)) = Some (true, 2%nat, 4%nat).
Proof. vm_compute. reflexivity. Qed.

Example swaps_run_in_order_witness :
  ∃ r w', swap_a ["a"] (take 1 both_leaves) = Some (r, w') ∧ is_Ok r = true ∧ length w'.1 = 2%nat ∧
    ∃ request input delays rest, delays `prefix_of` [100; 200; 400; 800] ∧
      w'.2 = Requested (Initiated request) ::
        asks (H2 := sample_swap_laws ["a"]) input delays ++ rest.
Proof.
  pose proof (swaps_run_in_order (H2 := sample_swap_laws ["a"]) sample_swap (take 1 both_leaves)
    (Some [4000; 6000]) ([], [])) as Hswap.
  pose proof swap_run as Hsum. unfold swap_a in *. unfold ends_in in Hswap.
  destruct (swap_leaves _ _ _ _) as [[r w']|]; [|discriminate Hsum].
  destruct Hswap as (i & js & evs & Hjs & Hev & Hs & _). change (w'.2 = evs) in Hev.
  unfold world_summary in Hsum. injection Hsum as Hok Hlen _. exists r, w'.
  split; [reflexivity|]. split; [exact Hok|]. split; [exact Hlen|]. rewrite Hev.
  destruct Hs as [(Hno & _)|(adaptor & request & js1 & js2 & evs2 & _ & -> & _ & _ & Hrest)].
  { rewrite Hno in Hok. discriminate Hok. }
  destruct Hrest as [(Hno & _)|(input & delays & rest & -> & _ & Hpre & _)].
  { rewrite Hno in Hok. discriminate Hok. }
  exists request, input, delays, rest. split; [exact Hpre|reflexivity].
Defined.

Lemma sample_assembled :
  ∃ package w' tx request w2,
    assemble_transfer_package (prepare_leaf_key_tweaks_to_send (take 1 both_leaves))
      ("ssp"%string : @PublicKey btc68) None (Some ("adaptor"%string : @PublicKey btc68))
      {| pt_operator_packages := []; new_leaf_keys := []; transfer_user_signature := ([] : Signature) |}
      (([], []) : SwapWorld) = Some (Ok package, w') ∧
    adaptor_request (SwapEnv0 := sample_swap_env []) (ptp_cpfp_signed_txs package)
      (prepare_leaf_key_tweaks_to_send (take 1 both_leaves)) ("adaptor"%string : @PublicKey btc68)
      (sample_result "a") w' = Some (Ok (tx, request), w2).
Proof.
  assert (is_Some (both_ends (take 1 both_leaves) "a")) as Hboth by (vm_compute; eauto).
  unfold both_ends in Hboth.
  destruct (assemble_transfer_package _ _ _ _ _ _) as [[[package|e] w']|]; [|by destruct Hboth..].
  destruct (adaptor_request _ _ _ _ _) as [[[[tx request]|e] w2]|] eqn:Hreq; [|by destruct Hboth..].
  by exists package, w', tx, request, w2.
Qed.

Example adaptor_message_is_signed_witness :
  ∃ (request : AggregateFrostRequest) (js : list (FrostJob (list Z))) k j, js !! k = Some j ∧
    fj_derivation j = SigningLeaf "a" ∧ afr_message request = fj_sighash j.
Proof.
  destruct sample_assembled as (package & w' & tx & request & w2 & Hassemble & Hrequest).
  destruct (adaptor_message_is_signed (SwapEnv0 := sample_swap_env []) _ _ _ _ _ _ _ _ _ _ _ _ Hassemble Hrequest)
    as (leaf & js & shares & w0 & k & j & share & Hin & _ & Hk & _ & Hder & _ & _ & _ & _ & Hmsg).
  apply list_elem_of_singleton in Hin as ->. exists request, js, k, j.
  split; [exact Hk|]. split; [exact Hder|]. by apply Hmsg.
Defined.
