(* ===== verification/ClaimLocks.v ===== *)
(** * One claim at a time: [ClaimLocks] of [spark/src/services/transfer.rs]

    Several tasks may claim the same transfer. A registry gives each transfer a lock
    while tasks hold a handle on it; the lock's slot carries the claimed leaves to the
    tasks that waited. Tasks take their steps in any order, and may be cancelled
    between any two. *)

From S2P Require Import Prelude TransferModel.
Open Scope Z_scope.

(** Which [Arc<ClaimLock>] a handle points to. *)
Abbreviation LockId := nat.
Abbreviation TaskId := nat.

Section locks.
Context {Leaves Error : Type}.

Record ClaimLockEntry := { lock : LockId; holders : Z }.

(** [tokio::sync::Mutex<Option<Vec<TreeNode>>>]: the slot, and the task whose permit is
    out. *)
Record ClaimLock := mkClaimLock { slot : option Leaves; owner : option TaskId }.

(** The registry, and every lock made so far. *)
Record ClaimLocks := {
  locks : gmap TransferId ClaimLockEntry;
  arcs : list ClaimLock;
}.

(** [ClaimLocks::acquire]: the lock of the handle. *)
Definition acquire (self : ClaimLocks) (transfer_id : TransferId) : LockId * ClaimLocks :=
  match locks self !! transfer_id with
  | Some entry =>
      (lock entry, {| locks := <[transfer_id := {| lock := lock entry; holders := uadd 64 (holders entry) 1 |}]>
                                 (locks self);
                      arcs := arcs self |})
  | None =>
      let l := length (arcs self) in
      (l, {| locks := <[transfer_id := {| lock := l; holders := uadd 64 0 1 |}]> (locks self);
             arcs := arcs self ++ [mkClaimLock None None] |})
  end.

(** [ClaimLocks::release] *)
Definition release (self : ClaimLocks) (transfer_id : TransferId) : ClaimLocks :=
  match locks self !! transfer_id with
  | None => self
  | Some entry =>
      let holders := usub 64 (holders entry) 1 in
      {| locks := if holders =? 0 then delete transfer_id (locks self)
                  else <[transfer_id := {| lock := lock entry; holders := holders |}]> (locks self);
         arcs := arcs self |}
  end.

(** ** The tasks

    [claim_transfer] and [claim_transfer_locked], cut where a task can be suspended. The
    permit is dropped before the handle. *)

Inductive Phase :=
| Arrived (** holds the handle *)
| Waiting (** in [lock().await] *)
| Locked (waited : bool) (** holds the permit *)
| Claiming (waited : bool) (** the slot was empty *)
| Leaving (outcome : option (result Error Leaves)) (** without the permit; [None] when cancelled *).

Record Task := mkTask { task_transfer : TransferId; task_lock : LockId; phase : Phase }.

Definition permitted (task : Task) : bool :=
  match phase task with Locked _ | Claiming _ => true | _ => false end.

Record System := { registry : ClaimLocks; tasks : gmap TaskId Task }.

Definition System_default : System := {| registry := {| locks := ∅; arcs := [] |}; tasks := ∅ |}.

Inductive Action :=
| Arrive (t : TaskId) (transfer_id : TransferId)
| TryLock (t : TaskId)
| Busy (t : TaskId) (** [try_lock] fails: the lock is out, or promised to a waiter *)
| Granted (t : TaskId)
| Look (t : TaskId)
| Finish (t : TaskId) (outcome : result Error Leaves)
| Cancel (t : TaskId)
| Leave (t : TaskId).

Definition set_phase (s : System) (t : TaskId) (task : Task) (p : Phase) : System :=
  {| registry := registry s;
     tasks := <[t := mkTask (task_transfer task) (task_lock task) p]> (tasks s) |}.

Definition set_lock (s : System) (l : LockId) (c : ClaimLock) : System :=
  {| registry := {| locks := locks (registry s); arcs := <[l := c]> (arcs (registry s)) |};
     tasks := tasks s |}.

Definition lock_of (s : System) (task : Task) : option ClaimLock :=
  arcs (registry s) !! task_lock task.

(** Take the permit of a free lock. *)
Definition take_permit (s : System) (t : TaskId) (task : Task) (waited : bool) : option System :=
  c ← lock_of s task;
  match owner c with
  | Some _ => None
  | None => Some (set_phase (set_lock s (task_lock task) (mkClaimLock (slot c) (Some t))) t task (Locked waited))
  end.

(** Drop the permit, with the slot as it is then. *)
Definition drop_permit (s : System) (t : TaskId) (task : Task) (new_slot : option Leaves)
    (outcome : option (result Error Leaves)) : System :=
  set_phase (set_lock s (task_lock task) (mkClaimLock new_slot None)) t task (Leaving outcome).

Definition act (s : System) (a : Action) : option System :=
  match a with
  | Arrive t transfer_id =>
      match tasks s !! t with
      | Some _ => None
      | None =>
          let '(l, registry) := acquire (registry s) transfer_id in
          Some {| registry := registry; tasks := <[t := mkTask transfer_id l Arrived]> (tasks s) |}
      end
  | TryLock t =>
      task ← tasks s !! t;
      match phase task with Arrived => take_permit s t task false | _ => None end
  | Busy t =>
      task ← tasks s !! t;
      match phase task with Arrived => Some (set_phase s t task Waiting) | _ => None end
  | Granted t =>
      task ← tasks s !! t;
      match phase task with Waiting => take_permit s t task true | _ => None end
  | Look t =>
      task ← tasks s !! t; c ← lock_of s task;
      match phase task with
      | Locked waited =>
          match slot c with
          | Some leaves => Some (drop_permit s t task (Some leaves) (Some (Ok leaves)))
          | None => Some (set_phase s t task (Claiming waited))
          end
      | _ => None
      end
  | Finish t outcome =>
      task ← tasks s !! t; c ← lock_of s task;
      match phase task with
      | Claiming _ =>
          Some (drop_permit s t task (match outcome with Ok leaves => Some leaves | Err _ => slot c end)
                  (Some outcome))
      | _ => None
      end
  | Cancel t =>
      task ← tasks s !! t; c ← lock_of s task;
      match phase task with
      | Leaving _ => None
      | _ =>
          Some (if permitted task then drop_permit s t task (slot c) None
                else set_phase s t task (Leaving None))
      end
  | Leave t =>
      task ← tasks s !! t;
      match phase task with
      | Leaving _ =>
          Some {| registry := release (registry s) (task_transfer task); tasks := delete t (tasks s) |}
      | _ => None
      end
  end.

(** A task takes memory, so there are fewer than [2 ^ 64]. *)
Inductive reachable : System → Prop :=
| reachable_start : reachable System_default
| reachable_step s a s' :
    reachable s → act s a = Some s' → Z.of_nat (size (tasks s')) < 2 ^ 64 → reachable s'.

(** ** The invariant *)

Definition holding (transfer_id : TransferId) (task : Task) : Z :=
  if decide (task_transfer task = transfer_id) then 1 else 0.

Definition handles (s : System) (transfer_id : TransferId) : Z :=
  map_sum (holding transfer_id) (tasks s).

Record inv (s : System) : Prop := {
  inv_entry t task : tasks s !! t = Some task →
    ∃ n, locks (registry s) !! task_transfer task = Some {| lock := task_lock task; holders := n |};
  inv_holders i e : locks (registry s) !! i = Some e →
    holders e = handles s i ∧ 0 < handles s i;
  inv_lock i e : locks (registry s) !! i = Some e → (lock e < length (arcs (registry s)))%nat;
  inv_inj i j e f : locks (registry s) !! i = Some e → locks (registry s) !! j = Some f →
    lock e = lock f → i = j;
  inv_owner i e c t : locks (registry s) !! i = Some e → arcs (registry s) !! lock e = Some c →
    (owner c = Some t ↔ ∃ task, tasks s !! t = Some task ∧ task_lock task = lock e ∧ permitted task = true);
  inv_claiming t task w c : tasks s !! t = Some task → phase task = Claiming w →
    lock_of s task = Some c → slot c = None;
  inv_published t task leaves c : tasks s !! t = Some task → phase task = Leaving (Some (Ok leaves)) →
    lock_of s task = Some c → slot c = Some leaves;
}.

Lemma inv_default : inv System_default.
Proof. split; simpl; intros *; rewrite ?lookup_empty; done. Qed.

Lemma handles_phase s t task task' i :
  tasks s !! t = Some task → task_transfer task' = task_transfer task →
  map_sum (holding i) (<[t := task']> (tasks s)) = handles s i.
Proof.
  intros Ht Htr. unfold handles. rewrite (map_sum_delete _ (tasks s) t task Ht).
  rewrite <- insert_delete_eq, map_sum_insert by apply lookup_delete_eq. unfold holding. by rewrite Htr.
Qed.

Lemma set_lock_id s l c : arcs (registry s) !! l = Some c → set_lock s l c = s.
Proof. intros Hc. unfold set_lock. rewrite list_insert_id by done. by destruct s as [[]]. Qed.

(** A task that holds the permit is the owner of its lock. *)
Lemma permit_owner s t task c :
  inv s → tasks s !! t = Some task → lock_of s task = Some c →
  (owner c = Some t ↔ permitted task = true).
Proof.
  intros Hs Ht Hc. destruct (inv_entry s Hs t task Ht) as [n Hn].
  rewrite (inv_owner s Hs _ _ c t Hn Hc). simpl. naive_solver.
Qed.

Lemma lock_known s t task : inv s → tasks s !! t = Some task → is_Some (lock_of s task).
Proof.
  intros Hs Ht. destruct (inv_entry s Hs t task Ht) as [n Hn].
  apply lookup_lt_is_Some. exact (inv_lock s Hs _ _ Hn).
Qed.

Definition phase_permitted (p : Phase) : bool :=
  match p with Locked _ | Claiming _ => true | _ => false end.

(** A step of a task, and of its lock [c], that neither takes nor drops a handle. *)
Record fair_update (t : TaskId) (c c' : ClaimLock) (p : Phase) : Prop := {
  fair_owner : if phase_permitted p then owner c' = Some t ∧ (owner c = None ∨ owner c = Some t)
    else owner c' = if decide (owner c = Some t) then None else owner c;
  fair_slot : slot c' = slot c ∨ slot c = None ∧ owner c = Some t;
  fair_claiming w : p = Claiming w → slot c' = None;
  fair_leaving leaves : p = Leaving (Some (Ok leaves)) → slot c' = Some leaves;
}.

(** What another task finds its lock to be after the step. *)
Lemma update_other s t task c c' p other d d' :
  lock_of s task = Some c → fair_update t c c' p → lock_of s other = Some d →
  lock_of (set_lock s (task_lock task) c') other = Some d' →
  slot d' = slot d ∨ d = c ∧ slot c = None ∧ owner c = Some t.
Proof.
  unfold lock_of, set_lock. simpl. intros Hc Hfair Hd. pose proof (lookup_lt_Some _ _ _ Hc) as Hlt.
  destruct (decide (task_lock other = task_lock task)) as [He|He].
  - rewrite He in *. rewrite list_lookup_insert_eq by done. intros [= <-].
    destruct (fair_slot _ _ _ _ Hfair); naive_solver congruence.
  - rewrite list_lookup_insert_ne by done. rewrite Hd. intros [= ->]. by left.
Qed.

Lemma update_inv s t task c c' p :
  inv s → tasks s !! t = Some task → lock_of s task = Some c → fair_update t c c' p →
  inv (set_phase (set_lock s (task_lock task) c') t task p).
Proof.
  intros Hs Ht Hc Hfair. pose proof (lookup_lt_Some _ _ _ Hc) as Hlt.
  destruct (inv_entry s Hs t task Ht) as [n Hn].
  split; simpl.
  - intros u other [[<- <-]|[Hne Hu]]%lookup_insert_Some; [by exists n|]. by apply (inv_entry s Hs u).
  - intros i e He. unfold handles. simpl. rewrite (handles_phase s t task) by done. by apply (inv_holders s Hs).
  - intros i e He. rewrite length_insert. by apply (inv_lock s Hs i).
  - apply (inv_inj s Hs).
  - intros i e d u He Hd. destruct (decide (lock e = task_lock task)) as [Hle|Hle].
    + rewrite Hle in Hd. rewrite list_lookup_insert_eq in Hd by done. injection Hd as <-.
      pose proof (inv_owner s Hs i e c u He) as Hold. rewrite Hle in Hold |- *. specialize (Hold Hc).
      pose proof (fair_owner _ _ _ _ Hfair) as Hown. destruct (decide (u = t)) as [->|Hne].
      * split.
        -- intros Hu. eexists. split; [by apply lookup_insert_eq|]. split; [done|]. unfold permitted. simpl.
           destruct p; simpl in *; try done; destruct (decide _); congruence.
        -- intros (other & Hu & _ & Hp). rewrite lookup_insert_eq in Hu. injection Hu as <-.
           unfold permitted in Hp. simpl in Hp. destruct p; simpl in *; try done; by destruct Hown.
      * rewrite (lookup_insert_ne _ t u), <- Hold by done.
        destruct (phase_permitted p).
        -- destruct Hown as [-> [->| ->]]; naive_solver.
        -- rewrite Hown. destruct (decide _) as [Hct|]; [|done]. rewrite Hct. naive_solver.
    + rewrite list_lookup_insert_ne in Hd by done. rewrite (inv_owner s Hs i e d u He Hd).
      destruct (decide (u = t)) as [->|Hne]; [|by rewrite lookup_insert_ne].
      rewrite lookup_insert_eq. split.
      * intros (other & Hu & Hl & _). rewrite Ht in Hu. injection Hu as <-. congruence.
      * intros (other & [= <-] & Hl & _). simpl in Hl. congruence.
  - intros u other w d [[<- <-]|[Hne Hu]]%lookup_insert_Some; simpl.
    + intros -> Hd. unfold lock_of in Hd. simpl in Hd. rewrite list_lookup_insert_eq in Hd by done.
      injection Hd as <-. by eapply fair_claiming.
    + intros Hp Hd. destruct (lock_known s u other Hs Hu) as [d' Hd'].
      pose proof (inv_claiming s Hs u other w d' Hu Hp Hd') as Hnone.
      assert (permitted other = true) as Hperm by (unfold permitted; by rewrite Hp).
      apply (permit_owner s u other d' Hs Hu Hd') in Hperm.
      change (lock_of (set_lock s (task_lock task) c') other = Some d) in Hd.
      destruct (update_other s t task c c' p other d' d Hc Hfair Hd' Hd) as [|(-> & _ & Ho)]; congruence.
  - intros u other leaves d [[<- <-]|[Hne Hu]]%lookup_insert_Some; simpl.
    + intros -> Hd. unfold lock_of in Hd. simpl in Hd. rewrite list_lookup_insert_eq in Hd by done.
      injection Hd as <-. by eapply fair_leaving.
    + intros Hp Hd. destruct (lock_known s u other Hs Hu) as [d' Hd'].
      pose proof (inv_published s Hs u other leaves d' Hu Hp Hd') as Hsome.
      change (lock_of (set_lock s (task_lock task) c') other = Some d) in Hd.
      destruct (update_other s t task c c' p other d' d Hc Hfair Hd' Hd) as [|(-> & Ho & _)]; congruence.
Qed.

(** ** Arriving and leaving *)

Lemma holding_range i task : 0 ≤ holding i task ≤ 1.
Proof. unfold holding. case_decide; lia. Qed.

Lemma handles_nonneg i (m : gmap TaskId Task) : 0 ≤ map_sum (holding i) m.
Proof. apply map_sum_nonneg. intros u task _. apply holding_range. Qed.

Lemma handles_le_size i (m : gmap TaskId Task) : map_sum (holding i) m ≤ Z.of_nat (size m).
Proof.
  induction m as [|t task m Ht IH] using map_ind; [by rewrite map_sum_empty|].
  rewrite map_sum_insert, map_size_insert_None by done. pose proof (holding_range i task). lia.
Qed.

(** A transfer has handles exactly when a task is on it. *)
Lemma handles_pos i (m : gmap TaskId Task) :
  0 < map_sum (holding i) m ↔ ∃ t task, m !! t = Some task ∧ task_transfer task = i.
Proof.
  split.
  - induction m as [|t task m Ht IH] using map_ind; [rewrite map_sum_empty; lia|].
    rewrite map_sum_insert by done. destruct (decide (task_transfer task = i)) as [Hi|Hi].
    + intros _. exists t, task. by rewrite lookup_insert_eq.
    + unfold holding at 1. rewrite decide_False by done. intros (u & other & Hu & Ho)%IH.
      exists u, other. split; [|done]. rewrite lookup_insert_ne; congruence.
  - intros (t & task & Ht & <-). rewrite (map_sum_delete _ m t task Ht).
    pose proof (handles_nonneg (task_transfer task) (delete t m)). unfold holding at 1.
    rewrite decide_True by done. lia.
Qed.

Lemma no_entry_no_handles s i : inv s → locks (registry s) !! i = None → handles s i = 0.
Proof.
  intros Hs Hi. pose proof (handles_nonneg i (tasks s)). unfold handles in *.
  destruct (decide (0 < map_sum (holding i) (tasks s))) as [(t & task & Ht & <-)%handles_pos|]; [|lia].
  destruct (inv_entry s Hs t task Ht) as [n Hn]. congruence.
Qed.

Lemma handles_arrive i j l t (m : gmap TaskId Task) :
  m !! t = None →
  map_sum (holding j) (<[t := mkTask i l Arrived]> m) =
  (if decide (i = j) then 1 else 0) + map_sum (holding j) m.
Proof. intros Ht. by rewrite map_sum_insert. Qed.

Lemma join_inv s t i e :
  inv s → tasks s !! t = None → Z.of_nat (size (tasks s)) + 1 < 2 ^ 64 →
  locks (registry s) !! i = Some e →
  inv {| registry := {| locks := <[i := {| lock := lock e; holders := uadd 64 (holders e) 1 |}]>
                                   (locks (registry s));
                        arcs := arcs (registry s) |};
         tasks := <[t := mkTask i (lock e) Arrived]> (tasks s) |}.
Proof.
  intros Hs Ht Hsize He.
  assert (∀ j f, <[i := {| lock := lock e; holders := uadd 64 (holders e) 1 |}]> (locks (registry s)) !! j = Some f →
    ∃ g, locks (registry s) !! j = Some g ∧ lock g = lock f) as Hlocks.
  { intros j f [[<- <-]|[_ Hf]]%lookup_insert_Some; eauto. }
  assert (∀ u other, <[t := mkTask i (lock e) Arrived]> (tasks s) !! u = Some other →
    phase other = Arrived ∨ tasks s !! u = Some other) as Htasks.
  { intros u other [[_ <-]|[_ Hu]]%lookup_insert_Some; auto. }
  split; simpl.
  - intros u other [[<- <-]|[Hne Hu]]%lookup_insert_Some; simpl; [rewrite lookup_insert_eq; eauto|].
    destruct (inv_entry s Hs u other Hu) as [n Hn]. destruct (decide (task_transfer other = i)) as [Hi|Hi].
    + rewrite Hi in *. rewrite He in Hn. injection Hn as ->. rewrite lookup_insert_eq. eauto.
    + rewrite lookup_insert_ne by done. eauto.
  - intros j f Hf. unfold handles. simpl. rewrite handles_arrive by done.
    pose proof (handles_nonneg j (tasks s)). apply lookup_insert_Some in Hf as [[<- <-]|[Hne Hf]]; simpl.
    + destruct (inv_holders s Hs i e He) as [-> _]. rewrite decide_True by done.
      pose proof (handles_le_size i (tasks s)). unfold handles in *. rewrite uadd_small; lia.
    + rewrite decide_False by done. destruct (inv_holders s Hs j f Hf). unfold handles in *. lia.
  - intros j f (g & Hg & <-)%Hlocks. by eapply inv_lock.
  - intros j k f f' (g & Hg & <-)%Hlocks (g' & Hg' & <-)%Hlocks. by eapply inv_inj.
  - intros j f c u (g & Hg & <-)%Hlocks Hc. rewrite (inv_owner s Hs j g c u Hg Hc).
    split; intros (other & Hu & Hl & Hp); exists other; (split; [|done]).
    + rewrite lookup_insert_ne; congruence.
    + destruct (Htasks u other Hu) as [Hph|]; [|done]. unfold permitted in Hp. by rewrite Hph in Hp.
  - intros u other w c [Hph|Hu]%Htasks Hp; [congruence|]. by eapply (inv_claiming s Hs).
  - intros u other leaves c [Hph|Hu]%Htasks Hp; [congruence|]. by eapply (inv_published s Hs).
Qed.

Lemma first_inv s t i :
  inv s → tasks s !! t = None → locks (registry s) !! i = None →
  inv {| registry := {| locks := <[i := {| lock := length (arcs (registry s)); holders := uadd 64 0 1 |}]>
                                   (locks (registry s));
                        arcs := arcs (registry s) ++ [mkClaimLock None None] |};
         tasks := <[t := mkTask i (length (arcs (registry s))) Arrived]> (tasks s) |}.
Proof.
  intros Hs Ht Hi. pose proof (no_entry_no_handles s i Hs Hi) as Hzero.
  assert (∀ u other c, tasks s !! u = Some other →
    (arcs (registry s) ++ [mkClaimLock None None]) !! task_lock other = Some c →
    lock_of s other = Some c) as Harcs.
  { intros u other c Hu Hc. destruct (lock_known s u other Hs Hu) as [d Hd]. unfold lock_of in *.
    by rewrite lookup_app_l in Hc by (by eapply lookup_lt_Some). }
  split; simpl.
  - intros u other [[<- <-]|[Hne Hu]]%lookup_insert_Some; simpl; [rewrite lookup_insert_eq; eauto|].
    destruct (inv_entry s Hs u other Hu) as [n Hn]. exists n. rewrite lookup_insert_ne; congruence.
  - intros j f Hf. unfold handles. simpl. rewrite handles_arrive by done.
    apply lookup_insert_Some in Hf as [[<- <-]|[Hne Hf]]; simpl.
    + unfold handles in Hzero. by rewrite decide_True, Hzero.
    + rewrite decide_False by done. destruct (inv_holders s Hs j f Hf). unfold handles in *. lia.
  - intros j f Hf. rewrite length_app. simpl. apply lookup_insert_Some in Hf as [[<- <-]|[Hne Hf]]; simpl; [lia|].
    pose proof (inv_lock s Hs j f Hf). lia.
  - intros j k f f' [[<- <-]|[Hne Hf]]%lookup_insert_Some [[<- <-]|[Hne' Hf']]%lookup_insert_Some; simpl.
    + done.
    + intros Hl. pose proof (inv_lock s Hs k f' Hf'). lia.
    + intros Hl. pose proof (inv_lock s Hs j f Hf). lia.
    + by eapply (inv_inj s Hs).
  - intros j f c u [[<- <-]|[Hne Hf]]%lookup_insert_Some Hc; simpl in *.
    + rewrite lookup_app_r, Nat.sub_diag in Hc by lia. injection Hc as <-. simpl. split; [done|].
      intros (other & [[<- <-]|[Hne Hu]]%lookup_insert_Some & Hl & Hp); [done|].
      destruct (inv_entry s Hs u other Hu) as [n Hn]. pose proof (inv_lock s Hs _ _ Hn). simpl in *. lia.
    + pose proof (inv_lock s Hs j f Hf). rewrite lookup_app_l in Hc by done.
      rewrite (inv_owner s Hs j f c u Hf Hc).
      split; intros (other & Hu & Hl & Hp); exists other; (split; [|done]).
      * rewrite lookup_insert_ne; congruence.
      * apply lookup_insert_Some in Hu as [[<- <-]|[_ Hu]]; [done|exact Hu].
  - intros u other w c [[<- <-]|[Hne Hu]]%lookup_insert_Some Hp Hc; [done|].
    by apply (inv_claiming s Hs u other w c Hu Hp), (Harcs u).
  - intros u other leaves c [[<- <-]|[Hne Hu]]%lookup_insert_Some Hp Hc; [done|].
    by apply (inv_published s Hs u other leaves c Hu Hp), (Harcs u).
Qed.

Lemma acquire_inv s t i :
  inv s → tasks s !! t = None → Z.of_nat (size (tasks s)) + 1 < 2 ^ 64 →
  let '(l, r) := acquire (registry s) i in
  inv {| registry := r; tasks := <[t := mkTask i l Arrived]> (tasks s) |}.
Proof.
  intros Hs Ht Hsize. unfold acquire. destruct (locks (registry s) !! i) as [e|] eqn:He.
  - by apply join_inv.
  - by apply first_inv.
Qed.

Lemma handles_leave s t task j :
  tasks s !! t = Some task →
  handles s j = (if decide (task_transfer task = j) then 1 else 0) + map_sum (holding j) (delete t (tasks s)).
Proof. intros Ht. unfold handles. by rewrite (map_sum_delete _ (tasks s) t task Ht). Qed.

(** The registry keeps the entries of the transfers that still have handles. *)
Lemma release_locks s t task j :
  inv s → Z.of_nat (size (tasks s)) < 2 ^ 64 → tasks s !! t = Some task →
  let left := map_sum (holding j) (delete t (tasks s)) in
  locks (release (registry s) (task_transfer task)) !! j =
    if decide (left = 0) then None
    else (λ f, {| lock := lock f; holders := left |}) <$> locks (registry s) !! j.
Proof.
  intros Hs Hsize Ht left. unfold release. destruct (inv_entry s Hs t task Ht) as [n Hn].
  pose proof (handles_leave s t task j Ht) as Hh. fold left in Hh.
  pose proof (handles_nonneg j (delete t (tasks s))) as Hleft. fold left in Hleft.
  rewrite Hn. simpl. destruct (inv_holders s Hs _ _ Hn) as [Hn' _]. simpl in Hn'. subst n.
  destruct (decide (task_transfer task = j)) as [<-|Hne].
  - pose proof (handles_le_size (task_transfer task) (tasks s)). fold (handles s (task_transfer task)) in *.
    rewrite Hn, Hh, usub_small by lia. replace (1 + left - 1) with left by lia.
    destruct (Z.eqb_spec left 0); [by rewrite decide_True, lookup_delete_eq|].
    by rewrite decide_False, lookup_insert_eq.
  - assert (locks (registry s) !! j =
      if decide (left = 0) then None else (λ f, {| lock := lock f; holders := left |}) <$> locks (registry s) !! j)
      as <-.
    { destruct (locks (registry s) !! j) as [f|] eqn:Hj; simpl; [|by destruct (decide _)].
      destruct (inv_holders s Hs j f Hj) as [Hf ?]. rewrite decide_False by lia. destruct f. simpl in *. f_equal.
      f_equal. lia. }
    destruct (_ =? 0); [by rewrite lookup_delete_ne|by rewrite lookup_insert_ne].
Qed.

Lemma release_arcs r i : arcs (release r i) = arcs r.
Proof. unfold release. by destruct (locks r !! i). Qed.

Lemma leave_inv s t task :
  inv s → Z.of_nat (size (tasks s)) < 2 ^ 64 → tasks s !! t = Some task → permitted task = false →
  inv {| registry := release (registry s) (task_transfer task); tasks := delete t (tasks s) |}.
Proof.
  intros Hs Hsize Ht Hperm.
  assert (∀ j e, locks (release (registry s) (task_transfer task)) !! j = Some e →
    map_sum (holding j) (delete t (tasks s)) ≠ 0 ∧ holders e = map_sum (holding j) (delete t (tasks s)) ∧
    ∃ f, locks (registry s) !! j = Some f ∧ lock f = lock e) as Hlocks.
  { intros j e. rewrite (release_locks s t task j) by done. destruct (decide _); [done|].
    destruct (locks (registry s) !! j) as [f|]; [|done]. intros [= <-]. simpl. eauto. }
  split; simpl.
  - intros u other [Hne Hu]%lookup_delete_Some. destruct (inv_entry s Hs u other Hu) as [n Hn].
    rewrite (release_locks s t task) by done. rewrite Hn. rewrite decide_False; [by eexists|].
    assert (0 < map_sum (holding (task_transfer other)) (delete t (tasks s))); [|lia].
    apply handles_pos. exists u, other. by rewrite lookup_delete_ne.
  - intros j e (Hne & -> & _)%Hlocks. unfold handles. simpl.
    pose proof (handles_nonneg j (delete t (tasks s))). lia.
  - intros j e (_ & _ & f & Hf & <-)%Hlocks. rewrite release_arcs. by eapply inv_lock.
  - intros j k e e' (_ & _ & f & Hf & <-)%Hlocks (_ & _ & f' & Hf' & <-)%Hlocks. by eapply inv_inj.
  - intros j e c u (_ & _ & f & Hf & <-)%Hlocks Hc. rewrite release_arcs in Hc.
    rewrite (inv_owner s Hs j f c u Hf Hc). split; intros (other & Hu & Hl & Hp); exists other.
    + rewrite lookup_delete_ne; [done|]. intros ->. congruence.
    + by apply lookup_delete_Some in Hu as [_ Hu].
  - intros u other w c [_ Hu]%lookup_delete_Some Hp Hc. unfold lock_of in Hc. simpl in Hc.
    rewrite release_arcs in Hc. by eapply (inv_claiming s Hs).
  - intros u other leaves c [_ Hu]%lookup_delete_Some Hp Hc. unfold lock_of in Hc. simpl in Hc.
    rewrite release_arcs in Hc. by eapply (inv_published s Hs).
Qed.

(** ** Every step keeps the invariant *)

(** A step of a task other than arriving and leaving. *)
Definition task_step (s : System) (s' : System) : Prop :=
  ∃ t task c c' p, tasks s !! t = Some task ∧ lock_of s task = Some c ∧ fair_update t c c' p ∧
    s' = set_phase (set_lock s (task_lock task) c') t task p.

Lemma keep_lock s t task c p :
  tasks s !! t = Some task → lock_of s task = Some c → phase_permitted p = permitted task →
  (owner c = Some t ↔ permitted task = true) → (∀ w, p = Claiming w → slot c = None) →
  (∀ leaves, p ≠ Leaving (Some (Ok leaves))) → task_step s (set_phase s t task p).
Proof.
  intros Ht Hc Hp Hown Hcl Hlv. exists t, task, c, c, p. split_and!; [done..| |by rewrite set_lock_id].
  split; [|by left|done|intros leaves ?; by destruct (Hlv leaves)].
  rewrite Hp. destruct (permitted task); [naive_solver|]. destruct (decide _); naive_solver.
Qed.

Lemma take_permit_step s t task waited s' :
  tasks s !! t = Some task → take_permit s t task waited = Some s' → task_step s s'.
Proof.
  unfold take_permit. intros Ht (c & Hc & Hs')%bind_Some. destruct (owner c) eqn:Hown; [done|].
  injection Hs' as <-. exists t, task, c, (mkClaimLock (slot c) (Some t)), (Locked waited).
  split_and!; [done..| |done]. split; simpl; auto; done.
Qed.

Lemma drop_permit_step s t task c new_slot outcome :
  tasks s !! t = Some task → lock_of s task = Some c → owner c = Some t →
  new_slot = slot c ∨ slot c = None →
  (∀ leaves, outcome = Some (Ok leaves) → new_slot = Some leaves) →
  task_step s (drop_permit s t task new_slot outcome).
Proof.
  intros Ht Hc Hown Hslot Hout. exists t, task, c, (mkClaimLock new_slot None), (Leaving outcome).
  split_and!; [done..| |done]. split; simpl; [by rewrite decide_True|naive_solver|done|].
  intros leaves [= ->]. by apply Hout.
Qed.

Lemma step_cases s a s' :
  inv s → act s a = Some s' →
  (∃ t i, a = Arrive t i) ∨ (∃ t, a = Leave t) ∨ task_step s s'.
Proof.
  intros Hs. destruct a as [t i|t|t|t|t|t outcome|t|t]; simpl; eauto; intros (task & Ht & Ha)%bind_Some;
    right; right; destruct (lock_known s t task Hs Ht) as [c Hc];
    pose proof (permit_owner s t task c Hs Ht Hc) as Hown; unfold permitted in Hown;
    rewrite ?Hc in Ha; simpl in Ha; destruct (phase task) as [| |w|w|o] eqn:Hp; simplify_eq;
    try (by eapply take_permit_step).
  - apply (keep_lock s t task c); try done; unfold permitted; by rewrite Hp.
  - destruct (slot c) as [leaves|] eqn:Hsl; simplify_eq.
    + apply (drop_permit_step s t task c); naive_solver.
    + apply (keep_lock s t task c); try done; unfold permitted; by rewrite Hp.
  - apply (drop_permit_step s t task c); [done|done|naive_solver| |naive_solver].
    destruct outcome; [|by left]. right. by apply (inv_claiming s Hs t task w c).
  - unfold permitted. rewrite Hp. apply (keep_lock s t task c); try done; unfold permitted; by rewrite Hp.
  - unfold permitted. rewrite Hp. apply (keep_lock s t task c); try done; unfold permitted; by rewrite Hp.
  - unfold permitted. rewrite Hp. apply (drop_permit_step s t task c); naive_solver.
  - unfold permitted. rewrite Hp. apply (drop_permit_step s t task c); naive_solver.
Qed.

Lemma act_inv s a s' :
  inv s → act s a = Some s' → Z.of_nat (size (tasks s)) < 2 ^ 64 →
  Z.of_nat (size (tasks s')) < 2 ^ 64 → inv s'.
Proof.
  intros Hs Ha Hsize Hsize'. destruct (step_cases s a s' Hs Ha) as [(t & i & ->)|[(t & ->)|Hstep]].
  - simpl in Ha. destruct (tasks s !! t) eqn:Ht; [done|]. pose proof (acquire_inv s t i Hs Ht) as Hinv.
    destruct (acquire (registry s) i) as [l r]. injection Ha as <-. apply Hinv. simpl in Hsize'.
    rewrite map_size_insert_None in Hsize' by done. lia.
  - simpl in Ha. apply bind_Some in Ha as (task & Ht & Ha). destruct (phase task) eqn:Hp; try done.
    injection Ha as <-. apply (leave_inv s t task); try done. unfold permitted. by rewrite Hp.
  - destruct Hstep as (t & task & c & c' & p & Ht & Hc & Hfair & ->). by eapply update_inv.
Qed.

Lemma reachable_inv s : reachable s → inv s ∧ Z.of_nat (size (tasks s)) < 2 ^ 64.
Proof.
  induction 1 as [|s a s' Hs [IH Hsize] Ha Hsize']; [by split; [apply inv_default|]|].
  split; [|done]. by eapply act_inv.
Qed.

Lemma registry_holders s i :
  inv s → holders <$> locks (registry s) !! i = if decide (handles s i = 0) then None else Some (handles s i).
Proof.
  intros Hs. destruct (locks (registry s) !! i) as [e|] eqn:He; simpl.
  - destruct (inv_holders s Hs i e He) as [<- ?]. rewrite decide_False by lia. done.
  - by rewrite decide_True by by apply no_entry_no_handles.
Qed.

Lemma empty_registry s : inv s → tasks s = ∅ → locks (registry s) = ∅.
Proof.
  intros Hs Hempty. apply map_eq. intros i. rewrite lookup_empty.
  pose proof (registry_holders s i Hs) as Hreg. unfold handles in Hreg.
  rewrite Hempty, map_sum_empty, decide_True in Hreg by done. by destruct (locks (registry s) !! i).
Qed.

(** C13: Claims of one transfer never run at the same time, in whatever order the tasks
    take their steps and wherever they are cancelled. Tasks on the same transfer share
    one lock; at most one of them is claiming, and none is once leaves were published;
    the tasks that come out of the lock with leaves come out with the same ones. The
    registry lists exactly the transfers that tasks hold handles on, with their number,
    so nothing is left when the tasks are gone. *)
Theorem one_claim_at_a_time s :
  reachable s →
  (∀ t u task other, tasks s !! t = Some task → tasks s !! u = Some other →
     task_transfer task = task_transfer other →
     task_lock task = task_lock other ∧
     (permitted task = true → permitted other = true → t = u) ∧
     (∀ w leaves, phase task = Claiming w → phase other ≠ Leaving (Some (Ok leaves))) ∧
     (∀ leaves leaves', phase task = Leaving (Some (Ok leaves)) →
        phase other = Leaving (Some (Ok leaves')) → leaves = leaves')) ∧
  (∀ i, holders <$> locks (registry s) !! i =
     if decide (handles s i = 0) then None else Some (handles s i)) ∧
  (tasks s = ∅ → locks (registry s) = ∅).
Proof.
  intros [Hs _]%reachable_inv.
  split_and!; [|intros i; by apply registry_holders|by apply empty_registry].
  intros t u task other Ht Hu Htr. destruct (inv_entry s Hs t task Ht) as [n Hn].
    destruct (inv_entry s Hs u other Hu) as [m Hm]. rewrite <- Htr, Hn in Hm. injection Hm as Hl _.
    split; [done|]. destruct (lock_known s t task Hs Ht) as [c Hc].
    assert (lock_of s other = Some c) as Hc' by (unfold lock_of in *; by rewrite <- Hl).
    split_and!.
    + intros Hpt%(permit_owner s t task c Hs Ht Hc) Hpu%(permit_owner s u other c Hs Hu Hc'). congruence.
    + intros w leaves Hp Hp'. pose proof (inv_claiming s Hs t task w c Ht Hp Hc).
      pose proof (inv_published s Hs u other leaves c Hu Hp' Hc'). congruence.
    + intros leaves leaves' Hp Hp'. pose proof (inv_published s Hs t task leaves c Ht Hp Hc).
      pose proof (inv_published s Hs u other leaves' c Hu Hp' Hc'). congruence.
Qed.

(** ** Claims come to an end *)

Definition rank (task : Task) : Z :=
  match phase task with Arrived => 5 | Waiting => 4 | Locked _ => 3 | Claiming _ => 2 | Leaving _ => 1 end.

Definition is_arrival (a : Action) : bool := match a with Arrive _ _ => true | _ => false end.
Definition is_cancel (a : Action) : bool := match a with Cancel _ => true | _ => false end.

Fixpoint run_actions (s : System) (actions : list Action) : option System :=
  match actions with
  | [] => Some s
  | a :: actions => s ← act s a; run_actions s actions
  end.

Lemma rank_phase s t task task' :
  tasks s !! t = Some task → rank task' < rank task →
  map_sum rank (<[t := task']> (tasks s)) < map_sum rank (tasks s).
Proof.
  intros Ht Hr. rewrite (map_sum_delete _ (tasks s) t task Ht).
  rewrite <- insert_delete_eq, map_sum_insert by apply lookup_delete_eq. lia.
Qed.

Lemma rank_positive task : 1 ≤ rank task ≤ 5.
Proof. unfold rank. destruct (phase task); lia. Qed.

Lemma rank_leave s t task :
  tasks s !! t = Some task → map_sum rank (delete t (tasks s)) < map_sum rank (tasks s).
Proof.
  intros Ht. rewrite (map_sum_delete _ (tasks s) t task Ht). pose proof (rank_positive task). lia.
Qed.

(** Every step but an arrival brings a task closer to its end. *)
Lemma step_rank s a s' :
  is_arrival a = false → act s a = Some s' → map_sum rank (tasks s') < map_sum rank (tasks s).
Proof.
  destruct a as [t i|t|t|t|t|t outcome|t|t]; simpl; [done|..]; intros _ (task & Ht & Ha)%bind_Some;
    unfold take_permit in Ha; try (apply bind_Some in Ha as (c & Hc & Ha));
    destruct (phase task) eqn:Hp; simplify_eq; simpl;
    try (apply bind_Some in Ha as (c & Hc & Ha); destruct (owner c); simplify_eq);
    try (destruct (slot c); simplify_eq); try (destruct (permitted task)); simpl;
    try (by eapply rank_leave); apply (rank_phase s t task); try done; unfold rank; rewrite Hp; simpl; lia.
Qed.

Lemma run_rank s actions s' :
  Forall (λ a, is_arrival a = false) actions → run_actions s actions = Some s' →
  map_sum rank (tasks s') + Z.of_nat (length actions) ≤ map_sum rank (tasks s).
Proof.
  intros Ha. revert s. induction Ha as [|a actions Ha _ IH]; intros s; simpl; [intros [= <-]; lia|].
  intros (s1 & Hs1 & Hrun)%bind_Some. pose proof (step_rank s a s1 Ha Hs1). pose proof (IH s1 Hrun). lia.
Qed.

Lemma rank_bound (m : gmap TaskId Task) : 0 ≤ map_sum rank m ≤ 5 * Z.of_nat (size m).
Proof.
  induction m as [|t task m Ht IH] using map_ind; [by rewrite map_sum_empty|].
  rewrite map_sum_insert, map_size_insert_None by done. pose proof (rank_positive task). lia.
Qed.

(** A task that is not waiting can go on by itself. *)
Lemma task_advances s t task (outcome : result Error Leaves) :
  inv s → tasks s !! t = Some task → phase task ≠ Waiting →
  ∃ a, is_arrival a = false ∧ is_cancel a = false ∧ is_Some (act s a) ∧
    ∀ u r, a = Finish u r → r = outcome.
Proof.
  intros Hs Ht Hp. destruct (lock_known s t task Hs Ht) as [c Hc].
  destruct (phase task) eqn:Hph; [exists (Busy t)|done|exists (Look t)|exists (Finish t outcome)|exists (Leave t)];
    simpl; rewrite Ht; simpl; rewrite ?Hc; simpl; rewrite Hph; (split_and!; [done..| |naive_solver]).
  - by eexists.
  - destruct (slot c); by eexists.
  - by eexists.
  - by eexists.
Qed.

Lemma no_deadlock s (outcome : result Error Leaves) :
  inv s → tasks s ≠ ∅ →
  ∃ a, is_arrival a = false ∧ is_cancel a = false ∧ is_Some (act s a) ∧
    ∀ u r, a = Finish u r → r = outcome.
Proof.
  intros Hs (t & task & Ht)%map_choose. assert (phase task = Waiting ∨ phase task ≠ Waiting) as [Hp|Hp]
    by (destruct (phase task); auto).
  2: { by eapply task_advances. }
  destruct (lock_known s t task Hs Ht) as [c Hc]. destruct (inv_entry s Hs t task Ht) as [n Hn].
  destruct (owner c) as [u|] eqn:Hown.
  - apply (inv_owner s Hs _ _ c u Hn Hc) in Hown as (other & Hu & _ & Hperm).
    apply (task_advances s u other outcome Hs Hu). unfold permitted in Hperm. by destruct (phase other).
  - exists (Granted t). simpl. rewrite Ht. simpl. rewrite Hp. unfold take_permit. rewrite Hc. simpl. rewrite Hown.
    split_and!; [done..|by eexists|done].
Qed.

(** Only an arrival starts a task. *)
Lemma act_size s a s' :
  act s a = Some s' → (size (tasks s') ≤ size (tasks s) + if is_arrival a then 1 else 0)%nat.
Proof.
  intros Ha.
  assert (∀ t task task', tasks s !! t = Some task →
    (size (<[t := task']> (tasks s)) ≤ size (tasks s) + 0)%nat) as Hins.
  { intros t task task' Ht. rewrite map_size_insert, Ht. unfold Datatypes.id. lia. }
  assert (∀ t, (size (delete t (tasks s)) ≤ size (tasks s) + 0)%nat) as Hdel.
  { intros t. rewrite map_size_delete. destruct (tasks s !! t); unfold Datatypes.id; lia. }
  destruct a as [t i|t|t|t|t|t outcome|t|t]; simpl in *.
  1: { destruct (tasks s !! t) eqn:Ht; [done|]. destruct (acquire (registry s) i). simplify_eq. simpl.
       rewrite map_size_insert_None by done. lia. }
  all: apply bind_Some in Ha as (task & Ht & Ha); unfold take_permit in Ha;
    try (apply bind_Some in Ha as (c & Hc & Ha)); destruct (phase task); simplify_eq; simpl;
    try (apply bind_Some in Ha as (c & Hc & Ha); destruct (owner c); simplify_eq);
    try (destruct (slot c); simplify_eq); try (destruct (permitted task)); simpl;
    first [by eapply Hins|apply Hdel].
Qed.

Lemma run_reachable s actions s' :
  reachable s → Z.of_nat (size (tasks s)) + Z.of_nat (length actions) < 2 ^ 64 →
  run_actions s actions = Some s' → reachable s'.
Proof.
  revert s. induction actions as [|a actions IH]; intros s Hs Hsize; simpl in *; [by intros [= <-]|].
  intros (s1 & Hs1 & Hrun)%bind_Some. pose proof (act_size s a s1 Hs1) as Hle. destruct (is_arrival a);
    (apply (IH s1); [|lia|done]); (apply (reachable_step s a); [done..|lia]).
Qed.

(** Claims come to an end. As long as tasks are there, one of them can go on without
    being cancelled, whatever the claims come back with; and once no tasks arrive any
    more, each of them takes at most five further steps. When no step is left the tasks
    are gone, and the registry is empty. *)
Theorem claims_come_to_an_end s (outcome : result Error Leaves) :
  reachable s →
  (tasks s ≠ ∅ → ∃ a, is_arrival a = false ∧ is_cancel a = false ∧ is_Some (act s a) ∧
     ∀ u r, a = Finish u r → r = outcome) ∧
  (∀ actions s', Forall (λ a, is_arrival a = false) actions → run_actions s actions = Some s' →
     Z.of_nat (length actions) ≤ 5 * Z.of_nat (size (tasks s)) ∧
     ((∀ a, is_arrival a = false → act s' a = None) → tasks s' = ∅ ∧ locks (registry s') = ∅)).
Proof.
  intros Hs. pose proof (reachable_inv s Hs) as [Hinv Hsize].
  split; [by apply no_deadlock|]. intros actions s' Hactions Hrun.
  pose proof (run_rank s actions s' Hactions Hrun) as Hrank.
  pose proof (rank_bound (tasks s)). pose proof (rank_bound (tasks s')). split; [lia|].
  intros Hstuck. assert (inv s') as Hinv'.
  { revert Hinv Hsize Hrun. clear -Hactions. revert s. induction Hactions as [|a actions Ha _ IH]; intros s Hs Hsize; simpl.
    - by intros [= <-].
    - intros (s1 & Hs1 & Hrun)%bind_Some. pose proof (act_size s a s1 Hs1) as Hle. rewrite Ha in Hle.
      apply (IH s1); [|lia|done]. apply (act_inv s a); [done..|lia]. }
  assert (tasks s' = ∅) as Hempty.
  { destruct (decide (tasks s' = ∅)) as [|Hne]; [done|].
    destruct (no_deadlock s' outcome Hinv' Hne) as (a & Ha & _ & Hsome & _).
    rewrite (Hstuck a Ha) in Hsome. by destruct Hsome. }
  split; [done|]. by apply empty_registry.
Qed.
End locks.

(** ** Witnesses

    Two tasks claim one transfer, and a third one another: the first claims, the second
    waits and takes over its leaves. *)

Definition sample_actions : list (Action (Leaves := Z) (Error := string)) :=
  [Arrive 0 "x"; Arrive 1 "x"; TryLock 0; Busy 1; Arrive 2 "y"; Look 0; TryLock 2;
   Finish 0 (Ok 7); Granted 1; Look 1].

Definition sample_state : System := default System_default (run_actions System_default sample_actions).

Lemma sample_reachable : reachable sample_state.
Proof.
  apply (run_reachable System_default sample_actions); [apply reachable_start|done|].
  unfold sample_state. by destruct (run_actions System_default sample_actions) as [s|] eqn:E; [|vm_compute in E].
Qed.

Example one_claim_at_a_time_witness :
  phase <$> tasks sample_state !! 0%nat = Some (Leaving (Some (Ok 7))) ∧
  phase <$> tasks sample_state !! 1%nat = Some (Leaving (Some (Ok 7))) ∧
  holders <$> locks (registry sample_state) !! "x" = Some 2 ∧
  holders <$> locks (registry sample_state) !! "z" = None.
Proof.
  destruct (one_claim_at_a_time sample_state sample_reachable) as (_ & Hreg & _).
  rewrite !Hreg. split_and!; vm_compute; reflexivity.
Defined.

Example claims_come_to_an_end_witness :
  ∃ s', run_actions sample_state [Leave 0; Look 2; Leave 1; Finish 2 (Err "rejected"); Leave 2] = Some s' ∧
    tasks s' = ∅ ∧ locks (registry s') = ∅.
Proof.
  destruct (claims_come_to_an_end sample_state (Err "rejected") sample_reachable) as (_ & Hend).
  eexists. split; [vm_compute; reflexivity|].
  refine (proj2 (Hend [Leave 0; Look 2; Leave 1; Finish 2 (Err "rejected"); Leave 2] _ _ _) _).
  - by repeat constructor.
  - vm_compute. reflexivity.
  - intros a. by destruct a.
Defined.
