(* ===== verification/TimelockManager.v ===== *)
(** * The timelock manager: [spark/src/services/timelock_manager.rs]

    Renews the leaves whose refund timelock is about to run out: new node and refund
    transactions are built, signed with the leaf's key
    ([spark/src/utils/signing_job.rs]) and sent to the coordinator, and the
    leaf's chain is rebuilt from the answer. The calls to the signer and to the
    coordinator are the class [RenewalEnv]. *)

From S2P Require Import Prelude Bitcoin BitcoinTx Timelock SparkTx TreeModel NodeWire.
From S2P Require Import ExitChain Paging TreeService FrostBatch.
From stdpp Require Import pretty.
Open Scope Z_scope.

(** ** Messages *)

Section messages.
Context {B : Bitcoin} `{!Codec}.

Record RenewNodeTimelockSigningJob := {
  rn_split_node_tx_signing_job : option Proto.UserSignedTxSigningJob;
  rn_split_node_direct_tx_signing_job : option Proto.UserSignedTxSigningJob;
  rn_node_tx_signing_job : option Proto.UserSignedTxSigningJob;
  rn_refund_tx_signing_job : option Proto.UserSignedTxSigningJob;
  rn_direct_node_tx_signing_job : option Proto.UserSignedTxSigningJob;
  rn_direct_refund_tx_signing_job : option Proto.UserSignedTxSigningJob;
  rn_direct_from_cpfp_refund_tx_signing_job : option Proto.UserSignedTxSigningJob;
}.

Record RenewRefundTimelockSigningJob := {
  rr_node_tx_signing_job : option Proto.UserSignedTxSigningJob;
  rr_refund_tx_signing_job : option Proto.UserSignedTxSigningJob;
  rr_direct_node_tx_signing_job : option Proto.UserSignedTxSigningJob;
  rr_direct_refund_tx_signing_job : option Proto.UserSignedTxSigningJob;
  rr_direct_from_cpfp_refund_tx_signing_job : option Proto.UserSignedTxSigningJob;
}.

Record RenewNodeZeroTimelockSigningJob := {
  rz_node_tx_signing_job : option Proto.UserSignedTxSigningJob;
  rz_refund_tx_signing_job : option Proto.UserSignedTxSigningJob;
  rz_direct_node_tx_signing_job : option Proto.UserSignedTxSigningJob;
  rz_direct_from_cpfp_refund_tx_signing_job : option Proto.UserSignedTxSigningJob;
}.

Inductive SigningJobs :=
| RenewNodeTimelock (job : RenewNodeTimelockSigningJob)
| RenewRefundTimelock (job : RenewRefundTimelockSigningJob)
| RenewNodeZeroTimelock (job : RenewNodeZeroTimelockSigningJob).

Record RenewLeafRequest := { leaf_id : string; signing_jobs : option SigningJobs }.

(** The fields of the results are [split_node] and [node]. *)
Inductive RenewResult :=
| RenewNodeTimelockResult (split_node node : option Proto.TreeNode)
| RenewRefundTimelockResult (node : option Proto.TreeNode)
| RenewNodeZeroTimelockResult (split_node node : option Proto.TreeNode).

End messages.
(** The calls of the manager. An error of the signer is its text;
    the last argument of [client_renew_leaf] is the idempotency key, a transaction id. *)
Class RenewalEnv {B : Bitcoin} {BT : BitcoinTx} `{!Codec} (W : Type) := {
  renewal_frost :: FrostEnv W;
  client_query_nodes_map :
    QueryNodesRequest → W → result OperatorRpcError.t (gmap string Proto.TreeNode) * W;
  client_renew_leaf :
    RenewLeafRequest → option Txid → W → result OperatorRpcError.t (option RenewResult) * W;
}.

(** ** Signing jobs: [spark/src/utils/signing_job.rs] *)

Inductive SigningJobType :=
| CpfpNode | CpfpSplitNode | CpfpRefund | DirectNode | DirectSplitNode | DirectRefund
| DirectFromCpfpRefund.

#[export] Instance SigningJobType_eq_dec : EqDecision SigningJobType.
Proof. solve_decision. Defined.

(** [From<TreeServiceError> for ServiceError] ([spark/src/tree/error.rs]); the first
    argument prints a duration. *)
Definition from_tree_error (show_duration : Duration → string) (error : TreeServiceError.t)
    : ServiceError.t :=
  match error with
  | TreeServiceError.InsufficientFunds => ServiceError.InsufficientFunds
  | TreeServiceError.RpcError e => ServiceError.ServiceConnectionError e
  | TreeServiceError.UnselectableAmount => ServiceError.Generic "unselectable amount"
  | TreeServiceError.NonReservableLeaves => ServiceError.Generic "non reservable leaves"
  | TreeServiceError.ProcessorShutdown => ServiceError.Generic "store processor has shut down"
  | TreeServiceError.ResourceBusy max_concurrent timeout =>
      ServiceError.Generic ("too many concurrent reservations (max: " +:+ pretty max_concurrent +:+
        "), timed out after " +:+ show_duration timeout)
  | TreeServiceError.InvalidAmount => ServiceError.InvalidAmount
  | TreeServiceError.SignerError e => ServiceError.SignerError e
  | TreeServiceError.ServiceError e => e
  | TreeServiceError.Generic msg => ServiceError.Generic msg
  end.

Section manager.
Context {B : Bitcoin} {BT : BitcoinTx} `{!Codec} {W : Type} `{!RenewalEnv W}.
Context `{!HashIter string} `{!HashIter Identifier}.
Context (show_duration : Duration → string).

Record SigningJob := mkSigningJob {
  job_type : SigningJobType;
  sj_node_id : TreeNodeId;
  sj_tx : Transaction;
  parent_tx_out : TxOut ScriptBuf;
  sj_signing_public_key : PublicKey;
  sj_verifying_public_key : PublicKey;
}.

Record SignedJob := mkSignedJob { signed_job_type : SigningJobType; signed_tx : SignedTx }.

(** The loop over [signing_jobs]; [signing_commitments[i]] panics when the operators
    returned too few. *)
Fixpoint frost_jobs (signing_jobs : list SigningJob)
    (signing_commitments : list (gmap Identifier SigningCommitments))
    : option (result string (list (FrostJob Sighash))) :=
  match signing_jobs with
  | [] => Some (Ok [])
  | signing_job :: signing_jobs =>
      match sighash_from_tx (sj_tx signing_job) 0 (parent_tx_out signing_job) with
      | Err e => Some (Err ("generic error: " +:+ e))
      | Ok sighash =>
          operator_commitments ← head signing_commitments;
          jobs ← frost_jobs signing_jobs (tail signing_commitments);
          Some (jobs ← jobs;
                Ok (mkFrostJob (SigningLeaf (sj_node_id signing_job)) sighash
                      (sj_verifying_public_key signing_job) operator_commitments None :: jobs))
      end
  end.

Definition sign_signing_jobs (signing_jobs : list SigningJob)
    (signing_commitments : list (gmap Identifier SigningCommitments))
    : proc W (result string (list SignedJob)) :=
  jobs ←? panic_or (frost_jobs signing_jobs signing_commitments);
  signed ←? sign_frost_batch jobs signing_jobs;
  mret (Ok (zip_with (λ '(signing_job, share) commitments,
    mkSignedJob (job_type signing_job)
      {| stx_node_id := sj_node_id signing_job;
         stx_signing_public_key := sj_signing_public_key signing_job;
         stx_tx := sj_tx signing_job;
         stx_user_signature := share_signature_share share;
         stx_self_nonce_commitment := share_commitment share;
         stx_signing_commitments := commitments |}) signed signing_commitments)).

Definition get_signing_commitments_for_jobs (node_id : TreeNodeId) (signing_jobs_count : nat)
    : proc W (ServiceResult (list (gmap Identifier SigningCommitments))) :=
  response ←? rpc (client_get_signing_commitments [node_id] (wrap 32 (Z.of_nat signing_jobs_count)) 0);
  mret (mapR map_signing_nonce_commitments response).

(** [spark/src/operator/rpc/spark_rpc_client.rs] *)
Definition query_nodes_paginated_inner (source : Source) (include_parents : bool)
    (pf : PagingFilter) (w : W) : result OperatorRpcError.t (PagingResult (string * Proto.TreeNode)) * W :=
  let '(response, w) := client_query_nodes_map
    {| include_parents := include_parents; request_limit := as_i64 (limit pf);
       request_offset := as_i64 (offset pf); source := source; statuses := [] |} w in
  match response with
  | Err e => (Err e, w)
  | Ok nodes =>
      let items := hm_iter nodes in
      let has_next := Z.of_nat (length items) =? limit pf in
      (Ok {| items := items; next_page := if has_next then Some (next pf) else None |}, w)
  end.

Definition query_nodes_paginated (source : Source) (include_parents : bool)
    : proc W (ServiceResult (list (string * Proto.TreeNode))) :=
  r ← pager (query_nodes_paginated_inner source include_parents) PagingFilter_default;
  mret (map_err ServiceError.ServiceConnectionError (page ← r; Ok (items page))).

(** ** Renewing one leaf *)

(** [let x = r?;] where the rest may panic. *)
Definition or_return {A C} (r : ServiceResult A) (f : A → option (ServiceResult C))
    : option (ServiceResult C) :=
  match r with Ok a => f a | Err e => Some (Err e) end.

Definition signing_job (node : TreeNode) (signing_public_key : PublicKey) (job_type : SigningJobType)
    (tx : Transaction) (parent_tx_out : TxOut ScriptBuf) : SigningJob :=
  mkSigningJob job_type (id node) tx parent_tx_out signing_public_key (verifying_public_key node).

(** The jobs for a pair of node transactions and for the refunds of that pair, written
    out in each of the three functions; [with_direct] tells whether a [direct_tx] refund
    is used. *)
Definition node_jobs (node : TreeNode) (key : PublicKey) (cpfp direct : SigningJobType)
    (txs : NodeTransactions) (parent_tx : Transaction) : option (list SigningJob) :=
  parent_tx_out ← tx_output parent_tx !! 0%nat;
  Some [signing_job node key cpfp (node_cpfp_tx txs) parent_tx_out;
        signing_job node key direct (node_direct_tx txs) parent_tx_out].

Definition refund_jobs (node : TreeNode) (key : PublicKey) (txs : NodeTransactions)
    (with_direct : bool) : option (list SigningJob) :=
  refunds ← create_initial_timelock_refund_txs (node_cpfp_tx txs) (Some (node_direct_tx txs)) key;
  cpfp_out ← tx_output (node_cpfp_tx txs) !! 0%nat;
  direct ← match refund_direct_tx refunds with
    | Some tx =>
        if with_direct then
          direct_out ← tx_output (node_direct_tx txs) !! 0%nat;
          Some [signing_job node key DirectRefund tx direct_out]
        else Some []
    | None => Some []
    end;
  let direct_from_cpfp := match refund_direct_from_cpfp_tx refunds with
    | Some tx => [signing_job node key DirectFromCpfpRefund tx cpfp_out]
    | None => []
    end in
  Some (signing_job node key CpfpRefund (refund_cpfp_tx refunds) cpfp_out ::
        direct ++ direct_from_cpfp).

Definition renew_node_jobs (node parent_node : TreeNode) (key : PublicKey)
    : option (ServiceResult (list SigningJob)) :=
  let parent_node_tx := node_tx parent_node in
  or_return (create_zero_timelock_node_txs parent_node_tx) (λ split,
    split_jobs ← node_jobs node key CpfpSplitNode DirectSplitNode split parent_node_tx;
    or_return (create_initial_timelock_node_txs (node_cpfp_tx split)) (λ txs,
      jobs ← node_jobs node key CpfpNode DirectNode txs (node_cpfp_tx split);
      refunds ← refund_jobs node key txs true;
      Some (Ok (split_jobs ++ jobs ++ refunds)))).

Definition renew_refund_jobs (node parent_node : TreeNode) (key : PublicKey)
    : option (ServiceResult (list SigningJob)) :=
  let parent_node_tx := node_tx parent_node in
  r ← create_decremented_timelock_node_txs parent_node_tx (node_tx node);
  or_return r (λ txs,
    jobs ← node_jobs node key CpfpNode DirectNode txs parent_node_tx;
    refunds ← refund_jobs node key txs true;
    Some (Ok (jobs ++ refunds))).

Definition renew_zero_timelock_jobs (node : TreeNode) (key : PublicKey)
    : option (ServiceResult (list SigningJob)) :=
  or_return (create_zero_timelock_node_txs (node_tx node)) (λ txs,
    jobs ← node_jobs node key CpfpNode DirectNode txs (node_tx node);
    refunds ← refund_jobs node key txs false;
    Some (Ok (jobs ++ refunds))).

(** [signed_jobs.iter().find(..).map(..).transpose()?] *)
Definition find_job (job_type : SigningJobType) (signed_jobs : list SignedJob)
    : ServiceResult (option Proto.UserSignedTxSigningJob) :=
  match find (λ j, bool_decide (signed_job_type j = job_type)) signed_jobs with
  | Some j => r ← signed_tx_try_into (signed_tx j); Ok (Some r)
  | None => Ok None
  end.

Definition node_message (signed_jobs : list SignedJob) : ServiceResult SigningJobs :=
  split ← find_job CpfpSplitNode signed_jobs;
  split_direct ← find_job DirectSplitNode signed_jobs;
  node ← find_job CpfpNode signed_jobs;
  refund ← find_job CpfpRefund signed_jobs;
  direct_node ← find_job DirectNode signed_jobs;
  direct_refund ← find_job DirectRefund signed_jobs;
  direct_from_cpfp ← find_job DirectFromCpfpRefund signed_jobs;
  Ok (RenewNodeTimelock {|
    rn_split_node_tx_signing_job := split;
    rn_split_node_direct_tx_signing_job := split_direct;
    rn_node_tx_signing_job := node;
    rn_refund_tx_signing_job := refund;
    rn_direct_node_tx_signing_job := direct_node;
    rn_direct_refund_tx_signing_job := direct_refund;
    rn_direct_from_cpfp_refund_tx_signing_job := direct_from_cpfp |}).

Definition refund_message (signed_jobs : list SignedJob) : ServiceResult SigningJobs :=
  node ← find_job CpfpNode signed_jobs;
  refund ← find_job CpfpRefund signed_jobs;
  direct_node ← find_job DirectNode signed_jobs;
  direct_refund ← find_job DirectRefund signed_jobs;
  direct_from_cpfp ← find_job DirectFromCpfpRefund signed_jobs;
  Ok (RenewRefundTimelock {|
    rr_node_tx_signing_job := node;
    rr_refund_tx_signing_job := refund;
    rr_direct_node_tx_signing_job := direct_node;
    rr_direct_refund_tx_signing_job := direct_refund;
    rr_direct_from_cpfp_refund_tx_signing_job := direct_from_cpfp |}).

Definition zero_timelock_message (signed_jobs : list SignedJob) : ServiceResult SigningJobs :=
  node ← find_job CpfpNode signed_jobs;
  refund ← find_job CpfpRefund signed_jobs;
  direct_node ← find_job DirectNode signed_jobs;
  direct_from_cpfp ← find_job DirectFromCpfpRefund signed_jobs;
  Ok (RenewNodeZeroTimelock {|
    rz_node_tx_signing_job := node;
    rz_refund_tx_signing_job := refund;
    rz_direct_node_tx_signing_job := direct_node;
    rz_direct_from_cpfp_refund_tx_signing_job := direct_from_cpfp |}).

(** The steps the three functions share: fetch the key, build the jobs, sign them, send
    them, take the result. *)
Definition renew (node : TreeNode)
    (signing_jobs : PublicKey → option (ServiceResult (list SigningJob)))
    (message : list SignedJob → ServiceResult SigningJobs)
    (result : option RenewResult → ServiceResult (TreeNode * option TreeNode))
    : proc W (ServiceResult (TreeNode * option TreeNode)) :=
  signing_public_key ←? signer (call (signer_public_key_for_leaf (id node)));
  signing_jobs ←? panic_or (signing_jobs signing_public_key);
  signing_commitments ←? get_signing_commitments_for_jobs (id node) (length signing_jobs);
  signed_jobs ←? signer (sign_signing_jobs signing_jobs signing_commitments);
  let idempotency_key := compute_txid <$> refund_tx node in
  jobs ←? mret (message signed_jobs);
  response ←? rpc (client_renew_leaf {| leaf_id := id node; signing_jobs := Some jobs |} idempotency_key);
  mret (result response).

Definition expected_renewal {A} : ServiceResult A :=
  Err (ServiceError.Generic "Expected renew node timelock reponse").

Definition expect_node (node : option Proto.TreeNode) : ServiceResult TreeNode :=
  node ← ok_or node (ServiceError.Generic "Expected a node in response"); node_try_from node.

Definition split_try_from (split_node : option Proto.TreeNode) : ServiceResult (option TreeNode) :=
  match split_node with
  | Some n => n ← node_try_from n; Ok (Some n)
  | None => Ok None
  end.

Definition node_result (response : option RenewResult) : ServiceResult (TreeNode * option TreeNode) :=
  match response with
  | Some (RenewNodeTimelockResult split_node node) =>
      node ← expect_node node; split_node ← split_try_from split_node; Ok (node, split_node)
  | _ => expected_renewal
  end.

Definition refund_result (response : option RenewResult) : ServiceResult (TreeNode * option TreeNode) :=
  match response with
  | Some (RenewRefundTimelockResult node) => node ← expect_node node; Ok (node, None)
  | _ => expected_renewal
  end.

Definition zero_timelock_result (response : option RenewResult)
    : ServiceResult (TreeNode * option TreeNode) :=
  match response with
  | Some (RenewNodeZeroTimelockResult split_node node) =>
      node ← expect_node node; split_node ← split_try_from split_node; Ok (node, split_node)
  | _ => expected_renewal
  end.

Definition renew_node (node parent_node : TreeNode) :=
  renew node (renew_node_jobs node parent_node) node_message node_result.

Definition renew_refund (node parent_node : TreeNode) :=
  renew node (renew_refund_jobs node parent_node) refund_message refund_result.

Definition renew_zero_timelock (node : TreeNode) :=
  renew node (renew_zero_timelock_jobs node) zero_timelock_message zero_timelock_result.

(** ** Chains *)

(** The [while let] loop; each round adds a key of [fetched] to [nodes], so
    [S (size fetched)] rounds are enough ([adopt_line_ends]). *)
Fixpoint adopt_line (fuel : nat) (fetched nodes : gmap TreeNodeId TreeNode)
    (current : option TreeNodeId) : gmap TreeNodeId TreeNode :=
  match fuel, current with
  | S fuel, Some id =>
      if bool_decide (is_Some (nodes !! id)) then nodes
      else match fetched !! id with
           | None => nodes
           | Some ancestor =>
               adopt_line fuel fetched (<[id := ancestor]> nodes) (parent_node_id ancestor)
           end
  | _, _ => nodes
  end.

(** The parent, and the updated [nodes]. *)
Definition resolve_renewal_parent (leaf : TreeNode) (nodes fetched : gmap TreeNodeId TreeNode)
    : ServiceResult (TreeNode * gmap TreeNodeId TreeNode) :=
  parent_id ← ok_or (parent_node_id leaf)
    (ServiceError.Generic ("Node " +:+ id leaf +:+ " has no parent node"));
  let nodes :=
    if bool_decide (is_Some (nodes !! parent_id)) then nodes
    else adopt_line (S (size fetched)) fetched nodes (Some parent_id) in
  parent ← ok_or (nodes !! parent_id)
    (ServiceError.Generic ("Parent node not found for node " +:+ id leaf));
  Ok (parent, nodes).

Definition renew_pedigree (pedigree : LeafPedigree) (fetched : gmap TreeNodeId TreeNode)
    : proc W (ServiceResult LeafPedigree) :=
  let leaf := leaf pedigree in
  let nodes := index_by_id (ancestors pedigree) in
  zero ← panic_or (is_zero_timelock leaf);
  renewal ←?
    (if zero : bool then
       renewed ←? renew_zero_timelock leaf; mret (Ok (renewed, nodes))
     else
       resolved ←? mret (resolve_renewal_parent leaf nodes fetched);
       node ← panic_or (needs_node_tx_renewed leaf);
       renewed ←? (if node : bool then renew_node leaf resolved.1 else renew_refund leaf resolved.1);
       mret (Ok (renewed, resolved.2)));
  let '(renewed_leaf, split_node, nodes) := renewal in
  let nodes := match split_node with Some s => <[id s := s]> nodes | None => nodes end in
  let nodes := <[id renewed_leaf := renewed_leaf]> nodes in
  mret (ok_or (last (assemble_exit_chains nodes [id renewed_leaf]))
    (ServiceError.Generic ("Failed to rebuild chain for node " +:+ id renewed_leaf))).

(** The [filter]s on the leaves whose parent has to be fetched. *)
Fixpoint lacks_parent (renewable : list LeafPedigree) : option (list LeafPedigree) :=
  match renewable with
  | [] => Some []
  | pedigree :: renewable =>
      zero ← is_zero_timelock (leaf pedigree);
      rest ← lacks_parent renewable;
      let lacks := match parent_node_id (leaf pedigree) with
        | Some parent_id =>
            negb (existsb (λ a, bool_decide (id a = parent_id)) (ancestors pedigree))
        | None => false
        end in
      Some (if negb zero && lacks then pedigree :: rest else rest)
  end.

Definition fetch_missing_renewal_parents (renewable : list LeafPedigree)
    : proc W (ServiceResult (gmap TreeNodeId TreeNode)) :=
  lacking ← panic_or (lacks_parent renewable);
  match (λ p, id (leaf p)) <$> lacking with
  | [] => mret (Ok ∅)
  | node_ids =>
      items ←? query_nodes_paginated (NodeIds node_ids) true;
      mret (foldlR (λ nodes '(_, node),
        node ← node_try_from node; Ok (<[id node := node]> nodes)) ∅ items)
  end.

(** The loop that splits the pedigrees into [ready] and [renewable]. *)
Fixpoint split_renewable (pedigrees : list LeafPedigree)
    : option (ServiceResult (list LeafPedigree * list LeafPedigree)) :=
  match pedigrees with
  | [] => Some (Ok ([], []))
  | pedigree :: pedigrees =>
      r ← needs_refund_tx_renewed (leaf pedigree);
      or_return (map_err (from_tree_error show_duration) r) (λ needs,
        rest ← split_renewable pedigrees;
        Some ('(ready, renewable) ← rest;
              Ok (if needs : bool then (ready, pedigree :: renewable)
                  else (pedigree :: ready, renewable))))
  end.

(** The futures of [join_all] do not depend on each other; they are run in order. *)
Definition check_renew_nodes (pedigrees : list LeafPedigree)
    : proc W (ServiceResult (list LeafPedigree)) :=
  parts ←? panic_or (split_renewable pedigrees);
  let '(ready, renewable) := parts in
  match renewable with
  | [] => mret (Ok ready)
  | _ =>
      fetched ←? fetch_missing_renewal_parents renewable;
      renew_results ← join_all (λ pedigree, renew_pedigree pedigree fetched) renewable;
      mret (Ok (ready ++ zip_with (λ pedigree result,
        match result with Ok renewed => renewed | Err _ => pedigree end) renewable renew_results))
  end.
End manager.
