(* ===== verification/TimelockRenewal.v ===== *)
(** * The transactions and the chain of a renewal

    What the jobs of each kind of renewal spend and pay, their timelocks, and the chain
    that is rebuilt from the coordinator's answer. Nothing here calls out. *)

From S2P Require Import Prelude Bitcoin BitcoinTx Timelock SparkTx TreeModel NodeWire.
From S2P Require Import ExitChain FrostBatch TimelockManager.

(** ** The transactions of a renewal *)

Section jobs.
Context {B : Bitcoin} {BT : BitcoinTx} `{!Codec}.
Implicit Types (leaf parent : TreeNode) (key : PublicKey) (t root : Transaction).

(** [t] is [root], or spends it through transactions that keep its script. *)
Inductive keeps_script root : Transaction → Prop :=
| keeps_root : keeps_script root root
| keeps_child prev o t :
    keeps_script root prev → spends prev o t (script_pubkey o) → keeps_script root t.

(** A job the wallet may sign for a leaf whose coins come from [root]. *)
Definition sound_job root leaf key (j : SigningJob) : Prop :=
  sj_node_id j = id leaf ∧ sj_verifying_public_key j = verifying_public_key leaf ∧
  ∃ prev script,
    keeps_script root prev ∧ spends prev (parent_tx_out j) (sj_tx j) script ∧
    (script = script_pubkey (parent_tx_out j) ∨ script = p2tr_script key).

Lemma node_txs_spend prev cs ds txs o :
  create_node_txs prev cs ds 0 = Ok txs → tx_output prev !! 0%nat = Some o →
  spends prev o (node_cpfp_tx txs) (script_pubkey o) ∧
  spends prev o (node_direct_tx txs) (script_pubkey o).
Proof.
  intros (o' & Ho' & Hi & Hout & Hdi & Hdo)%create_node_txs_spec Ho.
  change (Z.to_nat 0) with 0%nat in Ho'.
  rewrite Ho in Ho'. injection Ho' as <-. pose proof (tx_output_lookup_range _ _ _ Ho) as [? ?].
  unfold spends. rewrite Hi, Hout, Hdi, Hdo. split; (split; [done|split; [eauto|]]).
  - exists (txout_value o). split; [change DEFAULT_FEE_SATS with 955; lia|]. right. by destruct o.
  - exists (maybe_apply_fee (txout_value o)). split; [by apply maybe_apply_fee_bound|]. by left.
Qed.

Lemma node_jobs_sound root leaf key cpfp direct prev cs ds txs jobs :
  keeps_script root prev → create_node_txs prev cs ds 0 = Ok txs →
  node_jobs leaf key cpfp direct txs prev = Some jobs →
  Forall (sound_job root leaf key) jobs.
Proof.
  intros Hroot Htxs Hjobs. unfold node_jobs in Hjobs.
  apply bind_Some in Hjobs as (o & Ho & [= <-]).
  destruct (node_txs_spend prev cs ds txs o Htxs Ho) as [? ?].
  repeat constructor; exists prev, (script_pubkey o); auto.
Qed.

Lemma node_txs_keep root prev cs ds txs :
  keeps_script root prev → create_node_txs prev cs ds 0 = Ok txs →
  keeps_script root (node_cpfp_tx txs) ∧ keeps_script root (node_direct_tx txs).
Proof.
  intros Hroot Htxs. destruct (create_node_txs_spec _ _ _ _ _ Htxs) as (o & Ho & _).
  destruct (node_txs_spend prev cs ds txs o Htxs Ho). split; eapply keeps_child; eassumption.
Qed.

Lemma refund_jobs_sound root leaf key txs with_direct jobs :
  keeps_script root (node_cpfp_tx txs) → keeps_script root (node_direct_tx txs) →
  refund_jobs leaf key txs with_direct = Some jobs →
  Forall (sound_job root leaf key) jobs.
Proof.
  intros Hc Hd Hjobs. unfold refund_jobs, create_initial_timelock_refund_txs in Hjobs.
  destruct initial_timelock_sequence as [cs ds].
  apply bind_Some in Hjobs as (refunds & Hrefunds & Hjobs).
  apply bind_Some in Hjobs as (o & Ho & Hjobs). apply bind_Some in Hjobs as (dj & Hdj & [= <-]).
  apply create_refund_txs_spec in Hrefunds as (o' & Ho' & Hi & Hout & (df & -> & Hfi & Hfo) & Hdirect).
  rewrite Ho in Ho'. injection Ho' as <-. pose proof (tx_output_lookup_range _ _ _ Ho) as [? ?].
  constructor; [|apply Forall_app; split].
  - split_and!; [done..|]. exists (node_cpfp_tx txs), (p2tr_script key).
    split_and!; [done| |by right]. unfold spends. simpl. rewrite Hi, Hout.
    split_and!; [done|eauto|]. exists (txout_value o).
    split; [change DEFAULT_FEE_SATS with 955; lia|]. by right.
  - destruct (refund_direct_tx refunds) as [d|]; [|by injection Hdj as <-].
    destruct with_direct; [|by injection Hdj as <-].
    apply bind_Some in Hdj as (od & Hod & [= <-]). destruct Hdirect as (o' & Ho' & Hdi & Hdo).
    rewrite Hod in Ho'. injection Ho' as <-. pose proof (tx_output_lookup_range _ _ _ Hod) as [? ?].
    repeat constructor. exists (node_direct_tx txs), (p2tr_script key).
    split_and!; [done| |by right]. unfold spends. simpl. rewrite Hdi, Hdo.
    split_and!; [done|eauto|]. exists (maybe_apply_fee (txout_value od)).
    split; [by apply maybe_apply_fee_bound|]. by left.
  - repeat constructor. exists (node_cpfp_tx txs), (p2tr_script key).
    split_and!; [done| |by right]. unfold spends. simpl. rewrite Hfi, Hfo.
    split_and!; [done|eauto|]. exists (maybe_apply_fee (txout_value o)).
    split; [by apply maybe_apply_fee_bound|]. by left.
Qed.

(** The jobs of a pair of node transactions and of its refunds. *)
Lemma pair_jobs_sound root leaf key prev cs ds cpfp direct with_direct txs jobs refunds :
  keeps_script root prev → create_node_txs prev cs ds 0 = Ok txs →
  node_jobs leaf key cpfp direct txs prev = Some jobs →
  refund_jobs leaf key txs with_direct = Some refunds →
  Forall (sound_job root leaf key) (jobs ++ refunds).
Proof.
  intros Hroot Htxs Hjobs Hrefunds. destruct (node_txs_keep _ _ _ _ _ Hroot Htxs).
  apply Forall_app. split.
  - eapply node_jobs_sound; [exact Hroot|exact Htxs|exact Hjobs].
  - by apply (refund_jobs_sound _ _ _ txs with_direct).
Qed.

Lemma or_return_Ok {A C} (r : ServiceResult A) (f : A → option (ServiceResult C)) c :
  or_return r f = Some (Ok c) ↔ ∃ a, r = Ok a ∧ f a = Some (Ok c).
Proof. destruct r; simpl; naive_solver. Qed.

Lemma renew_node_jobs_sound leaf parent key jobs :
  renew_node_jobs leaf parent key = Some (Ok jobs) →
  Forall (sound_job (node_tx parent) leaf key) jobs.
Proof.
  unfold renew_node_jobs, create_zero_timelock_node_txs, create_initial_timelock_node_txs.
  destruct initial_zero_timelock_sequence as [zc zd], initial_timelock_sequence as [ic iid].
  intros (split & Hsplit & Hjobs)%or_return_Ok.
  apply bind_Some in Hjobs as (sj & Hsj & (txs & Htxs & Hjobs)%or_return_Ok).
  apply bind_Some in Hjobs as (nj & Hnj & (rj & Hrj & [= <-])%bind_Some).
  pose proof (keeps_root (node_tx parent)) as Hroot.
  destruct (node_txs_keep _ _ _ _ _ Hroot Hsplit) as [? _].
  apply Forall_app. split; [by apply (node_jobs_sound _ _ _ _ _ _ _ _ _ _ Hroot Hsplit Hsj)|].
  eapply (pair_jobs_sound _ _ _ (node_cpfp_tx split)); eassumption.
Qed.

Lemma renew_refund_jobs_sound leaf parent key jobs :
  renew_refund_jobs leaf parent key = Some (Ok jobs) →
  Forall (sound_job (node_tx parent) leaf key) jobs.
Proof.
  unfold renew_refund_jobs, create_decremented_timelock_node_txs.
  intros (r & Hr & (txs & -> & Hjobs)%or_return_Ok)%bind_Some.
  apply bind_Some in Hr as (input & _ & Htxs). injection Htxs as Htxs. apply bind_Ok in
    Htxs as ([cs ds] & _ & Htxs).
  apply bind_Some in Hjobs as (nj & Hnj & (rj & Hrj & [= <-])%bind_Some).
  eapply pair_jobs_sound; [apply keeps_root|eassumption..].
Qed.

Lemma renew_zero_timelock_jobs_sound leaf key jobs :
  renew_zero_timelock_jobs leaf key = Some (Ok jobs) →
  Forall (sound_job (node_tx leaf) leaf key) jobs.
Proof.
  unfold renew_zero_timelock_jobs, create_zero_timelock_node_txs.
  destruct initial_zero_timelock_sequence as [zc zd].
  intros (txs & Htxs & (nj & Hnj & (rj & Hrj & [= <-])%bind_Some)%bind_Some)%or_return_Ok.
  eapply pair_jobs_sound; [apply keeps_root|eassumption..].
Qed.

(** ** The timelocks of a renewal *)

Definition job_timelocks (jobs : list SigningJob) : list (SigningJobType * list Z) :=
  (λ j, (job_type j, low_timelock <$> input_sequences (sj_tx j))) <$> jobs.

Lemma initial_low :
  low_timelock initial_timelock_sequence.1 = 2000 ∧ low_timelock initial_timelock_sequence.2 = 2050 ∧
  low_timelock initial_zero_timelock_sequence.1 = 0 ∧
  low_timelock initial_zero_timelock_sequence.2 = 50.
Proof. split_and!; (apply to_sequence_low; [done|by left]). Qed.

Lemma node_jobs_total leaf key cpfp direct prev cs ds :
  is_Some (tx_output prev !! 0%nat) →
  ∃ txs jobs, create_node_txs prev cs ds 0 = Ok txs ∧
    node_jobs leaf key cpfp direct txs prev = Some jobs ∧
    is_Some (tx_output (node_cpfp_tx txs) !! 0%nat) ∧ is_Some (tx_output (node_direct_tx txs) !! 0%nat) ∧
    job_timelocks jobs = [(cpfp, [low_timelock cs]); (direct, [low_timelock ds])].
Proof.
  intros [o Ho]. destruct (create_node_txs prev cs ds 0) as [txs|e] eqn:Htxs.
  2:{ unfold create_node_txs in Htxs. change (Z.to_nat 0) with 0%nat in Htxs. by rewrite Ho in Htxs. }
  destruct (create_node_txs_spec _ _ _ _ _ Htxs) as (o' & _ & Hi & Hout & Hdi & Hdo).
  eexists txs, _. unfold node_jobs. rewrite Ho, Hout, Hdo. split_and!; [done..|].
  cbn. by rewrite !tx_input_sequences, Hi, Hdi.
Qed.

Lemma refund_jobs_total leaf key txs with_direct :
  is_Some (tx_output (node_cpfp_tx txs) !! 0%nat) →
  is_Some (tx_output (node_direct_tx txs) !! 0%nat) →
  ∃ jobs, refund_jobs leaf key txs with_direct = Some jobs ∧
    job_timelocks jobs = (CpfpRefund, [2000]) ::
      (if with_direct then [(DirectRefund, [2050])] else []) ++ [(DirectFromCpfpRefund, [2050])].
Proof.
  intros [o Ho] [od Hod]. destruct initial_low as (Hc & Hd & _).
  unfold refund_jobs, create_initial_timelock_refund_txs.
  destruct initial_timelock_sequence as [cs ds]. simpl in Hc, Hd.
  destruct (create_refund_txs _ _ _ _ _) as [refunds|] eqn:Hr.
  2:{ unfold create_refund_txs in Hr. by rewrite Ho, Hod in Hr. }
  apply create_refund_txs_spec in Hr as (_ & _ & Hi & _ & (df & Hdf & Hfi & _) & Hdirect).
  destruct (refund_direct_tx refunds) as [d|] eqn:Ed; [|done]. destruct Hdirect as (_ & _ & Hdi & _).
  simpl. rewrite Ho, Ed, Hdf. simpl.
  destruct with_direct; rewrite ?Hod; (eexists; split; [done|]); cbn;
    by rewrite !tx_input_sequences, ?Hi, ?Hfi, ?Hdi, <- Hc, <- Hd.
Qed.

Definition renewed_refunds : list (SigningJobType * list Z) :=
  [(CpfpRefund, [2000]); (DirectRefund, [2050]); (DirectFromCpfpRefund, [2050])].

Lemma renew_node_timelocks leaf parent key :
  is_Some (tx_output (node_tx parent) !! 0%nat) →
  ∃ jobs, renew_node_jobs leaf parent key = Some (Ok jobs) ∧
    job_timelocks jobs =
      [(CpfpSplitNode, [0]); (DirectSplitNode, [50]); (CpfpNode, [2000]); (DirectNode, [2050])] ++
      renewed_refunds.
Proof.
  intros Hparent. destruct initial_low as (Hc & Hd & Hzc & Hzd).
  unfold renew_node_jobs, create_zero_timelock_node_txs, create_initial_timelock_node_txs.
  destruct initial_zero_timelock_sequence as [zc zd], initial_timelock_sequence as [ic iid].
  simpl in Hc, Hd, Hzc, Hzd.
  destruct (node_jobs_total leaf key CpfpSplitNode DirectSplitNode _ zc zd Hparent)
    as (split & sj & -> & Hsj & Hsplit & _ & Ht). simpl. rewrite Hsj. simpl.
  destruct (node_jobs_total leaf key CpfpNode DirectNode _ ic iid Hsplit)
    as (txs & nj & -> & Hnj & Ho & Hod & Htn). simpl. rewrite Hnj. simpl.
  destruct (refund_jobs_total leaf key txs true Ho Hod) as (rj & -> & Htr). simpl.
  eexists. split; [done|]. unfold job_timelocks in *. rewrite !fmap_app, Ht, Htn, Htr.
  by rewrite Hc, Hd, Hzc, Hzd.
Qed.

Lemma renew_refund_timelocks leaf parent key s :
  is_Some (tx_output (node_tx parent) !! 0%nat) →
  node_sequence leaf = Some s → needs_node_tx_renewed leaf = Some false →
  ∃ jobs, renew_refund_jobs leaf parent key = Some (Ok jobs) ∧
    job_timelocks jobs =
      [(CpfpNode, [low_timelock s - 100]); (DirectNode, [low_timelock s - 50])] ++ renewed_refunds.
Proof.
  intros Hparent Hs Hneed.
  destruct (renewal_threshold_leaves_room leaf s Hs) as (_ & _ & Hnext).
  destruct (Hnext Hneed) as (c & d & Hcd & _). pose proof (next_sequence_spec s) as Hspec.
  rewrite Hcd in Hspec. destruct (next_lightning_htlc_sequence s) as [[hc hd]|]; [|done].
  destruct Hspec as (Hlc & _ & Hld & _). unfold node_sequence in Hs.
  rewrite tx_input_sequences, list_lookup_fmap in Hs. apply fmap_Some in Hs as (input & Hi & ->).
  unfold renew_refund_jobs, create_decremented_timelock_node_txs. rewrite Hi. simpl.
  rewrite Hcd. simpl.
  destruct (node_jobs_total leaf key CpfpNode DirectNode _ c d Hparent)
    as (txs & nj & -> & Hnj & Ho & Hod & Htn). simpl. rewrite Hnj. simpl.
  destruct (refund_jobs_total leaf key txs true Ho Hod) as (rj & -> & Htr). simpl.
  eexists. split; [done|]. unfold job_timelocks in *. rewrite !fmap_app, Htn, Htr.
  unfold TIME_LOCK_INTERVAL, DIRECT_TIME_LOCK_OFFSET in *. by rewrite Hld, Hlc, <- Z.sub_sub_distr.
Qed.

Lemma renew_zero_timelock_timelocks leaf key :
  is_Some (tx_output (node_tx leaf) !! 0%nat) →
  ∃ jobs, renew_zero_timelock_jobs leaf key = Some (Ok jobs) ∧
    job_timelocks jobs =
      [(CpfpNode, [0]); (DirectNode, [50]); (CpfpRefund, [2000]); (DirectFromCpfpRefund, [2050])].
Proof.
  intros Hleaf. destruct initial_low as (_ & _ & Hzc & Hzd).
  unfold renew_zero_timelock_jobs, create_zero_timelock_node_txs.
  destruct initial_zero_timelock_sequence as [zc zd]. simpl in Hzc, Hzd.
  destruct (node_jobs_total leaf key CpfpNode DirectNode _ zc zd Hleaf)
    as (txs & nj & -> & Hnj & Ho & Hod & Htn). simpl. rewrite Hnj. simpl.
  destruct (refund_jobs_total leaf key txs false Ho Hod) as (rj & -> & Htr). simpl.
  eexists. split; [done|]. unfold job_timelocks in *. rewrite !fmap_app, Htn, Htr.
  by rewrite Hzc, Hzd.
Qed.

(** Each renewal builds its transactions whenever the transaction it builds on has an
    output, and resets the refund timelocks to 2000 blocks, 2050 for the direct ones. A
    node renewal puts a zero-timelock split node and a node at 2000 on the parent; a
    refund renewal lowers the node's own timelock by 100 and is possible exactly where it
    is chosen, at more than 100 blocks; a zero-timelock renewal stacks another
    zero-timelock node on the leaf's. *)
Theorem renewal_resets_timelocks leaf parent key s :
  node_sequence leaf = Some s → is_Some (tx_output (node_tx parent) !! 0%nat) →
  (∃ jobs, renew_node_jobs leaf parent key = Some (Ok jobs) ∧
     job_timelocks jobs =
       [(CpfpSplitNode, [0]); (DirectSplitNode, [50]); (CpfpNode, [2000]); (DirectNode, [2050])] ++
       renewed_refunds) ∧
  (needs_node_tx_renewed leaf = Some false →
   ∃ jobs, renew_refund_jobs leaf parent key = Some (Ok jobs) ∧
     job_timelocks jobs =
       [(CpfpNode, [low_timelock s - 100]); (DirectNode, [low_timelock s - 50])] ++ renewed_refunds) ∧
  (∃ jobs, renew_zero_timelock_jobs parent key = Some (Ok jobs) ∧
     job_timelocks jobs =
       [(CpfpNode, [0]); (DirectNode, [50]); (CpfpRefund, [2000]); (DirectFromCpfpRefund, [2050])]).
Proof.
  auto using renew_node_timelocks, renew_refund_timelocks, renew_zero_timelock_timelocks.
Qed.
End jobs.

(** ** The line a renewal builds on *)

Section line.
Context `{Bitcoin}.

Lemma insert_keyed nodes n : well_keyed nodes → well_keyed (<[id n := n]> nodes).
Proof. by intros Hn i m [[<- <-]|[? ?%Hn]]%lookup_insert_Some. Qed.

Lemma empty_keyed : well_keyed ∅.
Proof. intros i n. by rewrite lookup_empty. Qed.

Lemma adopt_line_keyed fuel fetched nodes cur :
  well_keyed fetched → well_keyed nodes → well_keyed (adopt_line fuel fetched nodes cur).
Proof.
  intros Hf. revert nodes cur. induction fuel as [|fuel IH]; intros nodes [i|] Hn; simpl; try done.
  destruct (bool_decide _); [done|]. destruct (fetched !! i) as [n|] eqn:Hi; [|done].
  apply IH. rewrite <- (Hf _ _ Hi). by apply insert_keyed.
Qed.

Lemma resolve_parent_id leaf nodes fetched parent nodes' :
  well_keyed nodes → well_keyed fetched →
  resolve_renewal_parent leaf nodes fetched = Ok (parent, nodes') →
  parent_node_id leaf = Some (id parent).
Proof.
  intros Hn Hf. unfold resolve_renewal_parent. intros (i & Hi & Hp)%bind_Ok.
  apply ok_or_Ok in Hi. apply bind_Ok in Hp as (p & Hp & [= <- _]). apply ok_or_Ok in Hp.
  rewrite Hi. f_equal. symmetry. revert Hp. destruct (bool_decide _); [apply Hn|].
  by apply adopt_line_keyed.
Qed.

Lemma adopt_line_grows fuel fetched nodes cur : nodes ⊆ adopt_line fuel fetched nodes cur.
Proof.
  revert nodes cur. induction fuel as [|fuel IH]; intros nodes [i|]; simpl; try done.
  case_bool_decide as Hi; [done|]. destruct (fetched !! i) as [n|]; [|done].
  etrans; [|apply IH]. apply insert_subseteq. by apply eq_None_not_Some.
Qed.

(** The loop takes over a whole line of [fetched] that [nodes] has no part of. *)
Lemma adopt_line_ends fuel fetched nodes cur p :
  path fetched cur p → (length p < fuel)%nat → NoDup p.*1 → (∀ i, i ∈ p.*1 → nodes !! i = None) →
  path (adopt_line fuel fetched nodes cur) cur p.
Proof.
  intros Hp. revert fuel nodes. induction Hp as [|i n p Hi Hp IH]; intros fuel nodes Hf Hnd Hnew.
  { constructor. }
  destruct fuel as [|fuel]; simpl in Hf; [lia|]. csimpl in *. apply NoDup_cons in Hnd as [Hni Hnd].
  rewrite (Hnew i) by set_solver. rewrite bool_decide_false by by intros [].
  rewrite Hi. constructor.
  - eapply lookup_weaken; [|apply adopt_line_grows]. apply lookup_insert_eq.
  - apply IH; [lia|done|]. intros j Hj. rewrite lookup_insert_ne by by intros ->. set_solver.
Qed.

(** Where the line a renewal builds on comes from: the stored chain, or, for a leaf that
    came without one, the batch that was fetched. *)
Definition line_known (p : LeafPedigree) (fetched : gmap TreeNodeId TreeNode) l : Prop :=
  path (index_by_id (ancestors p)) (parent_node_id (leaf p)) l ∨
  ancestors p = [] ∧ is_zero_timelock (leaf p) = Some false ∧ well_keyed fetched ∧
  path fetched (parent_node_id (leaf p)) l.

Lemma resolve_known p fetched l parent_id parent :
  line_known p fetched l → head l = Some (parent_id, parent) →
  ∃ nodes, resolve_renewal_parent (leaf p) (index_by_id (ancestors p)) fetched =
      Ok (parent, nodes) ∧
    well_keyed nodes ∧ path nodes (parent_node_id (leaf p)) l.
Proof.
  intros Hline Hhead. destruct l as [|[i n] l]; [done|]. injection Hhead as -> ->.
  assert (∀ nodes, path nodes (parent_node_id (leaf p)) ((parent_id, parent) :: l) →
    parent_node_id (leaf p) = Some parent_id ∧ nodes !! parent_id = Some parent) as Hfirst
    by (intros nodes Hp; by inversion Hp; subst).
  unfold resolve_renewal_parent. destruct Hline as [Hp|(Hnone & _ & Hk & Hp)].
  - destruct (Hfirst _ Hp) as [Hpar Hi]. rewrite Hpar in *. simpl.
    rewrite bool_decide_true, Hi by by rewrite Hi.
    eexists. split; [done|]. split; [apply index_by_id_keyed|done].
  - destruct (Hfirst _ Hp) as [Hpar _]. rewrite Hnone, Hpar in *.
    remember (S (size fetched)) as fuel eqn:Hfuel. simpl.
    change (index_by_id []) with (∅ : gmap TreeNodeId TreeNode).
    rewrite bool_decide_false by (rewrite lookup_empty; by intros []).
    assert (path (adopt_line fuel fetched ∅ (Some parent_id)) (Some parent_id)
      ((parent_id, parent) :: l)) as Hnew.
    { apply adopt_line_ends; [done| |by eapply path_NoDup|by intros; apply lookup_empty].
      pose proof (path_length _ _ _ Hp). lia. }
    destruct (Hfirst _ Hnew) as [_ ->]. simpl. eexists. split; [done|]. split; [|done].
    apply adopt_line_keyed; [done|apply empty_keyed].
Qed.

(** The renewed leaf sits where the leaf was, or under a new node that does. *)
Definition renewed_in_place (leaf : TreeNode) (line : list (TreeNodeId * TreeNode))
    (renewed : TreeNode * option TreeNode) : Prop :=
  let '(leaf', split) := renewed in
  id leaf' = id leaf ∧
  match split with
  | None => parent_node_id leaf' = parent_node_id leaf
  | Some s =>
      parent_node_id leaf' = Some (id s) ∧ parent_node_id s = parent_node_id leaf ∧
      id s ≠ id leaf ∧ id s ∉ line.*1
  end.

(** The chain of a leaf renewed in place still reaches a root. *)
Lemma rebuilt_chain n l n' split nodes :
  well_keyed nodes → path nodes (parent_node_id n) l → id n ∉ l.*1 →
  renewed_in_place n l (n', split) →
  let nodes := match split with Some s => <[id s := s]> nodes | None => nodes end in
  let nodes := <[id n' := n']> nodes in
  nodes !! id n' = Some n' ∧ chain_reaches_root n' (walk_ancestors n' nodes) = true.
Proof.
  intros Hk Hp Hnew [Hid Hsplit] nodes1 nodes2.
  assert (well_keyed nodes2) as Hk2.
  { apply insert_keyed. subst nodes1. destruct split; [by apply insert_keyed|done]. }
  assert (∃ p, path nodes2 (parent_node_id n') p) as [p Hp2].
  { assert (path nodes2 (parent_node_id n) l) as Hl.
    { eapply path_mono; [done|]. intros i m Hin. pose proof (path_lookup _ _ _ _ _ Hp Hin).
      assert (i ∈ l.*1) by (apply list_elem_of_fmap; by exists (i, m)).
      subst nodes2 nodes1. rewrite lookup_insert_ne by congruence.
      destruct split as [s|]; [|done]. rewrite lookup_insert_ne; [done|].
      destruct Hsplit as (_ & _ & _ & Hs). congruence. }
    destruct split as [s|]; [|exists l; by rewrite Hsplit].
    destruct Hsplit as (-> & Hsp & Hne & _). exists ((id s, s) :: l). constructor; [|by rewrite Hsp].
    subst nodes2 nodes1. rewrite lookup_insert_ne by congruence. apply lookup_insert_eq. }
  split; [apply lookup_insert_eq|]. rewrite (walk_ancestors_path _ _ _ Hp2).
  by apply (path_reaches_root nodes2).
Qed.
End line.
