(* ===== verification/TimelockManagerSpec.v ===== *)
(** * What the timelock manager signs and returns

    [renewals_sign_own_coins]: whatever the coordinator answers, the wallet signs only
    transactions that keep a leaf's coins where they are or pay them to the leaf's own
    key. [check_renew_keeps_leaves]: no leaf is lost. [renewed_chain_complete]: a
    renewed leaf can still exit. [short_commitments_panic]: an answer with too few
    commitments takes the whole batch down. *)

From S2P Require Import Prelude Bitcoin BitcoinTx Timelock SparkTx TreeModel NodeWire.
From S2P Require Import ExitChain ExitSample Paging TreeService TreeServiceSpec.
From S2P Require Import FrostBatch FrostSample TimelockManager TimelockRenewal.

(** ** What is signed *)

(** The other calls do not sign. *)
Class RenewalLaws `{RenewalEnv W} := {
  renewal_frost_laws :: FrostLaws (W := W);
  log_query r w : frost_log (client_query_nodes_map r w).2 = frost_log w;
  log_renew r k w : frost_log (client_renew_leaf r k w).2 = frost_log w;
}.

Section signed.
Context `{RenewalLaws W} `{!HashIter string} `{!HashIter Identifier}.
Context (show_duration : Duration → string).
Implicit Types (P : FrostJob Sighash → Prop) (root : Transaction).

(** A share the wallet may sign for [leaf], over coins that come from [root]. *)
Definition sound_share root (leaf : TreeNode) (j : FrostJob Sighash) : Prop :=
  fj_derivation j = SigningLeaf (id leaf) ∧ fj_verifying_key j = verifying_public_key leaf ∧
  fj_adaptor_public_key j = None ∧
  ∃ prev o t script,
    keeps_script root prev ∧ spends prev o t script ∧
    (script = script_pubkey o ∨ script = p2tr_script (key_of (id leaf))) ∧
    taproot_key_spend_signature_hash t 0 [o] = Ok (fj_sighash j).

Lemma frost_jobs_sound root leaf jobs comms fjs :
  Forall (sound_job root leaf (key_of (id leaf))) jobs →
  frost_jobs jobs comms = Some (Ok fjs) → Forall (sound_share root leaf) fjs.
Proof.
  intros Hjobs. revert comms fjs. induction Hjobs as [|j jobs Hj _ IH]; intros comms fjs; simpl.
  { by intros [= <-]. }
  unfold sighash_from_tx. destruct Hj as (Hid & Hkey & prev & script & Hprev & Hspends & Hscript).
  pose proof Hspends as (_ & (s & Hi) & _). rewrite Hi. simpl.
  destruct (taproot_key_spend_signature_hash _ _ _) as [sighash|] eqn:Hsig; [|done].
  intros (c & _ & (rest & Hrest & Hfjs)%bind_Some)%bind_Some. injection Hfjs as Hfjs.
  apply bind_Ok in Hfjs as (fjs' & -> & [= <-]). constructor; [|by eapply IH].
  split_and!; simpl; [by rewrite Hid|done..|]. exists prev, (parent_tx_out j), (sj_tx j), script.
  by split_and!.
Qed.

Lemma sign_jobs_sound root leaf jobs comms :
  Forall (sound_job root leaf (key_of (id leaf))) jobs →
  signs_only (sound_share root leaf) (signer (sign_signing_jobs jobs comms)).
Proof.
  intros Hjobs. apply signs_bind; [|intros; apply signs_ret]. apply signs_panic.
  intros fjs Hfjs. apply signs_try; [|intros; apply signs_ret]. apply signs_try; [|intros; apply signs_ret].
  intros w. apply ends_in_call. exists fjs. split; [apply log_sign|]. by eapply frost_jobs_sound.
Qed.

(** Renewing one leaf signs only its jobs, for the key the signer gives. *)
Lemma renew_signs root leaf jobs message result :
  (∀ js, jobs (key_of (id leaf)) = Some (Ok js) →
    Forall (sound_job root leaf (key_of (id leaf))) js) →
  signs_only (sound_share root leaf) (renew leaf jobs message result).
Proof.
  intros Hjobs w. unfold renew. apply ends_in_try. unfold signer at 1.
  apply ends_in_bind, ends_in_call. pose proof (log_key (id leaf) w) as Hw.
  destruct (signer_public_key_for_leaf (id leaf) w) as [[k|e] w1] eqn:Hk; simpl in *.
  2:{ exists []. by rewrite app_nil_r. }
  apply key_of_leaf in Hk as ->. rewrite <- Hw. apply signs_panic. intros js Hjs. apply signs_try.
  { apply signs_alone. unfold get_signing_commitments_for_jobs. apply alone_try; [|auto with alone].
    apply rpc_alone. intros. apply log_commitments. }
  intros comms. apply signs_try; [by apply sign_jobs_sound, Hjobs|]. intros signed.
  apply signs_try; [apply signs_ret|]. intros msg. apply signs_alone, alone_try; [|auto with alone].
  apply rpc_alone. intros. apply log_renew.
Qed.

(** ** The pedigrees that come up for renewal *)

Definition renewal_due (p : LeafPedigree) : bool :=
  match needs_refund_tx_renewed (leaf p) with Some (Ok b) => b | _ => false end.

Lemma split_renewable_spec pedigrees ready renewable :
  split_renewable show_duration pedigrees = Some (Ok (ready, renewable)) →
  ready = filter (λ p, renewal_due p = false) pedigrees ∧
  renewable = filter (λ p, renewal_due p = true) pedigrees ∧ pedigrees ≡ₚ ready ++ renewable.
Proof.
  revert ready renewable. induction pedigrees as [|p l IH]; intros ready renewable; simpl.
  { by intros [= <- <-]. }
  intros (r & Hr & (needs & Hn & (rest & Hrest & Hout)%bind_Some)%or_return_Ok)%bind_Some.
  injection Hout as Hout. apply bind_Ok in Hout as ([rd rn] & -> & Hout). injection Hout as Hout.
  destruct (IH rd rn Hrest) as (IHr & IHn & IHp). destruct r as [b|e]; simpl in Hn; [|done].
  injection Hn as ->. assert (renewal_due p = needs) as Hp by (unfold renewal_due; by rewrite Hr).
  rewrite !filter_cons, Hp. clear Hr Hp Hrest.
  destruct needs; injection Hout as <- <-; csimpl; split_and!; try congruence;
    rewrite IHp; auto using Permutation_middle.
Qed.

(** ** The source of the coins *)

(** The coins a renewal of [p] moves: its node's, or its parent's. *)
Definition source_tx (p : LeafPedigree) root : Prop :=
  root = node_tx (leaf p) ∨
  ∃ parent, parent_node_id (leaf p) = Some (id parent) ∧ root = node_tx parent.

Definition sound_renewal (p : LeafPedigree) (j : FrostJob Sighash) : Prop :=
  ∃ root, source_tx p root ∧ sound_share root (leaf p) j.

Lemma renew_pedigree_signs p fetched :
  well_keyed fetched → signs_only (sound_renewal p) (renew_pedigree p fetched).
Proof.
  intros Hf. unfold renew_pedigree. apply signs_bind; [apply signs_panic_or|].
  intros zero. apply signs_try; [|intros [[? ?] ?]; apply signs_ret].
  destruct zero.
  - apply signs_try; [|intros; apply signs_ret].
    eapply signs_weaken; [apply (renew_signs (node_tx (leaf p)))|].
    + apply renew_zero_timelock_jobs_sound.
    + intros j Hj. exists (node_tx (leaf p)). split; [by left|done].
  - destruct (resolve_renewal_parent _ _ _) as [[parent nodes]|e] eqn:Hp; [|apply signs_ret].
    apply resolve_parent_id in Hp; [|apply index_by_id_keyed|done].
    apply signs_ok, signs_bind; [apply signs_panic_or|]. intros node.
    apply signs_try; [|intros; apply signs_ret].
    eapply (signs_weaken (sound_share (node_tx parent) (leaf p))).
    + destruct node; apply renew_signs; intros;
        [by apply renew_node_jobs_sound|by apply renew_refund_jobs_sound].
    + intros j Hj. exists (node_tx parent). split; [right; eauto|done].
Qed.

Lemma fetch_keyed renewable w :
  ends_in (fetch_missing_renewal_parents renewable) w (λ r w',
    frost_log w' = frost_log w ∧ ∀ f, r = Ok f → well_keyed f).
Proof.
  unfold fetch_missing_renewal_parents. apply ends_in_bind, ends_in_panic. intros lacking _.
  destruct (_ <$> lacking) as [|i ids].
  { apply ends_in_ret. split; [done|]. intros f [= <-]. apply empty_keyed. }
  apply ends_in_try. unfold query_nodes_paginated. apply ends_in_bind.
  eapply alone_ends; [apply pager_alone|].
  { intros f w'. unfold query_nodes_paginated_inner.
    pose proof (log_query {| include_parents := true; request_limit := as_i64 (limit f);
       request_offset := as_i64 (offset f); source := NodeIds (i :: ids); statuses := [] |} w') as Hq.
    destruct (client_query_nodes_map _ _) as [[?|?] ?]; exact Hq. }
  intros r w' Hw'. apply ends_in_ret. destruct (map_err _ _) as [items|e]; [|done].
  apply ends_in_ret. split; [done|]. intros f Hitems.
  refine (foldlR_inv _ (λ _ nodes, well_keyed nodes) items ∅ f _ empty_keyed Hitems).
  intros l [? n] nodes nodes' _ Hn. intros (m & _ & [= <-])%bind_Ok. by apply insert_keyed.
Qed.

(** C14: Whatever the coordinator answers, every share the wallet signs while it renews is
    made with the key of one of the given leaves, under its verifying key, and is over a
    transaction that spends output 0 of the leaf's node or of its parent, directly or
    through transactions of the renewal itself. That transaction pays all but at most
    the fixed fee to the script it spends from or to the leaf's own key. *)
Theorem renewals_sign_own_coins pedigrees w :
  ends_in (check_renew_nodes show_duration pedigrees) w (λ _ w',
    ∃ js, frost_log w' = frost_log w ++ js ∧
      Forall (λ j, ∃ p, p ∈ pedigrees ∧ sound_renewal p j) js).
Proof.
  revert w. change (signs_only (λ j, ∃ p, p ∈ pedigrees ∧ sound_renewal p j)
    (check_renew_nodes show_duration pedigrees)).
  unfold check_renew_nodes. apply signs_panic. intros [ready renewable] Hsplit.
  assert (∀ p, p ∈ renewable → p ∈ pedigrees) as Hin.
  { apply split_renewable_spec in Hsplit as (_ & -> & _). by intros p [_ ?]%list_elem_of_filter. }
  destruct renewable as [|p rest]; [apply signs_ret|]. revert Hin. generalize (p :: rest).
  intros renewable Hin w. apply ends_in_try. eapply ends_in_weaken; [apply fetch_keyed|].
  intros [fetched|e] w1 [<- Hk]; [|exists []; by rewrite app_nil_r].
  apply signs_bind; [|intros; apply signs_ret]. apply signs_join, Forall_forall. intros q Hq.
  eapply signs_weaken; [by apply renew_pedigree_signs, Hk|]. eauto.
Qed.
End signed.

(** ** A renewal the coordinator goes along with *)

Section completes.
Context `{RenewalEnv W} `{!HashIter string} `{!HashIter Identifier}.
Implicit Types (leaf : TreeNode) (line : list (TreeNodeId * TreeNode)).

(** The result the code looks for after a request. *)
Definition expected_result (jobs : SigningJobs) (res : RenewResult)
    : ServiceResult (TreeNode * option TreeNode) :=
  match jobs with
  | RenewNodeTimelock _ => node_result (Some res)
  | RenewRefundTimelock _ => refund_result (Some res)
  | RenewNodeZeroTimelock _ => zero_timelock_result (Some res)
  end.

(** Every call succeeds, and the answers fit the requests. *)
Class Cooperative leaf line : Prop := {
  gives_key i w : ∃ k w', signer_public_key_for_leaf i w = (Ok k, w');
  gives_commitments i n w : 0 ≤ n → ∃ cs w', client_get_signing_commitments [i] n 0 w = (Ok cs, w') ∧
    Z.of_nat (length cs) = n ∧ Forall (λ c, is_Ok (map_signing_nonce_commitments c) = true) cs;
  gives_sighash t o : length (tx_input t) = 1%nat → ∃ s,
    taproot_key_spend_signature_hash t 0 [o] = Ok s;
  gives_shares js w : ∃ shares w', sign_frost js w = (Ok shares, w') ∧ length shares = length js;
  serializes n : is_Ok (nonce_serialize n) = true;
  renews req jobs k w : TimelockManager.leaf_id req = id leaf → signing_jobs req = Some jobs →
    ∃ res w' renewed, client_renew_leaf req k w = (Ok (Some res), w') ∧
      expected_result jobs res = Ok renewed ∧ renewed_in_place leaf line renewed;
}.

Context {leaf line} `{!Cooperative leaf line}.

Lemma find_job_total ty signed : ∃ j, find_job ty signed = Ok j.
Proof.
  unfold find_job. destruct (find _ signed) as [j|]; [|by eexists].
  destruct (signed_tx_try_into_total (signed_tx j) serializes) as [m ->]. by eexists.
Qed.

Lemma frost_jobs_total root l key jobs comms :
  Forall (sound_job root l key) jobs → (length jobs ≤ length comms)%nat →
  ∃ fjs, frost_jobs jobs comms = Some (Ok fjs) ∧ length fjs = length jobs.
Proof.
  intros Hjobs. revert comms. induction Hjobs as [|j jobs Hj _ IH]; intros comms Hlen; simpl.
  { by exists []. }
  destruct comms as [|c comms]; simpl in Hlen; [lia|].
  destruct Hj as (_ & _ & prev & script & _ & (_ & (s & Hi) & _) & _).
  unfold sighash_from_tx. rewrite Hi. simpl.
  destruct (gives_sighash (sj_tx j) (parent_tx_out j)) as [? ->]; [by rewrite Hi|]. simpl.
  destruct (IH comms) as (fjs & -> & Hl); [lia|]. simpl. eexists. split; [done|]. simpl. by f_equal.
Qed.

Lemma renew_completes root (jobs : PublicKey → option (ServiceResult (list SigningJob)))
    (message : list SignedJob → ServiceResult SigningJobs) result w :
  (∀ key, ∃ js, jobs key = Some (Ok js) ∧ Forall (sound_job root leaf key) js ∧
     Z.of_nat (length js) < 2 ^ 32) →
  (∀ signed, ∃ m, message signed = Ok m ∧ ∀ res, result (Some res) = expected_result m res) →
  returns (renew leaf jobs message result) w (λ r _, ∃ renewed,
    r = Ok renewed ∧ renewed_in_place leaf line renewed).
Proof.
  intros Hjobs Hmsg. unfold renew, signer, rpc, get_signing_commitments_for_jobs.
  apply returns_try, returns_bind, returns_call.
  destruct (gives_key (id leaf) w) as (k & w1 & ->). apply returns_ret. simpl.
  destruct (Hjobs k) as (js & Hjs & Hsound & Hlen).
  eapply returns_try, returns_panic; [exact Hjs|].
  apply returns_try, returns_try, returns_bind, returns_call.
  destruct (gives_commitments (id leaf) (wrap 32 (Z.of_nat (length js))) w1)
    as (cs & w2 & -> & Hcs & Hok); [by apply wrap_range|]. apply returns_ret. simpl. apply returns_ret.
  destruct (mapR_total _ _ Hok) as (comms & -> & Hcomms). rewrite wrap_small in Hcs by (split; lia).
  destruct (frost_jobs_total root leaf k js comms Hsound ltac:(lia)) as (fjs & Hfjs & Hfl).
  apply returns_try, returns_bind. unfold sign_signing_jobs, sign_frost_batch.
  eapply returns_try, returns_panic; [exact Hfjs|].
  apply returns_try, returns_try, returns_call.
  destruct (gives_shares fjs w2) as (shares & w3 & -> & Hshares). simpl. apply returns_ret.
  unfold zip_checked. rewrite Hshares, Hfl, Nat.eqb_refl. simpl. apply returns_ret, returns_ret. simpl.
  destruct (Hmsg (zip_with (λ '(signing_job, share) commitments,
    mkSignedJob (job_type signing_job)
      {| stx_node_id := sj_node_id signing_job;
         stx_signing_public_key := sj_signing_public_key signing_job;
         stx_tx := sj_tx signing_job;
         stx_user_signature := share_signature_share share;
         stx_self_nonce_commitment := share_commitment share;
         stx_signing_commitments := commitments |}) (zip js shares) comms)) as (m & -> & Hres).
  apply returns_try, returns_ret, returns_try, returns_bind, returns_call.
  edestruct renews as (res & w4 & renewed & -> & Hexp & Hplace); [| |simpl; apply returns_ret, returns_ret].
  - done.
  - done.
  - exists renewed. by rewrite Hres.
Qed.

Ltac messages :=
  repeat match goal with
  | |- context [find_job ?ty ?l] =>
      let j := fresh "j" in
      let E := fresh "E" in
      destruct (find_job_total ty l) as [j E]; rewrite E; clear E; simpl
  end; eexists; split; [done|]; done.

Lemma renewals_complete (parent : TreeNode) w :
  is_Some (tx_output (node_tx parent) !! 0%nat) →
  let renewed r := ∃ renewed, r = Ok renewed ∧ renewed_in_place leaf line renewed in
  returns (renew_node leaf parent) w (λ r _, renewed r) ∧
  (is_Some (node_sequence leaf) → needs_node_tx_renewed leaf = Some false →
   returns (renew_refund leaf parent) w (λ r _, renewed r)) ∧
  (node_tx leaf = node_tx parent → returns (renew_zero_timelock leaf) w (λ r _, renewed r)).
Proof.
  intros Hout renewed.
  assert (∀ js : list SigningJob, (length (job_timelocks js) < 10)%nat →
    Z.of_nat (length js) < 2 ^ 32) as Hlen.
  { intros js. unfold job_timelocks. rewrite length_fmap. lia. }
  split_and!.
  - apply (renew_completes (node_tx parent)); [|intros signed; unfold node_message; messages].
    intros key. destruct (renew_node_timelocks leaf parent key Hout) as (js & Hjs & Ht).
    exists js. split_and!; [done|by apply renew_node_jobs_sound|]. apply Hlen. rewrite Ht. simpl. lia.
  - intros [s Hs] Hneed.
    apply (renew_completes (node_tx parent)); [|intros signed; unfold refund_message; messages].
    intros key. destruct (renew_refund_timelocks leaf parent key s Hout Hs Hneed) as (js & Hjs & Ht).
    exists js. split_and!; [done|by apply renew_refund_jobs_sound|]. apply Hlen. rewrite Ht. simpl. lia.
  - intros Htx.
    apply (renew_completes (node_tx leaf)); [|intros signed; unfold zero_timelock_message; messages].
    intros key. rewrite <- Htx in Hout.
    destruct (renew_zero_timelock_timelocks leaf key Hout) as (js & Hjs & Ht).
    exists js. split_and!; [done|by apply renew_zero_timelock_jobs_sound|]. apply Hlen. rewrite Ht.
    simpl. lia.
Qed.

End completes.

Section pedigrees.
Context `{RenewalEnv W} `{!HashIter string} `{!HashIter Identifier}.
Implicit Types (p q : LeafPedigree) (line : list (TreeNodeId * TreeNode)).

(** The end of [renew_pedigree]. *)
Lemma rebuild_completes p line leaf' split nodes w :
  well_keyed nodes → path nodes (parent_node_id (leaf p)) line → id (leaf p) ∉ line.*1 →
  renewed_in_place (leaf p) line (leaf', split) →
  let nodes := match split with Some s => <[id s := s]> nodes | None => nodes end in
  let nodes := <[id leaf' := leaf']> nodes in
  returns (mret (ok_or (last (assemble_exit_chains nodes [id leaf']))
    (ServiceError.Generic ("Failed to rebuild chain for node " +:+ id leaf')))) w
    (λ r (_ : W), ∃ q, r = Ok q ∧ id (leaf q) = id (leaf p) ∧
       chain_reaches_root (leaf q) (ancestors q) = true).
Proof.
  intros Hk Hp Hnew Hplace nodes1 nodes2.
  destruct (rebuilt_chain (leaf p) line leaf' split nodes Hk Hp Hnew Hplace) as [Hl Hroot].
  apply returns_ret. rewrite assemble_one by done. simpl. eexists. split; [done|]. simpl.
  split; [by destruct Hplace|done].
Qed.

(** C17: A renewal the coordinator goes along with completes: neither the arithmetic of the
    timelocks, nor the building, signing and sending of the transactions, nor the search
    for the parent fails, and the leaf comes back with a chain that still reaches a root.
    The line up to the root is the stored chain or, for a leaf that arrived without one,
    the batch fetched from the operators. *)
Theorem renewal_completes p fetched line w :
  Cooperative (leaf p) line →
  is_Some (node_sequence (leaf p)) →
  is_zero_timelock (leaf p) = Some true ∨ is_Some (parent_node_id (leaf p)) →
  (∀ n, n ∈ leaf p :: line.*2 → is_Some (tx_output (node_tx n) !! 0%nat)) →
  line_known p fetched line → id (leaf p) ∉ line.*1 →
  returns (renew_pedigree p fetched) w (λ r _, ∃ q,
    r = Ok q ∧ id (leaf q) = id (leaf p) ∧ chain_reaches_root (leaf q) (ancestors q) = true).
Proof.
  intros Hcoop [s Hs] Hparent Hout Hline Hnew. unfold renew_pedigree.
  destruct (renewal_threshold_leaves_room (leaf p) s Hs) as (Hneed & Hzero & _).
  eapply returns_bind, returns_panic; [exact Hzero|].
  apply returns_try. case_bool_decide as Hz.
  - apply returns_try. destruct (renewals_complete (leaf p) w) as (_ & _ & Hrenew).
    { apply Hout. by left. }
    eapply returns_weaken; [by apply Hrenew|]. intros r w1 ([leaf' split] & -> & Hplace).
    apply returns_ret. destruct Hline as [Hp|(_ & Hnz & _)]; [|congruence].
    by apply (rebuild_completes p line); [apply index_by_id_keyed| | |].
  - destruct Hparent as [Hzt|[i Hi]]; [congruence|].
    assert (∃ parent l, line = (i, parent) :: l) as (parent & l & Hl).
    { destruct Hline as [Hp|(_ & _ & _ & Hp)]; rewrite Hi in Hp; inversion Hp; subst; eauto. }
    destruct (resolve_known p fetched line i parent Hline) as (nodes & -> & Hk & Hp); [by subst|].
    apply returns_try, returns_ret. eapply returns_bind, returns_panic; [exact Hneed|].
    apply returns_try. destruct (renewals_complete parent w) as (Hnode & Hrefund & _).
    { apply Hout. subst line. csimpl. right. by left. }
    eapply returns_weaken.
    { case_bool_decide; [apply Hnode|apply Hrefund; [by eexists|done]]. }
    intros r w1 ([leaf' split] & -> & Hplace). apply returns_ret.
    by apply (rebuild_completes p line).
Qed.
End pedigrees.

(** ** No leaf is lost *)

Section keeps.
Context `{RenewalEnv W} `{!HashIter string} `{!HashIter Identifier}.
Context (show_duration : Duration → string).
Implicit Types (p q : LeafPedigree).

Definition result_node (res : RenewResult) : option Proto.TreeNode :=
  match res with
  | RenewNodeTimelockResult _ node | RenewRefundTimelockResult node
  | RenewNodeZeroTimelockResult _ node => node
  end.

(** The coordinator answers a renewal with the leaf it was asked to renew, at a [u64] value. *)
Class AnswersSameLeaf : Prop := answers_same_leaf req k w res w' node :
  client_renew_leaf req k w = (Ok (Some res), w') → result_node res = Some node →
  Proto.id node = TimelockManager.leaf_id req ∧ in_uint 64 (Proto.value node).

Lemma node_try_from_fields pn n :
  node_try_from pn = Ok n → id n = Proto.id pn ∧ value n = Proto.value pn.
Proof.
  unfold node_try_from, TreeNodeId_from_str. intros (i & Hi & Hn)%bind_Ok.
  repeat (apply bind_Ok in Hn as (? & _ & Hn)). injection Hn as <-. simpl.
  case_bool_decide; by simplify_eq.
Qed.

Lemma expect_node_Ok pn n :
  expect_node pn = Ok n → ∃ m, pn = Some m ∧ node_try_from m = Ok n.
Proof. unfold expect_node. intros (m & Hm & Hn)%bind_Ok. apply ok_or_Ok in Hm. eauto. Qed.

(** Each reader of the result takes the leaf from its [node]. *)
Definition reads_node (result : option RenewResult → ServiceResult (TreeNode * option TreeNode)) : Prop :=
  ∀ res n s, result res = Ok (n, s) →
    ∃ r pn, res = Some r ∧ result_node r = Some pn ∧ node_try_from pn = Ok n.

Lemma results_read_node :
  reads_node node_result ∧ reads_node refund_result ∧ reads_node zero_timelock_result.
Proof.
  split_and!; intros [[split pn|pn|split pn]|] n s; try done; simpl;
    intros (n' & (m & -> & Hm)%expect_node_Ok & Hs)%bind_Ok.
  - apply bind_Ok in Hs as (s' & _ & Hs). simplify_eq. eauto.
  - simplify_eq. eauto.
  - apply bind_Ok in Hs as (s' & _ & Hs). simplify_eq. eauto.
Qed.

Lemma ends_in_top {A} (m : proc W A) w (Q : A → W → Prop) :
  (∀ a w', Q a w') → ends_in m w Q.
Proof. intros HQ. unfold ends_in. destruct (m w) as [[a w']|]; auto. Qed.

Lemma ends_in_join_all {A A'} (f : A → proc W A') (Q : A → A' → Prop) l w :
  (∀ a w, ends_in (f a) w (λ b _, Q a b)) → ends_in (join_all f l) w (λ bs _, Forall2 Q l bs).
Proof.
  intros Hf. revert w. induction l as [|a l IH]; intros w; simpl; [by apply ends_in_ret|].
  apply ends_in_bind. eapply ends_in_weaken; [apply Hf|]. intros b w1 Hb.
  apply ends_in_bind. eapply ends_in_weaken; [apply IH|]. intros bs w2 Hbs.
  apply ends_in_ret. by constructor.
Qed.

Context `{!AnswersSameLeaf}.

(** What may come back for [p]: the same leaf. *)
Definition same_leaf p (renewed : TreeNode) : Prop :=
  id renewed = id (leaf p) ∧ node_wf renewed.

Lemma renew_same_leaf p jobs message result w :
  reads_node result →
  ends_in (renew (leaf p) jobs message result) w (λ r _, ∀ x, r = Ok x → same_leaf p x.1).
Proof.
  intros Hread. unfold renew.
  do 4 (apply ends_in_try, ends_in_top; intros [?|?] ?; [|done]).
  apply ends_in_try, ends_in_top. intros [?|?] ?; [|done].
  apply ends_in_try. unfold rpc. apply ends_in_bind, ends_in_call.
  match goal with |- context [client_renew_leaf ?req ?k ?w] =>
    pose proof (answers_same_leaf req k w) as Hans; destruct (client_renew_leaf req k w) as [[res|e] w2] end;
    apply ends_in_ret; [|done]. simpl in *. apply ends_in_ret.
  intros [n s] (r & pn & -> & Hpn & Hn)%Hread. destruct (Hans r w2 pn eq_refl Hpn) as [Hid Hval].
  apply node_try_from_fields in Hn as [Hn Hv]. split; simpl; [congruence|]. unfold node_wf. by rewrite Hv.
Qed.

Lemma renew_pedigree_same_leaf p fetched w :
  ends_in (renew_pedigree p fetched) w (λ r _, ∀ q, r = Ok q → same_leaf p (leaf q)).
Proof.
  destruct results_read_node as (Hnode & Hrefund & Hzero).
  unfold renew_pedigree. apply ends_in_bind, ends_in_panic. intros zero _. apply ends_in_try.
  apply (ends_in_weaken _ _ (λ r _, ∀ x, r = Ok x → same_leaf p x.1.1)).
  - destruct zero.
    + apply ends_in_try. eapply ends_in_weaken; [by apply renew_same_leaf|].
      intros [x|e] w1 Hx; [|done]. apply ends_in_ret. intros y [= <-]. by apply Hx.
    + apply ends_in_try, ends_in_top. intros [[parent nodes]|e] w1; [|done].
      apply ends_in_bind, ends_in_panic. intros node _. apply ends_in_try.
      apply (ends_in_weaken _ _ (λ r _, ∀ x, r = Ok x → same_leaf p x.1)).
      * destruct node; by apply renew_same_leaf.
      * intros [x|e] w2 Hx; [|done]. apply ends_in_ret. intros y [= <-]. by apply Hx.
  - intros [[[l s] nodes]|e] w1 Hx; [|done]. apply ends_in_ret. intros q.
    rewrite assemble_one by apply lookup_insert_eq. intros [= <-]. by apply (Hx (l, s, nodes)).
Qed.

(** A pass that succeeds returns every leaf it was given and no other: those not due
    come back as they went in and first, each of the others comes back renewed or, when
    its renewal fails, as it was. *)
Theorem check_renew_keeps_leaves pedigrees w :
  ends_in (check_renew_nodes show_duration pedigrees) w (λ r _, ∀ out, r = Ok out →
    (λ p, id (leaf p)) <$> out ≡ₚ (λ p, id (leaf p)) <$> pedigrees ∧
    (Forall node_wf (leaf <$> pedigrees) → Forall node_wf (leaf <$> out)) ∧
    ∃ renewed, out = filter (λ p, renewal_due p = false) pedigrees ++ renewed ∧
      Forall2 (λ p q, q = p ∨ same_leaf p (leaf q))
        (filter (λ p, renewal_due p = true) pedigrees) renewed).
Proof.
  unfold check_renew_nodes. apply ends_in_try, ends_in_panic.
  intros [[ready renewable]|e] Hsplit; [|done].
  apply split_renewable_spec in Hsplit as (Hready & Hren & Hperm).
  rewrite <- Hready, <- Hren.
  assert (∀ renewed, Forall2 (λ p q, q = p ∨ same_leaf p (leaf q)) renewable renewed →
    ∀ out, Ok (ready ++ renewed) =@{ServiceResult (list LeafPedigree)} Ok out →
    (λ p, id (leaf p)) <$> out ≡ₚ (λ p, id (leaf p)) <$> pedigrees ∧
    (Forall node_wf (leaf <$> pedigrees) → Forall node_wf (leaf <$> out)) ∧
    ∃ renewed, out = ready ++ renewed ∧
      Forall2 (λ p q, q = p ∨ same_leaf p (leaf q)) renewable renewed) as Hdone.
  { intros renewed Hrenewed out [= <-]. rewrite Hperm, !fmap_app. split_and!; [| |by eexists].
    - f_equiv. clear - Hrenewed. induction Hrenewed as [|p q l k Hpq _ IH]; csimpl; [done|].
      destruct Hpq as [->|[-> _]]; by rewrite IH.
    - rewrite !Forall_app. intros [? Hwf]. split; [done|]. clear - Hrenewed Hwf.
      induction Hrenewed as [|p q l k Hpq _ IH]; csimpl in *; [done|].
      apply Forall_cons in Hwf as [? ?]. constructor; [|auto]. by destruct Hpq as [->|[_ ?]]. }
  destruct renewable as [|p rest]; [apply ends_in_ret; intros out Hout; apply (Hdone []);
    [constructor|by rewrite app_nil_r]|].
  revert Hdone. generalize (p :: rest). clear Hren Hperm. intros renewable Hdone.
  apply ends_in_try, ends_in_top. intros [fetched|e] w1; [|done]. apply ends_in_bind.
  eapply ends_in_weaken.
  { apply (ends_in_join_all _ (λ p r, ∀ q, r = Ok q → same_leaf p (leaf q))).
    intros. apply renew_pedigree_same_leaf. }
  intros results w2 Hresults. apply ends_in_ret, Hdone. clear Hdone.
  induction Hresults as [|p1 r l k Hr _ IH]; simpl; constructor; [|done].
  destruct r as [q|e]; [right; by apply Hr|by left].
Qed.
End keeps.

(** ** Too few commitments *)

Section short.
Context `{RenewalEnv W} `{!HashIter string} `{!HashIter Identifier}.
Context (show_duration : Duration → string).
Implicit Types (p : LeafPedigree) (line : list (TreeNodeId * TreeNode)).

(** A coordinator that answers with fewer commitments than any renewal has jobs. *)
Class ShortCommitments : Prop := {
  short_key i w : ∃ k w', signer_public_key_for_leaf i w = (Ok k, w');
  short_sighash t o : length (tx_input t) = 1%nat → ∃ s,
    taproot_key_spend_signature_hash t 0 [o] = Ok s;
  short_commitments i n w : ∃ cs w', client_get_signing_commitments [i] n 0 w = (Ok cs, w') ∧
    (length cs < 4)%nat ∧ Forall (λ c, is_Ok (map_signing_nonce_commitments c) = true) cs;
}.
Context `{!ShortCommitments}.

Lemma panics_at {A A'} (m : proc W A) (f : A → proc W A') w : m w = None → (m ≫= f) w = None.
Proof. unfold mbind, proc_bind. by intros ->. Qed.

Lemma panics_after {A A'} (m : proc W A) (f : A → proc W A') w a w' :
  m w = Some (a, w') → f a w' = None → (m ≫= f) w = None.
Proof. unfold mbind, proc_bind. by intros ->. Qed.

Lemma frost_jobs_short root l key jobs comms :
  Forall (sound_job root l key) jobs → (length comms < length jobs)%nat →
  frost_jobs jobs comms = None.
Proof.
  intros Hjobs. revert comms. induction Hjobs as [|j jobs Hj _ IH]; intros comms; simpl; [lia|].
  intros Hlen. destruct Hj as (_ & _ & prev & script & _ & (_ & (s & Hi) & _) & _).
  unfold sighash_from_tx. rewrite Hi. simpl.
  destruct (short_sighash (sj_tx j) (parent_tx_out j)) as [? ->]; [by rewrite Hi|].
  destruct comms as [|c comms]; [done|]. simpl in *. rewrite IH by lia. done.
Qed.

Lemma renew_short root leaf jobs message result w :
  (∀ key, ∃ js, jobs key = Some (Ok js) ∧ Forall (sound_job root leaf key) js ∧
     (4 ≤ length (job_timelocks js))%nat) →
  renew leaf jobs message result w = None.
Proof.
  intros Hjobs. unfold renew, try_bind.
  destruct (short_key (id leaf) w) as (k & w1 & Hk). destruct (Hjobs k) as (js & Hjs & Hsound & Hlen).
  unfold job_timelocks in Hlen. rewrite length_fmap in Hlen.
  apply (panics_after _ _ _ (Ok k) w1).
  { unfold signer, call, mbind, proc_bind. by rewrite Hk. }
  apply (panics_after _ _ _ (Ok js) w1); [by rewrite Hjs|].
  destruct (short_commitments (id leaf) (wrap 32 (Z.of_nat (length js))) w1)
    as (cs & w2 & Hcs & Hshort & Hok). destruct (mapR_total _ _ Hok) as (comms & Hcomms & Hcl).
  apply (panics_after _ _ _ (Ok comms) w2).
  { unfold get_signing_commitments_for_jobs, rpc, try_bind, call, mbind, proc_bind.
    rewrite Hcs. simpl. by rewrite Hcomms. }
  apply panics_at. unfold signer, sign_signing_jobs, try_bind. apply panics_at, panics_at.
  by rewrite (frost_jobs_short root leaf k) by (done || lia).
Qed.

Lemma renewals_short (leaf parent : TreeNode) w :
  is_Some (tx_output (node_tx parent) !! 0%nat) →
  renew_node leaf parent w = None ∧
  (is_Some (node_sequence leaf) → needs_node_tx_renewed leaf = Some false →
   renew_refund leaf parent w = None) ∧
  renew_zero_timelock parent w = None.
Proof.
  intros Hout. split_and!; [|intros [s Hs] Hneed|].
  - apply (renew_short (node_tx parent)). intros key.
    destruct (renew_node_timelocks leaf parent key Hout) as (js & Hjs & Ht).
    exists js. rewrite Ht. split_and!; [done|by apply renew_node_jobs_sound|simpl; lia].
  - apply (renew_short (node_tx parent)). intros key.
    destruct (renew_refund_timelocks leaf parent key s Hout Hs Hneed) as (js & Hjs & Ht).
    exists js. rewrite Ht. split_and!; [done|by apply renew_refund_jobs_sound|simpl; lia].
  - apply (renew_short (node_tx parent)). intros key.
    destruct (renew_zero_timelock_timelocks parent key Hout) as (js & Hjs & Ht).
    exists js. rewrite Ht. split_and!; [done|by apply renew_zero_timelock_jobs_sound|simpl; lia].
Qed.

(** One short answer takes the whole batch down: when one leaf is due, its chain is
    stored and the coordinator returns fewer signing commitments than it was asked for,
    the pass panics, and the leaves that are not due are not returned either. The code
    means to keep a leaf the operators will not renew and go on. *)
Theorem short_commitments_panic pedigrees ready p line w :
  split_renewable show_duration pedigrees = Some (Ok (ready, [p])) →
  is_Some (node_sequence (leaf p)) →
  is_zero_timelock (leaf p) = Some true ∨ is_Some (parent_node_id (leaf p)) →
  (∀ n, n ∈ leaf p :: line.*2 → is_Some (tx_output (node_tx n) !! 0%nat)) →
  path (index_by_id (ancestors p)) (parent_node_id (leaf p)) line →
  check_renew_nodes show_duration pedigrees w = None.
Proof.
  intros Hsplit [s Hs] Hparent Hout Hp. unfold check_renew_nodes, try_bind.
  destruct (renewal_threshold_leaves_room (leaf p) s Hs) as (Hneed & Hzero & _).
  eapply panics_after; [by rewrite Hsplit|]. simpl.
  assert (lacks_parent [p] = Some []) as Hlacks.
  { simpl. rewrite Hzero. simpl. case_bool_decide as Hz; [done|]. simpl.
    destruct Hparent as [?|[i Hi]]; [congruence|]. rewrite Hi in Hp |- *.
    inversion Hp as [|? n l Hn]; subst. apply index_by_id_Some in Hn as [Hin Hid].
    replace (existsb _ _) with true; [done|]. symmetry. apply existsb_exists. exists n.
    split; [by apply list_elem_of_In|by apply bool_decide_true]. }
  apply (panics_after _ _ _ (Ok ∅) w).
  { unfold fetch_missing_renewal_parents, mbind, proc_bind, panic_or. by rewrite Hlacks. }
  simpl. apply panics_at, panics_at. unfold renew_pedigree.
  eapply panics_after; [by rewrite Hzero|]. case_bool_decide as Hz.
  - apply panics_at, panics_at.
    destruct (renewals_short (leaf p) (leaf p) w) as (_ & _ & ?); [apply Hout; by left|done].
  - destruct Hparent as [?|[i Hi]]; [congruence|].
    assert (∃ parent l, line = (i, parent) :: l) as (parent & l & Hl)
      by (rewrite Hi in Hp; inversion Hp; subst; eauto).
    destruct (resolve_known p ∅ line i parent) as (nodes & -> & _); [by left|by subst|].
    apply panics_at. apply (panics_after _ _ _ (Ok (parent, nodes)) w); [done|]. simpl.
    eapply panics_after; [by rewrite Hneed|].
    apply panics_at. destruct (renewals_short (leaf p) parent w) as (Hnode & Hrefund & _).
    { apply Hout. subst line. csimpl. right. by left. }
    case_bool_decide; [apply Hnode|]. apply Hrefund; [by eexists|done].
Qed.
End short.

(** ** Witnesses

    A small world: it records what was signed; the coordinator answers each renewal with
    the same leaf, under a new split node where there is one. *)

#[local] Existing Instances btc68 btctx68 sample_codec.
#[local] Instance sample_strings : HashIter string := canonical_iter string.
#[local] Instance sample_identifiers : HashIter (@Identifier btc68) := canonical_iter string.

Definition sample_answer (i : string) (parent : string) : Proto.TreeNode :=
  Proto.mkTreeNode i "tree" 10000 (Some parent) [1] [1] 0 [2] []
    (Some (Proto.mkSigningKeyshare [] 2 [2])) "AVAILABLE" [] [] [].

Definition sample_split : option Proto.TreeNode := Some (sample_answer "split" "root").

(** [count n] commitments are returned for [n] jobs. *)
Definition sample_env (count : Z → Z) : @RenewalEnv btc68 btctx68 sample_codec (list (FrostJob tx68)).
Proof.
  by refine {|
    renewal_frost := sample_frost (λ _ n _, count n);
    client_query_nodes_map _ w := (Ok ∅, w);
    client_renew_leaf req _ w :=
      let i := TimelockManager.leaf_id req in
      (Ok (match signing_jobs req with
        | Some (RenewNodeTimelock _) =>
            Some (RenewNodeTimelockResult sample_split (Some (sample_answer i "split")))
        | Some (RenewRefundTimelock _) => Some (RenewRefundTimelockResult (Some (sample_answer i "root")))
        | Some (RenewNodeZeroTimelock _) =>
            Some (RenewNodeZeroTimelockResult sample_split (Some (sample_answer i "split")))
        | None => None
        end), w)
  |}.
Defined.

#[local] Instance willing : RenewalEnv (list (FrostJob tx68)) := sample_env (λ n, n).

#[local] Instance willing_laws : RenewalLaws (H0 := willing).
Proof.
  by refine (Build_RenewalLaws _ _ _ _ willing (sample_frost_laws (λ _ n _, n)) _ _).
Defined.

(** A leaf due for a refund renewal, below its root, and one that is not due. *)
Definition due_leaf : TreeNode :=
  exit_node "a" (Some "root"%string) 0 10000 a_tx
    (Some (make_tx 3 [mkTxIn (mkOutPoint (compute_txid (a_tx : Transaction)) 0) 50] []))
    TreeNodeStatus.Available.
Definition root_node : TreeNode := exit_node "root" None 0 30000 root_tx None TreeNodeStatus.Available.
Definition due_pedigree : LeafPedigree := {| leaf := due_leaf; ancestors := [root_node] |}.
Definition fresh_pedigree : LeafPedigree :=
  {| leaf := exit_node "b" (Some "root"%string) 1 20000 b_tx (Some b_refund) TreeNodeStatus.Available;
     ancestors := [root_node] |}.
Definition sample_line : list (TreeNodeId * TreeNode) := [("root"%string, root_node)].

#[local] Instance willing_cooperates : Cooperative due_leaf sample_line.
Proof.
  split; simpl; try done.
  - eauto.
  - intros i n w Hn. exists (replicate (Z.to_nat n) ∅), w. rewrite length_replicate.
    split_and!; [done|lia|]. by apply Forall_replicate.
  - eauto.
  - intros js w. eexists _, _. split; [done|]. by rewrite length_replicate.
  - intros req jobs k w Hl Hj. rewrite Hl, Hj.
    destruct jobs; eexists _, _, _; (split; [reflexivity|]); (split; [reflexivity|]);
      repeat split; set_solver.
Qed.

Lemma sample_path : path (index_by_id (ancestors due_pedigree)) (parent_node_id due_leaf) sample_line.
Proof. repeat econstructor. Qed.

Lemma sample_outputs n : n ∈ due_leaf :: sample_line.*2 → is_Some (tx_output (node_tx n) !! 0%nat).
Proof. intros [->|[->|[]%elem_of_nil]%elem_of_cons]%elem_of_cons; by eexists. Qed.

Example renewal_completes_witness :
  returns (renew_pedigree due_pedigree ∅) [] (λ r _, ∃ q,
    r = Ok q ∧ id (leaf q) = "a"%string ∧ chain_reaches_root (leaf q) (ancestors q) = true).
Proof.
  apply (renewal_completes due_pedigree ∅ sample_line).
  - exact willing_cooperates.
  - by eexists.
  - right. by eexists.
  - exact sample_outputs.
  - left. exact sample_path.
  - intros [?|[]%elem_of_nil]%elem_of_cons. done.
Defined.

Example renewal_resets_timelocks_witness :
  ∃ jobs, renew_refund_jobs due_leaf root_node ("leaf key a"%string : @PublicKey btc68) = Some (Ok jobs) ∧
    job_timelocks jobs = [(CpfpNode, [1900]); (DirectNode, [1950])] ++ renewed_refunds.
Proof.
  destruct (renewal_resets_timelocks due_leaf root_node ("leaf key a"%string : @PublicKey btc68) 2000)
    as (_ & Hrefund & _); [reflexivity|by eexists|].
  destruct Hrefund as (jobs & Hjobs & Ht); [reflexivity|]. exists jobs. split; [done|exact Ht].
Defined.

(** The leaves a pass returned, and how many shares it signed. *)
Definition pass_of (r : option (ServiceResult (list LeafPedigree) * list (FrostJob tx68)))
    : option (list TreeNodeId * nat) :=
  match r with
  | Some (Ok out, js) => Some ((λ p, id (leaf p)) <$> out, length js)
  | _ => None
  end.

Lemma sample_pass :
  pass_of (check_renew_nodes (λ _, "") [due_pedigree; fresh_pedigree] []) = Some (["b"; "a"]%string, 5%nat).
Proof. vm_compute. reflexivity. Qed.

Example check_renew_keeps_leaves_witness :
  ∃ out w', check_renew_nodes (λ _, "") [due_pedigree; fresh_pedigree] [] = Some (Ok out, w') ∧
    (λ p, id (leaf p)) <$> out ≡ₚ ["a"; "b"]%string.
Proof.
  assert (@AnswersSameLeaf _ _ _ _ willing) as Hsame.
  { intros req k w res w' node. simpl. destruct (signing_jobs req) as [[]|]; intros [= <- _] [= <-];
      by split. }
  pose proof (check_renew_keeps_leaves (λ _, "") [due_pedigree; fresh_pedigree]
    ([] : list (FrostJob tx68))) as Hkeep.
  pose proof sample_pass as Hrun. unfold ends_in in Hkeep.
  destruct (check_renew_nodes _ _ _) as [[[out|e] w']|]; [|discriminate..].
  exists out, w'. split; [reflexivity|]. by destruct (Hkeep out eq_refl) as [Hids _].
Defined.

Example renewals_sign_own_coins_witness :
  ∃ out (js : list (FrostJob tx68)),
    check_renew_nodes (λ _, "") [due_pedigree; fresh_pedigree] [] = Some (Ok out, js) ∧
    length js = 5%nat ∧
    Forall (λ j, ∃ p : LeafPedigree,
      p ∈ [due_pedigree; fresh_pedigree] ∧ sound_renewal (H0 := willing) p j) js.
Proof.
  pose proof (renewals_sign_own_coins (λ _, "") [due_pedigree; fresh_pedigree]
    ([] : list (FrostJob tx68))) as Hsign.
  pose proof sample_pass as Hrun. unfold ends_in in Hsign.
  destruct (check_renew_nodes _ _ _) as [[[out|e] w']|]; [|discriminate..].
  exists out, w'. split; [reflexivity|]. destruct Hsign as (js & Hjs & Hsound).
  change (w' = js) in Hjs. subst w'. split; [by injection Hrun|exact Hsound].
Defined.

#[local] Instance short_answers : @ShortCommitments _ _ _ _ (sample_env (λ _, 3)) _.
Proof.
  split; simpl; eauto. intros i n w. eexists _, w. split; [done|]. split; [simpl; lia|].
  by repeat constructor.
Qed.

Example short_commitments_panic_witness :
  @check_renew_nodes _ _ _ _ (sample_env (λ _, 3)) _ _ (λ _, "") [due_pedigree; fresh_pedigree] [] = None.
Proof.
  apply (@short_commitments_panic _ _ _ _ (sample_env (λ _, 3)) _ _ (λ _, "") short_answers _
    [fresh_pedigree] due_pedigree sample_line).
  - reflexivity.
  - by eexists.
  - right. by eexists.
  - exact sample_outputs.
  - exact sample_path.
Defined.
