(* ===== verification/ExitChainResolver.v ===== *)
(** * The exit chain resolver: [spark/src/tree/exit_chain_resolver.rs]

    A leaf is stored without its exit chain; a background pass fetches the chains
    that are missing. [ResolverService] lists what the resolver calls: three methods
    of the tree service and the clock. [service_resolver] is the tree service of
    [TreeService] as an instance. The [Mutex] around the backoff map is taken once
    per read or update, so a pass acts on a pair of a world and the map. *)

From S2P Require Import Prelude Bitcoin TreeModel ExitChain Paging TreeService.

Class ResolverService `{Bitcoin} (W : Type) := {
  missing_chains : proc W (TreeResult (list TreeNodeId));
  fetch_pedigrees : list TreeNodeId → proc W (list LeafPedigree);
  put_exit_chains : list LeafPedigree → proc W (TreeResult unit);
  system_now : W → SystemTime * W;
}.

Definition service_resolver `{Bitcoin} {W} `{!TreeStoreApi W, !ServiceEnv W}
    (now : W → SystemTime * W) : ResolverService W :=
  {| missing_chains := leaves_missing_exit_chains;
     fetch_pedigrees := fetch_pedigrees_from_operators;
     put_exit_chains := store_exit_chains;
     system_now := now |}.

(** Durations are in nanoseconds. *)
Definition secs (n : Z) : Duration := n * 10 ^ 9.
Definition INITIAL_RETRY_DELAY : Duration := secs 30.
Definition MAX_RETRY_DELAY : Duration := secs (30 * 60).
Definition LEAVES_PER_FETCH : nat := 500.

Definition is_complete `{Bitcoin} (pedigree : LeafPedigree) : bool :=
  chain_reaches_root (leaf pedigree) (ancestors pedigree).

Record Backoff := { retry_at : SystemTime; delay : Duration }.
Abbreviation Backoffs := (gmap TreeNodeId Backoff).

(** ** The backoff map *)

Definition retain_backoff (present : gset TreeNodeId) (backoff : Backoffs) : Backoffs :=
  filter (λ kv, kv.1 ∈ present) backoff.

Definition due_leaves (backoff : Backoffs) (missing : list TreeNodeId) (now : SystemTime)
    : list TreeNodeId :=
  filter (λ leaf_id,
    match backoff !! leaf_id with Some entry => retry_at entry <=? now | None => true end = true)
    missing.

Definition record_failure (now : SystemTime) (backoff : Backoffs) (leaf_id : TreeNodeId) : Backoffs :=
  let entry := backoff !! leaf_id in
  if match entry with Some entry => now <? retry_at entry | None => false end then backoff
  else
    let delay :=
      match entry with
      | Some entry => Z.min (delay entry * 2) MAX_RETRY_DELAY
      | None => INITIAL_RETRY_DELAY
      end in
    <[leaf_id := {| retry_at := now + delay; delay := delay |}]> backoff.

Definition record_outcomes `{Bitcoin} (resolved : list LeafPedigree) (failed : list TreeNodeId)
    (now : SystemTime) (backoff : Backoffs) : Backoffs :=
  let backoff := foldl (λ b p, delete (id (leaf p)) b) backoff resolved in
  foldl (record_failure now) backoff failed.

(** ** A pass *)

Section resolver.
Context `{Bitcoin} {W : Type} `{!ResolverService W}.
Abbreviation R := (W * Backoffs)%type.

(** A call of the tree service, which does not see the backoff map. *)
Definition served {A} (m : proc W A) : proc R A := λ s,
  match m s.1 with Some (a, w) => Some (a, (w, s.2)) | None => None end.

Definition with_backoff (f : Backoffs → Backoffs) : proc R unit := modify (λ s, (s.1, f s.2)).
Definition read_backoff {A} (f : Backoffs → A) : proc R A := call (λ s, (f s.2, s)).

Definition failed_leaves (candidates : list TreeNodeId) (fetched : list LeafPedigree)
    : list TreeNodeId :=
  let returned : gset TreeNodeId := list_to_set ((λ p, id (leaf p)) <$> fetched) in
  ((λ p, id (leaf p)) <$> filter (λ p, is_complete p = false) fetched) ++
  filter (λ leaf_id, leaf_id ∉ returned) candidates.

Definition resolve_batch (now : SystemTime) (candidates : list TreeNodeId)
    : proc R (TreeResult unit) :=
  fetched ← served (fetch_pedigrees candidates);
  let resolved := filter (λ p, is_complete p = true) fetched in
  _ ←? served (put_exit_chains resolved);
  _ ← with_backoff (record_outcomes resolved (failed_leaves candidates fetched) now);
  mret (Ok ()).

Definition resolve (honor_backoff : bool) : proc R (TreeResult unit) :=
  missing ←? served missing_chains;
  _ ← with_backoff (retain_backoff (list_to_set missing));
  match missing with
  | [] => mret (Ok ())
  | _ =>
      now ← served (call system_now);
      candidates ← (if honor_backoff then read_backoff (λ b, due_leaves b missing now)
                    else mret missing);
      each (resolve_batch now) (chunks LEAVES_PER_FETCH candidates)
  end.

Definition resolve_missing_chains : proc R (TreeResult unit) := resolve true.
Definition resolve_all_missing_chains : proc R (TreeResult unit) := resolve false.
End resolver.

(** ** One leaf's entry *)

Lemma record_failure_ne now b i j : i ≠ j → record_failure now b i !! j = b !! j.
Proof. intros. unfold record_failure. repeat case_match; rewrite ?lookup_insert_ne by done; done. Qed.

(** Recording a failure again at the same time, or inside the delay, changes nothing. *)
Definition failed_once (now : SystemTime) (e : option Backoff) : Backoff :=
  match e with
  | Some e =>
      if now <? retry_at e then e
      else let d := Z.min (delay e * 2) MAX_RETRY_DELAY in {| retry_at := now + d; delay := d |}
  | None => {| retry_at := now + INITIAL_RETRY_DELAY; delay := INITIAL_RETRY_DELAY |}
  end.

Lemma record_failure_eq now b i : record_failure now b i !! i = Some (failed_once now (b !! i)).
Proof.
  unfold record_failure, failed_once. destruct (b !! i) as [e|] eqn:E.
  - destruct (now <? retry_at e); [done|]. by rewrite lookup_insert_eq.
  - by rewrite lookup_insert_eq.
Qed.

Definition delay_ok (b : Backoffs) : Prop :=
  map_Forall (λ _ e, INITIAL_RETRY_DELAY ≤ delay e ≤ MAX_RETRY_DELAY) b.

Lemma failed_once_idem now e :
  default INITIAL_RETRY_DELAY (delay <$> e) > 0 →
  failed_once now (Some (failed_once now e)) = failed_once now e.
Proof.
  intros Hd. destruct e as [e|]; simpl in *; [destruct (Z.ltb_spec now (retry_at e)); simpl|].
  - by rewrite (proj2 (Z.ltb_lt _ _)).
  - rewrite (proj2 (Z.ltb_lt _ _)); [done|]. unfold MAX_RETRY_DELAY, secs. lia.
  - rewrite (proj2 (Z.ltb_lt _ _)); [done|]. unfold INITIAL_RETRY_DELAY, secs. lia.
Qed.

Lemma failed_once_delay now e :
  (∀ x, e = Some x → INITIAL_RETRY_DELAY ≤ delay x ≤ MAX_RETRY_DELAY) →
  INITIAL_RETRY_DELAY ≤ delay (failed_once now e) ≤ MAX_RETRY_DELAY.
Proof.
  intros He. unfold failed_once. unfold INITIAL_RETRY_DELAY, MAX_RETRY_DELAY, secs in *.
  destruct e as [e|]; simpl; [|lia]. specialize (He e eq_refl). case_match; simpl; lia.
Qed.
