(* ===== verification/ExitState.v ===== *)
(** * The exit state of a wallet: [spark-wallet/src/wallet.rs]

    The methods of [SparkWallet] around a unilateral exit: which leaves it moves, the
    tree behind them, and the backup of the exit state, which [export_exit_state]
    reads out and [import_exit_state] merges back. The wallet acts on the world of its
    tree service; [load_exit_context] also runs the exit chain resolver. *)

From S2P Require Import Prelude Bitcoin BitcoinTx TreeModel ExitChain SparkTx.
From S2P Require Import ExitPlan ExitScan ExitBuild Paging TreeService ExitChainResolver.

(** [?] on a [Result<_, TreeServiceError>] *)
Definition from_tree {A} (r : TreeResult A) : WalletResult A :=
  match r with Ok a => Ok a | Err e => Err (SparkWalletError.TreeServiceError e) end.

Definition tree_call {W A} (m : proc W (TreeResult A)) : proc W (WalletResult A) :=
  r ← m; mret (from_tree r).

Inductive ExitLeafSelection := Auto | Specific (leaf_ids : list TreeNodeId).

Module ImportableParts.
Inductive t := Nothing | LeafOnly | LeafAndChain.
#[global] Instance t_eq_dec : EqDecision t.
Proof. solve_decision. Defined.
End ImportableParts.

(** Counters are [usize]s, each at most the number of pedigrees given. *)
Record ExitStateImport := {
  imported_leaves : nat;
  skipped_foreign_leaves : nat;
  skipped_conflicting_leaves : nat;
  skipped_chains : nat;
}.

Section exit_state.
Context {B : Bitcoin} {BT : BitcoinTx}.

Record ExitContext := {
  ctx_leaf_ids : list TreeNodeId;
  ctx_filter : UnilateralExitLeafFilter;
  ctx_tree_nodes : gmap TreeNodeId TreeNode;
}.

(** ** Pedigrees from outside *)

Definition spends_node_tx (child parent : TreeNode) : bool :=
  match tx_input (node_tx child) with
  | input :: _ => bool_decide (txid (previous_output input) = compute_txid (node_tx parent))
  | [] => false
  end.

(** The loop over [ancestors], with [seen] and [child] as it updates them. *)
Fixpoint links_loop (seen : gset TreeNodeId) (child : TreeNode) (ancestors : list TreeNode) : bool :=
  match ancestors with
  | [] => bool_decide (parent_node_id child = None)
  | parent :: ancestors =>
      if bool_decide (id parent ∈ seen) || bool_decide (parent_node_id child ≠ Some (id parent))
         || negb (spends_node_tx child parent)
      then false
      else links_loop ({[id parent]} ∪ seen) parent ancestors
  end.

Definition links_leaf_to_root (leaf : TreeNode) (ancestors : list TreeNode) : bool :=
  links_loop {[id leaf]} leaf ancestors.

Definition pedigree_nodes (p : LeafPedigree) : list TreeNode := leaf p :: ancestors p.

Definition contradicts (stored : gmap TreeNodeId TreeNode) (node : TreeNode) : bool :=
  match stored !! id node with
  | Some known =>
      negb (bool_decide (value known = value node))
      || negb (bool_decide (verifying_public_key known = verifying_public_key node))
  | None => false
  end.

Definition importable_parts (pedigree : LeafPedigree) (stored : gmap TreeNodeId TreeNode)
    : ImportableParts.t :=
  if existsb (contradicts stored) (pedigree_nodes pedigree) then ImportableParts.Nothing
  else if links_leaf_to_root (leaf pedigree) (ancestors pedigree) then ImportableParts.LeafAndChain
  else ImportableParts.LeafOnly.

(** The first loop of [import_exit_state] and the variables it updates. *)
Record Incoming := {
  foreign : nat;
  repeated : nat;
  seen_leaf_ids : gset TreeNodeId;
  owned : list LeafPedigree;
}.

Definition sort_incoming (identity_public_key : PublicKey) (s : Incoming) (p : LeafPedigree) : Incoming :=
  if bool_decide (owner_identity_public_key (leaf p) ≠ Some identity_public_key) then
    {| foreign := S (foreign s); repeated := repeated s; seen_leaf_ids := seen_leaf_ids s;
       owned := owned s |}
  else if bool_decide (id (leaf p) ∈ seen_leaf_ids s) then
    {| foreign := foreign s; repeated := S (repeated s); seen_leaf_ids := seen_leaf_ids s;
       owned := owned s |}
  else
    {| foreign := foreign s; repeated := repeated s;
       seen_leaf_ids := {[id (leaf p)]} ∪ seen_leaf_ids s; owned := owned s ++ [p] |}.

Definition no_incoming : Incoming :=
  {| foreign := 0; repeated := 0; seen_leaf_ids := ∅; owned := [] |}.

(** The second loop, over [owned]. *)
Record Merge := {
  merged : nat;
  conflicting : nat;
  unused_chains : nat;
  to_restore : list LeafPedigree;
  chains_only : list LeafPedigree;
}.

Definition no_merge (repeated : nat) : Merge :=
  {| merged := 0; conflicting := 0; unused_chains := repeated; to_restore := []; chains_only := [] |}.

Definition merge_one (stored_nodes : gmap TreeNodeId TreeNode) (held : gmap TreeNodeId LeafPedigree)
    (m : Merge) (incoming : LeafPedigree) : Merge :=
  let parts := importable_parts incoming stored_nodes in
  match held !! id (leaf incoming) with
  | Some held =>
      if bool_decide (parts ≠ ImportableParts.LeafAndChain)
         || chain_reaches_root (leaf held) (ancestors held)
      then {| merged := merged m; conflicting := conflicting m; unused_chains := S (unused_chains m);
              to_restore := to_restore m; chains_only := chains_only m |}
      else if bool_decide (leaf incoming = leaf held) then
        {| merged := S (merged m); conflicting := conflicting m; unused_chains := unused_chains m;
           to_restore := to_restore m; chains_only := chains_only m ++ [incoming] |}
      else
        {| merged := S (merged m); conflicting := conflicting m; unused_chains := unused_chains m;
           to_restore := to_restore m ++ [incoming]; chains_only := chains_only m |}
  | None =>
      match parts with
      | ImportableParts.Nothing =>
          {| merged := merged m; conflicting := S (conflicting m); unused_chains := unused_chains m;
             to_restore := to_restore m; chains_only := chains_only m |}
      | ImportableParts.LeafOnly =>
          {| merged := S (merged m); conflicting := conflicting m;
             unused_chains := S (unused_chains m);
             to_restore := to_restore m ++ [{| leaf := leaf incoming; ancestors := [] |}];
             chains_only := chains_only m |}
      | ImportableParts.LeafAndChain =>
          {| merged := S (merged m); conflicting := conflicting m; unused_chains := unused_chains m;
             to_restore := to_restore m ++ [incoming]; chains_only := chains_only m |}
      end
  end.

(** [stored_nodes] and [held], collected from the stored pedigrees. *)
Definition nodes_by_id (stored : list LeafPedigree) : gmap TreeNodeId TreeNode :=
  index_by_id (stored ≫= pedigree_nodes).
Definition held_by_id (stored : list LeafPedigree) : gmap TreeNodeId LeafPedigree :=
  hm_collect ((λ p, (id (leaf p), p)) <$> stored).

Definition merge_all (repeated : nat) (stored owned : list LeafPedigree) : Merge :=
  foldl (merge_one (nodes_by_id stored) (held_by_id stored)) (no_merge repeated) owned.

(** ** The methods *)

Section wallet.
Context {W : Type} `{!TreeStoreApi W} `{!ServiceEnv W}.

Definition export_exit_state : proc W (WalletResult (list LeafPedigree)) :=
  leaves ←? tree_call list_leaves;
  tree_call (load_exit_chains (leaf_ids leaves)).

Definition import_exit_state (identity_public_key : PublicKey) (pedigrees : list LeafPedigree)
    : proc W (WalletResult ExitStateImport) :=
  let incoming := foldl (sort_incoming identity_public_key) no_incoming pedigrees in
  match owned incoming with
  | [] =>
      mret (Ok {| imported_leaves := 0; skipped_foreign_leaves := foreign incoming;
                  skipped_conflicting_leaves := 0; skipped_chains := repeated incoming |})
  | owned =>
      leaves ←? tree_call list_leaves;
      stored ←? tree_call (load_exit_chains (leaf_ids leaves));
      let m := merge_all (repeated incoming) stored owned in
      _ ←? match to_restore m with
           | [] => mret (Ok ())
           | to_restore => tree_call (restore_leaves to_restore)
           end;
      _ ←? tree_call (restore_exit_chains (chains_only m));
      mret (Ok {| imported_leaves := merged m; skipped_foreign_leaves := foreign incoming;
                  skipped_conflicting_leaves := conflicting m; skipped_chains := unused_chains m |})
  end.

Definition sort_dedup (leaf_ids : list TreeNodeId) : list TreeNodeId :=
  dedup (stable_sort String.leb leaf_ids).

Definition resolve_leaf_selection (selection : ExitLeafSelection)
    : proc W (WalletResult (list TreeNodeId * UnilateralExitLeafFilter)) :=
  match selection with
  | Auto =>
      leaves ←? tree_call list_leaves;
      mret (Ok (sort_dedup (id <$> available leaves ++ not_available leaves ++
                                   available_missing_from_operators leaves), ProfitableOnly))
  | Specific leaf_ids => mret (Ok (sort_dedup leaf_ids, All))
  end.

(** The two loops that fill [tree_nodes]: a pedigree's ancestors, then its leaf. *)
Definition tree_of (pedigrees : list LeafPedigree) : gmap TreeNodeId TreeNode :=
  index_by_id (pedigrees ≫= (λ p, ancestors p ++ [leaf p])).

Definition load_exit_tree_nodes (leaf_ids : list TreeNodeId)
    : proc W (WalletResult (gmap TreeNodeId TreeNode)) :=
  pedigrees ←? tree_call (load_exit_chains leaf_ids);
  mret (Ok (tree_of pedigrees)).

Definition refresh_before_exit `{!HashIter string, !ResolverService W} : proc (W * Backoffs) unit :=
  _ ← served refresh_leaves;
  _ ← resolve_all_missing_chains;
  mret ().

Definition load_exit_context `{!HashIter string, !ResolverService W} (selection : ExitLeafSelection)
    : proc (W * Backoffs) (WalletResult ExitContext) :=
  _ ← refresh_before_exit;
  selected ←? served (resolve_leaf_selection selection);
  tree_nodes ←? served (load_exit_tree_nodes selected.1);
  mret (Ok {| ctx_leaf_ids := selected.1; ctx_filter := selected.2; ctx_tree_nodes := tree_nodes |}).
End wallet.

(** ** Quotes and plans over a context *)

Definition wallet_quote_unilateral_exit (context : ExitContext)
    (fee_rate_sat_per_kw funding_input_weight funding_output_script_len change_dust_limit
     destination_script_len : Z) (on_chain : ExitChainState) : WalletResult UnilateralExitQuote :=
  from_service (quote_unilateral_exit (ctx_tree_nodes context) (ctx_leaf_ids context)
    (ctx_filter context) funding_input_weight funding_output_script_len change_dust_limit
    fee_rate_sat_per_kw destination_script_len on_chain).

Definition prepare_unilateral_exit_plan (context : ExitContext) (fee_rate_sat_per_kw : Z)
    (inputs : list CpfpInput) (destination_script_len : Z) (on_chain : ExitChainState)
    : WalletResult UnilateralExitPlan :=
  plan ← from_service (plan_unilateral_exit (ctx_tree_nodes context) (ctx_leaf_ids context)
    (ctx_filter context) inputs fee_rate_sat_per_kw destination_script_len on_chain);
  let selected_ids := sl_id <$> plan_selected_leaves plan in
  let refund_addresses := leaf_refund_addresses (plan_tree_nodes plan) selected_ids in
  match List.find (λ i, bool_decide (refund_addresses !! i = None)) selected_ids with
  | Some leaf =>
      Err (SparkWalletError.Generic ("leaf " +:+ leaf +:+ " has no refund address to sweep from"))
  | None => Ok plan
  end.
End exit_state.
