(* ===== verification/ExitStateSpec.v ===== *)
(** * Backing up and restoring the exit state

    What [import_exit_state] makes of a backup over the in-memory store: exits are never
    lost, every leaf the backup can exit becomes exitable, only leaves that agree with what is
    stored are taken over, and a backup merged into an empty wallet reads out again with
    every chain that links its leaf to a root. *)

From S2P Require Import Prelude Bitcoin BitcoinTx TreeModel ExitChain LeafSelect.
From S2P Require Import TreeStore TreeStoreInv TreeStoreSystem TreeStoreSpec ExitStore.
From S2P Require Import ExitBuild Paging TreeService TreeServiceStore ExitState.

(** ** Chains that link a leaf to a root *)

Section links.
Context {B : Bitcoin} {BT : BitcoinTx}.
Implicit Types (n leaf : TreeNode) (anc : list TreeNode).

(** Each node's transaction spends the one above it. *)
Fixpoint spends_up n anc : Prop :=
  match anc with [] => True | m :: anc => spends_node_tx n m = true ∧ spends_up m anc end.

Lemma links_loop_spec seen n anc :
  links_loop seen n anc = true ↔
    linked (parent_node_id n) anc ∧ walk_end (parent_node_id n) anc = None ∧
    NoDup (id <$> anc) ∧ (∀ i, i ∈ id <$> anc → i ∉ seen) ∧ spends_up n anc.
Proof.
  revert seen n. induction anc as [|m anc IH]; intros seen n; csimpl.
  { rewrite bool_decide_eq_true. split; [|tauto]. intros ->.
    split_and!; [done|done|apply NoDup_nil_2|by intros i ?%elem_of_nil|done]. }
  destruct (_ || _ || _) eqn:E.
  - split; [done|]. intros ([Hp _] & _ & _ & Hseen & [Hsp _]).
    rewrite bool_decide_eq_false_2 in E by (apply Hseen; by left).
    rewrite bool_decide_eq_false_2 in E by (intros Hne; by apply Hne).
    by rewrite Hsp in E.
  - apply orb_false_iff in E as [[Es%bool_decide_eq_false_1 Ep%bool_decide_eq_false_1]%orb_false_iff Esp%negb_false_iff].
    apply dec_stable in Ep. rewrite IH, NoDup_cons. split.
    + intros (Hl & He & Hnd & Hseen & Hsp). split_and!; try done.
      * intros Hin. specialize (Hseen _ Hin). set_solver.
      * intros i [->|Hi]%elem_of_cons; [done|]. specialize (Hseen _ Hi). set_solver.
    + intros ([_ Hl] & He & [Hni Hnd] & Hseen & [_ Hsp]). split_and!; try done.
      intros i Hi. specialize (Hseen i ltac:(by right)). set_solver.
Qed.

(** The list paired with its ids, as a path lists it. *)
Definition with_ids anc : list (TreeNodeId * TreeNode) := (λ n, (id n, n)) <$> anc.

Lemma with_ids_nodes anc : (with_ids anc).*2 = anc.
Proof. unfold with_ids. rewrite <- list_fmap_compose. apply list_fmap_id. Qed.

Lemma linked_path nodes cur anc :
  linked cur anc → walk_end cur anc = None → (∀ n, n ∈ anc → nodes !! id n = Some n) →
  path nodes cur (with_ids anc).
Proof.
  revert cur. induction anc as [|n anc IH]; intros cur; simpl.
  - intros _ -> _. constructor.
  - intros [-> Hl] He Hn. constructor; [apply Hn; by left|].
    apply IH; [done|done|]. intros m Hm. apply Hn. by right.
Qed.

Lemma index_by_id_NoDup anc n : NoDup (id <$> anc) → n ∈ anc → index_by_id anc !! id n = Some n.
Proof.
  intros Hnd Hn. unfold index_by_id. apply (hm_collect_NoDup _ _ n).
  - by rewrite <- list_fmap_compose.
  - apply list_elem_of_fmap. by exists n.
Qed.

(** Such a chain reaches a root, and reads back from the store as it was given. *)
Lemma links_path leaf anc :
  links_leaf_to_root leaf anc = true →
  path (index_by_id anc) (parent_node_id leaf) (with_ids anc) ∧ id leaf ∉ id <$> anc.
Proof.
  intros (Hl & He & Hnd & Hseen & _)%links_loop_spec. split.
  - apply linked_path; [done|done|]. intros n. by apply index_by_id_NoDup.
  - intros Hin. specialize (Hseen _ Hin). set_solver.
Qed.

Lemma links_reaches_root leaf anc :
  links_leaf_to_root leaf anc = true → chain_reaches_root leaf anc = true.
Proof. intros [Hp _]%links_path. apply chain_reaches_root_path. eauto. Qed.

Lemma links_reads_back leaf anc :
  links_leaf_to_root leaf anc = true →
  walk_ancestors leaf (<[id leaf := leaf]> (index_by_id anc)) = anc.
Proof.
  intros [Hp Hni]%links_path.
  erewrite walk_ancestors_path; [apply with_ids_nodes|].
  eapply path_mono; [exact Hp|]. intros i n Hin.
  rewrite lookup_insert_ne; [by eapply path_lookup|]. intros <-. apply Hni.
  apply list_elem_of_fmap in Hin as (m & [= Hi <-] & Hm). rewrite Hi. apply list_elem_of_fmap. eauto.
Qed.

Lemma links_root leaf : links_leaf_to_root leaf [] = true ↔ parent_node_id leaf = None.
Proof. apply bool_decide_eq_true. Qed.

Lemma links_nonempty leaf anc :
  links_leaf_to_root leaf anc = true → parent_node_id leaf ≠ None → anc ≠ [].
Proof. intros Hl Hp ->. by apply links_root in Hl. Qed.

(** ** Sorting what comes in *)

Definition owned_by (me : PublicKey) (p : LeafPedigree) : Prop :=
  owner_identity_public_key (leaf p) = Some me.

#[export] Instance owned_by_dec me p : Decision (owned_by me p).
Proof. unfold owned_by. apply _. Defined.

(** [p] is the first entry of its leaf among those owned by [me]. *)
Definition first_entry me (peds : list LeafPedigree) p : Prop :=
  ∃ l k, peds = l ++ p :: k ∧ owned_by me p ∧
    ∀ q, q ∈ l → owned_by me q → id (leaf q) ≠ id (leaf p).

Definition pedigree_ids (ps : list LeafPedigree) : list TreeNodeId := (λ p, id (leaf p)) <$> ps.

Lemma sort_incoming_owned me peds :
  let s := foldl (sort_incoming me) no_incoming peds in
  NoDup (pedigree_ids (owned s)) ∧ (∀ p, p ∈ owned s ↔ first_entry me peds p) ∧
  foreign s = length (filter (λ p, ¬ owned_by me p) peds) ∧
  (foreign s + repeated s + length (owned s) = length peds)%nat.
Proof.
  cbn zeta.
  assert (∀ l, let s := foldl (sort_incoming me) no_incoming l in
    NoDup (pedigree_ids (owned s)) ∧ (∀ p, p ∈ owned s ↔ first_entry me l p) ∧
    (∀ i, i ∈ seen_leaf_ids s ↔ ∃ q, q ∈ l ∧ owned_by me q ∧ id (leaf q) = i) ∧
    (∀ i, i ∈ pedigree_ids (owned s) → i ∈ seen_leaf_ids s) ∧
    foreign s = length (filter (λ p, ¬ owned_by me p) l) ∧
    (foreign s + repeated s + length (owned s) = length l)%nat) as Hall.
  2:{ destruct (Hall peds) as (? & ? & _ & _ & ? & ?). done. }
  induction l as [|p l IH] using rev_ind.
  { simpl. split_and!; [apply NoDup_nil_2| | |by intros ? ?%elem_of_nil|done|done].
    - intros p. split; [by intros ?%elem_of_nil|]. intros (l & k & E & _). by destruct l.
    - intros i. split; [set_solver|]. by intros (q & ?%elem_of_nil & _). }
  rewrite foldl_app. cbn [foldl]. cbn zeta in IH.
  set (s := foldl (sort_incoming me) no_incoming l) in *. destruct IH as (Hnd & Ho & Hs & Hsub & Hf & Hlen).
  assert (∀ q, first_entry me (l ++ [p]) q ↔ first_entry me l q ∨
    (q = p ∧ owned_by me p ∧ id (leaf p) ∉ seen_leaf_ids s)) as Hfirst.
  { intros q. split.
    - intros (l1 & k & E & Hq & Hnew). destruct k as [|x k] using rev_ind.
      + apply app_inj_tail in E as [<- <-]. right. split_and!; [done|done|].
        intros (r & Hr & Hro & Hri)%Hs. by apply (Hnew r).
      + clear IHk. rewrite app_comm_cons, app_assoc in E. apply app_inj_tail in E as [-> <-].
        left. by exists l1, k.
    - intros [(l1 & k & -> & Hq & Hnew)|(-> & Hp & Hns)].
      + exists l1, (k ++ [p]). by rewrite <- app_assoc.
      + exists l, []. split_and!; [done..|]. intros q Hq Hqo Hid. apply Hns, Hs. eauto. }
  assert (filter (λ p, ¬ owned_by me p) (l ++ [p]) = filter (λ p, ¬ owned_by me p) l ++
    if decide (owned_by me p) then [] else [p]) as Hfil.
  { rewrite filter_app. f_equal. rewrite filter_cons. repeat case_decide; try done; tauto. }
  assert (∀ i, (∃ q, q ∈ l ++ [p] ∧ owned_by me q ∧ id (leaf q) = i) ↔
    i ∈ seen_leaf_ids s ∨ (owned_by me p ∧ id (leaf p) = i)) as Hseen.
  { intros i. rewrite Hs. setoid_rewrite elem_of_app. setoid_rewrite list_elem_of_singleton. naive_solver. }
  rewrite Hfil, !length_app. cbn [length]. setoid_rewrite Hfirst. setoid_rewrite Hseen.
  unfold sort_incoming. fold (owned_by me p). case_bool_decide as Hme.
  - cbn [owned seen_leaf_ids foreign repeated]. unfold owned_by in *. rewrite decide_False by done.
    cbn [length]. split_and!; [done| | |done|lia|lia].
    + intros q. rewrite Ho. naive_solver.
    + naive_solver.
  - unfold owned_by in *. rewrite decide_True by done. cbn [length].
    case_bool_decide as Hin; cbn [owned seen_leaf_ids foreign repeated].
    + split_and!; [done| | |done|lia|lia].
      * intros q. rewrite Ho. naive_solver.
      * naive_solver.
    + rewrite length_app. cbn [length]. split_and!; [| | | |lia|lia].
      * unfold pedigree_ids. rewrite fmap_app, NoDup_app. split_and!; [done| |apply NoDup_singleton].
        intros i Hi%Hsub ->%list_elem_of_singleton. done.
      * intros q. rewrite elem_of_app, list_elem_of_singleton, Ho. naive_solver.
      * set_solver.
      * intros i. unfold pedigree_ids. rewrite fmap_app, elem_of_app. csimpl.
        rewrite list_elem_of_singleton. intros [?%Hsub| ->]; set_solver.
Qed.
End links.

(** ** The merge, one pedigree at a time *)

Section merge.
Context {B : Bitcoin} {BT : BitcoinTx}.
Context (nodes : gmap TreeNodeId TreeNode) (held : gmap TreeNodeId LeafPedigree).
Implicit Types (p : LeafPedigree).

Definition bare p : LeafPedigree := {| leaf := leaf p; ancestors := [] |}.

(** The pedigree of the held leaf, when the incoming one takes its place. *)
Definition replaces p : option LeafPedigree :=
  h ← held !! id (leaf p);
  if bool_decide (importable_parts p nodes = ImportableParts.LeafAndChain)
     && negb (chain_reaches_root (leaf h) (ancestors h))
  then Some h else None.

(** What of [p] is written with its leaf, if anything, and whether its chain alone is. *)
Definition restored p : option LeafPedigree :=
  match held !! id (leaf p) with
  | Some _ => h ← replaces p; if bool_decide (leaf p = leaf h) then None else Some p
  | None =>
      match importable_parts p nodes with
      | ImportableParts.Nothing => None
      | ImportableParts.LeafOnly => Some (bare p)
      | ImportableParts.LeafAndChain => Some p
      end
  end.

Definition rechained p : option LeafPedigree :=
  h ← replaces p; if bool_decide (leaf p = leaf h) then Some p else None.

Definition conflicts p : bool :=
  bool_decide (held !! id (leaf p) = None)
  && bool_decide (importable_parts p nodes = ImportableParts.Nothing).

(** The chain of [p] is not used. *)
Definition leaves_chain p : bool :=
  match held !! id (leaf p) with
  | Some _ => match replaces p with Some _ => false | None => true end
  | None => bool_decide (importable_parts p nodes = ImportableParts.LeafOnly)
  end.

(** What the wallet knows under the node's id has its value and key. *)
Definition agrees (n : TreeNode) : Prop :=
  ∀ m, nodes !! id n = Some m → value m = value n ∧ verifying_public_key m = verifying_public_key n.

Lemma contradicts_agrees n : contradicts nodes n = false ↔ agrees n.
Proof.
  unfold contradicts, agrees. destruct (nodes !! id n) as [m|]; [|naive_solver].
  rewrite orb_false_iff, !negb_false_iff, !bool_decide_eq_true. naive_solver.
Qed.

Lemma none_contradicts p :
  existsb (contradicts nodes) (pedigree_nodes p) = false ↔ ∀ n, n ∈ pedigree_nodes p → agrees n.
Proof.
  rewrite <- not_true_iff_false, existsb_exists. setoid_rewrite <- contradicts_agrees.
  setoid_rewrite <- not_true_iff_false. setoid_rewrite <- list_elem_of_In. naive_solver.
Qed.

Lemma importable_agrees p :
  importable_parts p nodes ≠ ImportableParts.Nothing → ∀ n, n ∈ pedigree_nodes p → agrees n.
Proof. unfold importable_parts. rewrite <- none_contradicts. by destruct (existsb _ _). Qed.

Lemma importable_whole p :
  links_leaf_to_root (leaf p) (ancestors p) = true → (∀ n, n ∈ pedigree_nodes p → agrees n) →
  importable_parts p nodes = ImportableParts.LeafAndChain.
Proof. unfold importable_parts. by intros -> ->%none_contradicts. Qed.

Lemma written_agrees p q :
  restored p = Some q ∨ rechained p = Some q → ∀ n, n ∈ pedigree_nodes p → agrees n.
Proof.
  intros Hq. apply importable_agrees. intros Hn. unfold restored, rechained, replaces in Hq.
  rewrite Hn in Hq. destruct (held !! id (leaf p)); naive_solver.
Qed.

Lemma merge_one_spec m p :
  let m' := merge_one nodes held m p in
  to_restore m' = to_restore m ++ option_list (restored p) ∧
  chains_only m' = chains_only m ++ option_list (rechained p) ∧
  merged m' = (merged m + length (option_list (restored p)) + length (option_list (rechained p)))%nat ∧
  conflicting m' = (conflicting m + if conflicts p then 1 else 0)%nat ∧
  unused_chains m' = (unused_chains m + if leaves_chain p then 1 else 0)%nat.
Proof.
  cbn zeta. unfold merge_one, restored, rechained, conflicts, leaves_chain, replaces.
  destruct (held !! id (leaf p)) as [h|]; simpl.
  - destruct (decide (importable_parts p nodes = ImportableParts.LeafAndChain)) as [->|Hp].
    + rewrite bool_decide_false by tauto.
      destruct (chain_reaches_root (leaf h) (ancestors h)); simpl.
      { rewrite ?app_nil_r. split_and!; auto; lia. }
      destruct (decide (leaf p = leaf h)) as [Heq|Heq].
      * rewrite !(bool_decide_true (leaf p = leaf h)) by done. simpl. rewrite ?app_nil_r. split_and!; auto; lia.
      * rewrite !(bool_decide_false (leaf p = leaf h)) by done. simpl. rewrite ?app_nil_r. split_and!; auto; lia.
    + rewrite bool_decide_true by done. rewrite !(bool_decide_false (_ = ImportableParts.LeafAndChain)) by done. simpl.
      rewrite ?app_nil_r. split_and!; auto; lia.
  - destruct (importable_parts p nodes); simpl; rewrite ?app_nil_r; split_and!; auto; lia.
Qed.

Lemma merge_fold_spec m l :
  let m' := foldl (merge_one nodes held) m l in
  to_restore m' = to_restore m ++ omap restored l ∧
  chains_only m' = chains_only m ++ omap rechained l ∧
  merged m' = (merged m + length (omap restored l) + length (omap rechained l))%nat ∧
  conflicting m' = (conflicting m + length (filter (λ p, conflicts p = true) l))%nat ∧
  unused_chains m' = (unused_chains m + length (filter (λ p, leaves_chain p = true) l))%nat.
Proof.
  cbn zeta. revert m. induction l as [|p l IH]; intros m.
  { simpl. rewrite !app_nil_r. split_and!; auto; lia. }
  cbn [foldl]. destruct (IH (merge_one nodes held m p)) as (-> & -> & -> & -> & ->).
  destruct (merge_one_spec m p) as (-> & -> & -> & -> & ->).
  assert (∀ (f : LeafPedigree → option LeafPedigree), omap f (p :: l) = option_list (f p) ++ omap f l) as Hom.
  { intros f. simpl. by destruct (f p). }
  rewrite !Hom, !filter_cons, !length_app, <- !app_assoc.
  split_and!; [done|done|lia| |].
  - destruct (conflicts p); simpl; lia.
  - destruct (leaves_chain p); simpl; lia.
Qed.

(** Every pedigree is written at most once, under its own leaf's id. *)
Lemma restored_leaf p q : restored p = Some q → leaf q = leaf p.
Proof.
  unfold restored. destruct (held !! id (leaf p)).
  - intros (h & _ & Hq)%bind_Some. destruct (bool_decide _); [done|]. by injection Hq as <-.
  - destruct (importable_parts p nodes); [done| |]; by intros [= <-].
Qed.

Lemma rechained_self p q :
  rechained p = Some q → q = p ∧ restored p = None ∧
  ∃ h, held !! id (leaf p) = Some h ∧ leaf h = leaf p ∧
    chain_reaches_root (leaf h) (ancestors h) = false.
Proof.
  unfold rechained, restored. intros (h & Hr & Hq)%bind_Some.
  destruct (bool_decide (leaf p = leaf h)) eqn:E; [|done]. injection Hq as <-.
  apply bool_decide_eq_true_1 in E as Hl. unfold replaces in *.
  destruct (held !! id (leaf p)) as [h'|]; [|done]. simpl in *.
  destruct (bool_decide (_ = _) && _) eqn:Hb in Hr; [|done]. injection Hr as ->.
  rewrite Hb. simpl. rewrite E. apply andb_true_iff in Hb as [_ Hb%negb_true_iff]. eauto 6.
Qed.

Lemma written_ids l :
  NoDup (pedigree_ids l) → NoDup (pedigree_ids (omap restored l ++ omap rechained l)).
Proof.
  intros Hnd. unfold pedigree_ids in *. rewrite fmap_app. apply NoDup_app.
  assert (∀ f : LeafPedigree → option LeafPedigree, (∀ p q, f p = Some q → leaf q = leaf p) →
    ((λ p, id (leaf p)) <$> omap f l) `sublist_of` ((λ p, id (leaf p)) <$> l)) as Hsub.
  { intros f Hf. clear Hnd. induction l as [|p l IH]; simpl; [done|].
    destruct (f p) as [q|] eqn:E; csimpl; [|by constructor].
    rewrite (Hf p q E). by constructor. }
  assert (∀ p q, rechained p = Some q → leaf q = leaf p) as Hr by (by intros p q [-> _]%rechained_self).
  split_and!.
  - eapply NoDup_submseteq_l; [apply sublist_submseteq, Hsub, restored_leaf|done].
  - intros i (q & -> & (p & Hp & Hq)%list_elem_of_omap)%list_elem_of_fmap
      (q' & Hid & (p' & Hp' & Hq')%list_elem_of_omap)%list_elem_of_fmap.
    rewrite (restored_leaf _ _ Hq), (Hr _ _ Hq') in Hid.
    assert (p = p') as <- by by apply (NoDup_fmap_inj (λ p, id (leaf p)) l).
    apply rechained_self in Hq' as (_ & Hq' & _). congruence.
  - eapply NoDup_submseteq_l; [apply sublist_submseteq, Hsub, Hr|done].
Qed.

(** A leaf whose held chain reaches a root is not written at all. *)
Lemma exitable_not_written p h :
  held !! id (leaf p) = Some h → chain_reaches_root (leaf h) (ancestors h) = true →
  restored p = None ∧ rechained p = None.
Proof.
  intros Hh Hr. unfold restored, rechained, replaces. rewrite Hh. simpl. by rewrite Hr, andb_false_r.
Qed.

(** An incoming pedigree that links its leaf and contradicts nothing is written unless
    what the wallet holds reaches a root already. *)
Lemma usable_written p :
  importable_parts p nodes = ImportableParts.LeafAndChain →
  (∃ h, held !! id (leaf p) = Some h ∧ chain_reaches_root (leaf h) (ancestors h) = true) ∨
  restored p = Some p ∨ rechained p = Some p.
Proof.
  intros Hp. unfold restored, rechained, replaces. rewrite Hp.
  destruct (held !! id (leaf p)) as [h|]; [|auto]. simpl.
  destruct (chain_reaches_root _ _) eqn:E; [left; eauto|]. simpl.
  destruct (bool_decide _); auto.
Qed.

(** What is written either links its leaf to a root, or is a bare leaf that was not held. *)
Lemma written_links p q :
  restored p = Some q ∨ rechained p = Some q →
  (q = p ∧ links_leaf_to_root (leaf p) (ancestors p) = true) ∨
  (q = bare p ∧ held !! id (leaf p) = None ∧ importable_parts p nodes = ImportableParts.LeafOnly).
Proof.
  assert (importable_parts p nodes = ImportableParts.LeafAndChain →
    links_leaf_to_root (leaf p) (ancestors p) = true) as Hlinks.
  { unfold importable_parts. by repeat case_match. }
  assert (∀ h, replaces p = Some h → links_leaf_to_root (leaf p) (ancestors p) = true) as Hrep.
  { intros h (h' & _ & Hh)%bind_Some. destruct (bool_decide _) eqn:E; [|done].
    by apply bool_decide_eq_true_1, Hlinks in E. }
  unfold restored, rechained. intros [Hq|(h & Hr & Hq)%bind_Some].
  - destruct (held !! id (leaf p)) as [h'|].
    + apply bind_Some in Hq as (h & Hr & Hq). destruct (bool_decide _); [done|].
      injection Hq as <-. left. eauto.
    + destruct (importable_parts p nodes); [done|..]; injection Hq as <-; auto.
  - destruct (bool_decide _); [|done]. injection Hq as <-. left. eauto.
Qed.
End merge.
