(* ===== verification/ExitStateStore.v ===== *)
(** * Importing into the in-memory store

    The merge of [ExitStateSpec] carried out by the tree service over the in-memory
    store: what every leaf's pedigree reads back as afterwards. *)

From S2P Require Import Prelude Bitcoin BitcoinTx TreeModel ExitChain LeafSelect.
From S2P Require Import TreeStore TreeStoreInv TreeStoreSystem TreeStoreSpec ExitStore.
From S2P Require Import ExitPlan ExitPlanSpec ExitSample ExitBuild Paging TreeService TreeServiceStore ExitState ExitStateSpec.

#[local] Arguments process_store_ancestors : simpl never.
#[local] Arguments process_add_leaves : simpl never.

Section written.
Context {B : Bitcoin} {BT : BitcoinTx} `{!HashIter string}.
Implicit Types (st : LeavesState) (p : LeafPedigree) (i : TreeNodeId).

(** [V] are the pedigrees written with their leaves, [C] those written as chains alone. *)
Definition imported_state (now : SystemTime) st (V C : list LeafPedigree) : LeavesState :=
  (process_store_ancestors
    (process_store_ancestors (process_add_leaves now st (leaf <$> V)).2 (complete_chains V)).2 C).2.

Context (now : SystemTime) st (V C : list LeafPedigree).
Context (Hwf : wf st) (HV : Forall node_wf (leaf <$> V)) (Hnd : NoDup (pedigree_ids (V ++ C))).
Abbreviation st' := (imported_state now st V C).

Lemma written_NoDup :
  NoDup (pedigree_ids V) ∧ NoDup (pedigree_ids C) ∧
  ∀ p q, p ∈ V → q ∈ C → id (leaf p) ≠ id (leaf q).
Proof using Hnd.
  unfold pedigree_ids in *. rewrite fmap_app in Hnd. apply NoDup_app in Hnd as (? & Hdis & ?).
  split_and!; [done|done|]. intros p q Hp Hq Hid.
  apply (Hdis (id (leaf p))); apply list_elem_of_fmap; eauto.
Qed.

Lemma pedigree_ids_leaf (l : list LeafPedigree) : id <$> (leaf <$> l) = pedigree_ids l.
Proof. unfold pedigree_ids. by rewrite <- list_fmap_compose. Qed.

Lemma elem_of_pedigree_ids (l : list LeafPedigree) i :
  i ∈ pedigree_ids l ↔ ∃ p, p ∈ l ∧ id (leaf p) = i.
Proof. unfold pedigree_ids. rewrite list_elem_of_fmap. naive_solver. Qed.

Lemma wf_imported : wf st'.
Proof using Hwf HV.
  apply wf_store_ancestors, wf_store_ancestors. by apply wf_process_add_leaves.
Qed.

Lemma imported_find i :
  find_stored_leaf st' i = find_stored_leaf (process_add_leaves now st (leaf <$> V)).2 i.
Proof. unfold imported_state. by rewrite !store_ancestors_find. Qed.

(** A leaf that is not written keeps its pedigree. *)
Lemma imported_other i :
  i ∉ pedigree_ids (V ++ C) → stored_pedigree st' i = stored_pedigree st i.
Proof using Hwf HV.
  intros Hi. unfold pedigree_ids in Hi. rewrite fmap_app in Hi.
  apply not_elem_of_app in Hi as [HiV HiC].
  unfold stored_pedigree, stored_chain. rewrite imported_find.
  rewrite add_leaves_find_other by (try done; by rewrite pedigree_ids_leaf).
  assert (chains st' !! i = chains st !! i) as ->; [|done]. unfold imported_state.
  rewrite !store_ancestors_other, add_leaves_chains; [done| |].
  - intros p [_ Hp]%list_elem_of_filter <-. destruct HiV. apply elem_of_pedigree_ids. eauto.
  - intros p Hp <-. destruct HiC. apply elem_of_pedigree_ids. eauto.
Qed.

Lemma imported_restored_find p : p ∈ V → find_stored_leaf st' (id (leaf p)) = Some (leaf p).
Proof using Hwf HV Hnd.
  intros Hp. rewrite imported_find. apply add_leaves_find; [done|done| |by apply list_elem_of_fmap_2].
  rewrite pedigree_ids_leaf. apply written_NoDup.
Qed.

Lemma imported_restored_chain p :
  p ∈ V → ancestors p ≠ [] → chain_reaches_root (leaf p) (ancestors p) = true →
  chains st' !! id (leaf p) = Some (ancestors p).
Proof using Hwf HV Hnd.
  intros Hp Hne Hr. destruct written_NoDup as (HndV & _ & Hdis). unfold imported_state.
  rewrite store_ancestors_other.
  2:{ intros q Hq Hid. by destruct (Hdis p q Hp Hq). }
  apply store_ancestors_named; [| |rewrite add_leaves_find; [by eexists|done|done| |]|done].
  - eapply NoDup_fmap_sublist; [apply sublist_filter|done].
  - apply list_elem_of_filter. split; [|done]. by rewrite Hr, bool_decide_false.
  - by rewrite pedigree_ids_leaf.
  - by apply list_elem_of_fmap_2.
Qed.

(** A leaf written with a chain that links it to a root has that pedigree. *)
Lemma imported_restored p :
  p ∈ V → links_leaf_to_root (leaf p) (ancestors p) = true →
  stored_pedigree st' (id (leaf p)) = Some p.
Proof using Hwf HV Hnd.
  intros Hp Hl. unfold stored_pedigree. rewrite imported_restored_find by done. simpl. f_equal.
  destruct (decide (ancestors p = [])) as [Hnil|Hne].
  - rewrite Hnil in Hl. apply links_root in Hl. unfold walk_ancestors. rewrite Hl. simpl.
    destruct p. by simpl in *; subst.
  - unfold stored_chain. rewrite imported_restored_chain; [|done..|by apply links_reaches_root].
    simpl. rewrite links_reads_back by done. by destruct p.
Qed.

(** A leaf that keeps its row and gets a chain that links it. *)
Lemma imported_rechained p :
  p ∈ C → find_stored_leaf st (id (leaf p)) = Some (leaf p) → ancestors p ≠ [] →
  links_leaf_to_root (leaf p) (ancestors p) = true →
  stored_pedigree st' (id (leaf p)) = Some p.
Proof using Hwf HV Hnd.
  intros Hp Hf Hne Hl. destruct written_NoDup as (HndV & HndC & Hdis).
  assert (find_stored_leaf (process_add_leaves now st (leaf <$> V)).2 (id (leaf p)) = Some (leaf p)) as Hf'.
  { rewrite add_leaves_find_other; [done..|]. rewrite pedigree_ids_leaf.
    intros (q & Hq & Hid)%elem_of_pedigree_ids. by apply (Hdis q p). }
  unfold stored_pedigree. rewrite imported_find, Hf'. simpl. f_equal.
  unfold stored_chain, imported_state. rewrite store_ancestors_named; [|done..| |done].
  - simpl. rewrite links_reads_back by done. by destruct p.
  - rewrite store_ancestors_find, Hf'. by eexists.
Qed.

(** A leaf the store did not hold, written without a chain. *)
Lemma imported_bare p :
  p ∈ V → ancestors p = [] → find_stored_leaf st (id (leaf p)) = None →
  parent_node_id (leaf p) ≠ Some (id (leaf p)) → stored_pedigree st' (id (leaf p)) = Some p.
Proof using Hwf HV Hnd.
  intros Hp Hnil Hnew Hpar. destruct written_NoDup as (HndV & _ & Hdis).
  unfold stored_pedigree. rewrite imported_restored_find by done. simpl. f_equal.
  assert (chains st' !! id (leaf p) = None) as Hc.
  { unfold imported_state. rewrite !store_ancestors_other, add_leaves_chains.
    - apply eq_None_not_Some. intros Hs%(wf_chains st Hwf). apply find_stored_leaf_is_Some in Hs.
      rewrite Hnew in Hs. by destruct Hs.
    - intros q [Ha Hq]%list_elem_of_filter Hid.
      by rewrite (NoDup_fmap_inj (λ p, id (leaf p)) V q p HndV Hq Hp Hid).
    - intros q Hq Hid. by destruct (Hdis p q Hp Hq). }
  unfold stored_chain. rewrite Hc. simpl. destruct p as [n a]. simpl in *. subst a. f_equal.
  unfold walk_ancestors. destruct (parent_node_id n) as [j|]; [|done]. simpl.
  rewrite decide_False by set_solver. rewrite lookup_insert_ne by congruence. done.
Qed.
End written.

Section import.
Context {B : Bitcoin} {BT : BitcoinTx} `{!HashIter string} {X : Type}.
Context (store : InMemoryTreeStore) (now : X → SystemTime)
  (uuid : LeavesState → X → LeavesReservationId) (permit : X → Acquire).
Abbreviation W := (LeavesState * X)%type.
#[local] Instance wallet_store : TreeStoreApi W := in_memory_store store now uuid permit.
Context `{!ServiceEnv W} (me : PublicKey) (key_of : TreeNodeId → PublicKey).
Implicit Types (w : W) (st : LeavesState) (p : LeafPedigree) (i : TreeNodeId).

(** The signer derives this wallet's key share of a leaf, without touching the store. *)
Definition signer_answers : Prop :=
  ∀ i w, (get_public_key_for_leaf i w).1 = Ok (key_of i) ∧ (get_public_key_for_leaf i w).2.1 = w.1.

Definition combined (n : TreeNode) : option PublicKey :=
  combine (key_of (id n)) (ks_public_key (signing_keyshare n)).
Definition combines (n : TreeNode) : Prop := is_Some (combined n).

(** The leaf's verifying key is this wallet's share plus the operators'. *)
Definition verified (n : TreeNode) : Prop := combined n = Some (verifying_public_key n).
#[export] Instance verified_dec n : Decision (verified n).
Proof. unfold verified. apply _. Defined.

Context (signer : signer_answers).

Lemma keys_return (l : list TreeNode) w :
  returns (try_all (λ leaf, call (get_public_key_for_leaf (id leaf))) l) w
    (λ r w', r = Ok ((λ n, key_of (id n)) <$> l) ∧ w'.1 = w.1).
Proof using signer.
  revert w. induction l as [|n l IH]; intros w; simpl; [by apply returns_ret|].
  destruct (signer (id n) w) as [Hk Hw].
  apply returns_try, returns_call. rewrite Hk.
  apply returns_try. eapply returns_weaken; [apply IH|]. intros ? w' [-> Hw'].
  apply returns_ret. split; [done|congruence].
Qed.

Lemma owned_ids_spec (l : list TreeNode) :
  Forall combines l →
  ∃ s, owned_ids (zip l ((λ n, key_of (id n)) <$> l)) = Ok s ∧
    ∀ i, i ∈ s ↔ ∃ n, n ∈ l ∧ id n = i ∧ verified n.
Proof.
  induction 1 as [|n l [c Hc] Hl (s & Hs & Hin)]; csimpl.
  { exists ∅. split; [done|]. intros i. split; [set_solver|]. by intros (n & ?%elem_of_nil & _). }
  unfold combined in Hc. rewrite Hc. simpl. rewrite Hs. simpl. eexists. split; [done|].
  intros i. unfold verified, combined in *. setoid_rewrite elem_of_cons.
  case_bool_decide as Hv; [rewrite elem_of_union, elem_of_singleton|]; rewrite Hin; split.
  - intros [->|(m & ? & ? & ?)]; [|by eauto 6]. exists n. split_and!; [by left|done|]. congruence.
  - intros (m & [->|?] & ? & ?); [by left|right; eauto].
  - intros (m & ? & ? & ?). eauto 6.
  - intros (m & [->|?] & ? & Hm); [|eauto]. rewrite Hc in Hm. congruence.
Qed.

Lemma retain_owned_returns (l : list TreeNode) w :
  Forall combines l →
  returns (retain_owned l) w (λ r w', w'.1 = w.1 ∧
    ∃ s, r = Ok s ∧ ∀ i, i ∈ s ↔ ∃ n, n ∈ l ∧ id n = i ∧ verified n).
Proof using signer.
  intros Hl. apply returns_try. eapply returns_weaken; [apply keys_return|]. intros ? w' [-> Hw].
  apply returns_ret. split; [done|]. by apply owned_ids_spec.
Qed.

Definition kept (l : list LeafPedigree) : list LeafPedigree := filter (λ p, verified (leaf p)) l.

Lemma restore_chains_returns ps w (Q : TreeResult unit → W → Prop) :
  (∀ w', w'.1 = (process_store_ancestors w.1 ps).2 → Q (Ok ()) w') →
  returns (restore_exit_chains ps) w Q.
Proof.
  intros HQ. unfold restore_exit_chains. destruct ps as [|p ps]; [by apply returns_ret, HQ|].
  apply returns_call, HQ. done.
Qed.

Lemma restore_leaves_returns (l : list LeafPedigree) w :
  Forall combines (leaf <$> l) → NoDup (pedigree_ids l) →
  returns (restore_leaves l) w (λ r w', r = Ok () ∧ ∃ t,
    w'.1 = (process_store_ancestors (process_add_leaves t w.1 (leaf <$> kept l)).2
      (complete_chains (kept l))).2).
Proof using signer.
  intros Hl Hnd. apply returns_try. eapply returns_weaken; [by apply retain_owned_returns|].
  intros ? w1 [Hw1 (s & -> & Hs)].
  assert (filter (λ p, id (leaf p) ∈ s) l = kept l) as ->.
  { apply filter_ext_in. intros p Hp. rewrite Hs. split.
    - intros (n & (q & -> & Hq)%list_elem_of_fmap & Hid & Hv).
      by rewrite <- (NoDup_fmap_inj (λ p, id (leaf p)) l q p Hnd Hq Hp Hid).
    - intros Hv. exists (leaf p). split_and!; [by apply list_elem_of_fmap_2|done|done]. }
  apply returns_try, returns_call. simpl. unfold run_command. simpl.
  apply restore_chains_returns. intros w2 Hw2. simpl in Hw2. split; [done|].
  exists (now w1.2). by rewrite Hw2, Hw1.
Qed.
(** ** The import as a whole *)

(** Every stored leaf's pedigree, as the export lists them. *)
Definition stored_pedigrees st : list LeafPedigree :=
  omap (stored_pedigree st) (leaf_ids (process_get_leaves st)).

Definition first_entries (peds : list LeafPedigree) : list LeafPedigree :=
  owned (foldl (sort_incoming me) no_incoming peds).

Definition written_rows st (peds : list LeafPedigree) : list LeafPedigree :=
  kept (omap (restored (nodes_by_id (stored_pedigrees st)) (held_by_id (stored_pedigrees st)))
    (first_entries peds)).

Definition written_chains st (peds : list LeafPedigree) : list LeafPedigree :=
  omap (rechained (nodes_by_id (stored_pedigrees st)) (held_by_id (stored_pedigrees st)))
    (first_entries peds).

Definition import_counts st (peds : list LeafPedigree) : ExitStateImport :=
  let s := foldl (sort_incoming me) no_incoming peds in
  let m := merge_all (repeated s) (stored_pedigrees st) (owned s) in
  {| imported_leaves := merged m; skipped_foreign_leaves := foreign s;
     skipped_conflicting_leaves := conflicting m; skipped_chains := unused_chains m |}.

Definition importable (peds : list LeafPedigree) : Prop :=
  Forall (λ p, node_wf (leaf p) ∧ combines (leaf p)) peds.

Lemma first_entries_spec peds :
  NoDup (pedigree_ids (first_entries peds)) ∧ ∀ p, p ∈ first_entries peds ↔ first_entry me peds p.
Proof. destruct (sort_incoming_owned me peds) as (? & ? & _). done. Qed.

Lemma first_entry_in peds p : first_entry me peds p → p ∈ peds ∧ owned_by me p.
Proof. intros (l & k & -> & ? & _). set_solver. Qed.

Lemma written_rows_importable st peds :
  importable peds → importable (omap (restored (nodes_by_id (stored_pedigrees st))
    (held_by_id (stored_pedigrees st))) (first_entries peds)).
Proof.
  unfold importable. rewrite !Forall_forall. intros Hp q (p & Hin & Hq)%list_elem_of_omap.
  apply first_entries_spec, first_entry_in in Hin as [Hin _].
  rewrite (restored_leaf _ _ _ _ Hq). by apply Hp.
Qed.

Lemma written_nodup st peds : NoDup (pedigree_ids (written_rows st peds ++ written_chains st peds)).
Proof.
  eapply NoDup_submseteq_l; [|apply (written_ids (nodes_by_id (stored_pedigrees st))
    (held_by_id (stored_pedigrees st)) _ (proj1 (first_entries_spec peds)))].
  apply fmap_submseteq, submseteq_app; [|done]. apply sublist_submseteq, sublist_filter.
Qed.

Lemma export_returns w :
  wf w.1 → returns export_exit_state w (λ r w', r = Ok (stored_pedigrees w.1) ∧ w'.1 = w.1).
Proof.
  intros Hwf. apply returns_try. unfold tree_call, list_leaves, load_exit_chains.
  apply returns_bind, returns_call. simpl. apply returns_ret. unfold run_command. simpl.
  apply returns_bind, returns_call. simpl. apply returns_ret. simpl.
  by rewrite get_exit_chains_eq.
Qed.

Lemma import_returns peds w :
  wf w.1 → importable peds →
  returns (import_exit_state me peds) w (λ r w', r = Ok (import_counts w.1 peds) ∧
    ∃ t, w'.1 = imported_state t w.1 (written_rows w.1 peds) (written_chains w.1 peds)).
Proof using signer.
  intros Hwf Himp. unfold import_exit_state, import_counts, written_rows, written_chains, first_entries.
  pose proof (written_rows_importable w.1 peds Himp) as Hrows.
  pose proof (written_ids (nodes_by_id (stored_pedigrees w.1)) (held_by_id (stored_pedigrees w.1)) _
    (proj1 (first_entries_spec peds))) as Hids.
  unfold first_entries in *. set (s := foldl (sort_incoming me) no_incoming peds) in *. clearbody s.
  destruct (owned s) as [|p0 o0] eqn:Ho.
  { apply returns_ret. split; [done|]. by exists 0. }
  rewrite <- Ho in *. clear p0 o0 Ho.
  apply returns_try. unfold tree_call at 1, list_leaves.
  apply returns_bind, returns_call. simpl. apply returns_ret.
  apply returns_try. unfold tree_call at 1, load_exit_chains.
  apply returns_bind, returns_call. simpl. apply returns_ret. simpl.
  rewrite get_exit_chains_eq by done. fold (stored_pedigrees w.1).
  destruct (merge_fold_spec (nodes_by_id (stored_pedigrees w.1)) (held_by_id (stored_pedigrees w.1))
    (no_merge (repeated s)) (owned s)) as (Hr & Hc & _). simpl in Hr, Hc.
  fold (merge_all (repeated s) (stored_pedigrees w.1) (owned s)) in Hr, Hc. rewrite Hr, Hc.
  set (R := omap (restored _ _) (owned s)) in *. set (C := omap (rechained _ _) (owned s)) in *.
  assert (returns (match R with [] => mret (Ok ()) | q :: l => tree_call (restore_leaves (q :: l)) end)
    (w.1, w.2) (λ r w', r = Ok () ∧ ∃ t,
      w'.1 = (process_store_ancestors (process_add_leaves t w.1 (leaf <$> kept R)).2
        (complete_chains (kept R))).2)) as Hrest.
  { clearbody R. destruct R as [|q R]; [apply returns_ret; split; [done|]; by exists 0|].
    apply returns_bind. eapply returns_weaken; [apply restore_leaves_returns|].
    - apply Forall_fmap. eapply Forall_impl; [exact Hrows|]. by intros ? [].
    - unfold pedigree_ids in *. rewrite fmap_app in Hids. by apply NoDup_app in Hids as [? _].
    - intros ? w' [-> Ht]. by apply returns_ret. }
  apply returns_try. eapply returns_weaken; [exact Hrest|]. intros ? w1 [-> [t Hw1]].
  apply returns_try. unfold tree_call. apply returns_bind, restore_chains_returns. intros w2 Hw2.
  apply returns_ret, returns_ret. split; [done|]. exists t. rewrite Hw2, Hw1. done.
Qed.
Lemma leaf_ids_stored st i :
  wf st → i ∈ leaf_ids (process_get_leaves st) ↔ is_Some (find_stored_leaf st i).
Proof.
  intros Hwf. destruct (leaf_ids_spec (process_get_leaves st)) as (_ & _ & ->).
  setoid_rewrite get_leaves_complete. split.
  - intros (n & Hn & <-). exists n. by apply elem_of_stored.
  - intros [n Hn]. exists n. pose proof (find_stored_leaf_id _ _ _ Hwf Hn) as Hid. split; [|done].
    apply elem_of_stored; [done|]. by rewrite Hid.
Qed.

Lemma stored_pedigree_Some st i p :
  wf st → stored_pedigree st i = Some p → find_stored_leaf st i = Some (leaf p) ∧ id (leaf p) = i.
Proof.
  intros Hwf (n & Hn & ->)%fmap_Some. simpl. split; [done|]. by eapply find_stored_leaf_id.
Qed.

Lemma held_stored st i : wf st → held_by_id (stored_pedigrees st) !! i = stored_pedigree st i.
Proof.
  intros Hwf. unfold held_by_id, stored_pedigrees.
  destruct (leaf_ids_spec (process_get_leaves st)) as (_ & Hnd & _).
  assert (∀ p, p ∈ omap (stored_pedigree st) (leaf_ids (process_get_leaves st)) ↔
    stored_pedigree st (id (leaf p)) = Some p) as Hin.
  { intros p. rewrite list_elem_of_omap. split.
    - intros (j & _ & Hj). destruct (stored_pedigree_Some _ _ _ Hwf Hj) as [_ ->]. done.
    - intros Hp. exists (id (leaf p)). split; [|done]. apply leaf_ids_stored; [done|].
      apply fmap_Some in Hp as (n & -> & _). by eexists. }
  assert (NoDup (pedigree_ids (omap (stored_pedigree st) (leaf_ids (process_get_leaves st))))) as Hnd'.
  { clear Hin. induction Hnd as [|j l Hj Hl IH]; csimpl; [apply NoDup_nil_2|].
    destruct (stored_pedigree st j) as [p|] eqn:E; [|done]. csimpl. constructor; [|done].
    destruct (stored_pedigree_Some _ _ _ Hwf E) as [_ ->].
    intros (q & Hid & (k & Hk & Hq)%list_elem_of_omap)%list_elem_of_fmap.
    destruct (stored_pedigree_Some _ _ _ Hwf Hq) as [_ Hqk]. congruence. }
  destruct (stored_pedigree st i) as [p|] eqn:E.
  - apply (hm_collect_NoDup _ _ p).
    + by rewrite <- list_fmap_compose.
    + destruct (stored_pedigree_Some _ _ _ Hwf E) as [_ <-].
      apply (list_elem_of_fmap_2 (λ p, (id (leaf p), p))), Hin. done.
  - apply hm_collect_None. intros Hi. rewrite <- list_fmap_compose in Hi.
    apply list_elem_of_fmap in Hi as (p & -> & Hp%Hin). simpl in E. congruence.
Qed.

Lemma written_rows_spec st peds q :
  q ∈ written_rows st peds ↔ verified (leaf q) ∧ ∃ p, first_entry me peds p ∧
    restored (nodes_by_id (stored_pedigrees st)) (held_by_id (stored_pedigrees st)) p = Some q.
Proof.
  unfold written_rows, kept. rewrite list_elem_of_filter, list_elem_of_omap.
  by setoid_rewrite (proj2 (first_entries_spec peds)).
Qed.

Lemma written_chains_spec st peds q :
  wf st → q ∈ written_chains st peds →
  first_entry me peds q ∧ find_stored_leaf st (id (leaf q)) = Some (leaf q) ∧
  rechained (nodes_by_id (stored_pedigrees st)) (held_by_id (stored_pedigrees st)) q = Some q ∧
  links_leaf_to_root (leaf q) (ancestors q) = true ∧ ancestors q ≠ [].
Proof.
  intros Hwf (p & Hp%first_entries_spec & Hq)%list_elem_of_omap.
  pose proof (rechained_self _ _ _ _ Hq) as (-> & _ & h & Hh & Hl & Hr).
  rewrite held_stored in Hh by done. destruct (stored_pedigree_Some _ _ _ Hwf Hh) as [Hf _].
  rewrite Hl in Hf. destruct (written_links _ _ p p (or_intror Hq)) as [[_ Hlink]|(Hbare & Hnone & _)].
  - split_and!; try done. eapply links_nonempty; [done|]. intros Hp0.
    unfold chain_reaches_root in Hr. by rewrite Hl, Hp0 in Hr.
  - rewrite held_stored in Hnone by done. congruence.
Qed.

Lemma written_rows_wf st peds : importable peds → Forall node_wf (leaf <$> written_rows st peds).
Proof.
  intros Hp. apply Forall_fmap. unfold written_rows, kept. apply Forall_forall.
  intros q [_ Hq]%list_elem_of_filter. pose proof (written_rows_importable st peds Hp) as Hi.
  unfold importable in Hi. rewrite Forall_forall in Hi. by apply Hi.
Qed.

(** What the import writes reads back as written. *)
Lemma written_reads_back st t peds q :
  wf st → importable peds → links_leaf_to_root (leaf q) (ancestors q) = true →
  q ∈ written_rows st peds ∨ q ∈ written_chains st peds →
  stored_pedigree (imported_state t st (written_rows st peds) (written_chains st peds))
    (id (leaf q)) = Some q.
Proof.
  intros Hwf Hp Hl [Hq|Hq].
  - apply imported_restored; auto using written_rows_wf, written_nodup.
  - destruct (written_chains_spec _ _ _ Hwf Hq) as (_ & Hf & _ & _ & Hne).
    apply imported_rechained; auto using written_rows_wf, written_nodup.
Qed.

Lemma written_entry st peds i :
  wf st → i ∈ pedigree_ids (written_rows st peds ++ written_chains st peds) →
  ∃ p q, first_entry me peds p ∧ id (leaf p) = i ∧ leaf q = leaf p ∧
    (q ∈ written_rows st peds ∧ verified (leaf p) ∨ q ∈ written_chains st peds) ∧
    (restored (nodes_by_id (stored_pedigrees st)) (held_by_id (stored_pedigrees st)) p = Some q ∨
     rechained (nodes_by_id (stored_pedigrees st)) (held_by_id (stored_pedigrees st)) p = Some q).
Proof.
  intros Hwf (q & [Hq|Hq]%elem_of_app & <-)%elem_of_pedigree_ids.
  - pose proof Hq as (Hv & p & Hf & Hr)%written_rows_spec. pose proof (restored_leaf _ _ _ _ Hr) as Hl.
    exists p, q. rewrite Hl in *. split_and!; auto.
  - pose proof (written_chains_spec _ _ _ Hwf Hq) as (Hf & _ & Hr & _). exists q, q. auto 10.
Qed.

Section after_import.
Context (st : LeavesState) (t : SystemTime) (peds : list LeafPedigree).
Context (Hwf : wf st) (Hp : importable peds).
Let after := imported_state t st (written_rows st peds) (written_chains st peds).

Lemma not_written i :
  i ∉ pedigree_ids (written_rows st peds ++ written_chains st peds) →
  stored_pedigree after i = stored_pedigree st i.
Proof. intros Hi. apply imported_other; auto using written_rows_wf, written_nodup. Qed.

Lemma exitable_kept i p :
  stored_pedigree st i = Some p → chain_reaches_root (leaf p) (ancestors p) = true →
  stored_pedigree after i = Some p.
Proof.
  intros Hi Hr. rewrite not_written; [done|].
  intros (p' & q & _ & <- & _ & _ & Hq)%written_entry; [|done].
  destruct (exitable_not_written (nodes_by_id (stored_pedigrees st))
    (held_by_id (stored_pedigrees st)) p' p) as [Hn1 Hn2]; [by rewrite held_stored|done|].
  rewrite Hn1, Hn2 in Hq. by destruct Hq.
Qed.

(** What is found under an id that was written. *)
Lemma written_found q :
  q ∈ written_rows st peds ∨ q ∈ written_chains st peds →
  find_stored_leaf after (id (leaf q)) = Some (leaf q).
Proof.
  intros [Hq|Hq].
  - apply imported_restored_find; auto using written_rows_wf, written_nodup.
  - pose proof (written_chains_spec _ _ _ Hwf Hq) as (_ & _ & _ & Hlink & _).
    pose proof (written_reads_back st t peds q Hwf Hp Hlink (or_intror Hq)) as Hs.
    apply fmap_Some in Hs as (n & Hn & Hq'). fold after in Hn. rewrite Hn. by rewrite Hq' at 1.
Qed.

Lemma nothing_disappears i : is_Some (find_stored_leaf st i) → is_Some (find_stored_leaf after i).
Proof.
  intros [n Hi]. destruct (decide (i ∈ pedigree_ids (written_rows st peds ++ written_chains st peds)))
    as [(p & q & _ & <- & Hl & Hq & _)%written_entry|Hn]; [|done|].
  - exists (leaf q). rewrite <- Hl. apply written_found. tauto.
  - pose proof (not_written i Hn) as Ho. unfold stored_pedigree in Ho. rewrite Hi in Ho. simpl in Ho.
    apply fmap_Some in Ho as (n' & -> & _). by eexists.
Qed.
End after_import.

(** C3: An import never costs an exit and brings back every exit the backup holds. It
    returns without error; a leaf whose stored chain reaches a root keeps its node
    and chain; no stored leaf disappears; the first entry of each leaf the wallet owns
    and can sign for, when its chain links it to a root and it agrees with what the
    wallet knows, leaves that leaf exitable, with its own chain or the one already
    stored; and a leaf only changes to the first entry the backup has for it, only if
    the signer confirms it or its row stays, and only if that entry agrees with what
    the wallet knows: under the id of each of the entry's nodes, the leaf and its
    ancestors, no stored pedigree has a node of another value or verifying key. *)
Theorem import_restores_exits peds w :
  wf w.1 → importable peds →
  returns (import_exit_state me peds) w (λ r w',
    r = Ok (import_counts w.1 peds) ∧ wf w'.1 ∧
    (∀ i p, stored_pedigree w.1 i = Some p → chain_reaches_root (leaf p) (ancestors p) = true →
       stored_pedigree w'.1 i = Some p) ∧
    (∀ i, is_Some (find_stored_leaf w.1 i) → is_Some (find_stored_leaf w'.1 i)) ∧
    (∀ p, first_entry me peds p → verified (leaf p) →
       links_leaf_to_root (leaf p) (ancestors p) = true →
       (∀ n, n ∈ pedigree_nodes p → agrees (nodes_by_id (stored_pedigrees w.1)) n) →
       ∃ q, stored_pedigree w'.1 (id (leaf p)) = Some q ∧
         chain_reaches_root (leaf q) (ancestors q) = true ∧
         (q = p ∨ stored_pedigree w.1 (id (leaf p)) = Some q)) ∧
    (∀ i, stored_pedigree w'.1 i ≠ stored_pedigree w.1 i →
       ∃ p, first_entry me peds p ∧ id (leaf p) = i ∧ find_stored_leaf w'.1 i = Some (leaf p) ∧
         (verified (leaf p) ∨ find_stored_leaf w.1 i = Some (leaf p)) ∧
         ∀ n, n ∈ pedigree_nodes p → agrees (nodes_by_id (stored_pedigrees w.1)) n)).
Proof using signer.
  intros Hwf Hp. eapply returns_weaken; [by apply import_returns|]. intros ? w' [-> [t Hw']]. rewrite Hw'.
  split_and!; [done|by apply wf_imported; auto using written_rows_wf, written_nodup| | | |].
  - intros i p. by apply exitable_kept.
  - intros i. by apply nothing_disappears.
  - intros p Hf Hv Hlinks Hagr.
    destruct (usable_written (nodes_by_id (stored_pedigrees w.1)) (held_by_id (stored_pedigrees w.1))
      p (importable_whole _ p Hlinks Hagr)) as [(h & Hh & Hr)|Hwritten].
    + rewrite held_stored in Hh by done. exists h. split_and!; [by apply exitable_kept|done|by right].
    + exists p. split_and!; [|by apply links_reaches_root|by left].
      apply (written_reads_back w.1 t peds p Hwf Hp Hlinks). destruct Hwritten as [Hr|Hr].
      * left. apply written_rows_spec. eauto.
      * right. apply list_elem_of_omap. exists p. split; [by apply first_entries_spec|done].
  - intros i Hne. destruct (decide (i ∈ pedigree_ids (written_rows w.1 peds ++ written_chains w.1 peds)))
      as [(p & q & Hf & <- & Hl & Hq & Hw)%written_entry|Hn]; [|done|by destruct Hne; apply not_written].
    pose proof (written_agrees _ _ _ _ Hw) as Hag. exists p. split_and!; [done|done| | |done].
    + rewrite <- Hl. apply written_found; [done|done|tauto].
    + destruct Hq as [[_ ?]|Hq]; [by left|right].
      pose proof (written_chains_spec _ _ _ Hwf Hq) as (_ & Hst & _). by rewrite Hl in Hst.
Qed.
(** ** The round trip *)

(** What an import into an empty store keeps of a pedigree. *)
Definition keep_linked p : LeafPedigree :=
  if links_leaf_to_root (leaf p) (ancestors p) then p else bare p.

Lemma keep_linked_leaf p : leaf (keep_linked p) = leaf p.
Proof. unfold keep_linked. by case_match. Qed.

Lemma nothing_contradicts (l : list TreeNode) : existsb (contradicts ∅) l = false.
Proof. induction l as [|n l IH]; [done|]. simpl. by rewrite IH. Qed.

Lemma importable_into_empty p :
  importable_parts p ∅ = if links_leaf_to_root (leaf p) (ancestors p)
    then ImportableParts.LeafAndChain else ImportableParts.LeafOnly.
Proof. unfold importable_parts. by rewrite nothing_contradicts. Qed.

Lemma into_empty p :
  restored ∅ ∅ p = Some (keep_linked p) ∧ rechained ∅ ∅ p = None ∧ conflicts ∅ ∅ p = false ∧
  leaves_chain ∅ ∅ p = negb (links_leaf_to_root (leaf p) (ancestors p)).
Proof.
  unfold restored, rechained, replaces, conflicts, leaves_chain, keep_linked.
  rewrite lookup_empty, importable_into_empty.
  by destruct (links_leaf_to_root _ _).
Qed.

Lemma omap_all {A C} (f : A → option C) (g : A → C) (l : list A) : (∀ x, f x = Some (g x)) → omap f l = g <$> l.
Proof. intros Hf. induction l as [|x l IH]; [done|]. csimpl. by rewrite Hf, IH. Qed.

Lemma omap_none {A C} (f : A → option C) (l : list A) : (∀ x, f x = None) → omap f l = [].
Proof. intros Hf. induction l as [|x l IH]; [done|]. csimpl. by rewrite Hf. Qed.

Lemma default_nothing_stored : stored_pedigrees LeavesState_default = [].
Proof.
  unfold stored_pedigrees. assert (leaf_ids (process_get_leaves LeavesState_default) = []) as ->; [|done].
  apply elem_of_nil_inv. intros i. rewrite leaf_ids_stored by apply wf_default.
  rewrite find_stored_leaf_is_Some.
  intros [[s Hs]|(rid & e & He & _)]; simpl in *; [by rewrite lookup_empty in Hs|].
  by rewrite lookup_empty in He.
Qed.

Lemma first_entries_all peds :
  NoDup (pedigree_ids peds) → Forall (owned_by me) peds → first_entries peds ≡ₚ peds.
Proof.
  intros Hnd Hme. destruct (first_entries_spec peds) as [Hnd' Hin].
  apply NoDup_Permutation.
  - by apply (NoDup_fmap_1 (λ p, id (leaf p))).
  - by apply (NoDup_fmap_1 (λ p, id (leaf p))).
  - intros p. rewrite Hin. split; [by intros [? _]%first_entry_in|].
    intros Hp. apply list_elem_of_split in Hp as (l & k & ->). exists l, k. split; [done|].
    rewrite Forall_forall in Hme. split; [apply Hme; set_solver|].
    intros q Hq _ Hid. unfold pedigree_ids in Hnd. rewrite fmap_app, NoDup_app in Hnd.
    destruct Hnd as (_ & Hdis & _). apply (Hdis (id (leaf q))).
    + by apply (list_elem_of_fmap_2 (λ p, id (leaf p))).
    + rewrite Hid. apply (list_elem_of_fmap_2 (λ p, id (leaf p))). by left.
Qed.

Definition empty_wallet_counts (peds : list LeafPedigree) : ExitStateImport :=
  {| imported_leaves := length peds; skipped_foreign_leaves := 0; skipped_conflicting_leaves := 0;
     skipped_chains := length (filter (λ p, links_leaf_to_root (leaf p) (ancestors p) = false) peds) |}.

Lemma import_counts_empty peds :
  NoDup (pedigree_ids peds) → Forall (owned_by me) peds →
  import_counts LeavesState_default peds = empty_wallet_counts peds.
Proof.
  intros Hnd Hme. unfold import_counts, empty_wallet_counts. rewrite default_nothing_stored.
  destruct (sort_incoming_owned me peds) as (_ & _ & Hfor & Hlen).
  pose proof (first_entries_all peds Hnd Hme) as Hperm. unfold first_entries in Hperm.
  set (s := foldl (sort_incoming me) no_incoming peds) in *.
  rewrite filter_none in Hfor.
  2:{ intros p Hp Hno. rewrite Forall_forall in Hme. by apply Hno, Hme. }
  pose proof (Permutation_length Hperm) as Hl. rewrite Hfor, Hl in Hlen. simpl in Hlen.
  destruct (merge_fold_spec ∅ ∅ (no_merge (repeated s)) (owned s)) as (_ & _ & Hm & Hc & Hu).
  unfold merge_all. change (nodes_by_id []) with (∅ : gmap TreeNodeId TreeNode).
  change (held_by_id []) with (∅ : gmap TreeNodeId LeafPedigree).
  rewrite Hm, Hc, Hu, Hfor. simpl.
  rewrite (omap_all (restored ∅ ∅) keep_linked), (omap_none (rechained ∅ ∅)) by (intros; apply into_empty).
  rewrite length_fmap, Hl, filter_none by (intros p _; by rewrite (proj1 (proj2 (proj2 (into_empty p))))).
  simpl. f_equal; [lia|]. rewrite (Nat.add_comm (repeated s)). replace (repeated s) with 0%nat by lia.
  rewrite Nat.add_0_r. rewrite Hperm. f_equal. apply filter_ext_in. intros p _.
  rewrite (proj2 (proj2 (proj2 (into_empty p)))). by destruct (links_leaf_to_root _ _).
Qed.

Lemma stored_pedigrees_ids st :
  wf st → pedigree_ids (stored_pedigrees st) = leaf_ids (process_get_leaves st).
Proof.
  intros Hwf. unfold stored_pedigrees.
  assert (∀ i, i ∈ leaf_ids (process_get_leaves st) → is_Some (find_stored_leaf st i)) as Hall.
  { intros i. by apply leaf_ids_stored. }
  induction (leaf_ids (process_get_leaves st)) as [|i l IH]; [done|]. csimpl.
  destruct (Hall i ltac:(by left)) as [n Hn]. unfold stored_pedigree at 1. rewrite Hn. csimpl.
  rewrite IH by (intros j Hj; apply Hall; by right).
  by rewrite (find_stored_leaf_id _ _ _ Hwf Hn).
Qed.

(** Two stores with the same leaves, up to [f], export the same, up to [f]. *)
Lemma same_export st st' (f : LeafPedigree → LeafPedigree) :
  wf st → wf st' → (∀ i, stored_pedigree st' i = f <$> stored_pedigree st i) →
  stored_pedigrees st' = f <$> stored_pedigrees st.
Proof.
  intros Hwf Hwf' Hf.
  assert (leaf_ids (process_get_leaves st') = leaf_ids (process_get_leaves st)) as Hids.
  { destruct (leaf_ids_spec (process_get_leaves st)) as (Hs & Hnd & _).
    destruct (leaf_ids_spec (process_get_leaves st')) as (Hs' & Hnd' & _).
    apply (StronglySorted_unique String.le); [done..|]. apply NoDup_Permutation; [done..|].
    intros i. rewrite !leaf_ids_stored by done. specialize (Hf i). unfold stored_pedigree in Hf.
    destruct (find_stored_leaf st' i), (find_stored_leaf st i); by simpl in Hf. }
  unfold stored_pedigrees. rewrite Hids. clear Hids.
  induction (leaf_ids (process_get_leaves st)) as [|i l IH]; [done|]. csimpl.
  rewrite Hf, IH. by destruct (stored_pedigree st i).
Qed.

Lemma stored_pedigrees_elem st p :
  wf st → p ∈ stored_pedigrees st ↔ stored_pedigree st (id (leaf p)) = Some p.
Proof.
  intros Hwf. unfold stored_pedigrees. rewrite list_elem_of_omap. split.
  - intros (i & _ & Hi). by destruct (stored_pedigree_Some _ _ _ Hwf Hi) as [_ ->].
  - intros Hp. exists (id (leaf p)). split; [|done]. apply leaf_ids_stored; [done|].
    destruct (stored_pedigree_Some _ _ _ Hwf Hp) as [-> _]. by eexists.
Qed.
Lemma written_into_empty peds :
  Forall (λ p, verified (leaf p)) peds → NoDup (pedigree_ids peds) → Forall (owned_by me) peds →
  written_chains LeavesState_default peds = [] ∧
  ∀ q, q ∈ written_rows LeavesState_default peds ↔ ∃ p, p ∈ peds ∧ q = keep_linked p.
Proof.
  intros Hv Hnd Hme. unfold written_chains, written_rows, kept. rewrite default_nothing_stored.
  change (nodes_by_id []) with (∅ : gmap TreeNodeId TreeNode).
  change (held_by_id []) with (∅ : gmap TreeNodeId LeafPedigree).
  rewrite (omap_all (restored ∅ ∅) keep_linked), (omap_none (rechained ∅ ∅)) by (intros; apply into_empty).
  split; [done|]. intros q. rewrite list_elem_of_filter, list_elem_of_fmap.
  setoid_rewrite (first_entries_all peds Hnd Hme). rewrite Forall_forall in Hv. split.
  - intros (_ & p & -> & Hp). eauto.
  - intros (p & Hp & ->). rewrite keep_linked_leaf. eauto.
Qed.

(** In an empty store, the import leaves of every pedigree what can be used. *)
Lemma imported_into_empty t peds i :
  importable peds → Forall (λ p, verified (leaf p)) peds → NoDup (pedigree_ids peds) →
  Forall (owned_by me) peds → Forall (λ p, parent_node_id (leaf p) ≠ Some (id (leaf p))) peds →
  let st' := imported_state t LeavesState_default (written_rows LeavesState_default peds)
    (written_chains LeavesState_default peds) in
  (∀ p, p ∈ peds → stored_pedigree st' (id (leaf p)) = Some (keep_linked p)) ∧
  (i ∉ pedigree_ids peds → stored_pedigree st' i = None).
Proof.
  intros Himp Hv Hnd Hme Hpar. cbn zeta.
  pose proof wf_default as Hwf.
  pose proof (written_rows_wf LeavesState_default peds Himp) as HV.
  pose proof (written_nodup LeavesState_default peds) as Hn.
  pose proof (written_into_empty peds Hv Hnd Hme) as [HC Hrows]. rewrite HC in *.
  assert (∀ i, find_stored_leaf LeavesState_default i = None) as Hnone.
  { intros j. pose proof (leaf_ids_stored LeavesState_default j Hwf) as Hj.
    rewrite <- stored_pedigrees_ids, default_nothing_stored in Hj by done. simpl in Hj.
    destruct (find_stored_leaf _ j); [|done]. assert (j ∈ []) as ?%elem_of_nil by (apply Hj; eauto). done. }
  split.
  - intros p Hp. rewrite <- (keep_linked_leaf p) at 1.
    assert (keep_linked p ∈ written_rows LeavesState_default peds) as Hin by (apply Hrows; eauto).
    destruct (links_leaf_to_root (leaf p) (ancestors p)) eqn:E.
    + apply imported_restored; [done..|]. unfold keep_linked. by rewrite E.
    + apply imported_bare; [done..| | |].
      * unfold keep_linked. by rewrite E.
      * apply Hnone.
      * rewrite keep_linked_leaf. rewrite Forall_forall in Hpar. by apply Hpar.
  - intros Hi. rewrite imported_other; [|done|done|].
    + unfold stored_pedigree. by rewrite Hnone.
    + rewrite app_nil_r. intros (q & (p & Hp & ->)%Hrows & <-)%elem_of_pedigree_ids.
      rewrite keep_linked_leaf in Hi. apply Hi, elem_of_pedigree_ids. eauto.
Qed.

(** C31: A backup of the exit state restores it. For a wallet each of whose stored
    leaves it owns and can sign for, none its own parent: reading it out, merging the
    result into an empty wallet and reading that one out gives the same leaves, in
    the same order; each has its ancestor chain exactly as it was when that chain
    links the leaf to a root, and no chain otherwise. The import reports every leaf
    as imported, and as many chains skipped as did not link. *)
Theorem export_import_roundtrip w w0 :
  wf w.1 → w0.1 = LeavesState_default →
  (∀ n, n ∈ stored_nodes w.1 → owner_identity_public_key n = Some me ∧ verified n ∧
     parent_node_id n ≠ Some (id n)) →
  returns export_exit_state w (λ r w1, w1.1 = w.1 ∧ ∃ peds,
    r = Ok peds ∧ pedigree_ids peds = leaf_ids (process_get_leaves w.1) ∧
    returns (import_exit_state me peds) w0 (λ r w2,
      r = Ok (empty_wallet_counts peds) ∧
      returns export_exit_state w2 (λ r _, r = Ok (keep_linked <$> peds)))).
Proof using signer.
  intros Hwf Hempty Hall. eapply returns_weaken; [by apply export_returns|].
  intros ? w1 [-> Hw1]. split; [done|]. exists (stored_pedigrees w.1).
  set (peds := stored_pedigrees w.1).
  pose proof (stored_pedigrees_ids w.1 Hwf) as Hids. fold peds in Hids. split_and!; [done|done|].
  assert (∀ p, p ∈ peds → leaf p ∈ stored_nodes w.1) as Hst.
  { intros p Hp%stored_pedigrees_elem; [|done]. apply elem_of_stored; [done|].
    by apply stored_pedigree_Some in Hp as [? _]. }
  assert (NoDup (pedigree_ids peds)) as Hnd by (rewrite Hids; apply leaf_ids_spec).
  assert (Forall (owned_by me) peds) as Hme by (apply Forall_forall; intros p Hp; by apply Hall, Hst).
  assert (Forall (λ p, verified (leaf p)) peds) as Hv by (apply Forall_forall; intros p Hp; by apply Hall, Hst).
  assert (Forall (λ p, parent_node_id (leaf p) ≠ Some (id (leaf p))) peds) as Hpar
    by (apply Forall_forall; intros p Hp; by apply Hall, Hst).
  assert (importable peds) as Himp.
  { apply Forall_forall. intros p Hp. pose proof (stored_nodes_wf w.1 Hwf) as Hn.
    rewrite Forall_forall in Hn. split; [by apply Hn, Hst|]. eexists. by apply Hall, Hst. }
  eapply returns_weaken; [apply import_returns; [rewrite Hempty; apply wf_default|done]|].
  intros ? w2 [-> [t Hw2]]. rewrite Hempty in *. rewrite import_counts_empty by done. split; [done|].
  assert (wf w2.1) as Hwf2.
  { rewrite Hw2. apply wf_imported; [apply wf_default|by apply written_rows_wf]. }
  eapply returns_weaken; [by apply export_returns|]. intros ? w3 [-> _]. f_equal.
  apply same_export; [done|done|]. intros i. rewrite Hw2.
  destruct (imported_into_empty t peds i Himp Hv Hnd Hme Hpar) as [Hin Hout].
  destruct (stored_pedigree w.1 i) as [p|] eqn:E.
  - destruct (stored_pedigree_Some _ _ _ Hwf E) as [_ <-].
    apply Hin, stored_pedigrees_elem; done.
  - apply Hout. intros (p & Hp%stored_pedigrees_elem & <-)%elem_of_pedigree_ids; [|done]. congruence.
Qed.
(** A leaf that records this wallet as its owner but whose key the signer does not
    confirm is counted as imported although [restore_leaves] drops it: into an empty
    wallet it imports as one leaf, and the store is left as it was. *)
Theorem unconfirmed_leaf_counts_as_imported p w :
  w.1 = LeavesState_default → node_wf (leaf p) → owned_by me p → combines (leaf p) →
  ¬ verified (leaf p) →
  returns (import_exit_state me [p]) w (λ r w', w'.1 = w.1 ∧ ∃ c, r = Ok c ∧ imported_leaves c = 1%nat).
Proof using signer.
  intros Hempty Hwf Hme Hc Hv.
  assert (importable [p]) as Himp by (constructor; [done|constructor]).
  eapply returns_weaken; [apply import_returns; [rewrite Hempty; apply wf_default|done]|].
  intros r w' [-> [t Hw']]. rewrite Hempty in *. split.
  - assert (written_rows LeavesState_default [p] = []) as HV.
    { apply elem_of_nil_inv. intros q (Hq & p' & Hf & Hr)%written_rows_spec.
      apply first_entry_in in Hf as [->%list_elem_of_singleton _].
      by rewrite (restored_leaf _ _ _ _ Hr) in Hq. }
    assert (written_chains LeavesState_default [p] = []) as HC.
    { apply elem_of_nil_inv. intros q (_ & Hq & _)%written_chains_spec; [|apply wf_default].
      pose proof (wf_default (H := B)) as Hwfd.
      assert (is_Some (find_stored_leaf LeavesState_default (id (leaf q)))) as Hs by (by eexists).
      apply leaf_ids_stored in Hs; [|done].
      rewrite <- stored_pedigrees_ids, default_nothing_stored in Hs by done. by apply elem_of_nil in Hs. }
    by rewrite Hw', HV, HC.
  - eexists. split; [done|]. rewrite import_counts_empty; [done| |by constructor].
    apply NoDup_singleton.
Qed.
End import.

(** ** A backup of one leaf *)

#[local] Existing Instances btc68 btctx68.
#[local] Instance backup_order : HashIter string := canonical_iter string.
Abbreviation BackupWorld := (LeavesState * nat)%type.

#[local] Instance backup_store : TreeStoreApi BackupWorld :=
  in_memory_store TreeStoreSystem.new Z.of_nat (λ _ _, "r"%string) (λ _, Acquired).

(** A signer with one key, and keys that combine to the wallet's share. *)
Definition backup_key : @PublicKey btc68 := "key"%string.

#[local] Instance backup_env : ServiceEnv BackupWorld :=
  {| identity_pubkey := backup_key; Client := unit; coordinator := ();
     non_coordinator_operators := [];
     client_query_nodes _ _ w := (Ok ([], 0), w);
     timelock_manager_check_renew_nodes p w := (Ok p, w);
     swap_service_swap_leaves l _ w := (Ok l, w);
     is_remote := false; get_public_key_for_leaf _ w := (Ok backup_key, w);
     combine a _ := Some a; wait_elapsed w := (0, w);
     show_duration _ := "some time"; balance_changed w := (Changed, w);
     sleep_ms _ w := w; exit_state_changed := None; leaves_added w := w |}.

Definition backup_leaf : TreeNode := sample_node backup_key a_tx "a" 10000 (Some "root"%string).
Definition backup_root : TreeNode := sample_node backup_key root_tx "root" 30000 None.
Definition backup_pedigree : LeafPedigree := {| leaf := backup_leaf; ancestors := [backup_root] |}.

Lemma backup_links : links_leaf_to_root backup_leaf [backup_root] = true.
Proof. vm_compute. reflexivity. Qed.

Lemma backup_signer : signer_answers (λ _, backup_key).
Proof. by intros i w. Qed.

(** The wallet that is backed up: the leaf and its chain. *)
Definition backed_up : BackupWorld :=
  ((process_store_ancestors (process_add_leaves 0 LeavesState_default [backup_leaf]).2
      [backup_pedigree]).2, 0%nat).
Definition empty_wallet : BackupWorld := (LeavesState_default, 0%nat).

Lemma backed_up_wf : wf backed_up.1.
Proof.
  apply wf_store_ancestors, wf_process_add_leaves; [apply wf_default|].
  constructor; [|done]. unfold node_wf, in_uint. simpl. lia.
Qed.

Lemma backed_up_nodes n : n ∈ stored_nodes backed_up.1 → n = backup_leaf.
Proof.
  assert (stored_nodes backed_up.1 = [backup_leaf]) as -> by reflexivity.
  by intros ?%list_elem_of_singleton.
Qed.

Example export_import_roundtrip_witness :
  returns export_exit_state backed_up (λ r w1, w1.1 = backed_up.1 ∧ ∃ peds,
    r = Ok peds ∧ pedigree_ids peds = ["a"%string] ∧
    returns (import_exit_state backup_key peds) empty_wallet (λ r w2,
      r = Ok (empty_wallet_counts peds) ∧
      returns export_exit_state w2 (λ r _, r = Ok (keep_linked <$> peds)))).
Proof.
  pose proof (export_import_roundtrip TreeStoreSystem.new Z.of_nat (λ _ _, "r"%string)
    (λ _, Acquired) backup_key (λ _, backup_key) backup_signer backed_up empty_wallet) as H.
  exact (H backed_up_wf eq_refl ltac:(intros n ->%backed_up_nodes; done)).
Defined.

Lemma backup_importable : importable (λ _, backup_key) [backup_pedigree].
Proof.
  constructor; [|done]. split; [unfold node_wf, in_uint; simpl; lia|]. by eexists.
Qed.

(** Into an empty wallet the leaf comes back exitable. *)
Example import_restores_exits_witness :
  returns (import_exit_state backup_key [backup_pedigree]) empty_wallet (λ _ w',
    ∃ q, stored_pedigree w'.1 "a"%string = Some q ∧ chain_reaches_root (leaf q) (ancestors q) = true).
Proof.
  eapply returns_weaken.
  - apply (import_restores_exits TreeStoreSystem.new Z.of_nat (λ _ _, "r"%string)
      (λ _, Acquired) backup_key (λ _, backup_key) backup_signer [backup_pedigree] empty_wallet).
    + apply wf_default.
    + exact backup_importable.
  - intros r w' (_ & _ & _ & _ & Hback & _).
    destruct (Hback backup_pedigree) as (q & Hq & Hr & _); [|done| | |by exists q].
    + exists [], []. split_and!; [done|done|]. by intros q ?%elem_of_nil.
    + exact backup_links.
    + intros n _ m. change (stored_pedigrees empty_wallet.1) with (stored_pedigrees LeavesState_default).
      rewrite default_nothing_stored. change (nodes_by_id []) with (∅ : gmap TreeNodeId TreeNode).
      intros Hm. by rewrite lookup_empty in Hm.
Defined.

(** Another wallet's leaf under this wallet's name. *)
Definition forged_leaf : TreeNode := {|
  id := "f"; tree_id := "tree"; value := 10000; parent_node_id := None; node_tx := root_tx;
  refund_tx := None; direct_tx := None; direct_refund_tx := None;
  direct_from_cpfp_refund_tx := None; vout := 0; verifying_public_key := ("other"%string : @PublicKey btc68);
  owner_identity_public_key := Some backup_key;
  signing_keyshare := {| owner_identifiers := []; threshold := 1; ks_public_key := backup_key |};
  status := TreeNodeStatus.Available |}.

Example unconfirmed_leaf_witness :
  returns (import_exit_state backup_key [{| leaf := forged_leaf; ancestors := [] |}]) empty_wallet
    (λ r w', w'.1 = LeavesState_default ∧ ∃ c, r = Ok c ∧ imported_leaves c = 1%nat).
Proof.
  apply (unconfirmed_leaf_counts_as_imported TreeStoreSystem.new Z.of_nat (λ _ _, "r"%string)
    (λ _, Acquired) backup_key (λ _, backup_key) backup_signer
    {| leaf := forged_leaf; ancestors := [] |} empty_wallet).
  - done.
  - unfold node_wf, in_uint. simpl. lia.
  - done.
  - by eexists.
  - done.
Defined.
