(* ===== verification/ExitChainResolverSpec.v ===== *)
(** * How often the resolver asks

    The laws of [ResolverService], and the pacing of the retries over any mix of passes.
    [ExitChainResolverStore] has the passes over the in-memory store. *)

From S2P Require Import Prelude Bitcoin TreeModel ExitChain Paging.
From S2P Require Import TreeService ExitChainResolver.

(** What the service promises: [clock] is the time its world has reached and [asked]
    the leaves the operators were asked about, in order. *)
Class ResolverLaws `{Bitcoin} (W : Type) `{!ResolverService W} := {
  clock : W → SystemTime;
  asked : W → list TreeNodeId;
  now_law w :
    (system_now w).1 = clock (system_now w).2 ∧ clock w ≤ clock (system_now w).2 ∧
    asked (system_now w).2 = asked w;
  missing_law w :
    ends_in missing_chains w (λ r w',
      clock w ≤ clock w' ∧ asked w' = asked w ∧
      match r with Ok l => NoDup l | Err _ => True end);
  fetch_law ids w :
    ends_in (fetch_pedigrees ids) w (λ ps w',
      clock w ≤ clock w' ∧ asked w' = asked w ++ ids ∧ ∀ p, p ∈ ps → id (leaf p) ∈ ids);
  put_law ps w :
    ends_in (put_exit_chains ps) w (λ _ w', clock w ≤ clock w' ∧ asked w' = asked w);
}.

Section pacing.
Context `{ResolverLaws W}.
Implicit Types (w : W) (s : W * Backoffs) (b : Backoffs) (i : TreeNodeId).

Lemma ends_in_served {A} (m : proc W A) s (Q : A → W * Backoffs → Prop) :
  ends_in m s.1 (λ a w, Q a (w, s.2)) → ends_in (served m) s Q.
Proof. unfold ends_in, served. by destruct (m s.1) as [[? ?]|]. Qed.

(** A leaf whose chain is missing and stays so: the operators cannot complete it. *)
Record stubborn i : Prop := {
  stays_missing w : ends_in missing_chains w (λ r _, ∀ l, r = Ok l → i ∈ l);
  stays_partial ids w :
    ends_in (fetch_pedigrees ids) w (λ ps _, ∀ p, p ∈ ps → id (leaf p) = i → is_complete p = false);
}.

(** [ends_in] of the same call under two laws. *)
Lemma ends_in_and {A} (m : proc W A) w (P Q : A → W → Prop) :
  ends_in m w P → ends_in m w Q → ends_in m w (λ a w', P a w' ∧ Q a w').
Proof. unfold ends_in. by destruct (m w) as [[? ?]|]. Qed.

(** ** The entry of one leaf through a pass *)

Lemma record_all_notin now l b i : i ∉ l → foldl (record_failure now) b l !! i = b !! i.
Proof.
  revert b. induction l as [|j l IH]; intros b Hi; [done|]. simpl.
  apply not_elem_of_cons in Hi as [? ?]. rewrite IH by done. by apply record_failure_ne.
Qed.

Lemma failed_once_pos now e :
  (∀ x, e = Some x → 0 < delay x) → 0 < delay (failed_once now e).
Proof.
  intros He. unfold failed_once, INITIAL_RETRY_DELAY, MAX_RETRY_DELAY, secs.
  destruct e as [x|]; simpl; [|lia]. specialize (He x eq_refl). destruct (_ <? _); simpl; lia.
Qed.

Lemma record_all_in now l b i :
  (∀ e, b !! i = Some e → 0 < delay e) → i ∈ l →
  foldl (record_failure now) b l !! i = Some (failed_once now (b !! i)).
Proof.
  revert b. induction l as [|j l IH]; intros b Hb Hi; [by apply elem_of_nil in Hi|]. simpl.
  destruct (decide (j = i)) as [->|Hne].
  - destruct (decide (i ∈ l)) as [Hl|Hl].
    + rewrite IH; [|intros e; rewrite record_failure_eq; intros [= <-]; by apply failed_once_pos|done].
      rewrite record_failure_eq, failed_once_idem; [done|].
      destruct (b !! i) as [e|]; simpl; [specialize (Hb e eq_refl); lia|].
      unfold INITIAL_RETRY_DELAY, secs. lia.
    + by rewrite record_all_notin, record_failure_eq.
  - apply elem_of_cons in Hi as [->|Hi]; [done|].
    rewrite IH; rewrite ?record_failure_ne by done; done.
Qed.

Lemma delete_all_notin (ps : list LeafPedigree) b i :
  i ∉ (λ p, id (leaf p)) <$> ps → foldl (λ b p, delete (id (leaf p)) b) b ps !! i = b !! i.
Proof.
  revert b. induction ps as [|p ps IH]; intros b Hi; [done|]. simpl.
  apply not_elem_of_cons in Hi as [? ?]. rewrite IH by done. by apply lookup_delete_ne.
Qed.

Lemma elem_of_failed ids ps i :
  i ∈ failed_leaves ids ps ↔
    (∃ p, p ∈ ps ∧ is_complete p = false ∧ id (leaf p) = i) ∨
    (i ∈ ids ∧ ∀ p, p ∈ ps → id (leaf p) ≠ i).
Proof.
  unfold failed_leaves. rewrite elem_of_app, list_elem_of_fmap, list_elem_of_filter.
  rewrite elem_of_list_to_set, list_elem_of_fmap. setoid_rewrite list_elem_of_filter.
  naive_solver.
Qed.

(** A batch fails the leaf once when it asks about it, and leaves it alone otherwise. *)
Lemma batch_outcome now ids ps b i :
  (∀ e, b !! i = Some e → 0 < delay e) →
  (∀ p, p ∈ ps → id (leaf p) ∈ ids) →
  (∀ p, p ∈ ps → id (leaf p) = i → is_complete p = false) →
  record_outcomes (filter (λ p, is_complete p = true) ps) (failed_leaves ids ps) now b !! i =
    if decide (i ∈ ids) then Some (failed_once now (b !! i)) else b !! i.
Proof.
  intros Hb Hids Hpart. unfold record_outcomes.
  assert (i ∉ (λ p, id (leaf p)) <$> filter (λ p, is_complete p = true) ps) as Hr.
  { rewrite list_elem_of_fmap. intros (p & -> & [Hc Hp]%list_elem_of_filter).
    by rewrite (Hpart p Hp) in Hc. }
  destruct (decide (i ∈ ids)) as [Hi|Hi].
  - rewrite record_all_in; rewrite ?delete_all_notin by done; [done|done|].
    apply elem_of_failed.
    destruct (decide (i ∈ (λ p, id (leaf p)) <$> ps)) as [(p & -> & Hp)%list_elem_of_fmap|Hn]; [left; eauto|].
    right. split; [done|]. intros p Hp <-. apply Hn, list_elem_of_fmap. eauto.
  - rewrite record_all_notin; [by apply delete_all_notin|].
    rewrite elem_of_failed. naive_solver.
Qed.

Definition positive b i : Prop := ∀ e, b !! i = Some e → INITIAL_RETRY_DELAY ≤ delay e ≤ MAX_RETRY_DELAY.

Lemma resolve_batches i now ls s :
  stubborn i → positive s.2 i → NoDup (concat ls) →
  ends_in (each (resolve_batch now) ls) s (λ r s',
    clock s.1 ≤ clock s'.1 ∧
    (s'.2 !! i = s.2 !! i ∨ s'.2 !! i = Some (failed_once now (s.2 !! i)) ∧ i ∈ concat ls) ∧
    (r = Ok () → asked s'.1 = asked s.1 ++ concat ls ∧
     s'.2 !! i = if decide (i ∈ concat ls) then Some (failed_once now (s.2 !! i)) else s.2 !! i)).
Proof.
  intros Hs. revert s. induction ls as [|ids ls IH]; intros [w b] Hpos Hnd; simpl.
  { apply ends_in_ret. split_and!; [done|by left|]. intros _. by rewrite app_nil_r. }
  apply NoDup_app in Hnd as (Hnd & Hdis & Hnd').
  apply ends_in_try, ends_in_bind, ends_in_served. simpl.
  eapply ends_in_weaken; [apply ends_in_and; [apply fetch_law|apply (stays_partial i Hs)]|].
  intros ps w1 [(Hc1 & Ha1 & Hids) Hpart].
  apply ends_in_try, ends_in_served. simpl.
  eapply ends_in_weaken; [apply put_law|].
  intros [[]|e] w2 (Hc2 & Ha2); [|simpl; split_and!; [lia|by left|done]].
  apply ends_in_bind, ends_in_modify, ends_in_ret. simpl.
  assert (∀ e, b !! i = Some e → 0 < delay e) as Hp0.
  { intros e He. specialize (Hpos e He). unfold INITIAL_RETRY_DELAY, secs in Hpos. lia. }
  pose proof (batch_outcome now ids ps b i Hp0 Hids Hpart) as Hb. set (b' := record_outcomes _ _ _ _) in *.
  eapply ends_in_weaken; [apply (IH (w2, b'))|].
  - simpl. intros e. rewrite Hb. case_decide; [|apply Hpos]. intros [= <-]. by apply failed_once_delay.
  - done.
  - specialize (Hdis i). simpl. intros r s' (Hc & He & Hok). split_and!; [lia| |].
    + rewrite Hb in He. rewrite elem_of_app.
      destruct (decide (i ∈ ids)) as [Hd|Hd], He as [He|[He Hin]]; rewrite He; auto.
      by destruct (Hdis Hd Hin).
    + intros Hr. destruct (Hok Hr) as [Ha He']. rewrite Hb in He'. split.
      * by rewrite Ha, Ha2, Ha1, <- app_assoc.
      * rewrite He'. destruct (decide (i ∈ ids)) as [Hd|Hd].
        -- rewrite decide_False by auto. by rewrite decide_True by (apply elem_of_app; auto).
        -- destruct (decide (i ∈ concat ls)) as [Hl|Hl].
           ++ by rewrite decide_True by (apply elem_of_app; auto).
           ++ by rewrite decide_False by (rewrite elem_of_app; tauto).
Qed.

(** The outcome of a whole pass, for a stubborn leaf. *)
Definition times_asked i s : nat := length (filter (λ j, j = i) (asked s.1)).

Lemma count_once i (l : list TreeNodeId) :
  NoDup l → length (filter (λ j, j = i) l) = if decide (i ∈ l) then 1%nat else 0%nat.
Proof.
  induction 1 as [|j l Hj Hl IH]; [done|]. rewrite filter_cons.
  destruct (decide (j = i)) as [->|Hne]; simpl.
  - rewrite IH. rewrite (decide_False (P := i ∈ l)), decide_True by set_solver. done.
  - rewrite IH. destruct (decide (i ∈ l)); [rewrite decide_True|rewrite decide_False]; set_solver.
Qed.

Lemma pass_outcome i h s :
  stubborn i → positive s.2 i →
  ends_in (resolve h) s (λ r s',
    clock s.1 ≤ clock s'.1 ∧
    (((r = Ok () → times_asked i s' = times_asked i s) ∧ s'.2 !! i = s.2 !! i) ∨
     ∃ now, clock s.1 ≤ now ≤ clock s'.1 ∧
       (r = Ok () → times_asked i s' = S (times_asked i s)) ∧
       s'.2 !! i = Some (failed_once now (s.2 !! i)) ∧
       (h = true → ∀ e, s.2 !! i = Some e → retry_at e ≤ now))).
Proof.
  intros Hs Hpos. destruct s as [w b]. simpl in *.
  apply ends_in_try, ends_in_served. simpl.
  eapply ends_in_weaken; [apply ends_in_and; [apply missing_law|apply (stays_missing i Hs)]|].
  intros [missing|e] w1 [(Hc1 & Ha1 & Hnd) Hin].
  2:{ split; [done|]. by left. }
  specialize (Hin missing eq_refl).
  apply ends_in_bind, ends_in_modify. simpl.
  set (b1 := retain_backoff _ b).
  assert (b1 !! i = b !! i) as Hb1.
  { unfold b1, retain_backoff. destruct (b !! i) as [e|] eqn:E.
    - apply map_lookup_filter_Some. split; [done|]. simpl. by apply elem_of_list_to_set.
    - apply map_lookup_filter_None. by left. }
  destruct missing as [|j0 missing0]; [by apply elem_of_nil in Hin|].
  set (missing := j0 :: missing0) in *. clearbody missing.
  apply ends_in_bind, ends_in_served, ends_in_call. simpl.
  destruct (now_law w1) as (Hnow & Hc2 & Ha2). destruct (system_now w1) as [now w2]. simpl in *. subst now.
  apply ends_in_bind.
  assert (∀ candidates, NoDup candidates →
    (i ∈ candidates → h = true → ∀ e, b !! i = Some e → retry_at e ≤ clock w2) →
    ends_in (each (resolve_batch (clock w2)) (chunks LEAVES_PER_FETCH candidates)) (w2, b1) (λ r s',
      clock w ≤ clock s'.1 ∧
      (((r = Ok () → times_asked i s' = times_asked i (w, b)) ∧ s'.2 !! i = b !! i) ∨
       ∃ now, clock w ≤ now ≤ clock s'.1 ∧
         (r = Ok () → times_asked i s' = S (times_asked i (w, b))) ∧
         s'.2 !! i = Some (failed_once now (b !! i)) ∧
         (h = true → ∀ e, b !! i = Some e → retry_at e ≤ now)))) as Hgo.
  { intros candidates Hcn Hdue.
    eapply ends_in_weaken; [apply (resolve_batches i (clock w2) _ (w2, b1) Hs)|].
    - intros e. simpl. rewrite Hb1. apply Hpos.
    - rewrite chunks_concat; [done|unfold LEAVES_PER_FETCH; lia].
    - simpl. intros r s'. rewrite chunks_concat by (unfold LEAVES_PER_FETCH; lia).
      intros (Hc & He & Hok). split; [lia|]. rewrite Hb1 in He, Hok. unfold times_asked. simpl.
      destruct r as [[]|e].
      + destruct (Hok eq_refl) as [-> He'].
        rewrite Ha2, Ha1, filter_app, length_app, (count_once i candidates) by done.
        case_decide as Hd; [right|left; split; [lia|done]].
        exists (clock w2). split_and!; [lia|lia|lia|done|by apply Hdue].
      + destruct He as [He|[He Hic]]; [left; by split|right].
        exists (clock w2). split_and!; [lia|lia|done|done|by apply Hdue]. }
  destruct h.
  - apply ends_in_call. simpl. apply Hgo.
    + by apply NoDup_filter.
    + intros [Hd _]%list_elem_of_filter _ e He. rewrite Hb1, He in Hd.
      by apply Z.leb_le.
  - apply ends_in_ret. apply Hgo; [done|by intros].
Qed.

(** ** Pacing *)

(** The delay before the [n]th retry, counting from zero, and the sum of the first [n]. *)
Fixpoint nth_delay (n : nat) : Duration :=
  match n with O => INITIAL_RETRY_DELAY | S n => Z.min (nth_delay n * 2) MAX_RETRY_DELAY end.
Fixpoint total_delay (n : nat) : Duration :=
  match n with O => 0 | S n => total_delay n + nth_delay n end.

Lemma nth_delay_range n : INITIAL_RETRY_DELAY ≤ nth_delay n ≤ MAX_RETRY_DELAY.
Proof. induction n; simpl; unfold INITIAL_RETRY_DELAY, MAX_RETRY_DELAY, secs in *; lia. Qed.

Lemma nth_delay_max n : (6 ≤ n)%nat → nth_delay n = MAX_RETRY_DELAY.
Proof.
  intros Hn. replace n with (n - 6 + 6)%nat by lia. induction (n - 6)%nat as [|k IH]; [done|].
  simpl in *. rewrite IH. unfold MAX_RETRY_DELAY, secs. lia.
Qed.

(** Six delays are shorter than the longest, by 8910 seconds together. *)
Lemma total_delay_lower n : Z.of_nat n * MAX_RETRY_DELAY ≤ total_delay n + secs 8910.
Proof.
  destruct (decide (n < 6)%nat) as [Hn|Hn].
  - do 6 (destruct n as [|n]; [by vm_compute|]). lia.
  - replace n with (n - 6 + 6)%nat by lia. induction (n - 6)%nat as [|k IH]; [by vm_compute|].
    change (S k + 6)%nat with (S (k + 6)). cbn [total_delay].
    rewrite nth_delay_max by lia. unfold MAX_RETRY_DELAY, secs in *. lia.
Qed.

(** Passes of both kinds, with anything that is not the resolver in between, counting
    how often [i] was asked about by the passes that honour the backoff and end without
    an error. *)
Definition counts (h : bool) (r : TreeResult unit) : bool :=
  match r with Ok _ => h | Err _ => false end.

Inductive watched i s0 : nat → W * Backoffs → Prop :=
| watch_start : watched i s0 O s0
| watch_pass n h s r s' :
    watched i s0 n s → resolve h s = Some (r, s') →
    watched i s0 (if counts h r then n + (times_asked i s' - times_asked i s) else n)%nat s'
| watch_other n w b w' :
    watched i s0 n (w, b) → clock w ≤ clock w' → watched i s0 n (w', b).

Definition paced i (start : SystemTime) (n : nat) s : Prop :=
  start + total_delay (Nat.pred n) ≤ clock s.1 ∧
  match s.2 !! i with
  | Some e =>
      nth_delay (Nat.pred n) ≤ delay e ≤ MAX_RETRY_DELAY ∧ start + total_delay n ≤ retry_at e
  | None => n = O
  end.

Lemma failed_once_due now e :
  retry_at e ≤ now →
  failed_once now (Some e) =
    let d := Z.min (delay e * 2) MAX_RETRY_DELAY in {| retry_at := now + d; delay := d |}.
Proof. intros Hdue. simpl. by rewrite (proj2 (Z.ltb_ge _ _)). Qed.

(** A retry that was due takes the schedule a step further. *)
Lemma next_delay n d :
  nth_delay (Nat.pred n) ≤ d → n ≠ O → nth_delay n ≤ Z.min (d * 2) MAX_RETRY_DELAY.
Proof. destruct n as [|n]; [done|]. simpl. unfold MAX_RETRY_DELAY, secs. lia. Qed.

(** A failure recorded at any time keeps the schedule. *)
Lemma paced_failure i start n s s' now :
  paced i start n s → clock s.1 ≤ now ≤ clock s'.1 →
  s'.2 !! i = Some (failed_once now (s.2 !! i)) → paced i start n s'.
Proof.
  intros [Hc He] [Hn Hn'] Hb. split; [lia|]. rewrite Hb.
  pose proof (nth_delay_range (Nat.pred n)) as Hrange.
  destruct (s.2 !! i) as [e|]; simpl.
  - destruct He as [Hd Hret]. destruct (Z.ltb_spec now (retry_at e)); [lia|]. simpl.
    unfold MAX_RETRY_DELAY, INITIAL_RETRY_DELAY, secs in *. lia.
  - subst n. simpl in *. unfold MAX_RETRY_DELAY, INITIAL_RETRY_DELAY, secs in *. lia.
Qed.

(** A failure recorded when the leaf was due is the schedule's next step. *)
Lemma paced_retry i start n s s' now :
  paced i start n s → clock s.1 ≤ now ≤ clock s'.1 →
  (∀ e, s.2 !! i = Some e → retry_at e ≤ now) →
  s'.2 !! i = Some (failed_once now (s.2 !! i)) → paced i start (S n) s'.
Proof.
  intros [Hc He] [Hn Hn'] Hdue Hb. unfold paced. rewrite Hb.
  pose proof (nth_delay_range n) as Hrange. pose proof (nth_delay_range (Nat.pred n)) as Hrange'.
  destruct (s.2 !! i) as [e|] eqn:E.
  - destruct He as [Hd Hret]. specialize (Hdue e eq_refl). rewrite failed_once_due by done.
    cbn [Nat.pred total_delay retry_at delay].
    assert (nth_delay n ≤ Z.min (delay e * 2) MAX_RETRY_DELAY) as Hnext.
    { destruct n as [|n]; [|apply next_delay; [apply Hd|done]].
      simpl in *. unfold MAX_RETRY_DELAY, INITIAL_RETRY_DELAY, secs in *. lia. }
    unfold MAX_RETRY_DELAY, secs in *. lia.
  - subst n. simpl in *. unfold MAX_RETRY_DELAY, INITIAL_RETRY_DELAY, secs in *. lia.
Qed.

Lemma paced_pass i start n h s r s' :
  stubborn i → paced i start n s → resolve h s = Some (r, s') →
  paced i start (if counts h r then n + (times_asked i s' - times_asked i s) else n)%nat s'.
Proof.
  intros Hs Hp Hr.
  assert (positive s.2 i) as Hpos.
  { destruct Hp as [_ He]. intros e Hi. rewrite Hi in He.
    pose proof (nth_delay_range (Nat.pred n)). lia. }
  pose proof (ends_in_use _ _ _ _ _ (pass_outcome i h s Hs Hpos) Hr) as
    [Hc' [[Ha Hb]|(now & Hn & Ha & Hb & Hdue)]].
  - replace (if counts h r then _ else n) with n.
    + destruct Hp as [Hc He]. split; [lia|]. by rewrite Hb.
    + destruct r as [[]|]; simpl; [|done]. rewrite (Ha eq_refl). destruct h; lia.
  - destruct (counts h r) eqn:Hcount; [|by eapply paced_failure].
    destruct r as [[]|]; [simpl in Hcount|done]. rewrite (Ha eq_refl).
    replace (n + (S (times_asked i s) - times_asked i s))%nat with (S n) by lia.
    eapply paced_retry; try done. by apply Hdue.
Qed.

(** C36: A leaf the operators cannot complete is asked for again only as often as the
    doubling schedule allows, as far as passes that honour the backoff go and end
    without an error: over any sequence of passes, the [n]th such request comes no
    earlier than the sum of the first [n - 1] delays of 30 seconds doubling up to 30
    minutes, so that a span has at most six of them and one more per half hour.
    Requests of passes that ignore the backoff, or that end with an error (a batch
    whose chains the store does not accept records no failure), are not counted and
    are not paced; they do not make the counted ones come any earlier. *)
Theorem retries_are_paced i w0 n w b :
  stubborn i → watched i (w0, ∅) n (w, b) →
  clock w0 + total_delay (n - 1) ≤ clock w ∧
  (Z.of_nat n - 6) * MAX_RETRY_DELAY ≤ clock w - clock w0.
Proof.
  intros Hs Hw.
  assert (paced i (clock w0) n (w, b)) as [Hc _].
  { remember (w, b) as s. clear Heqs. remember (w0, ∅ : Backoffs) as s0.
    induction Hw as [|n h s r s' Hw IH Hr|n w1 b1 w1' Hw IH Hc]; subst.
    - split; simpl; [lia|done].
    - by eapply paced_pass.
    - destruct IH as [? ?]. split; [simpl in *; lia|done]. }
  simpl in Hc. rewrite Nat.sub_1_r. split; [done|].
  pose proof (total_delay_lower (Nat.pred n)). unfold MAX_RETRY_DELAY, secs in *. lia.
Qed.
End pacing.

(** ** A leaf nobody answers about *)

#[local] Existing Instance bip68.

(** The world is the time and the requests made so far. *)
Definition MockWorld : Type := SystemTime * list TreeNodeId.

#[local] Instance mock_service : ResolverService MockWorld :=
  {| missing_chains := mret (Ok ["a"%string]);
     fetch_pedigrees ids w := Some ([], (w.1, w.2 ++ ids));
     put_exit_chains _ := mret (Ok ());
     system_now w := (w.1, w) |}.

#[local] Instance mock_laws : ResolverLaws MockWorld.
Proof.
  refine {| clock w := w.1; asked w := w.2 |}; simpl.
  - done.
  - intros w. apply ends_in_ret. split_and!; [done..|apply NoDup_singleton].
  - intros ids w. unfold ends_in. split_and!; [done..|]. by intros p ?%elem_of_nil.
  - intros ps w. by apply ends_in_ret.
Defined.

Lemma mock_stubborn : stubborn (W := MockWorld) "a"%string.
Proof.
  split; [intros w l [= <-]; by left|intros ids w p []%elem_of_nil].
Qed.

(** A pass asks, a pass right after it does not, one that ignores the backoff does,
    and thirty seconds later a pass asks again. *)
Definition after_four : option (nat * (MockWorld * Backoffs)) :=
  '(_, s1) ← resolve true ((0, []), ∅);
  '(_, s2) ← resolve true s1;
  '(_, s3) ← resolve false s2;
  '(_, s4) ← resolve true ((secs 30, s3.1.2), s3.2);
  Some (times_asked "a"%string s1 + (times_asked "a"%string s2 - times_asked "a"%string s1)
    + (times_asked "a"%string s4 - times_asked "a"%string s3), s4)%nat.

Example retries_are_paced_witness :
  ∃ b, after_four = Some (2%nat, ((secs 30, ["a"; "a"; "a"]%string), b)) ∧
    secs 30 ≤ secs 30 - 0.
Proof.
  eexists. split; [vm_compute; reflexivity|].
  pose proof (watch_start "a"%string ((0, []), ∅)) as Hw.
  eapply (watch_pass _ _ _ true) in Hw; [|vm_compute; reflexivity].
  eapply (watch_pass _ _ _ true) in Hw; [|vm_compute; reflexivity].
  eapply (watch_pass _ _ _ false) in Hw; [|vm_compute; reflexivity].
  eapply (watch_other _ _ _ _ _ (secs 30, ["a"; "a"]%string)) in Hw; [|vm_compute; discriminate].
  eapply (watch_pass _ _ _ true) in Hw; [|vm_compute; reflexivity].
  match type of Hw with watched _ _ ?n _ =>
    replace n with 2%nat in Hw by (vm_compute; reflexivity) end.
  exact (proj1 (retries_are_paced "a"%string (0, []) 2 _ _ mock_stubborn Hw)).
Defined.
