(* ===== verification/ExitChainResolverStore.v ===== *)
(** * A pass of the resolver over the tree service and the in-memory store

    The resolver of [ExitChainResolver] with the service of [TreeService] and the
    store of [TreeServiceStore]: a pass that ignores the backoff completes the chain of
    every stored leaf the operators answer for, whatever they answer for the others. *)

From S2P Require Import Prelude Bitcoin TreeModel ExitChain LeafSelect Paging.
From S2P Require Import TreeStore TreeStoreInv TreeStoreSystem TreeStoreSpec ExitStore.
From S2P Require Import TreeService TreeServiceSpec TreeServiceStore.
From S2P Require Import ExitChainResolver ExitChainResolverSpec.

Section over_the_store.
Context `{Bitcoin} `{!HashIter string} {X : Type}.
Context (store : InMemoryTreeStore) (now : X → SystemTime)
  (uuid : LeavesState → X → LeavesReservationId) (permit : X → Acquire).
Abbreviation W := (LeavesState * X)%type.
#[local] Arguments process_store_ancestors : simpl never.
#[local] Instance resolver_store : TreeStoreApi W := in_memory_store store now uuid permit.
Context `{!ServiceEnv W} (system_clock : W → SystemTime * W).
#[local] Instance resolver_service : ResolverService W := service_resolver system_clock.
Implicit Types (w : W) (st : LeavesState) (b : Backoffs) (i : TreeNodeId) (n : TreeNode).

(** Reading the clock and announcing new chains do not touch the store. *)
Record KeepsStore : Prop := {
  keeps_clock w : (system_clock w).2.1 = w.1;
  keeps_signal send w : exit_state_changed = Some send → (send w).1 = w.1;
}.

Definition same_leaves st st' : Prop :=
  leaves st' = leaves st ∧ leaves_reservations st' = leaves_reservations st.

Lemma same_leaves_trans st1 st2 st3 : same_leaves st1 st2 → same_leaves st2 st3 → same_leaves st1 st3.
Proof. intros [] []. split; congruence. Qed.

Lemma same_leaves_lookup st st' i : same_leaves st st' → find_stored_leaf st' i = find_stored_leaf st i.
Proof. intros []. by apply same_leaves_find. Qed.

(** The nodes the coordinator returned have this leaf with the parent the store knows,
    and a path from there to a root. *)
Definition has_chain (nodes : list TreeNode) i n : Prop :=
  ∃ m q, index_by_id nodes !! i = Some m ∧ parent_node_id m = parent_node_id n ∧
    path (index_by_id nodes) (parent_node_id n) q.

(** Asking ends, with some answer, and does not touch the store. *)
Definition asking_keeps st : Prop :=
  ∀ ids w, ids ≠ [] → same_leaves st w.1 →
    returns (fetch_nodes ids true) w (λ _ w', w'.1 = w.1).

(** Asked about a batch this stored leaf is in, the coordinator answers, and with the
    leaf's chain. Nothing is said of the other leaves of the batch. *)
Definition completable st i : Prop :=
  ∀ ids w r w' n, i ∈ ids → same_leaves st w.1 → find_stored_leaf st i = Some n →
    fetch_nodes ids true w = Some (r, w') → ∃ nodes, r = Ok nodes ∧ has_chain nodes i n.

(** What the chain of a leaf must be for the store to give it back whole. *)
Definition good_chain n (c : list TreeNode) : Prop :=
  id n ∉ id <$> c ∧ chain_reaches_root n c = true.

Lemma elem_of_fetched nodes ids p :
  p ∈ assemble_exit_chains (index_by_id nodes) ids ↔
    ∃ i m, i ∈ ids ∧ index_by_id nodes !! i = Some m ∧ id m = i ∧
      p = {| leaf := m; ancestors := walk_ancestors m (index_by_id nodes) |}.
Proof.
  unfold assemble_exit_chains. rewrite list_elem_of_omap. split.
  - intros (i & Hi & (m & Hm & [= <-])%bind_Some). exists i, m.
    split_and!; [done..|by eapply index_by_id_keyed|done].
  - intros (i & m & Hi & Hm & _ & ->). exists i. by rewrite Hm.
Qed.

Lemma fetched_chain st ids nodes i n :
  wf st → i ∈ ids → find_stored_leaf st i = Some n → parent_node_id n ≠ None →
  has_chain nodes i n →
  let ps := assemble_exit_chains (index_by_id nodes) ids in
  (∃ p, p ∈ ps ∧ id (leaf p) = i ∧ is_complete p = true) ∧
  (∀ p, p ∈ ps → id (leaf p) = i → ancestors p ≠ [] ∧ good_chain n (ancestors p)).
Proof.
  intros Hwf Hi Hn Hpar (m & q & Hm & Hmp & Hq). cbn zeta. setoid_rewrite elem_of_fetched.
  pose proof (index_by_id_keyed _ _ _ Hm) as Hid.
  pose proof (find_stored_leaf_id _ _ _ Hwf Hn) as Hnid.
  rewrite <- Hmp in Hq. pose proof (walk_ancestors_path m _ q Hq) as Hwalk.
  pose proof (index_by_id_keyed nodes) as Hk.
  pose proof (path_reaches_root _ m q Hk Hq) as Hroot.
  split.
  - eexists. split_and!; [exists i, m; by split_and!|done|]. unfold is_complete. simpl. by rewrite Hwalk.
  - intros p (i' & m' & _ & Hm' & Hid' & ->) Hp. simpl in *. subst i'.
    rewrite Hp, Hm in Hm'. injection Hm' as <-. rewrite Hwalk. split.
    + intros Hnil. inversion Hq as [Hr|j x q' Hx Hq' Hr]; subst; [|done]. by rewrite <- Hr in Hmp.
    + unfold good_chain. split.
      * rewrite Hnid, <- Hid. apply (path_above (index_by_id nodes)); [done| |done].
        by rewrite Hid.
      * unfold chain_reaches_root in *. by rewrite <- Hmp.
Qed.

Context (keeps : KeepsStore).

Lemma put_returns ps w (Q : TreeResult unit → W → Prop) :
  (∀ w', w'.1 = (process_store_ancestors w.1 ps).2 → Q (Ok ()) w') →
  returns (put_exit_chains ps) w Q.
Proof.
  intros HQ. simpl. unfold store_exit_chains. destruct ps as [|p ps].
  { apply returns_ret, HQ. done. }
  apply returns_try, returns_call. simpl. unfold run_command. simpl.
  apply returns_bind. unfold signal_exit_state_changed.
  destruct exit_state_changed as [send|] eqn:E.
  - apply returns_modify, returns_ret, HQ. by rewrite (keeps_signal keeps send).
  - apply returns_ret, returns_ret, HQ. done.
Qed.

Lemma returns_served {A} (m : proc W A) (s : W * Backoffs) (Q : A → W * Backoffs → Prop) :
  returns m s.1 (λ a w, Q a (w, s.2)) → returns (served m) s Q.
Proof. intros (a & w & Hm & HQ). exists a, (w, s.2). unfold served. by rewrite Hm. Qed.

(** A chain that is not the one before reaches a root. *)
Definition whole_or_kept (before after : option (list TreeNode)) : Prop :=
  after = before ∨ ∃ n c, after = Some c ∧ chain_reaches_root n c = true.

Lemma whole_or_kept_trans c1 c2 c3 :
  whole_or_kept c1 c2 → whole_or_kept c2 c3 → whole_or_kept c1 c3.
Proof. intros ? [->|?]; [done|by right]. Qed.

(** What some batches have done to the store. *)
Record batches_done st (ids : list TreeNodeId) (before after : LeavesState) : Prop := {
  done_wf : wf after;
  done_leaves : same_leaves st after;
  done_others i : i ∉ ids → chains after !! i = chains before !! i;
  done_whole i : whole_or_kept (chains before !! i) (chains after !! i);
  done_good i n :
    i ∈ ids → completable st i → find_stored_leaf st i = Some n → parent_node_id n ≠ None →
    ∃ c, chains after !! i = Some c ∧ good_chain n c;
}.

Lemma batches_done_nil st st' : wf st' → same_leaves st st' → batches_done st [] st' st'.
Proof. split; [done|done|done|by left|by intros i n ?%elem_of_nil]. Qed.

Lemma batches_done_app st ids1 ids2 st1 st2 st3 :
  batches_done st ids1 st1 st2 → batches_done st ids2 st2 st3 → batches_done st (ids1 ++ ids2) st1 st3.
Proof.
  intros [_ _ Ho1 Hw1 Hg1] [Hwf Hl Ho2 Hw2 Hg2]. split; [done|done| | |].
  - intros i [Hi Hi']%not_elem_of_app. by rewrite Ho2, Ho1.
  - intros i. by eapply whole_or_kept_trans.
  - intros i n Hi Hc Hn Hpar. destruct (decide (i ∈ ids2)) as [?|Hni]; [by eapply Hg2|].
    apply elem_of_app in Hi as [Hi|]; [|done]. rewrite Ho2 by done. by eapply Hg1.
Qed.

(** Storing the complete chains among those fetched. *)
Lemma fetched_stored st ids ps w w' (r : TreeResult (list TreeNode)) :
  wf st → same_leaves st w.1 → wf w.1 → ids ≠ [] →
  fetch_nodes ids true w = Some (r, w') →
  ps = match r with Ok nodes => assemble_exit_chains (index_by_id nodes) ids | Err _ => [] end →
  batches_done st ids w.1
    (process_store_ancestors w.1 (filter (λ p, is_complete p = true) ps)).2.
Proof.
  intros Hwf Hsame Hwfw Hne Hr Hps. set (cs := filter _ ps).
  assert (∀ p, p ∈ cs → id (leaf p) ∈ ids ∧ is_complete p = true) as Hcs.
  { intros p [Hc Hp]%list_elem_of_filter. split; [|done]. rewrite Hps in Hp.
    destruct r as [nodes|]; [|by apply elem_of_nil in Hp].
    apply elem_of_fetched in Hp as (i & m & Hi & _ & <- & ->). done. }
  assert (∀ i, i ∉ ids → chains (process_store_ancestors w.1 cs).2 !! i = chains w.1 !! i) as Hother.
  { intros i Hi. apply store_ancestors_other. intros p Hp <-. by destruct (Hi (proj1 (Hcs p Hp))). }
  pose proof (store_ancestors_leaves w.1 cs) as Hl.
  split; [by apply wf_store_ancestors|by eapply same_leaves_trans|done| |].
  - intros i. destruct (store_ancestors_either w.1 cs i) as [->|(p & Hp & ->)]; [by left|right].
    exists (leaf p), (ancestors p). split; [done|]. by apply Hcs.
  - intros i n Hi Hcomp Hn Hpar. destruct (Hcomp ids w r w' n Hi Hsame Hn Hr) as (nodes & -> & Hans).
    destruct (fetched_chain st ids nodes i n Hwf Hi Hn Hpar Hans) as [(p & Hp & Hpi & Hc) Hall].
    rewrite <- Hps in Hp, Hall.
    destruct (store_ancestors_chain w.1 cs i) as (q & [_ Hq]%list_elem_of_filter & Hqi & _ & Hchain).
    + rewrite (same_leaves_lookup st) by done. by exists n.
    + exists p. unfold cs. rewrite list_elem_of_filter. split_and!; [done..|]. by apply Hall.
    + exists (ancestors q). split; [done|]. by apply Hall.
Qed.

Lemma batch_completes st t ids w b :
  wf st → asking_keeps st → wf w.1 → same_leaves st w.1 → ids ≠ [] →
  returns (resolve_batch t ids) (w, b) (λ r s', r = Ok () ∧ batches_done st ids w.1 s'.1.1).
Proof.
  intros Hwf Hask Hwfw Hsame Hne. apply returns_bind, returns_served. simpl.
  destruct (Hask ids w Hne Hsame) as (r & w1 & Hr & Hw1).
  exists (match r with Ok nodes => assemble_exit_chains (index_by_id nodes) ids | Err _ => [] end), w1.
  split.
  { unfold fetch_pedigrees_from_operators. destruct ids as [|i0 ids0]; [done|].
    unfold mbind, proc_bind. by rewrite Hr. }
  pose proof (fetched_stored st ids _ w w1 r Hwf Hsame Hwfw Hne Hr eq_refl) as Hdone.
  set (ps := match r with Ok _ => _ | Err _ => _ end) in *. clearbody ps.
  apply returns_try, returns_served, put_returns. intros w2 Hw2.
  change (w2.1 = (process_store_ancestors w1.1 (filter (λ p, is_complete p = true) ps)).2) in Hw2.
  apply returns_bind, returns_modify, returns_ret. simpl. rewrite Hw2, Hw1. by split.
Qed.

Lemma batches_complete st t ls w b :
  wf st → asking_keeps st → wf w.1 → same_leaves st w.1 → Forall (λ ids, ids ≠ []) ls →
  returns (each (resolve_batch t) ls) (w, b) (λ r s',
    r = Ok () ∧ batches_done st (concat ls) w.1 s'.1.1).
Proof.
  intros Hwf Hop. revert w b. induction ls as [|ids ls IH]; intros w b Hwfw Hsame Hne; simpl.
  { apply returns_ret. split; [done|]. by apply batches_done_nil. }
  apply Forall_cons in Hne as [Hne Hne'].
  apply returns_try. eapply returns_weaken; [by apply (batch_completes st)|].
  intros ? [w1 b1] (-> & H1). simpl in H1.
  eapply returns_weaken; [apply IH; [apply H1|apply H1|done]|].
  intros r s' (-> & H2). split; [done|]. by eapply batches_done_app.
Qed.

Lemma chunks_nonempty {A} (n : nat) (l : list A) : (0 < n)%nat → Forall (λ k, k ≠ []) (chunks n l).
Proof.
  intros Hn. unfold chunks. generalize (length l). intros fuel. revert l.
  induction fuel as [|fuel IH]; intros [|x l]; simpl; try done.
  constructor; [destruct n; [lia|done]|apply IH].
Qed.

Lemma missing_stored st i :
  i ∈ process_leaves_missing_exit_chains st →
  ∃ n, n ∈ stored_nodes st ∧ id n = i ∧
    chain_backs_exit n (stored_chain st (id n)) = false.
Proof.
  unfold process_leaves_missing_exit_chains. fold (stored_nodes st).
  intros (n & -> & [? ?]%list_elem_of_filter)%list_elem_of_fmap. by exists n.
Qed.


Lemma good_chain_backs n c : good_chain n c → chain_backs_exit n c = true.
Proof. intros [_ Hr]. by apply chain_reaches_root_backs. Qed.

Lemma good_chain_reads st n :
  wf st → find_stored_leaf st (id n) = Some n → good_chain n (stored_chain st (id n)) →
  ∃ chain, stored_pedigree st (id n) = Some {| leaf := n; ancestors := chain |} ∧
    linked (parent_node_id n) chain ∧ walk_end (parent_node_id n) chain = None.
Proof.
  intros Hwf Hn [Hself Hroot].
  destruct (gated_chain_reads_back n _ Hself Hroot) as (chain & Hc & ? & ? & _).
  exists chain. split_and!; [|done..]. unfold stored_pedigree. rewrite Hn. simpl. f_equal.
  rewrite assemble_one in Hc by apply lookup_insert_eq. by injection Hc as ->.
Qed.

(** [st'] is [st] after a pass. *)
Record chains_resolved st st' : Prop := {
  resolved_leaves : same_leaves st st';
  resolved_all i :
    i ∈ process_leaves_missing_exit_chains st' →
    i ∈ process_leaves_missing_exit_chains st ∧ ¬ completable st i;
  resolved_others i : i ∉ process_leaves_missing_exit_chains st → chains st' !! i = chains st !! i;
  resolved_whole i : whole_or_kept (chains st !! i) (chains st' !! i);
  resolved_reads i :
    i ∈ process_leaves_missing_exit_chains st → completable st i →
    ∃ p, stored_pedigree st' i = Some p ∧ find_stored_leaf st i = Some (leaf p) ∧
      linked (parent_node_id (leaf p)) (ancestors p) ∧
      walk_end (parent_node_id (leaf p)) (ancestors p) = None;
}.

Lemma batches_resolve st st' :
  wf st → batches_done st (process_leaves_missing_exit_chains st) st st' → chains_resolved st st'.
Proof.
  intros Hwf [Hwf' Hsame Hother Hwhole Hgood].
  assert (∀ i, i ∈ process_leaves_missing_exit_chains st → completable st i →
    ∃ n c, find_stored_leaf st i = Some n ∧ id n = i ∧ chains st' !! i = Some c ∧ good_chain n c) as Hm.
  { intros i Hi Hcomp. destruct (missing_stored _ _ Hi) as (n & Hn & <- & Hb).
    apply elem_of_stored in Hn; [|done]. destruct (Hgood (id n) n Hi Hcomp Hn) as (c & ? & ?); [|eauto 6].
    intros Hnone. unfold chain_backs_exit in Hb. by rewrite Hnone in Hb. }
  split; [done| |done|done|].
  - intros i Hi. destruct (missing_stored _ _ Hi) as (n & Hn & <- & Hb).
    apply elem_of_stored in Hn; [|done]. rewrite (same_leaves_lookup st) in Hn by done.
    unfold stored_chain in Hb. split.
    + destruct (decide (id n ∈ process_leaves_missing_exit_chains st)) as [Hin|Hni]; [done|].
      rewrite Hother in Hb by done.
      by apply missing_chain_spec; [|apply elem_of_stored|].
    + intros Hcomp. destruct (decide (id n ∈ process_leaves_missing_exit_chains st)) as [Hin|Hni].
      * destruct (Hm _ Hin Hcomp) as (n' & c & Hn' & _ & Hc & Hg). rewrite Hn in Hn'. injection Hn' as <-.
        rewrite Hc in Hb. simpl in Hb. by rewrite (good_chain_backs n c Hg) in Hb.
      * rewrite Hother in Hb by done.
        by apply Hni, missing_chain_spec; [|apply elem_of_stored|].
  - intros i Hi Hcomp. destruct (Hm i Hi Hcomp) as (n & c & Hn & <- & Hc & Hg).
    destruct (good_chain_reads st' n Hwf') as (chain & Hp & ? & ?).
    + by rewrite (same_leaves_lookup st).
    + unfold stored_chain. by rewrite Hc.
    + by exists {| leaf := n; ancestors := chain |}.
Qed.

(** C24: One pass that ignores the backoff resolves every exit chain the operators can
    complete, whatever they answer about other leaves of the same batch: provided
    asking them ends and does not touch the store, the pass returns without error,
    and afterwards the leaves reported as missing a chain are among those that were,
    and none of them is one for which the operators answer, whenever it is asked
    about, with its chain up to a root. Every such leaf that was missing its chain
    reads back with one linked parent by parent up to a root; a chain the pass stores
    for any leaf is complete; and no leaf, and no chain that was not missing, has
    changed. *)
Theorem resolve_all_completes w b :
  wf w.1 → asking_keeps w.1 →
  returns resolve_all_missing_chains (w, b) (λ r s', r = Ok () ∧ chains_resolved w.1 s'.1.1).
Proof.
  intros Hwf Hop. apply returns_try, returns_served, returns_call. simpl. unfold run_command. simpl.
  apply returns_bind, returns_modify. simpl.
  assert (∀ st', batches_done w.1 (process_leaves_missing_exit_chains w.1) w.1 st' →
    chains_resolved w.1 st') as Hend by (intros; by apply batches_resolve).
  destruct (process_leaves_missing_exit_chains w.1) as [|i0 l0].
  { apply returns_ret. split; [done|]. by apply Hend, batches_done_nil. }
  set (missing := i0 :: l0) in *. clearbody missing.
  apply returns_bind, returns_served, returns_call. simpl.
  pose proof (keeps_clock keeps (w.1, w.2)) as Hclock.
  destruct (system_clock (w.1, w.2)) as [t w1]. simpl in *.
  apply returns_bind, returns_ret.
  eapply returns_weaken.
  { apply (batches_complete w.1); try done; [by rewrite Hclock|by rewrite Hclock|].
    apply chunks_nonempty. unfold LEAVES_PER_FETCH. lia. }
  intros r s' (-> & Hdone). rewrite Hclock, chunks_concat in Hdone by (unfold LEAVES_PER_FETCH; lia).
  split; [done|]. by apply Hend.
Qed.
End over_the_store.

(** ** A leaf under a root, in a batch with one whose parent nobody knows *)

#[local] Existing Instance bip68.
#[local] Instance one_order : HashIter string := canonical_iter string.

Definition one_leaf : @TreeNode bip68 := bip68_node "a" 5 (Some "p"%string).
Definition lost_leaf : @TreeNode bip68 := bip68_node "b" 5 (Some "q"%string).
Definition one_root : @TreeNode bip68 := bip68_node "p" 8 None.
Abbreviation OneWorld := (LeavesState * nat)%type.

#[local] Instance one_store : TreeStoreApi OneWorld :=
  in_memory_store TreeStoreSystem.new Z.of_nat new_id (λ _, Acquired).

#[local] Instance one_env : ServiceEnv OneWorld :=
  {| identity_pubkey := "key"%string : PublicKey; Client := unit; coordinator := ();
     non_coordinator_operators := [];
     client_query_nodes _ _ w := (Ok ([one_leaf; one_root; lost_leaf], 0), w);
     timelock_manager_check_renew_nodes p w := (Ok p, w);
     swap_service_swap_leaves l _ w := (Ok l, w);
     is_remote := false; get_public_key_for_leaf _ w := (Ok ("key"%string : PublicKey), w);
     combine a _ := Some a; wait_elapsed w := (0, w);
     show_duration _ := "some time"; balance_changed w := (Changed, w);
     sleep_ms _ w := w; exit_state_changed := Some tick; leaves_added w := w |}.

Definition one_clock (w : OneWorld) : SystemTime * OneWorld := (Z.of_nat w.2, w).

Definition one_world : OneWorld :=
  ((process_add_leaves 0 LeavesState_default [one_leaf; lost_leaf]).2, 0%nat).

Lemma one_keeps : KeepsStore one_clock.
Proof. split; [done|]. by intros send w [= <-]. Qed.

Lemma one_wf : wf one_world.1.
Proof.
  apply wf_process_add_leaves; [apply wf_default|].
  assert (∀ n, n ∈ [one_leaf; lost_leaf] → node_wf n) as Hn.
  { intros n [->|[->|[]%elem_of_nil]%elem_of_cons]%elem_of_cons; unfold node_wf; vm_compute; by split. }
  by apply Forall_forall.
Qed.

Definition asked_nodes : list (@TreeNode bip68) := [one_leaf; one_root; lost_leaf].

Lemma one_asks ids (w : OneWorld) :
  ids ≠ [] → fetch_nodes ids true w = Some (Ok asked_nodes, w).
Proof. by destruct ids. Qed.

Lemma one_asking : asking_keeps one_world.1.
Proof. intros ids w Hne _. exists (Ok asked_nodes), w. by rewrite one_asks. Qed.

Lemma one_completable : completable one_world.1 "a"%string.
Proof.
  intros ids w r w' n Hi _ Hn. rewrite one_asks by (by intros ->; apply elem_of_nil in Hi).
  intros [= <- <-]. exists asked_nodes. split; [done|].
  injection Hn as <-. exists one_leaf, [("p"%string, one_root)]. split_and!; [reflexivity..|].
  repeat (econstructor; try reflexivity).
Qed.

(** The leaf that can be completed is, the other stays reported as missing. *)
Example resolve_all_completes_witness :
  process_leaves_missing_exit_chains one_world.1 = ["a"; "b"]%string ∧
  ∃ s', resolve_all_missing_chains (ResolverService0 := resolver_service TreeStoreSystem.new Z.of_nat new_id (λ _, Acquired) one_clock)
      (one_world, ∅) = Some (Ok (), s') ∧
    process_leaves_missing_exit_chains s'.1.1 ⊆ ["b"%string] ∧
    ∃ p, stored_pedigree s'.1.1 "a"%string = Some p ∧ leaf p = one_leaf.
Proof.
  assert (process_leaves_missing_exit_chains one_world.1 = ["a"; "b"]%string) as Hm
    by (vm_compute; reflexivity).
  split; [exact Hm|].
  destruct (resolve_all_completes TreeStoreSystem.new Z.of_nat new_id (λ _, Acquired) one_clock one_keeps
    one_world ∅ one_wf one_asking) as (r & s' & Hr & -> & Hres).
  exists s'. split_and!; [exact Hr| |].
  - intros i Hi. destruct (resolved_all _ _ Hres i Hi) as [Hb Hno]. rewrite Hm in Hb.
    apply elem_of_cons in Hb as [->|Hb]; [|exact Hb]. destruct Hno. exact one_completable.
  - destruct (resolved_reads _ _ Hres "a"%string) as (p & Hp & Hl & _).
    + rewrite Hm. by left.
    + exact one_completable.
    + exists p. split; [exact Hp|]. symmetry.
      assert (find_stored_leaf one_world.1 "a"%string = Some one_leaf) as Ha by reflexivity.
      rewrite Ha in Hl. exact (Some_inj _ _ Hl).
Defined.
