(* ===== verification/WalletPay.v ===== *)
(** * Paying with leaves: [spark-wallet/src/wallet.rs]

    A payment selects leaves, runs an operation on them (a transfer, an HTLC, a
    Lightning swap, a withdrawal) and settles the reservation; both the selection and
    the whole are retried on the errors that pass by themselves. The leaf optimizer is
    an interface. Of what the methods log only the failures of selections are kept: they
    leave no other trace. *)

From S2P Require Import Prelude Bitcoin BitcoinTx SparkTx TreeModel LeafSelect ExitBuild.
From S2P Require Import TreeService FrostBatch TimelockManager ExitState.
From stdpp Require Import pretty.
Open Scope Z_scope.

Definition SELECT_LEAVES_MAX_RETRIES : Z := 3.
Definition MAX_LEAF_SPENT_RETRIES : Z := 3.
Definition MAX_BACKOFF_RETRIES : Z := 5.
Definition BACKOFF_BASE_DELAY_MS : Z := 100.
Definition BACKOFF_MAX_DELAY_MS : Z := 3000.

(** ** The errors that are retried *)

(** [str::contains] *)
Definition contains (pattern s : string) : bool :=
  match String.index 0 pattern s with Some _ => true | None => false end.

Definition is_transfer_locked_error (display : string) : bool := contains "TRANSFER_LOCKED" display.

Definition has_code (code : Code) (error : OperatorRpcError.t) : Prop :=
  match error with OperatorRpcError.Connection status => status_code status = code | _ => False end.

#[export] Instance Code_eq_dec : EqDecision Code.
Proof. solve_decision. Defined.
#[export] Instance has_code_dec code error : Decision (has_code code error).
Proof. destruct error; simpl; apply _. Defined.

Definition is_permission_denied_error (error : OperatorRpcError.t) : bool :=
  bool_decide (has_code PermissionDenied error).

Definition is_leafs_spent_error (error : OperatorRpcError.t) : bool :=
  is_transfer_locked_error (OperatorRpcError.to_string error) || is_permission_denied_error error.

Definition is_resource_exhausted_error (error : OperatorRpcError.t) : bool :=
  bool_decide (has_code ResourceExhausted error).

Definition LEAF_UNAVAILABLE_REASON : string := "LEAF_UNAVAILABLE".

Definition operator_error_reason (error : OperatorRpcError.t) : option string :=
  match error with OperatorRpcError.Connection status => error_info_reason status | _ => None end.

Definition is_leaf_unavailable_error (error : OperatorRpcError.t) : bool :=
  bool_decide (operator_error_reason error = Some LEAF_UNAVAILABLE_REASON).

Definition is_backoff_retryable_error (error : OperatorRpcError.t) : bool :=
  is_resource_exhausted_error error || is_leaf_unavailable_error error.

(** ** The wallet's own state *)

(** [select_leaves_refresh], whether its cell is filled, and the logged errors. *)
Record WalletState := {
  select_leaves_refresh : bool;
  failed_selections : list SparkWalletError.t;
}.

Class Optimizer (W : Type) := {
  optimizer_is_running : W → bool;
  optimizer_cancel : W → result string unit * W;
}.

Section pay.
Context `{Bitcoin} {W : Type} `{!TreeStoreApi W} `{!ServiceEnv W} `{!Optimizer W}.
Context `{!HashIter string}.
Abbreviation S := (W * WalletState)%type.
Implicit Types ta : option TargetAmounts.

(** A call that does not see the wallet's own state. *)
Definition lift {A} (m : proc W A) : proc S A := λ s,
  match m s.1 with Some (a, w) => Some (a, (w, s.2)) | None => None end.

Definition log_failure (e : SparkWalletError.t) : proc S unit := modify (λ s,
  (s.1, {| select_leaves_refresh := select_leaves_refresh s.2;
           failed_selections := failed_selections s.2 ++ [e] |})).

(** [m] may still be waiting: see [select_leaves]. *)
Definition and_then {X A C} (m : proc X (option (WalletResult A)))
    (f : A → proc X (option (WalletResult C))) : proc X (option (WalletResult C)) :=
  r ← m;
  match r with
  | Some (Ok a) => f a
  | Some (Err e) => mret (Some (Err e))
  | None => mret None
  end.

(** ** Selecting leaves *)

(** [fuel] bounds the rounds of each [select_leaves]. *)
Context (fuel : nat).

Definition select_payment ta : proc W (option (TreeResult LeavesReservation)) :=
  select_leaves fuel ta ReservationPurpose.Payment SelectLeavesOptions_default.

Definition try_select_leaves_with_optimization_retry ta
    : proc S (option (WalletResult LeavesReservation)) :=
  r ← lift (select_payment ta);
  match r with
  | Some (Err TreeServiceError.InsufficientFunds) =>
      running ← call (λ s, (optimizer_is_running s.1, s));
      if running : bool then
        _ ← log_failure (SparkWalletError.TreeServiceError TreeServiceError.InsufficientFunds);
        _ ← lift (call optimizer_cancel);
        r ← lift (select_payment ta);
        mret (from_tree <$> r)
      else mret (Some (from_tree (Err TreeServiceError.InsufficientFunds)))
  | _ => mret (from_tree <$> r)
  end.

(** [get_or_init] of the cell; concurrent callers wait for the one that fills it. *)
Definition refresh_once : proc S unit :=
  filled ← call (λ s, (select_leaves_refresh s.2, s));
  if filled : bool then mret ()
  else
    _ ← lift refresh_leaves;
    modify (λ s, (s.1, {| select_leaves_refresh := true;
                          failed_selections := failed_selections s.2 |})).

(** The check of the balance after the refresh. *)
Definition enough_funds ta : proc S (WalletResult unit) :=
  match ta with
  | None => mret (Ok ())
  | Some target_amounts =>
      available ←? lift (tree_call get_available_balance);
      if available <? total_sats target_amounts
      then mret (from_tree (Err TreeServiceError.InsufficientFunds))
      else mret (Ok ())
  end.

(** The [for] loop over the rounds [i]. *)
Fixpoint select_loop (rounds : list Z) ta : proc S (option (WalletResult LeavesReservation)) :=
  match rounds with
  | [] => mret (Some (from_tree
      (Err (TreeServiceError.Generic "Failed to select leaves after all retries"))))
  | i :: rounds =>
      reserve_result ← try_select_leaves_with_optimization_retry ta;
      match reserve_result with
      | None => mret None
      | Some (Ok r) => mret (Some (Ok r))
      | Some (Err e) =>
          _ ← log_failure e;
          _ ← refresh_once;
          checked ← enough_funds ta;
          match checked with
          | Err e => mret (Some (Err e))
          | Ok _ =>
              _ ← (if i <? SELECT_LEAVES_MAX_RETRIES - 1 then lift (modify (sleep_ms 1000))
                   else mret ());
              select_loop rounds ta
          end
      end
  end.

Definition select_leaves_with_retry ta : proc S (option (WalletResult LeavesReservation)) :=
  select_loop (seqZ 0 SELECT_LEAVES_MAX_RETRIES) ta.

(** ** Running the operation *)

Section operation.
Context {V : Type} (operation_name : string).
Context (operation : LeavesReservation → proc W (ServiceResult V)).

(** The [loop] of [with_leafs_spent_retry!]; [None] also when [rounds] are used up. *)
Fixpoint spent_retry (rounds : nat) ta (attempt backoff_attempt : Z)
    : proc S (option (WalletResult V)) :=
  match rounds with
  | O => mret None
  | Datatypes.S rounds =>
      if MAX_LEAF_SPENT_RETRIES <=? attempt then
        mret (Some (Err (SparkWalletError.Generic (operation_name +:+ " failed after " +:+
          pretty MAX_LEAF_SPENT_RETRIES +:+ " retries due to leaf spending errors"))))
      else
        and_then (if 0 <? attempt then r ← lift (tree_call refresh_leaves); mret (Some r)
                  else mret (Some (Ok ()))) (λ _,
        and_then (select_leaves_with_retry ta) (λ leaves_reservation,
        result ← lift (with_reserved_leaves finalize_reservation cancel_reservation
                         (operation leaves_reservation) leaves_reservation);
        match result with
        | Ok v => mret (Some (Ok v))
        | Err (ServiceError.ServiceConnectionError e) =>
            if is_backoff_retryable_error e then
              let backoff_attempt := backoff_attempt + 1 in
              if MAX_BACKOFF_RETRIES <? backoff_attempt then
                mret (Some (from_service (Err (ServiceError.ServiceConnectionError e))))
              else
                let delay_ms := Z.min (BACKOFF_BASE_DELAY_MS * 2 ^ (backoff_attempt - 1))
                                  BACKOFF_MAX_DELAY_MS in
                _ ← lift (modify (sleep_ms delay_ms));
                spent_retry rounds ta attempt backoff_attempt
            else if is_leafs_spent_error e then
              spent_retry rounds ta (attempt + 1) backoff_attempt
            else mret (Some (from_service (Err (ServiceError.ServiceConnectionError e))))
        | Err e => mret (Some (from_service (Err e)))
        end))
  end.

(** Nine rounds are enough ([payment_ends]). *)
Definition with_leafs_spent_retry ta : proc S (option (WalletResult V)) :=
  spent_retry 9 ta 0 0.
End operation.

(** ** Withdrawing *)

Inductive ExitSpeed := Fast | Medium | Slow.

(** [spark/src/services/coop_exit.rs]; the address and the transfer id are passed on. *)
Record CoopExitSpeedFeeQuote := { user_fee_sat : Z; l1_broadcast_fee_sat : Z }.
Record CoopExitFeeQuote := {
  quote_id : string;
  quote_expires_at : Z;
  speed_fast : CoopExitSpeedFeeQuote;
  speed_medium : CoopExitSpeedFeeQuote;
  speed_slow : CoopExitSpeedFeeQuote;
}.

Definition fee_sats (self : CoopExitFeeQuote) (speed : ExitSpeed) : Z :=
  match speed with
  | Fast => uadd 64 (l1_broadcast_fee_sat (speed_fast self)) (user_fee_sat (speed_fast self))
  | Medium => uadd 64 (l1_broadcast_fee_sat (speed_medium self)) (user_fee_sat (speed_medium self))
  | Slow => uadd 64 (l1_broadcast_fee_sat (speed_slow self)) (user_fee_sat (speed_slow self))
  end.

Record CoopExitParams := {
  cep_leaves : list TreeNode;
  cep_withdraw_all : bool;
  cep_exit_speed : ExitSpeed;
  cep_fee_quote_id : option string;
  cep_fee_leaves : option (list TreeNode);
  cep_fee_sats : Z;
}.

Context {Transfer : Type} (coop_exit : CoopExitParams → proc W (ServiceResult Transfer)).

Definition withdraw_inner (exit_speed : ExitSpeed) (leaves_reservation : LeavesReservation)
    (target_amounts : option TargetAmounts) (fee_sats : Z) (fee_quote_id : string)
    : proc W (ServiceResult Transfer) :=
  let withdraw_all := bool_decide (target_amounts = None) in
  parts ←? mret
    (if withdraw_all then Ok (reservation_leaves leaves_reservation, None, None)
     else
       target_leaves ← map_err (from_tree_error show_duration)
         (select_leaves_by_target_amounts (reservation_leaves leaves_reservation) target_amounts);
       Ok (amount_leaves target_leaves, fee_leaves target_leaves, Some fee_quote_id));
  let '(withdraw_leaves, fee_leaves, fee_quote_id) := parts in
  let withdraw_leaves_sum := sum_wrap 64 (value <$> withdraw_leaves) in
  if withdraw_all && (withdraw_leaves_sum <? fee_sats) then mret (Err ServiceError.InsufficientFunds)
  else
    coop_exit {| cep_leaves := withdraw_leaves; cep_withdraw_all := withdraw_all;
                 cep_exit_speed := exit_speed; cep_fee_quote_id := fee_quote_id;
                 cep_fee_leaves := fee_leaves; cep_fee_sats := fee_sats |}.

(** [withdraw] up to the transfer, for a valid address. *)
Definition withdraw_transfer (amount_sats : option Z) (exit_speed : ExitSpeed)
    (fee_quote : CoopExitFeeQuote) : proc S (option (WalletResult Transfer)) :=
  let fee_sats := fee_sats fee_quote exit_speed in
  let target_amounts := (λ amount_sats, new_amount_and_fee amount_sats (Some fee_sats)) <$> amount_sats in
  with_leafs_spent_retry "Withdrawal"
    (λ leaves_reservation, withdraw_inner exit_speed leaves_reservation target_amounts fee_sats
       (quote_id fee_quote)) target_amounts.
End pay.
