(* ===== verification/WalletPaySpec.v ===== *)
(** * What a payment keeps and pays

    Over a dependable store a payment leaves the caller with no reservation it did
    not hold before, whether it succeeds, fails or gives up after its retries, save
    for the failed selections that the code leaves open; its retries come to an end; and a withdrawal spends leaves worth exactly what is
    withdrawn and what it costs. *)

From S2P Require Import Prelude Bitcoin BitcoinTx SparkTx TreeModel LeafSelect ExitBuild.
From S2P Require Import TreeStoreSpec TreeService TreeServiceSpec FrostBatch TimelockManager ExitState WalletPay.
Open Scope Z_scope.

(** ** Reservations *)

Section keeps.
Context `{ServiceLaws W} `{!Optimizer W} `{!HashIter string}.
Abbreviation S := (W * WalletState)%type.
Implicit Types (s : S) (r : LeavesReservation) (ta : option TargetAmounts).

(** Stopping the optimizer gives its reservations back. *)
Class OptimizerLaws : Prop := {
  held_cancel_optimizer w : held (optimizer_cancel w).2 ⊆ held w;
}.
Context `{!OptimizerLaws}.

(** What is paid. *)
Context (goal : option TargetAmounts).

(** A selection failed with its reservation left open. *)
Definition left_behind (logged : list SparkWalletError.t) : Prop :=
  ∃ e w, SparkWalletError.TreeServiceError e ∈ logged ∧ left_open goal e w.

Lemma left_behind_app l l' : left_behind l ∨ left_behind l' → left_behind (l ++ l').
Proof. intros [(e & w & ? & ?)|(e & w & ? & ?)]; exists e, w; set_solver. Qed.

(** What a step does to the reservations held, [extra] being the ones it hands over:
    unless it logged a failed selection that left its reservation open. *)
Definition keeps (extra : gset LeavesReservationId) s s' : Prop :=
  ∃ logged, failed_selections s'.2 = failed_selections s.2 ++ logged ∧
    (held s'.1 ⊆ extra ∪ held s.1 ∨ left_behind logged).

Lemma keeps_silent extra s w : held w ⊆ extra ∪ held s.1 → keeps extra s (w, s.2).
Proof. intros Hw. exists []. rewrite app_nil_r. by split; [|left]. Qed.

Lemma keeps_refl s : keeps ∅ s s.
Proof. destruct s. apply keeps_silent. simpl. set_solver. Qed.

Lemma keeps_trans extra s s' s'' : keeps ∅ s s' → keeps extra s' s'' → keeps extra s s''.
Proof.
  intros (l & Hl & Hs) (l' & Hl' & Hs'). exists (l ++ l'). rewrite Hl', Hl, app_assoc. split; [done|].
  destruct Hs as [Hs|Hs], Hs' as [Hs'|Hs']; (left; set_solver) || (right; apply left_behind_app; auto).
Qed.

Lemma keeps_shrink extra extra' s s' w :
  keeps extra s s' → (held s'.1 ⊆ extra ∪ held s.1 → held w ⊆ extra' ∪ held s.1) →
  keeps extra' s (w, s'.2).
Proof. intros (l & Hl & Hs) Hw. exists l. split; [done|]. destruct Hs; auto. Qed.

(** A step that never hands a reservation over. *)
Definition thrifty {A} (m : proc S A) : Prop := ∀ s, ends_in m s (λ _, keeps ∅ s).

Lemma thrifty_ret {A} (a : A) : thrifty (mret a).
Proof. intros s. apply ends_in_ret, keeps_refl. Qed.

Lemma thrifty_then {A B} (m : proc S A) (f : A → proc S B) s Q :
  thrifty m → (∀ a s', keeps ∅ s s' → ends_in (f a) s' Q) → ends_in (m ≫= f) s Q.
Proof. intros Hm Hf. apply ends_in_bind. eapply ends_in_weaken; [apply Hm|apply Hf]. Qed.

Lemma thrifty_bind {A B} (m : proc S A) (f : A → proc S B) :
  thrifty m → (∀ a, thrifty (f a)) → thrifty (m ≫= f).
Proof.
  intros Hm Hf s. apply thrifty_then; [done|]. intros a s' Hs.
  eapply ends_in_weaken; [apply Hf|]. intros ? s''. by apply keeps_trans.
Qed.

Lemma thrifty_try {E A B} (m : proc S (result E A)) (f : A → proc S (result E B)) :
  thrifty m → (∀ a, thrifty (f a)) → thrifty (try_bind m f).
Proof. intros Hm Hf. apply thrifty_bind; [done|]. intros [a|e]; [apply Hf|apply thrifty_ret]. Qed.

Lemma lift_ends {A} (m : proc W A) s (Q : A → S → Prop) :
  ends_in m s.1 (λ a w, Q a (w, s.2)) → ends_in (lift m) s Q.
Proof. unfold ends_in, lift. by destruct (m s.1) as [[]|]. Qed.

Lemma thrifty_lift {A} (m : proc W A) :
  (∀ w, ends_in m w (λ _ w', held w' ⊆ held w)) → thrifty (lift m).
Proof.
  intros Hm s. apply lift_ends. eapply ends_in_weaken; [apply Hm|].
  intros a w Hw. apply keeps_silent. set_solver.
Qed.

Lemma thrifty_alone {A} (m : proc W A) : leaves_alone held m → thrifty (lift m).
Proof.
  intros Hm. apply thrifty_lift. intros w. eapply ends_in_weaken; [apply Hm|]. by intros ? ? ->.
Qed.

Lemma thrifty_sleep ms : thrifty (lift (modify (sleep_ms ms))).
Proof. apply thrifty_alone. auto with alone. Qed.

Lemma thrifty_refresh : thrifty (lift (tree_call refresh_leaves)).
Proof. apply thrifty_alone, alone_bind; [apply refresh_alone|auto with alone]. Qed.

Lemma thrifty_refresh_once : thrifty refresh_once.
Proof.
  apply thrifty_bind; [intros s; apply ends_in_call, keeps_refl|]. intros [].
  { apply thrifty_ret. }
  apply thrifty_bind; [apply thrifty_alone, refresh_alone|]. intros _.
  intros s. apply ends_in_modify. exists []. rewrite app_nil_r. split; [done|]. left. set_solver.
Qed.

Lemma thrifty_enough ta : thrifty (enough_funds ta).
Proof.
  destruct ta; simpl; [|apply thrifty_ret]. apply thrifty_try.
  - apply thrifty_alone, alone_bind; [apply alone_call, held_balance|auto with alone].
  - intros available. case_match; apply thrifty_ret.
Qed.

(** ** A selection hands its reservation over *)

Context (fuel : nat).

Definition with_failure (e : SparkWalletError.t) s : S :=
  (s.1, {| select_leaves_refresh := select_leaves_refresh s.2;
           failed_selections := failed_selections s.2 ++ [e] |}).

(** What a selection has done, its failure once it is logged: the reservation it
    returns is all it took. *)
Definition selecting s (res : option (WalletResult LeavesReservation)) s' : Prop :=
  match res with
  | Some (Ok r) => keeps {[reservation_id r]} s s'
  | Some (Err e) => keeps ∅ s (with_failure e s')
  | None => keeps ∅ s s'
  end.

Lemma selecting_trans s s' res s'' : keeps ∅ s s' → selecting s' res s'' → selecting s res s''.
Proof. destruct res as [[]|]; apply keeps_trans. Qed.

Lemma one_more_selecting s res w :
  Dependable → one_more goal s.1 res w → selecting s (from_tree <$> res) (w, s.2).
Proof.
  intros Hd. destruct res as [[r|e]|]; simpl.
  - intros [_ Hw]. apply keeps_silent. by rewrite Hw.
  - intros Hw. exists [SparkWalletError.TreeServiceError e]. split; [done|].
    destruct Hw as [Hw|[_ Ho]]; [left; simpl; rewrite Hw; set_solver|right].
    exists e, w. split; [by left|auto].
  - intros Hw. apply keeps_silent. rewrite Hw. set_solver.
Qed.

Lemma select_payment_ends s :
  Dependable → ends_in (lift (select_payment fuel goal)) s (λ res s',
    selecting s (from_tree <$> res) s').
Proof.
  intros Hd. apply lift_ends. eapply ends_in_weaken; [apply select_leaves_held|].
  intros res w. by apply one_more_selecting.
Qed.

Lemma try_select_ends s :
  Dependable →
  ends_in (try_select_leaves_with_optimization_retry fuel goal) s (selecting s).
Proof.
  intros Hd. apply ends_in_bind. eapply ends_in_weaken; [by apply select_payment_ends|].
  intros res s1 Hdone.
  destruct res as [[r|[]]|]; simpl; try exact Hdone.
  apply ends_in_bind, ends_in_call. destruct (optimizer_is_running s1.1); [|exact Hdone].
  apply ends_in_bind, ends_in_modify.
  apply thrifty_then.
  - apply thrifty_lift. intros w. apply ends_in_call, held_cancel_optimizer.
  - intros _ s2 Hs2. apply ends_in_bind. eapply ends_in_weaken; [by apply select_payment_ends|].
    intros res s3 Hs3. apply ends_in_ret. eapply selecting_trans; [|exact Hs3].
    eapply keeps_trans; [exact Hdone|exact Hs2].
Qed.

(** The same of a selection with retries: a failure that holds a reservation is logged. *)
Definition selected s (res : option (WalletResult LeavesReservation)) s' : Prop :=
  match res with
  | Some (Ok r) => keeps {[reservation_id r]} s s'
  | _ => keeps ∅ s s'
  end.

Lemma selected_trans s s' res s'' : keeps ∅ s s' → selected s' res s'' → selected s res s''.
Proof. destruct res as [[]|]; apply keeps_trans. Qed.

(** The rest of a round that failed. *)
Lemma failed_round i ta (next : proc S (option (WalletResult LeavesReservation))) :
  (∀ s, ends_in next s (selected s)) →
  ∀ s, ends_in (_ ← refresh_once; checked ← enough_funds ta;
                match checked with
                | Err e => mret (Some (Err e))
                | Ok _ => _ ← (if i <? SELECT_LEAVES_MAX_RETRIES - 1
                               then lift (modify (sleep_ms 1000)) else mret ()); next
                end) s (selected s).
Proof.
  intros Hnext s. apply thrifty_then; [apply thrifty_refresh_once|]. intros _ s1 Hs1.
  apply thrifty_then; [apply thrifty_enough|]. intros checked s2 Hs2.
  pose proof (keeps_trans _ _ _ _ Hs1 Hs2) as Hs. destruct checked as [_|e]; [|by apply ends_in_ret].
  apply thrifty_then; [case_match; [apply thrifty_sleep|apply thrifty_ret]|]. intros _ s3 Hs3.
  eapply ends_in_weaken; [apply Hnext|]. intros res s4. apply selected_trans.
  by eapply keeps_trans.
Qed.

Lemma select_loop_ends rounds s :
  Dependable → ends_in (select_loop fuel rounds goal) s (selected s).
Proof.
  intros Hd. revert s. induction rounds as [|i rounds IH]; intros s; cbn [select_loop].
  { apply ends_in_ret, keeps_refl. }
  apply ends_in_bind. eapply ends_in_weaken; [by apply try_select_ends|].
  intros [[r|e]|] s1 Hs1; try by apply ends_in_ret.
  apply ends_in_bind, ends_in_modify.
  eapply ends_in_weaken; [by apply (failed_round i goal (select_loop fuel rounds goal))|].
  intros res s'. by apply selected_trans.
Qed.

(** ** Running the operation *)

Lemma wallet_finalize_gives_back i w (Q : TreeResult unit → W → Prop) :
  Dependable → (∀ res w', held w' = held w ∖ {[i]} → Q res w') →
  ends_in (finalize_reservation i None) w Q.
Proof.
  intros Hd HQ. apply ends_in_try, ends_in_call. pose proof (held_finalize i None w) as Hf.
  pose proof (finalizes Hd i None w) as Hok.
  destruct (store_finalize_reservation _ _ _) as [[] w1]; simpl in *; [|done].
  apply ends_in_bind, ends_in_ret, ends_in_ret. by apply HQ.
Qed.

Context {V : Type} (operation_name : string) (operation : LeavesReservation → proc W (ServiceResult V)).
Context (Hoperation : ∀ r w, ends_in (operation r) w (λ _ w', held w' ⊆ held w)).

Lemma with_reserved_keeps r s s' :
  Dependable → keeps {[reservation_id r]} s s' →
  ends_in (lift (with_reserved_leaves finalize_reservation cancel_reservation (operation r) r)) s'
    (λ _, keeps ∅ s).
Proof.
  intros Hd Hs. apply lift_ends, ends_in_bind. eapply ends_in_weaken; [apply Hoperation|].
  intros res w1 Hw1.
  assert (keeps {[reservation_id r]} s (w1, s'.2)) as Hs1.
  { eapply keeps_shrink; [exact Hs|set_solver]. }
  destruct res as [v|e]; apply ends_in_bind.
  - apply wallet_finalize_gives_back; [done|]. intros ? w2 Hw2. apply ends_in_ret.
    eapply (keeps_shrink _ _ _ (w1, _)); [exact Hs1|simpl; set_solver].
  - apply cancel_gives_back; [done|]. intros ? w2 Hw2. apply ends_in_ret.
    eapply (keeps_shrink _ _ _ (w1, _)); [exact Hs1|simpl; set_solver].
Qed.

Lemma refresh_before attempt :
  thrifty (if 0 <? attempt then r ← lift (tree_call refresh_leaves); mret (Some r)
           else mret (Some (Ok ()))).
Proof.
  case_match; [|apply thrifty_ret]. apply thrifty_bind; [apply thrifty_refresh|]. intros. apply thrifty_ret.
Qed.

Lemma spent_retry_ends rounds attempt backoff_attempt s :
  Dependable →
  ends_in (spent_retry fuel operation_name operation rounds goal attempt backoff_attempt) s
    (λ _, keeps ∅ s).
Proof.
  intros Hd. revert attempt backoff_attempt s.
  induction rounds as [|rounds IH]; intros attempt backoff s; cbn [spent_retry].
  { apply ends_in_ret, keeps_refl. }
  case_match; [apply ends_in_ret, keeps_refl|].
  apply thrifty_then; [apply refresh_before|]. intros [[[]|e]|] s1 Hs1; try by apply ends_in_ret.
  apply ends_in_bind. eapply ends_in_weaken; [by apply select_loop_ends|].
  intros [[r|e]|] s2 Hs2%(selected_trans _ _ _ _ Hs1); try by apply ends_in_ret.
  apply ends_in_bind. eapply ends_in_weaken; [by apply with_reserved_keeps|].
  assert (∀ attempt backoff s3, keeps ∅ s s3 →
    ends_in (spent_retry fuel operation_name operation rounds goal attempt backoff) s3
      (λ _, keeps ∅ s)) as Hagain.
  { intros a b s3 Hs3. eapply ends_in_weaken; [apply IH|]. intros ? s4. by apply keeps_trans. }
  intros [v|[]] s3 Hs3; try by apply ends_in_ret.
  repeat case_match; try (by apply ends_in_ret); [|by apply Hagain].
  apply thrifty_then; [apply thrifty_sleep|]. intros [] s4 Hs4. apply Hagain. by eapply keeps_trans.
Qed.

(** C5: What a payment leaves reserved, over a store whose cancel, finalize and renewal
    writes do not fail (those of the in-memory store do not) and for an operation
    that takes no reservation of its own: however the payment ends — paid, refused,
    or given up after its retries, with the optimizer stopped on the way or not —
    the caller holds no reservation it did not hold before, unless a selection it
    logged as failed left its reservation open: a reserved leaf carried no refund
    transaction, or a swap paid out leaves that do not split into the target (there
    the code returns without cancelling). *)
Theorem payment_gives_back s res s' :
  Dependable →
  with_leafs_spent_retry fuel operation_name operation goal s = Some (res, s') →
  ∃ logged, failed_selections s'.2 = failed_selections s.2 ++ logged ∧
    (held s'.1 ⊆ held s.1 ∨
     ∃ e w', SparkWalletError.TreeServiceError e ∈ logged ∧
       (e = TreeServiceError.Generic "No refund tx" ∨
        ∃ l w outcome, swap_leaves_internal l goal w = Some (Ok outcome, w') ∧
          select_leaves_by_target_amounts (leaf <$> pedigrees outcome) goal = Err e)).
Proof.
  intros Hd Hrun.
  apply (ends_in_use _ _ _ _ _ (spent_retry_ends 9 0 0 s Hd)) in Hrun as (l & Hl & Hk).
  exists l. split; [done|]. destruct Hk as [Hk|]; [left|by right]. set_solver.
Qed.
End keeps.

(** ** The retries end *)

Section answers.
Context `{Bitcoin} {W : Type} `{!TreeStoreApi W} `{!ServiceEnv W} `{!Optimizer W} `{!HashIter string}.
Abbreviation S := (W * WalletState)%type.
Implicit Types ta : option TargetAmounts.

(** [m] does not stop in the middle of a wait. *)
Definition answers {X A} (m : proc X (option A)) : Prop := ∀ x, ends_in m x (λ o _, o ≠ None).

Lemma answers_ret {X A} (a : A) : answers (X := X) (mret (Some a)).
Proof. by intros x. Qed.

Lemma answers_after {X A B} (m : proc X A) (f : A → proc X (option B)) :
  (∀ a, answers (f a)) → answers (m ≫= f).
Proof. intros Hf x. apply ends_in_bind. unfold ends_in at 1. destruct (m x) as [[a x']|]; [apply Hf|done]. Qed.

Lemma answers_bind {X A B} (m : proc X (option A)) (f : option A → proc X (option B)) :
  answers m → (∀ a, answers (f (Some a))) → answers (m ≫= f).
Proof.
  intros Hm Hf x. apply ends_in_bind. eapply ends_in_weaken; [apply Hm|].
  intros [a|] x' Ho; [apply Hf|done].
Qed.

Lemma answers_and_then {X A C} (m : proc X (option (WalletResult A)))
    (f : A → proc X (option (WalletResult C))) :
  answers m → (∀ a, answers (f a)) → answers (and_then m f).
Proof. intros Hm Hf. apply answers_bind; [done|]. intros [a|e]; [apply Hf|apply answers_ret]. Qed.

Lemma answers_lift {A} (m : proc W (option A)) : answers m → answers (lift m).
Proof.
  intros Hm s. specialize (Hm s.1). unfold ends_in, lift in *. by destruct (m s.1) as [[]|].
Qed.

Context (fuel : nat) (clock : W → Z) (Hclock : clock_runs clock) (Hstart : ∀ w, 0 ≤ clock w).
Context (Hfuel : DEFAULT_MAX_WAIT_FOR_PENDING + 2 ≤ Z.of_nat fuel).

Lemma select_payment_answers ta : answers (select_payment fuel ta).
Proof.
  intros w. apply select_leaves_stops. right. exists clock. split; [done|].
  specialize (Hstart w). simpl. unfold DEFAULT_MAX_WAIT_FOR_PENDING in *. lia.
Qed.

Lemma try_select_answers ta : answers (try_select_leaves_with_optimization_retry fuel ta).
Proof.
  apply answers_bind; [apply answers_lift, select_payment_answers|].
  intros [r|[]]; try apply answers_ret.
  apply answers_after. intros []; [|apply answers_ret].
  apply answers_after. intros _. apply answers_after. intros _.
  apply answers_bind; [apply answers_lift, select_payment_answers|].
  intros r. apply answers_ret.
Qed.

Lemma select_loop_answers rounds ta : answers (select_loop fuel rounds ta).
Proof.
  induction rounds as [|i rounds IH]; cbn [select_loop]; [apply answers_ret|].
  apply answers_bind; [apply try_select_answers|].
  intros [r|e]; [apply answers_ret|]. apply answers_after. intros _.
  apply answers_after. intros _. apply answers_after. intros [_|]; [|apply answers_ret].
  apply answers_after. by intros _.
Qed.

Context {V : Type} (operation_name : string) (operation : LeavesReservation → proc W (ServiceResult V)).

(** Every round ends the payment or uses up one of its three and five retries. *)
Lemma spent_retry_answers rounds ta attempt backoff_attempt :
  attempt ≤ MAX_LEAF_SPENT_RETRIES → backoff_attempt ≤ MAX_BACKOFF_RETRIES →
  (MAX_LEAF_SPENT_RETRIES - attempt) + (MAX_BACKOFF_RETRIES - backoff_attempt) < Z.of_nat rounds →
  answers (spent_retry fuel operation_name operation rounds ta attempt backoff_attempt).
Proof.
  revert attempt backoff_attempt. induction rounds as [|rounds IH]; intros a b Ha Hb Hr; [lia|].
  cbn [spent_retry]. destruct (Z.leb_spec MAX_LEAF_SPENT_RETRIES a); [apply answers_ret|].
  apply answers_and_then.
  { case_match; [|apply answers_ret]. apply answers_after. intros r. apply answers_ret. }
  intros _. apply answers_and_then; [apply select_loop_answers|]. intros r.
  apply answers_after. intros [v|[]]; try apply answers_ret.
  destruct (is_backoff_retryable_error _).
  - destruct (Z.ltb_spec MAX_BACKOFF_RETRIES (b + 1)); [apply answers_ret|].
    apply answers_after. intros _. apply IH; lia.
  - destruct (is_leafs_spent_error _); [|apply answers_ret]. apply IH; lia.
Qed.

(** C40: A payment comes to an end: whatever the operators answer, after at most
    nine rounds (three for leaves that turn out spent, five for errors worth a
    back-off, and the one that gives up) it has succeeded or failed, and so has
    every selection in it once the clock has passed the longest wait. *)
Theorem payment_ends ta s s' :
  with_leafs_spent_retry fuel operation_name operation ta s ≠ Some (None, s').
Proof.
  intros Hrun. eapply (ends_in_use _ _ (λ o _, o ≠ None)) in Hrun; [done|].
  by apply spent_retry_answers.
Qed.
End answers.

(** ** What a withdrawal spends *)

Section withdraw.
Context `{ServiceEnv W} {Transfer : Type} (coop_exit : CoopExitParams → proc W (ServiceResult Transfer)).

(** A withdrawal spends exactly what it says. Of the leaves reserved for it, the
    ones handed to the cooperative exit are worth the amount and the fee leaves, which
    are other leaves, the fee; the quote is passed on. Without an amount the whole
    reservation goes, and only when it covers the fee. *)
Theorem withdrawal_is_exact exit_speed r amount_sats fee quote w transfer w' :
  NoDup (id <$> reservation_leaves r) → Forall node_wf (reservation_leaves r) →
  valueZ (reservation_leaves r) < 2 ^ 64 →
  in_uint 64 (default 0 amount_sats) → in_uint 64 fee →
  withdraw_inner coop_exit exit_speed r
    ((λ a, new_amount_and_fee a (Some fee)) <$> amount_sats) fee quote w = Some (Ok transfer, w') →
  ∃ params, coop_exit params w = Some (Ok transfer, w') ∧ cep_fee_sats params = fee ∧
    cep_exit_speed params = exit_speed ∧
    match amount_sats with
    | Some amount => ∃ fl, cep_fee_leaves params = Some fl ∧
        cep_leaves params ++ fl ⊆+ reservation_leaves r ∧
        valueZ (cep_leaves params) = amount ∧ valueZ fl = fee ∧
        cep_withdraw_all params = false ∧ cep_fee_quote_id params = Some quote
    | None => cep_leaves params = reservation_leaves r ∧ fee ≤ valueZ (cep_leaves params) ∧
        cep_fee_leaves params = None ∧ cep_withdraw_all params = true
    end.
Proof.
  intros Hnd Hwf Hv Ha Hf Hrun. unfold withdraw_inner in Hrun. destruct amount_sats as [a|].
  - destruct (select_leaves_by_target_amounts _ _) as [tl|e] eqn:Hsel; [|done].
    destruct (select_target_Ok (reservation_leaves r) (Some (AmountAndFee a (Some fee))) tl)
      as (Hsub & Hval & fl & Hfl & Hfee); [exact Hnd|exact Hwf|exact (conj Ha Hf)|exact Hsel|].
    unfold target_selection in Hsub. cbn in Hrun. rewrite Hfl in Hsub, Hrun. eexists. split; [exact Hrun|].
    split_and!; [done|done|]. exists fl. by split_and!.
  - unfold try_bind, mbind, proc_bind, mret, proc_ret in Hrun. simpl in Hrun.
    rewrite sum_value_exact in Hrun by done.
    destruct (Z.ltb_spec (valueZ (reservation_leaves r)) fee) as [|Hle]; [done|].
    eexists. split; [exact Hrun|]. by split_and!.
Qed.
End withdraw.
