(* ===== verification/WalletPayStore.v ===== *)
(** * Payments over the in-memory store

    The wallet of [TreeServiceStore], with one leaf worth 5 and a running clock, pays
    3: the first attempt meets a lock of the operators, the second goes through. *)

From S2P Require Import Prelude Bitcoin BitcoinTx SparkTx TreeModel LeafSelect ExitBuild.
From S2P Require Import TreeStore TreeStoreSpec TreeService TreeServiceSpec TreeServiceStore.
From S2P Require Import FrostBatch TimelockManager WalletPay WalletPaySpec.

#[local] Existing Instance bip68.
#[local] Existing Instance string_order.
#[local] Existing Instance sample_tree_store.
#[local] Existing Instance sample_store_laws.
#[local] Existing Instance sample_env.
#[local] Existing Instance sample_env_laws.

(** An optimizer that is not running. *)
#[local] Instance idle_optimizer : Optimizer World :=
  {| optimizer_is_running _ := false; optimizer_cancel w := (Ok (), w) |}.
#[local] Instance idle_optimizer_laws : OptimizerLaws (W := World).
Proof. by split. Defined.

Definition locked : ServiceError.t := ServiceError.ServiceConnectionError (OperatorRpcError.Connection
  {| status_code := PermissionDenied; error_info_reason := None;
     status_text := "leaf already spent" |}).

(** A transfer that is refused until the clock has ticked. *)
Definition transfer_once_unlocked (r : LeavesReservation) : proc World (ServiceResult (list Z)) := λ w,
  match w.2 with
  | O => Some (Err locked, tick w)
  | _ => Some (Ok (value <$> reservation_leaves r), w)
  end.

Definition fresh_wallet : World * WalletState :=
  (wallet, {| select_leaves_refresh := false; failed_selections := [] |}).

Definition paid := with_leafs_spent_retry 1 "Transfer" transfer_once_unlocked (Some three) fresh_wallet.

Definition paid_summary : option (list Z * nat * nat) :=
  match paid with
  | Some (Some (Ok l), s) => Some (l, length (failed_selections s.2), snd s.1)
  | _ => None
  end.

Lemma paid_summary_eq : paid_summary = Some ([3], 0%nat, 1%nat).
Proof. vm_compute. reflexivity. Qed.

Lemma transfer_keeps r w : ends_in (transfer_once_unlocked r) w (λ _ w', held w' ⊆ held w).
Proof. destruct w as [st [|t]]; unfold ends_in; simpl; done. Qed.

Example payment_gives_back_witness :
  ∃ s', paid = Some (Some (Ok [3]), s') ∧ held fresh_wallet.1 = ∅ ∧ held s'.1 ⊆ held fresh_wallet.1.
Proof.
  pose proof paid_summary_eq as Hs. unfold paid_summary in Hs.
  destruct paid as [[[[l|e]|] s']|] eqn:E; try discriminate Hs. injection Hs as -> Hl _.
  exists s'. split; [reflexivity|]. split; [reflexivity|].
  destruct (payment_gives_back (Some three) 1 "Transfer" transfer_once_unlocked transfer_keeps
    fresh_wallet (Some (Ok [3])) s') as (logged & Hlog & [Hheld|(e & w & Hmiss & _)]);
    [apply in_memory_dependable|exact E|exact Hheld|].
  simpl in Hlog. subst logged. apply nil_length_inv in Hl. rewrite Hl in Hmiss.
  destruct (proj1 (elem_of_nil _) Hmiss).
Defined.

Example payment_ends_witness :
  with_leafs_spent_retry (Z.to_nat (DEFAULT_MAX_WAIT_FOR_PENDING + 2)) "Transfer"
    transfer_once_unlocked (Some three) fresh_wallet ≠ Some (None, fresh_wallet).
Proof.
  apply (payment_ends _ (λ w : World, Z.of_nat w.2) clock_ticks).
  - intros w. simpl. lia.
  - rewrite Z2Nat.id; [lia|]. unfold DEFAULT_MAX_WAIT_FOR_PENDING. lia.
Defined.

(** A cooperative exit that hands back what it was asked to exit. *)
Definition exit_with (params : CoopExitParams) : proc World (ServiceResult CoopExitParams) :=
  mret (Ok params).

Definition reserved_5_2_1 : LeavesReservation :=
  LeavesReservation_new [bip68_node "a" 5 None; bip68_node "b" 2 None; bip68_node "c" 1 None] "r".

Definition exited :=
  withdraw_inner exit_with Fast reserved_5_2_1 (Some (new_amount_and_fee 5 (Some 3))) 3 "q" wallet.

Lemma exited_ok : match exited with Some (r, _) => is_Ok r | None => false end = true.
Proof. vm_compute. reflexivity. Qed.

Example withdrawal_is_exact_witness :
  ∃ params fl, cep_fee_leaves params = Some fl ∧ valueZ (cep_leaves params) = 5 ∧ valueZ fl = 3 ∧
    exited = Some (Ok params, wallet).
Proof.
  pose proof exited_ok as Hok. destruct exited as [[[params|e] w']|] eqn:E; try discriminate Hok.
  destruct (withdrawal_is_exact exit_with Fast reserved_5_2_1 (Some 5) 3 "q" wallet params w')
    as (p & Hp & _ & _ & fl & Hfl & _ & Ha & Hf & _).
  - by apply (bool_decide_unpack _).
  - repeat constructor; unfold node_wf; simpl; lia.
  - unfold valueZ. simpl. lia.
  - done.
  - done.
  - exact E.
  - injection Hp as -> <-. exists params, fl. repeat split; assumption.
Defined.
