(* ===== verification/CoopExit.v ===== *)
(** * Cooperative exits: [spark/src/services/coop_exit.rs]

    A withdrawal with the help of the operators: the service provider (SSP) builds a
    transaction that pays the wallet's address on-chain, the exit transaction, and a
    connector transaction that spends it. The wallet signs refunds of its leaves to the
    SSP, each of which also spends an output of the connector transaction. *)

From S2P Require Import Prelude WireBytes Bitcoin BitcoinTx Timelock SparkTx TreeModel NodeWire.
From S2P Require Import FrostBatch RefundJobs TransferModel ServiceCalls TransferService WalletPay.
From stdpp Require Import pretty.
Open Scope Z_scope.

Definition COOP_EXIT_EXPIRY_DURATION_MAINNET : Z := (7 * 24 * 60 * 60 + 5 * 60) * NANOS_PER_SEC.
Definition COOP_EXIT_EXPIRY_DURATION : Z := 35 * 60 * NANOS_PER_SEC.

(** ** Messages *)

(** The idempotency key, which the code leaves out, is left out. *)
Record RequestCoopExitInput := {
  leaf_external_ids : list string;
  withdrawal_address : string;
  exit_speed : ExitSpeed;
  withdraw_all : bool;
  fee_leaf_external_ids : option (list string);
  fee_quote_id : option string;
  user_outbound_transfer_external_id : option string;
}.

(** The fields the code reads of the SSP's answers. *)
Record CoopExitRequest := {
  coop_exit_request_id : string;
  raw_connector_transaction : string;
  coop_exit_txid : string;
  raw_coop_exit_transaction : string;
}.

Record SspCoopExitFeeQuote := {
  ssp_quote_id : string;
  (** [expires_at.timestamp()], an [i64] *)
  ssp_expires_at : Z;
  user_fee_fast : CurrencyAmount;
  user_fee_medium : CurrencyAmount;
  user_fee_slow : CurrencyAmount;
  l1_broadcast_fee_fast : CurrencyAmount;
  l1_broadcast_fee_medium : CurrencyAmount;
  l1_broadcast_fee_slow : CurrencyAmount;
}.

Record CooperativeExitRequest := {
  cex_transfer : option StartTransferRequest;
  exit_id : string;
  exit_txid : list Z;
  connector_tx : list Z;
}.

Class CoopExitEnv {B : Bitcoin} {BT : BitcoinTx} `{!Codec} `{!SignatureCodec} (W : Type) := {
  coop_transfers :: TransferEnv W;
  coop_clock :: ClockEnv W;
  (** [Address::script_pubkey], [Address::to_string] *)
  address_script_pubkey : Address → ScriptBuf;
  address_to_string : Address → string;
  (** [str::parse::<Txid>], [Txid::to_string], [Txid::as_byte_array] *)
  txid_from_str : string → option Txid;
  txid_to_string : Txid → string;
  txid_as_byte_array : Txid → list Z;
  ssp_get_coop_exit_fee_quote : list string → string → W →
    result ServiceProviderError.t SspCoopExitFeeQuote * W;
  ssp_request_coop_exit : RequestCoopExitInput → W →
    result ServiceProviderError.t CoopExitRequest * W;
  (** the transfer and the request; the answer is only logged *)
  ssp_complete_coop_exit : string → string → W → result ServiceProviderError.t unit * W;
  client_cooperative_exit_v2 : CooperativeExitRequest → W →
    result OperatorRpcError.t (option ProtoTransfer.Transfer) * W;
}.

(** ** The fee quote *)

(** [TryFrom<crate::ssp::CoopExitFeeQuote> for CoopExitFeeQuote] *)
Definition coop_exit_fee_quote_try_from (quote : SspCoopExitFeeQuote) : ServiceResult CoopExitFeeQuote :=
  let speed user l1 : ServiceResult CoopExitSpeedFeeQuote :=
    user_fee_sat ← from_ssp (as_sats user);
    l1_broadcast_fee_sat ← from_ssp (as_sats l1);
    Ok {| user_fee_sat := user_fee_sat; l1_broadcast_fee_sat := l1_broadcast_fee_sat |} in
  expires_at ← (if ssp_expires_at quote <? 0
                then Err (ServiceError.Generic "Failed to parse expires_at") else Ok (ssp_expires_at quote));
  speed_fast ← speed (user_fee_fast quote) (l1_broadcast_fee_fast quote);
  speed_medium ← speed (user_fee_medium quote) (l1_broadcast_fee_medium quote);
  speed_slow ← speed (user_fee_slow quote) (l1_broadcast_fee_slow quote);
  Ok {| quote_id := ssp_quote_id quote; quote_expires_at := expires_at;
        speed_fast := speed_fast; speed_medium := speed_medium; speed_slow := speed_slow |}.

Section service.
Context {B : Bitcoin} {BT : BitcoinTx} `{!Codec} `{!SignatureCodec} {W : Type} `{!CoopExitEnv W}.
Context `{!HashIter string} `{!HashIter Identifier}.

(** The fields besides the clients; the network is whether it is the main one, and the
    observer its [before_coop_exit]. *)
Record CoopExitService := {
  ssp_identity_public_key : PublicKey;
  transfer_service : TransferService (W := W);
  mainnet : bool;
  coop_exit_observer : option (TransferId → Address → Z → W → result string unit * W);
}.

Implicit Types self : CoopExitService.

Definition fetch_coop_exit_fee_quote (leaves : list TreeNode) (address : Address)
    : proc W (ServiceResult CoopExitFeeQuote) :=
  quote ←? ssp (ssp_get_coop_exit_fee_quote (id <$> leaves) (address_to_string address));
  mret (coop_exit_fee_quote_try_from quote).

Definition prepare_coop_exit self (leaves : list TreeNode) (transfer_id : option TransferId)
    : proc W PrepareTransferRequest :=
  transfer_id ← match transfer_id with
    | Some transfer_id => mret transfer_id | None => call uuid_now_v7 end;
  build_transfer_approval_request (transfer_service self) transfer_id leaves
    (ssp_identity_public_key self).

(** ** The payout *)

Definition validate_coop_exit_payout_transaction (raw_coop_exit_transaction coop_exit_txid : string)
    (withdrawal_address : Address) (expected_payout_amount_sats : Z) : ServiceResult Txid :=
  if bool_decide (raw_coop_exit_transaction = "") || bool_decide (coop_exit_txid = "") then
    Err (ServiceError.ValidationError "SSP coop exit response missing L1 transaction fields")
  else
    exit_tx_bytes ← ok_or (hex_decode raw_coop_exit_transaction)
      (ServiceError.ValidationError "invalid raw_coop_exit_transaction hex");
    exit_tx ← ok_or (deserialize exit_tx_bytes)
      (ServiceError.ValidationError "invalid raw_coop_exit_transaction tx");
    expected_txid ← ok_or (txid_from_str coop_exit_txid)
      (ServiceError.ValidationError "invalid coop_exit_txid");
    let actual_txid := compute_txid exit_tx in
    if negb (bool_decide (actual_txid = expected_txid)) then
      Err (ServiceError.ValidationError ("SSP coop exit response is inconsistent: coop_exit_txid " +:+
        txid_to_string expected_txid +:+ " does not match raw_coop_exit_transaction " +:+
        txid_to_string actual_txid))
    else
      let expected_script := address_script_pubkey withdrawal_address in
      let pays_user := existsb (λ out, bool_decide (script_pubkey out = expected_script) &&
        (expected_payout_amount_sats <=? txout_value out)) (tx_output exit_tx) in
      if negb pays_user then
        Err (ServiceError.ValidationError
          ("SSP cooperative exit transaction does not pay the requested withdrawal address for the expected amount (>= " +:+
           pretty expected_payout_amount_sats +:+ " sats)"))
      else Ok expected_txid.

(** ** Signing *)

(** [bitcoin/service.rs] *)
Definition sighash_from_multi_input_tx (tx : Transaction) (input_index : nat)
    (prev_outputs : list (TxOut ScriptBuf)) : result string Sighash :=
  if negb (length prev_outputs =? length (tx_input tx))%nat then
    Err ("prev_outputs length " +:+ pretty (Z.of_nat (length prev_outputs)) +:+
         " != inputs length " +:+ pretty (Z.of_nat (length (tx_input tx))))
  else taproot_key_spend_signature_hash tx input_index prev_outputs.

(** The sighash of a refund that spends [prev_out], with the connector's output if the
    refund has a second input. *)
Definition connector_sighash (refund_tx : Transaction) (prev_out : TxOut ScriptBuf)
    (connector_prev_out : option (TxOut ScriptBuf)) : result string Sighash :=
  match connector_prev_out with
  | Some c =>
      if (1 <? length (tx_input refund_tx))%nat
      then sighash_from_multi_input_tx refund_tx 0 [prev_out; c]
      else sighash_from_tx refund_tx 0 prev_out
  | None => sighash_from_tx refund_tx 0 prev_out
  end.

(** The job of one variant; [tx] is the transaction it spends. An index past the outputs
    or past the commitments panics. *)
Definition connector_refund_job (leaf : LeafKeyTweak) (signing_public_key : PublicKey)
    (tx refund_tx : Transaction) (connector_prev_out : option (TxOut ScriptBuf))
    (commitments : list (gmap Identifier SigningCommitments)) (i : nat)
    : proc W (ServiceResult RefundJob) :=
  prev_out ← panic_or (tx_output tx !! 0%nat);
  sighash ←? mret (map_err ServiceError.BitcoinError
    (connector_sighash refund_tx prev_out connector_prev_out));
  commitments ← panic_or (commitments !! i);
  mret (Ok (build_refund_signing_job (id (lkt_node leaf)) (verifying_public_key (lkt_node leaf))
              signing_public_key refund_tx sighash commitments None)).

(** One round of the loop over the leaves. *)
Definition coop_exit_leaf_jobs (receiving_public_key : PublicKey) (connector_txid : Txid)
    (connector_tx_parsed : Transaction)
    (cpfp_commitments direct_commitments direct_from_cpfp_commitments :
       list (gmap Identifier SigningCommitments))
    (i : nat) (leaf : LeafKeyTweak) : proc W (ServiceResult LeafRefundJobs) :=
  let node := lkt_node leaf in
  signing_public_key ←? mret (map_err ServiceError.SignerError (derive_leaf_signing_public_key node));
  let connector_prev_out := tx_output connector_tx_parsed !! i in
  refund_tx ←? mret (or_generic (refund_tx node) "No refund tx");
  old_sequence ← panic_or (input_sequences refund_tx !! 0%nat);
  sequences ←? mret (or_generic (next_sequence old_sequence) "Failed to get next sequence");
  let '(cpfp_sequence, direct_sequence) := sequences in
  refund_direct ← panic_or (direct_refund_tx_method node);
  txs ← panic_or (create_connector_refund_txs {|
    crp_cpfp_sequence := cpfp_sequence; crp_direct_sequence := direct_sequence;
    crp_node_tx := node_tx node; crp_direct_tx := refund_direct;
    crp_connector_outpoint := mkOutPoint connector_txid (wrap 32 (Z.of_nat i));
    crp_receiving_pubkey := receiving_public_key |});
  cpfp ←? connector_refund_job leaf signing_public_key (node_tx node) (refund_cpfp_tx txs)
            connector_prev_out cpfp_commitments i;
  direct ←? match direct_tx node, refund_direct_tx txs with
    | Some direct_tx, Some direct_refund_tx =>
        job ←? connector_refund_job leaf signing_public_key direct_tx direct_refund_tx
                 connector_prev_out direct_commitments i;
        mret (Ok (Some job))
    | _, _ => mret (Ok None)
    end;
  direct_from_cpfp ←? match refund_direct_from_cpfp_tx txs with
    | Some dfc_refund_tx =>
        job ←? connector_refund_job leaf signing_public_key (node_tx node) dfc_refund_tx
                 connector_prev_out direct_from_cpfp_commitments i;
        mret (Ok (Some job))
    | None => mret (Ok None)
    end;
  mret (Ok (mkLeafRefundJobs cpfp direct direct_from_cpfp)).

Definition sign_coop_exit_refunds_into_jobs (leaves : list LeafKeyTweak)
    (receiving_public_key : PublicKey) (connector_txid : Txid) (connector_tx_parsed : Transaction)
    (cpfp_commitments direct_commitments direct_from_cpfp_commitments :
       list (gmap Identifier SigningCommitments))
    : proc W (ServiceResult (list Proto.UserSignedTxSigningJob * list Proto.UserSignedTxSigningJob *
                             list Proto.UserSignedTxSigningJob)) :=
  leaf_jobs ←? try_all (λ '(i, leaf), coop_exit_leaf_jobs receiving_public_key connector_txid
                          connector_tx_parsed cpfp_commitments direct_commitments
                          direct_from_cpfp_commitments i leaf) (imap pair leaves);
  signed ←? signer (sign_leaf_refunds leaf_jobs);
  mret (into_user_signed_job_groups signed).

(** ** The exit *)

(** The leaves are handed to the signer with fresh ids, as in any transfer. *)
Definition submit_coop_exit_transfer self (leaf_key_tweaks : list LeafKeyTweak)
    (connector_txid exit_txid : Txid) (transfer_id : TransferId) (connector_tx : list Z)
    (prepared : option PreparedTransfer) : proc W (ServiceResult Transfer) :=
  match leaf_key_tweaks with
  | [] => mret (Err (ServiceError.InvalidInput "submit_coop_exit_transfer requires at least one leaf"))
  | _ =>
      let receiver_public_key := ssp_identity_public_key self in
      signing_commitments ←? fetch_commitments ((λ l, id (lkt_node l)) <$> leaf_key_tweaks) 0;
      chunks ←? mret (split_signing_commitments_by_variant signing_commitments (length leaf_key_tweaks));
      let '(cpfp_chunk, direct_chunk, direct_from_cpfp_chunk) := chunks in
      connector_tx_parsed ←? mret (or_generic (deserialize connector_tx)
        "Failed to deserialize connector transaction");
      jobs ←? sign_coop_exit_refunds_into_jobs leaf_key_tweaks receiver_public_key connector_txid
                connector_tx_parsed cpfp_chunk direct_chunk direct_from_cpfp_chunk;
      let '(cpfp_jobs, direct_jobs, direct_from_cpfp_jobs) := jobs in
      prepared ←? match prepared with
        | Some prepared => mret (Ok prepared)
        | None =>
            request ← build_prepare_transfer_request (transfer_service self) transfer_id leaf_key_tweaks
                        receiver_public_key;
            signer (call (prepare_transfer request))
        end;
      let signed_package := {|
        leaves_to_send := cpfp_jobs; direct_leaves_to_send := direct_jobs;
        direct_from_cpfp_leaves_to_send := direct_from_cpfp_jobs;
        tp_key_tweak_package := collect_packages (pt_operator_packages prepared);
        tp_user_signature := serialize_der (transfer_user_signature prepared);
        tp_hash_variant := V2 |} in
      now ← call now;
      expiry_time ← panic_or (checked_add now (if mainnet self then COOP_EXIT_EXPIRY_DURATION_MAINNET
                                               else COOP_EXIT_EXPIRY_DURATION));
      identity ←? identity_key;
      expiry_time ←? mret (or_generic (web_time_to_prost_timestamp expiry_time) "Invalid expiry time");
      exit_id ← call uuid_now_v7;
      response ←? rpc (client_cooperative_exit_v2 {|
        cex_transfer := Some {|
          st_transfer_id := transfer_id;
          st_owner_identity_public_key := public_key_serialize identity;
          st_receiver_identity_public_key := public_key_serialize receiver_public_key;
          st_expiry_time := Some expiry_time; st_transfer_package := Some signed_package;
          st_spark_invoice := "" |};
        exit_id := exit_id; exit_txid := txid_as_byte_array exit_txid; connector_tx := connector_tx |});
      mret (t ← or_generic response "No transfer in response"; transfer_try_from t)
  end.

(** The connector transaction of the SSP, which must spend the exit transaction. *)
Definition connector_transaction (expected_exit_txid : Txid) (raw_connector_transaction : string)
    : proc W (ServiceResult (list Z * Transaction)) :=
  bytes ←? mret (or_generic (hex_decode raw_connector_transaction) "invalid raw_connector_transaction hex");
  connector_tx ←? mret (or_generic (deserialize bytes) "invalid raw_connector_transaction tx");
  input ← panic_or (tx_input connector_tx !! 0%nat);
  let coop_exit_input := txid (previous_output input) in
  mret (if negb (bool_decide (coop_exit_input = expected_exit_txid)) then
          Err (ServiceError.ValidationError
            ("SSP connector transaction does not spend the verified exit transaction (spends " +:+
             txid_to_string coop_exit_input +:+ ", expected " +:+ txid_to_string expected_exit_txid +:+ ")"))
        else Ok (bytes, connector_tx)).

Definition expected_payout (params : CoopExitParams) : Z :=
  let leaves_sum := sum_wrap 64 (value <$> cep_leaves params) in
  if cep_withdraw_all params then saturating_sub leaves_sum (cep_fee_sats params) else leaves_sum.

Definition coop_exit_inner self (address : Address) (transfer_id : option TransferId)
    (params : CoopExitParams) (prepared : option PreparedTransfer) : proc W (ServiceResult Transfer) :=
  unwrapped_transfer_id ← match transfer_id with
    | Some transfer_id => mret transfer_id | None => call uuid_now_v7 end;
  let leaves_sum := sum_wrap 64 (value <$> cep_leaves params) in
  _ ←? match coop_exit_observer self with
    | Some before_coop_exit =>
        r ← call (before_coop_exit unwrapped_transfer_id address leaves_sum);
        mret (map_err ServiceError.TransferObserverError r)
    | None => mret (Ok ())
    end;
  let leaf_key_tweaks :=
    prepare_leaf_key_tweaks_to_send (cep_leaves params ++ default [] (cep_fee_leaves params)) in
  coop_exit_request ←? ssp (ssp_request_coop_exit {|
    leaf_external_ids := id <$> cep_leaves params;
    withdrawal_address := address_to_string address;
    exit_speed := cep_exit_speed params; withdraw_all := cep_withdraw_all params;
    fee_leaf_external_ids := (λ fee_leaves : list TreeNode, id <$> fee_leaves) <$> cep_fee_leaves params;
    fee_quote_id := cep_fee_quote_id params;
    user_outbound_transfer_external_id := Some unwrapped_transfer_id |});
  expected_exit_txid ←? mret (validate_coop_exit_payout_transaction
    (raw_coop_exit_transaction coop_exit_request) (coop_exit_txid coop_exit_request) address
    (expected_payout params));
  connector ←? connector_transaction expected_exit_txid (raw_connector_transaction coop_exit_request);
  let '(connector_bytes, connector_tx) := connector in
  res ← submit_coop_exit_transfer self leaf_key_tweaks (compute_txid connector_tx) expected_exit_txid
          unwrapped_transfer_id connector_bytes prepared;
  transfer ←? match transfer_id, res with
    | _, Ok t => mret (Ok t)
    | Some transfer_id, Err e => recover_transfer_on_rpc_connection_error transfer_id e
    | None, Err e => mret (Err e)
    end;
  _ ←? ssp (ssp_complete_coop_exit (TransferModel.transfer_id transfer)
              (coop_exit_request_id coop_exit_request));
  mret (Ok transfer).

Definition coop_exit self (address : Address) (transfer_id : option TransferId)
    (params : CoopExitParams) : proc W (ServiceResult Transfer) :=
  coop_exit_inner self address transfer_id params None.

Definition submit_coop_exit self (address : Address) (transfer_id : option TransferId)
    (params : CoopExitParams) (approved_transfer : PreparedTransfer) : proc W (ServiceResult Transfer) :=
  coop_exit_inner self address transfer_id params (Some approved_transfer).
End service.
