(* ===== verification/CoopExitSpec.v ===== *)
(** * What a cooperative exit signs and asks for

    [exit_refunds_are_bound]: everything a cooperative exit signs is worthless until the
    transaction that pays the withdrawal is in a block. [exit_completes_in_order]: what
    the operators and the SSP are asked, and when the exit counts as done. *)

From S2P Require Import Prelude WireBytes Bitcoin BitcoinTx Timelock SparkTx TreeModel NodeWire Paging.
From S2P Require Import LeafSelect TreeStoreSpec TreeService ExitSample FrostBatch FrostSample RefundJobs RefundJobsSpec TransferModel ServiceCalls.
From S2P Require Import TransferService TransferServiceSpec TransferCompletes WalletPay CoopExit.
Open Scope Z_scope.

Inductive ExitRequest :=
| ExitAsked (input : RequestCoopExitInput)
| ExitStarted (request : CooperativeExitRequest)
| ExitCompleted (transfer_id request_id : string).

Class CoopExitLaws `{CoopExitEnv W} := {
  coop_transfer_laws :: TransferLaws (W := W);
  coop_clock_laws :: ClockLaws (W := W);
  coop_event : ExitRequest → other_request;
  log_ask_exit r w : frost_log (ssp_request_coop_exit r w).2 = frost_log w;
  log_complete t r w : frost_log (ssp_complete_coop_exit t r w).2 = frost_log w;
  log_exit r w : frost_log (client_cooperative_exit_v2 r w).2 = frost_log w;
  events_ask_exit r w : events (ssp_request_coop_exit r w).2 =
    events w ++ [Requested (coop_event (ExitAsked r))];
  events_complete t r w : events (ssp_complete_coop_exit t r w).2 =
    events w ++ [Requested (coop_event (ExitCompleted t r))];
  events_exit r w : events (client_cooperative_exit_v2 r w).2 =
    events w ++ [Requested (coop_event (ExitStarted r))];
}.

(** ** Refunds with a connector *)

Section connector.
Context {B : Bitcoin} {BT : BitcoinTx}.
Implicit Types (prev t : Transaction).

(** [t] spends output 0 of [prev] and the output [connector], and all but at most the fixed
    fee of the first goes to [script]. *)
Definition connects prev t script (s : Sequence) (connector : OutPoint Txid) : Prop :=
  ∃ o v, tx_output prev !! 0%nat = Some o ∧
    tx_input t = [mkTxIn (mkOutPoint (compute_txid prev) 0) s; mkTxIn connector SEQUENCE_MAX] ∧
    txout_value o - DEFAULT_FEE_SATS ≤ v ≤ txout_value o ∧
    (tx_output t = [mkTxOut v script] ∨ tx_output t = [mkTxOut v script; ephemeral_anchor_output]).

Lemma spark_connector_connects prev o s script fee anchor connector :
  tx_output prev !! 0%nat = Some o →
  connects prev (create_spark_connector_tx (mkOutPoint (compute_txid prev) 0) s (txout_value o)
    script fee anchor connector) script s connector.
Proof.
  intros Ho. destruct (spark_tx_moves prev o s script fee anchor Ho) as (o' & (Ho' & _ & v & Hv & Hout) & _).
  rewrite Ho in Ho'. injection Ho' as <-. exists o, v. split_and!; [done| |lia..|].
  - unfold create_spark_connector_tx. by rewrite tx_input_make, spark_tx_input.
  - unfold create_spark_connector_tx. rewrite tx_output_make; [done|].
    apply Forall_forall. intros x Hx. by eapply tx_output_range.
Qed.

Lemma connector_txs_connect params txs :
  create_connector_refund_txs params = Some txs →
  let script := p2tr_script (crp_receiving_pubkey params) in
  let connector := crp_connector_outpoint params in
  connects (crp_node_tx params) (refund_cpfp_tx txs) script (crp_cpfp_sequence params) connector ∧
  (∃ d, refund_direct_from_cpfp_tx txs = Some d ∧
     connects (crp_node_tx params) d script (crp_direct_sequence params) connector) ∧
  match crp_direct_tx params, refund_direct_tx txs with
  | None, None => True
  | Some prev, Some d => connects prev d script (crp_direct_sequence params) connector
  | _, _ => False
  end.
Proof.
  intros (o & Ho & Htxs)%bind_Some. apply bind_Some in Htxs as (d & Hd & [= <-]). simpl.
  split; [by apply spark_connector_connects|].
  split; [eexists; split; [done|by apply spark_connector_connects]|].
  destruct (crp_direct_tx params) as [prev|]; [|by injection Hd as <-].
  apply bind_Some in Hd as (o' & Ho' & [= <-]). by apply spark_connector_connects.
Qed.
End connector.

(** ** What is signed *)

Section exits.
Context `{CoopExitLaws W} `{!HashIter string} `{!HashIter Identifier}.
Implicit Types (self : CoopExitService (W := W)) (node : TreeNode) (leaf : LeafKeyTweak).
Implicit Types (js : list (FrostJob Sighash)) (evs : list (Event other_request)).
Implicit Types (prev t connector exit_tx : Transaction) (params : CoopExitParams) (transfer : Transfer).

(** A share over a refund of [node] to [receiver] that also spends output [i] of
    [connector], and becomes valid before the wallet's own refund. *)
Definition bound_share (receiver : PublicKey) connector node (i : nat) (j : FrostJob Sighash) : Prop :=
  fj_derivation j = SigningLeaf (id node) ∧ fj_verifying_key j = verifying_public_key node ∧
  ∃ prev t old_refund old s o,
    (prev = node_tx node ∨ direct_tx node = Some prev) ∧
    refund_tx node = Some old_refund ∧ input_sequences old_refund !! 0%nat = Some old ∧
    low_timelock s < low_timelock old ∧
    connects prev t (p2tr_script receiver) s (mkOutPoint (compute_txid connector) (wrap 32 (Z.of_nat i))) ∧
    tx_output prev !! 0%nat = Some o ∧
    taproot_key_spend_signature_hash t 0 [o; default o (tx_output connector !! i)] = Ok (fj_sighash j).

Lemma connector_refund_job_sound receiver connector leaf key prev t comms i old_refund old s w :
  prev = node_tx (lkt_node leaf) ∨ direct_tx (lkt_node leaf) = Some prev →
  refund_tx (lkt_node leaf) = Some old_refund → input_sequences old_refund !! 0%nat = Some old →
  low_timelock s < low_timelock old →
  connects prev t (p2tr_script receiver) s (mkOutPoint (compute_txid connector) (wrap 32 (Z.of_nat i))) →
  ends_in (connector_refund_job leaf key prev t (tx_output connector !! i) comms i) w (λ r w', w' = w ∧
    match r with Ok j => bound_share receiver connector (lkt_node leaf) i (job j) | Err _ => True end).
Proof.
  intros Hprev Hold Hseq Hs Hconn. apply ends_in_bind, ends_in_panic. intros o Ho.
  apply ends_in_let; [|done]. intros sighash Hsig. apply ends_in_bind, ends_in_panic. intros c _.
  apply ends_in_ret. split; [done|]. split_and!; [done..|].
  exists prev, t, old_refund, old, s, o. split_and!; [done..|]. simpl.
  destruct Hconn as (o' & v & _ & Hin & _). unfold connector_sighash, sighash_from_multi_input_tx,
    sighash_from_tx in Hsig. rewrite Hin in Hsig.
  destruct (tx_output connector !! i) as [c'|]; simpl in Hsig |- *;
    by destruct (taproot_key_spend_signature_hash t 0 _); simplify_eq/=.
Qed.

Lemma optional_connector_job receiver connector node i (m : proc W (ServiceResult RefundJob)) w :
  ends_in m w (λ r w', w' = w ∧
    match r with Ok j => bound_share receiver connector node i (job j) | Err _ => True end) →
  ends_in (j ←? m; mret (Ok (Some j))) w (λ r w', w' = w ∧ match r with
    | Ok o => Forall (bound_share receiver connector node i) (job <$> option_list o) | Err _ => True end).
Proof.
  intros Hm. apply ends_in_try. eapply ends_in_weaken; [exact Hm|].
  intros [j|e] w' [-> Hj]; [|done]. apply ends_in_ret. split; [done|]. by constructor.
Qed.

Lemma coop_exit_leaf_sound receiver connector cpfp direct dfc i leaf w :
  ends_in (coop_exit_leaf_jobs receiver (compute_txid connector) connector cpfp direct dfc i leaf) w
    (λ r w', w' = w ∧ match r with
      | Ok jobs => Forall (bound_share receiver connector (lkt_node leaf) i) (job <$> leaf_jobs jobs)
      | Err _ => True end).
Proof.
  apply ends_in_let; [intros key _|done]. apply ends_in_let; [intros old_refund Hold%ok_or_Ok|done].
  apply ends_in_bind, ends_in_panic. intros old Hseq.
  apply ends_in_let; [intros [cs ds] Hnext%ok_or_Ok|done].
  pose proof (next_sequence_spec old) as Hn. rewrite Hnext in Hn.
  destruct (next_lightning_htlc_sequence old) as [[hc hd]|]; [|done].
  destruct Hn as (Hl & ? & Hds & _). unfold TIME_LOCK_INTERVAL, DIRECT_TIME_LOCK_OFFSET in *.
  apply ends_in_bind, ends_in_panic. intros refund_direct Hmethod.
  apply ends_in_bind, ends_in_panic. intros txs (Hc & (f & Hff & Hf) & Hd)%connector_txs_connect. simpl in *.
  apply ends_in_try. eapply ends_in_weaken.
  { apply (connector_refund_job_sound receiver connector leaf key (node_tx (lkt_node leaf)) _ _ _ old_refund old cs); eauto; lia. }
  intros [cj|e] w1 [-> Hcj]; [|done]. apply ends_in_try.
  apply (ends_in_weaken _ _ (λ r w', w' = w ∧ match r with
    | Ok o => Forall (bound_share receiver connector (lkt_node leaf) i) (job <$> option_list o)
    | Err _ => True end)).
  { destruct (direct_tx (lkt_node leaf)) as [d|] eqn:Hdt; [|by apply ends_in_ret].
    destruct (refund_direct_tx txs) as [dr|]; [|by apply ends_in_ret].
    destruct refund_direct as [d'|]; [|done].
    assert (d' = d) as -> by (apply direct_tx_method in Hmethod; congruence).
    apply optional_connector_job, (connector_refund_job_sound receiver connector leaf key d _ _ _ old_refund old ds); eauto; lia. }
  intros [jd|e] w1 [-> Hjd]; [|done]. rewrite Hff. apply ends_in_try. eapply ends_in_weaken.
  { apply optional_connector_job, (connector_refund_job_sound receiver connector leaf key (node_tx (lkt_node leaf)) f _ _ old_refund old ds); eauto; lia. }
  intros [jf|e] w1 [-> Hjf]; [|done]. apply ends_in_ret. split; [done|].
  constructor; [done|]. simpl. rewrite fmap_app. by apply Forall_app.
Qed.

(** A share for one of [nodes]. *)
Definition bound_to (receiver : PublicKey) connector (nodes : list TreeNode) (j : FrostJob Sighash) : Prop :=
  ∃ node i, nodes !! i = Some node ∧ bound_share receiver connector node i j.

Lemma sign_exit_refunds_emits receiver connector nodes cpfp direct dfc w :
  may_emit (sign_coop_exit_refunds_into_jobs (prepare_leaf_key_tweaks_to_send nodes) receiver
      (compute_txid connector) connector cpfp direct dfc) w
    (λ _ js evs, evs = [] ∧ Forall (bound_to receiver connector nodes) js).
Proof.
  apply may_try. apply (may_weaken _ _ (λ r js evs, js = [] ∧ evs = [] ∧ match r with
    | Ok jobs => Forall (bound_to receiver connector nodes) (job <$> all_jobs jobs) | Err _ => True end)).
  { eapply ends_in_weaken.
    - apply (ends_in_try_all (λ w, w) _ (λ p jobs,
        Forall (bound_share receiver connector (lkt_node p.2) p.1) (job <$> leaf_jobs jobs))).
      intros [i leaf] w' _. apply coop_exit_leaf_sound.
    - intros r w' [-> Hr]. exists [], []. rewrite !app_nil_r. split_and!; [done..|].
      destruct r as [jobs|e]; [|done].
      apply (all_jobs_sound (λ p, bound_share receiver connector (lkt_node p.2) p.1)) in Hr.
      eapply Forall_impl; [exact Hr|]. intros j ([i leaf] & Hin & Hj).
      apply list_elem_of_lookup in Hin as [k Hk]. rewrite list_lookup_imap in Hk.
      unfold prepare_leaf_key_tweaks_to_send in Hk. rewrite list_lookup_fmap in Hk.
      destruct (nodes !! k) as [node|] eqn:Hn; [|done]. injection Hk as <- <-. by exists node, k. }
  intros [jobs|e] js evs (-> & -> & Hjobs); [|by split]. intros w1. simpl. apply emits_may, emits_try.
  eapply emits_weaken; [by apply sign_leaf_refunds_emits|].
  intros [signed|e] js evs [-> Hjs]; [|done]. intros w2. apply emits_ret. by rewrite !app_nil_r.
Qed.
(** ** The transactions of the SSP *)

Definition pays_out (address : Address) (amount : Z) exit_tx : Prop :=
  ∃ out, out ∈ tx_output exit_tx ∧ script_pubkey out = address_script_pubkey address ∧
    amount ≤ txout_value out.

Definition spends_exit connector (exit_id : Txid) : Prop :=
  ∃ input, tx_input connector !! 0%nat = Some input ∧ txid (previous_output input) = exit_id.

Lemma validate_payout_sound raw exit_txid address amount exit_id :
  validate_coop_exit_payout_transaction raw exit_txid address amount = Ok exit_id →
  ∃ exit_tx, compute_txid exit_tx = exit_id ∧ pays_out address amount exit_tx.
Proof.
  unfold validate_coop_exit_payout_transaction. destruct (_ || _); [done|].
  intros (bytes & _ & (exit_tx & _ & (expected & _ & Hrest)%bind_Ok)%bind_Ok)%bind_Ok.
  destruct (bool_decide_reflect (compute_txid exit_tx = expected)) as [Hid|]; [|done]. simpl in Hrest.
  destruct (existsb _ _) eqn:Hpays; [|done]. injection Hrest as <-. exists exit_tx. split; [done|].
  apply existsb_exists in Hpays as (out & Hin & Hout%andb_true_iff).
  destruct Hout as [Hscript%bool_decide_eq_true Hvalue%Z.leb_le].
  exists out. by rewrite list_elem_of_In.
Qed.

Lemma connector_transaction_sound exit_id raw w :
  ends_in (connector_transaction exit_id raw) w (λ r w', w' = w ∧ match r with
    | Ok (bytes, connector) => deserialize bytes = Some connector ∧ spends_exit connector exit_id
    | Err _ => True end).
Proof.
  apply ends_in_let; [intros bytes _|done]. apply ends_in_let; [intros connector Hc%ok_or_Ok|done].
  apply ends_in_bind, ends_in_panic. intros input Hin. apply ends_in_ret. split; [done|].
  destruct (bool_decide_reflect (txid (previous_output input) = exit_id)); [|done]. simpl.
  split; [done|]. by exists input.
Qed.

(** ** The exit *)

Definition exit_event (request : ExitRequest) : Event other_request := Requested (coop_event request).

(** What the coordinator answers to the request is [transfer]. *)
Definition exit_answered (request : CooperativeExitRequest) (transfer : Transfer) : Prop :=
  ∃ w1 w2 (answer : ProtoTransfer.Transfer),
    client_cooperative_exit_v2 request w1 = (Ok (Some answer), w2) ∧ transfer_try_from answer = Ok transfer.

(** What the SSP answers to the question. *)
Definition ssp_answered (input : RequestCoopExitInput) (answer : CoopExitRequest) : Prop :=
  ∃ w1 w2, ssp_request_coop_exit input w1 = (Ok answer, w2).

(** The request for the exit [exit_id] under the transfer [i], with the connector's bytes. *)
Definition starts_exit self (i : TransferId) (exit_id : Txid) (bytes : list Z) evs : Prop :=
  ∃ request st, evs = [exit_event (ExitStarted request)] ∧
    exit_txid request = txid_as_byte_array exit_id ∧ connector_tx request = bytes ∧
    cex_transfer request = Some st ∧ st_transfer_id st = i ∧
    st_owner_identity_public_key st = public_key_serialize own_identity ∧
    st_receiver_identity_public_key st = public_key_serialize (ssp_identity_public_key self).

Lemma rpc_exit_emits request w :
  emits (rpc (client_cooperative_exit_v2 request)) w
    (λ r js evs, js = [] ∧ evs = [exit_event (ExitStarted request)] ∧
      ∀ response, r = Ok response → ∃ w1 w2, client_cooperative_exit_v2 request w1 = (Ok response, w2)).
Proof.
  unfold rpc. apply emits_bind, returns_call. exists [], [exit_event (ExitStarted request)].
  rewrite log_exit, events_exit, app_nil_r. split_and!; [done..|]. intros w'. apply emits_ret.
  split_and!; [done..|]. intros response Hr.
  destruct (client_cooperative_exit_v2 request w) as [[o|e] w2] eqn:Hans; [|done].
  injection Hr as <-. by exists w, w2.
Qed.

(** The result of the request: sent or not, and the answer to it on success. *)
Definition exit_asked self i exit_id bytes (r : ServiceResult Transfer) evs : Prop :=
  (is_Ok r = false ∧ evs = [] ∨ starts_exit self i exit_id bytes evs) ∧
  ∀ transfer, r = Ok transfer →
    ∃ request, evs = [exit_event (ExitStarted request)] ∧ exit_answered request transfer.

Lemma not_asked self i exit_id bytes e : exit_asked self i exit_id bytes (Err e) [].
Proof. split; [by left|done]. Qed.

Lemma submit_exit_emits self nodes connector exit_id i bytes prepared w :
  deserialize bytes = Some connector →
  may_emit (submit_coop_exit_transfer self (prepare_leaf_key_tweaks_to_send nodes) (compute_txid connector)
      exit_id i bytes prepared) w
    (λ r js evs, Forall (bound_to (ssp_identity_public_key self) connector nodes) js ∧
      exit_asked self i exit_id bytes r evs).
Proof.
  intros Hbytes. unfold submit_coop_exit_transfer.
  pose proof (not_asked self i exit_id bytes) as Hnot.
  destruct (prepare_leaf_key_tweaks_to_send nodes) as [|tweak tweaks] eqn:Htweaks;
    [by apply emits_may, emits_ret; split; [constructor|]|]. rewrite <- Htweaks. clear Htweaks.
  assert (∀ e : ServiceError.t, Forall (bound_to (ssp_identity_public_key self) connector nodes) [] ∧
    exit_asked self i exit_id bytes (Err e) []) as Hstop by (intros e; split; [constructor|done]).
  apply (may_skip _ _ _ (λ _, True)); [|intros cs w1 _|apply Hstop].
  { eapply quietly_weaken; [apply fetch_commitments_quiet|]. by intros []. }
  apply (may_skip _ _ _ (λ _, True)); [by apply quietly_ret; case_match|intros [[cpfp direct] dfc] w2 _|apply Hstop].
  apply (may_skip _ _ _ (λ c, c = connector)).
  { apply quietly_ret. by rewrite Hbytes. }
  2: apply Hstop.
  intros ? w3 ->. apply may_try. eapply may_weaken; [apply sign_exit_refunds_emits|].
  intros [[[cj dj] fj]|e] js evs [-> Hjs]; [|done]. intros w4. simpl.
  assert (∀ (e : ServiceError.t), Forall (bound_to (ssp_identity_public_key self) connector nodes) (js ++ []) ∧
    exit_asked self i exit_id bytes (Err e) []) as Hfail by (intros e; by rewrite app_nil_r).
  apply (may_skip _ _ _ (λ _, True)); [|intros p w5 _|apply Hfail].
  { destruct prepared as [p|]; [by apply quietly_ret|].
    eapply emits_quiet; [apply prepare_request_quiet|]. intros request w5 _.
    apply quietly_signer; eauto with calls. }
  apply may_bind, emits_may. eapply emits_weaken.
  { by apply (quietly_call now w5 (λ _, True)); eauto with calls. }
  intros t js' evs (-> & -> & _) w6. simpl. apply ends_in_bind, ends_in_panic. intros expiry _.
  eapply may_skip; [apply quietly_identity|intros k w7 ->|apply Hfail].
  apply (may_skip _ _ _ (λ _, True)); [by apply quietly_ret; case_match|intros expiry' w8 _|apply Hfail].
  apply may_bind, emits_may. eapply emits_weaken.
  { by apply (quietly_call uuid_now_v7 w8 (λ _, True)); eauto with calls. }
  intros exit_uuid js' evs (-> & -> & _) w9. simpl.
  apply emits_may, emits_try. eapply emits_weaken; [apply rpc_exit_emits|].
  intros response js' evs (-> & -> & Hans). rewrite app_nil_r.
  match goal with |- context [ExitStarted ?r] =>
    assert (starts_exit self i exit_id bytes [exit_event (ExitStarted r)]) as Hstarts by (by eexists _, _; split_and!) end.
  destruct response as [response|e]; [|by split; [done|split; [by right|]]].
  intros w10. apply emits_ret. rewrite !app_nil_r. split; [done|]. split; [by right|].
  intros transfer Ht. eexists. split; [done|]. destruct (Hans response eq_refl) as (w1' & w2' & Hw).
  destruct response as [t'|]; [|done]. by exists w1', w2', t'.
Qed.

(** The leaves of an exit, in the order of the connector's outputs. *)
Definition exit_nodes params : list TreeNode := cep_leaves params ++ default [] (cep_fee_leaves params).

(** Where the transfer of an exit comes from: the answer to the request that started it,
    or the coordinator's report under the id that was given. *)
Definition exit_transfer (transfer_id : option TransferId) started (transfer : Transfer) : Prop :=
  (∃ request, started = [exit_event (ExitStarted request)] ∧ exit_answered request transfer) ∨
  ∃ i, transfer_id = Some i ∧ found i transfer.

(** How an exit may go, once the SSP was asked [input]: [transfer_id] is the one it was
    given. *)
Definition exited self address (transfer_id : option TransferId) (i : TransferId) params
    (input : RequestCoopExitInput) (r : ServiceResult Transfer) js evs : Prop :=
  is_Ok r = false ∧ js = [] ∧ evs = [] ∨
  ∃ answer exit_tx connector bytes started completed, evs = started ++ completed ∧
    ssp_answered input answer ∧
    pays_out address (expected_payout params) exit_tx ∧
    deserialize bytes = Some connector ∧ spends_exit connector (compute_txid exit_tx) ∧
    Forall (bound_to (ssp_identity_public_key self) connector (exit_nodes params)) js ∧
    (started = [] ∧ (transfer_id = None → completed = []) ∨
     starts_exit self i (compute_txid exit_tx) bytes started) ∧
    (is_Ok r = false ∧ completed = [] ∨
     ∃ transfer, exit_transfer transfer_id started transfer ∧
       completed = [exit_event (ExitCompleted (TransferModel.transfer_id transfer)
                                  (coop_exit_request_id answer))] ∧
       (is_Ok r = true → r = Ok transfer)).

(** The question to the SSP. *)
Definition asks_exit address (i : TransferId) params (input : RequestCoopExitInput) : Prop :=
  leaf_external_ids input = id <$> cep_leaves params ∧
  withdrawal_address input = address_to_string address ∧
  user_outbound_transfer_external_id input = Some i.

(** The observer neither signs nor talks to anyone. *)
Definition exit_observes self : Prop :=
  ∀ before_coop_exit, coop_exit_observer self = Some before_coop_exit →
  ∀ i address amount w, frost_log (before_coop_exit i address amount w).2 = frost_log w ∧
    events (before_coop_exit i address amount w).2 = events w.

Lemma ssp_emits {A} (f : W → result ServiceProviderError.t A * W) event w :
  frost_log (f w).2 = frost_log w → events (f w).2 = events w ++ [event] →
  emits (ssp f) w (λ _ js evs, js = [] ∧ evs = [event]).
Proof.
  intros Hl He. unfold ssp. apply emits_bind, returns_call. exists [], [event].
  rewrite Hl, He, app_nil_r. split_and!; [done..|]. intros w'. by apply emits_ret.
Qed.

(** An exit whose transactions were checked, so far as it has gone. *)
Definition checked_exit self address i params input (answer : CoopExitRequest) exit_tx connector bytes
    (res : ServiceResult Transfer) js started : Prop :=
  ssp_answered input answer ∧ pays_out address (expected_payout params) exit_tx ∧
  deserialize bytes = Some connector ∧ spends_exit connector (compute_txid exit_tx) ∧
  Forall (bound_to (ssp_identity_public_key self) connector (exit_nodes params)) js ∧
  exit_asked self i (compute_txid exit_tx) bytes res started.

Lemma checked_exited self address transfer_id i params input answer exit_tx connector bytes res js
    started r completed :
  checked_exit self address i params input answer exit_tx connector bytes res js started →
  (is_Ok r = false ∧ completed = [] ∨
   ∃ transfer, exit_transfer transfer_id started transfer ∧
     completed = [exit_event (ExitCompleted (TransferModel.transfer_id transfer)
                                (coop_exit_request_id answer))] ∧
     (is_Ok r = true → r = Ok transfer)) →
  exited self address transfer_id i params input r js (started ++ completed).
Proof.
  intros (Hans & Hpays & Hbytes & Hspends & Hjs & Hst & _) Hr. right.
  exists answer, exit_tx, connector, bytes, started, completed. split_and!; try done.
  destruct Hst as [[_ Hs]|Hs]; [left|by right]. split; [done|]. intros Hnone.
  destruct Hr as [[_ ->]|(transfer & [(request & Hreq & _)|(j & Hj & _)] & _)]; [done|..]; congruence.
Qed.

Lemma finish_exit_emits self address transfer_id i params input answer exit_tx connector bytes res js
    started w :
  checked_exit self address i params input answer exit_tx connector bytes res js started →
  emits (
    transfer ←? match transfer_id, res with
      | _, Ok t => mret (Ok t)
      | Some transfer_id, Err e => recover_transfer_on_rpc_connection_error transfer_id e
      | None, Err e => mret (Err e)
      end;
    _ ←? ssp (ssp_complete_coop_exit (TransferModel.transfer_id transfer) (coop_exit_request_id answer));
    mret (Ok transfer)) w
    (λ r js' evs', exited self address transfer_id i params input r (js ++ js') (started ++ evs')).
Proof.
  intros Hc. pose proof (λ r completed, checked_exited self address transfer_id i params input answer
    exit_tx connector bytes res js started r completed Hc) as Hout.
  destruct Hc as (_ & _ & _ & _ & _ & _ & Hres).
  assert (∀ e, exited self address transfer_id i params input (Err e) (js ++ []) (started ++ [])) as Hstop.
  { intros e. rewrite (app_nil_r js). apply Hout. by left. }
  assert (∀ transfer w', exit_transfer transfer_id started transfer → emits (
    _ ←? ssp (ssp_complete_coop_exit (TransferModel.transfer_id transfer) (coop_exit_request_id answer));
    mret (Ok transfer)) w'
    (λ r js' evs', exited self address transfer_id i params input r (js ++ js') (started ++ evs'))) as Hgo.
  { intros transfer w' Hfrom. apply emits_try. eapply emits_weaken.
    - apply (ssp_emits _ (exit_event (ExitCompleted (TransferModel.transfer_id transfer)
        (coop_exit_request_id answer)))); [apply log_complete|apply events_complete].
    - intros [u|e] js' evs' [-> ->]; [intros w''; apply emits_ret; rewrite !app_nil_r|rewrite (app_nil_r js)];
        apply Hout; right; by exists transfer. }
  apply emits_try. destruct res as [t|e].
  - assert (exit_transfer transfer_id started t) as Ht by (left; by apply Hres).
    destruct transfer_id; apply emits_ret; intros w'; simpl; by apply Hgo.
  - destruct transfer_id as [given|]; [|apply emits_ret, Hstop].
    eapply emits_weaken; [apply recover_quiet|]. intros [t|e'] js' evs' (-> & -> & Ht); [|apply Hstop].
    intros w'. simpl. apply Hgo. right. by exists given.
Qed.

Lemma ask_exit_emits input w :
  emits (ssp (ssp_request_coop_exit input)) w (λ r js evs, js = [] ∧ evs = [exit_event (ExitAsked input)] ∧
    ∀ answer, r = Ok answer → ssp_answered input answer).
Proof.
  unfold ssp. apply emits_bind, returns_call. exists [], [exit_event (ExitAsked input)].
  rewrite log_ask_exit, events_ask_exit, app_nil_r. split_and!; [done..|]. intros w'. apply emits_ret.
  split_and!; [done..|]. intros answer Hr.
  destruct (ssp_request_coop_exit input w) as [[o|e] w2] eqn:Hans; [|done].
  injection Hr as <-. by exists w, w2.
Qed.

Lemma coop_exit_emits self address transfer_id params prepared w :
  exit_observes self →
  may_emit (coop_exit_inner self address transfer_id params prepared) w (λ r js evs,
    is_Ok r = false ∧ js = [] ∧ evs = [] ∨
    ∃ i input rest, default i transfer_id = i ∧ evs = exit_event (ExitAsked input) :: rest ∧
      asks_exit address i params input ∧ exited self address transfer_id i params input r js rest).
Proof.
  intros Hobs. unfold coop_exit_inner. apply may_bind, emits_may.
  apply (emits_weaken _ _ (λ i js evs, js = [] ∧ evs = [] ∧ default i transfer_id = i)).
  { destruct transfer_id as [i|]; [by apply quietly_ret|].
    by apply (quietly_call _ w (λ i, default i None = i)); eauto with calls. }
  intros i js evs (-> & -> & Hi) w1. simpl.
  apply (may_skip _ _ _ (λ _, True)); [|intros [] w2 _|by intros e; left].
  { destruct (coop_exit_observer self) as [observer|] eqn:Ho; [|by apply quietly_ret].
    destruct (Hobs observer Ho i address (sum_wrap 64 (value <$> cep_leaves params)) w1).
    eapply emits_quiet; [by apply (quietly_call _ w1 (λ _, True))|]. intros r w2 _.
    apply quietly_ret. by case_match. }
  match goal with |- context [ssp_request_coop_exit ?x] => set (input := x) end.
  assert (asks_exit address i params input) as Hasks by by split_and!.
  apply may_try, emits_may. eapply emits_weaken; [apply ask_exit_emits|].
  assert (∀ e : ServiceError.t, @is_Ok _ Transfer (Err e) = false ∧ @nil (FrostJob Sighash) = [] ∧
    [exit_event (ExitAsked input)] ++ [] = [] ∨
    ∃ i input' rest, default i transfer_id = i ∧
      [exit_event (ExitAsked input)] ++ [] = exit_event (ExitAsked input') :: rest ∧
      asks_exit address i params input' ∧
      exited self address transfer_id i params input' (Err e) [] rest) as Hstop.
  { intros e. right. exists i, input, []. split_and!; [done..|]. by left. }
  intros [answer|e] js evs (-> & -> & Hans); [|apply Hstop]. intros w3. simpl.
  apply (may_skip _ _ _ (λ exit_id, ∃ exit_tx, compute_txid exit_tx = exit_id ∧
    pays_out address (expected_payout params) exit_tx)); [|intros exit_id w4 (exit_tx & <- & Hpays)|apply Hstop].
  { apply quietly_ret. destruct (validate_coop_exit_payout_transaction _ _ _ _) eqn:Hv; [|done].
    by eapply validate_payout_sound. }
  apply may_try. apply (may_weaken _ _ (λ r js evs, js = [] ∧ evs = [] ∧ match r with
    | Ok (bytes, connector) => deserialize bytes = Some connector ∧
        spends_exit connector (compute_txid exit_tx) | Err _ => True end)).
  { eapply ends_in_weaken; [apply connector_transaction_sound|]. intros r w' [-> Hr].
    exists [], []. by rewrite !app_nil_r. }
  intros [[bytes connector]|e] js evs (-> & -> & Hc); [|apply Hstop]. destruct Hc as [Hbytes Hspends].
  intros w5. simpl. apply may_bind. eapply may_weaken; [by apply submit_exit_emits|].
  intros res js started [Hjs Hstarted] w6. apply emits_may.
  eapply (emits_weaken _ _ (λ r js' evs',
    exited self address transfer_id i params input r (js ++ js') (started ++ evs'))).
  { pose proof (finish_exit_emits self address transfer_id i params input answer exit_tx connector bytes
      res js started w6) as Hfinish. destruct transfer_id; apply Hfinish; split_and!; auto. }
  intros r js' evs' Hout. right. by exists i, input, (started ++ evs').
Qed.

(** C20: A cooperative exit goes in order, whatever the operators and the SSP answer. The SSP
    is asked first; the transfer is started at most once, under the id the SSP was told,
    for an exit transaction that pays the withdrawal address what it should and for a
    connector transaction that spends it; the SSP is told to go on, for the exit it
    answered with, only with the transfer the coordinator answered to that request, or
    with the one it lists under the given id when asked for this wallet's transfer with
    it. Success is reported only for that transfer. *)
Theorem exit_completes_in_order self address transfer_id params prepared w :
  exit_observes self →
  ends_in (coop_exit_inner self address transfer_id params prepared) w (λ r w', ∃ js evs,
    frost_log w' = frost_log w ++ js ∧ events w' = events w ++ evs ∧
    (is_Ok r = false ∧ js = [] ∧ evs = [] ∨
     ∃ i input rest, default i transfer_id = i ∧ evs = exit_event (ExitAsked input) :: rest ∧
       asks_exit address i params input ∧ exited self address transfer_id i params input r js rest)).
Proof.
  intros Hobs. eapply ends_in_weaken; [by apply coop_exit_emits|].
  intros r w' (js & evs & Hjs & Hevs & Hout). by exists js, evs.
Qed.

(** What the wallet signs for the exit of [nodes], or nothing. *)
Definition bound_exit self address (payout : Z) (nodes : list TreeNode) js : Prop :=
  js = [] ∨ ∃ exit_tx connector, pays_out address payout exit_tx ∧
    spends_exit connector (compute_txid exit_tx) ∧
    Forall (bound_to (ssp_identity_public_key self) connector nodes) js.

Lemma coop_exit_bound self address transfer_id params w :
  exit_observes self →
  ends_in (coop_exit self address transfer_id params) w (λ _ w', ∃ js,
    frost_log w' = frost_log w ++ js ∧
    bound_exit self address (expected_payout params) (exit_nodes params) js).
Proof.
  intros Hobs. eapply ends_in_weaken; [by apply coop_exit_emits|].
  intros r w' (js & evs & Hjs & _ & Hout). exists js. split; [done|].
  destruct Hout as [(_ & -> & _)|(i & input & rest & _ & _ & _ & [(_ & -> & _)|Hrest])]; [by left..|].
  destruct Hrest as (answer & exit_tx & connector & bytes & started & completed & _ & _ & ? & _ & ? & ? & _).
  right. by exists exit_tx, connector.
Qed.

(** ** Withdrawals *)

Context `{!ServiceEnv W}.

(** C10: What a withdrawal signs is worth nothing until the withdrawal is on-chain. Whatever
    the operators and the SSP answer, every share is over a refund of one of the reserved
    leaves to the SSP that also spends an output of one connector transaction, which
    itself spends the exit transaction; and the exit transaction pays the withdrawal
    address at least the amount, or, when everything is withdrawn, all but the fee. *)
Theorem exit_refunds_are_bound self address transfer_id speed r amount_sats fee quote w :
  exit_observes self →
  NoDup (id <$> reservation_leaves r) → Forall node_wf (reservation_leaves r) →
  valueZ (reservation_leaves r) < 2 ^ 64 →
  in_uint 64 (default 0 amount_sats) → in_uint 64 fee →
  ends_in (withdraw_inner (coop_exit self address transfer_id) speed r
      ((λ a, new_amount_and_fee a (Some fee)) <$> amount_sats) fee quote) w
    (λ _ w', ∃ js nodes, frost_log w' = frost_log w ++ js ∧ nodes ⊆+ reservation_leaves r ∧
      bound_exit self address (from_option (λ a, a) (valueZ (reservation_leaves r) - fee) amount_sats)
        nodes js).
Proof.
  intros Hobs Hnd Hwf Hv Ha Hf. unfold withdraw_inner.
  assert (∃ js nodes, frost_log w = frost_log w ++ js ∧ nodes ⊆+ reservation_leaves r ∧
    bound_exit self address (from_option (λ a, a) (valueZ (reservation_leaves r) - fee) amount_sats)
        nodes js) as Hstop.
  { exists [], []. rewrite app_nil_r. split_and!; [done|apply submseteq_nil_l|by left]. }
  assert (∀ params, exit_nodes params ⊆+ reservation_leaves r →
    expected_payout params = from_option (λ a, a) (valueZ (reservation_leaves r) - fee) amount_sats →
    ends_in (coop_exit self address transfer_id params) w (λ _ w', ∃ js nodes,
      frost_log w' = frost_log w ++ js ∧ nodes ⊆+ reservation_leaves r ∧
      bound_exit self address (from_option (λ a, a) (valueZ (reservation_leaves r) - fee) amount_sats)
        nodes js)) as Hexit.
  { intros params Hsub Hpay. eapply ends_in_weaken; [by apply coop_exit_bound|].
    intros res w' (js & Hjs & Hb). rewrite Hpay in Hb. by exists js, (exit_nodes params). }
  destruct amount_sats as [a|].
  - apply ends_in_let; [|intros e; exact Hstop]. intros [[leaves fee_leaves] q] Hparts.
    destruct (select_leaves_by_target_amounts _ _) as [tl|e] eqn:Hsel; [|done].
    destruct (select_target_Ok (reservation_leaves r) (Some (AmountAndFee a (Some fee))) tl)
      as (Hsub & Hval & fl & Hfl & Hfee); [exact Hnd|exact Hwf|exact (conj Ha Hf)|exact Hsel|].
    simpl in Hparts. injection Hparts as <- <- <-. unfold target_selection in Hsub. rewrite Hfl in Hsub |- *.
    apply Hexit; [exact Hsub|]. unfold expected_payout. simpl. rewrite <- Hval.
    apply sum_value_exact; [|rewrite Hval; apply Ha].
    apply (wf_submseteq _ (reservation_leaves r)); [|exact Hwf].
    etransitivity; [|exact Hsub]. apply submseteq_inserts_r. done.
  - apply ends_in_let; [|intros e; exact Hstop]. intros [[leaves fee_leaves] q] [= <- <- <-]. simpl.
    rewrite sum_value_exact by done.
    destruct (Z.ltb_spec (valueZ (reservation_leaves r)) fee) as [|Hle]; [exact Hstop|].
    apply Hexit; [unfold exit_nodes; simpl; by rewrite app_nil_r|].
    unfold expected_payout, saturating_sub. simpl. rewrite sum_value_exact by done. lia.
Qed.
End exits.
