(* ===== verification/CoopExitSample.v ===== *)
(** * A withdrawal to evaluate on

    Leaves [a] and [b] of the sample tree leave for an address: [a] is the amount, [b]
    pays the fee. The SSP's exit transaction pays the address, its connector transaction
    spends the exit transaction and has an output for each leaf. *)

From S2P Require Import Prelude WireBytes Bitcoin BitcoinTx SparkTx TreeModel LeafSelect NodeWire TreeService.
From S2P Require Import ExitSample FrostBatch FrostSample RefundJobs RefundJobsSpec TransferModel ServiceCalls.
From S2P Require Import TransferService TransferServiceSpec TransferCompletes SampleWorld WalletPay CoopExit CoopExitSpec.
Open Scope Z_scope.

Definition payout_script : list Z := [7].

Definition sample_exit_tx : tx68 := {|
  tx68_version := 2; tx68_input := [mkTxIn (mkOutPoint 9%positive 0) 0];
  tx68_output := [(500, [1]); (10000, payout_script)] |}.

Definition sample_connector_tx : tx68 := {|
  tx68_version := 3; tx68_input := [mkTxIn (mkOutPoint (hash68 (tx68_fields sample_exit_tx)) 0) 0];
  tx68_output := [(330, [8]); (330, [8])] |}.

#[local] Existing Instances btc68 btctx68.

(** Bytes are the name of the transaction. *)
Definition exit_raw_tx (bytes : list Z) : option tx68 :=
  if bool_decide (bytes = string_bytes "exit") then Some sample_exit_tx else Some sample_connector_tx.

#[local] Instance exit_codec : Codec := world_codec exit_raw_tx.
#[local] Instance exit_identifiers : HashIter (@Identifier btc68) := canonical_iter string.
#[local] Existing Instances sample_strings sample_signatures.

Definition ExitWorld : Type := SampleWorld ExitRequest exit_raw_tx.

#[local] Instance exit_transfers : TransferEnv ExitWorld :=
  world_transfers ExitRequest exit_raw_tx commitment_count [].
#[local] Instance exit_transfer_laws : TransferLaws (H1 := exit_transfers) :=
  world_transfer_laws ExitRequest exit_raw_tx commitment_count [].

Section sample.
(** The exit transaction the SSP names. *)
Context (raw_exit : string).

Definition sample_exit_env : CoopExitEnv ExitWorld.
Proof using raw_exit.
  by refine {|
    coop_transfers := exit_transfers;
    coop_clock := world_clock ExitRequest exit_raw_tx;
    address_script_pubkey := (λ a, a) : @Address btc68 btctx68 → @ScriptBuf btc68 btctx68;
    address_to_string _ := "address"%string;
    txid_from_str _ := Some (compute_txid (sample_exit_tx : @Transaction btc68));
    txid_to_string _ := "txid"%string;
    txid_as_byte_array i := [];
    ssp_get_coop_exit_fee_quote _ _ w :=
      (Err (ServiceProviderError.Generic "no quote"), w);
    ssp_request_coop_exit r w :=
      (Ok {| coop_exit_request_id := "r"; raw_connector_transaction := "connector";
             coop_exit_txid := "txid"; raw_coop_exit_transaction := raw_exit |},
       (w.1, w.2 ++ [Requested (ExitAsked r)]));
    ssp_complete_coop_exit t r w := (Ok (), (w.1, w.2 ++ [Requested (ExitCompleted t r)]));
    client_cooperative_exit_v2 r w := (Ok (Some reported), (w.1, w.2 ++ [Requested (ExitStarted r)]));
  |}.
Defined.

Definition sample_exit_laws : CoopExitLaws (H1 := sample_exit_env).
Proof.
  by refine (Build_CoopExitLaws _ _ _ _ _ sample_exit_env exit_transfer_laws
    (world_clock_laws ExitRequest exit_raw_tx commitment_count []) (λ r, r) _ _ _ _ _ _).
Defined.
End sample.

Definition sample_exit_service : CoopExitService (W := ExitWorld) := {|
  ssp_identity_public_key := ("ssp"%string : @PublicKey btc68);
  transfer_service :=
    {| split_secret_threshold := 2; all_operators := []; transfer_observer := None |};
  mainnet := true; coop_exit_observer := None |}.

#[local] Instance exit_service_env : ServiceEnv ExitWorld :=
  {| identity_pubkey := "key"%string : @PublicKey btc68; Client := unit; coordinator := ();
     non_coordinator_operators := [];
     client_query_nodes _ _ w := (Ok ([], 0), w);
     timelock_manager_check_renew_nodes p w := (Ok p, w);
     swap_service_swap_leaves l _ w := (Ok l, w);
     is_remote := false; get_public_key_for_leaf _ w := (Ok ("key"%string : @PublicKey btc68), w);
     combine a _ := Some a; wait_elapsed w := (0, w);
     show_duration _ := "some time"; balance_changed w := (Changed, w);
     sleep_ms _ w := w; exit_state_changed := None; leaves_added w := w |}.

Definition both_reserved : LeavesReservation := LeavesReservation_new both_leaves "r".

(** A withdrawal of 10000 sats for a fee of 20000, under the id [i] if one is given. *)
Definition sample_withdrawal (raw_exit : string) (i : option TransferId) :=
  withdraw_inner (coop_exit (CoopExitEnv0 := sample_exit_env raw_exit) sample_exit_service
    (payout_script : @Address btc68 btctx68) i) Fast both_reserved
    ((λ a, new_amount_and_fee a (Some 20000)) <$> Some 10000) 20000 "q" (([], []) : ExitWorld).

(** Two shares for each leaf and three requests; or nothing, when the SSP names
    another transaction than the one it sends. *)
Lemma withdrawal_runs :
  world_summary (sample_withdrawal "exit" None) = Some (true, 4%nat, 3%nat) ∧
  world_summary (sample_withdrawal "another" None) = Some (false, 0%nat, 1%nat).
Proof. split; vm_compute; reflexivity. Qed.

Lemma both_reserved_ok :
  NoDup (id <$> reservation_leaves both_reserved) ∧
  Forall node_wf (reservation_leaves both_reserved) ∧ valueZ (reservation_leaves both_reserved) < 2 ^ 64.
Proof.
  split; [apply (bool_decide_unpack _); vm_compute; exact I|].
  split; [|vm_compute; reflexivity]. repeat constructor; vm_compute; congruence.
Qed.

Example exit_refunds_are_bound_witness :
  ∃ r w', sample_withdrawal "exit" None = Some (r, w') ∧ length w'.1 = 4%nat ∧
    ∃ exit_tx connector nodes,
      pays_out (H1 := sample_exit_env "exit") (payout_script : @Address btc68 btctx68) 10000 exit_tx ∧
      spends_exit connector (compute_txid exit_tx) ∧
      Forall (bound_to (H1 := sample_exit_env "exit") ("ssp"%string : @PublicKey btc68) connector nodes) w'.1.
Proof.
  destruct both_reserved_ok as (Hnd & Hwf & Hv).
  pose proof (exit_refunds_are_bound (H2 := sample_exit_laws "exit") sample_exit_service
    (payout_script : @Address btc68 btctx68) None Fast both_reserved (Some 10000) 20000 "q" ([], [])) as Hexit.
  pose proof (proj1 withdrawal_runs) as Hsum. unfold sample_withdrawal in *. unfold ends_in in Hexit.
  destruct (withdraw_inner _ _ _ _ _ _ _) as [[r w']|]; [|discriminate Hsum].
  destruct Hexit as (js & nodes & Hjs & _ & Hb); [intros f Hf; discriminate Hf|exact Hnd|exact Hwf|exact Hv|done|done|].
  change (w'.1 = js) in Hjs. subst js. injection Hsum as _ Hlen _. exists r, w'. split; [reflexivity|].
  split; [exact Hlen|]. destruct Hb as [Hnil|(exit_tx & connector & Hpays & Hspends & Hbound)].
  - rewrite Hnil in Hlen. discriminate Hlen.
  - exists exit_tx, connector, nodes. split; [exact Hpays|]. split; [exact Hspends|exact Hbound].
Defined.

Definition sample_exit : CoopExitParams := {|
  cep_leaves := take 1 both_leaves; cep_withdraw_all := false; cep_exit_speed := Fast;
  cep_fee_quote_id := None; cep_fee_leaves := None; cep_fee_sats := 0 |}.

Lemma exit_runs :
  world_summary (coop_exit_inner (CoopExitEnv0 := sample_exit_env "exit") sample_exit_service
    (payout_script : @Address btc68 btctx68) None sample_exit None ([], [])) = Some (true, 2%nat, 3%nat).
Proof. vm_compute. reflexivity. Qed.

Example exit_completes_in_order_witness :
  ∃ i input answer started transfer,
    asks_exit (H1 := sample_exit_env "exit")
      (payout_script : @Address btc68 btctx68) i sample_exit input ∧
    ssp_answered (H1 := sample_exit_env "exit") input answer ∧
    (∃ exit_id bytes, starts_exit (H2 := sample_exit_laws "exit") sample_exit_service i exit_id bytes started) ∧
    exit_transfer (H2 := sample_exit_laws "exit") None started transfer.
Proof.
  pose proof (exit_completes_in_order (H2 := sample_exit_laws "exit") sample_exit_service
    (payout_script : @Address btc68 btctx68) None sample_exit None ([], [])) as Hexit.
  pose proof exit_runs as Hsum. unfold ends_in in Hexit.
  destruct (coop_exit_inner _ _ _ _ _ _) as [[r w']|]; [|discriminate Hsum].
  destruct Hexit as (js & evs & _ & _ & Hout); [intros f Hf; discriminate Hf|].
  unfold world_summary in Hsum. injection Hsum as Hok _ _.
  destruct Hout as [(Hno & _)|(i & input & rest & _ & _ & Hasks & Hrest)];
    [rewrite Hno in Hok; discriminate Hok|].
  destruct Hrest as [(Hno & _)|(answer & exit_tx & connector & bytes & started & completed & _ & Hans &
    _ & _ & _ & _ & Hs & Hc)]; [rewrite Hno in Hok; discriminate Hok|].
  destruct Hc as [[Hno _]|(t & Hfrom & -> & _)]; [rewrite Hno in Hok; discriminate Hok|].
  exists i, input, answer, started, t. split_and!; [exact Hasks|exact Hans| |exact Hfrom].
  destruct Hs as [[_ Hnone]|Hs]; [discriminate (Hnone eq_refl)|]. by exists (compute_txid exit_tx), bytes.
Defined.
