(* ===== verification/PreimageSwap.v ===== *)
(** * Payments for a preimage: [spark/src/utils/preimage_swap.rs], [spark/src/services/htlc.rs]

    A payment that the receiver gets for the preimage of a hash: the operators hold the
    signed refunds of the leaves until they are told the preimage. The requests of an HTLC
    and how they are listed. The calls are the class [PreimageEnv]. *)

From S2P Require Import Prelude WireBytes Bitcoin BitcoinTx Timelock SparkTx TreeModel NodeWire Paging.
From S2P Require Import FrostBatch RefundJobs TransferModel ServiceCalls TransferService.
Open Scope Z_scope.

(** ** Messages *)

Inductive Reason := Send | Receive.

(** [bolt11_invoice] is the one field of the proof. *)
Record InvoiceAmount := { invoice_amount_proof : option string; value_sats : Z }.

Record StartUserSignedTransferRequest := {
  us_transfer_id : string;
  us_owner_identity_public_key : list Z;
  us_receiver_identity_public_key : list Z;
  us_expiry_time : option Timestamp;
  us_leaves_to_send : list Proto.UserSignedTxSigningJob;
  us_direct_leaves_to_send : list Proto.UserSignedTxSigningJob;
  us_direct_from_cpfp_leaves_to_send : list Proto.UserSignedTxSigningJob;
}.

Record InitiatePreimageSwapRequest := {
  ips_payment_hash : list Z;
  ips_reason : Reason;
  ips_invoice_amount : option InvoiceAmount;
  ips_transfer : option StartUserSignedTransferRequest;
  ips_receiver_identity_public_key : list Z;
  ips_fee_sats : Z;
  ips_transfer_request : option StartTransferRequest;
}.

Record ProvidePreimageRequest := {
  ppr_payment_hash : list Z;
  ppr_preimage : list Z;
  ppr_identity_public_key : list Z;
}.

Module PreimageRequestStatus.
Inductive t := WaitingForPreimage | PreimageShared | Returned.
End PreimageRequestStatus.

Inductive PreimageRequestRole := Receiver | Sender | ReceiverAndSender.

(** [limit] and [offset] are [i64]s. *)
Record QueryHtlcRequest := {
  qh_match_role : PreimageRequestRole;
  qh_payment_hashes : list (list Z);
  qh_transfer_ids : list string;
  qh_identity_public_key : list Z;
  qh_status : option PreimageRequestStatus.t;
  qh_limit : Z;
  qh_offset : Z;
}.

Module ProtoHtlc.
(** The status is the value of the generated accessor. *)
Record PreimageRequestWithTransfer := mkPreimageRequestWithTransfer {
  payment_hash : list Z;
  receiver_identity_pubkey : list Z;
  status : PreimageRequestStatus.t;
  created_time : option Timestamp;
  transfer : option ProtoTransfer.Transfer;
  preimage : option (list Z);
}.
End ProtoHtlc.

Record QueryHtlcResponse := {
  preimage_requests : list ProtoHtlc.PreimageRequestWithTransfer;
  qh_response_offset : Z;
}.

(** An answer to [initiate_preimage_swap_v3] or to [provide_preimage] is its transfer. *)
Class PreimageEnv {B : Bitcoin} {BT : BitcoinTx} `{!Codec} `{!SignatureCodec} (W : Type) := {
  preimage_transfers :: TransferEnv W;
  client_initiate_preimage_swap_v3 : InitiatePreimageSwapRequest → W →
    result OperatorRpcError.t (option ProtoTransfer.Transfer) * W;
  client_provide_preimage : ProvidePreimageRequest → W →
    result OperatorRpcError.t (option ProtoTransfer.Transfer) * W;
  client_query_htlc : QueryHtlcRequest → W → result OperatorRpcError.t QueryHtlcResponse * W;
}.

(** ** The wallet's types: [services/models.rs] *)

Section models.
Context {B : Bitcoin} `{!Codec} `{!SignatureCodec}.

Record QueryHtlcFilter := {
  qf_transfer_ids : list string;
  qf_payment_hashes : list string;
  qf_identity_public_key : PublicKey;
  qf_status : option PreimageRequestStatus.t;
  qf_match_role : PreimageRequestRole;
}.

(** 32 bytes *)
Definition Preimage : Type := list Z.

Definition preimage_try_from (value : list Z) : ServiceResult Preimage :=
  if (length value =? 32)%nat then Ok value
  else Err (ServiceError.InvalidPreimage "Invalid preimage length").

Definition preimage_from_hex (hex : string) : ServiceResult Preimage :=
  bytes ← ok_or (hex_decode hex) (ServiceError.InvalidPreimage "Invalid preimage hex");
  preimage_try_from bytes.

Definition compute_hash (self : Preimage) : list Z := sha256 self.

Record PreimageRequestWithTransfer := {
  prt_payment_hash : list Z;
  prt_receiver_identity_pubkey : PublicKey;
  prt_status : PreimageRequestStatus.t;
  prt_created_time : SystemTime;
  prt_expiry_time : SystemTime;
  prt_transfer : option Transfer;
  prt_preimage : option Preimage;
}.

(** [transpose] of the conversion of an option *)
Definition convert_some {A C} (convert : A → ServiceResult C) (o : option A) : ServiceResult (option C) :=
  match o with Some a => c ← convert a; Ok (Some c) | None => Ok None end.

(** [TryFrom<operator_rpc::spark::PreimageRequestWithTransfer>] *)
Definition preimage_request_try_from (request : ProtoHtlc.PreimageRequestWithTransfer)
    : ServiceResult PreimageRequestWithTransfer :=
  transfer ← or_generic (ProtoHtlc.transfer request) "Missing transfer";
  expiry_time ← or_generic (ProtoTransfer.expiry_time transfer) "Missing expiry time";
  expiry_time ← ok_or (prost_timestamp_to_web_time expiry_time)
    (ServiceError.ValidationError "invalid preimage request expiry time");
  let hash := ProtoHtlc.payment_hash request in
  payment_hash ← (if (length hash =? 32)%nat then Ok hash
                  else Err (ServiceError.InvalidPaymentHash (hex_encode hash)));
  receiver ← ok_or (public_key_from_slice (ProtoHtlc.receiver_identity_pubkey request))
    ServiceError.InvalidPublicKey;
  created_time ← or_generic (ProtoHtlc.created_time request) "Missing created time";
  created_time ← ok_or (prost_timestamp_to_web_time created_time)
    (ServiceError.ValidationError "invalid preimage request created time");
  transfer ← convert_some transfer_try_from (ProtoHtlc.transfer request);
  preimage ← match convert_some preimage_try_from (ProtoHtlc.preimage request) with
    | Ok p => Ok p
    | Err _ => Err (ServiceError.ValidationError "Invalid preimage")
    end;
  Ok {| prt_payment_hash := payment_hash; prt_receiver_identity_pubkey := receiver;
        prt_status := ProtoHtlc.status request; prt_created_time := created_time;
        prt_expiry_time := expiry_time; prt_transfer := transfer; prt_preimage := preimage |}.
End models.

(** ** Starting a payment *)

Section service.
Context {B : Bitcoin} {BT : BitcoinTx} `{!Codec} `{!SignatureCodec} {W : Type} `{!PreimageEnv W}.
Context `{!HashIter string} `{!HashIter Identifier}.

Record SwapNodesForPreimageRequest := {
  sn_transfer_id : TransferId;
  sn_leaves : list LeafKeyTweak;
  sn_receiver_pubkey : PublicKey;
  sn_payment_hash : list Z;
  sn_invoice_str : option string;
  sn_amount_sats : Z;
  sn_fee_sats : Z;
  sn_is_inbound_payment : bool;
  sn_transfer_request : option StartTransferRequest;
  sn_expiry_time : SystemTime;
}.

(** [commitments.chunks(n)], which panics on zero. *)
Definition chunked_commitments {T} (n : nat) (commitments : list T) : proc W (list (list T)) :=
  panic_or (if (n =? 0)%nat then None else Some (chunks n commitments)).

(** The request, once the refunds are signed; its fields in their order. *)
Definition preimage_swap_request (req : SwapNodesForPreimageRequest) (signed : SignedRefundTransactions)
    : proc W (ServiceResult InitiatePreimageSwapRequest) :=
  let '(direct, direct_from_cpfp) := match sn_transfer_request req with
    | Some _ => ([], [])
    | None => (direct_signed_tx signed, direct_from_cpfp_signed_tx signed)
    end in
  identity ←? identity_key;
  transfer ←? mret (
    expiry_time ← or_generic (web_time_to_prost_timestamp (sn_expiry_time req)) "Invalid expiry time";
    leaves_to_send ← to_jobs (cpfp_signed_tx signed);
    direct_leaves_to_send ← to_jobs direct;
    direct_from_cpfp_leaves_to_send ← to_jobs direct_from_cpfp;
    Ok {| us_transfer_id := sn_transfer_id req;
          us_owner_identity_public_key := public_key_serialize identity;
          us_receiver_identity_public_key := public_key_serialize (sn_receiver_pubkey req);
          us_expiry_time := Some expiry_time;
          us_leaves_to_send := leaves_to_send;
          us_direct_leaves_to_send := direct_leaves_to_send;
          us_direct_from_cpfp_leaves_to_send := direct_from_cpfp_leaves_to_send |});
  mret (Ok {| ips_payment_hash := sn_payment_hash req;
              ips_reason := if sn_is_inbound_payment req then Receive else Send;
              ips_invoice_amount := Some {| invoice_amount_proof := sn_invoice_str req;
                                            value_sats := sn_amount_sats req |};
              ips_transfer := Some transfer;
              ips_receiver_identity_public_key := public_key_serialize (sn_receiver_pubkey req);
              ips_fee_sats := sn_fee_sats req;
              ips_transfer_request := sn_transfer_request req |}).

Definition swap_nodes_for_preimage (req : SwapNodesForPreimageRequest)
    : proc W (ServiceResult (option ProtoTransfer.Transfer)) :=
  let leaves := sn_leaves req in
  signing_commitments ←? fetch_commitments ((λ l, id (lkt_node l)) <$> leaves) 0;
  chunked ← chunked_commitments (length leaves) signing_commitments;
  match chunked with
  | [cpfp; direct; direct_from_cpfp] =>
      signed ←? signer (sign_refunds {|
        srp_leaves := leaves;
        srp_cpfp_signing_commitments := cpfp;
        srp_direct_signing_commitments := direct;
        srp_direct_from_cpfp_signing_commitments := direct_from_cpfp;
        srp_receiver_pubkey := sn_receiver_pubkey req;
        srp_payment_hash := None;
        srp_cpfp_adaptor_public_key := None |});
      request_data ←? preimage_swap_request req signed;
      rpc (client_initiate_preimage_swap_v3 request_data)
  | _ => mret (Err (ServiceError.SSPswapError "Not enough signing commitments returned"))
  end.

(** [transfer_from_preimage_swap] of [services/lightning.rs], and the same lines in
    [create_htlc] *)
Definition transfer_from_preimage_swap (response : option ProtoTransfer.Transfer) : ServiceResult Transfer :=
  transfer ← ok_or response (ServiceError.SSPswapError "Swap response did not contain a transfer");
  transfer_try_from transfer.

(** ** HTLCs: [services/htlc.rs] *)

(** The fields besides the clients and the network; the observer is its
    [before_send_transfer]. *)
Record HtlcService := {
  htlc_transfer_service : TransferService (W := W);
  htlc_observer : option (TransferId → string → Z → W → result string unit * W);
}.

Implicit Types self : HtlcService.

Definition notify_before_htlc self (transfer_id : TransferId) (receiver_id : PublicKey)
    (leaves : list TreeNode) : proc W (ServiceResult unit) :=
  match htlc_observer self with
  | None => mret (Ok ())
  | Some before_send_transfer =>
      identity_public_key ←? identity_key;
      if decide (identity_public_key = receiver_id) then mret (Ok ())
      else
        let amount_sats := sum_wrap 64 (value <$> leaves) in
        receiver_address ←? mret (or_generic (spark_address_string receiver_id)
          "Failed to get pay request");
        r ← call (before_send_transfer transfer_id receiver_address amount_sats);
        mret (map_err ServiceError.TransferObserverError r)
  end.

Definition create_htlc self (leaves : list TreeNode) (receiver_id : PublicKey) (payment_hash : list Z)
    (expiry_time : SystemTime) (transfer_id : option TransferId) : proc W (ServiceResult Transfer) :=
  unwrapped_transfer_id ← match transfer_id with
    | Some transfer_id => mret transfer_id | None => call uuid_now_v7 end;
  _ ←? notify_before_htlc self unwrapped_transfer_id receiver_id leaves;
  let leaf_key_tweaks := prepare_leaf_key_tweaks_to_send leaves in
  prepared_transfer_request ←? prepare_transfer_request (htlc_transfer_service self)
    unwrapped_transfer_id leaf_key_tweaks receiver_id (Some payment_hash) (Some expiry_time) None;
  let amount_sats := sum_wrap 64 ((λ l, value (lkt_node l)) <$> leaf_key_tweaks) in
  r ← swap_nodes_for_preimage {|
    sn_transfer_id := unwrapped_transfer_id; sn_leaves := leaf_key_tweaks;
    sn_receiver_pubkey := receiver_id; sn_payment_hash := payment_hash; sn_invoice_str := None;
    sn_amount_sats := amount_sats; sn_fee_sats := 0; sn_is_inbound_payment := false;
    sn_transfer_request := Some (transfer_request prepared_transfer_request);
    sn_expiry_time := expiry_time |};
  match r with
  | Ok response => mret (transfer_from_preimage_swap response)
  | Err e => recover_transfer_on_rpc_connection_error unwrapped_transfer_id e
  end.

Definition provide_preimage (preimage : Preimage) : proc W (ServiceResult Transfer) :=
  let payment_hash := compute_hash preimage in
  identity ←? identity_key;
  response ←? rpc (client_provide_preimage {|
    ppr_payment_hash := payment_hash; ppr_preimage := preimage;
    ppr_identity_public_key := public_key_serialize identity |});
  mret (t ← or_generic response "ProvidePreimageResponse did not contain a transfer";
        transfer_try_from t).

Definition decode_payment_hashes (payment_hashes : list string) : ServiceResult (list (list Z)) :=
  mapR (λ h, ok_or (hex_decode h) (ServiceError.InvalidPaymentHash h)) payment_hashes.

Definition query_htlc_inner (filter : QueryHtlcFilter) (paging : PagingFilter) (w : W)
    : ServiceResult (PagingResult PreimageRequestWithTransfer) * W :=
  match decode_payment_hashes (qf_payment_hashes filter) with
  | Err e => (Err e, w)
  | Ok payment_hashes =>
      match client_query_htlc {|
        qh_match_role := qf_match_role filter; qh_payment_hashes := payment_hashes;
        qh_transfer_ids := qf_transfer_ids filter;
        qh_identity_public_key := public_key_serialize (qf_identity_public_key filter);
        qh_status := qf_status filter;
        qh_limit := as_i64 (limit paging); qh_offset := as_i64 (offset paging) |} w with
      | (Err e, w) => (Err (ServiceError.ServiceConnectionError e), w)
      | (Ok response, w) =>
          (items ← convert_page preimage_request_try_from (preimage_requests response) "preimage request";
           Ok {| items := items; next_page := next_from_offset paging (qh_response_offset response) |}, w)
      end
  end.

Definition query_htlc (filter : QueryHtlcFilter) (paging : option PagingFilter)
    : proc W (ServiceResult (PagingResult PreimageRequestWithTransfer)) :=
  match paging with
  | Some paging => call (query_htlc_inner filter paging)
  | None => pager (query_htlc_inner filter) PagingFilter_default
  end.
End service.
