(* ===== verification/PreimageSwapSpec.v ===== *)
(** * What a payment for a preimage signs and asks for

    [htlcs_start_once]: an HTLC signs only refunds of its leaves, starts at most one
    preimage swap, and reports success only for the answer to that request or for the
    transfer the operators list under its id. The lemmas on [swap_nodes_for_preimage] serve the
    Lightning payments too. *)

From S2P Require Import Prelude WireBytes Bitcoin BitcoinTx Timelock SparkTx TreeModel NodeWire Paging.
From S2P Require Import FrostBatch RefundJobs RefundJobsSpec TransferModel ServiceCalls.
From S2P Require Import TransferService TransferServiceSpec PreimageSwap.
Open Scope Z_scope.

Inductive PreimageRequest :=
| SwapInitiated (request : InitiatePreimageSwapRequest)
| PreimageProvided (request : ProvidePreimageRequest).

Class PreimageLaws `{PreimageEnv W} := {
  preimage_transfer_laws :: TransferLaws (W := W);
  preimage_event : PreimageRequest → other_request;
  log_initiate_swap r w : frost_log (client_initiate_preimage_swap_v3 r w).2 = frost_log w;
  log_provide r w : frost_log (client_provide_preimage r w).2 = frost_log w;
  log_query_htlc r w : frost_log (client_query_htlc r w).2 = frost_log w;
  events_initiate_swap r w : events (client_initiate_preimage_swap_v3 r w).2 =
    events w ++ [Requested (preimage_event (SwapInitiated r))];
  events_provide r w : events (client_provide_preimage r w).2 =
    events w ++ [Requested (preimage_event (PreimageProvided r))];
  events_query_htlc r w : events (client_query_htlc r w).2 = events w;
}.

(** ** Chunks of commitments *)

Section chunked.
Context {A : Type}.
Implicit Types l : list A.

Lemma chunks_split n l : (0 < n)%nat → l ≠ [] → chunks n l = take n l :: chunks n (drop n l).
Proof.
  intros Hn Hl. unfold chunks. destruct l as [|a l]; [done|]. simpl. f_equal.
  destruct n as [|n]; [lia|]. simpl.
  assert (∀ f k, (length (drop n l) ≤ f)%nat → (length (drop n l) ≤ k)%nat →
    chunks_loop f (S n) (drop n l) = chunks_loop k (S n) (drop n l)) as Hfuel; [|apply Hfuel; rewrite ?length_drop; lia].
  generalize (drop n l). clear. intros l f k. revert f k l. induction f as [|f IH]; intros k l Hf Hk.
  { apply Nat.le_0_r, nil_length_inv in Hf as ->. by destruct k. }
  destruct k as [|k]; [apply Nat.le_0_r, nil_length_inv in Hk as ->; done|].
  destruct l as [|a l]; [done|]. simpl in *. f_equal. apply IH; rewrite length_drop; lia.
Qed.

(** Three chunks: more than two and at most three times the size. *)
Lemma three_chunks n l :
  (0 < n)%nat → (∃ a b c, chunks n l = [a; b; c]) ↔ (2 * n < length l ≤ 3 * n)%nat.
Proof.
  intros Hn. assert (∀ l, chunks n l = [] ↔ length l = 0%nat) as Hnil.
  { intros [|a k]; [done|]. rewrite chunks_split by done. done. }
  assert (∀ l, l ≠ [] → (0 < length l)%nat) as Hpos by (intros [|a k]; simpl; [done|lia]).
  assert (∀ l, length l ≠ 0%nat → l ≠ []) as Hne by (by intros [|a k]).
  split.
  - intros (a & b & c & Hc).
    destruct (decide (length l = 0%nat)) as [H0|H0]; [apply Hnil in H0; congruence|].
    rewrite chunks_split in Hc by auto. injection Hc as _ Hc.
    destruct (decide (length (drop n l) = 0%nat)) as [H1|H1]; [apply Hnil in H1; congruence|].
    rewrite chunks_split in Hc by auto. injection Hc as _ Hc.
    destruct (decide (length (drop n (drop n l)) = 0%nat)) as [H2|H2]; [apply Hnil in H2; congruence|].
    rewrite chunks_split in Hc by auto. injection Hc as _ Hc. apply Hnil in Hc.
    rewrite !length_drop in *. lia.
  - intros Hl. rewrite chunks_split by (try apply Hne; lia).
    rewrite chunks_split by (try apply Hne; rewrite ?length_drop; lia).
    rewrite chunks_split by (try apply Hne; rewrite ?length_drop; lia).
    assert (chunks n (drop n (drop n (drop n l))) = []) as ->; [|by do 3 eexists].
    apply Hnil. rewrite !length_drop. lia.
Qed.
End chunked.

Section preimage.
Context `{PreimageLaws W} `{!HashIter string} `{!HashIter Identifier}.
Implicit Types (self : HtlcService (W := W)) (leaves : list TreeNode) (receiver : PublicKey).
Implicit Types (js : list (FrostJob Sighash)) (evs : list (Event other_request)) (transfer : Transfer).
Implicit Types (req : SwapNodesForPreimageRequest).

Definition swap_event (request : InitiatePreimageSwapRequest) : Event other_request :=
  Requested (preimage_event (SwapInitiated request)).

(** The operators are asked to hold the payment [req] until they are told the preimage; it is
    not mentioned twice: the direct refunds go with the transfer's own request if there is one. *)
Definition initiates req evs : Prop :=
  ∃ request us, evs = [swap_event request] ∧
    ips_payment_hash request = sn_payment_hash req ∧
    ips_reason request = (if sn_is_inbound_payment req then Receive else Send) ∧
    ips_invoice_amount request =
      Some {| invoice_amount_proof := sn_invoice_str req; value_sats := sn_amount_sats req |} ∧
    ips_fee_sats request = sn_fee_sats req ∧
    ips_receiver_identity_public_key request = public_key_serialize (sn_receiver_pubkey req) ∧
    ips_transfer_request request = sn_transfer_request req ∧ ips_transfer request = Some us ∧
    us_transfer_id us = sn_transfer_id req ∧
    us_owner_identity_public_key us = public_key_serialize own_identity ∧
    us_receiver_identity_public_key us = public_key_serialize (sn_receiver_pubkey req) ∧
    us_expiry_time us = web_time_to_prost_timestamp (sn_expiry_time req) ∧
    (is_Some (sn_transfer_request req) →
      us_direct_leaves_to_send us = [] ∧ us_direct_from_cpfp_leaves_to_send us = []).

Lemma swap_request_quiet req signed w :
  quietly (preimage_swap_request req signed) w
    (λ r, match r with Ok request => initiates req [swap_event request] | Err _ => True end).
Proof.
  unfold preimage_swap_request. destruct (match sn_transfer_request req with Some _ => _ | None => _ end)
    as [direct dfc] eqn:Hdirect.
  eapply emits_skip; [apply quietly_identity|intros k w1 ->|by intros e].
  apply emits_let; [intros us w2 Hus|by intros e _]. apply quietly_ret.
  apply bind_Ok in Hus as (t & Ht%ok_or_Ok & Hus).
  apply bind_Ok in Hus as (cpfp & _ & Hus). apply bind_Ok in Hus as (d & Hd & Hus).
  apply bind_Ok in Hus as (f & Hf & [= <-]).
  eexists _, _. split_and!; try done. intros [tr Htr]. rewrite Htr in Hdirect. injection Hdirect as <- <-.
  unfold to_jobs in Hd, Hf. simpl in Hd, Hf. by simplify_eq.
Qed.

(** The coordinator answers [response] to the request. *)
Definition swap_answered (request : InitiatePreimageSwapRequest)
    (response : option ProtoTransfer.Transfer) : Prop :=
  ∃ w1 w2, client_initiate_preimage_swap_v3 request w1 = (Ok response, w2).

(** Without an error the request was sent and this is its answer; an error that was not
    the operators' answer to it came before. *)
Definition swap_asked req (r : ServiceResult (option ProtoTransfer.Transfer)) evs : Prop :=
  (is_Ok r = false ∧ evs = [] ∨ initiates req evs) ∧
  ∀ response, r = Ok response →
    ∃ request, evs = [swap_event request] ∧ swap_answered request response.

Lemma swap_nodes_emits req leaves w :
  sn_leaves req = prepare_leaf_key_tweaks_to_send leaves →
  may_emit (swap_nodes_for_preimage req) w (λ r js evs,
    Forall (sent_for None leaves (sn_receiver_pubkey req)) js ∧ swap_asked req r evs).
Proof.
  intros Hleaves. assert (∀ e, swap_asked req (Err e) []) as Hnone by (intros e; split; [by left|done]).
  apply (may_skip _ _ _ (λ _, True)); [|intros cs w1 _|by intros e; split; [constructor|]].
  { eapply quietly_weaken; [apply fetch_commitments_quiet|]. by intros []. }
  apply ends_in_bind, ends_in_panic. intros chunked _.
  assert (∀ e w, may_emit (mret (Err e : ServiceResult (option ProtoTransfer.Transfer))) w (λ r js evs,
    Forall (sent_for None leaves (sn_receiver_pubkey req)) js ∧ swap_asked req r evs)) as Hstop.
  { intros e w'. apply emits_may, emits_ret. split; [constructor|done]. }
  destruct chunked as [|cpfp [|direct [|dfc [|]]]]; try apply Hstop.
  apply may_try. eapply may_weaken; [by apply sign_sent_emits|].
  intros [signed|e] js evs [-> Hjs]; [|done]. intros w2. apply emits_may.
  eapply emits_skip; [apply swap_request_quiet|intros request w3 Hreq|intros e; by rewrite app_nil_r].
  unfold rpc. apply emits_bind, returns_call. exists [], [swap_event request].
  rewrite log_initiate_swap, events_initiate_swap, app_nil_r. split_and!; [done..|]. intros w4.
  apply emits_ret. rewrite !app_nil_r. split; [done|]. split; [by right|].
  intros response Hr. exists request. split; [done|].
  destruct (client_initiate_preimage_swap_v3 request w3) as [[o|e] w5] eqn:Hans; [|done].
  injection Hr as <-. by exists w3, w5.
Qed.

(** The result of an attempt: the transfer of the swap that was asked for, as the
    coordinator answered, or one it lists under the same id. *)
Definition held (i : TransferId) req (r : ServiceResult Transfer) evs : Prop :=
  (initiates req evs ∨ evs = []) ∧
  ∀ transfer, r = Ok transfer →
    found i transfer ∨
    ∃ request response, evs = [swap_event request] ∧ swap_answered request response ∧
      transfer_from_preimage_swap response = Ok transfer.

Lemma swap_result_quiet i req (r : ServiceResult (option ProtoTransfer.Transfer)) evs w :
  swap_asked req r evs →
  quietly (match r with
    | Ok response => mret (transfer_from_preimage_swap response)
    | Err e => recover_transfer_on_rpc_connection_error i e
    end) w (λ t, held i req t evs).
Proof.
  intros [Hr Hans]. assert (initiates req evs ∨ evs = []) as Hev by naive_solver.
  destruct r as [response|e].
  - apply quietly_ret. split; [done|]. intros transfer Ht.
    destruct (Hans response eq_refl) as (request & ? & ?). right. by exists request, response.
  - eapply quietly_weaken; [apply recover_quiet|]. intros t Ht. split; [done|].
    intros transfer ->. by left.
Qed.

Lemma prepare_transfer_emits (service : TransferService (W := W)) i leaves receiver hash expiry w :
  may_emit (prepare_transfer_request service i (prepare_leaf_key_tweaks_to_send leaves)
      receiver hash expiry None) w
    (λ r js evs, evs = [] ∧ Forall (sent_for hash leaves receiver) js ∧
      match r with Ok request => requests i receiver (transfer_request request) | Err _ => True end).
Proof.
  unfold prepare_transfer_request. apply may_bind, emits_may.
  eapply emits_weaken; [apply prepare_request_quiet|]. intros request js evs (-> & -> & _) w1. simpl.
  apply (may_skip _ _ _ (λ _, True)); [by apply quietly_signer; eauto with calls|intros prepared w2 _|done].
  apply assemble_request_emits.
Qed.

(** The id of a payment: the given one or a new one. *)
Lemma payment_id_quiet (i : option TransferId) w :
  quietly (match i with Some i => mret i | None => call uuid_now_v7 end) w (λ j, default j i = j).
Proof.
  destruct i as [i|]; [by apply quietly_ret|].
  by apply (quietly_call _ w (λ j, default j None = j)); eauto with calls.
Qed.

(** ** HTLCs *)

(** The application's observer neither signs nor talks to the operators. *)
Definition htlc_observes self : Prop :=
  ∀ before_send_transfer, htlc_observer self = Some before_send_transfer →
  ∀ i pay_request amount w, frost_log (before_send_transfer i pay_request amount w).2 = frost_log w ∧
    events (before_send_transfer i pay_request amount w).2 = events w.

Lemma notify_htlc_quiet self i receiver leaves w :
  htlc_observes self →
  quietly (notify_before_htlc self i receiver leaves) w (λ _ : ServiceResult unit, True).
Proof.
  intros Hobs. unfold notify_before_htlc. destruct (htlc_observer self) as [observer|] eqn:Ho;
    [|by apply quietly_ret].
  eapply emits_skip; [apply quietly_identity|intros k w1 ->|by intros e].
  destruct (decide (own_identity = receiver)); [by apply quietly_ret|].
  apply emits_let; [intros address w2 _|by intros e _].
  destruct (Hobs observer Ho i address (sum_wrap 64 (value <$> leaves)) w2).
  eapply emits_quiet; [by apply (quietly_call _ w2 (λ _, True))|]. intros r w3 _. by apply quietly_ret.
Qed.

(** The shares of a payment: first those for the preimage of [hash], which the receiver can
    use by itself, then those the operators hold until they are told the preimage. *)
Definition payment_shares hash leaves receiver js : Prop :=
  ∃ js1 js2, js = js1 ++ js2 ∧ Forall (sent_for (Some hash) leaves receiver) js1 ∧
    Forall (sent_for None leaves receiver) js2.

(** The swap of an HTLC. *)
Definition htlc_swap i leaves receiver hash expiry (st : StartTransferRequest) : SwapNodesForPreimageRequest := {|
  sn_transfer_id := i; sn_leaves := prepare_leaf_key_tweaks_to_send leaves;
  sn_receiver_pubkey := receiver; sn_payment_hash := hash; sn_invoice_str := None;
  sn_amount_sats := sum_wrap 64 (value <$> leaves); sn_fee_sats := 0; sn_is_inbound_payment := false;
  sn_transfer_request := Some st; sn_expiry_time := expiry |}.

(** How an HTLC under the id [i] may go. *)
Definition htlc_created i leaves receiver hash expiry (r : ServiceResult Transfer) js evs : Prop :=
  payment_shares hash leaves receiver js ∧
  (is_Ok r = false ∧ evs = [] ∨
   ∃ st, requests i receiver st ∧ held i (htlc_swap i leaves receiver hash expiry st) r evs).

Lemma create_htlc_emits self leaves receiver hash expiry i w :
  htlc_observes self →
  may_emit (create_htlc self leaves receiver hash expiry i) w (λ r js evs,
    ∃ j, default j i = j ∧ htlc_created j leaves receiver hash expiry r js evs).
Proof.
  intros Hobs. apply may_bind, emits_may. eapply emits_weaken; [apply payment_id_quiet|].
  intros j js evs (-> & -> & Hj) w1. simpl.
  assert (∀ (e : ServiceError.t), ∃ j, default j i = j ∧
    htlc_created j leaves receiver hash expiry (Err e) [] []) as Hstop.
  { intros e. exists j. split; [done|]. split; [by exists [], []|by left]. }
  apply (may_skip _ _ _ (λ _, True)); [|intros [] w2 _|apply Hstop].
  { eapply quietly_weaken; [by apply notify_htlc_quiet|]. by intros []. }
  apply may_try. eapply may_weaken; [apply prepare_transfer_emits|].
  intros [request|e] js1 evs (-> & Hjs1 & Hreq); [|exists j; split; [done|]; split; [|by left];
    exists js1, []; by rewrite app_nil_r].
  intros w3. simpl. unfold prepare_leaf_key_tweaks_to_send at 2. rewrite <- list_fmap_compose. simpl.
  change (may_emit (r ← swap_nodes_for_preimage (htlc_swap j leaves receiver hash expiry (transfer_request request));
    match r with Ok response => mret (transfer_from_preimage_swap response)
    | Err e => recover_transfer_on_rpc_connection_error j e end) w3 (λ r js' evs', ∃ k, default k i = k ∧
      htlc_created k leaves receiver hash expiry r (js1 ++ js') evs')).
  apply may_bind. eapply may_weaken; [by apply (swap_nodes_emits _ leaves)|].
  intros r js2 evs [Hjs2 Hr] w4. apply emits_may. eapply emits_weaken; [by apply swap_result_quiet|].
  intros t js' evs' (-> & -> & Ht). rewrite !app_nil_r. exists j. split; [done|]. split; [by exists js1, js2|].
  right. by exists (transfer_request request).
Qed.

(** C23: Creating an HTLC, whatever the operators answer, signs only refunds of the given
    leaves to the receiver: some for the preimage of the payment hash, with a way back to
    the wallet, the others to be held by the operators, each due before the wallet's own.
    It asks the operators at most once to start the swap, for this hash, the leaves' value
    and until this expiry, under the given id or a new one. The transfer it reports is the
    coordinator's answer to that request, or the one the coordinator lists under this id
    when asked for this wallet's transfer with it. *)
Theorem htlcs_start_once self leaves receiver hash expiry i w :
  htlc_observes self →
  ends_in (create_htlc self leaves receiver hash expiry i) w (λ r w', ∃ j js evs,
    frost_log w' = frost_log w ++ js ∧ events w' = events w ++ evs ∧ default j i = j ∧
    htlc_created j leaves receiver hash expiry r js evs).
Proof.
  intros Hobs. eapply ends_in_weaken; [by apply create_htlc_emits|].
  intros r w' (js & evs & ? & ? & j & ? & ?). by exists j, js, evs.
Qed.
End preimage.
