(* ===== verification/LightningService.v ===== *)
(** * Lightning: [spark/src/services/lightning.rs]

    Invoices the wallet receives on and payments it makes with its leaves, both with the
    service provider (SSP). The invoice format and the calls are the class
    [LightningEnv]. Of a received invoice's memo and expiry the code only logs that they
    differ; they are left out. *)

From S2P Require Import Prelude WireBytes Bitcoin BitcoinTx Timelock SparkTx TreeModel NodeWire Paging.
From S2P Require Import FrostBatch RefundJobs TransferModel ServiceCalls TransferService PreimageSwap.
From stdpp Require Import pretty.
Open Scope Z_scope.

Definition DEFAULT_RECEIVE_EXPIRY_SECS : Z := 60 * 60 * 24 * 30.
Definition DEFAULT_SEND_EXPIRY_SECS : Z := 60 * 60 * 24 * 16.
Definition RECEIVER_IDENTITY_PUBLIC_KEY_SHORT_CHANNEL_ID : Z := 17592187092992000001.

(** ** Networks: [core/network.rs], [services/models.rs] *)

Module BitcoinCrate.
(** [bitcoin::Network] *)
Inductive Network := Bitcoin | Testnet | Testnet4 | Signet | Regtest.
#[global] Instance Network_eq_dec : EqDecision Network.
Proof. solve_decision. Defined.
End BitcoinCrate.

Module BitcoinNetwork.
Inductive t := Mainnet | Testnet | Signet | Regtest.
End BitcoinNetwork.

Module Network.
Inductive t := Mainnet | Regtest | Testnet | Signet.

Definition to_bitcoin (self : t) : BitcoinCrate.Network :=
  match self with
  | Mainnet => BitcoinCrate.Bitcoin
  | Regtest => BitcoinCrate.Regtest
  | Testnet => BitcoinCrate.Testnet
  | Signet => BitcoinCrate.Signet
  end.

Definition from_ssp (value : BitcoinNetwork.t) : t :=
  match value with
  | BitcoinNetwork.Mainnet => Mainnet
  | BitcoinNetwork.Testnet => Testnet
  | BitcoinNetwork.Signet => Signet
  | BitcoinNetwork.Regtest => Regtest
  end.

Definition to_ssp (value : t) : BitcoinNetwork.t :=
  match value with
  | Mainnet => BitcoinNetwork.Mainnet
  | Testnet => BitcoinNetwork.Testnet
  | Signet => BitcoinNetwork.Signet
  | Regtest => BitcoinNetwork.Regtest
  end.
End Network.

(** ** Messages *)

Module LightningSendRequestStatus.
Inductive t :=
| Created | UserTransferValidationFailed | LightningPaymentInitiated | LightningPaymentFailed
| LightningPaymentSucceeded | PreimageProvided | PreimageProvidingFailed | TransferCompleted
| TransferFailed | PendingUserSwapReturn | UserSwapReturned | UserSwapReturnFailed
| RequestValidated | Unknown.
End LightningSendRequestStatus.

Module LightningReceiveRequestStatus.
Inductive t :=
| InvoiceCreated | HtlcReceived | TransferCreated | TransferCreationFailed
| PaymentPreimagePending | PaymentPreimageRecovered | PaymentPreimageQueryingFailed
| PaymentPreimageRecoveringFailed | TransferCanceled | HtlcFailed | LightningPaymentReceived
| TransferFailed | TransferCompleted | RefundSigningCommitmentsQueryingFailed
| RefundSigningFailed | Unknown.
End LightningReceiveRequestStatus.

(** [DateTime::timestamp] is an [i64]. *)
Record SspTransfer := { ssp_total_amount : CurrencyAmount; ssp_spark_id : option string }.

Record LightningReceiveRequest := {
  lrr_id : string;
  lrr_created_at : Z;
  lrr_updated_at : Z;
  lrr_network : BitcoinNetwork.t;
  lightning_request_status : LightningReceiveRequestStatus.t;
  lrr_encoded_invoice : string;
  lrr_transfer : option SspTransfer;
  lightning_receive_payment_preimage : option string;
}.

Record LightningSendRequest := {
  lsr_id : string;
  lsr_created_at : Z;
  lsr_updated_at : Z;
  lsr_network : BitcoinNetwork.t;
  lsr_encoded_invoice : string;
  lsr_fee : CurrencyAmount;
  lsr_idempotency_key : string;
  lsr_status : LightningSendRequestStatus.t;
  lsr_transfer : option SspTransfer;
  lightning_send_payment_preimage : option string;
}.

(** The Spark invoice, which the code leaves out, is left out. *)
Record RequestLightningReceiveInput := {
  receiver_identity_pubkey : option string;
  rlr_amount_sats : Z;
  rlr_network : BitcoinNetwork.t;
  rlr_payment_hash : string;
  rlr_description_hash : option string;
  rlr_expiry_secs : option Z;
  rlr_memo : option string;
  rlr_include_spark_address : bool;
}.

(** The idempotency key, which the code leaves out, is left out. *)
Record RequestLightningSendInput := {
  rls_encoded_invoice : string;
  rls_amount_sats : option Z;
  user_outbound_transfer_external_id : option string;
}.

Record StorePreimageShareV2Request := {
  sps_payment_hash : list Z;
  encrypted_preimage_shares : gmap string (list Z);
  sps_threshold : Z;
  invoice_string : string;
  user_identity_public_key : list Z;
}.

(** ** The signer's part: [signer/spark_signer.rs], and invoices *)

Section models.
Context {B : Bitcoin} `{!Codec} `{!SignatureCodec}.

Record PrepareLightningReceiveRequest := {
  plr_operator_recipients : list OperatorRecipient;
  plr_threshold : Z;
}.

Record PreparedLightningReceive := {
  plr_payment_hash : list Z;
  operator_preimage_packages : list OperatorPackage;
}.

Inductive Bolt11InvoiceDescription := Direct (text : string) | Hash (hash : list Z).
Record RouteHintHop := { src_node_id : PublicKey; short_channel_id : Z }.

(** What the accessors of a [Bolt11Invoice] return; the amount is a [u64]. *)
Record Bolt11Invoice := {
  payment_hash : list Z;
  network : BitcoinCrate.Network;
  amount_milli_satoshis : option Z;
  description : Bolt11InvoiceDescription;
  route_hints : list (list RouteHintHop);
}.

(** A [SparkAddress] without invoice fields ([address/mod.rs]). *)
Record SparkAddress := { address_identity_public_key : PublicKey; address_network : Network.t }.

Inductive InvoiceDescription := Memo (memo : string) | DescriptionHash (hash : list Z).

Definition into_memo_and_description_hash (self : InvoiceDescription)
    : option string * option (list Z) :=
  match self with
  | Memo memo => (Some memo, None)
  | DescriptionHash hash => (None, Some hash)
  end.

(** [LightningSendStatus], and its conversion from the SSP's status, have the same
    constructors. *)
Record LightningSendPayment := {
  lsp_id : string;
  lsp_created_at : Z;
  lsp_updated_at : Z;
  lsp_network : Network.t;
  lsp_encoded_invoice : string;
  lsp_fee_sat : Z;
  lsp_idempotency_key : string;
  lsp_status : LightningSendRequestStatus.t;
  lsp_transfer_id : option TransferId;
  lsp_payment_preimage : option string;
}.

Record LightningReceivePayment := {
  lrp_id : string;
  lrp_created_at : Z;
  lrp_updated_at : Z;
  lrp_network : Network.t;
  lrp_status : LightningReceiveRequestStatus.t;
  lrp_invoice : string;
  lrp_transfer_id : option TransferId;
  lrp_transfer_amount_sat : option Z;
  lrp_payment_preimage : option string;
}.

Record PayLightningResult := {
  plr_transfer : Transfer;
  lightning_send_payment : LightningSendPayment;
  plr_result_payment_hash : list Z;
}.

Definition ssp_transfer_id (transfer : option SspTransfer) : ServiceResult (option TransferId) :=
  match t ← transfer; ssp_spark_id t with
  | Some id =>
      match TransferId_from_str id with
      | Ok id => Ok (Some id)
      | Err _ => Err (ServiceError.SSPswapError "Invalid transfer id format")
      end
  | None => Ok None
  end.

Definition fee_as_sats (amount : CurrencyAmount) : ServiceResult Z :=
  map_err (λ _, ServiceError.Generic "Failed to parse fee") (as_sats amount).

(** [TryFrom<crate::ssp::LightningSendRequest> for LightningSendPayment] *)
Definition lightning_send_payment_try_from (value : LightningSendRequest)
    : ServiceResult LightningSendPayment :=
  transfer_id ← ssp_transfer_id (lsr_transfer value);
  fee_sat ← fee_as_sats (lsr_fee value);
  Ok {| lsp_id := lsr_id value; lsp_created_at := lsr_created_at value;
        lsp_updated_at := lsr_updated_at value; lsp_network := Network.from_ssp (lsr_network value);
        lsp_encoded_invoice := lsr_encoded_invoice value; lsp_fee_sat := fee_sat;
        lsp_idempotency_key := lsr_idempotency_key value; lsp_status := lsr_status value;
        lsp_transfer_id := transfer_id;
        lsp_payment_preimage := lightning_send_payment_preimage value |}.

(** [TryFrom<crate::ssp::LightningReceiveRequest> for LightningReceivePayment] *)
Definition lightning_receive_payment_try_from (value : LightningReceiveRequest)
    : ServiceResult LightningReceivePayment :=
  transfer_id ← ssp_transfer_id (lrr_transfer value);
  transfer_amount_sat ← match lrr_transfer value with
    | Some t => a ← fee_as_sats (ssp_total_amount t); Ok (Some a)
    | None => Ok None
    end;
  Ok {| lrp_id := lrr_id value; lrp_created_at := lrr_created_at value;
        lrp_updated_at := lrr_updated_at value; lrp_network := Network.from_ssp (lrr_network value);
        lrp_status := lightning_request_status value; lrp_invoice := lrr_encoded_invoice value;
        lrp_transfer_id := transfer_id; lrp_transfer_amount_sat := transfer_amount_sat;
        lrp_payment_preimage := lightning_receive_payment_preimage value |}.

(** ** Checks *)

Definition validate_received_invoice (decoded_invoice : Bolt11Invoice) (expected_hash : list Z)
    (expected_network : BitcoinCrate.Network) (amount_sats : Z) (description_hash : option (list Z))
    : ServiceResult unit :=
  let expected_amount_msats :=
    if 0 <? amount_sats then Some (Z.min (amount_sats * 1000) (2 ^ 64 - 1)) else None in
  if negb (bool_decide (payment_hash decoded_invoice = expected_hash)) then
    Err (ServiceError.ValidationError "SSP invoice payment hash does not match the requested hash")
  else if negb (bool_decide (network decoded_invoice = expected_network)) then
    Err (ServiceError.ValidationError "SSP invoice network does not match the requested network")
  else if negb (bool_decide (amount_milli_satoshis decoded_invoice = expected_amount_msats)) then
    Err (ServiceError.ValidationError "SSP invoice amount does not match the requested amount")
  else
    match description_hash, description decoded_invoice with
    | Some expected, Hash h =>
        if bool_decide (h = expected) then Ok ()
        else Err (ServiceError.ValidationError
               "SSP invoice description hash does not match the requested hash")
    | Some _, Direct _ => Err (ServiceError.ValidationError
        "SSP invoice description hash does not match the requested hash")
    | None, _ => Ok ()
    end.

Definition validate_received_spark_address (spark_address : option SparkAddress)
    (include_spark_address : bool) (identity_pubkey : PublicKey) : ServiceResult unit :=
  match spark_address, include_spark_address with
  | Some _, false =>
      Err (ServiceError.ValidationError "SSP invoice carries a Spark address that was not requested")
  | Some address, true =>
      if decide (address_identity_public_key address = identity_pubkey) then Ok ()
      else Err (ServiceError.ValidationError "SSP invoice Spark address does not match our identity")
  | None, true =>
      Err (ServiceError.ValidationError "SSP invoice is missing the requested Spark address")
  | None, false => Ok ()
  end.

(** [div_ceil] rounds up. *)
Definition get_invoice_amount_sats (invoice : Bolt11Invoice) (amount_to_send : option Z)
    : ServiceResult Z :=
  let invoice_amount_sats := (default 0 (amount_milli_satoshis invoice) + 999) / 1000 in
  let to_pay_sat := default invoice_amount_sats amount_to_send in
  if to_pay_sat =? 0 then
    Err (ServiceError.ValidationError "Amount must be provided for 0 amount invoice")
  else if to_pay_sat <? invoice_amount_sats then
    Err (ServiceError.ValidationError "Amount must not be less than the invoice amount")
  else Ok to_pay_sat.

Definition is_resumable_send (transfer_type : TransferType.t) (status : TransferStatus.t) : bool :=
  match transfer_type, status with
  | TransferType.PreimageSwap,
      (TransferStatus.Completed | TransferStatus.Expired | TransferStatus.Returned) => false
  | TransferType.PreimageSwap, _ => true
  | _, _ => false
  end.
End models.

Class LightningEnv {B : Bitcoin} {BT : BitcoinTx} `{!Codec} `{!SignatureCodec} (W : Type) := {
  lightning_preimages :: PreimageEnv W;
  lightning_clock :: ClockEnv W;
  (** [Bolt11Invoice::from_str] *)
  bolt11_from_str : string → result string Bolt11Invoice;
  prepare_lightning_receive :
    PrepareLightningReceiveRequest → W → result string PreparedLightningReceive * W;
  client_store_preimage_share_v2 : StorePreimageShareV2Request → W → result OperatorRpcError.t unit * W;
  ssp_request_lightning_receive : RequestLightningReceiveInput → W →
    result ServiceProviderError.t LightningReceiveRequest * W;
  ssp_request_lightning_send : RequestLightningSendInput → W →
    result ServiceProviderError.t LightningSendRequest * W;
  ssp_get_lightning_send_fee_estimate : string → option Z → W →
    result ServiceProviderError.t CurrencyAmount * W;
  ssp_get_lightning_send_request : string → W →
    result ServiceProviderError.t (option LightningSendRequest) * W;
  ssp_get_lightning_receive_request : string → W →
    result ServiceProviderError.t (option LightningReceiveRequest) * W;
}.

Section service.
Context {B : Bitcoin} {BT : BitcoinTx} `{!Codec} `{!SignatureCodec} {W : Type} `{!LightningEnv W}.
Context `{!HashIter string} `{!HashIter Identifier}.

(** The fields besides the clients; the observer is its [before_send_lightning_payment]. *)
Record LightningService := {
  ls_ssp_identity_public_key : PublicKey;
  ls_network : Network.t;
  ls_transfer_service : TransferService (W := W);
  ls_all_operators : list Operator;
  ls_split_secret_threshold : Z;
  ls_observer : option (TransferId → string → Z → W → result string unit * W);
}.

Implicit Types self : LightningService.

Definition decode_invoice (invoice : string) : ServiceResult Bolt11Invoice :=
  map_err ServiceError.InvoiceDecodingError (bolt11_from_str invoice).

Definition lightning_operator_recipients self : list OperatorRecipient :=
  (λ op, {| recipient_id := operator_id op; recipient_identifier := identifier op;
            recipient_public_key := identity_public_key op |}) <$> ls_all_operators self.

(** The first hop with the reserved channel id. *)
Definition extract_spark_address self (decoded_invoice : Bolt11Invoice) : option SparkAddress :=
  node ← List.find (λ node, short_channel_id node =? RECEIVER_IDENTITY_PUBLIC_KEY_SHORT_CHANNEL_ID)
           (concat (route_hints decoded_invoice));
  Some {| address_identity_public_key := src_node_id node; address_network := ls_network self |}.

Definition extract_spark_address_from_invoice self (invoice : string) : ServiceResult (option SparkAddress) :=
  decoded_invoice ← decode_invoice invoice; Ok (extract_spark_address self decoded_invoice).

(** ** Receiving *)

(** The shares of a preimage that the signer made up, for the coordinator. *)
Definition store_preimage_shares self (identity_pubkey : PublicKey) (hash : list Z) (invoice : string)
    (prepared : PreparedLightningReceive) : proc W (ServiceResult unit) :=
  r ← call (client_store_preimage_share_v2 {|
    sps_payment_hash := hash;
    encrypted_preimage_shares := collect_packages (operator_preimage_packages prepared);
    sps_threshold := ls_split_secret_threshold self;
    invoice_string := invoice;
    user_identity_public_key := public_key_serialize identity_pubkey |});
  mret (map_err (λ e, ServiceError.PreimageShareStoreFailed (OperatorRpcError.to_string e)) r).

Definition create_lightning_invoice_inner self (amount_sats : Z) (description : option InvoiceDescription)
    (preimage : option (list Z)) (external_payment_hash : option (list Z)) (expiry_secs : option Z)
    (include_spark_address : bool) (identity_pubkey : option PublicKey)
    : proc W (ServiceResult LightningReceivePayment) :=
  _ ←? mret match expiry_secs with
    | Some expiry =>
        if 2 ^ 31 - 1 <? expiry then
          Err (ServiceError.ValidationError ("expiry_secs " +:+ pretty expiry +:+
            " exceeds maximum allowed value of " +:+ pretty (2 ^ 31 - 1)))
        else Ok ()
    | None => Ok ()
    end;
  identity_pubkey ←? match identity_pubkey with
    | Some pk => mret (Ok pk) | None => identity_key end;
  if bool_decide (external_payment_hash = None) && bool_decide (preimage ≠ None) then
    mret (Err (ServiceError.InvalidInput
      "external preimage is not supported; the signer generates it in-enclave"))
  else
    hash ←? match external_payment_hash with
      | Some hash => mret (Ok (hash, None))
      | None =>
          prepared ←? signer (call (prepare_lightning_receive {|
            plr_operator_recipients := lightning_operator_recipients self;
            plr_threshold := ls_split_secret_threshold self |}));
          mret (Ok (plr_payment_hash prepared, Some prepared))
      end;
    let '(hash, prepared_receive) := hash in
    let expiry := default DEFAULT_RECEIVE_EXPIRY_SECS expiry_secs in
    let '(memo, description_hash) := from_option into_memo_and_description_hash (None, None) description in
    invoice ←? ssp (ssp_request_lightning_receive {|
      receiver_identity_pubkey := Some (hex_encode (public_key_serialize identity_pubkey));
      rlr_amount_sats := amount_sats;
      rlr_network := Network.to_ssp (ls_network self);
      rlr_payment_hash := hex_encode hash;
      rlr_description_hash := hex_encode <$> description_hash;
      rlr_expiry_secs := Some expiry;
      rlr_memo := memo;
      rlr_include_spark_address := include_spark_address |});
    decoded_invoice ←? mret (decode_invoice (lrr_encoded_invoice invoice));
    _ ←? mret (validate_received_invoice decoded_invoice hash (Network.to_bitcoin (ls_network self))
                 amount_sats description_hash);
    _ ←? mret (validate_received_spark_address (extract_spark_address self decoded_invoice)
                 include_spark_address identity_pubkey);
    _ ←? match prepared_receive with
      | Some prepared => store_preimage_shares self identity_pubkey hash (lrr_encoded_invoice invoice) prepared
      | None => mret (Ok ())
      end;
    mret (lightning_receive_payment_try_from invoice).

Definition create_lightning_invoice self (amount_sats : Z) (description : option InvoiceDescription)
    (preimage : option (list Z)) (expiry_secs : option Z) (include_spark_address : bool)
    (identity_pubkey : option PublicKey) : proc W (ServiceResult LightningReceivePayment) :=
  create_lightning_invoice_inner self amount_sats description preimage None expiry_secs
    include_spark_address identity_pubkey.

Definition create_hodl_lightning_invoice self (amount_sats : Z) (description : option InvoiceDescription)
    (payment_hash : list Z) (expiry_secs : option Z) (identity_pubkey : option PublicKey)
    : proc W (ServiceResult LightningReceivePayment) :=
  create_lightning_invoice_inner self amount_sats description None (Some payment_hash) expiry_secs
    false identity_pubkey.

(** ** Sending *)

Definition notify_before_send_lightning self (transfer_id : TransferId) (invoice : string)
    (amount_sats : Z) : proc W (ServiceResult unit) :=
  match ls_observer self with
  | Some before_send_lightning_payment =>
      r ← call (before_send_lightning_payment transfer_id invoice amount_sats);
      mret (map_err ServiceError.TransferObserverError r)
  | None => mret (Ok ())
  end.

Definition initiate_lightning_preimage_swap self (transfer_id : TransferId) (leaf_tweaks : list LeafKeyTweak)
    (payment_hash : list Z) (invoice : string) (amount_sats : Z) (expiry_time : SystemTime)
    (transfer_request : StartTransferRequest) : proc W (ServiceResult (option ProtoTransfer.Transfer)) :=
  swap_nodes_for_preimage {|
    sn_transfer_id := transfer_id; sn_leaves := leaf_tweaks;
    sn_receiver_pubkey := ls_ssp_identity_public_key self; sn_payment_hash := payment_hash;
    sn_invoice_str := Some invoice; sn_amount_sats := amount_sats; sn_fee_sats := 0;
    sn_is_inbound_payment := false; sn_transfer_request := Some transfer_request;
    sn_expiry_time := expiry_time |}.

(** [if payment.transfer_id.is_none() { payment.transfer_id = Some(id) }] *)
Definition set_transfer_id (payment : LightningSendPayment) (id : TransferId) : LightningSendPayment :=
  {| lsp_id := lsp_id payment; lsp_created_at := lsp_created_at payment;
     lsp_updated_at := lsp_updated_at payment; lsp_network := lsp_network payment;
     lsp_encoded_invoice := lsp_encoded_invoice payment; lsp_fee_sat := lsp_fee_sat payment;
     lsp_idempotency_key := lsp_idempotency_key payment; lsp_status := lsp_status payment;
     lsp_transfer_id := Some (default id (lsp_transfer_id payment));
     lsp_payment_preimage := lsp_payment_preimage payment |}.

Definition request_lightning_send_result (transfer : Transfer) (transfer_id : TransferId)
    (invoice : string) (amount_to_send : option Z) (payment_hash : list Z)
    : proc W (ServiceResult PayLightningResult) :=
  request ←? ssp (ssp_request_lightning_send {|
    rls_encoded_invoice := invoice; rls_amount_sats := amount_to_send;
    user_outbound_transfer_external_id := Some transfer_id |});
  payment ←? mret (lightning_send_payment_try_from request);
  mret (Ok {| plr_transfer := transfer;
              lightning_send_payment := set_transfer_id payment (TransferModel.transfer_id transfer);
              plr_result_payment_hash := payment_hash |}).

Definition send_lightning_inner self (transfer_id : TransferId) (leaves : list TreeNode)
    (invoice : string) (amount_to_send : option Z) (prepared : option PreparedTransfer)
    : proc W (ServiceResult PayLightningResult) :=
  let ssp_identity_public_key := ls_ssp_identity_public_key self in
  now ← call now;
  expiry_time ← panic_or (checked_add now (DEFAULT_SEND_EXPIRY_SECS * NANOS_PER_SEC));
  decoded_invoice ←? mret (decode_invoice invoice);
  amount_sats ←? mret (get_invoice_amount_sats decoded_invoice amount_to_send);
  let payment_hash := payment_hash decoded_invoice in
  _ ←? notify_before_send_lightning self transfer_id invoice amount_sats;
  let leaf_key_tweaks := prepare_leaf_key_tweaks_to_send leaves in
  prepared_transfer_request ←? match prepared with
    | Some prepared =>
        assemble_transfer_request_with_prepared transfer_id leaf_key_tweaks ssp_identity_public_key
          (Some payment_hash) (Some expiry_time) None prepared
    | None =>
        prepare_transfer_request (ls_transfer_service self) transfer_id leaf_key_tweaks
          ssp_identity_public_key (Some payment_hash) (Some expiry_time) None
    end;
  initiate_preimage_swap_res ← initiate_lightning_preimage_swap self transfer_id leaf_key_tweaks
    payment_hash invoice amount_sats expiry_time (transfer_request prepared_transfer_request);
  transfer ←? match initiate_preimage_swap_res with
    | Ok initiate_preimage_swap => mret (transfer_from_preimage_swap initiate_preimage_swap)
    | Err e => recover_transfer_on_rpc_connection_error transfer_id e
    end;
  request_lightning_send_result transfer transfer_id invoice amount_to_send payment_hash.

Definition pay_lightning_invoice self (invoice : string) (amount_to_send : option Z)
    (leaves : list TreeNode) (transfer_id : option TransferId) : proc W (ServiceResult PayLightningResult) :=
  unwrapped_transfer_id ← match transfer_id with
    | Some transfer_id => mret transfer_id | None => call uuid_now_v7 end;
  send_lightning_inner self unwrapped_transfer_id leaves invoice amount_to_send None.

Definition prepare_lightning_send self (leaves : list TreeNode) (transfer_id : option TransferId)
    : proc W PrepareTransferRequest :=
  transfer_id ← match transfer_id with
    | Some transfer_id => mret transfer_id | None => call uuid_now_v7 end;
  build_transfer_approval_request (ls_transfer_service self) transfer_id leaves
    (ls_ssp_identity_public_key self).

Definition submit_lightning_send self (transfer_id : TransferId) (leaves : list TreeNode)
    (invoice : string) (amount_to_send : option Z) (approved_transfer : PreparedTransfer)
    : proc W (ServiceResult PayLightningResult) :=
  send_lightning_inner self transfer_id leaves invoice amount_to_send (Some approved_transfer).

Definition resume_lightning_send (transfer_id : TransferId) (invoice : string) (amount_to_send : option Z)
    : proc W (ServiceResult (option PayLightningResult)) :=
  transfer ←? query_transfer transfer_id;
  match transfer with
  | None => mret (Ok None)
  | Some transfer =>
      if negb (is_resumable_send (transfer_type transfer) (transfer_status transfer)) then mret (Ok None)
      else
        decoded_invoice ←? mret (decode_invoice invoice);
        result ←? request_lightning_send_result transfer transfer_id invoice amount_to_send
                    (payment_hash decoded_invoice);
        mret (Ok (Some result))
  end.

(** ** Prices and queries *)

Definition lightning_fee_sats (invoice : string) (to_pay_sat : Z) : proc W (ServiceResult Z) :=
  fee_estimate ←? ssp (ssp_get_lightning_send_fee_estimate invoice (Some to_pay_sat));
  mret (fee_as_sats fee_estimate).

(** What a payment takes; with [prefer_spark] also the address that can be paid directly. *)
Definition validate_payment self (invoice : string) (max_fee_sat amount_to_send : option Z)
    (prefer_spark : bool) : proc W (ServiceResult (Z * option SparkAddress)) :=
  decoded_invoice ←? mret (decode_invoice invoice);
  if negb (bool_decide (network decoded_invoice = Network.to_bitcoin (ls_network self))) then
    mret (Err (ServiceError.ValidationError "Invoice network does not match"))
  else
    to_pay_sat ←? mret (get_invoice_amount_sats decoded_invoice amount_to_send);
    match (if prefer_spark then extract_spark_address self decoded_invoice else None) with
    | Some receiver_address => mret (Ok (to_pay_sat, Some receiver_address))
    | None =>
        fee_sat ←? lightning_fee_sats invoice to_pay_sat;
        _ ←? mret match max_fee_sat with
          | Some max_fee_sat =>
              if max_fee_sat <? fee_sat then
                Err (ServiceError.ValidationError ("Fee exceeds maximum allowed fee " +:+ pretty fee_sat +:+
                  " > " +:+ pretty max_fee_sat))
              else Ok ()
          | None => Ok ()
          end;
        mret (Ok (uadd 64 fee_sat to_pay_sat, None))
    end.

Definition fetch_lightning_send_fee_estimate (invoice : string) (amount_to_send : option Z)
    : proc W (ServiceResult Z) :=
  decoded_invoice ←? mret (decode_invoice invoice);
  amount_sat ←? mret (get_invoice_amount_sats decoded_invoice amount_to_send);
  lightning_fee_sats invoice amount_sat.

Definition get_lightning_send_payment (id : string) : proc W (ServiceResult (option LightningSendPayment)) :=
  res ←? ssp (ssp_get_lightning_send_request id);
  mret (convert_some lightning_send_payment_try_from res).

Definition get_lightning_receive_payment (id : string)
    : proc W (ServiceResult (option LightningReceivePayment)) :=
  res ←? ssp (ssp_get_lightning_receive_request id);
  mret (convert_some lightning_receive_payment_try_from res).
End service.
