(* ===== verification/LightningSpec.v ===== *)
(** * What Lightning payments sign, ask for and accept

    [lightning_sends_in_order]: a payment signs only refunds to the service provider (SSP),
    and asks it to pay only what the operators hold. [only_held_payments_resume]: nor does
    resuming one. [received_invoices_are_checked]: an invoice is given out, and the shares
    of its preimage are stored, only if it is the one that was asked for. *)

From S2P Require Import Prelude WireBytes Bitcoin BitcoinTx Timelock SparkTx TreeModel NodeWire Paging.
From S2P Require Import FrostBatch RefundJobs RefundJobsSpec TransferModel ServiceCalls.
From S2P Require Import TransferService TransferServiceSpec PreimageSwap PreimageSwapSpec LightningService.
Open Scope Z_scope.

Inductive LightningRequest :=
| InvoiceAsked (input : RequestLightningReceiveInput)
| SharesStored (request : StorePreimageShareV2Request)
| PaymentAsked (input : RequestLightningSendInput).

Class LightningLaws `{LightningEnv W} := {
  lightning_preimage_laws :: PreimageLaws (W := W);
  lightning_clock_laws :: ClockLaws (W := W);
  lightning_event : LightningRequest → other_request;
  log_prepare_receive r w : frost_log (prepare_lightning_receive r w).2 = frost_log w;
  log_store_shares r w : frost_log (client_store_preimage_share_v2 r w).2 = frost_log w;
  log_ask_invoice r w : frost_log (ssp_request_lightning_receive r w).2 = frost_log w;
  log_ask_payment r w : frost_log (ssp_request_lightning_send r w).2 = frost_log w;
  events_prepare_receive r w : events (prepare_lightning_receive r w).2 = events w;
  events_store_shares r w : events (client_store_preimage_share_v2 r w).2 =
    events w ++ [Requested (lightning_event (SharesStored r))];
  events_ask_invoice r w : events (ssp_request_lightning_receive r w).2 =
    events w ++ [Requested (lightning_event (InvoiceAsked r))];
  events_ask_payment r w : events (ssp_request_lightning_send r w).2 =
    events w ++ [Requested (lightning_event (PaymentAsked r))];
}.

#[export] Hint Resolve @log_prepare_receive @events_prepare_receive : calls.

(** ** The amount of a payment *)

Section amounts.
Context {B : Bitcoin}.

(** What a payment of [invoice] is worth: at least its amount, and without an amount to send
    its amount rounded up to a whole satoshi. *)
Definition priced (invoice : Bolt11Invoice) (amount_to_send : option Z) (amount : Z) : Prop :=
  let msats := default 0 (amount_milli_satoshis invoice) in
  amount ≠ 0 ∧ msats ≤ 1000 * amount ∧ default amount amount_to_send = amount ∧
  (amount_to_send = None → 1000 * amount < msats + 1000).

Lemma invoice_amount_priced invoice amount_to_send amount :
  get_invoice_amount_sats invoice amount_to_send = Ok amount → priced invoice amount_to_send amount.
Proof.
  unfold get_invoice_amount_sats, priced. set (msats := default 0 (amount_milli_satoshis invoice)).
  pose proof (Z.div_mod (msats + 999) 1000 ltac:(lia)).
  pose proof (Z.mod_pos_bound (msats + 999) 1000 ltac:(lia)).
  destruct amount_to_send as [a|]; simpl; repeat case_match; try done; intros [= <-];
    (split; [lia|]); (split; [lia|]); (split; [done|]); [done|lia].
Qed.

(** A resumable transfer is a preimage swap the operators may still hold. *)
Lemma resumable_send type status :
  is_resumable_send type status = true ↔ type = TransferType.PreimageSwap ∧
    status ∉ [TransferStatus.Completed; TransferStatus.Expired; TransferStatus.Returned].
Proof. rewrite !not_elem_of_cons. destruct type, status; simpl; set_solver. Qed.
End amounts.

(** ** Sending *)

Section send.
Context `{LightningLaws W} `{!HashIter string} `{!HashIter Identifier}.
Implicit Types (self : LightningService (W := W)) (leaves : list TreeNode) (invoice : string).
Implicit Types (js : list (FrostJob Sighash)) (evs : list (Event other_request)) (transfer : Transfer).

Definition lightning_request (request : LightningRequest) : Event other_request :=
  Requested (lightning_event request).

(** The SSP is asked to pay [invoice] with the transfer [i]. *)
Definition asks_payment i invoice (amount_to_send : option Z) evs : Prop :=
  evs = [lightning_request (PaymentAsked {| rls_encoded_invoice := invoice;
    rls_amount_sats := amount_to_send; user_outbound_transfer_external_id := Some i |})].

(** What a payment says of itself. *)
Definition reports transfer (hash : list Z) (result : PayLightningResult) : Prop :=
  plr_transfer result = transfer ∧ plr_result_payment_hash result = hash ∧
  is_Some (lsp_transfer_id (lightning_send_payment result)).

Lemma ssp_lightning_emits {A} (f : W → result ServiceProviderError.t A * W) event w :
  frost_log (f w).2 = frost_log w → events (f w).2 = events w ++ [event] →
  emits (ssp f) w (λ _ js evs, js = [] ∧ evs = [event]).
Proof.
  intros Hl He. unfold ssp. apply emits_bind, returns_call. exists [], [event].
  rewrite Hl, He, app_nil_r. split_and!; [done..|]. intros w'. by apply emits_ret.
Qed.

Lemma request_send_emits transfer i invoice amount_to_send hash w :
  emits (request_lightning_send_result transfer i invoice amount_to_send hash) w
    (λ r js evs, js = [] ∧ asks_payment i invoice amount_to_send evs ∧
      match r with Ok result => reports transfer hash result | Err _ => True end).
Proof.
  unfold request_lightning_send_result. match goal with |- context [ssp_request_lightning_send ?x] => set (input := x) end.
  apply emits_try. eapply emits_weaken.
  { apply (ssp_lightning_emits _ (lightning_request (PaymentAsked input)));
      [apply log_ask_payment|apply events_ask_payment]. }
  intros [request|e] js evs [-> ->]; [|done]. intros w1.
  apply emits_let; [intros payment w2 _; apply emits_ret|by intros e _]. split_and!; [done..|by eexists].
Qed.

(** The swap of a Lightning payment. *)
Definition lightning_swap self i leaves invoice (hash : list Z) amount expiry
    (st : StartTransferRequest) : SwapNodesForPreimageRequest := {|
  sn_transfer_id := i; sn_leaves := prepare_leaf_key_tweaks_to_send leaves;
  sn_receiver_pubkey := ls_ssp_identity_public_key self; sn_payment_hash := hash;
  sn_invoice_str := Some invoice; sn_amount_sats := amount; sn_fee_sats := 0;
  sn_is_inbound_payment := false; sn_transfer_request := Some st; sn_expiry_time := expiry |}.

(** How a payment may go once its invoice is read. *)
Definition paid self i leaves invoice amount_to_send (inv : Bolt11Invoice) (amount : Z)
    (r : ServiceResult PayLightningResult) js evs : Prop :=
  payment_shares (payment_hash inv) leaves (ls_ssp_identity_public_key self) js ∧
  (is_Ok r = false ∧ evs = [] ∨
   ∃ st expiry t swapped asked, evs = swapped ++ asked ∧ requests i (ls_ssp_identity_public_key self) st ∧
     held i (lightning_swap self i leaves invoice (payment_hash inv) amount expiry st) t swapped ∧
     (is_Ok r = false ∧ asked = [] ∨
      ∃ transfer, t = Ok transfer ∧ asks_payment i invoice amount_to_send asked ∧
        ∀ result, r = Ok result → reports transfer (payment_hash inv) result)).

(** The application's observer neither signs nor talks to anyone. *)
Definition lightning_observes self : Prop :=
  ∀ before_send, ls_observer self = Some before_send →
  ∀ i invoice amount w, frost_log (before_send i invoice amount w).2 = frost_log w ∧
    events (before_send i invoice amount w).2 = events w.

Lemma notify_lightning_quiet self i invoice amount w :
  lightning_observes self →
  quietly (notify_before_send_lightning self i invoice amount) w (λ _ : ServiceResult unit, True).
Proof.
  intros Hobs. unfold notify_before_send_lightning. destruct (ls_observer self) as [observer|] eqn:Ho;
    [|by apply quietly_ret].
  destruct (Hobs observer Ho i invoice amount w).
  eapply emits_quiet; [by apply (quietly_call _ w (λ _, True))|]. intros r w1 _. by apply quietly_ret.
Qed.

Lemma send_lightning_emits self i leaves invoice amount_to_send prepared w :
  lightning_observes self →
  may_emit (send_lightning_inner self i leaves invoice amount_to_send prepared) w (λ r js evs,
    is_Ok r = false ∧ js = [] ∧ evs = [] ∨
    ∃ inv amount, bolt11_from_str invoice = Ok inv ∧ priced inv amount_to_send amount ∧
      paid self i leaves invoice amount_to_send inv amount r js evs).
Proof.
  intros Hobs. unfold send_lightning_inner. apply may_bind, emits_may. eapply emits_weaken.
  { by apply (quietly_call now w (λ _, True)); eauto with calls. }
  intros t js evs (-> & -> & _) w1. simpl. apply ends_in_bind, ends_in_panic. intros expiry _.
  apply (may_skip _ _ _ (λ inv, bolt11_from_str invoice = Ok inv)); [|intros inv w2 Hinv|by intros e; left].
  { apply quietly_ret. unfold decode_invoice. by destruct (bolt11_from_str invoice). }
  apply (may_skip _ _ _ (λ amount, priced inv amount_to_send amount)); [|intros amount w3 Hamount|by intros e; left].
  { apply quietly_ret. destruct (get_invoice_amount_sats inv amount_to_send) eqn:Ha; [|done].
    by apply invoice_amount_priced. }
  apply (may_skip _ _ _ (λ _, True)); [|intros [] w4 _|by intros e; left].
  { eapply quietly_weaken; [by apply notify_lightning_quiet|]. by intros []. }
  eapply (may_weaken _ _ (paid self i leaves invoice amount_to_send inv amount));
    [|intros r js evs Hpaid; right; by exists inv, amount].
  apply may_try. eapply may_weaken.
  { instantiate (1 := λ r js evs, evs = [] ∧
      Forall (sent_for (Some (payment_hash inv)) leaves (ls_ssp_identity_public_key self)) js ∧
      match r with Ok request => requests i (ls_ssp_identity_public_key self) (transfer_request request)
      | Err _ => True end).
    destruct prepared; [apply assemble_request_emits|apply prepare_transfer_emits]. }
  intros [request|e] js1 evs (-> & Hjs1 & Hreq);
    [|split; [exists js1, []; by rewrite app_nil_r|by left]].
  intros w5. simpl. apply may_bind. eapply may_weaken; [by apply (swap_nodes_emits _ leaves)|].
  intros res js2 swapped [Hjs2 Hr] w6. simpl in Hjs2.
  assert (payment_shares (payment_hash inv) leaves (ls_ssp_identity_public_key self) (js1 ++ js2)) as Hshares
    by (by exists js1, js2).
  apply emits_may, emits_try. eapply emits_weaken; [by apply swap_result_quiet|].
  intros t' js' evs' (-> & -> & Ht). rewrite !app_nil_r.
  destruct t' as [transfer|e].
  - intros w7. eapply emits_weaken; [apply request_send_emits|]. intros r js' asked (-> & Hasks & Hr').
    rewrite !app_nil_r. split; [done|]. right.
    eexists (transfer_request request), expiry, (Ok transfer), swapped, asked. split_and!; [done..|].
    right. exists transfer. split_and!; [done..|]. by intros result ->.
  - rewrite ?app_nil_r. split; [done|]. right.
    eexists (transfer_request request), expiry, (Err e), swapped, []. rewrite app_nil_r.
    split_and!; [done..|by left].
Qed.

(** C9: A Lightning payment goes in order, whatever the operators and the SSP answer. It is
    priced at no less than its invoice. It signs only refunds of the given leaves to the
    SSP: some for the preimage of the invoice's payment hash, with a way back to the wallet,
    the others to be held by the operators, each due before the wallet's own. It asks the
    operators at most once to hold the leaves, for this invoice, hash and price; and it asks
    the SSP to pay, once and with the transfer's id as the key, only when the coordinator
    answered that request with a transfer, or listed one when asked for this wallet's
    transfer with this id. The transfer it reports is that one. *)
Theorem lightning_sends_in_order self i leaves invoice amount_to_send prepared w :
  lightning_observes self →
  ends_in (send_lightning_inner self i leaves invoice amount_to_send prepared) w (λ r w', ∃ js evs,
    frost_log w' = frost_log w ++ js ∧ events w' = events w ++ evs ∧
    (is_Ok r = false ∧ js = [] ∧ evs = [] ∨
     ∃ inv amount, bolt11_from_str invoice = Ok inv ∧ priced inv amount_to_send amount ∧
       paid self i leaves invoice amount_to_send inv amount r js evs)).
Proof. intros Hobs. exact (send_lightning_emits self i leaves invoice amount_to_send prepared w Hobs). Qed.

(** ** Resuming *)

(** The coordinator lists [transfer] as one of this wallet's, under the id [i]. *)
Definition listed (i : TransferId) transfer : Prop :=
  ∃ w1 resp w2 t, client_query_all_transfers
      {| participant := Some (SenderOrReceiverIdentityPublicKey (public_key_serialize own_identity));
         filter_transfer_ids := [i]; filter_limit := 0; filter_offset := 0;
         types := []; filter_order := Descending |} w1 = (Ok resp, w2) ∧
    head (transfers resp) = Some t ∧ transfer_try_from t = Ok transfer.

Lemma query_transfer_listed i w :
  quietly (query_transfer i) w (λ r, match r with Ok (Some transfer) => listed i transfer | _ => True end).
Proof.
  eapply emits_skip; [apply quietly_identity|intros k w1 ->|by intros e].
  eapply emits_skip; [|intros ts w2 Hts|by intros e].
  { eapply (quietly_rpc _ w1 (λ ts, ∃ w2, _ = (Ok ts, w2))); eauto with calls; by eexists. }
  apply quietly_ret. destruct (head (transfers ts)) as [t|] eqn:Ht; [|done].
  destruct (transfer_try_from t) as [transfer|] eqn:Hof; [|done]. simpl.
  destruct Hts as [w3 Hts]. by exists w1, ts, w3, t.
Qed.

(** C18: Resuming a payment pays nothing twice and never panics. It signs nothing, starts
    nothing at the operators, and asks the SSP to pay, once and under the transfer's own id,
    only for a transfer that the operators list under this id as a preimage swap that is
    neither completed nor expired nor returned; with [None] nothing was asked. *)
Theorem only_held_payments_resume i invoice amount_to_send w :
  returns (resume_lightning_send i invoice amount_to_send) w (λ r w', ∃ evs,
    frost_log w' = frost_log w ∧ events w' = events w ++ evs ∧
    (evs = [] ∧ (∀ result, r ≠ Ok (Some result)) ∨
     ∃ transfer inv, listed i transfer ∧ transfer_type transfer = TransferType.PreimageSwap ∧
       transfer_status transfer ∉ [TransferStatus.Completed; TransferStatus.Expired; TransferStatus.Returned] ∧
       bolt11_from_str invoice = Ok inv ∧ asks_payment i invoice amount_to_send evs ∧
       match r with
       | Ok (Some result) => reports transfer (payment_hash inv) result
       | Ok None => False
       | Err _ => True
       end)).
Proof.
  assert (emits (resume_lightning_send i invoice amount_to_send) w (λ r js evs, js = [] ∧
    (evs = [] ∧ (∀ result, r ≠ Ok (Some result)) ∨
     ∃ transfer inv, listed i transfer ∧ transfer_type transfer = TransferType.PreimageSwap ∧
       transfer_status transfer ∉ [TransferStatus.Completed; TransferStatus.Expired; TransferStatus.Returned] ∧
       bolt11_from_str invoice = Ok inv ∧ asks_payment i invoice amount_to_send evs ∧
       match r with
       | Ok (Some result) => reports transfer (payment_hash inv) result
       | Ok None => False
       | Err _ => True
       end))) as Hemits.
  { eapply (emits_skip _ _ _ (λ o, match o with Some transfer => listed i transfer | None => True end));
      [|intros o w1 Ho|by intros e; split; [|left]].
    { eapply quietly_weaken; [apply query_transfer_listed|]. by intros [[transfer|]|e]. }
    destruct o as [transfer|]; [|by apply emits_ret; split; [|left]].
    destruct (is_resumable_send _ _) eqn:Hres; [|by apply emits_ret; split; [|left]].
    apply resumable_send in Hres as [Htype Hstatus]. simpl.
    apply emits_let; [intros inv w2 Hinv|by intros e _; split; [|left]].
    unfold decode_invoice in Hinv. destruct (bolt11_from_str invoice) as [inv'|]; [|done]. injection Hinv as ->.
    apply emits_try. eapply emits_weaken; [apply request_send_emits|].
    intros r js evs (-> & Hasks & Hr). destruct r as [result|e].
    - intros w3. apply emits_ret. rewrite !app_nil_r. split; [done|]. right. by exists transfer, inv.
    - split; [done|]. right. by exists transfer, inv. }
  eapply returns_weaken; [exact Hemits|]. intros r w' (js & evs & Hlog & Hev & -> & Hr).
  exists evs. rewrite app_nil_r in Hlog. by split_and!.
Qed.
End send.

(** ** Receiving *)

Section receive.
Context `{LightningLaws W} `{!HashIter string} `{!HashIter Identifier}.
Implicit Types (self : LightningService (W := W)) (key : PublicKey) (hash : list Z).
Implicit Types (js : list (FrostJob Sighash)) (evs : list (Event other_request)).

(** The description hash that was asked for. *)
Definition asked_hash (description : option InvoiceDescription) : option (list Z) :=
  match description with Some (DescriptionHash h) => Some h | _ => None end.

(** The invoice that was asked for: it is paid to [hash], on this network, for this amount
    (for any, when none was asked for), and names [key] as a Spark address exactly when it
    should. *)
Definition as_asked self key hash (amount_sats : Z) description (include : bool) (inv : Bolt11Invoice) : Prop :=
  payment_hash inv = hash ∧ network inv = Network.to_bitcoin (ls_network self) ∧
  amount_milli_satoshis inv =
    (if 0 <? amount_sats then Some (Z.min (amount_sats * 1000) (2 ^ 64 - 1)) else None) ∧
  (∀ h, asked_hash description = Some h → LightningService.description inv = Hash h) ∧
  extract_spark_address self inv = if include then
    Some {| address_identity_public_key := key; address_network := ls_network self |} else None.

Lemma validate_invoice_Ok inv hash net amount_sats description_hash :
  validate_received_invoice inv hash net amount_sats description_hash = Ok () →
  payment_hash inv = hash ∧ network inv = net ∧
  amount_milli_satoshis inv =
    (if 0 <? amount_sats then Some (Z.min (amount_sats * 1000) (2 ^ 64 - 1)) else None) ∧
  ∀ h, description_hash = Some h → LightningService.description inv = Hash h.
Proof.
  unfold validate_received_invoice. repeat case_bool_decide; simpl; try done.
  destruct description_hash as [h|]; [|done].
  destruct (LightningService.description inv) as [text|h']; [done|].
  case_bool_decide; [|done]. subst h'. intros _. split_and!; [done..|]. by intros ? [= <-].
Qed.

Lemma validate_address_Ok self inv include key :
  validate_received_spark_address (extract_spark_address self inv) include key = Ok () →
  extract_spark_address self inv = if include then
    Some {| address_identity_public_key := key; address_network := ls_network self |} else None.
Proof.
  unfold extract_spark_address. destruct (List.find _ _) as [hop|]; simpl; destruct include; try done.
  by case_decide; subst.
Qed.

(** What the SSP is asked for, and what is stored with the operators. *)
Definition asks_invoice self key hash amount_sats (expiry_secs : option Z) description include
    (input : RequestLightningReceiveInput) : Prop :=
  receiver_identity_pubkey input = Some (hex_encode (public_key_serialize key)) ∧
  rlr_payment_hash input = hex_encode hash ∧ rlr_amount_sats input = amount_sats ∧
  rlr_network input = Network.to_ssp (ls_network self) ∧
  rlr_description_hash input = hex_encode <$> asked_hash description ∧
  rlr_expiry_secs input = Some (default DEFAULT_RECEIVE_EXPIRY_SECS expiry_secs) ∧
  rlr_include_spark_address input = include.

Definition stores_shares self key hash (encoded : string) evs : Prop :=
  ∃ request, evs = [lightning_request (SharesStored request)] ∧ sps_payment_hash request = hash ∧
    invoice_string request = encoded ∧ user_identity_public_key request = public_key_serialize key ∧
    sps_threshold request = ls_split_secret_threshold self.

(** How asking for an invoice may go. *)
Definition received self amount_sats description (external : option (list Z)) expiry_secs include
    (identity : option PublicKey) (r : ServiceResult LightningReceivePayment) evs : Prop :=
  is_Ok r = false ∧ evs = [] ∨
  ∃ key hash input stored, key = default own_identity identity ∧ default hash external = hash ∧
    evs = lightning_request (InvoiceAsked input) :: stored ∧
    asks_invoice self key hash amount_sats expiry_secs description include input ∧
    (is_Ok r = false ∧ stored = [] ∨
     ∃ encoded inv, bolt11_from_str encoded = Ok inv ∧
       as_asked self key hash amount_sats description include inv ∧
       match external with Some _ => stored = [] | None => stores_shares self key hash encoded stored end ∧
       ∀ payment, r = Ok payment → lrp_invoice payment = encoded).

Lemma receive_payment_invoice response payment :
  lightning_receive_payment_try_from response = Ok payment → lrp_invoice payment = lrr_encoded_invoice response.
Proof. by intros (i & _ & (a & _ & [= <-])%bind_Ok)%bind_Ok. Qed.

Lemma store_shares_emits self key hash encoded prepared w :
  emits (store_preimage_shares self key hash encoded prepared) w
    (λ _ js evs, js = [] ∧ stores_shares self key hash encoded evs).
Proof.
  unfold store_preimage_shares. match goal with |- context [client_store_preimage_share_v2 ?x] => set (request := x) end.
  apply emits_bind, returns_call. exists [], [lightning_request (SharesStored request)].
  rewrite log_store_shares, events_store_shares, app_nil_r. split_and!; [done..|]. intros w1.
  apply emits_ret. split; [done|]. by exists request.
Qed.

Lemma create_invoice_emits self amount_sats description preimage external expiry_secs include identity w :
  emits (create_lightning_invoice_inner self amount_sats description preimage external expiry_secs include identity) w
    (λ r js evs, js = [] ∧ received self amount_sats description external expiry_secs include identity r evs).
Proof.
  unfold create_lightning_invoice_inner.
  apply emits_let; [intros [] w1 _|by intros e _; split; [|left]].
  apply (emits_skip _ _ _ (λ key, key = default own_identity identity));
    [destruct identity; [by apply quietly_ret|apply quietly_identity]|intros key w2 Hkey|by intros e; split; [|left]].
  destruct (_ && _); [by apply emits_ret; split; [|left]|].
  apply (emits_skip _ _ _ (λ p, default p.1 external = p.1 ∧ (p.2 = None ↔ is_Some external)));
    [|intros [hash prepared] w3 [Hhash Hprepared]|by intros e; split; [|left]].
  { destruct external as [hash|]; [apply quietly_ret; split; [done|by split]|].
    apply (emits_skip _ _ _ (λ _, True)); [by apply quietly_signer; eauto with calls|intros p w3 _|done].
    apply quietly_ret. split; [done|]. split; [done|by intros [? [=]]]. }
  simpl in Hhash, Hprepared.
  destruct (from_option into_memo_and_description_hash (None, None) description) as [memo dh] eqn:Hdesc.
  assert (dh = asked_hash description) as -> by (by destruct description as [[]|]; injection Hdesc as <- <-).
  match goal with |- context [ssp_request_lightning_receive ?x] => set (input := x) end.
  assert (asks_invoice self key hash amount_sats expiry_secs description include input) as Hasks by (by split_and!).
  apply emits_try. eapply emits_weaken.
  { apply (ssp_lightning_emits _ (lightning_request (InvoiceAsked input)));
      [apply log_ask_invoice|apply events_ask_invoice]. }
  assert (∀ e : ServiceError.t, [] = @nil (FrostJob Sighash) ∧ received self amount_sats description external
    expiry_secs include identity (Err e) [lightning_request (InvoiceAsked input)]) as Hstop.
  { intros e. split; [done|]. right. eexists key, hash, input, []. split_and!; [done..|by left]. }
  intros [response|e] js evs [-> ->]; [|apply Hstop]. intros w4. simpl.
  apply emits_let; [intros inv w5 Hinv|by intros e _].
  unfold decode_invoice in Hinv. destruct (bolt11_from_str _) as [inv'|] eqn:Hparse; [|done]. injection Hinv as ->.
  apply emits_let; [intros [] w6 (Hh & Hn & Ha & Hd)%validate_invoice_Ok|by intros e _].
  apply emits_let; [intros [] w7 Haddr%validate_address_Ok|by intros e _].
  assert (∀ r stored, (match external with Some _ => stored = []
      | None => stores_shares self key hash (lrr_encoded_invoice response) stored end) →
    (∀ payment, r = Ok payment → lrp_invoice payment = lrr_encoded_invoice response) →
    received self amount_sats description external expiry_secs include identity r
      (lightning_request (InvoiceAsked input) :: stored)) as Hout.
  { intros r stored Hstored Hr. right. exists key, hash, input, stored. split_and!; try done. right.
    exists (lrr_encoded_invoice response), inv. by split_and!. }
  destruct prepared as [prepared|].
  - assert (external = None) as Hexternal.
    { destruct external; [|done]. destruct Hprepared as [_ Hex]. discriminate Hex. by eexists. }
    apply emits_try. eapply emits_weaken; [apply store_shares_emits|]. intros r js stored [-> Hstored].
    destruct r as [[]|e]; [intros w8; apply emits_ret|]; (split; [done|]);
      rewrite ?app_nil_r; apply Hout; rewrite ?Hexternal; try done. apply receive_payment_invoice.
  - apply emits_let; [intros [] w8 _; apply emits_ret|by intros e [=]]. split; [done|].
    destruct Hprepared as [Hex _]. destruct (Hex eq_refl) as [h ->].
    apply Hout; [done|]. apply receive_payment_invoice.
Qed.

(** C11: The wallet gives out no invoice but the one it asked for. Whatever the SSP and the
    operators answer, asking for an invoice never panics and signs nothing; an invoice is
    returned, and the shares of its preimage are stored with the operators, only if it can be
    decoded, pays to the hash that was asked for (the caller's, or the one of the signer's
    preimage), on the wallet's network, for the amount that was asked for, with the
    description hash that was asked for, and carries a Spark address exactly when one was
    asked for, and then the receiver's own. Shares are stored, once, exactly when the hash is
    not the caller's. *)
Theorem received_invoices_are_checked self amount_sats description preimage external expiry_secs include identity w :
  returns (create_lightning_invoice_inner self amount_sats description preimage external expiry_secs include identity) w
    (λ r w', ∃ evs, frost_log w' = frost_log w ∧ events w' = events w ++ evs ∧
       received self amount_sats description external expiry_secs include identity r evs).
Proof.
  eapply returns_weaken; [apply create_invoice_emits|]. intros r w' (js & evs & Hlog & Hev & -> & Hr).
  exists evs. rewrite app_nil_r in Hlog. by split_and!.
Qed.
End receive.
