(* ===== verification/LightningSample.v ===== *)
(** * Lightning payments and HTLCs to evaluate on

    The leaves of the sample tree pay an invoice of 29999.5 satoshis, whose text is its
    amount in the SSP's answers; the operators answer the preimage swap with a transfer,
    which they also list. *)

From S2P Require Import Prelude WireBytes Bitcoin BitcoinTx SparkTx TreeModel NodeWire Paging.
From S2P Require Import ExitSample FrostBatch FrostSample RefundJobs RefundJobsSpec TransferModel ServiceCalls.
From S2P Require Import TransferService TransferServiceSpec TransferCompletes SampleWorld.
From S2P Require Import PreimageSwap PreimageSwapSpec LightningService LightningSpec.
Open Scope Z_scope.

#[local] Existing Instances btc68 btctx68 sample_strings sample_signatures.

Definition held_transfer (status : TransferStatus.t) : ProtoTransfer.Transfer :=
  ProtoTransfer.mkTransfer "id" [1] [1] status 30000 None [] None None TransferType.PreimageSwap "".

(** The requests of both services. *)
Definition PaymentRequest : Type := (PreimageRequest + LightningRequest)%type.

Definition any_tx (bytes : list Z) : option tx68 := Some a_tx.
#[local] Instance payment_codec : Codec := world_codec any_tx.
#[local] Instance payment_identifiers : HashIter (@Identifier btc68) := canonical_iter string.
Definition PaymentWorld : Type := SampleWorld PaymentRequest any_tx.

(** The hash of every preimage, and an invoice for it. *)
Definition sample_hash : list Z := [1; 2; 3].
Definition sample_invoice (amount : option Z) (hops : list RouteHintHop) : Bolt11Invoice := {|
  payment_hash := sample_hash; network := BitcoinCrate.Bitcoin; amount_milli_satoshis := amount;
  description := Direct "coffee"; route_hints := [hops] |}.

(** The route hint that names the wallet. *)
Definition own_hop : RouteHintHop := {|
  src_node_id := ("me"%string : @PublicKey btc68);
  short_channel_id := RECEIVER_IDENTITY_PUBLIC_KEY_SHORT_CHANNEL_ID |}.

Definition send_request (transfer : option SspTransfer) : LightningSendRequest := {|
  lsr_id := "request"; lsr_created_at := 1; lsr_updated_at := 1; lsr_network := BitcoinNetwork.Mainnet;
  lsr_encoded_invoice := "to pay"; lsr_fee := {| original_value := 2500; original_unit := Millisatoshi |};
  lsr_idempotency_key := ""; lsr_status := LightningSendRequestStatus.Created; lsr_transfer := transfer;
  lightning_send_payment_preimage := None |}.

Definition receive_request (invoice : string) : LightningReceiveRequest := {|
  lrr_id := "request"; lrr_created_at := 1; lrr_updated_at := 1; lrr_network := BitcoinNetwork.Mainnet;
  lightning_request_status := LightningReceiveRequestStatus.InvoiceCreated;
  lrr_encoded_invoice := invoice; lrr_transfer := None; lightning_receive_payment_preimage := None |}.

Section sample.
(** How many commitments the coordinator gives, and what it lists. *)
Context (count : list string → Z → Z → Z) (listed : list ProtoTransfer.Transfer).

#[local] Instance payment_transfers : TransferEnv PaymentWorld :=
  world_transfers PaymentRequest any_tx count listed.
#[local] Instance payment_transfer_laws : TransferLaws (H1 := payment_transfers) :=
  world_transfer_laws PaymentRequest any_tx count listed.

Definition sample_preimage_env : PreimageEnv PaymentWorld.
Proof using count listed.
  by refine {|
    preimage_transfers := payment_transfers;
    client_initiate_preimage_swap_v3 r w :=
      (Ok (Some (held_transfer TransferStatus.SenderKeyTweakPending)),
       (w.1, w.2 ++ [Requested (inl (SwapInitiated r))]));
    client_provide_preimage r w := (Ok (head listed), (w.1, w.2 ++ [Requested (inl (PreimageProvided r))]));
    client_query_htlc r w := (Ok {| preimage_requests := []; qh_response_offset := 0 |}, w) |}.
Defined.

Definition sample_lightning_env : LightningEnv PaymentWorld.
Proof using count listed.
  by refine {|
    lightning_preimages := sample_preimage_env;
    lightning_clock := world_clock PaymentRequest any_tx;
    bolt11_from_str s := if bool_decide (s = "to pay"%string) then Ok (sample_invoice (Some 29999500) [])
      else if bool_decide (s = "asked"%string) then Ok (sample_invoice (Some 5000000) [own_hop]) else Err "not an invoice"%string;
    prepare_lightning_receive r w :=
      (Ok {| plr_payment_hash := sample_hash; operator_preimage_packages := [] |}, w);
    client_store_preimage_share_v2 r w := (Ok (), (w.1, w.2 ++ [Requested (inr (SharesStored r))]));
    ssp_request_lightning_receive r w :=
      (Ok (receive_request (if rlr_amount_sats r =? 5000 then "asked" else "to pay")),
       (w.1, w.2 ++ [Requested (inr (InvoiceAsked r))]));
    ssp_request_lightning_send r w := (Ok (send_request None), (w.1, w.2 ++ [Requested (inr (PaymentAsked r))]));
    ssp_get_lightning_send_fee_estimate _ _ w := (Ok {| original_value := 2500; original_unit := Millisatoshi |}, w);
    ssp_get_lightning_send_request _ w := (Ok None, w);
    ssp_get_lightning_receive_request _ w := (Ok None, w) |}.
Defined.

Definition sample_preimage_laws : PreimageLaws (H1 := sample_preimage_env).
Proof.
  by refine (Build_PreimageLaws _ _ _ _ _ sample_preimage_env payment_transfer_laws inl _ _ _ _ _ _).
Defined.

Definition sample_lightning_laws : LightningLaws (H1 := sample_lightning_env).
Proof.
  by refine (Build_LightningLaws _ _ _ _ _ sample_lightning_env sample_preimage_laws
    (world_clock_laws PaymentRequest any_tx count listed) inr _ _ _ _ _ _ _ _).
Defined.
End sample.

Definition sample_transfers : TransferService (W := PaymentWorld) :=
  {| split_secret_threshold := 2; all_operators := []; transfer_observer := None |}.
Definition sample_htlcs : HtlcService (W := PaymentWorld) :=
  {| htlc_transfer_service := sample_transfers; htlc_observer := None |}.
Definition sample_lightning : LightningService (W := PaymentWorld) := {|
  ls_ssp_identity_public_key := ("ssp"%string : @PublicKey btc68); ls_network := Network.Mainnet;
  ls_transfer_service := sample_transfers; ls_all_operators := []; ls_split_secret_threshold := 2;
  ls_observer := None |}.

(** ** HTLCs *)

Definition sample_htlc : option (ServiceResult Transfer * PaymentWorld) :=
  create_htlc (PreimageEnv0 := sample_preimage_env commitment_count []) sample_htlcs both_leaves
    ("bob"%string : @PublicKey btc68) sample_hash 5000 None ([], []).

(** Two shares for each leaf and each way to the receiver, and one request. *)
Lemma htlc_runs : world_summary sample_htlc = Some (true, 8%nat, 1%nat).
Proof. vm_compute. reflexivity. Qed.

Example htlcs_start_once_witness :
  ∃ r w', sample_htlc = Some (r, w') ∧ length w'.1 = 8%nat ∧
    payment_shares (H1 := sample_preimage_env commitment_count []) (H2 := sample_preimage_laws commitment_count [])
      sample_hash both_leaves ("bob"%string : @PublicKey btc68) w'.1 ∧
    ∃ i st, initiates (H2 := sample_preimage_laws commitment_count [])
      (htlc_swap i both_leaves ("bob"%string : @PublicKey btc68) sample_hash 5000 st) w'.2.
Proof.
  pose proof (htlcs_start_once (H2 := sample_preimage_laws commitment_count []) sample_htlcs both_leaves
    ("bob"%string : @PublicKey btc68) sample_hash 5000 None ([], [])) as Hhtlc.
  pose proof htlc_runs as Hsum. unfold sample_htlc in *. unfold ends_in in Hhtlc.
  destruct (create_htlc _ _ _ _ _ _ _) as [[r w']|]; [|discriminate Hsum].
  destruct Hhtlc as (i & js & evs & Hjs & Hev & _ & Hshares & Hout); [intros f Hf; discriminate Hf|].
  change (w'.1 = js) in Hjs. change (w'.2 = evs) in Hev. subst js evs.
  unfold world_summary in Hsum. injection Hsum as Hok Hlen Hone. exists r, w'.
  split; [reflexivity|]. split; [exact Hlen|]. split; [exact Hshares|].
  destruct Hout as [(Hno & _)|(st & _ & [Hin|Hnil] & _)].
  - rewrite Hno in Hok. discriminate Hok.
  - by exists i, st.
  - rewrite Hnil in Hone. discriminate Hone.
Defined.

(** The coordinator gives five commitments where six are needed: the last batch is short,
    which the check of their number lets pass. *)
Definition one_missing (ids : list string) (n m : Z) : Z := commitment_count ids n m - 1.

Example short_chunk_panics :
  world_summary (swap_nodes_for_preimage (PreimageEnv0 := sample_preimage_env one_missing []) {|
    sn_transfer_id := "id"; sn_leaves := prepare_leaf_key_tweaks_to_send both_leaves;
    sn_receiver_pubkey := ("bob"%string : @PublicKey btc68); sn_payment_hash := sample_hash;
    sn_invoice_str := None; sn_amount_sats := 30000; sn_fee_sats := 0; sn_is_inbound_payment := false;
    sn_transfer_request := None; sn_expiry_time := 5000 |} (([], []) : PaymentWorld)) = None.
Proof. vm_compute. reflexivity. Qed.

(** ** Payments *)

Definition sample_payment : option (ServiceResult PayLightningResult * PaymentWorld) :=
  send_lightning_inner (LightningEnv0 := sample_lightning_env commitment_count []) sample_lightning "id"
    both_leaves "to pay" None None ([], []).

Lemma payment_runs : world_summary sample_payment = Some (true, 8%nat, 2%nat).
Proof. vm_compute. reflexivity. Qed.

Example lightning_sends_in_order_witness :
  ∃ r w', sample_payment = Some (r, w') ∧ length w'.1 = 8%nat ∧ length w'.2 = 2%nat ∧
    ∃ inv amount, priced inv None amount ∧
      paid (H2 := sample_lightning_laws commitment_count []) sample_lightning "id" both_leaves "to pay" None
        inv amount r w'.1 w'.2.
Proof.
  pose proof (lightning_sends_in_order (H2 := sample_lightning_laws commitment_count []) sample_lightning "id"
    both_leaves "to pay" None None ([], [])) as Hpay.
  pose proof payment_runs as Hsum. unfold sample_payment in *. unfold ends_in in Hpay.
  destruct (send_lightning_inner _ _ _ _ _ _ _) as [[r w']|]; [|discriminate Hsum].
  destruct Hpay as (js & evs & Hjs & Hev & Hout); [intros f Hf; discriminate Hf|].
  change (w'.1 = js) in Hjs. change (w'.2 = evs) in Hev. subst js evs.
  unfold world_summary in Hsum. injection Hsum as Hok Hlen Htwo. exists r, w'.
  split; [reflexivity|]. split; [exact Hlen|]. split; [exact Htwo|].
  destruct Hout as [(Hno & _)|(inv & amount & _ & Hprice & Hpaid)];
    [rewrite Hno in Hok; discriminate Hok|]. by exists inv, amount.
Defined.

(** A held payment is resumed, a completed one is not. *)
Example payments_resume :
  world_summary (resume_lightning_send
    (LightningEnv0 := sample_lightning_env commitment_count [held_transfer TransferStatus.SenderKeyTweakPending])
    "id" "to pay" None (([], []) : PaymentWorld)) = Some (true, 0%nat, 1%nat) ∧
  world_summary (resume_lightning_send
    (LightningEnv0 := sample_lightning_env commitment_count [held_transfer TransferStatus.Completed])
    "id" "to pay" None (([], []) : PaymentWorld)) = Some (true, 0%nat, 0%nat).
Proof. split; vm_compute; reflexivity. Qed.

(** The invoice that was asked for is given out and its shares are stored; another one is not. *)
Example invoices_are_checked :
  world_summary (create_lightning_invoice (LightningEnv0 := sample_lightning_env commitment_count [])
    sample_lightning 5000 (Some (Memo "coffee")) None None true None (([], []) : PaymentWorld)) =
    Some (true, 0%nat, 2%nat) ∧
  world_summary (create_lightning_invoice (LightningEnv0 := sample_lightning_env commitment_count [])
    sample_lightning 6000 (Some (Memo "coffee")) None None true None (([], []) : PaymentWorld)) =
    Some (false, 0%nat, 1%nat).
Proof. split; vm_compute; reflexivity. Qed.
