(* ===== verification/LeafPlan.v ===== *)
(** * Planning leaf optimizations: [spark/src/tree/leaf_optimizer.rs]

    The pure part of the optimizer: the two target shapes, the swap plans that
    turn a wallet into them, and the counters they are computed with. Amounts are
    [u64]; [None] is a panic ([chunks(0)]) or a loop out of fuel, and the theorems
    exclude both for the configurations [validate] accepts. *)

From S2P Require Import Prelude Bitcoin TreeModel LeafSelect.

Definition MAX_PLANNING_ITERATIONS : nat := 8.
Definition DEFAULT_MAX_LEAVES_PER_SWAP : Z := 64.

Record LeafOptimizationOptions := {
  multiplicity : Z;
  max_leaves_per_swap : Z;
}.

(** [LeafOptimizationOptions::default()] *)
Definition LeafOptimizationOptions_default : LeafOptimizationOptions :=
  {| multiplicity := 1; max_leaves_per_swap := DEFAULT_MAX_LEAVES_PER_SWAP |}.

Definition validate (self : LeafOptimizationOptions) : TreeResult unit :=
  if max_leaves_per_swap self =? 0
  then Err (TreeServiceError.Generic "max_leaves_per_swap must be greater than 0")
  else Ok ().

Record SwapPlan := {
  leaves_to_give : list Z;
  leaves_to_receive : list Z;
}.

Record OptimizationPlan := {
  swaps : list SwapPlan;
  fully_converges : bool;
}.

(** [sort()] on [u64]s. *)
Definition sort : list Z → list Z := stable_sort Z.leb.

(** ** The target shapes *)

(** The inner [while] of [greedy_leaves]; the value is below twice the power, so
    two rounds are enough. *)
Fixpoint push_power (fuel : nat) (power value : Z) (result : list Z) : list Z * Z :=
  match fuel with
  | O => (result, value)
  | S fuel =>
      if power <=? value then push_power fuel power (value - power) (result ++ [power])
      else (result, value)
  end.

(** The outer [while]: 64 powers and one last test. *)
Fixpoint push_powers (fuel : nat) (power value : Z) (result : list Z) : list Z :=
  match fuel with
  | O => result
  | S fuel =>
      if (0 <? value) && (0 <? power) then
        let '(result, value) := push_power 2 power value result in
        push_powers fuel (power / 2) value result
      else result
  end.

Definition greedy_leaves (value : Z) : list Z := sort (push_powers 65 (2 ^ 63) value []).

(** [for _ in 0..multiplicity] *)
Fixpoint push_copies (multiplicity : nat) (power remaining : Z) (result : list Z) : Z * list Z :=
  match multiplicity with
  | O => (remaining, result)
  | S multiplicity =>
      if power <=? remaining
      then push_copies multiplicity power (remaining - power) (result ++ [power])
      else push_copies multiplicity power remaining result
  end.

(** The [while power <= amount] loop: it breaks at [2^63], after 64 rounds. *)
Fixpoint minimizing_loop (fuel : nat) (amount : Z) (multiplicity : nat) (power remaining : Z)
    (result : list Z) : Z * list Z :=
  match fuel with
  | O => (remaining, result)
  | S fuel =>
      if power <=? amount then
        let '(remaining, result) := push_copies multiplicity power remaining result in
        if (2 ^ 64 - 1) / 2 <? power then (remaining, result)
        else minimizing_loop fuel amount multiplicity (power * 2) remaining result
      else (remaining, result)
  end.

Definition swap_minimizing_leaves (amount multiplicity : Z) : list Z :=
  let '(remaining, result) := minimizing_loop 64 amount (Z.to_nat multiplicity) 1 amount [] in
  sort (result ++ greedy_leaves remaining).

(** ** Counters *)

Section plan.
Context `{!HashIter Z}.

Definition count_occurrences (values : list Z) : gmap Z Z :=
  foldl (λ counter v, <[v := default 0 (counter !! v) + 1]> counter) ∅ values.

Definition subtract_counters (a b : gmap Z Z) : gmap Z Z :=
  foldl (λ result '(k, v),
    let b_count := default 0 (b !! k) in
    if b_count <? v then <[k := v - b_count]> result else result) ∅ (hm_iter a).

Definition counter_to_flat_array (counter : gmap Z Z) : list Z :=
  sort (hm_keys counter) ≫= λ k, replicate (Z.to_nat (default 0 (counter !! k))) k.

(** ** Maximizing what a unilateral exit recovers *)

Definition push_swap (batch : list Z) (swaps : list SwapPlan) : list SwapPlan :=
  let target := greedy_leaves (sum_wrap 64 batch) in
  if bool_decide (target ≠ batch)
  then swaps ++ [{| leaves_to_give := batch; leaves_to_receive := target |}] else swaps.

(** The [while !leaves.is_empty()] loop. *)
Fixpoint exit_loop (max_leaves : nat) (leaves batch : list Z) (swaps : list SwapPlan)
    : list Z * list SwapPlan :=
  match leaves with
  | [] => (batch, swaps)
  | leaf :: leaves =>
      let batch := batch ++ [leaf] in
      let target := greedy_leaves (sum_wrap 64 batch) in
      if (max_leaves <=? length batch)%nat || (max_leaves <=? length target)%nat
      then exit_loop max_leaves leaves [] (push_swap batch swaps)
      else exit_loop max_leaves leaves batch swaps
  end.

Definition maximize_unilateral_exit (input_leave_amounts : list Z) (max_leaves_per_swap : Z)
    : OptimizationPlan :=
  let max_leaves := Z.to_nat max_leaves_per_swap in
  let leaves := sort input_leave_amounts in
  let '(batch, swaps) := exit_loop max_leaves leaves [] [] in
  {| swaps := if bool_decide (batch = []) then swaps else push_swap batch swaps;
     fully_converges := (length leaves <=? max_leaves)%nat |}.

(** ** Minimizing the swaps transfers need *)

(** [slice::chunks], which panics on size 0. *)
Fixpoint chunks_loop (fuel n : nat) (l : list Z) : list (list Z) :=
  match fuel, l with
  | _, [] | O, _ => []
  | S fuel, _ => take n l :: chunks_loop fuel n (drop n l)
  end.

Definition chunks (n : nat) (l : list Z) : option (list (list Z)) :=
  match n with O => None | S _ => Some (chunks_loop (length l) n l) end.

(** [for cutoff in (1..=max_leaves).rev()] *)
Fixpoint find_cutoff (cutoff max_leaves : nat) (give_sum : Z) (to_give to_receive : list Z)
    : option SwapPlan :=
  match cutoff with
  | O => None
  | S cutoff' =>
      let sum_cut := sum_wrap 64 (take cutoff to_receive) in
      let remainder := usub 64 give_sum sum_cut in
      let alternate := take cutoff to_receive ++ greedy_leaves remainder in
      if (length alternate <=? max_leaves)%nat
      then Some {| leaves_to_give := to_give; leaves_to_receive := alternate |}
      else find_cutoff cutoff' max_leaves give_sum to_give to_receive
  end.

Definition greedy_swap (chunk : list Z) : SwapPlan :=
  {| leaves_to_give := chunk; leaves_to_receive := greedy_leaves (sum_wrap 64 chunk) |}.

(** The swaps for a balanced pair of batches, and whether they have the optimal
    shape. *)
Definition emit_batches (max_leaves : nat) (to_give to_receive : list Z)
    : option (list SwapPlan * bool) :=
  if (max_leaves <? length to_give)%nat then
    cs ← chunks max_leaves to_give;
    Some (greedy_swap <$> (cs : list (list Z)), false)
  else if (max_leaves <? length to_receive)%nat then
    Some (match find_cutoff max_leaves max_leaves (sum_wrap 64 to_give) to_give to_receive with
          | Some swap => [swap]
          | None => []
          end, false)
  else Some ([{| leaves_to_give := to_give; leaves_to_receive := to_receive |}], true).

(** One step of the batch that lags behind; [None] is [break]. *)
Definition advance (give receive to_give to_receive : list Z)
    : option (list Z * list Z * list Z * list Z) :=
  if sum_wrap 64 to_receive <? sum_wrap 64 to_give then
    match receive with
    | [] => None
    | x :: receive => Some (give, receive, to_give, to_receive ++ [x])
    end
  else
    match give with
    | [] => None
    | x :: give => Some (give, receive, to_give ++ [x], to_receive)
    end.

Fixpoint balance_loop (fuel max_leaves : nat) (give receive to_give to_receive : list Z)
    (swaps : list SwapPlan) (fully_converges : bool) : option OptimizationPlan :=
  match fuel with
  | O => None
  | S fuel =>
      let plan := {| swaps := swaps; fully_converges := fully_converges |} in
      if bool_decide (give = []) && bool_decide (receive = []) then Some plan
      else
        match advance give receive to_give to_receive with
        | None => Some plan
        | Some (give, receive, to_give, to_receive) =>
            if bool_decide (to_give ≠ []) && bool_decide (to_receive ≠ [])
               && (sum_wrap 64 to_give =? sum_wrap 64 to_receive)
            then
              '(more, optimal) ← emit_batches max_leaves to_give to_receive;
              balance_loop fuel max_leaves give receive [] [] (swaps ++ more)
                (fully_converges && optimal)
            else balance_loop fuel max_leaves give receive to_give to_receive swaps fully_converges
        end
  end.

Definition minimize_transfer_swap (input_leave_amounts : list Z)
    (multiplicity max_leaves_per_swap : Z) : option OptimizationPlan :=
  let max_leaves := Z.to_nat max_leaves_per_swap in
  let balance := sum_wrap 64 input_leave_amounts in
  let optimal_leaves := swap_minimizing_leaves balance multiplicity in
  let wallet_counter := count_occurrences input_leave_amounts in
  let optimal_counter := count_occurrences optimal_leaves in
  let give := counter_to_flat_array (subtract_counters wallet_counter optimal_counter) in
  let receive := counter_to_flat_array (subtract_counters optimal_counter wallet_counter) in
  if negb (sum_wrap 64 give =? sum_wrap 64 receive)
  then Some {| swaps := []; fully_converges := false |}
  else balance_loop (S (length give + length receive)) max_leaves give receive [] [] [] true.

Definition calculate_optimization_swaps (input_leave_amounts : list Z)
    (multiplicity max_leaves_per_swap : Z) : option OptimizationPlan :=
  if multiplicity =? 0
  then Some (maximize_unilateral_exit input_leave_amounts max_leaves_per_swap)
  else minimize_transfer_swap input_leave_amounts multiplicity max_leaves_per_swap.

(** [LeafOptimizer::should_optimize], on the leaves' values. *)
Definition should_optimize (config : LeafOptimizationOptions) (leaves : list Z) : bool :=
  if multiplicity config =? 0 then
    let plan := maximize_unilateral_exit leaves (max_leaves_per_swap config) in
    let num_inputs := length (swaps plan ≫= leaves_to_give) in
    let num_outputs := length (swaps plan ≫= leaves_to_receive) in
    (num_outputs <? num_inputs)%nat
  else true.
End plan.
