(* ===== verification/LeafPlanSpec.v ===== *)
(** * Correctness of the optimizer's plans

    The two target shapes (fewest leaves; every amount payable without a swap)
    and the plans that lead to them: every planned swap gives leaves the wallet
    has, is worth what it costs and respects the size limit, and a plan marked
    as converging reaches its target shape. *)

From S2P Require Import Prelude Bitcoin TreeModel LeafSelect LeafPlan.

(** ** Powers of two *)

Lemma pow2_intro n : 0 ≤ n → pow2 (2 ^ n).
Proof. intros. by exists n. Qed.

Lemma pow2_double v : pow2 v → pow2 (2 * v).
Proof. intros (n & ? & ->). exists (n + 1). split; [lia|]. rewrite Z.pow_add_r; lia. Qed.

Lemma pow2_lt v w : pow2 v → pow2 w → v < w → (2 * v | w).
Proof.
  intros Hv Hw Hlt. apply pow2_divide; [by apply pow2_double|done|].
  destruct Hv as (n & ? & ->), Hw as (m & ? & ->).
  apply Z.pow_lt_mono_r_iff in Hlt; [|lia..].
  replace (2 * 2 ^ n) with (2 ^ (n + 1)) by (rewrite Z.pow_add_r; lia).
  apply Z.pow_le_mono_r; lia.
Qed.

Lemma pow2_list_nonneg l : Forall pow2 l → Forall (λ x, 0 ≤ x) l.
Proof. intros Hl. eapply Forall_impl; [done|]. intros x ?%pow2_pos. lia. Qed.

Lemma sumZ_divide d l : Forall (λ x, (d | x)) l → (d | sumZ l).
Proof.
  induction 1; simpl; [apply Z.divide_0_r|]. by apply Z.divide_add_r.
Qed.

Lemma sumZ_elem l x : Forall (λ x, 0 ≤ x) l → x ∈ l → x ≤ sumZ l.
Proof.
  intros Hl. induction Hl as [|y l Hy Hl IH]; [by intros ?%elem_of_nil|].
  apply sumZ_nonneg in Hl. intros [->|Hx]%elem_of_cons; simpl; [lia|]. apply IH in Hx. lia.
Qed.

(** Strictly ascending powers of two are the binary digits of their sum. *)
Lemma ascending_unique l k :
  Forall pow2 l → StronglySorted Z.lt l → Forall pow2 k → StronglySorted Z.lt k →
  sumZ l = sumZ k → l = k.
Proof.
  intros Hl Hsl. revert k. induction Hsl as [|x l Hsl IH Hx]; intros k Hk Hsk Hsum.
  - destruct Hk as [|y k Hy Hk]; [done|exfalso]. apply pow2_pos in Hy.
    apply pow2_list_nonneg, sumZ_nonneg in Hk. simpl in Hsum. lia.
  - apply Forall_cons in Hl as [Hpx Hl]. destruct Hsk as [|y k Hsk Hy].
    { exfalso. apply pow2_pos in Hpx. apply pow2_list_nonneg, sumZ_nonneg in Hl.
      simpl in Hsum. lia. }
    apply Forall_cons in Hk as [Hpy Hk].
    assert (∀ a la b lb, pow2 a → Forall pow2 la → Forall (Z.lt a) la →
      pow2 b → Forall pow2 lb → Forall (Z.lt b) lb → sumZ (a :: la) = sumZ (b :: lb) → ¬ a < b)
      as Hno.
    { clear. intros a la b lb Ha Hla Hals Hb Hlb Hbls Heq Hlt.
      assert ((2 * a | sumZ la)) as [q Hq].
      { apply sumZ_divide. rewrite Forall_forall in *. intros z Hz. apply pow2_lt; auto. }
      assert ((2 * a | sumZ (b :: lb))) as [r Hr].
      { apply sumZ_divide. constructor; [by apply pow2_lt|]. rewrite Forall_forall in *.
        intros z Hz. apply pow2_lt; [done|auto|]. specialize (Hbls z Hz). lia. }
      apply pow2_pos in Ha. simpl in Heq, Hr. rewrite Hr, Hq in Heq.
      assert (a * (1 + 2 * (q - r)) = 0) as Hz by lia.
      apply Z.mul_eq_0 in Hz. lia. }
    assert (x = y) as <-.
    { destruct (Z.lt_total x y) as [?|[?|?]]; [|done|].
      - by destruct (Hno x l y k).
      - by destruct (Hno y k x l). }
    f_equal. apply IH; [done|done|done|]. simpl in Hsum. lia.
Qed.

(** ** [greedy_leaves] *)

Lemma push_power_twice p v res :
  0 < p → 0 ≤ v < 2 * p →
  push_power 2 p v res = if p <=? v then (res ++ [p], v - p) else (res, v).
Proof.
  intros. simpl. destruct (Z.leb_spec p v); [|done].
  destruct (Z.leb_spec p (v - p)); [lia|done].
Qed.

Lemma push_powers_spec (k : nat) v res :
  0 ≤ v < 2 * 2 ^ Z.of_nat k →
  ∃ l, push_powers (S (S k)) (2 ^ Z.of_nat k) v res = res ++ l ∧ sumZ l = v ∧
    Forall (λ x, pow2 x ∧ x ≤ 2 ^ Z.of_nat k) l ∧ StronglySorted (λ x y, y < x) l.
Proof.
  revert v res. induction k as [|k IH]; intros v res Hv.
  - simpl. destruct (Z.ltb_spec 0 v) as [Hpos|]; simpl.
    + assert (v = 1) as -> by (simpl in Hv; lia). simpl. exists [1].
      split_and!; [done|done| |by repeat constructor].
      constructor; [|done]. split; [by apply (pow2_intro 0)|lia].
    + exists []. rewrite app_nil_r. split_and!; [done|simpl; lia|done|constructor].
  - change (push_powers (S (S (S k))) (2 ^ Z.of_nat (S k)) v res) with
      (if (0 <? v) && (0 <? 2 ^ Z.of_nat (S k)) then
        let '(result, value) := push_power 2 (2 ^ Z.of_nat (S k)) v res in
        push_powers (S (S k)) (2 ^ Z.of_nat (S k) / 2) value result else res).
    assert (2 ^ Z.of_nat (S k) = 2 * 2 ^ Z.of_nat k) as Hp.
    { rewrite Nat2Z.inj_succ, Z.pow_succ_r; lia. }
    assert (0 < 2 ^ Z.of_nat k) as Hpos by (apply Z.pow_pos_nonneg; lia).
    assert (2 ^ Z.of_nat (S k) / 2 = 2 ^ Z.of_nat k) as Hd.
    { rewrite Hp, Z.mul_comm. by apply Z.div_mul. }
    destruct (Z.ltb_spec 0 v) as [Hv0|].
    2:{ exists []. rewrite app_nil_r. split_and!; [done|simpl; lia|done|constructor]. }
    rewrite (proj2 (Z.ltb_lt 0 _)) by lia. cbn [andb].
    rewrite push_power_twice by lia. rewrite Hd.
    assert (∀ l, Forall (λ x, pow2 x ∧ x ≤ 2 ^ Z.of_nat k) l →
      Forall (λ x, pow2 x ∧ x ≤ 2 ^ Z.of_nat (S k)) l) as Hmono.
    { intros l Hl. eapply Forall_impl; [done|]. intros x [? ?]. split; [done|lia]. }
    destruct (Z.leb_spec (2 ^ Z.of_nat (S k)) v).
    + destruct (IH (v - 2 ^ Z.of_nat (S k)) (res ++ [2 ^ Z.of_nat (S k)])) as (l & -> & Hs & Hl & Hd');
        [lia|].
      exists (2 ^ Z.of_nat (S k) :: l). rewrite <- app_assoc. split_and!; [done|simpl; lia| |].
      * constructor; [|by apply Hmono]. split; [apply pow2_intro; lia|lia].
      * constructor; [done|]. eapply Forall_impl; [done|]. intros x [? ?]. lia.
    + destruct (IH v res) as (l & -> & Hs & Hl & Hd'); [lia|].
      exists l. split_and!; [done|done|by apply Hmono|done].
Qed.

Lemma sort_perm l : sort l ≡ₚ l.
Proof. apply stable_sort_perm. Qed.

Lemma sort_sorted l : StronglySorted Z.le (sort l).
Proof.
  eapply StronglySorted_impl; [|apply stable_sort_sorted].
  - intros x y ?%Z.leb_le. done.
  - intros x y. rewrite !Z.leb_le. lia.
  - intros x y z. rewrite !Z.leb_le. lia.
Qed.

Lemma sorted_le_lt l : StronglySorted Z.le l → NoDup l → StronglySorted Z.lt l.
Proof.
  induction 1 as [|x l Hl IH Hx]; [constructor|]. intros [Hn Hnd]%NoDup_cons.
  constructor; [by apply IH|]. rewrite Forall_forall in *. intros y Hy.
  specialize (Hx y Hy). assert (x ≠ y) by (by intros ->). lia.
Qed.

Lemma sort_strict l : NoDup l → StronglySorted Z.lt (sort l).
Proof. intros Hl. apply sorted_le_lt; [apply sort_sorted|]. by rewrite sort_perm. Qed.

Lemma greedy_leaves_spec v :
  in_uint 64 v →
  sumZ (greedy_leaves v) = v ∧ Forall pow2 (greedy_leaves v) ∧
  StronglySorted Z.lt (greedy_leaves v).
Proof.
  intros [Hv0 Hv1]. unfold greedy_leaves.
  destruct (push_powers_spec 63 v []) as (l & Heq & Hs & Hl & Hd).
  { change (2 * 2 ^ Z.of_nat 63) with (2 ^ 64). lia. }
  change (2 ^ Z.of_nat 63) with (2 ^ 63) in Heq. rewrite Heq. simpl. split_and!.
  - by rewrite (sumZ_perm _ l) by apply sort_perm.
  - rewrite sort_perm. eapply Forall_impl; [done|]. by intros x [? _].
  - apply sort_strict. clear -Hd. induction Hd as [|x l Hd IH Hx]; [constructor|].
    constructor; [|done]. rewrite Forall_forall in Hx. intros Hin. specialize (Hx x Hin). lia.
Qed.

(** Repeated denominations can be merged, so no list is shorter. *)
Lemma duplicate_split (l : list Z) : ¬ NoDup l → ∃ x k, l ≡ₚ x :: x :: k.
Proof.
  induction l as [|x l IH]; intros Hn; [by destruct Hn; constructor|].
  destruct (decide (x ∈ l)) as [Hx|Hx].
  - apply elem_of_Permutation in Hx as [k Hk]. exists x, k. by rewrite Hk.
  - destruct IH as (y & k & Hk); [by intros ?; apply Hn; constructor|].
    exists y, (x :: k). by rewrite Hk, (Permutation_swap y x (y :: k)), (Permutation_swap y x k).
Qed.

Lemma greedy_fewest (n : nat) l v :
  (length l ≤ n)%nat → in_uint 64 v → Forall pow2 l → sumZ l = v →
  (length (greedy_leaves v) ≤ length l)%nat.
Proof.
  intros Hn Hv. revert l Hn. induction n as [|n IH]; intros l Hn Hl Hs.
  { destruct l; simpl in *; [|lia]. subst v. done. }
  destruct (decide (NoDup l)) as [Hnd|Hnd].
  - destruct (greedy_leaves_spec v Hv) as (Hgs & Hgp & Hgd).
    rewrite (ascending_unique (greedy_leaves v) (sort l)); [by rewrite sort_perm|done|done| | |].
    + by rewrite sort_perm.
    + by apply sort_strict.
    + rewrite Hgs, (sumZ_perm _ l); [done|]. apply sort_perm.
  - apply duplicate_split in Hnd as (x & k & Hk). rewrite Hk in Hl, Hn |- *.
    rewrite (sumZ_perm _ _ Hk) in Hs. simpl in *.
    apply Forall_cons in Hl as [Hx [_ Hl]%Forall_cons].
    specialize (IH (2 * x :: k)). simpl in IH.
    apply Nat.le_trans with (S (length k)); [|lia]. apply IH; [lia| |lia].
    constructor; [by apply pow2_double|done].
Qed.

(** [greedy_leaves] splits any [u64] into distinct powers of two in ascending
    order that add up to it: its binary digits, and the fewest leaves of power of
    two denominations that can carry the value. *)
Theorem greedy_leaves_optimal v :
  in_uint 64 v →
  sumZ (greedy_leaves v) = v ∧ Forall pow2 (greedy_leaves v) ∧
  StronglySorted Z.lt (greedy_leaves v) ∧
  ∀ l, Forall pow2 l → sumZ l = v → (length (greedy_leaves v) ≤ length l)%nat.
Proof.
  intros Hv. destruct (greedy_leaves_spec v Hv) as (? & ? & ?). split_and!; try done.
  intros l. by apply (greedy_fewest (length l)).
Qed.

Lemma ascending_length (n : nat) l :
  Forall pow2 l → StronglySorted Z.lt l → sumZ l < 2 ^ Z.of_nat n → (length l ≤ n)%nat.
Proof.
  intros Hp Hs Hb. pose proof (pow2_list_nonneg l Hp) as Hnn.
  assert (NoDup l) as Hnd.
  { clear -Hs. induction Hs as [|x l Hs IH Hx]; [constructor|]. constructor; [|done].
    rewrite Forall_forall in Hx. intros Hin. specialize (Hx x Hin). lia. }
  assert (l ⊆+ (λ k, 2 ^ Z.of_nat k) <$> seq 0 n) as Hsub.
  { apply NoDup_submseteq; [done|]. intros x Hx.
    rewrite Forall_forall in Hp. destruct (Hp x Hx) as (m & Hm & Heq).
    pose proof (sumZ_elem l x Hnn Hx). apply list_elem_of_fmap. exists (Z.to_nat m).
    rewrite Z2Nat.id by done. split; [done|]. apply elem_of_seq. split; [lia|].
    assert (m < Z.of_nat n); [|lia]. apply (Z.pow_lt_mono_r_iff 2); lia. }
  apply submseteq_length in Hsub. by rewrite length_fmap, length_seq in Hsub.
Qed.

Lemma greedy_length (n : nat) v :
  (n ≤ 64)%nat → 0 ≤ v < 2 ^ Z.of_nat n → (length (greedy_leaves v) ≤ n)%nat.
Proof.
  intros Hn Hv. assert (2 ^ Z.of_nat n ≤ 2 ^ 64) by (apply Z.pow_le_mono_r; lia).
  destruct (greedy_leaves_spec v) as (Hs & ? & ?); [split; lia|].
  apply ascending_length; [done|done|lia].
Qed.

(** ** [swap_minimizing_leaves] *)

(** Every amount up to the total is the sum of some of the leaves. *)
Definition pays_all (l : list Z) : Prop :=
  ∀ t, 0 ≤ t ≤ sumZ l → ∃ s, s ⊆+ l ∧ sumZ s = t.

Lemma pays_all_nil : pays_all [].
Proof. intros t Ht. exists []. simpl in *. split; [done|lia]. Qed.

Lemma pays_all_cons x l : 0 ≤ x ≤ 1 + sumZ l → pays_all l → pays_all (x :: l).
Proof.
  intros Hx Hl t Ht. simpl in Ht. destruct (Z.le_gt_cases t (sumZ l)).
  - destruct (Hl t) as (s & ? & ?); [lia|]. exists s. split; [by apply submseteq_cons|done].
  - destruct (Hl (t - x)) as (s & ? & ?); [lia|]. exists (x :: s).
    split; [by apply submseteq_skip|simpl; lia].
Qed.

Lemma pays_all_perm l k : l ≡ₚ k → pays_all l → pays_all k.
Proof.
  intros Hlk Hl t Ht. rewrite <- (sumZ_perm l k) in Ht by done.
  destruct (Hl t Ht) as (s & ? & ?). exists s. by rewrite <- Hlk.
Qed.

Lemma pays_all_app l k :
  pays_all l → Forall (λ x, 0 ≤ x ≤ 1 + sumZ l) k → pays_all (l ++ k).
Proof.
  intros Hl Hk. assert (∀ k', Forall (λ x, 0 ≤ x ≤ 1 + sumZ l) k' →
    0 ≤ sumZ k' ∧ pays_all (k' ++ l)) as Hgen.
  { induction 1 as [|x k' Hx _ [IHs IH]]; [done|]. simpl. split; [lia|].
    apply pays_all_cons; [rewrite sumZ_app; lia|done]. }
  eapply pays_all_perm; [apply Permutation_app_comm|]. by apply Hgen.
Qed.

Lemma push_copies_spec m p rem res :
  0 < p → 0 ≤ rem →
  ∃ c, push_copies m p rem res = (rem - Z.of_nat c * p, res ++ replicate c p) ∧
    (c ≤ m)%nat ∧ 0 ≤ rem - Z.of_nat c * p ∧ (c = 0%nat → m = 0%nat ∨ rem < p).
Proof.
  intros Hp. revert rem res. induction m as [|m IH]; intros rem res Hr; simpl.
  { exists 0%nat. rewrite app_nil_r. split_and!; [f_equal; lia|lia|lia|by left]. }
  destruct (Z.leb_spec p rem).
  - destruct (IH (rem - p) (res ++ [p])) as (c & -> & ? & ? & _); [lia|]. exists (S c).
    rewrite <- app_assoc. simpl. split_and!; [f_equal; lia|lia|lia|done].
  - destruct (IH rem res) as (c & -> & ? & ? & ?); [lia|]. exists c. split_and!; [done|lia|lia|lia].
Qed.

Record minimizing_inv (amount rem : Z) (res : list Z) : Prop := {
  mi_rem : 0 ≤ rem;
  mi_pow : Forall pow2 res;
  mi_sum : sumZ res + rem = amount;
  mi_pays : pays_all res;
}.

Lemma push_copies_inv amount rem res m p :
  pow2 p → (0 < m)%nat → minimizing_inv amount rem res →
  p ≤ 1 + sumZ res ∨ rem < p →
  let '(rem', res') := push_copies m p rem res in
  minimizing_inv amount rem' res' ∧ sumZ res ≤ sumZ res' ∧
  ((rem' = rem ∧ res' = res ∧ rem < p) ∨ sumZ res + p ≤ sumZ res').
Proof.
  intros Hp Hm [Hr Hpw Hs Hpay] Hor. pose proof (pow2_pos p Hp).
  destruct (push_copies_spec m p rem res) as (c & -> & Hc & Hrem & H0); [done|done|].
  assert (sumZ (res ++ replicate c p) = sumZ res + Z.of_nat c * p) as Hsum.
  { by rewrite sumZ_app, sumZ_replicate. }
  assert (Forall pow2 (replicate c p)) as Hrep.
  { apply Forall_forall. by intros x [-> _]%elem_of_replicate. }
  assert (c = 0%nat ∨ p ≤ 1 + sumZ res) as Hc0.
  { destruct Hor; [by right|left]. destruct c; [done|nia]. }
  split_and!.
  - split; [lia|by apply Forall_app|lia|]. apply pays_all_app; [done|].
    apply Forall_forall. intros x [-> ?]%elem_of_replicate. destruct Hc0; lia.
  - nia.
  - destruct c as [|c]; [left|right; nia]. simpl. rewrite app_nil_r.
    split_and!; [lia|done|]. destruct H0; lia.
Qed.

(** The state of the loop at power [2^i]. *)
Lemma minimizing_loop_spec fuel (i : nat) amount m rem res :
  (0 < m)%nat → (i ≤ 63)%nat → (64 ≤ fuel + i)%nat → amount < 2 ^ 64 →
  minimizing_inv amount rem res →
  (2 ^ Z.of_nat i ≤ 1 + sumZ res ∨ (rem < 2 ^ Z.of_nat i ∧ rem ≤ sumZ res)) →
  let '(rem', res') := minimizing_loop fuel amount m (2 ^ Z.of_nat i) rem res in
  minimizing_inv amount rem' res' ∧ rem' ≤ sumZ res'.
Proof.
  intros Hm. revert i rem res. induction fuel as [|fuel IH]; intros i rem res Hi Hf Ha Hinv Hor; [lia|].
  assert (pow2 (2 ^ Z.of_nat i)) as Hp by (apply pow2_intro; lia).
  simpl. destruct (Z.leb_spec (2 ^ Z.of_nat i) amount) as [Hle|Hgt].
  2:{ split; [done|]. destruct Hinv as [Hr Hpw Hs _]. destruct Hor as [?|?]; [|lia].
      pose proof (sumZ_nonneg res (pow2_list_nonneg _ Hpw)). lia. }
  pose proof (push_copies_inv amount rem res m (2 ^ Z.of_nat i) Hp Hm Hinv ltac:(tauto)) as Hpush.
  destruct (push_copies m (2 ^ Z.of_nat i) rem res) as [rem' res'].
  destruct Hpush as (Hinv' & Hmono & Hcase).
  change ((2 ^ 64 - 1) / 2) with (2 ^ 63 - 1).
  destruct (Z.ltb_spec (2 ^ 63 - 1) (2 ^ Z.of_nat i)) as [Hlast|Hnext].
  - split; [done|]. destruct Hinv' as [Hr' _ Hs' _], Hinv as [Hr _ Hs _].
    destruct Hcase as [(-> & -> & ?)|?]; [destruct Hor; lia|].
    destruct Hor as [?|[? ?]]; lia.
  - assert (2 ^ Z.of_nat i * 2 = 2 ^ Z.of_nat (S i)) as Hnexti.
    { rewrite Nat2Z.inj_succ, Z.pow_succ_r; lia. }
    rewrite Hnexti. assert (i ≠ 63%nat) by (intros ->; lia).
    apply IH; [lia|lia|done|done|]. rewrite <- Hnexti. pose proof (pow2_pos _ Hp).
    destruct Hinv as [Hr _ Hs _], Hinv' as [Hr' _ Hs' _].
    destruct Hcase as [(-> & -> & ?)|?]; [right; destruct Hor; lia|].
    destruct Hor as [?|[? ?]]; [left; lia|]. right. lia.
Qed.

Lemma swap_minimizing_spec amount m :
  in_uint 64 amount → 1 ≤ m →
  let l := swap_minimizing_leaves amount m in
  sumZ l = amount ∧ Forall pow2 l ∧ StronglySorted Z.le l ∧ pays_all l.
Proof.
  intros [Ha0 Ha1] Hm. cbn zeta. unfold swap_minimizing_leaves.
  pose proof (minimizing_loop_spec 64 0 amount (Z.to_nat m) amount [] ltac:(lia) ltac:(lia)
    ltac:(lia) Ha1) as Hl.
  change (2 ^ Z.of_nat 0) with 1 in Hl.
  destruct (minimizing_loop 64 amount (Z.to_nat m) 1 amount []) as [rem res].
  destruct Hl as [[Hr Hpw Hs Hpay] Hle].
  - split; [lia|done|simpl; lia|apply pays_all_nil].
  - left. simpl. lia.
  - pose proof (sumZ_nonneg res (pow2_list_nonneg _ Hpw)).
    destruct (greedy_leaves_spec rem) as (Hgs & Hgp & _); [split; lia|].
    split_and!.
    + rewrite (sumZ_perm _ (res ++ greedy_leaves rem)) by apply sort_perm.
      rewrite sumZ_app. lia.
    + rewrite sort_perm. by apply Forall_app.
    + apply sort_sorted.
    + eapply pays_all_perm; [symmetry; apply sort_perm|]. apply pays_all_app; [done|].
      apply Forall_forall. intros x Hx.
      pose proof (sumZ_elem _ x (pow2_list_nonneg _ Hgp) Hx).
      rewrite Forall_forall in Hgp. pose proof (pow2_pos x (Hgp x Hx)). lia.
Qed.

(** Leaves worth the sub-list [s] of a wallet's values. *)
Lemma submseteq_values `{LeafLike L} (l : list L) (s : list Z) :
  s ⊆+ leaf_value <$> l → ∃ k, k ⊆+ l ∧ leaf_value <$> k ≡ₚ s.
Proof.
  revert s. induction l as [|x l IH]; intros s Hs.
  { apply submseteq_nil_r in Hs as ->. by exists []. }
  csimpl in Hs. destruct (decide (leaf_value x ∈ s)) as [Hx|Hx].
  - apply elem_of_Permutation in Hx as [s' Hs'].
    destruct (IH s') as (k & Hk & Hv). { apply (submseteq_cons_inv (leaf_value x)). by rewrite <- Hs'. }
    exists (x :: k). split; [by apply submseteq_skip|]. csimpl. by rewrite Hv, Hs'.
  - destruct (IH s) as (k & Hk & Hv).
    + apply submseteq_cons_r in Hs as [?|(s' & Hs' & ?)]; [done|].
      destruct Hx. rewrite Hs'. by left.
    + exists k. split; [by apply submseteq_cons|done].
Qed.

(** With a multiplicity of at least one, [swap_minimizing_leaves] splits an
    amount into ascending powers of two that add up to it, and does what it is
    for: from a wallet of that shape, [select_leaves_by_exact_amount] finds leaves
    worth exactly any positive amount up to the balance, so no payment needs a
    swap. *)
Theorem swap_minimizing_avoids_swaps `{LeafLike L} amount m :
  in_uint 64 amount → 1 ≤ m →
  sumZ (swap_minimizing_leaves amount m) = amount ∧
  Forall pow2 (swap_minimizing_leaves amount m) ∧
  StronglySorted Z.le (swap_minimizing_leaves amount m) ∧
  ∀ (wallet : list L) t,
    leaf_value <$> wallet ≡ₚ swap_minimizing_leaves amount m → 0 < t ≤ amount →
    ∃ sel, select_leaves_by_exact_amount wallet t = Ok (Some sel) ∧
      sel ⊆+ wallet ∧ valueZ sel = t.
Proof.
  intros Ha Hm. destruct (swap_minimizing_spec amount m Ha Hm) as (Hs & Hp & Hd & Hpay).
  split_and!; [done..|]. intros wallet t Hw Ht.
  assert (Forall pow2 (leaf_value <$> wallet)) as Hpw by by rewrite Hw.
  assert (valueZ wallet = amount) as Hv.
  { unfold valueZ. by rewrite (sumZ_perm _ _ Hw). }
  destruct (Hpay t) as (s & Hsub & Hsum); [lia|]. rewrite <- Hw in Hsub.
  destruct (submseteq_values wallet s Hsub) as (k & Hk & Hks).
  destruct Ha as [Ha0 Ha1]. apply (exact_amount_complete wallet t k).
  - apply Forall_forall. intros x Hx. split.
    + rewrite Forall_forall in Hpw. apply Z.lt_le_incl, pow2_pos, Hpw.
      by apply list_elem_of_fmap_2.
    + eapply Z.le_lt_trans; [|exact Ha1]. rewrite <- Hv.
      apply sumZ_elem; [by apply pow2_list_nonneg|by apply list_elem_of_fmap_2].
  - split; lia.
  - lia.
  - lia.
  - done.
  - apply Forall_forall. intros x Hx. rewrite Forall_forall in Hpw.
    apply Hpw, list_elem_of_fmap_2. by eapply elem_of_submseteq.
  - unfold valueZ. by rewrite (sumZ_perm _ _ Hks).
Qed.

(** ** Counters *)

Abbreviation cnt l v := (count_occ Z.eq_dec l v) (only parsing).

Lemma cnt_app l k v : cnt (l ++ k) v = (cnt l v + cnt k v)%nat.
Proof. apply count_occ_app. Qed.

Lemma cnt_pos l v : v ∈ l ↔ (0 < cnt l v)%nat.
Proof. rewrite list_elem_of_In. apply count_occ_In. Qed.

Lemma cnt_submseteq l k : (∀ v, cnt l v ≤ cnt k v)%nat → l ⊆+ k.
Proof.
  revert k. induction l as [|x l IH]; intros k Hc; [apply submseteq_nil_l|].
  assert (x ∈ k) as Hx.
  { apply cnt_pos. specialize (Hc x). rewrite count_occ_cons_eq in Hc by done. lia. }
  apply elem_of_Permutation in Hx as [k' Hk]. rewrite Hk. apply submseteq_skip, IH.
  intros v. specialize (Hc v). rewrite (Permutation_count_occ Z.eq_dec) in Hk. rewrite Hk in Hc.
  destruct (decide (x = v)).
  - rewrite !count_occ_cons_eq in Hc by done. lia.
  - by rewrite !count_occ_cons_neq in Hc by done.
Qed.

Lemma cnt_replicate n x v : cnt (replicate n x) v = if decide (x = v) then n else 0%nat.
Proof.
  induction n as [|n IH]; simpl; [by case_decide|].
  rewrite IH. by destruct (Z.eq_dec x v); case_decide.
Qed.

Section plan_spec.
Context `{!HashIter Z}.

Lemma count_occurrences_lookup l v :
  count_occurrences l !! v = if decide (v ∈ l) then Some (Z.of_nat (cnt l v)) else None.
Proof.
  unfold count_occurrences.
  assert (∀ m : gmap Z Z, foldl (λ counter v, <[v := default 0 (counter !! v) + 1]> counter) m l !! v =
    if decide (v ∈ l) then Some (default 0 (m !! v) + Z.of_nat (cnt l v)) else m !! v) as Hgen.
  { induction l as [|x l IH]; intros m; simpl.
    - done.
    - rewrite IH. destruct (Z.eq_dec x v) as [->|Hne].
      + rewrite lookup_insert_eq, (decide_True (P := v ∈ v :: l)) by by left. simpl.
        destruct (decide (v ∈ l)) as [Hv|Hv]; f_equal; [lia|].
        rewrite cnt_pos in Hv. lia.
      + rewrite lookup_insert_ne by done. apply decide_ext. rewrite elem_of_cons. naive_solver. }
  rewrite Hgen, lookup_empty. simpl. done.
Qed.

Lemma subtract_lookup a b k :
  subtract_counters a b !! k =
    v ← a !! k; if default 0 (b !! k) <? v then Some (v - default 0 (b !! k)) else None.
Proof.
  unfold subtract_counters.
  assert (∀ kvs (m : gmap Z Z), NoDup kvs.*1 → (∀ j, j ∈ kvs.*1 → m !! j = None) →
    foldl (λ result '(k, v), let b_count := default 0 (b !! k) in
      if b_count <? v then <[k := v - b_count]> result else result) m kvs !! k =
    match (list_to_map kvs : gmap Z Z) !! k with
    | Some v => if default 0 (b !! k) <? v then Some (v - default 0 (b !! k)) else None
    | None => m !! k
    end) as Hgen.
  { induction kvs as [|[j v] kvs IH]; intros m Hnd Hm; [done|].
    csimpl in Hnd. apply NoDup_cons in Hnd as [Hj Hnd]. simpl. rewrite IH; [|done|].
    2:{ intros j' Hj'. assert (j ≠ j') by (by intros ->).
        destruct (_ <? _); [rewrite lookup_insert_ne by done|]; apply Hm; by right. }
    destruct (decide (j = k)) as [->|Hne].
    - rewrite not_elem_of_list_to_map_1, lookup_insert_eq by done.
      destruct (_ <? v); [by rewrite lookup_insert_eq|]. apply Hm. by left.
    - rewrite lookup_insert_ne by done. case_match; [done|].
      by destruct (_ <? v); rewrite ?lookup_insert_ne. }
  rewrite Hgen; [|apply NoDup_hm_keys|done]. rewrite lookup_empty.
  assert (list_to_map (hm_iter a) = a) as ->.
  { apply map_eq. intros j. destruct (a !! j) as [s|] eqn:E.
    - apply elem_of_list_to_map; [apply NoDup_hm_keys|]. by apply elem_of_hm_iter.
    - apply not_elem_of_list_to_map_1. intros Hj. apply elem_of_hm_keys in Hj as [? ?]. congruence. }
  by destruct (a !! k).
Qed.

Lemma flat_count c v :
  cnt (counter_to_flat_array c) v = Z.to_nat (default 0 (c !! v)).
Proof.
  unfold counter_to_flat_array.
  assert (∀ keys, NoDup keys →
    cnt (keys ≫= λ k, replicate (Z.to_nat (default 0 (c !! k))) k) v =
      if decide (v ∈ keys) then Z.to_nat (default 0 (c !! v)) else 0%nat) as Hgen.
  { induction 1 as [|k keys Hk Hnd IH]; [done|]. csimpl. rewrite cnt_app, IH, cnt_replicate.
    destruct (decide (k = v)) as [->|Hne].
    - rewrite (decide_False (P := v ∈ keys)), decide_True by (done || by left). lia.
    - simpl. apply decide_ext. rewrite elem_of_cons. naive_solver. }
  rewrite Hgen by (rewrite sort_perm; apply NoDup_hm_keys).
  case_decide as Hv; [done|]. rewrite sort_perm, elem_of_hm_keys in Hv.
  by apply eq_None_not_Some in Hv as ->.
Qed.

(** The multiset difference of two lists of values. *)
Lemma difference_count l k v :
  cnt (counter_to_flat_array (subtract_counters (count_occurrences l) (count_occurrences k))) v =
    (cnt l v - cnt k v)%nat.
Proof.
  rewrite flat_count, subtract_lookup, !count_occurrences_lookup.
  assert (default 0 (if decide (v ∈ k) then Some (Z.of_nat (cnt k v)) else None) =
    Z.of_nat (cnt k v)) as ->.
  { case_decide as Hv; [done|]. rewrite cnt_pos in Hv. simpl. lia. }
  case_decide as Hv; [|rewrite cnt_pos in Hv; simpl; lia].
  simpl. destruct (Z.ltb_spec (Z.of_nat (cnt k v)) (Z.of_nat (cnt l v))); simpl; lia.
Qed.

(** Two lists split into what they share and what they do not. *)
Lemma difference_split l k :
  let give := counter_to_flat_array (subtract_counters (count_occurrences l) (count_occurrences k)) in
  let receive := counter_to_flat_array (subtract_counters (count_occurrences k) (count_occurrences l)) in
  ∃ kept, l ≡ₚ give ++ kept ∧ k ≡ₚ receive ++ kept.
Proof.
  cbn zeta. set (give := counter_to_flat_array (subtract_counters (count_occurrences l) _)).
  set (receive := counter_to_flat_array _).
  assert (∀ v, cnt give v = cnt l v - cnt k v)%nat as Hg by apply difference_count.
  assert (∀ v, cnt receive v = cnt k v - cnt l v)%nat as Hr by apply difference_count.
  assert (give ⊆+ l) as [kept Hkept]%submseteq_Permutation.
  { apply cnt_submseteq. intros v. rewrite Hg. lia. }
  exists kept. split; [done|]. apply (Permutation_count_occ Z.eq_dec). intros v.
  rewrite (Permutation_count_occ Z.eq_dec) in Hkept. specialize (Hkept v).
  rewrite cnt_app, Hg in Hkept. rewrite cnt_app, Hr. lia.
Qed.
End plan_spec.

(** ** Swaps *)

Definition gives (sw : list SwapPlan) : list Z := sw ≫= leaves_to_give.
Definition receives (sw : list SwapPlan) : list Z := sw ≫= leaves_to_receive.

Lemma gives_app sw sw' : gives (sw ++ sw') = gives sw ++ gives sw'.
Proof. apply bind_app. Qed.
Lemma receives_app sw sw' : receives (sw ++ sw') = receives sw ++ receives sw'.
Proof. apply bind_app. Qed.

(** A swap the service can carry out: it gives something, at most [max] leaves,
    and gets the same value back. *)
Record good_swap (max : nat) (sw : SwapPlan) : Prop := {
  gs_gives : leaves_to_give sw ≠ [];
  gs_limit : (length (leaves_to_give sw) ≤ max)%nat;
  gs_limit' : (length (leaves_to_receive sw) ≤ Nat.max max 64)%nat;
  gs_value : sumZ (leaves_to_receive sw) = sumZ (leaves_to_give sw);
}.

Definition amounts (l : list Z) : Prop := Forall (λ x, 0 ≤ x) l ∧ sumZ l < 2 ^ 64.

Lemma amounts_sum l : amounts l → sum_wrap 64 l = sumZ l ∧ in_uint 64 (sumZ l).
Proof.
  intros [Hl Hs]. split; [by apply sum_wrap_exact|]. split; [by apply sumZ_nonneg|done].
Qed.

Lemma amounts_app l k : amounts (l ++ k) → amounts l ∧ amounts k.
Proof.
  intros [[Hl Hk]%Forall_app Hs]. rewrite sumZ_app in Hs.
  pose proof (sumZ_nonneg l Hl). pose proof (sumZ_nonneg k Hk). repeat split; done || lia.
Qed.

Lemma amounts_perm l k : l ≡ₚ k → amounts l → amounts k.
Proof. intros Hlk [? ?]. split; [by rewrite <- Hlk|]. by rewrite <- (sumZ_perm _ _ Hlk). Qed.

Lemma greedy_swap_good max batch :
  amounts batch → batch ≠ [] → (length batch ≤ max)%nat → good_swap max (greedy_swap batch).
Proof.
  intros Ha Hne Hlen. destruct (amounts_sum batch Ha) as [Hw Hr].
  destruct (greedy_leaves_spec (sumZ batch) Hr) as (Hs & _ & _).
  split; simpl; rewrite ?Hw; try done.
  pose proof (greedy_length 64 (sumZ batch) ltac:(lia) Hr). lia.
Qed.

(** *** Maximizing the unilateral exit *)

Lemma push_swap_spec batch sw :
  ∃ more kept, push_swap batch sw = sw ++ more ∧ Forall (λ s, s = greedy_swap batch) more ∧
    batch = gives more ++ kept ∧ greedy_leaves (sum_wrap 64 batch) = receives more ++ kept.
Proof.
  unfold push_swap. case_bool_decide as Hne.
  - exists [greedy_swap batch], []. split_and!; [done|by repeat constructor|..]; simpl;
      by rewrite !app_nil_r.
  - exists [], batch. rewrite app_nil_r. split_and!; [done|constructor|done|done].
Qed.

Lemma exit_loop_spec max leaves batch sw :
  (length batch < max)%nat → amounts (batch ++ leaves) →
  let '(batch', sw') := exit_loop max leaves batch sw in
  (length batch' < max)%nat ∧
  ∃ more kept, sw' = sw ++ more ∧ Forall (good_swap max) more ∧
    batch ++ leaves ≡ₚ gives more ++ kept ++ batch' ∧
    sumZ (receives more) = sumZ (gives more).
Proof.
  revert batch sw. induction leaves as [|x leaves IH]; intros batch sw Hlen Ha; simpl.
  { split; [done|]. exists [], []. rewrite !app_nil_r. split_and!; done || constructor. }
  assert (amounts (batch ++ [x])) as Ha1.
  { apply (amounts_app _ leaves). by rewrite <- app_assoc. }
  destruct (_ || _) eqn:Hflush.
  - destruct (push_swap_spec (batch ++ [x]) sw) as (more1 & kept1 & -> & Hgood & Hg & Hr).
    specialize (IH [] (sw ++ more1)). destruct (exit_loop max leaves [] _) as [batch' sw'].
    destruct IH as (Hl & more & kept & -> & Hm & Hp & Hv); [simpl; lia| |].
    { apply (amounts_app (batch ++ [x])). by rewrite <- app_assoc. }
    split; [done|]. exists (more1 ++ more), (kept1 ++ kept).
    assert (length (batch ++ [x]) ≤ max)%nat as Hlen1 by (rewrite length_app; simpl; lia).
    split_and!.
    + by rewrite app_assoc.
    + apply Forall_app. split; [|done]. eapply Forall_impl; [exact Hgood|]. intros s ->.
      apply greedy_swap_good; [done|by destruct batch|done].
    + change (batch ++ x :: leaves) with (batch ++ [x] ++ leaves). rewrite app_assoc, Hg, gives_app.
      simpl in Hp. rewrite Hp. rewrite <- !app_assoc. apply Permutation_app_head.
      rewrite !app_assoc. do 2 apply Permutation_app_tail. apply Permutation_app_comm.
    + rewrite gives_app, receives_app, !sumZ_app, Hv. f_equal.
      destruct (amounts_sum _ Ha1) as [Hw Hu].
      destruct (greedy_leaves_spec _ Hu) as (Hs & _ & _).
      rewrite Hw in Hr. rewrite Hr, Hg, !sumZ_app in Hs. lia.
  - apply orb_false_iff in Hflush as [Hf _]. apply Nat.leb_gt in Hf.
    specialize (IH (batch ++ [x]) sw Hf). rewrite <- app_assoc in IH. simpl in IH.
    destruct (exit_loop max leaves _ _) as [batch' sw']. by apply IH.
Qed.

(** Without a flush the loop only collects the batch. *)
Lemma exit_loop_collects max leaves batch sw :
  (64 ≤ max)%nat → (length (batch ++ leaves) < max)%nat → amounts (batch ++ leaves) →
  sumZ (batch ++ leaves) < 2 ^ 63 →
  exit_loop max leaves batch sw = (batch ++ leaves, sw).
Proof.
  revert batch. induction leaves as [|x leaves IH]; intros batch Hmax Hlen Ha Hb; simpl.
  { by rewrite app_nil_r. }
  change (batch ++ x :: leaves) with (batch ++ [x] ++ leaves) in *. rewrite app_assoc in *.
  apply amounts_app in Ha as Ha1. destruct Ha1 as [Ha1 Ha2].
  destruct (amounts_sum _ Ha1) as [Hw [Hu _]]. rewrite Hw.
  rewrite length_app in Hlen. rewrite (proj2 (Nat.leb_gt _ _)) by lia.
  assert (sumZ (batch ++ [x]) < 2 ^ Z.of_nat 63) as Hb1.
  { destruct (amounts_sum _ Ha2) as [_ [? _]]. rewrite sumZ_app in Hb. simpl in *. lia. }
  pose proof (greedy_length 63 (sumZ (batch ++ [x])) ltac:(lia) ltac:(lia)).
  rewrite (proj2 (Nat.leb_gt _ _)) by lia. simpl. apply IH; [done|by rewrite length_app|done|done].
Qed.

(** Planning for the cheapest exit never loses or invents value: every
    planned swap gives between one and [max_leaves_per_swap] leaves and receives
    the same value in distinct powers of two, and together the swaps give away a
    sub-multiset of the wallet. Below [2^63] sats, and with more than 64 leaves
    allowed per swap, a wallet under the limit is turned into exactly the
    [greedy_leaves] of its balance, as [fully_converges] says. *)
Theorem maximize_unilateral_exit_spec wallet max :
  amounts wallet → 1 ≤ max →
  let plan := maximize_unilateral_exit wallet max in
  Forall (good_swap (Z.to_nat max)) (swaps plan) ∧
  (∃ kept, wallet ≡ₚ gives (swaps plan) ++ kept ∧
    sumZ (receives (swaps plan) ++ kept) = sumZ wallet ∧
    (64 ≤ max → Z.of_nat (length wallet) < max → sumZ wallet < 2 ^ 63 →
      fully_converges plan = true ∧
      receives (swaps plan) ++ kept = greedy_leaves (sumZ wallet))).
Proof.
  intros Ha Hmax. unfold maximize_unilateral_exit.
  assert (amounts (sort wallet)) as Has by (eapply amounts_perm; [symmetry; apply sort_perm|done]).
  pose proof (exit_loop_spec (Z.to_nat max) (sort wallet) [] [] ltac:(simpl; lia) Has) as Hl.
  assert (64 ≤ max → Z.of_nat (length wallet) < max → sumZ wallet < 2 ^ 63 →
    exit_loop (Z.to_nat max) (sort wallet) [] [] = (sort wallet, [])) as Hcol.
  { intros H64 Hlw Hb. apply exit_loop_collects; simpl; [lia|rewrite sort_perm; lia|done|].
    by rewrite (sumZ_perm _ wallet) by apply sort_perm. }
  destruct (exit_loop _ _ _ _) as [batch sw].
  destruct Hl as (Hlen & more & kept & -> & Hgood & Hp & Hv). simpl in Hp. cbn [app] in *.
  destruct (push_swap_spec batch more) as (last & klast & Hpush & Hlast & Hg & Hr).
  assert (amounts batch) as Hab.
  { apply (amounts_perm _ _ Hp) in Has. rewrite app_assoc in Has. by apply amounts_app in Has as [_ ?]. }
  destruct (amounts_sum _ Hab) as [Hw Hu]. destruct (greedy_leaves_spec _ Hu) as (Hs & _ & _).
  rewrite Hw in Hr.
  assert (64 ≤ max → Z.of_nat (length wallet) < max → sumZ wallet < 2 ^ 63 →
    (length wallet <=? Z.to_nat max)%nat = true ∧ more = [] ∧ kept = [] ∧ batch = sort wallet ∧
    sumZ batch = sumZ wallet) as Hconv.
  { intros H64 Hlw Hb. specialize (Hcol H64 Hlw Hb). injection Hcol as -> ->. split_and!; try done.
    - apply Nat.leb_le. lia.
    - apply Permutation_length in Hp. rewrite !length_app in Hp. simpl in Hp.
      by destruct kept; [|simpl in Hp; lia].
    - apply sumZ_perm, sort_perm. }
  destruct (decide (batch = [])) as [->|Hne].
  - rewrite bool_decide_true by done. cbn [swaps fully_converges]. split; [done|]. exists kept.
    rewrite app_nil_r, sort_perm in Hp. split_and!; [done| |].
    + rewrite (sumZ_perm _ _ Hp), !sumZ_app. lia.
    + intros H64 Hlw Hb. destruct (Hconv H64 Hlw Hb) as (Hle & -> & -> & Hb' & <-).
      rewrite sort_perm. by split.
  - rewrite bool_decide_false by done. cbn [swaps fully_converges]. rewrite Hpush. split.
    { apply Forall_app. split; [done|]. eapply Forall_impl; [exact Hlast|]. intros s ->.
      apply greedy_swap_good; [done|done|lia]. }
    exists (kept ++ klast). rewrite gives_app, receives_app. split_and!.
    + rewrite <- (sort_perm wallet), Hp, Hg at 1. rewrite <- !app_assoc. apply Permutation_app_head.
      rewrite !app_assoc. apply Permutation_app_tail, Permutation_app_comm.
    + rewrite <- (sumZ_perm _ _ (sort_perm wallet)), (sumZ_perm _ _ Hp), !sumZ_app, Hv.
      rewrite Hr, sumZ_app in Hs. lia.
    + intros H64 Hlw Hb. destruct (Hconv H64 Hlw Hb) as (Hle & -> & -> & _ & <-).
      rewrite sort_perm. split; [done|]. simpl. by rewrite Hr.
Qed.

(** With a low swap limit the convergence hint is wrong: three leaves of 3, 4
    and 4 sats fit in one batch of three, and the single planned swap is marked
    as converging, but the wallet it leaves, 1, 2, 4 and 4, is not the optimal
    1, 2 and 8, and the planner finds nothing more to do on it. *)
Theorem unilateral_exit_convergence_gap :
  let plan := maximize_unilateral_exit [3; 4; 4] 3 in
  fully_converges plan = true ∧
  swaps plan = [{| leaves_to_give := [3; 4]; leaves_to_receive := [1; 2; 4] |}] ∧
  greedy_leaves (sumZ [1; 2; 4; 4]) = [1; 2; 8] ∧
  swaps (maximize_unilateral_exit [1; 2; 4; 4] 3) = [].
Proof. repeat split; vm_compute; reflexivity. Qed.

(** *** Minimizing the swaps of transfers *)

Lemma chunks_loop_spec fuel n l :
  (0 < n)%nat → (length l ≤ fuel)%nat →
  concat (chunks_loop fuel n l) = l ∧
  Forall (λ c, c ≠ [] ∧ (length c ≤ n)%nat) (chunks_loop fuel n l).
Proof.
  intros Hn. revert l. induction fuel as [|fuel IH]; intros l Hl.
  { destruct l; simpl in *; [by split|lia]. }
  destruct l as [|x l]; [by split|].
  change (chunks_loop (S fuel) n (x :: l)) with
    (take n (x :: l) :: chunks_loop fuel n (drop n (x :: l))).
  destruct (IH (drop n (x :: l))) as [Hc Hf].
  { rewrite length_drop. simpl in *. lia. }
  simpl concat. rewrite Hc, take_drop. split; [done|]. constructor; [|done]. split.
  - destruct n; [lia|done].
  - rewrite length_take. lia.
Qed.

Lemma greedy_swaps_gives cs : gives (greedy_swap <$> cs) = concat cs.
Proof. induction cs; csimpl; [done|]. by f_equal. Qed.

Lemma find_cutoff_spec cutoff max gb rb sw :
  amounts gb → amounts rb → sumZ gb = sumZ rb → gb ≠ [] → (length gb ≤ max)%nat →
  find_cutoff cutoff max (sum_wrap 64 gb) gb rb = Some sw →
  good_swap max sw ∧ leaves_to_give sw = gb.
Proof.
  intros Hg Hr Hs Hne Hlen. induction cutoff as [|c IH]; cbn [find_cutoff]; [done|].
  destruct (Nat.leb_spec (length (take (S c) rb ++ greedy_leaves (usub 64 (sum_wrap 64 gb)
    (sum_wrap 64 (take (S c) rb))))) max) as [Hle|]; [|by apply IH].
  intros [= <-]. split; [|done]. split; simpl leaves_to_give; simpl leaves_to_receive; try done.
  - change (take (S c) rb) with (take (S c) rb) in *. lia.
  - destruct (amounts_sum _ Hg) as [Hw Hu].
    rewrite <- (take_drop (S c) rb) in Hr, Hs. apply amounts_app in Hr as [Ht Hd].
    destruct (amounts_sum _ Ht) as [Hwt [Hut _]], (amounts_sum _ Hd) as [_ [Hud _]].
    rewrite sumZ_app in Hs. rewrite sumZ_app, Hw, Hwt.
    rewrite usub_small by (destruct Hu; lia).
    destruct (greedy_leaves_spec (sumZ gb - sumZ (take (S c) rb))) as (Hgs & _ & _);
      [destruct Hu; split; lia|]. rewrite Hgs. lia.
Qed.

Lemma emit_batches_spec max gb rb :
  (0 < max)%nat → amounts gb → amounts rb → sumZ gb = sumZ rb → gb ≠ [] →
  ∃ more optimal, emit_batches max gb rb = Some (more, optimal) ∧
    Forall (good_swap max) more ∧ gives more ⊆+ gb ∧
    (optimal = true → more = [{| leaves_to_give := gb; leaves_to_receive := rb |}]).
Proof.
  intros Hmax Hg Hr Hs Hne. unfold emit_batches.
  destruct (Nat.ltb_spec max (length gb)) as [Hlt|Hle].
  - unfold chunks. destruct max as [|max]; [lia|]. simpl.
    destruct (chunks_loop_spec (length gb) (S max) gb) as [Hc Hf]; [lia|done|].
    eexists _, false. split_and!; [done| |by rewrite greedy_swaps_gives, Hc|done].
    apply Forall_fmap. rewrite <- Hc in Hg. clear -Hg Hf.
    induction Hf as [|c cs [Hcne Hcl] _ IH]; [constructor|]. simpl in Hg.
    apply amounts_app in Hg as [Hgc Hgs]. constructor; [by apply greedy_swap_good|by apply IH].
  - destruct (Nat.ltb_spec max (length rb)) as [Hlt|Hle'].
    + eexists _, false. split; [done|].
      destruct (find_cutoff _ _ _ _ _) as [sw|] eqn:Hcut.
      * apply find_cutoff_spec in Hcut as [Hgood Hgive]; [|done..].
        split_and!; [by apply Forall_singleton| |done]. unfold gives. simpl. by rewrite Hgive, app_nil_r.
      * split_and!; [constructor|apply submseteq_nil_l|done].
    + eexists _, true. split_and!; [done| | |done].
      * constructor; [|constructor]. split; simpl; try done; lia.
      * unfold gives. simpl. by rewrite app_nil_r.
Qed.

Lemma advance_spec give receive gb rb :
  match advance give receive gb rb with
  | None =>
      (sum_wrap 64 rb < sum_wrap 64 gb ∧ receive = []) ∨
      (sum_wrap 64 gb ≤ sum_wrap 64 rb ∧ give = [])
  | Some (give', receive', gb', rb') =>
      gb' ++ give' = gb ++ give ∧ rb' ++ receive' = rb ++ receive ∧
      (length give' + length receive' < length give + length receive)%nat
  end.
Proof.
  unfold advance. destruct (Z.ltb_spec (sum_wrap 64 rb) (sum_wrap 64 gb)).
  - destruct receive; [by left|]. rewrite <- app_assoc. simpl. split_and!; [done|done|lia].
  - destruct give; [by right|]. rewrite <- app_assoc. simpl. split_and!; [done|done|lia].
Qed.

Definition positive (l : list Z) : Prop := Forall (λ x, 0 < x) l.

Lemma positive_sum l : positive l → 0 ≤ sumZ l ∧ (sumZ l = 0 → l = []).
Proof.
  induction 1 as [|x l Hx _ [? _]]; simpl; [done|]. split; [lia|]. lia.
Qed.

(** No balanced pair of batches is left waiting. *)
Definition unbalanced (gb rb : list Z) : Prop := gb ≠ [] → rb ≠ [] → sumZ gb ≠ sumZ rb.

Lemma unbalanced_done gb rb :
  unbalanced gb rb → positive gb → positive rb → sumZ gb = sumZ rb → gb = [] ∧ rb = [].
Proof.
  intros Hu Hg Hr Hs. destruct (positive_sum gb Hg) as [_ Hg0], (positive_sum rb Hr) as [_ Hr0].
  destruct (decide (gb = [])) as [->|Hne]; [split; [done|]; by apply Hr0|].
  destruct (decide (rb = [])) as [->|Hne']; [destruct Hne; by apply Hg0|].
  by destruct (Hu Hne Hne').
Qed.

Lemma balance_loop_spec fuel max give receive gb rb sw conv :
  (0 < max)%nat → amounts (gb ++ give) → amounts (rb ++ receive) →
  (length give + length receive < fuel)%nat →
  ∃ more c,
    balance_loop fuel max give receive gb rb sw conv =
      Some {| swaps := sw ++ more; fully_converges := c |} ∧
    Forall (good_swap max) more ∧ gives more ⊆+ gb ++ give ∧
    (c = true → conv = true ∧
      (unbalanced gb rb → positive (gb ++ give) → positive (rb ++ receive) →
       sumZ (gb ++ give) = sumZ (rb ++ receive) →
       gives more = gb ++ give ∧ receives more = rb ++ receive)).
Proof.
  intros Hmax. revert give receive gb rb sw conv.
  induction fuel as [|fuel IH]; intros give receive gb rb sw conv Hg Hr Hf; [lia|].
  cbn [balance_loop]. destruct (bool_decide (give = []) && bool_decide (receive = [])) eqn:Hend.
  { apply andb_prop in Hend as [->%bool_decide_eq_true_1 ->%bool_decide_eq_true_1].
    exists [], conv. rewrite !app_nil_r. split_and!; [done|constructor|apply submseteq_nil_l|].
    intros ->. split; [done|]. intros Hu Hpg Hpr Hs.
    by destruct (unbalanced_done gb rb Hu Hpg Hpr Hs) as [-> ->]. }
  pose proof (advance_spec give receive gb rb) as Hadv.
  destruct (advance give receive gb rb) as [[[[give' receive'] gb'] rb']|].
  2:{ exists [], conv. rewrite app_nil_r. split_and!; [done|constructor|apply submseteq_nil_l|].
      intros ->. split; [done|]. intros _ Hpg Hpr Hs. exfalso.
      destruct (amounts_app _ _ Hg) as [Hgb _], (amounts_app _ _ Hr) as [Hrb _].
      destruct (amounts_sum _ Hgb) as [Hwg _], (amounts_sum _ Hrb) as [Hwr _].
      rewrite Hwg, Hwr in Hadv. apply Forall_app in Hpg as [_ Hpg], Hpr as [_ Hpr].
      apply positive_sum in Hpg as [? Hg0], Hpr as [? Hr0]. rewrite !sumZ_app in Hs.
      destruct Hadv as [[? ->]|[? ->]]; simpl in *; [lia|].
      assert (receive ≠ []) as Hne by (by intros ->). apply Hne, Hr0. lia. }
  destruct Hadv as (Hge & Hre & Hlen). rewrite <- Hge, <- Hre in *.
  destruct (amounts_app _ _ Hg) as [Hgb Hgi], (amounts_app _ _ Hr) as [Hrb Hri].
  destruct (amounts_sum _ Hgb) as [Hwg _], (amounts_sum _ Hrb) as [Hwr _]. rewrite Hwg, Hwr.
  destruct (bool_decide (gb' ≠ []) && bool_decide (rb' ≠ []) && (sumZ gb' =? sumZ rb')) eqn:Hbal.
  - apply andb_prop in Hbal as [[Hng%bool_decide_eq_true_1 Hnr%bool_decide_eq_true_1]%andb_prop
      Hs%Z.eqb_eq].
    destruct (emit_batches_spec max gb' rb' Hmax Hgb Hrb Hs Hng)
      as (more1 & opt & -> & Hgood1 & Hsub1 & Hopt). simpl.
    destruct (IH give' receive' [] [] (sw ++ more1) (conv && opt)) as
      (more2 & c & -> & Hgood2 & Hsub2 & Hconv); [done|done|lia|].
    exists (more1 ++ more2), c. rewrite app_assoc. split_and!; [done|by apply Forall_app| |].
    { rewrite gives_app. by apply submseteq_app. }
    intros Hc. destruct (Hconv Hc) as [[-> ->]%andb_prop Hall]. split; [done|].
    intros _ Hpg Hpr Hsum. apply Forall_app in Hpg as [_ Hpg], Hpr as [_ Hpr].
    destruct Hall as [Hg2 Hr2]; [by intros ?|done|done|rewrite !sumZ_app in Hsum; simpl; lia|].
    rewrite gives_app, receives_app, Hg2, Hr2, (Hopt eq_refl). unfold gives, receives. simpl.
    by rewrite !app_nil_r.
  - destruct (IH give' receive' gb' rb' sw conv) as (more & c & -> & Hgood & Hsub & Hconv);
      [done|done|lia|].
    exists more, c. split_and!; [done|done|done|]. intros Hc. destruct (Hconv Hc) as [-> Hall].
    split; [done|]. intros _. apply Hall. intros Hng Hnr Hs.
    by rewrite !bool_decide_true, (proj2 (Z.eqb_eq _ _) Hs) in Hbal by done.
Qed.

Lemma amounts_submseteq l k : l ⊆+ k → amounts k → amounts l.
Proof. intros [r Hr]%submseteq_Permutation Hk. by apply (amounts_perm _ _ Hr), amounts_app in Hk as [? _]. Qed.

Section minimize.
Context `{!HashIter Z}.

Lemma minimize_total wallet m max :
  amounts wallet → 1 ≤ m → 1 ≤ max → is_Some (minimize_transfer_swap wallet m max).
Proof.
  intros Ha Hm Hmax. destruct (amounts_sum _ Ha) as [Hw Hu].
  destruct (swap_minimizing_spec (sumZ wallet) m Hu Hm) as (Hs & Hp & _ & _).
  unfold minimize_transfer_swap. rewrite Hw. set (optimal := swap_minimizing_leaves _ m) in *.
  destruct (difference_split wallet optimal) as (kept & Hwk & Hok).
  assert (amounts optimal) as Hao.
  { split; [by apply pow2_list_nonneg|]. rewrite Hs. by destruct Hu. }
  apply (amounts_perm _ _ Hwk), amounts_app in Ha as [Hag _].
  apply (amounts_perm _ _ Hok), amounts_app in Hao as [Har _].
  case_match; [by eexists|].
  edestruct (balance_loop_spec (S (length (counter_to_flat_array (subtract_counters
    (count_occurrences wallet) (count_occurrences optimal))) + length (counter_to_flat_array
    (subtract_counters (count_occurrences optimal) (count_occurrences wallet))))) (Z.to_nat max))
    as (more & c & -> & _); [lia|exact Hag|exact Har|lia|by eexists].
Qed.

(** C35: Planning for fewer transfer swaps is safe and makes progress to its
    target: the loop terminates, the sums it checks always match, every planned
    swap gives between one and [max_leaves_per_swap] leaves for the same value,
    and all gives together are a sub-multiset of the wallet. When the plan says it
    fully converges, carrying it out turns the wallet into exactly
    [swap_minimizing_leaves] of its balance. *)
Theorem minimize_transfer_swap_spec wallet m max :
  amounts wallet → 1 ≤ m → 1 ≤ max →
  ∃ plan, minimize_transfer_swap wallet m max = Some plan ∧
    Forall (good_swap (Z.to_nat max)) (swaps plan) ∧
    gives (swaps plan) ⊆+ wallet ∧
    (fully_converges plan = true → positive wallet →
      ∃ kept, wallet ≡ₚ gives (swaps plan) ++ kept ∧
        receives (swaps plan) ++ kept ≡ₚ swap_minimizing_leaves (sumZ wallet) m).
Proof.
  intros Ha Hm Hmax. destruct (amounts_sum _ Ha) as [Hw Hu].
  destruct (swap_minimizing_spec (sumZ wallet) m Hu Hm) as (Hs & Hp & _ & _).
  unfold minimize_transfer_swap. rewrite Hw.
  set (optimal := swap_minimizing_leaves (sumZ wallet) m) in *.
  destruct (difference_split wallet optimal) as (kept & Hwk & Hok).
  set (give := counter_to_flat_array
    (subtract_counters (count_occurrences wallet) (count_occurrences optimal))) in *.
  set (receive := counter_to_flat_array
    (subtract_counters (count_occurrences optimal) (count_occurrences wallet))) in *.
  assert (amounts optimal) as Hao.
  { split; [by apply pow2_list_nonneg|]. rewrite Hs. by destruct Hu. }
  assert (amounts give ∧ amounts receive) as [Hag Har].
  { apply (amounts_perm _ _ Hwk) in Ha. apply (amounts_perm _ _ Hok) in Hao.
    by apply amounts_app in Ha as [? _], Hao as [? _]. }
  assert (sumZ give = sumZ receive) as Hsum.
  { pose proof (sumZ_perm _ _ Hwk) as H1. pose proof (sumZ_perm _ _ Hok) as H2.
    rewrite sumZ_app in H1, H2. lia. }
  destruct (amounts_sum _ Hag) as [Hwg _], (amounts_sum _ Har) as [Hwr _].
  rewrite Hwg, Hwr, Hsum, Z.eqb_refl. cbn [negb].
  destruct (balance_loop_spec (S (length give + length receive)) (Z.to_nat max) give receive
    [] [] [] true) as (more & c & -> & Hgood & Hsub & Hconv); [lia|done|done|lia|].
  eexists. split; [done|]. cbn [swaps fully_converges app] in *. split_and!; [done| |].
  { rewrite Hwk. by apply submseteq_inserts_r. }
  intros Hc Hpos. destruct (Hconv Hc) as [_ Hall]. exists kept. unfold positive in Hpos.
  rewrite Hwk in Hpos. apply Forall_app in Hpos as [Hpg _].
  destruct Hall as [Hg Hr]; [by intros ?|done| |done|].
  { eapply Forall_impl; [|exact pow2_pos]. rewrite Hok in Hp. by apply Forall_app in Hp as [? _]. }
  by rewrite Hg, Hr.
Qed.
End minimize.

(** ** Witnesses *)

Example greedy_leaves_witness : greedy_leaves 13 = [1; 4; 8] ∧ sumZ (greedy_leaves 13) = 13.
Proof.
  split; [vm_compute; reflexivity|]. by apply (greedy_leaves_optimal 13).
Defined.

Definition shaped_wallet : list (@TreeNode bip68) :=
  (λ v, bip68_node "leaf" v None) <$> [4; 1; 2; 4; 2].

(** 13 sats as 1, 2, 2, 4 and 4 pay 11 without a swap. *)
Example swap_minimizing_witness :
  ∃ sel, @select_leaves_by_exact_amount _ (@TreeNode_LeafLike bip68) shaped_wallet 11 = Ok (Some sel) ∧
    @valueZ _ (@TreeNode_LeafLike bip68) sel = 11.
Proof.
  destruct (@swap_minimizing_avoids_swaps _ (@TreeNode_LeafLike bip68) 13 1) as (_ & _ & _ & Hsel);
    [by vm_compute|done|].
  destruct (Hsel shaped_wallet 11) as (sel & ? & _ & ?).
  - apply (bool_decide_unpack _). vm_compute. exact I.
  - lia.
  - exists sel. split; assumption.
Defined.

Lemma amounts_dec_intro l :
  forallb (λ x, 0 <=? x) l && (sumZ l <? 2 ^ 64) = true → amounts l.
Proof.
  intros [Hl Hs%Z.ltb_lt]%andb_prop. split; [|done]. apply Forall_forall.
  intros x Hx%list_elem_of_In. apply Z.leb_le. by eapply forallb_forall in Hl.
Defined.

Example maximize_unilateral_exit_witness :
  let plan := maximize_unilateral_exit [3; 4; 4] 65 in
  ∃ kept, [3; 4; 4] ≡ₚ gives (swaps plan) ++ kept ∧
    receives (swaps plan) ++ kept = greedy_leaves 11.
Proof.
  destruct (maximize_unilateral_exit_spec [3; 4; 4] 65) as (_ & kept & Hk & _ & Hc).
  - apply amounts_dec_intro. reflexivity.
  - lia.
  - exists kept. split; [exact Hk|]. by apply Hc.
Defined.

Example minimize_transfer_swap_witness :
  ∃ plan, @minimize_transfer_swap (canonical_iter Z) [3; 7; 9] 1 64 = Some plan ∧
    gives (swaps plan) ⊆+ [3; 7; 9].
Proof.
  destruct (@minimize_transfer_swap_spec (canonical_iter Z) [3; 7; 9] 1 64) as (plan & ? & _ & ? & _).
  - apply amounts_dec_intro. reflexivity.
  - lia.
  - lia.
  - exists plan. split; assumption.
Defined.
