(* ===== verification/LeafOptimizer.v ===== *)
(** * Running leaf optimizations: [LeafOptimizer] of [spark/src/tree/leaf_optimizer.rs]

    The driver around the plans of [LeafPlan]: the planning iterations, the swap
    rounds, cancellation, round caps and the events of the automatic mode. The
    tree service, the swap service and the cancel signal are arguments that act
    on an arbitrary world [W]; a run threads that world and the log of emitted
    events, and [None] is a panic. Round counters stay far below [2^32]. *)

From S2P Require Import Prelude Bitcoin TreeModel LeafSelect LeafPlan LeafPlanSpec.

(** [error] is kept as the error it is printed from. *)
Inductive AutoOptimizationEvent :=
| Started (total_rounds : Z)
| RoundCompleted (current_round total_rounds : Z)
| Completed
| Cancelled
| Failed (error : TreeServiceError.t)
| Skipped.

Module OptimizationOutcome.
Inductive t :=
| Completed (rounds_executed : Z)
| InProgress.
End OptimizationOutcome.

Module OptimizationError.
Inductive t :=
| AlreadyRunning
| Cancelled
| Tree (e : TreeServiceError.t).
End OptimizationError.

(** ** Claiming the single running slot *)

(** [RunState] with the value of the cancel signal. *)
Record RunState := { is_running : bool; cancel_signal : bool }.

(** The locked block at the head of [start] and [run]. *)
Definition claim (st : RunState) : option RunState :=
  if is_running st then None else Some {| is_running := true; cancel_signal := false |}.

(** [Drop] of [RunningGuard]. *)
Definition release (st : RunState) : RunState :=
  {| is_running := false; cancel_signal := cancel_signal st |}.

(** [cancel], up to waiting for the run to stop. *)
Definition cancel (st : RunState) : RunState :=
  if is_running st then {| is_running := true; cancel_signal := true |} else st.

Section optimizer.
Context `{Bitcoin} `{!HashIter Z} {W : Type}.

Class OptimizerEnv := {
  cancel_requested : W → bool * W;
  list_leaves : W → TreeResult Leaves * W;
  (** with [ReservationPurpose::Swap] and no waiting *)
  select_leaves : TargetAmounts → W → TreeResult LeavesReservation * W;
  swap_leaves : list TreeNode → list Z → W → TreeResult (list TreeNode) * W;
  finalize_reservation : LeavesReservationId → list TreeNode → W → TreeResult unit * W;
  cancel_reservation : LeavesReservation → W → TreeResult unit * W;
  (** [format!("... {round}: {e:?}")] *)
  swap_failure : Z → TreeServiceError.t → TreeServiceError.t;
}.

(** A run's state: the world and the events emitted so far. *)
Definition M (A : Type) : Type := W * list AutoOptimizationEvent → option (A * (W * list AutoOptimizationEvent)).

#[local] Instance M_ret : MRet M := λ A a s, Some (a, s).
#[local] Instance M_bind : MBind M := λ A B f m s,
  match m s with Some (a, s) => f a s | None => None end.

Definition call {A} (f : W → A * W) : M A := λ '(w, log),
  let '(a, w) := f w in Some (a, (w, log)).
Definition panic_or {A} (o : option A) : M A := λ s,
  match o with Some a => Some (a, s) | None => None end.
Definition emit_event (emit_events : bool) (event : AutoOptimizationEvent) : M unit :=
  λ '(w, log), Some ((), (w, if emit_events then log ++ [event] else log)).

Context `{!OptimizerEnv} (config : LeafOptimizationOptions).

Definition execute_one_swap (swap : SwapPlan) (round total_rounds : Z) (emit_events : bool)
    : M (TreeResult bool) :=
  selected ← call (select_leaves (ExactDenominations (leaves_to_give swap)));
  match selected with
  | Err _ => mret (Ok false)
  | Ok swap_reservation =>
      swapped ← call (swap_leaves (reservation_leaves swap_reservation) (leaves_to_receive swap));
      match swapped with
      | Ok new_leaves =>
          _ ← call (finalize_reservation (reservation_id swap_reservation) new_leaves);
          _ ← emit_event emit_events (RoundCompleted round total_rounds);
          mret (Ok true)
      | Err e =>
          _ ← call (cancel_reservation swap_reservation);
          mret (Err (swap_failure round e))
      end
  end.

Abbreviation Outcome := (result OptimizationError.t OptimizationOutcome.t) (only parsing).

(** The [for swap in swaps] loop: the early return, or the rounds done so far. *)
Fixpoint run_swaps (max_rounds : option Z) (emit_events plan_is_terminal : bool)
    (last_total_estimate : Z) (swaps : list SwapPlan) (rounds_this_call : Z) : M (Outcome + Z) :=
  match swaps with
  | [] => mret (inr rounds_this_call)
  | swap :: swaps =>
      cancelled ← call cancel_requested;
      if (cancelled : bool) then
        _ ← emit_event emit_events Cancelled;
        mret (inl (Err OptimizationError.Cancelled))
      else
        done ← execute_one_swap swap (rounds_this_call + 1) last_total_estimate emit_events;
        match done with
        | Ok true =>
            let rounds_this_call := rounds_this_call + 1 in
            match max_rounds with
            | Some max =>
                if max <=? rounds_this_call then
                  mret (inl (Ok (if plan_is_terminal
                    then OptimizationOutcome.Completed rounds_this_call
                    else OptimizationOutcome.InProgress)))
                else run_swaps max_rounds emit_events plan_is_terminal last_total_estimate
                       swaps rounds_this_call
            | None => run_swaps max_rounds emit_events plan_is_terminal last_total_estimate
                        swaps rounds_this_call
            end
        | Ok false => run_swaps max_rounds emit_events plan_is_terminal last_total_estimate
                        swaps rounds_this_call
        | Err e =>
            _ ← emit_event emit_events (Failed e);
            mret (inl (Err (OptimizationError.Tree e)))
        end
  end.

(** The [for iteration in 1..=MAX_PLANNING_ITERATIONS] loop; [first] says that
    this is iteration 1, [iterations] how many are left. *)
Fixpoint run_iterations (iterations : nat) (first : bool) (max_rounds : option Z)
    (emit_events started_emitted : bool) (rounds_this_call : Z) : M (Outcome + Z) :=
  match iterations with
  | O => mret (inr rounds_this_call)
  | S iterations =>
      cancelled ← call cancel_requested;
      if (cancelled : bool) then
        _ ← emit_event emit_events Cancelled;
        mret (inl (Err OptimizationError.Cancelled))
      else
        listed ← call list_leaves;
        match listed with
        | Err e => mret (inl (Err (OptimizationError.Tree e)))
        | Ok listed =>
            let values := value <$> available listed in
            if bool_decide (values = []) then mret (inr rounds_this_call)
            else if first && (rounds_this_call =? 0) && negb (should_optimize config values)
            then mret (inr rounds_this_call)
            else
              plan ← panic_or (calculate_optimization_swaps values (multiplicity config)
                (max_leaves_per_swap config));
              if bool_decide (swaps plan = []) then mret (inr rounds_this_call)
              else
                let rounds_in_iter := Z.of_nat (length (swaps plan)) in
                let plan_is_terminal := (rounds_in_iter =? 1) && fully_converges plan in
                let last_total_estimate := rounds_this_call + rounds_in_iter in
                _ ← (if emit_events && negb started_emitted
                     then emit_event true (Started last_total_estimate) else mret ());
                r ← run_swaps max_rounds emit_events plan_is_terminal last_total_estimate
                  (swaps plan) rounds_this_call;
                match r with
                | inl outcome => mret (inl outcome)
                | inr rounds =>
                    run_iterations iterations false max_rounds emit_events true rounds
                end
        end
  end.

Definition run_inner (max_rounds : option Z) (emit_events : bool) : M Outcome :=
  r ← run_iterations MAX_PLANNING_ITERATIONS true max_rounds emit_events false 0;
  match r with
  | inl outcome => mret outcome
  | inr rounds_this_call =>
      _ ← emit_event emit_events (if rounds_this_call =? 0 then Skipped else Completed);
      mret (Ok (OptimizationOutcome.Completed rounds_this_call))
  end.

(** [run], on a world whose slot is in the state [st]. *)
Definition run (st : RunState) (max_rounds : option Z) : M Outcome :=
  match claim st with
  | None => mret (Err OptimizationError.AlreadyRunning)
  | Some _ => run_inner max_rounds false
  end.

(** The task spawned by [start], if any. *)
Definition start (st : RunState) : option (M Outcome) :=
  match claim st with
  | None => None
  | Some _ => Some (run_inner None true)
  end.

(** ** What a run reports *)

(** Rounds [r + 1], [r + 2], ... with the totals [totals]. *)
Definition round_events (r : Z) (totals : list Z) : list AutoOptimizationEvent :=
  zip_with RoundCompleted (seqZ (r + 1) (Z.of_nat (length totals))) totals.

Lemma round_events_cons r t totals :
  round_events r (t :: totals) = RoundCompleted (r + 1) t :: round_events (r + 1) totals.
Proof.
  unfold round_events. simpl length. rewrite seqZ_cons by lia. simpl. do 2 f_equal.
  f_equal; lia.
Qed.

Lemma round_events_app r t1 t2 :
  round_events r (t1 ++ t2) = round_events r t1 ++ round_events (r + Z.of_nat (length t1)) t2.
Proof.
  revert r. induction t1 as [|t t1 IH]; intros r; [by rewrite Z.add_0_r|].
  rewrite <- app_comm_cons, !round_events_cons, IH. simpl. f_equal. f_equal. f_equal. lia.
Qed.

Definition if_emit (emit_events : bool) (l : list AutoOptimizationEvent) :=
  if emit_events then l else [].

Definition cap_ok (max_rounds : option Z) (r : Z) : Prop :=
  match max_rounds with Some max => r = 0 ∨ r < max | None => True end.

Definition under_cap (max_rounds : option Z) (r : Z) : Prop :=
  match max_rounds with Some max => r ≤ Z.max 1 max | None => True end.

Lemma cap_ok_under max_rounds r : cap_ok max_rounds r → under_cap max_rounds r.
Proof. destruct max_rounds; simpl; lia. Qed.

(** The terminal event that goes with an early return after [n] rounds. *)
Definition early_return (max_rounds : option Z) (n : Z) (outcome : Outcome)
    (terminal : list AutoOptimizationEvent) : Prop :=
  match outcome with
  | Ok o => terminal = [] ∧ is_Some max_rounds ∧ 0 < n ∧
      (o = OptimizationOutcome.InProgress ∨ o = OptimizationOutcome.Completed n)
  | Err OptimizationError.Cancelled => terminal = [Cancelled]
  | Err (OptimizationError.Tree e) => terminal = [Failed e]
  | Err OptimizationError.AlreadyRunning => False
  end.

Lemma execute_one_swap_log swap round total emit s r w' log' :
  execute_one_swap swap round total emit s = Some (r, (w', log')) →
  log' = s.2 ++ if_emit emit (match r with Ok true => [RoundCompleted round total] | _ => [] end).
Proof.
  destruct s as [w log]. unfold execute_one_swap, call, emit_event, mbind, M_bind, mret, M_ret. simpl.
  destruct (select_leaves _ w) as [[res|e] w1]; [|intros [= <- <- <-]; by destruct emit; simpl; rewrite app_nil_r].
  destruct (swap_leaves _ _ w1) as [[new|e] w2].
  - destruct (finalize_reservation _ _ w2). destruct emit; intros [= <- <- <-]; simpl;
      by rewrite ?app_nil_r.
  - destruct (cancel_reservation _ w2). intros [= <- <- <-]. destruct emit; by rewrite ?app_nil_r.
Qed.

Lemma run_swaps_log cap emit term est sw r0 w log r w' log' :
  0 ≤ r0 → cap_ok cap r0 →
  run_swaps cap emit term est sw r0 (w, log) = Some (r, (w', log')) →
  ∃ totals terminal,
    log' = log ++ if_emit emit (round_events r0 totals ++ terminal) ∧
    let n := r0 + Z.of_nat (length totals) in
    under_cap cap n ∧
    match r with
    | inr r1 => r1 = n ∧ terminal = [] ∧ cap_ok cap n
    | inl outcome => early_return cap n outcome terminal
    end.
Proof.
  revert r0 w log. induction sw as [|swap sw IH]; intros r0 w log Hr0 Hcap; simpl.
  { intros [= <- <- <-]. exists [], []. simpl. rewrite Z.add_0_r.
    split_and!; [by destruct emit; simpl; rewrite app_nil_r|by apply cap_ok_under|done|done|done]. }
  unfold mbind, M_bind, mret, M_ret. simpl. destruct (cancel_requested w) as [[] w1].
  { destruct emit; intros [= <- <- <-]; exists [], [Cancelled]; simpl; rewrite Z.add_0_r;
      rewrite ?app_nil_r; split_and!; (done || by apply cap_ok_under). }
  destruct (execute_one_swap _ _ _ _ _) as [[o [w2 log2]]|] eqn:Hex; [|done].
  apply execute_one_swap_log in Hex as ->. simpl. destruct o as [[]|e].
  - destruct cap as [max|].
    + destruct (Z.leb_spec max (r0 + 1)) as [Hle|Hgt].
      * intros [= <- <- <-]. exists [est], []. rewrite round_events_cons. simpl.
        split_and!; [done|simpl in Hcap; lia|done|by eexists|lia|].
        destruct term; [by right|by left].
      * intros Hrun. apply IH in Hrun as (totals & terminal & -> & Hu & Hr); [|lia|simpl; lia].
        exists (est :: totals), terminal. rewrite round_events_cons. simpl length.
        replace (r0 + Z.of_nat (S (length totals))) with (r0 + 1 + Z.of_nat (length totals)) by lia.
        split; [|by split]. destruct emit; simpl; [by rewrite <- app_assoc|by rewrite !app_nil_r].
    + intros Hrun. apply IH in Hrun as (totals & terminal & -> & Hu & Hr); [|lia|done].
      exists (est :: totals), terminal. rewrite round_events_cons. simpl length.
      replace (r0 + Z.of_nat (S (length totals))) with (r0 + 1 + Z.of_nat (length totals)) by lia.
      split; [|by split]. destruct emit; simpl; [by rewrite <- app_assoc|by rewrite !app_nil_r].
  - intros Hrun. apply IH in Hrun as (totals & terminal & -> & Hu & Hr); [|done|done].
    exists totals, terminal. split; [|done]. destruct emit; simpl; by rewrite !app_nil_r.
  - destruct emit; intros [= <- <- <-]; exists [], [Failed e]; simpl; rewrite Z.add_0_r;
      rewrite ?app_nil_r; split_and!; (done || by apply cap_ok_under).
Qed.

(** The [Started] event comes first, once, and before any round. *)
Definition started_ok (started_emitted : bool) (start : list AutoOptimizationEvent) (totals : list Z) : Prop :=
  (start = [] ∧ (started_emitted = false → totals = [])) ∨
  (started_emitted = false ∧ ∃ n, start = [Started n]).

Lemma run_iterations_log it first cap emit started r0 w log r w' log' :
  0 ≤ r0 → cap_ok cap r0 →
  run_iterations it first cap emit started r0 (w, log) = Some (r, (w', log')) →
  ∃ start totals terminal,
    log' = log ++ if_emit emit (start ++ round_events r0 totals ++ terminal) ∧
    (emit = true → started_ok started start totals) ∧
    let n := r0 + Z.of_nat (length totals) in
    under_cap cap n ∧
    match r with
    | inr r1 => r1 = n ∧ terminal = [] ∧ cap_ok cap n
    | inl outcome => early_return cap n outcome terminal ∨
        (terminal = [] ∧ ∃ e, outcome = Err (OptimizationError.Tree e))
    end.
Proof.
  revert first started r0 w log. induction it as [|it IH]; intros first started r0 w log Hr0 Hcap.
  { intros [= <- <- <-]. exists [], [], []. simpl. rewrite Z.add_0_r.
    split_and!; [by destruct emit; rewrite app_nil_r|by left|by apply cap_ok_under|done..]. }
  assert (∀ o w1, o = inr r0 ∨ (∃ e, o = inl (Err (OptimizationError.Tree e))) →
    Some (o, (w1, log)) = Some (r, (w', log')) → ∃ start totals terminal,
      log' = log ++ if_emit emit (start ++ round_events r0 totals ++ terminal) ∧
      (emit = true → started_ok started start totals) ∧
      let n := r0 + Z.of_nat (length totals) in
      under_cap cap n ∧
      match r with
      | inr r1 => r1 = n ∧ terminal = [] ∧ cap_ok cap n
      | inl outcome => early_return cap n outcome terminal ∨
          (terminal = [] ∧ ∃ e, outcome = Err (OptimizationError.Tree e))
      end) as Hquiet.
  { intros o w1 Ho [= <- <- <-]. exists [], [], []. simpl. rewrite Z.add_0_r.
    split_and!; [by destruct emit; rewrite app_nil_r|by left|by apply cap_ok_under|].
    destruct Ho as [->|[e ->]]; [done|]. right. eauto. }
  simpl. unfold mbind, M_bind, mret, M_ret. simpl. destruct (cancel_requested w) as [[] w1].
  { destruct emit; intros [= <- <- <-]; exists [], [], [Cancelled]; simpl; rewrite Z.add_0_r;
      rewrite ?app_nil_r; (split_and!; [done|by left|by apply cap_ok_under|by left]). }
  simpl. destruct (list_leaves w1) as [[listed|e] w2]; simpl; [|by apply Hquiet; eauto].
  case_bool_decide; [by apply Hquiet; eauto|].
  destruct (first && _ && _); [by apply Hquiet; eauto|]. unfold panic_or. simpl.
  destruct (calculate_optimization_swaps _ _ _) as [plan|]; simpl; [|done].
  case_bool_decide; [by apply Hquiet; eauto|].
  set (est := r0 + Z.of_nat (length (swaps plan))).
  set (start := if emit && negb started then [Started est] else []).
  assert ((if emit && negb started then emit_event true (Started est) else λ s, Some ((), s))
    (w2, log) = Some ((), (w2, log ++ start))) as ->.
  { unfold start. destruct (emit && negb started); simpl; by rewrite ?app_nil_r. }
  match goal with |- context [run_swaps cap emit ?t est _ r0 _] => set (term := t) end.
  destruct (run_swaps _ _ _ _ _ _ _) as [[r1 [w3 log3]]|] eqn:Hsw; [|done].
  apply run_swaps_log in Hsw as (totals & terminal & -> & Hu & Hr); [|done|done].
  assert (∀ more, log ++ start ++ if_emit emit more = log ++ if_emit emit (start ++ more)) as Hstart.
  { intros more. unfold start. by destruct emit. }
  rewrite <- app_assoc, Hstart.
  assert (emit = true → ∀ ts, started_ok started start ts) as Hso.
  { intros -> ts. unfold start. destruct started; simpl; [by left|]. right. eauto. }
  destruct r1 as [outcome|r1].
  - intros [= <- <- <-]. exists start, totals, terminal. split_and!; [done|auto|done|by left].
  - destruct Hr as (-> & -> & Hcap1). intros Hrun.
    apply IH in Hrun as (start2 & totals2 & terminal2 & -> & Hs2 & Hu2 & Hr2); [|lia|done].
    exists start, (totals ++ totals2), terminal2. rewrite round_events_app, length_app, Nat2Z.inj_add.
    rewrite Z.add_assoc. split_and!; [|auto|done|done].
    rewrite <- app_assoc. f_equal. destruct emit; simpl; [|done].
    destruct (Hs2 eq_refl) as [[-> _]|[? _]]; [|done]. rewrite app_nil_r, <- !app_assoc. done.
Qed.

(** What an automatic run reports through its events is what happened: at
    most one [Started], before anything else; then one [RoundCompleted] per
    executed round, numbered 1, 2, ...; then exactly one terminal event that
    matches the outcome. The exception is a failure to list the wallet's leaves,
    which ends the run without a terminal event. *)
Theorem auto_run_events w outcome w' log :
  run_inner None true (w, []) = Some (outcome, (w', log)) →
  ∃ start totals terminal,
    log = start ++ round_events 0 totals ++ terminal ∧
    ((start = [] ∧ totals = []) ∨ ∃ n, start = [Started n]) ∧
    match outcome with
    | Ok (OptimizationOutcome.Completed n) =>
        n = Z.of_nat (length totals) ∧ terminal = [if n =? 0 then Skipped else Completed]
    | Ok OptimizationOutcome.InProgress => False
    | Err OptimizationError.Cancelled => terminal = [Cancelled]
    | Err (OptimizationError.Tree e) => terminal = [Failed e] ∨ terminal = []
    | Err OptimizationError.AlreadyRunning => False
    end.
Proof.
  unfold run_inner, mbind, M_bind, mret, M_ret.
  destruct (run_iterations _ _ _ _ _ _ _) as [[r [w1 log1]]|] eqn:Hrun; [|done].
  apply run_iterations_log in Hrun as (start & totals & terminal & -> & Hs & _ & Hr); [|done|done].
  specialize (Hs eq_refl). simpl in Hr.
  assert ((start = [] ∧ totals = []) ∨ ∃ n, start = [Started n]) as Hstart.
  { destruct Hs as [[? ?]|[_ ?]]; eauto. }
  destruct r as [o|r1].
  - intros [= <- <- <-]. exists start, totals, terminal. split_and!; [done|done|].
    destruct Hr as [Hr|[-> [e ->]]]; [|by right].
    destruct o as [[]|[]]; simpl in Hr; [| | | |by left]; try done.
    + destruct Hr as (_ & [? ?] & _). done.
    + destruct Hr as (_ & [? ?] & _). done.
  - destruct Hr as (-> & -> & _). intros [= <- <- <-].
    exists start, totals, [if Z.of_nat (length totals) =? 0 then Skipped else Completed].
    rewrite app_nil_r. simpl. rewrite <- app_assoc. done.
Qed.

(** A manual run emits no events and respects its cap: it never reports more
    than [max_rounds] executed rounds, except that a cap of zero still lets one
    round run. It is rejected, without touching anything, while another run holds
    the slot. *)
Theorem manual_run_capped st max_rounds w outcome w' log :
  run st max_rounds (w, []) = Some (outcome, (w', log)) →
  log = [] ∧
  (is_running st = true → outcome = Err OptimizationError.AlreadyRunning ∧ w' = w) ∧
  match outcome with
  | Ok (OptimizationOutcome.Completed n) => 0 ≤ n ∧ under_cap max_rounds n
  | Ok OptimizationOutcome.InProgress => is_Some max_rounds
  | Err OptimizationError.AlreadyRunning => is_running st = true
  | Err _ => True
  end.
Proof.
  unfold run, claim. destruct (is_running st).
  { intros [= <- <- <-]. done. }
  unfold run_inner, mbind, M_bind, mret, M_ret.
  destruct (run_iterations _ _ _ _ _ _ _) as [[r [w1 log1]]|] eqn:Hrun; [|done].
  apply run_iterations_log in Hrun as (start & totals & terminal & -> & _ & Hu & Hr);
    [|done|by destruct max_rounds; [left|]].
  simpl in *. destruct r as [o|r1].
  - intros [= <- <- <-]. split_and!; [done|done|].
    destruct Hr as [Hr|[_ [e ->]]]; [|done]. destruct o as [[n|]|[]]; simpl in Hr; try done.
    + destruct Hr as (_ & _ & _ & [?|[= ->]]); [done|]. split; [lia|done].
    + by destruct Hr as (_ & ? & _).
  - intros [= <- <- <-]. destruct Hr as (-> & _). split_and!; [done|done|lia|done].
Qed.

(** ** Termination *)

Definition lists_amounts : Prop :=
  ∀ w l w', list_leaves w = (Ok l, w') → amounts (value <$> available l).

Definition config_ok : Prop :=
  validate config = Ok () ∧ 0 ≤ max_leaves_per_swap config ∧ 0 ≤ multiplicity config.

Lemma plan_total values :
  config_ok → amounts values →
  is_Some (calculate_optimization_swaps values (multiplicity config) (max_leaves_per_swap config)).
Proof.
  intros (Hv & Hmax & Hmul) Ha. unfold validate in Hv.
  destruct (Z.eqb_spec (max_leaves_per_swap config) 0); [done|].
  unfold calculate_optimization_swaps. destruct (Z.eqb_spec (multiplicity config) 0); [by eexists|].
  apply minimize_total; [done|lia|lia].
Qed.

Lemma execute_one_swap_total swap round total emit s :
  is_Some (execute_one_swap swap round total emit s).
Proof.
  destruct s as [w log]. unfold execute_one_swap, call, emit_event, mbind, M_bind, mret, M_ret.
  simpl. destruct (select_leaves _ w) as [[res|e] w1]; simpl; [|by eexists].
  destruct (swap_leaves _ _ w1) as [[new|e] w2]; simpl.
  - by destruct (finalize_reservation _ _ w2); eexists.
  - by destruct (cancel_reservation _ w2); eexists.
Qed.

Lemma run_swaps_total cap emit term est sw r0 s : is_Some (run_swaps cap emit term est sw r0 s).
Proof.
  revert r0 s. induction sw as [|swap sw IH]; intros r0 [w log]; simpl; [by eexists|].
  unfold mbind, M_bind. simpl. destruct (cancel_requested w) as [[] w1]; [by eexists|].
  destruct (execute_one_swap_total swap (r0 + 1) est emit (w1, log)) as [[[[]|e] s'] ->].
  - destruct cap; [|apply IH]. case_match; [by eexists|apply IH].
  - apply IH.
  - by destruct s'; eexists.
Qed.

Lemma run_iterations_total it first cap emit started r0 s :
  config_ok → lists_amounts → is_Some (run_iterations it first cap emit started r0 s).
Proof.
  intros Hc Hl. revert first started r0 s.
  induction it as [|it IH]; intros first started r0 [w log]; simpl; [by eexists|].
  unfold mbind, M_bind. simpl. destruct (cancel_requested w) as [[] w1]; [by eexists|]. simpl.
  destruct (list_leaves w1) as [[listed|e] w2] eqn:Hlist; simpl; [|by eexists].
  apply Hl in Hlist. case_bool_decide; [by eexists|].
  destruct (first && _ && _); [by eexists|]. unfold panic_or. simpl.
  destruct (plan_total (value <$> available listed) Hc Hlist) as [plan ->]. simpl.
  case_bool_decide; [by eexists|].
  match goal with |- context [(if ?b then emit_event true ?e else ?r) ?s] =>
    assert (∃ s', (if b then emit_event true e else r) s = Some ((), s')) as [s' ->] end.
  { destruct (emit && negb started); by eexists. }
  match goal with |- context [run_swaps ?c ?em ?t ?est ?sw ?r ?s] =>
    destruct (run_swaps_total c em t est sw r s) as [[[o|r1] s''] ->] end; [by eexists|apply IH].
Qed.

(** With a validated configuration and balances below [2^64] sats a run
    always ends, after at most eight planning iterations, with an outcome or an
    error: no plan panics and no planning loop runs on. *)
Theorem run_inner_terminates max_rounds emit_events w :
  config_ok → lists_amounts →
  ∃ outcome w' log, run_inner max_rounds emit_events (w, []) = Some (outcome, (w', log)).
Proof.
  intros Hc Hl. unfold run_inner, mbind, M_bind, mret, M_ret.
  destruct (run_iterations_total MAX_PLANNING_ITERATIONS true max_rounds emit_events false 0 (w, [])
    Hc Hl) as [[[o|r] [w1 log]] ->]; [by eauto|]. by eexists _, _, _.
Qed.
End optimizer.

(** ** A wallet of bare amounts that swaps at once *)

#[local] Existing Instance bip68.
#[local] Instance amount_order : HashIter Z := canonical_iter Z.

Fixpoint remove_one (x : Z) (l : list Z) : list Z :=
  match l with [] => [] | y :: l => if x =? y then l else y :: remove_one x l end.

Definition amount_nodes (l : list Z) : list TreeNode := (λ v, bip68_node "leaf" v None) <$> l.

#[local] Instance amount_wallet : OptimizerEnv (W := list Z) :=
  {| cancel_requested w := (false, w);
     list_leaves w :=
       (Ok {| available := amount_nodes ((λ v, v mod 2 ^ 16) <$> take (Z.to_nat (2 ^ 10)) w);
              not_available := []; available_missing_from_operators := [];
              reserved_for_payment := []; reserved_for_swap := [] |}, w);
     select_leaves ta w :=
       match ta with
       | ExactDenominations ds =>
           (Ok (LeavesReservation_new (amount_nodes ds) "r"), foldl (λ w x, remove_one x w) w ds)
       | _ => (Err TreeServiceError.InvalidAmount, w)
       end;
     swap_leaves _ receive w := (Ok (amount_nodes receive), w);
     finalize_reservation _ new w := (Ok (), w ++ (value <$> new));
     cancel_reservation r w := (Ok (), w ++ (value <$> reservation_leaves r));
     swap_failure _ e := e |}.

Definition idle : RunState := {| is_running := false; cancel_signal := false |}.

(** The automatic run on 3, 7 and 9 sats swaps twice and completes. *)
Example auto_run_witness :
  let '(outcome, log) :=
    match run_inner LeafOptimizationOptions_default None true ([3; 7; 9], []) with
    | Some (o, (_, log)) => (o, log)
    | None => (Err OptimizationError.Cancelled, [])
    end in
  outcome = Ok (OptimizationOutcome.Completed 2) ∧
  ∃ totals, log = Started 2 :: round_events 0 totals ++ [Completed].
Proof.
  pose proof (auto_run_events LeafOptimizationOptions_default [3; 7; 9]) as He.
  assert ((match run_inner LeafOptimizationOptions_default None true ([3; 7; 9], []) with
    | Some (o, (_, log)) => Some (o, log) | None => None end) =
    Some (Ok (OptimizationOutcome.Completed 2),
      [Started 2; RoundCompleted 1 2; RoundCompleted 2 2; Completed])) as Hc
    by (vm_compute; reflexivity).
  destruct (run_inner _ _ _ _) as [[o [w' log]]|]; [|discriminate Hc]. injection Hc as -> ->.
  split; [reflexivity|]. exists [2; 2].
  destruct (He _ _ _ eq_refl) as (start & totals & terminal & Hlog & _ & _ & _).
  reflexivity.
Defined.

(** A cap of zero: one round runs all the same. *)
Example manual_run_witness :
  match run LeafOptimizationOptions_default idle (Some 0) ([3; 7; 9], []) with
  | Some (o, (w', log)) => o = Ok OptimizationOutcome.InProgress ∧ w' = [7; 9; 1; 2] ∧ log = []
  | None => False
  end.
Proof.
  pose proof (manual_run_capped LeafOptimizationOptions_default idle (Some 0) [3; 7; 9]) as Hm.
  assert ((match run LeafOptimizationOptions_default idle (Some 0) ([3; 7; 9], []) with
    | Some (o, (w', _)) => Some (o, w') | None => None end) =
    Some (Ok OptimizationOutcome.InProgress, [7; 9; 1; 2])) as Hc by (vm_compute; reflexivity).
  destruct (run _ _ _ _) as [[o [w' log]]|]; [|discriminate Hc]. injection Hc as -> ->.
  destruct (Hm _ _ _ eq_refl) as (-> & _). split_and!; reflexivity.
Defined.

Example run_terminates_witness :
  ∃ outcome w' log,
    run_inner LeafOptimizationOptions_default None true ([3; 7; 9], []) = Some (outcome, (w', log)).
Proof.
  apply run_inner_terminates.
  - split_and!; [reflexivity|vm_compute; discriminate|vm_compute; discriminate].
  - intros w l w' [= <- <-]. cbn [available]. unfold amount_nodes.
    rewrite <- list_fmap_compose. simpl.
    set (f := λ v : Z, v mod 2 ^ 16).
    replace (_ <$> (f <$> take _ w)) with (f <$> take (Z.to_nat (2 ^ 10)) w).
    2:{ rewrite <- list_fmap_compose. by apply list_fmap_ext. }
    assert (∀ k : list Z, 0 ≤ sumZ (f <$> k) ≤ 65535 * Z.of_nat (length k) ∧
      Forall (λ x, 0 ≤ x) (f <$> k)) as Hf.
    { induction k as [|x k [IH1 IH2]]; [by split|]. csimpl. unfold f at 1 3 5.
      pose proof (Z.mod_pos_bound x (2 ^ 16)). split; [lia|]. constructor; [lia|done]. }
    destruct (Hf (take (Z.to_nat (2 ^ 10)) w)) as [[_ Hs] Hn]. split; [done|].
    rewrite length_take in Hs. lia.
Defined.
