(* ===== verification/TokenModel.v ===== *)
(** * Token outputs: [spark/src/token/mod.rs], [spark/src/token/error.rs]

    The data of the token store and the selection of outputs that cover a
    target. Token amounts are [u128]. *)

From S2P Require Import Prelude Bitcoin.

Module TokenOutputServiceError.
(** The variants that wrap other crates' errors carry their text. *)
Inductive t :=
| InsufficientFunds (token_identifier : option string)
| RpcError (e : string)
| SignerError (e : string)
| ServiceError (e : string)
| Generic (msg : string).
End TokenOutputServiceError.

Abbreviation TokenResult := (result TokenOutputServiceError.t) (only parsing).

Module TokenReservationPurpose.
Inductive t := Payment | Swap.
#[global] Instance t_eq_dec : EqDecision t.
Proof. solve_decision. Defined.
End TokenReservationPurpose.

Inductive SelectionStrategy := SmallestFirst | LargestFirst.

Inductive ReservationTarget :=
| MinTotalValue (amount : Z)
| MaxOutputCount (count : Z).

(** Parent transaction hash and output index. *)
Abbreviation OutPoint := (string * Z)%type (only parsing).

Section token_model.
Context `{Bitcoin}.

Record TokenMetadata := {
  identifier : string;
  issuer_public_key : PublicKey;
  name : string;
  ticker : string;
  decimals : Z;
  max_supply : Z;
  is_freezable : bool;
  creation_entity_public_key : option PublicKey;
}.

Record TokenOutput := {
  owner_public_key : PublicKey;
  revocation_commitment : string;
  withdraw_bond_sats : Z;
  withdraw_relative_block_locktime : Z;
  token_public_key : option PublicKey;
  token_identifier : string;
  token_amount : Z;
}.

Record TokenOutputWithPrevOut := {
  output : TokenOutput;
  prev_tx_hash : string;
  prev_tx_vout : Z;
}.

Definition amount_of (o : TokenOutputWithPrevOut) : Z := token_amount (output o).
Definition token_of (o : TokenOutputWithPrevOut) : string := token_identifier (output o).

Record TokenOutputs := {
  metadata : list TokenMetadata;
  outputs : list TokenOutputWithPrevOut;
}.

(** [TokenOutputs::single] *)
Definition single (m : TokenMetadata) (o : list TokenOutputWithPrevOut) : TokenOutputs :=
  {| metadata := [m]; outputs := o |}.

Definition outpoint_of (o : TokenOutputWithPrevOut) : OutPoint := (prev_tx_hash o, prev_tx_vout o).

Definition prev_outpoints (self : TokenOutputs) : gset OutPoint :=
  list_to_set (outpoint_of <$> outputs self).

Definition metadata_for (self : TokenOutputs) (token_identifier : string) : option TokenMetadata :=
  List.find (λ m, bool_decide (identifier m = token_identifier)) (metadata self).

Record TokenOutputsPerStatus := {
  ps_metadata : TokenMetadata;
  available : list TokenOutputWithPrevOut;
  reserved_for_payment : list TokenOutputWithPrevOut;
  reserved_for_swap : list TokenOutputWithPrevOut;
}.

Definition available_balance (self : TokenOutputsPerStatus) : Z :=
  sum_wrap 128 (amount_of <$> available self).
Definition reserved_for_swap_balance (self : TokenOutputsPerStatus) : Z :=
  sum_wrap 128 (amount_of <$> reserved_for_swap self).
Definition balance (self : TokenOutputsPerStatus) : Z :=
  uadd 128 (available_balance self) (reserved_for_swap_balance self).

Record TokenOutputsReservation := {
  reservation_id : string;
  token_outputs : TokenOutputs;
}.

Definition TokenOutputsReservation_new (id : string) (o : TokenOutputs) : TokenOutputsReservation :=
  {| reservation_id := id; token_outputs := o |}.

(** ** Selecting *)

(** [sort_by_key(token_amount)] and [sort_by_key(Reverse(token_amount))] *)
Definition sort_outputs (strategy : option SelectionStrategy) (l : list TokenOutputWithPrevOut)
    : list TokenOutputWithPrevOut :=
  match strategy with
  | None | Some SmallestFirst => stable_sort (λ a b, amount_of a <=? amount_of b) l
  | Some LargestFirst => stable_sort (λ a b, amount_of b <=? amount_of a) l
  end.

(** The [for output in outputs] loop. *)
Fixpoint take_until (l : list TokenOutputWithPrevOut) (remaining_amount : Z)
    (selected : list TokenOutputWithPrevOut) : list TokenOutputWithPrevOut * Z :=
  match l with
  | [] => (selected, remaining_amount)
  | o :: l =>
      if remaining_amount =? 0 then (selected, remaining_amount)
      else take_until l (saturating_sub remaining_amount (amount_of o)) (selected ++ [o])
  end.

Definition select_token_outputs_from (token_identifier : string)
    (outputs : list TokenOutputWithPrevOut) (target : ReservationTarget)
    (selection_strategy : option SelectionStrategy) : TokenResult (list TokenOutputWithPrevOut) :=
  let insufficient := TokenOutputServiceError.InsufficientFunds (Some token_identifier) in
  match target with
  | MinTotalValue amount =>
      if sum_wrap 128 (amount_of <$> outputs) <? amount then Err insufficient
      else
        match List.find (λ o, amount_of o =? amount) outputs with
        | Some o => Ok [o]
        | None =>
            let '(selected, remaining) :=
              take_until (sort_outputs selection_strategy outputs) amount [] in
            if 0 <? remaining then Err insufficient else Ok selected
        end
  | MaxOutputCount count =>
      Ok (take (Z.to_nat count) (sort_outputs selection_strategy outputs))
  end.

(** ** Facts *)

Implicit Types l : list TokenOutputWithPrevOut.

Definition amountZ l : Z := sumZ (amount_of <$> l).
Definition output_wf (o : TokenOutputWithPrevOut) : Prop := in_uint 128 (amount_of o).

Lemma amountZ_app l k : amountZ (l ++ k) = amountZ l + amountZ k.
Proof. unfold amountZ. by rewrite fmap_app, sumZ_app. Qed.

Lemma amountZ_perm l k : l ≡ₚ k → amountZ l = amountZ k.
Proof. intros Hlk. apply sumZ_perm. by rewrite Hlk. Qed.

Lemma outputs_nonneg l : Forall output_wf l → Forall (λ x, 0 ≤ x) (amount_of <$> l).
Proof. intros Hl. apply Forall_fmap. eapply Forall_impl; [done|]. by intros o [? ?]. Qed.

Lemma amountZ_nonneg l : Forall output_wf l → 0 ≤ amountZ l.
Proof. intros. by apply sumZ_nonneg, outputs_nonneg. Qed.

Lemma sort_outputs_perm strategy l : sort_outputs strategy l ≡ₚ l.
Proof. destruct strategy as [[]|]; apply stable_sort_perm. Qed.

(** The order the outputs are taken in. *)
Definition strategy_order (strategy : option SelectionStrategy) (a b : TokenOutputWithPrevOut) : Prop :=
  match strategy with
  | None | Some SmallestFirst => amount_of a ≤ amount_of b
  | Some LargestFirst => amount_of b ≤ amount_of a
  end.

Lemma sort_outputs_sorted strategy l :
  StronglySorted (strategy_order strategy) (sort_outputs strategy l).
Proof.
  destruct strategy as [[]|]; (eapply StronglySorted_impl; [|apply stable_sort_sorted]);
    simpl; intros *; rewrite ?Z.leb_le; lia.
Qed.

Lemma take_until_spec l rem sel :
  Forall output_wf l → 0 < rem →
  let '(out, rem') := take_until l rem sel in
  (0 < rem' ∧ out = sel ++ l ∧ rem' = rem - amountZ l) ∨
  (rem' = 0 ∧ ∃ pre x rest, l = pre ++ x :: rest ∧ out = sel ++ pre ++ [x] ∧
    amountZ pre < rem ≤ amountZ (pre ++ [x])).
Proof.
  revert rem sel. induction l as [|x l IH]; intros rem sel Hl Hrem; simpl.
  { left. unfold amountZ. simpl. rewrite app_nil_r. split_and!; [done|done|lia]. }
  apply Forall_cons in Hl as [[Hx _] Hl]. rewrite (proj2 (Z.eqb_neq rem 0)) by lia.
  unfold saturating_sub. destruct (Z.le_gt_cases rem (amount_of x)).
  - replace (Z.max 0 (rem - amount_of x)) with 0 by lia.
    assert (take_until l 0 (sel ++ [x]) = (sel ++ [x], 0)) as -> by by destruct l.
    right. split; [done|]. exists [], x, l. unfold amountZ. simpl. split_and!; [done|done|lia|lia].
  - replace (Z.max 0 (rem - amount_of x)) with (rem - amount_of x) by lia.
    specialize (IH (rem - amount_of x) (sel ++ [x]) Hl ltac:(lia)).
    destruct (take_until l _ _) as [out rem'].
    destruct IH as [(? & -> & ->)|(-> & pre & y & rest & -> & -> & Hpre)].
    + left. rewrite <- app_assoc. unfold amountZ in *. csimpl. split_and!; [done|done|lia].
    + right. split; [done|]. exists (x :: pre), y, rest. rewrite <- app_assoc.
      unfold amountZ in *. csimpl. split_and!; [done|done|lia|lia].
Qed.

(** Selecting outputs for a minimum value, on a pool worth less than [2^128]:
    it fails exactly when the pool is worth less; a single output of exactly the
    value wins; otherwise the outputs come in the strategy's order and stop as
    soon as the value is reached. A maximum count is never exceeded and only
    falls short when the pool does. Nothing outside the pool is returned. *)
Theorem select_token_outputs_spec tid l target strategy :
  Forall output_wf l → amountZ l < 2 ^ 128 →
  match target with
  | MinTotalValue amount =>
      0 < amount →
      match select_token_outputs_from tid l target strategy with
      | Ok sel =>
          sel ⊆+ l ∧ amount ≤ amountZ sel ∧
          (amountZ sel = amount ∧ length sel = 1%nat ∨
           (∀ o, o ∈ l → amount_of o ≠ amount) ∧
           ∃ pre x, sel = pre ++ [x] ∧ amountZ pre < amount ∧
             StronglySorted (strategy_order strategy) sel ∧
             ∃ rest, l ≡ₚ sel ++ rest ∧ ∀ a b, a ∈ sel → b ∈ rest → strategy_order strategy a b)
      | Err e => e = TokenOutputServiceError.InsufficientFunds (Some tid) ∧ amountZ l < amount
      end
  | MaxOutputCount count =>
      0 ≤ count →
      ∃ sel, select_token_outputs_from tid l target strategy = Ok sel ∧ sel ⊆+ l ∧
        Z.of_nat (length sel) = Z.min count (Z.of_nat (length l))
  end.
Proof.
  intros Hl Hb. destruct target as [amount|count]; simpl.
  - intros Hpos. rewrite sum_wrap_exact by (try done; by apply outputs_nonneg). fold (amountZ l).
    destruct (Z.ltb_spec (amountZ l) amount); [done|].
    destruct (List.find _ l) as [o|] eqn:Hf.
    + apply find_some in Hf as [Ho%list_elem_of_In Heq%Z.eqb_eq].
      unfold amountZ. simpl. split_and!; [by apply singleton_submseteq_l|lia|left; split; [lia|done]].
    + pose proof (sort_outputs_perm strategy l) as Hp.
      pose proof (sort_outputs_sorted strategy l) as Hsort.
      pose proof (take_until_spec (sort_outputs strategy l) amount []) as Ht.
      destruct (take_until _ _ _) as [out rem]. destruct Ht as [(? & _ & Hrem)|Ht]; [by rewrite Hp|done| |].
      { rewrite (amountZ_perm _ _ Hp) in Hrem. lia. }
      destruct Ht as (-> & pre & x & rest & Hs & -> & Hpre). simpl.
      rewrite Hs in Hp, Hsort.
      assert ((pre ++ [x]) ++ rest ≡ₚ l) as Hp' by by rewrite <- app_assoc.
      split_and!; [rewrite <- Hp'; by apply submseteq_inserts_r|lia|right]. split.
      { intros o Ho%list_elem_of_In Heq. eapply find_none in Hf; [|done]. simpl in Hf. lia. }
      assert (StronglySorted (strategy_order strategy) ((pre ++ [x]) ++ rest)) as Hsort'
        by by rewrite <- app_assoc.
      exists pre, x. split_and!; [done|lia| |].
      * eapply StronglySorted_sublist; [|exact Hsort']. by apply sublist_inserts_r.
      * exists rest. split; [done|]. intros a b Ha Hb'. clear -Hsort' Ha Hb'.
        by eapply StronglySorted_app_1_elem_of.
  - intros Hc. eexists. split; [done|]. split.
    + rewrite <- (sort_outputs_perm strategy l) at 2. apply sublist_submseteq, sublist_take.
    + rewrite length_take. rewrite (Permutation_length (sort_outputs_perm strategy l)). lia.
Qed.
End token_model.
