(* ===== verification/TokenStore.v ===== *)
(** * The in-memory token output store: [spark/src/token/store/mod.rs]

    Every method of [InMemoryTokenOutputStore] runs under one mutex, so each is a
    function of the locked state; clock readings and the new reservation id are
    arguments, and hash maps are iterated in the order of the [HashIter]
    arguments. *)

From S2P Require Import Prelude Bitcoin TokenModel.

Section token_store.
Context `{Bitcoin} `{!HashIter string} `{!HashIter OutPoint}.

Abbreviation SystemTime := Z (only parsing).

Record StoredTokenOutput := {
  stored_output : TokenOutputWithPrevOut;
  added_at : SystemTime;
}.

Record TokenOutputsEntry := {
  entry_metadata : list TokenMetadata;
  stored_outputs : list StoredTokenOutput;
  purpose : TokenReservationPurpose.t;
}.

Definition stored_token (s : StoredTokenOutput) : string := token_of (stored_output s).
Definition stored_outpoint (s : StoredTokenOutput) : OutPoint := outpoint_of (stored_output s).

Definition holds_token (self : TokenOutputsEntry) (token_identifier : string) : bool :=
  existsb (λ s, bool_decide (stored_token s = token_identifier)) (stored_outputs self).

Definition outputs_for (self : TokenOutputsEntry) (token_identifier : string)
    : list TokenOutputWithPrevOut :=
  stored_output <$> filter (λ s, stored_token s = token_identifier) (stored_outputs self).

Definition validate_target (target : ReservationTarget) : TokenResult unit :=
  match target with
  | MinTotalValue amount =>
      if amount =? 0
      then Err (TokenOutputServiceError.Generic "Amount to reserve must be greater than zero")
      else Ok ()
  | MaxOutputCount count =>
      if count =? 0
      then Err (TokenOutputServiceError.Generic "Count to reserve must be greater than zero")
      else Ok ()
  end.

Record AvailableTokenOutputs := {
  pool_metadata : TokenMetadata;
  pool_outputs : gmap OutPoint StoredTokenOutput;
}.

Definition set_pool_outputs o (p : AvailableTokenOutputs) : AvailableTokenOutputs :=
  {| pool_metadata := pool_metadata p; pool_outputs := o |}.

Definition output_vec (self : AvailableTokenOutputs) : list TokenOutputWithPrevOut :=
  stored_output <$> hm_values (pool_outputs self).

Record TokenOutputsState := {
  available_token_outputs : gmap string AvailableTokenOutputs;
  reservations : gmap string TokenOutputsEntry;
  spent_outpoints : gmap OutPoint SystemTime;
  last_swap_completed_at : option SystemTime;
}.

(** [TokenOutputsState::default()] *)
Definition TokenOutputsState_default : TokenOutputsState :=
  {| available_token_outputs := ∅; reservations := ∅; spent_outpoints := ∅;
     last_swap_completed_at := None |}.

Definition set_available a (st : TokenOutputsState) : TokenOutputsState :=
  {| available_token_outputs := a; reservations := reservations st;
     spent_outpoints := spent_outpoints st;
     last_swap_completed_at := last_swap_completed_at st |}.
Definition set_reservations r (st : TokenOutputsState) : TokenOutputsState :=
  {| available_token_outputs := available_token_outputs st; reservations := r;
     spent_outpoints := spent_outpoints st;
     last_swap_completed_at := last_swap_completed_at st |}.
Definition set_spent s (st : TokenOutputsState) : TokenOutputsState :=
  {| available_token_outputs := available_token_outputs st; reservations := reservations st;
     spent_outpoints := s; last_swap_completed_at := last_swap_completed_at st |}.
Definition set_last_swap t (st : TokenOutputsState) : TokenOutputsState :=
  {| available_token_outputs := available_token_outputs st; reservations := reservations st;
     spent_outpoints := spent_outpoints st; last_swap_completed_at := t |}.

Definition select_available (pool : AvailableTokenOutputs)
    (preferred_outputs : option (list TokenOutputWithPrevOut)) (target : ReservationTarget)
    (selection_strategy : option SelectionStrategy) : TokenResult (list TokenOutputWithPrevOut) :=
  let candidates :=
    match preferred_outputs with
    | Some preferred =>
        let preferred_outpoints : gset OutPoint := list_to_set (outpoint_of <$> preferred) in
        filter (λ o, outpoint_of o ∈ preferred_outpoints) (output_vec pool)
    | None => output_vec pool
    end in
  select_token_outputs_from (identifier (pool_metadata pool)) candidates target selection_strategy.

(** ** Refresh *)

(** [entry(identifier).or_insert_with(...)]: the pool, or a new empty one. *)
Definition pool_or_new (metadata : TokenMetadata) (o : option AvailableTokenOutputs)
    : AvailableTokenOutputs :=
  default {| pool_metadata := metadata; pool_outputs := ∅ |} o.

(** One round of the loop over the refreshed outputs. *)
Definition refresh_output (now : SystemTime) (spent : gmap OutPoint SystemTime)
    (fetched : TokenOutputs) (pools : gmap string AvailableTokenOutputs)
    (o : TokenOutputWithPrevOut) : gmap string AvailableTokenOutputs :=
  match metadata_for fetched (token_of o) with
  | None => pools
  | Some metadata =>
      let entry := pool_or_new metadata (pools !! token_of o) in
      let outputs :=
        if decide (is_Some (spent !! outpoint_of o)) then pool_outputs entry
        else <[outpoint_of o := {| stored_output := o; added_at := now |}]> (pool_outputs entry) in
      <[token_of o := {| pool_metadata := metadata; pool_outputs := outputs |}]> pools
  end.

(** One round of the loop over the old outputs. *)
Definition preserve_output (refresh_started_at : SystemTime) (metadata : TokenMetadata)
    (pools : gmap string AvailableTokenOutputs) (kv : OutPoint * StoredTokenOutput)
    : gmap string AvailableTokenOutputs :=
  let '(outpoint, stored) := kv in
  if refresh_started_at <=? added_at stored then
    let already_exists :=
      existsb (λ ato, bool_decide (is_Some (pool_outputs ato !! outpoint))) (hm_values pools) in
    if already_exists then pools
    else
      let entry := pool_or_new metadata (pools !! identifier metadata) in
      <[identifier metadata :=
        set_pool_outputs (<[outpoint := stored]> (pool_outputs entry)) entry]> pools
  else pools.

Definition preserve_outputs (refresh_started_at : SystemTime)
    (old_available pools : gmap string AvailableTokenOutputs) : gmap string AvailableTokenOutputs :=
  foldl (λ pools old,
    foldl (preserve_output refresh_started_at (pool_metadata old)) pools
      (hm_iter (pool_outputs old))) pools (hm_values old_available).

(** The inner loop of the reconciliation: the reserved outputs that the new pools
    still hold are taken out of them. *)
Fixpoint reconcile_outputs (pools : gmap string AvailableTokenOutputs) (l : list StoredTokenOutput)
    : gmap string AvailableTokenOutputs * list StoredTokenOutput :=
  match l with
  | [] => (pools, [])
  | stored :: l =>
      match pools !! stored_token stored with
      | None => reconcile_outputs pools l
      | Some pool =>
          if decide (is_Some (pool_outputs pool !! stored_outpoint stored)) then
            let pool := set_pool_outputs (delete (stored_outpoint stored) (pool_outputs pool)) pool in
            let '(pools, kept) := reconcile_outputs (<[stored_token stored := pool]> pools) l in
            (pools, stored :: kept)
          else reconcile_outputs pools l
      end
  end.

Definition reconcile (pools : gmap string AvailableTokenOutputs)
    (reservations : gmap string TokenOutputsEntry)
    : gmap string AvailableTokenOutputs * gmap string TokenOutputsEntry :=
  foldl (λ '(pools, res) '(id, entry),
    let '(pools, kept) := reconcile_outputs pools (stored_outputs entry) in
    (pools,
     if bool_decide (kept = []) then delete id res
     else <[id := {| entry_metadata := entry_metadata entry; stored_outputs := kept;
                     purpose := purpose entry |}]> res))
    (pools, reservations) (hm_iter reservations).

Definition has_active_swap (st : TokenOutputsState) : bool :=
  existsb (λ entry, bool_decide (purpose entry = TokenReservationPurpose.Swap))
    (hm_values (reservations st)).

Definition swap_completed_during_refresh (st : TokenOutputsState) (refresh_started_at : SystemTime)
    : bool :=
  match last_swap_completed_at st with
  | Some completed_at => refresh_started_at <=? completed_at
  | None => false
  end.

Definition set_tokens_outputs (now : SystemTime) (st : TokenOutputsState)
    (token_outputs : TokenOutputs) (refresh_started_at : SystemTime)
    : TokenResult unit * TokenOutputsState :=
  if has_active_swap st || swap_completed_during_refresh st refresh_started_at then (Ok (), st)
  else
    let spent := filter (λ '(_, spent_at), refresh_started_at ≤ spent_at) (spent_outpoints st) in
    let pools := foldl (refresh_output now spent token_outputs) ∅ (outputs token_outputs) in
    let pools := preserve_outputs refresh_started_at (available_token_outputs st) pools in
    let '(pools, res) := reconcile pools (reservations st) in
    (Ok (),
     {| available_token_outputs := pools; reservations := res; spent_outpoints := spent;
        last_swap_completed_at := last_swap_completed_at st |}).

(** ** Reading *)

Definition empty_status (metadata : TokenMetadata) : TokenOutputsPerStatus :=
  {| ps_metadata := metadata; available := []; reserved_for_payment := []; reserved_for_swap := [] |}.

Definition add_reserved (p : TokenReservationPurpose.t) (reserved : list TokenOutputWithPrevOut)
    (s : TokenOutputsPerStatus) : TokenOutputsPerStatus :=
  match p with
  | TokenReservationPurpose.Payment =>
      {| ps_metadata := ps_metadata s; available := available s;
         reserved_for_payment := reserved_for_payment s ++ reserved;
         reserved_for_swap := reserved_for_swap s |}
  | TokenReservationPurpose.Swap =>
      {| ps_metadata := ps_metadata s; available := available s;
         reserved_for_payment := reserved_for_payment s;
         reserved_for_swap := reserved_for_swap s ++ reserved |}
  end.

Definition list_tokens_outputs (st : TokenOutputsState) : TokenResult (list TokenOutputsPerStatus) :=
  let from_pools := foldl (λ m '(token_id, pool),
    let entry := default (empty_status (pool_metadata pool)) (m !! token_id) in
    <[token_id := {| ps_metadata := ps_metadata entry; available := output_vec pool;
                     reserved_for_payment := reserved_for_payment entry;
                     reserved_for_swap := reserved_for_swap entry |}]> m)
    (∅ : gmap string TokenOutputsPerStatus) (hm_iter (available_token_outputs st)) in
  let with_reserved := foldl (λ m entry,
    foldl (λ m metadata,
      if holds_token entry (identifier metadata) then
        <[identifier metadata :=
          add_reserved (purpose entry) (outputs_for entry (identifier metadata))
            (default (empty_status metadata) (m !! identifier metadata))]> m
      else m) m (entry_metadata entry)) from_pools (hm_values (reservations st)) in
  Ok (hm_values with_reserved).

(** The trait's default [get_token_balances]. *)
Definition get_token_balances (st : TokenOutputsState) : TokenResult (list (TokenMetadata * Z)) :=
  l ← list_tokens_outputs st;
  Ok ((λ t, (ps_metadata t, balance t)) <$> (l : list TokenOutputsPerStatus)).

Inductive GetTokenOutputsFilter :=
| FilterIdentifier (token_id : string)
| FilterIssuerPublicKey (issuer_pk : PublicKey).

Definition get_token_outputs (st : TokenOutputsState) (filter : GetTokenOutputsFilter)
    : TokenResult TokenOutputsPerStatus :=
  let reserved_metadata (pred : TokenMetadata → bool) :=
    List.find pred (hm_values (reservations st) ≫= entry_metadata) in
  let found :=
    match filter with
    | FilterIdentifier token_id =>
        match available_token_outputs st !! token_id with
        | Some pool => Some (pool_metadata pool)
        | None => reserved_metadata (λ m, bool_decide (identifier m = token_id))
        end
    | FilterIssuerPublicKey pk =>
        match List.find (λ pool, bool_decide (issuer_public_key (pool_metadata pool) = pk))
                (hm_values (available_token_outputs st)) with
        | Some pool => Some (pool_metadata pool)
        | None => reserved_metadata (λ m, bool_decide (issuer_public_key m = pk))
        end
    end in
  metadata ← ok_or found (TokenOutputServiceError.Generic "Token outputs not found");
  let pooled :=
    match available_token_outputs st !! identifier metadata with
    | Some pool => output_vec pool
    | None => []
    end in
  Ok (foldl (λ result entry,
        add_reserved (purpose entry) (outputs_for entry (identifier metadata)) result)
      {| ps_metadata := metadata; available := pooled; reserved_for_payment := [];
         reserved_for_swap := [] |} (hm_values (reservations st))).

(** ** Updating *)

(** The loop over [values_mut] that stops at the first pool with the outpoint. *)
Fixpoint remove_from_pools (outpoint : OutPoint) (keys : list string)
    (pools : gmap string AvailableTokenOutputs) : gmap string AvailableTokenOutputs :=
  match keys with
  | [] => pools
  | key :: keys =>
      match pools !! key with
      | Some pool =>
          if decide (is_Some (pool_outputs pool !! outpoint))
          then <[key := set_pool_outputs (delete outpoint (pool_outputs pool)) pool]> pools
          else remove_from_pools outpoint keys pools
      | None => remove_from_pools outpoint keys pools
      end
  end.

Definition remove_spent (now : SystemTime) (st : TokenOutputsState) (outpoint : OutPoint)
    : TokenOutputsState :=
  set_spent (<[outpoint := now]> (spent_outpoints st))
    (set_available (remove_from_pools outpoint (hm_keys (available_token_outputs st))
       (available_token_outputs st)) st).

Definition add_output (now : SystemTime) (to_add : TokenOutputs) (st : TokenOutputsState)
    (o : TokenOutputWithPrevOut) : TokenOutputsState :=
  let st := set_spent (delete (outpoint_of o) (spent_outpoints st)) st in
  match metadata_for to_add (token_of o) with
  | None => st
  | Some metadata =>
      let pools := available_token_outputs st in
      let entry := pool_or_new metadata (pools !! token_of o) in
      let outputs :=
        match pool_outputs entry !! outpoint_of o with
        | Some _ => pool_outputs entry
        | None => <[outpoint_of o := {| stored_output := o; added_at := now |}]> (pool_outputs entry)
        end in
      set_available (<[token_of o := set_pool_outputs outputs entry]> pools) st
  end.

Definition update_token_outputs (now : SystemTime) (st : TokenOutputsState)
    (outputs_to_remove : list OutPoint) (outputs_to_add : TokenOutputs)
    : TokenResult unit * TokenOutputsState :=
  let st := foldl (remove_spent now) st outputs_to_remove in
  (Ok (), foldl (add_output now outputs_to_add) st (outputs outputs_to_add)).

(** ** Reserving *)

Definition not_found (token_identifier : string) : TokenOutputServiceError.t :=
  TokenOutputServiceError.Generic ("Token outputs not found for identifier: " +:+ token_identifier).

(** [for (_, target) in targets { validate_target(target)?; }] *)
Definition validate_targets (targets : list (string * ReservationTarget)) : TokenResult unit :=
  _ ← mapR (λ '(_, target), validate_target target) targets; Ok ().

(** The selection loop. *)
Definition select_targets (st : TokenOutputsState) (targets : list (string * ReservationTarget))
    (preferred_outputs : option (list TokenOutputWithPrevOut))
    (selection_strategy : option SelectionStrategy)
    : TokenResult (list (TokenMetadata * list TokenOutputWithPrevOut)) :=
  mapR (λ '(token_identifier, target),
    pool ← ok_or (available_token_outputs st !! token_identifier) (not_found token_identifier);
    selected ← select_available pool preferred_outputs target selection_strategy;
    Ok (pool_metadata pool, selected)) targets.

(** [for output in &token_selected { if let Some(stored) = pool.outputs.remove(..) .. }] *)
Fixpoint take_outputs (l : list TokenOutputWithPrevOut) (pool : gmap OutPoint StoredTokenOutput)
    : list StoredTokenOutput * gmap OutPoint StoredTokenOutput :=
  match l with
  | [] => ([], pool)
  | o :: l =>
      match pool !! outpoint_of o with
      | Some stored =>
          let '(taken, pool) := take_outputs l (delete (outpoint_of o) pool) in
          (stored :: taken, pool)
      | None => take_outputs l pool
      end
  end.

(** The loop that moves the selected outputs out of their pools. *)
Fixpoint take_selected (selected : list (TokenMetadata * list TokenOutputWithPrevOut))
    (pools : gmap string AvailableTokenOutputs)
    (metadata : list TokenMetadata) (outputs : list TokenOutputWithPrevOut)
    (stored_selected : list StoredTokenOutput)
    : TokenResult (list TokenMetadata * list TokenOutputWithPrevOut * list StoredTokenOutput)
      * gmap string AvailableTokenOutputs :=
  match selected with
  | [] => (Ok (metadata, outputs, stored_selected), pools)
  | (token_metadata, token_selected) :: selected =>
      match pools !! identifier token_metadata with
      | None => (Err (not_found (identifier token_metadata)), pools)
      | Some pool =>
          let '(taken, rest) := take_outputs token_selected (pool_outputs pool) in
          take_selected selected (<[identifier token_metadata := set_pool_outputs rest pool]> pools)
            (metadata ++ [token_metadata]) (outputs ++ token_selected) (stored_selected ++ taken)
      end
  end.

Definition reserve_token_outputs (uuid : string) (st : TokenOutputsState)
    (targets : list (string * ReservationTarget)) (purpose : TokenReservationPurpose.t)
    (preferred_outputs : option (list TokenOutputWithPrevOut))
    (selection_strategy : option SelectionStrategy)
    : TokenResult TokenOutputsReservation * TokenOutputsState :=
  if bool_decide (targets = [])
  then (Err (TokenOutputServiceError.Generic "No reservation targets provided"), st)
  else
    match validate_targets targets with
    | Err e => (Err e, st)
    | Ok _ =>
        match select_targets st targets preferred_outputs selection_strategy with
        | Err e => (Err e, st)
        | Ok selected =>
            match take_selected selected (available_token_outputs st) [] [] [] with
            | (Err e, pools) => (Err e, set_available pools st)
            | (Ok (metadata, outputs, stored_selected), pools) =>
                let entry := {| entry_metadata := metadata; stored_outputs := stored_selected;
                                purpose := purpose |} in
                (Ok (TokenOutputsReservation_new uuid
                   {| metadata := metadata; outputs := outputs |}),
                 set_reservations (<[uuid := entry]> (reservations st)) (set_available pools st))
            end
        end
    end.

Definition select_token_outputs (st : TokenOutputsState)
    (targets : list (string * ReservationTarget))
    (preferred_outputs : option (list TokenOutputWithPrevOut))
    (selection_strategy : option SelectionStrategy) : TokenResult TokenOutputs :=
  if bool_decide (targets = [])
  then Err (TokenOutputServiceError.Generic "No selection targets provided")
  else
    _ ← validate_targets targets;
    selected ← select_targets st targets preferred_outputs selection_strategy;
    Ok {| metadata := selected.*1; outputs := concat selected.*2 |}.

(** [for outpoint in matching { if let Some(stored) = pool.outputs.remove(..) .. }] *)
Fixpoint take_outpoints (l : list OutPoint) (pool : gmap OutPoint StoredTokenOutput)
    : list StoredTokenOutput * gmap OutPoint StoredTokenOutput :=
  match l with
  | [] => ([], pool)
  | outpoint :: l =>
      match pool !! outpoint with
      | Some stored =>
          let '(taken, pool) := take_outpoints l (delete outpoint pool) in (stored :: taken, pool)
      | None => take_outpoints l pool
      end
  end.

(** One round of the loop over the pools. *)
Definition take_wanted (wanted : gset OutPoint)
    (acc : list TokenMetadata * list StoredTokenOutput * gmap string AvailableTokenOutputs)
    (kv : string * AvailableTokenOutputs)
    : list TokenMetadata * list StoredTokenOutput * gmap string AvailableTokenOutputs :=
  let '(metadata, stored_selected, pools) := acc in
  let '(key, pool) := kv in
  let matching := filter (λ op, op ∈ wanted) (hm_keys (pool_outputs pool)) in
  if bool_decide (matching = []) then acc
  else
    let '(taken, rest) := take_outpoints matching (pool_outputs pool) in
    (metadata ++ [pool_metadata pool], stored_selected ++ taken,
     <[key := set_pool_outputs rest pool]> pools).

(** [pool.outputs.insert(outpoint_of(&stored.output), stored)], if there is a pool. *)
Definition put_back (pools : gmap string AvailableTokenOutputs) (stored : StoredTokenOutput)
    : gmap string AvailableTokenOutputs :=
  match pools !! stored_token stored with
  | Some pool =>
      <[stored_token stored :=
        set_pool_outputs (<[stored_outpoint stored := stored]> (pool_outputs pool)) pool]> pools
  | None => pools
  end.

Definition reserve_token_outputs_by_outpoints (uuid : string) (st : TokenOutputsState)
    (outpoints : list OutPoint) (purpose : TokenReservationPurpose.t)
    : TokenResult TokenOutputsReservation * TokenOutputsState :=
  if bool_decide (outpoints = [])
  then (Err (TokenOutputServiceError.Generic "No outpoints provided"), st)
  else
    let wanted : gset OutPoint := list_to_set outpoints in
    let '(metadata, stored_selected, pools) :=
      foldl (take_wanted wanted) ([], [], available_token_outputs st)
        (hm_iter (available_token_outputs st)) in
    let outputs := stored_output <$> stored_selected in
    if negb (bool_decide (length outputs = size wanted))
    then (Err (TokenOutputServiceError.InsufficientFunds None),
          set_available (foldl put_back pools stored_selected) st)
    else
      let entry := {| entry_metadata := metadata; stored_outputs := stored_selected;
                      purpose := purpose |} in
      (Ok (TokenOutputsReservation_new uuid {| metadata := metadata; outputs := outputs |}),
       set_reservations (<[uuid := entry]> (reservations st)) (set_available pools st)).

(** ** Settling *)

Definition cancel_reservation (st : TokenOutputsState) (id : string)
    : TokenResult unit * TokenOutputsState :=
  match reservations st !! id with
  | Some reserved_entry =>
      let st := set_reservations (delete id (reservations st)) st in
      (Ok (), set_available
        (foldl put_back (available_token_outputs st) (stored_outputs reserved_entry)) st)
  | None => (Ok (), st)
  end.

Definition finalize_reservation (now : SystemTime) (st : TokenOutputsState) (id : string)
    : TokenResult unit * TokenOutputsState :=
  match reservations st !! id with
  | Some entry =>
      let st := set_reservations (delete id (reservations st)) st in
      let st := set_spent (insert_all stored_outpoint (λ _, now) (stored_outputs entry)
                  (spent_outpoints st)) st in
      (Ok (), if bool_decide (purpose entry = TokenReservationPurpose.Swap)
              then set_last_swap (Some now) st else st)
  | None => (Ok (), st)
  end.
End token_store.
