(* ===== verification/TokenStoreSpec.v ===== *)
(** * What the token output store promises

    Its invariant (pools are filed under their token, outputs under their
    outpoint, and every reserved output's token has a pool to go back to), and
    the behaviour of reserving, cancelling, finalizing and refreshing. *)

From S2P Require Import Prelude Bitcoin TokenModel TokenStore.

Section token_spec.
Context `{Bitcoin} `{!HashIter string} `{!HashIter OutPoint}.
Implicit Types st : TokenOutputsState.
Implicit Types pools : gmap string AvailableTokenOutputs.

(** ** Well-formed pools *)

Definition pool_ok (t : string) (pool : AvailableTokenOutputs) : Prop :=
  identifier (pool_metadata pool) = t ∧
  ∀ op s, pool_outputs pool !! op = Some s → stored_outpoint s = op ∧ stored_token s = t.

Definition pools_ok pools : Prop := ∀ t pool, pools !! t = Some pool → pool_ok t pool.

Record wf st : Prop := {
  wf_pools : pools_ok (available_token_outputs st);
  wf_reserved id e s : reservations st !! id = Some e → s ∈ stored_outputs e →
    is_Some (available_token_outputs st !! stored_token s);
}.

Lemma token_wf_default : wf TokenOutputsState_default.
Proof.
  split; simpl; [intros t pool|intros id e s]; by rewrite lookup_empty.
Qed.

Lemma pools_ok_insert t pool pools : pools_ok pools → pool_ok t pool → pools_ok (<[t := pool]> pools).
Proof.
  intros Hp Ho t' pool'. rewrite lookup_insert. case_decide; [intros; by simplify_eq|apply Hp].
Qed.

Lemma pool_ok_outputs t pool o :
  pool_ok t pool → (∀ op s, o !! op = Some s → pool_outputs pool !! op = Some s) →
  pool_ok t (set_pool_outputs o pool).
Proof. intros [Hk Ho] Hsub. split; [done|]. simpl. intros op s Hs. by apply Ho, Hsub. Qed.

Lemma pool_ok_insert t pool op s :
  pool_ok t pool → stored_outpoint s = op → stored_token s = t →
  pool_ok t (set_pool_outputs (<[op := s]> (pool_outputs pool)) pool).
Proof.
  intros [Hk Ho] Hop Ht. split; [done|]. simpl. intros op' s'. rewrite lookup_insert.
  case_decide; [intros; by simplify_eq|apply Ho].
Qed.

Lemma pool_or_new_ok t m pools :
  pools_ok pools → identifier m = t → pool_ok t (pool_or_new m (pools !! t)).
Proof.
  intros Hp Hm. unfold pool_or_new. destruct (pools !! t) as [pool|] eqn:E; [by apply Hp|].
  split; [done|]. simpl. intros op s. by rewrite lookup_empty.
Qed.

Lemma metadata_for_Some to t m : metadata_for to t = Some m → identifier m = t.
Proof. intros [_ Hm]%find_some. by apply bool_decide_eq_true_1 in Hm. Qed.

(** ** Each piece of the operations *)

Lemma refresh_output_ok now spent fetched pools o :
  pools_ok pools → pools_ok (refresh_output now spent fetched pools o).
Proof.
  intros Hp. unfold refresh_output. destruct (metadata_for _ _) as [m|] eqn:Hm; [|done].
  apply metadata_for_Some in Hm. apply pools_ok_insert; [done|].
  destruct (pool_or_new_ok (token_of o) m pools Hp Hm) as [_ Ho]. split; [done|]. simpl.
  case_decide; [done|]. intros op s. rewrite lookup_insert.
  case_decide; [intros; by simplify_eq/=|apply Ho].
Qed.

Lemma preserve_output_ok refresh m pools kv :
  pools_ok pools → stored_outpoint kv.2 = kv.1 → stored_token kv.2 = identifier m →
  pools_ok (preserve_output refresh m pools kv).
Proof.
  destruct kv as [op s]. simpl. intros Hp Hop Ht. case_match; [|done]. case_match; [done|].
  apply pools_ok_insert; [done|]. apply pool_ok_insert; [by apply pool_or_new_ok|done|done].
Qed.

Lemma foldl_preserves {A B} (P : A → Prop) (f : A → B → A) l a :
  (∀ a b, b ∈ l → P a → P (f a b)) → P a → P (foldl f a l).
Proof.
  revert a. induction l as [|b l IH]; intros a Hf Ha; [done|]. simpl. apply IH.
  - intros. apply Hf; [by right|done].
  - apply Hf; [by left|done].
Qed.

Lemma preserve_outputs_ok refresh old pools :
  pools_ok old → pools_ok pools → pools_ok (preserve_outputs refresh old pools).
Proof.
  intros Hold Hp. unfold preserve_outputs. apply foldl_preserves; [|done].
  intros pools' pool [t Ht]%elem_of_hm_values Hp'. apply foldl_preserves; [|done].
  intros pools'' [op s] Hs%elem_of_hm_iter Hp''. destruct (Hold _ _ Ht) as [Hk Ho].
  destruct (Ho _ _ Hs) as [? Hst]. apply preserve_output_ok; simpl; [done|done|congruence].
Qed.

Lemma reconcile_outputs_spec pools l :
  let '(pools', kept) := reconcile_outputs pools l in
  (pools_ok pools → pools_ok pools') ∧
  (∀ t, is_Some (pools' !! t) ↔ is_Some (pools !! t)) ∧
  (∀ s, s ∈ kept → s ∈ l ∧ is_Some (pools !! stored_token s)).
Proof.
  revert pools. induction l as [|s l IH]; intros pools; simpl.
  { split_and!; [done|done|]. by intros s ?%elem_of_nil. }
  destruct (pools !! stored_token s) as [pool|] eqn:Hs.
  2:{ specialize (IH pools). destruct (reconcile_outputs pools l). destruct IH as (? & ? & Hk).
      split_and!; [done|done|]. intros x [? ?]%Hk. split; [by right|done]. }
  case_decide.
  - match goal with |- context [reconcile_outputs ?p l] => specialize (IH p) end.
    destruct (reconcile_outputs _ l) as [pools' kept]. destruct IH as (Hok & Hdom & Hk).
    assert (∀ t, is_Some (<[stored_token s := set_pool_outputs (delete (stored_outpoint s)
      (pool_outputs pool)) pool]> pools !! t) ↔ is_Some (pools !! t)) as Hd.
    { intros t. rewrite lookup_insert_is_Some. split; [intros [<-|[_ ?]]|]; [by eexists|done|].
      destruct (decide (stored_token s = t)); auto. }
    split_and!.
    + intros Hp. apply Hok, pools_ok_insert; [done|]. apply pool_ok_outputs; [by apply Hp|].
      by intros op x [_ ?]%lookup_delete_Some.
    + intros t. by rewrite Hdom, Hd.
    + intros x [->|Hx]%elem_of_cons; [split; [by left|by eexists]|].
      apply Hk in Hx as [? ?]. split; [by right|]. by apply Hd.
  - specialize (IH pools). destruct (reconcile_outputs pools l). destruct IH as (? & ? & Hk).
    split_and!; [done|done|]. intros x [? ?]%Hk. split; [by right|done].
Qed.

Definition reconcile_fold pools (res : gmap string TokenOutputsEntry)
    (kvs : list (string * TokenOutputsEntry)) :=
  foldl (λ '(pools, res) '(id, entry),
    let '(pools, kept) := reconcile_outputs pools (stored_outputs entry) in
    (pools,
     if bool_decide (kept = []) then delete id res
     else <[id := {| entry_metadata := entry_metadata entry; stored_outputs := kept;
                     purpose := purpose entry |}]> res)) (pools, res) kvs.

Lemma reconcile_fold_cons pools res id e kvs :
  reconcile_fold pools res ((id, e) :: kvs) =
    reconcile_fold (reconcile_outputs pools (stored_outputs e)).1
      (if bool_decide ((reconcile_outputs pools (stored_outputs e)).2 = []) then delete id res
       else <[id := {| entry_metadata := entry_metadata e;
                       stored_outputs := (reconcile_outputs pools (stored_outputs e)).2;
                       purpose := purpose e |}]> res) kvs.
Proof. unfold reconcile_fold. simpl. by destruct (reconcile_outputs _ _). Qed.

Lemma reconcile_fold_spec pools res kvs :
  let '(pools', res') := reconcile_fold pools res kvs in
  (pools_ok pools → pools_ok pools') ∧
  (∀ t, is_Some (pools' !! t) ↔ is_Some (pools !! t)) ∧
  (∀ id e s, res' !! id = Some e → s ∈ stored_outputs e →
    is_Some (pools !! stored_token s) ∨ (id ∉ kvs.*1 ∧ res !! id = Some e)).
Proof.
  revert pools res. induction kvs as [|[id e] kvs IH]; intros pools res.
  { split_and!; [done|done|]. intros id e s ? _. right. split; [apply not_elem_of_nil|done]. }
  rewrite reconcile_fold_cons.
  pose proof (reconcile_outputs_spec pools (stored_outputs e)) as Ho.
  destruct (reconcile_outputs pools (stored_outputs e)) as [pools1 kept]. cbn [fst snd].
  destruct Ho as (Hok1 & Hdom1 & Hkept).
  match goal with |- context [reconcile_fold pools1 ?r kvs] => specialize (IH pools1 r) end.
  destruct (reconcile_fold pools1 _ kvs) as [pools' res']. destruct IH as (Hok & Hdom & Hres).
  split_and!; [auto|intros t; by rewrite Hdom, Hdom1|].
  intros id' e' s He' Hs. destruct (Hres id' e' s He' Hs) as [Hp|[Hn He]].
  { left. by apply Hdom1. }
  case_bool_decide as Hk; [apply lookup_delete_Some in He as [Hne He]|].
  - right. csimpl. rewrite not_elem_of_cons. auto.
  - rewrite lookup_insert in He. case_decide as Hid; [|right; csimpl; rewrite not_elem_of_cons; auto].
    simplify_eq. left. by apply Hkept in Hs as [_ ?].
Qed.

(** Growing or emptying pools keeps every token's pool. *)
Definition same_tokens pools pools' : Prop := ∀ t, is_Some (pools !! t) → is_Some (pools' !! t).

Lemma insert_same_tokens t pool pools : same_tokens pools (<[t := pool]> pools).
Proof. intros t' ?. rewrite lookup_insert_is_Some'. by right. Qed.

Lemma wf_same_tokens st st' :
  wf st → pools_ok (available_token_outputs st') →
  same_tokens (available_token_outputs st) (available_token_outputs st') →
  (∀ id e s, reservations st' !! id = Some e → s ∈ stored_outputs e →
    (∃ e', reservations st !! id = Some e' ∧ s ∈ stored_outputs e') ∨
    is_Some (available_token_outputs st' !! stored_token s)) →
  wf st'.
Proof.
  intros Hwf Hp Ht Hr. split; [done|]. intros id e s He Hs.
  destruct (Hr id e s He Hs) as [(e' & He' & Hs')|?]; [|done].
  apply Ht. by eapply (wf_reserved st Hwf).
Qed.

Lemma wf_set_tokens now st fetched refresh :
  wf st → wf (set_tokens_outputs now st fetched refresh).2.
Proof.
  intros Hwf. unfold set_tokens_outputs. case_match; [done|].
  set (spent := filter _ (spent_outpoints st)).
  set (pools := preserve_outputs refresh (available_token_outputs st)
    (foldl (refresh_output now spent fetched) ∅ (outputs fetched))).
  assert (pools_ok pools) as Hok.
  { apply preserve_outputs_ok; [apply Hwf|]. apply foldl_preserves.
    - intros. by apply refresh_output_ok.
    - apply token_wf_default. }
  pose proof (reconcile_fold_spec pools (reservations st) (hm_iter (reservations st))) as Hs.
  change (reconcile_fold pools (reservations st) (hm_iter (reservations st))) with
    (reconcile pools (reservations st)) in Hs.
  destruct (reconcile pools (reservations st)) as [pools' res]. destruct Hs as (Hp & Hd & Hr).
  split; simpl; [by apply Hp|]. intros id e s He Hin. apply Hd.
  destruct (Hr id e s He Hin) as [?|[Hn He']]; [done|]. destruct Hn.
  apply elem_of_hm_keys. by eexists.
Qed.

Lemma remove_from_pools_spec op keys pools :
  (pools_ok pools → pools_ok (remove_from_pools op keys pools)) ∧
  same_tokens pools (remove_from_pools op keys pools).
Proof.
  induction keys as [|key keys IH]; simpl; [split; [done|by intros ?]|].
  destruct (pools !! key) as [pool|] eqn:Hk; [|exact IH]. case_decide; [|exact IH]. split.
  - intros Hp. apply pools_ok_insert; [done|]. apply pool_ok_outputs; [by apply Hp|].
    by intros op' s [_ ?]%lookup_delete_Some.
  - apply insert_same_tokens.
Qed.

Lemma wf_add_output now to_add st o : wf st → wf (add_output now to_add st o).
Proof.
  intros Hwf. unfold add_output. destruct (metadata_for _ _) as [m|] eqn:Hm.
  2:{ by destruct Hwf. }
  apply metadata_for_Some in Hm. simpl.
  pose proof (pool_or_new_ok (token_of o) m _ (wf_pools st Hwf) Hm) as Hok.
  eapply wf_same_tokens; [exact Hwf|..]; simpl.
  - apply pools_ok_insert; [apply Hwf|]. case_match.
    + by apply pool_ok_outputs.
    + by apply pool_ok_insert.
  - apply insert_same_tokens.
  - intros id e s He Hs. left. eauto.
Qed.

Lemma token_wf_update now st rem to_add : wf st → wf (update_token_outputs now st rem to_add).2.
Proof.
  intros Hwf. simpl. apply foldl_preserves; [intros; by apply wf_add_output|].
  apply foldl_preserves; [|done]. intros st' op _ Hwf'.
  destruct (remove_from_pools_spec op (hm_keys (available_token_outputs st'))
    (available_token_outputs st')) as [Hp Ht].
  eapply wf_same_tokens; [exact Hwf'|by apply Hp, Hwf'|done|]. simpl. eauto.
Qed.

Lemma take_outputs_spec l pool :
  let '(taken, rest) := take_outputs l pool in
  (∀ op, rest !! op = if decide (op ∈ outpoint_of <$> l) then None else pool !! op) ∧
  (∀ s, s ∈ taken → ∃ op, op ∈ outpoint_of <$> l ∧ pool !! op = Some s).
Proof.
  revert pool. induction l as [|o l IH]; intros pool; simpl.
  { split; [done|]. by intros s ?%elem_of_nil. }
  destruct (pool !! outpoint_of o) as [s|] eqn:E.
  - specialize (IH (delete (outpoint_of o) pool)). destruct (take_outputs l _) as [taken rest].
    destruct IH as [Hl Hin]. split.
    + intros op. rewrite Hl, lookup_delete. csimpl. repeat case_decide; set_solver.
    + intros x [->|Hx]%elem_of_cons; [exists (outpoint_of o); csimpl; set_solver|].
      apply Hin in Hx as (op & ? & [_ ?]%lookup_delete_Some). exists op. csimpl. set_solver.
  - specialize (IH pool). destruct (take_outputs l _) as [taken rest]. destruct IH as [Hl Hin].
    split; [|naive_solver set_solver]. intros op. rewrite Hl. csimpl. repeat case_decide; set_solver.
Qed.

Lemma take_selected_spec selected pools m o sel :
  pools_ok pools →
  let '(r, pools') := take_selected selected pools m o sel in
  pools_ok pools' ∧ same_tokens pools pools' ∧
  match r with
  | Ok (m', o', sel') =>
      m' = m ++ selected.*1 ∧ o' = o ++ concat selected.*2 ∧
      ∃ more, sel' = sel ++ more ∧ ∀ s, s ∈ more → is_Some (pools !! stored_token s)
  | Err _ => ∃ tm, tm ∈ selected.*1 ∧ pools !! identifier tm = None
  end.
Proof.
  revert pools m o sel. induction selected as [|[tm ts] selected IH]; intros pools m o sel Hp; simpl.
  { split_and!; [done|by intros ?|by rewrite app_nil_r|by rewrite app_nil_r|].
    exists []. rewrite app_nil_r. split; [done|]. by intros s ?%elem_of_nil. }
  destruct (pools !! identifier tm) as [pool|] eqn:Ht.
  2:{ split_and!; [done|by intros ?|]. exists tm. split; [by left|done]. }
  pose proof (take_outputs_spec ts (pool_outputs pool)) as Hto.
  destruct (take_outputs ts (pool_outputs pool)) as [taken rest]. destruct Hto as [Hl Hin].
  assert (pools_ok (<[identifier tm := set_pool_outputs rest pool]> pools)) as Hp'.
  { apply pools_ok_insert; [done|]. apply pool_ok_outputs; [by apply Hp|].
    intros op s. rewrite Hl. by case_decide. }
  specialize (IH _ (m ++ [tm]) (o ++ ts) (sel ++ taken) Hp').
  destruct (take_selected selected _ _ _ _) as [r pools']. destruct IH as (Hok & Hs & Hr).
  split_and!; [done|intros t ?; by apply Hs, insert_same_tokens|].
  destruct r as [[[m' o'] sel']|e].
  - destruct Hr as (-> & -> & more & -> & Hmore). rewrite <- !app_assoc.
    split_and!; [done|done|]. exists (taken ++ more). rewrite app_assoc. split; [done|].
    intros s [Hs'|Hs']%elem_of_app.
    + apply Hin in Hs' as (op & _ & Hop). destruct (Hp _ _ Ht) as [_ Ho].
      destruct (Ho _ _ Hop) as [_ ->]. by eexists.
    + apply Hmore in Hs'. rewrite lookup_insert_is_Some' in Hs'.
      destruct Hs' as [<-|?]; [by eexists|done].
  - destruct Hr as (tm' & Htm & Hnone). exists tm'. split; [by right|].
    rewrite lookup_insert in Hnone. by case_decide.
Qed.

(** ** Moving outputs out of the pools and back *)

(** The pool of token [t] after the outputs [sel] have been taken. *)
Definition without (sel : list StoredTokenOutput) (t : string) (pool : AvailableTokenOutputs)
    : AvailableTokenOutputs :=
  set_pool_outputs
    (filter (λ '(op, _), op ∉ stored_outpoint <$> filter (λ s, stored_token s = t) sel)
      (pool_outputs pool)) pool.

Definition in_pools pools (s : StoredTokenOutput) : Prop :=
  ∃ pool, pools !! stored_token s = Some pool ∧ pool_outputs pool !! stored_outpoint s = Some s.

(** [pools'] is [pools] with the pooled outputs [sel] taken out. *)
Record moved pools (sel : list StoredTokenOutput) pools' : Prop := {
  mv_from s : s ∈ sel → in_pools pools s;
  mv_pool t : pools' !! t = without sel t <$> pools !! t;
}.

Lemma without_none sel t pool : t ∉ stored_token <$> sel → without sel t pool = pool.
Proof.
  intros Hn. unfold without. assert (filter (λ s, stored_token s = t) sel = []) as ->.
  { apply filter_none. intros s Hs <-. apply Hn. by apply list_elem_of_fmap_2. }
  destruct pool as [m o]. unfold set_pool_outputs. simpl. f_equal.
  apply map_filter_id. intros op s _ Hop. by apply elem_of_nil in Hop.
Qed.

Lemma moved_refl pools : moved pools [] pools.
Proof.
  split; [by intros s ?%elem_of_nil|]. intros t. destruct (pools !! t); [|done]. simpl.
  by rewrite without_none by apply not_elem_of_nil.
Qed.

Lemma moved_step pools sel pools' key pool taken rest :
  moved pools sel pools' → key ∉ stored_token <$> sel → pools !! key = Some pool →
  (∀ s, s ∈ taken → pool_outputs pool !! stored_outpoint s = Some s ∧ stored_token s = key) →
  (∀ op, rest !! op = if decide (op ∈ stored_outpoint <$> taken) then None else pool_outputs pool !! op) →
  moved pools (sel ++ taken) (<[key := set_pool_outputs rest pool]> pools').
Proof.
  intros [Hf Hp] Hk Hpool Ht Hr. split.
  - intros s [Hs|Hs]%elem_of_app; [by apply Hf|]. destruct (Ht s Hs) as [? <-]. by exists pool.
  - intros t. rewrite lookup_insert. case_decide as Hkt; [subst t|].
    + rewrite Hpool. simpl. f_equal. unfold without, set_pool_outputs. f_equal. apply map_eq.
      intros op. rewrite Hr, map_lookup_filter. rewrite filter_app.
      assert (filter (λ s, stored_token s = key) sel = []) as ->.
      { apply filter_none. intros s Hs <-. apply Hk. by apply list_elem_of_fmap_2. }
      assert (filter (λ s, stored_token s = key) taken = taken) as ->.
      { apply filter_all. intros s Hs. by apply Ht. }
      simpl. destruct (pool_outputs pool !! op) as [s|] eqn:E; simpl; repeat case_decide; naive_solver.
    + rewrite Hp. destruct (pools !! t) as [pool'|]; [|done]. simpl. f_equal. unfold without.
      rewrite filter_app. assert (filter (λ s, stored_token s = t) taken = []) as ->.
      { apply filter_none. intros s Hs <-. apply Hkt. symmetry. by apply Ht. }
      by rewrite app_nil_r.
Qed.

Lemma put_back_all l pools t :
  foldl put_back pools l !! t =
    (λ pool, set_pool_outputs
      (insert_all stored_outpoint (λ s, s) (filter (λ s, stored_token s = t) l) (pool_outputs pool))
      pool) <$> pools !! t.
Proof.
  revert pools. induction l as [|s l IH]; intros pools; simpl.
  { destruct (pools !! t) as [[m o]|]; done. }
  rewrite IH, filter_cons. unfold put_back. destruct (pools !! stored_token s) as [pool|] eqn:Hs.
  - case_decide as Hst.
    + subst t. rewrite lookup_insert_eq, Hs. done.
    + by rewrite lookup_insert_ne.
  - case_decide as Hst; [|done]. subst t. by rewrite Hs.
Qed.

(** Putting back what was moved restores the pools. *)
Lemma put_back_moved pools sel pools' :
  pools_ok pools → moved pools sel pools' → foldl put_back pools' sel = pools.
Proof.
  intros Hok [Hf Hp]. apply map_eq. intros t. rewrite put_back_all, Hp.
  destruct (pools !! t) as [pool|] eqn:Ht; [|done]. simpl. f_equal.
  destruct pool as [m o]. unfold set_pool_outputs. simpl. f_equal. apply map_eq. intros op.
  set (l := filter (λ s, stored_token s = t) sel).
  assert (∀ s, s ∈ l → o !! stored_outpoint s = Some s) as Hl.
  { intros s [Hst Hs]%list_elem_of_filter. destruct (Hf s Hs) as (pool & Hpool & Ho).
    rewrite Hst, Ht in Hpool. by simplify_eq. }
  destruct (decide (op ∈ stored_outpoint <$> l)) as [Hin|Hn].
  - destruct (insert_all_in stored_outpoint (λ s, s) l
      (filter (λ '(op, _), op ∉ stored_outpoint <$> l) o) op Hin) as (s & Hs & <- & ->).
    symmetry. by apply Hl.
  - rewrite insert_all_notin by done. rewrite map_lookup_filter.
    destruct (o !! op); simpl; [|done]. by case_guard.
Qed.

Lemma take_outpoints_spec l pool :
  NoDup l → (∀ op, op ∈ l → is_Some (pool !! op)) →
  (∀ op s, pool !! op = Some s → stored_outpoint s = op) →
  let '(taken, rest) := take_outpoints l pool in
  stored_outpoint <$> taken = l ∧ (∀ s, s ∈ taken → pool !! stored_outpoint s = Some s) ∧
  (∀ op, rest !! op = if decide (op ∈ l) then None else pool !! op).
Proof.
  revert pool. induction l as [|op l IH]; intros pool Hnd Hall Hk; simpl.
  { split_and!; [done|by intros s ?%elem_of_nil|done]. }
  apply NoDup_cons in Hnd as [Hn Hnd]. destruct (Hall op ltac:(by left)) as [s Hs]. rewrite Hs.
  specialize (IH (delete op pool) Hnd). destruct (take_outpoints l _) as [taken rest].
  destruct IH as (Ht & Hin & Hr).
  - intros op' Hop'. rewrite lookup_delete_ne; [apply Hall; by right|]. by intros ->.
  - intros op' s' [_ ?]%lookup_delete_Some. by apply Hk.
  - split_and!.
    + csimpl. by rewrite Ht, (Hk _ _ Hs).
    + intros x [->|Hx]%elem_of_cons; [by rewrite (Hk _ _ Hs)|].
      by apply Hin, lookup_delete_Some in Hx as [_ ?].
    + intros op'. rewrite Hr, lookup_delete. repeat case_decide; set_solver.
Qed.

Lemma take_outputs_moved l pool :
  NoDup (outpoint_of <$> l) →
  (∀ o, o ∈ l → ∃ s, pool !! outpoint_of o = Some s ∧ stored_output s = o) →
  let '(taken, rest) := take_outputs l pool in
  stored_output <$> taken = l ∧ (∀ s, s ∈ taken → pool !! stored_outpoint s = Some s) ∧
  (∀ op, rest !! op = if decide (op ∈ stored_outpoint <$> taken) then None else pool !! op).
Proof.
  revert pool. induction l as [|o l IH]; intros pool Hnd Hall; simpl.
  { split_and!; [done|by intros s ?%elem_of_nil|done]. }
  csimpl in Hnd. apply NoDup_cons in Hnd as [Hn Hnd].
  destruct (Hall o ltac:(by left)) as (s & Hs & Ho). rewrite Hs.
  specialize (IH (delete (outpoint_of o) pool) Hnd). destruct (take_outputs l _) as [taken rest].
  destruct IH as (Ht & Hin & Hr).
  - intros o' Ho'. rewrite lookup_delete_ne; [apply Hall; by right|].
    intros Heq. apply Hn. rewrite Heq. by apply list_elem_of_fmap_2.
  - assert (stored_outpoint s = outpoint_of o) as Hso by (unfold stored_outpoint; by rewrite Ho).
    split_and!.
    + csimpl. by rewrite Ht, Ho.
    + intros x [->|Hx]%elem_of_cons; [by rewrite Hso|].
      by apply Hin, lookup_delete_Some in Hx as [_ ?].
    + intros op. rewrite Hr, lookup_delete. csimpl. rewrite Hso. repeat case_decide; set_solver.
Qed.

(** A selection that one of the pools can serve. *)
Definition selection_ok pools (sel : TokenMetadata * list TokenOutputWithPrevOut) : Prop :=
  ∃ pool, pools !! identifier sel.1 = Some pool ∧ NoDup (outpoint_of <$> sel.2) ∧
    ∀ o, o ∈ sel.2 → ∃ s, pool_outputs pool !! outpoint_of o = Some s ∧ stored_output s = o.

Lemma take_selected_moved pools selected pools' m o sel :
  pools_ok pools → moved pools sel pools' → NoDup (identifier <$> selected.*1) →
  (∀ t, t ∈ identifier <$> selected.*1 → t ∉ stored_token <$> sel) →
  Forall (selection_ok pools) selected →
  ∃ more pools'',
    take_selected selected pools' m o sel =
      (Ok (m ++ selected.*1, o ++ concat selected.*2, sel ++ more), pools'') ∧
    moved pools (sel ++ more) pools'' ∧ stored_output <$> more = concat selected.*2.
Proof.
  intros Hok. revert pools' m o sel.
  induction selected as [|[tm ts] selected IH]; intros pools' m o sel Hmv Hnd Hfresh Hall.
  { exists [], pools'. csimpl. by rewrite !app_nil_r. }
  csimpl in Hnd. apply NoDup_cons in Hnd as [Hn Hnd].
  apply Forall_cons in Hall as [(pool & Hpool & Hts & Hfrom) Hall]. cbn [fst snd] in *.
  cbn [take_selected].
  assert (identifier tm ∉ stored_token <$> sel) as Htm by (apply Hfresh; by left).
  assert (pools' !! identifier tm = Some pool) as Hcur.
  { rewrite (mv_pool _ _ _ Hmv), Hpool. simpl. f_equal. by apply without_none. }
  rewrite Hcur.
  pose proof (take_outputs_moved ts (pool_outputs pool) Hts Hfrom) as Hto.
  destruct (take_outputs ts (pool_outputs pool)) as [taken rest]. destruct Hto as (Ht & Hin & Hr).
  cbn zeta iota. destruct (Hok _ _ Hpool) as [_ Hpo].
  assert (∀ s, s ∈ taken → pool_outputs pool !! stored_outpoint s = Some s ∧
    stored_token s = identifier tm) as Htaken.
  { intros s Hs. split; [by apply Hin|]. apply (Hpo (stored_outpoint s)). by apply Hin. }
  destruct (IH (<[identifier tm := set_pool_outputs rest pool]> pools') (m ++ [tm]) (o ++ ts)
    (sel ++ taken)) as (more & pools'' & -> & Hmv' & Hmore).
  - by eapply moved_step.
  - done.
  - intros t Hti. rewrite fmap_app, not_elem_of_app. split; [apply Hfresh; by right|].
    intros (s & -> & Hs)%list_elem_of_fmap. by rewrite (proj2 (Htaken s Hs)) in Hti.
  - done.
  - exists (taken ++ more), pools''. rewrite <- !app_assoc in *. csimpl. split_and!; [done|done|].
    by rewrite fmap_app, Ht, Hmore.
Qed.

Lemma take_until_prefix l rem sel :
  ∃ pre rest, l = pre ++ rest ∧ (take_until l rem sel).1 = sel ++ pre.
Proof.
  revert rem sel. induction l as [|o l IH]; intros rem sel; simpl.
  { exists [], []. split; [done|]. by rewrite app_nil_r. }
  case_match; [exists [], (o :: l); split; [done|]; by rewrite app_nil_r|].
  destruct (IH (saturating_sub rem (amount_of o)) (sel ++ [o])) as (pre & rest & -> & ->).
  exists (o :: pre), rest. by rewrite <- app_assoc.
Qed.

Lemma select_submseteq tid l target strategy sel :
  select_token_outputs_from tid l target strategy = Ok sel → sel ⊆+ l.
Proof.
  unfold select_token_outputs_from. destruct target as [amount|count].
  - case_match; [done|]. destruct (List.find _ l) as [o|] eqn:Hf.
    + intros [= <-]. apply find_some in Hf as [Ho%list_elem_of_In _]. by apply singleton_submseteq_l.
    + destruct (take_until_prefix (sort_outputs strategy l) amount []) as (pre & rest & Hl & Hpre).
      destruct (take_until _ _ _) as [out rem]. simpl in Hpre. case_match; [done|].
      intros [= <-]. rewrite <- (sort_outputs_perm strategy l), Hl, Hpre.
      by apply submseteq_inserts_r.
  - intros [= <-]. rewrite <- (sort_outputs_perm strategy l) at 2.
    apply sublist_submseteq, sublist_take.
Qed.

Lemma output_vec_NoDup t pool : pool_ok t pool → NoDup (outpoint_of <$> output_vec pool).
Proof.
  intros [_ Ho]. unfold output_vec, hm_values. rewrite <- !list_fmap_compose.
  replace (_ <$> hm_iter (pool_outputs pool)) with (hm_keys (pool_outputs pool)); [apply NoDup_hm_keys|].
  apply list_fmap_ext. intros _ [op s] Hs%list_elem_of_lookup_2%elem_of_hm_iter. simpl.
  by destruct (Ho _ _ Hs) as [<- _].
Qed.

Lemma select_available_ok t pool preferred target strategy sel :
  pool_ok t pool → select_available pool preferred target strategy = Ok sel →
  NoDup (outpoint_of <$> sel) ∧
  ∀ o, o ∈ sel → ∃ s, pool_outputs pool !! outpoint_of o = Some s ∧ stored_output s = o.
Proof.
  intros Hok Hs%select_submseteq.
  assert (sel ⊆+ output_vec pool) as Hsub.
  { destruct preferred; [|done]. etrans; [exact Hs|]. apply sublist_submseteq, sublist_filter. }
  split.
  - eapply NoDup_submseteq_l; [by apply fmap_submseteq|]. by eapply output_vec_NoDup.
  - intros o Ho. eapply elem_of_submseteq in Ho; [|exact Hsub].
    unfold output_vec in Ho. apply list_elem_of_fmap in Ho as (s & -> & [op Hop]%elem_of_hm_values).
    exists s. split; [|done]. by destruct (proj2 Hok _ _ Hop) as [<- _].
Qed.

Lemma select_targets_ok st targets preferred strategy selected :
  wf st → select_targets st targets preferred strategy = Ok selected →
  identifier <$> selected.*1 = targets.*1 ∧
  Forall (selection_ok (available_token_outputs st)) selected.
Proof.
  intros Hwf Hs%mapR_Ok. induction Hs as [|[t target] [tm ts] targets selected Hsel _ [IH1 IH2]];
    [by split|].
  apply bind_Ok in Hsel as (pool & Hpool%ok_or_Ok & (sel & Hsel & [= <- <-])%bind_Ok).
  pose proof (wf_pools st Hwf _ _ Hpool) as Hok. pose proof (proj1 Hok) as Hid. csimpl.
  split; [by rewrite IH1, Hid|]. constructor; [|done]. exists pool. simpl. rewrite Hid.
  split; [done|]. by eapply select_available_ok.
Qed.

(** The state after the pooled outputs [sel] have been reserved under [uuid]. *)
Record reserved_as st uuid (p : TokenReservationPurpose.t) (sel : list StoredTokenOutput) st' : Prop := {
  ra_pools : moved (available_token_outputs st) sel (available_token_outputs st');
  ra_entry : ∃ e, reservations st' = <[uuid := e]> (reservations st) ∧ stored_outputs e = sel ∧
    purpose e = p;
  ra_spent : spent_outpoints st' = spent_outpoints st;
  ra_swap : last_swap_completed_at st' = last_swap_completed_at st;
}.

Lemma reserved_as_cancel st uuid p sel st' :
  wf st → reservations st !! uuid = None → reserved_as st uuid p sel st' →
  cancel_reservation st' uuid = (Ok (), st).
Proof.
  intros Hwf Hu [Hmv (e & Hr & He & _) Hs Hsw]. unfold cancel_reservation.
  rewrite Hr, lookup_insert_eq, He. simpl.
  rewrite (put_back_moved (available_token_outputs st)) by (done || apply Hwf).
  rewrite delete_insert_id by done. unfold set_reservations, set_available. simpl.
  rewrite Hs, Hsw. by destruct st.
Qed.

(** Reserving token outputs is all or nothing. On an error nothing changes; on
    success the reservation holds exactly what selecting without reserving would
    have returned, the outputs are taken out of their tokens' pools and nothing
    else moves, and cancelling the reservation restores the store exactly. *)
Theorem token_reserve_all_or_nothing uuid st targets p preferred strategy :
  wf st → NoDup targets.*1 → reservations st !! uuid = None →
  let '(r, st') := reserve_token_outputs uuid st targets p preferred strategy in
  match r with
  | Err _ => st' = st
  | Ok res =>
      reservation_id res = uuid ∧
      select_token_outputs st targets preferred strategy = Ok (token_outputs res) ∧
      (∃ sel, stored_output <$> sel = outputs (token_outputs res) ∧ reserved_as st uuid p sel st') ∧
      cancel_reservation st' uuid = (Ok (), st)
  end.
Proof.
  intros Hwf Hnd Hu. unfold reserve_token_outputs, select_token_outputs.
  case_bool_decide; [done|]. destruct (validate_targets targets); [|done]. simpl.
  destruct (select_targets st targets preferred strategy) as [selected|] eqn:Hsel; [|done].
  apply select_targets_ok in Hsel as [Hids Hall]; [|done].
  destruct (take_selected_moved (available_token_outputs st) selected (available_token_outputs st)
    [] [] []) as (more & pools'' & -> & Hmv & Hmore); [apply Hwf|apply moved_refl|by rewrite Hids| |done|].
  { intros t _. apply not_elem_of_nil. }
  simpl. simpl in Hmv. match goal with |- context [reserved_as _ _ _ _ ?s] => set (st' := s) end.
  assert (reserved_as st uuid p more st') as Hra.
  { split; simpl; try done. eexists. by split_and!. }
  split_and!; [done|done|by exists more|]. by eapply reserved_as_cancel.
Qed.

Lemma take_wanted_moved pools wanted kvs m sel pools' :
  pools_ok pools → moved pools sel pools' → NoDup kvs.*1 →
  (∀ t, t ∈ kvs.*1 → t ∉ stored_token <$> sel) →
  (∀ t pool, (t, pool) ∈ kvs → pools !! t = Some pool) →
  (∀ s, s ∈ sel → stored_outpoint s ∈ wanted) →
  let '(m', sel', pools'') := foldl (take_wanted wanted) (m, sel, pools') kvs in
  moved pools sel' pools'' ∧ ∀ s, s ∈ sel' → stored_outpoint s ∈ wanted.
Proof.
  intros Hok. revert m sel pools'.
  induction kvs as [|[key pool] kvs IH]; intros m sel pools' Hmv Hnd Hfresh Hin Hw; [done|].
  csimpl in Hnd. apply NoDup_cons in Hnd as [Hn Hnd].
  assert (pools !! key = Some pool) as Hkey by (apply Hin; by left). simpl.
  set (matching := filter (λ op, op ∈ wanted) (hm_keys (pool_outputs pool))).
  case_bool_decide.
  { apply IH; [done|done| | |done]; [intros t ?; apply Hfresh; by right|intros; apply Hin; by right]. }
  destruct (Hok _ _ Hkey) as [_ Hpo].
  pose proof (take_outpoints_spec matching (pool_outputs pool)) as Ht.
  destruct (take_outpoints matching (pool_outputs pool)) as [taken rest].
  destruct Ht as (Ht & Htin & Hr).
  - apply NoDup_filter, NoDup_hm_keys.
  - intros op [_ Hop]%list_elem_of_filter. by apply elem_of_hm_keys.
  - intros op s Hs. by apply Hpo.
  - assert (∀ s, s ∈ taken → pool_outputs pool !! stored_outpoint s = Some s ∧ stored_token s = key)
      as Htaken.
    { intros s Hs. split; [by apply Htin|]. apply (Hpo (stored_outpoint s)). by apply Htin. }
    apply IH.
    + eapply moved_step; [done|apply Hfresh; by left|done|done|]. by rewrite Ht.
    + done.
    + intros t Hti. rewrite fmap_app, not_elem_of_app. split; [apply Hfresh; by right|].
      intros (s & -> & Hs)%list_elem_of_fmap. by rewrite (proj2 (Htaken s Hs)) in Hti.
    + intros; apply Hin; by right.
    + intros s [?|Hs]%elem_of_app; [by apply Hw|].
      assert (stored_outpoint s ∈ matching) as Hm by (rewrite <- Ht; by apply list_elem_of_fmap_2).
      by apply list_elem_of_filter in Hm as [? _].
Qed.

(** Reserving given outpoints is all or nothing too, although the code takes
    them out pool by pool before it knows whether all are there: when some are
    missing everything is put back and the store is unchanged. On success as many
    available outputs as distinct outpoints, all of them asked for, are reserved,
    and cancelling restores the store exactly. *)
Theorem token_reserve_outpoints_all_or_nothing uuid st outpoints p :
  wf st → reservations st !! uuid = None →
  let '(r, st') := reserve_token_outputs_by_outpoints uuid st outpoints p in
  match r with
  | Err _ => st' = st
  | Ok res =>
      reservation_id res = uuid ∧
      (∃ sel, stored_output <$> sel = outputs (token_outputs res) ∧ reserved_as st uuid p sel st' ∧
        length sel = size (list_to_set outpoints : gset OutPoint) ∧
        ∀ s, s ∈ sel → stored_outpoint s ∈ outpoints) ∧
      cancel_reservation st' uuid = (Ok (), st)
  end.
Proof.
  intros Hwf Hu. unfold reserve_token_outputs_by_outpoints. case_bool_decide; [done|].
  pose proof (take_wanted_moved (available_token_outputs st) (list_to_set outpoints)
    (hm_iter (available_token_outputs st)) [] [] (available_token_outputs st) (wf_pools st Hwf)
    (moved_refl _) (NoDup_hm_keys _)) as Hmv.
  destruct (foldl _ _ _) as [[m sel] pools''].
  destruct Hmv as [Hmv Hw].
  - intros t _. apply not_elem_of_nil.
  - intros t pool Ht. by apply elem_of_hm_iter.
  - by intros s ?%elem_of_nil.
  - destruct (negb _) eqn:Hlen.
    + rewrite (put_back_moved (available_token_outputs st)) by (done || apply Hwf). by destruct st.
    + apply negb_false_iff, bool_decide_eq_true_1 in Hlen. rewrite length_fmap in Hlen.
      match goal with |- context [reserved_as _ _ _ _ ?s] => set (st' := s) end.
      assert (reserved_as st uuid p sel st') as Hra.
      { split; simpl; try done. eexists. by split_and!. }
      split_and!; [done| |by eapply reserved_as_cancel]. exists sel. split_and!; try done.
      intros s Hs. by apply Hw, elem_of_list_to_set in Hs.
Qed.

(** ** The invariant *)

Lemma moved_ok pools sel pools' : pools_ok pools → moved pools sel pools' → pools_ok pools'.
Proof.
  intros Hok [_ Hp] t pool'. rewrite Hp. intros (pool & Hpool & ->)%fmap_Some.
  apply pool_ok_outputs; [by apply Hok|]. by intros op s [? _]%map_lookup_filter_Some.
Qed.

Lemma moved_same_tokens pools sel pools' : moved pools sel pools' → same_tokens pools pools'.
Proof. intros [_ Hp] t. rewrite Hp. by intros [pool ->]; eexists. Qed.

Lemma put_back_ok pools s :
  pools_ok pools → pools_ok (put_back pools s) ∧ same_tokens pools (put_back pools s).
Proof.
  intros Hok. unfold put_back. destruct (pools !! stored_token s) as [pool|] eqn:Hp;
    [|split; [done|by intros ?]].
  split; [|apply insert_same_tokens]. apply pools_ok_insert; [done|].
  apply pool_ok_insert; [by apply Hok|done|done].
Qed.

Lemma put_back_all_ok l pools :
  pools_ok pools → pools_ok (foldl put_back pools l) ∧ same_tokens pools (foldl put_back pools l).
Proof.
  revert pools. induction l as [|s l IH]; intros pools Hok; simpl; [split; [done|by intros ?]|].
  destruct (put_back_ok pools s Hok) as [Hok1 Hs1]. destruct (IH _ Hok1) as [Hok2 Hs2].
  split; [done|]. intros t ?. by apply Hs2, Hs1.
Qed.

Lemma wf_reserved_as st uuid p sel st' : wf st → reserved_as st uuid p sel st' → wf st'.
Proof.
  intros Hwf [Hmv (e & Hr & He & _) _ _]. eapply wf_same_tokens; [exact Hwf|..].
  - eapply moved_ok; [apply Hwf|done].
  - by eapply moved_same_tokens.
  - intros id e' s. rewrite Hr, lookup_insert. case_decide; [|eauto]. intros [= <-] Hs. right.
    eapply moved_same_tokens; [done|]. rewrite He in Hs.
    destruct (mv_from _ _ _ Hmv s Hs) as (pool & ? & _). by eexists.
Qed.

Lemma wf_reserve uuid st targets p preferred strategy :
  wf st → wf (reserve_token_outputs uuid st targets p preferred strategy).2.
Proof.
  intros Hwf. unfold reserve_token_outputs. case_bool_decide; [done|].
  destruct (validate_targets targets); [|done].
  destruct (select_targets st targets preferred strategy) as [selected|]; [|done].
  pose proof (take_selected_spec selected (available_token_outputs st) [] [] [] (wf_pools st Hwf)) as Ht.
  destruct (take_selected _ _ _ _ _) as [[[[m o] sel]|e] pools']; destruct Ht as (Hok & Hs & Hr).
  - destruct Hr as (_ & _ & more & -> & Hmore). eapply wf_same_tokens; [exact Hwf|done|done|].
    simpl. intros id e s. rewrite lookup_insert. case_decide; [|eauto]. intros [= <-] Hin. right.
    by apply Hs, Hmore.
  - eapply wf_same_tokens; [exact Hwf|done|done|]. simpl. eauto.
Qed.

Lemma wf_reserve_outpoints uuid st outpoints p :
  wf st → wf (reserve_token_outputs_by_outpoints uuid st outpoints p).2.
Proof.
  intros Hwf. unfold reserve_token_outputs_by_outpoints. case_bool_decide; [done|].
  pose proof (take_wanted_moved (available_token_outputs st) (list_to_set outpoints)
    (hm_iter (available_token_outputs st)) [] [] (available_token_outputs st) (wf_pools st Hwf)
    (moved_refl _) (NoDup_hm_keys _)) as Hmv.
  destruct (foldl _ _ _) as [[m sel] pools'']. destruct Hmv as [Hmv _].
  - intros t _. apply not_elem_of_nil.
  - intros t pool Ht. by apply elem_of_hm_iter.
  - by intros s ?%elem_of_nil.
  - case_match; simpl.
    + rewrite (put_back_moved (available_token_outputs st)) by (done || apply Hwf). by destruct st, Hwf.
    + eapply (wf_reserved_as st uuid p sel); [done|]. split; simpl; try done. eexists. by split_and!.
Qed.

Lemma token_wf_cancel st id : wf st → wf (cancel_reservation st id).2.
Proof.
  intros Hwf. unfold cancel_reservation. destruct (reservations st !! id) as [e|] eqn:He; [|done].
  destruct (put_back_all_ok (stored_outputs e) _ (wf_pools st Hwf)) as [Hok Hs].
  eapply wf_same_tokens; [exact Hwf|done|done|]. simpl.
  intros id' e' s [_ ?]%lookup_delete_Some ?. left. eauto.
Qed.

Lemma token_wf_finalize now st id : wf st → wf (finalize_reservation now st id).2.
Proof.
  intros Hwf. unfold finalize_reservation. destruct (reservations st !! id) as [e|] eqn:He; [|done].
  simpl. case_bool_decide; (eapply wf_same_tokens; [exact Hwf|apply Hwf|by intros ?|]); simpl;
    intros id' e' s [_ ?]%lookup_delete_Some ?; left; eauto.
Qed.

(** One call of one of the store's mutating methods. *)
Inductive store_step st : TokenOutputsState → Prop :=
| StepSet now fetched refresh : store_step st (set_tokens_outputs now st fetched refresh).2
| StepUpdate now rem to_add : store_step st (update_token_outputs now st rem to_add).2
| StepReserve uuid targets p preferred strategy :
    store_step st (reserve_token_outputs uuid st targets p preferred strategy).2
| StepReserveOutpoints uuid outpoints p :
    store_step st (reserve_token_outputs_by_outpoints uuid st outpoints p).2
| StepCancel id : store_step st (cancel_reservation st id).2
| StepFinalize now id : store_step st (finalize_reservation now st id).2.

Definition reachable st : Prop := rtc store_step TokenOutputsState_default st.

Lemma token_reachable_wf st : reachable st → wf st.
Proof.
  apply (rtc_ind_r wf _ token_wf_default). intros st1 st2 _ [] Hwf.
  - by apply wf_set_tokens.
  - by apply token_wf_update.
  - by apply wf_reserve.
  - by apply wf_reserve_outpoints.
  - by apply token_wf_cancel.
  - by apply token_wf_finalize.
Qed.

(** C37: In every state the token store can reach, each pool is filed under the
    token of its metadata and of its outputs, each output under its outpoint, and
    cancelling any reservation loses nothing: every output it held is back in its
    token's pool, under its outpoint. *)
Theorem token_cancel_is_lossless st id e s :
  reachable st → reservations st !! id = Some e → s ∈ stored_outputs e →
  pools_ok (available_token_outputs st) ∧
  let '(r, st') := cancel_reservation st id in
  r = Ok () ∧ reservations st' !! id = None ∧
  ∃ pool s', available_token_outputs st' !! stored_token s = Some pool ∧
    pool_outputs pool !! stored_outpoint s = Some s' ∧ s' ∈ stored_outputs e.
Proof.
  intros Hwf%token_reachable_wf He Hs. split; [apply Hwf|]. unfold cancel_reservation. rewrite He. simpl.
  split_and!; [done|by rewrite lookup_delete_eq|].
  destruct (wf_reserved st Hwf _ _ _ He Hs) as [pool Hpool].
  rewrite put_back_all, Hpool. simpl.
  destruct (insert_all_in stored_outpoint (λ s, s)
    (filter (λ s', stored_token s' = stored_token s) (stored_outputs e)) (pool_outputs pool)
    (stored_outpoint s)) as (s' & [_ Hs']%list_elem_of_filter & _ & Heq).
  { apply list_elem_of_fmap_2. by apply list_elem_of_filter. }
  eexists _, s'. split; [done|]. simpl. by split.
Qed.

(** ** Outputs that come back while they are reserved *)

(** [update_token_outputs] looks for an output it is given in the pool only:
    one that is held by a reservation at that moment is put into the pool as
    well, while the reservation keeps it, so it can be reserved a second time. *)
Theorem readded_output_is_reserved_and_available now st m o id e s :
  wf st → reservations st !! id = Some e → s ∈ stored_outputs e → stored_output s = o →
  identifier m = token_of o →
  let st' := (update_token_outputs now st [] (single m [o])).2 in
  reservations st' = reservations st ∧
  ∃ pool s', available_token_outputs st' !! token_of o = Some pool ∧
    pool_outputs pool !! outpoint_of o = Some s' ∧ stored_outpoint s' = stored_outpoint s.
Proof.
  intros Hwf He Hs Ho Hm. cbn zeta. simpl. unfold add_output, metadata_for. simpl.
  rewrite bool_decide_true by done. simpl. split; [done|].
  destruct (wf_reserved st Hwf _ _ _ He Hs) as [pool Hpool].
  unfold stored_token in Hpool. rewrite Ho in Hpool. rewrite Hpool. simpl.
  rewrite lookup_insert_eq. unfold stored_outpoint. rewrite Ho.
  destruct (wf_pools st Hwf _ _ Hpool) as [_ Hpo].
  destruct (pool_outputs pool !! outpoint_of o) as [s'|] eqn:Hop.
  - eexists _, s'. split; [done|]. simpl. split; [done|]. by apply Hpo in Hop as [? _].
  - eexists _, _. split; [done|]. simpl. rewrite lookup_insert_eq. by split.
Qed.
End token_spec.

(** ** A concrete store *)

#[local] Existing Instance bip68.
#[local] Instance string_order : HashIter string := canonical_iter string.
#[local] Instance outpoint_order : HashIter OutPoint := canonical_iter OutPoint.

Definition sample_metadata : TokenMetadata :=
  {| identifier := "tok"; issuer_public_key := ("key"%string : PublicKey); name := "Token";
     ticker := "TOK"; decimals := 0; max_supply := 0; is_freezable := false;
     creation_entity_public_key := None |}.

Definition sample_output (tx : string) (amount : Z) : TokenOutputWithPrevOut :=
  {| output := {| owner_public_key := ("key"%string : PublicKey); revocation_commitment := "";
       withdraw_bond_sats := 0; withdraw_relative_block_locktime := 0; token_public_key := None;
       token_identifier := "tok"; token_amount := amount |};
     prev_tx_hash := tx; prev_tx_vout := 0 |}.

(** Two outputs worth 5 and 8 are added, then 8 are reserved. *)
Definition sample_tokens : TokenOutputsState :=
  (update_token_outputs 10 TokenOutputsState_default []
    (single sample_metadata [sample_output "x" 5; sample_output "y" 8])).2.
Definition sample_targets : list (string * ReservationTarget) := [("tok"%string, MinTotalValue 8)].
Definition sample_reserved : TokenOutputsState :=
  (reserve_token_outputs "r1" sample_tokens sample_targets TokenReservationPurpose.Payment None None).2.

Lemma sample_tokens_reachable : reachable sample_tokens.
Proof. apply rtc_once, StepUpdate. Qed.

Lemma token_sample_reachable : reachable sample_reserved.
Proof. eapply rtc_r; [exact sample_tokens_reachable|apply StepReserve]. Qed.

Lemma sample_tokens_unreserved : reservations sample_tokens = ∅.
Proof. reflexivity. Qed.

Lemma sample_reserved_outputs :
  stored_outputs <$> (reservations sample_reserved !! "r1"%string) =
    Some [{| stored_output := sample_output "y" 8; added_at := 10 |}].
Proof. reflexivity. Qed.

Lemma sample_entry :
  ∃ e, reservations sample_reserved !! "r1"%string = Some e ∧
    stored_outputs e = [{| stored_output := sample_output "y" 8; added_at := 10 |}].
Proof.
  pose proof sample_reserved_outputs as Hs. apply fmap_Some in Hs as (e & He & Hs).
  exists e. split; [exact He|symmetry; exact Hs].
Qed.

Example select_token_outputs_witness :
  match select_token_outputs_from "tok" [sample_output "x" 5; sample_output "y" 8]
    (MinTotalValue 8) None with
  | Ok sel => 8 ≤ amountZ sel
  | Err _ => False
  end.
Proof.
  pose proof (select_token_outputs_spec "tok" [sample_output "x" 5; sample_output "y" 8]
    (MinTotalValue 8) None) as Hs. cbn beta iota in Hs.
  destruct (select_token_outputs_from _ _ _ _) eqn:E.
  - apply Hs; [|reflexivity|lia].
    repeat constructor; cbn; lia.
  - assert (is_Ok (select_token_outputs_from "tok" [sample_output "x" 5; sample_output "y" 8]
      (MinTotalValue 8) None) = true) as Hok by (vm_compute; reflexivity).
    rewrite E in Hok. discriminate Hok.
Defined.

Example token_reserve_witness :
  let '(r, st') := reserve_token_outputs "r1" sample_tokens sample_targets
    TokenReservationPurpose.Payment None None in
  is_Ok r = true ∧ cancel_reservation st' "r1" = (Ok (), sample_tokens).
Proof.
  assert (is_Ok (reserve_token_outputs "r1" sample_tokens sample_targets
    TokenReservationPurpose.Payment None None).1 = true) as Hok by (vm_compute; reflexivity).
  pose proof (token_reserve_all_or_nothing "r1" sample_tokens sample_targets
    TokenReservationPurpose.Payment None None
    (token_reachable_wf _ sample_tokens_reachable) (NoDup_singleton _)) as Hr.
  rewrite sample_tokens_unreserved in Hr. specialize (Hr (lookup_empty _)).
  destruct (reserve_token_outputs _ _ _ _ _ _) as [[r|e] st']; [|discriminate Hok].
  split; [reflexivity|apply Hr].
Defined.

(** One of the two outpoints is unknown: nothing is reserved. *)
Example token_reserve_outpoints_witness :
  let '(r, st') := reserve_token_outputs_by_outpoints "r1" sample_tokens
    [("x"%string, 0); ("z"%string, 0)] TokenReservationPurpose.Payment in
  is_Ok r = false ∧ st' = sample_tokens.
Proof.
  assert (is_Ok (reserve_token_outputs_by_outpoints "r1" sample_tokens
    [("x"%string, 0); ("z"%string, 0)] TokenReservationPurpose.Payment).1 = false) as Hok
    by (vm_compute; reflexivity).
  pose proof (token_reserve_outpoints_all_or_nothing "r1" sample_tokens
    [("x"%string, 0); ("z"%string, 0)] TokenReservationPurpose.Payment
    (token_reachable_wf _ sample_tokens_reachable)) as Hr.
  rewrite sample_tokens_unreserved in Hr. specialize (Hr (lookup_empty _)).
  destruct (reserve_token_outputs_by_outpoints _ _ _ _) as [[r|e] st']; [discriminate Hok|].
  split; [reflexivity|apply Hr].
Defined.

Example token_cancel_witness :
  reservations (cancel_reservation sample_reserved "r1").2 !! "r1"%string = None.
Proof.
  destruct sample_entry as (e & He & Hs).
  pose proof (token_cancel_is_lossless sample_reserved "r1" e
    {| stored_output := sample_output "y" 8; added_at := 10 |} token_sample_reachable He) as Hc.
  destruct Hc as [_ Hc]; [rewrite Hs; by left|].
  destruct (cancel_reservation _ _) as [r st']. apply Hc.
Defined.

(** The reserved output is reported once more. *)
Example readded_output_witness :
  let st' := (update_token_outputs 20 sample_reserved [] (single sample_metadata [sample_output "y" 8])).2 in
  reservations st' = reservations sample_reserved ∧
  is_Some (pool ← available_token_outputs st' !! "tok"%string; pool_outputs pool !! ("y"%string, 0)).
Proof.
  destruct sample_entry as (e & He & Hs).
  destruct (readded_output_is_reserved_and_available 20 sample_reserved sample_metadata
    (sample_output "y" 8) "r1" e {| stored_output := sample_output "y" 8; added_at := 10 |}
    (token_reachable_wf _ token_sample_reachable) He) as (Hr & pool & s' & Hp & Ho & _);
    [rewrite Hs; by left|reflexivity|reflexivity|].
  split; [exact Hr|]. apply mk_is_Some with s'. apply bind_Some. exists pool.
  split; [exact Hp|exact Ho].
Defined.
