(* ===== verification/SecretSharing.v ===== *)
(** * Verifiable secret sharing: [spark/src/signer/secret_sharing.rs]

    The dealer's side of Feldman's scheme, over the types of the [k256] crate:
    its scalars are a field [F], its curve a vector space [V] over it with a
    generator, and decoding 32 bytes to a scalar may fail. The random bytes are
    an argument. This file uses MathComp and is independent of the others. *)

From Stdlib Require Import String Decimal DecimalString.
From mathcomp Require Import boot algebra.

Set Implicit Arguments.
Unset Strict Implicit.
Unset Printing Implicit Defensive.

Import GRing.Theory.
Local Open Scope ring_scope.

(** [Result<A, SignerError>], with the error this code raises. *)
Inductive SignerError := SecretSharingError (msg : string).

Inductive outcome (A : Type) := Success (a : A) | Failure (e : SignerError).
Arguments Failure {A} e.

Definition and_then (A B : Type) (m : outcome A) (f : A -> outcome B) : outcome B :=
  match m with Success a => f a | Failure e => Failure e end.

(** [usize] as [format!] prints it. *)
Definition show (n : nat) : string := NilZero.string_of_uint (Nat.to_uint n).

Section secret_sharing.
Variables (F : fieldType) (V : lmodType F) (GENERATOR : V).

(** [Scalar::from_repr_vartime] on an array of 32 bytes. *)
Variable from_repr_vartime : seq Byte.byte -> option F.

Record Polynomial := MkPolynomial { coefficients : seq F; poly_proofs : seq V }.

Record SecretShare := MkSecretShare { threshold : nat; index : F; share : F }.

Record VerifiableSecretShare :=
  MkVerifiableSecretShare { secret_share : SecretShare; proofs : seq V }.

(** Horner's method, from the highest coefficient. *)
Definition evaluate (self : Polynomial) (x : F) : F :=
  foldl (fun result coeff => result * x + coeff) 0 (rev (coefficients self)).

Definition from_bytes_to_scalar (bytes : seq Byte.byte) : outcome F :=
  if size bytes != 32%N then
    Failure (SecretSharingError
      (String.append "Invalid byte length for scalar. Expected 32, got " (show (size bytes))))
  else
    match from_repr_vartime bytes with
    | Some scalar => Success scalar
    | None => Failure (SecretSharingError "Failed to convert bytes to scalar")
    end.

(** A public key is a point that is not the identity. *)
Definition scalar_to_pubkey (secret : F) : outcome V :=
  let point := secret *: GENERATOR in
  if point == 0 then Failure (SecretSharingError "Failed to convert scalar to public key")
  else Success point.

(** The loop over [1..=degree]; [draws] are the filled byte buffers. *)
Fixpoint random_terms (draws : seq (seq Byte.byte)) : outcome (seq F * seq V) :=
  match draws with
  | [::] => Success ([::], [::])
  | random_bytes :: draws =>
      and_then (from_bytes_to_scalar random_bytes) (fun random_scalar =>
      and_then (scalar_to_pubkey random_scalar) (fun proof =>
      and_then (random_terms draws) (fun rest =>
      Success (random_scalar :: rest.1, proof :: rest.2))))
  end.

Definition generate_polynomial_for_secret_sharing (rng : nat -> seq Byte.byte) (secret : F)
    (threshold : nat) : outcome Polynomial :=
  let degree := threshold.-1 in
  and_then (scalar_to_pubkey secret) (fun proof =>
  and_then (random_terms (mkseq rng degree)) (fun terms =>
  Success (MkPolynomial (secret :: terms.1) (proof :: terms.2)))).

Definition split_secret_with_proofs (rng : nat -> seq Byte.byte) (secret_scalar : F)
    (threshold number_of_shares : nat) : outcome (seq VerifiableSecretShare) :=
  if (threshold == 0%N) || (number_of_shares < threshold)%N then
    Failure (SecretSharingError
      (String.append "Threshold (" (String.append (show threshold)
      (String.append ") must be greater than 0 and less than or equal to the number of shares ("
      (String.append (show number_of_shares) ")")))))
  else
    and_then (generate_polynomial_for_secret_sharing rng secret_scalar threshold)
      (fun polynomial =>
        Success [seq (let index := i%:R in
                      MkVerifiableSecretShare
                        (MkSecretShare threshold index (evaluate polynomial index))
                        (poly_proofs polynomial))
                | i <- iota 1 number_of_shares]).

(** ** The polynomial behind the shares *)

Lemma evaluateE (p : Polynomial) x : evaluate p x = (Poly (coefficients p)).[x].
Proof.
rewrite /evaluate foldl_rev horner_Poly.
by elim: (coefficients p) => //= c s ->.
Qed.

(** The coefficients [cs] are what the dealer draws above the secret: the first
    [t - 1] buffers of the generator, decoded in order. *)
Definition drawn (rng : nat -> seq Byte.byte) (t : nat) (cs : seq F) : Prop :=
  size cs = t.-1 /\ forall i, (i < t.-1)%N -> from_bytes_to_scalar (rng i) = Success cs`_i.

(** None of the scalars has the identity as its public key. *)
Definition presentable (cs : seq F) : bool := all (fun c => c *: GENERATOR != 0) cs.

Definition commitments (cs : seq F) : seq V := [seq c *: GENERATOR | c <- cs].

Lemma random_termsE draws cs ps :
  random_terms draws = Success (cs, ps) <->
  [/\ size cs = size draws, ps = commitments cs, presentable cs
    & forall i, (i < size draws)%N ->
        from_bytes_to_scalar (nth [::] draws i) = Success cs`_i].
Proof.
split.
  elim: draws cs ps => [|b draws IH] cs ps /=; first by case=> <- <-.
  case B: from_bytes_to_scalar => [c|] //=; rewrite /scalar_to_pubkey; case: eqP => //= c0.
  case: random_terms IH => //= -[cs' ps'] IH [<- <-].
  have [sz -> pres each] := IH _ _ erefl; split=> //=; first by rewrite sz.
    by apply/andP; split=> //; apply/eqP.
  by case=> [|i] //=; rewrite ltnS; apply: each.
elim: draws cs ps => [|b draws IH] [|c cs] ps [] //=; first by move=> _ ->.
move=> [sz] -> /andP[c0 pres] each; have /= -> := each 0%N isT.
rewrite /= /scalar_to_pubkey (negPf c0) /=.
have -> // : random_terms draws = Success (cs, commitments cs).
by apply/IH; split=> // i di; apply: (each i.+1).
Qed.

Lemma generateE rng secret t p :
  generate_polynomial_for_secret_sharing rng secret t = Success p <->
  exists cs, [/\ drawn rng t cs, presentable (secret :: cs)
    & p = MkPolynomial (secret :: cs) (commitments (secret :: cs))].
Proof.
rewrite /generate_polynomial_for_secret_sharing /scalar_to_pubkey; split.
  case: eqP => //= s0; case E: random_terms => [[cs ps]|] //= [<-].
  have [sz -> pres each] := (random_termsE _ _ _).1 E.
  exists cs; split=> //=; last by rewrite pres andbT; apply/eqP.
  move: sz each; rewrite size_mkseq => sz each.
  by split=> // i it; have := each _ it; rewrite nth_mkseq.
move=> [cs [[sz each]]] /= /andP[s0 pres] ->; rewrite (negPf s0) /=.
have -> // : random_terms (mkseq rng t.-1) = Success (cs, commitments cs).
apply/random_termsE; rewrite size_mkseq; split=> // i it.
by rewrite nth_mkseq // each.
Qed.

(** ** Interpolation *)

(** The constant term of the polynomial through [n] points [(xs i, ys i)]. *)
Definition interpolate0 (n : nat) (xs ys : nat -> F) : F :=
  \sum_(i < n) ys i * \prod_(j < n | j != i) (xs j / (xs j - xs i)).

Lemma size_linear (a b : F) : (size (a *: 'X + b%:P)%R <= 2)%N.
Proof.
apply: leq_trans (size_polyD _ _) _; rewrite geq_max.
apply/andP; split; first by rewrite (leq_trans (size_scale_leq _ _)) ?size_polyX.
by rewrite (leq_trans (size_polyC_leq1 _)).
Qed.

Lemma size_prod_linear n (P : pred 'I_n) (p : nat -> {poly F}) :
  (forall j : 'I_n, P j -> (size (p j)%R <= 2)%N) ->
  (size (\prod_(j < n | P j) p j)%R <= #|P|.+1)%N.
Proof.
move=> sp; apply: leq_trans (size_poly_prod_leq _ _) _.
rewrite leq_subLR addnS ltnS -sum1_card -big_split /=.
exact: leq_sum.
Qed.

Section points.
Variables (n : nat) (xs : nat -> F).
Hypothesis xs_distinct : forall i j, (i < n)%N -> (j < n)%N -> xs i = xs j -> i = j.

(** One at [xs i], zero at the other points. *)
Definition basis (i : 'I_n) : {poly F} :=
  \prod_(j < n | j != i) ((xs i - xs j)^-1 *: 'X + (- xs j / (xs i - xs j))%:P).

Lemma size_basis i : (size (basis i) <= n)%N.
Proof.
apply: leq_trans
  (size_prod_linear (p := fun j => (xs i - xs j)^-1 *: 'X + (- xs j / (xs i - xs j))%:P) _) _.
  by move=> j _; apply: size_linear.
by rewrite cardC1 card_ord prednK //; case: i => m; case: (n).
Qed.

Lemma linear_at (d b x : F) : (d^-1 *: 'X + (- b / d)%:P).[x] = (x - b) / d.
Proof. by rewrite !hornerE mulrC -mulrDl. Qed.

Lemma basis_at i (k : 'I_n) : (basis i).[xs k] = (k == i)%:R.
Proof.
rewrite horner_prod; case: eqP => [->|/eqP ki].
  apply: big1 => j ji; rewrite linear_at mulfV // subr_eq0.
  by apply: contra ji => /eqP/xs_distinct ij; apply/eqP/val_inj; rewrite /= ij.
by rewrite (bigD1 k) //= linear_at subrr !mul0r.
Qed.

(** Two polynomials with [n] coefficients that agree on [n] points are equal. *)
Lemma agree_eq (p q : {poly F}) :
  (size p <= n)%N -> (size q <= n)%N -> (forall i, (i < n)%N -> p.[xs i] = q.[xs i]) -> p = q.
Proof.
move=> sp sq pq; apply/eqP; rewrite -subr_eq0; apply/contraT => nz.
have roots : all (root (p - q)) [seq xs i | i <- iota 0 n].
  apply/allP => x /mapP[i]; rewrite mem_iota => /= i_n ->.
  by rewrite rootE !hornerE pq // subrr.
have distinct : uniq [seq xs i | i <- iota 0 n].
  rewrite map_inj_in_uniq ?iota_uniq // => i j; rewrite !mem_iota /= => i_n j_n.
  exact: xs_distinct.
have := max_poly_roots nz roots distinct; rewrite size_map size_iota ltnNge.
by rewrite (leq_trans (size_polyD _ _)) // size_polyN geq_max sp.
Qed.

Lemma interpolation (p : {poly F}) :
  (size p <= n)%N -> interpolate0 n xs (fun i => p.[xs i]) = p.[0].
Proof.
move=> sp; pose q := \sum_(i < n) p.[xs i] *: basis i.
have pq : p = q.
  apply: agree_eq => //.
    apply: leq_trans (size_sum _ _ _) _; apply/bigmax_leqP => i _.
    exact: leq_trans (size_scale_leq _ _) (size_basis i).
  move=> k kn; rewrite horner_sum (bigD1 (Ordinal kn)) //= big1 => [i ik|].
    by rewrite hornerZ (basis_at i (Ordinal kn)) eq_sym (negPf ik) mulr0.
  by rewrite hornerZ (basis_at _ (Ordinal kn)) eqxx mulr1 addr0.
rewrite {2}pq horner_sum; apply: eq_bigr => i _; rewrite hornerZ horner_prod.
congr (_ * _); apply: eq_bigr => j _.
by rewrite linear_at sub0r mulNr -mulrN -invrN opprB.
Qed.
End points.

(** ** What the shares are *)

Definition no_share : VerifiableSecretShare :=
  MkVerifiableSecretShare (MkSecretShare 0 0 0) [::].
Definition share_at (shares : seq VerifiableSecretShare) k := nth no_share shares k.
Definition index_of s := index (secret_share s).
Definition value_of s := share (secret_share s).

(** Lagrange interpolation at zero through the first [t] shares. *)
Definition reconstruct (t : nat) (shares : seq VerifiableSecretShare) : F :=
  interpolate0 t (fun k => index_of (share_at shares k)) (fun k => value_of (share_at shares k)).

(** The check a receiver makes: the share's public key is the combination of the
    coefficients' public keys. *)
Definition verifies (s : VerifiableSecretShare) : Prop :=
  value_of s *: GENERATOR = \sum_(k < size (proofs s)) index_of s ^+ k *: (proofs s)`_k.

(** The field is large enough to tell [n] shares apart. *)
Definition large_field (n : nat) : Prop := forall i, (0 < i <= n)%N -> i%:R != 0 :> F.

Lemma index_inj n i j : large_field n -> (i <= n)%N -> (j <= n)%N -> i%:R = j%:R :> F -> i = j.
Proof.
move=> large; wlog ij : i j / (i <= j)%N.
  by move=> W i_n j_n e; case/orP: (leq_total i j) => le; [apply: W | apply/esym/W].
move=> i_n j_n e; apply/eqP; rewrite eqn_leq ij leqNgt; apply/negP => lt.
have nz : (j - i)%:R != 0 :> F.
  by apply: large; rewrite subn_gt0 lt (leq_trans (leq_subr _ _)).
by rewrite natrB // e subrr eqxx in nz.
Qed.

(** The shares of the polynomial with the coefficients [cs]. *)
Definition shares_on (cs : seq F) (t n : nat) : seq VerifiableSecretShare :=
  [seq MkVerifiableSecretShare (MkSecretShare t i%:R (Poly cs).[i%:R]) (commitments cs)
  | i <- iota 1 n].

Lemma share_atE cs t n k : (k < n)%N ->
  share_at (shares_on cs t n) k =
    MkVerifiableSecretShare (MkSecretShare t k.+1%:R (Poly cs).[k.+1%:R]) (commitments cs).
Proof. by move=> kn; rewrite /share_at (nth_map 0%N) ?size_iota // nth_iota. Qed.

Lemma splitE rng secret t n shares :
  split_secret_with_proofs rng secret t n = Success shares <->
  exists cs, [/\ (0 < t <= n)%N, drawn rng t cs, presentable (secret :: cs)
    & shares = shares_on (secret :: cs) t n].
Proof.
have dealt p : [seq (let index := i%:R in
      MkVerifiableSecretShare (MkSecretShare t index (evaluate p index)) (poly_proofs p))
    | i <- iota 1 n] =
  [seq MkVerifiableSecretShare (MkSecretShare t i%:R (Poly (coefficients p)).[i%:R]) (poly_proofs p)
  | i <- iota 1 n] by apply: eq_map => i /=; rewrite evaluateE.
rewrite /split_secret_with_proofs; split.
  case: ifP => // /norP[t0 tn]; case E: generate_polynomial_for_secret_sharing => [p|] //=.
  move: E => /generateE[cs [dr pres ->]] [<-]; exists cs.
  rewrite dealt; split=> //; rewrite -leqNgt in tn; rewrite -lt0n in t0.
  by rewrite t0.
move=> [cs [/andP[t0 tn] dr pres ->]].
rewrite eqn0Ngt t0 ltnNge tn /=.
have -> /= : generate_polynomial_for_secret_sharing rng secret t =
  Success (MkPolynomial (secret :: cs) (commitments (secret :: cs))).
  by apply/generateE; exists cs.
by rewrite dealt.
Qed.

Lemma constant_term (c : F) cs : (Poly (c :: cs)).[0] = c.
Proof. by rewrite horner_Poly /= mulr0 add0r. Qed.

Section on_polynomial.
Variables (secret : F) (cs : seq F) (t n : nat).
Hypotheses (tn : (0 < t <= n)%N) (sz : size cs = t.-1) (large : large_field n).

Let shares := shares_on (secret :: cs) t n.

Lemma size_coefficients (c : F) (s : seq F) : size s = t.-1 -> (size (Poly (c :: s)) <= t)%N.
Proof. by case/andP: tn => t0 _ ss; rewrite (leq_trans (size_Poly _)) //= ss prednK. Qed.

Lemma reconstructs (ks : seq nat) :
  uniq ks -> all (fun k => k < n)%N ks -> (t <= size ks)%N ->
  reconstruct t [seq share_at shares k | k <- ks] = secret.
Proof.
move=> uks ksn tks.
have at_ks k : (k < t)%N -> share_at [seq share_at shares k | k <- ks] k = share_at shares (nth 0%N ks k).
  by move=> kt; rewrite /share_at (nth_map 0%N) // (leq_trans kt).
have ks_n k : (k < t)%N -> ((nth 0%N ks k) < n)%N.
  by move=> kt; apply: (allP ksn); rewrite mem_nth // (leq_trans kt).
pose xs k : F := (nth 0%N ks k).+1%:R.
have E1 : reconstruct t [seq share_at shares k | k <- ks] =
    interpolate0 t xs (fun i => (Poly (secret :: cs)).[xs i]).
  apply: eq_bigr => i _; rewrite /value_of at_ks // share_atE ?ks_n //.
  congr (_ * _); apply: eq_bigr => j _.
  by rewrite /index_of !at_ks // !share_atE ?ks_n.
rewrite E1 interpolation ?constant_term ?size_coefficients //.
move=> i j it jt /(index_inj large); rewrite !ks_n // => /(_ isT isT) [/eqP].
by rewrite nth_uniq ?(leq_trans it) ?(leq_trans jt) // => /eqP.
Qed.

Lemma verify k : (k < n)%N -> verifies (share_at shares k).
Proof.
move=> kn; rewrite /verifies /value_of /index_of share_atE //.
move: (secret :: cs) => ds; rewrite [size _]size_map.
rewrite (horner_coef_wide _ (size_Poly ds)) scaler_suml; apply: eq_bigr => i _.
by rewrite coef_Poly [nth _ (commitments ds) i](nth_map 0) // scalerA mulrC.
Qed.

(** Fewer than [t] points leave the constant term open. *)
Lemma other_polynomial (ks : seq nat) other :
  all (fun k => k < n)%N ks -> (size ks < t)%N ->
  exists2 ds : seq F, size ds = t.-1
    & forall k, k \in ks -> (Poly (other :: ds)).[k.+1%:R] = (Poly (secret :: cs)).[k.+1%:R].
Proof.
move=> ksn kst; case/andP: tn => t0 _.
pose mask : {poly F} := \prod_(j < size ks | true) ((- (nth 0%N ks j).+1%:R^-1) *: 'X + 1%:P).
pose q := Poly (secret :: cs) + (other - secret) *: mask.
have size_q : (size q <= t)%N.
  rewrite (leq_trans (size_polyD _ _)) // geq_max size_coefficients //=.
  apply: leq_trans (size_scale_leq _ _) _.
  have := @size_prod_linear (size ks) predT
    (fun j => (- (nth 0%N ks j).+1%:R^-1) *: 'X + 1%:P) (fun _ _ => size_linear _ _).
  by rewrite cardT size_enum_ord => /leq_trans; apply.
have q0 : q`_0 = other.
  rewrite -horner_coef0 /q hornerD hornerZ constant_term horner_prod big1.
    by move=> j _; rewrite !hornerE ?mulr0 ?add0r.
  by rewrite mulr1 addrC subrK.
exists (mkseq (fun i => q`_i.+1) t.-1) => [|k kks]; first by rewrite size_mkseq.
have -> : Poly (other :: mkseq (fun i => q`_i.+1) t.-1) = q.
  apply/polyP => -[|i]; rewrite coef_Poly ?q0 //=.
  have [it|ti] := ltnP i t.-1; first by rewrite nth_mkseq.
  by rewrite !nth_default ?size_mkseq // (leq_trans size_q) // -(prednK t0) ltnS.
have kn := allP ksn _ kks; have kj : (seq.index k ks < size ks)%N by rewrite index_mem.
rewrite /q hornerD hornerZ horner_prod (bigD1 (Ordinal kj)) //=; set rest := \prod_(_ < _ | _) _.
rewrite nth_index // hornerD hornerZ hornerX hornerC.
by rewrite mulNr mulVf ?large // addNr /= mul0r mulr0 addr0.
Qed.

(** [t - 1] points and the constant term determine the other coefficients. *)
Lemma same_polynomial (ks : seq nat) other (ds es : seq F) :
  uniq ks -> all (fun k => k < n)%N ks -> size ks = t.-1 ->
  size ds = t.-1 -> size es = t.-1 ->
  (forall k, k \in ks -> (Poly (other :: ds)).[k.+1%:R] = (Poly (other :: es)).[k.+1%:R]) ->
  ds = es.
Proof.
move=> uks ksn sks sds ses same; case/andP: tn => t0 _.
pose pts := 0%N :: [seq k.+1 | k <- ks]; pose xs i : F := (nth 0%N pts i)%:R.
have spts : size pts = t by rewrite /= size_map sks prednK.
have upts : uniq pts.
  rewrite /= (map_inj_uniq succn_inj) uks andbT; apply/mapP; by case.
have pts_n i : (i < t)%N -> (nth 0%N pts i <= n)%N.
  case: i => // i; rewrite -(prednK t0) ltnS -sks => it /=.
  by rewrite (nth_map 0%N) //; apply: (allP ksn); rewrite mem_nth.
have E : Poly (other :: ds) = Poly (other :: es).
  apply: (@agree_eq t xs _ _ _ (size_coefficients _ sds) (size_coefficients _ ses)).
    move=> i j it jt /(index_inj large); rewrite !pts_n // => /(_ isT isT)/eqP.
    by rewrite nth_uniq ?spts // => /eqP.
  case=> [|i] it; first by rewrite /xs /= !constant_term.
  have iks : (i < size ks)%N by rewrite sks -ltnS prednK.
  by rewrite /xs /= (nth_map 0%N) // same // mem_nth.
apply: (@eq_from_nth _ 0); first by rewrite sds ses.
by move=> i _; have := congr1 (fun p : {poly F} => p`_i.+1) E; rewrite !coef_Poly.
Qed.
End on_polynomial.

(** The shares numbered [ks] have the same values. *)
Definition alike (ks : seq nat) (shares shares' : seq VerifiableSecretShare) : Prop :=
  forall k, k \in ks -> value_of (share_at shares' k) = value_of (share_at shares k).

(** C39: Secret sharing. Splitting succeeds only for a threshold [t] from 1 to
    the number of shares [n], and then deals exactly [n] shares, each with the
    public keys of the secret and of the [t - 1] coefficients drawn, in order,
    and each passing the check against them. Any [t] or more shares give the
    secret back by interpolation. Fewer say nothing of it: for every other
    secret there are [t - 1] coefficients such that the dealer who draws them
    deals the same values to those shares (he refuses a scalar whose public key
    is the identity), and for [t - 1] shares there is only one such choice of
    coefficients. The field's order must exceed the number of shares. *)
Theorem split_secret_spec (rng : nat -> seq Byte.byte) secret t n shares :
  large_field n -> split_secret_with_proofs rng secret t n = Success shares ->
  [/\ (0 < t <= n)%N /\ size shares = n,
    exists2 cs, drawn rng t cs & forall k, (k < n)%N ->
      proofs (share_at shares k) = secret *: GENERATOR :: [seq c *: GENERATOR | c <- cs] /\
      verifies (share_at shares k),
    forall ks : seq nat, uniq ks -> all (fun k => k < n)%N ks -> (t <= size ks)%N ->
      reconstruct t [seq share_at shares k | k <- ks] = secret
    & forall (ks : seq nat) other, all (fun k => k < n)%N ks -> (size ks < t)%N ->
      exists ds, [/\ size ds = t.-1,
        forall rng', drawn rng' t ds -> presentable (other :: ds) ->
          exists2 shares', split_secret_with_proofs rng' other t n = Success shares'
            & alike ks shares shares'
        & uniq ks -> size ks = t.-1 -> forall rng' es shares', drawn rng' t es ->
          split_secret_with_proofs rng' other t n = Success shares' ->
          alike ks shares shares' -> es = ds]].
Proof.
move=> large /splitE[cs [tn dr pres ->]]; have [sz _] := dr; split.
- by rewrite size_map size_iota.
- exists cs => // k kn; split; last exact: verify.
  by rewrite share_atE.
- by move=> ks; apply: reconstructs.
move=> ks other ksn kst; have [ds sds same] := other_polynomial secret tn sz large other ksn kst.
exists ds; split=> // [rng' dr' pres'|uks sks rng' es shares' [ses each] /splitE[es' [_ [ses' each'] _ ->]] al].
  exists (shares_on (other :: ds) t n); first by apply/splitE; exists ds.
  by move=> k kks; rewrite /value_of !share_atE ?(allP ksn) //= same.
have ees : es' = es.
  apply: (@eq_from_nth _ 0); first by rewrite ses ses'.
  by move=> i; rewrite ses' => it; have := each' _ it; rewrite each // => -[].
rewrite {}ees in al; apply: (same_polynomial (other := other) tn large uks ksn) => // k kks.
have := al _ kks; rewrite /value_of !share_atE ?(allP ksn) //= => ->.
by rewrite same.
Qed.
End secret_sharing.

(** ** Five shared among three, two of whom suffice, modulo seven *)

Local Notation F7 := 'F_7.

Definition seven_from_repr (bytes : seq Byte.byte) : option F7 :=
  if nth Byte.x00 bytes 0 is Byte.x03 then Some 3%:R else None.

Definition threes (_ : nat) : seq Byte.byte := nseq 32 Byte.x03.

Definition dealt_shares : outcome (seq (@VerifiableSecretShare F7 (F7^o))) :=
  split_secret_with_proofs (1 : F7^o) seven_from_repr threes (5%:R : F7) 2 3.

Lemma seven_large : large_field F7 3.
Proof. by case=> [|[|[|[|]]]]. Qed.

Lemma dealt_ok : if dealt_shares is Success _ then true else false.
Proof. by vm_compute. Qed.

Example split_secret_witness :
  if dealt_shares is Success shares then
    reconstruct 2 [seq share_at shares k | k <- [:: 2; 0]%N] = 5%:R
  else False.
Proof.
move: dealt_ok; case E: dealt_shares => [shares|] // _.
have [_ _ back _] := @split_secret_spec F7 F7^o (1 : F7^o) seven_from_repr threes 5%:R 2 3 shares
  seven_large E.
exact: back.
Defined.
